(* ===== verification/_CoqProject ===== *)
-Q . S2P
Prelude.v
StrMap.v
UtcTime.v
Floats.v
Config.v
Endpoints.v
Secrets.v
Yaml.v
ConfigParse.v
ConfigDiff.v
OperationQueue.v
OperationQueueSpec.v
SourceHealth.v
Util.v
AlarmWorker.v
AlarmWorkerSpec.v
AlarmLink.v
ConfigSafety.v
NTNDArray.v
Acf.v
AcfGrammar.v
PVRegistry.v
PVRegistrySpec.v
QueuedExec.v
Runtime.v
RuntimeFacts.v
RuntimeSpec.v
NDRuntime.v
Discovery.v
DiscoverySpec.v
DiscoveryIO.v
ChannelFinder.v
ChannelFinderSpec.v
AccessBindings.v
AccessPolicy.v
Generation.v
AccessRights.v
AccessAudit.v
AccessAuditSpec.v
App.v
AppFacts.v
AppSpec.v
AppRun.v
Admin.v
AdminSpec.v
CNumber.v
CNumberSpec.v
GrpcBridge.v
GrpcBridgeSpec.v
RpcPV.v
ChannelFinderSync.v
Main.v
StreamCapacity.v
