(* ===== verification/Prelude.v ===== *)
(** * Verification of redis-pvxs-ioc

    The program is an EPICS PV Access server (C++) whose process variables
    live in Redis streams.  A YAML file names the PVs, their Redis keys, their
    metadata and alarm limits; the program subscribes to the keys, publishes
    each sample as a PVXS value with its alarm, writes back through bounded
    queues, streams alarm changes to Redis, checks clients against an EPICS
    access policy, forwards calls to gRPC services, announces its names to
    RecCeiver and ChannelFinder, and replaces its namespace on reload without
    a restart.  This development models the parts that decide what the program
    does; the libraries underneath are parameters and interfaces with laws.

    ** Layout: which file models which source

    Shared ground:
    - [Prelude] (this file): exceptions as the error monad [exn], record
      update, wrapping integers of 8 to 64 bits, strings and decimal text,
      sums over finite maps, the tactics [ex_inv] and [bool_split], the hint
      database [ioc].
    - [StrMap]: [std::map<std::string, V>] and [std::set<std::string>] as
      association lists kept in key order, because iteration order is visible.
    - [Floats]: IEEE 754 arithmetic of [float] and [double] on [spec_float],
      with the comparison of util.h.
    - [CNumber], [CNumberSpec]: [strtoll], [strtoull], [strtof] and [strtod] as
      src/grpc_bridge.cpp uses them; the second file has a grammar of the texts
      with their exact values, and the proof that floats are nearest to them.
    - [UtcTime]: [gmtime_r] and the time texts made from it; lines of fields
      and how they are read back.
    - [Yaml]: the document tree of yaml-cpp, the lexical operations of
      [std::filesystem::path], and the interface [YamlConv]/[YamlLaws] to the
      scalar conversions of the library.

    Configuration:
    - [Config] (include/redis_pvxs_ioc/config.h, end of src/config.cpp): the
      data, comparisons, printing and served names.
    - [Endpoints] (endpoints.h): reservation of the served names.
    - [Secrets] (src/secrets.cpp): credential files and variables.
    - [ConfigParse] (src/config.cpp): [parseConfig] and all it calls.
    - [ConfigDiff] (src/config_diff.cpp): the reload plan and its JSON report.
    - [ConfigSafety]: what holds of every accepted configuration, across the
      parser, the registry of names, the diff, the queues and the alarm
      publisher ([writeQueueLimits], [rpcQueueLimits] and
      [buildAlarmPublisher] of src/app.cpp).

    Concurrent components, each as the critical sections of its threads and a
    relation of reachable states; the claims are proved for every
    interleaving:
    - [OperationQueue], [OperationQueueSpec] (src/operation_queue.cpp): the
      bounded per-key work queue; the second file has the abstract queue
      [astep], the refinement and the guarantees.
    - [QueuedExec] (queued_exec.h): the handle of one queued operation.
    - [AlarmWorker], [AlarmWorkerSpec] (src/alarm_worker.cpp,
      src/alarm_publisher.cpp): budget, slots, ring and worker of the alarm
      stream.
    - [AlarmLink] (src/alarm_worker.cpp): its connection, authentication and
      commands to the Redis server.
    - [PVRegistry], [PVRegistrySpec] (src/pv_registry.cpp): preparation and
      publication of the namespace, retirement of registrations, creation of
      channels.
    - [Discovery], [DiscoverySpec] (src/discovery.cpp): the catalog on the wire
      and the publisher that uploads it.
    - [DiscoveryIO] (src/discovery.cpp): its conversation with a receiver, with
      deadlines, interruptions and partial sends and receives.

    PVs:
    - [Util] (src/util.cpp, util.h): numeric alarms, time stamps, metadata,
      transforms; [PvxsValue] is the interface to the PVXS value, with
      [MapValue] as its instance.
    - [SourceHealth] (src/source_health.cpp): readiness of a source.
    - [NTNDArray] (src/ntndarray.cpp): image frames.
    - [Runtime], [RuntimeFacts], [RuntimeSpec] (src/runtime.cpp): the runtime
      of a typed PV, its samples, health, reloads and confirmed writes.
    - [NDRuntime] (src/runtime.cpp): the runtime of a frame PV and the choice
      of a runtime.

    Access control (src/access_control.cpp):
    - [Acf], [AcfGrammar]: reading, macro expansion, tokenizing and checking an
      ACF text; the second file has the grammar and the proof that the parser
      decides it.
    - [AccessPolicy]: the policy in force, its reloads and its file watcher.
    - [AccessBindings]: access members published with the names.
    - [AccessRights]: cached rights, admission and accounting of operations.
    - [AccessAudit], [AccessAuditSpec]: the life of secured channels, the
      wrapped operations and the lines of the log; what the log tells.

    The application (src/app.cpp, src/main.cpp):
    - [Generation]: the parts of a generation, from backends to the catalog.
    - [App], [AppFacts], [AppSpec], [AppRun]: applying a generation, reload,
      recovery of RPC services, start, pump and stop; [AppSpec] and [AppRun]
      hold the theorems about one reload and about whole runs.  A pump is one
      turn of the main thread; [pumpViews] lists the states that the server's
      threads can find during it, among them the one between the activation of
      a policy and the publication of its names.
    - [Admin], [AdminSpec]: the diagnostic PVs and what they show.
    - [Main]: the command line, the check of a file and the main loop.

    Remote calls and catalogs:
    - [GrpcBridge], [GrpcBridgeSpec] (src/grpc_bridge.cpp): requests, replies
      and the discovery of services over reflection.
    - [RpcPV] (src/rpc_pv.cpp): a call from its arguments to its answer, as the
      steps of parallel workers, the deadline timer and cancelling clients.
    - [ChannelFinder], [ChannelFinderSpec] (src/channelfinder.cpp): the
      channels of a configuration and their JSON text.
    - [ChannelFinderSync] (tools/channelfinder_sync.cpp): publishing them.
    - [StreamCapacity] (tools/stream_capacity.cpp): the options and the counts of
      the capacity measurement.

    ** What the theorems show

    - Operation queue: refinement of an abstract FIFO per key, exact
      bookkeeping within the limits, order per key, callbacks at most once,
      nothing forgotten, progress; a queued operation is answered once.
    - Alarm publisher: when it reports ready, the latest state of every
      registration was accepted last; memory within the budget; commands only
      go out on a connection that was authenticated as configured.
    - Registry: exactly the published registrations forward operations; no
      channel escapes retirement; a publication installs the desired names.
    - Configuration: an accepted document gives well-formed PVs, a valid
      namespace and limits under which the components start; the diff is
      specified name by name and its report reads back.
    - Runtimes: which entries are used and what the PV then shows; a put is
      answered once and with success only when it took effect (or when the text
      of a failure is empty, which the handle takes for success); written values
      match the configuration of that moment; every value shown can be traced to
      the initial sample, an entry that was received or a put that was accepted;
      a retired runtime is silent; frames are shown whole.
    - Access: acceptance of a policy is exactly the grammar; the policy in
      force is a checked one that defines every group in use; cached rights are
      current once nothing is owed (and the case in which they are not);
      operations and channels are accounted for and the audit trail reads back
      from the log; members follow the served names.
    - Application: a reload takes over whole or not at all; through any run
      exactly the names of the configuration in force are served by live
      runtimes, their groups defined but for the moment in which a reload is
      committed; RPC services settle; what starts or is committed by a reload
      passes the check of the command line; stopping leaves nothing.
    - Diagnostics: what is recorded is what clients read, whole and current,
      and the ready PV is truthful.
    - Calls: requests carry exactly the arguments and defaults, each as what its
      text means in the type of its field, replies decode leaf by leaf within
      the limit, and calls are accounted for while they are in flight and after.
    - Catalogs: a receiver is sent exactly its catalog however the network cuts
      it, and the catalog and the JSON text read back; the status of the
      publisher is true, and an upload that was overtaken sends at most one more
      piece; publication is refused when unsafe.

    ** Bounds and fuel

    Counters are 64-bit and wrap; theorems about reachable states assume fewer
    than 2^64 steps, or less than half of that many pumps, which no execution
    reaches.  Objects of the application are numbered by [Z] in order of
    creation.  Loops of the sources that are not structural take fuel that is
    proved enough: the shape of a frame has at most three dimensions (four
    rounds); the tokenizer gets one round per byte and the policy parser one
    per token, and [inspectAcf_decides] includes that they never run out; the
    expansion buffer doubles at most eleven times up to 4 MiB (twelve rounds,
    [expandMacros_complete]); searches of message descriptors stop at their
    depth limit ([bridge_searches_stop]).  Loops driven by the outside (reads,
    polls, received bytes) run over the list of what the outside delivers.
    The reader used to state JSON round trips takes any fuel that is enough.

    ** Outside the model

    Parameters with stated laws: yaml-cpp conversions, the PVXS value and its
    types, macLib, file contents and the environment, clocks, the RedisAdapter
    and hiredis, the EPICS access library, sockets, the gRPC transport and the
    serialisation of protobuf messages, libcurl.  Not modelled: the classes
    that only forward calls to PVXS objects, constructors and destructors that
    only move members, and the benchmark and probe programs
    tools/access_benchmark.cpp and tools/qualification_probe.cpp, which time and
    print what the libraries do. *)

From stdpp Require Export base decidable option list gmap strings pretty sorting.
From Stdlib Require Export ZArith Lia.
#[export] Set Default Goal Selector "!".

(** ** C++ exceptions

    A C++ function that may throw a [std::exception] is a function into
    [exn A]; the string is the exception's [what()]. *)

Inductive exn (A : Type) : Type :=
| Ret (a : A)
| Throw (what : string).
Arguments Ret {A} a.
Arguments Throw {A} what.

#[export] Instance exn_ret : MRet exn := fun A a => Ret a.
#[export] Instance exn_bind : MBind exn := fun A B f m =>
  match m with Ret a => f a | Throw w => Throw w end.
#[export] Instance exn_fmap : FMap exn := fun A B f m =>
  match m with Ret a => Ret (f a) | Throw w => Throw w end.
#[export] Instance exn_eq_dec {A} `{EqDecision A} : EqDecision (exn A).
Proof. solve_decision. Defined.

Declare Scope ioc_scope.
Delimit Scope ioc_scope with ioc.
Open Scope ioc_scope.

(** [throw_if b msg; k] is [if (b) throw std::runtime_error(msg); k]. *)
Definition throw_if (b : bool) (what : string) : exn unit :=
  if b then Throw what else Ret tt.

Definition is_ret {A} (m : exn A) : bool := match m with Ret _ => true | Throw _ => false end.

Lemma exn_bind_ret {A B} (m : exn A) (f : A -> exn B) b :
  m ≫= f = Ret b <-> exists a, m = Ret a /\ f a = Ret b.
Proof. destruct m; cbn; naive_solver. Qed.

Lemma throw_if_ret b what u : throw_if b what = Ret u <-> b = false.
Proof. destruct b, u; cbn; naive_solver. Qed.

(** Runs a fallible body over a list, left to right, threading a state. *)
Fixpoint exn_fold {S A} (f : S -> A -> exn S) (s : S) (l : list A) : exn S :=
  match l with
  | [] => Ret s
  | x :: l' => s' ← f s x; exn_fold f s' l'
  end.

Lemma exn_fold_app {S A} (f : S -> A -> exn S) s l1 l2 :
  exn_fold f s (l1 ++ l2) = s' ← exn_fold f s l1; exn_fold f s' l2.
Proof.
  revert s; induction l1 as [|x l1 IH]; intros s; cbn; [done|].
  destruct (f s x); cbn; auto.
Qed.

(** An invariant preserved by every successful body is preserved by the fold. *)
Lemma exn_fold_inv {S A} (P : S -> Prop) (f : S -> A -> exn S) s l s' :
  P s -> (forall s1 x s2, x ∈ l -> P s1 -> f s1 x = Ret s2 -> P s2) ->
  exn_fold f s l = Ret s' -> P s'.
Proof.
  revert s; induction l as [|x l IH]; intros s Hs Hf; cbn.
  { naive_solver. }
  intros (s1 & Hx & Hl)%exn_bind_ret. eapply (IH s1); [| |done].
  - eapply Hf; [|done|done]. left.
  - intros ????. eapply Hf. by right.
Qed.

(** ** Record update

    [r <| f := v |>] is the C++ assignment [r.f = v].  A record opts in by
    giving its eta expansion; the update function of each field is derived
    from it by replacing the field's projection. *)

Class Eta (R : Type) := eta_of : R -> R.
Class FieldUpdate {R F : Type} (p : R -> F) := field_update : (F -> F) -> R -> R.
Arguments field_update {R F} p {_} g r /.

Ltac derive_field_update :=
  lazymatch goal with
  | |- @FieldUpdate ?R ?F ?p =>
      let inst := constr:(_ : Eta R) in
      let e := eval red in inst in
      exact (fun (g : F -> F) (r : R) =>
        ltac:(let body := eval cbv beta in (e r) in
              let pr := eval cbv beta in (p r) in
              lazymatch eval pattern pr in body with
              | ?h _ => let upd := eval cbv beta in (h (g pr)) in exact upd
              end))
  end.
#[export] Hint Extern 1 (FieldUpdate _) => derive_field_update : typeclass_instances.

Notation "r <| p := v |>" := (field_update p (fun _ => v) r)
  (at level 1, left associativity, p at level 10, v at level 200) : ioc_scope.
Notation "r <| p ::= f |>" := (field_update p f r)
  (at level 1, left associativity, p at level 10, f at level 200) : ioc_scope.

(** ** Fixed-width integers

    C++ unsigned arithmetic is arithmetic modulo [2^w]; a signed conversion
    keeps the low bits and reads them in two's complement. *)

Definition u8 (z : Z) : Z := (z mod 2 ^ 8)%Z.
Definition u16 (z : Z) : Z := (z mod 2 ^ 16)%Z.
Definition u32 (z : Z) : Z := (z mod 2 ^ 32)%Z.
Definition u64 (z : Z) : Z := (z mod 2 ^ 64)%Z.
Definition signed (w z : Z) : Z :=
  (let m := z mod 2 ^ w in if m <? 2 ^ (w - 1) then m else m - 2 ^ w)%Z.
Definition i32 (z : Z) : Z := signed 32 z.
Definition i64 (z : Z) : Z := signed 64 z.

Definition max_u32 : Z := (2 ^ 32 - 1)%Z.
Definition max_u64 : Z := (2 ^ 64 - 1)%Z.
Definition max_i32 : Z := (2 ^ 31 - 1)%Z.
Definition min_i32 : Z := (- 2 ^ 31)%Z.
Definition max_i64 : Z := (2 ^ 63 - 1)%Z.
Definition min_i64 : Z := (- 2 ^ 63)%Z.

Lemma u64_id z : (0 <= z < 2 ^ 64)%Z -> u64 z = z.
Proof. apply Z.mod_small. Qed.
Lemma u32_id z : (0 <= z < 2 ^ 32)%Z -> u32 z = z.
Proof. apply Z.mod_small. Qed.
Lemma u64_range z : (0 <= u64 z < 2 ^ 64)%Z.
Proof. by apply Z.mod_pos_bound. Qed.
Lemma u32_range z : (0 <= u32 z < 2 ^ 32)%Z.
Proof. by apply Z.mod_pos_bound. Qed.

Lemma signed_range w z : (0 < w)%Z -> (- 2 ^ (w - 1) <= signed w z < 2 ^ (w - 1))%Z.
Proof.
  intros Hw. unfold signed.
  pose proof (Z.mod_pos_bound z (2 ^ w) ltac:(lia)) as Hm.
  assert (2 ^ w = 2 * 2 ^ (w - 1))%Z as Hp.
  { rewrite <-Z.pow_succ_r by lia. f_equal; lia. }
  destruct (Z.ltb_spec (z mod 2 ^ w) (2 ^ (w - 1))); lia.
Qed.

Lemma signed_id w z :
  (0 < w)%Z -> (- 2 ^ (w - 1) <= z < 2 ^ (w - 1))%Z -> signed w z = z.
Proof.
  intros Hw Hz. unfold signed.
  assert (2 ^ w = 2 * 2 ^ (w - 1))%Z as Hp.
  { rewrite <-Z.pow_succ_r by lia. f_equal; lia. }
  destruct (decide (0 <= z)%Z).
  - rewrite Z.mod_small by lia. by destruct (Z.ltb_spec z (2 ^ (w - 1))); [|lia].
  - assert (z mod 2 ^ w = z + 2 ^ w)%Z as ->.
    { symmetry; apply (Z.mod_unique _ _ (-1)); lia. }
    destruct (Z.ltb_spec (z + 2 ^ w) (2 ^ (w - 1))); lia.
Qed.

(** ** Strings *)

(** [std::string::size()] *)
Definition strlen (s : string) : Z := Z.of_nat (String.length s).

Lemma strlen_nonneg s : (0 <= strlen s)%Z.
Proof. unfold strlen; lia. Qed.

(** [s.empty()] *)
Definition str_empty (s : string) : bool := match s with EmptyString => true | _ => false end.

Lemma str_empty_true s : str_empty s = true <-> s = EmptyString.
Proof. by destruct s. Qed.

(** [s.find('\0') != npos] *)
Fixpoint has_nul (s : string) : bool :=
  match s with
  | EmptyString => false
  | String c s' => bool_decide (c = Ascii.zero) || has_nul s'
  end.

Lemma str_app_cons c a b : String c a +:+ b = String c (a +:+ b).
Proof. done. Qed.

Lemma str_length_app a b : String.length (a +:+ b) = (String.length a + String.length b)%nat.
Proof. induction a as [|c a IH]; [done|]. rewrite str_app_cons. cbn. by rewrite IH. Qed.

Lemma has_nul_app a b : has_nul (a +:+ b) = has_nul a || has_nul b.
Proof.
  induction a as [|c a IH]; [done|]. rewrite str_app_cons. cbn. by rewrite IH, orb_assoc.
Qed.

Lemma str_app_inj_l a b c : a +:+ b = a +:+ c -> b = c.
Proof. induction a as [|x a IH]; [done|]. rewrite !str_app_cons. intros [= ?]; auto. Qed.

Lemma str_app_nil_r a : a +:+ EmptyString = a.
Proof. induction a as [|c a IH]; [done|]. by rewrite str_app_cons, IH. Qed.

Lemma str_app_assoc a b c : a +:+ (b +:+ c) = (a +:+ b) +:+ c.
Proof. induction a as [|x a IH]; [done|]. by rewrite !str_app_cons, IH. Qed.

Lemma substring_all n s : (String.length s <= n)%nat -> String.substring 0 n s = s.
Proof.
  revert n; induction s as [|c s IH]; intros [|n] H; cbn in *; try done; [lia|]. f_equal. apply IH. lia.
Qed.

Lemma substring_length n s : (n <= String.length s)%nat -> String.length (String.substring 0 n s) = n.
Proof.
  revert s; induction n as [|n IH]; intros [|c s]; cbn; try lia. intros. rewrite IH; lia.
Qed.

Lemma substring_length_le n s : (String.length (String.substring 0 n s) <= n)%nat.
Proof. revert n; induction s as [|c s IH]; intros [|n]; cbn; try lia. specialize (IH n). lia. Qed.

Lemma substring_prefix n s : exists rest, s = String.substring 0 n s +:+ rest.
Proof.
  revert s; induction n as [|n IH]; intros [|c s]; cbn; try (by eexists).
  destruct (IH s) as [rest Hr]. exists rest. by rewrite str_app_cons, <-Hr.
Qed.

(** The code of a character, 0 to 255. *)
Definition ascii_code (c : Ascii.ascii) : Z := Z.of_N (Ascii.N_of_ascii c).

(** [std::to_string] of an integer. *)
Definition to_dec (z : Z) : string := pretty z.

(** Decimal digits, as [std::from_chars] reads them. *)
Definition is_digit (c : Ascii.ascii) : bool := ((48 <=? ascii_code c) && (ascii_code c <=? 57))%Z.
Definition digit_value (c : Ascii.ascii) : Z := (ascii_code c - 48)%Z.

Fixpoint dec_value (acc : Z) (s : string) : Z :=
  match s with
  | EmptyString => acc
  | String c s' => dec_value (acc * 10 + digit_value c)%Z s'
  end.

Fixpoint all_digits (s : string) : bool :=
  match s with EmptyString => true | String c s' => is_digit c && all_digits s' end.

(** The longest prefix of digits and what follows it. *)
Fixpoint span_digits (s : string) : string * string :=
  match s with
  | EmptyString => (EmptyString, EmptyString)
  | String c s' => if is_digit c then let '(a, b) := span_digits s' in (String c a, b) else (EmptyString, s)
  end.

Lemma span_digits_app a b :
  all_digits a = true -> span_digits b = (EmptyString, b) -> span_digits (a +:+ b) = (a, b).
Proof.
  intros Ha Hb. induction a as [|c a IH]; [done|]. rewrite str_app_cons. cbn in *.
  apply andb_true_iff in Ha as [-> Ha]. by rewrite (IH Ha).
Qed.

Lemma pretty_N_char_digit n :
  (n < 10)%N -> is_digit (pretty_N_char n) = true /\ digit_value (pretty_N_char n) = Z.of_N n.
Proof.
  intros Hn. rewrite <-(N2Nat.id n) in *. set (m := N.to_nat n) in *. clearbody m.
  do 10 (destruct m as [|m]; [done|]). lia.
Qed.

Lemma pretty_N_go_digits x s :
  dec_value 0 (pretty_N_go x s) = dec_value (Z.of_N x) s /\
  (all_digits s = true -> all_digits (pretty_N_go x s) = true) /\
  ((0 < x)%N \/ s <> EmptyString -> pretty_N_go x s <> EmptyString).
Proof.
  revert s. induction (N.lt_wf_0 x) as [x _ IH]; intros s.
  destruct (decide (0 < x)%N) as [Hx|Hx].
  - rewrite pretty_N_go_step by done.
    pose proof (N.mod_lt x 10 ltac:(lia)) as Hm. destruct (pretty_N_char_digit _ Hm) as [Hd Hv].
    destruct (IH (x `div` 10)%N ltac:(apply N.div_lt; lia) (String (pretty_N_char (x `mod` 10)) s)) as (H1 & H2 & H3).
    split_and!.
    + rewrite H1. cbn. rewrite Hv. f_equal. pose proof (N.div_mod x 10 ltac:(lia)). lia.
    + intros Hs. apply H2. cbn. by rewrite Hd.
    + intros _. apply H3. by right.
  - assert (x = 0)%N as -> by lia. rewrite pretty_N_go_0. split_and!; [done|done|]. intros [?|?]; [lia|done].
Qed.

(** Printing then reading a non-negative number. *)
Lemma to_dec_digits z :
  (0 <= z)%Z -> dec_value 0 (to_dec z) = z /\ all_digits (to_dec z) = true /\ to_dec z <> EmptyString.
Proof.
  intros Hz. unfold to_dec. destruct z as [|p|p]; [done| |lia].
  change (pretty (Z.pos p)) with (if decide (N.pos p = 0%N) then "0"%string else pretty_N_go (N.pos p) EmptyString).
  destruct (pretty_N_go_digits (N.pos p) EmptyString) as (H1 & H2 & H3). rewrite decide_False by done.
  split_and!; [by rewrite H1|by apply H2|apply H3; left; lia].
Qed.

(** ** Sums over finite maps *)

Section msum.
Context {K V : Type} `{Countable K}.
Implicit Types (f : V -> Z) (m : gmap K V).

Definition msum f m : Z := map_fold (fun _ v acc => f v + acc)%Z 0%Z m.

Lemma msum_empty f : msum f ∅ = 0%Z.
Proof. apply map_fold_empty. Qed.

Lemma msum_insert f m k v : m !! k = None -> msum f (<[k:=v]> m) = (f v + msum f m)%Z.
Proof.
  intros Hk. unfold msum.
  rewrite (map_fold_insert_L (fun (_ : K) v acc => (f v + acc)%Z) 0%Z k v m); [done| |done].
  intros. lia.
Qed.

Lemma msum_delete f m k v : m !! k = Some v -> msum f (delete k m) = (msum f m - f v)%Z.
Proof.
  intros Hk. rewrite <-(insert_delete_id m k v Hk) at 2.
  rewrite msum_insert by apply lookup_delete_eq. lia.
Qed.

Lemma msum_update f m k v v' :
  m !! k = Some v -> msum f (<[k:=v']> m) = (msum f m - f v + f v')%Z.
Proof.
  intros Hk. rewrite <-(insert_delete_eq m k v').
  rewrite msum_insert by apply lookup_delete_eq. rewrite (msum_delete f m k v Hk). lia.
Qed.

Lemma msum_le f g m :
  (forall k v, m !! k = Some v -> f v <= g v)%Z -> (msum f m <= msum g m)%Z.
Proof.
  induction m as [|k v m Hk IH] using map_ind; [by rewrite !msum_empty|].
  intros Hle. rewrite !msum_insert by done.
  assert (f v <= g v)%Z by (apply (Hle k); apply lookup_insert_eq).
  assert (msum f m <= msum g m)%Z; [|lia].
  apply IH. intros k' v' Hk'. apply (Hle k'). rewrite lookup_insert_ne by congruence. done.
Qed.

Lemma msum_fmap f (h : V -> V) m : msum f (h <$> m) = msum (fun v => f (h v)) m.
Proof.
  induction m as [|k v m Hk IH] using map_ind; [by rewrite fmap_empty, !msum_empty|].
  rewrite fmap_insert, !msum_insert; [by rewrite IH|done|]. by rewrite lookup_fmap, Hk.
Qed.

Lemma msum_scale c f m : msum (fun v => c * f v)%Z m = (c * msum f m)%Z.
Proof.
  induction m as [|k v m Hk IH] using map_ind; [by rewrite !msum_empty, Z.mul_0_r|].
  rewrite !msum_insert by done. rewrite IH. lia.
Qed.

Lemma msum_add f g m : msum (fun v => f v + g v)%Z m = (msum f m + msum g m)%Z.
Proof.
  induction m as [|k v m Hk IH] using map_ind; [by rewrite !msum_empty|].
  rewrite !msum_insert by done. rewrite IH. lia.
Qed.

Lemma msum_nonneg f m : (forall k v, m !! k = Some v -> 0 <= f v)%Z -> (0 <= msum f m)%Z.
Proof.
  intros Hf. pose proof (msum_le (fun _ => 0 * 0)%Z f m ltac:(naive_solver)) as Hle.
  rewrite msum_scale in Hle. lia.
Qed.

Lemma msum_lookup_le f m k v :
  (forall k v, m !! k = Some v -> 0 <= f v)%Z -> m !! k = Some v -> (f v <= msum f m)%Z.
Proof.
  intros Hf Hk. assert (0 <= msum f (delete k m))%Z.
  { apply msum_nonneg. intros k' v' [_ ?]%lookup_delete_Some. eauto. }
  rewrite (msum_delete f m k v Hk) in *. lia.
Qed.
End msum.

(** ** Sorted lists *)

Lemma StronglySorted_filter {A} (R : A -> A -> Prop) (P : A -> Prop)
    `{forall x, Decision (P x)} (l : list A) :
  StronglySorted R l -> StronglySorted R (filter P l).
Proof.
  induction 1 as [|x l Hs IH Hx]; [constructor|].
  rewrite filter_cons. case_decide; [|done]. constructor; [done|].
  rewrite Forall_forall in *. intros y [? ?]%list_elem_of_filter. auto.
Qed.

Lemma StronglySorted_snoc {A} (R : A -> A -> Prop) (l : list A) (x : A) :
  StronglySorted R l -> (forall y, y ∈ l -> R y x) -> StronglySorted R (l ++ [x]).
Proof.
  induction 1 as [|y l Hs IH Hy]; intros Hx; cbn; [repeat constructor|].
  constructor; [apply IH; intros; apply Hx; by right|].
  apply Forall_app. split; [done|]. constructor; [|constructor]. apply Hx. left.
Qed.

Lemma sublist_fmap_filter {A B} (f : A -> B) (P : A -> Prop) `{forall x, Decision (P x)} (l : list A) :
  sublist (f <$> filter P l) (f <$> l).
Proof.
  induction l as [|x l IH]; [done|]. rewrite filter_cons. case_decide; rewrite ?fmap_cons; by constructor.
Qed.

Lemma list_filter_id {A} (P : A -> Prop) `{forall x, Decision (P x)} (l : list A) :
  (forall x, x ∈ l -> P x) -> filter P l = l.
Proof.
  induction l as [|x l IH]; intros HP; [done|].
  rewrite filter_cons, decide_True by (apply HP; left). f_equal. apply IH. intros; apply HP; by right.
Qed.

Lemma elem_of_nil_inv_list {A} (l : list A) : (forall x, x ∉ l) -> l = [].
Proof. destruct l as [|x l]; [done|]. intros H. destruct (H x). left. Qed.

Lemma list_filter_none {A} (P : A -> Prop) `{forall x, Decision (P x)} (l : list A) :
  (forall x, x ∈ l -> ~ P x) -> filter P l = [].
Proof.
  induction l as [|x l IH]; intros HP; [done|].
  rewrite filter_cons, decide_False by (apply HP; left). apply IH. intros; apply HP; by right.
Qed.

Lemma elem_of_insert_inv {A} (l : list A) i x y : x ∈ <[i := y]> l -> x = y \/ x ∈ l.
Proof.
  revert i. induction l as [|z l IH]; intros [|i]; cbn; try (by right); intros [->|Hin]%elem_of_cons; auto.
  - right. by right.
  - right. left.
  - destruct (IH _ Hin); [by left|right; by right].
Qed.

(** ** Automation *)

Create HintDb ioc discriminated.
#[export] Hint Resolve u64_range u32_range strlen_nonneg : ioc.

(** Destructs the scrutinees of [match]es and [if]s in a hypothesis or the goal
    that stands for a call that returned. *)
Ltac ex_inv :=
  repeat match goal with
  | H : Throw _ = Ret _ |- _ => discriminate H
  | H : Ret _ = Ret _ |- _ => injection H as H
  | H : mbind _ _ = Ret _ |- _ => apply exn_bind_ret in H as (? & ? & H)
  | H : throw_if _ _ = Ret _ |- _ => apply throw_if_ret in H
  end; simplify_eq.

(** Splits a boolean hypothesis into its atoms, as propositions. *)
Ltac bool_split :=
  repeat match goal with
  | H : _ && _ = true |- _ => apply andb_true_iff in H as [? ?]
  | H : _ || _ = false |- _ => apply orb_false_iff in H as [? ?]
  | H : negb _ = true |- _ => apply negb_true_iff in H
  | H : negb _ = false |- _ => apply negb_false_iff in H
  | H : bool_decide _ = true |- _ => apply bool_decide_eq_true_1 in H
  | H : bool_decide _ = false |- _ => apply bool_decide_eq_false_1 in H
  | H : (_ <=? _)%Z = true |- _ => apply Z.leb_le in H
  | H : (_ <=? _)%Z = false |- _ => apply Z.leb_gt in H
  | H : (_ <? _)%Z = true |- _ => apply Z.ltb_lt in H
  | H : (_ <? _)%Z = false |- _ => apply Z.ltb_ge in H
  | H : (_ =? _)%Z = true |- _ => apply Z.eqb_eq in H
  | H : (_ =? _)%Z = false |- _ => apply Z.eqb_neq in H
  end.
