(* ===== verification/StrMap.v ===== *)
(** * [std::map<std::string, V>] and [std::set<std::string>]

    The sources iterate these containers and the iteration order reaches
    served names, diffs and wire bytes, so they are modelled as association
    lists kept in the order of [std::string::operator<] (lexicographic on
    unsigned bytes), not as unordered finite maps. *)

From stdpp Require Import sorting.
From S2P Require Import Prelude.

Definition smap (V : Type) : Type := list (string * V).

Definition str_lt (a b : string) : Prop := (a ?= b)%string = Lt.

Section smap.
Context {V : Type}.
Implicit Types (m : smap V) (k : string) (v : V).

(** [m.find(k)] *)
Fixpoint sm_find k m : option V :=
  match m with
  | [] => None
  | (k', v') :: m' => if String.eqb k k' then Some v' else sm_find k m'
  end.

(** [m.count(k) != 0] *)
Definition sm_has k m : bool := match sm_find k m with Some _ => true | None => false end.

(** [m[k] = v] *)
Fixpoint sm_set k v m : smap V :=
  match m with
  | [] => [(k, v)]
  | (k', v') :: m' =>
      match (k ?= k')%string with
      | Lt => (k, v) :: (k', v') :: m'
      | Eq => (k, v) :: m'
      | Gt => (k', v') :: sm_set k v m'
      end
  end.

(** [m.emplace(k, v)]: the new map and [.second], which is false when the key
    was already present; the map is then unchanged. *)
Definition sm_emplace k v m : smap V * bool :=
  if sm_has k m then (m, false) else (sm_set k v m, true).

(** [m.erase(k)] *)
Fixpoint sm_erase k m : smap V :=
  match m with
  | [] => []
  | (k', v') :: m' => if String.eqb k k' then m' else (k', v') :: sm_erase k m'
  end.

Definition sm_keys m : list string := map fst m.

(** The representation invariant: keys strictly increasing. *)
Definition sm_wf m : Prop := StronglySorted str_lt (sm_keys m).

End smap.

(** [std::set<std::string>] *)
Definition sset : Type := smap unit.
Definition ss_insert (k : string) (s : sset) : sset * bool := sm_emplace k tt s.
Definition ss_of_list (l : list string) : sset := fold_left (fun s k => sm_set k tt s) l [].

(** ** The order of [std::string] *)

Lemma compare_refl s : (s ?= s)%string = Eq.
Proof.
  pose proof (String.compare_antisym s s) as H. by destruct (s ?= s)%string.
Qed.

Lemma str_compare_spec a b : CompareSpec (a = b) (str_lt a b) (str_lt b a) (a ?= b)%string.
Proof.
  destruct (a ?= b)%string eqn:E; constructor.
  - by apply String.compare_eq_iff.
  - done.
  - unfold str_lt. by rewrite String.compare_antisym, E.
Qed.

Lemma str_lt_le a b : str_lt a b <-> String.le a b /\ a <> b.
Proof.
  unfold str_lt, String.le, String.leb. split.
  - intros H. rewrite H. split; [done|]. intros ->. by rewrite compare_refl in H.
  - intros [H Hne]. destruct (a ?= b)%string eqn:E; [|done|done].
    by apply String.compare_eq_iff in E.
Qed.

#[export] Instance str_lt_trans : Transitive str_lt.
Proof.
  intros a b c [Hab Hne1]%str_lt_le [Hbc Hne2]%str_lt_le. apply str_lt_le.
  split; [by etrans|]. intros ->. apply Hne1. by apply (anti_symm String.le).
Qed.

#[export] Instance str_lt_irrefl : Irreflexive str_lt.
Proof. intros a. unfold complement, str_lt. by rewrite compare_refl. Qed.

Lemma str_lt_ne a b : str_lt a b -> a <> b.
Proof. intros H ->. by apply (irreflexivity str_lt) in H. Qed.

#[export] Hint Resolve str_lt_ne : ioc.

(** ** Lookup laws *)

Section smap_laws.
Context {V : Type}.
Implicit Types (m : smap V) (k : string) (v : V).

Lemma sm_find_set_eq k v m : sm_find k (sm_set k v m) = Some v.
Proof.
  induction m as [|[k' v'] m IH]; cbn; [by rewrite String.eqb_refl|].
  destruct (str_compare_spec k k') as [->|H|H]; cbn; rewrite ?String.eqb_refl; [done|done|].
  destruct (String.eqb_spec k k') as [->|]; [|done]. by apply (irreflexivity str_lt) in H.
Qed.

Lemma sm_find_set_ne k k' v m : k <> k' -> sm_find k (sm_set k' v m) = sm_find k m.
Proof.
  intros Hne. induction m as [|[k0 v0] m IH]; cbn.
  { by rewrite (proj2 (String.eqb_neq k k')). }
  destruct (str_compare_spec k' k0) as [->|H|H]; cbn.
  - by rewrite (proj2 (String.eqb_neq k k0)).
  - by rewrite (proj2 (String.eqb_neq k k')).
  - by rewrite IH.
Qed.

Lemma sm_find_set k k' v m :
  sm_find k (sm_set k' v m) = if decide (k = k') then Some v else sm_find k m.
Proof.
  destruct (decide (k = k')) as [->|]; [apply sm_find_set_eq|by apply sm_find_set_ne].
Qed.

Lemma sm_find_None k m : sm_find k m = None <-> k ∉ sm_keys m.
Proof.
  induction m as [|[k' v'] m IH]; cbn; [split; [intros _; apply not_elem_of_nil|done]|].
  rewrite elem_of_cons. destruct (String.eqb_spec k k'); naive_solver.
Qed.

Lemma sm_find_elem k v m : sm_find k m = Some v -> (k, v) ∈ m.
Proof.
  induction m as [|[k' v'] m IH]; cbn; [done|].
  destruct (String.eqb_spec k k') as [->|]; intros; simplify_eq; [left|right; auto].
Qed.

Lemma sm_has_spec k m : sm_has k m = true <-> k ∈ sm_keys m.
Proof.
  unfold sm_has. destruct (sm_find k m) eqn:E.
  - split; [|done]. intros _. destruct (decide (k ∈ sm_keys m)) as [|Hn]; [done|].
    apply sm_find_None in Hn. congruence.
  - apply sm_find_None in E. naive_solver.
Qed.

Lemma sm_keys_set k v m k' : k' ∈ sm_keys (sm_set k v m) <-> k' = k \/ k' ∈ sm_keys m.
Proof.
  rewrite <-!sm_has_spec. unfold sm_has. rewrite sm_find_set.
  case_decide; subst; naive_solver.
Qed.

(** ** Sortedness *)

Lemma sm_wf_nil : sm_wf (V:=V) [].
Proof. constructor. Qed.

Lemma sm_wf_cons k v m : sm_wf ((k, v) :: m) <-> sm_wf m /\ Forall (str_lt k) (sm_keys m).
Proof.
  unfold sm_wf; cbn. split; [by inversion 1|]. intros [? ?]; by constructor.
Qed.

Lemma sm_wf_set k v m : sm_wf m -> sm_wf (sm_set k v m).
Proof.
  induction m as [|[k' v'] m IH]; cbn; intros Hwf; [repeat constructor|].
  destruct (str_compare_spec k k') as [->|H|H].
  - apply sm_wf_cons in Hwf as [??]. by apply sm_wf_cons.
  - pose proof Hwf as [??]%sm_wf_cons. apply sm_wf_cons. split; [done|].
    cbn. constructor; [done|]. eapply Forall_impl; [done|]. intros x ?. by etrans.
  - apply sm_wf_cons in Hwf as [Hwf Hlt]. apply sm_wf_cons. split; [auto|].
    apply Forall_forall. intros x [->|Hx]%sm_keys_set; [done|].
    by eapply Forall_forall in Hlt.
Qed.

Lemma sm_wf_emplace k v m : sm_wf m -> sm_wf (sm_emplace k v m).1.
Proof. unfold sm_emplace. destruct (sm_has k m); cbn; auto using sm_wf_set. Qed.

Lemma sm_wf_NoDup m : sm_wf m -> NoDup (sm_keys m).
Proof.
  induction m as [|[k v] m IH]; cbn; [constructor|].
  intros [Hwf Hlt]%sm_wf_cons. constructor; [|auto].
  intros Hin. eapply Forall_forall in Hlt; [|done]. by apply (irreflexivity str_lt) in Hlt.
Qed.

Lemma sm_elem_find k v m : sm_wf m -> (k, v) ∈ m -> sm_find k m = Some v.
Proof.
  induction m as [|[k' v'] m IH]; cbn; [by intros _ ?%elem_of_nil|].
  intros [Hwf Hlt]%sm_wf_cons [?|Hin]%elem_of_cons; simplify_eq.
  { by rewrite String.eqb_refl. }
  destruct (String.eqb_spec k k') as [->|]; [|auto].
  eapply Forall_forall in Hlt; [by apply (irreflexivity str_lt) in Hlt|].
  apply list_elem_of_fmap. by exists (k', v).
Qed.

(** Ordered maps are extensional: equal lookups, equal containers. *)
Lemma sm_ext m1 m2 :
  sm_wf m1 -> sm_wf m2 -> (forall k, sm_find k m1 = sm_find k m2) -> m1 = m2.
Proof.
  revert m2; induction m1 as [|[k1 v1] m1 IH]; intros [|[k2 v2] m2] H1 H2 Hf.
  - done.
  - specialize (Hf k2). cbn in Hf. by rewrite String.eqb_refl in Hf.
  - specialize (Hf k1). cbn in Hf. by rewrite String.eqb_refl in Hf.
  - apply sm_wf_cons in H1 as [H1 L1]. apply sm_wf_cons in H2 as [H2 L2].
    assert (k1 = k2) as ->.
    { destruct (str_compare_spec k1 k2) as [->|H|H]; [done| |]; exfalso.
      - pose proof (Hf k1) as E. cbn in E. rewrite String.eqb_refl in E.
        rewrite (proj2 (String.eqb_neq k1 k2)) in E by auto with ioc.
        symmetry in E. apply sm_find_elem in E.
        assert (str_lt k2 k1) as Hlt.
        { eapply Forall_forall in L2; [done|]. apply list_elem_of_fmap. by exists (k1, v1). }
        apply (irreflexivity str_lt k1). by etrans.
      - pose proof (Hf k2) as E. cbn in E. rewrite String.eqb_refl in E.
        rewrite (proj2 (String.eqb_neq k2 k1)) in E by auto with ioc.
        apply sm_find_elem in E.
        assert (str_lt k1 k2) as Hlt.
        { eapply Forall_forall in L1; [done|]. apply list_elem_of_fmap. by exists (k2, v2). }
        apply (irreflexivity str_lt k1). by etrans. }
    pose proof (Hf k2) as E. cbn in E. rewrite String.eqb_refl in E. simplify_eq.
    f_equal. apply IH; [done|done|]. intros k. specialize (Hf k). cbn in Hf.
    destruct (String.eqb_spec k k2) as [E2|]; [|done]. rewrite E2.
    assert (sm_find k2 m1 = None) as ->.
    { apply sm_find_None. intros Hin. eapply Forall_forall in L1; [|done].
      by apply (irreflexivity str_lt) in L1. }
    symmetry. apply sm_find_None. intros Hin. eapply Forall_forall in L2; [|done].
    by apply (irreflexivity str_lt) in L2.
Qed.

End smap_laws.

#[export] Hint Resolve sm_wf_nil sm_wf_set sm_wf_emplace : ioc.

#[export] Instance str_lt_dec : RelDecision str_lt.
Proof. intros a b. unfold str_lt. apply _. Defined.

#[export] Instance sm_wf_dec {V} (m : smap V) : Decision (sm_wf m).
Proof.
  induction m as [|[k v] m IH]; [left; apply sm_wf_nil|].
  refine (cast_if_and IH (decide (Forall (str_lt k) (sm_keys m)))).
  - by apply sm_wf_cons.
  - by intros [??]%sm_wf_cons.
  - by intros [??]%sm_wf_cons.
Defined.

(** ** Sets *)

Lemma ss_of_list_acc l s :
  sm_wf s ->
  sm_wf (fold_left (fun s k => sm_set k tt s) l s) /\
  (forall k, k ∈ sm_keys (fold_left (fun s k => sm_set k tt s) l s) <-> k ∈ l \/ k ∈ sm_keys s).
Proof.
  revert s; induction l as [|x l IH]; intros s Hs; cbn.
  { split; [done|]. intros k. rewrite elem_of_nil. naive_solver. }
  destruct (IH (sm_set x tt s)) as [Hwf Hk]; [auto with ioc|].
  split; [done|]. intros k. rewrite Hk, sm_keys_set, elem_of_cons. naive_solver.
Qed.

Lemma ss_of_list_wf l : sm_wf (ss_of_list l).
Proof. apply ss_of_list_acc, sm_wf_nil. Qed.

Lemma ss_of_list_elem l k : k ∈ sm_keys (ss_of_list l) <-> k ∈ l.
Proof.
  unfold ss_of_list. destruct (ss_of_list_acc l []) as [_ H]; [apply sm_wf_nil|].
  rewrite H. cbn. rewrite elem_of_nil. naive_solver.
Qed.

(** A set is determined by its elements: [std::set] equality is set equality,
    whatever order and multiplicity the elements were inserted with. *)
Lemma ss_of_list_eq l1 l2 : ss_of_list l1 = ss_of_list l2 <-> (forall k, k ∈ l1 <-> k ∈ l2).
Proof.
  split.
  - intros E k. by rewrite <-(ss_of_list_elem l1), <-(ss_of_list_elem l2), E.
  - intros H. apply sm_ext; [apply ss_of_list_wf..|]. intros k.
    pose proof (ss_of_list_elem l1 k) as E1. pose proof (ss_of_list_elem l2 k) as E2.
    rewrite <-sm_has_spec in E1, E2. unfold sm_has in E1, E2.
    destruct (sm_find k (ss_of_list l1)) as [[]|], (sm_find k (ss_of_list l2)) as [[]|];
      naive_solver.
Qed.

#[export] Instance ss_of_list_proper : Proper ((≡ₚ) ==> (=)) ss_of_list.
Proof. intros l1 l2 Hp. apply ss_of_list_eq. intros k. by rewrite Hp. Qed.

Lemma sm_find_is_Some {V} (m : smap V) name : is_Some (sm_find name m) <-> name ∈ sm_keys m.
Proof. rewrite <-sm_has_spec. unfold sm_has. destruct (sm_find name m); split; try done; by intros [??]. Qed.

(** [std::sort] of a vector of strings. *)
Definition str_sort (l : list string) : list string := merge_sort String.le l.
