(* ===== verification/UtcTime.v ===== *)
(** * Times in text

    [gmtime_r] and [std::put_time] as the sources use them: the time of an
    audit record (src/access_control.cpp, [auditTimestamp]) and of a
    ChannelFinder publication (src/channelfinder.cpp,
    [currentChannelFinderTime]).  A time is what [std::chrono::system_clock]
    holds, a number of nanoseconds since 1970.  The last part has lines made of
    literal text and fields, and how they are read back. *)

From S2P Require Import Prelude.
From Stdlib Require Import Ascii.

Local Open Scope string_scope.
Local Open Scope list_scope.
Local Open Scope Z_scope.

(** ** The calendar *)

Definition leap (y : Z) : bool := (y mod 4 =? 0) && (negb (y mod 100 =? 0) || (y mod 400 =? 0)).

(** The length of a month, and the days of the year before it; [b] is whether
    the year is a leap year. *)
Definition month_days (b : bool) (m : Z) : Z :=
  if m =? 2 then if b then 29 else 28
  else if (m =? 4) || (m =? 6) || (m =? 9) || (m =? 11) then 30 else 31.
Definition month_start (b : bool) (m : Z) : Z :=
  foldr Z.add 0 (map (month_days b) (take (Z.to_nat (m - 1)) [1; 2; 3; 4; 5; 6; 7; 8; 9; 10; 11; 12])).

(** The days from 1970-01-01 to a date. *)
Definition days_from_civil (y m d : Z) : Z :=
  365 * (y - 1970) + ((y - 1) / 4 - (y - 1) / 100 + (y - 1) / 400 - 477) + month_start (leap y) m + (d - 1).

Record tm := { tm_year : Z; tm_mon : Z; tm_mday : Z; tm_hour : Z; tm_min : Z; tm_sec : Z }.

(** The date of a day, counted in eras of 400 years that begin in March. *)
Definition civil_from_days (day : Z) : Z * Z * Z :=
  let z := day + 719468 in
  let era := z / 146097 in
  let doe := z mod 146097 in
  let yoe := (doe - doe / 1460 + doe / 36524 - doe / 146096) / 365 in
  let doy := doe - (365 * yoe + yoe / 4 - yoe / 100) in
  let mp := (5 * doy + 2) / 153 in
  let d := doy - (153 * mp + 2) / 5 + 1 in
  let m := if mp <? 10 then mp + 3 else mp - 9 in
  (yoe + era * 400 + (if m <=? 2 then 1 else 0), m, d).

Definition gmtime_r (seconds : Z) : tm :=
  let '(y, m, d) := civil_from_days (seconds / 86400) in
  let rest := seconds mod 86400 in
  {| tm_year := y; tm_mon := m; tm_mday := d; tm_hour := rest / 3600; tm_min := rest / 60 mod 60; tm_sec := rest mod 60 |}.

(** The seconds a broken-down time stands for. *)
Definition timegm (t : tm) : Z :=
  days_from_civil (tm_year t) (tm_mon t) (tm_mday t) * 86400 + tm_hour t * 3600 + tm_min t * 60 + tm_sec t.

(** A date of the calendar and a time of day. *)
Record tm_wf (t : tm) : Prop := {
  tw_mon : 1 <= tm_mon t <= 12;
  tw_mday : 1 <= tm_mday t <= month_days (leap (tm_year t)) (tm_mon t);
  tw_hour : 0 <= tm_hour t < 24;
  tw_min : 0 <= tm_min t < 60;
  tw_sec : 0 <= tm_sec t < 60;
}.

(** *** The date of a day

    The years of an era and the days of a year are finitely many and are
    checked; the rest is linear. *)

Fixpoint all_from (p : Z -> bool) (n : nat) (i : Z) : bool :=
  match n with O => true | S n => p i && all_from p n (i + 1) end.
Lemma all_from_spec p n i : all_from p n i = true -> forall j, i <= j < i + Z.of_nat n -> p j = true.
Proof.
  revert i. induction n as [|n IH]; intros i Hp j Hj; [lia|]. cbn [all_from] in Hp. bool_split.
  destruct (decide (j = i)) as [->|]; [done|]. apply (IH (i + 1)); [done|lia].
Qed.

(** The days of an era before its year [y], and the days counted without the
    additional ones of leap years. *)
Definition year_start (y : Z) : Z := 365 * y + y / 4 - y / 100 + y / 400.
Definition plain_days (doe : Z) : Z := doe - doe / 1460 + doe / 36524 - doe / 146096.

Lemma plain_days_mono a b : a <= b -> plain_days a <= plain_days b.
Proof.
  intros Hab. unfold plain_days. change 146096 with (36524 * 4). rewrite <-!Z.div_div by lia.
  pose proof (Z.div_le_mono a b 36524 ltac:(lia) Hab). set (qa := a / 36524) in *. set (qb := b / 36524) in *.
  pose proof (Z.div_mod a 1460 ltac:(lia)). pose proof (Z.mod_pos_bound a 1460 ltac:(lia)).
  pose proof (Z.div_mod b 1460 ltac:(lia)). pose proof (Z.mod_pos_bound b 1460 ltac:(lia)).
  pose proof (Z.div_mod qa 4 ltac:(lia)). pose proof (Z.mod_pos_bound qa 4 ltac:(lia)).
  pose proof (Z.div_mod qb 4 ltac:(lia)). pose proof (Z.mod_pos_bound qb 4 ltac:(lia)). lia.
Qed.

Definition year_ok (y : Z) : bool :=
  (plain_days (year_start y) / 365 =? y) && (plain_days (year_start (y + 1) - 1) / 365 =? y).
Lemma years_ok : all_from year_ok 400 0 = true.
Proof. vm_compute. reflexivity. Qed.

Lemma year_start_step y : year_start (y + 1) = year_start y + 365 + Z.b2z (leap (y + 1)).
Proof.
  assert (Hdiv : forall k, 0 < k -> (y + 1) / k = y / k + Z.b2z ((y + 1) mod k =? 0)).
  { intros k Hk. pose proof (Z.div_mod (y + 1) k ltac:(lia)). pose proof (Z.mod_pos_bound (y + 1) k Hk).
    destruct (Z.eqb_spec ((y + 1) mod k) 0) as [E|E]; cbn.
    - assert (y / k = (y + 1) / k - 1) as ->; [|lia]. symmetry. apply (Z.div_unique_pos _ _ _ (k - 1)); lia.
    - assert (y / k = (y + 1) / k) as ->; [|lia]. symmetry. apply (Z.div_unique_pos _ _ _ ((y + 1) mod k - 1)); lia. }
  unfold year_start, leap. rewrite !Hdiv by lia.
  assert ((y + 1) mod 100 = ((y + 1) mod 400) mod 100) as -> by (symmetry; apply Z.mod_mod_divide; by exists 4).
  assert ((y + 1) mod 4 = ((y + 1) mod 400) mod 4) as -> by (symmetry; apply Z.mod_mod_divide; by exists 100).
  generalize ((y + 1) mod 400). intros r. destruct (Z.eqb_spec r 0) as [->|Hr]; [rewrite !Zmod_0_l; cbn [Z.b2z andb orb negb Z.eqb]; lia|].
  destruct (Z.eqb_spec (r mod 100) 0) as [E|E]; [|destruct (r mod 4 =? 0); cbn [Z.b2z andb orb negb]; lia].
  assert (r mod 4 = (r mod 100) mod 4) as -> by (symmetry; apply Z.mod_mod_divide; by exists 25). rewrite E, Zmod_0_l. cbn [Z.b2z andb orb negb Z.eqb]. lia.
Qed.

Lemma leap_era y k : leap (y + 400 * k) = leap y.
Proof.
  unfold leap. replace (y + 400 * k) with (y + (100 * k) * 4) at 1 by lia. rewrite Z_mod_plus_full.
  replace (y + 400 * k) with (y + (4 * k) * 100) at 1 by lia. rewrite Z_mod_plus_full.
  replace (y + 400 * k) with (y + k * 400) by lia. by rewrite Z_mod_plus_full.
Qed.

(** The year of a day of an era, and what is left of it. *)
Lemma year_of_era doe : 0 <= doe < 146097 ->
  let yoe := plain_days doe / 365 in
  0 <= yoe < 400 /\ 0 <= doe - year_start yoe < 365 + Z.b2z (leap (yoe + 1)).
Proof.
  intros Hd. set (y := plain_days doe / 365). cbn zeta.
  assert (Hy : 0 <= y < 400).
  { unfold y. split; [apply (Z.div_le_mono (plain_days 0) _ 365); [lia|apply plain_days_mono; lia]|].
    apply Z.div_lt_upper_bound; [lia|]. pose proof (plain_days_mono doe 146096 ltac:(lia)) as Hm. change (plain_days 146096) with 145999 in Hm. lia. }
  split; [done|]. pose proof (year_start_step y) as Hs.
  assert (Hok : forall z, 0 <= z < 400 -> year_ok z = true) by (intros z Hz; apply (all_from_spec _ _ _ years_ok); lia).
  assert (Hless : year_start y <= doe).
  { destruct (decide (year_start y <= doe)) as [|Hn]; [done|]. destruct (decide (y = 0)) as [E|E]; [rewrite E in *; change (year_start 0) with 0 in *; lia|].
    specialize (Hok (y - 1) ltac:(lia)). unfold year_ok in Hok. bool_split. replace (y - 1 + 1) with y in * by lia.
    pose proof (Z.div_le_mono _ _ 365 ltac:(lia) (plain_days_mono doe (year_start y - 1) ltac:(lia))) as Hle. fold y in Hle. lia. }
  assert (Hmore : doe < year_start (y + 1)); [|lia].
  destruct (decide (doe < year_start (y + 1))) as [|Hn]; [done|].
  destruct (decide (y = 399)) as [E|E]; [rewrite E in *; change (year_start (399 + 1)) with 146097 in *; lia|].
  specialize (Hok (y + 1) ltac:(lia)). unfold year_ok in Hok. bool_split.
  pose proof (Z.div_le_mono _ _ 365 ltac:(lia) (plain_days_mono (year_start (y + 1)) doe ltac:(lia))) as Hle. fold y in Hle. lia.
Qed.

(** The month and day of a day of the year, counted from March; [b] is whether
    the year of that date is a leap year. *)
Definition civil_of_doy (doy : Z) : Z * Z :=
  let mp := (5 * doy + 2) / 153 in (if mp <? 10 then mp + 3 else mp - 9, doy - (153 * mp + 2) / 5 + 1).
Definition doy_ok (b : bool) (doy : Z) : bool :=
  let '(m, d) := civil_of_doy doy in
  (1 <=? m) && (m <=? 12) && (1 <=? d) && (d <=? month_days b m) &&
  (month_start b m + d - 1 =? if m <=? 2 then doy - 306 else doy + 59 + Z.b2z b).
Lemma doys_ok : all_from (doy_ok true) 366 0 && all_from (doy_ok false) 365 0 && ((civil_of_doy 365).1 =? 2) = true.
Proof. vm_compute. reflexivity. Qed.


(** The date of a day is a date of the calendar, and the one that many days
    from 1970-01-01. *)
Lemma civil_correct day :
  let '(y, m, d) := civil_from_days day in
  days_from_civil y m d = day /\ 1 <= m <= 12 /\ 1 <= d <= month_days (leap y) m.
Proof.
  set (z := day + 719468). set (era := z / 146097). set (doe := z mod 146097).
  pose proof (Z.mod_pos_bound z 146097 ltac:(lia)) as Hdoe. pose proof (Z.div_mod z 146097 ltac:(lia)) as Hz. fold era doe in Hz, Hdoe.
  destruct (year_of_era doe Hdoe) as [Hy Hdoy]. set (yoe := plain_days doe / 365) in *. set (doy := doe - year_start yoe) in *.
  assert (Hc : civil_from_days day = let '(m, d) := civil_of_doy doy in (yoe + era * 400 + (if m <=? 2 then 1 else 0), m, d)).
  { unfold civil_from_days, civil_of_doy. fold z. fold era doe. fold (plain_days doe). fold yoe.
    replace (doe - (365 * yoe + yoe / 4 - yoe / 100)) with doy; [done|]. unfold doy, year_start. rewrite (Z.div_small yoe 400) by done. lia. }
  rewrite Hc. pose proof (year_start_step (yoe + era * 400 - 1)) as Hstep.
  assert (Hera : year_start (yoe + era * 400) = year_start yoe + 146097 * era).
  { unfold year_start. replace (yoe + era * 400) with (yoe + (era * 100) * 4) at 2 by lia. rewrite Z_div_plus_full by lia.
    replace (yoe + era * 400) with (yoe + (era * 4) * 100) at 2 by lia. rewrite !Z_div_plus_full by lia. lia. }
  replace (yoe + era * 400 - 1 + 1) with (yoe + era * 400) in Hstep by lia.
  pose proof doys_ok as [[Hleap Hplain]%andb_true_iff H365%Z.eqb_eq]%andb_true_iff. destruct (civil_of_doy doy) as [m d] eqn:Emd.
  set (y := yoe + era * 400 + (if m <=? 2 then 1 else 0)).
  assert (Hd : doy_ok (leap y) doy = true).
  { destruct (leap y) eqn:El; [apply (all_from_spec _ _ _ Hleap); destruct (leap (yoe + 1)); cbn in Hdoy; lia|].
    apply (all_from_spec _ _ _ Hplain). destruct (decide (doy = 365)) as [E|E]; [|destruct (leap (yoe + 1)); cbn in Hdoy; lia].
    assert (m <= 2) as Hm by (rewrite E in Emd; rewrite Emd in H365; cbn in H365; lia). exfalso. unfold y in El.
    rewrite (proj2 (Z.leb_le m 2) Hm) in El. replace (yoe + era * 400 + 1) with (yoe + 1 + 400 * era) in El by lia.
    rewrite leap_era in El. rewrite El in Hdoy. cbn in Hdoy. lia. }
  unfold doy_ok in Hd. rewrite Emd in Hd. bool_split. split; [|lia].
  unfold days_from_civil. unfold year_start in Hstep. unfold doy, year_start in *. unfold y in *. destruct (m <=? 2).
  - replace (yoe + era * 400 + 1 - 1) with (yoe + era * 400) by lia. lia.
  - rewrite !Z.add_0_r in *. lia.
Qed.

Lemma gmtime_correct seconds : tm_wf (gmtime_r seconds) /\ timegm (gmtime_r seconds) = seconds.
Proof.
  unfold gmtime_r, timegm. pose proof (civil_correct (seconds / 86400)) as Hc.
  destruct (civil_from_days (seconds / 86400)) as [[y m] d]. destruct Hc as (Hd & Hm & Hday). split.
  - split; cbn; [lia..| | |]; (split; [|]); try apply Z.mod_pos_bound; try apply Z.div_pos; try apply Z.div_lt_upper_bound;
      pose proof (Z.mod_pos_bound seconds 86400); lia.
  - cbn. rewrite Hd. pose proof (Z.div_mod seconds 86400 ltac:(lia)). set (r := seconds mod 86400) in *.
    pose proof (Z.div_mod r 3600 ltac:(lia)). pose proof (Z.div_mod r 60 ltac:(lia)). pose proof (Z.div_mod (r / 60) 60 ltac:(lia)).
    rewrite Z.div_div in * by lia. change (60 * 60) with 3600 in *. lia.
Qed.

(** ** Text *)

(** A number with leading zeros up to a width. *)
Fixpoint zeros (n : nat) : string := match n with O => "" | S n => "0" +:+ zeros n end.
Definition padded (width : nat) (n : Z) : string := zeros (width - String.length (to_dec n)) +:+ to_dec n.

(** [std::put_time] with "%Y-%m-%dT%H:%M:%S". *)
Definition put_time (t : tm) : string :=
  to_dec (tm_year t) +:+ "-" +:+ padded 2 (tm_mon t) +:+ "-" +:+ padded 2 (tm_mday t) +:+ "T" +:+
  padded 2 (tm_hour t) +:+ ":" +:+ padded 2 (tm_min t) +:+ ":" +:+ padded 2 (tm_sec t).

(** [to_time_t] and the milliseconds of a time; both conversions cut towards
    zero. *)
Definition to_time_t (now : Z) : Z := Z.quot now 1000000000.
Definition milliseconds (now : Z) : Z := Z.quot now 1000000.

Definition auditTimestamp (now : Z) : string :=
  put_time (gmtime_r (to_time_t now)) +:+ "." +:+ padded 3 (Z.rem (milliseconds now) 1000) +:+ "Z".
Definition currentChannelFinderTime (now : Z) : string := put_time (gmtime_r (to_time_t now)) +:+ "Z".

(** *** Lines of fields

    A line is a list of literals, each followed by a field and the character
    that ends it. *)
Definition template : Type := list (string * ascii).
Fixpoint render (t : template) (fields : list string) : string :=
  match t, fields with
  | (literal, stop) :: t, field :: fields => literal +:+ field +:+ String stop (render t fields)
  | _, _ => ""
  end.

Fixpoint strip (literal s : string) : option string :=
  match literal, s with
  | EmptyString, _ => Some s
  | String c literal, String d s => if Ascii.eqb c d then strip literal s else None
  | _, _ => None
  end.
Fixpoint until (stop : ascii) (s : string) : option (string * string) :=
  match s with
  | EmptyString => None
  | String c s => if Ascii.eqb c stop then Some ("", s)
                  else '(field, rest) ← until stop s; Some (String c field, rest)
  end.
Fixpoint scan (t : template) (s : string) : option (list string) :=
  match t with
  | [] => if str_empty s then Some [] else None
  | (literal, stop) :: t =>
      s ← strip literal s; '(field, rest) ← until stop s; fields ← scan t rest; Some (field :: fields)
  end.

Fixpoint free_of (stop : ascii) (s : string) : bool :=
  match s with EmptyString => true | String c s => negb (Ascii.eqb c stop) && free_of stop s end.

Lemma strip_app literal s : strip literal (literal +:+ s) = Some s.
Proof. induction literal as [|c l IH]; [by destruct s|]. rewrite str_app_cons. cbn [strip]. by rewrite Ascii.eqb_refl. Qed.
Lemma until_app stop field rest : free_of stop field = true -> until stop (field +:+ String stop rest) = Some (field, rest).
Proof.
  induction field as [|c f IH]; intros Hf; cbn [free_of] in Hf.
  { change ("" +:+ ?s) with s. cbn [until]. by rewrite Ascii.eqb_refl. }
  bool_split. rewrite str_app_cons. cbn [until]. rewrite IH by done. by destruct (Ascii.eqb c stop).
Qed.
Lemma free_of_app stop a b : free_of stop (a +:+ b) = free_of stop a && free_of stop b.
Proof. induction a as [|c a IH]; [done|]. rewrite str_app_cons. cbn [free_of]. by rewrite IH, andb_assoc. Qed.

(** A line whose fields do not hold their terminators reads back. *)
Lemma scan_render t fields :
  Forall2 (fun x field => free_of x.2 field = true) t fields -> scan t (render t fields) = Some fields.
Proof.
  induction 1 as [|[literal stop] field t fields Hf _ IH]; [done|]. cbn [render scan].
  rewrite strip_app. cbn [mbind option_bind]. rewrite until_app by done. cbn [mbind option_bind]. rewrite IH. done.
Qed.

(** *** Reading a time back *)

Lemma digits_free stop s : is_digit stop = false -> all_digits s = true -> free_of stop s = true.
Proof.
  intros Hs. induction s as [|c s IH]; [done|]. cbn [all_digits free_of]. intros [Hc H]%andb_true_iff. rewrite (IH H), andb_true_r.
  destruct (Ascii.eqb_spec c stop) as [->|]; [congruence|done].
Qed.
Lemma padded_digits width n :
  0 <= n -> all_digits (padded width n) = true /\ dec_value 0 (padded width n) = n.
Proof.
  intros Hn. unfold padded. destruct (to_dec_digits n Hn) as (Hv & Hd & _). generalize (width - String.length (to_dec n))%nat.
  intros k. induction k as [|k [IH1 IH2]]; cbn [zeros]; [by split|].
  change ("0" +:+ zeros k) with (String "0" (zeros k)). rewrite str_app_cons. split; [cbn [all_digits]; by rewrite IH1|].
  cbn [dec_value]. exact IH2.
Qed.

Definition stamp_template : template :=
  [("", "-"%char); ("", "-"%char); ("", "T"%char); ("", ":"%char); ("", ":"%char); ("", "."%char); ("", "Z"%char)].
Definition stamp_fields (t : tm) (millis : Z) : list string :=
  [to_dec (tm_year t); padded 2 (tm_mon t); padded 2 (tm_mday t); padded 2 (tm_hour t); padded 2 (tm_min t);
   padded 2 (tm_sec t); padded 3 millis].

(** The milliseconds since 1970 that a time in text stands for. *)
Definition read_stamp (s : string) : option Z :=
  fields ← scan stamp_template s;
  match map (dec_value 0) fields with
  | [y; mo; d; h; mi; sec; millis] =>
      Some (timegm {| tm_year := y; tm_mon := mo; tm_mday := d; tm_hour := h; tm_min := mi; tm_sec := sec |} * 1000 + millis)
  | _ => None
  end.

Lemma year_nonneg seconds : 0 <= seconds -> 0 <= tm_year (gmtime_r seconds).
Proof.
  intros Hs. unfold gmtime_r, civil_from_days. cbn. pose proof (Z.div_pos seconds 86400 Hs ltac:(lia)).
  set (z := seconds / 86400 + 719468). pose proof (Z.div_pos z 146097 ltac:(lia) ltac:(lia)).
  pose proof (Z.mod_pos_bound z 146097 ltac:(lia)) as Hd. destruct (year_of_era _ Hd) as [Hy _]. unfold plain_days in Hy.
  destruct (_ <=? 2); lia.
Qed.

Lemma stamp_rendered now :
  auditTimestamp now = render stamp_template (stamp_fields (gmtime_r (to_time_t now)) (Z.rem (milliseconds now) 1000)).
Proof. unfold auditTimestamp, put_time. cbn [render stamp_template stamp_fields]. by rewrite <-!str_app_assoc. Qed.

(** The time of an audit record tells its moment to the millisecond. *)
Theorem auditTimestamp_reads now : 0 <= now -> read_stamp (auditTimestamp now) = Some (now / 1000000).
Proof.
  intros Hn. unfold read_stamp. rewrite stamp_rendered by done.
  assert (Hs : 0 <= to_time_t now) by (unfold to_time_t; rewrite Z.quot_div_nonneg by lia; apply Z.div_pos; lia).
  assert (Hm : 0 <= milliseconds now) by (unfold milliseconds; rewrite Z.quot_div_nonneg by lia; apply Z.div_pos; lia).
  pose proof (Z.rem_bound_pos (milliseconds now) 1000 Hm ltac:(lia)) as Hr.
  destruct (gmtime_correct (to_time_t now)) as [[Hmon Hday Hh Hmin Hsec] Ht]. pose proof (year_nonneg _ Hs) as Hy.
  set (t := gmtime_r (to_time_t now)) in *. set (millis := Z.rem (milliseconds now) 1000) in *.
  destruct (to_dec_digits _ Hy) as (Vy & Dy & _). destruct (padded_digits 2 (tm_mon t) ltac:(lia)) as [D1 V1].
  destruct (padded_digits 2 (tm_mday t) ltac:(lia)) as [D2 V2]. destruct (padded_digits 2 (tm_hour t) ltac:(lia)) as [D3 V3].
  destruct (padded_digits 2 (tm_min t) ltac:(lia)) as [D4 V4]. destruct (padded_digits 2 (tm_sec t) ltac:(lia)) as [D5 V5].
  destruct (padded_digits 3 millis ltac:(lia)) as [D6 V6].
  rewrite scan_render by (repeat constructor; by apply digits_free). cbn [mbind option_bind map stamp_fields].
  rewrite Vy, V1, V2, V3, V4, V5, V6. replace {| tm_year := _ |} with t by by destruct t. rewrite Ht. f_equal.
  unfold millis, milliseconds, to_time_t in *. rewrite !Z.quot_div_nonneg in * by lia. rewrite Z.rem_mod_nonneg in * by (try apply Z.div_pos; lia).
  pose proof (Z.div_mod (now / 1000000) 1000 ltac:(lia)) as Hdm. rewrite Z.div_div in Hdm by lia.
  change (1000000 * 1000) with 1000000000 in Hdm. lia.
Qed.

Example stamp_text : auditTimestamp 1709210096007000000 = "2024-02-29T12:34:56.007Z".
Proof. vm_compute. reflexivity. Qed.
Example channelfinder_time_text : currentChannelFinderTime 951782399999999999 = "2000-02-28T23:59:59Z".
Proof. vm_compute. reflexivity. Qed.
