(* ===== verification/Floats.v ===== *)
(** * C++ [double] and [float]

    IEEE 754 binary64 and binary32 on the Standard Library's axiom-free
    specification [SpecFloat] (mantissa and exponent as integers, round to
    nearest even), with the comparisons, conversions and the
    [valuesEqual] tolerance of include/redis_pvxs_ioc/util.h. *)

From Stdlib Require Export SpecFloat.
From S2P Require Import Prelude.

(** The two formats the source uses. *)
Record ffmt := Ffmt { f_prec : Z; f_emax : Z }.
Definition binary64 : ffmt := Ffmt 53 1024.
Definition binary32 : ffmt := Ffmt 24 128.

#[export] Instance spec_float_eq_dec : EqDecision spec_float.
Proof. solve_decision. Defined.

Section ops.
Context (fm : ffmt).

Definition fadd := SFadd (f_prec fm) (f_emax fm).
Definition fsub := SFsub (f_prec fm) (f_emax fm).
Definition fmul := SFmul (f_prec fm) (f_emax fm).
Definition fdiv := SFdiv (f_prec fm) (f_emax fm).

(** The value of an integer literal or of an integer converted to the format. *)
Definition f_of_Z (z : Z) : spec_float := binary_normalize (f_prec fm) (f_emax fm) z 0 false.

(** [std::numeric_limits<T>::epsilon()], two to the power [1 - prec]. *)
Definition f_epsilon : spec_float := binary_round (f_prec fm) (f_emax fm) false 1 (1 - f_prec fm).

(** Conversion into the format from another one. *)
Definition f_convert (x : spec_float) : spec_float :=
  match x with
  | S754_finite s m e => binary_round (f_prec fm) (f_emax fm) s m e
  | _ => x
  end.
End ops.

Definition flt (a b : spec_float) : bool := SFltb a b.
Definition fle (a b : spec_float) : bool := SFleb a b.
Definition fge (a b : spec_float) : bool := SFleb b a.
Definition feq (a b : spec_float) : bool := SFeqb a b.
Definition fabs (a : spec_float) : spec_float := SFabs a.

(** [std::isfinite] *)
Definition is_finite (x : spec_float) : bool :=
  match x with S754_zero _ | S754_finite _ _ _ => true | _ => false end.
Definition is_nan (x : spec_float) : bool :=
  match x with S754_nan => true | _ => false end.

(** [std::max(a, b)] is [a < b ? b : a]. *)
Definition fmax (a b : spec_float) : spec_float := if flt a b then b else a.

(** Truncation toward zero, the integer value of a [static_cast] to an
    integral type; [None] for the non-finite values, where the cast has
    undefined behaviour, as it has when the result does not fit its type. *)
Definition f_trunc (x : spec_float) : option Z :=
  match x with
  | S754_zero _ => Some 0%Z
  | S754_finite s m e =>
      let a := if (0 <=? e)%Z then Z.shiftl (Zpos m) e else Z.shiftr (Zpos m) (- e) in
      Some (if s then - a else a)%Z
  | _ => None
  end.

(** The floating-point branch of [valuesEqual] (util.h): the difference is
    within eight epsilons, relative to the larger magnitude but at least one. *)
Definition f_valuesEqual (fm : ffmt) (lhs rhs : spec_float) : bool :=
  let scale := fmax (fabs lhs) (fabs rhs) in
  let tolerance := fmul fm (fmul fm (f_epsilon fm) (fmax (f_of_Z fm 1) scale)) (f_of_Z fm 8) in
  fle (fabs (fsub fm lhs rhs)) tolerance.

(** ** Facts about the comparisons *)

Lemma SFcompare_refl x : is_nan x = false -> SFcompare x x = Some Eq.
Proof.
  destruct x as [s|s| |s m e]; cbn; try done.
  - by destruct s.
  - intros _. rewrite Z.compare_refl.
    change (Pos.compare_cont Eq m m) with (m ?= m)%positive. rewrite Pos.compare_refl.
    by destruct s.
Qed.

Lemma SFcompare_antisym x y : SFcompare x y = option_map CompOpp (SFcompare y x).
Proof.
  destruct x as [s|s| |s m e], y as [s'|s'| |s' m' e']; cbn; try done; try (by destruct s);
    try (by destruct s'); try (by destruct s, s').
  rewrite (Z.compare_antisym e' e).
  change (Pos.compare_cont Eq m m') with (m ?= m')%positive.
  change (Pos.compare_cont Eq m' m) with (m' ?= m)%positive.
  rewrite (Pos.compare_antisym m' m).
  by destruct s, s', (e' ?= e)%Z, (m' ?= m)%positive.
Qed.

Lemma fle_refl x : is_nan x = false -> fle x x = true.
Proof. intros H. unfold fle, SFleb. by rewrite SFcompare_refl. Qed.

Lemma fle_total x y : is_nan x = false -> is_nan y = false -> fle x y = true \/ fle y x = true.
Proof.
  intros Hx Hy. unfold fle, SFleb. rewrite (SFcompare_antisym y x).
  destruct (SFcompare x y) as [[]|] eqn:E; cbn; auto.
  destruct x as [s|s| |s m e], y as [s'|s'| |s' m' e']; cbn in *; try done; congruence.
Qed.

(** Two non-NaN magnitudes that compare equal are the same float. *)
Lemma fabs_compare_eq x y : SFcompare (fabs x) (fabs y) = Some Eq -> fabs x = fabs y.
Proof.
  destruct x as [s|s| |s m e], y as [s'|s'| |s' m' e']; cbn; try done.
  destruct (Z.compare_spec e e') as [->| |]; try done.
  change (Pos.compare_cont Eq m m') with (m ?= m')%positive.
  destruct (Pos.compare_spec m m') as [->| |]; done.
Qed.

(** ** Rounding never produces a negative or a NaN from a positive mantissa *)

Definition nonneg_float (x : spec_float) : bool :=
  match x with
  | S754_zero _ => true
  | S754_infinity s | S754_finite s _ _ => negb s
  | S754_nan => false
  end.

Lemma shr_1_nonneg r : (0 <= shr_m r)%Z -> (0 <= shr_m (shr_1 r))%Z.
Proof. destruct r as [[|[p|p|]|p] r s]; cbn; lia. Qed.

Lemma iter_pos_shr_nonneg p r : (0 <= shr_m r)%Z -> (0 <= shr_m (SpecFloat.iter_pos shr_1 p r))%Z.
Proof. revert r; induction p as [p IH|p IH|]; intros r Hr; cbn; auto using shr_1_nonneg. Qed.

Lemma shr_fexp_nonneg fm m e l :
  (0 <= m)%Z -> (0 <= shr_m (shr_fexp (f_prec fm) (f_emax fm) m e l).1)%Z.
Proof.
  intros Hm. unfold shr_fexp, shr.
  assert (0 <= shr_m (shr_record_of_loc m l))%Z by (destruct l as [|[]]; cbn; lia).
  destruct (_ - _)%Z; cbn; auto using iter_pos_shr_nonneg.
Qed.

Lemma round_nearest_even_nonneg m l : (0 <= m)%Z -> (0 <= round_nearest_even m l)%Z.
Proof. destruct l as [|[]]; cbn; try lia. destruct (Z.even m); lia. Qed.

Lemma binary_round_aux_nonneg fm m e l :
  (0 <= m)%Z -> nonneg_float (binary_round_aux (f_prec fm) (f_emax fm) false m e l) = true.
Proof.
  intros Hm. unfold binary_round_aux.
  pose proof (shr_fexp_nonneg fm m e l Hm) as H1.
  destruct (shr_fexp _ _ m e l) as [r1 e1]; cbn in H1.
  pose proof (shr_fexp_nonneg fm _ e1 loc_Exact
    (round_nearest_even_nonneg _ (loc_of_shr_record r1) H1)) as H2.
  destruct (shr_fexp _ _ (round_nearest_even _ _) e1 loc_Exact) as [r2 e2]; cbn in H2.
  destruct (shr_m r2) as [|p|p]; cbn; [done| |lia]. by destruct (e2 <=? _)%Z.
Qed.

Lemma fmul_nonneg fm x y :
  nonneg_float x = true -> nonneg_float y = true -> is_finite x || negb (is_finite y) = true ->
  feq x (S754_zero false) = false ->
  nonneg_float (fmul fm x y) = true.
Proof.
  destruct x as [[]|[]| |[] m e], y as [[]|[]| |[] m' e']; cbn; try done.
  intros. apply binary_round_aux_nonneg. lia.
Qed.

Lemma zero_le_nonneg s x : nonneg_float x = true -> fle (S754_zero s) x = true.
Proof. by destruct x as [|[]| |[]]. Qed.

(** [x - x] is a zero exactly when [x] is finite. *)
Lemma fsub_diag fm x : is_finite x = true -> exists s, fsub fm x x = S754_zero s.
Proof.
  destruct x as [s|s| |s m e]; cbn; try done; intros _.
  - destruct s; eauto.
  - rewrite Z.sub_diag. eauto.
Qed.

Lemma fmax_nonneg x y :
  nonneg_float x = true -> nonneg_float y = true -> nonneg_float (fmax x y) = true.
Proof. unfold fmax. by destruct (flt x y). Qed.

Lemma fabs_nonneg x : is_nan x = false -> nonneg_float (fabs x) = true.
Proof. by destruct x. Qed.

(** The tolerance of the two formats is a non-negative number, whatever the
    operands, as long as neither is a NaN. *)
Lemma tolerance_nonneg fm scale :
  (fm = binary64 \/ fm = binary32) ->
  nonneg_float scale = true ->
  nonneg_float (fmul fm (fmul fm (f_epsilon fm) (fmax (f_of_Z fm 1) scale)) (f_of_Z fm 8)) = true.
Proof.
  intros Hfm Hs.
  assert (nonneg_float (fmax (f_of_Z fm 1) scale) = true /\
          forall s, fmax (f_of_Z fm 1) scale <> S754_zero s) as [Hm Hz].
  { split.
    - apply fmax_nonneg; [|done]. by destruct Hfm; subst.
    - intros s. unfold fmax. destruct (flt (f_of_Z fm 1) scale) eqn:E.
      + intros ->. by destruct Hfm, s; subst.
      + by destruct Hfm, s; subst. }
  destruct (fmax (f_of_Z fm 1) scale) as [s|[]| |[] m e]; try done.
  { by destruct (Hz s). }
  { by destruct Hfm; subst. }
  assert (nonneg_float (fmul fm (f_epsilon fm) (S754_finite false m e)) = true) as Hp.
  { destruct Hfm; subst; apply (binary_round_aux_nonneg (Ffmt _ _)); lia. }
  destruct (fmul fm (f_epsilon fm) (S754_finite false m e)) as [s|[]| |[] m1 e1]; try done;
    destruct Hfm; subst; try done; apply (binary_round_aux_nonneg (Ffmt _ _)); lia.
Qed.

(** A value compares equal to itself exactly when it is finite. *)
Lemma f_valuesEqual_refl fm x :
  (fm = binary64 \/ fm = binary32) -> f_valuesEqual fm x x = is_finite x.
Proof.
  intros Hfm. destruct (is_finite x) eqn:Hx.
  - unfold f_valuesEqual. destruct (fsub_diag fm x Hx) as [s ->]. cbn [fabs SFabs].
    apply zero_le_nonneg, tolerance_nonneg; [done|].
    apply fmax_nonneg; apply fabs_nonneg; by destruct x.
  - destruct x as [s|s| |s m e]; cbn in Hx; try done. by destruct s.
Qed.

(** ** Symmetry of the tolerance test *)

Lemma cond_Zopp_sub_opp a b : (a - b = - (b - a))%Z.
Proof. lia. Qed.

Lemma fabs_binary_round_aux fm s s' m e l :
  fabs (binary_round_aux (f_prec fm) (f_emax fm) s m e l) =
  fabs (binary_round_aux (f_prec fm) (f_emax fm) s' m e l).
Proof.
  unfold binary_round_aux. destruct (shr_fexp _ _ m e l) as [r1 e1].
  destruct (shr_fexp _ _ (round_nearest_even _ _) e1 loc_Exact) as [r2 e2].
  destruct (shr_m r2); cbn; try done. by destruct (e2 <=? _)%Z.
Qed.

Lemma fabs_binary_normalize_opp fm z e s :
  fabs (binary_normalize (f_prec fm) (f_emax fm) (- z) e s) =
  fabs (binary_normalize (f_prec fm) (f_emax fm) z e s).
Proof.
  destruct z as [|p|p]; [done|rewrite Pos2Z.opp_pos|rewrite Pos2Z.opp_neg];
    unfold binary_normalize, binary_round;
    destruct (shl_align _ _ _); apply fabs_binary_round_aux.
Qed.

Lemma fabs_fsub_sym fm x y : fabs (fsub fm x y) = fabs (fsub fm y x).
Proof.
  destruct x as [s|s| |s m e], y as [s'|s'| |s' m' e']; cbn; try done;
    try (by destruct s, s').
  rewrite (Z.min_comm e' e), <-fabs_binary_normalize_opp. by rewrite <-cond_Zopp_sub_opp.
Qed.

Lemma fmax_fabs_sym x y :
  is_nan x = false -> is_nan y = false -> fmax (fabs x) (fabs y) = fmax (fabs y) (fabs x).
Proof.
  intros Hx Hy. unfold fmax, flt, SFltb. rewrite (SFcompare_antisym (fabs y) (fabs x)).
  destruct (SFcompare (fabs x) (fabs y)) as [[]|] eqn:E; cbn; try done.
  - by apply fabs_compare_eq.
  - destruct x as [s|s| |s m e], y as [s'|s'| |s' m' e']; cbn in *; try done; congruence.
Qed.

Lemma f_valuesEqual_sym fm x y : f_valuesEqual fm x y = f_valuesEqual fm y x.
Proof.
  unfold f_valuesEqual. rewrite (fabs_fsub_sym fm x y).
  destruct (is_nan x) eqn:Hx; [|destruct (is_nan y) eqn:Hy].
  - by destruct x, y.
  - by destruct x, y.
  - by rewrite fmax_fabs_sym.
Qed.

(** A NaN never compares equal to anything, itself included. *)
Lemma f_valuesEqual_nan fm x y : is_nan x = true -> f_valuesEqual fm x y = false.
Proof. by destruct x, y. Qed.
