(* ===== verification/Config.v ===== *)
(** * Configuration data model

    The types of include/redis_pvxs_ioc/config.h and the pure functions on
    them at the end of src/config.cpp (classification, printing, structural
    comparison, served names).

    Integers are [Z] in the range of their C++ type, [double] is
    [spec_float], [std::map] is the ordered [smap]. *)

From S2P Require Import Prelude StrMap Floats.

Local Open Scope string_scope.

(** ** Enumerations (config.h) *)

Inductive PrimitiveType :=
| Boolean | Int8 | UInt8 | Int16 | UInt16 | Int32 | UInt32 | Int64 | UInt64
| Float32 | Float64 | String_.

Inductive Shape := Scalar | Array.

Inductive PVKind := Value | NTNDArray.

Inductive DisplayForm :=
| Default | String_form | Binary | Decimal | Hex | Exponential | Engineering.

#[export] Instance PrimitiveType_eq_dec : EqDecision PrimitiveType.
Proof. solve_decision. Defined.
#[export] Instance Shape_eq_dec : EqDecision Shape.
Proof. solve_decision. Defined.
#[export] Instance PVKind_eq_dec : EqDecision PVKind.
Proof. solve_decision. Defined.
#[export] Instance DisplayForm_eq_dec : EqDecision DisplayForm.
Proof. solve_decision. Defined.

(** ** Structures (config.h) *)

Definition kDefaultRedisBackendAlias : string := "default".
Definition kAlarmQueueEntryBytes : Z := 1024.
Definition kDefaultNDArrayMaxFrameGap : Z := 10000.

Record RouteConfig := { rt_backend : string; rt_key : string }.

Record ConfirmConfig := { cf_backend : string; cf_key : string; cf_timeoutMs : Z }.

Record LimitConfig := { lim_low : option spec_float; lim_high : option spec_float }.

Record AlarmConfig := {
  al_lowAlarm : option spec_float;
  al_lowWarning : option spec_float;
  al_highWarning : option spec_float;
  al_highAlarm : option spec_float;
  al_hysteresis : spec_float;
}.

Record MetadataConfig := {
  md_description : string;
  md_units : string;
  md_precision : option Z;
  md_form : option DisplayForm;
  md_display : LimitConfig;
  md_control : LimitConfig;
  md_minStep : option spec_float;
}.

Record LinearTransformConfig := { tr_scale : spec_float; tr_offset : spec_float }.

Record SourceHealthConfig := { sh_required : bool; sh_staleAfterMs : Z }.

Record AccessAssignment := { asg : string; asl : Z }.

Record AccessDefaultsConfig := {
  ad_pv : AccessAssignment;
  ad_rpc : AccessAssignment;
  ad_adminRead : AccessAssignment;
  ad_adminWrite : AccessAssignment;
}.

Record AccessWatchConfig := { aw_enabled : bool; aw_intervalMs : Z; aw_settleMs : Z }.

Record AccessConfig := {
  ac_enabled : bool;
  ac_file : string;
  ac_macros : smap string;
  ac_watch : AccessWatchConfig;
  ac_defaults : AccessDefaultsConfig;
}.

Record RpcServiceConfig := {
  rs_endpoint : string;
  rs_service : string;
  rs_suffix : string;
  rs_defaults : smap string;
  rs_methodDefaults : smap (smap string);
  rs_optional : bool;
  rs_discoveryTimeoutMs : Z;
  rs_timeoutMs : Z;
  rs_retryIntervalMs : Z;
  rs_access : option AccessAssignment;
}.

(** [std::variant<std::monostate, bool, int8_t, ...>] *)
Inductive TypedValue :=
| TVmonostate
| TVbool (b : bool)
| TVint8 (z : Z) | TVuint8 (z : Z) | TVint16 (z : Z) | TVuint16 (z : Z)
| TVint32 (z : Z) | TVuint32 (z : Z) | TVint64 (z : Z) | TVuint64 (z : Z)
| TVfloat (x : spec_float) | TVdouble (x : spec_float)
| TVstring (s : string)
| TVvint8 (l : list Z) | TVvuint8 (l : list Z) | TVvint16 (l : list Z) | TVvuint16 (l : list Z)
| TVvint32 (l : list Z) | TVvuint32 (l : list Z) | TVvint64 (l : list Z) | TVvuint64 (l : list Z)
| TVvfloat (l : list spec_float) | TVvdouble (l : list spec_float).

Record PVConfig := {
  pv_name : string;
  pv_aliases : list string;
  pv_kind : PVKind;
  pv_type : PrimitiveType;
  pv_shape : Shape;
  pv_read : RouteConfig;
  pv_write : option RouteConfig;
  pv_confirm : option ConfirmConfig;
  pv_metadata : MetadataConfig;
  pv_alarms : AlarmConfig;
  pv_transform : option LinearTransformConfig;
  pv_initialValue : TypedValue;
  pv_access : option AccessAssignment;
  pv_maxFrameBytes : Z;
  pv_maxFrameGap : Z;
  pv_sourceHealth : SourceHealthConfig;
}.

Record ServerConfig := {
  sv_instance : string;
  sv_nameSpace : string;
  sv_interfaces : list string;
  sv_tcpPort : option Z;
  sv_udpPort : option Z;
  sv_autoBeacon : bool;
}.

Record RedisConfig := {
  rd_baseKey : string;
  rd_host : string;
  rd_port : Z;
  rd_user : string;
  rd_password : string;
  rd_workers : Z;
  rd_readers : Z;
  rd_readerProbeMs : Z;
}.

Definition RedisBackendConfigs : Type := smap RedisConfig.

Record AlarmStreamConfig := { as_backend : string; as_stream : string }.

Record ChannelFinderConfig := {
  ch_url : string;
  ch_owner : string;
  ch_tags : list string;
  ch_properties : smap string;
}.

Record DiscoveryConfig := {
  dc_enabled : bool;
  dc_bindAddress : string;
  dc_udpPort : Z;
  dc_timeoutMs : Z;
  dc_maxHoldoffMs : Z;
  dc_maxRecords : Z;
  dc_maxBytes : Z;
}.

Record OperationLimitsConfig := {
  ol_writeWorkers : Z;
  ol_queuedWritesPerPV : Z;
  ol_queuedWriteBytes : Z;
  ol_rpcWorkers : Z;
  ol_queuedRpcPerMethod : Z;
  ol_queuedRpcBytes : Z;
  ol_maxPayloadBytes : Z;
  ol_operationTimeoutMs : option Z;
  ol_alarmQueueEntries : Z;
  ol_alarmStateBytes : Z;
}.

Record AppConfig := {
  app_schemaVersion : Z;
  app_legacyInput : bool;
  app_server : ServerConfig;
  app_access : AccessConfig;
  app_redisBackends : RedisBackendConfigs;
  app_alarms : AlarmStreamConfig;
  app_channelFinder : ChannelFinderConfig;
  app_discovery : DiscoveryConfig;
  app_limits : OperationLimitsConfig;
  app_pvs : list PVConfig;
  app_rpcServices : list RpcServiceConfig;
}.

(** ** Default member initialisers *)

Definition RouteConfig_default : RouteConfig := {| rt_backend := ""; rt_key := "" |}.
Definition LimitConfig_default : LimitConfig := {| lim_low := None; lim_high := None |}.
Definition AlarmConfig_default : AlarmConfig :=
  {| al_lowAlarm := None; al_lowWarning := None; al_highWarning := None; al_highAlarm := None;
     al_hysteresis := S754_zero false |}.
Definition MetadataConfig_default : MetadataConfig :=
  {| md_description := ""; md_units := ""; md_precision := None; md_form := None;
     md_display := LimitConfig_default; md_control := LimitConfig_default; md_minStep := None |}.
Definition AccessAssignment_default : AccessAssignment := {| asg := "DEFAULT"; asl := 0 |}.
Definition SourceHealthConfig_default : SourceHealthConfig :=
  {| sh_required := true; sh_staleAfterMs := 0 |}.
Definition PVConfig_default : PVConfig :=
  {| pv_name := ""; pv_aliases := []; pv_kind := Value; pv_type := Float64; pv_shape := Scalar;
     pv_read := RouteConfig_default; pv_write := None; pv_confirm := None;
     pv_metadata := MetadataConfig_default; pv_alarms := AlarmConfig_default;
     pv_transform := None; pv_initialValue := TVmonostate; pv_access := None;
     pv_maxFrameBytes := 32 * 1024 * 1024; pv_maxFrameGap := kDefaultNDArrayMaxFrameGap;
     pv_sourceHealth := SourceHealthConfig_default |}.
Definition OperationLimitsConfig_default : OperationLimitsConfig :=
  {| ol_writeWorkers := 4; ol_queuedWritesPerPV := 16; ol_queuedWriteBytes := 64 * 1024 * 1024;
     ol_rpcWorkers := 4; ol_queuedRpcPerMethod := 16; ol_queuedRpcBytes := 64 * 1024 * 1024;
     ol_maxPayloadBytes := 32 * 1024 * 1024; ol_operationTimeoutMs := None;
     ol_alarmQueueEntries := 1024; ol_alarmStateBytes := 64 * 1024 * 1024 |}.
Definition DiscoveryConfig_default : DiscoveryConfig :=
  {| dc_enabled := true; dc_bindAddress := "0.0.0.0"; dc_udpPort := 5049; dc_timeoutMs := 20000;
     dc_maxHoldoffMs := 10000; dc_maxRecords := 100000; dc_maxBytes := 16 * 1024 * 1024 |}.

#[export] Instance MetadataConfig_eta : Eta MetadataConfig := fun r =>
  Build_MetadataConfig (md_description r) (md_units r) (md_precision r) (md_form r) (md_display r)
    (md_control r) (md_minStep r).
#[export] Instance PVConfig_eta : Eta PVConfig := fun r =>
  Build_PVConfig (pv_name r) (pv_aliases r) (pv_kind r) (pv_type r) (pv_shape r) (pv_read r)
    (pv_write r) (pv_confirm r) (pv_metadata r) (pv_alarms r) (pv_transform r)
    (pv_initialValue r) (pv_access r) (pv_maxFrameBytes r) (pv_maxFrameGap r)
    (pv_sourceHealth r).

(** ** Classification and printing (config.cpp) *)

Definition isNumericType (t : PrimitiveType) : bool :=
  negb (bool_decide (t = Boolean)) && negb (bool_decide (t = String_)).

Definition isFloatingPointType (t : PrimitiveType) : bool :=
  bool_decide (t = Float32) || bool_decide (t = Float64).

Definition isArrayElementTypeSupported (t : PrimitiveType) : bool :=
  negb (bool_decide (t = Boolean)) && negb (bool_decide (t = String_)).

Definition toString_PrimitiveType (t : PrimitiveType) : string :=
  match t with
  | Boolean => "bool" | Int8 => "int8" | UInt8 => "uint8" | Int16 => "int16"
  | UInt16 => "uint16" | Int32 => "int32" | UInt32 => "uint32" | Int64 => "int64"
  | UInt64 => "uint64" | Float32 => "float32" | Float64 => "float64" | String_ => "string"
  end.

Definition toString_Shape (s : Shape) : string :=
  match s with Scalar => "scalar" | Array => "array" end.

Definition toString_PVKind (k : PVKind) : string :=
  match k with Value => "value" | NTNDArray => "ntndarray" end.

Definition toString_DisplayForm (f : DisplayForm) : string :=
  match f with
  | Default => "default" | String_form => "string" | Binary => "binary" | Decimal => "decimal"
  | Hex => "hex" | Exponential => "exponential" | Engineering => "engineering"
  end.

(** ** Structural comparison (config.cpp) *)

Definition sameOptionalRoute (l r : option RouteConfig) : bool :=
  match l, r with
  | None, None => true
  | Some a, Some b => String.eqb (rt_backend a) (rt_backend b) && String.eqb (rt_key a) (rt_key b)
  | _, _ => false
  end.

Definition sameConfirm (l r : option ConfirmConfig) : bool :=
  match l, r with
  | None, None => true
  | Some a, Some b =>
      String.eqb (cf_backend a) (cf_backend b) && String.eqb (cf_key a) (cf_key b) &&
      (cf_timeoutMs a =? cf_timeoutMs b)%Z
  | _, _ => false
  end.

Definition sameReaderTopology (l r : PVConfig) : bool :=
  String.eqb (pv_name l) (pv_name r) &&
  bool_decide (pv_kind l = pv_kind r) &&
  bool_decide (pv_type l = pv_type r) &&
  bool_decide (pv_shape l = pv_shape r) &&
  (pv_maxFrameBytes l =? pv_maxFrameBytes r)%Z &&
  String.eqb (rt_backend (pv_read l)) (rt_backend (pv_read r)) &&
  String.eqb (rt_key (pv_read l)) (rt_key (pv_read r)) &&
  sameOptionalRoute (pv_write l) (pv_write r) &&
  sameConfirm (pv_confirm l) (pv_confirm r).

Definition sameServerConfig (l r : ServerConfig) : bool :=
  String.eqb (sv_instance l) (sv_instance r) &&
  String.eqb (sv_nameSpace l) (sv_nameSpace r) &&
  bool_decide (sv_interfaces l = sv_interfaces r) &&
  bool_decide (sv_tcpPort l = sv_tcpPort r) &&
  bool_decide (sv_udpPort l = sv_udpPort r) &&
  Bool.eqb (sv_autoBeacon l) (sv_autoBeacon r).

Definition sameAccessAssignment (l r : AccessAssignment) : bool :=
  String.eqb (asg l) (asg r) && (asl l =? asl r)%Z.

Definition sameAccessConfig (l r : AccessConfig) : bool :=
  Bool.eqb (ac_enabled l) (ac_enabled r) &&
  String.eqb (ac_file l) (ac_file r) &&
  bool_decide (ac_macros l = ac_macros r) &&
  Bool.eqb (aw_enabled (ac_watch l)) (aw_enabled (ac_watch r)) &&
  (aw_intervalMs (ac_watch l) =? aw_intervalMs (ac_watch r))%Z &&
  (aw_settleMs (ac_watch l) =? aw_settleMs (ac_watch r))%Z &&
  sameAccessAssignment (ad_pv (ac_defaults l)) (ad_pv (ac_defaults r)) &&
  sameAccessAssignment (ad_rpc (ac_defaults l)) (ad_rpc (ac_defaults r)) &&
  sameAccessAssignment (ad_adminRead (ac_defaults l)) (ad_adminRead (ac_defaults r)) &&
  sameAccessAssignment (ad_adminWrite (ac_defaults l)) (ad_adminWrite (ac_defaults r)).

Definition sameRedisConfig (l r : RedisConfig) : bool :=
  String.eqb (rd_baseKey l) (rd_baseKey r) &&
  String.eqb (rd_host l) (rd_host r) &&
  (rd_port l =? rd_port r)%Z &&
  String.eqb (rd_user l) (rd_user r) &&
  String.eqb (rd_password l) (rd_password r) &&
  (rd_workers l =? rd_workers r)%Z &&
  (rd_readers l =? rd_readers r)%Z &&
  (rd_readerProbeMs l =? rd_readerProbeMs r)%Z.

Definition sameRedisBackends (l r : RedisBackendConfigs) : bool :=
  if negb (length l =? length r)%nat then false
  else forallb (fun '(k, a) => match sm_find k r with
                               | Some b => sameRedisConfig a b
                               | None => false
                               end) l.

Definition sameAlarmStreamConfig (l r : AlarmStreamConfig) : bool :=
  String.eqb (as_backend l) (as_backend r) && String.eqb (as_stream l) (as_stream r).

Definition sameOperationLimits (a b : OperationLimitsConfig) : bool :=
  (ol_writeWorkers a =? ol_writeWorkers b)%Z &&
  (ol_queuedWritesPerPV a =? ol_queuedWritesPerPV b)%Z &&
  (ol_queuedWriteBytes a =? ol_queuedWriteBytes b)%Z &&
  (ol_maxPayloadBytes a =? ol_maxPayloadBytes b)%Z &&
  (ol_rpcWorkers a =? ol_rpcWorkers b)%Z &&
  (ol_queuedRpcPerMethod a =? ol_queuedRpcPerMethod b)%Z &&
  (ol_queuedRpcBytes a =? ol_queuedRpcBytes b)%Z &&
  bool_decide (ol_operationTimeoutMs a = ol_operationTimeoutMs b) &&
  (ol_alarmQueueEntries a =? ol_alarmQueueEntries b)%Z &&
  (ol_alarmStateBytes a =? ol_alarmStateBytes b)%Z.

Definition sameDiscoveryConfig (l r : DiscoveryConfig) : bool :=
  Bool.eqb (dc_enabled l) (dc_enabled r) &&
  String.eqb (dc_bindAddress l) (dc_bindAddress r) &&
  (dc_udpPort l =? dc_udpPort r)%Z &&
  (dc_timeoutMs l =? dc_timeoutMs r)%Z &&
  (dc_maxHoldoffMs l =? dc_maxHoldoffMs r)%Z &&
  (dc_maxRecords l =? dc_maxRecords r)%Z &&
  (dc_maxBytes l =? dc_maxBytes r)%Z.

(** ** Served names (config.cpp) *)

Definition fullPVName (server : ServerConfig) (pv : PVConfig) : string :=
  if str_empty (sv_nameSpace server) then pv_name pv
  else sv_nameSpace server +:+ ":" +:+ pv_name pv.

Definition fullPVNames (server : ServerConfig) (pv : PVConfig) : list string :=
  fullPVName server pv :: pv_aliases pv.

Definition adminPVName (server : ServerConfig) (suffix : string) : string :=
  "SYS:" +:+ sv_instance server +:+ ":" +:+ suffix.

Definition versionPVName (server : ServerConfig) : string := sv_instance server +:+ ":version".
Definition revisionPVName (server : ServerConfig) : string := sv_instance server +:+ ":revision".

Definition adminPVNames (server : ServerConfig) : list string :=
  [versionPVName server; revisionPVName server] ++
  map (adminPVName server)
    ["version"; "revision"; "config:reload"; "config:generation"; "config:lastStatus";
     "config:lastError"; "config:lastDiff"; "config:reloadStatus"; "stats:pvCount";
     "stats:ndarrayInvalidFrames"; "stats:ndarraySkippedFrames"; "stats:ndarrayDiscontinuities";
     "stats:operations"; "rpc:status"; "alarms:status"; "backend:health"; "source:status";
     "ready"; "access:reload"; "access:enabled"; "access:generation"; "access:lastStatus";
     "access:lastError"; "access:policyFingerprint"; "access:watchStatus";
     "access:activeClients"; "access:deniedReads"; "access:deniedWrites";
     "access:rightsChanges"; "access:operations"; "discovery:status"].
