(* ===== verification/Endpoints.v ===== *)
(** * Endpoint namespace

    [EndpointRegistry] and [configuredEndpoints] of
    include/redis_pvxs_ioc/endpoints.h: the names one configuration
    generation serves.  The main theorem says a configuration is accepted
    exactly when its served names are well formed and pairwise distinct. *)

From S2P Require Import Prelude StrMap Floats Config.

Local Open Scope string_scope.

Inductive EndpointKind := Diagnostic | EPValue | Alias | RPC.
#[export] Instance EndpointKind_eq_dec : EqDecision EndpointKind.
Proof. solve_decision. Defined.

Record EndpointReservation := { er_kind : EndpointKind; er_owner : string }.

(** The class's only member is the map of reservations. *)
Definition EndpointRegistry : Type := smap EndpointReservation.

Definition reserve (entries : EndpointRegistry) (name : string) (kind : EndpointKind)
    (owner path : string) : exn EndpointRegistry :=
  if str_empty name || has_nul name then
    Throw (path +:+ ": PV names must be nonempty and must not contain NUL")
  else
    match sm_find name entries with
    | Some found =>
        let detail :=
          if decide (er_kind found = Diagnostic)
          then "PV name conflicts with reserved metadata PV '" +:+ name +:+ "'"
          else "duplicate served PV name '" +:+ name +:+ "'" in
        Throw (path +:+ ": " +:+ detail +:+ " (owned by " +:+ er_owner found +:+ ")")
    | None => Ret (sm_set name {| er_kind := kind; er_owner := owner |} entries)
    end.

Definition addDiagnostics (entries : EndpointRegistry) (server : ServerConfig)
    : exn EndpointRegistry :=
  exn_fold (fun es name => reserve es name Diagnostic "runtime" "endpoints")
    entries (adminPVNames server).

(** One iteration of the loop of [addPV]; [index] 0 is the canonical name. *)
Definition addPV_name (front path : string) (es : EndpointRegistry) (entry : nat * string)
    : exn EndpointRegistry :=
  let '(index, name) := entry in
  reserve es name (if decide (index = 0%nat) then EPValue else Alias) front
    (path +:+ (if decide (index = 0%nat) then ".name"
               else ".aliases[" +:+ to_dec (Z.of_nat index - 1) +:+ "]")).

Definition addPV (entries : EndpointRegistry) (server : ServerConfig) (pv : PVConfig)
    (path : string) : exn EndpointRegistry :=
  exn_fold (addPV_name (fullPVName server pv) path) entries
    (imap pair (fullPVNames server pv)).

Definition configuredEndpoints (config : AppConfig) : exn EndpointRegistry :=
  es ← addDiagnostics [] (app_server config);
  exn_fold (fun es '(index, pv) =>
      addPV es (app_server config) pv ("root.pvs[" +:+ to_dec (Z.of_nat index) +:+ "]"))
    es (imap pair (app_pvs config)).

(** ** Reservation *)

Definition name_ok (name : string) : Prop := name <> "" /\ has_nul name = false.

#[export] Instance name_ok_dec name : Decision (name_ok name).
Proof. unfold name_ok. apply _. Defined.

(** [reserves es names es']: [es'] is [es] with exactly [names] added. *)
Definition reserves (es : EndpointRegistry) (names : list string) (es' : EndpointRegistry) : Prop :=
  sm_wf es' /\ Forall name_ok names /\ NoDup names /\
  (forall n, n ∈ names -> n ∉ sm_keys es) /\
  (forall n, n ∈ sm_keys es' <-> n ∈ names \/ n ∈ sm_keys es).

Definition reservable (es : EndpointRegistry) (names : list string) : Prop :=
  Forall name_ok names /\ NoDup names /\ (forall n, n ∈ names -> n ∉ sm_keys es).

Lemma reserve_ret es name kind owner path es' :
  reserve es name kind owner path = Ret es' <->
  name_ok name /\ (name ∉ sm_keys es) /\
  es' = sm_set name {| er_kind := kind; er_owner := owner |} es.
Proof.
  unfold reserve, name_ok. rewrite <-(sm_find_None name es).
  destruct (str_empty name) eqn:E1; cbn.
  { apply str_empty_true in E1 as ->. naive_solver. }
  assert (name <> "") by (by intros ->). destruct (has_nul name); [naive_solver|].
  destruct (sm_find name es); naive_solver.
Qed.

Lemma reserves_nil es : sm_wf es -> reserves es [] es.
Proof.
  intros. split_and!; [done|constructor..| |]; intros n; rewrite elem_of_nil; naive_solver.
Qed.

Lemma reserves_app es l1 es1 l2 es2 :
  reserves es l1 es1 -> reserves es1 l2 es2 -> reserves es (l1 ++ l2) es2.
Proof.
  intros (W1 & O1 & N1 & F1 & K1) (W2 & O2 & N2 & F2 & K2). split_and!.
  - done.
  - by apply Forall_app.
  - apply NoDup_app. split_and!; [done| |done]. intros n H1 H2. apply (F2 n); [done|].
    apply K1. auto.
  - intros n [?|H2]%elem_of_app; [auto|]. intros H. apply (F2 n); [done|]. apply K1; auto.
  - intros n. rewrite K2, K1, elem_of_app. naive_solver.
Qed.

Lemma reservable_app es l1 es1 l2 :
  reservable es (l1 ++ l2) -> reserves es l1 es1 -> reservable es l1 /\ reservable es1 l2.
Proof.
  intros ([O1 O2]%Forall_app & (N1 & D & N2)%NoDup_app & F) (_ & _ & _ & _ & K).
  split; split_and!; try done.
  - intros n ?. apply F. rewrite elem_of_app; auto.
  - intros n Hn [H|H]%K; [by eapply D|]. apply (F n); [|done]. rewrite elem_of_app; auto.
Qed.

(** A loop that reserves a list of names one by one: it returns exactly when
    the names are reservable, and then it reserved all of them. *)
Lemma reserve_fold {A} (f : EndpointRegistry -> A -> exn EndpointRegistry) (nm : A -> string) l :
  (forall es x es', f es x = Ret es' -> sm_wf es -> reserves es [nm x] es') ->
  (forall es x, name_ok (nm x) -> nm x ∉ sm_keys es -> exists es', f es x = Ret es') ->
  forall es, sm_wf es ->
  (forall es', exn_fold f es l = Ret es' -> reserves es (map nm l) es') /\
  (reservable es (map nm l) -> exists es', exn_fold f es l = Ret es').
Proof.
  intros Hs Hc. induction l as [|x l IH]; intros es Hwf; cbn.
  { split; [|eauto]. intros es' [= ->]. by apply reserves_nil. }
  split.
  - intros es' (es1 & Hx & Hl)%exn_bind_ret. apply Hs in Hx; [|done].
    pose proof Hx as [Hwf1 _]. apply (IH es1 Hwf1) in Hl.
    exact (reserves_app _ [_] _ _ _ Hx Hl).
  - intros Hr. pose proof Hr as (Ho & _ & Hf). inversion Ho; subst.
    destruct (Hc es x) as [es1 Hx]; [done|apply Hf; left|]. rewrite Hx. cbn.
    pose proof (Hs _ _ _ Hx Hwf) as Hx'. pose proof Hx' as [Hwf1 _].
    apply (IH es1 Hwf1). by eapply (reservable_app _ [_]).
Qed.

Lemma reserve_sound es name kind owner path es' :
  reserve es name kind owner path = Ret es' -> sm_wf es -> reserves es [name] es'.
Proof.
  intros (Hok & Hn & ->)%reserve_ret Hwf. split_and!.
  - auto with ioc.
  - by constructor.
  - apply NoDup_singleton.
  - by intros n ->%list_elem_of_singleton.
  - intros n. by rewrite sm_keys_set, list_elem_of_singleton.
Qed.

Lemma reserve_complete es name kind owner path :
  name_ok name -> name ∉ sm_keys es -> exists es', reserve es name kind owner path = Ret es'.
Proof. intros. eexists. by apply reserve_ret. Qed.

Lemma addDiagnostics_spec server es : sm_wf es ->
  (forall es', addDiagnostics es server = Ret es' -> reserves es (adminPVNames server) es') /\
  (reservable es (adminPVNames server) -> exists es', addDiagnostics es server = Ret es').
Proof.
  intros Hwf. unfold addDiagnostics.
  edestruct (reserve_fold (fun es name => reserve es name Diagnostic "runtime" "endpoints") id
    (adminPVNames server)) as [A B]; [| |exact Hwf|].
  - intros ????. by eapply reserve_sound.
  - intros ??. apply reserve_complete.
  - rewrite List.map_id in A, B. by split.
Qed.

Lemma map_snd_imap {A} (l : list A) : map snd (imap pair l) = l.
Proof.
  change (snd <$> imap pair l = l). rewrite fmap_imap.
  rewrite <-(list_fmap_id l) at 2. rewrite <-(imap_const id). by apply imap_ext.
Qed.

Lemma addPV_spec server pv path es : sm_wf es ->
  (forall es', addPV es server pv path = Ret es' -> reserves es (fullPVNames server pv) es') /\
  (reservable es (fullPVNames server pv) -> exists es', addPV es server pv path = Ret es').
Proof.
  intros Hwf. unfold addPV.
  edestruct (reserve_fold (addPV_name (fullPVName server pv) path) snd
    (imap pair (fullPVNames server pv))) as [A B]; [| |exact Hwf|].
  - intros ? [??] ?. apply reserve_sound.
  - intros ? [??]. apply reserve_complete.
  - rewrite map_snd_imap in A, B. by split.
Qed.

(** ** The namespace of a configuration *)

(** Every name the generation serves: the diagnostics, then each PV's
    canonical name and aliases. *)
Definition servedNames (config : AppConfig) : list string :=
  adminPVNames (app_server config) ++
  concat (map (fullPVNames (app_server config)) (app_pvs config)).

Lemma configuredPVs_spec server (pvs : list (nat * PVConfig)) path : forall es, sm_wf es ->
  let f := fun es '(index, pv) => addPV es server pv (path index) in
  (forall es', exn_fold f es pvs = Ret es' ->
     reserves es (concat (map (fullPVNames server) (map snd pvs))) es') /\
  (reservable es (concat (map (fullPVNames server) (map snd pvs))) ->
     exists es', exn_fold f es pvs = Ret es').
Proof.
  cbv zeta. induction pvs as [|[i pv] pvs IH]; intros es Hwf; cbn [exn_fold map concat snd].
  { split; [|eauto]. intros es' [= ->]. by apply reserves_nil. }
  destruct (addPV_spec server pv (path i) es Hwf) as [Hs Hc]. split.
  - intros es' (es1 & Hx & Hl)%exn_bind_ret. apply Hs in Hx.
    pose proof Hx as [Hwf1 _]. apply (IH es1 Hwf1) in Hl. exact (reserves_app _ _ _ _ _ Hx Hl).
  - intros Hr. destruct Hc as [es1 Hx].
    { destruct Hr as ([? _]%Forall_app & (? & _ & _)%NoDup_app & F). split_and!; [done..|].
      intros n ?. apply F. rewrite elem_of_app; auto. }
    rewrite Hx. cbn. apply Hs in Hx. pose proof Hx as [Hwf1 _].
    apply (IH es1 Hwf1). by eapply reservable_app.
Qed.

(** Names the registry accepted are well formed and distinct. *)
Lemma configuredEndpoints_names config es :
  configuredEndpoints config = Ret es -> Forall name_ok (servedNames config) /\ NoDup (servedNames config).
Proof.
  unfold configuredEndpoints. intros (es1 & Hd & Hp)%exn_bind_ret.
  destruct (addDiagnostics_spec (app_server config) [] sm_wf_nil) as [Ds _].
  apply Ds in Hd. pose proof Hd as [Hwf1 _].
  destruct (configuredPVs_spec (app_server config) (imap pair (app_pvs config))
    (fun index => "root.pvs[" +:+ to_dec (Z.of_nat index) +:+ "]") es1 Hwf1) as [Ps _].
  rewrite map_snd_imap in Ps. apply Ps in Hp.
  destruct (reserves_app _ _ _ _ _ Hd Hp) as (_ & Ho & Hn & _). by split.
Qed.

(** A configuration's namespace is accepted exactly when every served name
    is nonempty, free of NUL and used once, across diagnostics, canonical names
    and aliases; the registry then holds precisely those names. *)
Theorem configuredEndpoints_iff config :
  (Forall name_ok (servedNames config) /\ NoDup (servedNames config)) <->
  (exists es, configuredEndpoints config = Ret es /\ sm_wf es /\
     forall n, n ∈ sm_keys es <-> n ∈ servedNames config).
Proof.
  unfold configuredEndpoints.
  destruct (addDiagnostics_spec (app_server config) [] sm_wf_nil) as [Ds Dc].
  assert (forall n, n ∉ sm_keys (V:=EndpointReservation) []) as Hempty by (intros n; apply not_elem_of_nil).
  split.
  - intros [Ho Hn].
    assert (reservable [] (servedNames config)) as Hr by (split_and!; auto).
    unfold servedNames in Hr. destruct Dc as [es1 Hd].
    { destruct Hr as ([? _]%Forall_app & (? & _ & _)%NoDup_app & _). split_and!; auto. }
    rewrite Hd. cbn. apply Ds in Hd. pose proof Hd as [Hwf1 _].
    destruct (configuredPVs_spec (app_server config) (imap pair (app_pvs config))
      (fun index => "root.pvs[" +:+ to_dec (Z.of_nat index) +:+ "]") es1 Hwf1) as [Ps Pc].
    rewrite map_snd_imap in Ps, Pc.
    destruct Pc as [es2 Hp]; [by eapply reservable_app|].
    exists es2. split; [done|]. apply Ps in Hp.
    destruct (reserves_app _ _ _ _ _ Hd Hp) as (? & _ & _ & _ & K).
    split; [done|]. intros n. rewrite K. unfold servedNames. naive_solver.
  - intros (es & Hes & _). by apply (configuredEndpoints_names config es).
Qed.

(** ** The diagnostics never collide with each other *)

Lemma adminPVName_inj server s1 s2 : adminPVName server s1 = adminPVName server s2 -> s1 = s2.
Proof.
  unfold adminPVName. rewrite !str_app_assoc. apply str_app_inj_l.
Qed.

Lemma adminPVNames_NoDup server : NoDup (adminPVNames server).
Proof.
  unfold adminPVNames. apply NoDup_app. split_and!.
  - apply NoDup_cons. split; [|apply NoDup_singleton].
    intros E%list_elem_of_singleton%str_app_inj_l. done.
  - intros n Hn (s & -> & Hs)%list_elem_of_fmap.
    assert (String.length s <> 3%nat /\ String.length s <> 4%nat) as [H3 H4].
    { clear Hn. revert s Hs. rewrite <-Forall_forall. repeat constructor; done. }
    apply elem_of_cons in Hn as [E|E%list_elem_of_singleton]; apply (f_equal String.length) in E;
      unfold versionPVName, revisionPVName, adminPVName in E;
      rewrite !str_length_app in E; cbn in E; lia.
  - apply NoDup_fmap_2_strong; [by intros ?? _ _; apply adminPVName_inj|].
    apply (bool_decide_unpack _). by vm_compute.
Qed.

Lemma has_nul_adminPVNames server n :
  n ∈ adminPVNames server -> has_nul n = has_nul (sv_instance server) /\ n <> "".
Proof.
  unfold adminPVNames. intros [Hn|Hn]%elem_of_app.
  - apply elem_of_cons in Hn as [-> | ->%list_elem_of_singleton];
      unfold versionPVName, revisionPVName; rewrite has_nul_app, orb_false_r; (split; [done|]);
      intros E%(f_equal String.length); rewrite str_length_app in E; cbn in E; lia.
  - apply list_elem_of_fmap in Hn as (s & -> & Hs). assert (has_nul s = false) as Hnul.
    { revert s Hs. rewrite <-Forall_forall. repeat constructor; done. }
    unfold adminPVName. rewrite !has_nul_app, Hnul, orb_false_r. by split.
Qed.

(** Building the diagnostics namespace throws exactly when the configured
    instance name contains a NUL: the thirty-three diagnostic names of one
    instance never collide with each other, whatever the instance is called. *)
Theorem addDiagnostics_ret_iff server :
  is_ret (addDiagnostics [] server) = negb (has_nul (sv_instance server)).
Proof.
  destruct (addDiagnostics_spec server [] sm_wf_nil) as [Ds Dc].
  destruct (has_nul (sv_instance server)) eqn:E; cbn [negb].
  - destruct (addDiagnostics [] server) as [es|] eqn:Ea; [|done].
    destruct (Ds es eq_refl) as (_ & Ho & _). exfalso.
    assert (versionPVName server ∈ adminPVNames server) as Hin by (unfold adminPVNames; apply elem_of_app; left; left).
    eapply Forall_forall in Ho; [|exact Hin]. destruct Ho as [_ Ho].
    apply has_nul_adminPVNames in Hin as [Hin _]. congruence.
  - destruct Dc as [es ->]; [|done]. split_and!.
    + apply Forall_forall. intros n Hn. apply has_nul_adminPVNames in Hn as [H1 H2].
      split; [done|congruence].
    + apply adminPVNames_NoDup.
    + intros n _. apply not_elem_of_nil.
Qed.
