(* ===== verification/Secrets.v ===== *)
(** * Secret files

    src/secrets.cpp: a credential read from a file.  The operating system is a
    parameter: [open] and [fstat] of a path and the results the successive
    [read] calls on the descriptor deliver. *)

From Stdlib Require Import Ascii.
From S2P Require Import Prelude.

Local Open Scope string_scope.
Local Open Scope list_scope.

(** What one [read] finds: data (of which it takes at most what the buffer has
    room for), a signal, or an error.  After the last result the file is at
    its end. *)
Inductive ReadResult := RData (s : string) | REintr | RError.

Inductive OpenResult :=
| OpenFails (strerror : string)
| StatFails
| NotRegular
| Regular (st_size : Z) (reads : list ReadResult).

Definition OpenFile : Type := string -> OpenResult.

Definition secretLimit : nat := 16 * 1024.
Definition secretBuffer : nat := secretLimit + 3.

(** The [read] loop: fills the buffer until it is full or the file ends. *)
Fixpoint readLoop (buffer : string) (reads : list ReadResult) : exn string :=
  if (String.length buffer <? secretBuffer)%nat then
    match reads with
    | [] => Ret buffer
    | RData s :: rest =>
        if str_empty s then Ret buffer
        else readLoop (buffer +:+ String.substring 0 (secretBuffer - String.length buffer) s) rest
    | REintr :: rest => readLoop buffer rest
    | RError :: rest => Throw "cannot read secret file"
    end
  else Ret buffer.

(** [if (used && buffer[used - 1] == c) --used;] *)
Fixpoint strip_last (c : ascii) (s : string) : option string :=
  match s with
  | EmptyString => None
  | String d EmptyString => if Ascii.eqb d c then Some EmptyString else None
  | String d s' => String d <$> strip_last c s'
  end.

Definition LF : ascii := "010".
Definition CR : ascii := "013".

Definition stripNewline (buffer : string) : string :=
  match strip_last LF buffer with
  | Some b => default b (strip_last CR b)
  | None => buffer
  end.

(** [value.find_first_of("\r\n\0") != npos] *)
Fixpoint has_break (s : string) : bool :=
  match s with
  | EmptyString => false
  | String c s' => Ascii.eqb c CR || Ascii.eqb c LF || Ascii.eqb c Ascii.zero || has_break s'
  end.

Definition secretOfBuffer (buffer : string) : exn string :=
  let value := stripNewline buffer in
  if (secretLimit <? String.length value)%nat then Throw "secret exceeds 16384 bytes"
  else if str_empty value then Throw "secret file must not be empty"
  else if has_break value then Throw "secret must be one line without NUL"
  else Ret value.

(** [fail(reason)] prefixes every message with the setting. *)
Definition at_setting {A} (setting : string) (m : exn A) : exn A :=
  match m with Ret a => Ret a | Throw w => Throw (setting +:+ ": " +:+ w) end.

Definition readSecretFile (open : OpenFile) (path setting : string) : exn string :=
  at_setting setting
    (if str_empty path || has_nul path then Throw "secret file path must be nonempty text"
     else match open path with
          | OpenFails e => Throw ("cannot open secret file: " +:+ e)
          | StatFails => Throw "cannot inspect secret file"
          | NotRegular => Throw "secret input must be a regular file"
          | Regular st_size reads =>
              if (Z.of_nat (secretLimit + 2) <? st_size)%Z then Throw "secret exceeds 16384 bytes"
              else buffer ← readLoop "" reads; secretOfBuffer buffer
          end).

(** [credentialFromEnvironment]; [getenv] is the process environment. *)
Definition credentialFromEnvironment (open : OpenFile) (getenv : string -> option string) (name : string)
    : exn string :=
  let direct := getenv name in
  let fileName := name +:+ "_FILE" in
  match getenv fileName with
  | Some file =>
      if negb (str_empty file) then
        if match direct with Some d => negb (str_empty d) | None => false end
        then Throw (name +:+ " and " +:+ fileName +:+ " are mutually exclusive")
        else readSecretFile open file fileName
      else Ret (default "" direct)
  | None => Ret (default "" direct)
  end.

(** ** What a secret is *)

Definition secret_line (v : string) : Prop :=
  v <> "" /\ (String.length v <= 16 * 1024)%nat /\ has_break v = false.

Definition crlf : string := String CR (String LF EmptyString).
Definition lf : string := String LF EmptyString.

Lemma strip_last_Some c s s' : strip_last c s = Some s' <-> s = s' +:+ String c EmptyString.
Proof.
  revert s'; induction s as [|d s IH]; intros s'.
  - destruct s' as [|e s']; [done|]. rewrite str_app_cons. done.
  - destruct s as [|e s].
    + cbn. destruct (Ascii.eqb_spec d c) as [->|Hne]; destruct s' as [|e [|? ?]];
        rewrite ?str_app_cons; split; intros H; inversion H; subst; done.
    + change (strip_last c (String d (String e s))) with (String d <$> strip_last c (String e s)).
      rewrite fmap_Some. split.
      * intros (y & Hy & ->). apply IH in Hy as ->. done.
      * destruct s' as [|d' s']; [done|]. rewrite str_app_cons. intros [= -> Hs].
        exists s'. split; [|done]. by apply IH.
Qed.

Lemma strip_last_None c s s' : strip_last c s = None -> s <> s' +:+ String c EmptyString.
Proof. intros H E. by apply strip_last_Some in E; rewrite H in E. Qed.

Lemma has_break_app a b : has_break (a +:+ b) = has_break a || has_break b.
Proof. induction a as [|c a IH]; [done|]. rewrite str_app_cons. cbn. by rewrite IH, !orb_assoc. Qed.

Lemma strip_last_line c v : (c = CR \/ c = LF) -> has_break v = false -> strip_last c v = None.
Proof.
  intros Hc Hv. destruct (strip_last c v) as [v'|] eqn:E; [|done]. exfalso.
  apply strip_last_Some in E as ->. rewrite has_break_app in Hv. apply orb_false_iff in Hv as [_ Hv].
  by destruct Hc as [-> | ->].
Qed.

Lemma stripNewline_cases b v :
  stripNewline b = v -> has_break v = false -> b = v \/ b = v +:+ lf \/ b = v +:+ crlf.
Proof.
  unfold stripNewline. destruct (strip_last LF b) as [b'|] eqn:E; [|by left].
  apply strip_last_Some in E as ->. destruct (strip_last CR b') as [b''|] eqn:E'; cbn; intros <- Hv.
  - apply strip_last_Some in E' as ->. right; right. by rewrite <-str_app_assoc.
  - right; left. done.
Qed.

Lemma stripNewline_line v b :
  has_break v = false -> b = v \/ b = v +:+ lf \/ b = v +:+ crlf -> stripNewline b = v.
Proof.
  intros Hv Hb. unfold stripNewline. destruct Hb as [-> | [-> | ->]].
  - by rewrite strip_last_line by auto.
  - rewrite (proj2 (strip_last_Some LF (v +:+ lf) v)) by done. by rewrite strip_last_line by auto.
  - rewrite (proj2 (strip_last_Some LF (v +:+ crlf) (v +:+ String CR EmptyString))) by (by rewrite <-str_app_assoc).
    by rewrite (proj2 (strip_last_Some CR _ v)) by done.
Qed.

(** A buffer holds a secret exactly when it is one line, with an optional
    line end. *)
Lemma secretOfBuffer_iff b v :
  secretOfBuffer b = Ret v <-> secret_line v /\ (b = v \/ b = v +:+ lf \/ b = v +:+ crlf).
Proof.
  unfold secretOfBuffer, secret_line, secretLimit. split.
  - destruct (Nat.ltb_spec (16 * 1024) (String.length (stripNewline b))); [done|].
    destruct (str_empty _) eqn:E1; [done|]. destruct (has_break _) eqn:E2; [done|].
    intros [= <-]. split_and!; [by intros E; rewrite E in E1|done|done|].
    by apply stripNewline_cases.
  - intros [(Hne & Hlen & Hbr) Hb]. rewrite (stripNewline_line v b Hbr Hb).
    destruct (Nat.ltb_spec (16 * 1024) (String.length v)); [lia|].
    destruct (str_empty v) eqn:E; [by apply str_empty_true in E|]. by rewrite Hbr.
Qed.

(** ** The read loop *)

(** Everything the descriptor delivers before its first error, if it has none. *)
Fixpoint file_data (reads : list ReadResult) : option string :=
  match reads with
  | [] => Some ""
  | RData s :: rest => if str_empty s then Some "" else (fun t => s +:+ t) <$> file_data rest
  | REintr :: rest => file_data rest
  | RError :: _ => None
  end.

(** With room in the buffer the loop reads the whole file, however the data is
    split and however often a signal interrupts it. *)
Lemma readLoop_all b reads d :
  file_data reads = Some d -> (String.length b + String.length d < secretBuffer)%nat ->
  readLoop b reads = Ret (b +:+ d).
Proof.
  revert b d; induction reads as [|[s| |] reads IH]; intros b d; cbn -[secretBuffer str_empty Nat.ltb].
  - intros [= <-] H. rewrite str_app_nil_r. by destruct (_ <? _)%nat.
  - destruct (Nat.ltb_spec (String.length b) secretBuffer); [|lia].
    destruct (str_empty s) eqn:Es.
    { intros [= <-] _. by rewrite str_app_nil_r. }
    destruct (file_data reads) as [t|] eqn:Et; [|done]. cbn -[secretBuffer Nat.ltb]. intros [= <-].
    rewrite str_length_app. intros Hl. rewrite substring_all by lia.
    rewrite (IH _ t) by (done || rewrite str_length_app; lia). by rewrite str_app_assoc.
  - intros Hd Hl. destruct (Nat.ltb_spec (String.length b) secretBuffer); [|lia]. auto.
  - done.
Qed.



(** Whatever the descriptor delivers, the buffer never overflows. *)
Lemma readLoop_bounded b reads b' :
  (String.length b <= secretBuffer)%nat -> readLoop b reads = Ret b' -> (String.length b' <= secretBuffer)%nat.
Proof.
  revert b; induction reads as [|[s| |] reads IH]; intros b Hb; cbn -[secretBuffer str_empty Nat.ltb];
    destruct (_ <? _)%nat eqn:E; try (by intros [= <-]).
  - destruct (str_empty s); [by intros [= <-]|]. apply IH. rewrite str_length_app.
    pose proof (substring_length_le (secretBuffer - String.length b) s). apply Nat.ltb_lt in E. lia.
  - by apply IH.
Qed.

(** A short buffer after the loop means the loop saw the whole file. *)
Lemma readLoop_short b reads b' :
  readLoop b reads = Ret b' -> (String.length b' < secretBuffer)%nat ->
  exists d, file_data reads = Some d /\ b' = b +:+ d.
Proof.
  revert b; induction reads as [|[s| |] reads IH]; intros b; cbn -[secretBuffer str_empty Nat.ltb].
  - intros H _. exists "". rewrite str_app_nil_r. by destruct (_ <? _)%nat; simplify_eq.
  - destruct (Nat.ltb_spec (String.length b) secretBuffer) as [Hlt|Hge]; [|intros [= <-]; lia].
    destruct (str_empty s). { intros [= <-] _. exists "". by rewrite str_app_nil_r. }
    intros Hr Hl. destruct (IH _ Hr Hl) as (d & Hd & ->).
    assert (String.substring 0 (secretBuffer - String.length b) s = s) as Hs.
    { destruct (substring_prefix (secretBuffer - String.length b) s) as [t Ht].
      destruct (decide (String.length s <= secretBuffer - String.length b)%nat); [by apply substring_all|].
      exfalso. rewrite !str_length_app in Hl. revert Hl. clear -Hlt n.
      assert (String.length (String.substring 0 (secretBuffer - String.length b) s) = (secretBuffer - String.length b)%nat) as ->;
        [|lia].
      revert n. generalize (secretBuffer - String.length b)%nat. clear.
      induction s as [|c s IH]; intros [|n]; cbn; try lia. intros. rewrite IH; lia. }
    rewrite Hs. exists (s +:+ d). rewrite Hd. cbn. by rewrite str_app_assoc.
  - destruct (Nat.ltb_spec (String.length b) secretBuffer) as [Hlt|Hge]; [|intros [= <-]; lia]. apply IH.
  - destruct (Nat.ltb_spec (String.length b) secretBuffer) as [Hlt|Hge]; [done|intros [= <-]; lia].
Qed.

(** A secret file yields the credential [v] exactly when the path is usable,
    it opens as a regular file of acceptable reported size, every [read]
    succeeds, and the file's data is the line [v] of 1 to 16384 bytes, without
    CR, LF or NUL, followed by nothing, LF or CRLF -- however the data is split
    over the reads and whatever signals interrupt them. *)
Theorem readSecretFile_iff open path setting v :
  readSecretFile open path setting = Ret v <->
  path <> "" /\ has_nul path = false /\
  exists size reads data, open path = Regular size reads /\ (size <= 16386)%Z /\
    file_data reads = Some data /\ secret_line v /\ (data = v \/ data = v +:+ lf \/ data = v +:+ crlf).
Proof.
  assert (forall data, secret_line v -> data = v \/ data = v +:+ lf \/ data = v +:+ crlf ->
    (String.length data < secretBuffer)%nat) as Hfit.
  { intros data (_ & Hl & _) [-> | [-> | ->]]; unfold secretBuffer, secretLimit; rewrite ?str_length_app; cbn; lia. }
  unfold readSecretFile. split.
  - destruct (str_empty path) eqn:E1; [done|]. destruct (has_nul path) eqn:E2; [done|].
    cbn -[secretLimit]. destruct (open path) as [| | |size reads] eqn:Eo; try done.
    destruct (Z.ltb_spec (Z.of_nat (secretLimit + 2)) size) as [|Hs]; [done|].
    destruct (readLoop "" reads) as [b|] eqn:Er; [|done]. cbn. intros H.
    destruct (secretOfBuffer b) as [v'|] eqn:Es; [|done]. cbn in H. simplify_eq.
    apply secretOfBuffer_iff in Es as [Hv Hb].
    apply readLoop_short in Er as (d & Hd & ->); [|by apply Hfit].
    split_and!; [by intros ->|done|]. exists size, reads, d. split_and!; try done.
  - intros (Hp & Hn & size & reads & data & Ho & Hs & Hd & Hv & Hb).
    destruct (str_empty path) eqn:E1; [by apply str_empty_true in E1|]. rewrite Hn, Ho. cbn -[secretLimit].
    destruct (Z.ltb_spec (Z.of_nat (secretLimit + 2)) size) as [Hs'|]; [unfold secretLimit in Hs'; lia|].
    rewrite (readLoop_all "" reads data Hd) by (cbn -[secretBuffer Nat.ltb]; by apply Hfit).
    cbn. by rewrite (proj2 (secretOfBuffer_iff _ v)).
Qed.

Example readSecretFile_split :
  readSecretFile (fun _ => Regular 5 [RData "pa"; REintr; RData ("ss" +:+ lf)]) "/run/secret" "redis.password_file"
  = Ret "pass".
Proof. by vm_compute. Qed.
