(* ===== verification/Yaml.v ===== *)
(** * Configuration documents

    What src/config.cpp uses of yaml-cpp and of [std::filesystem].

    A [YAML::Node] is a tree with the four defined node types; a lookup that
    finds nothing gives the undefined node, [None].  Anchors are repeated
    subtrees, so a node is never its own ancestor.  The conversions [as<T>()]
    are yaml-cpp's own and stay parameters: the class [YamlConv] has the
    operations and [YamlLaws] what the parser relies on (a scalar converts to
    its text; an integer conversion only yields values of its type).

    Paths are POSIX paths; the working directory, the file system and
    [inet_pton] are the fields of [Env]. *)

From Stdlib Require Import Ascii.
From S2P Require Import Prelude StrMap Floats Secrets.

Local Open Scope string_scope.
Local Open Scope list_scope.
Local Open Scope Z_scope.

#[local] Set Warnings "-register-all".
Inductive ynode :=
| YNull
| YScalar (s : string)
| YSeq (l : list ynode)
| YMap (l : list (ynode * ynode)).

Definition IsScalar (n : ynode) : bool := match n with YScalar _ => true | _ => false end.

(** [node.Scalar()]: empty for a node that is not a scalar. *)
Definition yscalar (n : ynode) : string := match n with YScalar s => s | _ => "" end.

(** [node[key]]: the first entry with that key. *)
Fixpoint yfind (key : string) (l : list (ynode * ynode)) : option ynode :=
  match l with
  | [] => None
  | (YScalar k, v) :: l' => if String.eqb k key then Some v else yfind key l'
  | _ :: l' => yfind key l'
  end.

Definition yget (n : ynode) (key : string) : option ynode :=
  match n with YMap l => yfind key l | _ => None end.

(** ** Conversions *)

Inductive ctype := TI8 | TU8 | TI16 | TU16 | TI32 | TU32 | TI64 | TU64.

Definition ctype_min (t : ctype) : Z :=
  match t with TI8 => - 2 ^ 7 | TI16 => - 2 ^ 15 | TI32 => - 2 ^ 31 | TI64 => - 2 ^ 63 | _ => 0 end.
Definition ctype_max (t : ctype) : Z :=
  match t with
  | TI8 => 2 ^ 7 - 1 | TI16 => 2 ^ 15 - 1 | TI32 => 2 ^ 31 - 1 | TI64 => 2 ^ 63 - 1
  | TU8 => 2 ^ 8 - 1 | TU16 => 2 ^ 16 - 1 | TU32 => 2 ^ 32 - 1 | TU64 => 2 ^ 64 - 1
  end.
Definition is_unsigned (t : ctype) : bool :=
  match t with TU8 | TU16 | TU32 | TU64 => true | _ => false end.
Definition in_ctype (t : ctype) (z : Z) : Prop := ctype_min t <= z <= ctype_max t.

Class YamlConv := {
  as_string : ynode -> exn string;
  as_bool : ynode -> exn bool;
  as_int : ctype -> ynode -> exn Z;
  as_float : ffmt -> ynode -> exn spec_float;
}.

Class YamlLaws `{YamlConv} : Prop := {
  as_string_scalar s : as_string (YScalar s) = Ret s;
  as_int_range t n z : as_int t n = Ret z -> in_ctype t z;
}.

(** ** Paths *)

Record Env := {
  env_cwd : string;
  env_open : OpenFile;
  env_inet_pton : string -> bool;
}.

Definition is_slash (c : ascii) : bool := Ascii.eqb c "/".

Definition is_absolute (p : string) : bool :=
  match p with String c _ => is_slash c | EmptyString => false end.

Fixpoint last_char (s : string) : option ascii :=
  match s with
  | EmptyString => None
  | String c EmptyString => Some c
  | String _ s' => last_char s'
  end.

(** [a / b] *)
Definition path_append (a b : string) : string :=
  if is_absolute b then b
  else match last_char a with
       | None => b
       | Some c => if is_slash c then a +:+ b else a +:+ "/" +:+ b
       end.

Definition path_absolute (cwd p : string) : string :=
  if is_absolute p then p else path_append cwd p.

(** The pieces between slashes. *)
Fixpoint split_slash (s : string) : list string :=
  match s with
  | EmptyString => [""]
  | String c s' =>
      if is_slash c then "" :: split_slash s'
      else match split_slash s' with
           | x :: l => String c x :: l
           | [] => [String c ""]
           end
  end.

(** One component of an absolute path on the stack of those before it,
    innermost first: a dot and an empty piece change nothing, a dot-dot drops
    the innermost and is dropped itself at the root. *)
Definition normal_step (stack : list string) (c : string) : list string :=
  if String.eqb c "" || String.eqb c "." then stack
  else if String.eqb c ".." then tl stack
  else c :: stack.

Fixpoint join_slash (l : list string) : string :=
  match l with
  | [] => ""
  | [x] => x
  | x :: l' => x +:+ "/" +:+ join_slash l'
  end.

(** [lexically_normal()] of an absolute path; a path that names a directory
    by its last piece keeps the final slash. *)
Definition lexically_normal (p : string) : string :=
  let pieces := split_slash p in
  let stack := fold_left normal_step pieces [] in
  let dir := match last pieces with
             | Some c => String.eqb c "" || String.eqb c "." || String.eqb c ".."
             | None => false
             end in
  "/" +:+ join_slash (rev stack) +:+
  (if dir && negb (bool_decide (stack = [])) then "/" else "").

(** [parent_path()]: everything before the last slash, the root kept. *)
Fixpoint drop_slashes (l : list ascii) : list ascii :=
  match l with c :: l' => if is_slash c then drop_slashes l' else l | [] => [] end.
Fixpoint drop_name (l : list ascii) : list ascii :=
  match l with c :: l' => if is_slash c then l else drop_name l' | [] => [] end.

Definition parent_path (p : string) : string :=
  match drop_name (rev (String.list_ascii_of_string p)) with
  | [] => ""
  | l => match drop_slashes l with
         | [] => "/"
         | l' => String.string_of_list_ascii (rev l')
         end
  end.

Example lexically_normal_1 : lexically_normal "/etc/ioc/../acf/./site.acf" = "/etc/acf/site.acf".
Proof. done. Qed.
Example lexically_normal_2 : lexically_normal "/../a//b/.." = "/a/".
Proof. done. Qed.
Example parent_path_1 : parent_path "/etc/ioc/config.yaml" = "/etc/ioc".
Proof. done. Qed.

(** ** Lookup *)

Lemma yfind_elem key l n : yfind key l = Some n -> (YScalar key, n) ∈ l.
Proof.
  induction l as [|[k v] l IH]; [done|].
  destruct k as [|s|?|?]; cbn; [|destruct (String.eqb_spec s key) as [->|]|..];
    first [intros [= ->]; left | intros H; right; by apply IH].
Qed.
