(* ===== verification/ConfigParse.v ===== *)
(** * The configuration parser

    Lines 23 to 981 of src/config.cpp: from a YAML document to an [AppConfig],
    every check in the order the code makes it, with its message.  The
    properties of what the parser accepts are in ConfigSafety.

    [node["key"]] is [yget node "key"], [if (node["key"]) x = f(node["key"])]
    is [with_default], [fail] throws with the path of the offending node. *)

From Stdlib Require Import Ascii.
From S2P Require Import Prelude StrMap Floats Config Endpoints Secrets Yaml.

Local Open Scope string_scope.
Local Open Scope list_scope.
Local Open Scope Z_scope.

(** ** Helpers *)

(** [std::tolower] of the C locale on every byte *)
Definition tolower (c : ascii) : ascii :=
  if (65 <=? ascii_code c) && (ascii_code c <=? 90)
  then Ascii.ascii_of_N (Z.to_N (ascii_code c + 32)) else c.

Fixpoint lowerCopy (s : string) : string :=
  match s with EmptyString => EmptyString | String c s' => String (tolower c) (lowerCopy s') end.

Definition fail {A} (path message : string) : exn A := Throw (path +:+ ": " +:+ message).

Definition fail_if (b : bool) (path message : string) : exn unit :=
  if b then fail path message else Ret tt.

(** [if (node) x = f(node);] where [x] holds [d]. *)
Definition with_default {A} (node : option ynode) (d : A) (f : ynode -> exn A) : exn A :=
  match node with Some n => f n | None => Ret d end.

(** [if (node) x = f(node);] for a [std::optional] [x]. *)
Definition if_node {A} (node : option ynode) (f : ynode -> exn A) : exn (option A) :=
  match node with Some n => Some <$> f n | None => Ret None end.

(** The loop [for (i = 0; i < l.size(); ++i) out.push_back(f(i, l[i]))]. *)
Fixpoint exn_imap {A B} (f : Z -> A -> exn B) (i : Z) (l : list A) : exn (list B) :=
  match l with
  | [] => Ret []
  | x :: l' => y ← f i x; ys ← exn_imap f (i + 1) l'; Ret (y :: ys)
  end.

Definition at_index (path : string) (i : Z) : string := path +:+ "[" +:+ to_dec i +:+ "]".

Definition requireNode (parent : ynode) (key path : string) : exn ynode :=
  match yget parent key with
  | Some n => Ret n
  | None => fail path ("missing required key '" +:+ key +:+ "'")
  end.

Definition requireMap (node : option ynode) (path : string) : exn (list (ynode * ynode)) :=
  match node with Some (YMap l) => Ret l | _ => fail path "expected mapping" end.

Definition requireSequence (node : option ynode) (path : string) : exn (list ynode) :=
  match node with Some (YSeq l) => Ret l | _ => fail path "expected sequence" end.

(** [text.find_first_not_of(" \t\r\n")] and the character there *)
Fixpoint first_visible (s : string) : option ascii :=
  match s with
  | EmptyString => None
  | String c s' =>
      if bool_decide (ascii_code c ∈ [32; 9; 13; 10]) then first_visible s' else Some c
  end.

Section Parser.
Context `{YamlConv}.

Definition rejectUnknownKeys (node : ynode) (path : string) (allowed : list string) : exn unit :=
  entries ← requireMap (Some node) path;
  exn_fold (fun _ '(k, _) =>
      key ← as_string k;
      fail_if (negb (bool_decide (key ∈ allowed))) (path +:+ "." +:+ key) "unknown key")
    tt entries.

(** The two loops of [validateTree] over the children of a node; [validate] is
    the recursive call. *)
Section Children.
Context (validate : ynode -> string -> Z -> exn Z) (path : string).

Fixpoint validateEntries (keys : sset) (visited : Z) (entries : list (ynode * ynode)) : exn Z :=
  match entries with
  | [] => Ret visited
  | (k, v) :: entries' =>
      if negb (IsScalar k) then fail path "mapping keys must be scalar strings"
      else
        key ← as_string k;
        let '(keys, inserted) := ss_insert key keys in
        if negb inserted then fail (path +:+ "." +:+ key) "duplicate key"
        else visited ← validate v (path +:+ "." +:+ key) visited;
             validateEntries keys visited entries'
  end.

Fixpoint validateElements (i visited : Z) (l : list ynode) : exn Z :=
  match l with
  | [] => Ret visited
  | v :: l' => visited ← validate v (at_index path i) visited;
               validateElements (i + 1) visited l'
  end.
End Children.

(** [ancestors.size()] is [depth]; [visited] is threaded through. *)
Fixpoint validateTree (node : ynode) (path : string) (depth visited : Z) {struct node} : exn Z :=
  let visited := visited + 1 in
  if (1000000 <? visited) || (64 <=? depth) then
    fail path "configuration structure exceeds validation bounds"
  else
    match node with
    | YMap entries => validateEntries (fun v p n => validateTree v p (depth + 1) n) path [] visited entries
    | YSeq l => validateElements (fun v p n => validateTree v p (depth + 1) n) path 0 visited l
    | _ => Ret visited
    end.

(** [try { value = node.as<T>(); } catch (const std::exception& ex) { fail(path, ex.what()); }] *)
Definition convert {A} (m : exn A) (path : string) : exn A :=
  match m with Ret a => Ret a | Throw what => fail path what end.

(** The primary template at an integer type. *)
Definition parseIntegral (t : ctype) (node : ynode) (path : string) : exn Z :=
  _ ← fail_if (is_unsigned t && bool_decide (first_visible (yscalar node) = Some "-"%char))
        path "negative unsigned value";
  convert (as_int t node) path.

(** [parseNumeric<T>] with its specialisations for the 8-bit types, which go
    through [int] and [unsigned int]. *)
Definition parseNumeric (t : ctype) (node : ynode) (path : string) : exn Z :=
  match t with
  | TI8 => value ← parseIntegral TI32 node path;
           _ ← fail_if ((value <? -128) || (127 <? value)) path "outside int8 range";
           Ret (signed 8 value)
  | TU8 => value ← parseIntegral TU32 node path;
           _ ← fail_if (255 <? value) path "outside uint8 range";
           Ret (u8 value)
  | _ => parseIntegral t node path
  end.

Definition parseBool (node : ynode) (path : string) : exn bool := convert (as_bool node) path.

Definition parseFloat (fm : ffmt) (node : ynode) (path : string) : exn spec_float :=
  value ← convert (as_float fm node) path;
  _ ← fail_if (negb (is_finite value)) path "must be finite";
  Ret value.

Definition parseDouble : ynode -> string -> exn spec_float := parseFloat binary64.

Definition parseString (node : ynode) (path : string) : exn string := convert (as_string node) path.

(** ** Access control *)

Definition parseAccessAssignment (node : ynode) (path : string) : exn AccessAssignment :=
  _ ← rejectUnknownKeys node path ["asg"; "asl"];
  asg ← with_default (yget node "asg") "DEFAULT" (fun n => parseString n (path +:+ ".asg"));
  asl ← with_default (yget node "asl") 0 (fun n => parseNumeric TI32 n (path +:+ ".asl"));
  _ ← fail_if (str_empty asg) (path +:+ ".asg") "must not be empty";
  _ ← fail_if (negb (asl =? 0) && negb (asl =? 1)) (path +:+ ".asl") "must be 0 or 1";
  Ret {| asg := asg; asl := asl |}.

(** A map of texts: [parseString] of each value under its nonempty key.
    [key_path] is where a key that is no text is reported. *)
Definition parseStringMap (insert : string -> string -> smap string -> smap string)
    (where_ key_path empty_message : string) (entries : list (ynode * ynode)) : exn (smap string) :=
  exn_fold (fun m '(k, v) =>
      name ← parseString k key_path;
      _ ← fail_if (str_empty name) where_ empty_message;
      value ← parseString v (where_ +:+ "." +:+ name);
      Ret (insert name value m))
    [] entries.

Definition parseAccessWatch (node : ynode) (path : string) : exn AccessWatchConfig :=
  _ ← requireMap (Some node) path;
  _ ← rejectUnknownKeys node path ["enabled"; "interval_ms"; "settle_ms"];
  enabled ← with_default (yget node "enabled") false as_bool;
  intervalMs ← with_default (yget node "interval_ms") 1000
                 (fun n => parseNumeric TU32 n (path +:+ ".interval_ms"));
  settleMs ← with_default (yget node "settle_ms") 250
               (fun n => parseNumeric TU32 n (path +:+ ".settle_ms"));
  _ ← fail_if ((intervalMs <? 100) || (60000 <? intervalMs)) (path +:+ ".interval_ms")
        "must be between 100 and 60000";
  _ ← fail_if (60000 <? settleMs) (path +:+ ".settle_ms") "must not exceed 60000";
  Ret {| aw_enabled := enabled; aw_intervalMs := intervalMs; aw_settleMs := settleMs |}.

Definition parseAccessDefaults (node : ynode) (path : string) : exn AccessDefaultsConfig :=
  _ ← requireMap (Some node) path;
  _ ← rejectUnknownKeys node path ["pv"; "rpc"; "admin_read"; "admin_write"];
  let assignment key :=
    with_default (yget node key) AccessAssignment_default
      (fun n => parseAccessAssignment n (path +:+ "." +:+ key)) in
  pv ← assignment "pv";
  rpc ← assignment "rpc";
  adminRead ← assignment "admin_read";
  adminWrite ← assignment "admin_write";
  Ret {| ad_pv := pv; ad_rpc := rpc; ad_adminRead := adminRead; ad_adminWrite := adminWrite |}.

Definition AccessWatchConfig_default : AccessWatchConfig :=
  {| aw_enabled := false; aw_intervalMs := 1000; aw_settleMs := 250 |}.
Definition AccessDefaultsConfig_default : AccessDefaultsConfig :=
  {| ad_pv := AccessAssignment_default; ad_rpc := AccessAssignment_default;
     ad_adminRead := AccessAssignment_default; ad_adminWrite := AccessAssignment_default |}.
Definition AccessConfig_default : AccessConfig :=
  {| ac_enabled := false; ac_file := ""; ac_macros := []; ac_watch := AccessWatchConfig_default;
     ac_defaults := AccessDefaultsConfig_default |}.

Definition is_some {A} (o : option A) : bool := match o with Some _ => true | None => false end.

Definition parseAccessConfig (env : Env) (node : option ynode) (configDirectory path : string)
    : exn AccessConfig :=
  match node with
  | None => Ret AccessConfig_default
  | Some node =>
      _ ← rejectUnknownKeys node path ["enabled"; "file"; "macros"; "watch"; "defaults"];
      enabled ← with_default (yget node "enabled") false as_bool;
      file ← with_default (yget node "file") "" (fun n => parseString n (path +:+ ".file"));
      macros ← with_default (yget node "macros") []
        (fun n => entries ← requireMap (Some n) (path +:+ ".macros");
                  parseStringMap sm_set (path +:+ ".macros") (path +:+ ".macros.<name>")
                    "macro name must not be empty" entries);
      watch ← with_default (yget node "watch") AccessWatchConfig_default
        (fun n => parseAccessWatch n (path +:+ ".watch"));
      defaults ← with_default (yget node "defaults") AccessDefaultsConfig_default
        (fun n => parseAccessDefaults n (path +:+ ".defaults"));
      if negb enabled then
        _ ← fail_if (negb (str_empty file) || negb (bool_decide (length macros = 0%nat)) ||
                     is_some (yget node "watch") || is_some (yget node "defaults"))
              path "access settings require enabled: true";
        Ret {| ac_enabled := enabled; ac_file := file; ac_macros := macros; ac_watch := watch;
               ac_defaults := defaults |}
      else
        _ ← fail_if (str_empty file) (path +:+ ".file") "is required when access control is enabled";
        let policyPath := if is_absolute file then file else path_append configDirectory file in
        Ret {| ac_enabled := enabled;
               ac_file := lexically_normal (path_absolute (env_cwd env) policyPath);
               ac_macros := macros; ac_watch := watch; ac_defaults := defaults |}
  end.

(** ** Enumerations *)

Definition parsePrimitiveType (node : ynode) (path : string) : exn PrimitiveType :=
  text ← parseString node path;
  let type := lowerCopy text in
  if String.eqb type "bool" || String.eqb type "boolean" then Ret Boolean
  else if String.eqb type "int8" then Ret Int8
  else if String.eqb type "uint8" then Ret UInt8
  else if String.eqb type "int16" then Ret Int16
  else if String.eqb type "uint16" then Ret UInt16
  else if String.eqb type "int32" then Ret Int32
  else if String.eqb type "uint32" then Ret UInt32
  else if String.eqb type "int64" then Ret Int64
  else if String.eqb type "uint64" then Ret UInt64
  else if String.eqb type "float32" || String.eqb type "float" then Ret Float32
  else if String.eqb type "float64" || String.eqb type "double" then Ret Float64
  else if String.eqb type "string" then Ret String_
  else fail path ("unsupported primitive type '" +:+ type +:+ "'").

Definition parseShape (node : ynode) (path : string) : exn Shape :=
  text ← parseString node path;
  let shape := lowerCopy text in
  if String.eqb shape "scalar" then Ret Scalar
  else if String.eqb shape "array" then Ret Array
  else fail path ("unsupported shape '" +:+ shape +:+ "'").

Definition parseDisplayForm (node : ynode) (path : string) : exn DisplayForm :=
  text ← parseString node path;
  let form := lowerCopy text in
  if String.eqb form "default" then Ret Default
  else if String.eqb form "string" then Ret String_form
  else if String.eqb form "binary" then Ret Binary
  else if String.eqb form "decimal" then Ret Decimal
  else if String.eqb form "hex" then Ret Hex
  else if String.eqb form "exponential" then Ret Exponential
  else if String.eqb form "engineering" then Ret Engineering
  else fail path ("unsupported display form '" +:+ form +:+ "'").

(** ** Initial values *)

Definition parseArrayInitial {A} (parse : ynode -> string -> exn A) (node : ynode) (path : string)
    : exn (list A) :=
  l ← requireSequence (Some node) path;
  exn_imap (fun i n => parse n (at_index path i)) 0 l.

Definition parseInitialValue (node : option ynode) (type : PrimitiveType) (shape : Shape) (path : string)
    : exn TypedValue :=
  match node with
  | None => Ret TVmonostate
  | Some node =>
      match shape with
      | Scalar =>
          match type with
          | Boolean => TVbool <$> as_bool node
          | Int8 => TVint8 <$> parseNumeric TI8 node path
          | UInt8 => TVuint8 <$> parseNumeric TU8 node path
          | Int16 => TVint16 <$> parseNumeric TI16 node path
          | UInt16 => TVuint16 <$> parseNumeric TU16 node path
          | Int32 => TVint32 <$> parseNumeric TI32 node path
          | UInt32 => TVuint32 <$> parseNumeric TU32 node path
          | Int64 => TVint64 <$> parseNumeric TI64 node path
          | UInt64 => TVuint64 <$> parseNumeric TU64 node path
          | Float32 => TVfloat <$> parseFloat binary32 node path
          | Float64 => TVdouble <$> parseFloat binary64 node path
          | String_ => TVstring <$> parseString node path
          end
      | Array =>
          match type with
          | Int8 => TVvint8 <$> parseArrayInitial (parseNumeric TI8) node path
          | UInt8 => TVvuint8 <$> parseArrayInitial (parseNumeric TU8) node path
          | Int16 => TVvint16 <$> parseArrayInitial (parseNumeric TI16) node path
          | UInt16 => TVvuint16 <$> parseArrayInitial (parseNumeric TU16) node path
          | Int32 => TVvint32 <$> parseArrayInitial (parseNumeric TI32) node path
          | UInt32 => TVvuint32 <$> parseArrayInitial (parseNumeric TU32) node path
          | Int64 => TVvint64 <$> parseArrayInitial (parseNumeric TI64) node path
          | UInt64 => TVvuint64 <$> parseArrayInitial (parseNumeric TU64) node path
          | Float32 => TVvfloat <$> parseArrayInitial (parseFloat binary32) node path
          | Float64 => TVvdouble <$> parseArrayInitial (parseFloat binary64) node path
          | Boolean | String_ => fail path "array initial value is unsupported for this type"
          end
      end
  end.

(** ** Routes and backends *)

Definition parseRoute (node : ynode) (path : string) : exn RouteConfig :=
  _ ← rejectUnknownKeys node path ["backend"; "key"];
  backend ← with_default (yget node "backend") "" (fun n => parseString n (path +:+ ".backend"));
  keyNode ← requireNode node "key" path;
  key ← parseString keyNode (path +:+ ".key");
  _ ← fail_if (str_empty key) (path +:+ ".key") "must not be empty";
  Ret {| rt_backend := backend; rt_key := key |}.

Definition parseConfirm (node : ynode) (path : string) : exn ConfirmConfig :=
  _ ← rejectUnknownKeys node path ["backend"; "key"; "timeout_ms"];
  backend ← with_default (yget node "backend") "" (fun n => parseString n (path +:+ ".backend"));
  keyNode ← requireNode node "key" path;
  key ← parseString keyNode (path +:+ ".key");
  timeoutMs ← with_default (yget node "timeout_ms") 250
                (fun n => parseNumeric TI32 n (path +:+ ".timeout_ms"));
  _ ← fail_if (str_empty key) (path +:+ ".key") "must not be empty";
  _ ← fail_if ((timeoutMs <=? 0) || (300000 <? timeoutMs)) (path +:+ ".timeout_ms") "must be 1..300000";
  Ret {| cf_backend := backend; cf_key := key; cf_timeoutMs := timeoutMs |}.

(** The lambda [credential] of [parseRedisConfig]. *)
Definition parseCredential (env : Env) (node : ynode) (path directory name : string) : exn string :=
  let file := name +:+ "_file" in
  _ ← fail_if (is_some (yget node name) && is_some (yget node file)) path
        (name +:+ " and " +:+ file +:+ " are mutually exclusive");
  match yget node file with
  | Some n =>
      input ← parseString n (path +:+ "." +:+ file);
      _ ← fail_if (str_empty input) (path +:+ "." +:+ file) "must not be empty";
      readSecretFile (env_open env)
        (if is_absolute input then input else path_append directory input) (path +:+ "." +:+ file)
  | None => with_default (yget node name) "" (fun n => parseString n (path +:+ "." +:+ name))
  end.

Definition parseRedisConfig (env : Env) (node : ynode) (path directory : string) : exn RedisConfig :=
  _ ← rejectUnknownKeys node path ["base_key"; "host"; "port"; "user"; "password"; "user_file";
                                   "password_file"; "workers"; "readers"; "reader_probe_ms"];
  baseKeyNode ← requireNode node "base_key" path;
  baseKey ← parseString baseKeyNode (path +:+ ".base_key");
  hostNode ← requireNode node "host" path;
  host ← parseString hostNode (path +:+ ".host");
  portNode ← requireNode node "port" path;
  port ← parseNumeric TU16 portNode (path +:+ ".port");
  user ← parseCredential env node path directory "user";
  password ← parseCredential env node path directory "password";
  workers ← with_default (yget node "workers") 1 (fun n => parseNumeric TU16 n (path +:+ ".workers"));
  readers ← with_default (yget node "readers") 1 (fun n => parseNumeric TU16 n (path +:+ ".readers"));
  readerProbeMs ← with_default (yget node "reader_probe_ms") 1000
                    (fun n => parseNumeric TU32 n (path +:+ ".reader_probe_ms"));
  _ ← fail_if (negb (readerProbeMs =? 0) && ((readerProbeMs <? 100) || (60000 <? readerProbeMs)))
        (path +:+ ".reader_probe_ms") "must be zero (disabled) or 100..60000";
  _ ← fail_if (str_empty host) (path +:+ ".host") "must not be empty";
  _ ← fail_if (port =? 0) (path +:+ ".port") "must be 1..65535";
  _ ← fail_if ((workers =? 0) || (256 <? workers)) (path +:+ ".workers") "must be 1..256";
  _ ← fail_if ((readers =? 0) || (256 <? readers)) (path +:+ ".readers") "must be 1..256";
  Ret {| rd_baseKey := baseKey; rd_host := host; rd_port := port; rd_user := user;
         rd_password := password; rd_workers := workers; rd_readers := readers;
         rd_readerProbeMs := readerProbeMs |}.

Definition ChannelFinderConfig_default : ChannelFinderConfig :=
  {| ch_url := ""; ch_owner := "redis-pvxs-ioc"; ch_tags := []; ch_properties := [] |}.

Definition parseChannelFinderConfig (node : option ynode) (path : string) : exn ChannelFinderConfig :=
  match node with
  | None => Ret ChannelFinderConfig_default
  | Some node =>
      _ ← rejectUnknownKeys node path ["url"; "owner"; "tags"; "properties"];
      url ← with_default (yget node "url") "" (fun n => parseString n (path +:+ ".url"));
      owner ← with_default (yget node "owner") "redis-pvxs-ioc"
        (fun n => owner ← parseString n (path +:+ ".owner");
                  _ ← fail_if (str_empty owner) (path +:+ ".owner") "must not be empty";
                  Ret owner);
      tags ← with_default (yget node "tags") []
        (fun n => tags ← requireSequence (Some n) (path +:+ ".tags");
                  exn_imap (fun i n =>
                      tag ← parseString n (at_index (path +:+ ".tags") i);
                      _ ← fail_if (str_empty tag) (at_index (path +:+ ".tags") i) "must not be empty";
                      Ret tag) 0 tags);
      properties ← with_default (yget node "properties") []
        (fun n => entries ← requireMap (Some n) (path +:+ ".properties");
                  parseStringMap sm_set (path +:+ ".properties") (path +:+ ".properties.<name>")
                    "property name must not be empty" entries);
      Ret {| ch_url := url; ch_owner := owner; ch_tags := tags; ch_properties := properties |}
  end.

Definition resolveBackendAlias (alias path : string) (backends : RedisBackendConfigs)
    (legacySingleBackend : bool) : exn string :=
  if str_empty alias then
    match backends with
    | [(name, _)] => Ret name
    | _ => fail path "must be set when multiple redis_backends are configured"
    end
  else
    let alias :=
      if legacySingleBackend && String.eqb alias "redis" && sm_has kDefaultRedisBackendAlias backends
      then kDefaultRedisBackendAlias else alias in
    _ ← fail_if (negb (sm_has alias backends)) path ("unknown redis backend '" +:+ alias +:+ "'");
    Ret alias.

(** ** PV settings *)

Definition f_zero : spec_float := S754_zero false.
Definition f_one : spec_float := f_of_Z binary64 1.

(** [*low > *high] on optionals that are both set *)
Definition opt_gt (a b : option spec_float) : bool :=
  match a, b with Some x, Some y => flt y x | _, _ => false end.

Definition parseLimitConfig (node : option ynode) (path : string) (control : bool) : exn LimitConfig :=
  match node with
  | None => Ret LimitConfig_default
  | Some node =>
      _ ← rejectUnknownKeys node path (if control then ["low"; "high"; "min_step"] else ["low"; "high"]);
      low ← if_node (yget node "low") (fun n => parseDouble n (path +:+ ".low"));
      high ← if_node (yget node "high") (fun n => parseDouble n (path +:+ ".high"));
      _ ← fail_if (opt_gt low high) path "low must not exceed high";
      Ret {| lim_low := low; lim_high := high |}
  end.

Definition parseMetadata (node : option ynode) (path : string) : exn MetadataConfig :=
  match node with
  | None => Ret MetadataConfig_default
  | Some node =>
      _ ← rejectUnknownKeys node path ["description"; "units"; "precision"; "form"; "display"; "control"; "min_step"];
      description ← with_default (yget node "description") "" (fun n => parseString n (path +:+ ".description"));
      units ← with_default (yget node "units") "" (fun n => parseString n (path +:+ ".units"));
      precision ← if_node (yget node "precision") (fun n => parseNumeric TI32 n (path +:+ ".precision"));
      form ← if_node (yget node "form") (fun n => parseDisplayForm n (path +:+ ".form"));
      display ← parseLimitConfig (yget node "display") (path +:+ ".display") false;
      control ← parseLimitConfig (yget node "control") (path +:+ ".control") true;
      minStep ← if_node (yget node "min_step") (fun n => parseDouble n (path +:+ ".min_step"));
      minStep ← match yget node "control" ≫= (fun c => yget c "min_step") with
                | Some n => Some <$> parseDouble n (path +:+ ".control.min_step")
                | None => Ret minStep
                end;
      _ ← fail_if (match minStep with Some x => flt x f_zero | None => false end)
            (path +:+ ".min_step") "must not be negative";
      Ret {| md_description := description; md_units := units; md_precision := precision;
             md_form := form; md_display := display; md_control := control; md_minStep := minStep |}
  end.

(** The loop over the thresholds in order: is one below an earlier one? *)
Fixpoint thresholds_disordered (previous : option spec_float) (l : list (option spec_float)) : bool :=
  match l with
  | [] => false
  | None :: l' => thresholds_disordered previous l'
  | Some t :: l' => opt_gt previous (Some t) || thresholds_disordered (Some t) l'
  end.

Definition parseAlarmConfig (node : option ynode) (path : string) : exn AlarmConfig :=
  match node with
  | None => Ret AlarmConfig_default
  | Some node =>
      _ ← rejectUnknownKeys node path ["low_alarm"; "low_warning"; "high_warning"; "high_alarm"; "hysteresis"];
      lowAlarm ← if_node (yget node "low_alarm") (fun n => parseDouble n (path +:+ ".low_alarm"));
      lowWarning ← if_node (yget node "low_warning") (fun n => parseDouble n (path +:+ ".low_warning"));
      highWarning ← if_node (yget node "high_warning") (fun n => parseDouble n (path +:+ ".high_warning"));
      highAlarm ← if_node (yget node "high_alarm") (fun n => parseDouble n (path +:+ ".high_alarm"));
      hysteresis ← with_default (yget node "hysteresis") f_zero (fun n => parseDouble n (path +:+ ".hysteresis"));
      _ ← fail_if (flt hysteresis f_zero) (path +:+ ".hysteresis") "must not be negative";
      _ ← fail_if (thresholds_disordered None [lowAlarm; lowWarning; highWarning; highAlarm]) path
            "alarm thresholds must be ordered low_alarm <= low_warning <= high_warning <= high_alarm";
      Ret {| al_lowAlarm := lowAlarm; al_lowWarning := lowWarning; al_highWarning := highWarning;
             al_highAlarm := highAlarm; al_hysteresis := hysteresis |}
  end.

Definition parseTransform (node : option ynode) (path : string) : exn (option LinearTransformConfig) :=
  match node with
  | None => Ret None
  | Some node =>
      _ ← rejectUnknownKeys node path ["kind"; "scale"; "offset"];
      _ ← with_default (yget node "kind") tt
            (fun n => kind ← parseString n (path +:+ ".kind");
                      fail_if (negb (String.eqb (lowerCopy kind) "linear")) (path +:+ ".kind")
                        "only linear transforms are supported");
      scale ← with_default (yget node "scale") f_one (fun n => parseDouble n (path +:+ ".scale"));
      offset ← with_default (yget node "offset") f_zero (fun n => parseDouble n (path +:+ ".offset"));
      _ ← fail_if (feq scale f_zero || negb (is_finite (fdiv binary64 f_one scale))) (path +:+ ".scale")
            "must be nonzero with a finite inverse";
      Ret (Some {| tr_scale := scale; tr_offset := offset |})
  end.

(** ** RPC services *)

(** [std::map::emplace] keeps an existing entry. *)
Definition emplace {V} (k : string) (v : V) (m : smap V) : smap V := (sm_emplace k v m).1.

Definition parseRpcDefaults (node : ynode) (where_ : string) : exn (smap string) :=
  entries ← requireMap (Some node) where_;
  parseStringMap emplace where_ (where_ +:+ ".key") "default field names must not be empty" entries.

(** The lambda [timeout] of [parseRpcService]. *)
Definition parseRpcTimeout (node : ynode) (path key : string) (fallback minimum : Z) : exn Z :=
  value ← with_default (yget node key) fallback (fun n => parseNumeric TU32 n (path +:+ "." +:+ key));
  _ ← fail_if ((value <? minimum) || (300000 <? value)) (path +:+ "." +:+ key) "outside supported range";
  Ret value.

Definition parseRpcService (node : ynode) (path : string) : exn RpcServiceConfig :=
  _ ← rejectUnknownKeys node path
        ["endpoint"; "service"; "suffix"; "defaults"; "method_defaults"; "access"; "optional";
         "discovery_timeout_ms"; "timeout_ms"; "retry_interval_ms"];
  endpointNode ← requireNode node "endpoint" path;
  endpoint ← parseString endpointNode (path +:+ ".endpoint");
  serviceNode ← requireNode node "service" path;
  service ← parseString serviceNode (path +:+ ".service");
  suffix ← with_default (yget node "suffix") "" (fun n => parseString n (path +:+ ".suffix"));
  defaults ← with_default (yget node "defaults") [] (fun n => parseRpcDefaults n (path +:+ ".defaults"));
  methodDefaults ← with_default (yget node "method_defaults") []
    (fun n =>
       entries ← requireMap (Some n) (path +:+ ".method_defaults");
       exn_fold (fun m '(k, v) =>
           method ← parseString k (path +:+ ".method_defaults.key");
           _ ← fail_if (str_empty method) (path +:+ ".method_defaults") "method names must not be empty";
           d ← parseRpcDefaults v (path +:+ ".method_defaults." +:+ method);
           Ret (emplace method d m)) [] entries);
  optional ← with_default (yget node "optional") false (fun n => parseBool n (path +:+ ".optional"));
  discoveryTimeoutMs ← parseRpcTimeout node path "discovery_timeout_ms" 3000 1;
  timeoutMs ← parseRpcTimeout node path "timeout_ms" 10000 1;
  retryIntervalMs ← parseRpcTimeout node path "retry_interval_ms" 5000 100;
  access ← if_node (yget node "access") (fun n => parseAccessAssignment n (path +:+ ".access"));
  _ ← fail_if (str_empty endpoint) (path +:+ ".endpoint") "must not be empty";
  _ ← fail_if (str_empty service) (path +:+ ".service") "must not be empty";
  Ret {| rs_endpoint := endpoint; rs_service := service; rs_suffix := suffix; rs_defaults := defaults;
         rs_methodDefaults := methodDefaults; rs_optional := optional;
         rs_discoveryTimeoutMs := discoveryTimeoutMs; rs_timeoutMs := timeoutMs;
         rs_retryIntervalMs := retryIntervalMs; rs_access := access |}.

(** ** PVs *)

Definition parseAliases (node : ynode) (path : string) : exn (list string) :=
  aliases ← requireSequence (Some node) path;
  _ ← fail_if (bool_decide (length aliases = 0%nat)) path "must not be empty";
  exn_imap (fun i n =>
      alias ← parseString n (at_index path i);
      _ ← fail_if (str_empty alias) (at_index path i) "must not be empty";
      Ret alias) 0 aliases.

Definition parsePVKind (node : ynode) (path : string) : exn PVKind :=
  text ← parseString node path;
  let kind := lowerCopy text in
  if String.eqb kind "ntndarray" then Ret NTNDArray
  else
    _ ← fail_if (negb (String.eqb kind "value") && negb (String.eqb kind "scalar") && negb (String.eqb kind "array"))
          path ("unsupported PV kind '" +:+ kind +:+ "'");
    Ret Value.

(** The two branches on the kind: the frame bounds of an NTNDArray, the type
    and shape of a value. *)
Definition parsePVForm (kind : PVKind) (node : ynode) (path : string) : exn (PrimitiveType * Shape * Z * Z) :=
  match kind with
  | NTNDArray =>
      _ ← rejectUnknownKeys node path ["name"; "aliases"; "kind"; "read"; "max_frame_bytes"; "max_frame_gap"; "access"; "source_health"];
      maxFrameBytes ← with_default (yget node "max_frame_bytes") (pv_maxFrameBytes PVConfig_default)
                        (fun n => parseNumeric TU64 n (path +:+ ".max_frame_bytes"));
      _ ← fail_if ((maxFrameBytes =? 0) || (1024 * 1024 * 1024 <? maxFrameBytes))
            (path +:+ ".max_frame_bytes") "must be 1..1073741824";
      maxFrameGap ← with_default (yget node "max_frame_gap") (pv_maxFrameGap PVConfig_default)
                      (fun n => parseNumeric TU32 n (path +:+ ".max_frame_gap"));
      _ ← fail_if (2147483646 <? maxFrameGap) (path +:+ ".max_frame_gap") "must be 0..2147483646";
      Ret (UInt8, Array, maxFrameBytes, maxFrameGap)
  | Value =>
      _ ← fail_if (is_some (yget node "max_frame_bytes")) (path +:+ ".max_frame_bytes") "requires kind: ntndarray";
      _ ← fail_if (is_some (yget node "max_frame_gap")) (path +:+ ".max_frame_gap") "requires kind: ntndarray";
      typeNode ← requireNode node "type" path;
      type ← parsePrimitiveType typeNode (path +:+ ".type");
      shapeNode ← requireNode node "shape" path;
      shape ← parseShape shapeNode (path +:+ ".shape");
      Ret (type, shape, pv_maxFrameBytes PVConfig_default, pv_maxFrameGap PVConfig_default)
  end.

Definition parseSourceHealth (node : option ynode) (path : string) : exn SourceHealthConfig :=
  match node with
  | None => Ret SourceHealthConfig_default
  | Some health =>
      _ ← rejectUnknownKeys health path ["required"; "stale_after_ms"];
      required ← with_default (yget health "required") true (fun n => parseBool n (path +:+ ".required"));
      staleAfterMs ← with_default (yget health "stale_after_ms") 0
                       (fun n => parseNumeric TU32 n (path +:+ ".stale_after_ms"));
      _ ← fail_if (86400000 <? staleAfterMs) (path +:+ ".stale_after_ms") "must be 0..86400000";
      Ret {| sh_required := required; sh_staleAfterMs := staleAfterMs |}
  end.

Definition has_thresholds (a : AlarmConfig) : bool :=
  is_some (al_lowAlarm a) || is_some (al_lowWarning a) || is_some (al_highWarning a) || is_some (al_highAlarm a).

Definition has_limits (m : MetadataConfig) : bool :=
  is_some (lim_low (md_display m)) || is_some (lim_high (md_display m)) ||
  is_some (lim_low (md_control m)) || is_some (lim_high (md_control m)) || is_some (md_minStep m).

(** The closing checks of [parsePV] on the whole PV. *)
Definition checkPV (pv : PVConfig) (path : string) : exn unit :=
  _ ← fail_if (bool_decide (pv_shape pv = Array) && negb (isArrayElementTypeSupported (pv_type pv)))
        (path +:+ ".type") "this array element type is unsupported";
  _ ← fail_if (is_some (pv_transform pv) && negb (isFloatingPointType (pv_type pv)))
        (path +:+ ".transform") "linear transforms are only supported for floating-point PVs";
  _ ← fail_if (bool_decide (pv_shape pv = Array) && has_thresholds (pv_alarms pv))
        (path +:+ ".alarm") "array threshold alarms are unsupported";
  if negb (isNumericType (pv_type pv)) then
    _ ← fail_if (has_limits (pv_metadata pv)) (path +:+ ".metadata")
          "display/control numeric limits require a numeric type";
    fail_if (has_thresholds (pv_alarms pv)) (path +:+ ".alarm") "threshold alarms require a numeric type"
  else Ret tt.

Definition parsePV (node : ynode) (path : string) : exn PVConfig :=
  _ ← rejectUnknownKeys node path
        ["name"; "aliases"; "kind"; "max_frame_bytes"; "max_frame_gap"; "type"; "shape"; "read"; "write";
         "confirm"; "metadata"; "alarm"; "transform"; "initial"; "access"; "source_health"];
  nameNode ← requireNode node "name" path;
  name ← parseString nameNode (path +:+ ".name");
  _ ← fail_if (str_empty name) (path +:+ ".name") "must not be empty";
  aliases ← with_default (yget node "aliases") [] (fun n => parseAliases n (path +:+ ".aliases"));
  kind ← with_default (yget node "kind") Value (fun n => parsePVKind n (path +:+ ".kind"));
  form ← parsePVForm kind node path;
  let '(type, shape, maxFrameBytes, maxFrameGap) := form in
  readNode ← requireNode node "read" path;
  read ← parseRoute readNode (path +:+ ".read");
  write ← if_node (yget node "write") (fun n => parseRoute n (path +:+ ".write"));
  confirm ← if_node (yget node "confirm")
    (fun n => _ ← fail_if (negb (is_some write)) (path +:+ ".confirm") "requires a write route";
              parseConfirm n (path +:+ ".confirm"));
  metadata ← parseMetadata (yget node "metadata") (path +:+ ".metadata");
  alarms ← parseAlarmConfig (yget node "alarm") (path +:+ ".alarm");
  transform ← parseTransform (yget node "transform") (path +:+ ".transform");
  initialValue ← parseInitialValue (yget node "initial") type shape (path +:+ ".initial");
  access ← if_node (yget node "access") (fun n => parseAccessAssignment n (path +:+ ".access"));
  sourceHealth ← parseSourceHealth (yget node "source_health") (path +:+ ".source_health");
  let pv := {| pv_name := name; pv_aliases := aliases; pv_kind := kind; pv_type := type; pv_shape := shape;
               pv_read := read; pv_write := write; pv_confirm := confirm; pv_metadata := metadata;
               pv_alarms := alarms; pv_transform := transform; pv_initialValue := initialValue;
               pv_access := access; pv_maxFrameBytes := maxFrameBytes; pv_maxFrameGap := maxFrameGap;
               pv_sourceHealth := sourceHealth |} in
  _ ← checkPV pv path;
  Ret pv.

(** ** Top-level sections *)

Definition validateTopLevelSchema (root : ynode) : exn unit :=
  fail_if (is_some (yget root "PVList") || is_some (yget root "PVBase") || is_some (yget root "RedisBase"))
    "root" "old flat prototype schema is not supported".

(** The lambda [bounded] of [parseDiscovery] and [parseOperationLimits]; the
    bounds keep every value within the field it is assigned to. *)
Definition bounded (node : ynode) (path key : string) (initial low high : Z) : exn Z :=
  value ← with_default (yget node key) initial (fun n => parseNumeric TU64 n (path +:+ "." +:+ key));
  _ ← fail_if ((value <? low) || (high <? value)) (path +:+ "." +:+ key) "outside supported range";
  Ret value.

Definition rejectDuplicateKeys (entries : list (ynode * ynode)) (path : string) : exn sset :=
  exn_fold (fun keys '(k, _) =>
      key ← as_string k;
      let '(keys, inserted) := ss_insert key keys in
      _ ← fail_if (negb inserted) (path +:+ "." +:+ key) "duplicate key";
      Ret keys) [] entries.

Definition parseDiscovery (env : Env) (node : option ynode) : exn DiscoveryConfig :=
  let d := DiscoveryConfig_default in
  match node with
  | None => Ret d
  | Some node =>
      _ ← rejectUnknownKeys node "root.discovery"
            ["enabled"; "bind_address"; "udp_port"; "timeout_ms"; "max_holdoff_ms"; "max_records"; "max_bytes"];
      entries ← requireMap (Some node) "root.discovery";
      _ ← rejectDuplicateKeys entries "root.discovery";
      enabled ← with_default (yget node "enabled") (dc_enabled d) (fun n => parseBool n "root.discovery.enabled");
      bindAddress ← with_default (yget node "bind_address") (dc_bindAddress d)
                      (fun n => parseString n "root.discovery.bind_address");
      _ ← fail_if (negb (env_inet_pton env bindAddress)) "root.discovery.bind_address" "expected an IPv4 address";
      udpPort ← bounded node "root.discovery" "udp_port" (dc_udpPort d) 0 65535;
      timeoutMs ← bounded node "root.discovery" "timeout_ms" (dc_timeoutMs d) 1 300000;
      maxHoldoffMs ← bounded node "root.discovery" "max_holdoff_ms" (dc_maxHoldoffMs d) 0 60000;
      maxRecords ← bounded node "root.discovery" "max_records" (dc_maxRecords d) 1 1000000;
      maxBytes ← bounded node "root.discovery" "max_bytes" (dc_maxBytes d) 1024 (1024 * 1024 * 1024);
      Ret {| dc_enabled := enabled; dc_bindAddress := bindAddress; dc_udpPort := udpPort;
             dc_timeoutMs := timeoutMs; dc_maxHoldoffMs := maxHoldoffMs; dc_maxRecords := maxRecords;
             dc_maxBytes := maxBytes |}
  end.

Definition parseOperationLimits (node : option ynode) : exn OperationLimitsConfig :=
  let d := OperationLimitsConfig_default in
  match node with
  | None => Ret d
  | Some node =>
      _ ← requireMap (Some node) "root.limits";
      _ ← rejectUnknownKeys node "root.limits"
            ["write_workers"; "queued_writes_per_pv"; "queued_write_bytes"; "rpc_workers"; "queued_rpc_per_method";
             "queued_rpc_bytes"; "max_payload_bytes"; "operation_timeout_ms"; "alarm_queue_entries"; "alarm_state_bytes"];
      let bounded := bounded node "root.limits" in
      writeWorkers ← bounded "write_workers" (ol_writeWorkers d) 1 64;
      queuedWritesPerPV ← bounded "queued_writes_per_pv" (ol_queuedWritesPerPV d) 1 4096;
      queuedWriteBytes ← bounded "queued_write_bytes" (ol_queuedWriteBytes d) 1024 (1024 * 1024 * 1024);
      rpcWorkers ← bounded "rpc_workers" (ol_rpcWorkers d) 1 64;
      queuedRpcPerMethod ← bounded "queued_rpc_per_method" (ol_queuedRpcPerMethod d) 1 4096;
      queuedRpcBytes ← bounded "queued_rpc_bytes" (ol_queuedRpcBytes d) 1024 (1024 * 1024 * 1024);
      maxPayloadBytes ← bounded "max_payload_bytes" (ol_maxPayloadBytes d) 1 (1024 * 1024 * 1024);
      alarmQueueEntries ← bounded "alarm_queue_entries" (ol_alarmQueueEntries d) 1 1000000;
      alarmStateBytes ← bounded "alarm_state_bytes" (ol_alarmStateBytes d) 1024 (1024 * 1024 * 1024);
      _ ← fail_if (alarmStateBytes / kAlarmQueueEntryBytes <? alarmQueueEntries) "root.limits.alarm_state_bytes"
            "must cover the reserved alarm queue";
      operationTimeoutMs ← if_node (yget node "operation_timeout_ms")
                             (fun _ => bounded "operation_timeout_ms" 0 1 300000);
      Ret {| ol_writeWorkers := writeWorkers; ol_queuedWritesPerPV := queuedWritesPerPV;
             ol_queuedWriteBytes := queuedWriteBytes; ol_rpcWorkers := rpcWorkers;
             ol_queuedRpcPerMethod := queuedRpcPerMethod; ol_queuedRpcBytes := queuedRpcBytes;
             ol_maxPayloadBytes := maxPayloadBytes; ol_operationTimeoutMs := operationTimeoutMs;
             ol_alarmQueueEntries := alarmQueueEntries; ol_alarmStateBytes := alarmStateBytes |}
  end.

Definition parseServer (root : ynode) : exn ServerConfig :=
  node ← requireNode root "server" "root";
  _ ← requireMap (Some node) "root.server";
  _ ← rejectUnknownKeys node "root.server" ["instance"; "namespace"; "interfaces"; "tcp_port"; "udp_port"; "auto_beacon"];
  instanceNode ← requireNode node "instance" "root.server";
  instance ← parseString instanceNode "root.server.instance";
  nameSpace ← with_default (yget node "namespace") "" (fun n => parseString n "root.server.namespace");
  interfaces ← with_default (yget node "interfaces") []
    (fun n => l ← requireSequence (Some n) "root.server.interfaces";
              exn_imap (fun i n => parseString n (at_index "root.server.interfaces" i)) 0 l);
  tcpPort ← if_node (yget node "tcp_port") (fun n => parseNumeric TU16 n "root.server.tcp_port");
  udpPort ← if_node (yget node "udp_port") (fun n => parseNumeric TU16 n "root.server.udp_port");
  autoBeacon ← with_default (yget node "auto_beacon") true as_bool;
  _ ← fail_if (str_empty instance) "root.server.instance" "must not be empty";
  Ret {| sv_instance := instance; sv_nameSpace := nameSpace; sv_interfaces := interfaces;
         sv_tcpPort := tcpPort; sv_udpPort := udpPort; sv_autoBeacon := autoBeacon |}.

(** One backend of [redis_backends]. *)
Definition parseBackend (env : Env) (directory : string) (backends : RedisBackendConfigs)
    (entry : ynode * ynode) : exn RedisBackendConfigs :=
  alias ← parseString entry.1 "root.redis_backends.<alias>";
  _ ← fail_if (str_empty alias) "root.redis_backends" "backend alias must not be empty";
  redis ← parseRedisConfig env entry.2 ("root.redis_backends." +:+ alias) directory;
  let '(backends, inserted) := sm_emplace alias redis backends in
  _ ← fail_if (negb inserted) ("root.redis_backends." +:+ alias)
        ("duplicate redis backend alias '" +:+ alias +:+ "'");
  Ret backends.

(** The backends, and whether the document uses the single [redis] section. *)
Definition parseBackends (env : Env) (root : ynode) (directory : string) : exn (RedisBackendConfigs * bool) :=
  let hasLegacyRedis := is_some (yget root "redis") in
  let hasRedisBackends := is_some (yget root "redis_backends") in
  _ ← fail_if (Bool.eqb hasLegacyRedis hasRedisBackends) "root"
        "specify exactly one of 'redis' or 'redis_backends'";
  if hasLegacyRedis then
    node ← requireNode root "redis" "root";
    redis ← parseRedisConfig env node "root.redis" directory;
    Ret (emplace kDefaultRedisBackendAlias redis [], hasLegacyRedis)
  else
    node ← requireNode root "redis_backends" "root";
    entries ← requireMap (Some node) "root.redis_backends";
    _ ← fail_if (bool_decide (length entries = 0%nat)) "root.redis_backends" "must not be empty";
    backends ← exn_fold (parseBackend env directory) [] entries;
    Ret (backends, hasLegacyRedis).

Definition parseAlarmStream (root : ynode) (backends : RedisBackendConfigs) (legacy : bool)
    : exn AlarmStreamConfig :=
  parsed ← with_default (yget root "alarms") ("", "acorn:alarms")
    (fun node =>
       _ ← rejectUnknownKeys node "root.alarms" ["backend"; "stream"];
       backend ← with_default (yget node "backend") "" (fun n => parseString n "root.alarms.backend");
       stream ← with_default (yget node "stream") "acorn:alarms" (fun n => parseString n "root.alarms.stream");
       Ret (backend, stream));
  let '(backend, stream) := parsed in
  _ ← fail_if (str_empty stream) "root.alarms.stream" "must not be empty";
  backend ← resolveBackendAlias backend "root.alarms.backend" backends legacy;
  Ret {| as_backend := backend; as_stream := stream |}.

(** The state of the loop over [pvs]: the served names, the subscribed keys and
    the PVs so far. *)
Record PVLoop := {
  lp_endpoints : EndpointRegistry;
  lp_subscribed : list (string * string);
  lp_pvs : list PVConfig;
}.

(** [subscribedKeys.insert(key).second] *)
Definition subscribe (key : string * string) (path : string) (subscribed : list (string * string))
    : exn (list (string * string)) :=
  _ ← fail_if (bool_decide (key ∈ subscribed)) path
        ("duplicate subscribed key '" +:+ key.1 +:+ ":" +:+ key.2 +:+ "'");
  Ret (key :: subscribed).

(** [pv.access] after the loop's defaulting. *)
Definition assignAccess (enabled : bool) (fallback : AccessAssignment) (access : option AccessAssignment)
    (path : string) : exn (option AccessAssignment) :=
  _ ← fail_if (is_some access && negb enabled) path "requires root.access.enabled: true";
  Ret (if negb (is_some access) && enabled then Some fallback else access).

(** The three routes with their backends resolved. *)
Definition resolveRoutes (backends : RedisBackendConfigs) (legacy : bool) (path : string) (pv : PVConfig)
    : exn PVConfig :=
  read ← resolveBackendAlias (rt_backend (pv_read pv)) (path +:+ ".read.backend") backends legacy;
  write ← match pv_write pv with
          | Some w => b ← resolveBackendAlias (rt_backend w) (path +:+ ".write.backend") backends legacy;
                      Ret (Some {| rt_backend := b; rt_key := rt_key w |})
          | None => Ret None
          end;
  confirm ← match pv_confirm pv with
            | Some c => b ← resolveBackendAlias (cf_backend c) (path +:+ ".confirm.backend") backends legacy;
                        Ret (Some {| cf_backend := b; cf_key := cf_key c; cf_timeoutMs := cf_timeoutMs c |})
            | None => Ret None
            end;
  Ret (pv <| pv_read := {| rt_backend := read; rt_key := rt_key (pv_read pv) |} |>
          <| pv_write := write |> <| pv_confirm := confirm |>).

(** Does the confirmation listen to another key than the PV's own? *)
Definition separate_confirm (pv : PVConfig) : option (string * string) :=
  match pv_confirm pv with
  | Some c => if negb (String.eqb (cf_backend c) (rt_backend (pv_read pv))) ||
                 negb (String.eqb (cf_key c) (rt_key (pv_read pv)))
              then Some (cf_backend c, cf_key c) else None
  | None => None
  end.

Definition parsePVEntry (server : ServerConfig) (access : AccessConfig) (backends : RedisBackendConfigs)
    (legacy : bool) (s : PVLoop) (entry : nat * ynode) : exn PVLoop :=
  let path := at_index "root.pvs" (Z.of_nat entry.1) in
  pv ← parsePV entry.2 path;
  acc ← assignAccess (ac_enabled access) (ad_pv (ac_defaults access)) (pv_access pv) (path +:+ ".access");
  pv ← resolveRoutes backends legacy path (pv <| pv_access := acc |>);
  endpoints ← addPV (lp_endpoints s) server pv path;
  subscribed ← subscribe (rt_backend (pv_read pv), rt_key (pv_read pv)) (path +:+ ".read.key") (lp_subscribed s);
  subscribed ← match separate_confirm pv with
               | Some key => subscribe key (path +:+ ".confirm.key") subscribed
               | None => Ret subscribed
               end;
  Ret {| lp_endpoints := endpoints; lp_subscribed := subscribed; lp_pvs := lp_pvs s ++ [pv] |}.

Definition parseRpcEntry (access : AccessConfig) (i : Z) (node : ynode) : exn RpcServiceConfig :=
  let path := at_index "root.rpc_services" i in
  service ← parseRpcService node path;
  acc ← assignAccess (ac_enabled access) (ad_rpc (ac_defaults access)) (rs_access service) (path +:+ ".access");
  Ret {| rs_endpoint := rs_endpoint service; rs_service := rs_service service; rs_suffix := rs_suffix service;
         rs_defaults := rs_defaults service; rs_methodDefaults := rs_methodDefaults service;
         rs_optional := rs_optional service; rs_discoveryTimeoutMs := rs_discoveryTimeoutMs service;
         rs_timeoutMs := rs_timeoutMs service; rs_retryIntervalMs := rs_retryIntervalMs service;
         rs_access := acc |}.

(** The closing loop: what the alarm queue leaves of the budget must hold every
    PV's alarm state. *)
Definition checkAlarmBudget (server : ServerConfig) (alarmBytes : Z) (pv : PVConfig) : exn Z :=
  let nameBytes := strlen (fullPVName server pv) in
  _ ← fail_if ((alarmBytes <? 1024) || (u64 (alarmBytes - 1024) / 2 <? nameBytes))
        "root.limits.alarm_state_bytes" "must cover the reserved alarm queue and current PV states";
  Ret (u64 (alarmBytes - u64 (1024 + 2 * nameBytes))).

Definition parseConfig (env : Env) (root : ynode) (configDirectory : string) : exn AppConfig :=
  _ ← requireMap (Some root) "root";
  _ ← validateTopLevelSchema root;
  _ ← validateTree root "root" 0 0;
  _ ← rejectUnknownKeys root "root"
        ["schema_version"; "server"; "access"; "redis"; "redis_backends"; "alarms"; "channelfinder"; "discovery";
         "limits"; "pvs"; "rpc_services"];
  let legacyInput := negb (is_some (yget root "schema_version")) in
  schemaVersion ← with_default (yget root "schema_version") 1 (fun n => parseNumeric TU32 n "root.schema_version");
  _ ← fail_if (negb (schemaVersion =? 1)) "root.schema_version" "only schema version 1 is supported";
  discovery ← parseDiscovery env (yget root "discovery");
  limits ← parseOperationLimits (yget root "limits");
  access ← parseAccessConfig env (yget root "access") configDirectory "root.access";
  server ← parseServer root;
  channelFinder ← parseChannelFinderConfig (yget root "channelfinder") "root.channelfinder";
  parsed ← parseBackends env root configDirectory;
  let '(redisBackends, hasLegacyRedis) := parsed in
  alarms ← parseAlarmStream root redisBackends hasLegacyRedis;
  pvNodes ← with_default (yget root "pvs") [] (fun n => requireSequence (Some n) "root.pvs");
  endpoints ← addDiagnostics [] server;
  loop ← exn_fold (parsePVEntry server access redisBackends hasLegacyRedis)
           {| lp_endpoints := endpoints; lp_subscribed := []; lp_pvs := [] |} (imap pair pvNodes);
  rpcServices ← with_default (yget root "rpc_services") []
    (fun n => l ← requireSequence (Some n) "root.rpc_services"; exn_imap (parseRpcEntry access) 0 l);
  _ ← fail_if (bool_decide (length (lp_pvs loop) = 0%nat) && bool_decide (length rpcServices = 0%nat)) "root"
        "must define at least one of 'pvs' or 'rpc_services'";
  _ ← exn_fold (checkAlarmBudget server)
        (u64 (ol_alarmStateBytes limits - u64 (ol_alarmQueueEntries limits * kAlarmQueueEntryBytes))) (lp_pvs loop);
  Ret {| app_schemaVersion := schemaVersion; app_legacyInput := legacyInput; app_server := server;
         app_access := access; app_redisBackends := redisBackends; app_alarms := alarms;
         app_channelFinder := channelFinder; app_discovery := discovery; app_limits := limits;
         app_pvs := lp_pvs loop; app_rpcServices := rpcServices |}.

(** [YAML::LoadFile] and [YAML::Load] are parameters. *)
Definition loadConfigFile (env : Env) (LoadFile : string -> exn ynode) (path : string) : exn AppConfig :=
  let absolutePath := path_absolute (env_cwd env) path in
  root ← LoadFile path;
  parseConfig env root (parent_path absolutePath).

Definition loadConfigString (env : Env) (Load : string -> exn ynode) (text : string) : exn AppConfig :=
  root ← Load text;
  parseConfig env root (env_cwd env).
End Parser.

(** ** The summary *)

Definition nl : string := String Secrets.LF EmptyString.

Definition summarizeBackend (entry : string * RedisConfig) : string :=
  nl +:+ "backend[" +:+ entry.1 +:+ "]=" +:+ rd_host entry.2 +:+ ":" +:+ to_dec (rd_port entry.2) +:+
  " base_key=" +:+ rd_baseKey entry.2.

Definition summarizeService (server : ServerConfig) (svc : RpcServiceConfig) : string :=
  nl +:+ "- rpc_service " +:+ rs_service svc +:+ " @ " +:+ rs_endpoint svc +:+ " -> " +:+
  (if str_empty (sv_nameSpace server) then "" else sv_nameSpace server +:+ ":") +:+ "<METHOD>" +:+ rs_suffix svc.

Fixpoint join_comma (l : list string) : string :=
  match l with [] => "" | [x] => x | x :: l' => x +:+ "," +:+ join_comma l' end.

Definition summarizePV (server : ServerConfig) (pv : PVConfig) : string :=
  nl +:+ "- " +:+ fullPVName server pv +:+ " [" +:+
  match pv_kind pv with
  | NTNDArray => toString_PVKind (pv_kind pv) +:+ " max_frame_bytes=" +:+ to_dec (pv_maxFrameBytes pv) +:+
                 " max_frame_gap=" +:+ to_dec (pv_maxFrameGap pv)
  | Value => toString_Shape (pv_shape pv) +:+ " " +:+ toString_PrimitiveType (pv_type pv)
  end +:+ "]" +:+ " read=" +:+ rt_backend (pv_read pv) +:+ ":" +:+ rt_key (pv_read pv) +:+
  match pv_write pv with Some w => " write=" +:+ rt_backend w +:+ ":" +:+ rt_key w | None => "" end +:+
  match pv_confirm pv with Some c => " confirm=" +:+ cf_backend c +:+ ":" +:+ cf_key c | None => "" end +:+
  (if bool_decide (pv_aliases pv = []) then "" else " aliases=" +:+ join_comma (pv_aliases pv)) +:+
  match pv_access pv with Some a => " access=" +:+ asg a +:+ ":ASL" +:+ to_dec (asl a) | None => "" end.

Definition on_off (b : bool) : string := if b then "enabled" else "disabled".

Definition str_concat (l : list string) : string := fold_right String.append "" l.

Definition summarizeConfig (config : AppConfig) : string :=
  let server := app_server config in
  let access := app_access config in
  "instance=" +:+ sv_instance server +:+
  " namespace=" +:+ (if str_empty (sv_nameSpace server) then "<none>" else sv_nameSpace server) +:+
  " redis_backends=" +:+ to_dec (Z.of_nat (length (app_redisBackends config))) +:+
  " pvs=" +:+ to_dec (Z.of_nat (length (app_pvs config))) +:+
  " rpc_services=" +:+ to_dec (Z.of_nat (length (app_rpcServices config))) +:+
  " access=" +:+ on_off (ac_enabled access) +:+
  (if ac_enabled access then
     nl +:+ "access_file=" +:+ ac_file access +:+ " watch=" +:+ on_off (aw_enabled (ac_watch access)) +:+
     " macros=" +:+ to_dec (Z.of_nat (length (ac_macros access)))
   else "") +:+
  str_concat (map summarizeBackend (app_redisBackends config)) +:+
  str_concat (map (summarizeService server) (app_rpcServices config)) +:+
  str_concat (map (summarizePV server) (app_pvs config)).
