(* ===== verification/ConfigDiff.v ===== *)
(** * Configuration differences

    src/config_diff.cpp: [diffConfigs], the report a reload publishes and the
    set of PVs it replaces, and its two printed forms.

    The theorems characterise every list of the report, show that a
    configuration does not differ from itself, that the report is a partition
    (a PV is added, removed, replaced or updated in place, never two of them),
    that nothing but names reaches it, and that [quoteJson] is inverted by a
    JSON string reader. *)

From Stdlib Require Import Ascii.
From S2P Require Import Prelude StrMap Floats Config.

Local Open Scope string_scope.
Local Open Scope list_scope.

(** ** Comparisons *)

Definition opt_feq (a b : option spec_float) : bool :=
  match a, b with None, None => true | Some x, Some y => feq x y | _, _ => false end.

Definition sameMetadata (a b : MetadataConfig) : bool :=
  String.eqb (md_description a) (md_description b) &&
  String.eqb (md_units a) (md_units b) &&
  bool_decide (md_precision a = md_precision b) &&
  bool_decide (md_form a = md_form b) &&
  opt_feq (lim_low (md_display a)) (lim_low (md_display b)) &&
  opt_feq (lim_high (md_display a)) (lim_high (md_display b)) &&
  opt_feq (lim_low (md_control a)) (lim_low (md_control b)) &&
  opt_feq (lim_high (md_control a)) (lim_high (md_control b)) &&
  opt_feq (md_minStep a) (md_minStep b).

Definition sameAlarms (a b : AlarmConfig) : bool :=
  opt_feq (al_lowAlarm a) (al_lowAlarm b) &&
  opt_feq (al_lowWarning a) (al_lowWarning b) &&
  opt_feq (al_highWarning a) (al_highWarning b) &&
  opt_feq (al_highAlarm a) (al_highAlarm b) &&
  feq (al_hysteresis a) (al_hysteresis b).

Definition sameTransform (a b : option LinearTransformConfig) : bool :=
  match a, b with
  | None, None => true
  | Some x, Some y => feq (tr_scale x) (tr_scale y) && feq (tr_offset x) (tr_offset y)
  | _, _ => false
  end.

Definition sameAssignment (a b : option AccessAssignment) : bool :=
  match a, b with
  | None, None => true
  | Some x, Some y => sameAccessAssignment x y
  | _, _ => false
  end.

Definition sameRpc (a b : RpcServiceConfig) : bool :=
  String.eqb (rs_service a) (rs_service b) &&
  String.eqb (rs_endpoint a) (rs_endpoint b) &&
  String.eqb (rs_suffix a) (rs_suffix b) &&
  bool_decide (rs_defaults a = rs_defaults b) &&
  bool_decide (rs_methodDefaults a = rs_methodDefaults b) &&
  Bool.eqb (rs_optional a) (rs_optional b) &&
  (rs_discoveryTimeoutMs a =? rs_discoveryTimeoutMs b)%Z &&
  (rs_timeoutMs a =? rs_timeoutMs b)%Z &&
  (rs_retryIntervalMs a =? rs_retryIntervalMs b)%Z &&
  sameAssignment (rs_access a) (rs_access b).

Fixpoint list_feq (a b : list spec_float) : bool :=
  match a, b with
  | [], [] => true
  | x :: a, y :: b => feq x y && list_feq a b
  | _, _ => false
  end.

(** [operator==] of the variant: same alternative, equal values. *)
Definition sameTyped (a b : TypedValue) : bool :=
  match a, b with
  | TVmonostate, TVmonostate => true
  | TVbool x, TVbool y => Bool.eqb x y
  | TVint8 x, TVint8 y | TVuint8 x, TVuint8 y | TVint16 x, TVint16 y | TVuint16 x, TVuint16 y
  | TVint32 x, TVint32 y | TVuint32 x, TVuint32 y | TVint64 x, TVint64 y | TVuint64 x, TVuint64 y =>
      (x =? y)%Z
  | TVfloat x, TVfloat y | TVdouble x, TVdouble y => feq x y
  | TVstring x, TVstring y => String.eqb x y
  | TVvint8 x, TVvint8 y | TVvuint8 x, TVvuint8 y | TVvint16 x, TVvint16 y
  | TVvuint16 x, TVvuint16 y | TVvint32 x, TVvint32 y | TVvuint32 x, TVvuint32 y
  | TVvint64 x, TVvint64 y | TVvuint64 x, TVvuint64 y => bool_decide (x = y)
  | TVvfloat x, TVvfloat y | TVvdouble x, TVvdouble y => list_feq x y
  | _, _ => false
  end.

Definition aliasSet (pv : PVConfig) : sset := ss_of_list (pv_aliases pv).

(** ** The report *)

Record ConfigDiff := {
  df_added : list string;
  df_removed : list string;
  df_replaced : list string;
  df_metadataChanged : list string;
  df_aliasesChanged : list string;
  df_accessChanged : list string;
  df_backendsChanged : list string;
  df_rpcServicesChanged : list string;
  df_restartRequired : list string;
  df_alarmStreamChanged : bool;
  df_catalogMetadataChanged : bool;
}.

#[export] Instance ConfigDiff_eta : Eta ConfigDiff := fun r =>
  Build_ConfigDiff (df_added r) (df_removed r) (df_replaced r) (df_metadataChanged r)
    (df_aliasesChanged r) (df_accessChanged r) (df_backendsChanged r) (df_rpcServicesChanged r)
    (df_restartRequired r) (df_alarmStreamChanged r) (df_catalogMetadataChanged r).

Definition ConfigDiff_empty : ConfigDiff := Build_ConfigDiff [] [] [] [] [] [] [] [] [] false false.

Definition push_if (b : bool) (x : string) (l : list string) : list string :=
  if b then l ++ [x] else l.

(** What forces a restart. *)
Definition diff_restart (before after : AppConfig) : list string :=
  let b := app_server before in
  let a := app_server after in
  push_if (negb (sameDiscoveryConfig (app_discovery before) (app_discovery after))) "discovery"
  (push_if (negb (Bool.eqb (ac_enabled (app_access before)) (ac_enabled (app_access after)))) "access.enabled"
  (push_if (negb (Bool.eqb (sv_autoBeacon b) (sv_autoBeacon a))) "server.auto_beacon"
  (push_if (negb (bool_decide (sv_udpPort b = sv_udpPort a))) "server.udp_port"
  (push_if (negb (bool_decide (sv_tcpPort b = sv_tcpPort a))) "server.tcp_port"
  (push_if (negb (bool_decide (sv_interfaces b = sv_interfaces a))) "server.interfaces"
  (push_if (negb (String.eqb (sv_nameSpace b) (sv_nameSpace a))) "server.namespace"
  (push_if (negb (String.eqb (sv_instance b) (sv_instance a))) "server.instance"
  (push_if (negb (sameOperationLimits (app_limits before) (app_limits after))) "limits" [])))))))).

(** [for (const auto& pv : config.pvs) pvs.emplace(fullPVName(config.server, pv), &pv);] *)
Definition pvMap (c : AppConfig) : smap PVConfig :=
  fold_left (fun m pv => (sm_emplace (fullPVName (app_server c) pv) pv m).1) (app_pvs c) [].

(** A PV whose reader stays but whose served data changes. *)
Definition differsInPlace (a b : PVConfig) : bool :=
  negb (sameMetadata (pv_metadata a) (pv_metadata b)) ||
  negb (sameAlarms (pv_alarms a) (pv_alarms b)) ||
  negb (sameTransform (pv_transform a) (pv_transform b)) ||
  negb (sameTyped (pv_initialValue a) (pv_initialValue b)) ||
  negb (pv_maxFrameGap a =? pv_maxFrameGap b)%Z ||
  negb (Bool.eqb (sh_required (pv_sourceHealth a)) (sh_required (pv_sourceHealth b))) ||
  negb (sh_staleAfterMs (pv_sourceHealth a) =? sh_staleAfterMs (pv_sourceHealth b))%Z.

(** The body of the loop over the old PVs. *)
Definition diff_old (newPVs : smap PVConfig) (diff : ConfigDiff) (item : string * PVConfig) : ConfigDiff :=
  let '(name, a) := item in
  match sm_find name newPVs with
  | None => diff <| df_removed ::= fun l => l ++ [name] |>
  | Some b =>
      let diff := diff <| df_aliasesChanged ::= push_if (negb (bool_decide (aliasSet a = aliasSet b))) name |> in
      let diff := if negb (sameReaderTopology a b)
                  then diff <| df_replaced ::= fun l => l ++ [name] |>
                  else diff <| df_metadataChanged ::= push_if (differsInPlace a b) name |> in
      diff <| df_accessChanged ::= push_if (negb (sameAssignment (pv_access a) (pv_access b))) name |>
  end.

Definition backendChanged (before after : RedisBackendConfigs) (name : string) : bool :=
  match sm_find name before, sm_find name after with
  | Some a, Some b => negb (sameRedisConfig a b)
  | _, _ => true
  end.

Definition diff_backends (before after : AppConfig) : list string :=
  let names := sm_keys (ss_of_list (sm_keys (app_redisBackends before) ++ sm_keys (app_redisBackends after))) in
  filter (fun name => backendChanged (app_redisBackends before) (app_redisBackends after) name = true) names.

(** The PV reads, writes or confirms through a changed backend. *)
Definition usesChanged (changed : list string) (pv : PVConfig) : bool :=
  bool_decide (rt_backend (pv_read pv) ∈ changed) ||
  match pv_write pv with Some w => bool_decide (rt_backend w ∈ changed) | None => false end ||
  match pv_confirm pv with Some c => bool_decide (cf_backend c ∈ changed) | None => false end.

(** The body of the loop that turns PVs of changed backends into replacements. *)
Definition diff_backend_pv (oldPVs : smap PVConfig) (diff : ConfigDiff) (item : string * PVConfig) : ConfigDiff :=
  let '(name, pv) := item in
  if negb (sm_has name oldPVs) then diff
  else if usesChanged (df_backendsChanged diff) pv then
    diff <| df_replaced ::= push_if (negb (bool_decide (name ∈ df_replaced diff))) name |>
         <| df_metadataChanged ::= filter (fun x => x <> name) |>
  else diff.

Fixpoint rpcEqual (a b : list RpcServiceConfig) : bool :=
  match a, b with
  | [], [] => true
  | x :: a, y :: b => sameRpc x y && rpcEqual a b
  | _, _ => false
  end.

Definition rpcNames (l : list RpcServiceConfig) : list string :=
  map (fun s => rs_service s +:+ rs_suffix s) l.

Definition sameCatalog (a b : ChannelFinderConfig) : bool :=
  String.eqb (ch_url a) (ch_url b) && String.eqb (ch_owner a) (ch_owner b) &&
  bool_decide (ch_tags a = ch_tags b) && bool_decide (ch_properties a = ch_properties b).

Definition diffConfigs (before after : AppConfig) : ConfigDiff :=
  let diff := ConfigDiff_empty <| df_restartRequired := diff_restart before after |>
      <| df_accessChanged ::=
           push_if (negb (sameAccessConfig (app_access before) (app_access after))) "policy/defaults/watcher" |> in
  let oldPVs := pvMap before in
  let newPVs := pvMap after in
  let diff := fold_left (diff_old newPVs) oldPVs diff in
  let diff := diff <| df_added := map fst (filter (fun item => sm_has item.1 oldPVs = false) (newPVs : list (string * PVConfig))) |>
                   <| df_backendsChanged := diff_backends before after |> in
  let diff := fold_left (diff_backend_pv oldPVs) newPVs diff in
  let diff := diff <| df_replaced ::= str_sort |> in
  let services := sm_keys (ss_of_list (rpcNames (app_rpcServices before) ++ rpcNames (app_rpcServices after))) in
  let diff := if rpcEqual (app_rpcServices before) (app_rpcServices after) then diff
              else diff <| df_rpcServicesChanged := services |> in
  diff <| df_alarmStreamChanged := negb (sameAlarmStreamConfig (app_alarms before) (app_alarms after)) |>
       <| df_catalogMetadataChanged := negb (sameCatalog (app_channelFinder before) (app_channelFinder after)) |>.

(** ** Printing *)

Definition hex_digit (n : N) : Ascii.ascii :=
  if (n <? 10)%N then Ascii.ascii_of_N (48 + n) else Ascii.ascii_of_N (87 + n).

Definition str1 (c : Ascii.ascii) : string := String c EmptyString.
Definition quote_char : Ascii.ascii := "034"%char.
Definition backslash : Ascii.ascii := "092"%char.

(** The bytes written for one character of the value. *)
Definition quoteByte (c : Ascii.ascii) : string :=
  if bool_decide (c = quote_char) then String backslash (str1 quote_char)
  else if bool_decide (c = backslash) then String backslash (str1 backslash)
  else if bool_decide (c = "010"%char) then String backslash "n"
  else if bool_decide (c = "013"%char) then String backslash "r"
  else if bool_decide (c = "009"%char) then String backslash "t"
  else if (Ascii.N_of_ascii c <? 32)%N then
    String backslash ("u00" +:+ str1 (hex_digit (Ascii.N_of_ascii c / 16)) +:+
                      str1 (hex_digit (Ascii.N_of_ascii c mod 16)))
  else str1 c.

Fixpoint quoteBytes (s : string) : string :=
  match s with EmptyString => EmptyString | String c s' => quoteByte c +:+ quoteBytes s' end.

Definition quoteJson (value : string) : string :=
  str1 quote_char +:+ quoteBytes value +:+ str1 quote_char.

Fixpoint join (sep : string) (l : list string) : string :=
  match l with
  | [] => EmptyString
  | [x] => x
  | x :: l' => x +:+ sep +:+ join sep l'
  end.

Definition newline : string := str1 "010"%char.

(** The lambda [list] of [formatConfigDiff]. *)
Definition formatList (json : bool) (name : string) (values : list string) : string :=
  if json then quoteJson name +:+ ":[" +:+ join "," (map quoteJson values) +:+ "]"
  else name +:+ " (" +:+ to_dec (Z.of_nat (length values)) +:+ ")" +:+
       foldr (fun v acc => newline +:+ "  " +:+ v +:+ acc) EmptyString values +:+ newline.

Definition formatConfigDiff (diff : ConfigDiff) (json : bool) : string :=
  let lists :=
    [("additions", df_added diff); ("removals", df_removed diff); ("replacements", df_replaced diff);
     ("metadata_changes", df_metadataChanged diff); ("access_changes", df_accessChanged diff);
     ("alias_changes", df_aliasesChanged diff); ("backend_changes", df_backendsChanged diff);
     ("rpc_service_changes", df_rpcServicesChanged diff); ("restart_required", df_restartRequired diff)] in
  if json then
    "{" +:+ join "," (map (fun '(n, v) => formatList true n v) lists) +:+
    "," +:+ quoteJson "alarm_stream_changed" +:+ ":" +:+ (if df_alarmStreamChanged diff then "true" else "false") +:+
    "," +:+ quoteJson "catalog_metadata_changed" +:+ ":" +:+
    (if df_catalogMetadataChanged diff then "true" else "false") +:+ "}"
  else
    foldr (fun '(n, v) acc => formatList false n v +:+ acc) EmptyString lists +:+
    "alarm_stream_changed: " +:+ (if df_alarmStreamChanged diff then "yes" else "no") +:+
    newline +:+ "catalog_metadata_changed: " +:+
    (if df_catalogMetadataChanged diff then "yes" else "no") +:+ newline.

(** ** Each list of the report as a selection *)

Definition sel (P : string -> PVConfig -> bool) (items : list (string * PVConfig)) : list string :=
  map fst (filter (fun item => P item.1 item.2 = true) items).

Lemma sel_cons P n pv items :
  sel P ((n, pv) :: items) = if P n pv then n :: sel P items else sel P items.
Proof. unfold sel. rewrite filter_cons. cbn. by destruct (P n pv). Qed.

Lemma sel_elem P items n :
  sm_wf items -> n ∈ sel P items <-> exists pv, sm_find n items = Some pv /\ P n pv = true.
Proof.
  intros Hwf. unfold sel. rewrite list_elem_of_fmap. split.
  - intros ([n' pv] & -> & [HP Hin]%list_elem_of_filter). exists pv. split; [|done].
    by apply sm_elem_find.
  - intros (pv & Hf & HP). exists (n, pv). split; [done|]. apply list_elem_of_filter.
    split; [done|]. by apply sm_find_elem.
Qed.

Lemma sel_sorted P items : sm_wf items -> StronglySorted str_lt (sel P items).
Proof.
  induction items as [|[n pv] items IH]; [constructor|].
  intros [Hwf Hlt]%sm_wf_cons. rewrite sel_cons. destruct (P n pv); [|auto].
  constructor; [auto|]. rewrite Forall_forall in *. intros x Hx. apply Hlt.
  unfold sel in Hx. apply list_elem_of_fmap in Hx as ([n' pv'] & -> & [_ Hin]%list_elem_of_filter).
  apply list_elem_of_fmap. by exists (n', pv').
Qed.

Lemma sorted_NoDup l : StronglySorted str_lt l -> NoDup l.
Proof.
  induction 1 as [|x l _ IH Hx]; constructor; [|done]. intros Hin.
  rewrite Forall_forall in Hx. by apply Hx, (irreflexivity str_lt) in Hin.
Qed.

Lemma NoDup_app4 (a b c d : list string) :
  NoDup a -> NoDup b -> NoDup c -> NoDup d ->
  (forall x, (x ∈ a -> x ∈ b -> False) /\ (x ∈ a -> x ∈ c -> False) /\ (x ∈ a -> x ∈ d -> False) /\
             (x ∈ b -> x ∈ c -> False) /\ (x ∈ b -> x ∈ d -> False) /\ (x ∈ c -> x ∈ d -> False)) ->
  NoDup (a ++ b ++ c ++ d).
Proof.
  intros ? ? ? ? Hd. repeat (apply NoDup_app; split_and!; [done| |]); try done;
    intros x; specialize (Hd x); rewrite ?elem_of_app; tauto.
Qed.

Lemma pvMap_wf c : sm_wf (pvMap c).
Proof.
  unfold pvMap. assert (forall l m, sm_wf m ->
    sm_wf (fold_left (fun m pv => (sm_emplace (fullPVName (app_server c) pv) pv m).1) l m)) as H.
  { induction l as [|pv l IH]; intros m Hm; cbn; [done|]. apply IH. by apply sm_wf_emplace. }
  apply H, sm_wf_nil.
Qed.

(** Both configurations serve the name. *)
Definition onBoth (newPVs : smap PVConfig) (P : PVConfig -> PVConfig -> bool) (n : string) (a : PVConfig) : bool :=
  match sm_find n newPVs with Some b => P a b | None => false end.

Lemma fold_diff_old newPVs items diff :
  fold_left (diff_old newPVs) items diff =
  diff <| df_removed ::= fun l => l ++ sel (fun n _ => negb (sm_has n newPVs)) items |>
       <| df_aliasesChanged ::= fun l => l ++
            sel (onBoth newPVs (fun a b => negb (bool_decide (aliasSet a = aliasSet b)))) items |>
       <| df_replaced ::= fun l => l ++ sel (onBoth newPVs (fun a b => negb (sameReaderTopology a b))) items |>
       <| df_metadataChanged ::= fun l => l ++
            sel (onBoth newPVs (fun a b => sameReaderTopology a b && differsInPlace a b)) items |>
       <| df_accessChanged ::= fun l => l ++
            sel (onBoth newPVs (fun a b => negb (sameAssignment (pv_access a) (pv_access b)))) items |>.
Proof.
  revert diff; induction items as [|[n a] items IH]; intros diff.
  { destruct diff; cbn. by rewrite !app_nil_r. }
  cbn [fold_left]. rewrite IH, !sel_cons. unfold diff_old, onBoth, sm_has.
  destruct (sm_find n newPVs) as [b|]; destruct diff; cbn; [|by rewrite <-!app_assoc].
  unfold push_if. destruct (sameReaderTopology a b), (bool_decide (aliasSet a = aliasSet b)),
    (differsInPlace a b), (sameAssignment (pv_access a) (pv_access b)); cbn; by rewrite <-?app_assoc.
Qed.

(** The backend loop only touches [replaced] and [metadataChanged]. *)
Definition byBackend (oldPVs : smap PVConfig) (changed : list string) (n : string) (pv : PVConfig) : bool :=
  sm_has n oldPVs && usesChanged changed pv.

Lemma fold_diff_backend oldPVs items diff :
  let d := fold_left (diff_backend_pv oldPVs) items diff in
  d = diff <| df_replaced := df_replaced d |> <| df_metadataChanged := df_metadataChanged d |> /\
  (forall n, n ∈ df_replaced d <->
     n ∈ df_replaced diff \/ n ∈ sel (byBackend oldPVs (df_backendsChanged diff)) items) /\
  (NoDup (df_replaced diff) -> NoDup (df_replaced d)) /\
  df_metadataChanged d =
    filter (fun n => n ∉ sel (byBackend oldPVs (df_backendsChanged diff)) items) (df_metadataChanged diff).
Proof.
  revert diff; induction items as [|[n pv] items IH]; intros diff; cbn [fold_left].
  { cbn. split_and!; [by destruct diff|intros n; set_solver|done|].
    symmetry. apply list_filter_id. intros x _. apply not_elem_of_nil. }
  destruct (IH (diff_backend_pv oldPVs diff (n, pv))) as (Heq & Hrep & Hnd & Hmeta). clear IH.
  assert (df_backendsChanged (diff_backend_pv oldPVs diff (n, pv)) = df_backendsChanged diff) as Hb.
  { unfold diff_backend_pv. destruct (sm_has n oldPVs), (usesChanged (df_backendsChanged diff) pv); by cbn. }
  rewrite Hb in *. rewrite sel_cons. unfold byBackend in *.
  assert (diff_backend_pv oldPVs diff (n, pv) =
    if sm_has n oldPVs && usesChanged (df_backendsChanged diff) pv
    then diff <| df_replaced ::= push_if (negb (bool_decide (n ∈ df_replaced diff))) n |>
              <| df_metadataChanged ::= filter (fun x => x <> n) |>
    else diff) as Hstep.
  { unfold diff_backend_pv. by destruct (sm_has n oldPVs), (usesChanged (df_backendsChanged diff) pv). }
  rewrite Hstep in *. clear Hstep Hb.
  destruct (sm_has n oldPVs && usesChanged (df_backendsChanged diff) pv); [|done].
  split_and!.
  - rewrite Heq at 1. by destruct diff.
  - intros x. rewrite Hrep, elem_of_cons. cbn. unfold push_if.
    destruct (bool_decide_reflect (n ∈ df_replaced diff)); cbn; rewrite ?elem_of_app, ?list_elem_of_singleton;
      naive_solver.
  - intros H. apply Hnd. cbn. unfold push_if.
    destruct (bool_decide_reflect (n ∈ df_replaced diff)); cbn; [done|].
    apply NoDup_app. split_and!; [done| |apply NoDup_singleton]. by intros ? ? ->%list_elem_of_singleton.
  - rewrite Hmeta. cbn. rewrite list_filter_filter. apply list_filter_iff. intros x. rewrite elem_of_cons. tauto.
Qed.

(** ** The report as a whole *)

Lemma sm_has_find {V} k (m : smap V) : sm_has k m = true <-> exists v, sm_find k m = Some v.
Proof. unfold sm_has. destruct (sm_find k m); naive_solver. Qed.

Section Report.
Context (before after : AppConfig).
Let oldPVs := pvMap before.
Let newPVs := pvMap after.
Let diff := diffConfigs before after.
Let changed := diff_backends before after.

(** The fields the later stages of [diffConfigs] leave alone. *)
Lemma diffConfigs_fields :
  df_added diff = sel (fun n _ => negb (sm_has n oldPVs)) newPVs /\
  df_removed diff = sel (fun n _ => negb (sm_has n newPVs)) oldPVs /\
  df_aliasesChanged diff = sel (onBoth newPVs (fun a b => negb (bool_decide (aliasSet a = aliasSet b)))) oldPVs /\
  df_accessChanged diff =
    push_if (negb (sameAccessConfig (app_access before) (app_access after))) "policy/defaults/watcher" [] ++
    sel (onBoth newPVs (fun a b => negb (sameAssignment (pv_access a) (pv_access b)))) oldPVs /\
  df_backendsChanged diff = changed /\
  df_restartRequired diff = diff_restart before after /\
  df_metadataChanged diff =
    filter (fun n => n ∉ sel (byBackend oldPVs changed) newPVs)
      (sel (onBoth newPVs (fun a b => sameReaderTopology a b && differsInPlace a b)) oldPVs) /\
  (forall n, n ∈ df_replaced diff <->
     n ∈ sel (onBoth newPVs (fun a b => negb (sameReaderTopology a b))) oldPVs \/
     n ∈ sel (byBackend oldPVs changed) newPVs) /\
  Sorted String.le (df_replaced diff) /\ NoDup (df_replaced diff).
Proof.
  unfold diff, diffConfigs. fold oldPVs newPVs. rewrite fold_diff_old.
  match goal with
  | |- context [fold_left (diff_backend_pv oldPVs) newPVs ?d] =>
      destruct (fold_diff_backend oldPVs newPVs d) as (Heq & Hrep & Hnd & Hmeta)
  end.
  assert (map fst (filter (fun item => sm_has item.1 oldPVs = false) (newPVs : list (string * PVConfig))) =
          sel (fun n _ => negb (sm_has n oldPVs)) newPVs) as Hadd.
  { unfold sel. f_equal. apply list_filter_iff. intros x. by rewrite negb_true_iff. }
  rewrite Hadd in *. revert Heq Hrep Hnd Hmeta. generalize (fold_left (diff_backend_pv oldPVs) newPVs).
  intros g Heq Hrep Hnd Hmeta. rewrite Heq. clear Heq. cbn in *. fold changed in Hrep, Hmeta.
  destruct (rpcEqual _ _); cbn; split_and!; try done; try (intros n; rewrite <-Hrep);
    unfold str_sort; try (by rewrite merge_sort_Permutation);
    try (apply Sorted_merge_sort; apply _);
    rewrite merge_sort_Permutation; apply Hnd, sorted_NoDup, sel_sorted, pvMap_wf.
Qed.

Lemma diffConfigs_lists n :
  (n ∈ df_added diff <-> n ∈ sm_keys newPVs /\ (n ∉ sm_keys oldPVs)) /\
  (n ∈ df_removed diff <-> n ∈ sm_keys oldPVs /\ (n ∉ sm_keys newPVs)) /\
  (n ∈ df_replaced diff <-> exists a b, sm_find n oldPVs = Some a /\ sm_find n newPVs = Some b /\
     (sameReaderTopology a b = false \/ usesChanged changed b = true)) /\
  (n ∈ df_metadataChanged diff <-> exists a b, sm_find n oldPVs = Some a /\ sm_find n newPVs = Some b /\
     sameReaderTopology a b = true /\ usesChanged changed b = false /\ differsInPlace a b = true).
Proof.
  destruct diffConfigs_fields as (Ha & Hr & _ & _ & _ & _ & Hm & Hp & _ & _).
  pose proof (pvMap_wf before) as Hwo. pose proof (pvMap_wf after) as Hwn.
  rewrite Ha, Hr, Hm, Hp, list_elem_of_filter, !sel_elem by done. unfold onBoth, byBackend.
  rewrite <-!sm_has_spec, !sm_has_find. split_and!.
  - setoid_rewrite negb_true_iff. split.
    + intros (pv & ? & Hn). split; [eauto|]. intros [v Hv]. unfold sm_has in Hn. by rewrite Hv in Hn.
    + intros [[pv ?] Hn]. exists pv. split; [done|]. unfold sm_has.
      destruct (sm_find n oldPVs); [|done]. exfalso. apply Hn. eauto.
  - setoid_rewrite negb_true_iff. split.
    + intros (pv & ? & Hn). split; [eauto|]. intros [v Hv]. unfold sm_has in Hn. by rewrite Hv in Hn.
    + intros [[pv ?] Hn]. exists pv. split; [done|]. unfold sm_has.
      destruct (sm_find n newPVs); [|done]. exfalso. apply Hn. eauto.
  - unfold sm_has. fold oldPVs newPVs. split.
    + intros [(a & Ha' & Hb)|(b & Hb' & Hb)].
      * destruct (sm_find n newPVs) as [b|]; [|done]. exists a, b. apply negb_true_iff in Hb. auto.
      * destruct (sm_find n oldPVs) as [a|]; [|done]. exists a, b. auto.
    + intros (a & b & Ha' & Hb' & [Ht|Hu]).
      * left. exists a. rewrite Hb', Ht. done.
      * right. exists b. rewrite Ha', Hu. done.
  - unfold sm_has. fold oldPVs newPVs. split.
    + intros [Hnb (a & Ha' & Hb)]. destruct (sm_find n newPVs) as [b|]; [|done].
      apply andb_true_iff in Hb as [??]. exists a, b. split_and!; try done.
      destruct (usesChanged changed b) eqn:E; [|done]. destruct Hnb. exists b. by rewrite Ha', E.
    + intros (a & b & Ha' & Hb' & Ht & Hu & Hd). split.
      * intros (b2 & ? & Hb2). simplify_eq. by rewrite Hu, andb_false_r in Hb2.
      * exists a. rewrite Hb', Ht, Hd. done.
Qed.
(** Which PVs a reload touches: a name is added or removed when only one
    configuration serves it; it is replaced when its type, routes or a
    backend it uses changed; it is updated in place when only its metadata,
    alarms, transform, initial value, frame gap or health settings did.  No name is
    reported twice. *)
Theorem diffConfigs_spec n :
  (n ∈ df_added diff <-> n ∈ sm_keys newPVs /\ (n ∉ sm_keys oldPVs)) /\
  (n ∈ df_removed diff <-> n ∈ sm_keys oldPVs /\ (n ∉ sm_keys newPVs)) /\
  (n ∈ df_replaced diff <-> exists a b, sm_find n oldPVs = Some a /\ sm_find n newPVs = Some b /\
     (sameReaderTopology a b = false \/ usesChanged changed b = true)) /\
  (n ∈ df_metadataChanged diff <-> exists a b, sm_find n oldPVs = Some a /\ sm_find n newPVs = Some b /\
     sameReaderTopology a b = true /\ usesChanged changed b = false /\ differsInPlace a b = true) /\
  NoDup (df_added diff ++ df_removed diff ++ df_replaced diff ++ df_metadataChanged diff).
Proof.
  destruct (diffConfigs_lists n) as (? & ? & ? & ?). split_and!; try done.
  destruct diffConfigs_fields as (Ha & Hr & _ & _ & _ & _ & Hm & _ & _ & Hnd).
  apply NoDup_app4.
  - rewrite Ha. apply sorted_NoDup, sel_sorted, pvMap_wf.
  - rewrite Hr. apply sorted_NoDup, sel_sorted, pvMap_wf.
  - done.
  - rewrite Hm. apply NoDup_filter, sorted_NoDup, sel_sorted, pvMap_wf.
  - intros x. destruct (diffConfigs_lists x) as (HA & HR & HP & HM).
    assert (forall v m, sm_find x m = Some v -> x ∈ sm_keys (V:=PVConfig) m) as Hf.
    { intros v m Hv. apply sm_has_spec. unfold sm_has. by rewrite Hv. }
    rewrite HA, HR, HP, HM. split_and!.
    + intros [? ?] [? ?]. done.
    + intros [? Hn] (a & b & Ho & _). apply Hn. eauto.
    + intros [? Hn] (a & b & Ho & _). apply Hn. eauto.
    + intros [? Hn] (a & b & _ & Ho & _). apply Hn. eauto.
    + intros [? Hn] (a & b & _ & Ho & _). apply Hn. eauto.
    + intros (a & b & Ho & Hb & Hx) (a' & b' & Ho' & Hb' & Ht & Hu & _).
      rewrite Ho in Ho'. rewrite Hb in Hb'. simplify_eq. destruct Hx; congruence.
Qed.
End Report.

(** ** A configuration does not differ from itself *)

Definition opt_list {A} (o : option A) : list A := match o with Some x => [x] | None => [] end.

Definition typed_doubles (v : TypedValue) : list spec_float :=
  match v with TVfloat x | TVdouble x => [x] | TVvfloat l | TVvdouble l => l | _ => [] end.

(** Every floating-point number of a PV's configuration. *)
Definition pv_doubles (pv : PVConfig) : list spec_float :=
  let md := pv_metadata pv in
  let al := pv_alarms pv in
  opt_list (lim_low (md_display md)) ++ opt_list (lim_high (md_display md)) ++
  opt_list (lim_low (md_control md)) ++ opt_list (lim_high (md_control md)) ++ opt_list (md_minStep md) ++
  opt_list (al_lowAlarm al) ++ opt_list (al_lowWarning al) ++ opt_list (al_highWarning al) ++
  opt_list (al_highAlarm al) ++ [al_hysteresis al] ++
  match pv_transform pv with Some t => [tr_scale t; tr_offset t] | None => [] end ++
  typed_doubles (pv_initialValue pv).

Definition not_nan (x : spec_float) : Prop := x <> S754_nan.

Lemma feq_refl x : not_nan x -> feq x x = true.
Proof.
  unfold not_nan, feq, SFeqb. intros Hx. destruct x as [s|s| |s m e]; cbn; try done; try (by destruct s).
  unfold SFcompare. destruct s; rewrite Z.compare_refl, Pos.compare_cont_refl; done.
Qed.

Lemma opt_feq_refl o : Forall not_nan (opt_list o) -> opt_feq o o = true.
Proof. destruct o; cbn; [|done]. inversion 1; subst. by apply feq_refl. Qed.

Lemma list_feq_refl l : Forall not_nan l -> list_feq l l = true.
Proof. induction 1; cbn; [done|]. by rewrite feq_refl, IHForall. Qed.

Lemma sameTyped_refl v : Forall not_nan (typed_doubles v) -> sameTyped v v = true.
Proof.
  destruct v; cbn; intros H; rewrite ?eqb_reflx, ?Z.eqb_refl, ?String.eqb_refl;
    try done; try (by apply bool_decide_eq_true); try (by apply list_feq_refl);
    inversion H; subst; by apply feq_refl.
Qed.

Lemma sameAccessAssignment_refl a : sameAccessAssignment a a = true.
Proof. unfold sameAccessAssignment. by rewrite String.eqb_refl, Z.eqb_refl. Qed.

Lemma sameAssignment_refl a : sameAssignment a a = true.
Proof. destruct a; [apply sameAccessAssignment_refl|done]. Qed.

Ltac same_refl :=
  rewrite ?String.eqb_refl, ?Z.eqb_refl, ?Bool.eqb_reflx, ?sameAssignment_refl, ?sameAccessAssignment_refl;
  rewrite ?(proj2 (bool_decide_eq_true _) eq_refl); try done.

Lemma sameReaderTopology_refl pv : sameReaderTopology pv pv = true.
Proof.
  unfold sameReaderTopology, sameOptionalRoute, sameConfirm.
  destruct (pv_write pv), (pv_confirm pv); by same_refl.
Qed.

Lemma differsInPlace_refl pv : Forall not_nan (pv_doubles pv) -> differsInPlace pv pv = false.
Proof.
  unfold pv_doubles. rewrite !Forall_app.
  intros (? & ? & ? & ? & ? & ? & ? & ? & ? & Hy & Ht & Hv). unfold differsInPlace, sameMetadata, sameAlarms.
  rewrite !opt_feq_refl, sameTyped_refl by done. inversion Hy; subst. rewrite feq_refl by done. same_refl.
  destruct (pv_transform pv); cbn; [|done].
  inversion Ht as [|? ? ? Ht']; subst. inversion Ht'; subst. by rewrite !feq_refl.
Qed.

Lemma sameRpc_refl s : sameRpc s s = true.
Proof. unfold sameRpc. by same_refl. Qed.

Lemma rpcEqual_refl l : rpcEqual l l = true.
Proof. induction l as [|s l IH]; cbn; [done|]. by rewrite sameRpc_refl. Qed.

Lemma sameRedisConfig_refl c : sameRedisConfig c c = true.
Proof. unfold sameRedisConfig. by same_refl. Qed.

Lemma diff_restart_refl c : diff_restart c c = [].
Proof.
  unfold diff_restart, sameDiscoveryConfig, sameOperationLimits. by same_refl.
Qed.

Lemma diff_backends_refl c : diff_backends c c = [].
Proof.
  unfold diff_backends. apply list_filter_none. intros n Hn.
  apply ss_of_list_elem, elem_of_app in Hn. rewrite <-!sm_has_spec, !sm_has_find in Hn.
  unfold backendChanged. destruct Hn as [[v ->]|[v ->]]; by rewrite sameRedisConfig_refl.
Qed.

Lemma pvMap_find_elem c n pv : sm_find n (pvMap c) = Some pv -> pv ∈ app_pvs c.
Proof.
  unfold pvMap. assert (forall l m,
    sm_find n (fold_left (fun m pv => (sm_emplace (fullPVName (app_server c) pv) pv m).1) l m) = Some pv ->
    pv ∈ l \/ sm_find n m = Some pv) as H.
  { induction l as [|x l IH]; intros m Hf; cbn in Hf; [by right|].
    destruct (IH _ Hf) as [?|Hm]; [left; by right|]. unfold sm_emplace in Hm.
    destruct (sm_has (fullPVName (app_server c) x) m); [by right|]. cbn in Hm.
    rewrite sm_find_set in Hm. case_decide; [|by right]. simplify_eq. left. left. }
  intros [?|?]%H; done.
Qed.

Lemma elem_of_nil_inv (l : list string) : (forall x, x ∉ l) -> l = [].
Proof. destruct l as [|x l]; [done|]. intros H. destruct (H x). left. Qed.

Lemma sameAccessConfig_refl a : sameAccessConfig a a = true.
Proof. unfold sameAccessConfig. by same_refl. Qed.

Lemma usesChanged_nil pv : usesChanged [] pv = false.
Proof.
  unfold usesChanged. rewrite bool_decide_eq_false_2 by apply not_elem_of_nil.
  destruct (pv_write pv), (pv_confirm pv); cbn; by rewrite ?bool_decide_eq_false_2 by apply not_elem_of_nil.
Qed.

Lemma diffConfigs_rest_refl c :
  df_rpcServicesChanged (diffConfigs c c) = [] /\ df_alarmStreamChanged (diffConfigs c c) = false /\
  df_catalogMetadataChanged (diffConfigs c c) = false.
Proof.
  unfold diffConfigs. rewrite rpcEqual_refl, fold_diff_old.
  match goal with
  | |- context [fold_left (diff_backend_pv ?o) ?n ?d] =>
      destruct (fold_diff_backend o n d) as (Heq & _)
  end.
  rewrite Heq. cbn. unfold sameAlarmStreamConfig, sameCatalog. by same_refl.
Qed.

(** A configuration does not differ from itself, as long as none of its
    numbers is a NaN.  ConfigSafety shows that the parser guarantees that. *)
Lemma diffConfigs_self c :
  (forall pv, pv ∈ app_pvs c -> Forall not_nan (pv_doubles pv)) ->
  diffConfigs c c = ConfigDiff_empty.
Proof.
  intros Hnan. pose proof (diffConfigs_lists c c) as Hspec. pose proof (pvMap_wf c) as Hwf.
  destruct (diffConfigs_fields c c) as (_ & _ & Hal & Hac & Hb & Hre & _ & _ & _ & _).
  assert (forall n pv, sm_find n (pvMap c) = Some pv -> differsInPlace pv pv = false) as Hin.
  { intros n pv Hf. apply differsInPlace_refl, Hnan. by eapply pvMap_find_elem. }
  assert (forall P, (forall pv, P pv pv = false) -> sel (onBoth (pvMap c) P) (pvMap c) = []) as Hsel.
  { intros P HP. apply elem_of_nil_inv. intros n (pv & Hf & Hn)%sel_elem; [|done].
    unfold onBoth in Hn. by rewrite Hf, HP in Hn. }
  rewrite Hsel in Hal, Hac by (intros; by rewrite ?bool_decide_eq_true_2, ?sameAssignment_refl).
  rewrite sameAccessConfig_refl in Hac. rewrite diff_backends_refl in Hb. rewrite diff_restart_refl in Hre.
  assert (df_rpcServicesChanged (diffConfigs c c) = [] /\ df_alarmStreamChanged (diffConfigs c c) = false /\
          df_catalogMetadataChanged (diffConfigs c c) = false) as (H1 & H2 & H3) by apply diffConfigs_rest_refl.
  assert (df_added (diffConfigs c c) = []) as H4.
  { apply elem_of_nil_inv. intros n (? & ?)%(proj1 (proj1 (Hspec n))). done. }
  assert (df_removed (diffConfigs c c) = []) as H5.
  { apply elem_of_nil_inv. intros n (? & ?)%(proj1 (proj1 (proj2 (Hspec n)))). done. }
  assert (df_replaced (diffConfigs c c) = []) as H6.
  { apply elem_of_nil_inv. intros n (a & b & ? & ? & Hx)%(proj1 (proj1 (proj2 (proj2 (Hspec n))))).
    simplify_eq. rewrite sameReaderTopology_refl, diff_backends_refl in Hx.
    destruct Hx as [?|Hx]; [done|]. by rewrite usesChanged_nil in Hx. }
  assert (df_metadataChanged (diffConfigs c c) = []) as H7.
  { apply elem_of_nil_inv. intros n (a & b & Hf & ? & _ & _ & Hx)%(proj1 (proj2 (proj2 (proj2 (Hspec n))))).
    simplify_eq. by rewrite (Hin _ _ Hf) in Hx. }
  destruct (diffConfigs c c); cbn in *. unfold ConfigDiff_empty. congruence.
Qed.

(** A configuration with a scalar, its metadata limits and a backend. *)
Definition demo_pv (name : string) (high : Z) : PVConfig :=
  PVConfig_default <| pv_name := name |> <| pv_read := {| rt_backend := "default"; rt_key := name |} |>
    <| pv_metadata := {| md_description := ""; md_units := "V"; md_precision := Some 3%Z; md_form := None;
                         md_display := {| lim_low := None; lim_high := Some (f_of_Z binary64 high) |};
                         md_control := LimitConfig_default; md_minStep := None |} |>.
Definition demo_config (pvs : list PVConfig) : AppConfig :=
  {| app_schemaVersion := 2; app_legacyInput := false;
     app_server := {| sv_instance := "ioc"; sv_nameSpace := "NS"; sv_interfaces := []; sv_tcpPort := None;
                      sv_udpPort := None; sv_autoBeacon := true |};
     app_access := {| ac_enabled := false; ac_file := ""; ac_macros := [];
                      ac_watch := {| aw_enabled := false; aw_intervalMs := 1000; aw_settleMs := 250 |};
                      ac_defaults := {| ad_pv := AccessAssignment_default; ad_rpc := AccessAssignment_default;
                        ad_adminRead := AccessAssignment_default; ad_adminWrite := AccessAssignment_default |} |};
     app_redisBackends := [("default", {| rd_baseKey := "b"; rd_host := "h"; rd_port := 6379; rd_user := "";
                             rd_password := "secret"; rd_workers := 1; rd_readers := 1; rd_readerProbeMs := 0 |})];
     app_alarms := {| as_backend := ""; as_stream := "" |};
     app_channelFinder := {| ch_url := ""; ch_owner := ""; ch_tags := []; ch_properties := [] |};
     app_discovery := DiscoveryConfig_default; app_limits := OperationLimitsConfig_default;
     app_pvs := pvs; app_rpcServices := [] |}.

Example diff_demo :
  let d := diffConfigs (demo_config [demo_pv "A" 1; demo_pv "B" 2; demo_pv "C" 3])
                       (demo_config [demo_pv "B" 2; demo_pv "C" 4; demo_pv "D" 5]) in
  (df_added d, df_removed d, df_replaced d, df_metadataChanged d) = (["NS:D"], ["NS:A"], [], ["NS:C"]).
Proof. by vm_compute. Qed.

(** ** The printed form *)

Definition hex_value (c : ascii) : option N :=
  let n := N_of_ascii c in
  if (48 <=? n)%N && (n <=? 57)%N then Some (n - 48)%N
  else if (97 <=? n)%N && (n <=? 102)%N then Some (n - 87)%N else None.

Definition cons_fst (c : ascii) (r : option (string * string)) : option (string * string) :=
  match r with Some (s, rest) => Some (String c s, rest) | None => None end.

(** Reads the rest of a JSON string literal: the text up to the closing quote
    and what follows it. *)
Fixpoint readString (s : string) : option (string * string) :=
  match s with
  | EmptyString => None
  | String c s1 =>
      if bool_decide (c = quote_char) then Some (EmptyString, s1)
      else if bool_decide (c = backslash) then
        match s1 with
        | String e s2 =>
            if bool_decide (e = quote_char) then cons_fst quote_char (readString s2)
            else if bool_decide (e = backslash) then cons_fst backslash (readString s2)
            else if bool_decide (e = "n"%char) then cons_fst "010"%char (readString s2)
            else if bool_decide (e = "r"%char) then cons_fst "013"%char (readString s2)
            else if bool_decide (e = "t"%char) then cons_fst "009"%char (readString s2)
            else if bool_decide (e = "u"%char) then
              match s2 with
              | String h1 (String h2 (String h3 (String h4 s3))) =>
                  match hex_value h1, hex_value h2, hex_value h3, hex_value h4 with
                  | Some 0%N, Some 0%N, Some x, Some y => cons_fst (ascii_of_N (16 * x + y)) (readString s3)
                  | _, _, _, _ => None
                  end
              | _ => None
              end
            else None
        | EmptyString => None
        end
      else if (N_of_ascii c <? 32)%N then None
      else cons_fst c (readString s1)
  end.

Lemma readString_quoteByte c r : readString (quoteByte c +:+ r) = cons_fst c (readString r).
Proof. by destruct c as [[] [] [] [] [] [] [] []]. Qed.

(** [quoteJson] loses nothing and ends where it should: whatever bytes
    the value holds and whatever text follows, a JSON reader recovers the value
    and stops right after the closing quote. *)
Theorem quoteJson_roundtrip value rest :
  exists body, quoteJson value +:+ rest = String quote_char body /\ readString body = Some (value, rest).
Proof.
  exists (quoteBytes value +:+ str1 quote_char +:+ rest). split.
  { unfold quoteJson. by rewrite <-!str_app_assoc. }
  induction value as [|c value IH]; cbn [quoteBytes].
  - reflexivity.
  - by rewrite <-str_app_assoc, readString_quoteByte, IH.
Qed.

(** ** Provenance *)

Definition restartLabels : list string :=
  ["limits"; "server.instance"; "server.namespace"; "server.interfaces"; "server.tcp_port";
   "server.udp_port"; "server.auto_beacon"; "access.enabled"; "discovery"].

(** The names a configuration serves or refers to. *)
Definition publicNames (c : AppConfig) : list string :=
  map (fullPVName (app_server c)) (app_pvs c) ++ sm_keys (app_redisBackends c) ++ rpcNames (app_rpcServices c).

Definition diffStrings (d : ConfigDiff) : list string :=
  df_added d ++ df_removed d ++ df_replaced d ++ df_metadataChanged d ++ df_aliasesChanged d ++
  df_accessChanged d ++ df_backendsChanged d ++ df_rpcServicesChanged d ++ df_restartRequired d.

Lemma push_if_elem b x y l : y ∈ push_if b x l -> y = x \/ y ∈ l.
Proof. destruct b; cbn; [|by right]. rewrite elem_of_app, list_elem_of_singleton. tauto. Qed.

Lemma diff_restart_labels before after x : x ∈ diff_restart before after -> x ∈ restartLabels.
Proof.
  unfold diff_restart, restartLabels.
  repeat (intros [->|H]%push_if_elem; [apply (bool_decide_unpack _); vm_compute; exact I|revert H]).
  by intros ?%not_elem_of_nil.
Qed.

Lemma pvMap_keys c n : n ∈ sm_keys (pvMap c) -> n ∈ publicNames c.
Proof.
  intros Hn. apply elem_of_app. left. revert Hn. unfold pvMap.
  assert (forall l m, n ∈ sm_keys (fold_left
    (fun m pv => (sm_emplace (fullPVName (app_server c) pv) pv m).1) l m) ->
    n ∈ map (fullPVName (app_server c)) l \/ n ∈ sm_keys m) as H.
  { induction l as [|x l IH]; intros m Hf; cbn in Hf; [by right|].
    destruct (IH _ Hf) as [?|Hm]; [left; by right|]. unfold sm_emplace in Hm.
    destruct (sm_has (fullPVName (app_server c) x) m); [by right|]. cbn in Hm.
    apply sm_keys_set in Hm as [->|?]; [left; left|by right]. }
  intros [?|?%not_elem_of_nil]%H; done.
Qed.

Lemma sel_keys P c n : n ∈ sel P (pvMap c) -> n ∈ publicNames c.
Proof.
  intros (pv & Hf & _)%sel_elem; [|apply pvMap_wf]. apply pvMap_keys, sm_has_spec. unfold sm_has. by rewrite Hf.
Qed.

Lemma diffConfigs_rpc before after x :
  x ∈ df_rpcServicesChanged (diffConfigs before after) ->
  x ∈ rpcNames (app_rpcServices before) ++ rpcNames (app_rpcServices after).
Proof.
  unfold diffConfigs. rewrite fold_diff_old.
  match goal with
  | |- context [fold_left (diff_backend_pv ?o) ?n ?d] =>
      destruct (fold_diff_backend o n d) as (Heq & _)
  end.
  rewrite Heq. destruct (rpcEqual _ _); cbn; [by intros ?%not_elem_of_nil|apply ss_of_list_elem].
Qed.

(** The report names things and never shows values: every string of it is
    a served name, a backend alias, an RPC service name or a fixed label, so no
    host, user, password, key or limit can reach it. *)
Theorem diffConfigs_names_only before after x :
  x ∈ diffStrings (diffConfigs before after) ->
  x ∈ publicNames before \/ x ∈ publicNames after \/ x = "policy/defaults/watcher" \/ x ∈ restartLabels.
Proof.
  destruct (diffConfigs_fields before after) as (Ha & Hr & Hal & Hac & Hb & Hre & Hm & Hp & _ & _).
  unfold diffStrings. rewrite !elem_of_app.
  intros [Hx|[Hx|[Hx|[Hx|[Hx|[Hx|[Hx|[Hx|Hx]]]]]]]].
  - rewrite Ha in Hx. apply sel_keys in Hx. auto.
  - rewrite Hr in Hx. apply sel_keys in Hx. auto.
  - apply Hp in Hx as [Hx|Hx]; apply sel_keys in Hx; auto.
  - rewrite Hm in Hx. apply list_elem_of_filter in Hx as [_ Hx]. apply sel_keys in Hx. auto.
  - rewrite Hal in Hx. apply sel_keys in Hx. auto.
  - rewrite Hac in Hx. apply elem_of_app in Hx as [[->|?%not_elem_of_nil]%push_if_elem|Hx]; [auto|done|].
    apply sel_keys in Hx. auto.
  - rewrite Hb in Hx. unfold diff_backends in Hx. apply list_elem_of_filter in Hx as [_ Hx].
    apply ss_of_list_elem, elem_of_app in Hx. unfold publicNames. rewrite !elem_of_app. tauto.
  - apply diffConfigs_rpc, elem_of_app in Hx. unfold publicNames. rewrite !elem_of_app. tauto.
  - rewrite Hre in Hx. apply diff_restart_labels in Hx. auto.
Qed.

Lemma diffConfigs_names_only_witness :
  "NS:D" ∈ diffStrings (diffConfigs (demo_config [demo_pv "A" 1]) (demo_config [demo_pv "D" 5])) /\
  ("NS:D" ∈ publicNames (demo_config [demo_pv "A" 1]) \/ "NS:D" ∈ publicNames (demo_config [demo_pv "D" 5]) \/
   "NS:D" = "policy/defaults/watcher" \/ "NS:D" ∈ restartLabels).
Proof.
  assert ("NS:D" ∈ diffStrings (diffConfigs (demo_config [demo_pv "A" 1]) (demo_config [demo_pv "D" 5]))) as H
    by (apply (bool_decide_unpack _); vm_compute; exact I).
  split; [exact H|]. apply (diffConfigs_names_only _ _ _ H).
Defined.
