(* ===== verification/OperationQueue.v ===== *)
(** * The bounded operation queue

    src/operation_queue.cpp with include/redis_pvxs_ioc/operation_queue.h.
    Every critical section of [OperationQueue::Impl] is one function on the
    explicit state [Impl]; the bodies of [worker()], [expire()] and [stop()]
    are cut at the points where the code releases the queue lock, so that the
    steps of the worker threads, of the timer thread and of the callers
    interleave freely.  A step returns the callbacks ([Work::run],
    [Work::fail]) its thread performs after unlocking.

    [None] is undefined behaviour or an exception that would leave a thread:
    erasing [end()], [at()] on a missing key, an iterator into a list its
    element has left.  The invariant shows it never happens. *)

From S2P Require Import Prelude.

Local Open Scope Z_scope.

(** ** Data (operation_queue.h, operation_queue.cpp) *)

Inductive OperationFailure := Overload | Deadline | Cancelled | Stopped | Exception.
#[export] Instance OperationFailure_eq_dec : EqDecision OperationFailure.
Proof. solve_decision. Defined.

Record OperationQueueLimits := { lm_workers : Z; lm_queuedPerKey : Z; lm_residentBytes : Z }.

Record OperationQueueStats := {
  c_accepted : Z; c_completed : Z; c_overloaded : Z; c_expired : Z; c_cancelled : Z;
  c_queued : Z; c_running : Z; c_residentBytes : Z; c_peakBytes : Z;
}.

(** [run] and [fail] are the caller's closures; the model refers to them by
    the task's id. Time points are ticks of the steady clock. *)
Record Work := { w_key : string; w_bytes : Z; w_deadline : Z }.

(** [std::list<std::shared_ptr<Task>>] as the list of the tasks' ids;
    [Task::position] is the place of its own id. *)
Record Lane := { ln_active : bool; ln_ready : bool; ln_queue : list Z }.

(** [t_timed] is [expiry != deadlines.end()]. *)
Record Task := {
  t_work : Work; t_charge : Z; t_active : bool; t_failed : bool; t_timed : bool;
}.

(** Where a worker thread stands: waiting on the condition variable, holding a
    task it has just popped ([past] is [pastDeadline]), about to take the lock
    again after [run()] or [reject()], or returned. *)
Inductive WorkerState :=
| WWait
| WTaken (id : Z) (past : bool)
| WFinishing (id : Z)
| WExited.
#[export] Instance WorkerState_eq_dec : EqDecision WorkerState.
Proof. solve_decision. Defined.

Record Impl := {
  q_stopped : bool;
  q_nextId : Z;
  q_counts : OperationQueueStats;
  q_lanes : gmap string Lane;
  q_tasks : gmap Z Task;
  q_deadlines : list (Z * Z);
  q_runnable : list string;
  q_workers : list WorkerState;
  q_timer : bool;
}.

#[export] Instance Stats_eta : Eta OperationQueueStats := fun r =>
  Build_OperationQueueStats (c_accepted r) (c_completed r) (c_overloaded r) (c_expired r)
    (c_cancelled r) (c_queued r) (c_running r) (c_residentBytes r) (c_peakBytes r).
#[export] Instance Lane_eta : Eta Lane := fun r =>
  Build_Lane (ln_active r) (ln_ready r) (ln_queue r).
#[export] Instance Task_eta : Eta Task := fun r =>
  Build_Task (t_work r) (t_charge r) (t_active r) (t_failed r) (t_timed r).
#[export] Instance Impl_eta : Eta Impl := fun r =>
  Build_Impl (q_stopped r) (q_nextId r) (q_counts r) (q_lanes r) (q_tasks r) (q_deadlines r)
    (q_runnable r) (q_workers r) (q_timer r).

(** What a thread does after it has released the lock.  A task that was never
    accepted has id 0. *)
Inductive Effect :=
| EFail (id : Z) (reason : OperationFailure) (text : string)
| ETake (key : string) (id : Z)
| ERun (id : Z).

(** ** Operations *)

Definition t_key (t : Task) : string := w_key (t_work t).

Definition Stats_zero : OperationQueueStats := Build_OperationQueueStats 0 0 0 0 0 0 0 0 0.

(** The constructor: it throws on unusable limits, else starts the workers and
    the timer. *)
Definition Impl_new (limits : OperationQueueLimits) : exn Impl :=
  if (lm_workers limits =? 0) || (lm_queuedPerKey limits =? 0) || (lm_residentBytes limits <? 256)
  then Throw "operation queue limits must be positive"
  else Ret {| q_stopped := false; q_nextId := 0; q_counts := Stats_zero; q_lanes := ∅;
              q_tasks := ∅; q_deadlines := []; q_runnable := [];
              q_workers := replicate (Z.to_nat (lm_workers limits)) WWait; q_timer := true |}.

(** [std::multimap::emplace]: after the entries that are not later. *)
Fixpoint dl_emplace (e : Z * Z) (l : list (Z * Z)) : list (Z * Z) :=
  match l with
  | [] => [e]
  | e' :: l' => if e'.1 <=? e.1 then e' :: dl_emplace e l' else e :: l
  end.

(** [deadlines.erase(iterator)] of the entry of a task. *)
Definition dl_erase (id : Z) (l : list (Z * Z)) : list (Z * Z) :=
  filter (fun e => e.2 <> id) l.

Definition ready (s : Impl) (key : string) (lane : Lane) : Impl :=
  if negb (ln_active lane) && negb (ln_ready lane) && negb (bool_decide (ln_queue lane = []))
  then s <| q_runnable := q_runnable s ++ [key] |>
         <| q_lanes := <[key := lane <| ln_ready := true |>]> (q_lanes s) |>
  else s <| q_lanes := <[key := lane]> (q_lanes s) |>.

Definition releaseQueued (s : Impl) (id : Z) (task : Task) : option Impl :=
  lane ← q_lanes s !! t_key task;
  if decide (id ∈ ln_queue lane) then
    let lane := lane <| ln_queue := filter (fun x => x <> id) (ln_queue lane) |> in
    let s := s <| q_counts := (q_counts s) <| c_queued ::= fun n => u64 (n - 1) |>
                                         <| c_residentBytes ::= fun n => u64 (n - t_charge task) |> |>
               <| q_tasks := delete id (q_tasks s) |> in
    Some (if negb (ln_active lane) && negb (ln_ready lane) && bool_decide (ln_queue lane = [])
          then s <| q_lanes := delete (t_key task) (q_lanes s) |>
          else s <| q_lanes := <[t_key task := lane]> (q_lanes s) |>)
  else None.

(** The first critical section of [worker()], thread [i]. *)
Definition worker_take (s : Impl) (i : nat) (now : Z) : option (Impl * list Effect) :=
  if q_stopped s then Some (s <| q_workers := <[i := WExited]> (q_workers s) |>, [])
  else match q_runnable s with
  | [] => Some (s, [])
  | key :: rest =>
      let s := s <| q_runnable := rest |> in
      match q_lanes s !! key with
      | None => Some (s, [])
      | Some lane =>
          match ln_queue lane with
          | [] =>
              Some (if ln_active lane
                    then s <| q_lanes := <[key := lane <| ln_ready := false |>]> (q_lanes s) |>
                    else s <| q_lanes := delete key (q_lanes s) |>, [])
          | id :: queue =>
              task ← q_tasks s !! id;
              let past := w_deadline (t_work task) <=? now in
              let task := task <| t_active := true |> <| t_failed ::= orb past |> in
              let s := s <| q_lanes := <[key := Build_Lane true false queue]> (q_lanes s) |>
                         <| q_tasks := <[id := task]> (q_tasks s) |>
                         <| q_counts := (q_counts s) <| c_queued ::= fun n => u64 (n - 1) |>
                                                   <| c_running ::= fun n => u64 (n + 1) |>
                                                   <| c_expired ::= fun n =>
                                                        if past then u64 (n + 1) else n |> |>
                         <| q_workers := <[i := WTaken id past]> (q_workers s) |> in
              Some (s, [ETake key id])
          end
      end
  end.

(** How [work.run()] ended. *)
Inductive RunOutcome := Returned | ThrewStd (what : string) | ThrewOther.

(** The unlocked part of [worker()]. *)
Definition worker_run (s : Impl) (i : nat) (outcome : RunOutcome) : option (Impl * list Effect) :=
  match q_workers s !! i with
  | Some (WTaken id past) =>
      Some (s <| q_workers := <[i := WFinishing id]> (q_workers s) |>,
            if past then [EFail id Deadline "total operation deadline exceeded before dispatch"]
            else ERun id :: match outcome with
                            | Returned => []
                            | ThrewStd what => [EFail id Exception what]
                            | ThrewOther => [EFail id Exception "operation failed"]
                            end)
  | _ => Some (s, [])
  end.

(** The second critical section of [worker()]. *)
Definition worker_finish (s : Impl) (i : nat) : option (Impl * list Effect) :=
  match q_workers s !! i with
  | Some (WFinishing id) =>
      task ← q_tasks s !! id;
      let s := s <| q_deadlines ::= if t_timed task then dl_erase id else fun l => l |>
                 <| q_tasks := delete id (q_tasks s) |>
                 <| q_counts := (q_counts s) <| c_running ::= fun n => u64 (n - 1) |>
                                           <| c_residentBytes ::= fun n => u64 (n - t_charge task) |>
                                           <| c_completed ::= fun n => u64 (n + 1) |> |>
                 <| q_workers := <[i := WWait]> (q_workers s) |> in
      lane ← q_lanes s !! t_key task;
      let lane := lane <| ln_active := false |> in
      Some (if decide (ln_queue lane = [])
            then s <| q_lanes := delete (t_key task) (q_lanes s) |>
            else ready s (t_key task) lane, [])
  | _ => Some (s, [])
  end.

(** One iteration of the timer's loop. *)
Definition expire (s : Impl) (now : Z) : option (Impl * list Effect) :=
  if q_stopped s then Some (s <| q_timer := false |>, [])
  else match q_deadlines s with
  | [] => Some (s, [])
  | (deadline, id) :: _ =>
      if now <? deadline then Some (s, []) else
      task ← q_tasks s !! id;
      let unlink s := s <| q_deadlines ::= dl_erase id |> in
      if t_failed task then
        Some ((unlink s) <| q_tasks := <[id := task <| t_timed := false |>]> (q_tasks s) |>, [])
      else
        let task := task <| t_failed := true |> <| t_timed := false |> in
        let s := (unlink s) <| q_tasks := <[id := task]> (q_tasks s) |>
                          <| q_counts := (q_counts s) <| c_expired ::= fun n => u64 (n + 1) |> |> in
        s ← (if t_active task then Some s else releaseQueued s id task);
        Some (s, [EFail id Deadline "total operation deadline exceeded; not retried"])
  end.

(** The first critical section of [stop()] and the rejections after it. *)
Definition stop_mark (s : Impl) : option (Impl * list Effect) :=
  if q_stopped s then Some (s, [])
  else Some (s <| q_stopped := true |>
               <| q_tasks := (fun t => t <| t_failed := true |>) <$> q_tasks s |>,
             map (fun '(id, _) => EFail id Stopped "operation queue stopped")
               (filter (fun '(_, t) => t_failed t = false) (map_to_list (q_tasks s)))).

(** The end of [stop()], after the threads have been joined. *)
Definition stop_finish (s : Impl) : option (Impl * list Effect) :=
  Some (s <| q_tasks := ∅ |> <| q_lanes := ∅ |> <| q_deadlines := [] |> <| q_runnable := [] |>
          <| q_counts := (q_counts s) <| c_queued := 0 |> <| c_running := 0 |>
                                    <| c_residentBytes := 0 |> |>, []).

Definition task_charge (w : Work) : Z := Z.max (w_bytes w) 256.

(** [submit]: the state, the returned ticket and the callback. *)
Definition submit (limits : OperationQueueLimits) (s : Impl) (work : Work) (now : Z)
    : Impl * Z * list Effect :=
  let charge := task_charge work in
  if q_stopped s then (s, 0, [EFail 0 Stopped "operation queue stopped"])
  else if w_deadline work <=? now then
    (s <| q_counts := (q_counts s) <| c_expired ::= fun n => u64 (n + 1) |> |>, 0,
     [EFail 0 Deadline "total operation deadline exceeded before dispatch"])
  else
    let queued := match q_lanes s !! w_key work with
                  | Some lane => Z.of_nat (length (ln_queue lane))
                  | None => 0
                  end in
    if (queued <? lm_queuedPerKey limits) &&
       (charge <=? u64 (lm_residentBytes limits - c_residentBytes (q_counts s))) then
      let id := u64 (q_nextId s + 1) in
      let lane := default (Build_Lane false false []) (q_lanes s !! w_key work) in
      let lane := lane <| ln_queue := ln_queue lane ++ [id] |> in
      let task := Build_Task work charge false false true in
      let resident := u64 (c_residentBytes (q_counts s) + charge) in
      let s := s <| q_nextId := id |>
                 <| q_deadlines ::= dl_emplace (w_deadline work, id) |>
                 <| q_tasks := match q_tasks s !! id with
                               | Some _ => q_tasks s
                               | None => <[id := task]> (q_tasks s)
                               end |> in
      let s := ready s (w_key work) lane in
      (s <| q_counts := (q_counts s) <| c_accepted ::= fun n => u64 (n + 1) |>
                                   <| c_queued ::= fun n => u64 (n + 1) |>
                                   <| c_residentBytes := resident |>
                                   <| c_peakBytes ::= fun n => Z.max n resident |> |>, id, [])
    else
      (s <| q_counts := (q_counts s) <| c_overloaded ::= fun n => u64 (n + 1) |> |>, 0,
       [EFail 0 Overload "operation queue overloaded"]).

Definition cancel (s : Impl) (id : Z) : option (Impl * list Effect) :=
  match q_tasks s !! id with
  | None => Some (s, [])
  | Some task =>
      if t_failed task then Some (s, [])
      else if negb (t_timed task) then None
      else
        let task := task <| t_failed := true |> <| t_timed := false |> in
        let s := s <| q_counts := (q_counts s) <| c_cancelled ::= fun n => u64 (n + 1) |> |>
                   <| q_deadlines ::= dl_erase id |>
                   <| q_tasks := <[id := task]> (q_tasks s) |> in
        s ← (if t_active task then Some s else releaseQueued s id task);
        Some (s, [EFail id Cancelled "operation cancelled; not retried"])
  end.

(** ** The threads and callers together *)

Inductive op :=
| OSubmit (work : Work) (now : Z)
| OCancel (id : Z)
| OTake (i : nat) (now : Z)
| ORun (i : nat) (outcome : RunOutcome)
| OFinish (i : nat)
| OExpire (now : Z)
| OStopMark
| OStopFinish.

(** A step is enabled when its thread stands at that point: joining waits for
    every worker and for the timer to have returned. *)
Definition enabled (s : Impl) (o : op) : Prop :=
  match o with
  | OTake i _ => q_workers s !! i = Some WWait
  | ORun i _ => exists id past, q_workers s !! i = Some (WTaken id past)
  | OFinish i => exists id, q_workers s !! i = Some (WFinishing id)
  | OExpire _ => q_timer s = true
  | OStopFinish => q_stopped s = true /\ Forall (fun w => w = WExited) (q_workers s) /\ q_timer s = false
  | _ => True
  end.

Definition exec (limits : OperationQueueLimits) (s : Impl) (o : op) : option (Impl * list Effect) :=
  match o with
  | OSubmit work now => let '(s', _, eff) := submit limits s work now in Some (s', eff)
  | OCancel id => cancel s id
  | OTake i now => worker_take s i now
  | ORun i outcome => worker_run s i outcome
  | OFinish i => worker_finish s i
  | OExpire now => expire s now
  | OStopMark => stop_mark s
  | OStopFinish => stop_finish s
  end.

(** [reach limits n s log]: some interleaving of [n] critical sections from the
    constructed queue ends in [s] with the callbacks [log] performed. *)
Inductive reach (limits : OperationQueueLimits) : nat -> Impl -> list Effect -> Prop :=
| reach_init s : Impl_new limits = Ret s -> reach limits 0 s []
| reach_step n s log o s' eff :
    reach limits n s log -> enabled s o -> exec limits s o = Some (s', eff) ->
    reach limits (S n) s' (log ++ eff).

(** Sanity: one write is admitted, dispatched, run and retired. *)
Example queue_run :
  let lim := {| lm_workers := 1; lm_queuedPerKey := 2; lm_residentBytes := 1024 |} in
  let w := {| w_key := "K"; w_bytes := 8; w_deadline := 10 |} in
  (s0 ← match Impl_new lim with Ret s => Some s | Throw _ => None end;
   '(s1, _) ← exec lim s0 (OSubmit w 0);
   '(s2, e2) ← exec lim s1 (OTake 0 1);
   '(s3, e3) ← exec lim s2 (ORun 0 Returned);
   '(s4, _) ← exec lim s3 (OFinish 0);
   Some (e2 ++ e3, c_residentBytes (q_counts s2), c_residentBytes (q_counts s4),
         bool_decide (q_tasks s4 = ∅), bool_decide (q_deadlines s4 = []))) =
  Some ([ETake "K" 1; ERun 1], 256, 0, true, true).
Proof. by vm_compute. Qed.

(** ** The structural invariant

    The lanes, the runnable tokens and the worker threads depend on the tasks
    only through their key and their [active] flag, the [shape] of the task
    map; flag changes leave the shape alone. *)

Definition holds (w : WorkerState) : option Z :=
  match w with WTaken id _ | WFinishing id => Some id | _ => None end.

Definition shape_of (t : Task) : string * bool := (t_key t, t_active t).
Definition shape (tasks : gmap Z Task) : gmap Z (string * bool) := shape_of <$> tasks.

Record lane_ok (cap : Z) (sh : gmap Z (string * bool)) (k : string) (ln : Lane) : Prop := {
  lo_ready : ln_ready ln = negb (ln_active ln);
  lo_sorted : StronglySorted Z.lt (ln_queue ln);
  lo_length : Z.of_nat (length (ln_queue ln)) <= cap;
  lo_queued : forall id, id ∈ ln_queue ln -> sh !! id = Some (k, false);
  lo_active : ln_active ln = true -> exists id, sh !! id = Some (k, true);
}.

(** An inactive task waits in its lane; an active one occupies its lane ahead
    of everything queued there and is in the hands of a worker. *)
Definition task_ok (lanes : gmap string Lane) (workers : list WorkerState)
    (id : Z) (k : string) (active : bool) : Prop :=
  exists ln, lanes !! k = Some ln /\
    if active then ln_active ln = true /\ Forall (Z.lt id) (ln_queue ln) /\
                   exists i w, workers !! i = Some w /\ holds w = Some id
    else id ∈ ln_queue ln.

Record inv_struct (cap next : Z) (sh : gmap Z (string * bool)) (lanes : gmap string Lane)
    (runnable : list string) (workers : list WorkerState) : Prop := {
  is_ids : forall id v, sh !! id = Some v -> 1 <= id <= next;
  is_lane : forall k ln, lanes !! k = Some ln -> lane_ok cap sh k ln;
  is_task : forall id k a, sh !! id = Some (k, a) -> task_ok lanes workers id k a;
  is_active_unique : forall i j k, sh !! i = Some (k, true) -> sh !! j = Some (k, true) -> i = j;
  is_worker : forall i w id, workers !! i = Some w -> holds w = Some id ->
    exists k, sh !! id = Some (k, true);
  is_worker_unique : forall i j w w' id, workers !! i = Some w -> workers !! j = Some w' ->
    holds w = Some id -> holds w' = Some id -> i = j;
  is_runnable_nodup : NoDup runnable;
  is_runnable : forall k, k ∈ runnable <-> exists ln, lanes !! k = Some ln /\ ln_ready ln = true;
}.

(** Case analysis on the lookups of updated maps and lists. *)
Ltac lookups :=
  repeat match goal with
  | H : <[_ := _]> _ !! _ = Some _ |- _ =>
      first [apply lookup_insert_Some in H as [[? ?] | [? H]]
            | apply list_lookup_insert_Some in H as [(? & ? & ?) | [? H]]]
  | H : delete _ _ !! _ = Some _ |- _ => apply lookup_delete_Some in H as [? H]
  end; simplify_eq/=.

Section Structure.
Context (cap next : Z) (sh : gmap Z (string * bool)) (lanes : gmap string Lane).
Context (runnable : list string) (workers : list WorkerState).
Hypothesis INV : inv_struct cap next sh lanes runnable workers.

Lemma holds_ne i w i' w' id :
  workers !! i = Some w -> holds w = Some id -> workers !! i' = Some w' -> holds w' = None -> i' <> i.
Proof. intros ??? ? ->. simplify_eq. Qed.

(** A worker that moves without changing the task it holds. *)
Lemma struct_worker i w w' :
  workers !! i = Some w -> holds w' = holds w ->
  inv_struct cap next sh lanes runnable (<[i := w']> workers).
Proof.
  intros Hi Hw. assert (i < length workers)%nat by (by eapply lookup_lt_Some).
  destruct INV. split; auto.
  - intros id k a Hid. destruct (is_task0 id k a Hid) as (ln & Hln & Ha).
    exists ln. split; [done|]. destruct a; [|done].
    destruct Ha as (? & ? & j & wj & Hj & Hh). split_and!; [done..|].
    destruct (decide (j = i)) as [->|].
    + exists i, w'. simplify_eq. rewrite list_lookup_insert_eq by done. by rewrite Hw.
    + exists j, wj. by rewrite list_lookup_insert_ne.
  - intros j wj id Hj Hh. lookups; [|by eauto]. rewrite Hw in Hh. eauto.
  - intros j j' wj wj' id Hj Hj' Hh Hh'. lookups; try congruence; rewrite ?Hw in *; eauto.
Qed.

Lemma struct_release id k ln :
  sh !! id = Some (k, false) -> lanes !! k = Some ln ->
  inv_struct cap next (delete id sh)
    (<[k := ln <| ln_queue := filter (fun x => x <> id) (ln_queue ln) |>]> lanes) runnable workers.
Proof.
  intros Hid Hln. destruct INV. split; auto.
  - intros ???. lookups. eauto.
  - intros k' ln' Hk'. lookups.
    + destruct (is_lane0 _ _ Hln) as [? Hs Hl Hq Ha]. split; cbn; auto.
      * by apply StronglySorted_filter.
      * pose proof (length_filter (fun x => x <> id) (ln_queue ln)). lia.
      * intros id' [??]%list_elem_of_filter. rewrite lookup_delete_ne by done. auto.
      * intros (id' & Hid')%Ha. exists id'. rewrite lookup_delete_ne; congruence.
    + destruct (is_lane0 _ _ Hk') as [? Hs Hl Hq Ha]. split; auto.
      * intros id' Hid'%Hq. rewrite lookup_delete_ne; congruence.
      * intros (id' & Hid')%Ha. exists id'. rewrite lookup_delete_ne; congruence.
  - intros id' k' a Hid'. lookups. destruct (is_task0 _ _ _ Hid') as (ln' & Hln' & Ha).
    destruct (decide (k' = k)) as [->|]; [|exists ln'; rewrite lookup_insert_ne; done].
    simplify_eq. eexists. split; [apply lookup_insert_eq|]. cbn. destruct a.
    + destruct Ha as (? & Hf & ?). split_and!; [done| |done].
      rewrite Forall_forall in *. intros x [??]%list_elem_of_filter. auto.
    + apply list_elem_of_filter. done.
  - intros ??? ??. lookups. eauto.
  - intros i w id' Hi Hh. destruct (is_worker0 _ _ _ Hi Hh) as [k' ?].
    exists k'. rewrite lookup_delete_ne; congruence.
  - intros k'. rewrite is_runnable0. destruct (decide (k' = k)) as [->|].
    + rewrite lookup_insert_eq, Hln. naive_solver.
    + by rewrite lookup_insert_ne.
Qed.

(** The lane at the head of the runnable tokens is idle. *)
Lemma struct_runnable_head k rest ln :
  runnable = k :: rest -> lanes !! k = Some ln -> ln_active ln = false /\ ln_ready ln = true.
Proof.
  intros -> Hln. destruct (proj1 (is_runnable _ _ _ _ _ _ INV k) ltac:(left)) as (ln' & Hln' & Hr).
  simplify_eq. pose proof (lo_ready _ _ _ _ (is_lane _ _ _ _ _ _ INV _ _ Hln)) as Ha.
  rewrite Hr in Ha. by destruct (ln_active ln).
Qed.

Lemma struct_idle k ln :
  lanes !! k = Some ln -> ln_active ln = false -> forall id, sh !! id <> Some (k, true).
Proof.
  intros Hln Ha id Hid. destruct (is_task _ _ _ _ _ _ INV _ _ _ Hid) as (ln' & ? & ? & ?).
  simplify_eq. congruence.
Qed.

Lemma struct_take_empty k rest ln :
  runnable = k :: rest -> lanes !! k = Some ln -> ln_queue ln = [] ->
  inv_struct cap next sh (delete k lanes) rest workers.
Proof.
  intros Hr Hln Hq. destruct (struct_runnable_head _ _ _ Hr Hln) as [Hna _].
  pose proof (struct_idle _ _ Hln Hna) as Hidle. destruct INV. subst runnable. split; auto.
  - intros k' ln' Hk'. lookups. eauto.
  - intros id k' a Hid. destruct (is_task0 _ _ _ Hid) as (ln' & Hln' & Ha).
    exists ln'. split; [|done]. rewrite lookup_delete_ne; [done|]. intros <-. simplify_eq.
    destruct a; [by eapply Hidle|]. rewrite Hq in Ha. by apply not_elem_of_nil in Ha.
  - by inversion is_runnable_nodup0.
  - inversion is_runnable_nodup0; subst. intros k'. specialize (is_runnable0 k').
    rewrite elem_of_cons in is_runnable0. destruct (decide (k' = k)) as [->|].
    + rewrite lookup_delete_eq. naive_solver.
    + rewrite lookup_delete_ne by done. naive_solver.
Qed.

Lemma struct_take k rest ln id queue i past :
  runnable = k :: rest -> lanes !! k = Some ln -> ln_queue ln = id :: queue ->
  workers !! i = Some WWait ->
  inv_struct cap next (<[id := (k, true)]> sh) (<[k := Build_Lane true false queue]> lanes) rest
    (<[i := WTaken id past]> workers).
Proof.
  intros Hr Hln Hq Hi. destruct (struct_runnable_head _ _ _ Hr Hln) as [Hna _].
  assert (i < length workers)%nat by (by eapply lookup_lt_Some).
  pose proof (struct_idle _ _ Hln Hna) as Hidle. destruct INV. subst runnable.
  destruct (is_lane0 _ _ Hln) as [_ Hs Hlen Hqs _]. rewrite Hq in *.
  inversion Hs as [|? ? Hs' Hlt]; subst. rewrite Forall_forall in Hlt.
  assert (sh !! id = Some (k, false)) as Hid by (apply Hqs; left).
  split; auto.
  - intros id' v Hid'. lookups; eauto.
  - intros k' ln' Hk'. lookups.
    + split; cbn; auto.
      * cbn in Hlen. lia.
      * intros id' Hin. pose proof (Hlt _ Hin). rewrite lookup_insert_ne by lia. apply Hqs. by right.
      * intros _. exists id. apply lookup_insert_eq.
    + destruct (is_lane0 _ _ Hk') as [? ? ? Hq' Ha']. split; auto.
      * intros id' Hin%Hq'. rewrite lookup_insert_ne; congruence.
      * intros (id' & Hid')%Ha'. exists id'. rewrite lookup_insert_ne; congruence.
  - intros id' k' a Hid'. lookups.
    + eexists. split; [apply lookup_insert_eq|]. cbn. split_and!; [done|by rewrite Forall_forall|].
      exists i, (WTaken id' past). by rewrite list_lookup_insert_eq.
    + destruct (is_task0 _ _ _ Hid') as (ln' & Hln' & Ha). destruct (decide (k' = k)) as [->|].
      * destruct a; [by destruct (Hidle id')|]. simplify_eq. eexists. split; [apply lookup_insert_eq|].
        rewrite Hq in Ha. apply elem_of_cons in Ha as [?|?]; [congruence|done].
      * exists ln'. rewrite lookup_insert_ne by done. split; [done|]. destruct a; [|done].
        destruct Ha as (? & ? & j & w & Hj & Hh). split_and!; [done..|].
        exists j, w. rewrite list_lookup_insert_ne; [done|]. intros ->. simplify_eq.
  - intros i1 i2 k' H1 H2. lookups; eauto; by edestruct Hidle.
  - intros j w id' Hj Hh. lookups.
    + exists k. apply lookup_insert_eq.
    + destruct (is_worker0 _ _ _ Hj Hh) as [k' Hk']. exists k'. rewrite lookup_insert_ne; congruence.
  - intros j1 j2 w1 w2 id' H1 H2 Hh1 Hh2. lookups; try (by eauto);
      match goal with
      | Hw : workers !! _ = Some ?w, Hh : holds ?w = Some _ |- _ =>
          destruct (is_worker0 _ _ _ Hw Hh); congruence
      end.
  - by inversion is_runnable_nodup0.
  - inversion is_runnable_nodup0; subst. intros k'. specialize (is_runnable0 k').
    rewrite elem_of_cons in is_runnable0. destruct (decide (k' = k)) as [->|].
    + rewrite lookup_insert_eq. naive_solver.
    + rewrite lookup_insert_ne by done. naive_solver.
Qed.

Lemma struct_finish i id k ln :
  workers !! i = Some (WFinishing id) -> sh !! id = Some (k, true) -> lanes !! k = Some ln ->
  let lanes' := if decide (ln_queue ln = []) then delete k lanes
                else <[k := Build_Lane false true (ln_queue ln)]> lanes in
  let runnable' := if decide (ln_queue ln = []) then runnable else runnable ++ [k] in
  inv_struct cap next (delete id sh) lanes' runnable' (<[i := WWait]> workers).
Proof.
  intros Hi Hid Hln lanes' runnable'.
  assert (forall k', k' <> k -> lanes' !! k' = lanes !! k') as Hne.
  { intros k' Hk'. unfold lanes'. case_decide; [by rewrite lookup_delete_ne|by rewrite lookup_insert_ne]. }
  assert (forall ln', lanes' !! k = Some ln' ->
            ln_queue ln <> [] /\ ln' = Build_Lane false true (ln_queue ln)) as Heq.
  { intros ln'. unfold lanes'. case_decide; [by rewrite lookup_delete_eq|].
    rewrite lookup_insert_eq. naive_solver. }
  destruct INV. destruct (is_lane0 _ _ Hln) as [Hr Hs Hlen Hqs Hact].
  assert (ln_active ln = true /\ k ∉ runnable) as [Hla Hnk].
  { destruct (is_task0 _ _ _ Hid) as (ln' & Hln' & Hla & _). simplify_eq. split; [done|].
    intros (ln2 & ? & Hr2)%is_runnable0. simplify_eq. rewrite Hla in Hr. by rewrite Hr in Hr2. }
  assert (forall id', sh !! id' = Some (k, true) -> id' = id) as Huniq by eauto.
  split.
  - intros ???. lookups. eauto.
  - intros k' ln' Hk'. destruct (decide (k' = k)) as [->|].
    + apply Heq in Hk' as [_ ->]. split; cbn; auto; [|done].
      intros id' Hin%Hqs. rewrite lookup_delete_ne; congruence.
    + rewrite Hne in Hk' by done. destruct (is_lane0 _ _ Hk') as [? ? ? Hq' Ha']. split; auto.
      * intros id' Hin%Hq'. rewrite lookup_delete_ne; congruence.
      * intros (id' & Hid')%Ha'. exists id'. rewrite lookup_delete_ne; congruence.
  - intros id' k' a Hid'. lookups. destruct (is_task0 _ _ _ Hid') as (ln' & Hln' & Ha).
    destruct (decide (k' = k)) as [->|].
    + simplify_eq. destruct a; [by destruct (Huniq id')|].
      exists (Build_Lane false true (ln_queue ln)). unfold lanes'.
      rewrite decide_False by (intros E; rewrite E in Ha; by apply not_elem_of_nil in Ha).
      by rewrite lookup_insert_eq.
    + exists ln'. rewrite Hne by done. split; [done|]. destruct a; [|done].
      destruct Ha as (? & ? & j & w & Hj & Hh). split_and!; [done..|].
      exists j, w. rewrite list_lookup_insert_ne; [done|]. intros ->. simplify_eq/=.
  - intros ??? ??. lookups. eauto.
  - intros j w id' Hj Hh. lookups. destruct (is_worker0 _ _ _ Hj Hh) as [k' Hk'].
    exists k'. rewrite lookup_delete_ne; [done|]. intros <-.
    by pose proof (is_worker_unique0 _ _ _ _ _ Hi Hj eq_refl Hh).
  - intros j1 j2 w1 w2 id' H1 H2 Hh1 Hh2. lookups; eauto.
  - unfold runnable'. case_decide; [done|]. apply NoDup_app. split_and!; [done| |apply NoDup_singleton].
    by intros k' Hk' ->%list_elem_of_singleton.
  - intros k'. unfold runnable', lanes'. destruct (decide (k' = k)) as [->|Hk']; case_decide.
    + rewrite lookup_delete_eq. split; [done|]. by intros (? & ? & ?).
    + rewrite lookup_insert_eq. split; [eauto|]. intros _. apply elem_of_app. right. left.
    + rewrite lookup_delete_ne by done. auto.
    + rewrite lookup_insert_ne by done. rewrite <-is_runnable0, elem_of_app, list_elem_of_singleton.
      tauto.
Qed.

Lemma struct_add k :
  let id := next + 1 in
  let ln := default (Build_Lane false false []) (lanes !! k) in
  Z.of_nat (length (ln_queue ln)) < cap -> 0 <= next ->
  inv_struct cap id (<[id := (k, false)]> sh)
    (<[k := Build_Lane (ln_active ln) (negb (ln_active ln)) (ln_queue ln ++ [id])]> lanes)
    (if ln_active ln || ln_ready ln then runnable else runnable ++ [k]) workers.
Proof.
  intros id ln Hlen Hnext. destruct INV.
  assert (sh !! id = None) as Hfresh.
  { destruct (sh !! id) eqn:E; [|done]. apply is_ids0 in E. lia. }
  assert (forall id' v, sh !! id' = Some v -> id' <> id) as Hne by congruence.
  assert (StronglySorted Z.lt (ln_queue ln) /\
          (forall id, id ∈ ln_queue ln -> sh !! id = Some (k, false)) /\
          (ln_active ln = true -> exists id, sh !! id = Some (k, true)) /\
          (lanes !! k = Some ln /\ ln_ready ln = negb (ln_active ln) \/
           lanes !! k = None /\ ln = Build_Lane false false [])) as (Hs & Hq & Ha & Hln).
  { unfold ln. destruct (lanes !! k) as [l|] eqn:E; cbn.
    - destruct (is_lane0 _ _ E). split_and!; auto.
    - split_and!; [constructor| |done|auto]. by intros ? ?%not_elem_of_nil. }
  split; auto.
  - intros id' v Hid'. lookups; [lia|]. apply is_ids0 in Hid'. lia.
  - intros k' ln' Hk'. lookups.
    + split; cbn; auto.
      * apply StronglySorted_snoc; [done|]. intros y Hy%Hq%is_ids0. lia.
      * rewrite length_app. cbn. lia.
      * intros id' [Hin | ->%list_elem_of_singleton]%elem_of_app; [|apply lookup_insert_eq].
        rewrite lookup_insert_ne; [auto|]. apply not_eq_sym. eauto.
      * intros (id' & Hid')%Ha. exists id'. rewrite lookup_insert_ne; [done|]. apply not_eq_sym. eauto.
    + destruct (is_lane0 _ _ Hk') as [? ? ? Hq' Ha']. split; auto.
      * intros id' Hin%Hq'. rewrite lookup_insert_ne; congruence.
      * intros (id' & Hid')%Ha'. exists id'. rewrite lookup_insert_ne; congruence.
  - intros id' k' a Hid'. lookups.
    + eexists. split; [apply lookup_insert_eq|]. cbn. apply elem_of_app. right. left.
    + destruct (is_task0 _ _ _ Hid') as (ln' & Hln' & Hw). destruct (decide (k' = k)) as [->|].
      * destruct Hln as [[? _]|[? _]]; [|congruence]. simplify_eq.
        eexists. split; [apply lookup_insert_eq|]. cbn. destruct a; [|apply elem_of_app; by left].
        destruct Hw as (? & Hf & ?). split_and!; [done| |done].
        apply Forall_app. split; [done|]. constructor; [|constructor]. apply is_ids0 in Hid'. lia.
      * exists ln'. by rewrite lookup_insert_ne.
  - intros i1 i2 k' H1 H2. lookups. eauto.
  - intros j w id' Hj Hh. destruct (is_worker0 _ _ _ Hj Hh) as [k' Hk'].
    exists k'. rewrite lookup_insert_ne; [done|]. apply not_eq_sym. eauto.
  - destruct (ln_active ln || ln_ready ln) eqn:E; [done|]. apply orb_false_iff in E as [Ea Er].
    apply NoDup_app. split_and!; [done| |apply NoDup_singleton]. rewrite Ea, Er in Hln.
    intros k' [ln' [??]]%is_runnable0 ->%list_elem_of_singleton.
    destruct Hln as [[? ?]|[? ?]]; congruence.
  - intros k'. transitivity (k' ∈ runnable \/ k' = k /\ ln_active ln = false).
    + destruct (ln_active ln) eqn:Ea, (ln_ready ln) eqn:Er; cbn; try (split; [tauto|by intros [?|[??]]]).
      * split; [tauto|]. intros [?|[-> _]]; [done|]. destruct Hln as [[? _]|[_ Hd]]; [|by rewrite Hd in Er].
        apply is_runnable0. eauto.
      * rewrite elem_of_app, list_elem_of_singleton. tauto.
    + destruct (decide (k' = k)) as [->|]; [|rewrite lookup_insert_ne, is_runnable0 by done; tauto].
      rewrite lookup_insert_eq, is_runnable0. split.
      * intros [(ln' & ? & Hr)|[_ Ha']]; [|by rewrite Ha'; eauto].
        destruct Hln as [[? Hr']|[? _]]; [|congruence]. simplify_eq. eexists. split; [done|]. by rewrite <-Hr'.
      * intros (ln' & ? & Hr). simplify_eq/=. apply negb_true_iff in Hr. auto.
Qed.
End Structure.

(** ** Deadlines, counters and flags *)

Definition timed_at (tasks : gmap Z Task) (d id : Z) : Prop :=
  exists t, tasks !! id = Some t /\ t_timed t = true /\ w_deadline (t_work t) = d.

Record inv_deadlines (tasks : gmap Z Task) (dl : list (Z * Z)) : Prop := {
  id_nodup : NoDup dl.*2;
  id_sorted : StronglySorted (fun a b => a.1 <= b.1) dl;
  id_entry : forall d id, (d, id) ∈ dl <-> timed_at tasks d id;
}.

Lemma dl_emplace_elem e x l : x ∈ dl_emplace e l <-> x = e \/ x ∈ l.
Proof.
  induction l as [|y l IH]; cbn; [by rewrite elem_of_cons|].
  destruct (y.1 <=? e.1); rewrite !elem_of_cons, ?IH; tauto.
Qed.

Lemma dl_emplace_perm e l : dl_emplace e l ≡ₚ e :: l.
Proof.
  induction l as [|y l IH]; cbn; [done|]. destruct (y.1 <=? e.1); [|done].
  rewrite IH. constructor.
Qed.

Lemma dl_emplace_sorted e l :
  StronglySorted (fun a b : Z * Z => a.1 <= b.1) l ->
  StronglySorted (fun a b : Z * Z => a.1 <= b.1) (dl_emplace e l).
Proof.
  induction 1 as [|y l Hs IH Hy]; cbn; [repeat constructor|].
  destruct (Z.leb_spec y.1 e.1).
  - constructor; [done|]. rewrite Forall_forall in *.
    intros x [-> | ?]%dl_emplace_elem; [done|auto].
  - constructor; [by constructor|]. constructor; [lia|]. eapply Forall_impl; [done|]. cbn. lia.
Qed.

Lemma dl_erase_nodup id l : NoDup l.*2 -> NoDup (dl_erase id l).*2.
Proof.
  induction l as [|[d i] l IH]; [done|]. rewrite fmap_cons. intros [Hi Hl]%NoDup_cons.
  unfold dl_erase. rewrite filter_cons. case_decide; [|by apply IH]. cbn. apply NoDup_cons.
  split; [|by apply IH]. intros ([d' i'] & -> & [_ Hin]%list_elem_of_filter)%list_elem_of_fmap.
  apply Hi, list_elem_of_fmap. by exists (d', i').
Qed.

Lemma dl_erase_elem id d id' l : (d, id') ∈ dl_erase id l <-> id' <> id /\ (d, id') ∈ l.
Proof. unfold dl_erase. by rewrite list_elem_of_filter. Qed.

(** Tasks that keep their work and their [timed] flag keep the deadlines. *)
Lemma deadlines_ext tasks tasks' dl :
  (forall id, (fun t => (t_work t, t_timed t)) <$> tasks' !! id =
              (fun t => (t_work t, t_timed t)) <$> tasks !! id) ->
  inv_deadlines tasks dl -> inv_deadlines tasks' dl.
Proof.
  intros Hext [? ? Hent]. split; [done..|]. intros d id. rewrite Hent.
  unfold timed_at. specialize (Hext id).
  destruct (tasks !! id) as [t|], (tasks' !! id) as [t'|]; simplify_eq/=; [|naive_solver].
  split; intros (? & ? & ? & ?); simplify_eq; eexists; (split; [reflexivity|]);
    split; congruence.
Qed.

(** [deadlines.erase(task->expiry)] when the task leaves or stops being timed. *)
Lemma deadlines_erase tasks tasks' dl id :
  (forall id', id' <> id -> tasks' !! id' = tasks !! id') ->
  (forall t, tasks' !! id = Some t -> t_timed t = false) ->
  inv_deadlines tasks dl -> inv_deadlines tasks' (dl_erase id dl).
Proof.
  intros Hne Hid [? ? Hent]. split; [by apply dl_erase_nodup|by apply StronglySorted_filter|].
  intros d id'. rewrite dl_erase_elem, Hent. unfold timed_at.
  destruct (decide (id' = id)) as [->|]; [|rewrite Hne by done; naive_solver].
  split; [naive_solver|]. intros (t & Ht & Htt & _). apply Hid in Ht. congruence.
Qed.

Lemma dl_erase_absent tasks dl id t :
  inv_deadlines tasks dl -> tasks !! id = Some t -> t_timed t = false -> dl_erase id dl = dl.
Proof.
  intros [_ _ Hent] Ht Htm. unfold dl_erase. apply list_filter_id.
  intros [d id'] Hin%Hent; cbn. intros ->. destruct Hin as (? & ? & ? & _). simplify_eq. congruence.
Qed.

Lemma deadlines_add tasks dl id t :
  tasks !! id = None -> t_timed t = true ->
  inv_deadlines tasks dl ->
  inv_deadlines (<[id := t]> tasks) (dl_emplace (w_deadline (t_work t), id) dl).
Proof.
  intros Hid Ht [Hnd ? Hent]. split.
  - rewrite dl_emplace_perm. cbn. constructor; [|done].
    intros ([d id'] & -> & Hin)%list_elem_of_fmap. cbn in *. apply Hent in Hin as (? & ? & _). congruence.
  - by apply dl_emplace_sorted.
  - intros d id'. rewrite dl_emplace_elem, Hent. unfold timed_at.
    destruct (decide (id' = id)) as [->|].
    + rewrite lookup_insert_eq, Hid. split.
      * intros [?|(? & ? & _)]; [|done]. simplify_eq. eauto.
      * intros (? & ? & ? & ?). left. congruence.
    + rewrite lookup_insert_ne by done. split; [intros [?|?]; [congruence|done]|by right].
Qed.

Definition is_queued (t : Task) : Z := if t_active t then 0 else 1.
Definition is_running (t : Task) : Z := if t_active t then 1 else 0.

Record inv_stats (limit : Z) (tasks : gmap Z Task) (c : OperationQueueStats) : Prop := {
  st_queued : c_queued c = msum is_queued tasks;
  st_running : c_running c = msum is_running tasks;
  st_resident : c_residentBytes c = msum t_charge tasks;
  st_peak : c_residentBytes c <= c_peakBytes c <= limit;
}.

Definition charged (tasks : gmap Z Task) : Prop :=
  forall id t, tasks !! id = Some t -> 256 <= t_charge t.

(** At 256 bytes a task at least, the counters stay far below their width. *)
Lemma stats_bounds limit tasks c :
  charged tasks -> inv_stats limit tasks c ->
  0 <= c_queued c /\ 0 <= c_running c /\ 256 * (c_queued c + c_running c) <= c_residentBytes c.
Proof.
  intros Hc []. rewrite st_queued0, st_running0, st_resident0, <-msum_add, <-msum_scale.
  split_and!.
  - apply msum_nonneg. intros. unfold is_queued. destruct (t_active v); lia.
  - apply msum_nonneg. intros. unfold is_running. destruct (t_active v); lia.
  - apply msum_le. intros k v Hk%Hc. unfold is_queued, is_running. destruct (t_active v); lia.
Qed.

Lemma stats_ext limit tasks c c' id t t' :
  tasks !! id = Some t -> t_active t' = t_active t -> t_charge t' = t_charge t ->
  c_queued c' = c_queued c -> c_running c' = c_running c ->
  c_residentBytes c' = c_residentBytes c -> c_peakBytes c' = c_peakBytes c ->
  inv_stats limit tasks c -> inv_stats limit (<[id := t']> tasks) c'.
Proof.
  intros Hid Ha Hc ? ? ? ? []. split; [..|lia]; rewrite (msum_update _ _ _ _ _ Hid);
    unfold is_queued, is_running in *; rewrite ?Ha, ?Hc; destruct (t_active t); lia.
Qed.

Record task_flags (stopped : bool) (t : Task) : Prop := {
  tf_charge : t_charge t = task_charge (t_work t);
  tf_timed : t_failed t = false -> t_timed t = true;
  tf_stopped : stopped = true -> t_failed t = true;
  tf_live : stopped = false -> t_active t = false -> t_failed t = false;
}.

Record inv_flags (stopped : bool) (tasks : gmap Z Task) (workers : list WorkerState) : Prop := {
  if_task : forall id t, tasks !! id = Some t -> task_flags stopped t;
  if_past : forall i id t, workers !! i = Some (WTaken id true) -> tasks !! id = Some t ->
    t_failed t = true;
}.

Lemma flags_charged stopped tasks workers : inv_flags stopped tasks workers -> charged tasks.
Proof. intros [Ht _] id t Hid. rewrite (tf_charge _ _ (Ht _ _ Hid)). unfold task_charge. lia. Qed.

(** The invariant of the queue after at most [n] critical sections. *)
Record inv (limits : OperationQueueLimits) (n : Z) (s : Impl) : Prop := {
  inv_s : inv_struct (lm_queuedPerKey limits) (q_nextId s) (shape (q_tasks s)) (q_lanes s)
            (q_runnable s) (q_workers s);
  inv_n : 0 <= q_nextId s <= n;
  inv_d : inv_deadlines (q_tasks s) (q_deadlines s);
  inv_c : inv_stats (lm_residentBytes limits) (q_tasks s) (q_counts s);
  inv_f : inv_flags (q_stopped s) (q_tasks s) (q_workers s);
}.

(** The limits are [size_t]s. *)
Definition limits_wf (l : OperationQueueLimits) : Prop :=
  0 <= lm_workers l < 2 ^ 64 /\ 0 <= lm_queuedPerKey l < 2 ^ 64 /\ 0 <= lm_residentBytes l < 2 ^ 64.

(** ** Every critical section is safe and preserves the invariant *)

Section Preservation.
Context (limits : OperationQueueLimits) (WF : limits_wf limits).

Lemma shape_lookup tasks id t : tasks !! id = Some t -> shape tasks !! id = Some (shape_of t).
Proof. intros H. unfold shape. by rewrite lookup_fmap, H. Qed.

Lemma shape_lookup_inv tasks id k a :
  shape tasks !! id = Some (k, a) -> exists t, tasks !! id = Some t /\ t_key t = k /\ t_active t = a.
Proof.
  unfold shape. rewrite lookup_fmap. intros (t & ? & Heq)%fmap_Some.
  injection Heq as -> ->. by exists t.
Qed.

Lemma shape_same tasks id t t' :
  tasks !! id = Some t -> t_key t' = t_key t -> t_active t' = t_active t ->
  shape (<[id := t']> tasks) = shape tasks.
Proof.
  intros Hid Hk Ha. unfold shape. rewrite fmap_insert. apply insert_id.
  rewrite lookup_fmap, Hid. cbn. unfold shape_of. by rewrite Hk, Ha.
Qed.

Lemma shape_insert tasks id t : shape (<[id := t]> tasks) = <[id := shape_of t]> (shape tasks).
Proof. apply fmap_insert. Qed.

Lemma shape_delete tasks id : shape (delete id tasks) = delete id (shape tasks).
Proof. apply fmap_delete. Qed.

Lemma inv_weaken n n' s : inv limits n s -> n <= n' -> inv limits n' s.
Proof. intros [] ?. split; auto. lia. Qed.

(** What [releaseQueued] does under the invariant: the lane is never erased
    here, because an idle lane still has its runnable token. *)
Definition released (s : Impl) (id : Z) (task : Task) (ln : Lane) : Impl :=
  s <| q_counts := (q_counts s) <| c_queued ::= fun n => u64 (n - 1) |>
                                <| c_residentBytes ::= fun n => u64 (n - t_charge task) |> |>
    <| q_tasks := delete id (q_tasks s) |>
    <| q_lanes := <[t_key task := ln <| ln_queue := filter (fun x => x <> id) (ln_queue ln) |>]>
                    (q_lanes s) |>.

Lemma releaseQueued_eq s id task :
  inv_struct (lm_queuedPerKey limits) (q_nextId s) (shape (q_tasks s)) (q_lanes s)
    (q_runnable s) (q_workers s) ->
  q_tasks s !! id = Some task -> t_active task = false ->
  exists ln, q_lanes s !! t_key task = Some ln /\
    releaseQueued s id task = Some (released s id task ln).
Proof.
  intros HS Hid Ha. pose proof (shape_lookup _ _ _ Hid) as Hsh. unfold shape_of in Hsh. rewrite Ha in Hsh.
  destruct (is_task _ _ _ _ _ _ HS _ _ _ Hsh) as (ln & Hln & Hin). exists ln. split; [done|].
  unfold releaseQueued, released. rewrite Hln. cbn. rewrite decide_True by done.
  rewrite (lo_ready _ _ _ _ (is_lane _ _ _ _ _ _ HS _ _ Hln)). cbn.
  by destruct (ln_active ln).
Qed.

(** Removing a task from the counters. *)
Lemma stats_delete lim tasks c c' id t :
  charged tasks -> lim < 2 ^ 64 -> tasks !! id = Some t ->
  inv_stats lim tasks c ->
  c_queued c' = (if t_active t then c_queued c else u64 (c_queued c - 1)) ->
  c_running c' = (if t_active t then u64 (c_running c - 1) else c_running c) ->
  c_residentBytes c' = u64 (c_residentBytes c - t_charge t) -> c_peakBytes c' = c_peakBytes c ->
  inv_stats lim (delete id tasks) c'.
Proof.
  intros Hc Hlim Hid Hst Hq Hr Hb Hp. pose proof (stats_bounds _ _ _ Hc Hst) as Hbd.
  assert (forall f, (forall id t, tasks !! id = Some t -> 0 <= f t) -> f t <= msum f tasks) as Hle.
  { intros f Hf. by apply (msum_lookup_le f tasks id). }
  destruct Hst as [Hq0 Hr0 Hb0 Hp0].
  assert (t_charge t <= c_residentBytes c).
  { rewrite Hb0. apply Hle. intros i v Hi%Hc. lia. }
  assert (is_queued t <= c_queued c).
  { rewrite Hq0. apply Hle. intros i v _. unfold is_queued. by destruct (t_active v). }
  assert (is_running t <= c_running c).
  { rewrite Hr0. apply Hle. intros i v _. unfold is_running. by destruct (t_active v). }
  pose proof (Hc _ _ Hid). unfold is_queued, is_running in *.
  split; rewrite ?(msum_delete _ _ _ _ Hid); unfold is_queued, is_running in *;
    destruct (t_active t); rewrite ?Hq, ?Hr, ?Hb, ?Hp, ?u64_id in *; lia.
Qed.

Lemma flags_insert stopped tasks workers id t' :
  inv_flags stopped tasks workers -> task_flags stopped t' ->
  (forall t, tasks !! id = Some t -> t_failed t = true -> t_failed t' = true) ->
  (tasks !! id = None -> forall i, workers !! i <> Some (WTaken id true)) ->
  inv_flags stopped (<[id := t']> tasks) workers.
Proof.
  intros [Ht Hp] Hf Hmono Hfresh. split.
  - intros i t Hi. lookups; eauto.
  - intros i j t Hi Hj. lookups; [|by eauto].
    destruct (tasks !! j) as [t0|] eqn:E; [|by destruct (Hfresh eq_refl i)].
    apply (Hmono t0); eauto.
Qed.

Lemma flags_delete stopped tasks workers id :
  inv_flags stopped tasks workers -> inv_flags stopped (delete id tasks) workers.
Proof. intros [Ht Hp]. split; intros; lookups; eauto. Qed.

(** Marking a live task failed and untimed, then releasing it when it is still
    queued: the common part of [cancel] and [expire]. *)
Lemma fail_task n s id task counts :
  inv limits n s -> q_tasks s !! id = Some task -> t_failed task = false ->
  c_queued counts = c_queued (q_counts s) -> c_running counts = c_running (q_counts s) ->
  c_residentBytes counts = c_residentBytes (q_counts s) ->
  c_peakBytes counts = c_peakBytes (q_counts s) ->
  let task' := task <| t_failed := true |> <| t_timed := false |> in
  let s1 := s <| q_counts := counts |> <| q_deadlines ::= dl_erase id |>
              <| q_tasks := <[id := task']> (q_tasks s) |> in
  exists s', (if t_active task then Some s1 else releaseQueued s1 id task') = Some s' /\
    inv limits n s' /\ q_stopped s' = q_stopped s /\ q_nextId s' = q_nextId s /\
    q_workers s' = q_workers s /\
    q_tasks s' = (if t_active task then <[id := task']> (q_tasks s) else delete id (q_tasks s)).
Proof.
  intros [HS Hn Hd Hc Hf] Hid Hnf Hq Hr Hb Hp task' s1.
  pose proof (flags_charged _ _ _ Hf) as Hch. destruct WF as (_ & _ & Hlim).
  pose proof (if_task _ _ _ Hf _ _ Hid) as [Hcharge _ Hstop Hlive].
  assert (shape (q_tasks s1) = shape (q_tasks s)) as Hsh by (by eapply shape_same).
  destruct (t_active task) eqn:Ha.
  - exists s1. split_and!; try done. split; cbn; [|done| | |].
    + rewrite <-Hsh in HS. exact HS.
    + eapply deadlines_erase; [| |done].
      * intros. by rewrite lookup_insert_ne.
      * intros t. rewrite lookup_insert_eq. by intros [= <-].
    + eapply stats_ext; eauto.
    + apply flags_insert; [done| |by intros|congruence]. split; cbn; auto; congruence.
  - destruct (releaseQueued_eq s1 id task') as (ln & Hln & ->).
    { rewrite <-Hsh in HS. exact HS. }
    { apply lookup_insert_eq. }
    { done. }
    cbn in Hln. eexists. split; [done|]. cbn. rewrite delete_insert_eq.
    split_and!; try done. split; cbn; rewrite ?delete_insert_eq; [|done| | |by apply flags_delete].
    + rewrite shape_delete. apply struct_release; [done| |done].
      rewrite (shape_lookup _ _ _ Hid). unfold shape_of. by rewrite Ha.
    + eapply deadlines_erase; [| |done].
      * intros. by rewrite lookup_delete_ne.
      * intros t. by rewrite lookup_delete_eq.
    + eapply stats_delete; [done|by destruct Hlim|done|done|..]; cbn; rewrite ?Ha; congruence.
Qed.

Lemma cancel_inv n s id :
  inv limits n s -> exists s' eff, cancel s id = Some (s', eff) /\ inv limits n s'.
Proof.
  intros HI. unfold cancel. destruct (q_tasks s !! id) as [task|] eqn:Hid; [|by eauto].
  destruct (t_failed task) eqn:Hnf; [by eauto|].
  rewrite (tf_timed _ _ (if_task _ _ _ (inv_f _ _ _ HI) _ _ Hid) Hnf). cbn [negb].
  destruct (fail_task n s id task
    ((q_counts s) <| c_cancelled ::= fun n => u64 (n + 1) |>) HI Hid Hnf) as (s' & Hs' & HI' & _);
    try done.
  eexists s', _. split; [|done]. cbn in *. by rewrite Hs'.
Qed.

Lemma expire_inv n s now :
  inv limits n s -> exists s' eff, expire s now = Some (s', eff) /\ inv limits n s'.
Proof.
  intros HI. unfold expire. destruct (q_stopped s) eqn:Hst.
  { eexists _, _. split; [done|]. destruct HI. split; cbn; auto. }
  destruct (q_deadlines s) as [|[d id] dl] eqn:Hdl; [by eauto|].
  destruct (now <? d); [by eauto|].
  destruct (proj1 (id_entry _ _ (inv_d _ _ _ HI) d id)) as (task & Hid & Htm & _).
  { rewrite Hdl. left. }
  rewrite Hid. cbn [mbind option_bind]. destruct (t_failed task) eqn:Hnf.
  - eexists _, _. split; [done|]. destruct HI as [HS Hn Hd Hc Hf].
    pose proof (if_task _ _ _ Hf _ _ Hid) as [Hcharge _ Hstop Hlive].
    split; cbn; [|done| | |].
    + rewrite (shape_same _ _ _ _ Hid) by done. done.
    + eapply deadlines_erase; [| |exact Hd].
      * intros. by rewrite lookup_insert_ne.
      * intros t. rewrite lookup_insert_eq. by intros [= <-].
    + eapply stats_ext; eauto.
    + apply flags_insert; [done| |by intros; cbn|congruence]. split; cbn; auto; congruence.
  - destruct (fail_task n s id task
      ((q_counts s) <| c_expired ::= fun n => u64 (n + 1) |>) HI Hid Hnf) as (s' & Hs' & HI' & _);
      try done.
    eexists s', _. split; [|done]. cbn -[dl_erase] in *. by rewrite Hs'.
Qed.

Lemma worker_run_inv n s i outcome :
  inv limits n s -> exists s' eff, worker_run s i outcome = Some (s', eff) /\ inv limits n s'.
Proof.
  intros HI. unfold worker_run.
  destruct (q_workers s !! i) as [[| id past | |]|] eqn:Hi; try (by eauto).
  eexists _, _. split; [done|]. destruct HI as [HS Hn Hd Hc Hf]. split; cbn; auto.
  - by eapply struct_worker.
  - destruct Hf as [Ht Hp]. split; [done|]. intros j id' t Hj. lookups. eauto.
Qed.

Lemma worker_take_inv n s i now :
  inv limits n s -> q_workers s !! i = Some WWait ->
  exists s' eff, worker_take s i now = Some (s', eff) /\ inv limits n s'.
Proof.
  intros HI Hi. unfold worker_take. destruct HI as [HS Hn Hd Hc Hf].
  destruct (q_stopped s) eqn:Hst.
  { eexists _, _. split; [done|]. split; cbn; auto; [by eapply struct_worker|].
    rewrite Hst in *. destruct Hf as [Ht Hp]. split; [done|]. intros j id t Hj. lookups. eauto. }
  destruct (q_runnable s) as [|k rest] eqn:Hr; [eexists _, _; split; [done|]; by split; rewrite ?Hr, ?Hst|].
  destruct (proj1 (is_runnable _ _ _ _ _ _ HS k) ltac:(left)) as (ln & Hln & _).
  cbn. rewrite Hln. pose proof (struct_runnable_head _ _ _ _ _ _ HS _ _ _ eq_refl Hln) as [Hna _].
  destruct (ln_queue ln) as [|id queue] eqn:Hq.
  { rewrite Hna. eexists _, _. split; [done|]. split; cbn; auto; [|by rewrite Hst].
    by eapply struct_take_empty. }
  pose proof (lo_queued _ _ _ _ (is_lane _ _ _ _ _ _ HS _ _ Hln) id) as Hid. rewrite Hq in Hid.
  specialize (Hid ltac:(left)). destruct (shape_lookup_inv _ _ _ _ Hid) as (task & Ht & Hk & Ha).
  rewrite Ht. cbn. eexists _, _. split; [done|].
  pose proof (flags_charged _ _ _ Hf) as Hch. destruct WF as (_ & _ & Hlim).
  pose proof (if_task _ _ _ Hf _ _ Ht) as [Hcharge Htm _ Hlive].
  specialize (Hlive eq_refl Ha).
  split; cbn; [|done| | |].
  - rewrite shape_insert. unfold shape_of. cbn. unfold t_key in *. cbn. rewrite Hk.
    by eapply struct_take.
  - eapply deadlines_ext; [|exact Hd]. intros id'. destruct (decide (id' = id)) as [->|].
    + by rewrite lookup_insert_eq, Ht.
    + by rewrite lookup_insert_ne.
  - pose proof (stats_bounds _ _ _ Hch Hc) as Hbd. destruct Hc as [Hcq Hcr Hcb Hcp].
    assert (1 <= c_queued (q_counts s)).
    { rewrite Hcq. trans (is_queued task); [unfold is_queued; rewrite Ha; lia|].
      eapply msum_lookup_le; [|done]. intros ? v _. unfold is_queued. by destruct (t_active v). }
    split; cbn; rewrite ?(msum_update _ _ _ _ _ Ht), ?u64_id; cbn;
      unfold is_queued, is_running in *; cbn; rewrite ?Ha; lia.
  - rewrite Hst. destruct Hf as [Hft Hfp]. split.
    + intros id' t' Hid'. lookups; [|by eauto]. split; cbn; [done| |done..].
      intros [_ ?]%orb_false_iff. auto.
    + intros j id' t' Hj Hid'. lookups; try done.
      * by destruct (w_deadline (t_work task) <=? now).
      * destruct (is_worker _ _ _ _ _ _ HS _ _ _ Hj eq_refl) as [? ?]. congruence.
      * eauto.
Qed.

(** [ready] on the lane a finishing worker leaves, or that [submit] extends. *)
Lemma ready_eq s k ln :
  ln_queue ln <> [] ->
  ready s k ln =
  s <| q_runnable := if ln_active ln || ln_ready ln then q_runnable s else q_runnable s ++ [k] |>
    <| q_lanes := <[k := if ln_active ln || ln_ready ln then ln else ln <| ln_ready := true |>]>
                    (q_lanes s) |>.
Proof.
  intros Hq. unfold ready. rewrite bool_decide_eq_false_2 by done.
  by destruct ln as [[] [] q], s.
Qed.

Lemma worker_finish_inv n s i :
  inv limits n s -> exists s' eff, worker_finish s i = Some (s', eff) /\ inv limits n s'.
Proof.
  intros HI. unfold worker_finish.
  destruct (q_workers s !! i) as [[| | id |]|] eqn:Hi; try (by eauto).
  destruct HI as [HS Hn Hd Hc Hf].
  destruct (is_worker _ _ _ _ _ _ HS _ _ _ Hi eq_refl) as [k Hid].
  destruct (shape_lookup_inv _ _ _ _ Hid) as (task & Ht & Hk & Ha).
  destruct (is_task _ _ _ _ _ _ HS _ _ _ Hid) as (ln & Hln & Hla & _).
  rewrite Ht. cbn. rewrite Hk, Hln. cbn.
  pose proof (struct_finish _ _ _ _ _ _ HS _ _ _ _ Hi Hid Hln) as HS'. cbn in HS'.
  assert (inv_deadlines (delete id (q_tasks s))
    ((if t_timed task then dl_erase id else fun l => l) (q_deadlines s))) as Hd'.
  { replace ((if t_timed task then dl_erase id else fun l => l) (q_deadlines s))
      with (dl_erase id (q_deadlines s)).
    - eapply deadlines_erase; [| |exact Hd].
      + intros. by rewrite lookup_delete_ne.
      + intros t. by rewrite lookup_delete_eq.
    - destruct (t_timed task) eqn:E; [done|]. by eapply dl_erase_absent. }
  assert (inv_flags (q_stopped s) (delete id (q_tasks s)) (<[i := WWait]> (q_workers s))) as Hf'.
  { apply flags_delete. destruct Hf as [Hft Hfp]. split; [done|].
    intros j id' t' Hj. lookups. eauto. }
  assert (ln_ready ln = false) as Hlr.
  { by rewrite (lo_ready _ _ _ _ (is_lane _ _ _ _ _ _ HS _ _ Hln)), Hla. }
  pose proof (flags_charged _ _ _ Hf) as Hch. destruct WF as (_ & _ & Hlim).
  eexists _, _. split; [done|]. case_decide as Hq.
  - split; cbn; [by rewrite shape_delete|done|done| |done].
    eapply stats_delete; [done|by destruct Hlim|done|done|..]; cbn; rewrite ?Ha; done.
  - rewrite ready_eq by done. cbn. rewrite Hlr. split; cbn; [by rewrite shape_delete|done|done| |done].
    eapply stats_delete; [done|by destruct Hlim|done|done|..]; cbn; rewrite ?Ha; done.
Qed.

Lemma submit_inv n s work now :
  inv limits n s -> n + 1 < 2 ^ 64 ->
  let '(s', _, _) := submit limits s work now in inv limits (n + 1) s'.
Proof.
  intros HI Hn64. pose proof (inv_weaken _ (n + 1) _ HI ltac:(lia)) as HI1. unfold submit.
  assert (forall c, c_queued c = c_queued (q_counts s) -> c_running c = c_running (q_counts s) ->
    c_residentBytes c = c_residentBytes (q_counts s) -> c_peakBytes c = c_peakBytes (q_counts s) ->
    inv limits (n + 1) (s <| q_counts := c |>)) as Hcount.
  { intros c ????. destruct HI1 as [? ? ? [] ?]. split; cbn; auto. split; congruence || lia. }
  destruct (q_stopped s) eqn:Hst; [done|].
  destruct (w_deadline work <=? now); [by apply Hcount|].
  set (ln := default (Build_Lane false false []) (q_lanes s !! w_key work)).
  replace (match q_lanes s !! w_key work with Some lane => Z.of_nat (length (ln_queue lane))
           | None => 0 end) with (Z.of_nat (length (ln_queue ln)))
    by (unfold ln; by destruct (q_lanes s !! w_key work)).
  destruct (_ && _) eqn:Hadmit; [|by apply Hcount]. bool_split.
  destruct HI as [HS Hn Hd Hc Hf].
  pose proof (flags_charged _ _ _ Hf) as Hch. destruct WF as (_ & _ & Hlim).
  pose proof (stats_bounds _ _ _ Hch Hc) as Hbd.
  assert (256 <= task_charge work) by (unfold task_charge; lia).
  rewrite !(u64_id (q_nextId s + 1)) by lia.
  pose proof (struct_add _ _ _ _ _ _ HS (w_key work) ltac:(done) ltac:(lia)) as HS'.
  cbn zeta in HS'. fold ln in HS'.
  assert (q_tasks s !! (q_nextId s + 1) = None) as Hfresh.
  { destruct (q_tasks s !! (q_nextId s + 1)) eqn:E; [|done].
    apply shape_lookup, (is_ids _ _ _ _ _ _ HS) in E. lia. }
  rewrite ready_eq by (cbn; destruct (ln_queue ln); done).
  rewrite Hfresh. destruct Hc as [Hcq Hcr Hcb Hcp].
  assert (ln_ready ln = negb (ln_active ln) \/ ln_active ln = false /\ ln_ready ln = false) as Hlr.
  { unfold ln. destruct (q_lanes s !! w_key work) eqn:E; cbn; [left|by right].
    by apply (lo_ready _ _ _ _ (is_lane _ _ _ _ _ _ HS _ _ E)). }
  rewrite u64_id in * by lia.
  split; cbn; [|lia| | |].
  - rewrite shape_insert. unfold shape_of, t_key. cbn. revert HS'.
    destruct (ln_active ln) eqn:Ea, (ln_ready ln) eqn:Er; cbn in *; try done; destruct ln; cbn in *;
      subst; naive_solver.
  - by apply (deadlines_add (q_tasks s) (q_deadlines s) (q_nextId s + 1)
      (Build_Task work (task_charge work) false false true)).
  - split; cbn; rewrite ?(msum_insert _ _ _ _ Hfresh), ?u64_id; cbn; lia.
  - apply flags_insert; [done| |congruence|].
    + split; cbn; [done|done|congruence|done].
    + intros _ i Hi. destruct (is_worker _ _ _ _ _ _ HS _ _ _ Hi eq_refl) as [? Hw].
      apply (is_ids _ _ _ _ _ _ HS) in Hw. lia.
Qed.

Lemma stop_mark_inv n s :
  inv limits n s -> exists s' eff, stop_mark s = Some (s', eff) /\ inv limits n s'.
Proof.
  intros HI. unfold stop_mark. destruct (q_stopped s) eqn:Hst; [by eauto|].
  eexists _, _. split; [done|]. destruct HI as [HS Hn Hd [] Hf].
  split; cbn; [|done| | |].
  - replace (shape _) with (shape (q_tasks s)); [done|].
    unfold shape. rewrite <-map_fmap_compose. by apply map_fmap_ext.
  - eapply deadlines_ext; [|exact Hd]. intros id. rewrite lookup_fmap. by destruct (q_tasks s !! id).
  - split; rewrite ?msum_fmap; done.
  - destruct Hf as [Hft Hfp]. split.
    + intros id t. rewrite lookup_fmap. intros (t0 & Ht0 & ->)%fmap_Some.
      destruct (Hft _ _ Ht0). split; cbn; auto; done.
    + intros i id t _. rewrite lookup_fmap. by intros (t0 & Ht0 & ->)%fmap_Some.
Qed.

Lemma stop_finish_inv n s :
  inv limits n s -> enabled s OStopFinish ->
  exists s' eff, stop_finish s = Some (s', eff) /\ inv limits n s'.
Proof.
  intros HI (Hst & Hex & _). eexists _, _. split; [done|]. destruct HI as [HS Hn Hd [] Hf].
  assert (forall i w, q_workers s !! i = Some w -> w = WExited) as Hw.
  { intros i w Hi. rewrite Forall_lookup in Hex. eauto. }
  pose proof (msum_nonneg t_charge (q_tasks s)) as Hnn.
  split; cbn; [|done| | |].
  - split; try (by intros; simplify_map_eq).
    + by intros i w id ->%Hw.
    + by intros i j w w' id ->%Hw.
    + constructor.
    + intros k. rewrite lookup_empty. split; [by intros ?%not_elem_of_nil|by intros (? & ? & _)].
  - split; [constructor..|]. intros d id. split; [by intros ?%not_elem_of_nil|].
    by intros (t & ? & _); simplify_map_eq.
  - split; cbn; rewrite ?msum_empty; try done. split; [|lia].
    rewrite st_resident0 in st_peak0. etrans; [apply Hnn|apply st_peak0].
    intros id t Ht%(flags_charged _ _ _ Hf). lia.
  - split; [by intros; simplify_map_eq|]. by intros i id t ?%Hw.
Qed.

Lemma init_inv s : Impl_new limits = Ret s -> inv limits 0 s.
Proof.
  unfold Impl_new. destruct (_ || _) eqn:E; [done|]. intros [= <-]. bool_split.
  assert (forall i w, replicate (Z.to_nat (lm_workers limits)) WWait !! i = Some w -> w = WWait) as Hw.
  { by intros i w [-> _]%lookup_replicate. }
  split; cbn; [|done| | |].
  - split; try (by intros; simplify_map_eq).
    + by intros i w id ->%Hw.
    + by intros i j w w' id ->%Hw.
    + constructor.
    + intros k. rewrite lookup_empty. split; [by intros ?%not_elem_of_nil|by intros (? & ? & _)].
  - split; [constructor..|]. intros d id. split; [by intros ?%not_elem_of_nil|].
    by intros (t & ? & _); simplify_map_eq.
  - split; cbn; rewrite ?msum_empty; try done. destruct WF as (_ & _ & ?). lia.
  - split; [by intros; simplify_map_eq|]. by intros i id t ?%Hw.
Qed.

Lemma exec_inv n s o :
  inv limits n s -> n + 1 < 2 ^ 64 -> enabled s o ->
  exists s' eff, exec limits s o = Some (s', eff) /\ inv limits (n + 1) s'.
Proof.
  intros HI Hn Hen.
  assert ((exists s' eff, exec limits s o = Some (s', eff) /\ inv limits n s') ->
          exists s' eff, exec limits s o = Some (s', eff) /\ inv limits (n + 1) s') as Hw.
  { intros (s' & eff & ? & HI'). exists s', eff. split; [done|].
    eapply inv_weaken; [done|lia]. }
  destruct o; cbn in *.
  - pose proof (submit_inv n s work now HI Hn) as Hs. destruct (submit limits s work now) as [[s' ?] eff].
    eauto.
  - by apply Hw, cancel_inv.
  - by apply Hw, worker_take_inv.
  - by apply Hw, worker_run_inv.
  - by apply Hw, worker_finish_inv.
  - by apply Hw, expire_inv.
  - by apply Hw, stop_mark_inv.
  - by apply Hw, stop_finish_inv.
Qed.

Lemma reach_inv n s log : reach limits n s log -> Z.of_nat n < 2 ^ 64 -> inv limits (Z.of_nat n) s.
Proof.
  induction 1 as [s Hs|n s log o s' eff Hr IH Hen He]; intros Hn; [by apply init_inv|].
  destruct (exec_inv (Z.of_nat n) s o (IH ltac:(lia)) ltac:(lia) Hen) as (s'' & eff' & He' & HI).
  simplify_eq. replace (Z.of_nat (S n)) with (Z.of_nat n + 1) by lia. done.
Qed.
End Preservation.
