(* ===== verification/OperationQueueSpec.v ===== *)
(** * What the operation queue promises

    An abstract queue without lanes, runnable tokens, deadlines or byte counters:
    a set of accepted operations, each with its key and its two flags, and the
    workers.  [exec_refines] shows that every critical section of
    src/operation_queue.cpp is one step of it with the same callbacks; the
    ordering and exactly-once guarantees are proved on the abstract queue and
    hold of the code through that refinement. *)

From S2P Require Import Prelude OperationQueue.

Local Open Scope Z_scope.

(** ** The abstract queue *)

Record atask := { a_key : string; a_active : bool; a_failed : bool }.
Record AQ := {
  aq_stopped : bool; aq_next : Z; aq_tasks : gmap Z atask; aq_workers : list WorkerState;
}.

(** The operation may be dispatched: nothing accepted earlier on its key
    remains and none of its key is running. *)
Definition a_oldest (tasks : gmap Z atask) (id : Z) (t : atask) : Prop :=
  forall id' t', tasks !! id' = Some t' -> a_key t' = a_key t -> a_active t' = false /\ id <= id'.

Inductive astep : AQ -> list Effect -> AQ -> Prop :=
| A_idle a : astep a [] a
| A_reject a reason text : reason <> Exception -> astep a [EFail 0 reason text] a
| A_accept stopped next tasks workers key :
    stopped = false ->
    astep (Build_AQ stopped next tasks workers) []
      (Build_AQ stopped (next + 1) (<[next + 1 := Build_atask key false false]> tasks) workers)
| A_fail stopped next tasks workers id t reason text :
    tasks !! id = Some t -> a_failed t = false -> reason = Deadline \/ reason = Cancelled ->
    astep (Build_AQ stopped next tasks workers) [EFail id reason text]
      (Build_AQ stopped next
         (if a_active t then <[id := Build_atask (a_key t) true true]> tasks else delete id tasks)
         workers)
| A_exit stopped next tasks workers i :
    stopped = true -> workers !! i = Some WWait ->
    astep (Build_AQ stopped next tasks workers) []
      (Build_AQ stopped next tasks (<[i := WExited]> workers))
| A_take stopped next tasks workers i id t past :
    stopped = false -> workers !! i = Some WWait -> tasks !! id = Some t ->
    a_active t = false -> a_failed t = false -> a_oldest tasks id t ->
    astep (Build_AQ stopped next tasks workers) [ETake (a_key t) id]
      (Build_AQ stopped next (<[id := Build_atask (a_key t) true past]> tasks)
         (<[i := WTaken id past]> workers))
| A_run stopped next tasks workers i id threw :
    workers !! i = Some (WTaken id false) ->
    astep (Build_AQ stopped next tasks workers)
      (ERun id :: match threw with None => [] | Some text => [EFail id Exception text] end)
      (Build_AQ stopped next tasks (<[i := WFinishing id]> workers))
| A_late stopped next tasks workers i id text :
    workers !! i = Some (WTaken id true) ->
    astep (Build_AQ stopped next tasks workers) [EFail id Deadline text]
      (Build_AQ stopped next tasks (<[i := WFinishing id]> workers))
| A_finish stopped next tasks workers i id :
    workers !! i = Some (WFinishing id) ->
    astep (Build_AQ stopped next tasks workers) []
      (Build_AQ stopped next (delete id tasks) (<[i := WWait]> workers))
| A_stop next tasks workers live :
    live ≡ₚ filter (fun '(_, t) => a_failed t = false) (map_to_list tasks) ->
    astep (Build_AQ false next tasks workers)
      (map (fun '(id, _) => EFail id Stopped "operation queue stopped") live)
      (Build_AQ true next ((fun t => Build_atask (a_key t) (a_active t) true) <$> tasks) workers)
| A_clear next tasks workers :
    Forall (fun w => w = WExited) workers ->
    astep (Build_AQ true next tasks workers) [] (Build_AQ true next ∅ workers).

(** ** Refinement *)

Definition abs_task (t : Task) : atask := Build_atask (t_key t) (t_active t) (t_failed t).
Definition abs (s : Impl) : AQ :=
  Build_AQ (q_stopped s) (q_nextId s) (abs_task <$> q_tasks s) (q_workers s).

Lemma astep_eq a eff a1 a2 : astep a eff a1 -> a1 = a2 -> astep a eff a2.
Proof. by intros ? <-. Qed.

Lemma abs_lookup s id t : q_tasks s !! id = Some t -> (abs_task <$> q_tasks s) !! id = Some (abs_task t).
Proof. intros H. by rewrite lookup_fmap, H. Qed.

Lemma abs_insert_same s id t t' :
  q_tasks s !! id = Some t -> abs_task t' = abs_task t ->
  abs_task <$> <[id := t']> (q_tasks s) = abs_task <$> q_tasks s.
Proof.
  intros Hid Heq. rewrite fmap_insert, Heq. apply insert_id. by apply abs_lookup.
Qed.

Section Refinement.
Context (limits : OperationQueueLimits) (WF : limits_wf limits).

Lemma fail_refines n s id task counts reason text :
  inv limits n s -> q_tasks s !! id = Some task -> t_failed task = false ->
  c_queued counts = c_queued (q_counts s) -> c_running counts = c_running (q_counts s) ->
  c_residentBytes counts = c_residentBytes (q_counts s) ->
  c_peakBytes counts = c_peakBytes (q_counts s) -> reason = Deadline \/ reason = Cancelled ->
  let task' := task <| t_failed := true |> <| t_timed := false |> in
  let s1 := s <| q_counts := counts |> <| q_deadlines ::= dl_erase id |>
              <| q_tasks := <[id := task']> (q_tasks s) |> in
  exists s', (if t_active task then Some s1 else releaseQueued s1 id task') = Some s' /\
    astep (abs s) [EFail id reason text] (abs s').
Proof.
  intros HI Hid Hnf Hq Hr Hb Hp Hre task' s1.
  destruct (fail_task limits WF n s id task counts HI Hid Hnf Hq Hr Hb Hp)
    as (s' & Hs' & _ & H1 & H2 & H3 & H4).
  exists s'. split; [done|]. eapply astep_eq; [eapply (A_fail _ _ _ _ id); [by apply abs_lookup|done..]|].
  unfold abs. rewrite H1, H2, H3, H4. f_equal. cbn. destruct (t_active task) eqn:E.
  - by rewrite fmap_insert; unfold abs_task; cbn; rewrite ?E.
  - by rewrite fmap_delete.
Qed.

Lemma cancel_refines n s id s' eff :
  inv limits n s -> cancel s id = Some (s', eff) -> astep (abs s) eff (abs s').
Proof.
  intros HI. unfold cancel. destruct (q_tasks s !! id) as [task|] eqn:Hid.
  2: { intros [= <- <-]. constructor. }
  destruct (t_failed task) eqn:Hnf; [intros [= <- <-]; constructor|].
  destruct (t_timed task); [cbn [negb]|done].
  destruct (fail_refines n s id task ((q_counts s) <| c_cancelled ::= fun n => u64 (n + 1) |>)
    Cancelled "operation cancelled; not retried" HI Hid Hnf) as (s1 & Hs1 & Hstep); auto.
  cbn -[dl_erase] in *. rewrite Hs1. cbn. by intros [= <- <-].
Qed.

Lemma expire_refines n s now s' eff :
  inv limits n s -> expire s now = Some (s', eff) -> astep (abs s) eff (abs s').
Proof.
  intros HI. unfold expire. destruct (q_stopped s) eqn:Hst; [intros [= <- <-]; constructor|].
  destruct (q_deadlines s) as [|[d id] dl] eqn:Hdl; [intros [= <- <-]; constructor|].
  destruct (now <? d); [intros [= <- <-]; constructor|].
  destruct (q_tasks s !! id) as [task|] eqn:Hid; [|done]. cbn [mbind option_bind].
  destruct (t_failed task) eqn:Hnf.
  - intros [= <- <-]. unfold abs. cbn. eapply astep_eq; [apply A_idle|]. f_equal.
    symmetry. by eapply abs_insert_same.
  - destruct (fail_refines n s id task ((q_counts s) <| c_expired ::= fun n => u64 (n + 1) |>)
      Deadline "total operation deadline exceeded; not retried" HI Hid Hnf) as (s1 & Hs1 & Hstep); auto.
    cbn -[dl_erase] in *. rewrite Hs1. cbn. by intros [= <- <-].
Qed.

(** The head of a runnable lane's queue is the oldest operation of its key. *)
Lemma head_oldest n s key ln id queue :
  inv limits n s -> q_lanes s !! key = Some ln -> ln_active ln = false -> ln_queue ln = id :: queue ->
  forall id' t', q_tasks s !! id' = Some t' -> t_key t' = key -> t_active t' = false /\ id <= id'.
Proof.
  intros [HS _ _ _ _] Hln Hna Hq id' t' Ht' <-. pose proof (shape_lookup _ _ _ Ht') as Hsh.
  destruct (is_task _ _ _ _ _ _ HS _ _ _ Hsh) as (ln' & ? & Ha). simplify_eq.
  destruct (t_active t'); [destruct Ha; congruence|]. split; [done|].
  pose proof (lo_sorted _ _ _ _ (is_lane _ _ _ _ _ _ HS _ _ Hln)) as Hs. rewrite Hq in Hs, Ha.
  inversion Hs as [|? ? _ Hlt]; subst. apply elem_of_cons in Ha as [->|Ha]; [lia|].
  rewrite Forall_forall in Hlt. apply Hlt in Ha. lia.
Qed.

Lemma worker_take_refines n s i now s' eff :
  inv limits n s -> q_workers s !! i = Some WWait -> worker_take s i now = Some (s', eff) ->
  astep (abs s) eff (abs s').
Proof.
  intros HI Hi. unfold worker_take. destruct (q_stopped s) eqn:Hst.
  { intros [= <- <-]. unfold abs. cbn. by apply A_exit. }
  destruct (q_runnable s) as [|key rest] eqn:Hr; [intros [= <- <-]; constructor|]. cbn.
  destruct (q_lanes s !! key) as [ln|] eqn:Hln; [|intros [= <- <-]; constructor].
  destruct (ln_queue ln) as [|id queue] eqn:Hq.
  { intros [= <- <-]. destruct (ln_active ln); constructor. }
  destruct (q_tasks s !! id) as [task|] eqn:Hid; [|done]. cbn. intros [= <- <-].
  pose proof (inv_s _ _ _ HI) as HS.
  destruct (struct_runnable_head _ _ _ _ _ _ HS _ _ _ Hr Hln) as [Hna _].
  pose proof (lo_queued _ _ _ _ (is_lane _ _ _ _ _ _ HS _ _ Hln) id) as Hsh. rewrite Hq in Hsh.
  specialize (Hsh ltac:(left)). rewrite (shape_lookup _ _ _ Hid) in Hsh.
  unfold shape_of in Hsh. injection Hsh as Hkey Ha.
  destruct (if_task _ _ _ (inv_f _ _ _ HI) _ _ Hid) as [_ _ _ Hlive]. specialize (Hlive Hst Ha).
  unfold abs. cbn. rewrite <-Hkey. eapply astep_eq.
  - eapply (A_take _ _ _ _ i id (abs_task task) (w_deadline (t_work task) <=? now));
      [done|done|by apply abs_lookup|done|done|].
    intros id' t'. rewrite lookup_fmap. intros (t0 & Ht0 & ->)%fmap_Some Hk. cbn in Hk.
    eapply (head_oldest n s key ln); eauto. by rewrite Hk, Hkey.
  - f_equal. rewrite fmap_insert. unfold abs_task. cbn. by rewrite Hlive, orb_false_r.
Qed.

Lemma exec_astep n s o s' eff :
  inv limits n s -> n + 1 < 2 ^ 64 -> enabled s o -> exec limits s o = Some (s', eff) ->
  astep (abs s) eff (abs s').
Proof.
  intros HI Hn Hen. destruct o; cbn [exec enabled] in *.
  - intros He. unfold submit in He.
    destruct (q_stopped s) eqn:Hst; [simplify_eq; by constructor|].
    destruct (w_deadline work <=? now); [simplify_eq; by constructor|].
    destruct (_ && _); [|simplify_eq; by constructor].
    rewrite ready_eq in He by (cbn; destruct (ln_queue (default _ _)); done).
    pose proof (inv_s _ _ _ HI) as HS. pose proof (inv_n _ _ _ HI).
    rewrite !(u64_id (q_nextId s + 1)) in He by lia.
    assert (q_tasks s !! (q_nextId s + 1) = None) as Hfresh.
    { destruct (q_tasks s !! (q_nextId s + 1)) eqn:E; [|done].
      apply shape_lookup, (is_ids _ _ _ _ _ _ HS) in E. lia. }
    rewrite Hfresh in He. injection He as <- <-. unfold abs. cbn. rewrite fmap_insert. by apply A_accept.
  - by apply (cancel_refines n).
  - by apply (worker_take_refines n).
  - destruct Hen as (id & past & Hi). unfold worker_run. rewrite Hi. intros [= <- <-]. unfold abs. cbn.
    destruct past; [by apply A_late|].
    destruct outcome as [|what|];
      [by apply (A_run _ _ _ _ i id None)|by apply (A_run _ _ _ _ i id (Some what))|].
    by apply (A_run _ _ _ _ i id (Some "operation failed")).
  - destruct Hen as (id & Hi). unfold worker_finish. rewrite Hi. intros He.
    destruct (q_tasks s !! id) as [task|] eqn:Hid; [|done]. cbn in He.
    destruct (q_lanes s !! t_key task) as [ln|]; [|done]. cbn in He. injection He as <- <-.
    case_decide; rewrite ?ready_eq by done; unfold abs; cbn; rewrite fmap_delete; by apply A_finish.
  - by apply (expire_refines n).
  - unfold stop_mark. destruct (q_stopped s) eqn:Hst; [intros [= <- <-]; constructor|].
    intros [= <- <-]. unfold abs. cbn. rewrite Hst. eapply astep_eq.
    + replace (map _ _) with (map (fun '(id, _) => EFail id Stopped "operation queue stopped")
        (prod_map id abs_task <$> filter (fun '(_, t) => t_failed t = false) (map_to_list (q_tasks s)))).
      * apply A_stop. rewrite map_to_list_fmap. generalize (map_to_list (q_tasks s)).
        intros l. induction l as [|[k t] l IH]; [done|]. rewrite fmap_cons, !filter_cons. cbn.
        destruct (t_failed t); cbn; [done|by constructor].
      * generalize (filter (fun '(_, t) => t_failed t = false) (map_to_list (q_tasks s))).
        intros l. induction l as [|[k t] l IH]; cbn; congruence.
    + cbn. f_equal. rewrite <-!map_fmap_compose. by apply map_fmap_ext.
  - destruct Hen as (Hst & Hex & _). intros [= <- <-]. unfold abs. cbn. rewrite Hst, fmap_empty.
    by apply A_clear.
Qed.
End Refinement.

(** ** What the callbacks of a run may look like *)

(** The dispatches of a key, the operations run, and the operations the queue
    itself failed (an exception of the operation's own body is not one). *)
Definition takes (key : string) (log : list Effect) : list Z :=
  omap (fun e => match e with
                 | ETake k id => if decide (k = key) then Some id else None
                 | _ => None
                 end) log.
Definition runs (log : list Effect) : list Z :=
  omap (fun e => match e with ERun id => Some id | _ => None end) log.
Definition fails (log : list Effect) : list Z :=
  omap (fun e => match e with
                 | EFail id reason _ =>
                     if decide (reason = Exception \/ id = 0) then None else Some id
                 | _ => None
                 end) log.
Definition answered (log : list Effect) (id : Z) : Prop :=
  ERun id ∈ log \/ exists reason text, EFail id reason text ∈ log.

Record ainv (a : AQ) : Prop := {
  ai_ids : forall id t, aq_tasks a !! id = Some t -> 1 <= id <= aq_next a;
  ai_worker : forall i w id, aq_workers a !! i = Some w -> holds w = Some id ->
    exists t, aq_tasks a !! id = Some t /\ a_active t = true;
  ai_unique : forall i j w w' id, aq_workers a !! i = Some w -> aq_workers a !! j = Some w' ->
    holds w = Some id -> holds w' = Some id -> i = j;
  ai_past : forall i id t, aq_workers a !! i = Some (WTaken id true) -> aq_tasks a !! id = Some t ->
    a_failed t = true;
  ai_stopped : forall id t, aq_stopped a = true -> aq_tasks a !! id = Some t -> a_failed t = true;
}.

Lemma inv_ainv limits n s : inv limits n s -> ainv (abs s).
Proof.
  intros [HS Hn _ _ Hf]. split; cbn.
  - intros id t. rewrite lookup_fmap. intros (t0 & Ht0 & ->)%fmap_Some.
    by eapply (is_ids _ _ _ _ _ _ HS), shape_lookup.
  - intros i w id Hi Hh. destruct (is_worker _ _ _ _ _ _ HS _ _ _ Hi Hh) as [k Hk].
    destruct (shape_lookup_inv _ _ _ _ Hk) as (t & Ht & _ & ?). exists (abs_task t).
    by rewrite lookup_fmap, Ht.
  - apply HS.
  - intros i id t Hi. rewrite lookup_fmap. intros (t0 & Ht0 & ->)%fmap_Some.
    by eapply (if_past _ _ _ Hf).
  - intros id t Hst. rewrite lookup_fmap. intros (t0 & Ht0 & ->)%fmap_Some.
    by apply (tf_stopped _ _ (if_task _ _ _ Hf _ _ Ht0)).
Qed.

Lemma answered_app log eff id : answered log id -> answered (log ++ eff) id.
Proof.
  intros [H|(r & x & H)]; [left|right; exists r, x]; apply elem_of_app; by left.
Qed.

Lemma answered_fail log id reason text : answered (log ++ [EFail id reason text]) id.
Proof. right. exists reason, text. apply elem_of_app. right. left. Qed.

Lemma takes_app k log eff : takes k (log ++ eff) = takes k log ++ takes k eff.
Proof. apply omap_app. Qed.
Lemma runs_app log eff : runs (log ++ eff) = runs log ++ runs eff.
Proof. apply omap_app. Qed.
Lemma fails_app log eff : fails (log ++ eff) = fails log ++ fails eff.
Proof. apply omap_app. Qed.

(** *** Dispatch order *)

Record log_order (a : AQ) (log : list Effect) : Prop := {
  lo_le : forall k id, id ∈ takes k log -> id <= aq_next a;
  lo_ahead : forall k id id' t, id ∈ takes k log -> aq_tasks a !! id' = Some t -> a_key t = k ->
    a_active t = false -> id < id';
  lo_increasing : forall k, StronglySorted Z.lt (takes k log);
}.

Lemma takes_other k eff : (forall k id, ETake k id ∉ eff) -> takes k eff = [].
Proof.
  induction eff as [|e eff IH]; intros Hno; [done|]. cbn. destruct e; try (apply IH; set_solver).
  exfalso. apply (Hno key id). left.
Qed.

(** A step that dispatches nothing and adds only newer operations. *)
Lemma log_order_mono a a' log eff :
  log_order a log -> aq_next a <= aq_next a' ->
  (forall id t, aq_tasks a' !! id = Some t -> a_active t = false ->
     aq_next a < id \/ exists t0, aq_tasks a !! id = Some t0 /\ a_key t0 = a_key t /\ a_active t0 = false) ->
  (forall k id, ETake k id ∉ eff) -> log_order a' (log ++ eff).
Proof.
  intros [Hle Hah Hinc] Hn Htasks Hno. split; intros k *; rewrite takes_app, (takes_other k eff Hno), app_nil_r.
  - intros ?%Hle. lia.
  - intros Hin Ht Hk Ha. pose proof (Hle _ _ Hin). destruct (Htasks _ _ Ht Ha) as [?|(t0 & ? & ? & ?)]; [lia|].
    eapply Hah; eauto. congruence.
  - apply Hinc.
Qed.

Lemma log_order_step a eff a' log :
  ainv a -> astep a eff a' -> log_order a log -> log_order a' (log ++ eff).
Proof.
  intros HA Hstep HL. destruct Hstep;
    try (apply (log_order_mono _ _ _ _ HL); cbn; [lia| |set_solver];
         intros id' t' Ht' Ha'; cbn in *; lookups; eauto; fail).
  - apply (log_order_mono _ _ _ _ HL); cbn; [lia| |set_solver]. intros id' t' Ht' Ha'.
    lookups; [left; lia|eauto].
  - apply (log_order_mono _ _ _ _ HL); cbn; [lia| |set_solver]. intros id' t' Ht' Ha'.
    right. destruct (a_active t); lookups; eauto.
  - destruct HL as [Hle Hah Hinc]. cbn in *. split; intros k *; rewrite takes_app; cbn; case_decide; subst.
    + intros [?%Hle | ->%list_elem_of_singleton]%elem_of_app; [done|]. by apply HA in H1 as [??].
    + rewrite app_nil_r. apply Hle.
    + intros Hin Ht Hk Ha. lookups. destruct (H4 _ _ Ht Hk) as [_ ?].
      apply elem_of_app in Hin as [? | ->%list_elem_of_singleton]; [by eapply Hah|lia].
    + rewrite app_nil_r. intros Hin Ht Hk Ha. lookups. by eapply Hah.
    + apply StronglySorted_snoc; [done|]. intros y Hy. by eapply Hah.
    + rewrite app_nil_r. apply Hinc.
  - apply (log_order_mono _ _ _ _ HL); cbn; [lia| |by destruct threw; set_solver]. eauto.
  - apply (log_order_mono _ _ _ _ HL); cbn; [lia| |].
    + intros id' t'. rewrite lookup_fmap. intros (t0 & ? & ->)%fmap_Some Ha. eauto.
    + intros k id Hin. apply list_elem_of_fmap in Hin as ([??] & ? & _). done.
Qed.

(** *** An operation runs at most once *)

Record log_runs (a : AQ) (log : list Effect) : Prop := {
  lr_nodup : NoDup (runs log);
  lr_done : forall id, id ∈ runs log ->
    id <= aq_next a /\ (forall i past, aq_workers a !! i <> Some (WTaken id past)) /\
    (forall t, aq_tasks a !! id = Some t -> a_active t = true);
}.

Lemma log_runs_mono a a' log eff :
  log_runs a log -> runs eff = [] -> aq_next a <= aq_next a' ->
  (forall id i past, id ∈ runs log -> aq_workers a' !! i = Some (WTaken id past) ->
     aq_workers a !! i = Some (WTaken id past)) ->
  (forall id t, id ∈ runs log -> aq_tasks a' !! id = Some t ->
     a_active t = true \/ exists t0, aq_tasks a !! id = Some t0 /\ a_active t0 = a_active t) ->
  log_runs a' (log ++ eff).
Proof.
  intros [Hnd Hdone] He Hn Hw Ht. split; rewrite runs_app, He, app_nil_r; [done|].
  intros id Hid. destruct (Hdone _ Hid) as (? & Hno & Hact). split_and!; [lia| |].
  - intros i past Hi. by apply (Hno i past), Hw.
  - intros t Hid'. destruct (Ht _ _ Hid Hid') as [?|(t0 & ? & <-)]; eauto.
Qed.

Lemma log_runs_step a eff a' log :
  ainv a -> astep a eff a' -> log_runs a log -> log_runs a' (log ++ eff).
Proof.
  intros HA Hstep HL. pose proof HL as [Hnd Hdone]. destruct Hstep; cbn in Hdone;
    try (apply (log_runs_mono _ _ _ _ HL); cbn; [done|lia| |];
         [intros; lookups; eauto|intros; lookups; eauto]; fail).
  - apply (log_runs_mono _ _ _ _ HL); cbn; [done|lia|eauto|]. intros id t Hid Ht. lookups; [|eauto].
    destruct (Hdone _ Hid). lia.
  - apply (log_runs_mono _ _ _ _ HL); cbn; [done|lia|eauto|].
    intros id' t' Hid' Ht'. destruct (a_active t); lookups; eauto.
  - apply (log_runs_mono _ _ _ _ HL); cbn; [done|lia| |].
    + intros id' j past' Hid' Hj. lookups; [|done].
      destruct (Hdone _ Hid') as (_ & _ & Hact). apply Hact in H1. congruence.
    + intros id' t' Hid' Ht'. lookups; eauto.
  - assert (id ∉ runs log) as Hnew.
    { intros Hid. destruct (Hdone _ Hid) as (_ & Hno & _). by eapply Hno. }
    assert (runs (log ++ ERun id :: match threw with Some text => [EFail id Exception text] | None => [] end)
            = runs log ++ [id]) as Heq by (rewrite runs_app; by destruct threw).
    destruct (ai_worker _ HA _ _ _ H eq_refl) as (t & Ht & Hact). cbn in Ht.
    split; rewrite Heq.
    + apply NoDup_app. split_and!; [done| |apply NoDup_singleton].
      by intros ? ? ->%list_elem_of_singleton.
    + cbn. intros id' [Hid' | ->%list_elem_of_singleton]%elem_of_app.
      * destruct (Hdone _ Hid') as (? & Hno & ?). split_and!; [done| |done].
        intros j past Hj. lookups. by eapply Hno.
      * split_and!; [by apply HA in Ht as [??]| |intros; congruence].
        intros j past Hj. lookups. by pose proof (ai_unique _ HA _ _ _ _ _ H Hj eq_refl eq_refl).
  - apply (log_runs_mono _ _ _ _ HL); cbn; [|lia|eauto|].
    + clear H. induction live as [|[??] ? IH]; cbn; [done|apply IH].
    + intros id t _. rewrite lookup_fmap. intros (t0 & ? & ->)%fmap_Some. eauto.
Qed.

(** *** The queue fails an operation at most once *)

Record log_fails (a : AQ) (log : list Effect) : Prop := {
  lf_nodup : NoDup (fails log);
  lf_done : forall id, id ∈ fails log ->
    id <= aq_next a /\ (forall i, aq_workers a !! i <> Some (WTaken id true)) /\
    (forall t, aq_tasks a !! id = Some t -> a_failed t = true);
}.

(** Earlier failures stay settled when the step keeps or fails the operations
    it touches, and the new ones are of operations that had not failed. *)
Lemma log_fails_mono a a' log eff :
  log_fails a log -> aq_next a <= aq_next a' -> NoDup (fails eff) ->
  (forall id i, id ∈ fails log -> aq_workers a' !! i = Some (WTaken id true) ->
     aq_workers a !! i = Some (WTaken id true)) ->
  (forall id t, id ∈ fails log -> aq_tasks a' !! id = Some t ->
     a_failed t = true \/ exists t0, aq_tasks a !! id = Some t0 /\ a_failed t0 = a_failed t) ->
  (forall id, id ∈ fails eff -> (id ∉ fails log) /\ id <= aq_next a /\
     (forall i, aq_workers a' !! i <> Some (WTaken id true)) /\
     (forall t, aq_tasks a' !! id = Some t -> a_failed t = true)) ->
  log_fails a' (log ++ eff).
Proof.
  intros [Hnd Hdone] Hn Hnde Hw Ht Hnew. split; rewrite fails_app.
  - apply NoDup_app. split_and!; [done| |done]. intros id Hid Hid'. by apply Hnew in Hid' as [? _].
  - intros id [Hid | Hid]%elem_of_app.
    + destruct (Hdone _ Hid) as (? & Hno & Hact). split_and!; [lia| |].
      * intros i Hi. by apply (Hno i), Hw.
      * intros t Hid'. destruct (Ht _ _ Hid Hid') as [?|(t0 & ? & <-)]; eauto.
    + destruct (Hnew _ Hid) as (_ & ? & ? & ?). split_and!; [lia|done|done].
Qed.

Lemma fails_one id reason text id' :
  id' ∈ fails [EFail id reason text] -> id' = id.
Proof.
  cbn. case_decide; [by intros ?%not_elem_of_nil|]. by intros ?%list_elem_of_singleton.
Qed.

Lemma fails_one_nodup id reason text : NoDup (fails [EFail id reason text]).
Proof. cbn. case_decide; [constructor|apply NoDup_singleton]. Qed.

Lemma fails_live live :
  NoDup (live.*1) ->
  NoDup (fails (map (fun '(id, _) => EFail id Stopped "operation queue stopped") live)) /\
  forall id, id ∈ fails (map (fun '(id, _) => EFail id Stopped "operation queue stopped")
                           (live : list (Z * atask))) -> id ∈ live.*1.
Proof.
  induction live as [|[id t] live IH]; cbn.
  { intros _. split; [constructor|]. by intros ? ?%not_elem_of_nil. }
  intros [Hid Hnd]%NoDup_cons. destruct (IH Hnd) as [Hnd' Hin]. case_decide.
  - split; [done|]. intros id' ?. right. auto.
  - split; [|set_solver]. constructor; [|done]. eauto.
Qed.

Lemma log_fails_step a eff a' log :
  ainv a -> astep a eff a' -> log_fails a log -> log_fails a' (log ++ eff).
Proof.
  intros HA Hstep HL. pose proof HL as [Hnd Hdone]. destruct Hstep; cbn in Hdone;
    try (apply (log_fails_mono _ _ _ _ HL); cbn; [lia|constructor| | |by intros ? ?%not_elem_of_nil];
         [intros; lookups; eauto|intros; lookups; eauto]; fail).
  - apply (log_fails_mono _ _ _ _ HL); [lia|apply fails_one_nodup|eauto|eauto|].
    cbn. rewrite decide_True by auto. by intros ? ?%not_elem_of_nil.
  - apply (log_fails_mono _ _ _ _ HL); cbn; [lia|constructor|eauto| |by intros ? ?%not_elem_of_nil].
    intros id t Hid Ht. lookups; [|eauto]. destruct (Hdone _ Hid). lia.
  - apply (log_fails_mono _ _ _ _ HL); [cbn; lia|apply fails_one_nodup|eauto| |].
    + cbn. intros id' t' _ Ht'. destruct (a_active t); lookups; eauto.
    + intros id' ->%fails_one. cbn. split_and!.
      * intros Hid. destruct (Hdone _ Hid) as (_ & _ & Hf). apply Hf in H. congruence.
      * by apply HA in H as [??].
      * intros i Hi. pose proof (ai_past _ HA _ _ _ Hi H). congruence.
      * intros t' Ht'. destruct (a_active t); by lookups.
  - apply (log_fails_mono _ _ _ _ HL); cbn; [lia|constructor| | |by intros ? ?%not_elem_of_nil].
    + intros id' j Hid' Hj. lookups; [|done].
      destruct (Hdone _ Hid') as (_ & _ & Hf). apply Hf in H1. congruence.
    + intros id' t' Hid' Ht'. lookups; [|eauto].
      destruct (Hdone _ Hid') as (_ & _ & Hf). apply Hf in H1. congruence.
  - apply (log_fails_mono _ _ _ _ HL); cbn; [lia| | |eauto|].
    + destruct threw; constructor.
    + intros. by lookups.
    + destruct threw; by intros ? ?%not_elem_of_nil.
  - destruct (ai_worker _ HA _ _ _ H eq_refl) as (t & Ht & Hact). cbn in Ht.
    apply (log_fails_mono _ _ _ _ HL); [cbn; lia|apply fails_one_nodup| |eauto|].
    + cbn. intros. by lookups.
    + intros id' ->%fails_one. cbn. split_and!.
      * intros Hid. destruct (Hdone _ Hid) as (_ & Hno & _). by eapply Hno.
      * by apply HA in Ht as [??].
      * intros j Hj. lookups. by pose proof (ai_unique _ HA _ _ _ _ _ H Hj eq_refl eq_refl).
      * intros t' Ht'. simplify_eq. by eapply (ai_past _ HA).
  - assert (NoDup live.*1) as Hlive.
    { rewrite H. eapply sublist_NoDup; [apply (NoDup_fst_map_to_list tasks)|]. apply sublist_fmap_filter. }
    destruct (fails_live live Hlive) as [Hnd' Hin].
    apply (log_fails_mono _ _ _ _ HL); cbn; [lia|done|eauto| |].
    + intros id t _. rewrite lookup_fmap. intros (t0 & ? & ->)%fmap_Some. auto.
    + intros id Hid%Hin. apply list_elem_of_fmap in Hid as ([id' t] & -> & Hid). rewrite H in Hid.
      apply list_elem_of_filter in Hid as [Hf Ht%elem_of_map_to_list]. cbn in *. split_and!.
      * intros Hid. destruct (Hdone _ Hid) as (_ & _ & Hf'). apply Hf' in Ht. congruence.
      * by apply HA in Ht as [??].
      * intros i Hi. pose proof (ai_past _ HA _ _ _ Hi Ht). congruence.
      * intros t'. rewrite lookup_fmap. by intros (t0 & ? & ->)%fmap_Some.
Qed.

(** *** No accepted operation is forgotten *)

Definition pending (a : AQ) (id : Z) : Prop :=
  exists t, aq_tasks a !! id = Some t /\
    (a_failed t = false \/ exists i, aq_workers a !! i = Some (WTaken id true)).

Record log_answers (a : AQ) (log : list Effect) : Prop := {
  la_all : forall id, 1 <= id <= aq_next a -> answered log id \/ pending a id;
  la_finishing : forall i id, aq_workers a !! i = Some (WFinishing id) -> answered log id;
}.

Lemma log_answers_mono a a' log eff :
  log_answers a log -> aq_next a' = aq_next a ->
  (forall id, pending a id -> answered (log ++ eff) id \/ pending a' id) ->
  (forall i id, aq_workers a' !! i = Some (WFinishing id) ->
     aq_workers a !! i = Some (WFinishing id) \/ answered (log ++ eff) id) ->
  log_answers a' (log ++ eff).
Proof.
  intros [Hall Hfin] Hn Hp Hw. split.
  - intros id Hid. rewrite Hn in Hid. destruct (Hall _ Hid); [left; by apply answered_app|auto].
  - intros i id Hi. destruct (Hw _ _ Hi); [eapply answered_app|]; eauto.
Qed.

Lemma answered_threw log id threw :
  answered (log ++ ERun id :: match threw with Some text => [EFail id Exception text] | None => [] end) id.
Proof. left. apply elem_of_app. right. left. Qed.

Lemma answered_live log id t live :
  (id, t) ∈ live ->
  answered (log ++ map (fun '(id, _) => EFail id Stopped "operation queue stopped")
                     (live : list (Z * atask))) id.
Proof.
  intros Hin. right. eexists _, _. apply elem_of_app. right.
  apply (list_elem_of_fmap_2 (fun '(id, _) => EFail id Stopped "operation queue stopped")) in Hin. done.
Qed.

(** A worker that waited or exited is not holding a late operation. *)
Lemma pending_workers stopped stopped' next next' tasks workers i w w' id :
  workers !! i = Some w -> (forall id, w <> WTaken id true) ->
  pending (Build_AQ stopped next tasks workers) id ->
  pending (Build_AQ stopped' next' tasks (<[i := w']> workers)) id.
Proof.
  intros Hi Hw (t & Ht & Hp). exists t. split; [done|]. destruct Hp as [?|[j Hj]]; [by left|right].
  exists j. cbn in *. rewrite list_lookup_insert_ne; [done|]. intros ->. simplify_eq. by eapply Hw.
Qed.

Lemma log_answers_step a eff a' log :
  ainv a -> astep a eff a' -> log_answers a log -> log_answers a' (log ++ eff).
Proof.
  intros HA Hstep HL. destruct Hstep;
    try (apply (log_answers_mono _ _ _ _ HL); cbn; [done|by right|by left]; fail).
  - destruct HL as [Hall Hfin]. rewrite app_nil_r. split; cbn in *; [|done]. intros id' Hid'.
    destruct (decide (id' = next + 1)) as [->|].
    + right. eexists. cbn. rewrite lookup_insert_eq. split; [done|]. by left.
    + destruct (Hall id' ltac:(lia)) as [?|(t & Ht & Hp)]; [by left|right].
      exists t. cbn. by rewrite lookup_insert_ne.
  - apply (log_answers_mono _ _ _ _ HL); cbn; [done| |by left]. intros id' (t' & Ht' & Hp).
    cbn in *. destruct (decide (id' = id)) as [->|]; [left; apply answered_fail|right].
    exists t'. cbn. split; [|done]. destruct (a_active t); by rewrite ?lookup_insert_ne, ?lookup_delete_ne.
  - apply (log_answers_mono _ _ _ _ HL); cbn; [done| |].
    + intros id' Hp. right. by eapply pending_workers.
    + intros j id' Hj. lookups. by left.
  - apply (log_answers_mono _ _ _ _ HL); cbn; [done| |].
    + intros id' Hp. right. apply (pending_workers _ stopped _ next _ _ i WWait (WTaken id past)) in Hp;
        [|done|done]. destruct Hp as (t' & Ht' & Hp). destruct (decide (id' = id)) as [->|].
      * eexists. cbn. rewrite lookup_insert_eq. split; [done|]. destruct past; [right|by left].
        exists i. apply list_lookup_insert_eq. by eapply lookup_lt_Some.
      * exists t'. cbn in *. by rewrite lookup_insert_ne.
    + intros j id' Hj. lookups. by left.
  - apply (log_answers_mono _ _ _ _ HL); cbn; [done| |].
    + intros id' Hp. right. by eapply pending_workers.
    + intros j id' Hj. lookups; [right; apply answered_threw|by left].
  - apply (log_answers_mono _ _ _ _ HL); cbn; [done| |].
    + intros id' (t' & Ht' & Hp). destruct (decide (id' = id)) as [->|]; [left; apply answered_fail|right].
      exists t'. cbn in *. split; [done|]. destruct Hp as [?|[j Hj]]; [by left|right; exists j].
      rewrite list_lookup_insert_ne; [done|]. congruence.
    + intros j id' Hj. lookups; [right; apply answered_fail|by left].
  - apply (log_answers_mono _ _ _ _ HL); cbn; [done| |].
    + intros id' Hp. destruct (decide (id' = id)) as [->|].
      * left. apply answered_app. by eapply (la_finishing _ _ HL).
      * right. apply (pending_workers _ stopped _ next _ _ i (WFinishing id) WWait) in Hp; [|done|done].
        destruct Hp as (t' & Ht' & Hp). exists t'. cbn in *. by rewrite lookup_delete_ne.
    + intros j id' Hj. lookups. by left.
  - apply (log_answers_mono _ _ _ _ HL); cbn; [done| |by left].
    intros id' (t' & Ht' & Hp). cbn in *. destruct (a_failed t') eqn:Hf.
    + destruct Hp as [?|Hp]; [done|]. right. eexists. cbn. rewrite lookup_fmap, Ht'. split; [done|].
      by right.
    + left. apply (answered_live _ _ t'). rewrite H. apply list_elem_of_filter. split; [done|].
      by apply elem_of_map_to_list.
  - apply (log_answers_mono _ _ _ _ HL); cbn; [done| |by left].
    intros id' (t' & Ht' & Hp). exfalso. cbn in *.
    pose proof (ai_stopped _ HA id' t' eq_refl Ht') as Hf. destruct Hp as [?|[i Hi]]; [congruence|].
    rewrite Forall_lookup in H. apply H in Hi. done.
Qed.

(** ** All of it along a run *)

Lemma abs_init limits s :
  Impl_new limits = Ret s ->
  log_order (abs s) [] /\ log_runs (abs s) [] /\ log_fails (abs s) [] /\ log_answers (abs s) [].
Proof.
  unfold Impl_new. destruct (_ || _); [done|]. intros [= <-]. unfold abs. cbn.
  assert (forall i id, replicate (Z.to_nat (lm_workers limits)) WWait !! i <> Some (WFinishing id)) as Hw.
  { by intros i id [? _]%lookup_replicate. }
  split_and!; split; cbn; try (by constructor); try (by intros; exfalso; eapply not_elem_of_nil).
  - intros ??. lia.
  - by intros i id ?%Hw.
Qed.

Lemma reach_log limits n s log :
  limits_wf limits -> reach limits n s log -> Z.of_nat n < 2 ^ 64 ->
  log_order (abs s) log /\ log_runs (abs s) log /\ log_fails (abs s) log /\ log_answers (abs s) log.
Proof.
  intros WF. induction 1 as [s Hs|n s log o s' eff Hr IH Hen He]; intros Hn; [by eapply abs_init|].
  pose proof (reach_inv limits WF _ _ _ Hr ltac:(lia)) as HI.
  pose proof (inv_ainv _ _ _ HI) as HA.
  pose proof (exec_astep limits WF _ _ _ _ _ HI ltac:(lia) Hen He) as Hstep.
  destruct IH as (? & ? & ? & ?); [lia|].
  split_and!; [eapply log_order_step|eapply log_runs_step|eapply log_fails_step|eapply log_answers_step]; eauto.
Qed.

(** ** Executable interleavings *)

Definition enabledb (s : Impl) (o : op) : bool :=
  match o with
  | OTake i _ => bool_decide (q_workers s !! i = Some WWait)
  | ORun i _ => match q_workers s !! i with Some (WTaken _ _) => true | _ => false end
  | OFinish i => match q_workers s !! i with Some (WFinishing _) => true | _ => false end
  | OExpire _ => q_timer s
  | OStopFinish => q_stopped s && forallb (fun w => bool_decide (w = WExited)) (q_workers s) &&
                   negb (q_timer s)
  | _ => true
  end.

Lemma enabledb_enabled s o : enabledb s o = true <-> enabled s o.
Proof.
  destruct o; cbn; try done.
  - by rewrite bool_decide_eq_true.
  - destruct (q_workers s !! i) as [[]|]; naive_solver.
  - destruct (q_workers s !! i) as [[]|]; naive_solver.
  - rewrite !andb_true_iff, negb_true_iff, forallb_forall, Forall_forall.
    setoid_rewrite list_elem_of_In. setoid_rewrite bool_decide_eq_true. tauto.
Qed.

Fixpoint schedule (limits : OperationQueueLimits) (s : Impl) (ops : list op)
    : option (Impl * list Effect) :=
  match ops with
  | [] => Some (s, [])
  | o :: ops =>
      if enabledb s o then
        '(s1, e1) ← exec limits s o;
        '(s2, e2) ← schedule limits s1 ops;
        Some (s2, e1 ++ e2)
      else None
  end.

Lemma schedule_reach limits n s log ops s' eff :
  reach limits n s log -> schedule limits s ops = Some (s', eff) ->
  reach limits (length ops + n) s' (log ++ eff).
Proof.
  revert n s log eff. induction ops as [|o ops IH]; intros n s log eff Hr; cbn.
  { intros [= <- <-]. by rewrite app_nil_r. }
  destruct (enabledb s o) eqn:Hen; [|done]. apply enabledb_enabled in Hen.
  destruct (exec limits s o) as [[s1 e1]|] eqn:He; [|done]. cbn.
  destruct (schedule limits s1 ops) as [[s2 e2]|] eqn:Hs; [|done]. cbn. intros [= <- <-].
  rewrite app_assoc. replace (S (length ops + n)) with (length ops + S n)%nat by lia.
  eapply IH; [|done]. by econstructor.
Qed.

Lemma schedule_reach_init limits n s ops r :
  Impl_new limits = Ret s -> schedule limits s ops = Some r -> length ops = n ->
  reach limits n r.1 r.2.
Proof.
  destruct r as [s' eff]. intros Hs Hr <-.
  pose proof (schedule_reach limits 0 s [] ops s' eff (reach_init _ _ Hs) Hr) as H.
  by rewrite Nat.add_0_r in H.
Qed.

(** ** Progress *)

(** Work left for the workers: every operation costs its dispatch, its run and
    its retirement, every runnable token its consumption. *)
Definition weight (w : WorkerState) : Z :=
  match w with WTaken _ _ => 3 | WFinishing _ => 2 | _ => 0 end.
Definition wsum (ws : list WorkerState) : Z := foldr (fun w acc => weight w + acc) 0 ws.
Definition work_left (s : Impl) : Z :=
  4 * c_queued (q_counts s) + wsum (q_workers s) + Z.of_nat (length (q_runnable s)).

Lemma wsum_cons w ws : wsum (w :: ws) = weight w + wsum ws.
Proof. done. Qed.

Lemma wsum_nonneg ws : 0 <= wsum ws.
Proof.
  induction ws as [|w ws IH]; [done|]. rewrite wsum_cons. destruct w; cbn [weight]; lia.
Qed.

Lemma wsum_insert ws i w w' :
  ws !! i = Some w -> wsum (<[i := w']> ws) = wsum ws - weight w + weight w'.
Proof.
  revert i. induction ws as [|x ws IH]; intros [|i] Hi; cbn in Hi; simplify_eq.
  - change (wsum (w' :: ws) = wsum (w :: ws) - weight w + weight w'). rewrite !wsum_cons. lia.
  - change (wsum (x :: <[i := w']> ws) = wsum (x :: ws) - weight w + weight w').
    rewrite !wsum_cons, (IH _ Hi). lia.
Qed.

(** A step of a worker thread, with the clock at [now]. *)
Definition worker_op (now : Z) (o : op) : bool :=
  match o with OTake _ t => t =? now | ORun _ _ | OFinish _ => true | _ => false end.

Lemma reach_workers limits n s log :
  limits_wf limits -> reach limits n s log -> Z.of_nat n < 2 ^ 64 ->
  length (q_workers s) = Z.to_nat (lm_workers limits) /\ 0 < lm_workers limits /\
  (q_stopped s = false -> WExited ∉ q_workers s).
Proof.
  intros WF. induction 1 as [s Hs|n s log o s' eff Hr IH Hen He]; intros Hn.
  - revert Hs. unfold Impl_new. case_match eqn:E; [done|]. intros [= <-]. bool_split. cbn.
    destruct WF as (? & _). rewrite length_replicate. split_and!; [done|lia|].
    by intros _ [? _]%elem_of_replicate.
  - pose proof (reach_inv limits WF _ _ _ Hr ltac:(lia)) as HI.
    pose proof (exec_astep limits WF _ _ _ _ _ HI ltac:(lia) Hen He) as Hstep.
    destruct IH as (IHl & IHp & IHe); [lia|].
    change (length (aq_workers (abs s')) = Z.to_nat (lm_workers limits) /\ 0 < lm_workers limits /\
      (aq_stopped (abs s') = false -> WExited ∉ aq_workers (abs s'))).
    change (length (aq_workers (abs s)) = Z.to_nat (lm_workers limits)) in IHl.
    change (aq_stopped (abs s) = false -> WExited ∉ aq_workers (abs s)) in IHe.
    destruct Hstep; cbn in *; rewrite ?length_insert; split_and!; auto; intros Hst;
      try (rewrite Hst in *; done);
      intros [?|?]%elem_of_insert_inv; try done; by apply IHe.
Qed.

Section Progress.
Context (limits : OperationQueueLimits) (WF : limits_wf limits).

(** A worker that holds an operation can always take its next step. *)
Lemma progress_holder n s i w id now :
  inv limits n s -> q_workers s !! i = Some w -> holds w = Some id -> q_stopped s = false ->
  exists o s' eff, worker_op now o = true /\ enabled s o /\ exec limits s o = Some (s', eff) /\
    work_left s' < work_left s /\ q_stopped s' = false.
Proof.
  intros HI Hi Hh Hst. destruct w as [|id' past|id'|]; simplify_eq/=.
  - exists (ORun i Returned). cbn. unfold worker_run. rewrite Hi. eexists _, _.
    split_and!; [done|by eauto|done| |done]. unfold work_left. cbn. rewrite (wsum_insert _ _ _ _ Hi).
    cbn [weight]. lia.
  - exists (OFinish i). cbn. destruct (worker_finish_inv limits WF n s i HI) as (s' & eff & He & _).
    exists s', eff. split_and!; [done|by eauto|done|..]; revert He; unfold worker_finish; rewrite Hi;
      destruct (q_tasks s !! id) as [task|]; try done; cbn; destruct (q_lanes s !! t_key task); try done;
      cbn; intros [= <- _].
    + unfold work_left. case_decide; [|rewrite ready_eq by done]; cbn -[wsum]; rewrite (wsum_insert _ _ _ _ Hi);
        cbn [weight]; [lia|]. destruct (ln_ready l); rewrite ?length_app; cbn [length]; lia.
    + case_decide; [done|]. by rewrite ready_eq.
Qed.

Lemma progress_take n s i (now : Z) :
  inv limits n s -> q_workers s !! i = Some WWait -> q_stopped s = false -> q_runnable s <> [] ->
  exists o s' eff, worker_op now o = true /\ enabled s o /\ exec limits s o = Some (s', eff) /\
    work_left s' < work_left s /\ q_stopped s' = false.
Proof.
  intros HI Hi Hst Hr. exists (OTake i now). cbn.
  destruct (worker_take_inv limits WF n s i now HI Hi) as (s' & eff & He & _).
  exists s', eff. split; [apply Z.eqb_refl|]. split; [done|]. split; [done|].
  revert He. unfold worker_take, work_left. rewrite Hst.
  destruct (q_runnable s) as [|key rest] eqn:Er; [done|]. cbn -[Z.mul Z.add Z.of_nat wsum].
  destruct (q_lanes s !! key) as [ln|] eqn:Hln.
  2: { intros [= <- _]. cbn -[Z.mul Z.add Z.of_nat wsum]. split; [lia|done]. }
  destruct (ln_queue ln) as [|id queue] eqn:Hq.
  { intros [= <- _]. destruct (ln_active ln); cbn -[Z.mul Z.add Z.of_nat wsum]; (split; [lia|done]). }
  destruct (q_tasks s !! id) as [task|] eqn:Hid; [|done].
  cbn -[Z.mul Z.add Z.of_nat wsum]. intros [= <- _]. split; [|done].
  cbn -[Z.mul Z.add Z.of_nat wsum]. rewrite (wsum_insert _ _ _ _ Hi). cbn [weight].
  destruct HI as [HS _ _ Hc Hf]. pose proof (flags_charged _ _ _ Hf) as Hch.
  pose proof (stats_bounds _ _ _ Hch Hc) as Hbd. destruct Hc as [Hcq _ _ Hcp]. destruct WF as (_ & _ & ?).
  pose proof (lo_queued _ _ _ _ (is_lane _ _ _ _ _ _ HS _ _ Hln) id) as Hsh. rewrite Hq in Hsh.
  specialize (Hsh ltac:(left)). rewrite (shape_lookup _ _ _ Hid) in Hsh.
  unfold shape_of in Hsh. injection Hsh as _ Ha.
  assert (1 <= c_queued (q_counts s)).
  { rewrite Hcq. trans (is_queued task); [unfold is_queued; rewrite Ha; lia|].
    eapply msum_lookup_le; [|done]. intros ? v _. unfold is_queued. by destruct (t_active v). }
  rewrite u64_id; lia.
Qed.

Lemma progress n s (now : Z) :
  inv limits n s -> q_stopped s = false -> q_tasks s <> ∅ ->
  q_workers s <> [] -> WExited ∉ q_workers s ->
  exists o s' eff, worker_op now o = true /\ enabled s o /\ exec limits s o = Some (s', eff) /\
    work_left s' < work_left s /\ q_stopped s' = false.
Proof.
  intros HI Hst Hne Hws Hex. pose proof (inv_s _ _ _ HI) as HS.
  destruct (map_choose _ Hne) as (id & t & Ht).
  assert (forall id k, shape (q_tasks s) !! id = Some (k, true) ->
          exists i w, q_workers s !! i = Some w /\ holds w = Some id) as Hheld.
  { intros id' k Hid'. destruct (is_task _ _ _ _ _ _ HS _ _ _ Hid') as (ln & _ & _ & _ & ?). done. }
  pose proof (shape_lookup _ _ _ Ht) as Hsh. unfold shape_of in Hsh. destruct (t_active t) eqn:Ha.
  { destruct (Hheld _ _ Hsh) as (i & w & Hi & Hh). by eapply progress_holder. }
  destruct (is_task _ _ _ _ _ _ HS _ _ _ Hsh) as (ln & Hln & Hin).
  pose proof (is_lane _ _ _ _ _ _ HS _ _ Hln) as [Hready _ _ _ Hact]. destruct (ln_active ln) eqn:Hla.
  { destruct (Hact eq_refl) as [id' Hid']. destruct (Hheld _ _ Hid') as (i & w & Hi & Hh).
    by eapply progress_holder. }
  destruct (q_workers s) as [|w ws] eqn:Ew; [done|].
  assert (q_workers s !! 0%nat = Some w) as H0 by (by rewrite Ew).
  destruct (holds w) as [id'|] eqn:Hh; [by eapply progress_holder|].
  apply (progress_take n s 0 now); auto.
  - rewrite H0. destruct w; try done. exfalso. apply Hex. left.
  - assert (t_key t ∈ q_runnable s) as Hk by (apply (is_runnable _ _ _ _ _ _ HS); eauto).
    intros E. rewrite E in Hk. by apply not_elem_of_nil in Hk.
Qed.
End Progress.

Lemma work_left_nonneg limits n s : limits_wf limits -> inv limits n s -> 0 <= work_left s.
Proof.
  intros WF [HS _ _ Hc Hf]. pose proof (stats_bounds _ _ _ (flags_charged _ _ _ Hf) Hc).
  pose proof (wsum_nonneg (q_workers s)). unfold work_left. lia.
Qed.

Lemma drain_schedule limits m : forall n s log now,
  limits_wf limits -> reach limits n s log -> q_stopped s = false ->
  (Z.to_nat (work_left s) <= m)%nat -> Z.of_nat n + Z.of_nat m + 1 < 2 ^ 64 ->
  exists ops s' eff, Forall (fun o => worker_op now o = true) ops /\ (length ops <= m)%nat /\
    schedule limits s ops = Some (s', eff) /\ q_tasks s' = ∅.
Proof.
  induction m as [|m IH]; intros n s log now WF Hr Hst Hm Hn;
    (destruct (decide (q_tasks s = ∅)) as [?|Hne]; [exists [], s, []; split_and!; auto; cbn; lia|]);
    pose proof (reach_inv limits WF _ _ _ Hr ltac:(lia)) as HI;
    destruct (reach_workers limits _ _ _ WF Hr ltac:(lia)) as (Hlen & Hpos & Hex);
    (destruct (progress limits WF _ s now HI Hst Hne) as (o & s1 & e1 & Ho & Hen & He & Hlt & Hst1);
      [by intros E; rewrite E in Hlen; cbn in Hlen; lia|by apply Hex|]);
    pose proof (reach_step limits _ _ _ _ _ _ Hr Hen He) as Hr1;
    pose proof (work_left_nonneg limits _ _ WF (reach_inv limits WF _ _ _ Hr1 ltac:(lia))); [lia|].
  destruct (IH (S n) s1 (log ++ e1) now WF Hr1 Hst1) as (ops & s' & eff & Hops & Hl & Hs & Hemp); [lia|lia|].
  exists (o :: ops), s', (e1 ++ eff). split_and!; [by constructor|cbn; lia| |done].
  cbn. apply enabledb_enabled in Hen. rewrite Hen, He. cbn. by rewrite Hs.
Qed.

(** ** The guarantees of src/operation_queue.cpp

    Every theorem is about all interleavings of fewer than [2^64] critical
    sections, the point at which [nextId] would wrap. *)

Module Guarantees.

(** A queue with two workers, and a run of it: three writes on two keys, one
    dispatched and cancelled while it runs, one past its deadline. *)
Definition demo_limits : OperationQueueLimits :=
  {| lm_workers := 2; lm_queuedPerKey := 2; lm_residentBytes := 4096 |}.
Definition demo_work (key : string) (deadline : Z) : Work :=
  {| w_key := key; w_bytes := 300; w_deadline := deadline |}.
Definition demo_ops : list op :=
  [OSubmit (demo_work "A" 10) 0; OSubmit (demo_work "A" 5) 0; OSubmit (demo_work "B" 9) 1;
   OTake 0 1; OTake 1 2; OCancel 3; ORun 0 Returned].
Definition demo_init : Impl :=
  match Impl_new demo_limits with Ret s => s | Throw _ => Build_Impl true 0 Stats_zero ∅ ∅ [] [] [] false end.
Definition demo_end : Impl * list Effect := default (demo_init, []) (schedule demo_limits demo_init demo_ops).

Lemma demo_reach : reach demo_limits 7 demo_end.1 demo_end.2.
Proof.
  by apply (schedule_reach_init demo_limits 7 demo_init demo_ops demo_end); vm_compute.
Qed.

Lemma demo_wf : limits_wf demo_limits.
Proof. by vm_compute. Qed.

(** No thread ever hits undefined behaviour or an escaping exception: in
    every reachable state each enabled critical section completes (every
    [at()] finds its key, every stored iterator is still valid), and the
    result is again reachable. *)
Theorem queue_never_stuck limits n s log o :
  limits_wf limits -> reach limits n s log -> Z.of_nat n + 1 < 2 ^ 64 -> enabled s o ->
  exists s' eff, exec limits s o = Some (s', eff) /\ reach limits (S n) s' (log ++ eff).
Proof.
  intros WF Hr Hn Hen. pose proof (reach_inv limits WF _ _ _ Hr ltac:(lia)) as HI.
  destruct (exec_inv limits WF _ s o HI Hn Hen) as (s' & eff & He & _).
  exists s', eff. split; [done|]. by econstructor.
Qed.

Lemma queue_never_stuck_witness :
  exists s' eff, exec demo_limits demo_end.1 (OCancel 1) = Some (s', eff) /\
    reach demo_limits 8 s' (demo_end.2 ++ eff).
Proof. by apply (queue_never_stuck demo_limits 7 _ _ (OCancel 1) demo_wf demo_reach). Defined.

(** C1. Refinement: every critical section is one step of the abstract queue,
    with the same callbacks. *)
Theorem exec_refines limits n s log o s' eff :
  limits_wf limits -> reach limits n s log -> Z.of_nat n + 1 < 2 ^ 64 -> enabled s o ->
  exec limits s o = Some (s', eff) -> astep (abs s) eff (abs s').
Proof.
  intros WF Hr Hn Hen He. eapply (exec_astep limits WF); [|exact Hn|done|done].
  apply (reach_inv limits WF _ _ _ Hr). lia.
Qed.

Lemma exec_refines_witness :
  exists s', exec demo_limits demo_end.1 (OCancel 2) =
    Some (s', [EFail 2 Cancelled "operation cancelled; not retried"]) /\
    astep (abs demo_end.1) [EFail 2 Cancelled "operation cancelled; not retried"] (abs s').
Proof.
  eexists. split; [vm_compute; reflexivity|].
  eapply (exec_refines demo_limits 7 _ _ (OCancel 2) _ _ demo_wf demo_reach); [done|done|].
  vm_compute; reflexivity.
Defined.

(** C27. The bookkeeping is exact and the configured limits hold at every
    moment: [queued], [running] and [residentBytes] count the resident
    operations, the bytes never exceed [residentBytes], no lane holds more
    than [queuedPerKey] operations, no counter wraps. *)
Theorem queue_bounds limits n s log :
  limits_wf limits -> reach limits n s log -> Z.of_nat n < 2 ^ 64 ->
  c_queued (q_counts s) = msum is_queued (q_tasks s) /\
  c_running (q_counts s) = msum is_running (q_tasks s) /\
  c_residentBytes (q_counts s) = msum (fun t => task_charge (t_work t)) (q_tasks s) /\
  0 <= 256 * (c_queued (q_counts s) + c_running (q_counts s)) <= c_residentBytes (q_counts s) /\
  c_residentBytes (q_counts s) <= c_peakBytes (q_counts s) <= lm_residentBytes limits /\
  (forall key ln, q_lanes s !! key = Some ln -> Z.of_nat (length (ln_queue ln)) <= lm_queuedPerKey limits).
Proof.
  intros WF Hr Hn. destruct (reach_inv limits WF _ _ _ Hr Hn) as [HS _ _ Hc Hf].
  pose proof (stats_bounds _ _ _ (flags_charged _ _ _ Hf) Hc). destruct Hc as [? ? Hb ?].
  split_and!; try lia.
  - rewrite Hb. apply Z.le_antisymm; apply msum_le; intros id t Ht;
      rewrite (tf_charge _ _ (if_task _ _ _ Hf _ _ Ht)); lia.
  - intros key ln Hln. apply (lo_length _ _ _ _ (is_lane _ _ _ _ _ _ HS _ _ Hln)).
Qed.

Lemma queue_bounds_witness :
  c_residentBytes (q_counts demo_end.1) = 900 /\
  c_residentBytes (q_counts demo_end.1) <= c_peakBytes (q_counts demo_end.1) <= 4096.
Proof.
  split; [by vm_compute|]. by apply (queue_bounds demo_limits 7 _ _ demo_wf demo_reach).
Defined.

(** Operations of one key never overlap: two workers that hold operations
    of the same key are the same worker with the same operation. *)
Theorem per_key_exclusive limits n s log i j w w' id id' t t' :
  limits_wf limits -> reach limits n s log -> Z.of_nat n < 2 ^ 64 ->
  q_workers s !! i = Some w -> holds w = Some id -> q_tasks s !! id = Some t ->
  q_workers s !! j = Some w' -> holds w' = Some id' -> q_tasks s !! id' = Some t' ->
  t_key t = t_key t' -> i = j /\ id = id'.
Proof.
  intros WF Hr Hn Hi Hh Ht Hj Hh' Ht' Hk. destruct (reach_inv limits WF _ _ _ Hr Hn) as [HS _ _ _ _].
  destruct (is_worker _ _ _ _ _ _ HS _ _ _ Hi Hh) as [k Hid].
  destruct (is_worker _ _ _ _ _ _ HS _ _ _ Hj Hh') as [k' Hid'].
  assert (id = id') as ->.
  { apply (is_active_unique _ _ _ _ _ _ HS _ _ k Hid). rewrite (shape_lookup _ _ _ Ht) in Hid.
    rewrite (shape_lookup _ _ _ Ht') in Hid'. rewrite (shape_lookup _ _ _ Ht').
    unfold shape_of in *. congruence. }
  split; [|done]. by eapply (is_worker_unique _ _ _ _ _ _ HS).
Qed.

Lemma per_key_exclusive_witness :
  exists t, q_workers demo_end.1 !! 0%nat = Some (WFinishing 1) /\ q_tasks demo_end.1 !! 1 = Some t /\
    (0%nat = 0%nat /\ 1 = 1).
Proof.
  exists (Build_Task (demo_work "A" 10) 300 true false true).
  split; [by vm_compute|]. split; [by vm_compute|].
  apply (per_key_exclusive demo_limits 7 demo_end.1 demo_end.2 0 0 (WFinishing 1) (WFinishing 1) 1 1
    (Build_Task (demo_work "A" 10) 300 true false true) (Build_Task (demo_work "A" 10) 300 true false true)
    demo_wf demo_reach); by vm_compute.
Defined.

(** Operations of one key are dispatched in the order in which they were
    accepted. *)
Theorem per_key_fifo limits n s log key :
  limits_wf limits -> reach limits n s log -> Z.of_nat n < 2 ^ 64 ->
  StronglySorted Z.lt (takes key log).
Proof. intros WF Hr Hn. by apply (reach_log limits n s log WF Hr Hn). Qed.

Lemma per_key_fifo_witness :
  takes "B" demo_end.2 = [3] /\ StronglySorted Z.lt (takes "B" demo_end.2).
Proof.
  split; [by vm_compute|]. by apply (per_key_fifo demo_limits 7 demo_end.1 _ "B" demo_wf demo_reach).
Defined.

(** Exactly-once callbacks: no accepted operation is run twice and the
    queue fails none twice; deadline, cancellation, shutdown and late dispatch
    exclude one another. *)
Theorem callbacks_once limits n s log :
  limits_wf limits -> reach limits n s log -> Z.of_nat n < 2 ^ 64 ->
  NoDup (runs log) /\ NoDup (fails log).
Proof.
  intros WF Hr Hn. destruct (reach_log limits n s log WF Hr Hn) as (_ & [? _] & [? _] & _). done.
Qed.

Lemma callbacks_once_witness :
  runs demo_end.2 = [1] /\ fails demo_end.2 = [3] /\ NoDup (runs demo_end.2) /\ NoDup (fails demo_end.2).
Proof.
  split; [by vm_compute|]. split; [by vm_compute|].
  by apply (callbacks_once demo_limits 7 demo_end.1 _ demo_wf demo_reach).
Defined.

(** C26. No accepted operation is forgotten: each ticket handed out is
    answered ([run] or [fail] was called), or still resident and not failed
    (so its deadline is armed), or in the hands of a worker that is about to
    report it late. *)
Theorem no_operation_lost limits n s log id :
  limits_wf limits -> reach limits n s log -> Z.of_nat n < 2 ^ 64 -> 1 <= id <= q_nextId s ->
  answered log id \/
  exists t, q_tasks s !! id = Some t /\
    (t_failed t = false /\ (w_deadline (t_work t), id) ∈ q_deadlines s \/
     exists i, q_workers s !! i = Some (WTaken id true)).
Proof.
  intros WF Hr Hn Hid. destruct (reach_log limits n s log WF Hr Hn) as (_ & _ & _ & [Hall _]).
  destruct (reach_inv limits WF _ _ _ Hr Hn) as [_ _ Hd _ Hf].
  destruct (Hall id Hid) as [?|(a & Ha & Hp)]; [by left|right].
  cbn in Ha. rewrite lookup_fmap in Ha. apply fmap_Some in Ha as (t & Ht & ->).
  exists t. split; [done|]. destruct Hp as [Hnf|?]; [left|by right]. split; [done|].
  apply (id_entry _ _ Hd). exists t. split; [done|]. split; [|done].
  by apply (tf_timed _ _ (if_task _ _ _ Hf _ _ Ht)).
Qed.

Lemma no_operation_lost_witness :
  answered demo_end.2 2 \/
  exists t, q_tasks demo_end.1 !! 2 = Some t /\
    (t_failed t = false /\ (w_deadline (t_work t), 2) ∈ q_deadlines demo_end.1 \/
     exists i, q_workers demo_end.1 !! i = Some (WTaken 2 true)).
Proof. apply (no_operation_lost demo_limits 7 _ _ 2 demo_wf demo_reach); by vm_compute. Defined.

(** When [stop()] returns, the queue is empty, its counters are zero and
    every ticket ever handed out has been answered. *)
Theorem shutdown_settles limits n s log s' eff :
  limits_wf limits -> reach limits n s log -> Z.of_nat n + 1 < 2 ^ 64 ->
  enabled s OStopFinish -> exec limits s OStopFinish = Some (s', eff) ->
  q_tasks s' = ∅ /\ q_lanes s' = ∅ /\ c_queued (q_counts s') = 0 /\ c_running (q_counts s') = 0 /\
  c_residentBytes (q_counts s') = 0 /\ forall id, 1 <= id <= q_nextId s' -> answered (log ++ eff) id.
Proof.
  intros WF Hr Hn Hen He. pose proof (reach_step limits _ _ _ _ _ _ Hr Hen He) as Hr'.
  destruct (reach_log limits _ _ _ WF Hr' ltac:(lia)) as (_ & _ & _ & [Hall _]).
  cbn in He. injection He as <- <-. split_and!; try done.
  intros id Hid. destruct (Hall id Hid) as [?|(a & Ha & _)]; [done|].
  cbn in Ha. by rewrite fmap_empty, lookup_empty in Ha.
Qed.

Definition demo_stop : list op :=
  demo_ops ++ [OStopMark; OFinish 0; ORun 1 Returned; OFinish 1; OTake 0 3; OTake 1 3; OExpire 3].
Definition demo_stopped : Impl * list Effect :=
  default (demo_init, []) (schedule demo_limits demo_init demo_stop).

Lemma demo_stop_reach : reach demo_limits 14 demo_stopped.1 demo_stopped.2.
Proof.
  by apply (schedule_reach_init demo_limits 14 demo_init demo_stop demo_stopped); vm_compute.
Qed.

Lemma shutdown_settles_witness :
  exists s' eff, exec demo_limits demo_stopped.1 OStopFinish = Some (s', eff) /\
    q_tasks s' = ∅ /\ answered (demo_stopped.2 ++ eff) 2.
Proof.
  eexists _, _. split; [reflexivity|].
  destruct (shutdown_settles demo_limits 14 _ _ _ _ demo_wf demo_stop_reach ltac:(done)
    ltac:(apply enabledb_enabled; by vm_compute) eq_refl) as (? & _ & _ & _ & _ & Ha).
  split; [done|]. apply Ha. by vm_compute.
Defined.

(** C28. Liveness: as long as the queue is not stopped, the workers alone can
    always finish everything that is resident, in at most [work_left s] steps
    and whatever the clock shows; nothing is ever stranded without a runnable
    token or a worker. *)
Theorem queue_drains limits n s log now :
  limits_wf limits -> reach limits n s log -> q_stopped s = false ->
  Z.of_nat n < 2 ^ 64 -> Z.of_nat n + work_left s + 1 < 2 ^ 64 ->
  exists ops s' eff, Forall (fun o => worker_op now o = true) ops /\
    Z.of_nat (length ops) <= work_left s /\
    schedule limits s ops = Some (s', eff) /\ q_tasks s' = ∅.
Proof.
  intros WF Hr Hst Hn Hw.
  pose proof (work_left_nonneg _ _ _ WF (reach_inv limits WF _ _ _ Hr Hn)).
  destruct (drain_schedule limits (Z.to_nat (work_left s)) n s log now WF Hr Hst)
    as (ops & s' & eff & ? & ? & ? & ?); [done|lia|].
  exists ops, s', eff. split_and!; [done|lia|done|done].
Qed.

Lemma queue_drains_witness :
  exists ops s' eff, Forall (fun o => worker_op 7 o = true) ops /\
    Z.of_nat (length ops) <= work_left demo_end.1 /\
    schedule demo_limits demo_end.1 ops = Some (s', eff) /\ q_tasks s' = ∅.
Proof. apply (queue_drains demo_limits 7 _ _ 7 demo_wf demo_reach); by vm_compute. Defined.
End Guarantees.
