(* ===== verification/SourceHealth.v ===== *)
(** * Source health

    src/source_health.cpp with include/redis_pvxs_ioc/source_health.h and
    monitor_sample.h: the record of accepted source samples a runtime keeps and
    the assessment operators and readiness checks read.

    [RedisAdapter::ReaderStatus] belongs to the RedisAdapter library; its
    record here has the fields this code reads.  Time points are ticks (ns) of
    the steady clock, 0 being [time_point{}]. *)

From S2P Require Import Prelude StrMap Floats Config.

Local Open Scope string_scope.
Local Open Scope Z_scope.

Inductive StreamKind := KindUnknown | KindMissing | KindInvalid | KindStream.
#[export] Instance StreamKind_eq_dec : EqDecision StreamKind.
Proof. solve_decision. Defined.

Record ReaderStatus := {
  rs_active : bool;
  rs_connected : bool;
  rs_epoch : Z;
  rs_streamKind : StreamKind;
  rs_readRejections : Z;
  rs_inspected : bool;
  rs_inspectionRejections : Z;
  rs_inspectionFailures : Z;
  rs_hasData : bool;
  rs_cursor : string; rs_observedCursor : string;
  rs_readFailures : Z; rs_socketTimeouts : Z; rs_reconnects : Z; rs_streamResets : Z; rs_disappearances : Z;
  rs_retentionGaps : Z; rs_callbacks : Z; rs_entries : Z; rs_callbackErrors : Z;
  rs_lastReceived : Z;
}.

Record SourceStatus := {
  ss_pv : string; ss_backend : string; ss_key : string; ss_role : string;
  ss_state : string; ss_error : string; ss_inspection : string;
  ss_required : bool; ss_valid : bool; ss_fresh : bool; ss_stale : bool; ss_ready : bool;
  ss_staleAfterMs : Z; ss_readerProbeMs : Z; ss_lastValidAgeMs : Z;
  ss_lastValidCursor : string;
  ss_lastValidEpoch : Z; ss_invalidSamples : Z; ss_staleTransitions : Z; ss_staleCallbacks : Z;
  ss_reader : ReaderStatus;
}.

Record SourceSampleState := {
  sp_valid : bool; sp_wasStale : bool;
  sp_cursor : string; sp_error : string;
  sp_epoch : Z; sp_invalidSamples : Z; sp_staleTransitions : Z; sp_staleCallbacks : Z;
  sp_acceptedReadRejections : Z; sp_seenEpoch : Z;
  sp_received : Z;
}.
#[export] Instance SourceSampleState_eta : Eta SourceSampleState := fun r =>
  Build_SourceSampleState (sp_valid r) (sp_wasStale r) (sp_cursor r) (sp_error r) (sp_epoch r)
    (sp_invalidSamples r) (sp_staleTransitions r) (sp_staleCallbacks r) (sp_acceptedReadRejections r)
    (sp_seenEpoch r) (sp_received r).

Definition SourceSampleState_default : SourceSampleState :=
  Build_SourceSampleState false false "" "No valid source data" 0 0 0 0 0 0 0.

Definition accept (s : SourceSampleState) (id : string) (capturedEpoch now : Z) : SourceSampleState :=
  s <| sp_valid := true |> <| sp_wasStale := false |> <| sp_cursor := id |>
    <| sp_epoch := capturedEpoch |> <| sp_seenEpoch := capturedEpoch |>
    <| sp_received := now |> <| sp_error := "" |>.

Definition reject (s : SourceSampleState) (reason : string) (capturedEpoch : Z) : SourceSampleState :=
  s <| sp_valid := false |> <| sp_seenEpoch := capturedEpoch |> <| sp_error := reason |>
    <| sp_invalidSamples ::= fun n => u64 (n + 1) |>.

Definition streamKindName (kind : StreamKind) : string :=
  match kind with
  | KindMissing => "missing"
  | KindInvalid => "wrong-type"
  | KindStream => "stream"
  | KindUnknown => "unknown"
  end.

(** [duration_cast<milliseconds>(now - received).count()], not below 0; -1
    before the first sample. *)
Definition validAgeMs (s : SourceSampleState) (now : Z) : Z :=
  if sp_received s =? 0 then -1 else Z.max 0 (Z.quot (now - sp_received s) 1000000).

(** The chain of conditions that names the state: state, error, ready. *)
Definition sourceState (sample : SourceSampleState) (reader : ReaderStatus) (active valid stale : bool)
    : string * string * bool :=
  if negb active || negb (rs_active reader) then ("inactive", "", false)
  else if negb (rs_connected reader) then ("disconnected", "Source reader disconnected", false)
  else if bool_decide (rs_streamKind reader = KindMissing) then ("missing", "Source stream missing", false)
  else if bool_decide (rs_streamKind reader = KindInvalid) then
    ("wrong-type", "Source key is not a Redis stream", false)
  else if sp_acceptedReadRejections sample <? rs_readRejections reader then
    ("read-rejected", "Source read rejected; waiting for valid data", false)
  else if negb (sp_valid sample) && (sp_seenEpoch sample =? rs_epoch reader) then
    ("invalid", sp_error sample, false)
  else if negb (sp_epoch sample =? rs_epoch reader) then
    ("waiting", "Waiting for valid data in current source epoch", false)
  else if negb valid then ("invalid", sp_error sample, false)
  else if stale then ("stale", "Source freshness deadline exceeded", false)
  else ("ready", "", true).

Definition assessSource (sample : SourceSampleState) (reader : ReaderStatus) (config : PVConfig)
    (name : string) (route : RouteConfig) (role : string) (active : bool) (probeMs now : Z)
    : SourceSampleState * SourceStatus :=
  let staleAfterMs := sh_staleAfterMs (pv_sourceHealth config) in
  let age := validAgeMs sample now in
  let valid := sp_valid sample && (sp_epoch sample =? rs_epoch reader) in
  let stale := valid && negb (staleAfterMs =? 0) && (staleAfterMs <=? age) in
  let fresh := valid && negb stale in
  let sample := sample <| sp_staleTransitions ::= fun n =>
                            if stale && negb (sp_wasStale sample) then u64 (n + 1) else n |>
                       <| sp_wasStale := stale |> in
  let inspection := if probeMs =? 0 then "disabled"
                    else if rs_inspected reader then "available"
                    else if negb (rs_inspectionRejections reader =? 0) then "rejected"
                    else if negb (rs_inspectionFailures reader =? 0) then "unavailable" else "pending" in
  let '(state, error, ready) := sourceState sample reader active valid stale in
  (sample,
   {| ss_pv := name; ss_backend := rt_backend route; ss_key := rt_key route; ss_role := role;
      ss_state := state; ss_error := error; ss_inspection := inspection;
      ss_required := sh_required (pv_sourceHealth config);
      ss_valid := valid; ss_fresh := fresh; ss_stale := stale; ss_ready := ready;
      ss_staleAfterMs := staleAfterMs; ss_readerProbeMs := probeMs; ss_lastValidAgeMs := age;
      ss_lastValidCursor := sp_cursor sample; ss_lastValidEpoch := sp_epoch sample;
      ss_invalidSamples := sp_invalidSamples sample;
      ss_staleTransitions := sp_staleTransitions sample; ss_staleCallbacks := sp_staleCallbacks sample;
      ss_reader := reader |}).

(** ** What "ready" means *)

(** The last branch of the chain as one condition. *)
Lemma sourceState_ready sample reader active stale :
  let valid := sp_valid sample && (sp_epoch sample =? rs_epoch reader) in
  let r := sourceState sample reader active valid stale in
  r.2 = (active && rs_active reader && rs_connected reader &&
         negb (bool_decide (rs_streamKind reader = KindMissing)) &&
         negb (bool_decide (rs_streamKind reader = KindInvalid)) &&
         (rs_readRejections reader <=? sp_acceptedReadRejections sample) && valid && negb stale) /\
  (r.2 = true <-> r.1.1 = "ready") /\ (r.2 = true -> r.1.2 = "").
Proof.
  cbn. unfold sourceState. rewrite (Z.leb_antisym (sp_acceptedReadRejections sample)).
  destruct active; [|done]. destruct (rs_active reader); [|done]. destruct (rs_connected reader); [|done].
  destruct (bool_decide (rs_streamKind reader = KindMissing)); [done|].
  destruct (bool_decide (rs_streamKind reader = KindInvalid)); [done|].
  destruct (sp_acceptedReadRejections sample <? rs_readRejections reader); [done|].
  by destruct (sp_valid sample), (sp_epoch sample =? rs_epoch reader),
    (sp_seenEpoch sample =? rs_epoch reader), stale.
Qed.

Section Assess.
Context (reader : ReaderStatus) (config : PVConfig) (name : string) (route : RouteConfig).
Context (role : string) (active : bool) (probeMs : Z).

Definition assess (s : SourceSampleState) (now : Z) : SourceSampleState * SourceStatus :=
  assessSource s reader config name route role active probeMs now.

(** A source is ready exactly when it is active and connected, its key
    holds a stream, every read rejection has been superseded, and its last
    sample is valid, of the current epoch and younger than the configured
    limit; "ready" is then the reported state and the error is empty. *)
Theorem assessSource_ready_iff s now :
  let st := (assess s now).2 in
  (ss_ready st = true <->
     active = true /\ rs_active reader = true /\ rs_connected reader = true /\
     rs_streamKind reader <> KindMissing /\ rs_streamKind reader <> KindInvalid /\
     rs_readRejections reader <= sp_acceptedReadRejections s /\
     sp_valid s = true /\ sp_epoch s = rs_epoch reader /\
     (sh_staleAfterMs (pv_sourceHealth config) = 0 \/
      validAgeMs s now < sh_staleAfterMs (pv_sourceHealth config))) /\
  (ss_ready st = true <-> ss_state st = "ready") /\
  (ss_ready st = true -> ss_fresh st = true /\ ss_error st = "").
Proof.
  cbn. unfold assess, assessSource.
  match goal with
  | |- context [sourceState ?sm ?rd ?ac _ ?st] => pose proof (sourceState_ready sm rd ac st) as H
  end.
  cbn in H |- *. destruct (sourceState _ _ _ _ _) as [[state error] ready]. cbn in *.
  destruct H as (Hr & Hstate & Herr). split_and!; [|done|].
  - rewrite Hr, !andb_true_iff, !negb_true_iff, !bool_decide_eq_false, !andb_false_iff, negb_false_iff.
    rewrite ?andb_false_iff, ?negb_false_iff, !Z.eqb_eq, Z.leb_le, Z.leb_gt, Z.eqb_neq.
    destruct (sp_valid s); intuition congruence.
  - intros Ht. split; [|auto]. rewrite Hr in Ht. apply andb_true_iff in Ht as [Ht ->].
    apply andb_true_iff in Ht as [_ ->]. done.
Qed.

(** Between two samples of one epoch staleness is permanent. *)
Definition stale_at (s : SourceSampleState) (now : Z) : bool := ss_stale (assess s now).2.

Lemma assess_stale s now :
  stale_at s now = sp_valid s && (sp_epoch s =? rs_epoch reader) &&
    negb (sh_staleAfterMs (pv_sourceHealth config) =? 0) &&
    (sh_staleAfterMs (pv_sourceHealth config) <=? validAgeMs s now).
Proof.
  unfold stale_at, assess, assessSource.
  by destruct (sourceState _ _ _ _ _) as [[??]?].
Qed.

Lemma assess_sample s now :
  (assess s now).1 =
  s <| sp_staleTransitions ::= fun n => if stale_at s now && negb (sp_wasStale s) then u64 (n + 1) else n |>
    <| sp_wasStale := stale_at s now |>.
Proof.
  rewrite assess_stale. unfold assess, assessSource. by destruct (sourceState _ _ _ _ _) as [[??]?].
Qed.

Lemma stale_monotone s t1 t2 : t1 <= t2 -> stale_at s t1 = true -> stale_at s t2 = true.
Proof.
  rewrite !assess_stale, !andb_true_iff, !Z.leb_le. intros Hle ([? ?] & Ha). split; [done|].
  etrans; [done|]. unfold validAgeMs. destruct (sp_received s =? 0); [done|].
  apply Z.max_le_compat_l, Z.quot_le_mono; lia.
Qed.

(** The counters after assessing at each of the given times. *)
Definition assess_all (s : SourceSampleState) (times : list Z) : SourceSampleState :=
  fold_left (fun s now => (assess s now).1) times s.

Lemma stale_at_flags s now now' : stale_at (assess s now).1 now' = stale_at s now'.
Proof. rewrite assess_sample, !assess_stale. by destruct s. Qed.

Lemma assess_all_stale s times t :
  sp_wasStale s = true -> stale_at s t = true -> Forall (Z.le t) times ->
  sp_staleTransitions (assess_all s times) = sp_staleTransitions s.
Proof.
  revert s; induction times as [|t' times IH]; intros s Hw Hs Hle; [done|].
  inversion Hle as [|? ? Ht Hle']; subst. pose proof (stale_monotone s t t' Ht Hs) as Hs'.
  change (assess_all s (t' :: times)) with (assess_all (assess s t').1 times).
  rewrite IH; [|by rewrite assess_sample|by rewrite stale_at_flags|done].
  rewrite assess_sample. cbn. by rewrite Hw, andb_false_r.
Qed.

(** An outage is counted once: however often the source is assessed as
    time passes without a new sample, [staleTransitions] grows by one when the
    sample has become stale by the last assessment, and by nothing otherwise. *)
Theorem stale_counted_once s times :
  StronglySorted Z.le times -> sp_wasStale s = false ->
  sp_staleTransitions (assess_all s times) =
  if existsb (stale_at s) times then u64 (sp_staleTransitions s + 1) else sp_staleTransitions s.
Proof.
  intros Hsort. revert s; induction Hsort as [|t times Hsort IH Ht]; intros s Hw; [done|].
  change (assess_all s (t :: times)) with (assess_all (assess s t).1 times).
  cbn [existsb]. destruct (stale_at s t) eqn:Hs; cbn [orb].
  - rewrite (assess_all_stale _ _ t); [|by rewrite assess_sample|by rewrite stale_at_flags|done].
    rewrite assess_sample. cbn. by rewrite Hs, Hw.
  - rewrite IH by (by rewrite assess_sample).
    assert (existsb (stale_at (assess s t).1) times = existsb (stale_at s) times) as ->.
    { clear. induction times as [|x l IHl]; [done|]. cbn [existsb]. by rewrite IHl, stale_at_flags. }
    rewrite assess_sample. cbn. by rewrite Hs.
Qed.
End Assess.

Definition demo_reader : ReaderStatus :=
  {| rs_active := true; rs_connected := true; rs_epoch := 1; rs_streamKind := KindStream;
     rs_readRejections := 0; rs_inspected := true; rs_inspectionRejections := 0; rs_inspectionFailures := 0; rs_hasData := true;
     rs_cursor := ""; rs_observedCursor := ""; rs_readFailures := 0; rs_socketTimeouts := 0; rs_reconnects := 0;
     rs_streamResets := 0; rs_disappearances := 0; rs_retentionGaps := 0; rs_callbacks := 0; rs_entries := 0;
     rs_callbackErrors := 0; rs_lastReceived := 0 |}.
Definition demo_source : PVConfig :=
  PVConfig_default <| pv_sourceHealth := {| sh_required := true; sh_staleAfterMs := 10 |} |>.
Definition demo_sample : SourceSampleState := accept SourceSampleState_default "1-0" 1 1000000.

Lemma stale_counted_once_witness :
  sp_staleTransitions (assess_all demo_reader demo_source "A" RouteConfig_default "read" true 0 demo_sample
    [5000000; 20000000; 30000000]) = 1.
Proof.
  rewrite (stale_counted_once demo_reader demo_source "A" RouteConfig_default "read" true 0 demo_sample
    [5000000; 20000000; 30000000]); [by vm_compute|repeat constructor; lia|done].
Defined.
