(* ===== verification/Util.v ===== *)
(** * Values, alarms and time stamps

    include/redis_pvxs_ioc/util.h and src/util.cpp: alarm evaluation with
    hysteresis, the linear transforms, the comparison that decides whether a
    write has been confirmed, and the population of normative-type values.

    [pvxs::Value] belongs to the pvxs library: it is the interface
    [PvxsValue], a structure with typed leaves addressed by dotted paths, of
    which the code uses validity, the type code, assignment and the change
    marks. *)

From S2P Require Import Prelude StrMap Floats Config.

Local Open Scope string_scope.
Local Open Scope Z_scope.

(** ** Alarms *)

Record AlarmState := { am_severity : Z; am_status : Z; am_message : string }.

(** EPICS alarm.h *)
Definition epicsSevNone : Z := 0.
Definition epicsSevMinor : Z := 1.
Definition epicsSevMajor : Z := 2.
Definition epicsSevInvalid : Z := 3.
Definition epicsAlarmNone : Z := 0.
Definition epicsAlarmHiHi : Z := 3.
Definition epicsAlarmHigh : Z := 4.
Definition epicsAlarmLoLo : Z := 5.
Definition epicsAlarmLow : Z := 6.
Definition epicsAlarmUDF : Z := 17.

Definition is_some {A} (o : option A) : bool := match o with Some _ => true | None => false end.

Definition hasAlarmRules (config : PVConfig) : bool :=
  is_some (al_lowAlarm (pv_alarms config)) || is_some (al_lowWarning (pv_alarms config)) ||
  is_some (al_highWarning (pv_alarms config)) || is_some (al_highAlarm (pv_alarms config)).

(** [limit && value >= *limit] and the like, in [double]. *)
Definition above (limit : option spec_float) (value : spec_float) : bool :=
  match limit with Some l => fge value l | None => false end.
Definition below (limit : option spec_float) (value : spec_float) : bool :=
  match limit with Some l => fle value l | None => false end.
Definition above_hyst (limit : option spec_float) (hyst value : spec_float) : bool :=
  match limit with Some l => fge value (fsub binary64 l hyst) | None => false end.
Definition below_hyst (limit : option spec_float) (hyst value : spec_float) : bool :=
  match limit with Some l => fle value (fadd binary64 l hyst) | None => false end.

Definition evaluateNumericAlarm (config : PVConfig) (value : spec_float) (priorStatus : Z) : AlarmState :=
  let alarms := pv_alarms config in
  let hyst := al_hysteresis alarms in
  if negb (is_finite value) then Build_AlarmState epicsSevInvalid epicsAlarmUDF "Non-finite source value"
  else if negb (hasAlarmRules config) then Build_AlarmState epicsSevNone epicsAlarmNone ""
  else if above (al_highAlarm alarms) value then Build_AlarmState epicsSevMajor epicsAlarmHiHi "High alarm"
  else if below (al_lowAlarm alarms) value then Build_AlarmState epicsSevMajor epicsAlarmLoLo "Low alarm"
  else if (priorStatus =? epicsAlarmHiHi) && above_hyst (al_highAlarm alarms) hyst value then
    Build_AlarmState epicsSevMajor epicsAlarmHiHi "High alarm"
  else if (priorStatus =? epicsAlarmLoLo) && below_hyst (al_lowAlarm alarms) hyst value then
    Build_AlarmState epicsSevMajor epicsAlarmLoLo "Low alarm"
  else if above (al_highWarning alarms) value then Build_AlarmState epicsSevMinor epicsAlarmHigh "High warning"
  else if below (al_lowWarning alarms) value then Build_AlarmState epicsSevMinor epicsAlarmLow "Low warning"
  else if (priorStatus =? epicsAlarmHigh) && above_hyst (al_highWarning alarms) hyst value then
    Build_AlarmState epicsSevMinor epicsAlarmHigh "High warning"
  else if (priorStatus =? epicsAlarmLow) && below_hyst (al_lowWarning alarms) hyst value then
    Build_AlarmState epicsSevMinor epicsAlarmLow "Low warning"
  else Build_AlarmState epicsSevNone epicsAlarmNone "".

(** Alarm evaluation is stable: evaluating the same value again, with the
    status just computed as the prior status, changes nothing, so a repeated
    sample never toggles an alarm. *)
Theorem evaluateNumericAlarm_idempotent config value prior :
  let st := evaluateNumericAlarm config value prior in
  evaluateNumericAlarm config value (am_status st) = st.
Proof.
  cbn. unfold evaluateNumericAlarm. cbn zeta.
  set (hh := above (al_highAlarm _) _). set (ll := below (al_lowAlarm _) _).
  set (hhh := above_hyst (al_highAlarm _) _ _). set (llh := below_hyst (al_lowAlarm _) _ _).
  set (h := above (al_highWarning _) _). set (l := below (al_lowWarning _) _).
  set (hy := above_hyst (al_highWarning _) _ _). set (ly := below_hyst (al_lowWarning _) _ _).
  destruct (negb (is_finite value)); [done|]. destruct (negb (hasAlarmRules config)); [done|].
  destruct hh; [done|]. destruct ll; [done|].
  destruct ((prior =? epicsAlarmHiHi) && hhh) eqn:E1;
    [apply andb_true_iff in E1 as [_ E1]; cbn; by rewrite E1|].
  destruct ((prior =? epicsAlarmLoLo) && llh) eqn:E2;
    [apply andb_true_iff in E2 as [_ E2]; cbn; by rewrite E2|].
  destruct h; [done|]. destruct l; [done|].
  destruct ((prior =? epicsAlarmHigh) && hy) eqn:E3;
    [apply andb_true_iff in E3 as [_ E3]; cbn; by rewrite E3|].
  destruct ((prior =? epicsAlarmLow) && ly) eqn:E4;
    [apply andb_true_iff in E4 as [_ E4]; cbn; by rewrite E4|]. done.
Qed.

(** The severity says what the value is: INVALID exactly for non-finite
    values; MAJOR exactly when a major limit is reached or still held by its
    hysteresis band, whatever warning was active before; MINOR exactly when
    only a warning condition holds. *)
Theorem evaluateNumericAlarm_severity config value prior :
  let al := pv_alarms config in
  let sev := am_severity (evaluateNumericAlarm config value prior) in
  let major := above (al_highAlarm al) value || below (al_lowAlarm al) value ||
    (prior =? epicsAlarmHiHi) && above_hyst (al_highAlarm al) (al_hysteresis al) value ||
    (prior =? epicsAlarmLoLo) && below_hyst (al_lowAlarm al) (al_hysteresis al) value in
  let minor := above (al_highWarning al) value || below (al_lowWarning al) value ||
    (prior =? epicsAlarmHigh) && above_hyst (al_highWarning al) (al_hysteresis al) value ||
    (prior =? epicsAlarmLow) && below_hyst (al_lowWarning al) (al_hysteresis al) value in
  (sev = epicsSevInvalid <-> is_finite value = false) /\
  (sev = epicsSevMajor <-> is_finite value = true /\ major = true) /\
  (sev = epicsSevMinor <-> is_finite value = true /\ major = false /\ minor = true) /\
  (sev = epicsSevNone <-> is_finite value = true /\ major = false /\ minor = false).
Proof.
  cbn. unfold evaluateNumericAlarm, hasAlarmRules. destruct (is_finite value); cbn; [|by split_and!; split; intros; destruct_and?].
  destruct (pv_alarms config) as [la lw hw ha hy]; cbn.
  assert (is_some la || is_some lw || is_some hw || is_some ha = false ->
          la = None /\ lw = None /\ hw = None /\ ha = None) as Hnone.
  { destruct la, lw, hw, ha; naive_solver. }
  destruct (is_some la || is_some lw || is_some hw || is_some ha); cbn.
  2: { destruct Hnone as (-> & -> & -> & ->); [done|]. cbn. rewrite !andb_false_r.
       split_and!; split; intros; destruct_and?; done. }
  destruct (above ha value), (below la value), ((prior =? epicsAlarmHiHi) && above_hyst ha hy value),
    ((prior =? epicsAlarmLoLo) && below_hyst la hy value); cbn;
    try (by split_and!; split; intros; destruct_and?);
    destruct (above hw value), (below lw value), ((prior =? epicsAlarmHigh) && above_hyst hw hy value),
    ((prior =? epicsAlarmLow) && below_hyst lw hy value); cbn;
    by split_and!; split; intros; destruct_and?.
Qed.

(** ** Transforms and comparison *)

Section Transform.
Context (fm : ffmt).

(** [T] is [float] or [double]; the integral instances return their input. *)
Definition applyForwardTransform (config : PVConfig) (raw : spec_float) : spec_float :=
  match pv_transform config with
  | Some t => fadd fm (fmul fm raw (f_convert fm (tr_scale t))) (f_convert fm (tr_offset t))
  | None => raw
  end.

Definition applyInverseTransform (config : PVConfig) (present : spec_float) : spec_float :=
  match pv_transform config with
  | Some t => fdiv fm (fsub fm present (f_convert fm (tr_offset t))) (f_convert fm (tr_scale t))
  | None => present
  end.

(** [valuesEqual] on vectors. *)
Fixpoint f_valuesEqual_list (lhs rhs : list spec_float) : bool :=
  match lhs, rhs with
  | [], [] => true
  | x :: lhs, y :: rhs => f_valuesEqual fm x y && f_valuesEqual_list lhs rhs
  | _, _ => false
  end.
End Transform.

(** The transform of a value of the PV's type: element by element on the
    floating-point alternatives, the identity on the others. *)
Definition transformTyped (f : ffmt -> spec_float -> spec_float) (v : TypedValue) : TypedValue :=
  match v with
  | TVfloat x => TVfloat (f binary32 x)
  | TVdouble x => TVdouble (f binary64 x)
  | TVvfloat l => TVvfloat (map (f binary32) l)
  | TVvdouble l => TVvdouble (map (f binary64) l)
  | _ => v
  end.
Definition forwardTyped (config : PVConfig) : TypedValue -> TypedValue :=
  transformTyped (fun fm => applyForwardTransform fm config).
Definition inverseTyped (config : PVConfig) : TypedValue -> TypedValue :=
  transformTyped (fun fm => applyInverseTransform fm config).

Definition valuesEqual (lhs rhs : TypedValue) : bool :=
  match lhs, rhs with
  | TVbool x, TVbool y => Bool.eqb x y
  | TVint8 x, TVint8 y | TVuint8 x, TVuint8 y | TVint16 x, TVint16 y | TVuint16 x, TVuint16 y
  | TVint32 x, TVint32 y | TVuint32 x, TVuint32 y | TVint64 x, TVint64 y | TVuint64 x, TVuint64 y =>
      (x =? y)%Z
  | TVfloat x, TVfloat y => f_valuesEqual binary32 x y
  | TVdouble x, TVdouble y => f_valuesEqual binary64 x y
  | TVstring x, TVstring y => String.eqb x y
  | TVvint8 x, TVvint8 y | TVvuint8 x, TVvuint8 y | TVvint16 x, TVvint16 y
  | TVvuint16 x, TVvuint16 y | TVvint32 x, TVvint32 y | TVvuint32 x, TVvuint32 y
  | TVvint64 x, TVvint64 y | TVvuint64 x, TVvuint64 y => bool_decide (x = y)
  | TVvfloat x, TVvfloat y => f_valuesEqual_list binary32 x y
  | TVvdouble x, TVvdouble y => f_valuesEqual_list binary64 x y
  | _, _ => false
  end.

Definition tv_doubles (v : TypedValue) : list spec_float :=
  match v with TVfloat x | TVdouble x => [x] | TVvfloat l | TVvdouble l => l | _ => [] end.

Lemma f_valuesEqual_list_refl fm l :
  fm = binary64 \/ fm = binary32 -> f_valuesEqual_list fm l l = forallb is_finite l.
Proof. intros Hfm. induction l as [|x l IH]; cbn; [done|]. by rewrite f_valuesEqual_refl, IH. Qed.

(** A value confirms itself exactly when all its numbers are finite: an
    infinity written to a confirmed PV is never confirmed by reading it back. *)
Theorem valuesEqual_refl v :
  v <> TVmonostate -> valuesEqual v v = forallb is_finite (tv_doubles v).
Proof.
  destruct v; cbn; intros Hv; rewrite ?Bool.eqb_reflx, ?Z.eqb_refl, ?String.eqb_refl,
    ?f_valuesEqual_list_refl, ?f_valuesEqual_refl, ?andb_true_r by auto; try done; by apply bool_decide_eq_true.
Qed.

(** An infinite value never confirms itself, since the difference of two equal
    infinities is not a number. *)
Example valuesEqual_infinity :
  valuesEqual (TVdouble (S754_infinity false)) (TVdouble (S754_infinity false)) = false.
Proof. reflexivity. Qed.

(** ** Time stamps *)

Definition kNsPerSecond : Z := 1000000000.

(** [secondsPastEpoch] and [nanoseconds] of a time stamp: conversions of the
    unsigned quotient and remainder to [int64_t] and [int32_t]. *)
Definition splitTimestamp (timestamp : Z) : Z * Z :=
  (i64 (timestamp / kNsPerSecond), i32 (timestamp mod kNsPerSecond)).

(** [epicsTimeGetCurrent]: seconds past the EPICS epoch (32 bits) and
    nanoseconds, or an error.  The sum with [POSIX_TIME_AT_EPICS_EPOCH] is
    made in 32 bits, before the widening cast. *)
Definition posixAtEpicsEpoch : Z := 631152000.
Definition currentTimeNs (clock : option (Z * Z)) : Z :=
  match clock with
  | Some (secPastEpoch, nsec) => u64 (u32 (secPastEpoch + posixAtEpicsEpoch) * kNsPerSecond + nsec)
  | None => 0
  end.

(** The time stamp stored in a value is exact: the two signed fields hold
    the quotient and the remainder without truncation, for every 64-bit input. *)
Theorem splitTimestamp_exact timestamp :
  0 <= timestamp < 2 ^ 64 ->
  let '(seconds, nanoseconds) := splitTimestamp timestamp in
  seconds * kNsPerSecond + nanoseconds = timestamp /\ 0 <= nanoseconds < kNsPerSecond /\ 0 <= seconds.
Proof.
  intros Ht. unfold splitTimestamp, kNsPerSecond.
  pose proof (Z.div_mod timestamp 1000000000 ltac:(lia)) as Hdm.
  pose proof (Z.mod_pos_bound timestamp 1000000000 ltac:(lia)) as Hm.
  assert (0 <= timestamp / 1000000000 < 2 ^ 63) as Hq.
  { split; [apply Z.div_pos; lia|]. apply Z.div_lt_upper_bound; lia. }
  unfold i64, i32. rewrite !signed_id by lia. lia.
Qed.


(** ** Normative-type values *)

Inductive TypeCode :=
| TBool | TBoolA | TInt8 | TInt8A | TUInt8 | TUInt8A | TInt16 | TInt16A | TUInt16 | TUInt16A
| TInt32 | TInt32A | TUInt32 | TUInt32A | TInt64 | TInt64A | TUInt64 | TUInt64A
| TFloat32 | TFloat32A | TFloat64 | TFloat64A | TString | TStringA | TStruct.
#[export] Instance TypeCode_eq_dec : EqDecision TypeCode.
Proof. solve_decision. Defined.

Inductive field_data :=
| FBool (b : bool)
| FInt (z : Z)
| FReal (x : spec_float)
| FString (s : string)
| FStrings (l : list string)
| FBools (l : list bool)
| FTyped (v : TypedValue)
| FPixels (t : PrimitiveType) (bytes : list Z)
| FStructs (l : list (list (string * field_data))).

(** What the code relies on of [pvxs::Value]: [v["p"].valid()] and its type
    code, the stored leaf, the change mark, and assignment to a valid leaf,
    which stores the value, marks the leaf and touches no other. *)
Class PvxsValue (V : Type) := {
  v_code : V -> string -> option TypeCode;
  v_data : V -> string -> option field_data;
  v_marked : V -> string -> bool;
  v_assign : V -> string -> field_data -> V;
  v_code_assign : forall v p d q, v_code (v_assign v p d) q = v_code v q;
  v_data_assign : forall v p d q, v_code v p <> None ->
    v_data (v_assign v p d) q = if String.eqb q p then Some d else v_data v q;
  v_marked_assign : forall v p d q, v_code v p <> None ->
    v_marked (v_assign v p d) q = String.eqb q p || v_marked v q;
}.

Definition isArray (config : PVConfig) : bool := bool_decide (pv_shape config = Array).

Definition pvxsTypeCodeFor (config : PVConfig) : TypeCode :=
  let a := isArray config in
  match pv_type config with
  | Boolean => if a then TBoolA else TBool
  | Int8 => if a then TInt8A else TInt8
  | UInt8 => if a then TUInt8A else TUInt8
  | Int16 => if a then TInt16A else TInt16
  | UInt16 => if a then TUInt16A else TUInt16
  | Int32 => if a then TInt32A else TInt32
  | UInt32 => if a then TUInt32A else TUInt32
  | Int64 => if a then TInt64A else TInt64
  | UInt64 => if a then TUInt64A else TUInt64
  | Float32 => if a then TFloat32A else TFloat32
  | Float64 => if a then TFloat64A else TFloat64
  | String_ => TString
  end.

Definition standardDisplayFormChoices : list string :=
  ["Default"; "String"; "Binary"; "Decimal"; "Hex"; "Exponential"; "Engineering"].

Definition displayFormIndex (form : DisplayForm) : Z :=
  match form with
  | Default => 0 | String_form => 1 | Binary => 2 | Decimal => 3 | Hex => 4 | Exponential => 5 | Engineering => 6
  end.

(** The range of an integral type code. *)
Definition intRange (c : TypeCode) : option (Z * Z) :=
  match c with
  | TInt8 => Some (- 2 ^ 7, 2 ^ 7 - 1) | TUInt8 => Some (0, 2 ^ 8 - 1)
  | TInt16 => Some (- 2 ^ 15, 2 ^ 15 - 1) | TUInt16 => Some (0, 2 ^ 16 - 1)
  | TInt32 => Some (- 2 ^ 31, 2 ^ 31 - 1) | TUInt32 => Some (0, 2 ^ 32 - 1)
  | TInt64 => Some (- 2 ^ 63, 2 ^ 63 - 1) | TUInt64 => Some (0, 2 ^ 64 - 1)
  | _ => None
  end.

(** [static_cast] of a [double] to the field's type; [None] when C++ leaves it
    undefined (a non-finite value, or a truncated value outside the type). *)
Definition castNumeric (c : TypeCode) (x : spec_float) : option (option field_data) :=
  match intRange c with
  | Some (lo, hi) =>
      z ← f_trunc x;
      if (lo <=? z) && (z <=? hi) then Some (Some (FInt z)) else None
  | None =>
      match c with
      | TFloat32 => Some (Some (FReal (f_convert binary32 x)))
      | TFloat64 => Some (Some (FReal x))
      | _ => Some None
      end
  end.

Section Values.
Context {V : Type} `{PvxsValue V}.

Definition v_valid (v : V) (p : string) : bool := is_some (v_code v p).

(** [None] is undefined behaviour. *)
Definition assignTypedNumeric (v : V) (p : string) (input : option spec_float) (defaultValue : spec_float)
    : option V :=
  match v_code v p with
  | Some c =>
      d ← castNumeric c (default defaultValue input);
      Some (match d with Some d => v_assign v p d | None => v end)
  | None => Some v
  end.

Definition assign_if_valid (v : V) (p : string) (d : field_data) : V :=
  if v_valid v p then v_assign v p d else v.

Definition numeric_if_valid (v : V) (p : string) (input : option spec_float) (dflt : spec_float) : option V :=
  if v_valid v p then assignTypedNumeric v p input dflt else Some v.

Definition f_zero : spec_float := S754_zero false.

Definition applyStandardMetadata (v : V) (config : PVConfig) : option V :=
  let md := pv_metadata config in
  let v := assign_if_valid v "display.description" (FString (md_description md)) in
  let v := assign_if_valid v "display.units" (FString (md_units md)) in
  v ← numeric_if_valid v "display.limitLow" (lim_low (md_display md)) f_zero;
  v ← numeric_if_valid v "display.limitHigh" (lim_high (md_display md)) f_zero;
  let v := assign_if_valid v "display.precision" (FInt (default 0 (md_precision md))) in
  let v := assign_if_valid v "display.form.index" (FInt (displayFormIndex (default Default (md_form md)))) in
  let v := assign_if_valid v "display.form.choices" (FStrings standardDisplayFormChoices) in
  v ← numeric_if_valid v "control.limitLow" (lim_low (md_control md)) f_zero;
  v ← numeric_if_valid v "control.limitHigh" (lim_high (md_control md)) f_zero;
  numeric_if_valid v "control.minStep" (md_minStep md) f_zero.

(** [timestampNs] 0 asks for the current time. *)
Definition applyTimestamp (v : V) (timestampNs : Z) (clock : option (Z * Z)) : V :=
  let timestamp := if timestampNs =? 0 then currentTimeNs clock else timestampNs in
  let '(seconds, nanoseconds) := splitTimestamp timestamp in
  v_assign (v_assign (v_assign v "timeStamp.secondsPastEpoch" (FInt seconds))
                     "timeStamp.nanoseconds" (FInt nanoseconds))
           "timeStamp.userTag" (FInt 0).

Definition applyAlarmFields (v : V) (config : PVConfig) (alarmState : AlarmState) : option V :=
  let al := pv_alarms config in
  let v := v_assign v "alarm.severity" (FInt (am_severity alarmState)) in
  let v := v_assign v "alarm.status" (FInt (am_status alarmState)) in
  let v := v_assign v "alarm.message" (FString (am_message alarmState)) in
  if negb (v_valid v "valueAlarm.active") then Some v
  else
    let v := v_assign v "valueAlarm.active" (FBool (hasAlarmRules config)) in
    let code := v_code v "valueAlarm.lowAlarmLimit" in
    let floatingDefault :=
      if bool_decide (code = Some TFloat32) || bool_decide (code = Some TFloat64) then S754_nan else f_zero in
    v ← assignTypedNumeric v "valueAlarm.lowAlarmLimit" (al_lowAlarm al) floatingDefault;
    v ← assignTypedNumeric v "valueAlarm.lowWarningLimit" (al_lowWarning al) floatingDefault;
    v ← assignTypedNumeric v "valueAlarm.highWarningLimit" (al_highWarning al) floatingDefault;
    v ← assignTypedNumeric v "valueAlarm.highAlarmLimit" (al_highAlarm al) floatingDefault;
    let sev {A} (o : option A) s := FInt (if is_some o then s else epicsSevNone) in
    let v := v_assign v "valueAlarm.lowAlarmSeverity" (sev (al_lowAlarm al) epicsSevMajor) in
    let v := v_assign v "valueAlarm.lowWarningSeverity" (sev (al_lowWarning al) epicsSevMinor) in
    let v := v_assign v "valueAlarm.highWarningSeverity" (sev (al_highWarning al) epicsSevMinor) in
    let v := v_assign v "valueAlarm.highAlarmSeverity" (sev (al_highAlarm al) epicsSevMajor) in
    Some (v_assign v "valueAlarm.hysteresis" (FReal (al_hysteresis al))).

(** [pvxs::nt::NTScalar{code, display, control, valueAlarm, form}.create()] is
    the library's. *)
Definition createInitialValue (ntscalar : TypeCode -> bool -> bool -> bool -> bool -> V)
    (config : PVConfig) (clock : option (Z * Z)) : option V :=
  let numeric := isNumericType (pv_type config) in
  let v := ntscalar (pvxsTypeCodeFor config) true numeric numeric numeric in
  v ← applyStandardMetadata v config;
  v ← applyAlarmFields v config (Build_AlarmState epicsSevNone epicsAlarmNone "");
  Some (applyTimestamp v 0 clock).
End Values.

Section ValueFacts.
Context {V : Type} `{PvxsValue V}.
Implicit Types v : V.

(** [frame P v v']: [v'] has the layout of [v] and the leaves outside [P] are
    untouched. *)
Definition frame (P : string -> Prop) v v' : Prop :=
  (forall p, v_code v' p = v_code v p) /\
  forall p, ~ P p -> v_data v' p = v_data v p /\ v_marked v' p = v_marked v p.

#[global] Instance frame_refl P : Reflexive (frame P).
Proof. intros v. by split. Qed.
#[global] Instance frame_trans P : Transitive (frame P).
Proof.
  intros v1 v2 v3 [Hc1 Hd1] [Hc2 Hd2]. split; [intros; by rewrite Hc2|].
  intros p Hp. destruct (Hd1 p Hp) as [<- <-]. by apply Hd2.
Qed.

Lemma frame_assign (P : string -> Prop) v p d : P p -> v_code v p <> None -> frame P v (v_assign v p d).
Proof.
  intros HP Hv. split; [intros; apply v_code_assign|]. intros q Hq.
  rewrite v_data_assign, v_marked_assign by done.
  destruct (String.eqb_spec q p) as [->|]; done.
Qed.

Lemma frame_assign_if (P : string -> Prop) v p d : P p -> frame P v (assign_if_valid v p d).
Proof.
  intros HP. unfold assign_if_valid, v_valid. destruct (v_code v p) eqn:E; cbn; [|done].
  apply frame_assign; [done|congruence].
Qed.

Lemma frame_assign_if_r (P : string -> Prop) v0 v p d :
  frame P v0 v -> P p -> frame P v0 (assign_if_valid v p d).
Proof. intros Hf HP. etrans; [exact Hf|]. by apply frame_assign_if. Qed.

(** A cast the language defines, for the type the leaf has. *)
Definition castable v p (x : spec_float) : Prop :=
  match v_code v p with Some c => castNumeric c x <> None | None => True end.

Lemma castable_frame P v v' p x : frame P v v' -> castable v' p x <-> castable v p x.
Proof. intros [Hc _]. unfold castable. by rewrite Hc. Qed.

Lemma numeric_if_valid_spec (P : string -> Prop) v p input dflt :
  P p ->
  (castable v p (default dflt input) -> exists v', numeric_if_valid v p input dflt = Some v' /\ frame P v v') /\
  (~ castable v p (default dflt input) -> numeric_if_valid v p input dflt = None).
Proof.
  intros HP. unfold numeric_if_valid, assignTypedNumeric, castable, v_valid.
  destruct (v_code v p) as [c|] eqn:E; cbn; [|naive_solver].
  destruct (castNumeric c (default dflt input)) as [d|]; cbn; [|naive_solver].
  split; [|naive_solver]. intros _. eexists. split; [done|].
  destruct d; [apply frame_assign; [done|congruence]|done].
Qed.

Definition metadata_path (p : string) : Prop :=
  p ∈ ["display.description"; "display.units"; "display.limitLow"; "display.limitHigh"; "display.precision";
       "display.form.index"; "display.form.choices"; "control.limitLow"; "control.limitHigh"; "control.minStep"].

(** Every numeric limit fits the type of the leaf it is stored in. *)
Definition limits_fit v (config : PVConfig) : Prop :=
  let md := pv_metadata config in
  castable v "display.limitLow" (default f_zero (lim_low (md_display md))) /\
  castable v "display.limitHigh" (default f_zero (lim_high (md_display md))) /\
  castable v "control.limitLow" (default f_zero (lim_low (md_control md))) /\
  castable v "control.limitHigh" (default f_zero (lim_high (md_control md))) /\
  castable v "control.minStep" (default f_zero (md_minStep md)).

Ltac metadata_member := apply (bool_decide_unpack _); vm_compute; exact I.

(** One [valid()]-guarded numeric assignment of the chain. *)
Lemma numeric_step (P : string -> Prop) v0 v p input dflt (k : V -> option V) :
  P p -> frame P v0 v ->
  (castable v0 p (default dflt input) -> forall v', frame P v0 v' ->
     exists v'', k v' = Some v'' /\ frame P v0 v'') ->
  castable v0 p (default dflt input) ->
  exists v'', (numeric_if_valid v p input dflt ≫= k) = Some v'' /\ frame P v0 v''.
Proof.
  intros HP Hf Hk Hc. destruct (numeric_if_valid_spec P v p input dflt HP) as [Hs _].
  destruct Hs as (v1 & -> & Hf1); [by rewrite castable_frame|]. cbn. apply Hk; [done|]. by etrans.
Qed.

Lemma applyStandardMetadata_defined v config :
  limits_fit v config ->
  exists v', applyStandardMetadata v config = Some v' /\ frame metadata_path v v'.
Proof.
  intros (H1 & H2 & H3 & H4 & H5). unfold applyStandardMetadata. cbn zeta.
  eapply (numeric_step metadata_path); [metadata_member| |intros _ v1 F1|done].
  { do 2 (apply frame_assign_if_r; [|metadata_member]). done. }
  eapply (numeric_step metadata_path); [metadata_member|done|intros _ v2 F2|done].
  eapply (numeric_step metadata_path); [metadata_member| |intros _ v3 F3|done].
  { do 3 (apply frame_assign_if_r; [|metadata_member]). done. }
  eapply (numeric_step metadata_path); [metadata_member|done|intros _ v4 F4|done].
  destruct (numeric_if_valid_spec metadata_path v4 "control.minStep" (md_minStep (pv_metadata config)) f_zero)
    as [Hs _]; [metadata_member|].
  destruct Hs as (v5 & -> & F5); [by rewrite castable_frame|]. exists v5. split; [done|]. by etrans.
Qed.

(** Metadata reaches only its own leaves: when the limits fit the types
    of the leaves they are stored in, [applyStandardMetadata] succeeds, keeps
    the layout and leaves the value, the alarm, the time stamp and every other
    leaf with its data and its change mark. *)
Theorem applyStandardMetadata_frame v config :
  limits_fit v config ->
  exists v', applyStandardMetadata v config = Some v' /\
    (forall p, v_code v' p = v_code v p) /\
    (forall p, ~ metadata_path p -> v_data v' p = v_data v p /\ v_marked v' p = v_marked v p).
Proof.
  intros Hfit. destruct (applyStandardMetadata_defined v config Hfit) as (v' & ? & ? & ?). eauto.
Qed.

(** A display limit outside an integer PV's type makes the assignment of
    the metadata undefined: the [static_cast] of a [double] the type cannot
    represent.  Nothing between the parser and this cast checks the range. *)
Theorem applyStandardMetadata_limit_undefined v config c lo hi x z :
  v_code v "display.limitHigh" = Some c -> intRange c = Some (lo, hi) ->
  lim_high (md_display (pv_metadata config)) = Some x -> f_trunc x = Some z -> (z < lo \/ hi < z) ->
  applyStandardMetadata v config = None.
Proof.
  intros Hc Hr Hx Hz Hout. unfold applyStandardMetadata. cbn zeta.
  set (v1 := assign_if_valid _ "display.units" _).
  assert (frame metadata_path v v1) as F1.
  { subst v1. do 2 (apply frame_assign_if_r; [|metadata_member]). done. }
  destruct (numeric_if_valid v1 "display.limitLow" _ _) as [v2|] eqn:E2; [|done]. cbn.
  assert (frame metadata_path v1 v2) as F2.
  { destruct (numeric_if_valid_spec metadata_path v1 "display.limitLow"
      (lim_low (md_display (pv_metadata config))) f_zero ltac:(metadata_member)) as [Hs Hn].
    destruct (decide (numeric_if_valid v1 "display.limitLow" (lim_low (md_display (pv_metadata config))) f_zero = None));
      [congruence|].
    assert (castable v1 "display.limitLow" (default f_zero (lim_low (md_display (pv_metadata config))))) as Hca.
    { unfold castable in *. destruct (v_code v1 "display.limitLow") as [c'|]; [|done].
      intros Hbad. specialize (Hn ltac:(naive_solver)). congruence. }
    destruct (Hs Hca) as (? & ? & ?). by simplify_eq. }
  rewrite (proj2 (numeric_if_valid_spec metadata_path v2 "display.limitHigh" _ f_zero ltac:(metadata_member))); [done|].
  rewrite (castable_frame _ _ _ _ _ F2), (castable_frame _ _ _ _ _ F1). unfold castable. rewrite Hc, Hx. cbn.
  unfold castNumeric. rewrite Hr, Hz. cbn.
  destruct (Z.leb_spec lo z), (Z.leb_spec z hi); cbn; try lia; intros Hn; by apply Hn.
Qed.
End ValueFacts.

(** ** A concrete structure *)

Module MapValue.

(** Leaves by path: type code, stored data, change mark. *)
Abbreviation t := (gmap string (TypeCode * option field_data * bool)).

Definition assign (v : t) (p : string) (d : field_data) : t :=
  match v !! p with Some (c, _, _) => <[p := (c, Some d, true)]> v | None => v end.

#[global] Instance pvxs_value : PvxsValue t.
Proof.
  refine {|
    v_code := fun (v : t) p => (fun x : TypeCode * option field_data * bool => x.1.1) <$> v !! p;
    v_data := fun (v : t) p => v !! p ≫= fun x : TypeCode * option field_data * bool => x.1.2;
    v_marked := fun (v : t) p => match v !! p with Some (_, _, m) => m | None => false end;
    v_assign := assign |}.
  - intros v p d q. unfold assign. destruct (v !! p) as [[[c x] m]|] eqn:E; [|done].
    destruct (decide (q = p)) as [->|]; [by rewrite lookup_insert_eq, E|by rewrite lookup_insert_ne].
  - intros v p d q Hv. unfold assign. destruct (v !! p) as [[[c x] m]|] eqn:E; [|by destruct Hv].
    destruct (String.eqb_spec q p) as [->|]; [by rewrite lookup_insert_eq|by rewrite lookup_insert_ne].
  - intros v p d q Hv. unfold assign. destruct (v !! p) as [[[c x] m]|] eqn:E; [|by destruct Hv].
    destruct (String.eqb_spec q p) as [->|]; [by rewrite lookup_insert_eq|by rewrite lookup_insert_ne].
Defined.

(** The leaves of a numeric NTScalar the metadata touches. *)
Definition int8_scalar : t :=
  list_to_map [("value", (TInt8, Some (FInt 5), false)); ("display.limitLow", (TInt8, None, false));
               ("display.limitHigh", (TInt8, None, false)); ("control.limitLow", (TInt8, None, false));
               ("control.limitHigh", (TInt8, None, false)); ("control.minStep", (TInt8, None, false))].

Definition int8_config (high : Z) : PVConfig :=
  PVConfig_default <| pv_type := Int8 |>
    <| pv_metadata := MetadataConfig_default <| md_display :=
         {| lim_low := None; lim_high := Some (f_of_Z binary64 high) |} |> |>.
End MapValue.

Lemma applyStandardMetadata_frame_witness :
  exists v', applyStandardMetadata MapValue.int8_scalar (MapValue.int8_config 100) = Some v' /\
    (forall p, v_code v' p = v_code MapValue.int8_scalar p) /\
    (forall p, ~ metadata_path p -> v_data v' p = v_data MapValue.int8_scalar p /\
       v_marked v' p = v_marked MapValue.int8_scalar p).
Proof.
  apply (applyStandardMetadata_frame MapValue.int8_scalar (MapValue.int8_config 100)).
  vm_compute. split_and!; discriminate.
Defined.

Lemma applyStandardMetadata_limit_undefined_witness :
  applyStandardMetadata MapValue.int8_scalar (MapValue.int8_config 1000) = None.
Proof.
  apply (applyStandardMetadata_limit_undefined MapValue.int8_scalar (MapValue.int8_config 1000) TInt8
    (-128) 127 (f_of_Z binary64 1000) 1000); try (by vm_compute). right. lia.
Defined.
