(* ===== verification/AlarmWorker.v ===== *)
(** * The alarm publisher

    src/alarm_worker.cpp, src/alarm_publisher.cpp and
    include/redis_pvxs_ioc/alarm_publisher.h: alarm transitions of the PVs are
    kept in fixed-size slots and a fixed ring, and one worker thread appends
    them to a Redis stream, reconciling from the slots whenever the ring could
    not carry everything.

    Each critical section is a function on [Impl]; the worker's loop is cut
    where it unlocks to talk to Redis ([worker_select], then
    [worker_result] with whatever the server answered).  What happens in
    between, on the connection to Redis, is in AlarmLink; here its outcome is a
    [SendResult].

    A [weak_ptr] to a removed slot is modelled by an id that is no longer in
    [slots]: whether or not some thread still keeps the object alive, the code
    treats both alike, because [remove] has cleared [active]. *)

From S2P Require Import Prelude StrMap Floats Config Util.

Local Open Scope string_scope.
Local Open Scope list_scope.
Local Open Scope Z_scope.

(** ** Stream records (alarm_publisher.cpp) *)

Section Fields.
(** EPICS' tables of condition and severity names. *)
Context (conditionStrings severityStrings : list string).

Definition makeAlarmStreamFields (pvName : string) (state : AlarmState) (timestamp : Z) : list (string * string) :=
  let name_of table i dflt :=
    if (0 <=? i) && (i <? Z.of_nat (length table)) then nth (Z.to_nat i) table dflt else dflt in
  let status := name_of conditionStrings (am_status state) "INVALID" in
  let severity := name_of severityStrings (am_severity state) (nth (Z.to_nat epicsSevInvalid) severityStrings "") in
  let clear := (am_status state =? epicsAlarmNone) && (am_severity state =? epicsSevNone) in
  [("device", pvName); ("source", status); ("severity", severity);
   ("timestamp", to_dec timestamp); ("detail", status)] ++
  (if clear then []
   else [("message", if str_empty (am_message state) then status +:+ " alarm is " +:+ severity
                     else am_message state)]).
End Fields.

(** ** Fixed-size states *)

Definition kMessageBytes : nat := 512.

(** [length] and [message] together are the string of the stored bytes. *)
Record StoredState := { st_severity : Z; st_status : Z; st_message : string }.
#[export] Instance StoredState_eq_dec : EqDecision StoredState.
Proof. solve_decision. Defined.

(** [(byte & 0xc0) == 0x80] *)
Definition isContinuation (c : Ascii.ascii) : bool := Z.land (ascii_code c) 192 =? 128.

Definition continuation_at (s : string) (i : nat) : bool :=
  match String.get i s with Some c => isContinuation c | None => false end.

(** The [while] that steps back to the start of a character. *)
Fixpoint stepBack (s : string) (length : nat) : nat :=
  match length with
  | O => O
  | S n => if continuation_at s length then stepBack s n else length
  end.

Definition StoredState_encode (state : AlarmState) : StoredState * bool :=
  let message := am_message state in
  let truncated := (kMessageBytes <? String.length message)%nat in
  let stored :=
    if truncated then
      String.substring 0 (stepBack message (Nat.min (String.length message) (kMessageBytes - 3))) message +:+ "..."
    else String.substring 0 (Nat.min (String.length message) kMessageBytes) message in
  ({| st_severity := am_severity state; st_status := am_status state; st_message := stored |}, truncated).

Definition StoredState_decode (s : StoredState) : AlarmState :=
  {| am_severity := st_severity s; am_status := st_status s; am_message := st_message s |}.

(** ** The memory budget *)

Record Budget := { bu_limit : Z; bu_used : Z; bu_peak : Z }.
#[export] Instance Budget_eta : Eta Budget := fun r => Build_Budget (bu_limit r) (bu_used r) (bu_peak r).

(** The compare-exchange loops leave exactly one successful exchange. *)
Definition acquire (b : Budget) (bytes : Z) : exn Budget :=
  if (bu_limit b <? bytes) || (u64 (bu_limit b - bytes) <? bu_used b)
  then Throw "alarm state budget exceeded during preparation"
  else Ret (b <| bu_used := u64 (bu_used b + bytes) |>
              <| bu_peak ::= Z.max (u64 (bu_used b + bytes)) |>).

Definition release (b : Budget) (bytes : Z) : Budget := b <| bu_used ::= fun n => u64 (n - bytes) |>.

(** ** Slots and the ring *)

Record Slot := {
  sl_bytes : Z;
  sl_name : string;
  sl_revision : Z; sl_delivered : Z; sl_deliveredEpoch : Z;
  sl_active : bool; sl_retired : bool; sl_force : bool;
  sl_latest : StoredState;
}.
#[export] Instance Slot_eta : Eta Slot := fun r =>
  Build_Slot (sl_bytes r) (sl_name r) (sl_revision r) (sl_delivered r) (sl_deliveredEpoch r)
    (sl_active r) (sl_retired r) (sl_force r) (sl_latest r).

(** [ev_slot = None] is an empty [weak_ptr]. *)
Record Event := { ev_slot : option Z; ev_state : StoredState; ev_revision : Z; ev_timestamp : Z }.
#[export] Instance Event_eta : Eta Event := fun r =>
  Build_Event (ev_slot r) (ev_state r) (ev_revision r) (ev_timestamp r).

Definition Event_default : Event :=
  {| ev_slot := None; ev_state := {| st_severity := 0; st_status := 0; st_message := "" |};
     ev_revision := 0; ev_timestamp := 0 |}.

(** The circular buffer: [std::vector<Event> ring] with [head] and [count]. *)
Record Ring := { rg_ring : list Event; rg_head : nat; rg_count : nat }.

Definition rg_size (r : Ring) : nat := length (rg_ring r).

Definition rg_push (r : Ring) (e : Event) : Ring :=
  {| rg_ring := <[((rg_head r + rg_count r) `mod` rg_size r)%nat := e]> (rg_ring r);
     rg_head := rg_head r; rg_count := S (rg_count r) |}.

(** [event = std::move(ring[head]); ring[head].slot.reset(); head = ...; --count] *)
Definition rg_pop (r : Ring) : Event * Ring :=
  let e := nth (rg_head r) (rg_ring r) Event_default in
  (e, {| rg_ring := <[rg_head r := e <| ev_slot := None |>]> (rg_ring r);
         rg_head := ((rg_head r + 1) `mod` rg_size r)%nat; rg_count := pred (rg_count r) |}).

Fixpoint rg_discard (n : nat) (r : Ring) : Ring :=
  match n with O => r | S n => rg_discard n (rg_pop r).2 end.

(** ** The publisher *)

Record AlarmPublisherOptions := {
  op_stateBytes : Z; op_queueEntries : Z; op_ioTimeoutMs : Z; op_retryMs : Z; op_heartbeatMs : Z;
}.

Record AlarmPublisherStatus := {
  ct_sent : Z; ct_transportFailures : Z; ct_rejected : Z; ct_reconciled : Z;
  ct_coalescedUpdates : Z; ct_discardedTransitions : Z; ct_messagesTruncated : Z;
  ct_lastError : string;
}.
#[export] Instance AlarmPublisherStatus_eta : Eta AlarmPublisherStatus := fun r =>
  Build_AlarmPublisherStatus (ct_sent r) (ct_transportFailures r) (ct_rejected r) (ct_reconciled r)
    (ct_coalescedUpdates r) (ct_discardedTransitions r) (ct_messagesTruncated r) (ct_lastError r).

(** What the worker has in hand while it talks to Redis; [None] in the slot is
    a [PING]. *)
Record Flight := {
  fl_slot : option Z; fl_event : Event; fl_reconciliation : bool; fl_sendingEpoch : Z;
}.

Record Impl := {
  im_budget : Budget;
  im_ring : Ring;
  im_slots : gmap Z Slot;
  im_names : gmap string (list Z);
  im_nextId : Z; im_lastId : Z; im_epoch : Z;
  im_enabled : bool; im_stopping : bool; im_recovering : bool; im_live : bool;
  im_counters : AlarmPublisherStatus;
  im_retryAt : Z; im_heartbeat : Z;
  im_flight : option Flight;
  im_deferred : Z;
}.
#[export] Instance Impl_eta : Eta Impl := fun r =>
  Build_Impl (im_budget r) (im_ring r) (im_slots r) (im_names r) (im_nextId r) (im_lastId r) (im_epoch r)
    (im_enabled r) (im_stopping r) (im_recovering r) (im_live r) (im_counters r) (im_retryAt r)
    (im_heartbeat r) (im_flight r) (im_deferred r).

Definition Impl_new (options : AlarmPublisherOptions) (now : Z) : exn Impl :=
  if (op_queueEntries options =? 0) || (op_ioTimeoutMs options =? 0) || (op_retryMs options =? 0) ||
     (op_heartbeatMs options =? 0) ||
     (op_stateBytes options / kAlarmQueueEntryBytes <? op_queueEntries options)
  then Throw "alarm queue must fit within a positive state budget"
  else
    b ← acquire {| bu_limit := op_stateBytes options; bu_used := 0; bu_peak := 0 |}
                (u64 (op_queueEntries options * kAlarmQueueEntryBytes));
    Ret {| im_budget := b;
           im_ring := {| rg_ring := replicate (Z.to_nat (op_queueEntries options)) Event_default;
                         rg_head := 0; rg_count := 0 |};
           im_slots := ∅; im_names := ∅; im_nextId := 0; im_lastId := 0; im_epoch := 1;
           im_enabled := false; im_stopping := false; im_recovering := true; im_live := false;
           im_counters := Build_AlarmPublisherStatus 0 0 0 0 0 0 0 "";
           im_retryAt := 0; im_heartbeat := now; im_flight := None; im_deferred := 0 |}.

(** [candidate->active && !candidate->retired] for an id of [names]. *)
Definition in_service (s : Impl) (id : Z) : bool :=
  match im_slots s !! id with Some sl => sl_active sl && negb (sl_retired sl) | None => false end.

(** The newest registration of a name that is in service is the current one;
    [names[name]] is in ascending order of id. *)
Definition current (s : Impl) (id : Z) : bool :=
  match im_slots s !! id with
  | Some sl =>
      sl_active sl && negb (sl_retired sl) &&
      match im_names s !! sl_name sl with
      | None => false
      | Some ids => match List.find (in_service s) (rev ids) with
                    | Some candidate => candidate =? id
                    | None => false
                    end
      end
  | None => false
  end.

Definition pending (s : Impl) (sl : Slot) : bool :=
  sl_force sl || negb (sl_deliveredEpoch sl =? im_epoch s) || (sl_delivered sl <? sl_revision sl).

Definition discardQueue (s : Impl) : Impl :=
  s <| im_counters := (im_counters s) <| ct_discardedTransitions ::= fun n =>
         u64 (n + Z.of_nat (rg_count (im_ring s))) |> |>
    <| im_ring ::= fun r => rg_discard (rg_count r) r |>.

(** [std::map<uint64_t, ...>::emplace] on the key list. *)
Fixpoint id_insert (id : Z) (l : list Z) : list Z :=
  match l with
  | [] => [id]
  | x :: l' => if id <? x then id :: l else if id =? x then l else x :: id_insert id l'
  end.

Definition prepare (s : Impl) (name : string) (state : AlarmState) : exn (Impl * Z) :=
  if (max_u64 - 1024) / 2 <? strlen name then Throw "alarm name too large"
  else
    b ← acquire (im_budget s) (u64 (1024 + 2 * strlen name));
    let '(latest, truncated) := StoredState_encode state in
    if im_stopping s then Throw "alarm publisher stopped"
    else
      let id := u64 (im_nextId s + 1) in
      let slot := {| sl_bytes := u64 (1024 + 2 * strlen name); sl_name := name; sl_revision := 1;
                     sl_delivered := 0; sl_deliveredEpoch := 0; sl_active := false; sl_retired := false;
                     sl_force := true; sl_latest := latest |} in
      Ret (s <| im_budget := b |>
             <| im_nextId := id |>
             <| im_slots := match im_slots s !! id with Some _ => im_slots s | None => <[id := slot]> (im_slots s) end |>
             <| im_names := <[name := id_insert id (default [] (im_names s !! name))]> (im_names s) |>
             <| im_counters := (im_counters s) <| ct_messagesTruncated ::= fun n =>
                                 if truncated then u64 (n + 1) else n |> |>, id).

Definition in_flight (s : Impl) (id : Z) : bool :=
  match im_flight s with Some f => bool_decide (fl_slot f = Some id) | None => false end.

(** [Registration::~Registration] through [Impl::remove].  The slot's
    reservation goes with its last owner, which is the worker while it is
    sending that slot ([im_deferred]). *)
Definition remove (s : Impl) (id : Z) : Impl :=
  match im_slots s !! id with
  | None => s
  | Some sl =>
      s <| im_slots := delete id (im_slots s) |>
        <| im_names := match im_names s !! sl_name sl with
                       | None => im_names s
                       | Some ids =>
                           let ids := filter (fun x => x <> id) ids in
                           if bool_decide (ids = []) then delete (sl_name sl) (im_names s)
                           else <[sl_name sl := ids]> (im_names s)
                       end |>
        <| im_budget ::= fun b => if in_flight s id then b else release b (sl_bytes sl) |>
        <| im_deferred ::= fun n => if in_flight s id then n + sl_bytes sl else n |>
  end.

Definition update (s : Impl) (id : Z) (state : AlarmState) (time : Z) : Impl :=
  let '(encoded, truncated) := StoredState_encode state in
  match im_slots s !! id with
  | None => s
  | Some sl =>
      if im_stopping s || sl_retired sl || bool_decide (sl_latest sl = encoded) then s
      else
        let sl := sl <| sl_latest := encoded |> <| sl_revision ::= fun n => u64 (n + 1) |> in
        let s := s <| im_slots := <[id := sl]> (im_slots s) |>
                   <| im_counters := (im_counters s) <| ct_messagesTruncated ::= fun n =>
                                       if truncated then u64 (n + 1) else n |> |> in
        if im_enabled s && current s id then
          if im_live s && negb (im_recovering s) && (rg_count (im_ring s) <? rg_size (im_ring s))%nat then
            s <| im_ring ::= fun r => rg_push r {| ev_slot := Some id; ev_state := encoded;
                                                   ev_revision := sl_revision sl; ev_timestamp := time |} |>
          else
            let s := s <| im_counters := (im_counters s) <| ct_coalescedUpdates ::= fun n => u64 (n + 1) |> |> in
            if (rg_count (im_ring s) =? rg_size (im_ring s))%nat then
              (discardQueue s) <| im_epoch ::= fun n => u64 (n + 1) |> <| im_recovering := true |>
            else s
        else s
  end.

Definition activate_slot (s : Impl) (id : Z) : Impl :=
  match im_slots s !! id with
  | None => s
  | Some sl =>
      if negb (sl_retired sl) && negb (sl_active sl)
      then s <| im_slots := <[id := sl <| sl_active := true |> <| sl_force := true |>]> (im_slots s) |>
      else s
  end.

Definition retire_slot (s : Impl) (id : Z) : Impl :=
  match im_slots s !! id with
  | None => s
  | Some sl => s <| im_slots := <[id := sl <| sl_active := false |> <| sl_retired := true |>]> (im_slots s) |>
  end.

Definition activate (s : Impl) : Impl := s <| im_enabled := true |>.
Definition stop (s : Impl) : Impl := s <| im_stopping := true |>.

(** The loop that takes the first live transition off the ring. *)
Fixpoint takeQueued (fuel : nat) (s : Impl) : Impl * option (Z * Event) :=
  match fuel with
  | O => (s, None)
  | S fuel =>
      if (rg_count (im_ring s) =? 0)%nat then (s, None)
      else
        let '(event, ring) := rg_pop (im_ring s) in
        let s := s <| im_ring := ring |> in
        match ev_slot event with
        | Some id => if current s id then (s, Some (id, event))
                     else takeQueued fuel (s <| im_counters := (im_counters s)
                            <| ct_discardedTransitions ::= fun n => u64 (n + 1) |> |>)
        | None => takeQueued fuel (s <| im_counters := (im_counters s)
                    <| ct_discardedTransitions ::= fun n => u64 (n + 1) |> |>)
        end
  end.

(** [slots.upper_bound(lastId)], wrapping around: the ids in the order in
    which the round-robin scan visits them. *)
Definition slot_ids (s : Impl) : list Z := merge_sort Z.le (map fst (map_to_list (im_slots s))).
Definition scanOrder (s : Impl) : list Z :=
  filter (fun id => im_lastId s < id) (slot_ids s) ++ filter (fun id => id <= im_lastId s) (slot_ids s).

Definition needsSend (s : Impl) (id : Z) : bool :=
  current s id && match im_slots s !! id with Some sl => pending s sl | None => false end.

(** The first critical section of [run()]: what to send, if anything. *)
Definition worker_select (s : Impl) (now time : Z) : Impl :=
  if im_stopping s || negb (im_enabled s) || (now <? im_retryAt s) then s
  else
    let '(s, queued) := takeQueued (rg_count (im_ring s)) s in
    match queued with
    | Some (id, event) =>
        s <| im_flight := Some {| fl_slot := Some id; fl_event := event; fl_reconciliation := false;
                                  fl_sendingEpoch := im_epoch s |} |>
    | None =>
        match List.find (needsSend s) (scanOrder s) with
        | Some id =>
            match im_slots s !! id with
            | Some sl =>
                s <| im_lastId := id |>
                  <| im_flight := Some {| fl_slot := Some id;
                       fl_event := {| ev_slot := Some id; ev_state := sl_latest sl;
                                      ev_revision := sl_revision sl; ev_timestamp := time |};
                       fl_reconciliation := true; fl_sendingEpoch := im_epoch s |} |>
            | None => s
            end
        | None =>
            let s := s <| im_recovering ::= fun b => if im_live s then false else b |> in
            let hasActive := existsb (current s) (slot_ids s) in
            if negb hasActive || (now <? im_heartbeat s) then s
            else s <| im_flight := Some {| fl_slot := None; fl_event := Event_default;
                                           fl_reconciliation := false; fl_sendingEpoch := im_epoch s |} |>
        end
    end.

Inductive SendResult := Accepted | Rejected | Unavailable.
#[export] Instance SendResult_eq_dec : EqDecision SendResult.
Proof. solve_decision. Defined.

(** The second critical section of [run()]. *)
Definition worker_result (options : AlarmPublisherOptions) (s : Impl) (result : SendResult) (now : Z) : Impl :=
  match im_flight s with
  | None => s
  | Some f =>
      let s := s <| im_flight := None |> <| im_heartbeat := now + op_heartbeatMs options |>
                 <| im_budget ::= fun b => release b (im_deferred s) |> <| im_deferred := 0 |> in
      match result with
      | Accepted =>
          let s := s <| im_live := true |>
                     <| im_counters := (im_counters s) <| ct_lastError := "" |> |> in
          match fl_slot f with
          | None => s
          | Some id =>
              let s := s <| im_counters := (im_counters s) <| ct_sent ::= fun n => u64 (n + 1) |>
                              <| ct_reconciled ::= fun n => if fl_reconciliation f then u64 (n + 1) else n |> |> in
              if current s id then
                s <| im_slots := alter (fun sl => sl <| sl_delivered ::= Z.max (ev_revision (fl_event f)) |>
                                                     <| sl_deliveredEpoch := fl_sendingEpoch f |>
                                                     <| sl_force := false |>) id (im_slots s) |>
              else s
          end
      | Rejected | Unavailable =>
          let s := match result with
                   | Rejected => s <| im_counters := (im_counters s) <| ct_rejected ::= fun n => u64 (n + 1) |>
                                        <| ct_lastError := "Redis rejected alarm delivery" |> |>
                   | _ => s <| im_counters := (im_counters s) <| ct_transportFailures ::= fun n => u64 (n + 1) |>
                                  <| ct_lastError := "Redis alarm transport unavailable" |> |>
                            <| im_live := false |>
                   end in
          (discardQueue s) <| im_epoch ::= fun n => u64 (n + 1) |> <| im_recovering := true |>
                           <| im_retryAt := now + op_retryMs options |>
      end
  end.

(** What [AlarmPublisher::status] adds to the counters. *)
Record AlarmReport := {
  ar_state : string; ar_counters : AlarmPublisherStatus;
  ar_registrations : Z; ar_active : Z; ar_pending : Z; ar_queued : Z;
  ar_reservedBytes : Z; ar_peakBytes : Z; ar_byteLimit : Z; ar_queueLimit : Z;
}.

Definition status (options : AlarmPublisherOptions) (s : Impl) : AlarmReport :=
  let active := Z.of_nat (length (List.filter (current s) (slot_ids s))) in
  let pend := Z.of_nat (length (List.filter (needsSend s) (slot_ids s))) in
  let queued := Z.of_nat (rg_count (im_ring s)) in
  {| ar_state := if im_stopping s then "stopped"
                 else if negb (im_enabled s) then "staged"
                 else if active =? 0 then "idle"
                 else if negb (im_live s) then "disconnected"
                 else if im_recovering s || negb (pend =? 0) || negb (queued =? 0) then "recovering"
                 else "ready";
     ar_counters := im_counters s;
     ar_registrations := Z.of_nat (length (slot_ids s)); ar_active := active; ar_pending := pend; ar_queued := queued;
     ar_reservedBytes := bu_used (im_budget s); ar_peakBytes := bu_peak (im_budget s);
     ar_byteLimit := op_stateBytes options; ar_queueLimit := Z.of_nat (length (rg_ring (im_ring s))) |}.

(** ** Bounded messages *)

Lemma stepBack_le s n : (stepBack s n <= n)%nat.
Proof. induction n as [|n IH]; cbn [stepBack]; [lia|]. destruct (continuation_at s (S n)); lia. Qed.

Lemma stepBack_boundary s n : stepBack s n = O \/ continuation_at s (stepBack s n) = false.
Proof.
  induction n as [|n IH]; cbn [stepBack]; [by left|].
  destruct (continuation_at s (S n)) eqn:E; [done|by right].
Qed.



(** Alarm messages fit their fixed buffer and are cut only where that is
    safe: a message of at most 512 bytes survives encoding and decoding
    unchanged; a longer one becomes a prefix of itself that ends at a UTF-8
    character boundary, followed by three dots, in at most 512 bytes. *)
Theorem StoredState_encode_spec state :
  let '(stored, truncated) := StoredState_encode state in
  (String.length (st_message stored) <= kMessageBytes)%nat /\
  st_severity stored = am_severity state /\ st_status stored = am_status state /\
  (truncated = false <-> (String.length (am_message state) <= kMessageBytes)%nat) /\
  (truncated = false -> StoredState_decode stored = state) /\
  (truncated = true -> exists n rest,
     am_message state = String.substring 0 n (am_message state) +:+ rest /\
     st_message stored = String.substring 0 n (am_message state) +:+ "..." /\
     (n = O \/ continuation_at (am_message state) n = false)).
Proof.
  unfold StoredState_encode. destruct state as [sev stat msg]. cbn [am_severity am_status am_message].
  set (n := stepBack msg (Nat.min (String.length msg) (kMessageBytes - 3))).
  assert (n <= Nat.min (String.length msg) (kMessageBytes - 3))%nat as Hn by apply stepBack_le.
  destruct (Nat.ltb_spec kMessageBytes (String.length msg)) as [Hlt|Hge];
    cbn [st_message st_severity st_status].
  - split_and!; try done.
    + rewrite str_length_app, substring_length by lia. change (String.length "...") with 3%nat.
      unfold kMessageBytes in *. lia.
    + split; [done|]. unfold kMessageBytes in *. lia.
    + intros _. destruct (substring_prefix n msg) as [rest Hr]. exists n, rest. split_and!; [done|done|].
      apply stepBack_boundary.
  - rewrite Nat.min_l by lia. rewrite substring_all by done. split_and!; try done.
Qed.

(** ** The ring is a bounded FIFO *)

Definition ring_list (r : Ring) : list Event :=
  map (fun i => nth ((rg_head r + i) `mod` rg_size r)%nat (rg_ring r) Event_default) (seq 0 (rg_count r)).

Record ring_wf (r : Ring) : Prop := {
  rw_head : (rg_head r < rg_size r)%nat;
  rw_count : (rg_count r <= rg_size r)%nat;
}.

Lemma nth_insert_eq (l : list Event) i e d : (i < length l)%nat -> nth i (<[i := e]> l) d = e.
Proof. intros H. by rewrite nth_lookup, list_lookup_insert_eq. Qed.
Lemma nth_insert_ne (l : list Event) i j e d : i <> j -> nth j (<[i := e]> l) d = nth j l d.
Proof. intros H. by rewrite !nth_lookup, list_lookup_insert_ne. Qed.

(** Distinct offsets below the size are distinct cells. *)
Lemma mod_offset_ne size h i j :
  (h < size)%nat -> (i < size)%nat -> (j < size)%nat -> i <> j ->
  ((h + i) `mod` size)%nat <> ((h + j) `mod` size)%nat.
Proof.
  intros Hh Hi Hj Hne Heq.
  pose proof (Nat.div_mod (h + i) size ltac:(lia)) as H1. pose proof (Nat.div_mod (h + j) size ltac:(lia)) as H2.
  assert (((h + i) / size <= 1)%nat /\ ((h + j) / size <= 1)%nat) as [Ha Hb].
  { split; apply Nat.lt_succ_r, Nat.Div0.div_lt_upper_bound; lia. }
  rewrite Heq in H1.
  assert (forall x, (x <= 1 -> x = 0 \/ x = 1)%nat) as H01 by lia.
  destruct (H01 _ Ha) as [Ea|Ea], (H01 _ Hb) as [Eb|Eb]; rewrite Ea in H1; rewrite Eb in H2; lia.
Qed.

Lemma ring_push r e :
  ring_wf r -> (rg_count r < rg_size r)%nat ->
  ring_wf (rg_push r e) /\ ring_list (rg_push r e) = ring_list r ++ [e] /\ rg_size (rg_push r e) = rg_size r.
Proof.
  intros [Hh Hc] Hlt. assert (rg_size (rg_push r e) = rg_size r) as Hs by apply length_insert.
  split_and!; [split; rewrite Hs; cbn; lia| |done].
  unfold ring_list. rewrite Hs. cbn [rg_head rg_count rg_push rg_ring]. rewrite seq_S, map_app. f_equal.
  - apply map_ext_in. intros i [_ Hi]%in_seq. apply nth_insert_ne, mod_offset_ne; lia.
  - cbn. f_equal. apply nth_insert_eq, Nat.mod_upper_bound. unfold rg_size in *. lia.
Qed.

Lemma ring_pop r :
  ring_wf r -> (0 < rg_count r)%nat ->
  ring_wf (rg_pop r).2 /\ ring_list r = (rg_pop r).1 :: ring_list (rg_pop r).2 /\
  rg_size (rg_pop r).2 = rg_size r /\ rg_count (rg_pop r).2 = pred (rg_count r).
Proof.
  intros [Hh Hc] Hpos.
  assert (rg_size (rg_pop r).2 = rg_size r) as Hs by apply length_insert.
  split_and!; [split; rewrite ?Hs; cbn| |done|done].
  - apply Nat.mod_upper_bound. lia.
  - lia.
  - unfold ring_list. rewrite Hs. cbn [rg_head rg_count rg_pop rg_ring snd fst].
    destruct (rg_count r) as [|n] eqn:En; [lia|]. cbn [seq map pred]. f_equal.
    + rewrite Nat.add_0_r, Nat.mod_small by lia. done.
    + rewrite <-seq_shift, map_map. apply map_ext_in. intros i [_ Hi]%in_seq.
      rewrite Nat.Div0.add_mod_idemp_l. rewrite nth_insert_ne.
      * f_equal. f_equal. lia.
      * replace (rg_head r) with ((rg_head r + 0) `mod` rg_size r)%nat at 1
          by (rewrite Nat.add_0_r, Nat.mod_small; lia).
        replace (rg_head r + 1 + i)%nat with (rg_head r + (1 + i))%nat by lia.
        apply mod_offset_ne; lia.
Qed.

Lemma ring_discard n r :
  ring_wf r -> n = rg_count r ->
  ring_wf (rg_discard n r) /\ ring_list (rg_discard n r) = [] /\ rg_size (rg_discard n r) = rg_size r /\
  rg_count (rg_discard n r) = O.
Proof.
  revert r; induction n as [|n IH]; intros r Hwf Hn; cbn [rg_discard].
  - unfold ring_list. by rewrite <-Hn.
  - destruct (ring_pop r Hwf ltac:(lia)) as (Hwf' & _ & Hs & Hc). rewrite <-Hs. apply IH; [done|lia].
Qed.

(** The circular buffer is a bounded queue: pushing appends at the back
    while there is room, popping takes the oldest entry, and neither ever
    touches another entry, for every position of [head] and every fill. *)
Theorem ring_refines_fifo r e :
  ring_wf r ->
  ((rg_count r < rg_size r)%nat -> ring_wf (rg_push r e) /\ ring_list (rg_push r e) = ring_list r ++ [e]) /\
  (ring_list r <> [] -> ring_wf (rg_pop r).2 /\ ring_list r = (rg_pop r).1 :: ring_list (rg_pop r).2) /\
  ring_list (rg_discard (rg_count r) r) = [] /\
  length (ring_list r) = rg_count r /\ (length (ring_list r) <= rg_size r)%nat.
Proof.
  intros Hwf. assert (length (ring_list r) = rg_count r) as Hlen.
  { unfold ring_list. by rewrite length_map, length_seq. }
  split_and!; [| | |done|].
  - intros H. by destruct (ring_push r e Hwf H) as (? & ? & _).
  - intros H. destruct (ring_pop r Hwf) as (? & ? & _); [|done].
    destruct (rg_count r) eqn:E; [|lia]. by apply length_zero_iff_nil in Hlen.
  - by destruct (ring_discard _ r Hwf eq_refl) as (_ & ? & _).
  - rewrite Hlen. by destruct Hwf.
Qed.

Lemma ring_refines_fifo_witness :
  let r := {| rg_ring := replicate 3 Event_default; rg_head := 2; rg_count := 2 |} in
  let e := Event_default <| ev_revision := 7 |> in
  ring_list (rg_push r e) = ring_list r ++ [e].
Proof.
  apply (ring_refines_fifo {| rg_ring := replicate 3 Event_default; rg_head := 2; rg_count := 2 |}
    (Event_default <| ev_revision := 7 |>)); [split; cbn; lia|cbn; lia].
Defined.
