(* ===== verification/AlarmWorkerSpec.v ===== *)
(** * What the alarm publisher guarantees

    Runs of the publisher of src/alarm_worker.cpp: any interleaving of
    registrations, updates, retirements and worker steps with any answers of
    the server.  The log holds the records the server accepted, in order. *)

From S2P Require Import Prelude StrMap Floats Config Util AlarmWorker.

Local Open Scope string_scope.
Local Open Scope list_scope.
Local Open Scope Z_scope.

(** ** Runs *)

Inductive aop :=
| APrepare (name : string) (state : AlarmState)
| ARemove (id : Z)
| AUpdate (id : Z) (state : AlarmState) (time : Z)
| AActivateSlot (id : Z)
| ARetireSlot (id : Z)
| AActivate
| AStop
| ASelect (now time : Z)
| AResult (result : SendResult) (now : Z).

(** An accepted record: the registration, the revision and the state sent. *)
Abbreviation record := (Z * (Z * StoredState))%type.

Definition accepted_by (s : Impl) (result : SendResult) : list record :=
  match im_flight s, result with
  | Some f, Accepted => match fl_slot f with
                        | Some id => [(id, (ev_revision (fl_event f), ev_state (fl_event f)))]
                        | None => []
                        end
  | _, _ => []
  end.

Definition exec (options : AlarmPublisherOptions) (s : Impl) (o : aop) : Impl * list record :=
  match o with
  | APrepare name state => (match prepare s name state with Ret (s', _) => s' | Throw _ => s end, [])
  | ARemove id => (remove s id, [])
  | AUpdate id state time => (update s id state time, [])
  | AActivateSlot id => (activate_slot s id, [])
  | ARetireSlot id => (retire_slot s id, [])
  | AActivate => (activate s, [])
  | AStop => (stop s, [])
  | ASelect now time => (worker_select s now time, [])
  | AResult result now => (worker_result options s result now, accepted_by s result)
  end.

(** The worker alternates between the two halves of its loop. *)
Definition enabled (s : Impl) (o : aop) : bool :=
  match o with
  | ASelect _ _ => negb (is_some (im_flight s))
  | AResult _ _ => is_some (im_flight s)
  | _ => true
  end.

Inductive reach (options : AlarmPublisherOptions) : nat -> Impl -> list record -> Prop :=
| reach_init now s : Impl_new options now = Ret s -> reach options 0 s []
| reach_step n s log o :
    reach options n s log -> enabled s o = true ->
    reach options (S n) (exec options s o).1 (log ++ (exec options s o).2).

(** ** The trail of a registration

    The records of one registration in the order in which the server sees
    them: accepted, in flight, queued. *)

Definition of_slot {A} (id : Z) (l : list (Z * A)) : list A :=
  omap (fun '(i, x) => if i =? id then Some x else None) l.

Definition flight_records (s : Impl) : list record :=
  match im_flight s with
  | Some f => match fl_slot f with
              | Some id => [(id, (ev_revision (fl_event f), ev_state (fl_event f)))]
              | None => []
              end
  | None => []
  end.

Definition ring_records (r : Ring) : list record :=
  omap (fun e => match ev_slot e with Some id => Some (id, (ev_revision e, ev_state e)) | None => None end)
       (ring_list r).

Definition trail (s : Impl) (log : list record) : list record :=
  log ++ flight_records s ++ ring_records (im_ring s).

Lemma of_slot_app {A} id (l1 l2 : list (Z * A)) : of_slot id (l1 ++ l2) = of_slot id l1 ++ of_slot id l2.
Proof. apply omap_app. Qed.

Lemma of_slot_sublist {A} id (l1 l2 : list (Z * A)) :
  sublist l1 l2 -> sublist (of_slot id l1) (of_slot id l2).
Proof.
  induction 1 as [|[i x] l1 l2 Hs IH|[i x] l1 l2 Hs IH]; cbn; [done|..]; destruct (i =? id);
    [by apply sublist_skip|done|by apply sublist_cons|done].
Qed.

Lemma of_slot_elem {A} id (x : A) l : x ∈ of_slot id l <-> (id, x) ∈ l.
Proof.
  unfold of_slot. rewrite list_elem_of_omap. split.
  - intros ([i y] & Hin & Hy). destruct (Z.eqb_spec i id); by simplify_eq.
  - intros Hin. exists (id, x). by rewrite Z.eqb_refl.
Qed.

(** [slot_ok sl tr]: the revisions never go back, none is newer than the slot,
    and a record of the slot's revision carries the slot's state. *)
Record slot_ok (sl : Slot) (tr : list (Z * StoredState)) : Prop := {
  so_sorted : StronglySorted (fun a b => a.1 <= b.1) tr;
  so_revision : forall rev st, (rev, st) ∈ tr -> rev <= sl_revision sl;
  so_latest : forall rev st, (rev, st) ∈ tr -> rev = sl_revision sl -> st = sl_latest sl;
}.

Lemma StronglySorted_sublist {A} (R : A -> A -> Prop) l1 l2 :
  sublist l1 l2 -> StronglySorted R l2 -> StronglySorted R l1.
Proof.
  induction 1 as [|x l1 l2 Hs IH|x l1 l2 Hs IH]; intros HS; [done|..]; inversion HS as [|? ? HS' Hx]; subst.
  - constructor; [auto|]. rewrite Forall_forall in *. intros y Hy. apply Hx. by eapply elem_of_sublist.
  - auto.
Qed.

Lemma slot_ok_sublist sl tr tr' : sublist tr' tr -> slot_ok sl tr -> slot_ok sl tr'.
Proof.
  intros Hs []. split; [by eapply StronglySorted_sublist|..]; intros rev st Hin;
    eapply elem_of_sublist in Hin; eauto.
Qed.

(** Fields [slot_ok] does not look at. *)
Lemma slot_ok_ext sl sl' tr :
  sl_revision sl' = sl_revision sl -> sl_latest sl' = sl_latest sl -> slot_ok sl tr -> slot_ok sl' tr.
Proof. intros Hr Hl []. split; rewrite ?Hr, ?Hl; auto. Qed.

Definition delivered_ok (sl : Slot) (log : list (Z * StoredState)) : Prop :=
  sl_delivered sl = 0 \/ exists st, (sl_delivered sl, st) ∈ log.

Record ainv (options : AlarmPublisherOptions) (n : Z) (s : Impl) (log : list record) : Prop := {
  av_next : 0 <= im_nextId s <= n;
  av_slot : forall id sl, im_slots s !! id = Some sl ->
    1 <= id <= im_nextId s /\ 1 <= sl_revision sl <= n + 1 /\
    slot_ok sl (of_slot id (trail s log)) /\ delivered_ok sl (of_slot id log);
  av_ids : forall id x, (id, x) ∈ trail s log -> id <= im_nextId s;
  av_ring : ring_wf (im_ring s);
  av_size : rg_size (im_ring s) = Z.to_nat (op_queueEntries options);
}.

(** ** Preservation *)

(** The options are [size_t] and [uint32_t] values. *)
Definition options_wf (o : AlarmPublisherOptions) : Prop :=
  0 <= op_stateBytes o < 2 ^ 64 /\ 0 <= op_queueEntries o < 2 ^ 64.

Section Preservation.
Context (options : AlarmPublisherOptions).

(** Steps that add no record and keep every slot's revision and state. *)
Lemma ainv_mono n s log s' log' :
  ainv options n s log -> im_nextId s' = im_nextId s ->
  ring_wf (im_ring s') -> rg_size (im_ring s') = rg_size (im_ring s) ->
  sublist (trail s' log') (trail s log) -> sublist log log' ->
  (forall id sl', im_slots s' !! id = Some sl' -> exists sl, im_slots s !! id = Some sl /\
     sl_revision sl' = sl_revision sl /\ sl_latest sl' = sl_latest sl /\
     (sl_delivered sl' = sl_delivered sl \/ exists st, (sl_delivered sl', st) ∈ of_slot id log')) ->
  ainv options n s' log'.
Proof.
  intros [Hn Hsl Hids Hr Hsz] Hn' Hr' Hsz' Htr Hlog Hslots. split; rewrite ?Hn'; auto.
  - intros id sl' Hid. destruct (Hslots id sl' Hid) as (sl & Hid0 & Hrev & Hlat & Hdel).
    destruct (Hsl id sl Hid0) as (? & ? & Hok & Hd). split_and!; try (rewrite ?Hrev; lia).
    + eapply slot_ok_ext; [done|done|]. eapply slot_ok_sublist; [|done]. by apply of_slot_sublist.
    + destruct Hdel as [Hdel|?]; [|by right]. unfold delivered_ok. rewrite Hdel.
      destruct Hd as [?|[st Hst]]; [by left|right]. exists st.
      eapply elem_of_sublist; [done|]. by apply of_slot_sublist.
  - intros id x Hin. eapply Hids, elem_of_sublist; eauto.
  - by rewrite Hsz'.
Qed.

Lemma ainv_weaken n n' s log : ainv options n s log -> n <= n' -> ainv options n' s log.
Proof.
  intros [Hn Hsl Hids Hr Hsz] Hle. split; auto; [lia|].
  intros id sl Hid. destruct (Hsl id sl Hid) as (? & ? & ? & ?). split_and!; try done; lia.
Qed.

(** The loop that pops the ring changes nothing but the ring and a counter. *)
Lemma takeQueued_spec fuel s :
  ring_wf (im_ring s) ->
  let '(s', q) := takeQueued fuel s in
  s' = s <| im_ring := im_ring s' |> <| im_counters := im_counters s' |> /\
  ring_wf (im_ring s') /\ rg_size (im_ring s') = rg_size (im_ring s) /\
  match q with
  | Some (id, e) =>
      sublist ((id, (ev_revision e, ev_state e)) :: ring_records (im_ring s')) (ring_records (im_ring s))
  | None => (rg_count (im_ring s) <= fuel)%nat -> rg_count (im_ring s') = O
  end /\ sublist (ring_records (im_ring s')) (ring_records (im_ring s)).
Proof.
  revert s; induction fuel as [|fuel IH]; intros s Hwf; cbn [takeQueued].
  { split_and!; try done; [by destruct s|lia]. }
  destruct (Nat.eqb_spec (rg_count (im_ring s)) 0) as [Hz|Hnz].
  { split_and!; try done; by destruct s. }
  destruct (ring_pop (im_ring s) Hwf ltac:(lia)) as (Hwf' & Hl & Hs & Hc).
  destruct (rg_pop (im_ring s)) as [event ring] eqn:Ep. cbn [fst snd] in *.
  assert (sublist (ring_records ring) (ring_records (im_ring s))) as Hsub.
  { unfold ring_records. rewrite Hl. cbn. destruct (ev_slot event); [by apply sublist_cons|done]. }
  assert (forall c, let '(s', q) := takeQueued fuel (s <| im_ring := ring |> <| im_counters := c |>) in
    s' = s <| im_ring := im_ring s' |> <| im_counters := im_counters s' |> /\
    ring_wf (im_ring s') /\ rg_size (im_ring s') = rg_size (im_ring s) /\
    match q with
    | Some (id, e) =>
        sublist ((id, (ev_revision e, ev_state e)) :: ring_records (im_ring s')) (ring_records (im_ring s))
    | None => (rg_count (im_ring s) <= S fuel)%nat -> rg_count (im_ring s') = O
    end /\ sublist (ring_records (im_ring s')) (ring_records (im_ring s))) as Hrec.
  { intros c. specialize (IH (s <| im_ring := ring |> <| im_counters := c |>) Hwf').
    destruct (takeQueued fuel _) as [s' q]. cbn in IH. destruct IH as (Heq & ? & Hsz & Hq & Hsub').
    split_and!; [by rewrite Heq|done|lia| |by etrans].
    destruct q as [[id e]|]; [by etrans|]. intros. apply Hq. lia. }
  destruct (ev_slot event) as [id|] eqn:Ee; [|apply Hrec].
  destruct (current _ id) eqn:Ecur; [|apply Hrec].
  cbn. split_and!; [by destruct s|done|done| |done].
  unfold ring_records. rewrite Hl. cbn. rewrite Ee. done.
Qed.

Lemma current_ext s s' id :
  im_slots s' = im_slots s -> im_names s' = im_names s -> current s' id = current s id.
Proof.
  intros Hs Hn. unfold current. rewrite Hs. destruct (im_slots s !! id) as [sl|]; [|done]. rewrite Hn.
  destruct (im_names s !! sl_name sl) as [ids|]; [|done].
  assert (forall l, List.find (in_service s') l = List.find (in_service s) l) as ->; [|done].
  intros l. induction l as [|x l IH]; cbn; [done|]. rewrite IH. unfold in_service at 1 2. by rewrite Hs.
Qed.

Lemma select_inv n s log now time :
  ainv options n s log -> im_flight s = None -> ainv options n (worker_select s now time) log.
Proof.
  intros HI Hfl. unfold worker_select.
  destruct (im_stopping s || negb (im_enabled s) || (now <? im_retryAt s)); [done|].
  pose proof (takeQueued_spec (rg_count (im_ring s)) s (av_ring _ _ _ _ HI)) as HT.
  destruct (takeQueued _ s) as [s1 q]. destruct HT as (Heq & Hwf & Hsz & Hq & Hsub).
  assert (im_slots s1 = im_slots s /\ im_nextId s1 = im_nextId s /\ im_flight s1 = None) as (E1 & E2 & E3)
    by (rewrite Heq; cbn; done).
  assert (forall s2, im_slots s2 = im_slots s -> im_nextId s2 = im_nextId s -> im_ring s2 = im_ring s1 ->
    sublist (trail s2 log) (trail s log) -> ainv options n s2 log) as Hmono.
  { intros s2 F1 F2 F3 F4. apply (ainv_mono n s log);
      [done|done|by rewrite F3|by rewrite F3|done|done|]. rewrite F1. intros id sl' Hid. exists sl'. auto. }
  destruct q as [[id e]|].
  - apply Hmono; try done. unfold trail, flight_records. cbn. rewrite Hfl. by apply sublist_app.
  - specialize (Hq ltac:(lia)).
    assert (ring_records (im_ring s1) = []) as Hempty by (unfold ring_records, ring_list; by rewrite Hq).
    destruct (List.find (needsSend s1) (scanOrder s1)) as [id|].
    + destruct (im_slots s1 !! id) as [sl|] eqn:Hid.
      2: { apply Hmono; try done. unfold trail, flight_records. rewrite E3, Hfl. by apply sublist_app. }
      destruct HI as [Hn Hsl Hids Hr Hz]. rewrite E1 in Hid.
      destruct (Hsl id sl Hid) as ([? ?] & ? & Hok & ?).
      assert (forall i, sublist (of_slot i log) (of_slot i (trail s log))) as Hlog.
      { intros i. apply of_slot_sublist. by apply sublist_inserts_r. }
      match goal with |- ainv _ _ ?st _ =>
        assert (exists s2, s2 = st /\ im_slots s2 = im_slots s /\ im_nextId s2 = im_nextId s /\
          im_ring s2 = im_ring s1 /\ trail s2 log = log ++ [(id, (sl_revision sl, sl_latest sl))])
          as (s2 & <- & F1 & F2 & F3 & Htr)
          by (exists st; split_and!; [done|done|done|done|unfold trail, flight_records; cbn; by rewrite Hempty])
      end.
      split; rewrite ?Htr, ?F1, ?F2, ?F3; auto; [| |by rewrite Hsz].
      * intros id' sl' Hid'. destruct (Hsl id' sl' Hid') as (? & ? & Hok' & ?). split_and!; try done; try lia.
        rewrite of_slot_app. cbn [of_slot omap list_omap].
        destruct (Z.eqb_spec id id') as [<-|]; rewrite ?app_nil_r; [simplify_eq|eapply slot_ok_sublist; [apply Hlog|done]].
        pose proof (slot_ok_sublist _ _ _ (Hlog id) Hok) as [Hs Hle Hla]. split.
        -- apply StronglySorted_snoc; [done|]. intros [rev st] Hin. cbn. by eapply Hle.
        -- intros rev st [Hin|Hin%list_elem_of_singleton]%elem_of_app; [by eapply Hle|]. simplify_eq. lia.
        -- intros rev st [Hin|Hin%list_elem_of_singleton]%elem_of_app; [by eapply Hla|]. by simplify_eq.
      * intros i x [Hin|Hin%list_elem_of_singleton]%elem_of_app; [|by simplify_eq].
        eapply Hids. unfold trail. apply elem_of_app. by left.
    + destruct (negb _ || _); apply Hmono; try done; unfold trail, flight_records; cbn; rewrite ?E3, Hfl;
        apply sublist_app; try done; rewrite Hempty; apply sublist_nil_l.
Qed.

Lemma discardQueue_spec s :
  ring_wf (im_ring s) ->
  ring_wf (im_ring (discardQueue s)) /\ rg_size (im_ring (discardQueue s)) = rg_size (im_ring s) /\
  ring_records (im_ring (discardQueue s)) = [].
Proof.
  intros Hwf. destruct (ring_discard _ _ Hwf eq_refl) as (? & Hl & ? & _). cbn.
  split_and!; try done. unfold ring_records. by rewrite Hl.
Qed.

Lemma result_inv n s log result now :
  ainv options n s log ->
  ainv options n (worker_result options s result now) (log ++ accepted_by s result).
Proof.
  intros HI. unfold worker_result, accepted_by.
  destruct (im_flight s) as [f|] eqn:Hfl; [|by destruct result; rewrite app_nil_r].
  assert (forall s2 l2, im_slots s2 = im_slots s -> im_nextId s2 = im_nextId s -> im_flight s2 = None ->
    ring_wf (im_ring s2) -> rg_size (im_ring s2) = rg_size (im_ring s) ->
    sublist (l2 ++ ring_records (im_ring s2)) (flight_records s ++ ring_records (im_ring s)) ->
    ainv options n s2 (log ++ l2)) as Hmono.
  { intros s2 l2 F1 F2 F3 F4 F5 F6. apply (ainv_mono n s log); auto.
    - unfold trail at 1, flight_records. rewrite F3. cbn. rewrite <-app_assoc. by apply sublist_app.
    - by apply sublist_inserts_r.
    - rewrite F1. intros id sl' Hid. exists sl'. auto. }
  pose proof (av_ring _ _ _ _ HI) as Hwf.
  destruct result; cbn zeta.
  - destruct (fl_slot f) as [id|] eqn:Hid.
    2: { apply Hmono; cbn; auto. by apply sublist_inserts_l. }
    match goal with |- context [if current ?st id then _ else _] => destruct (current st id) end.
    2: { apply Hmono; cbn; auto. unfold flight_records. rewrite Hfl, Hid. done. }
    apply (ainv_mono n s log); cbn; auto.
    + unfold trail, flight_records. cbn. rewrite Hfl, Hid. cbn. by rewrite <-app_assoc.
    + by apply sublist_inserts_r.
    + intros id' sl'. rewrite lookup_alter_Some. intros [(-> & sl & Hsl & ->)|[? Hsl]]; [|exists sl'; by auto].
      exists sl. cbn. split; [done|]. split; [done|]. split; [done|].
      destruct (Z.max_spec (ev_revision (fl_event f)) (sl_delivered sl)) as [[_ ->]|[_ ->]]; [by left|right].
      exists (ev_state (fl_event f)). apply of_slot_elem, elem_of_app. right. left.
  - destruct (discardQueue_spec s Hwf) as (? & ? & Hnil). cbn in *.
    apply Hmono; cbn; auto. rewrite Hnil. apply sublist_nil_l.
  - destruct (discardQueue_spec s Hwf) as (? & ? & Hnil). cbn in *.
    apply Hmono; cbn; auto. rewrite Hnil. apply sublist_nil_l.
Qed.

(** A slot takes a new state with the next revision. *)
Lemma slot_ok_update sl tr encoded :
  slot_ok sl tr ->
  let sl' := sl <| sl_latest := encoded |> <| sl_revision := sl_revision sl + 1 |> in
  slot_ok sl' tr /\ slot_ok sl' (tr ++ [(sl_revision sl + 1, encoded)]).
Proof.
  intros [Hs Hr Hl] sl'.
  assert (forall rev st, (rev, st) ∈ tr -> rev < sl_revision sl') as Hlt.
  { intros rev st Hin%Hr. cbn. lia. }
  split; split; cbn; auto.
  - intros rev st Hin. specialize (Hlt _ _ Hin). cbn in Hlt. lia.
  - intros rev st Hin Hrev. specialize (Hlt _ _ Hin). cbn in Hlt. lia.
  - apply StronglySorted_snoc; [done|]. intros [rev st] Hin. specialize (Hlt _ _ Hin). cbn in *. lia.
  - intros rev st [Hin|Hin%list_elem_of_singleton]%elem_of_app; [|simplify_eq; lia].
    specialize (Hlt _ _ Hin). cbn in Hlt. lia.
  - intros rev st [Hin|Hin%list_elem_of_singleton]%elem_of_app Hrev; [|by simplify_eq].
    specialize (Hlt _ _ Hin). cbn in Hlt. lia.
Qed.

Lemma update_inv n s log id state time :
  ainv options n s log -> n + 2 < 2 ^ 64 -> ainv options (n + 1) (update s id state time) log.
Proof.
  intros HI Hn64. pose proof (ainv_weaken n (n + 1) s log HI ltac:(lia)) as HW.
  unfold update. destruct (StoredState_encode state) as [encoded truncated].
  destruct (im_slots s !! id) as [sl|] eqn:Hid; [|done].
  destruct (im_stopping s || sl_retired sl || bool_decide (sl_latest sl = encoded)); [done|].
  destruct HI as [Hn Hsl Hids Hwf Hsz]. destruct (Hsl id sl Hid) as ([? ?] & ? & Hok & Hdel).
  cbn zeta. set (sl' := sl <| sl_latest := encoded |> <| sl_revision ::= fun n => u64 (n + 1) |>).
  assert (sl' = sl <| sl_latest := encoded |> <| sl_revision := sl_revision sl + 1 |>) as Hsl'.
  { unfold sl'. cbn. by rewrite u64_id by lia. }
  clearbody sl'.
  assert (forall s2 more, im_slots s2 = <[id := sl']> (im_slots s) -> im_nextId s2 = im_nextId s ->
    ring_wf (im_ring s2) -> rg_size (im_ring s2) = rg_size (im_ring s) ->
    sublist (trail s2 log) (trail s log ++ more) -> (more = [] \/ more = [(id, (sl_revision sl + 1, encoded))]) ->
    ainv options (n + 1) s2 log) as Hfin.
  { intros s2 more F1 F2 F3 F4 F5 F6. split; rewrite ?F1, ?F2; auto; [lia| | |by rewrite F4].
    - intros id2 sl2 Hid2. pose proof (of_slot_sublist id2 _ _ F5) as Hsub. rewrite of_slot_app in Hsub.
      apply lookup_insert_Some in Hid2 as [[<- <-]|[Hne Hid2]].
      + rewrite Hsl'. destruct (slot_ok_update _ _ encoded Hok) as [Hok1 Hok2]. cbn. split_and!; try lia; [|done].
        eapply slot_ok_sublist; [exact Hsub|]. destruct F6 as [->| ->]; cbn; rewrite ?Z.eqb_refl, ?app_nil_r; done.
      + destruct (Hsl _ _ Hid2) as (? & ? & Hok2 & ?). split_and!; try lia; [|done].
        eapply slot_ok_sublist; [exact Hsub|].
        destruct F6 as [->| ->]; cbn; rewrite ?(proj2 (Z.eqb_neq id id2) Hne), ?app_nil_r; done.
    - intros i x Hin. eapply elem_of_sublist in Hin; [|exact F5].
      apply elem_of_app in Hin as [Hin|Hin]; [by eapply Hids|].
      destruct F6 as [->| ->]; [by apply not_elem_of_nil in Hin|].
      apply list_elem_of_singleton in Hin. by simplify_eq. }
  match goal with |- context [im_enabled ?st && _] => set (s1 := st) end.
  assert (im_slots s1 = <[id := sl']> (im_slots s) /\ im_ring s1 = im_ring s /\ im_nextId s1 = im_nextId s /\
    im_flight s1 = im_flight s) as (G1 & G2 & G3 & G4) by done.
  assert (trail s1 log = trail s log) as G5 by (unfold trail, flight_records; by rewrite G2, G4).
  clearbody s1. destruct (im_enabled s1 && current s1 id).
  2: { apply (Hfin s1 []); rewrite ?G1, ?G2, ?G3, ?G5, ?app_nil_r; auto. }
  destruct (im_live s1 && negb (im_recovering s1) && _) eqn:Hpush.
  - apply andb_true_iff in Hpush as [_ Hpush%Nat.ltb_lt]. rewrite G2 in Hpush.
    match goal with |- ainv _ _ (s1 <| im_ring ::= fun r => rg_push r ?e |>) _ =>
      destruct (ring_push (im_ring s) e Hwf Hpush) as (Hw & Hl & Hz) end.
    apply (Hfin _ [(id, (sl_revision sl + 1, encoded))]); cbn; rewrite ?G2; [done|done|done|done| |by right].
    unfold trail, flight_records, ring_records. cbn -[ring_list rg_push]. rewrite ?G2, ?G4, Hl, omap_app, Hsl'. cbn.
    rewrite <-!app_assoc. done.
  - destruct (_ =? _)%nat.
    + destruct (discardQueue_spec s Hwf) as (Hd1 & Hd2 & Hd3). cbn in Hd1, Hd2, Hd3.
      apply (Hfin _ []); cbn; rewrite ?G2, ?app_nil_r; auto.
      unfold trail, flight_records. cbn. rewrite ?G2, ?G4, Hd3.
      apply sublist_app; [done|]. apply sublist_app; [done|]. apply sublist_nil_l.
    + apply (Hfin _ []); cbn; rewrite ?G2, ?app_nil_r; auto.
      unfold trail, flight_records. cbn. by rewrite ?G2, ?G4.
Qed.

Lemma prepare_inv n s log name state s' id :
  ainv options n s log -> n + 1 < 2 ^ 64 -> prepare s name state = Ret (s', id) ->
  ainv options (n + 1) s' log.
Proof.
  intros [Hn Hsl Hids Hwf Hsz] Hn64. unfold prepare. destruct (_ <? strlen name); [done|].
  intros (b & _ & Hp)%exn_bind_ret. destruct (StoredState_encode state) as [latest truncated].
  destruct (im_stopping s); [done|]. injection Hp as <- <-. rewrite u64_id by lia.
  assert (im_slots s !! (im_nextId s + 1) = None) as Hfresh.
  { destruct (im_slots s !! (im_nextId s + 1)) eqn:E; [|done]. apply Hsl in E as ([??] & _). lia. }
  rewrite Hfresh. split; cbn -[of_slot]; auto; [lia| |].
  - intros id' sl'. change (trail _ log) with (trail s log). rewrite lookup_insert_Some.
    intros [[<- <-]|[Hne Hid']].
    + assert (of_slot (im_nextId s + 1) (trail s log) = []) as Hnil.
      { apply elem_of_nil_inv_list. intros x Hx%of_slot_elem%Hids. lia. }
      cbn -[of_slot]. rewrite Hnil. split_and!; try lia; [|by left].
      split; [constructor|by intros ?? ?%not_elem_of_nil..].
    + destruct (Hsl id' sl' Hid') as (? & ? & ? & ?). split_and!; try done; lia.
  - intros i x Hin. specialize (Hids i x Hin). lia.
Qed.

Lemma alarm_exec_inv n s log o :
  ainv options n s log -> n + 2 < 2 ^ 64 -> enabled s o = true ->
  ainv options (n + 1) (exec options s o).1 (log ++ (exec options s o).2).
Proof.
  intros HI Hn Hen. pose proof (ainv_weaken n (n + 1) s log HI ltac:(lia)) as HW.
  assert (forall s2, im_nextId s2 = im_nextId s -> im_ring s2 = im_ring s -> im_flight s2 = im_flight s ->
    (forall id sl', im_slots s2 !! id = Some sl' -> exists sl, im_slots s !! id = Some sl /\
       sl_revision sl' = sl_revision sl /\ sl_latest sl' = sl_latest sl /\ sl_delivered sl' = sl_delivered sl) ->
    ainv options (n + 1) s2 (log ++ [])) as Hflags.
  { intros s2 F1 F2 F3 F4. rewrite app_nil_r. apply (ainv_mono (n + 1) s log); rewrite ?F2; auto.
    - by apply HW.
    - unfold trail, flight_records. by rewrite F2, F3.
    - intros id sl' Hid. destruct (F4 id sl' Hid) as (sl & ? & ? & ? & ?). eauto 10. }
  destruct o; cbn [exec fst snd enabled] in *.
  - destruct (prepare s name state) as [[s' id]|] eqn:E; rewrite app_nil_r; [|done].
    eapply prepare_inv; [done|lia|done].
  - unfold remove. destruct (im_slots s !! id) eqn:E; [|by rewrite app_nil_r].
    apply Hflags; cbn; auto. intros id' sl' [_ ?]%lookup_delete_Some. eauto.
  - rewrite app_nil_r. by apply update_inv.
  - unfold activate_slot. destruct (im_slots s !! id) as [sl|] eqn:E; [|by rewrite app_nil_r].
    destruct (_ && _); [|by rewrite app_nil_r]. apply Hflags; cbn; auto.
    intros id' sl' [[<- <-]|[_ ?]]%lookup_insert_Some; eauto.
  - unfold retire_slot. destruct (im_slots s !! id) as [sl|] eqn:E; [|by rewrite app_nil_r].
    apply Hflags; cbn; auto. intros id' sl' [[<- <-]|[_ ?]]%lookup_insert_Some; eauto.
  - apply Hflags; cbn; eauto.
  - apply Hflags; cbn; eauto.
  - rewrite app_nil_r. apply select_inv; [done|]. by destruct (im_flight s).
  - by apply result_inv.
Qed.

Lemma alarm_init_inv now s : options_wf options -> Impl_new options now = Ret s -> ainv options 0 s [].
Proof.
  intros [_ OWF]. unfold Impl_new. case_match eqn:E; [done|]. intros (b & _ & [= <-])%exn_bind_ret. bool_split.
  split; cbn; try done.
  - intros id x. by intros ?%not_elem_of_nil.
  - split; cbn; [|lia]. unfold rg_size. cbn. rewrite length_replicate. lia.
  - unfold rg_size. cbn. by rewrite length_replicate.
Qed.

Lemma alarm_reach_inv n s log :
  options_wf options -> reach options n s log -> Z.of_nat n + 1 < 2 ^ 64 -> ainv options (Z.of_nat n) s log.
Proof.
  intros OWF. induction 1 as [now s Hs|n s log o Hr IH Hen]; intros Hn; [by eapply alarm_init_inv|].
  replace (Z.of_nat (S n)) with (Z.of_nat n + 1) by lia. apply alarm_exec_inv; [apply IH; lia|lia|done].
Qed.

(** ** The memory budget *)

Record binv (s : Impl) : Prop := {
  bi_limit : bu_limit (im_budget s) = op_stateBytes options;
  bi_used : bu_used (im_budget s) =
    op_queueEntries options * kAlarmQueueEntryBytes + msum sl_bytes (im_slots s) + im_deferred s;
  bi_peak : bu_used (im_budget s) <= bu_peak (im_budget s) <= bu_limit (im_budget s);
  bi_bytes : forall id sl, im_slots s !! id = Some sl -> 0 <= sl_bytes sl;
  bi_deferred : 0 <= im_deferred s;
}.

Lemma acquire_spec b bytes b' :
  0 <= bytes -> 0 <= bu_used b -> bu_used b <= bu_peak b <= bu_limit b -> bu_limit b < 2 ^ 64 ->
  acquire b bytes = Ret b' ->
  bu_limit b' = bu_limit b /\ bu_used b' = bu_used b + bytes /\ bu_used b' <= bu_peak b' <= bu_limit b'.
Proof.
  intros Hb Hu Hp Hl. unfold acquire. destruct (_ || _) eqn:E; [done|]. intros [= <-]. bool_split. cbn.
  rewrite u64_id in * by lia. rewrite !u64_id by lia. lia.
Qed.

Lemma binv_ext s s' :
  im_budget s' = im_budget s -> im_deferred s' = im_deferred s ->
  msum sl_bytes (im_slots s') = msum sl_bytes (im_slots s) ->
  (forall id sl', im_slots s' !! id = Some sl' -> exists sl, im_slots s !! id = Some sl /\ sl_bytes sl' = sl_bytes sl) ->
  binv s -> binv s'.
Proof.
  intros Hb Hd Hm Hs []. split; rewrite ?Hb, ?Hd, ?Hm; auto.
  intros id sl' Hid. destruct (Hs id sl' Hid) as (sl & ? & ->). eauto.
Qed.

Lemma binv_insert s s' id sl sl' :
  im_budget s' = im_budget s -> im_deferred s' = im_deferred s ->
  im_slots s !! id = Some sl -> sl_bytes sl' = sl_bytes sl -> im_slots s' = <[id := sl']> (im_slots s) ->
  binv s -> binv s'.
Proof.
  intros Hb Hd Hid Hbytes Hs. apply binv_ext; [done|done|..]; rewrite Hs.
  - rewrite (msum_update _ _ _ _ _ Hid). lia.
  - intros id2 sl2 [[<- <-]|[_ ?]]%lookup_insert_Some; eauto.
Qed.

Lemma alter_Some_insert (f : Slot -> Slot) id sl (m : gmap Z Slot) :
  m !! id = Some sl -> alter f id m = <[id := f sl]> m.
Proof. intros Hid. rewrite <-(insert_id m id sl Hid) at 1. apply alter_insert_eq. Qed.

Lemma alter_None_id (f : Slot -> Slot) id (m : gmap Z Slot) : m !! id = None -> alter f id m = m.
Proof.
  intros Hid. apply map_eq. intros i. destruct (decide (i = id)) as [->|].
  - by rewrite lookup_alter_eq, Hid.
  - by rewrite lookup_alter_ne.
Qed.

Lemma takeQueued_slots fuel s :
  let s' := (takeQueued fuel s).1 in
  im_slots s' = im_slots s /\ im_budget s' = im_budget s /\ im_deferred s' = im_deferred s.
Proof.
  revert s; induction fuel as [|fuel IH]; intros s; cbn [takeQueued]; [done|].
  destruct (_ =? 0)%nat; [done|]. destruct (rg_pop (im_ring s)) as [event ring].
  destruct (ev_slot event) as [id|]; [destruct (current _ id); [done|]|];
    match goal with |- context [takeQueued fuel ?st] => apply (IH st) end.
Qed.

Lemma worker_select_budget s now time :
  let s' := worker_select s now time in
  im_slots s' = im_slots s /\ im_budget s' = im_budget s /\ im_deferred s' = im_deferred s.
Proof.
  unfold worker_select. destruct (_ || _ || _); [done|].
  pose proof (takeQueued_slots (rg_count (im_ring s)) s) as HT.
  destruct (takeQueued _ s) as [s1 [[id e]|]]; cbn in *; [done|].
  destruct (List.find _ _) as [id|]; [by destruct (im_slots s1 !! id)|]. by destruct (negb _ || _).
Qed.

Lemma update_budget s id state time : binv s -> binv (update s id state time).
Proof.
  intros HB. unfold update. destruct (StoredState_encode state) as [encoded truncated].
  destruct (im_slots s !! id) as [sl|] eqn:Hid; [|done]. destruct (_ || _ || _); [done|].
  destruct (_ && _); [destruct (_ && _ && _); [|destruct (_ =? _)%nat]|];
    (eapply (binv_insert s _ id sl); [reflexivity|reflexivity|exact Hid| |reflexivity|done]); done.
Qed.

Lemma exec_budget s o :
  op_stateBytes options < 2 ^ 64 -> 0 <= op_queueEntries options ->
  (forall id sl, im_slots s !! id = Some sl -> 1 <= id <= im_nextId s) ->
  0 <= im_nextId s -> im_nextId s + 1 < 2 ^ 64 -> binv s -> binv (exec options s o).1.
Proof.
  intros Hlim Hq Hids H0 Hn HB. assert (0 <= msum sl_bytes (im_slots s)) as Hnn by (apply msum_nonneg, HB).
  assert (0 <= bu_used (im_budget s)) as Hu.
  { destruct HB. rewrite bi_used0. unfold kAlarmQueueEntryBytes. lia. }
  destruct o; cbn [exec fst].
  - destruct (prepare s name state) as [[s' id]|] eqn:E; [|done]. revert E. unfold prepare.
    destruct (_ <? strlen name) eqn:El; [done|]. intros (b & Hb & Hp)%exn_bind_ret.
    destruct (StoredState_encode state) as [latest truncated]. destruct (im_stopping s); [done|].
    injection Hp as <- <-. rewrite (u64_id (im_nextId s + 1)) by lia.
    assert (im_slots s !! (im_nextId s + 1) = None) as Hfresh.
    { destruct (im_slots s !! (im_nextId s + 1)) eqn:E; [|done]. apply Hids in E. lia. }
    destruct HB as [Hl Hus Hp Hby Hd]. pose proof (u64_range (1024 + 2 * strlen name)) as Hr.
    apply acquire_spec in Hb as (? & ? & ?); [|lia|done|done|lia].
    rewrite Hfresh. split; cbn; [lia| |done| |done].
    + rewrite (msum_insert _ _ _ _ Hfresh). cbn. lia.
    + intros id2 sl2 [[<- <-]|[_ ?]]%lookup_insert_Some; cbn; [lia|eauto].
  - unfold remove. destruct (im_slots s !! id) as [sl|] eqn:Hid; [|done]. destruct HB as [Hl Hus Hp Hby Hd].
    pose proof (Hby _ _ Hid). pose proof (msum_lookup_le sl_bytes (im_slots s) id sl Hby Hid).
    assert (forall id' sl', delete id (im_slots s) !! id' = Some sl' -> 0 <= sl_bytes sl') as Hby'.
    { intros id' sl' [_ ?]%lookup_delete_Some. eauto. }
    destruct (in_flight s id); split; cbn; rewrite ?(msum_delete _ _ _ _ Hid); auto; try lia.
    + rewrite u64_id; [lia|]. unfold kAlarmQueueEntryBytes in *. lia.
    + rewrite u64_id; [lia|]. unfold kAlarmQueueEntryBytes in *. lia.
  - by apply update_budget.
  - unfold activate_slot. destruct (im_slots s !! id) as [sl|] eqn:Hid; [|done]. destruct (_ && _); [|done].
    eapply (binv_insert s _ id sl); [reflexivity|reflexivity|exact Hid| |reflexivity|done]; done.
  - unfold retire_slot. destruct (im_slots s !! id) as [sl|] eqn:Hid; [|done].
    eapply (binv_insert s _ id sl); [reflexivity|reflexivity|exact Hid| |reflexivity|done]; done.
  - apply (binv_ext s); [done|done|done| |done]. cbn. eauto.
  - apply (binv_ext s); [done|done|done| |done]. cbn. eauto.
  - destruct (worker_select_budget s now time) as (F1 & F2 & F3).
    apply (binv_ext s); [done|done|by rewrite F1| |done]. rewrite F1. eauto.
  - unfold worker_result. destruct (im_flight s) as [f|]; [|done].
    assert (binv (s <| im_budget ::= fun b => release b (im_deferred s) |> <| im_deferred := 0 |>)) as HB'.
    { destruct HB as [Hl Hus Hp Hby Hd]. split; cbn; auto; rewrite ?u64_id; unfold kAlarmQueueEntryBytes in *; lia. }
    destruct result; cbn zeta; [|eapply binv_ext; [| | | |exact HB']; cbn; eauto..].
    destruct (fl_slot f) as [id|]; [|eapply binv_ext; [| | | |exact HB']; cbn; eauto].
    match goal with |- context [if current ?st id then _ else _] => destruct (current st id) end;
      [|eapply binv_ext; [| | | |exact HB']; cbn; eauto].
    destruct (im_slots s !! id) as [sl|] eqn:Hid.
    + eapply (binv_insert _ _ id sl); [| | | | |exact HB']; cbn;
        [reflexivity|reflexivity|exact Hid| |by apply alter_Some_insert]; done.
    + eapply binv_ext; [| | | |exact HB']; cbn; [done|done| |].
      * by rewrite alter_None_id.
      * rewrite alter_None_id by done. eauto.
Qed.
End Preservation.

Lemma init_budget options now s :
  options_wf options -> Impl_new options now = Ret s -> binv options s.
Proof.
  intros [Hs Hq]. unfold Impl_new. case_match eqn:E; [done|]. intros (b & Hb & [= <-])%exn_bind_ret. bool_split.
  assert (op_queueEntries options * kAlarmQueueEntryBytes <= op_stateBytes options) as Hfit.
  { unfold kAlarmQueueEntryBytes in *. pose proof (Z.mul_div_le (op_stateBytes options) 1024 ltac:(lia)). lia. }
  rewrite u64_id in Hb by (unfold kAlarmQueueEntryBytes in *; lia).
  apply acquire_spec in Hb as (? & Hu & ?); cbn in *; [|unfold kAlarmQueueEntryBytes; lia|lia|lia|lia].
  split; cbn; [done|rewrite Hu, msum_empty; lia|done|by intros; simplify_map_eq|done].
Qed.

Lemma reach_budget options n s log :
  options_wf options -> reach options n s log -> Z.of_nat n + 1 < 2 ^ 64 -> binv options s.
Proof.
  intros OWF. induction 1 as [now s Hs|n s log o Hr IH Hen]; intros Hn; [by eapply init_budget|].
  destruct (alarm_reach_inv options n s log OWF Hr ltac:(lia)) as [? Hsl _ _ _]. destruct OWF as [? ?].
  apply exec_budget; try lia; [|apply IH; lia]. intros id sl Hid. by apply Hsl in Hid as [? _].
Qed.

(** The records the server accepted for one registration. *)
Definition accepted (log : list record) (id : Z) : list (Z * StoredState) := of_slot id log.

(** A sorted list ends with its greatest element. *)
Lemma sorted_last {A} (f : A -> Z) (l : list A) x :
  StronglySorted (fun a b => f a <= f b) l -> x ∈ l -> exists y, last l = Some y /\ f x <= f y.
Proof.
  induction 1 as [|z l HS IH Hz]; [by intros ?%not_elem_of_nil|].
  intros [->|Hin]%elem_of_cons.
  - destruct l as [|w l']; [exists z; split; [done|lia]|].
    destruct (last (w :: l')) as [y|] eqn:El; [|by apply last_None in El].
    exists y. split; [done|]. rewrite Forall_forall in Hz. apply Hz. by apply last_Some_elem_of.
  - destruct (IH Hin) as (y & Hy & ?). exists y. split; [|done]. destruct l; [done|]. done.
Qed.

(** The demonstration run: two registrations, a transition lost with the
    connection, its reconciliation. *)
Definition demo_options : AlarmPublisherOptions :=
  {| op_stateBytes := 65536; op_queueEntries := 4; op_ioTimeoutMs := 500; op_retryMs := 1000; op_heartbeatMs := 1000 |}.
Definition demo_state (sev : Z) : AlarmState := {| am_severity := sev; am_status := 3; am_message := "m" |}.
Fixpoint run (options : AlarmPublisherOptions) (s : Impl) (log : list record) (ops : list aop)
    : option (Impl * list record) :=
  match ops with
  | [] => Some (s, log)
  | o :: ops => if enabled s o then run options (exec options s o).1 (log ++ (exec options s o).2) ops else None
  end.
Definition demo_start : Impl :=
  match Impl_new demo_options 0 with Ret s => s | Throw _ => Build_Impl (Build_Budget 0 0 0)
    {| rg_ring := []; rg_head := 0; rg_count := 0 |} ∅ ∅ 0 0 1 false true true false
    (Build_AlarmPublisherStatus 0 0 0 0 0 0 0 "") 0 0 None 0 end.
Definition demo_ops : list aop :=
  [AActivate; APrepare "A" (demo_state 0); AActivateSlot 1; ASelect 0 1; AResult Accepted 1;
   AUpdate 1 (demo_state 2) 5; ASelect 2 6; AResult Unavailable 3; AUpdate 1 (demo_state 1) 7;
   ASelect 2000 8; AResult Accepted 2001].
Definition demo_end : Impl * list record := default (demo_start, []) (run demo_options demo_start [] demo_ops).

Lemma alarm_run_reach options n s log ops r :
  reach options n s log -> run options s log ops = Some r -> reach options (length ops + n) r.1 r.2.
Proof.
  revert n s log. induction ops as [|o ops IH]; intros n s log Hr; cbn [run].
  { by intros [= <-]. }
  destruct (enabled s o) eqn:He; [|done]. intros Hrun.
  replace (length (o :: ops) + n)%nat with (length ops + S n)%nat by (cbn; lia).
  eapply IH; [|exact Hrun]. by constructor.
Qed.

Lemma alarm_demo_reach : reach demo_options 11 demo_end.1 demo_end.2.
Proof.
  assert (reach demo_options 0 demo_start []) as H0 by (apply (reach_init _ 0); by vm_compute).
  pose proof (alarm_run_reach demo_options 0 demo_start [] demo_ops demo_end H0) as H.
  apply H. by vm_compute.
Qed.

Lemma demo_options_wf : options_wf demo_options.
Proof. by vm_compute. Qed.

(** No alarm state is lost: in every reachable state, a registration that
    the publisher no longer considers pending has had its latest state accepted
    by the server, as the last record of that registration; whatever was
    coalesced, discarded on overflow or dropped with a connection. *)
Lemma not_pending_delivered options n s log id sl :
  options_wf options -> reach options n s log -> Z.of_nat n + 1 < 2 ^ 64 ->
  im_slots s !! id = Some sl -> pending s sl = false ->
  last (accepted log id) = Some (sl_revision sl, sl_latest sl).
Proof.
  intros OWF Hr Hn Hid Hp. destruct (alarm_reach_inv options n s log OWF Hr Hn) as [_ Hsl _ _ _].
  destruct (Hsl id sl Hid) as (_ & Hrev & Hok & Hdel).
  assert (slot_ok sl (accepted log id)) as [Hs Hle Hla].
  { eapply slot_ok_sublist; [|exact Hok]. apply of_slot_sublist. by apply sublist_inserts_r. }
  unfold pending in Hp. bool_split. destruct Hdel as [?|[st Hst]]; [lia|].
  pose proof (Hle _ _ Hst) as Hd.
  destruct (sorted_last fst _ _ Hs Hst) as ([rev st'] & Hlast & Hge). cbn in Hge.
  assert ((rev, st') ∈ accepted log id) as Hin by (by apply last_Some_elem_of).
  pose proof (Hle _ _ Hin). assert (rev = sl_revision sl) as -> by lia.
  by rewrite Hlast, (Hla _ _ Hin eq_refl).
Qed.

(** Records of one registration are accepted in revision order, so a
    consumer of the stream never sees an older state after a newer one. *)
Theorem alarm_records_ordered options n s log id sl :
  options_wf options -> reach options n s log -> Z.of_nat n + 1 < 2 ^ 64 -> im_slots s !! id = Some sl ->
  StronglySorted (fun a b => a.1 <= b.1) (accepted log id).
Proof.
  intros OWF Hr Hn Hid. destruct (alarm_reach_inv options n s log OWF Hr Hn) as [_ Hsl _ _ _].
  destruct (Hsl id sl Hid) as (_ & _ & [Hs _ _] & _).
  eapply StronglySorted_sublist; [|exact Hs]. apply of_slot_sublist. by apply sublist_inserts_r.
Qed.


(** Memory stays within the configured budget: the bytes in use are the
    ring's, those of the registered slots and those of a removed slot still
    being sent; they and their peak never exceed [stateBytes]; the ring never
    holds more than its entries. *)
Theorem alarm_memory_bounded options n s log :
  options_wf options -> reach options n s log -> Z.of_nat n + 1 < 2 ^ 64 ->
  bu_used (im_budget s) =
    op_queueEntries options * kAlarmQueueEntryBytes + msum sl_bytes (im_slots s) + im_deferred s /\
  bu_used (im_budget s) <= bu_peak (im_budget s) <= op_stateBytes options /\
  (rg_count (im_ring s) <= Z.to_nat (op_queueEntries options))%nat.
Proof.
  intros OWF Hr Hn. destruct (reach_budget options n s log OWF Hr Hn) as [Hl Hu Hp _ _].
  destruct (alarm_reach_inv options n s log OWF Hr Hn) as [_ _ _ [_ Hc] Hsz]. rewrite Hsz in Hc.
  split_and!; [done|lia|lia|done].
Qed.

Lemma alarm_memory_bounded_witness :
  bu_used (im_budget demo_end.1) <= bu_peak (im_budget demo_end.1) <= 65536.
Proof. by apply (alarm_memory_bounded demo_options 11 demo_end.1 demo_end.2 demo_options_wf alarm_demo_reach). Defined.

Lemma slot_ids_elem s id : id ∈ slot_ids s <-> is_Some (im_slots s !! id).
Proof.
  unfold slot_ids. rewrite merge_sort_Permutation, list_elem_of_fmap. split.
  - intros ([i sl] & -> & Hin%elem_of_map_to_list). by exists sl.
  - intros [sl Hsl]. exists (id, sl). split; [done|]. by apply elem_of_map_to_list.
Qed.

(** The scan of the worker visits every slot. *)
Lemma scanOrder_elem s id : id ∈ scanOrder s <-> is_Some (im_slots s !! id).
Proof.
  pose proof (slot_ids_elem s id) as Hs.
  unfold scanOrder. rewrite elem_of_app, !list_elem_of_filter. rewrite <-Hs. split; [tauto|].
  intros H. destruct (decide (im_lastId s < id)); [left|right]; split; auto; lia.
Qed.

(** A pending alarm is always picked up: whenever the worker looks for
    work (enabled, not stopping, past its retry time) and some current
    registration is pending, it leaves the lock with an alarm to send, never
    with a heartbeat and never idle. *)
Theorem pending_alarm_selected s now time id :
  ring_wf (im_ring s) -> im_stopping s = false -> im_enabled s = true -> im_retryAt s <= now ->
  needsSend s id = true ->
  exists f slot, im_flight (worker_select s now time) = Some f /\ fl_slot f = Some slot.
Proof.
  intros Hwf Hst Hen Hre Hneed. unfold worker_select. rewrite Hst, Hen. cbn [orb negb].
  rewrite (proj2 (Z.ltb_ge now (im_retryAt s))) by done.
  pose proof (takeQueued_spec (rg_count (im_ring s)) s Hwf) as HT.
  destruct (takeQueued _ s) as [s1 q]. destruct HT as (Heq & _ & _ & _ & _).
  destruct q as [[i e]|]; [by eexists _, _|].
  assert (needsSend s1 id = true) as Hneed1.
  { rewrite <-Hneed. unfold needsSend. rewrite (current_ext s s1); [|by rewrite Heq..].
    rewrite Heq. cbn. by destruct (im_slots s !! id). }
  assert (id ∈ scanOrder s1) as Hscan.
  { apply scanOrder_elem. unfold needsSend in Hneed1. destruct (im_slots s1 !! id); [done|].
    by rewrite andb_false_r in Hneed1. }
  destruct (List.find (needsSend s1) (scanOrder s1)) as [i|] eqn:Hf.
  - apply List.find_some in Hf as [_ Hi]. unfold needsSend in Hi.
    destruct (im_slots s1 !! i) as [sl|]; [|by rewrite andb_false_r in Hi]. by eexists _, _.
  - rewrite (List.find_none _ _ Hf id) in Hneed1; [done|]. by apply list_elem_of_In.
Qed.

Lemma pending_alarm_selected_witness :
  exists f slot, im_flight (worker_select (exec demo_options demo_end.1 (AUpdate 1 (demo_state 3) 9)).1 5000 10) = Some f /\
    fl_slot f = Some slot.
Proof.
  apply (pending_alarm_selected _ 5000 10 1); [|by vm_compute..].
  split; vm_compute; lia.
Defined.

Lemma filter_empty {A} (f : A -> bool) l x : List.filter f l = [] -> x ∈ l -> f x = false.
Proof.
  intros He Hx. destruct (f x) eqn:E; [|done]. assert (List.In x (List.filter f l)) as Hin.
  { apply List.filter_In. split; [by apply list_elem_of_In|done]. } by rewrite He in Hin.
Qed.

(** What "ready" in the status stands for. *)
Lemma status_ready options s :
  ar_state (status options s) = "ready" ->
  im_stopping s = false /\ im_enabled s = true /\ im_live s = true /\ rg_count (im_ring s) = 0%nat /\
  (exists id, current s id = true) /\ forall id, current s id = true -> needsSend s id = false.
Proof.
  unfold status. cbn [ar_state]. destruct (im_stopping s); [done|]. destruct (im_enabled s); [|done]. cbn [negb].
  destruct (Z.eqb_spec (Z.of_nat (length (List.filter (current s) (slot_ids s)))) 0) as [|Ha]; [done|].
  destruct (im_live s); [|done]. destruct (im_recovering s); [done|]. cbn [negb orb].
  destruct (Z.eqb_spec (Z.of_nat (length (List.filter (needsSend s) (slot_ids s)))) 0) as [Hp|]; [|done].
  destruct (Z.eqb_spec (Z.of_nat (rg_count (im_ring s))) 0); [|done]. intros _. split_and!; try done; [lia|..].
  - destruct (List.filter (current s) (slot_ids s)) as [|id l] eqn:E; [done|]. exists id.
    apply (List.filter_In (current s) id (slot_ids s)). rewrite E. by left.
  - intros id Hc. apply (filter_empty (needsSend s) (slot_ids s)); [by apply length_zero_iff_nil; lia|].
    apply slot_ids_elem. unfold current in Hc. by destruct (im_slots s !! id).
Qed.

(** The status of the alarm publisher can be believed: in every reachable
    state in which it says "ready", the publisher is enabled and connected, no
    transition is queued, and the latest state of every registration in
    service, of which there is one, is the last record the server accepted for
    it. *)
Theorem alarm_ready_delivered options n s log :
  options_wf options -> reach options n s log -> Z.of_nat n + 1 < 2 ^ 64 ->
  ar_state (status options s) = "ready" ->
  im_enabled s = true /\ im_live s = true /\ rg_count (im_ring s) = 0%nat /\ (exists id, current s id = true) /\
  forall id, current s id = true -> exists sl, im_slots s !! id = Some sl /\
    last (accepted log id) = Some (sl_revision sl, sl_latest sl).
Proof.
  intros OWF Hr Hn Hst. destruct (status_ready options s Hst) as (_ & ? & ? & ? & ? & Hall). split_and!; try done.
  intros id Hc. pose proof (Hall id Hc) as Hneed. unfold needsSend in Hneed. rewrite Hc in Hneed. cbn [andb] in Hneed.
  destruct (im_slots s !! id) as [sl|] eqn:Hid; [|by unfold current in Hc; rewrite Hid in Hc].
  exists sl. split; [done|]. by eapply not_pending_delivered.
Qed.

Definition demo_ready : Impl * list record :=
  default (demo_start, []) (run demo_options demo_start [] (demo_ops ++ [ASelect 2002 9])).

Lemma alarm_ready_delivered_witness :
  im_enabled demo_ready.1 = true /\ im_live demo_ready.1 = true /\ rg_count (im_ring demo_ready.1) = 0%nat /\
  (exists id, current demo_ready.1 id = true) /\
  forall id, current demo_ready.1 id = true -> exists sl, im_slots demo_ready.1 !! id = Some sl /\
    last (accepted demo_ready.2 id) = Some (sl_revision sl, sl_latest sl).
Proof.
  apply (alarm_ready_delivered demo_options 12 demo_ready.1 demo_ready.2 demo_options_wf); [|by vm_compute..].
  assert (reach demo_options 0 demo_start []) as H0 by (apply (reach_init _ 0); by vm_compute).
  pose proof (alarm_run_reach demo_options 0 demo_start [] (demo_ops ++ [ASelect 2002 9]) demo_ready H0) as H.
  apply H. by vm_compute.
Defined.
