(* ===== verification/AlarmLink.v ===== *)
(** * The connection of the alarm publisher

    src/alarm_worker.cpp, the part of the worker that runs without the lock:
    connecting and authenticating, the command that appends a record to the
    stream and the heartbeat.  hiredis and the server are arguments: whether a
    connection can be made and what is answered to a command.  The state of the
    publisher under its lock is AlarmWorker; this file puts both together.

    The theorems show that commands only go out on a connection that was
    authenticated as configured and has not failed, and that a publisher which
    reports ready has its latest alarm states acknowledged on the stream. *)

From S2P Require Import Prelude StrMap Floats Config Util AlarmWorker AlarmWorkerSpec.

Local Open Scope string_scope.
Local Open Scope list_scope.
Local Open Scope Z_scope.

(** ** The link *)

Record LinkConfig := { lc_stream : string; lc_user : string; lc_password : string }.

(** The type of a reply; [NoReply] is a null pointer, after which the context
    has failed, [Thrown] an exception before the command was sent. *)
Inductive reply := NoReply | ErrorReply | StringReply | StatusReply | OtherReply | Thrown.
#[export] Instance reply_eq_dec : EqDecision reply.
Proof. solve_decision. Defined.

(** [context], with its number and whether it has failed, and [authenticated];
    connections are numbered in the order in which they are opened. *)
Record Link := { lk_context : option (Z * bool); lk_authenticated : bool; lk_next : Z }.
#[export] Instance Link_eta : Eta Link := fun r => Build_Link (lk_context r) (lk_authenticated r) (lk_next r).
Definition Link_new : Link := Build_Link None false 0.

(** What the server sees. *)
Inductive wire := Opened (connection : Z) | Command (connection : Z) (args : list string) (r : reply).

Definition reset (l : Link) : Link := l <| lk_context := None |> <| lk_authenticated := false |>.

Definition command (l : Link) (args : list string) (r : reply) : Link * list wire :=
  match lk_context l, r with
  | None, _ | _, Thrown => (l, [])
  | Some (id, _), NoReply => (l <| lk_context := Some (id, true) |>, [Command id args NoReply])
  | Some (id, _), _ => (l, [Command id args r])
  end.

Definition usable (l : Link) : bool := match lk_context l with Some (_, failed) => negb failed | None => false end.
Definition authArgs (cfg : LinkConfig) : list string :=
  if str_empty (lc_user cfg) then ["AUTH"; lc_password cfg] else ["AUTH"; lc_user cfg; lc_password cfg].
Definition credentials (cfg : LinkConfig) : bool := negb (str_empty (lc_user cfg)) || negb (str_empty (lc_password cfg)).

(** Whether a connection could be made and its timeout set, and the replies to
    [AUTH] and to the command. *)
Record Answers := { as_opened : bool; as_auth : reply; as_reply : reply }.

(** The result, [None] when an exception leaves the function. *)
Definition outcome : Type := Link * list wire * option SendResult.

Definition open (l : Link) (opened : bool) : Link * list wire * bool :=
  if usable l then (l, [], true)
  else let l := reset l in
       if opened then (l <| lk_context := Some (lk_next l, false) |> <| lk_next := lk_next l + 1 |>, [Opened (lk_next l)], true)
       else (reset l, [], false).

Definition connect (cfg : LinkConfig) (l : Link) (a : Answers) : outcome :=
  let '(l, w, connected) := open l (as_opened a) in
  if negb connected then (l, w, Some Unavailable)
  else if negb (lk_authenticated l) && credentials cfg then
    let '(l, w') := command l (authArgs cfg) (as_auth a) in
    match as_auth a with
    | Thrown => (l, w ++ w', None)
    | NoReply => (reset l, w ++ w', Some Unavailable)
    | ErrorReply => (l, w ++ w', Some Rejected)
    | _ => (l <| lk_authenticated := true |>, w ++ w', Some Accepted)
    end
  else (l <| lk_authenticated := true |>, w, Some Accepted).

(** The common end of [send] and [ping]; [expected] is the type of the reply
    that means success. *)
Definition issue (expected : reply) (cfg : LinkConfig) (l : Link) (args : list string) (a : Answers) : outcome :=
  match connect cfg l a with
  | (l, w, Some Accepted) =>
      let '(l, w') := command l args (as_reply a) in
      match as_reply a with
      | Thrown => (l, w ++ w', None)
      | NoReply => (reset l, w ++ w', Some Unavailable)
      | r => (l, w ++ w', Some (if bool_decide (r = expected) then Accepted else Rejected))
      end
  | o => o
  end.

Section Send.
Context (conditionStrings severityStrings : list string) (cfg : LinkConfig).

Definition xaddArgs (name : string) (event : Event) : list string :=
  ["XADD"; lc_stream cfg; "MAXLEN"; "99999"; "*"] ++
  concat (map (fun field => [field.1; field.2])
    (makeAlarmStreamFields conditionStrings severityStrings name (StoredState_decode (ev_state event)) (ev_timestamp event))).

Definition send (name : string) (event : Event) (l : Link) (a : Answers) : outcome := issue StringReply cfg l (xaddArgs name event) a.
Definition ping (l : Link) (a : Answers) : outcome := issue StatusReply cfg l ["PING"] a.

(** The part of the worker between its two critical sections; [name] is that
    of the selected slot. *)
Definition attempt (f : Flight) (name : string) (l : Link) (a : Answers) : Link * list wire * SendResult :=
  match match fl_slot f with Some _ => send name (fl_event f) l a | None => ping l a end with
  | (l, w, Some result) => (l, w, result)
  | (l, w, None) => (reset l, w, Unavailable)
  end.

(** ** Commands go out as configured *)

(** What the server has seen on the connection in use. *)
Definition alive (id : Z) (w : list wire) : Prop := Opened id ∈ w /\ forall args, Command id args NoReply ∉ w.
Definition admitted (id : Z) (w : list wire) : Prop :=
  credentials cfg = true -> exists r, Command id (authArgs cfg) r ∈ w /\ r <> NoReply /\ r <> ErrorReply.

(** The commands of the publisher itself. *)
Definition ours (args : list string) : Prop := args = ["PING"] \/ exists name event, args = xaddArgs name event.

(** Every command in its place: those before it on its connection let it. *)
Definition in_order (w : list wire) : Prop := forall w1 id args r w2, w = w1 ++ Command id args r :: w2 ->
  alive id w1 /\ (args = authArgs cfg /\ credentials cfg = true \/ ours args /\ admitted id w1).

Record link_ok (l : Link) (w : list wire) : Prop := {
  lo_order : in_order w;
  lo_fresh : forall id, Opened id ∈ w -> id < lk_next l;
  lo_known : forall id args r, Command id args r ∈ w -> Opened id ∈ w;
  lo_context : forall id, lk_context l = Some (id, false) -> alive id w;
  lo_authenticated : lk_authenticated l = true -> forall id failed, lk_context l = Some (id, failed) -> admitted id w;
  lo_failed : forall id, lk_context l <> Some (id, true);
}.

Lemma snoc_split {A} (w : list A) x w1 y w2 :
  w ++ [x] = w1 ++ y :: w2 -> (w1 = w /\ y = x /\ w2 = []) \/ exists w3, w2 = w3 ++ [x] /\ w = w1 ++ y :: w3.
Proof.
  destruct w2 as [|z w2 _] using rev_ind; intros E.
  - left. by apply app_inj_tail in E as [-> ->].
  - right. exists w2. rewrite app_comm_cons, app_assoc in E. apply app_inj_tail in E as [-> ->]. done.
Qed.

Lemma in_order_snoc w id args r :
  in_order w -> alive id w -> (args = authArgs cfg /\ credentials cfg = true \/ ours args /\ admitted id w) ->
  in_order (w ++ [Command id args r]).
Proof.
  intros Ho Ha Hp w1 id' args' r' w2 E. destruct (snoc_split _ _ _ _ _ E) as [(-> & [= -> -> ->] & ->)|(w3 & -> & ->)]; [done|].
  by eapply Ho.
Qed.

Lemma admitted_app id w w' : admitted id w -> admitted id (w ++ w').
Proof. intros Ha Hc. destruct (Ha Hc) as (r & Hr & ?). exists r. split; [by apply elem_of_app; left|done]. Qed.

Lemma alive_snoc id w x : alive id w -> (forall args, x <> Command id args NoReply) -> alive id (w ++ [x]).
Proof.
  intros [Ho Hn] Hx. split; [by apply elem_of_app; left|]. intros args [H|H%list_elem_of_singleton]%elem_of_app; [by eapply Hn|].
  by eapply Hx.
Qed.

Lemma link_reset l w : link_ok l w -> link_ok (reset l) w.
Proof. intros [H1 H2 H3 H4 H5 H6]. by split. Qed.

Lemma link_opened l w : link_ok l w ->
  link_ok ((reset l) <| lk_context := Some (lk_next l, false) |> <| lk_next := lk_next l + 1 |>) (w ++ [Opened (lk_next l)]).
Proof.
  intros [H1 H2 H3 _ _ _]. split; cbn; try done.
  - intros w1 id args r w2 E. destruct (snoc_split _ _ _ _ _ E) as [(_ & [=] & _)|(w3 & -> & ->)]. by eapply H1.
  - intros id [H%H2|[= ->]%list_elem_of_singleton]%elem_of_app; lia.
  - intros id args r [H|[=]%list_elem_of_singleton]%elem_of_app. apply elem_of_app. left. by eapply H3.
  - intros id [= <-]. split; [apply elem_of_app; right; by left|].
    intros args [H%H3%H2|[=]%list_elem_of_singleton]%elem_of_app. lia.
Qed.

(** A command on the connection in use. *)
Lemma link_command l w id args r :
  link_ok l w -> lk_context l = Some (id, false) ->
  (args = authArgs cfg /\ credentials cfg = true \/ ours args /\ admitted id w) ->
  link_ok (if bool_decide (r = NoReply) then reset l else l) (w ++ [Command id args r]).
Proof.
  intros [H1 H2 H3 H4 H5 H6] Hc Hp.
  assert (Ho : in_order (w ++ [Command id args r])) by (apply in_order_snoc; auto).
  assert (Hf : forall i, Opened i ∈ w ++ [Command id args r] -> i < lk_next l).
  { intros i [?%H2|[=]%list_elem_of_singleton]%elem_of_app. done. }
  assert (Hk : forall i a0 r0, Command i a0 r0 ∈ w ++ [Command id args r] -> Opened i ∈ w ++ [Command id args r]).
  { intros i a0 r0 [H|[= -> -> ->]%list_elem_of_singleton]%elem_of_app; apply elem_of_app; left; [by eapply H3|]. by apply H4. }
  case_bool_decide as Hr; [by split|]. split; try done.
  - intros i Hi. apply alive_snoc; [by apply H4|]. intros a0 [= -> -> ->]. done.
  - intros Ha i failed Hi. apply admitted_app. by eapply H5.
Qed.

Lemma link_open l w opened l' w' ok : link_ok l w -> open l opened = (l', w', ok) ->
  link_ok l' (w ++ w') /\ (ok = true -> exists id, lk_context l' = Some (id, false)).
Proof.
  intros Hl. unfold open, usable. pose proof (link_opened _ _ Hl) as Ho.
  destruct (lk_context l) as [[id failed]|] eqn:E.
  - destruct failed; [by destruct (lo_failed _ _ Hl id)|]. cbn. intros [= <- <- <-]. rewrite app_nil_r. split; [done|]. by exists id.
  - destruct opened; intros [= <- <- <-]; [split; [done|]; intros _; by eexists|]. rewrite app_nil_r.
    split; [by apply link_reset, link_reset|done].
Qed.

Lemma admitted_snoc_auth id w r : r <> NoReply -> r <> ErrorReply -> admitted id (w ++ [Command id (authArgs cfg) r]).
Proof. intros H1 H2 _. exists r. split; [apply elem_of_app; right; by left|done]. Qed.

Lemma link_authenticated l w id : link_ok l w -> lk_context l = Some (id, false) -> admitted id w ->
  link_ok (l <| lk_authenticated := true |>) w.
Proof.
  intros [H1 H2 H3 H4 H5 H6] Hc Ha. split; try done. cbn. rewrite Hc. intros _ i failed [= <- _]. done.
Qed.

Lemma link_connect l w a l' w' o : link_ok l w -> connect cfg l a = (l', w', o) ->
  link_ok l' (w ++ w') /\ (o = Some Accepted -> exists id, lk_context l' = Some (id, false) /\ admitted id (w ++ w')) /\
  Forall (fun x => forall id args r, x = Command id args r -> args = authArgs cfg) w'.
Proof.
  intros Hl. unfold connect. destruct (open l (as_opened a)) as [[l1 w1] ok] eqn:Eo.
  assert (Hw1 : Forall (fun x => forall id args r, x = Command id args r -> args = authArgs cfg) w1).
  { revert Eo. unfold open. destruct (usable l); [|destruct (as_opened a)]; intros [= _ <- _]; repeat constructor. done. }
  destruct (link_open _ _ _ _ _ _ Hl Eo) as [Hl1 Hid]. destruct ok; cbn [negb]; [|by intros [= <- <- <-]].
  destruct (Hid eq_refl) as [id Hc]. destruct (negb (lk_authenticated l1) && credentials cfg) eqn:Ea.
  - apply andb_true_iff in Ea as [_ Hcr]. unfold command. rewrite Hc.
    pose proof (link_command l1 (w ++ w1) id (authArgs cfg) (as_auth a) Hl1 Hc (or_introl (conj eq_refl Hcr))) as Hl2.
    rewrite <-app_assoc in Hl2.
    assert (Hw2 : forall r, Forall (fun x => forall id args r, x = Command id args r -> args = authArgs cfg) (w1 ++ [Command id (authArgs cfg) r])).
    { intros r. apply Forall_app_2; [done|]. apply Forall_singleton. by intros ??? [= <- <- <-]. }
    destruct (as_auth a) eqn:Er; intros [= <- <- <-]; rewrite ?app_nil_r; try (split_and!; [|done|]; by auto).
    all: split; [|split; [intros _; exists id; split; [done|]|by auto]]; [eapply link_authenticated; [exact Hl2|done|]|];
      rewrite app_assoc; by apply admitted_snoc_auth.
  - intros [= <- <- <-].
    assert (Had : admitted id (w ++ w1)).
    { apply andb_false_iff in Ea as [Ea%negb_false_iff|Ea]; [by eapply (lo_authenticated _ _ Hl1)|]. intros Hcr. congruence. }
    split; [by eapply link_authenticated|]. split; [|done]. intros _. by exists id.
Qed.

(** Records of the stream the server acknowledged. *)
Definition acked (w : list wire) : list (list string) :=
  omap (fun x => match x with
                 | Command _ args StringReply => if String.eqb (hd "" args) "XADD" then Some args else None
                 | _ => None
                 end) w.

Lemma acked_app w w' : acked (w ++ w') = acked w ++ acked w'.
Proof. apply omap_app. Qed.
Lemma acked_auth w : Forall (fun x => forall id args r, x = Command id args r -> args = authArgs cfg) w -> acked w = [].
Proof.
  induction 1 as [|x w Hx _ IH]; [done|]. unfold acked in *. cbn. rewrite IH. destruct x as [|id args r]; [done|].
  rewrite (Hx _ _ _ eq_refl). unfold authArgs. destruct r; try done. by destruct (str_empty (lc_user cfg)).
Qed.

Lemma accepted_if (r expected : reply) : Some (if bool_decide (r = expected) then Accepted else Rejected) = Some Accepted <-> r = expected.
Proof. by case_bool_decide. Qed.

Lemma link_issue expected l w args a l' w' o :
  link_ok l w -> ours args -> expected <> NoReply -> expected <> Thrown -> issue expected cfg l args a = (l', w', o) ->
  link_ok l' (w ++ w') /\
  exists w1 tail, w' = w1 ++ tail /\ acked w1 = [] /\
    (tail = [] /\ o <> Some Accepted \/
     exists id r, tail = [Command id args r] /\ (o = Some Accepted <-> r = expected)).
Proof.
  intros Hl Ho Hn Ht. unfold issue. destruct (connect cfg l a) as [[l1 w1] o1] eqn:Ec.
  destruct (link_connect _ _ _ _ _ _ Hl Ec) as (Hl1 & Hid & Hauth). apply acked_auth in Hauth.
  assert (Hstop : forall l2 o2, link_ok l2 (w ++ w1) -> o2 <> Some Accepted -> (l2, w1, o2) = (l', w', o) ->
    link_ok l' (w ++ w') /\ exists w0 tail, w' = w0 ++ tail /\ acked w0 = [] /\ (tail = [] /\ o <> Some Accepted \/
      exists id r, tail = [Command id args r] /\ (o = Some Accepted <-> r = expected))).
  { intros l2 o2 H2 Hne [= <- <- <-]. split; [done|]. exists w1, []. rewrite app_nil_r. auto. }
  destruct o1 as [[| |]|]; try by apply Hstop. destruct (Hid eq_refl) as (id & Hc & Had).
  unfold command. rewrite Hc. pose proof (link_command l1 (w ++ w1) id args (as_reply a) Hl1 Hc (or_intror (conj Ho Had))) as Hl2.
  rewrite <-app_assoc in Hl2.
  destruct (as_reply a) eqn:Er; [..|rewrite app_nil_r; by apply Hstop]; intros [= <- <- <-]; (split; [exact Hl2|]); exists w1; eexists;
    (split; [done|]); (split; [done|]); right; exists id; eexists; (split; [done|]); try apply accepted_if.
  split; [done|]. intros <-. done.
Qed.

(** An attempt appends its record exactly when it is accepted. *)
Lemma link_attempt f name l w a l' w' result :
  link_ok l w -> attempt f name l a = (l', w', result) ->
  link_ok l' (w ++ w') /\
  acked w' = match fl_slot f, result with Some _, Accepted => [xaddArgs name (fl_event f)] | _, _ => [] end.
Proof.
  intros Hl. unfold attempt, send, ping.
  assert (Hx : forall o l1 w1, (l1, w1, o) = (l', w', Some result) \/ o = None /\ (reset l1, w1, Unavailable) = (l', w', result) ->
    link_ok l1 (w ++ w1) -> link_ok l' (w ++ w') /\ w1 = w' /\ (o = Some Accepted <-> result = Accepted)).
  { intros o l1 w1 [[= <- <- ->]|[-> [= <- <- <-]]] H1; [split_and!; [done|done|by split; [intros [= ->]|intros ->]]|].
    by split; [apply link_reset|]. }
  destruct (fl_slot f) as [id|].
  - destruct (issue StringReply cfg l _ a) as [[l1 w1] o] eqn:Ei.
    destruct (link_issue StringReply _ _ _ _ _ _ _ Hl (or_intror (ex_intro _ name (ex_intro _ (fl_event f) eq_refl))) ltac:(done) ltac:(done) Ei)
      as (Hl1 & w0 & tail & -> & Hw0 & Ht).
    intros E. destruct (Hx o l1 (w0 ++ tail)) as (Hl' & <- & Hr); [|done|]. { destruct o; [left|right]; by injection E as <- <- <-. }
    split; [done|]. rewrite acked_app, Hw0. cbn [app].
    destruct Ht as [[-> Hno]|(c & r & -> & Hacc)]; [by destruct result; [destruct Hno; apply Hr|..]|].
    assert (Hr' : result = Accepted <-> r = StringReply) by (by rewrite <-Hr).
    destruct result; [by rewrite (proj1 Hr' eq_refl)|..]; destruct r; try done; by (discriminate (proj2 Hr' eq_refl)).
  - destruct (issue StatusReply cfg l _ a) as [[l1 w1] o] eqn:Ei.
    destruct (link_issue StatusReply _ _ _ _ _ _ _ Hl (or_introl eq_refl) ltac:(done) ltac:(done) Ei) as (Hl1 & w0 & tail & -> & Hw0 & Ht).
    intros E. destruct (Hx o l1 (w0 ++ tail)) as (Hl' & <- & _); [|done|]. { destruct o; [left|right]; by injection E as <- <- <-. }
    split; [done|]. rewrite acked_app, Hw0. destruct Ht as [[-> _]|(c & r & -> & _)]; [done|]. by destruct r.
Qed.

(** ** The publisher and its connection *)

Record Publisher := { pb_impl : Impl; pb_name : string; pb_link : Link }.

(** The name of the slot the worker holds. *)
Definition selectedName (s : Impl) : string :=
  match im_flight s with
  | Some f => match fl_slot f with Some id => from_option sl_name "" (im_slots s !! id) | None => "" end
  | None => ""
  end.

(** A record acknowledged by the server: the registration, its name and the
    event. *)
Definition appended (f : Flight) (name : string) (result : SendResult) : list (Z * (string * Event)) :=
  match fl_slot f, result with Some id, Accepted => [(id, (name, fl_event f))] | _, _ => [] end.

Inductive works (options : AlarmPublisherOptions) : nat -> Publisher -> list (Z * (string * Event)) -> list wire -> Prop :=
| W_init now s : Impl_new options now = Ret s -> works options 0 (Build_Publisher s "" Link_new) [] []
| W_select n p stream w now time :
    works options n p stream w -> im_flight (pb_impl p) = None ->
    let s := worker_select (pb_impl p) now time in works options (S n) (Build_Publisher s (selectedName s) (pb_link p)) stream w
| W_attempt n p stream w f a now l w' result :
    works options n p stream w -> im_flight (pb_impl p) = Some f -> attempt f (pb_name p) (pb_link p) a = (l, w', result) ->
    works options (S n) (Build_Publisher (worker_result options (pb_impl p) result now) (pb_name p) l)
      (stream ++ appended f (pb_name p) result) (w ++ w')
| W_other n p stream w o :
    works options n p stream w -> match o with ASelect _ _ | AResult _ _ => False | _ => True end ->
    works options (S n) (Build_Publisher (exec options (pb_impl p) o).1 (pb_name p) (pb_link p)) stream w.

(** The records as AlarmWorkerSpec sees them. *)
Definition as_record (x : Z * (string * Event)) : record := (x.1, (ev_revision x.2.2, ev_state x.2.2)).

Lemma works_reach options n p stream w :
  works options n p stream w -> reach options n (pb_impl p) (map as_record stream).
Proof.
  induction 1 as [now s Hn|n p stream w now time _ IH Hf s|n p stream w f a now l w' result _ IH Hf Ha|n p stream w o _ IH Ho].
  - by eapply reach_init.
  - pose proof (reach_step options _ _ _ (ASelect now time) IH) as H1. cbn in H1. rewrite Hf, app_nil_r in H1. by apply H1.
  - pose proof (reach_step options _ _ _ (AResult result now) IH) as H1. cbn in H1. unfold accepted_by in H1. rewrite Hf in H1.
    rewrite map_app. unfold appended. destruct (fl_slot f), result; cbn; by apply H1.
  - pose proof (reach_step options _ _ _ o IH) as H1. destruct o; cbn in *; rewrite ?app_nil_r in H1; try done; by apply H1.
Qed.

Lemma works_link options n p stream w :
  works options n p stream w -> link_ok (pb_link p) w /\ acked w = map (fun x => xaddArgs x.2.1 x.2.2) stream.
Proof.
  induction 1 as [now s Hn|n p stream w now time _ IH Hf s|n p stream w f a now l w' result _ [IH1 IH2] Hf Ha|n p stream w o _ IH Ho]; try done.
  - split; [|done]. split; try done; [intros w1 id args r w2 E; by destruct w1|by intros ? ?%elem_of_nil|by intros ? ? ? ?%elem_of_nil].
  - destruct (link_attempt _ _ _ _ _ _ _ _ IH1 Ha) as [Hl Hk]. split; [done|]. rewrite acked_app, IH2, Hk, map_app. f_equal.
    unfold appended. by destruct (fl_slot f), result.
Qed.

(** A slot keeps its name, and a new one has a new number. *)
Definition named_from (s s' : Impl) : Prop := forall id sl', im_slots s' !! id = Some sl' ->
  (exists sl, im_slots s !! id = Some sl /\ sl_name sl' = sl_name sl) \/ (im_slots s !! id = None /\ id = u64 (im_nextId s + 1)).

Lemma named_same s s' : im_slots s' = im_slots s -> named_from s s'.
Proof. intros E id sl' H. rewrite E in H. left. eauto. Qed.
Lemma named_insert s s' id sl sl' :
  im_slots s !! id = Some sl -> sl_name sl' = sl_name sl -> im_slots s' = <[id := sl']> (im_slots s) -> named_from s s'.
Proof. intros H1 H2 E i x. rewrite E. intros [[<- <-]|[_ ?]]%lookup_insert_Some; left; eauto. Qed.

Lemma exec_named options s o : named_from s (exec options s o).1.
Proof.
  destruct o as [name state|id|id state time|id|id| | |now time|result now]; cbn [exec fst].
  - destruct (prepare s name state) as [[s' id]|] eqn:E; [|by apply named_same]. revert E. unfold prepare.
    destruct (_ <? strlen name); [done|]. intros (b & _ & Hp)%exn_bind_ret. destruct (StoredState_encode state) as [latest truncated].
    destruct (im_stopping s); [done|]. injection Hp as <- <-. intros i x. cbn.
    destruct (im_slots s !! u64 (im_nextId s + 1)) eqn:Ei; [left; eauto|]. intros [[<- _]|[_ ?]]%lookup_insert_Some; [by right|left; eauto].
  - unfold remove. destruct (im_slots s !! id); [|by apply named_same]. intros i x. cbn. intros [_ ?]%lookup_delete_Some. left. eauto.
  - unfold update. destruct (StoredState_encode state) as [encoded truncated]. destruct (im_slots s !! id) as [sl|] eqn:Hid; [|by apply named_same].
    destruct (_ || _ || _); [by apply named_same|]. destruct (_ && _); [destruct (_ && _ && _); [|destruct (_ =? _)%nat]|];
      (eapply (named_insert s _ id sl); [exact Hid| |reflexivity]); done.
  - unfold activate_slot. destruct (im_slots s !! id) as [sl|] eqn:Hid; [|by apply named_same]. destruct (_ && _); [|by apply named_same].
    eapply (named_insert s _ id sl); [exact Hid| |reflexivity]; done.
  - unfold retire_slot. destruct (im_slots s !! id) as [sl|] eqn:Hid; [|by apply named_same].
    eapply (named_insert s _ id sl); [exact Hid| |reflexivity]; done.
  - by apply named_same.
  - by apply named_same.
  - by apply named_same, worker_select_budget.
  - unfold worker_result. destruct (im_flight s) as [f|]; [|by apply named_same]. destruct result; cbn zeta; [|by apply named_same..].
    destruct (fl_slot f) as [id|]; [|by apply named_same].
    match goal with |- context [if current ?st id then _ else _] => destruct (current st id) end; [|by apply named_same].
    destruct (im_slots s !! id) as [sl|] eqn:Hid; [|apply named_same; cbn; by apply alter_None_id].
    eapply (named_insert s _ id sl); [exact Hid| |cbn; by apply alter_Some_insert]; done.
Qed.

Lemma exec_flight options s o : match o with ASelect _ _ | AResult _ _ => False | _ => True end ->
  im_flight (exec options s o).1 = im_flight s.
Proof.
  destruct o as [name state|id|id state time|id|id| | |now time|result now]; cbn [exec fst]; intros Ho; try done.
  - destruct (prepare s name state) as [[s' id]|] eqn:E; [|done]. revert E. unfold prepare.
    destruct (_ <? strlen name); [done|]. intros (b & _ & Hp)%exn_bind_ret. destruct (StoredState_encode state) as [latest truncated].
    destruct (im_stopping s); [done|]. by injection Hp as <- <-.
  - unfold remove. by destruct (im_slots s !! id).
  - unfold update. destruct (StoredState_encode state) as [encoded truncated]. destruct (im_slots s !! id); [|done].
    destruct (_ || _ || _); [done|]. by destruct (_ && _); [destruct (_ && _ && _); [|destruct (_ =? _)%nat]|].
  - unfold activate_slot. destruct (im_slots s !! id); [|done]. by destruct (_ && _).
  - unfold retire_slot. by destruct (im_slots s !! id).
Qed.

Lemma result_flight options s result now : im_flight (worker_result options s result now) = None.
Proof.
  unfold worker_result. destruct (im_flight s) as [f|] eqn:E; [|done]. destruct result; cbn zeta; [|done..].
  destruct (fl_slot f); [|done]. by destruct (current _ _).
Qed.

(** The records of a registration, and the one in flight, carry its name. *)
Definition names_kept (p : Publisher) (stream : list (Z * (string * Event))) : Prop :=
  forall id sl, im_slots (pb_impl p) !! id = Some sl ->
    (forall name event, (id, (name, event)) ∈ stream -> name = sl_name sl) /\
    (forall f, im_flight (pb_impl p) = Some f -> fl_slot f = Some id -> pb_name p = sl_name sl).

Lemma fresh_unused options n p stream w id :
  options_wf options -> works options n p stream w -> Z.of_nat n + 1 < 2 ^ 64 -> id = u64 (im_nextId (pb_impl p) + 1) ->
  (forall x, (id, x) ∉ stream) /\ (forall f, im_flight (pb_impl p) = Some f -> fl_slot f <> Some id).
Proof.
  intros HO Hw Hn ->. destruct (alarm_reach_inv options n _ _ HO (works_reach _ _ _ _ _ Hw) Hn) as [H1 _ H3 _ _]. rewrite u64_id by lia. split.
  - intros [name event] Hin. apply (list_elem_of_fmap_2 as_record) in Hin.
    assert (im_nextId (pb_impl p) + 1 <= im_nextId (pb_impl p)); [|lia]. eapply H3. apply elem_of_app. left. exact Hin.
  - intros f Hf Hs. assert (im_nextId (pb_impl p) + 1 <= im_nextId (pb_impl p)); [|lia]. eapply H3. apply elem_of_app. right.
    apply elem_of_app. left. unfold flight_records. rewrite Hf, Hs. by left.
Qed.

Lemma names_carried p s' name' stream stream' :
  names_kept p stream -> named_from (pb_impl p) s' ->
  (forall id, id = u64 (im_nextId (pb_impl p) + 1) -> (forall x, (id, x) ∉ stream') /\ (forall f, im_flight s' = Some f -> fl_slot f <> Some id)) ->
  (forall id name event, (id, (name, event)) ∈ stream' -> (id, (name, event)) ∈ stream \/
     name = pb_name p /\ exists f, im_flight (pb_impl p) = Some f /\ fl_slot f = Some id) ->
  (forall f, im_flight s' = Some f -> im_flight (pb_impl p) = Some f /\ name' = pb_name p) ->
  forall link, names_kept (Build_Publisher s' name' link) stream'.
Proof.
  intros Hk Hn Hfresh Hstream Hflight link id sl' Hid. destruct (Hn id sl' Hid) as [(sl & Hsl & Hname)|[_ Hid']].
  - destruct (Hk id sl Hsl) as [K1 K2]. rewrite Hname. split.
    + intros name event [H|(-> & f & Hf & Hs)]%Hstream; [by eapply K1|by eapply K2].
    + intros f Hf Hs. destruct (Hflight f Hf) as [Hf' ->]. by eapply K2.
  - destruct (Hfresh id Hid') as [F1 F2]. split; [intros name event H; by destruct (F1 _ H)|]. intros f Hf Hs. by destruct (F2 f Hf).
Qed.

Lemma works_names options n p stream w :
  options_wf options -> works options n p stream w -> Z.of_nat n + 1 < 2 ^ 64 -> names_kept p stream.
Proof.
  intros HO. induction 1 as [now s Hn|n p stream w now time _ IH Hf s|n p stream w f a now l w' result Hw IH Hf Ha|n p stream w o Hw IH Ho];
    intros Hlim.
  - intros id sl Hid. exfalso. revert Hn Hid. unfold Impl_new. destruct (_ || _); [done|]. intros (b & _ & [= <-])%exn_bind_ret. cbn.
    by rewrite lookup_empty.
  - destruct (worker_select_budget (pb_impl p) now time) as [Es _]. fold s in Es. intros id sl Hid. cbn [pb_impl] in Hid. split.
    + apply IH; [lia|]. by rewrite <-Es.
    + intros f Hfl Hs. cbn [pb_impl pb_name] in *. unfold selectedName. by rewrite Hfl, Hs, Hid.
  - apply (names_carried p _ _ stream); [apply IH; lia|apply (exec_named options _ (AResult result now))|..].
    + intros id Hid. destruct (fresh_unused options n p stream w id HO Hw ltac:(lia) Hid) as [F1 F2]. split.
      * intros x [H|H]%elem_of_app; [by apply F1 in H|]. unfold appended in H. destruct (fl_slot f) as [i|] eqn:Es; [|by apply elem_of_nil in H].
        destruct result; [|by apply elem_of_nil in H..]. apply list_elem_of_singleton in H as [= -> _]. by destruct (F2 f Hf).
      * intros f'. by rewrite result_flight.
    + intros id name event [H|H]%elem_of_app; [by left|]. right. unfold appended in H. destruct (fl_slot f) as [i|] eqn:Es; [|by apply elem_of_nil in H].
      destruct result; [|by apply elem_of_nil in H..]. apply list_elem_of_singleton in H as [= -> -> _]. split; [done|]. by exists f.
    + intros f'. by rewrite result_flight.
  - apply (names_carried p _ _ stream); [apply IH; lia|apply exec_named|..].
    + intros id Hid. rewrite exec_flight by done. apply (fresh_unused options n p stream w id HO Hw); [lia|done].
    + intros id name event H. by left.
    + intros f. rewrite exec_flight by done. done.
Qed.

(** C8. A publisher that reports ready has its alarms on the stream.  However its
    threads interleave with registrations, reloads and shutdown, and whatever the
    server and the network do: every command goes out on an open connection that
    has not failed and, with credentials, after an accepted [AUTH] with exactly
    these on it; the acknowledged records are those of [stream], in order; and when
    the status is "ready", the last acknowledged record of every registration in
    service is its name with its latest state. *)
Theorem alarm_ready_on_stream options n p stream w :
  options_wf options -> works options n p stream w -> Z.of_nat n + 1 < 2 ^ 64 ->
  in_order w /\ acked w = map (fun x => xaddArgs x.2.1 x.2.2) stream /\
  (ar_state (status options (pb_impl p)) = "ready" ->
   (exists id, current (pb_impl p) id = true) /\
   forall id, current (pb_impl p) id = true -> exists sl event, im_slots (pb_impl p) !! id = Some sl /\
     last (of_slot id stream) = Some (sl_name sl, event) /\ ev_state event = sl_latest sl).
Proof.
  intros HO Hw Hn. destruct (works_link _ _ _ _ _ Hw) as [Hl Hk]. split_and!; [apply (lo_order _ _ Hl)|done|]. intros Hready.
  pose proof (works_reach _ _ _ _ _ Hw) as Hr. destruct (status_ready _ _ Hready) as (_ & _ & _ & _ & Hex & Hall).
  split; [done|]. intros id Hc. specialize (Hall id Hc). unfold needsSend in Hall. rewrite Hc in Hall. cbn [andb] in Hall.
  destruct (im_slots (pb_impl p) !! id) as [sl|] eqn:Hid; [|by unfold current in Hc; rewrite Hid in Hc]. exists sl.
  pose proof (not_pending_delivered _ _ _ _ _ _ HO Hr Hn Hid Hall) as Hlast.
  assert (Hmap : accepted (map as_record stream) id = map (fun x => (ev_revision x.2, ev_state x.2)) (of_slot id stream)).
  { clear. unfold accepted, of_slot. induction stream as [|[i [name e]] l IH]; [done|]. cbn. destruct (i =? id); cbn; by rewrite IH. }
  rewrite Hmap in Hlast. destruct (last (of_slot id stream)) as [[name event]|] eqn:El.
  - exists event. pose proof (last_Some_elem_of _ _ El) as Hin. apply of_slot_elem in Hin.
    destruct (works_names _ _ _ _ _ HO Hw Hn id sl Hid) as [Hname _]. rewrite (Hname _ _ Hin). split_and!; [done|done|].
    change (map ?f ?l) with (f <$> l) in Hlast. rewrite fmap_last, El in Hlast. by injection Hlast.
  - change (map ?f ?l) with (f <$> l) in Hlast. rewrite fmap_last, El in Hlast. done.
Qed.
End Send.

(** ** A run *)

Module LinkDemo.
Definition cfg : LinkConfig := {| lc_stream := "alarms"; lc_user := ""; lc_password := "secret" |}.
Definition conditions : list string := ["NO_ALARM"; "READ"].
Definition severities : list string := ["NO_ALARM"; "MINOR"; "MAJOR"; "INVALID"].

Inductive move := Select (now time : Z) | Attempt (a : Answers) (now : Z) | Other (o : aop).
Definition state : Type := Publisher * list (Z * (string * Event)) * list wire.

Definition play (x : option state) (m : move) : option state :=
  '(p, stream, w) ← x;
  match m, im_flight (pb_impl p) with
  | Select now time, None =>
      let s := worker_select (pb_impl p) now time in Some (Build_Publisher s (selectedName s) (pb_link p), stream, w)
  | Attempt a now, Some f =>
      let '(l, w', result) := attempt conditions severities cfg f (pb_name p) (pb_link p) a in
      Some (Build_Publisher (worker_result demo_options (pb_impl p) result now) (pb_name p) l, stream ++ appended f (pb_name p) result, w ++ w')
  | Other (ASelect _ _), _ | Other (AResult _ _), _ => None
  | Other o, _ => Some (Build_Publisher (exec demo_options (pb_impl p) o).1 (pb_name p) (pb_link p), stream, w)
  | _, _ => None
  end.

Lemma play_works n p stream w m p' stream' w' :
  works conditions severities cfg demo_options n p stream w -> play (Some (p, stream, w)) m = Some (p', stream', w') ->
  works conditions severities cfg demo_options (S n) p' stream' w'.
Proof.
  intros Hw. cbn. destruct m as [now time|a now|o]; destruct (im_flight (pb_impl p)) as [f|] eqn:Ef; try done.
  - intros [= <- <- <-]. by apply W_select.
  - destruct (attempt _ _ _ _ _ _ _) as [[l w1] result] eqn:Ea. intros [= <- <- <-]. by eapply W_attempt.
  - pose proof (fun H => W_other _ _ _ _ _ _ _ _ o Hw H) as Hn. destruct o; try done; intros [= <- <- <-]; by apply Hn.
  - pose proof (fun H => W_other _ _ _ _ _ _ _ _ o Hw H) as Hn. destruct o; try done; intros [= <- <- <-]; by apply Hn.
Qed.

Lemma plays_works moves : forall n p stream w r,
  works conditions severities cfg demo_options n p stream w -> fold_left play moves (Some (p, stream, w)) = Some r ->
  works conditions severities cfg demo_options (n + length moves) r.1.1 r.1.2 r.2.
Proof.
  induction moves as [|m moves IH]; intros n p stream w r Hw; cbn [fold_left length].
  - intros [= <-]. by rewrite Nat.add_0_r.
  - destruct (play (Some (p, stream, w)) m) as [[[p1 s1] w1]|] eqn:E.
    + intros Hr. rewrite Nat.add_succ_r. by apply (IH (S n) p1 s1 w1); [eapply play_works|].
    + intros Hr. exfalso. revert Hr. clear. by induction moves.
Qed.

Definition yes (r : reply) : Answers := {| as_opened := true; as_auth := StatusReply; as_reply := r |}.

(** The first attempt finds no server, the second is refused, the third is
    accepted; then the publisher is ready. *)
Definition moves : list move :=
  [Other (APrepare "LAB:T1" (Build_AlarmState 2 1 "too hot")); Other (AActivateSlot 1); Other AActivate;
   Select 0 5; Attempt {| as_opened := false; as_auth := NoReply; as_reply := NoReply |} 0;
   Select 5000 6; Attempt (yes ErrorReply) 5000; Select 10000 7; Attempt (yes StringReply) 10000; Select 10001 8].

Definition start : state := (Build_Publisher demo_start "" Link_new, [], []).

Definition as_expected (r : state) : bool :=
  bool_decide (map (fun x => match x with Opened id => (id, "") | Command id args _ => (id, hd "" args) end) r.2 =
    [(0, ""); (0, "AUTH"); (0, "XADD"); (0, "XADD")]) &&
  bool_decide (map (fun x => x.2.1) r.1.2 = ["LAB:T1"]) && String.eqb (ar_state (status demo_options (pb_impl r.1.1))) "ready".

Lemma checked {A} (x : option A) (p : A -> bool) :
  match x with Some r => p r | None => false end = true -> exists r, x = Some r /\ p r = true.
Proof. destruct x as [r|]; [|done]. intros H. by exists r. Qed.

Lemma alarm_ready_on_stream_witness :
  exists r, fold_left play moves (Some start) = Some r /\ length (acked r.2) = 1%nat /\
    ar_state (status demo_options (pb_impl r.1.1)) = "ready" /\ exists id, current (pb_impl r.1.1) id = true.
Proof.
  destruct (checked (fold_left play moves (Some start)) as_expected) as (r & Hr & He); [vm_compute; reflexivity|].
  exists r. split; [exact Hr|]. unfold as_expected in He. apply andb_true_iff in He as [[_ Hn%bool_decide_eq_true_1]%andb_true_iff Hs%String.eqb_eq].
  assert (Hw : works conditions severities cfg demo_options 10 r.1.1 r.1.2 r.2).
  { apply (plays_works moves 0 (Build_Publisher demo_start "" Link_new) [] [] r); [|exact Hr]. apply (W_init _ _ _ _ 0). by vm_compute. }
  destruct (alarm_ready_on_stream conditions severities cfg demo_options 10 r.1.1 r.1.2 r.2 demo_options_wf Hw)
    as (_ & Ha & Hready); [by vm_compute|].
  split; [|split; [exact Hs|exact (proj1 (Hready Hs))]]. rewrite Ha, length_map. apply (f_equal length) in Hn. by rewrite length_map in Hn.
Defined.
End LinkDemo.
