(* ===== verification/ConfigSafety.v ===== *)
(** * What an accepted configuration guarantees

    The properties of [parseConfig]: the shape of the documents it validates,
    the well-formedness of every PV it accepts, the consistency of the
    namespace and of the subscribed keys, and that the limits it accepts let
    the application build its queues and register every alarm. *)

From Stdlib Require Import Ascii.
From S2P Require Import Prelude StrMap Floats Config Endpoints Secrets Yaml ConfigParse ConfigDiff.
From S2P Require OperationQueue AlarmWorker.

Local Open Scope string_scope.
Local Open Scope list_scope.
Local Open Scope Z_scope.

(** ** Inverting the parser *)

Lemma fail_if_ret b path message u : fail_if b path message = Ret u <-> b = false.
Proof. destruct b, u; cbn; naive_solver. Qed.

Lemma with_default_ret {A} node (d : A) f a :
  with_default node d f = Ret a <-> (node = None /\ a = d) \/ exists n, node = Some n /\ f n = Ret a.
Proof. destruct node; cbn; naive_solver. Qed.

Lemma exn_fmap_ret {A B} (f : A -> B) (m : exn A) b : f <$> m = Ret b <-> exists a, m = Ret a /\ b = f a.
Proof. destruct m; cbn; naive_solver. Qed.

Lemma if_node_ret {A} node (f : ynode -> exn A) o :
  if_node node f = Ret o <->
  (node = None /\ o = None) \/ exists n a, node = Some n /\ f n = Ret a /\ o = Some a.
Proof. destruct node; cbn; rewrite ?exn_fmap_ret; naive_solver. Qed.

Lemma convert_ret {A} (m : exn A) path a : convert m path = Ret a <-> m = Ret a.
Proof. destruct m; cbn; naive_solver. Qed.

(** Splits a run of the parser into the calls it made. *)
Ltac parse_step :=
  match goal with
  | H : Throw _ = Ret _ |- _ => discriminate H
  | H : fail _ _ = Ret _ |- _ => discriminate H
  | H : Ret _ = Ret _ |- _ => injection H as H
  | H : mbind _ _ = Ret _ |- _ =>
      let x := fresh "x" in let Hx := fresh "P" in apply exn_bind_ret in H as (x & Hx & H)
  | H : fail_if _ _ _ = Ret _ |- _ => apply fail_if_ret in H
  | H : convert _ _ = Ret _ |- _ => apply convert_ret in H
  | H : _ <$> _ = Ret _ |- _ => apply exn_fmap_ret in H as (? & H & ?)
  end.
Ltac parse_inv := repeat parse_step; subst.

Lemma exn_imap_forall {A B} (P : B -> Prop) (f : Z -> A -> exn B) i l ys :
  (forall i x y, x ∈ l -> f i x = Ret y -> P y) -> exn_imap f i l = Ret ys -> Forall P ys.
Proof.
  revert i ys; induction l as [|x l IH]; intros i ys Hf Hm; cbn in Hm; parse_inv; constructor.
  - eapply Hf; [left|done].
  - eapply IH; [|done]. intros j z w Hz. apply Hf. by right.
Qed.

(** ** The shape of a validated document *)

(** Nodes, and levels below the root. *)
Fixpoint tree_size (n : ynode) : Z :=
  1 + match n with
      | YSeq l => foldr (fun v acc => tree_size v + acc) 0 l
      | YMap l => foldr (fun e acc => tree_size e.2 + acc) 0 l
      | _ => 0
      end.

Fixpoint tree_depth (n : ynode) : Z :=
  match n with
  | YSeq l => foldr (fun v acc => Z.max (1 + tree_depth v) acc) 0 l
  | YMap l => foldr (fun e acc => Z.max (1 + tree_depth e.2) acc) 0 l
  | _ => 0
  end.

(** Every mapping has scalar keys, no key twice. *)
Fixpoint keys_ok (n : ynode) : Prop :=
  match n with
  | YSeq l => foldr (fun v acc => keys_ok v /\ acc) True l
  | YMap l => Forall (fun e => IsScalar e.1 = true) l /\ NoDup (map (fun e => yscalar e.1) l) /\
              foldr (fun e acc => keys_ok e.2 /\ acc) True l
  | _ => True
  end.

Section ynode_induction.
Variable P : ynode -> Prop.
Hypothesis P_null : P YNull.
Hypothesis P_scalar : forall s, P (YScalar s).
Hypothesis P_seq : forall l, Forall P l -> P (YSeq l).
Hypothesis P_map : forall l, Forall (fun e => P e.2) l -> P (YMap l).

Fixpoint ynode_nested_ind (n : ynode) : P n :=
  match n with
  | YNull => P_null
  | YScalar s => P_scalar s
  | YSeq l => P_seq l ((fix go l := match l return Forall P l with
                        | [] => Forall_nil_2 _
                        | v :: l' => Forall_cons_2 _ _ _ (ynode_nested_ind v) (go l')
                        end) l)
  | YMap l => P_map l ((fix go l := match l return Forall (fun e => P e.2) l with
                        | [] => Forall_nil_2 _
                        | e :: l' => Forall_cons_2 _ _ _ (ynode_nested_ind e.2) (go l')
                        end) l)
  end.
End ynode_induction.

Lemma tree_size_pos n : 1 <= tree_size n.
Proof.
  induction n as [|s|l IH|l IH] using ynode_nested_ind; cbn -[Z.add]; try lia.
  - assert (0 <= foldr (fun v acc => tree_size v + acc) 0 l); [|lia]. induction IH; cbn; lia.
  - assert (0 <= foldr (fun e acc => tree_size e.2 + acc) 0 l); [|lia]. induction IH; cbn; lia.
Qed.

Lemma tree_depth_nonneg n : 0 <= tree_depth n.
Proof. destruct n as [| |l|l]; cbn; try lia; induction l; cbn; lia. Qed.

Section Tree.
Context `{YamlLaws}.

(** The recursive call accepts exactly the subtrees within the bounds. *)
Definition validates (depth : Z) (n : ynode) (validate : string -> Z -> exn Z) : Prop :=
  forall path visited visited', validate path visited = Ret visited' <->
    visited' = visited + tree_size n /\ visited + tree_size n <= 1000000 /\ depth + tree_depth n < 64 /\ keys_ok n.

Lemma validateElements_iff depth validate path l :
  Forall (fun v => validates depth v (validate v)) l ->
  forall i visited visited',
  visited <= 1000000 -> depth <= 64 ->
  validateElements validate path i visited l = Ret visited' <->
  visited' = visited + foldr (fun v acc => tree_size v + acc) 0 l /\
  visited' <= 1000000 /\
  depth - 1 + foldr (fun v acc => Z.max (1 + tree_depth v) acc) 0 l < 64 /\
  foldr (fun v acc => keys_ok v /\ acc) True l.
Proof.
  induction 1 as [|v l Hv Hl IH]; intros i visited visited' Hn Hd; cbn -[Z.add].
  { split; [intros [= <-]; split_and!; lia|intros (-> & _); f_equal; lia]. }
  pose proof (tree_size_pos v) as Hpos. rewrite exn_bind_ret. split.
  - intros (n1 & (-> & Hv1 & Hv2 & Hv3)%Hv & Hr). apply IH in Hr as (-> & ? & ? & ?); [|lia..].
    split_and!; try done; lia.
  - intros (-> & Hle & Hdep & Hk & Hks).
    assert (0 <= foldr (fun v acc => tree_size v + acc) 0 l).
    { clear. induction l as [|x l IH]; cbn -[Z.add]; [done|]. pose proof (tree_size_pos x). lia. }
    exists (visited + tree_size v). split; [apply Hv; split_and!; try done; lia|].
    apply IH; [lia..|]. split_and!; try done; lia.
Qed.

Lemma ss_insert_ok key keys :
  (ss_insert key keys).2 = true <-> key ∉ sm_keys keys.
Proof.
  unfold ss_insert, sm_emplace. destruct (sm_has key keys) eqn:E; cbn.
  - apply sm_has_spec in E. naive_solver.
  - split; [|done]. intros _ Hin. apply sm_has_spec in Hin. congruence.
Qed.

Lemma ss_insert_keys key keys k :
  (ss_insert key keys).2 = true -> k ∈ sm_keys (ss_insert key keys).1 <-> k = key \/ k ∈ sm_keys keys.
Proof.
  unfold ss_insert, sm_emplace. destruct (sm_has key keys); [done|]. intros _. apply sm_keys_set.
Qed.

Lemma validateEntries_iff depth validate path l :
  Forall (fun e => validates depth e.2 (validate e.2)) l ->
  forall keys visited visited',
  visited <= 1000000 -> depth <= 64 ->
  validateEntries validate path keys visited l = Ret visited' <->
  visited' = visited + foldr (fun e acc => tree_size e.2 + acc) 0 l /\
  visited' <= 1000000 /\
  depth - 1 + foldr (fun e acc => Z.max (1 + tree_depth e.2) acc) 0 l < 64 /\
  Forall (fun e => IsScalar e.1 = true) l /\ NoDup (map (fun e => yscalar e.1) l) /\
  (forall k, k ∈ map (fun e => yscalar e.1) l -> k ∉ sm_keys keys) /\
  foldr (fun e acc => keys_ok e.2 /\ acc) True l.
Proof.
  induction 1 as [|[k v] l Hv Hl IH]; intros keys visited visited' Hn Hd; cbn -[Z.add].
  { split; [intros [= <-]|intros (-> & _); f_equal; lia].
    split_and!; try lia; try constructor. by intros ? ?%elem_of_nil. }
  pose proof (tree_size_pos v) as Hpos. cbn in Hv.
  destruct k as [|s|?|?]; cbn -[Z.add ss_insert];
    try (split; [done|intros (_ & _ & _ & Hf & _); by inversion Hf]).
  rewrite as_string_scalar. cbn -[Z.add ss_insert].
  destruct (ss_insert s keys) as [keys' inserted] eqn:Ei.
  pose proof (ss_insert_ok s keys) as Hok. pose proof (ss_insert_keys s keys) as Hkeys.
  rewrite Ei in Hok, Hkeys. cbn in Hok, Hkeys. destruct inserted; cbn -[Z.add].
  - assert (s ∉ sm_keys keys) as Hs by (by apply Hok). rewrite exn_bind_ret. split.
    + intros (n1 & (-> & Hv1 & Hv2 & Hv3)%Hv & Hr). apply IH in Hr as (-> & ? & ? & ? & Hnd & Hfresh & ?); [|lia..].
      split_and!; try done; try lia; try (by constructor).
      * constructor; [|done]. intros Hin. apply (Hfresh _ Hin). apply Hkeys; auto.
      * intros k [->|Hin]%elem_of_cons; [done|]. intros Hk. apply (Hfresh _ Hin). apply Hkeys; auto.
    + intros (-> & Hle & Hdep & Hsc & Hnd & Hfresh & Hk & Hks). inversion Hsc; subst. inversion Hnd; subst.
      assert (0 <= foldr (fun e acc => tree_size e.2 + acc) 0 l).
      { clear. induction l as [|x l IH]; cbn -[Z.add]; [done|]. pose proof (tree_size_pos x.2). lia. }
      exists (visited + tree_size v). split; [apply Hv; split_and!; try done; lia|].
      apply IH; [lia..|]. split_and!; try done; try lia.
      intros k Hin [->|Hk']%Hkeys; [done| |done]. apply (Hfresh k); [by right|done].
  - split; [done|]. intros (_ & _ & _ & _ & _ & Hfresh & _). exfalso.
    assert (s ∉ sm_keys keys) as Hs by (apply Hfresh; left). by apply Hok in Hs.
Qed.

(** Beyond the bounds nothing validates, so the bounds check decides. *)
Lemma validates_guard depth n (validate : string -> Z -> exn Z) :
  (forall path visited, 1000000 < visited + 1 \/ 64 <= depth -> is_ret (validate path visited) = false) ->
  (forall path visited visited', visited + 1 <= 1000000 -> depth < 64 ->
     validate path visited = Ret visited' <->
     visited' = visited + tree_size n /\ visited + tree_size n <= 1000000 /\ depth + tree_depth n < 64 /\ keys_ok n) ->
  validates depth n validate.
Proof.
  intros Hout Hin path visited visited'. pose proof (tree_size_pos n). pose proof (tree_depth_nonneg n).
  destruct (decide (visited + 1 <= 1000000 /\ depth < 64)) as [[? ?]|Hg]; [by apply Hin|].
  specialize (Hout path visited ltac:(lia)). split; [|lia]. intros Hr. by rewrite Hr in Hout.
Qed.

Lemma validateTree_validates n : forall depth,
  validates depth n (fun path visited => validateTree n path depth visited).
Proof.
  induction n as [|s|l IH|l IH] using ynode_nested_ind; intros depth; apply validates_guard.
  1, 3, 5, 7: intros path visited Hg; cbn [validateTree];
    destruct (Z.ltb_spec 1000000 (visited + 1)), (Z.leb_spec 64 depth); done || lia.
  all: intros path visited visited' Hg1 Hg2; cbn [validateTree];
    destruct (Z.ltb_spec 1000000 (visited + 1)), (Z.leb_spec 64 depth); try lia;
    cbn [orb tree_size tree_depth keys_ok].
  1, 2: split; [intros [= <-]; split_and!; lia|intros (-> & _); f_equal; lia].
  - rewrite validateElements_iff with (depth := depth + 1); [| |lia..].
    + split; intros (? & ? & ? & ?); split_and!; done || lia.
    + eapply Forall_impl; [exact IH|]. intros v Hv p' n n'. apply Hv.
  - rewrite validateEntries_iff with (depth := depth + 1); [| |lia..].
    + split; [intros (? & ? & ? & ? & ? & ? & ?)|intros (? & ? & ? & ? & ? & ?)]; split_and!; try done; try lia.
      intros k _. apply not_elem_of_nil.
    + eapply Forall_impl; [exact IH|]. intros e He p' n n'. apply He.
Qed.

(** The structural check of a configuration document accepts exactly the
    documents with at most 1000000 nodes (aliases counted at every use),
    nested less than 64 levels deep, whose mappings have scalar keys and no
    duplicate key, and its counter is then the number of nodes. *)
Theorem validateTree_iff root path visited :
  validateTree root path 0 0 = Ret visited <->
  visited = tree_size root /\ tree_size root <= 1000000 /\ tree_depth root < 64 /\ keys_ok root.
Proof. apply validateTree_validates. Qed.
End Tree.

(** ** Scalars *)

Definition opt_finite (o : option spec_float) : Prop := forall x, o = Some x -> is_finite x = true.

Section Scalars.
Context `{YamlLaws}.

Lemma rejectUnknownKeys_get node path allowed u k v :
  rejectUnknownKeys node path allowed = Ret u -> yget node k = Some v -> k ∈ allowed.
Proof.
  destruct node as [| | |l]; try done. unfold rejectUnknownKeys. cbn. intros Hr Hk%yfind_elem.
  destruct u. induction l as [|[k' v'] l IH]; [by apply elem_of_nil in Hk|].
  cbn in Hr. apply exn_bind_ret in Hr as ([] & Hx & Hr). apply elem_of_cons in Hk as [[= <- <-]|Hk]; [|by apply IH].
  rewrite as_string_scalar in Hx. cbn in Hx. parse_inv. by bool_split.
Qed.

Lemma rejectUnknownKeys_absent node path allowed u k :
  rejectUnknownKeys node path allowed = Ret u -> k ∉ allowed -> yget node k = None.
Proof.
  intros Hr Hk. destruct (yget node k) eqn:E; [|done]. destruct Hk. by eapply rejectUnknownKeys_get.
Qed.

Lemma parseIntegral_range t node path z : parseIntegral t node path = Ret z -> in_ctype t z.
Proof. unfold parseIntegral. intros. parse_inv. by eapply as_int_range. Qed.

Lemma parseNumeric_range t node path z : parseNumeric t node path = Ret z -> in_ctype t z.
Proof.
  destruct t; try apply parseIntegral_range; cbn [parseNumeric];
    intros (v & Hv%parseIntegral_range & Hr)%exn_bind_ret; parse_inv; bool_split; unfold in_ctype in *; cbn in *.
  - rewrite signed_id; cbn; lia.
  - unfold u8. rewrite Z.mod_small; cbn; lia.
Qed.

Lemma parseFloat_finite fm node path x : parseFloat fm node path = Ret x -> is_finite x = true.
Proof. unfold parseFloat. intros Hr. parse_inv. by bool_split. Qed.

Lemma if_node_double node path o :
  if_node node (fun n => parseDouble n path) = Ret o -> opt_finite o.
Proof.
  intros [[_ ->]|(n & a & _ & Hp & ->)]%if_node_ret; [done|]. intros x [= <-]. by eapply parseFloat_finite.
Qed.

Lemma bounded_range node path key initial low high z :
  bounded node path key initial low high = Ret z -> low <= z <= high.
Proof. unfold bounded. intros Hr. parse_inv. bool_split. lia. Qed.

Lemma requireNode_ret parent key path n : requireNode parent key path = Ret n <-> yget parent key = Some n.
Proof. unfold requireNode. destruct (yget parent key); cbn; naive_solver. Qed.

Lemma nonempty_ret s : str_empty s = false -> s <> "".
Proof. by intros Hs ->. Qed.
End Scalars.

(** ** Well-formed PVs *)

(** Consecutive configured thresholds do not decrease. *)
Definition thresholds (a : AlarmConfig) : list spec_float :=
  omap id [al_lowAlarm a; al_lowWarning a; al_highWarning a; al_highAlarm a].

Record alarms_wf (a : AlarmConfig) : Prop := {
  aw_ordered : Sorted (fun x y => fle x y = true) (thresholds a);
  aw_finite : Forall (fun x => is_finite x = true) (al_hysteresis a :: thresholds a);
  aw_hysteresis : fle f_zero (al_hysteresis a) = true;
}.

Record limits_wf (l : LimitConfig) : Prop := {
  lw_low : opt_finite (lim_low l);
  lw_high : opt_finite (lim_high l);
  lw_ordered : forall x y, lim_low l = Some x -> lim_high l = Some y -> fle x y = true;
}.

Record metadata_wf (m : MetadataConfig) : Prop := {
  mw_display : limits_wf (md_display m);
  mw_control : limits_wf (md_control m);
  mw_minStep : forall x, md_minStep m = Some x -> is_finite x = true /\ fle f_zero x = true;
  mw_precision : forall z, md_precision m = Some z -> in_ctype TI32 z;
}.

(** The inverse transform a put applies is defined. *)
Record transform_wf (t : LinearTransformConfig) : Prop := {
  tw_finite : is_finite (tr_scale t) = true /\ is_finite (tr_offset t) = true;
  tw_nonzero : feq (tr_scale t) f_zero = false;
  tw_inverse : is_finite (fdiv binary64 f_one (tr_scale t)) = true;
}.

(** The initial value holds the PV's own type: integers in range, finite
    floating-point numbers. *)
Definition typed_wf (type : PrimitiveType) (shape : Shape) (v : TypedValue) : Prop :=
  let fin x := is_finite x = true in
  match shape, type, v with
  | _, _, TVmonostate => True
  | Scalar, Boolean, TVbool _ => True
  | Scalar, Int8, TVint8 z => in_ctype TI8 z
  | Scalar, UInt8, TVuint8 z => in_ctype TU8 z
  | Scalar, Int16, TVint16 z => in_ctype TI16 z
  | Scalar, UInt16, TVuint16 z => in_ctype TU16 z
  | Scalar, Int32, TVint32 z => in_ctype TI32 z
  | Scalar, UInt32, TVuint32 z => in_ctype TU32 z
  | Scalar, Int64, TVint64 z => in_ctype TI64 z
  | Scalar, UInt64, TVuint64 z => in_ctype TU64 z
  | Scalar, Float32, TVfloat x => fin x
  | Scalar, Float64, TVdouble x => fin x
  | Scalar, String_, TVstring _ => True
  | Array, Int8, TVvint8 l => Forall (in_ctype TI8) l
  | Array, UInt8, TVvuint8 l => Forall (in_ctype TU8) l
  | Array, Int16, TVvint16 l => Forall (in_ctype TI16) l
  | Array, UInt16, TVvuint16 l => Forall (in_ctype TU16) l
  | Array, Int32, TVvint32 l => Forall (in_ctype TI32) l
  | Array, UInt32, TVvuint32 l => Forall (in_ctype TU32) l
  | Array, Int64, TVvint64 l => Forall (in_ctype TI64) l
  | Array, UInt64, TVvuint64 l => Forall (in_ctype TU64) l
  | Array, Float32, TVvfloat l => Forall fin l
  | Array, Float64, TVvdouble l => Forall fin l
  | _, _, _ => False
  end.

Definition access_wf (a : AccessAssignment) : Prop := asg a <> "" /\ (asl a = 0 \/ asl a = 1).

(** What [parsePV] guarantees of one PV, before its backends are resolved. *)
Record pv_wf (pv : PVConfig) : Prop := {
  wf_name : pv_name pv <> "";
  wf_aliases : Forall (fun a => a <> "") (pv_aliases pv);
  wf_read : rt_key (pv_read pv) <> "";
  wf_write : forall w, pv_write pv = Some w -> rt_key w <> "";
  wf_confirm : forall c, pv_confirm pv = Some c ->
    is_some (pv_write pv) = true /\ cf_key c <> "" /\ 1 <= cf_timeoutMs c <= 300000;
  wf_metadata : metadata_wf (pv_metadata pv);
  wf_alarms : alarms_wf (pv_alarms pv);
  wf_transform : forall t, pv_transform pv = Some t ->
    transform_wf t /\ isFloatingPointType (pv_type pv) = true;
  wf_initial : typed_wf (pv_type pv) (pv_shape pv) (pv_initialValue pv);
  wf_access : forall a, pv_access pv = Some a -> access_wf a;
  wf_array : pv_shape pv = Array ->
    isArrayElementTypeSupported (pv_type pv) = true /\ thresholds (pv_alarms pv) = [];
  wf_text : isNumericType (pv_type pv) = false ->
    has_limits (pv_metadata pv) = false /\ thresholds (pv_alarms pv) = [];
  wf_frames : pv_kind pv = NTNDArray ->
    pv_type pv = UInt8 /\ pv_shape pv = Array /\ pv_write pv = None /\ pv_confirm pv = None /\
    pv_transform pv = None /\ pv_initialValue pv = TVmonostate;
  wf_frameBounds : 1 <= pv_maxFrameBytes pv <= 2 ^ 30 /\ 0 <= pv_maxFrameGap pv <= 2 ^ 31 - 2;
  wf_health : 0 <= sh_staleAfterMs (pv_sourceHealth pv) <= 86400000;
}.

Lemma not_flt_fle x y : is_finite x = true -> is_finite y = true -> flt y x = false -> fle x y = true.
Proof.
  intros Hx Hy. unfold flt, fle, SFltb, SFleb. rewrite (SFcompare_antisym y x).
  destruct (SFcompare x y) as [[]|] eqn:E; try done.
  exfalso. by destruct x as [[]|[]| |[] ? ?], y as [[]|[]| |[] ? ?].
Qed.

Lemma thresholds_disordered_sorted l previous :
  Forall opt_finite (previous :: l) -> thresholds_disordered previous l = false ->
  Sorted (fun x y => fle x y = true) (omap id (previous :: l)).
Proof.
  revert previous; induction l as [|[t|] l IH]; intros previous Hf Hd.
  - destruct previous; repeat constructor.
  - apply Forall_cons in Hf as [Hp Hf]. cbn in Hd. apply orb_false_iff in Hd as [Hgt Hd].
    specialize (IH (Some t) Hf Hd). apply Forall_cons in Hf as [Ht _].
    destruct previous as [p|]; [|exact IH]. cbn in *. constructor; [done|]. constructor.
    apply not_flt_fle; [by apply Hp|by apply Ht|done].
  - apply Forall_cons in Hf as [Hp [_ Hf]%Forall_cons]. cbn in Hd.
    destruct previous; apply (IH _ (Forall_cons_2 _ _ _ Hp Hf) Hd).
Qed.

Lemma has_thresholds_nil a : has_thresholds a = false -> thresholds a = [].
Proof.
  unfold has_thresholds, thresholds. intros Hb. bool_split.
  destruct (al_lowAlarm a), (al_lowWarning a), (al_highWarning a), (al_highAlarm a); done.
Qed.

Section PVs.
Context `{YamlLaws}.

Lemma parseRoute_wf node path r : parseRoute node path = Ret r -> rt_key r <> "".
Proof. unfold parseRoute. intros Hr. parse_inv. by apply nonempty_ret. Qed.

Lemma parseConfirm_wf node path c :
  parseConfirm node path = Ret c -> cf_key c <> "" /\ 1 <= cf_timeoutMs c <= 300000.
Proof. unfold parseConfirm. intros Hr. parse_inv. bool_split. split; [by apply nonempty_ret|cbn; lia]. Qed.

Lemma parseAccessAssignment_wf node path a : parseAccessAssignment node path = Ret a -> access_wf a.
Proof.
  unfold parseAccessAssignment. intros Hr. parse_inv. split; cbn; [by apply nonempty_ret|].
  match goal with H : _ && _ = false |- _ => apply andb_false_iff in H as [?|?] end; bool_split; auto.
Qed.

Lemma limits_wf_default : limits_wf LimitConfig_default.
Proof. by split. Qed.

Lemma parseLimitConfig_wf node path control l : parseLimitConfig node path control = Ret l -> limits_wf l.
Proof.
  destruct node as [node|]; cbn [parseLimitConfig]; [|intros [= <-]; apply limits_wf_default].
  intros Hr. apply exn_bind_ret in Hr as (_ & _ & Hr).
  apply exn_bind_ret in Hr as (low & Hlow & Hr). apply exn_bind_ret in Hr as (high & Hhigh & Hr). parse_inv.
  assert (opt_finite low) as Fl by (by eapply if_node_double).
  assert (opt_finite high) as Fh by (by eapply if_node_double).
  split; cbn; [done|done|]. intros f g -> ->. apply not_flt_fle; auto.
Qed.

Lemma nonneg_of_finite x : is_finite x = true -> flt x f_zero = false -> fle f_zero x = true.
Proof. intros Hx. by apply not_flt_fle. Qed.

Lemma parseMetadata_wf node path m : parseMetadata node path = Ret m -> metadata_wf m.
Proof.
  destruct node as [node|]; cbn [parseMetadata]; [|intros [= <-]; split; (apply limits_wf_default || done)].
  intros Hr. do 3 apply exn_bind_ret in Hr as (? & _ & Hr).
  apply exn_bind_ret in Hr as (precision & Hp & Hr). apply exn_bind_ret in Hr as (form & _ & Hr).
  apply exn_bind_ret in Hr as (display & Hd & Hr). apply exn_bind_ret in Hr as (control & Hc & Hr).
  apply exn_bind_ret in Hr as (step1 & Hs1 & Hr). apply exn_bind_ret in Hr as (step & Hs & Hr).
  assert (opt_finite step) as Fs.
  { destruct (yget node "control" ≫= _) as [n|]; intros y ->.
    - apply exn_fmap_ret in Hs as (z & Hz & [= ->]). by eapply parseFloat_finite.
    - injection Hs as ->. by eapply (if_node_double _ _ _ Hs1). }
  parse_inv. split; cbn.
  - by eapply parseLimitConfig_wf.
  - by eapply parseLimitConfig_wf.
  - intros y ->. split; [by apply Fs|]. apply nonneg_of_finite; [by apply Fs|done].
  - intros z ->. apply if_node_ret in Hp as [[_ ?]|(n & a & _ & Hp & [= ->])]; [done|].
    by eapply parseNumeric_range.
Qed.

Lemma alarms_wf_default : alarms_wf AlarmConfig_default.
Proof. split; cbn; repeat constructor. Qed.

Lemma parseAlarmConfig_wf node path a : parseAlarmConfig node path = Ret a -> alarms_wf a.
Proof.
  destruct node as [node|]; cbn [parseAlarmConfig]; [|intros [= <-]; apply alarms_wf_default].
  intros Hr. apply exn_bind_ret in Hr as (_ & _ & Hr).
  apply exn_bind_ret in Hr as (la & Hla & Hr). apply exn_bind_ret in Hr as (lw & Hlw & Hr).
  apply exn_bind_ret in Hr as (hw & Hhw & Hr). apply exn_bind_ret in Hr as (ha & Hha & Hr).
  apply exn_bind_ret in Hr as (hy & Hhy & Hr). parse_inv.
  assert (is_finite hy = true) as Fhy.
  { apply with_default_ret in Hhy as [[_ ->]|(n & _ & Hn)]; [done|]. by eapply parseFloat_finite. }
  assert (Forall opt_finite [None; la; lw; hw; ha]) as Fs.
  { repeat apply Forall_cons_2; [done|by eapply if_node_double..|constructor]. }
  split; cbn [al_hysteresis].
  - by apply (thresholds_disordered_sorted [la; lw; hw; ha] None).
  - constructor; [done|]. apply Forall_forall. intros f (o & Ho & Hx)%list_elem_of_omap. cbn in Hx, Ho.
    eapply Forall_forall in Fs; [by apply Fs|]. rewrite elem_of_cons. by right.
  - by apply nonneg_of_finite.
Qed.

Lemma parseTransform_wf node path o t : parseTransform node path = Ret o -> o = Some t -> transform_wf t.
Proof.
  destruct node as [node|]; cbn [parseTransform]; [|by intros [= <-]].
  intros Hr Ho. do 2 apply exn_bind_ret in Hr as (? & _ & Hr).
  apply exn_bind_ret in Hr as (scale & Hs & Hr). apply exn_bind_ret in Hr as (offset & Hoff & Hr). parse_inv.
  bool_split. injection Ho as <-.
  assert (is_finite scale = true).
  { apply with_default_ret in Hs as [[_ ->]|(n & _ & Hn)]; [done|]. by eapply parseFloat_finite. }
  assert (is_finite offset = true).
  { apply with_default_ret in Hoff as [[_ ->]|(n & _ & Hn)]; [done|]. by eapply parseFloat_finite. }
  by split.
Qed.

Lemma parseArrayInitial_forall {A} (P : A -> Prop) parse node path l :
  (forall n p a, parse n p = Ret a -> P a) -> parseArrayInitial parse node path = Ret l -> Forall P l.
Proof.
  unfold parseArrayInitial. intros Hp Hr. parse_inv. eapply exn_imap_forall; [|done]. intros i n a _. apply Hp.
Qed.

Lemma parseInitialValue_wf node type shape path v :
  parseInitialValue node type shape path = Ret v -> typed_wf type shape v.
Proof.
  destruct node as [node|]; cbn [parseInitialValue]; [|intros [= <-]; by destruct shape, type].
  destruct shape, type; intros Hr; try done; apply exn_fmap_ret in Hr as (a & Ha & ->); cbn [typed_wf];
    try done; try (by eapply parseNumeric_range); try (by eapply parseFloat_finite);
    eapply parseArrayInitial_forall; try done; intros n p x;
    solve [apply parseNumeric_range | apply parseFloat_finite].
Qed.

Lemma parseAliases_wf node path l : parseAliases node path = Ret l -> Forall (fun a => a <> "") l.
Proof.
  unfold parseAliases. intros Hr. parse_inv. eapply exn_imap_forall; [|done].
  intros i n a _ Ha. cbv beta in Ha. parse_inv. by apply nonempty_ret.
Qed.

Lemma parseSourceHealth_wf node path h : parseSourceHealth node path = Ret h -> 0 <= sh_staleAfterMs h <= 86400000.
Proof.
  destruct node as [node|]; cbn [parseSourceHealth]; [|intros [= <-]; done].
  intros Hr. do 2 apply exn_bind_ret in Hr as (? & _ & Hr). apply exn_bind_ret in Hr as (stale & Hs & Hr).
  parse_inv. bool_split. cbn. split; [|lia].
  apply with_default_ret in Hs as [[_ ->]|(n & _ & Hn%parseNumeric_range)]; [done|]. by destruct Hn.
Qed.

(** An NTNDArray has no key of the value kinds. *)
Lemma parsePVForm_wf kind node path type shape bytes gap :
  parsePVForm kind node path = Ret (type, shape, bytes, gap) ->
  1 <= bytes <= 2 ^ 30 /\ 0 <= gap <= 2 ^ 31 - 2 /\
  (kind = NTNDArray -> type = UInt8 /\ shape = Array /\
     Forall (fun k => yget node k = None) ["write"; "confirm"; "metadata"; "alarm"; "transform"; "initial"]).
Proof.
  destruct kind; cbn [parsePVForm]; intros Hr; [parse_inv; simplify_eq; split_and!; cbn; done|].
  apply exn_bind_ret in Hr as (u & Hk & Hr). apply exn_bind_ret in Hr as (b & Hb & Hr). parse_inv.
  match goal with H : with_default (yget node "max_frame_gap") _ _ = _ |- _ => rename H into Hg end.
  bool_split. simplify_eq. split_and!; try lia.
  - apply with_default_ret in Hb as [[_ ->]|(n & _ & [? _]%parseNumeric_range)]; [by vm_compute|cbn in *; lia].
  - apply with_default_ret in Hg as [[_ ->]|(n & _ & [? _]%parseNumeric_range)]; [by vm_compute|cbn in *; lia].
  - intros _. split_and!; try done.
    repeat constructor; eapply rejectUnknownKeys_absent; try done; by apply (bool_decide_unpack _).
Qed.

Lemma checkPV_wf pv path u : checkPV pv path = Ret u ->
  (pv_shape pv = Array -> isArrayElementTypeSupported (pv_type pv) = true /\ thresholds (pv_alarms pv) = []) /\
  (is_some (pv_transform pv) = true -> isFloatingPointType (pv_type pv) = true) /\
  (isNumericType (pv_type pv) = false -> has_limits (pv_metadata pv) = false /\ thresholds (pv_alarms pv) = []).
Proof.
  unfold checkPV. intros Hr. apply exn_bind_ret in Hr as (? & Hc1%fail_if_ret & Hr).
  apply exn_bind_ret in Hr as (? & Hc2%fail_if_ret & Hr). apply exn_bind_ret in Hr as (? & Hc3%fail_if_ret & Hr). split_and!.
  - intros Hs. rewrite bool_decide_eq_true_2 in Hc1, Hc3 by done. cbn in *. bool_split.
    split; [done|by apply has_thresholds_nil].
  - intros Ht. rewrite Ht in Hc2. cbn in Hc2. by bool_split.
  - intros Hn. rewrite Hn in Hr. cbn in Hr. parse_inv. split; [done|by apply has_thresholds_nil].
Qed.

Lemma parsePV_wf node path pv : parsePV node path = Ret pv -> pv_wf pv.
Proof.
  unfold parsePV. intros Hr. do 2 apply exn_bind_ret in Hr as (? & _ & Hr).
  apply exn_bind_ret in Hr as (name & _ & Hr). apply exn_bind_ret in Hr as (? & Hname & Hr).
  apply exn_bind_ret in Hr as (aliases & Hal & Hr). apply exn_bind_ret in Hr as (kind & _ & Hr).
  apply exn_bind_ret in Hr as ([[[type shape] bytes] gap] & Hform & Hr).
  apply exn_bind_ret in Hr as (rn & _ & Hr). apply exn_bind_ret in Hr as (read & Hread & Hr).
  apply exn_bind_ret in Hr as (write & Hwrite & Hr). apply exn_bind_ret in Hr as (confirm & Hconf & Hr).
  apply exn_bind_ret in Hr as (metadata & Hmd & Hr). apply exn_bind_ret in Hr as (alarms & Halm & Hr).
  apply exn_bind_ret in Hr as (transform & Htr & Hr). apply exn_bind_ret in Hr as (initial & Hin & Hr).
  apply exn_bind_ret in Hr as (access & Hacc & Hr). apply exn_bind_ret in Hr as (health & Hsh & Hr).
  apply exn_bind_ret in Hr as (? & (C1 & C2 & C3)%checkPV_wf & [= <-]).
  apply parsePVForm_wf in Hform as (F1 & F2 & F3). apply fail_if_ret in Hname.
  cbn in C1, C2, C3. split; cbn; try done.
  - by apply nonempty_ret.
  - apply with_default_ret in Hal as [[_ ->]|(n & _ & Ha)]; [constructor|by eapply parseAliases_wf].
  - by eapply parseRoute_wf.
  - intros w ->. apply if_node_ret in Hwrite as [[_ ?]|(n & a & _ & Hw & [= ->])]; [done|by eapply parseRoute_wf].
  - intros c ->. apply if_node_ret in Hconf as [[_ ?]|(n & a & _ & Hc & [= ->])]; [done|].
    apply exn_bind_ret in Hc as (? & Hw%fail_if_ret & Hc). bool_split. split; [done|by eapply parseConfirm_wf].
  - by eapply parseMetadata_wf.
  - by eapply parseAlarmConfig_wf.
  - intros t ->. split; [by eapply parseTransform_wf|by apply C2].
  - by eapply parseInitialValue_wf.
  - intros a ->. apply if_node_ret in Hacc as [[_ ?]|(n & a' & _ & Ha & [= ->])]; [done|].
    by eapply parseAccessAssignment_wf.
  - intros Hk. destruct (F3 Hk) as (-> & -> & Hkeys).
    assert (forall k, k ∈ ["write"; "confirm"; "metadata"; "alarm"; "transform"; "initial"] -> yget node k = None)
      as Hnone by by apply Forall_forall.
    rewrite (Hnone "write") in Hwrite by by apply (bool_decide_unpack _).
    rewrite (Hnone "confirm") in Hconf by by apply (bool_decide_unpack _).
    rewrite (Hnone "transform") in Htr by by apply (bool_decide_unpack _).
    rewrite (Hnone "initial") in Hin by by apply (bool_decide_unpack _).
    cbn in *. by simplify_eq.
  - by eapply parseSourceHealth_wf.
Qed.
End PVs.

(** ** Startup

    What [Application::start] and [buildAlarmPublisher] of src/app.cpp build
    from the accepted limits. *)

Definition writeQueueLimits (config : AppConfig) : OperationQueue.OperationQueueLimits :=
  OperationQueue.Build_OperationQueueLimits (ol_writeWorkers (app_limits config))
    (ol_queuedWritesPerPV (app_limits config)) (ol_queuedWriteBytes (app_limits config)).

Definition rpcQueueLimits (config : AppConfig) : OperationQueue.OperationQueueLimits :=
  OperationQueue.Build_OperationQueueLimits (ol_rpcWorkers (app_limits config))
    (ol_queuedRpcPerMethod (app_limits config)) (ol_queuedRpcBytes (app_limits config)).

(** [redisBackends.at(alias)] throws on an unknown alias; the options keep
    their default intervals. *)
Definition buildAlarmPublisher (config : AppConfig) (now : Z) : exn AlarmWorker.Impl :=
  match sm_find (as_backend (app_alarms config)) (app_redisBackends config) with
  | None => Throw "map::at"
  | Some _ =>
      AlarmWorker.Impl_new
        {| AlarmWorker.op_stateBytes := ol_alarmStateBytes (app_limits config);
           AlarmWorker.op_queueEntries := ol_alarmQueueEntries (app_limits config);
           AlarmWorker.op_ioTimeoutMs := 500; AlarmWorker.op_retryMs := 1000;
           AlarmWorker.op_heartbeatMs := 1000 |} now
  end.

(** Each PV's runtime registers its alarm under its full name. *)
Definition registerAlarms (config : AppConfig) (state : PVConfig -> Util.AlarmState) (p : AlarmWorker.Impl)
    : exn AlarmWorker.Impl :=
  exn_fold (fun p pv => fst <$> AlarmWorker.prepare p (fullPVName (app_server config) pv) (state pv))
    p (app_pvs config).

(** Bytes the alarm states of a list of PVs take. *)
Fixpoint alarm_cost (server : ServerConfig) (pvs : list PVConfig) : Z :=
  match pvs with
  | [] => 0
  | pv :: pvs' => 1024 + 2 * strlen (fullPVName server pv) + alarm_cost server pvs'
  end.

Lemma alarm_cost_nonneg server pvs : 0 <= alarm_cost server pvs.
Proof. induction pvs as [|pv pvs IH]; cbn -[Z.mul]; [done|]. pose proof (strlen_nonneg (fullPVName server pv)). lia. Qed.

Lemma checkAlarmBudget_fold server pvs b b' :
  0 <= b < 2 ^ 64 -> exn_fold (checkAlarmBudget server) b pvs = Ret b' -> alarm_cost server pvs <= b.
Proof.
  revert b; induction pvs as [|pv pvs IH]; intros b Hb; cbn [exn_fold alarm_cost]; [intros _; lia|].
  intros (b1 & Hx & Hr)%exn_bind_ret. unfold checkAlarmBudget in Hx. parse_inv. bool_split.
  pose proof (strlen_nonneg (fullPVName server pv)) as Hn. rewrite (u64_id (b - 1024)) in * by lia.
  assert (1024 + 2 * strlen (fullPVName server pv) <= b) as Hle.
  { assert (2 * ((b - 1024) / 2) <= b - 1024) by (apply Z.mul_div_le; lia). lia. }
  rewrite (u64_id (1024 + _)) in Hr by lia. rewrite u64_id in Hr by lia. apply IH in Hr; lia.
Qed.

(** A publisher with room registers a PV, using exactly the PV's cost. *)
Lemma prepare_room p name state :
  AlarmWorker.im_stopping p = false ->
  0 <= AlarmWorker.bu_used (AlarmWorker.im_budget p) ->
  AlarmWorker.bu_limit (AlarmWorker.im_budget p) < 2 ^ 64 ->
  AlarmWorker.bu_used (AlarmWorker.im_budget p) + (1024 + 2 * strlen name) <= AlarmWorker.bu_limit (AlarmWorker.im_budget p) ->
  exists p', fst <$> AlarmWorker.prepare p name state = Ret p' /\ AlarmWorker.im_stopping p' = false /\
    AlarmWorker.bu_limit (AlarmWorker.im_budget p') = AlarmWorker.bu_limit (AlarmWorker.im_budget p) /\
    AlarmWorker.bu_used (AlarmWorker.im_budget p') =
      AlarmWorker.bu_used (AlarmWorker.im_budget p) + (1024 + 2 * strlen name).
Proof.
  intros Hs Hu Hl Hroom. pose proof (strlen_nonneg name) as Hn. unfold AlarmWorker.prepare.
  assert (((max_u64 - 1024) / 2 <? strlen name) = false) as ->.
  { apply Z.ltb_ge. apply Z.div_le_lower_bound; unfold max_u64; lia. }
  unfold AlarmWorker.acquire. rewrite (u64_id (1024 + _)) by lia. rewrite (u64_id (_ - _)) by lia.
  destruct (Z.ltb_spec (AlarmWorker.bu_limit (AlarmWorker.im_budget p)) (1024 + 2 * strlen name)); [lia|].
  destruct (Z.ltb_spec (AlarmWorker.bu_limit (AlarmWorker.im_budget p) - (1024 + 2 * strlen name))
    (AlarmWorker.bu_used (AlarmWorker.im_budget p))); [lia|].
  cbn -[Z.mul strlen u64]. destruct (AlarmWorker.StoredState_encode state) as [latest truncated]. rewrite Hs.
  eexists. split; [reflexivity|]. cbn -[Z.mul strlen u64]. rewrite u64_id by lia. done.
Qed.

(** The publisher of usable limits starts with the queue's bytes in use. *)
Lemma publisher_builds c now :
  as_backend (app_alarms c) ∈ sm_keys (app_redisBackends c) ->
  (1 <= ol_alarmQueueEntries (app_limits c) <= 1000000 /\ 1024 <= ol_alarmStateBytes (app_limits c) <= 2 ^ 30 /\
   ol_alarmQueueEntries (app_limits c) * 1024 <= ol_alarmStateBytes (app_limits c)) ->
  exists p, buildAlarmPublisher c now = Ret p /\ AlarmWorker.im_stopping p = false /\
    AlarmWorker.bu_limit (AlarmWorker.im_budget p) = ol_alarmStateBytes (app_limits c) /\
    AlarmWorker.bu_used (AlarmWorker.im_budget p) = ol_alarmQueueEntries (app_limits c) * 1024.
Proof.
  intros Hb (Hq & Hs & Hfit). apply sm_has_spec in Hb. unfold sm_has in Hb. unfold buildAlarmPublisher.
  destruct (sm_find _ _); [|done]. unfold AlarmWorker.Impl_new, AlarmWorker.acquire, kAlarmQueueEntryBytes.
  cbn -[Z.mul Z.div u64 Z.ltb Z.to_nat]. rewrite (u64_id (_ * 1024)) by lia. rewrite (u64_id (_ - _)) by lia.
  destruct (Z.eqb_spec (ol_alarmQueueEntries (app_limits c)) 0); [lia|].
  destruct (Z.ltb_spec (ol_alarmStateBytes (app_limits c) / 1024) (ol_alarmQueueEntries (app_limits c))) as [Hlt|_].
  { exfalso. apply Zlt_not_le in Hlt. apply Hlt. apply Z.div_le_lower_bound; lia. }
  destruct (Z.ltb_spec (ol_alarmStateBytes (app_limits c)) (ol_alarmQueueEntries (app_limits c) * 1024)); [lia|].
  destruct (Z.ltb_spec (ol_alarmStateBytes (app_limits c) - ol_alarmQueueEntries (app_limits c) * 1024) 0); [lia|].
  eexists. split; [reflexivity|]. cbn -[Z.mul u64]. rewrite u64_id by lia. done.
Qed.

Lemma registerAlarms_room server state pvs p :
  AlarmWorker.im_stopping p = false ->
  0 <= AlarmWorker.bu_used (AlarmWorker.im_budget p) ->
  AlarmWorker.bu_limit (AlarmWorker.im_budget p) < 2 ^ 64 ->
  AlarmWorker.bu_used (AlarmWorker.im_budget p) + alarm_cost server pvs <= AlarmWorker.bu_limit (AlarmWorker.im_budget p) ->
  exists p', exn_fold (fun p pv => fst <$> AlarmWorker.prepare p (fullPVName server pv) (state pv)) p pvs = Ret p' /\
    AlarmWorker.bu_used (AlarmWorker.im_budget p') =
      AlarmWorker.bu_used (AlarmWorker.im_budget p) + alarm_cost server pvs.
Proof.
  revert p; induction pvs as [|pv pvs IH]; intros p Hs Hu Hl Hroom; cbn [exn_fold alarm_cost] in *.
  { exists p. split; [done|]. lia. }
  pose proof (alarm_cost_nonneg server pvs). pose proof (strlen_nonneg (fullPVName server pv)).
  destruct (prepare_room p (fullPVName server pv) (state pv)) as (p1 & Hp & Hs1 & Hl1 & Hu1); [done..|lia|].
  rewrite Hp. cbn [mbind exn_bind].
  destruct (IH p1) as (p' & Hr & Hu'); [done|lia|lia|lia|]. exists p'. split; [done|]. lia.
Qed.

(** ** The accepted configuration *)

(** The keys a PV subscribes to. *)
Definition subscriptions (pv : PVConfig) : list (string * string) :=
  (rt_backend (pv_read pv), rt_key (pv_read pv)) :: opt_list (separate_confirm pv).

(** A PV of an accepted configuration: well formed, with known backends, and
    with an access assignment exactly when access control is on. *)
Record configured (access : AccessConfig) (backends : RedisBackendConfigs) (pv : PVConfig) : Prop := {
  cf_wf : pv_wf pv;
  cf_read_known : rt_backend (pv_read pv) ∈ sm_keys backends;
  cf_write_known : forall w, pv_write pv = Some w -> rt_backend w ∈ sm_keys backends;
  cf_confirm_known : forall c, pv_confirm pv = Some c -> cf_backend c ∈ sm_keys backends;
  cf_access : is_some (pv_access pv) = ac_enabled access;
}.

Lemma resolveBackendAlias_known alias path backends legacy a :
  resolveBackendAlias alias path backends legacy = Ret a -> a ∈ sm_keys backends.
Proof.
  unfold resolveBackendAlias. destruct (str_empty alias).
  - destruct backends as [|[n r] [|? ?]]; try done. intros [= <-]. left.
  - intros Hr. parse_inv. bool_split. by apply sm_has_spec.
Qed.

Lemma assignAccess_ret enabled fallback access path o :
  assignAccess enabled fallback access path = Ret o ->
  is_some o = enabled /\ (o = access \/ o = Some fallback).
Proof. unfold assignAccess. destruct access, enabled; cbn; intros [= <-]; auto. Qed.

Lemma resolveRoutes_ret backends legacy path pv pv' :
  resolveRoutes backends legacy path pv = Ret pv' ->
  rt_backend (pv_read pv') ∈ sm_keys backends /\
  (forall w, pv_write pv' = Some w -> rt_backend w ∈ sm_keys backends) /\
  (forall c, pv_confirm pv' = Some c -> cf_backend c ∈ sm_keys backends) /\
  pv_access pv' = pv_access pv /\ (pv_wf pv -> pv_wf pv').
Proof.
  unfold resolveRoutes. intros (rb & Hrb%resolveBackendAlias_known & Hr)%exn_bind_ret.
  apply exn_bind_ret in Hr as (w & Hw & Hr). apply exn_bind_ret in Hr as (c & Hc & [= <-]). cbn.
  assert (forall w', w = Some w' -> rt_backend w' ∈ sm_keys backends /\ exists w0, pv_write pv = Some w0 /\ rt_key w' = rt_key w0) as Hw'.
  { intros w' ->. destruct (pv_write pv) as [w0|]; parse_inv; [|done]. simplify_eq. cbn.
    split; [by eapply resolveBackendAlias_known|eauto]. }
  assert (forall c', c = Some c' -> cf_backend c' ∈ sm_keys backends /\
    exists c0, pv_confirm pv = Some c0 /\ cf_key c' = cf_key c0 /\ cf_timeoutMs c' = cf_timeoutMs c0) as Hc'.
  { intros c' ->. destruct (pv_confirm pv) as [c0|]; parse_inv; [|done]. simplify_eq. cbn.
    split; [by eapply resolveBackendAlias_known|eauto]. }
  assert (is_some w = is_some (pv_write pv)) as Hsw by (destruct (pv_write pv); parse_inv; done).
  split_and!; [done|by intros ? [? _]%Hw'|by intros ? [? _]%Hc'|done|].
  intros [W1 W2 W3 W4 W5 W6 W7 W8 W9 W10 W11 W12 W13 W14 W15]. split; cbn; try done.
  - intros w' (_ & w0 & Hw0 & ->)%Hw'. by apply W4.
  - intros c' (_ & c0 & Hc0 & -> & ->)%Hc'. rewrite Hsw. by apply W5.
  - intros Hk. destruct (W13 Hk) as (? & ? & Hwn & Hcn & ? & ?). rewrite Hwn in Hw. rewrite Hcn in Hc.
    by simplify_eq.
Qed.

Lemma subscribe_ret key path l l' :
  subscribe key path l = Ret l' <-> (key ∉ l) /\ l' = key :: l.
Proof.
  unfold subscribe. rewrite exn_bind_ret. setoid_rewrite fail_if_ret. split.
  - intros ([] & ? & [= <-]). by bool_split.
  - intros [? ->]. exists tt. by rewrite bool_decide_eq_false_2.
Qed.

Section Accepted.
Context `{YamlLaws}.
Context (server : ServerConfig) (access : AccessConfig) (backends : RedisBackendConfigs) (legacy : bool).
Context (es0 : EndpointRegistry).

(** What holds of the state of the PV loop at every iteration. *)
Record loop_inv (s : PVLoop) : Prop := {
  li_pvs : Forall (configured access backends) (lp_pvs s);
  li_endpoints : exn_fold (fun es '(index, pv) => addPV es server pv ("root.pvs[" +:+ to_dec (Z.of_nat index) +:+ "]"))
                   es0 (imap pair (lp_pvs s)) = Ret (lp_endpoints s);
  li_subscribed : lp_subscribed s ≡ₚ concat (map subscriptions (lp_pvs s));
  li_distinct : NoDup (lp_subscribed s);
}.

(** The default assignments of an accepted access section are well formed, so
    assigning one keeps a PV well formed. *)
Definition access_defaults_wf : Prop := access_wf (ad_pv (ac_defaults access)).

Lemma pv_wf_access pv o : pv_wf pv -> (forall a, o = Some a -> access_wf a) -> pv_wf (pv <| pv_access := o |>).
Proof. intros [] Ho. by split. Qed.

Lemma parsePVEntry_inv s i node s' :
  access_defaults_wf -> length (lp_pvs s) = i -> loop_inv s ->
  parsePVEntry server access backends legacy s (i, node) = Ret s' ->
  loop_inv s' /\ length (lp_pvs s') = S i.
Proof.
  intros Hdef Hi [Hpvs Hes Hsub Hnd] Hr. unfold parsePVEntry in Hr. cbn [fst snd] in Hr.
  apply exn_bind_ret in Hr as (pv0 & Hwf%parsePV_wf & Hr).
  apply exn_bind_ret in Hr as (acc & [Hacc Hor]%assignAccess_ret & Hr).
  apply exn_bind_ret in Hr as (pv & (R1 & R2 & R3 & R4 & R5)%resolveRoutes_ret & Hr).
  apply exn_bind_ret in Hr as (es & Hadd & Hr). apply exn_bind_ret in Hr as (sub1 & [N1 ->]%subscribe_ret & Hr).
  apply exn_bind_ret in Hr as (sub2 & Hsub2 & [= <-]). cbn [lp_pvs].
  split; [|rewrite length_app; cbn; lia]. split; cbn [lp_pvs lp_endpoints lp_subscribed].
  - apply Forall_app. split; [done|]. constructor; [|constructor]. split; [|done..|].
    + apply R5, pv_wf_access; [done|]. intros a ->. destruct Hor as [Ho|[= ->]]; [by apply (wf_access pv0 Hwf)|done].
    + by rewrite R4.
  - rewrite imap_app, exn_fold_app, Hes. cbn [mbind exn_bind imap exn_fold compose]. rewrite Nat.add_0_r, Hi.
    change ("root.pvs[" +:+ to_dec (Z.of_nat i) +:+ "]") with (at_index "root.pvs" (Z.of_nat i)). by rewrite Hadd.
  - rewrite map_app, concat_app. cbn. rewrite app_nil_r. unfold subscriptions.
    destruct (separate_confirm pv) as [k|].
    + apply subscribe_ret in Hsub2 as [_ ->]. cbn. rewrite Hsub. solve_Permutation.
    + injection Hsub2 as <-. cbn. rewrite Hsub. solve_Permutation.
  - destruct (separate_confirm pv) as [k|].
    + apply subscribe_ret in Hsub2 as [N2 ->]. constructor; [done|]. by constructor.
    + injection Hsub2 as <-. by constructor.
Qed.

Lemma parsePVs_inv nodes s s' k :
  access_defaults_wf -> length (lp_pvs s) = k -> loop_inv s ->
  exn_fold (parsePVEntry server access backends legacy) s (imap (fun i n => ((k + i)%nat, n)) nodes) = Ret s' ->
  loop_inv s'.
Proof.
  intros Hdef. revert s k; induction nodes as [|n nodes IH]; intros s k Hk Hinv; cbn [imap exn_fold].
  { by intros [= <-]. }
  intros (s1 & Hx & Hr)%exn_bind_ret. rewrite Nat.add_0_r in Hx.
  apply parsePVEntry_inv in Hx as [Hinv1 Hk1]; [|done..]. apply (IH s1 (S k)); [done|done|].
  rewrite <-Hr. f_equal. apply imap_ext. intros i x _. cbn. by rewrite Nat.add_succ_r.
Qed.
End Accepted.

Section Guarantees.
Context `{YamlLaws}.
Implicit Types (env : Env) (root : ynode) (dir : string) (c : AppConfig).

Record access_config_wf (a : AccessConfig) : Prop := {
  acw_pv : access_wf (ad_pv (ac_defaults a));
  acw_rpc : access_wf (ad_rpc (ac_defaults a));
  acw_adminRead : access_wf (ad_adminRead (ac_defaults a));
  acw_adminWrite : access_wf (ad_adminWrite (ac_defaults a));
  acw_file : ac_enabled a = true <-> ac_file a <> "";
}.

Lemma access_wf_default : access_wf AccessAssignment_default.
Proof. split; cbn; auto. Qed.

Lemma parseAccessDefaults_wf node path d : parseAccessDefaults node path = Ret d ->
  access_wf (ad_pv d) /\ access_wf (ad_rpc d) /\ access_wf (ad_adminRead d) /\ access_wf (ad_adminWrite d).
Proof.
  unfold parseAccessDefaults. intros Hr. do 2 apply exn_bind_ret in Hr as (? & _ & Hr). cbv zeta in Hr.
  assert (forall key a, with_default (yget node key) AccessAssignment_default
    (fun n => parseAccessAssignment n (path +:+ "." +:+ key)) = Ret a -> access_wf a) as Ha.
  { intros key a [[_ ->]|(n & _ & Hn)]%with_default_ret; [apply access_wf_default|].
    by eapply parseAccessAssignment_wf. }
  apply exn_bind_ret in Hr as (a1 & H1%Ha & Hr). apply exn_bind_ret in Hr as (a2 & H2%Ha & Hr).
  apply exn_bind_ret in Hr as (a3 & H3%Ha & Hr). apply exn_bind_ret in Hr as (a4 & H4%Ha & [= <-]). done.
Qed.

Lemma parseAccessConfig_wf env node dir path a :
  parseAccessConfig env node dir path = Ret a -> access_config_wf a.
Proof.
  destruct node as [node|]; cbn [parseAccessConfig];
    [|intros [= <-]; split; [apply access_wf_default..|done]].
  intros Hr. apply exn_bind_ret in Hr as (? & _ & Hr). apply exn_bind_ret in Hr as (enabled & _ & Hr).
  apply exn_bind_ret in Hr as (file & _ & Hr). apply exn_bind_ret in Hr as (macros & _ & Hr).
  apply exn_bind_ret in Hr as (watch & _ & Hr). apply exn_bind_ret in Hr as (defaults & Hd & Hr).
  assert (access_wf (ad_pv defaults) /\ access_wf (ad_rpc defaults) /\ access_wf (ad_adminRead defaults) /\
          access_wf (ad_adminWrite defaults)) as (D1 & D2 & D3 & D4).
  { apply with_default_ret in Hd as [[_ ->]|(n & _ & Hn)]; [split_and!; apply access_wf_default|].
    by eapply parseAccessDefaults_wf. }
  destruct enabled; cbn [negb] in Hr; apply exn_bind_ret in Hr as (? & Hf%fail_if_ret & [= <-]); split; cbn; try done.
  bool_split. apply str_empty_true in H1 as ->. done.
Qed.

(** The limits let both queues and the alarm publisher start. *)
Record operation_limits_wf (l : OperationLimitsConfig) : Prop := {
  olw_write : 1 <= ol_writeWorkers l <= 64 /\ 1 <= ol_queuedWritesPerPV l <= 4096 /\
              1024 <= ol_queuedWriteBytes l <= 2 ^ 30;
  olw_rpc : 1 <= ol_rpcWorkers l <= 64 /\ 1 <= ol_queuedRpcPerMethod l <= 4096 /\
            1024 <= ol_queuedRpcBytes l <= 2 ^ 30;
  olw_payload : 1 <= ol_maxPayloadBytes l <= 2 ^ 30;
  olw_timeout : forall t, ol_operationTimeoutMs l = Some t -> 1 <= t <= 300000;
  olw_alarm : 1 <= ol_alarmQueueEntries l <= 1000000 /\ 1024 <= ol_alarmStateBytes l <= 2 ^ 30 /\
              ol_alarmQueueEntries l * 1024 <= ol_alarmStateBytes l;
}.

Lemma parseOperationLimits_wf node l : parseOperationLimits node = Ret l -> operation_limits_wf l.
Proof.
  destruct node as [node|]; cbn [parseOperationLimits]; [|intros [= <-]; split; cbn; done || lia].
  intros Hr. do 2 apply exn_bind_ret in Hr as (? & _ & Hr). cbv zeta in Hr.
  apply exn_bind_ret in Hr as (ww & B1%bounded_range & Hr). apply exn_bind_ret in Hr as (qw & B2%bounded_range & Hr).
  apply exn_bind_ret in Hr as (wb & B3%bounded_range & Hr). apply exn_bind_ret in Hr as (rw & B4%bounded_range & Hr).
  apply exn_bind_ret in Hr as (qr & B5%bounded_range & Hr). apply exn_bind_ret in Hr as (rb & B6%bounded_range & Hr).
  apply exn_bind_ret in Hr as (mp & B7%bounded_range & Hr). apply exn_bind_ret in Hr as (qe & B8%bounded_range & Hr).
  apply exn_bind_ret in Hr as (sb & B9%bounded_range & Hr). apply exn_bind_ret in Hr as (? & Hq%fail_if_ret & Hr).
  apply exn_bind_ret in Hr as (t & Ht & [= <-]). bool_split. unfold kAlarmQueueEntryBytes in Hq.
  split; cbn -[Z.mul Z.pow]; try lia.
  - intros z ->. apply if_node_ret in Ht as [[_ ?]|(n & z' & _ & Hz%bounded_range & [= ->])]; [done|lia].
  - assert (1024 * (sb / 1024) <= sb) by (apply Z.mul_div_le; lia). lia.
Qed.

(** An RPC service of an accepted configuration. *)
Record rpc_wf (access : AccessConfig) (svc : RpcServiceConfig) : Prop := {
  rw_endpoint : rs_endpoint svc <> "" /\ rs_service svc <> "";
  rw_timeouts : 1 <= rs_discoveryTimeoutMs svc <= 300000 /\ 1 <= rs_timeoutMs svc <= 300000 /\
                100 <= rs_retryIntervalMs svc <= 300000;
  rw_access : is_some (rs_access svc) = ac_enabled access /\ forall a, rs_access svc = Some a -> access_wf a;
}.

Lemma parseRpcTimeout_range node path key fallback minimum t :
  parseRpcTimeout node path key fallback minimum = Ret t -> minimum <= t <= 300000.
Proof. unfold parseRpcTimeout. intros Hr. parse_inv. bool_split. lia. Qed.

Lemma parseRpcEntry_wf access i node svc :
  access_wf (ad_rpc (ac_defaults access)) -> parseRpcEntry access i node = Ret svc -> rpc_wf access svc.
Proof.
  intros Hdef Hr. unfold parseRpcEntry in Hr. apply exn_bind_ret in Hr as (s & Hs & Hr).
  apply exn_bind_ret in Hr as (acc & [Hacc Hor]%assignAccess_ret & [= <-]).
  unfold parseRpcService in Hs. do 9 apply exn_bind_ret in Hs as (? & _ & Hs).
  apply exn_bind_ret in Hs as (t1 & T1%parseRpcTimeout_range & Hs).
  apply exn_bind_ret in Hs as (t2 & T2%parseRpcTimeout_range & Hs).
  apply exn_bind_ret in Hs as (t3 & T3%parseRpcTimeout_range & Hs).
  apply exn_bind_ret in Hs as (a & Ha & Hs). apply exn_bind_ret in Hs as (? & E1%fail_if_ret & Hs).
  apply exn_bind_ret in Hs as (? & E2%fail_if_ret & [= <-]). cbn in Hor. split; cbn; try done.
  - split; by apply nonempty_ret.
  - split; [done|]. intros b ->. destruct Hor as [Ho|[= ->]]; [|done]. subst a.
    apply if_node_ret in Ha as [[_ ?]|(n & b' & _ & Hb & [= ->])]; [done|by eapply parseAccessAssignment_wf].
Qed.

(** The pieces of a successful parse. *)
Lemma parseConfig_inv env root dir c :
  parseConfig env root dir = Ret c ->
  exists legacy nodes es loop left,
    operation_limits_wf (app_limits c) /\ access_config_wf (app_access c) /\
    as_backend (app_alarms c) ∈ sm_keys (app_redisBackends c) /\
    addDiagnostics [] (app_server c) = Ret es /\
    exn_fold (parsePVEntry (app_server c) (app_access c) (app_redisBackends c) legacy)
      {| lp_endpoints := es; lp_subscribed := []; lp_pvs := [] |} (imap pair nodes) = Ret loop /\
    app_pvs c = lp_pvs loop /\ Forall (rpc_wf (app_access c)) (app_rpcServices c) /\
    exn_fold (checkAlarmBudget (app_server c))
      (u64 (ol_alarmStateBytes (app_limits c) - u64 (ol_alarmQueueEntries (app_limits c) * kAlarmQueueEntryBytes)))
      (app_pvs c) = Ret left.
Proof.
  unfold parseConfig. intros Hr. do 4 apply exn_bind_ret in Hr as (? & _ & Hr). cbv zeta in Hr.
  apply exn_bind_ret in Hr as (version & _ & Hr). apply exn_bind_ret in Hr as (? & _ & Hr).
  apply exn_bind_ret in Hr as (discovery & _ & Hr).
  apply exn_bind_ret in Hr as (limits & Hl%parseOperationLimits_wf & Hr).
  apply exn_bind_ret in Hr as (access & Ha%parseAccessConfig_wf & Hr).
  apply exn_bind_ret in Hr as (server & _ & Hr). apply exn_bind_ret in Hr as (cf & _ & Hr).
  apply exn_bind_ret in Hr as ([backends legacy] & _ & Hr).
  apply exn_bind_ret in Hr as (alarms & Hal & Hr). apply exn_bind_ret in Hr as (nodes & _ & Hr).
  apply exn_bind_ret in Hr as (es & Hes & Hr). apply exn_bind_ret in Hr as (loop & Hloop & Hr).
  apply exn_bind_ret in Hr as (rpc & Hrpc & Hr). apply exn_bind_ret in Hr as (? & _ & Hr).
  apply exn_bind_ret in Hr as (left & Hleft & [= <-]).
  exists legacy, nodes, es, loop, left. split_and!; try done; cbn.
  - unfold parseAlarmStream in Hal. apply exn_bind_ret in Hal as ([b st] & _ & Hal). cbn [fst snd] in Hal.
    apply exn_bind_ret in Hal as (? & _ & Hal). apply exn_bind_ret in Hal as (b' & Hb & [= <-]).
    by eapply resolveBackendAlias_known.
  - apply with_default_ret in Hrpc as [[_ ->]|(n & _ & Hn)]; [constructor|].
    apply exn_bind_ret in Hn as (l & _ & Hn). eapply exn_imap_forall; [|exact Hn].
    intros i m svc _. apply parseRpcEntry_wf. by apply acw_rpc.
Qed.

Lemma parseConfig_loop env root dir c :
  parseConfig env root dir = Ret c ->
  exists es loop, addDiagnostics [] (app_server c) = Ret es /\ app_pvs c = lp_pvs loop /\
    loop_inv (app_server c) (app_access c) (app_redisBackends c) es loop.
Proof.
  intros (legacy & nodes & es & loop & left & _ & Ha & _ & Hes & Hloop & Hpvs & _ & _)%parseConfig_inv.
  exists es, loop. split_and!; try done.
  eapply (parsePVs_inv _ _ _ legacy es nodes _ _ 0); [by apply acw_pv| |split|exact Hloop]; cbn; try done; constructor.
Qed.

Lemma parseConfig_endpoints env root dir c :
  parseConfig env root dir = Ret c -> exists es, configuredEndpoints c = Ret es.
Proof.
  intros (es & loop & Hes & Hpvs & [_ He _ _])%parseConfig_loop. exists (lp_endpoints loop).
  unfold configuredEndpoints. rewrite Hes. cbn [mbind exn_bind]. by rewrite Hpvs.
Qed.

Lemma opt_list_finite o : opt_finite o -> Forall not_nan (opt_list o).
Proof.
  destruct o as [x|]; [|constructor]. intros Hx. constructor; [|constructor].
  specialize (Hx x eq_refl). by intros ->.
Qed.

Lemma typed_doubles_wf type shape v : typed_wf type shape v -> Forall not_nan (typed_doubles v).
Proof.
  assert (forall l, Forall (fun x => is_finite x = true) l -> Forall not_nan l) as Hl.
  { intros l Hl. eapply Forall_impl; [exact Hl|]. intros x Hx ->. done. }
  destruct v; cbn [typed_doubles]; intros Hv; try apply Forall_nil_2; destruct shape, type; cbn in Hv; try done;
    try (by apply Hl); (apply Forall_cons_2; [by intros ->|apply Forall_nil_2]).
Qed.

(** No number of an accepted PV is a NaN. *)
Lemma pv_wf_doubles pv : pv_wf pv -> Forall not_nan (pv_doubles pv).
Proof.
  intros [_ _ _ _ _ [[D1 D2 _] [D3 D4 _] D5 _] [_ A _] T I _ _ _ _ _ _]. unfold pv_doubles. cbv zeta.
  apply Forall_cons in A as [Ah A]. unfold thresholds in A.
  assert (forall o, o ∈ [al_lowAlarm (pv_alarms pv); al_lowWarning (pv_alarms pv); al_highWarning (pv_alarms pv);
    al_highAlarm (pv_alarms pv)] -> opt_finite o) as Ho.
  { intros o Hin x ->. eapply Forall_forall in A; [exact A|]. apply list_elem_of_omap. by exists (Some x). }
  repeat (apply Forall_app; split); try (by apply opt_list_finite);
    try (apply opt_list_finite, Ho; by rewrite ?elem_of_cons; auto).
  - apply opt_list_finite. intros x Hx. by apply D5.
  - constructor; [by intros E; rewrite E in Ah|constructor].
  - destruct (pv_transform pv) as [t|]; [|constructor]. destruct (T t eq_refl) as [[[T1 T2] _ _] _].
    repeat constructor; intros E; rewrite E in *; done.
  - by eapply typed_doubles_wf.
Qed.

(** C9. Every PV of an accepted configuration is well formed: nonempty names,
    keys and known backends; a confirmation only with a write route and a
    timeout in 1..300000; finite and ordered alarm thresholds and limits; a
    transform only on a floating-point PV, with a finite inverse; an initial
    value of the PV's own type, integers in range; array and text PVs without
    the numeric settings; an NTNDArray with its fixed form; an access
    assignment exactly when access control is enabled.  The RPC services are
    likewise well formed. *)
Theorem parseConfig_wf env root dir c :
  parseConfig env root dir = Ret c ->
  Forall (configured (app_access c) (app_redisBackends c)) (app_pvs c) /\
  Forall (rpc_wf (app_access c)) (app_rpcServices c) /\
  access_config_wf (app_access c).
Proof.
  intros Hc. pose proof (parseConfig_loop _ _ _ _ Hc) as (es & loop & _ & Hpvs & [Hl _ _ _]).
  apply parseConfig_inv in Hc as (legacy & nodes & es' & loop' & left & _ & Ha & _ & _ & _ & _ & Hrpc & _).
  rewrite Hpvs. done.
Qed.

(** The names of an accepted configuration are the namespace the registry
    accepts -- nonempty, without NUL, pairwise distinct over diagnostics, PVs
    and aliases -- and no Redis key is subscribed twice, by a read or by a
    confirmation. *)
Theorem parseConfig_namespace env root dir c :
  parseConfig env root dir = Ret c ->
  (exists es, configuredEndpoints c = Ret es) /\
  Forall name_ok (servedNames c) /\ NoDup (servedNames c) /\
  NoDup (concat (map subscriptions (app_pvs c))).
Proof.
  intros Hc. pose proof (parseConfig_endpoints _ _ _ _ Hc) as [es Hce].
  split; [by eexists|]. apply configuredEndpoints_names in Hce as [? ?].
  apply parseConfig_loop in Hc as (es' & loop & Hes & Hpvs & [_ He Hs Hn]).
  split_and!; try done. rewrite Hpvs. by rewrite <-Hs.
Qed.

(** C10. The limits of an accepted configuration are enough to start: both
    operation queues construct, the alarm publisher finds its backend and
    constructs, and registering the alarm of every configured PV stays within
    the memory budget, so none of them throws. *)
Theorem parseConfig_capacity env root dir c now :
  parseConfig env root dir = Ret c ->
  is_ret (OperationQueue.Impl_new (writeQueueLimits c)) = true /\
  is_ret (OperationQueue.Impl_new (rpcQueueLimits c)) = true /\
  exists p, buildAlarmPublisher c now = Ret p /\
    forall state, exists p', registerAlarms c state p = Ret p' /\
      AlarmWorker.bu_used (AlarmWorker.im_budget p') =
        ol_alarmQueueEntries (app_limits c) * 1024 + alarm_cost (app_server c) (app_pvs c) /\
      AlarmWorker.bu_used (AlarmWorker.im_budget p') <= ol_alarmStateBytes (app_limits c).
Proof.
  intros (legacy & nodes & es & loop & left & [Lw Lr _ _ La] & _ & Hb & _ & _ & _ & _ & Hleft)%parseConfig_inv.
  assert (forall w q b, 1 <= w -> 1 <= q -> 1024 <= b ->
    is_ret (OperationQueue.Impl_new (OperationQueue.Build_OperationQueueLimits w q b)) = true) as Hq.
  { intros w q b ???. unfold OperationQueue.Impl_new. cbn [OperationQueue.lm_workers OperationQueue.lm_queuedPerKey
      OperationQueue.lm_residentBytes].
    destruct (Z.eqb_spec w 0), (Z.eqb_spec q 0), (Z.ltb_spec b 256); try lia. done. }
  split; [apply Hq; lia|]. split; [apply Hq; lia|].
  destruct (publisher_builds c now) as (p & Hp & Hs & Hl & Hu); [done|exact La|].
  exists p. split; [done|]. intros state. unfold kAlarmQueueEntryBytes in Hleft.
  rewrite (u64_id (_ * 1024)) in Hleft by lia. rewrite (u64_id (_ - _)) in Hleft by lia.
  apply checkAlarmBudget_fold in Hleft; [|lia].
  destruct (registerAlarms_room (app_server c) state (app_pvs c) p) as (p' & Hr & Hu'); [done|lia|lia|lia|].
  exists p'. split_and!; [done|lia|lia].
Qed.

(** Loading an accepted configuration again changes nothing: its diff to
    itself is empty, so a reload of an unchanged file touches no PV. *)
Theorem parseConfig_self_diff env root dir c :
  parseConfig env root dir = Ret c -> diffConfigs c c = ConfigDiff_empty.
Proof.
  intros (es & loop & _ & Hpvs & [Hl _ _ _])%parseConfig_loop. apply diffConfigs_self. intros pv Hpv.
  apply pv_wf_doubles. rewrite Hpvs in Hpv. eapply Forall_forall in Hl; [|exact Hpv]. by destruct Hl.
Qed.
End Guarantees.

(** ** A document and a conversion

    A conversion for decimal integers and [true]/[false] that has the laws, and
    a document with a confirmed scalar, an image and an RPC service. *)

Module Demo.
Definition dec_int (s : string) : option Z :=
  match s with
  | String "-" r => if all_digits r && negb (str_empty r) then Some (- dec_value 0 r) else None
  | _ => if all_digits s && negb (str_empty s) then Some (dec_value 0 s) else None
  end.

Definition bad {A} : exn A := Throw "yaml-cpp: error: bad conversion".

#[export] Instance conv : YamlConv := {|
  as_string := fun n => match n with YScalar s => Ret s | YNull => Ret "null" | _ => bad end;
  as_bool := fun n => match n with
    | YScalar s => if String.eqb s "true" then Ret true else if String.eqb s "false" then Ret false else bad
    | _ => bad end;
  as_int := fun t n => match dec_int (yscalar n) with
    | Some z => if (ctype_min t <=? z) && (z <=? ctype_max t) then Ret z else bad
    | None => bad end;
  as_float := fun fm n => match dec_int (yscalar n) with Some z => Ret (f_of_Z fm z) | None => bad end;
|}.

#[export] Instance conv_laws : YamlLaws.
Proof.
  split; [done|]. intros t n z. cbn. destruct (dec_int (yscalar n)) as [x|]; [|done].
  destruct (_ && _) eqn:E; [|done]. intros [= <-]. bool_split. by split.
Qed.

Definition entry (k v : string) : ynode * ynode := (YScalar k, YScalar v).
Definition sub (k : string) (l : list (ynode * ynode)) : ynode * ynode := (YScalar k, YMap l).

Definition document : ynode := YMap
  [entry "schema_version" "1";
   sub "server" [entry "instance" "demo"; entry "namespace" "LAB"];
   sub "redis" [entry "base_key" "lab"; entry "host" "localhost"; entry "port" "6379"];
   (YScalar "pvs", YSeq
     [YMap [entry "name" "T1"; entry "type" "Float64"; entry "shape" "scalar"; entry "initial" "3";
            sub "read" [entry "key" "t1"]; sub "write" [entry "key" "t1set"];
            sub "confirm" [entry "backend" "redis"; entry "key" "t1rb"];
            sub "transform" [entry "scale" "2"];
            sub "alarm" [entry "low_alarm" "1"; entry "high_alarm" "5"]];
      YMap [entry "name" "IMG"; entry "kind" "ntndarray"; sub "read" [entry "key" "img"]]]);
   (YScalar "rpc_services", YSeq [YMap [entry "endpoint" "h:1"; entry "service" "q.Q"]])].

Definition env : Env :=
  {| env_cwd := "/"; env_open := fun _ => OpenFails "no such file"; env_inet_pton := fun _ => true |}.

Definition parsed : exn AppConfig := parseConfig env document "/etc".

Definition config : AppConfig := match parsed with Ret c => c | Throw _ => demo_config [] end.

Example summary :
  summarizeConfig config =
  str_concat ["instance=demo namespace=LAB redis_backends=1 pvs=2 rpc_services=1 access=disabled"; nl;
              "backend[default]=localhost:6379 base_key=lab"; nl;
              "- rpc_service q.Q @ h:1 -> LAB:<METHOD>"; nl;
              "- LAB:T1 [scalar float64] read=default:t1 write=default:t1set confirm=default:t1rb"; nl;
              "- LAB:IMG [ntndarray max_frame_bytes=33554432 max_frame_gap=10000] read=default:img"].
Proof. by vm_compute. Qed.

Example rejected : parseConfig env (YMap [entry "schema_version" "2"]) "/etc"
  = Throw "root.schema_version: only schema version 1 is supported".
Proof. by vm_compute. Qed.

Lemma accepted : parseConfig env document "/etc" = Ret config.
Proof. by vm_compute. Qed.

Lemma validateTree_iff_witness :
  validateTree document "root" 0 0 = Ret 36 /\ tree_size document <= 1000000 /\ keys_ok document.
Proof.
  assert (validateTree document "root" 0 0 = Ret 36) as Hv by (by vm_compute).
  destruct (proj1 (validateTree_iff document "root" 36) Hv) as (_ & Hs & _ & Hk). split_and!; done.
Defined.

Lemma parseConfig_wf_witness :
  parseConfig env document "/etc" = Ret config /\
  Forall (configured (app_access config) (app_redisBackends config)) (app_pvs config).
Proof. split; [apply accepted|]. by destruct (parseConfig_wf env document "/etc" config accepted). Defined.

Lemma parseConfig_namespace_witness :
  parseConfig env document "/etc" = Ret config /\ NoDup (servedNames config).
Proof. split; [apply accepted|]. by destruct (parseConfig_namespace env document "/etc" config accepted) as (_ & _ & ? & _). Defined.

Lemma parseConfig_capacity_witness :
  parseConfig env document "/etc" = Ret config /\ exists p, buildAlarmPublisher config 0 = Ret p.
Proof.
  split; [apply accepted|].
  destruct (parseConfig_capacity env document "/etc" config 0 accepted) as (_ & _ & p & Hp & _). by exists p.
Defined.

Lemma parseConfig_self_diff_witness :
  parseConfig env document "/etc" = Ret config /\ diffConfigs config config = ConfigDiff_empty.
Proof. split; [apply accepted|]. apply (parseConfig_self_diff env document "/etc" config accepted). Defined.
End Demo.
