(* ===== verification/NTNDArray.v ===== *)
(** * NTNDArray frames

    src/ntndarray.cpp with include/redis_pvxs_ioc/ntndarray.h: decoding and
    validation of the image records read from Redis, the serial arithmetic of
    frame gaps, and the population of the served structure.

    Record fields are strings (an [NDArrayAttrs] is a finite map); [int32_t],
    [int64_t] and [uint64_t] values are [Z] in their range, with the product of
    the dimensions computed in 64 bits as the code does. *)

From Stdlib Require Import Ascii.
From S2P Require Import Prelude StrMap Floats Config Util.

Local Open Scope string_scope.
Local Open Scope list_scope.
Local Open Scope Z_scope.

Definition kNTNDArrayRedisSchema : string := "fermi-ad/redis-adapter/ntndarray:1".
Definition kNTNDArrayPayloadField : string := "_".

Inductive NDColorMode := Mono | RGB1 | RGB2 | RGB3.
Inductive NDTimeSource := TSUnknown | TSHost | TSCameraCorrelated | TSPTP | TSExternalTrigger.
#[export] Instance NDColorMode_eq_dec : EqDecision NDColorMode.
Proof. solve_decision. Defined.
#[export] Instance NDTimeSource_eq_dec : EqDecision NDTimeSource.
Proof. solve_decision. Defined.

Definition colorCode (m : NDColorMode) : Z := match m with Mono => 0 | RGB1 => 2 | RGB2 => 3 | RGB3 => 4 end.
Definition timeSourceCode (t : NDTimeSource) : Z :=
  match t with TSUnknown => 0 | TSHost => 1 | TSCameraCorrelated => 2 | TSPTP => 3 | TSExternalTrigger => 4 end.

Record NDTimeProvenance := {
  np_source : NDTimeSource;
  np_uncertaintyNs : option Z;
  np_cameraTimestamp : option Z;
  np_cameraTimestampHz : option Z;
}.

Record NDArrayFrame := {
  fr_dataType : PrimitiveType;
  fr_shape : list Z;
  fr_colorMode : NDColorMode;
  fr_payload : list Z;
  fr_uniqueId : Z;
  fr_dataTimestampNs : Z;
  fr_provenance : NDTimeProvenance;
}.

Abbreviation NDArrayAttrs := (gmap string string).

(** ** Field parsers *)

Definition required (attrs : NDArrayAttrs) (name : string) : exn string :=
  match attrs !! name with
  | Some v => Ret v
  | None => Throw ("missing field '" +:+ name +:+ "'")
  end.

(** [std::from_chars] into an unsigned type of maximum [max], all of the text. *)
Definition parseUnsigned (max : Z) (value name : string) : exn Z :=
  let '(digits, rest) := span_digits value in
  if str_empty digits || (max <? dec_value 0 digits) || negb (str_empty rest)
  then Throw ("invalid unsigned integer in '" +:+ name +:+ "'")
  else Ret (dec_value 0 digits).

(** Into a signed type: a minus sign may come first. *)
Definition parseSigned (min max : Z) (value name : string) : exn Z :=
  let '(negative, text) := match value with
                           | String c rest => if bool_decide (c = "-"%char) then (true, rest) else (false, value)
                           | EmptyString => (false, value)
                           end in
  let '(digits, rest) := span_digits text in
  let result := if negative then - dec_value 0 digits else dec_value 0 digits in
  if str_empty digits || (result <? min) || (max <? result) || negb (str_empty rest)
  then Throw ("invalid signed integer in '" +:+ name +:+ "'")
  else Ret result.

Definition parseDataType (text : string) : exn PrimitiveType :=
  code ← parseUnsigned max_u32 text "data_type";
  match code with
  | 0 => Ret Int8 | 1 => Ret UInt8 | 2 => Ret Int16 | 3 => Ret UInt16 | 4 => Ret Int32
  | 5 => Ret UInt32 | 6 => Ret Int64 | 7 => Ret UInt64 | 8 => Ret Float32 | 9 => Ret Float64
  | _ => Throw "unsupported numeric data_type"
  end.

Definition parseColorMode (text : string) : exn NDColorMode :=
  if String.eqb text "mono" then Ret Mono
  else if String.eqb text "rgb1" then Ret RGB1
  else if String.eqb text "rgb2" then Ret RGB2
  else if String.eqb text "rgb3" then Ret RGB3
  else Throw "unsupported color_mode".

Definition isWhitespace (c : Ascii.ascii) : bool :=
  bool_decide (c = " "%char) || bool_decide (c = "009"%char) || bool_decide (c = "013"%char) ||
  bool_decide (c = "010"%char).

(** The text from [position] on. *)
Fixpoint skipWhitespace (text : string) : string :=
  match text with
  | String c text' => if isWhitespace c then skipWhitespace text' else text
  | EmptyString => text
  end.

Definition starts_with (c : Ascii.ascii) (text : string) : option string :=
  match text with String c' rest => if bool_decide (c' = c) then Some rest else None | EmptyString => None end.

(** The [for (;;)] of [parseShape].  Every round that continues adds one of at
    most three dimensions, so four rounds suffice. *)
Fixpoint shapeLoop (fuel : nat) (shape : list Z) (text : string) : exn (list Z * string) :=
  match fuel with
  | O => Throw "unreachable"
  | S fuel =>
      let text := skipWhitespace text in
      match starts_with "]"%char text with
      | Some rest => Ret (shape, rest)
      | None =>
          if (length shape =? 3)%nat then Throw "shape must contain one to three dimensions"
          else
            let '(digits, text) := span_digits text in
            if str_empty digits then Throw "shape dimensions must be positive integers"
            else
              size ← parseUnsigned max_u64 digits "shape dimension";
              if (size =? 0) || (max_i32 <? size) then Throw "shape dimension is zero or exceeds int32"
              else
                let shape := shape ++ [size] in
                let text := skipWhitespace text in
                match starts_with ","%char text with
                | Some rest => shapeLoop fuel shape rest
                | None =>
                    match starts_with "]"%char text with
                    | Some rest => Ret (shape, rest)
                    | None => Throw "invalid shape JSON"
                    end
                end
      end
  end.

Definition parseShape (value : string) : exn (list Z) :=
  match starts_with "["%char (skipWhitespace value) with
  | None => Throw "shape must be a JSON array"
  | Some text =>
      '(shape, rest) ← shapeLoop 4 [] text;
      if negb (str_empty (skipWhitespace rest)) then Throw "invalid shape JSON"
      else if bool_decide (shape = []) then Throw "shape must contain one to three dimensions"
      else Ret shape
  end.

Definition parseTimeSource (value : string) : exn NDTimeSource :=
  if String.eqb value "unknown" then Ret TSUnknown
  else if String.eqb value "host" then Ret TSHost
  else if String.eqb value "camera_correlated" then Ret TSCameraCorrelated
  else if String.eqb value "ptp" then Ret TSPTP
  else if String.eqb value "external_trigger" then Ret TSExternalTrigger
  else Throw ("unsupported time_source '" +:+ value +:+ "'").

Definition parseOptionalUnsigned (max : Z) (attrs : NDArrayAttrs) (name : string) : exn (option Z) :=
  match attrs !! name with
  | None => Ret None
  | Some v => x ← parseUnsigned max v name; Ret (Some x)
  end.

Definition validateColorShape (mode : NDColorMode) (shape : list Z) : exn unit :=
  match mode with
  | Mono => Ret tt
  | _ =>
      let channel := match mode with RGB1 => 0%nat | RGB2 => 1%nat | _ => 2%nat end in
      throw_if (negb (bool_decide (shape !! channel = Some 3)))
        "RGB color mode requires a size-3 channel dimension in the matching layout"
  end.

Definition elementSize (type : PrimitiveType) : exn Z :=
  match type with
  | Int8 | UInt8 => Ret 1
  | Int16 | UInt16 => Ret 2
  | Int32 | UInt32 | Float32 => Ret 4
  | Int64 | UInt64 | Float64 => Ret 8
  | Boolean | String_ => Throw "non-numeric NTNDArray element type"
  end.

(** ** Frame gaps *)

Record NDArrayFrameGap := { gap_skipped : Z; gap_discontinuity : bool }.

Definition assessNDArrayFrameGap (previous current maxFrameGap : Z) : NDArrayFrameGap :=
  let step := u32 (u32 current - u32 previous) in
  if step <=? 1 then {| gap_skipped := 0; gap_discontinuity := false |}
  else if (2147483648 <=? step) || (maxFrameGap <? u32 (step - 1))
  then {| gap_skipped := 0; gap_discontinuity := true |}
  else {| gap_skipped := u32 (step - 1); gap_discontinuity := false |}.

Definition skippedNDArrayFrames (previous current maxFrameGap : Z) : Z :=
  gap_skipped (assessNDArrayFrameGap previous current maxFrameGap).

(** ** Frames *)

Definition string_bytes (s : string) : list Z := map ascii_code (String.list_ascii_of_string s).

(** [std::reverse] of every [width]-byte element, on a big-endian host. *)
Fixpoint reversePixels (fuel : nat) (width : nat) (l : list Z) : list Z :=
  match fuel with
  | O => l
  | S fuel => match l with [] => [] | _ => rev (take width l) ++ reversePixels fuel width (drop width l) end
  end.

(** The element count, checked before every multiplication. *)
Fixpoint shapeElements (elements : Z) (shape : list Z) : exn Z :=
  match shape with
  | [] => Ret elements
  | dimension :: shape =>
      if max_u64 / dimension <? elements then Throw "shape element-count overflow"
      else shapeElements (u64 (elements * dimension)) shape
  end.

Definition parseNDArrayFrame (littleEndian : bool) (attrs : NDArrayAttrs) (streamTimestampNs maxFrameBytes : Z)
    : exn NDArrayFrame :=
  schema ← required attrs "schema";
  throw_if (negb (String.eqb schema kNTNDArrayRedisSchema)) "unsupported schema" ;;
  throw_if (streamTimestampNs <=? 0) "Redis Stream ID is outside the supported POSIX range" ;;
  text ← required attrs "data_type";
  dataType ← parseDataType text;
  text ← required attrs "shape";
  shape ← parseShape text;
  text ← required attrs "color_mode";
  colorMode ← parseColorMode text;
  validateColorShape colorMode shape ;;
  text ← required attrs "unique_id";
  uniqueId ← parseSigned min_i64 max_i64 text "unique_id";
  throw_if ((uniqueId <? min_i32) || (max_i32 <? uniqueId)) "unique_id exceeds NTNDArray int32 range" ;;
  source ← match attrs !! "time_source" with Some t => parseTimeSource t | None => Ret TSUnknown end;
  uncertaintyNs ← parseOptionalUnsigned max_u64 attrs "time_uncertainty_ns";
  cameraTimestamp ← parseOptionalUnsigned max_u64 attrs "camera_timestamp";
  cameraTimestampHz ← parseOptionalUnsigned max_u64 attrs "camera_timestamp_hz";
  elements ← shapeElements 1 shape;
  width ← elementSize dataType;
  throw_if (max_u64 / width <? elements) "frame byte-count overflow" ;;
  let expectedBytes := u64 (elements * width) in
  throw_if (maxFrameBytes <? expectedBytes) "frame exceeds max_frame_bytes" ;;
  payload ← required attrs kNTNDArrayPayloadField;
  throw_if (negb (strlen payload =? expectedBytes)) "payload length does not match data_type and shape" ;;
  let bytes := string_bytes payload in
  let bytes := if (1 <? width) && negb littleEndian
               then reversePixels (length bytes) (Z.to_nat width) bytes else bytes in
  Ret {| fr_dataType := dataType; fr_shape := shape; fr_colorMode := colorMode; fr_payload := bytes;
         fr_uniqueId := uniqueId; fr_dataTimestampNs := streamTimestampNs;
         fr_provenance := {| np_source := source; np_uncertaintyNs := uncertaintyNs;
                             np_cameraTimestamp := cameraTimestamp; np_cameraTimestampHz := cameraTimestampHz |} |}.

(** ** The served structure *)

Section Populate.
Context {V : Type} `{PvxsValue V}.

Fixpoint assign_all (v : V) (l : list (string * field_data)) : V :=
  match l with [] => v | (p, d) :: l => assign_all (v_assign v p d) l end.

(** [assignTimestamp(value[prefix], timestampNs)] *)
Definition timestampFields (prefix : string) (timestampNs : Z) : list (string * field_data) :=
  let '(seconds, nanoseconds) := splitTimestamp timestampNs in
  [(prefix +:+ ".secondsPastEpoch", FInt seconds); (prefix +:+ ".nanoseconds", FInt nanoseconds);
   (prefix +:+ ".userTag", FInt 0)].

Definition pixelMember (t : PrimitiveType) : option string :=
  match t with
  | Int8 => Some "value->byteValue" | UInt8 => Some "value->ubyteValue"
  | Int16 => Some "value->shortValue" | UInt16 => Some "value->ushortValue"
  | Int32 => Some "value->intValue" | UInt32 => Some "value->uintValue"
  | Int64 => Some "value->longValue" | UInt64 => Some "value->ulongValue"
  | Float32 => Some "value->floatValue" | Float64 => Some "value->doubleValue"
  | Boolean | String_ => None
  end.

Definition dimensionFields (size : Z) : list (string * field_data) :=
  [("size", FInt size); ("offset", FInt 0); ("fullSize", FInt size); ("binning", FInt 1); ("reverse", FBool false)].

(** The lambda [addAttribute]. *)
Definition attributeFields (timestampNs : Z) (name descriptor : string) (value : field_data) (source : string)
    : list (string * field_data) :=
  [("name", FString name); ("value", value); ("tags", FStrings []); ("descriptor", FString descriptor);
   ("alarm.severity", FInt epicsSevNone); ("alarm.status", FInt epicsAlarmNone); ("alarm.message", FString "")] ++
  timestampFields "timeStamp" timestampNs ++
  [("sourceType", FInt 0); ("source", FString source)].

Definition frameAttributes (frame : NDArrayFrame) : list (list (string * field_data)) :=
  let add := attributeFields (fr_dataTimestampNs frame) in
  let optional name descriptor (o : option Z) :=
    match o with Some x => [add name descriptor (FInt x) "envelope"] | None => [] end in
  [add "ColorMode" "NDColorMode_t" (FInt (colorCode (fr_colorMode frame))) "driver";
   add "AcquisitionTimeNs" "POSIX nanoseconds" (FInt (fr_dataTimestampNs frame)) "Redis Stream ID";
   add "AcquisitionTimeSource" "NDTimeSource" (FInt (timeSourceCode (np_source (fr_provenance frame)))) "envelope"] ++
  optional "AcquisitionTimeUncertaintyNs" "nanoseconds" (np_uncertaintyNs (fr_provenance frame)) ++
  optional "CameraTimestamp" "camera clock ticks" (np_cameraTimestamp (fr_provenance frame)) ++
  optional "CameraTimestampFrequency" "ticks per second" (np_cameraTimestampHz (fr_provenance frame)).

(** The assignments of [populateNTNDArrayValue], in order, after the pixels. *)
Definition frameFields (frame : NDArrayFrame) (clock : option (Z * Z)) : list (string * field_data) :=
  let size := FInt (i64 (Z.of_nat (length (fr_payload frame)))) in
  [("codec.name", FString ""); ("compressedSize", size); ("uncompressedSize", size);
   ("uniqueId", FInt (fr_uniqueId frame))] ++
  timestampFields "dataTimeStamp" (fr_dataTimestampNs frame) ++
  timestampFields "timeStamp" (currentTimeNs clock) ++
  [("alarm.severity", FInt epicsSevNone); ("alarm.status", FInt epicsAlarmNone); ("alarm.message", FString "");
   ("dimension", FStructs (map dimensionFields (fr_shape frame)));
   ("attribute", FStructs (frameAttributes frame))].

Definition populateNTNDArrayValue (v : V) (frame : NDArrayFrame) (clock : option (Z * Z)) : exn V :=
  match pixelMember (fr_dataType frame) with
  | None => Throw "unsupported NTNDArray element type"
  | Some member =>
      Ret (assign_all (v_assign v member (FPixels (fr_dataType frame) (fr_payload frame))) (frameFields frame clock))
  end.

(** [pvxs::nt::NTNDArray{}.create()] and [prototype.cloneEmpty()] are the
    library's: an empty structure of that layout. *)
Definition buildNTNDArrayValue (empty : V) (frame : NDArrayFrame) (clock : option (Z * Z)) : exn V :=
  populateNTNDArrayValue empty frame clock.

Definition setNTNDArrayInvalidAlarm (v : V) (reason : string) (clock : option (Z * Z)) : V :=
  let v := v_assign v "alarm.severity" (FInt epicsSevInvalid) in
  let v := v_assign v "alarm.status" (FInt epicsAlarmUDF) in
  let v := v_assign v "alarm.message" (FString reason) in
  applyTimestamp v 0 clock.

Definition createEmptyNTNDArray (empty : V) (reason : string) (clock : option (Z * Z)) : V :=
  let v := v_assign empty "value->ubyteValue" (FPixels UInt8 []) in
  let v := assign_all v ([("codec.name", FString ""); ("compressedSize", FInt 0); ("uncompressedSize", FInt 0);
                          ("uniqueId", FInt 0)] ++ timestampFields "dataTimeStamp" 0 ++
                         [("dimension", FStructs []); ("attribute", FStructs [])]) in
  setNTNDArrayInvalidAlarm v reason clock.
End Populate.

(** ** The text of a shape *)

Lemma parseUnsigned_spec max value name z :
  parseUnsigned max value name = Ret z ->
  all_digits value = true /\ value <> "" /\ z = dec_value 0 value /\ z <= max.
Proof.
  unfold parseUnsigned. assert (let '(a, b) := span_digits value in value = a +:+ b /\ all_digits a = true) as Hsp.
  { induction value as [|c value IH]; [done|]. cbn. destruct (is_digit c) eqn:Ec; [|done].
    destruct (span_digits value) as [a b]. destruct IH as [-> Ha]. cbn. by rewrite Ec. }
  destruct (span_digits value) as [digits rest]. destruct Hsp as [-> Hd].
  destruct (str_empty digits) eqn:E1; [done|]. destruct (Z.ltb_spec max (dec_value 0 digits)); [done|].
  destruct rest; [|done]. cbn. intros [= <-]. rewrite str_app_nil_r. split_and!; try done. by intros ->.
Qed.

Lemma parseUnsigned_to_dec max name z : 0 <= z <= max -> parseUnsigned max (to_dec z) name = Ret z.
Proof.
  intros Hz. destruct (to_dec_digits z ltac:(lia)) as (Hv & Ha & Hne). unfold parseUnsigned.
  rewrite <-(str_app_nil_r (to_dec z)), (span_digits_app (to_dec z) "" Ha eq_refl), Hv.
  rewrite (proj2 (Z.ltb_ge max z)) by lia. destruct (to_dec z); [done|]. done.
Qed.

Definition dimension_ok (d : Z) : Prop := 1 <= d <= max_i32.

Lemma shapeLoop_sound fuel shape text shape' rest :
  shapeLoop fuel shape text = Ret (shape', rest) -> Forall dimension_ok shape -> (length shape <= 3)%nat ->
  Forall dimension_ok shape' /\ (length shape' <= 3)%nat.
Proof.
  revert shape text; induction fuel as [|fuel IH]; intros shape text; cbn [shapeLoop]; [done|].
  destruct (starts_with "]"%char (skipWhitespace text)); [by intros [= -> ->]|].
  destruct (Nat.eqb_spec (length shape) 3); [done|].
  destruct (span_digits (skipWhitespace text)) as [digits text']. destruct (str_empty digits); [done|].
  intros (size & Hsize & Hr)%exn_bind_ret Hok Hlen.
  destruct (Z.eqb_spec size 0); [done|]. cbn [orb] in Hr. destruct (Z.ltb_spec max_i32 size); [done|].
  assert (0 <= size) as Hpos.
  { apply parseUnsigned_spec in Hsize as (Ha & _ & -> & _). revert Ha.
    assert (forall acc, 0 <= acc -> all_digits digits = true -> 0 <= dec_value acc digits) as Hd; [|auto with lia].
    clear. induction digits as [|c d IH]; intros acc Hacc; cbn; [done|].
    intros [Hc Hd]%andb_true_iff. apply IH; [|done]. unfold is_digit, digit_value in *.
    apply andb_true_iff in Hc as [?%Z.leb_le _]. lia. }
  assert (Forall dimension_ok (shape ++ [size]) /\ (length (shape ++ [size]) <= 3)%nat) as [Hok' Hlen'].
  { rewrite Forall_app, length_app. cbn. split; [split; [done|]|lia]. constructor; [|constructor].
    unfold dimension_ok. lia. }
  destruct (starts_with ","%char (skipWhitespace text')); [by eapply IH|].
  destruct (starts_with "]"%char (skipWhitespace text')); [|done]. by injection Hr as <- _.
Qed.

Lemma parseShape_sound value shape :
  parseShape value = Ret shape -> Forall dimension_ok shape /\ (1 <= length shape <= 3)%nat.
Proof.
  unfold parseShape. destruct (starts_with "["%char (skipWhitespace value)) as [text|]; [|done].
  intros ([shape' rest] & Hl & Hr)%exn_bind_ret. destruct (negb _); [done|].
  destruct (bool_decide_reflect (shape' = [])); [done|]. injection Hr as ->.
  destruct (shapeLoop_sound _ _ _ _ _ Hl) as [? ?]; [constructor|cbn; lia|].
  split; [done|]. destruct shape; [done|]. cbn in *. lia.
Qed.

(** The JSON text of a shape. *)
Fixpoint dims_text (l : list Z) : string :=
  match l with
  | [] => ""
  | [d] => to_dec d
  | d :: l => to_dec d +:+ "," +:+ dims_text l
  end.
Definition shape_text (l : list Z) : string := "[" +:+ dims_text l +:+ "]".

Lemma skipWhitespace_digits s : all_digits s = true -> s <> "" -> forall r, skipWhitespace (s +:+ r) = s +:+ r.
Proof.
  destruct s as [|c s]; [done|]. cbn. intros [Hc _]%andb_true_iff _ r. rewrite str_app_cons. cbn.
  assert (isWhitespace c = false) as ->; [|done]. revert Hc. clear. by destruct c as [[] [] [] [] [] [] [] []].
Qed.

Lemma starts_with_digits c s : is_digit c = false -> all_digits s = true -> s <> "" ->
  forall r, starts_with c (s +:+ r) = None.
Proof.
  intros Hc. destruct s as [|x s]; [done|]. cbn. intros [Hx _]%andb_true_iff _ r. rewrite str_app_cons. cbn.
  rewrite bool_decide_eq_false_2; [done|]. intros ->. congruence.
Qed.

(** One dimension of the text, followed by anything that is not a digit. *)
Lemma shapeLoop_dim fuel shape d after :
  dimension_ok d -> (length shape < 3)%nat -> span_digits after = ("", after) ->
  shapeLoop (S fuel) shape (to_dec d +:+ after) =
  match starts_with ","%char (skipWhitespace after) with
  | Some rest => shapeLoop fuel (shape ++ [d]) rest
  | None => match starts_with "]"%char (skipWhitespace after) with
            | Some rest => Ret (shape ++ [d], rest)
            | None => Throw "invalid shape JSON"
            end
  end.
Proof.
  intros Hd Hlen Hafter. unfold dimension_ok, max_i32 in Hd.
  destruct (to_dec_digits d ltac:(lia)) as (_ & Ha & Hne). cbn [shapeLoop].
  rewrite (skipWhitespace_digits _ Ha Hne), (starts_with_digits "]"%char _ eq_refl Ha Hne).
  destruct (Nat.eqb_spec (length shape) 3); [lia|]. rewrite (span_digits_app _ _ Ha Hafter).
  rewrite (parseUnsigned_to_dec max_u64) by (unfold max_u64; lia). cbn [mbind exn_bind].
  destruct (Z.eqb_spec d 0); [lia|]. rewrite (proj2 (Z.ltb_ge max_i32 d)) by (unfold max_i32; lia).
  by destruct (to_dec d).
Qed.

Lemma shapeLoop_text l : forall fuel shape,
  Forall dimension_ok l -> l <> [] -> (length shape + length l <= 3)%nat -> (length l <= fuel)%nat ->
  shapeLoop fuel shape (dims_text l +:+ "]") = Ret (shape ++ l, "").
Proof.
  induction l as [|d l IH]; intros fuel shape Hok Hne Hlen Hfuel; [done|].
  inversion Hok as [|? ? Hd Hl]; subst. cbn in Hlen, Hfuel. destruct fuel as [|fuel]; [lia|].
  destruct l as [|d2 l].
  - cbn [dims_text]. by rewrite (shapeLoop_dim fuel shape d "]" Hd ltac:(lia) eq_refl).
  - change (dims_text (d :: d2 :: l)) with (to_dec d +:+ "," +:+ dims_text (d2 :: l)).
    rewrite <-!str_app_assoc.
    rewrite (shapeLoop_dim fuel shape d ("," +:+ (dims_text (d2 :: l) +:+ "]")) Hd ltac:(lia) eq_refl).
    change (starts_with ","%char (skipWhitespace ("," +:+ (dims_text (d2 :: l) +:+ "]"))))
      with (Some (dims_text (d2 :: l) +:+ "]")).
    cbv beta iota. rewrite IH; [by rewrite <-app_assoc|done|done| |cbn in *; lia]. rewrite length_app. cbn in *. lia.
Qed.

(** Every shape a frame may have survives its JSON text: one to three
    dimensions between 1 and [INT32_MAX] are parsed back exactly; and whatever
    the parser accepts is such a shape. *)
Theorem parseShape_roundtrip shape :
  Forall dimension_ok shape -> (1 <= length shape <= 3)%nat ->
  parseShape (shape_text shape) = Ret shape /\
  forall text shape', parseShape text = Ret shape' ->
    Forall dimension_ok shape' /\ (1 <= length shape' <= 3)%nat.
Proof.
  intros Hok Hlen. split; [|intros text shape'; apply parseShape_sound].
  unfold parseShape, shape_text.
  change (starts_with "["%char (skipWhitespace ("[" +:+ (dims_text shape +:+ "]"))))
    with (Some (dims_text shape +:+ "]")).
  cbv beta iota. rewrite (shapeLoop_text shape 4 []); [|done|by intros ->; cbn in Hlen; lia|cbn; lia|lia].
  cbn. rewrite bool_decide_eq_false_2; [done|]. intros ->. cbn in Hlen. lia.
Qed.


(** A trailing comma is accepted, although JSON has none. *)
Example parseShape_trailing_comma : parseShape "[4,]" = Ret [4].
Proof. by vm_compute. Qed.

(** Gap accounting is exact across the 32-bit rollover: [k] frames after
    the previous one, [k - 1] frames were skipped, unless the step exceeds half
    the number space or the configured ceiling, which is a discontinuity. *)
Theorem frame_gap_exact previous k maxFrameGap :
  min_i32 <= previous <= max_i32 -> 0 <= k < 2 ^ 32 ->
  assessNDArrayFrameGap previous (i32 (previous + k)) maxFrameGap =
  if k <=? 1 then {| gap_skipped := 0; gap_discontinuity := false |}
  else if (2 ^ 31 <=? k) || (maxFrameGap <? k - 1) then {| gap_skipped := 0; gap_discontinuity := true |}
  else {| gap_skipped := k - 1; gap_discontinuity := false |}.
Proof.
  intros Hp Hk. unfold assessNDArrayFrameGap.
  assert (u32 (u32 (i32 (previous + k)) - u32 previous) = k) as ->.
  { unfold u32, i32, signed. cbn zeta. rewrite <-Zminus_mod.
    assert (exists q, (if (previous + k) mod 2 ^ 32 <? 2 ^ (32 - 1) then (previous + k) mod 2 ^ 32
      else (previous + k) mod 2 ^ 32 - 2 ^ 32) = previous + k + q * 2 ^ 32) as [q ->].
    { pose proof (Z.div_mod (previous + k) (2 ^ 32) ltac:(lia)) as Hdm.
      destruct (_ <? _); [exists (- ((previous + k) / 2 ^ 32)); lia|exists (- ((previous + k) / 2 ^ 32) - 1); lia]. }
    replace (previous + k + q * 2 ^ 32 - previous) with (k + q * 2 ^ 32) by lia.
    rewrite Z_mod_plus_full. by apply Z.mod_small. }
  destruct (Z.leb_spec k 1); [done|]. rewrite (u32_id (k - 1)) by lia. done.
Qed.

Lemma frame_gap_exact_witness :
  assessNDArrayFrameGap 2147483646 (i32 (2147483646 + 4)) 10000 = {| gap_skipped := 3; gap_discontinuity := false |}.
Proof. rewrite (frame_gap_exact 2147483646 4 10000); [done|unfold min_i32, max_i32; lia|lia]. Defined.

(** ** Frames *)

Definition shape_product (shape : list Z) : Z := foldr Z.mul 1 shape.

Lemma shape_product_pos shape : Forall dimension_ok shape -> 1 <= shape_product shape.
Proof.
  unfold dimension_ok. induction 1 as [|d l Hd _ IH]; [done|].
  change (shape_product (d :: l)) with (d * shape_product l). nia.
Qed.

Lemma shapeElements_spec shape e :
  Forall dimension_ok shape -> 1 <= e <= max_u64 ->
  shapeElements e shape =
  if max_u64 <? e * shape_product shape then Throw "shape element-count overflow"
  else Ret (e * shape_product shape).
Proof.
  intros Hok. revert e. induction Hok as [|d l Hd Hl IH]; intros e He.
  { cbn. rewrite Z.mul_1_r. destruct (Z.ltb_spec max_u64 e); [lia|done]. }
  pose proof (shape_product_pos l Hl) as Hp. unfold dimension_ok in Hd.
  change (shape_product (d :: l)) with (d * shape_product l).
  cbn [shapeElements]. destruct (Z.ltb_spec (max_u64 / d) e) as [Hlt|Hge].
  - assert (max_u64 < e * d).
    { pose proof (Z.mul_succ_div_gt max_u64 d ltac:(lia)). nia. }
    destruct (Z.ltb_spec max_u64 (e * (d * shape_product l))); [done|]. nia.
  - assert (e * d <= max_u64) by (pose proof (Z.mul_div_le max_u64 d ltac:(lia)); nia).
    rewrite u64_id by (unfold max_u64 in *; nia). rewrite IH by nia. by rewrite Z.mul_assoc.
Qed.

Lemma elementSize_ok t w : elementSize t = Ret w -> w = 1 \/ w = 2 \/ w = 4 \/ w = 8.
Proof. destruct t; cbn; intros; simplify_eq; auto. Qed.

Lemma reversePixels_length fuel width l : length (reversePixels fuel width l) = length l.
Proof.
  revert l; induction fuel as [|fuel IH]; intros [|x l]; try done. cbn [reversePixels].
  rewrite length_app, length_rev, IH, <-length_app, take_drop. done.
Qed.

Lemma string_bytes_length s : Z.of_nat (length (string_bytes s)) = strlen s.
Proof.
  unfold string_bytes, strlen. rewrite length_map. f_equal.
  induction s as [|c s IH]; cbn; [done|]. by rewrite IH.
Qed.

(** Peels the monadic steps off a successful parse. *)
Ltac parse_steps :=
  repeat match goal with
  | H : throw_if _ _ ;; _ = Ret _ |- _ =>
      let u := fresh "u" in let Hu := fresh "Hu" in apply exn_bind_ret in H as (u & Hu & H)
  | H : (_ ≫= _) = Ret _ |- _ =>
      let x := fresh "x" in let Hx := fresh "Hx" in apply exn_bind_ret in H as (x & Hx & H)
  end.

(** C39. A frame that is accepted is consistent, whatever the record held: its
    dimensions are positive 32-bit sizes, their product and the byte count were
    computed without wrapping, the payload has exactly that many bytes and not
    more than the configured limit, RGB layouts have their three channels, and
    the identifier and the time stamp are in range. *)
Theorem parseNDArrayFrame_sound littleEndian attrs ts maxFrameBytes frame :
  maxFrameBytes <= max_u64 ->
  parseNDArrayFrame littleEndian attrs ts maxFrameBytes = Ret frame ->
  exists width, elementSize (fr_dataType frame) = Ret width /\
    Forall dimension_ok (fr_shape frame) /\ (1 <= length (fr_shape frame) <= 3)%nat /\
    shape_product (fr_shape frame) * width <= max_u64 /\
    Z.of_nat (length (fr_payload frame)) = shape_product (fr_shape frame) * width /\
    Z.of_nat (length (fr_payload frame)) <= maxFrameBytes /\
    (fr_colorMode frame <> Mono -> 3 ∈ fr_shape frame) /\
    min_i32 <= fr_uniqueId frame <= max_i32 /\ fr_dataTimestampNs frame = ts /\ 0 < ts /\
    attrs !! "schema" = Some kNTNDArrayRedisSchema.
Proof.
  intros Hmax Hparse. unfold parseNDArrayFrame in Hparse. parse_steps. ex_inv. simplify_eq.
  rename x into schema, x5 into shape, x7 into mode, x16 into elements, x17 into width, x20 into payload.
  cbn -[shape_product]. exists width. pose proof (elementSize_ok _ _ Hx17) as Hw.
  destruct (parseShape_sound _ _ Hx5) as [Hok Hlen]. pose proof (shape_product_pos _ Hok) as Hpos.
  rewrite (shapeElements_spec _ 1 Hok), Z.mul_1_l in Hx16 by (unfold max_u64; lia).
  destruct (Z.ltb_spec max_u64 (shape_product shape)); [done|]. injection Hx16 as <-. bool_split.
  assert (shape_product shape * width <= max_u64) as Hfit.
  { pose proof (Z.mul_div_le max_u64 width ltac:(lia)). nia. }
  rewrite u64_id in * by (unfold max_u64 in *; nia).
  assert (Z.of_nat (length (if (1 <? width) && negb littleEndian
    then reversePixels (length (string_bytes payload)) (Z.to_nat width) (string_bytes payload)
    else string_bytes payload)) = strlen payload) as Hlenp.
  { destruct (_ && _); rewrite ?reversePixels_length; apply string_bytes_length. }
  rewrite Hlenp. split_and!; try done; try lia.
  - destruct mode; try done; intros _; cbn in Hx8; ex_inv; bool_split; eapply list_elem_of_lookup_2; eauto.
  - unfold required in Hx. destruct (attrs !! "schema") as [sc|]; [|done]. simplify_eq.
    by match goal with H : String.eqb _ _ = true |- _ => apply String.eqb_eq in H as -> end.
Qed.

(** ** A reference writer of frame records *)

Definition dataTypeCode (t : PrimitiveType) : option Z :=
  match t with
  | Int8 => Some 0 | UInt8 => Some 1 | Int16 => Some 2 | UInt16 => Some 3 | Int32 => Some 4
  | UInt32 => Some 5 | Int64 => Some 6 | UInt64 => Some 7 | Float32 => Some 8 | Float64 => Some 9
  | Boolean | String_ => None
  end.
Definition colorText (m : NDColorMode) : string :=
  match m with Mono => "mono" | RGB1 => "rgb1" | RGB2 => "rgb2" | RGB3 => "rgb3" end.
Definition timeSourceText (t : NDTimeSource) : string :=
  match t with
  | TSUnknown => "unknown" | TSHost => "host" | TSCameraCorrelated => "camera_correlated"
  | TSPTP => "ptp" | TSExternalTrigger => "external_trigger"
  end.
Definition bytes_string (l : list Z) : string :=
  String.string_of_list_ascii (map (fun b => ascii_of_N (Z.to_N b)) l).
Definition set_optional (name : string) (o : option Z) (m : NDArrayAttrs) : NDArrayAttrs :=
  match o with Some x => <[name := to_dec x]> m | None => m end.

Definition frame_attrs (f : NDArrayFrame) : NDArrayAttrs :=
  let pr := fr_provenance f in
  set_optional "time_uncertainty_ns" (np_uncertaintyNs pr)
  (set_optional "camera_timestamp" (np_cameraTimestamp pr)
  (set_optional "camera_timestamp_hz" (np_cameraTimestampHz pr)
  (list_to_map [("schema", kNTNDArrayRedisSchema);
    ("data_type", to_dec (default 0 (dataTypeCode (fr_dataType f))));
    ("shape", shape_text (fr_shape f)); ("color_mode", colorText (fr_colorMode f));
    ("unique_id", to_dec (fr_uniqueId f)); ("time_source", timeSourceText (np_source pr));
    ("_", bytes_string (fr_payload f))]))).

Definition opt_u64 (o : option Z) : Prop := match o with Some x => 0 <= x <= max_u64 | None => True end.

(** A frame a producer may publish. *)
Record frame_ok (f : NDArrayFrame) (width maxFrameBytes : Z) : Prop := {
  fo_width : elementSize (fr_dataType f) = Ret width;
  fo_shape : Forall dimension_ok (fr_shape f);
  fo_rank : (1 <= length (fr_shape f) <= 3)%nat;
  fo_color : is_ret (validateColorShape (fr_colorMode f) (fr_shape f)) = true;
  fo_bytes : Forall (fun b => 0 <= b < 256) (fr_payload f);
  fo_size : Z.of_nat (length (fr_payload f)) = shape_product (fr_shape f) * width;
  fo_limit : shape_product (fr_shape f) * width <= maxFrameBytes <= max_u64;
  fo_id : min_i32 <= fr_uniqueId f <= max_i32;
  fo_time : 0 < fr_dataTimestampNs f;
  fo_prov : opt_u64 (np_uncertaintyNs (fr_provenance f)) /\ opt_u64 (np_cameraTimestamp (fr_provenance f)) /\
            opt_u64 (np_cameraTimestampHz (fr_provenance f));
}.

Lemma ascii_code_of_byte b : 0 <= b < 256 -> ascii_code (ascii_of_N (Z.to_N b)) = b.
Proof. intros Hb. unfold ascii_code. rewrite N_ascii_embedding; lia. Qed.

Lemma string_bytes_string l : Forall (fun b => 0 <= b < 256) l -> string_bytes (bytes_string l) = l.
Proof.
  intros Hl. unfold string_bytes, bytes_string. rewrite String.list_ascii_of_string_of_list_ascii, map_map.
  induction Hl as [|b l Hb Hl IH]; cbn; [done|]. by rewrite ascii_code_of_byte, IH.
Qed.

Lemma parseSigned_to_dec z name : min_i32 <= z <= max_i32 -> parseSigned min_i64 max_i64 (to_dec z) name = Ret z.
Proof.
  unfold min_i32, max_i32. intros Hz. unfold parseSigned.
  assert (min_i64 <= z <= max_i64) as Hz' by (unfold min_i64, max_i64; lia).
  destruct (decide (0 <= z)) as [Hpos|Hneg].
  - destruct (to_dec_digits z Hpos) as (Hv & Ha & Hne). pose proof (span_digits_app (to_dec z) "" Ha eq_refl) as Hsp.
    rewrite str_app_nil_r in Hsp. destruct (to_dec z) as [|c s] eqn:E; [done|].
    rewrite bool_decide_eq_false_2; [|by intros ->]. rewrite Hsp, Hv. cbn [str_empty orb negb].
    rewrite (proj2 (Z.ltb_ge z min_i64)), (proj2 (Z.ltb_ge max_i64 z)) by lia. done.
  - destruct z as [|p|p]; [lia|lia|].
    change (to_dec (Z.neg p)) with (String "-" (to_dec (Z.pos p))).
    destruct (to_dec_digits (Z.pos p) ltac:(lia)) as (Hv & Ha & Hne).
    pose proof (span_digits_app (to_dec (Z.pos p)) "" Ha eq_refl) as Hsp. rewrite str_app_nil_r in Hsp.
    rewrite bool_decide_eq_true_2 by done. rewrite Hsp, Hv.
    replace (- Z.pos p) with (Z.neg p) by lia.
    rewrite (proj2 (Z.ltb_ge (Z.neg p) min_i64)), (proj2 (Z.ltb_ge max_i64 (Z.neg p))) by lia.
    by destruct (to_dec (Z.pos p)).
Qed.

Lemma parseDataType_code t w : elementSize t = Ret w -> parseDataType (to_dec (default 0 (dataTypeCode t))) = Ret t.
Proof. by destruct t. Qed.
Lemma parseColorMode_text m : parseColorMode (colorText m) = Ret m.
Proof. by destruct m. Qed.
Lemma parseTimeSource_text t : parseTimeSource (timeSourceText t) = Ret t.
Proof. by destruct t. Qed.

Lemma set_optional_ne name o m k : k <> name -> set_optional name o m !! k = m !! k.
Proof. intros Hk. destruct o; cbn; [by rewrite lookup_insert_ne|done]. Qed.

Lemma frame_attrs_lookup f k :
  k ∉ ["time_uncertainty_ns"; "camera_timestamp"; "camera_timestamp_hz"] ->
  frame_attrs f !! k =
  (list_to_map [("schema", kNTNDArrayRedisSchema);
    ("data_type", to_dec (default 0 (dataTypeCode (fr_dataType f))));
    ("shape", shape_text (fr_shape f)); ("color_mode", colorText (fr_colorMode f));
    ("unique_id", to_dec (fr_uniqueId f)); ("time_source", timeSourceText (np_source (fr_provenance f)));
    ("_", bytes_string (fr_payload f))] : NDArrayAttrs) !! k.
Proof. intros Hk. unfold frame_attrs. rewrite !set_optional_ne; [done|..]; intros ->; apply Hk; repeat (left || right). Qed.

Lemma frame_attrs_fields f :
  frame_attrs f !! "schema" = Some kNTNDArrayRedisSchema /\
  frame_attrs f !! "data_type" = Some (to_dec (default 0 (dataTypeCode (fr_dataType f)))) /\
  frame_attrs f !! "shape" = Some (shape_text (fr_shape f)) /\
  frame_attrs f !! "color_mode" = Some (colorText (fr_colorMode f)) /\
  frame_attrs f !! "unique_id" = Some (to_dec (fr_uniqueId f)) /\
  frame_attrs f !! "time_source" = Some (timeSourceText (np_source (fr_provenance f))) /\
  frame_attrs f !! "_" = Some (bytes_string (fr_payload f)).
Proof.
  split_and!; (rewrite frame_attrs_lookup; [|apply (bool_decide_unpack _); vm_compute; exact I]);
    cbn [list_to_map foldr]; rewrite ?lookup_insert_ne by done; apply lookup_insert_eq.
Qed.

Lemma parseOptional_set name o m : opt_u64 o -> m !! name = None ->
  parseOptionalUnsigned max_u64 (set_optional name o m) name = Ret o.
Proof.
  intros Ho Hm. unfold parseOptionalUnsigned. destruct o as [x|]; cbn; [|by rewrite Hm].
  rewrite lookup_insert_eq. by rewrite parseUnsigned_to_dec.
Qed.

Lemma parseOptional_ext max m m' name : m !! name = m' !! name ->
  parseOptionalUnsigned max m name = parseOptionalUnsigned max m' name.
Proof. intros Hm. unfold parseOptionalUnsigned. by rewrite Hm. Qed.

Lemma frame_attrs_optional f :
  opt_u64 (np_uncertaintyNs (fr_provenance f)) /\ opt_u64 (np_cameraTimestamp (fr_provenance f)) /\
  opt_u64 (np_cameraTimestampHz (fr_provenance f)) ->
  parseOptionalUnsigned max_u64 (frame_attrs f) "time_uncertainty_ns" = Ret (np_uncertaintyNs (fr_provenance f)) /\
  parseOptionalUnsigned max_u64 (frame_attrs f) "camera_timestamp" = Ret (np_cameraTimestamp (fr_provenance f)) /\
  parseOptionalUnsigned max_u64 (frame_attrs f) "camera_timestamp_hz" = Ret (np_cameraTimestampHz (fr_provenance f)).
Proof.
  intros (H1 & H2 & H3). unfold frame_attrs. split_and!.
  - apply parseOptional_set; [done|]. by rewrite !set_optional_ne.
  - erewrite parseOptional_ext; [|apply set_optional_ne; done].
    apply parseOptional_set; [done|]. by rewrite !set_optional_ne.
  - erewrite parseOptional_ext; [|rewrite !set_optional_ne by done; reflexivity].
    by apply parseOptional_set.
Qed.

(** Every frame a producer may publish is decoded to itself: a record
    written from a consistent frame (any element type, layout, provenance and
    identifier) parses back to exactly that frame on a little-endian host. *)
Theorem parseNDArrayFrame_roundtrip f width maxFrameBytes :
  frame_ok f width maxFrameBytes ->
  parseNDArrayFrame true (frame_attrs f) (fr_dataTimestampNs f) maxFrameBytes = Ret f.
Proof.
  intros []. pose proof (shape_product_pos _ fo_shape0) as Hpos.
  pose proof (elementSize_ok _ _ fo_width0) as Hw.
  destruct (frame_attrs_optional f fo_prov0) as (O1 & O2 & O3).
  destruct (frame_attrs_fields f) as (L1 & L2 & L3 & L4 & L5 & L6 & L7).
  unfold parseNDArrayFrame, required. rewrite L1, L2, L3, L4, L5, L6. cbn [mbind exn_bind].
  rewrite String.eqb_refl. cbn [negb throw_if mbind exn_bind].
  rewrite (proj2 (Z.leb_gt (fr_dataTimestampNs f) 0)) by done. cbn [throw_if mbind exn_bind].
  rewrite (parseDataType_code _ _ fo_width0). cbn [mbind exn_bind].
  assert (parseShape (shape_text (fr_shape f)) = Ret (fr_shape f)) as ->.
  { unfold parseShape, shape_text.
    change (starts_with "["%char (skipWhitespace ("[" +:+ (dims_text (fr_shape f) +:+ "]"))))
      with (Some (dims_text (fr_shape f) +:+ "]")).
    cbv beta iota. rewrite (shapeLoop_text (fr_shape f) 4 []);
      [|done|by intros E; rewrite E in fo_rank0; cbn in fo_rank0; lia|cbn; lia|lia].
    cbn. rewrite bool_decide_eq_false_2; [done|]. intros E. rewrite E in fo_rank0. cbn in fo_rank0. lia. }
  cbn [mbind exn_bind]. rewrite parseColorMode_text. cbn [mbind exn_bind].
  destruct (validateColorShape (fr_colorMode f) (fr_shape f)); [|done]. cbn [mbind exn_bind].
  rewrite (parseSigned_to_dec _ _ fo_id0). cbn [mbind exn_bind].
  rewrite (proj2 (Z.ltb_ge (fr_uniqueId f) min_i32)), (proj2 (Z.ltb_ge max_i32 (fr_uniqueId f))) by lia.
  cbn [orb throw_if mbind exn_bind]. rewrite parseTimeSource_text. cbn [mbind exn_bind].
  rewrite O1, O2, O3. cbn [mbind exn_bind].
  rewrite (shapeElements_spec _ 1 fo_shape0), Z.mul_1_l by (unfold max_u64; lia).
  rewrite (proj2 (Z.ltb_ge max_u64 (shape_product (fr_shape f)))) by nia. cbn [mbind exn_bind].
  rewrite fo_width0. cbn [mbind exn_bind].
  rewrite (proj2 (Z.ltb_ge (max_u64 / width) (shape_product (fr_shape f)))) by (apply Z.div_le_lower_bound; nia).
  cbn [throw_if mbind exn_bind]. rewrite u64_id by (unfold max_u64 in *; nia).
  rewrite (proj2 (Z.ltb_ge maxFrameBytes (shape_product (fr_shape f) * width))) by lia.
  cbn [throw_if mbind exn_bind]. change kNTNDArrayPayloadField with "_". rewrite L7. cbn [mbind exn_bind].
  assert (strlen (bytes_string (fr_payload f)) = shape_product (fr_shape f) * width) as Hlen.
  { by rewrite <-string_bytes_length, string_bytes_string. }
  rewrite Hlen, Z.eqb_refl. cbn [negb throw_if mbind exn_bind]. rewrite andb_false_r, string_bytes_string by done.
  by destruct f as [? ? ? ? ? ? []].
Qed.

Definition demo_frame : NDArrayFrame :=
  {| fr_dataType := UInt16; fr_shape := [2; 3]; fr_colorMode := Mono; fr_payload := [1; 0; 2; 0; 3; 0; 4; 0; 5; 0; 255; 255];
     fr_uniqueId := -7; fr_dataTimestampNs := 1700000000000000001;
     fr_provenance := {| np_source := TSPTP; np_uncertaintyNs := Some 25; np_cameraTimestamp := None;
                         np_cameraTimestampHz := Some 1000000000 |} |}.

Lemma demo_frame_ok : frame_ok demo_frame 2 4096.
Proof.
  split; cbn; try done; try (repeat constructor; unfold max_i32; lia);
    unfold max_u64, min_i32, max_i32; lia.
Qed.

Lemma parseNDArrayFrame_roundtrip_witness :
  parseNDArrayFrame true (frame_attrs demo_frame) 1700000000000000001 4096 = Ret demo_frame.
Proof. apply (parseNDArrayFrame_roundtrip demo_frame 2 4096). apply demo_frame_ok. Defined.

Lemma parseNDArrayFrame_sound_witness :
  exists width, elementSize UInt16 = Ret width /\ 12 = shape_product [2; 3] * width.
Proof.
  assert (parseNDArrayFrame true (frame_attrs demo_frame) 1700000000000000001 4096 = Ret demo_frame) as Hp
    by (vm_compute; reflexivity).
  destruct (parseNDArrayFrame_sound true (frame_attrs demo_frame) 1700000000000000001 4096 demo_frame)
    as (width & Hw & _ & _ & _ & Hl & _); [unfold max_u64; lia|exact Hp|].
  exists width. split; [exact Hw|exact Hl].
Defined.

(** ** Population *)

Section PopulateFacts.
Context {V : Type} `{PvxsValue V}.
Implicit Types v : V.

Lemma assign_all_code v l p : v_code (assign_all v l) p = v_code v p.
Proof. revert v; induction l as [|[q d] l IH]; intros v; cbn; [done|]. by rewrite IH, v_code_assign. Qed.

Lemma assign_all_other v l p :
  (forall q, q ∈ l.*1 -> v_code v q <> None) -> p ∉ l.*1 -> v_data (assign_all v l) p = v_data v p.
Proof.
  revert v; induction l as [|[q d] l IH]; intros v Hv Hp; cbn; [done|].
  rewrite fmap_cons, not_elem_of_cons in Hp. destruct Hp as [Hne Hp].
  rewrite IH; [|intros; rewrite v_code_assign; apply Hv; by right|done].
  rewrite v_data_assign by (apply Hv; left). by rewrite (proj2 (String.eqb_neq p q)).
Qed.

Lemma assign_all_data v l p d :
  NoDup l.*1 -> (forall q, q ∈ l.*1 -> v_code v q <> None) -> (p, d) ∈ l -> v_data (assign_all v l) p = Some d.
Proof.
  revert v; induction l as [|[q e] l IH]; intros v Hnd Hv Hin; [by apply not_elem_of_nil in Hin|].
  rewrite fmap_cons in Hnd. apply NoDup_cons in Hnd as [Hq Hnd]. cbn.
  assert (forall r, r ∈ l.*1 -> v_code (v_assign v q e) r <> None) as Hv'.
  { intros r Hr. rewrite v_code_assign. apply Hv. by right. }
  apply elem_of_cons in Hin as [?|Hin]; [|by apply IH]. simplify_eq.
  rewrite assign_all_other by done. rewrite v_data_assign by (apply Hv; left). by rewrite String.eqb_refl.
Qed.

Lemma frameFields_nodup f clock : NoDup ((frameFields f clock).*1).
Proof. apply (bool_decide_unpack _). vm_compute. exact I. Qed.

(** What a client reads is the frame: into a structure of the NTNDArray
    layout, [buildNTNDArrayValue] stores the pixels in the member of their
    type, the dimensions in order, both sizes, the identifier and the
    acquisition time split exactly, and clears the alarm. *)
Theorem buildNTNDArrayValue_publishes v f clock width :
  elementSize (fr_dataType f) = Ret width ->
  (forall p, p ∈ (frameFields f clock).*1 -> v_code v p <> None) ->
  (forall m, pixelMember (fr_dataType f) = Some m -> v_code v m <> None) ->
  exists v' m, buildNTNDArrayValue v f clock = Ret v' /\ pixelMember (fr_dataType f) = Some m /\
    v_data v' m = Some (FPixels (fr_dataType f) (fr_payload f)) /\
    v_data v' "dimension" = Some (FStructs (map dimensionFields (fr_shape f))) /\
    v_data v' "uniqueId" = Some (FInt (fr_uniqueId f)) /\
    v_data v' "alarm.severity" = Some (FInt epicsSevNone) /\
    v_data v' "dataTimeStamp.secondsPastEpoch" = Some (FInt (splitTimestamp (fr_dataTimestampNs f)).1) /\
    v_data v' "dataTimeStamp.nanoseconds" = Some (FInt (splitTimestamp (fr_dataTimestampNs f)).2).
Proof.
  intros Hw Hv Hm. unfold buildNTNDArrayValue, populateNTNDArrayValue.
  destruct (pixelMember (fr_dataType f)) as [m|] eqn:Em; [|by destruct (fr_dataType f)].
  specialize (Hm m eq_refl). eexists _, m. split; [done|]. split; [done|].
  set (v1 := v_assign v m _).
  assert (forall q, q ∈ (frameFields f clock).*1 -> v_code v1 q <> None) as Hv1.
  { intros q Hq. unfold v1. rewrite v_code_assign. auto. }
  assert (forall p d, (p, d) ∈ frameFields f clock -> v_data (assign_all v1 (frameFields f clock)) p = Some d) as Hd.
  { intros p d. apply assign_all_data; [apply frameFields_nodup|done]. }
  split; [|split_and!; apply Hd; cbn; repeat (left || right)].
  rewrite assign_all_other; [|done|].
  - unfold v1. rewrite v_data_assign by done. by rewrite String.eqb_refl.
  - intros Hin. apply (f_equal (fun o => default "" o)) in Em. cbn in Em. subst m. revert Hin.
    apply (bool_decide_unpack (¬ _)). destruct (fr_dataType f); vm_compute; exact I.
Qed.
End PopulateFacts.

(** The layout of the leaves a frame is stored in. *)
Definition ntndarray_layout : MapValue.t :=
  list_to_map ((fun p : string => (p, (TStruct, None, false))) <$>
    ("value->ushortValue" :: (frameFields demo_frame None).*1)).

Lemma buildNTNDArrayValue_publishes_witness :
  exists v' m, buildNTNDArrayValue ntndarray_layout demo_frame None = Ret v' /\
    v_data v' m = Some (FPixels UInt16 (fr_payload demo_frame)) /\ v_data v' "uniqueId" = Some (FInt (-7)).
Proof.
  destruct (buildNTNDArrayValue_publishes ntndarray_layout demo_frame None 2) as (v' & m & H1 & _ & H2 & _ & H3 & _).
  - reflexivity.
  - intros p Hp. assert (Forall (fun p => v_code ntndarray_layout p <> None) (frameFields demo_frame None).*1) as HF.
    { vm_compute. repeat constructor; discriminate. }
    rewrite Forall_forall in HF. by apply HF.
  - intros m [= <-]. vm_compute. discriminate.
  - exists v', m. split; [exact H1|]. split; [exact H2|exact H3].
Defined.
