(* ===== verification/Acf.v ===== *)
(** * Access policy files

    The front end of src/access_control.cpp (lines 34 to 430): reading and
    macro-expanding a policy, its fingerprint, the tokenizer, and the
    recursive-descent check that a policy stays within the supported subset of
    the EPICS access security grammar.  asLib evaluates the policy; this check
    decides whether the policy is handed to it and which groups it defines.

    The loops that consume text or tokens run on fuel; [run] distinguishes a
    thrown error from exhausted fuel, and AcfGrammar shows that the fuel the
    entry points supply is always enough. *)

From Stdlib Require Import Ascii.
From S2P Require Import Prelude StrMap Config.

Local Open Scope string_scope.
Local Open Scope list_scope.
Local Open Scope Z_scope.

(** ** Runs *)

Inductive run (A : Type) : Type :=
| Done (a : A)
| Fails (what : string)
| OutOfFuel.
Arguments Done {A} a.
Arguments Fails {A} what.
Arguments OutOfFuel {A}.

#[export] Instance run_bind : MBind run := fun A B f m =>
  match m with Done a => f a | Fails w => Fails w | OutOfFuel => OutOfFuel end.

(** ** Characters *)

(** [std::isspace] of the C locale *)
Definition isspace (c : ascii) : bool :=
  (ascii_code c =? 32) || ((9 <=? ascii_code c) && (ascii_code c <=? 13)).

Definition newline : ascii := "010".
Definition quote : ascii := "034".
Definition backslash : ascii := "\".

Definition is_punct (c : ascii) : bool :=
  Ascii.eqb c "(" || Ascii.eqb c ")" || Ascii.eqb c "{" || Ascii.eqb c "}" || Ascii.eqb c ",".

Definition toupper (c : ascii) : ascii :=
  if (97 <=? ascii_code c) && (ascii_code c <=? 122)
  then Ascii.ascii_of_N (Z.to_N (ascii_code c - 32)) else c.

Fixpoint upper (s : string) : string :=
  match s with EmptyString => EmptyString | String c s' => String (toupper c) (upper s') end.

Definition at_position (line column : Z) (message : string) : string :=
  "ACF " +:+ to_dec line +:+ ":" +:+ to_dec column +:+ ": " +:+ message.

(** ** Tokens *)

Record Token := { tk_text : string; tk_line : Z; tk_column : Z; tk_quoted : bool }.

(** A comment: everything before the next newline; the text after it and the
    number of characters skipped. *)
Fixpoint skipComment (text : string) : string * Z :=
  match text with
  | EmptyString => (EmptyString, 0)
  | String c rest => if Ascii.eqb c newline then (text, 0)
                     else let '(rest', n) := skipComment rest in (rest', n + 1)
  end.

(** The body of a quoted string, after the opening quote: its value, the text
    after the closing quote, and the position there. *)
Fixpoint scanQuoted (text : string) (line column : Z) (escaped : bool) : option (string * string * Z * Z) :=
  match text with
  | EmptyString => None
  | String current rest =>
      let '(line, column) := if Ascii.eqb current newline then (line + 1, 1) else (line, column + 1) in
      let push r := match r with
                    | Some (value, rest', l, c) => Some (String current value, rest', l, c)
                    | None => None
                    end in
      if escaped then push (scanQuoted rest line column false)
      else if Ascii.eqb current backslash then scanQuoted rest line column true
      else if Ascii.eqb current quote then Some (EmptyString, rest, line, column)
      else push (scanQuoted rest line column false)
  end.

(** Does a character end an unquoted word? *)
Definition ends_word (c : ascii) : bool :=
  isspace c || is_punct c || Ascii.eqb c "#" || Ascii.eqb c quote.

Fixpoint scanWord (text : string) : string * string :=
  match text with
  | EmptyString => (EmptyString, EmptyString)
  | String c rest => if ends_word c then (EmptyString, text)
                     else let '(word, rest') := scanWord rest in (String c word, rest')
  end.

Fixpoint tokenizeLoop (fuel : nat) (text : string) (line column : Z) : run (list Token) :=
  match fuel with
  | O => OutOfFuel
  | S fuel =>
      let push token r := tokens ← r; Done (token :: tokens) in
      match text with
      | EmptyString => Done []
      | String ch rest =>
          if isspace ch then
            if Ascii.eqb ch newline then tokenizeLoop fuel rest (line + 1) 1
            else tokenizeLoop fuel rest line (column + 1)
          else if Ascii.eqb ch "#" then
            let '(rest', skipped) := skipComment text in
            tokenizeLoop fuel rest' line (column + skipped)
          else if Ascii.eqb ch quote then
            match scanQuoted rest line (column + 1) false with
            | None => Fails (at_position line column "unterminated string")
            | Some (value, rest', line', column') =>
                push {| tk_text := value; tk_line := line; tk_column := column; tk_quoted := true |}
                  (tokenizeLoop fuel rest' line' column')
            end
          else if negb (is_punct ch) then
            let '(word, rest') := scanWord text in
            push {| tk_text := word; tk_line := line; tk_column := column; tk_quoted := false |}
              (tokenizeLoop fuel rest' line (column + strlen word))
          else
            push {| tk_text := String ch EmptyString; tk_line := line; tk_column := column; tk_quoted := false |}
              (tokenizeLoop fuel rest line (column + 1))
      end
  end.

Definition tokenizeAcf (text : string) : run (list Token) :=
  tokenizeLoop (S (String.length text)) text 1 1.

(** ** The parser *)

Record Reference := { rf_kind : string; rf_name : string; rf_token : Token }.

(** [tokens_] split at [position_]: those before it, the last one first, and
    the rest; with the groups defined and the references made so far. *)
Record parser := {
  ps_before : list Token;
  ps_rest : list Token;
  ps_uags : sset;
  ps_hags : sset;
  ps_references : list Reference;
}.
#[export] Instance parser_eta : Eta parser := fun r =>
  Build_parser (ps_before r) (ps_rest r) (ps_uags r) (ps_hags r) (ps_references r).

Definition par (A : Type) : Type := parser -> run (A * parser).
#[export] Instance par_bind : MBind par := fun A B f m s => '(a, s') ← m s; f a s'.
#[export] Instance par_ret : MRet par := fun A a s => Done (a, s).

Definition acfError {A} (token : Token) (message : string) : par A := fun _ =>
  Fails (at_position (tk_line token) (tk_column token) message).

(** [if (b) acfError(token, message);] *)
Definition error_if (b : bool) (token : Token) (message : string) : par unit :=
  if b then acfError token message else mret tt.

Definition at_end : par bool := fun s => Done (bool_decide (ps_rest s = []), s).

Definition peek : par Token := fun s =>
  match ps_rest s with
  | [] => Fails "ACF: unexpected end of policy"
  | t :: _ => Done (t, s)
  end.

Definition advance : par unit := fun s =>
  match ps_rest s with
  | [] => Fails "ACF: unexpected end of policy"
  | t :: rest => Done (tt, s <| ps_before := t :: ps_before s |> <| ps_rest := rest |>)
  end.

Definition take : par Token := result ← peek; _ ← advance; mret result.

Definition expect (text : string) : par unit :=
  token ← peek;
  _ ← error_if (negb (String.eqb (tk_text token) text)) token ("expected '" +:+ text +:+ "'");
  advance.

Definition is_punct_text (s : string) : bool :=
  String.eqb s "(" || String.eqb s ")" || String.eqb s "{" || String.eqb s "}" || String.eqb s ",".

Definition name : par Token :=
  result ← take;
  _ ← error_if (str_empty (tk_text result) || (negb (tk_quoted result) && is_punct_text (tk_text result)))
        result "expected a name";
  mret result.

(** CALC and INPA to INPU. *)
Definition deferred_keyword (keyword : string) : bool :=
  String.eqb keyword "CALC" ||
  match keyword with
  | String "I" (String "N" (String "P" (String c EmptyString))) =>
      (65 <=? ascii_code c) && (ascii_code c <=? 85)
  | _ => false
  end.

Definition rejectDeferred (token : Token) : par unit :=
  if tk_quoted token then mret tt
  else error_if (deferred_keyword (upper (tk_text token))) token
         (upper (tk_text token) +:+ " is outside the supported ACF subset").

(** [tokens_[position_ - 1u]] *)
Definition last_token : par Token := fun s =>
  match ps_before s with t :: _ => Done (t, s) | [] => Fails "ACF: unexpected end of policy" end.

Section Fuel.
Context (fuel : nat).

(** [while (peek().text == ",") { take(); result.push_back(name().text); }] *)
Fixpoint namesLoop (n : nat) : par (list string) :=
  match n with
  | O => fun _ => OutOfFuel
  | S n =>
      token ← peek;
      if String.eqb (tk_text token) "," then
        _ ← take; t ← name; rest ← namesLoop n; mret (tk_text t :: rest)
      else mret []
  end.

Definition callNames (keyword : string) : par (list string) :=
  actual ← take;
  _ ← rejectDeferred actual;
  _ ← error_if (tk_quoted actual || negb (String.eqb (upper (tk_text actual)) keyword)) actual
        ("expected " +:+ keyword);
  _ ← expect "(";
  first ← name;
  rest ← namesLoop fuel;
  _ ← expect ")";
  mret (tk_text first :: rest).

Definition definitionName (keyword : string) : par string :=
  names ← callNames keyword;
  match names with
  | [x] => mret x
  | _ => last ← last_token; acfError last (keyword +:+ " definitions require exactly one name")
  end.

(** [while (true) { name(); if (peek().text == "}") break; expect(","); }] *)
Fixpoint membersLoop (n : nat) : par unit :=
  match n with
  | O => fun _ => OutOfFuel
  | S n =>
      _ ← name;
      token ← peek;
      if String.eqb (tk_text token) "}" then mret tt
      else _ ← expect ","; membersLoop n
  end.

Definition set_of (keyword : string) (s : parser) : sset :=
  if String.eqb keyword "UAG" then ps_uags s else ps_hags s.

(** [definitions.insert(definition).second] *)
Definition define (keyword definition : string) : par bool := fun s =>
  let '(set, inserted) := ss_insert definition (set_of keyword s) in
  Done (inserted, if String.eqb keyword "UAG" then s <| ps_uags := set |> else s <| ps_hags := set |>).

(** The braces of [parseNamedList]. *)
Definition parseMembers : par unit :=
  _ ← expect "{";
  token ← peek;
  _ ← (if negb (String.eqb (tk_text token) "}") then membersLoop fuel else mret tt);
  expect "}".

Definition parseNamedList (keyword : string) : par unit :=
  definition ← definitionName keyword;
  inserted ← define keyword definition;
  _ ← (if negb inserted then
         last ← last_token; acfError last ("duplicate " +:+ keyword +:+ " '" +:+ definition +:+ "'")
       else mret tt);
  parseMembers.

Definition refer (condition : string) (names : list string) (token : Token) : par unit := fun s =>
  Done (tt, s <| ps_references := ps_references s ++
    map (fun n => {| rf_kind := condition; rf_name := n; rf_token := token |}) names |>).

(** [while (peek().text != "}") { ... callNames(condition) ... }] *)
Fixpoint conditionsLoop (n : nat) : par unit :=
  match n with
  | O => fun _ => OutOfFuel
  | S n =>
      token ← peek;
      if String.eqb (tk_text token) "}" then mret tt
      else
        _ ← rejectDeferred token;
        let condition := upper (tk_text token) in
        _ ← error_if (negb (String.eqb condition "UAG") && negb (String.eqb condition "HAG")) token
              "only UAG and HAG conditions are supported in RULE";
        names ← callNames condition;
        _ ← refer condition names token;
        conditionsLoop n
  end.

(** The text of an unquoted option in upper case. *)
Definition option_name (t : Token) : string := if tk_quoted t then EmptyString else upper (tk_text t).

Definition is_permission (s : string) : bool :=
  String.eqb s "NONE" || String.eqb s "READ" || String.eqb s "WRITE".
Definition is_trap (s : string) : bool := String.eqb s "TRAPWRITE" || String.eqb s "NOTRAPWRITE".

(** The optional third argument of a rule. *)
Definition parseOption : par unit :=
  token ← peek;
  if String.eqb (tk_text token) "," then
    _ ← take;
    trap ← name;
    error_if (negb (is_trap (option_name trap))) trap "RULE option must be TRAPWRITE or NOTRAPWRITE"
  else mret tt.

(** The parenthesised part of a rule. *)
Definition parseRuleHead : par unit :=
  rule ← take;
  _ ← rejectDeferred rule;
  _ ← error_if (tk_quoted rule || negb (String.eqb (upper (tk_text rule)) "RULE")) rule
        "only RULE is supported inside ASG";
  _ ← expect "(";
  level ← name;
  _ ← error_if (tk_quoted level || (negb (String.eqb (tk_text level) "0") && negb (String.eqb (tk_text level) "1")))
        level "RULE access level must be 0 or 1";
  _ ← expect ",";
  permission ← name;
  _ ← error_if (negb (is_permission (option_name permission))) permission
        "RULE permission must be NONE, READ, or WRITE";
  _ ← parseOption;
  expect ")".

Definition parseRule : par unit :=
  _ ← parseRuleHead;
  ended ← at_end;
  if (ended : bool) then mret tt
  else
    token ← peek;
    if negb (String.eqb (tk_text token) "{") then mret tt
    else
      _ ← take;
      _ ← conditionsLoop fuel;
      expect "}".

(** [while (peek().text != "}") parseRule();] *)
Fixpoint rulesLoop (n : nat) : par unit :=
  match n with
  | O => fun _ => OutOfFuel
  | S n =>
      token ← peek;
      if String.eqb (tk_text token) "}" then mret tt
      else _ ← parseRule; rulesLoop n
  end.

Definition parseAsg : par string :=
  group ← definitionName "ASG";
  _ ← expect "{";
  _ ← rulesLoop fuel;
  _ ← expect "}";
  mret group.

(** One round of the top-level loop of [parse]. *)
Definition parseItem (groups : sset) : par sset :=
  token ← peek;
  _ ← rejectDeferred token;
  let keyword := upper (tk_text token) in
  if String.eqb keyword "UAG" || String.eqb keyword "HAG" then
    _ ← parseNamedList keyword; mret groups
  else if String.eqb keyword "ASG" then
    group ← parseAsg;
    let '(groups, inserted) := ss_insert group groups in
    _ ← (if negb inserted then last ← last_token; acfError last ("duplicate ASG '" +:+ group +:+ "'")
         else mret tt);
    mret groups
  else acfError token ("unknown top-level construct '" +:+ tk_text token +:+ "'").

(** [while (!done()) ...] *)
Fixpoint parseLoop (n : nat) (groups : sset) : par sset :=
  match n with
  | O => fun _ => OutOfFuel
  | S n =>
      ended ← at_end;
      if (ended : bool) then mret groups
      else groups ← parseItem groups; parseLoop n groups
  end.
End Fuel.

(** The closing loop of [parse] over the references. *)
Fixpoint checkReferences (s : parser) (references : list Reference) : run unit :=
  match references with
  | [] => Done tt
  | r :: rest =>
      if negb (sm_has (rf_name r) (set_of (rf_kind r) s)) then
        Fails (at_position (tk_line (rf_token r)) (tk_column (rf_token r))
                 (rf_kind r +:+ " references undefined group '" +:+ rf_name r +:+ "'"))
      else checkReferences s rest
  end.

Definition parse (tokens : list Token) : run sset :=
  let fuel := S (length tokens) in
  let start := {| ps_before := []; ps_rest := tokens; ps_uags := []; ps_hags := []; ps_references := [] |} in
  '(groups, s) ← (parseLoop fuel fuel [] start : run (sset * parser));
  _ ← checkReferences s (ps_references s);
  Done (ss_insert "DEFAULT" groups).1.

Definition inspectAcf (text : string) : run sset := tokens ← tokenizeAcf text; parse tokens.

Example inspect_1 :
  inspectAcf "UAG(ops) {alice, bob} ASG(BEAM) { RULE(0,READ) rule(1,write,TRAPWRITE) {UAG(ops)} }"
  = Done [("BEAM", tt); ("DEFAULT", tt)].
Proof. by vm_compute. Qed.

(** ** Reading and expanding a policy *)

Definition kMaxRawPolicyBytes : Z := 1024 * 1024.
Definition kMaxExpandedPolicyBytes : Z := 4 * 1024 * 1024.

(** What opening, measuring and reading the file gives. *)
Inductive TextFile :=
| CannotOpen
| NoLength
| Contents (length : Z) (data : string) (intact : bool).

Definition readTextFile (files : string -> TextFile) (path : string) : run string :=
  match files path with
  | CannotOpen => Fails ("cannot open ACF file '" +:+ path +:+ "'")
  | NoLength => Fails ("cannot determine ACF file size for '" +:+ path +:+ "'")
  | Contents length data intact =>
      if kMaxRawPolicyBytes <? length then Fails ("ACF file exceeds the 1 MiB limit: '" +:+ path +:+ "'")
      else if negb intact then Fails ("cannot read ACF file '" +:+ path +:+ "'")
      else if has_nul data then Fails ("ACF file contains a NUL byte: '" +:+ path +:+ "'")
      else Done data
  end.

(** macLib: whether a context can be created, and [macExpandString] into a
    buffer of a given size: its result and the bytes it wrote. *)
Class MacLib := {
  macCreateHandle : smap string -> bool;
  macExpandString : smap string -> string -> Z -> Z * string;
}.

(** The documented contract: an undefined macro gives a negative result; else
    the result is the number of bytes written, the expansion cut to what fits
    beside the terminator. *)
Class MacLaws `{MacLib} := {
  macExpansion : smap string -> string -> option string;
  macExpand_undefined macros input capacity :
    macExpansion macros input = None -> (macExpandString macros input capacity).1 < 0;
  macExpand_defined macros input capacity text :
    macExpansion macros input = Some text -> 0 < capacity ->
    macExpandString macros input capacity =
      (Z.min (strlen text) (capacity - 1), String.substring 0 (Z.to_nat (capacity - 1)) text);
}.

Section Policy.
Context `{MacLib}.

Fixpoint expandLoop (fuel : nat) (macros : smap string) (input : string) (capacity : Z) : run string :=
  match fuel with
  | O => OutOfFuel
  | S fuel =>
      if capacity <=? kMaxExpandedPolicyBytes + 1 then
        let '(result, output) := macExpandString macros input capacity in
        if result <? 0 then Fails "ACF contains an undefined macro"
        else if result + 1 <? capacity then Done (String.substring 0 (Z.to_nat result) output)
        else if capacity =? kMaxExpandedPolicyBytes + 1 then Fails "expanded ACF exceeds supported size"
        else expandLoop fuel macros input (Z.min (kMaxExpandedPolicyBytes + 1) (u64 (capacity * 2)))
      else Fails "expanded ACF exceeds supported size"
  end.

(** The buffer doubles from at least 4096 bytes, so a dozen rounds reach the
    limit. *)
Definition expandMacros (input : string) (macros : smap string) : run string :=
  if negb (macCreateHandle macros) then Fails "failed to create ACF macro context"
  else expandLoop 12 macros input
         (Z.min (kMaxExpandedPolicyBytes + 1) (Z.max (u64 (strlen input + 1024)) 4096)).

(** The FNV-1a hash and its sixteen hexadecimal digits. *)
Fixpoint fnv1a (hash : Z) (text : string) : Z :=
  match text with
  | EmptyString => hash
  | String c rest => fnv1a (u64 (Z.lxor hash (ascii_code c) * 1099511628211)) rest
  end.

Definition hex_char (z : Z) : ascii :=
  Ascii.ascii_of_N (Z.to_N (if z <? 10 then 48 + z else 87 + z)).

Fixpoint hex_digits (n : nat) (z : Z) : string :=
  match n with
  | O => EmptyString
  | S n => String (hex_char (z / 16 ^ Z.of_nat n mod 16)) (hex_digits n z)
  end.

Definition fingerprint (text : string) : string := hex_digits 16 (fnv1a 1469598103934665603 text).

Record PreparedPolicy := {
  pp_raw : string; pp_rawFingerprint : string; pp_expanded : string; pp_fingerprint : string; pp_groups : sset;
}.

Fixpoint requireAsgs (groups : sset) (requiredAsgs : list string) : run unit :=
  match requiredAsgs with
  | [] => Done tt
  | asg :: rest =>
      if negb (sm_has asg groups) then Fails ("ACF does not define required ASG '" +:+ asg +:+ "'")
      else requireAsgs groups rest
  end.

Definition preparePolicy (files : string -> TextFile) (config : AccessConfig) (requiredAsgs : sset)
    : run PreparedPolicy :=
  raw ← readTextFile files (ac_file config);
  expanded ← expandMacros raw (ac_macros config);
  groups ← inspectAcf expanded;
  _ ← requireAsgs groups (sm_keys requiredAsgs);
  Done {| pp_raw := raw; pp_rawFingerprint := fingerprint raw; pp_expanded := expanded;
          pp_fingerprint := fingerprint expanded; pp_groups := groups |}.
End Policy.

(** ** Clients *)

(** [s.find(c)] *)
Fixpoint find_char (c : ascii) (s : string) : option nat :=
  match s with
  | EmptyString => None
  | String d s' => if Ascii.eqb d c then Some O else S <$> find_char c s'
  end.

(** [s.rfind(c)] *)
Fixpoint rfind_char (c : ascii) (s : string) : option nat :=
  match s with
  | EmptyString => None
  | String d s' => match rfind_char c s' with
                   | Some n => Some (S n)
                   | None => if Ascii.eqb d c then Some O else None
                   end
  end.

Definition str_from (n : nat) (s : string) : string := String.substring n (String.length s - n) s.

Definition clientHost (peer : string) : string :=
  let host :=
    match peer with
    | String "[" _ =>
        match find_char "]" peer with
        | Some e => String.substring 1 (e - 1) peer
        | None => peer
        end
    | _ => match rfind_char ":" peer with
           | Some colon => if bool_decide (find_char ":" peer = Some colon)
                           then String.substring 0 colon peer else peer
           | None => peer
           end
    end in
  if String.prefix "::ffff:" host then str_from 7 host else host.

(** [method], [account] and [roles()] of the client's credentials. *)
Definition clientUsers (method account : string) (roles : list string) : list string :=
  (if String.eqb method "ca" then
     match rfind_char "/" account with
     | None => account
     | Some slash => str_from (slash + 1) account
     end
   else method +:+ "/" +:+ account) :: map (fun role => "role/" +:+ role) roles.

Example clientHost_v4 : clientHost "10.0.0.7:5075" = "10.0.0.7".
Proof. done. Qed.
Example clientHost_v6 : clientHost "[::ffff:10.0.0.7]:5075" = "10.0.0.7".
Proof. done. Qed.
Example clientHost_bare6 : clientHost "fe80::1" = "fe80::1".
Proof. done. Qed.
Example clientUsers_ca : clientUsers "ca" "host/alice" ["ops"] = ["alice"; "role/ops"].
Proof. done. Qed.
