(* ===== verification/AcfGrammar.v ===== *)
(** * The supported access-policy grammar

    A declarative grammar of the policies src/access_control.cpp supports, and
    the proof that the recursive-descent parser of Acf accepts exactly it: the
    policies of the grammar in which no group is defined twice and every
    referenced group is defined.  The parser always terminates: neither it nor
    the tokenizer runs out of the fuel they are given. *)

From Stdlib Require Import Ascii.
From S2P Require Import Prelude StrMap Config Acf.

Local Open Scope string_scope.
Local Open Scope list_scope.

(** ** The grammar *)

Definition punct (c : string) (t : Token) : Prop := tk_text t = c.
Definition keyword (k : string) (t : Token) : Prop := tk_quoted t = false /\ upper (tk_text t) = k.
Definition is_name (t : Token) : Prop :=
  tk_text t <> "" /\ (tk_quoted t = true \/ is_punct_text (tk_text t) = false).
Definition is_level (t : Token) : Prop := tk_quoted t = false /\ (tk_text t = "0" \/ tk_text t = "1").
Definition permission (t : Token) : Prop := is_permission (option_name t) = true.
Definition trap (t : Token) : Prop := is_trap (option_name t) = true.

(** , name , name ... *)
Inductive g_names : list Token -> list string -> Prop :=
| gn_nil : g_names [] []
| gn_more c n ts ns : punct "," c -> is_name n -> g_names ts ns -> g_names (c :: n :: ts) (tk_text n :: ns).

(** KEYWORD ( name , ... ) *)
Inductive g_call (k : string) : list Token -> list string -> Prop :=
| gc_intro kw lp n ts ns rp :
    keyword k kw -> punct "(" lp -> is_name n -> g_names ts ns -> punct ")" rp ->
    g_call k (kw :: lp :: n :: ts ++ [rp]) (tk_text n :: ns).

(** name , name ... *)
Inductive g_members : list Token -> Prop :=
| gm_last n : is_name n -> g_members [n]
| gm_more n c ts : is_name n -> punct "," c -> g_members ts -> g_members (n :: c :: ts).

(** { name , ... } *)
Inductive g_list : list Token -> Prop :=
| gl_empty lb rb : punct "{" lb -> punct "}" rb -> g_list [lb; rb]
| gl_some lb n ts rb :
    punct "{" lb -> ~ punct "}" n -> g_members (n :: ts) -> punct "}" rb -> g_list (lb :: n :: ts ++ [rb]).

(** [ , trap ] *)
Inductive g_option : list Token -> Prop :=
| go_none : g_option []
| go_trap c t : punct "," c -> is_name t -> trap t -> g_option [c; t].

(** RULE ( level , permission [ , trap ] ) *)
Inductive g_head : list Token -> Prop :=
| gh_intro kw lp level c p ts rp :
    keyword "RULE" kw -> punct "(" lp -> is_level level -> punct "," c -> permission p ->
    g_option ts -> punct ")" rp -> g_head (kw :: lp :: level :: c :: p :: ts ++ [rp]).

Definition references (k : string) (t : Token) (names : list string) : list Reference :=
  map (fun n => {| rf_kind := k; rf_name := n; rf_token := t |}) names.

(** conditions, with the groups they refer to *)
Inductive g_conditions : list Token -> list Reference -> Prop :=
| gd_nil : g_conditions [] []
| gd_more k t ts1 names ts2 rs :
    k = "UAG" \/ k = "HAG" -> g_call k (t :: ts1) names -> g_conditions ts2 rs ->
    g_conditions ((t :: ts1) ++ ts2) (references k t names ++ rs).

Inductive g_rule : list Token -> list Reference -> Prop :=
| gr_plain ts : g_head ts -> g_rule ts []
| gr_block ts lb cs rb rs :
    g_head ts -> punct "{" lb -> g_conditions cs rs -> punct "}" rb -> g_rule (ts ++ lb :: cs ++ [rb]) rs.

Inductive g_rules : list Token -> list Reference -> Prop :=
| gs_nil : g_rules [] []
| gs_more ts1 rs1 ts2 rs2 : g_rule ts1 rs1 -> g_rules ts2 rs2 -> g_rules (ts1 ++ ts2) (rs1 ++ rs2).

Inductive item :=
| Users (name : string)
| Hosts (name : string)
| Group (name : string) (refs : list Reference).

Inductive g_item : list Token -> item -> Prop :=
| gi_uag ts1 n ts2 : g_call "UAG" ts1 [n] -> g_list ts2 -> g_item (ts1 ++ ts2) (Users n)
| gi_hag ts1 n ts2 : g_call "HAG" ts1 [n] -> g_list ts2 -> g_item (ts1 ++ ts2) (Hosts n)
| gi_asg ts1 n lb ts2 rb rs : g_call "ASG" ts1 [n] -> punct "{" lb -> g_rules ts2 rs -> punct "}" rb ->
    g_item (ts1 ++ lb :: ts2 ++ [rb]) (Group n rs).

Inductive g_policy : list Token -> list item -> Prop :=
| gp_nil : g_policy [] []
| gp_cons ts1 i ts2 l : g_item ts1 i -> g_policy ts2 l -> g_policy (ts1 ++ ts2) (i :: l).

Definition users (l : list item) : list string := omap (fun i => match i with Users n => Some n | _ => None end) l.
Definition hosts (l : list item) : list string := omap (fun i => match i with Hosts n => Some n | _ => None end) l.
Definition groups (l : list item) : list string := omap (fun i => match i with Group n _ => Some n | _ => None end) l.
Definition item_refs (i : item) : list Reference := match i with Group _ rs => rs | _ => [] end.

Definition defines (l : list item) (r : Reference) : Prop :=
  rf_name r ∈ (if String.eqb (rf_kind r) "UAG" then users l else hosts l).

Record policy_ok (l : list item) : Prop := {
  po_users : NoDup (users l);
  po_hosts : NoDup (hosts l);
  po_groups : NoDup (groups l);
  po_references : Forall (defines l) (concat (map item_refs l));
}.

(** ** Primitives *)

Abbreviation P := Build_parser.

Lemma run_bind_done {A B} (m : run A) (f : A -> run B) b :
  m ≫= f = Done b <-> exists a, m = Done a /\ f a = Done b.
Proof. destruct m; cbn; naive_solver. Qed.

Lemma par_bind_done {A B} (m : par A) (f : A -> par B) s b s' :
  (m ≫= f) s = Done (b, s') <-> exists a s1, m s = Done (a, s1) /\ f a s1 = Done (b, s').
Proof.
  unfold mbind at 1, par_bind. rewrite run_bind_done. split.
  - intros ([a s1] & ? & ?). eauto.
  - intros (a & s1 & ? & ?). by exists (a, s1).
Qed.

(** [eats ts rs s s']: from [s] to [s'] exactly the tokens [ts] are consumed and
    the references [rs] recorded. *)
Record eats (ts : list Token) (rs : list Reference) (s s' : parser) : Prop := {
  et_rest : ps_rest s = ts ++ ps_rest s';
  et_before : ps_before s' = rev ts ++ ps_before s;
  et_uags : ps_uags s' = ps_uags s;
  et_hags : ps_hags s' = ps_hags s;
  et_references : ps_references s' = ps_references s ++ rs;
}.

Lemma eats_nil s s' : eats [] [] s s' <-> s' = s.
Proof.
  split; [|intros ->; split; try done; by rewrite app_nil_r].
  intros [H1 H2 H3 H4 H5]. rewrite app_nil_r in H5. destruct s, s'; cbn in *. congruence.
Qed.

Lemma eats_app ts1 rs1 s s1 ts2 rs2 s2 :
  eats ts1 rs1 s s1 -> eats ts2 rs2 s1 s2 -> eats (ts1 ++ ts2) (rs1 ++ rs2) s s2.
Proof.
  intros [A1 A2 A3 A4 A5] [B1 B2 B3 B4 B5]. split.
  - by rewrite A1, B1, app_assoc.
  - by rewrite B2, A2, rev_app_distr, app_assoc.
  - congruence.
  - congruence.
  - by rewrite B5, A5, app_assoc.
Qed.

(** The state in between. *)
Lemma eats_split ts1 ts2 rs2 s s2 :
  eats (ts1 ++ ts2) rs2 s s2 -> exists s1, eats ts1 [] s s1 /\ eats ts2 rs2 s1 s2.
Proof.
  intros [B1 B2 B3 B4 B5].
  exists (P (rev ts1 ++ ps_before s) (ts2 ++ ps_rest s2) (ps_uags s) (ps_hags s) (ps_references s)).
  split; split; cbn; try done.
  - by rewrite B1, app_assoc.
  - by rewrite app_nil_r.
  - by rewrite B2, rev_app_distr, app_assoc.
Qed.

Lemma eats_split_refs ts rs1 rs2 s s2 :
  eats ts (rs1 ++ rs2) s s2 -> exists s1, eats [] rs1 s s1 /\ eats ts rs2 s1 s2.
Proof.
  intros [B1 B2 B3 B4 B5].
  exists (P (ps_before s) (ps_rest s) (ps_uags s) (ps_hags s) (ps_references s ++ rs1)).
  split; split; cbn; try done. by rewrite B5, app_assoc.
Qed.

Lemma eats_split_app ts1 rs1 ts2 rs2 s s2 :
  eats (ts1 ++ ts2) (rs1 ++ rs2) s s2 -> exists s1, eats ts1 rs1 s s1 /\ eats ts2 rs2 s1 s2.
Proof.
  intros [B1 B2 B3 B4 B5].
  exists (P (rev ts1 ++ ps_before s) (ts2 ++ ps_rest s2) (ps_uags s) (ps_hags s) (ps_references s ++ rs1)).
  split; split; cbn; try done.
  - by rewrite B1, app_assoc.
  - by rewrite B2, rev_app_distr, app_assoc.
  - by rewrite B5, app_assoc.
Qed.

Lemma eats_length ts rs s s' : eats ts rs s s' -> length (ps_rest s) = (length ts + length (ps_rest s'))%nat.
Proof. intros [-> _ _ _ _]. by rewrite length_app. Qed.

(** ** Primitives *)

(** Unfolds the monad and its primitive actions on a known state. *)
Ltac par_red :=
  cbv beta iota zeta delta [mbind par_bind run_bind mret par_ret peek advance take name expect error_if acfError
    at_end last_token rejectDeferred ps_before ps_rest ps_uags ps_hags ps_references field_update].

Lemma peek_done s t s' : peek s = Done (t, s') <-> s' = s /\ exists r, ps_rest s = t :: r.
Proof. destruct s as [b [|x r] u h f]; cbn; naive_solver. Qed.

Lemma take_done s t s' : take s = Done (t, s') <-> eats [t] [] s s'.
Proof.
  destruct s as [b [|x r] u h f]; [split; [done|by intros [? _ _ _ _]]|].
  change (take (P b (x :: r) u h f)) with (Done (x, P (x :: b) r u h f)). split.
  - intros [= <- <-]. split; cbn; try done. by rewrite app_nil_r.
  - intros [E1 E2 E3 E4 E5]. cbn in *. rewrite app_nil_r in E5. destruct s'; cbn in *. simplify_eq. done.
Qed.

Lemma advance_done s x s' : advance s = Done (x, s') <-> exists t, eats [t] [] s s'.
Proof.
  setoid_rewrite <-take_done. destruct x, s as [b [|x r] u h f]; [split; [done|by intros (? & ?)]|].
  change (advance (P b (x :: r) u h f)) with (Done (tt, P (x :: b) r u h f)).
  setoid_rewrite (eq_refl : take (P b (x :: r) u h f) = Done (x, P (x :: b) r u h f)).
  split; [intros [= <-]; by exists x|by intros (t & [= _ <-])].
Qed.

Lemma error_if_done b t m s x s' : error_if b t m s = Done (x, s') <-> b = false /\ s' = s.
Proof.
  destruct b, x; unfold error_if, acfError, mret, par_ret.
  - split; [intros Hx; discriminate Hx|intros [Hx _]; discriminate Hx].
  - split; [by intros [= <-]|by intros [_ ->]].
Qed.

Lemma mret_done {A} (a : A) s a' s' : (mret a : par A) s = Done (a', s') <-> a' = a /\ s' = s.
Proof. cbn. split; [by intros [= <- <-]|by intros [-> ->]]. Qed.

Lemma expect_done c s x s' : expect c s = Done (x, s') <-> exists t, punct c t /\ eats [t] [] s s'.
Proof.
  unfold expect. rewrite par_bind_done. setoid_rewrite peek_done. setoid_rewrite par_bind_done.
  setoid_rewrite error_if_done. setoid_rewrite advance_done. split.
  - intros (t & s1 & [-> (r & Hr)] & [] & s2 & [He ->] & t' & Ht). exists t'. split; [|done].
    apply negb_false_iff, String.eqb_eq in He. destruct Ht as [Ht _ _ _ _]. cbn in Ht. unfold punct. congruence.
  - intros (t & Ht & He). exists t, s. split; [split; [done|]; destruct He as [He _ _ _ _]; eauto|].
    exists tt, s. split; [|eauto]. split; [|done]. rewrite Ht. by rewrite String.eqb_refl.
Qed.

Lemma name_done s t s' : name s = Done (t, s') <-> is_name t /\ eats [t] [] s s'.
Proof.
  assert (str_empty (tk_text t) || (negb (tk_quoted t) && is_punct_text (tk_text t)) = false <-> is_name t) as Hn.
  { unfold is_name. destruct (tk_text t) as [|c x], (tk_quoted t); cbn -[is_punct_text]; naive_solver. }
  unfold name. rewrite par_bind_done. setoid_rewrite take_done. setoid_rewrite par_bind_done.
  setoid_rewrite error_if_done. setoid_rewrite mret_done. split.
  - intros (t1 & s1 & He & [] & s2 & [Hb ->] & -> & ->). by rewrite <-Hn.
  - intros [Ht He]. exists t, s'. split; [done|]. exists tt, s'. by rewrite Hn.
Qed.

Lemma rejectDeferred_done t s x s' :
  rejectDeferred t s = Done (x, s') <-> (tk_quoted t = true \/ deferred_keyword (upper (tk_text t)) = false) /\ s' = s.
Proof.
  unfold rejectDeferred. destruct (tk_quoted t), x; rewrite ?mret_done, ?error_if_done; naive_solver.
Qed.

Definition keywords : list string := ["UAG"; "HAG"; "ASG"; "RULE"].

Lemma keyword_not_deferred k t : keyword k t -> k ∈ keywords -> deferred_keyword (upper (tk_text t)) = false.
Proof. intros [_ ->] Hk. repeat (apply elem_of_cons in Hk as [->|Hk]; [done|]). by apply elem_of_nil in Hk. Qed.

Lemma eats_head t ts rs s s' : eats (t :: ts) rs s s' -> ps_rest s = t :: (ts ++ ps_rest s').
Proof. by intros [? _ _ _ _]. Qed.

Lemma eats_cons t ts rs s s' : eats (t :: ts) rs s s' -> exists s1, eats [t] [] s s1 /\ eats ts rs s1 s'.
Proof. apply (eats_split [t]). Qed.

Lemma eats_cons_2 t ts rs s s1 s' : eats [t] [] s s1 -> eats ts rs s1 s' -> eats (t :: ts) rs s s'.
Proof. apply (eats_app [t] []). Qed.

Lemma eats_app_2 ts1 ts2 rs s s1 s' : eats ts1 [] s s1 -> eats ts2 rs s1 s' -> eats (ts1 ++ ts2) rs s s'.
Proof. apply (eats_app ts1 []). Qed.

Lemma eats_same_head t t' ts ts' rs rs' s s1 s2 : eats (t :: ts) rs s s1 -> eats (t' :: ts') rs' s s2 -> t = t'.
Proof. intros H1%eats_head H2%eats_head. congruence. Qed.

(** Inverts a run of the parser into the runs of its actions. *)
Ltac par_step :=
  match goal with
  | H : mbind _ _ _ = Done _ |- _ =>
      let x := fresh "x" in let s := fresh "s" in let E := fresh "E" in
      apply par_bind_done in H as (x & s & E & H)
  | H : peek _ = Done _ |- _ => apply peek_done in H as [-> (? & H)]
  | H : take _ = Done _ |- _ => apply take_done in H
  | H : name _ = Done _ |- _ => apply name_done in H as [? H]
  | H : expect _ _ = Done _ |- _ => apply expect_done in H as (? & ? & H)
  | H : error_if _ _ _ _ = Done _ |- _ => apply error_if_done in H as [H ->]
  | H : mret _ _ = Done _ |- _ => apply mret_done in H as [H ->]; try subst
  | H : rejectDeferred _ _ = Done _ |- _ => apply rejectDeferred_done in H as [H ->]
  end.

(** Runs one action in the goal. *)
Lemma do_peek {B} (k : Token -> par B) s t r b s' :
  ps_rest s = t :: r -> k t s = Done (b, s') -> (peek ≫= k) s = Done (b, s').
Proof. intros Hr Hk. apply par_bind_done. exists t, s. split; [apply peek_done; eauto|done]. Qed.

Lemma do_take {B} (k : Token -> par B) s t s1 b s' :
  eats [t] [] s s1 -> k t s1 = Done (b, s') -> (take ≫= k) s = Done (b, s').
Proof. intros Ht Hk. apply par_bind_done. exists t, s1. by rewrite take_done. Qed.

Lemma do_name {B} (k : Token -> par B) s t s1 b s' :
  is_name t -> eats [t] [] s s1 -> k t s1 = Done (b, s') -> (name ≫= k) s = Done (b, s').
Proof. intros Hn Ht Hk. apply par_bind_done. exists t, s1. by rewrite name_done. Qed.

Lemma do_expect {B} c (k : unit -> par B) s t s1 b s' :
  punct c t -> eats [t] [] s s1 -> k tt s1 = Done (b, s') -> (expect c ≫= k) s = Done (b, s').
Proof. intros Hn Ht Hk. apply par_bind_done. exists tt, s1. rewrite expect_done. eauto. Qed.

Lemma do_error {B} c t m (k : unit -> par B) s b s' :
  c = false -> k tt s = Done (b, s') -> (error_if c t m ≫= k) s = Done (b, s').
Proof. intros Hn Hk. apply par_bind_done. exists tt, s. by rewrite error_if_done. Qed.

Lemma do_reject {B} t (k : unit -> par B) s b s' :
  tk_quoted t = true \/ deferred_keyword (upper (tk_text t)) = false ->
  k tt s = Done (b, s') -> (rejectDeferred t ≫= k) s = Done (b, s').
Proof. intros Hn Hk. apply par_bind_done. exists tt, s. by rewrite rejectDeferred_done. Qed.

Lemma do_call {A B} (m : par A) (k : A -> par B) s a s1 b s' :
  m s = Done (a, s1) -> k a s1 = Done (b, s') -> (m ≫= k) s = Done (b, s').
Proof. intros. apply par_bind_done. eauto. Qed.

(** ** Names *)

(** The next token is there and is not [c]. *)
Definition next_not (c : string) (s : parser) : Prop := exists t r, ps_rest s = t :: r /\ tk_text t <> c.

Lemma namesLoop_iff n : forall s ns s', (length (ps_rest s) < n)%nat ->
  namesLoop n s = Done (ns, s') <-> exists ts, eats ts [] s s' /\ g_names ts ns /\ next_not "," s'.
Proof.
  induction n as [|n IH]; intros s ns s' Hn; [lia|]. cbn [namesLoop]. split.
  - intros Hr. par_step. par_step. rename E into Hs. destruct (String.eqb_spec (tk_text x) ",") as [Hx|Hx].
    + repeat par_step. pose proof (eats_length _ _ _ _ E) as L1. pose proof (eats_length _ _ _ _ E0) as L2. cbn in L1, L2.
      apply IH in E1 as (ts & Hts & G & Hlast); [|lia]. exists (x1 :: x2 :: ts). split_and!; [|constructor; try done|done].
      * eapply eats_cons_2; [exact E|]. by eapply eats_cons_2.
      * apply eats_head in E. unfold punct. congruence.
    + par_step. exists []. split_and!; [by apply eats_nil|constructor|by exists x, x0].
  - intros (ts & He & G & Hlast). inversion G as [|c x ts' ns' Hc Hx G']; subst.
    + apply eats_nil in He as ->. destruct Hlast as (t & r & Hr & Ht). eapply do_peek; [done|].
      destruct (String.eqb_spec (tk_text t) ","); [done|]. by apply mret_done.
    + apply eats_cons in He as (s1 & H1 & (s2 & H2 & H3)%eats_cons).
      eapply do_peek; [by apply (eats_head _ _ _ _ _ H1)|]. rewrite Hc, String.eqb_refl.
      eapply do_take; [done|]. eapply do_name; [done..|]. eapply do_call; [|by apply mret_done].
      pose proof (eats_length _ _ _ _ H1) as L1. pose proof (eats_length _ _ _ _ H2) as L2. cbn in L1, L2.
      apply IH; [lia|]. eauto.
Qed.

Section Parsers.
Context (fuel : nat).

Lemma callNames_iff k s ns s' : k ∈ keywords -> (length (ps_rest s) < fuel)%nat ->
  callNames fuel k s = Done (ns, s') <-> exists ts, eats ts [] s s' /\ g_call k ts ns.
Proof.
  intros Hk Hn. unfold callNames. split.
  - intros Hr. repeat par_step. pose proof (eats_length _ _ _ _ E) as L1. pose proof (eats_length _ _ _ _ E2) as L2.
    pose proof (eats_length _ _ _ _ E3) as L3. cbn in L1, L2, L3.
    apply namesLoop_iff in E4 as (ts & Hts & G & _); [|lia].
    eexists (_ :: _ :: _ :: _ ++ [_]). bool_split. split.
    + eapply eats_cons_2; [exact E|]. eapply eats_cons_2; [exact E2|].
      eapply eats_cons_2; [exact E3|]. eapply eats_app_2; [exact Hts|exact E5].
    + constructor; try done. split; [done|]. by apply String.eqb_eq.
  - intros (ts & He & G). inversion G as [kw lp n ts' ns' rp Hkw Hlp Hname Gn Hrp]; subst.
    apply eats_cons in He as (s1 & H1 & (s2 & H2 & (s3 & H3 & (s4 & H4 & H5)%eats_split)%eats_cons)%eats_cons).
    pose proof (eats_length _ _ _ _ H1) as L1. pose proof (eats_length _ _ _ _ H2) as L2.
    pose proof (eats_length _ _ _ _ H3) as L3. cbn in L1, L2, L3.
    eapply do_take; [done|]. eapply do_reject; [right; by eapply keyword_not_deferred|].
    destruct Hkw as [Hq Hu]. eapply do_error; [by rewrite Hq, Hu, String.eqb_refl|].
    eapply do_expect; [done..|]. eapply do_name; [done..|]. eapply do_call.
    { apply namesLoop_iff; [lia|]. exists ts'. split_and!; [done..|].
      apply eats_head in H5. exists rp, (ps_rest s'). split; [done|]. by rewrite Hrp. }
    eapply do_expect; [done..|]. by apply mret_done.
Qed.

Lemma definitionName_iff k s n s' : k ∈ keywords -> (length (ps_rest s) < fuel)%nat ->
  definitionName fuel k s = Done (n, s') <-> exists ts, eats ts [] s s' /\ g_call k ts [n].
Proof.
  intros Hk Hn. unfold definitionName. rewrite par_bind_done. setoid_rewrite callNames_iff; [|done..]. split.
  - intros (ns & s1 & (ts & He & G) & Hr). destruct ns as [|x [|? ?]].
    + inversion G.
    + apply mret_done in Hr as [-> ->]. eauto.
    + exfalso. apply par_bind_done in Hr as (? & ? & _ & ?). done.
  - intros (ts & He & G). exists [n], s'. split; [eauto|]. by apply mret_done.
Qed.

Lemma membersLoop_iff n : forall s x s', (length (ps_rest s) < n)%nat ->
  membersLoop n s = Done (x, s') <->
  exists ts, eats ts [] s s' /\ g_members ts /\ exists t r, ps_rest s' = t :: r /\ punct "}" t.
Proof.
  induction n as [|n IH]; intros s x s' Hn; [lia|]. cbn [membersLoop]. destruct x. split.
  - intros Hr. repeat par_step. pose proof (eats_length _ _ _ _ E) as L1. cbn in L1.
    destruct (String.eqb_spec (tk_text x0) "}") as [Hx|Hx]; repeat par_step.
    + eexists. split_and!; [exact E|by constructor|eauto].
    + pose proof (eats_length _ _ _ _ E1) as L2. cbn in L2.
      apply IH in Hr as (ts & Hts & G & Hlast); [|lia]. eexists (_ :: _ :: _). split_and!; [|by constructor|done].
      eapply eats_cons_2; [exact E|]. eapply eats_cons_2; [exact E1|exact Hts].
  - intros (ts & He & G & t & r & Hr & Ht). inversion G as [m Hm|m c ts' Hm Hc G']; subst.
    + eapply do_name; [done..|]. eapply do_peek; [done|]. rewrite Ht. by apply mret_done.
    + apply eats_cons in He as (s1 & H1 & (s2 & H2 & H3)%eats_cons).
      pose proof (eats_length _ _ _ _ H1) as L1. pose proof (eats_length _ _ _ _ H2) as L2. cbn in L1, L2.
      eapply do_name; [done..|]. eapply do_peek; [by apply (eats_head _ _ _ _ _ H2)|]. rewrite Hc. cbn [String.eqb].
      eapply do_expect; [done..|]. apply IH; [lia|]. exists ts'. split_and!; [done..|eauto].
Qed.

Lemma parseMembers_iff s x s' : (length (ps_rest s) < fuel)%nat ->
  parseMembers fuel s = Done (x, s') <-> exists ts, eats ts [] s s' /\ g_list ts.
Proof.
  intros Hn. unfold parseMembers. destruct x. split.
  - intros Hr. repeat par_step. pose proof (eats_length _ _ _ _ E) as L1. cbn in L1.
    destruct (String.eqb_spec (tk_text x0) "}") as [Hx|Hx]; cbn [negb] in E1; repeat par_step.
    + eexists [_; _]. split; [eapply eats_cons_2; [exact E|exact Hr]|]. by constructor.
    + apply membersLoop_iff in E1 as (ts & Hts & G & _); [|lia].
      destruct ts as [|m ts]; [inversion G|].
      eexists (_ :: _ :: _ ++ [_]). split.
      * eapply eats_cons_2; [exact E|]. eapply (eats_app_2 (m :: ts)); [exact Hts|exact Hr].
      * constructor; try done. apply eats_head in Hts. unfold punct. congruence.
  - intros (ts & He & G). inversion G as [lb rb Hlb Hrb|lb m ts' rb Hlb Hm G' Hrb]; subst.
    + apply eats_cons in He as (s1 & H1 & H2). eapply do_expect; [done..|].
      eapply do_peek; [by apply (eats_head _ _ _ _ _ H2)|]. rewrite Hrb. cbn [String.eqb Ascii.eqb Bool.eqb negb].
      eapply (do_call _ _ _ tt); [by apply mret_done|]. apply expect_done. eauto.
    + apply eats_cons in He as (s1 & H1 & (s2 & H2 & H3)%(eats_split (m :: ts'))).
      pose proof (eats_length _ _ _ _ H1) as L1. cbn in L1. eapply do_expect; [done..|].
      eapply do_peek; [by apply (eats_head _ _ _ _ _ H2)|].
      destruct (String.eqb_spec (tk_text m) "}"); [done|]. cbn [negb]. eapply (do_call _ _ _ tt).
      { apply membersLoop_iff; [lia|]. exists (m :: ts'). split_and!; [done..|].
        apply eats_head in H3. eauto. }
      apply expect_done. eauto.
Qed.

(** ** Rules *)

Lemma parseOption_iff s x s' :
  (parseOption ≫= fun _ => expect ")") s = Done (x, s') <->
  exists ts rp, eats (ts ++ [rp]) [] s s' /\ g_option ts /\ punct ")" rp.
Proof.
  destruct x. split.
  - intros Hr. par_step. unfold parseOption in E. par_step. par_step.
    destruct (String.eqb_spec (tk_text x0) ",") as [Hx|Hx]; repeat par_step.
    + assert (x2 = x0) as -> by (apply eats_head in E1; congruence). bool_split.
      eexists [_; _], _. split_and!; [|by constructor|done].
      eapply (eats_cons_2 _ [_; _]); [exact E1|]. eapply eats_cons_2; [exact E2|exact Hr].
    + eexists [], _. split_and!; [exact Hr|constructor|done].
  - intros (ts & rp & He & G & Hrp). apply eats_split in He as (s1 & He & Hr).
    eapply (do_call _ _ _ tt); [|apply expect_done; eauto]. unfold parseOption.
    inversion G as [|c t Hc Ht Htrap]; subst.
    + apply eats_nil in He as ->. eapply do_peek; [by apply (eats_head _ _ _ _ _ Hr)|]. rewrite Hrp. by apply mret_done.
    + apply eats_cons in He as (s2 & H1 & H2). eapply do_peek; [by apply (eats_head _ _ _ _ _ H1)|].
      rewrite Hc. cbn [String.eqb Ascii.eqb Bool.eqb]. eapply do_take; [done|]. eapply do_name; [done..|].
      apply error_if_done. split; [|done]. unfold trap in Htrap. by rewrite Htrap.
Qed.

Lemma parseRuleHead_iff s x s' : parseRuleHead s = Done (x, s') <-> exists ts, eats ts [] s s' /\ g_head ts.
Proof.
  unfold parseRuleHead. destruct x. split.
  - intros Hr.
    apply par_bind_done in Hr as (kw & s1 & E1%take_done & Hr).
    apply par_bind_done in Hr as (? & ? & [_ ->]%rejectDeferred_done & Hr).
    apply par_bind_done in Hr as (? & ? & [Hkw ->]%error_if_done & Hr).
    apply par_bind_done in Hr as (? & s2 & (lp & Hlp & E2)%expect_done & Hr).
    apply par_bind_done in Hr as (level & s3 & [_ E3]%name_done & Hr).
    apply par_bind_done in Hr as (? & ? & [Hlev ->]%error_if_done & Hr).
    apply par_bind_done in Hr as (? & s4 & (c & Hc & E4)%expect_done & Hr).
    apply par_bind_done in Hr as (perm & s5 & [_ E5]%name_done & Hr).
    apply par_bind_done in Hr as (? & ? & [Hperm ->]%error_if_done & Hr).
    apply parseOption_iff in Hr as (ts & rp & E6 & G & Hrp).
    exists (kw :: lp :: level :: c :: perm :: ts ++ [rp]). split.
    + eapply eats_cons_2; [exact E1|]. eapply eats_cons_2; [exact E2|]. eapply eats_cons_2; [exact E3|].
      eapply eats_cons_2; [exact E4|]. by eapply eats_cons_2; [exact E5|].
    + bool_split. constructor; try done.
      * split; [done|by apply String.eqb_eq].
      * split; [done|]. match goal with H : _ && _ = false |- _ => apply andb_false_iff in H as [Hx|Hx] end;
          bool_split; apply String.eqb_eq in Hx; auto.
  - intros (ts & He & G). inversion G as [kw lp level c perm ts' rp Hkw Hlp Hlevel Hc Hperm Go Hrp]; subst.
    apply eats_cons in He as (s1 & E1 & (s2 & E2 & (s3 & E3 & (s4 & E4 & (s5 & E5 & E6)%eats_cons)%eats_cons)%eats_cons)%eats_cons).
    assert (is_name level) as Hnl by (destruct Hlevel as [_ [Hx|Hx]]; split; rewrite Hx; auto).
    assert (is_name perm) as Hnp.
    { unfold permission, option_name in Hperm. destruct (tk_quoted perm) eqn:Hq; [done|]. split.
      - intros Hx. by rewrite Hx in Hperm.
      - right. destruct (is_punct_text (tk_text perm)) eqn:Hp; [|done]. unfold is_punct_text in Hp.
        repeat (apply orb_true_iff in Hp as [Hp|Hp]); apply String.eqb_eq in Hp; by rewrite Hp in Hperm. }
    eapply do_take; [done|].
    eapply do_reject; [right; eapply (keyword_not_deferred "RULE"); [done|by apply (bool_decide_unpack _)]|].
    destruct Hkw as [Hq Hu]. eapply do_error; [by rewrite Hq, Hu|]. eapply do_expect; [done..|].
    eapply (do_name _ _ level); [done..|]. destruct Hlevel as [Hlq Hlt].
    eapply do_error; [rewrite Hlq; by destruct Hlt as [-> | ->]|]. eapply do_expect; [done..|].
    eapply (do_name _ _ perm); [done..|]. eapply do_error; [unfold permission in Hperm; by rewrite Hperm|].
    apply parseOption_iff. eauto.
Qed.

Lemma conditionsLoop_iff n : forall s x s', (length (ps_rest s) < n)%nat -> (n <= fuel)%nat ->
  conditionsLoop fuel n s = Done (x, s') <->
  exists ts rs, eats ts rs s s' /\ g_conditions ts rs /\ exists t r, ps_rest s' = t :: r /\ punct "}" t.
Proof.
  assert (forall k names t s x s1, refer k names t s = Done (x, s1) <-> eats [] (references k t names) s s1) as Hrefer.
  { intros k names t [b r u h f] [] [b1 r1 u1 h1 f1]. unfold refer. cbn. split.
    - intros [= <- <- <- <- <-]. by split.
    - intros [E1 E2 E3 E4 E5]. cbn in *. by subst. }
  induction n as [|n IH]; intros s x s' Hn Hf; [lia|]. cbn [conditionsLoop]. destruct x. split.
  - intros Hr. par_step. par_step. destruct (String.eqb_spec (tk_text x) "}") as [Hx|Hx].
    { par_step. exists [], []. split_and!; [by apply eats_nil|constructor|eauto]. }
    repeat par_step. cbv zeta in Hr. repeat par_step. apply andb_false_iff in E1.
    assert (upper (tk_text x) = "UAG" \/ upper (tk_text x) = "HAG") as Hk
      by (destruct E1 as [E1|E1]; bool_split; apply String.eqb_eq in E1; auto).
    apply callNames_iff in E2 as (ts1 & He1 & G1); [|destruct Hk as [-> | ->]; by apply (bool_decide_unpack _)|lia].
    apply Hrefer in E3. pose proof (eats_length _ _ _ _ He1) as L1. pose proof (eats_length _ _ _ _ E3) as L2.
    destruct ts1 as [|t1 ts1]; [inversion G1|]. assert (t1 = x) as ->.
    { apply eats_head in He1. congruence. }
    cbn in L1, L2. apply IH in Hr as (ts2 & rs2 & He2 & G2 & Hlast); [|lia..].
    eexists (_ ++ _), (_ ++ _). split_and!; [|by constructor|done].
    eapply (eats_app _ [] _ _ _ (_ ++ _)); [exact He1|]. by apply (eats_app [] _ _ _ _ _ _ E3).
  - intros (ts & rs & He & G & t & r & Hr & Ht). inversion G as [|k t1 ts1 names ts2 rs2 Hk G1 G2]; subst.
    + apply eats_nil in He as ->. eapply do_peek; [done|]. rewrite Ht. by apply mret_done.
    + apply eats_split in He as (s1 & H1 & H2).
      pose proof (eats_length _ _ _ _ H1) as L1. cbn in L1.
      assert (keyword k t1) as [Hq Hu] by by inversion G1.
      eapply do_peek; [by apply (eats_head _ _ _ _ _ H1)|].
      destruct (String.eqb_spec (tk_text t1) "}") as [Hx|_].
      { exfalso. rewrite Hx in Hu. cbn in Hu. destruct Hk; congruence. }
      assert (k ∈ keywords) as Hin by (destruct Hk as [-> | ->]; by apply (bool_decide_unpack _)).
      eapply do_reject; [right; eapply (keyword_not_deferred k); [by split|done]|]. cbv zeta. rewrite Hu.
      eapply do_error; [by destruct Hk as [-> | ->]|].
      eapply do_call; [apply callNames_iff; [done|lia|eauto]|].
      apply eats_split_refs in H2 as (s2 & H2 & H3). pose proof (eats_length _ _ _ _ H2) as L2. cbn in L2.
      eapply (do_call _ _ _ tt); [by apply Hrefer|]. apply IH; [lia..|].
      exists ts2, rs2. split_and!; [done..|eauto].
Qed.

Lemma g_head_start ts rs : g_rule ts rs -> exists t ts', ts = t :: ts' /\ keyword "RULE" t.
Proof. inversion 1 as [? Hh|? ? ? ? ? Hh]; subst; inversion Hh; subst; eauto. Qed.

Lemma parseRule_sound s x s' : (length (ps_rest s) < fuel)%nat ->
  parseRule fuel s = Done (x, s') -> exists ts rs, eats ts rs s s' /\ g_rule ts rs.
Proof.
    intros Hn. unfold parseRule. destruct x. intros Hr. apply par_bind_done in Hr as (? & s1 & (ts & He & G)%parseRuleHead_iff & Hr).
    apply par_bind_done in Hr as (ended & s2 & Hat & Hr). unfold at_end in Hat. injection Hat as <- <-.
    pose proof (eats_length _ _ _ _ He) as L1.
    destruct (bool_decide (ps_rest s1 = [])); [par_step; exists ts, []; split; [done|by constructor]|].
    par_step. par_step. destruct (String.eqb_spec (tk_text x0) "{") as [Hx|Hx]; cbn [negb] in Hr.
    + repeat par_step. pose proof (eats_length _ _ _ _ E0) as L2. cbn in L2.
      apply conditionsLoop_iff in E1 as (cs & rs & Hcs & Gc & _); [|lia..].
      assert (x2 = x0) as -> by (apply eats_head in E0; congruence).
      eexists (_ ++ _ :: _ ++ [_]), rs. split; [|by constructor].
      eapply eats_app_2; [exact He|]. eapply eats_cons_2; [exact E0|].
      rewrite <-(app_nil_r rs). eapply eats_app; [exact Hcs|exact Hr].
    + par_step. exists ts, []. split; [done|by constructor].
Qed.

(** A rule ends where no block of conditions starts. *)
Lemma parseRule_complete s s' ts rs : (length (ps_rest s) < fuel)%nat -> ps_rest s' = [] \/ next_not "{" s' ->
  eats ts rs s s' -> g_rule ts rs -> parseRule fuel s = Done (tt, s').
Proof.
    intros Hn Hend He G. unfold parseRule. inversion G as [? Gh|ts1 lb cs rb ? Gh Hlb Gc Hrb]; subst.
    + eapply (do_call _ _ _ tt); [apply parseRuleHead_iff; eauto|].
      eapply do_call; [unfold at_end; reflexivity|].
      destruct Hend as [-> | (t & r & Hr & Ht)]; [by apply mret_done|]. rewrite Hr. cbn [bool_decide].
      rewrite bool_decide_eq_false_2 by done. eapply do_peek; [done|].
      destruct (String.eqb_spec (tk_text t) "{"); [done|]. by apply mret_done.
    + apply eats_split in He as (s1 & H1 & (s2 & H2 & H3)%eats_cons).
      pose proof (eats_length _ _ _ _ H1) as L1. pose proof (eats_length _ _ _ _ H2) as L2. cbn in L2.
      eapply (do_call _ _ _ tt); [apply parseRuleHead_iff; eauto|].
      eapply do_call; [unfold at_end; reflexivity|]. pose proof (eats_head _ _ _ _ _ H2) as Hr2.
      rewrite Hr2, bool_decide_eq_false_2 by done. eapply do_peek; [done|]. rewrite Hlb. cbn [String.eqb Ascii.eqb Bool.eqb negb].
      eapply do_take; [done|]. rewrite <-(app_nil_r rs) in H3.
      apply eats_split_app in H3 as (s3 & H4 & H5).
      eapply (do_call _ _ _ tt); [apply conditionsLoop_iff; [lia..|]|apply expect_done; eauto].
      exists cs, rs. split_and!; [done..|]. apply eats_head in H5. eauto.
Qed.

Lemma rulesLoop_iff n : forall s x s', (length (ps_rest s) < n)%nat -> (n <= fuel)%nat ->
  rulesLoop fuel n s = Done (x, s') <->
  exists ts rs, eats ts rs s s' /\ g_rules ts rs /\ exists t r, ps_rest s' = t :: r /\ punct "}" t.
Proof.
  induction n as [|n IH]; intros s x s' Hn Hf; [lia|]. cbn [rulesLoop]. destruct x. split.
  - intros Hr. par_step. par_step. destruct (String.eqb_spec (tk_text x) "}") as [Hx|Hx].
    { par_step. exists [], []. split_and!; [by apply eats_nil|constructor|eauto]. }
    par_step. apply parseRule_sound in E0 as (ts1 & rs1 & He1 & G1); [|lia].
    pose proof (eats_length _ _ _ _ He1) as L1. pose proof (g_head_start _ _ G1) as (t1 & ts1' & -> & _). cbn in L1.
    apply IH in Hr as (ts2 & rs2 & He2 & G2 & Hlast); [|lia..]. exists ((t1 :: ts1') ++ ts2), (rs1 ++ rs2).
    split_and!; [by eapply eats_app|by constructor|done].
  - intros (ts & rs & He & G & t & r & Hr & Ht). inversion G as [|ts1 rs1 ts2 rs2 G1 G2]; subst.
    + apply eats_nil in He as ->. eapply do_peek; [done|]. rewrite Ht. by apply mret_done.
    + assert (exists s1, eats ts1 rs1 s s1 /\ eats ts2 rs2 s1 s') as (s1 & H1 & H2) by (by apply eats_split_app).
      pose proof (g_head_start _ _ G1) as (t1 & ts1' & -> & Hq & Hu).
      pose proof (eats_length _ _ _ _ H1) as L1. cbn in L1.
      eapply do_peek; [by apply (eats_head _ _ _ _ _ H1)|].
      destruct (String.eqb_spec (tk_text t1) "}") as [Hx|_]; [by rewrite Hx in Hu|].
      eapply (do_call _ _ _ tt).
      { eapply parseRule_complete; [lia| |exact H1|exact G1]. right.
        inversion G2 as [|ts3 rs3 ts4 rs4 G3 G4]; subst.
        - apply eats_nil in H2 as ->. exists t, r. by rewrite Ht.
        - pose proof (g_head_start _ _ G3) as (t3 & ts3' & -> & Hq3 & Hu3). apply eats_head in H2.
          eexists t3, _. split; [exact H2|]. intros Hx. by rewrite Hx in Hu3. }
      apply IH; [lia..|]. exists ts2, rs2. split_and!; [done..|eauto].
Qed.

Lemma parseAsg_iff s n s' : (length (ps_rest s) < fuel)%nat ->
  parseAsg fuel s = Done (n, s') <-> exists ts rs, eats ts rs s s' /\ g_item ts (Group n rs).
Proof.
  intros Hn. unfold parseAsg. split.
  - intros Hr. apply par_bind_done in Hr as (n' & s1 & Hd & Hr).
    apply definitionName_iff in Hd as (ts1 & H1 & G1); [|by apply (bool_decide_unpack _)|done].
    repeat par_step. pose proof (eats_length _ _ _ _ H1) as L1. pose proof (eats_length _ _ _ _ E) as L2. cbn in L2.
    apply rulesLoop_iff in E0 as (ts2 & rs & H2 & G2 & _); [|lia..].
    eexists (_ ++ _ :: _ ++ [_]), rs. split; [|by constructor].
    eapply eats_app_2; [exact H1|]. eapply eats_cons_2; [exact E|].
    rewrite <-(app_nil_r rs). eapply eats_app; [exact H2|exact E1].
  - intros (ts & rs & He & G). inversion G as [| |ts1 ? lb ts2 rb ? G1 Hlb G2 Hrb]; subst.
    apply eats_split in He as (s1 & H1 & (s2 & H2 & H3)%eats_cons).
    pose proof (eats_length _ _ _ _ H1) as L1. pose proof (eats_length _ _ _ _ H2) as L2. cbn in L2.
    rewrite <-(app_nil_r rs) in H3. apply eats_split_app in H3 as (s3 & H4 & H5).
    eapply do_call; [apply definitionName_iff; [by apply (bool_decide_unpack _)|done|eauto]|].
    eapply do_expect; [done..|]. eapply (do_call _ _ _ tt).
    { apply rulesLoop_iff; [lia..|]. exists ts2, rs. split_and!; [done..|]. apply eats_head in H5. eauto. }
    eapply (do_expect _ _ _ rb); [done..|]. by apply mret_done.
Qed.

(** ** Definitions *)

(** Inserting names that must all be new. *)
Fixpoint ins_all (l : list string) (m : sset) : option sset :=
  match l with
  | [] => Some m
  | x :: l' => if sm_has x m then None else ins_all l' (sm_set x tt m)
  end.

Lemma ins_all_app l1 l2 m m' :
  ins_all (l1 ++ l2) m = Some m' <-> exists m1, ins_all l1 m = Some m1 /\ ins_all l2 m1 = Some m'.
Proof.
  revert m; induction l1 as [|x l1 IH]; intros m; cbn; [naive_solver|].
  destruct (sm_has x m); [naive_solver|apply IH].
Qed.

Lemma ins_all_iff l m m' :
  ins_all l m = Some m' <->
  NoDup l /\ (forall x, x ∈ l -> x ∉ sm_keys m) /\ m' = fold_left (fun s k => sm_set k tt s) l m.
Proof.
  revert m; induction l as [|x l IH]; intros m; cbn.
  { split; [|by intros (_ & _ & ->)]. intros [= <-]. split_and!; [constructor| |done]. by intros ? ?%elem_of_nil. }
  destruct (sm_has x m) eqn:E.
  - apply sm_has_spec in E. split; [done|]. intros (_ & Hf & _). exfalso. apply (Hf x); [left|done].
  - assert (x ∉ sm_keys m) as Hx by (intros Hx%sm_has_spec; congruence). rewrite IH, NoDup_cons.
    setoid_rewrite sm_keys_set. setoid_rewrite elem_of_cons. split.
    + intros (Hn & Hf & ->). split_and!; [by intros Hin; apply (Hf x); auto|done| |done].
      intros y [->|Hy]; [done|]. intros Hk. apply (Hf y); auto.
    + intros ([Hxl Hn] & Hf & ->). split_and!; [done| |done]. intros y Hy [->|Hk]; [done|]. apply (Hf y); auto.
Qed.

(** As [eats], with the groups defined on the way. *)
Record plays (ts : list Token) (rs : list Reference) (us hs : list string) (s s' : parser) : Prop := {
  pl_rest : ps_rest s = ts ++ ps_rest s';
  pl_before : ps_before s' = rev ts ++ ps_before s;
  pl_uags : ins_all us (ps_uags s) = Some (ps_uags s');
  pl_hags : ins_all hs (ps_hags s) = Some (ps_hags s');
  pl_references : ps_references s' = ps_references s ++ rs;
}.

Lemma plays_eats ts rs s s' : plays ts rs [] [] s s' <-> eats ts rs s s'.
Proof. split; intros [? ? ? ? ?]; cbn in *; simplify_eq; split; cbn; try done; congruence. Qed.

Lemma plays_app ts1 rs1 us1 hs1 s s1 ts2 rs2 us2 hs2 s2 :
  plays ts1 rs1 us1 hs1 s s1 -> plays ts2 rs2 us2 hs2 s1 s2 ->
  plays (ts1 ++ ts2) (rs1 ++ rs2) (us1 ++ us2) (hs1 ++ hs2) s s2.
Proof.
  intros [A1 A2 A3 A4 A5] [B1 B2 B3 B4 B5]. split.
  - by rewrite A1, B1, app_assoc.
  - by rewrite B2, A2, rev_app_distr, app_assoc.
  - apply ins_all_app. eauto.
  - apply ins_all_app. eauto.
  - by rewrite B5, A5, app_assoc.
Qed.

Lemma plays_split ts1 rs1 us1 hs1 ts2 rs2 us2 hs2 s s2 :
  plays (ts1 ++ ts2) (rs1 ++ rs2) (us1 ++ us2) (hs1 ++ hs2) s s2 ->
  exists s1, plays ts1 rs1 us1 hs1 s s1 /\ plays ts2 rs2 us2 hs2 s1 s2.
Proof.
  intros [B1 B2 (u & U1 & U2)%ins_all_app (h & V1 & V2)%ins_all_app B5].
  exists (P (rev ts1 ++ ps_before s) (ts2 ++ ps_rest s2) u h (ps_references s ++ rs1)).
  split; split; cbn; try done.
  - by rewrite B1, app_assoc.
  - by rewrite B2, rev_app_distr, app_assoc.
  - by rewrite B5, app_assoc.
Qed.

Lemma plays_length ts rs us hs s s' :
  plays ts rs us hs s s' -> length (ps_rest s) = (length ts + length (ps_rest s'))%nat.
Proof. intros [-> _ _ _ _]. by rewrite length_app. Qed.

Definition as_users (k n : string) : list string := if String.eqb k "UAG" then [n] else [].
Definition as_hosts (k n : string) : list string := if String.eqb k "UAG" then [] else [n].

Lemma define_iff k n s s' : define k n s = Done (true, s') <-> plays [] [] (as_users k n) (as_hosts k n) s s'.
Proof.
  destruct s as [b r u h f], s' as [b' r' u' h' f']. unfold define, set_of, as_users, as_hosts, ss_insert, sm_emplace.
  destruct (String.eqb k "UAG"); cbn.
  - destruct (sm_has n u) eqn:E; cbn; split.
    + done.
    + intros [_ _ H _ _]. cbn in H. by rewrite E in H.
    + intros [= <- <- <- <- <-]. split; cbn; try done; [by rewrite E|by rewrite app_nil_r].
    + intros [H1 H2 H3 H4 H5]. cbn in *. rewrite E in H3. rewrite app_nil_r in H5. by simplify_eq.
  - destruct (sm_has n h) eqn:E; cbn; split.
    + done.
    + intros [_ _ _ H _]. cbn in H. by rewrite E in H.
    + intros [= <- <- <- <- <-]. split; cbn; try done; [by rewrite E|by rewrite app_nil_r].
    + intros [H1 H2 H3 H4 H5]. cbn in *. rewrite E in H4. rewrite app_nil_r in H5. by simplify_eq.
Qed.

Definition list_item (k n : string) : item := if String.eqb k "UAG" then Users n else Hosts n.

Lemma g_list_item k ts1 n ts2 :
  k = "UAG" \/ k = "HAG" -> g_call k ts1 [n] -> g_list ts2 -> g_item (ts1 ++ ts2) (list_item k n).
Proof. intros [-> | ->] ? ?; by constructor. Qed.

Lemma g_list_item_inv k ts n :
  k = "UAG" \/ k = "HAG" -> g_item ts (list_item k n) ->
  exists ts1 ts2, ts = ts1 ++ ts2 /\ g_call k ts1 [n] /\ g_list ts2.
Proof. intros [-> | ->] G; inversion G; subst; eauto. Qed.

Lemma parseNamedList_iff k s x s' : k = "UAG" \/ k = "HAG" -> (length (ps_rest s) < fuel)%nat ->
  parseNamedList fuel k s = Done (x, s') <->
  exists ts n, plays ts [] (as_users k n) (as_hosts k n) s s' /\ g_item ts (list_item k n).
Proof.
  intros Hk Hn. assert (k ∈ keywords) as Hin by (destruct Hk as [-> | ->]; by apply (bool_decide_unpack _)).
  unfold parseNamedList. destruct x. split.
  - intros Hr. apply par_bind_done in Hr as (n & s1 & Hd & Hr).
    apply definitionName_iff in Hd as (ts1 & H1 & G1); [|done..].
    apply par_bind_done in Hr as (inserted & s2 & H2 & Hr). destruct inserted.
    2: { apply par_bind_done in Hr as (? & ? & Hr & _). cbn [negb] in Hr.
         apply par_bind_done in Hr as (? & ? & _ & Hr). discriminate Hr. }
    cbn [negb] in Hr. par_step. par_step. apply define_iff in H2.
    pose proof (eats_length _ _ _ _ H1) as L1. pose proof (plays_length _ _ _ _ _ _ H2) as L2. cbn in L2.
    apply parseMembers_iff in Hr as (ts2 & H3 & G2); [|lia].
    exists (ts1 ++ ts2), n. split; [|by apply g_list_item].
    apply plays_eats in H1, H3. pose proof (plays_app _ _ _ _ _ _ _ _ _ _ _ H2 H3) as H23. rewrite !app_nil_r in H23.
    pose proof (plays_app _ _ _ _ _ _ _ _ _ _ _ H1 H23) as H123. by cbn in H123.
  - intros (ts & n & Hp & (ts1 & ts2 & -> & G1 & G2)%g_list_item_inv); [|done].
    apply (plays_split ts1 [] [] [] ts2 []) in Hp as (s1 & H1 & H2).
    pose proof (plays_length _ _ _ _ _ _ H1) as L1. apply plays_eats in H1.
    rewrite <-(app_nil_r (as_users k n)), <-(app_nil_r (as_hosts k n)) in H2.
    apply (plays_split [] [] _ _ ts2 []) in H2 as (s2 & H2 & H3). pose proof (plays_length _ _ _ _ _ _ H2) as L2. cbn in L2.
    apply plays_eats in H3.
    eapply do_call; [apply definitionName_iff; [done..|eauto]|].
    eapply do_call; [by apply define_iff|]. cbn [negb]. eapply (do_call _ _ _ tt); [by apply mret_done|].
    apply parseMembers_iff; [lia|eauto].
Qed.

(** ** The policy *)

Definition refs_of (l : list item) : list Reference := concat (map item_refs l).

Lemma g_item_start ts i :
  g_item ts i -> exists t ts', ts = t :: ts' /\
    keyword (match i with Users _ => "UAG" | Hosts _ => "HAG" | Group _ _ => "ASG" end) t.
Proof. inversion 1 as [? ? ? G|? ? ? G|? ? ? ? ? ? G]; subst; inversion G; subst; eauto. Qed.

(** One definition, played. *)
Definition item_users (i : item) : list string := match i with Users n => [n] | _ => [] end.
Definition item_hosts (i : item) : list string := match i with Hosts n => [n] | _ => [] end.
Definition item_groups (i : item) : list string := match i with Group n _ => [n] | _ => [] end.

Lemma users_cons i l : users (i :: l) = item_users i ++ users l.
Proof. by destruct i. Qed.
Lemma hosts_cons i l : hosts (i :: l) = item_hosts i ++ hosts l.
Proof. by destruct i. Qed.
Lemma groups_cons i l : groups (i :: l) = item_groups i ++ groups l.
Proof. by destruct i. Qed.

Lemma parseLoop_step n gs s :
  parseLoop fuel (S n) gs s =
  if bool_decide (ps_rest s = []) then Done (gs, s) else (parseItem fuel gs ≫= parseLoop fuel n) s.
Proof.
  cbn [parseLoop]. unfold mbind at 1, par_bind at 1, at_end at 1, run_bind at 1.
  by destruct (bool_decide (ps_rest s = [])).
Qed.

Lemma parseItem_iff gs s gs' s' : (length (ps_rest s) < fuel)%nat ->
  parseItem fuel gs s = Done (gs', s') <->
  exists ts i, plays ts (item_refs i) (item_users i) (item_hosts i) s s' /\ g_item ts i /\
    ins_all (item_groups i) gs = Some gs'.
Proof.
  intros Hn. unfold parseItem. split.
  - intros Hr. repeat par_step. cbv zeta in Hr.
    destruct (String.eqb (upper (tk_text x)) "UAG" || String.eqb (upper (tk_text x)) "HAG") eqn:Ek.
    + assert (upper (tk_text x) = "UAG" \/ upper (tk_text x) = "HAG") as Hk
        by (apply orb_true_iff in Ek as [Ek|Ek]; apply String.eqb_eq in Ek; auto).
      par_step. par_step. apply parseNamedList_iff in E1 as (ts & n & Hp & G); [|done..].
      exists ts, (list_item (upper (tk_text x)) n). split_and!; [|done|by destruct Hk as [-> | ->]].
      by destruct Hk as [Hu|Hu]; rewrite Hu in *.
    + destruct (String.eqb (upper (tk_text x)) "ASG"); [|discriminate Hr].
      apply par_bind_done in Hr as (g & s1 & Hg & Hr). apply parseAsg_iff in Hg as (ts & rs & He & G); [|done].
      unfold ss_insert, sm_emplace in Hr. destruct (sm_has g gs) eqn:Eg.
      { cbn [negb] in Hr. apply par_bind_done in Hr as (? & ? & Hr & _).
        apply par_bind_done in Hr as (? & ? & _ & Hr). discriminate Hr. }
      cbn [negb] in Hr. repeat par_step. exists ts, (Group g rs). split_and!; [by apply plays_eats|done|].
      cbn. by rewrite Eg.
  - intros (ts & i & Hp & G & Hi). pose proof (g_item_start _ _ G) as (t & ts' & -> & Hkw).
    eapply do_peek; [apply (pl_rest _ _ _ _ _ _ Hp)|].
    eapply do_reject.
    { right. eapply keyword_not_deferred; [exact Hkw|]. destruct i; by apply (bool_decide_unpack _). }
    cbv zeta. destruct Hkw as [_ ->]. destruct i as [n|n|n rs]; cbn [String.eqb Ascii.eqb Bool.eqb orb] in *.
    + cbn in Hi. simplify_eq. eapply (do_call _ _ _ tt); [|by apply mret_done].
      apply parseNamedList_iff; [auto|done|]. exists (t :: ts'), n. by split.
    + cbn in Hi. simplify_eq. eapply (do_call _ _ _ tt); [|by apply mret_done].
      apply parseNamedList_iff; [auto|done|]. exists (t :: ts'), n. by split.
    + eapply do_call; [apply parseAsg_iff; [done|]; exists (t :: ts'), rs; split; [by apply plays_eats|done]|].
      cbn in Hi. unfold ss_insert, sm_emplace. destruct (sm_has n gs); [done|]. simplify_eq. cbn [negb].
      eapply (do_call _ _ _ tt); [by apply mret_done|]. by apply mret_done.
Qed.

Lemma parseLoop_iff n : forall gs s gs' s', (length (ps_rest s) < n)%nat -> (n <= fuel)%nat ->
  parseLoop fuel n gs s = Done (gs', s') <->
  exists ts l, plays ts (refs_of l) (users l) (hosts l) s s' /\ g_policy ts l /\ ps_rest s' = [] /\
    ins_all (groups l) gs = Some gs'.
Proof.
  induction n as [|n IH]; intros gs s gs' s' Hn Hf; [lia|]. rewrite parseLoop_step.
  destruct (bool_decide_reflect (ps_rest s = [])) as [Hnil|Hnil].
  - split.
    + intros [= <- <-]. exists [], []. split_and!; [by apply plays_eats, eats_nil|constructor|done|done].
    + intros (ts & l & Hp & G & _ & Hi). pose proof (pl_rest _ _ _ _ _ _ Hp) as Hr. rewrite Hnil in Hr.
      symmetry in Hr. apply app_eq_nil in Hr as [-> _]. inversion G as [|ts1 i ts2 l' Gi Gp E1 E2]; subst.
      * apply plays_eats, eats_nil in Hp as ->. cbn in Hi. by simplify_eq.
      * pose proof (g_item_start _ _ Gi) as (t & ts' & -> & _). done.
  - rewrite par_bind_done. split.
    + intros (gs1 & s1 & Hi & Hr). apply parseItem_iff in Hi as (ts1 & i & Hp1 & G1 & I1); [|lia].
      pose proof (plays_length _ _ _ _ _ _ Hp1) as L1. pose proof (g_item_start _ _ G1) as (t & ts' & -> & _). cbn in L1.
      apply IH in Hr as (ts2 & l & Hp2 & G2 & Hend & I2); [|lia..]. exists ((t :: ts') ++ ts2), (i :: l).
      rewrite users_cons, hosts_cons, groups_cons. split_and!; [by eapply plays_app|by constructor|done|].
      apply ins_all_app. eauto.
    + intros (ts & l & Hp & G & Hend & Hi). inversion G as [|ts1 i ts2 l' G1 G2]; subst.
      { exfalso. apply Hnil. apply pl_rest in Hp. by rewrite Hp. }
      rewrite users_cons, hosts_cons in Hp. rewrite groups_cons in Hi. unfold refs_of in Hp. cbn [map concat] in Hp.
      apply ins_all_app in Hi as (gs1 & I1 & I2). apply plays_split in Hp as (s1 & H1 & H2).
      pose proof (plays_length _ _ _ _ _ _ H1) as L1. pose proof (g_item_start _ _ G1) as (t & ts' & -> & _). cbn in L1.
      exists gs1, s1. split; [apply parseItem_iff; [lia|eauto]|]. apply IH; [lia..|]. exists ts2, l'. done.
Qed.
End Parsers.

(** The closing check of the references. *)
Lemma checkReferences_iff s rs x :
  checkReferences s rs = Done x <-> Forall (fun r => rf_name r ∈ sm_keys (set_of (rf_kind r) s)) rs.
Proof.
  destruct x. induction rs as [|r rs IH]; cbn; [split; [constructor|done]|]. rewrite Forall_cons.
  destruct (sm_has (rf_name r) (set_of (rf_kind r) s)) eqn:E; cbn [negb].
  - rewrite IH. apply sm_has_spec in E. naive_solver.
  - split; [done|]. intros [Hr%sm_has_spec _]. congruence.
Qed.

(** The groups of a policy, with the one that is always there. *)
Definition policy_groups (l : list item) : sset := (ss_insert "DEFAULT" (ss_of_list (groups l))).1.

Lemma parse_iff tokens gs :
  parse tokens = Done gs <-> exists l, g_policy tokens l /\ policy_ok l /\ gs = policy_groups l.
Proof.
  unfold parse. set (fuel := S (length tokens)). set (start := {| ps_rest := tokens |}).
  assert (forall l s, ins_all l ([] : sset) = Some s <-> NoDup l /\ s = ss_of_list l) as Hins.
  { intros l s. rewrite ins_all_iff. split; [naive_solver|]. intros [? ->]. split_and!; [done| |done].
    intros x _. apply not_elem_of_nil. }
  assert (forall ts l s, plays ts (refs_of l) (users l) (hosts l) start s <->
    s = P (rev ts) (ps_rest s) (ss_of_list (users l)) (ss_of_list (hosts l)) (refs_of l) /\
    tokens = ts ++ ps_rest s /\ NoDup (users l) /\ NoDup (hosts l)) as Hplays.
  { intros ts l [b r u h f]. cbn. split.
    - intros [E1 E2 E3 E4 E5]. cbn in *. rewrite app_nil_r in E2. apply Hins in E3 as [? ->].
      apply Hins in E4 as [? ->]. by subst.
    - intros ([= -> -> -> ->] & -> & ? & ?). split; cbn; try (by apply Hins); try done. by rewrite app_nil_r. }
  assert (forall l ts r, Forall (fun x => rf_name x ∈ sm_keys (set_of (rf_kind x)
     (P ts r (ss_of_list (users l)) (ss_of_list (hosts l)) (refs_of l)))) (refs_of l) <-> Forall (defines l) (refs_of l)) as Hrefs.
  { intros l ts r. apply Forall_iff. intros x. unfold set_of, defines. cbn.
    destruct (String.eqb (rf_kind x) "UAG"); apply ss_of_list_elem. }
  rewrite run_bind_done. split.
  - intros ([gs1 s] & Hl & Hr). apply parseLoop_iff in Hl as (ts & l & Hp & G & Hend & Hi); [|cbn; lia..].
    apply Hplays in Hp as (Hs & -> & Hu & Hh). rewrite Hend in *. rewrite app_nil_r. apply Hins in Hi as [Hg ->].
    apply run_bind_done in Hr as (x & Hc & [= <-]). exists l. split_and!; [done| |done]. split; try done.
    apply checkReferences_iff in Hc. rewrite Hs in Hc. cbn [ps_references] in Hc. by apply Hrefs in Hc.
  - intros (l & G & [Hu Hh Hg Hr] & ->).
    exists (ss_of_list (groups l), P (rev tokens) [] (ss_of_list (users l)) (ss_of_list (hosts l)) (refs_of l)). split.
    + apply parseLoop_iff; [cbn; lia..|]. exists tokens, l. split_and!; [|done|done|by apply Hins].
      apply Hplays. cbn. by rewrite app_nil_r.
    + apply run_bind_done. exists tt. split; [|done]. apply checkReferences_iff, Hrefs. done.
Qed.

(** ** Termination *)

Definition ends {A} (r : run A) : Prop := r <> OutOfFuel.

Lemma bind_ends {A B} (m : par A) (k : A -> par B) s :
  ends (m s) -> (forall a s1, m s = Done (a, s1) -> ends (k a s1)) -> ends ((m ≫= k) s).
Proof.
  unfold ends. intros Hm Hk. unfold mbind, par_bind, run_bind.
  destruct (m s) as [[a s1]| |]; [by apply Hk|done|done].
Qed.

Lemma peek_ends s : ends (peek s).
Proof. unfold ends, peek. by destruct (ps_rest s). Qed.
Lemma advance_ends s : ends (advance s).
Proof. unfold ends, advance. by destruct (ps_rest s). Qed.
Lemma error_if_ends b t m s : ends (error_if b t m s).
Proof. unfold ends, error_if. by destruct b. Qed.
Lemma acfError_ends {A} t m s : ends ((acfError t m : par A) s).
Proof. done. Qed.
Lemma mret_ends {A} (a : A) s : ends ((mret a : par A) s).
Proof. done. Qed.
Lemma last_token_ends s : ends (last_token s).
Proof. unfold ends, last_token. by destruct (ps_before s). Qed.
Lemma rejectDeferred_ends t s : ends (rejectDeferred t s).
Proof. unfold ends, rejectDeferred. destruct (tk_quoted t); [done|apply error_if_ends]. Qed.
Lemma take_ends s : ends (take s).
Proof. apply bind_ends; [apply peek_ends|]. intros. apply bind_ends; [apply advance_ends|]. done. Qed.
Lemma expect_ends c s : ends (expect c s).
Proof.
  apply bind_ends; [apply peek_ends|]. intros. apply bind_ends; [apply error_if_ends|]. intros. apply advance_ends.
Qed.
Lemma name_ends s : ends (name s).
Proof. apply bind_ends; [apply take_ends|]. intros. apply bind_ends; [apply error_if_ends|]. done. Qed.

Create HintDb acf discriminated.
#[export] Hint Resolve peek_ends advance_ends error_if_ends acfError_ends mret_ends last_token_ends
  rejectDeferred_ends take_ends expect_ends name_ends : acf.

(** Walks through a sequence of actions that end, keeping what each did. *)
Ltac ends_step :=
  match goal with
  | |- ends (mbind _ _ _) =>
      apply bind_ends; [auto with acf|let a := fresh "a" in let s := fresh "s" in let E := fresh "E" in intros a s E]
  | |- ends _ => auto with acf; done
  end.
Ltac lens := repeat match goal with H : eats _ _ _ _ |- _ => apply eats_length in H; cbn [length] in H end; lia.

Lemma namesLoop_ends n : forall s, (length (ps_rest s) < n)%nat -> ends (namesLoop n s).
Proof.
  induction n as [|n IH]; intros s Hn; [lia|]. cbn [namesLoop]. ends_step. apply peek_done in E as [-> _].
  destruct (String.eqb _ ","); [|done]. do 2 ends_step. apply take_done in E. apply name_done in E0 as [_ E0].
  apply bind_ends; [apply IH; lens|done].
Qed.

Lemma membersLoop_ends n : forall s, (length (ps_rest s) < n)%nat -> ends (membersLoop n s).
Proof.
  induction n as [|n IH]; intros s Hn; [lia|]. cbn [membersLoop]. do 2 ends_step. apply name_done in E as [_ E].
  apply peek_done in E0 as [-> _]. destruct (String.eqb _ "}"); [done|]. ends_step.
  apply expect_done in E0 as (? & _ & E0). apply IH. lens.
Qed.

Section Ends.
Context (fuel : nat).

Lemma callNames_ends k s : (length (ps_rest s) < fuel)%nat -> ends (callNames fuel k s).
Proof.
  intros Hn. unfold callNames. do 5 ends_step. apply take_done in E. apply rejectDeferred_done in E0 as [_ ->].
  apply error_if_done in E1 as [_ ->]. apply expect_done in E2 as (? & _ & E2). apply name_done in E3 as [_ E3].
  apply bind_ends; [apply namesLoop_ends; lens|]. intros. ends_step. done.
Qed.

Lemma definitionName_ends k s : (length (ps_rest s) < fuel)%nat -> ends (definitionName fuel k s).
Proof.
  intros Hn. apply bind_ends; [by apply callNames_ends|]. intros [|x [|? ?]] s1 _; try done; by ends_step.
Qed.

Lemma parseMembers_ends s : (length (ps_rest s) < fuel)%nat -> ends (parseMembers fuel s).
Proof.
  intros Hn. unfold parseMembers. do 2 ends_step. apply expect_done in E as (? & _ & E). apply peek_done in E0 as [-> _].
  apply bind_ends; [|intros; ends_step]. destruct (negb _); [apply membersLoop_ends; lens|done].
Qed.

Lemma parseNamedList_ends k s : k ∈ keywords -> (length (ps_rest s) < fuel)%nat -> ends (parseNamedList fuel k s).
Proof.
  intros Hk Hn. apply bind_ends; [by apply definitionName_ends|]. intros n s1 E1.
  apply definitionName_iff in E1 as (? & E1 & _); [|done..]. apply bind_ends.
  { unfold ends, define. by destruct (ss_insert _ _). }
  intros inserted s2 E2. assert (ps_rest s2 = ps_rest s1) as Hs.
  { unfold define in E2. destruct (ss_insert _ _). injection E2 as _ <-. by destruct (String.eqb _ _). }
  destruct inserted; cbn [negb]; apply bind_ends; try done; intros; try ends_step.
  all: repeat par_step; try discriminate; apply parseMembers_ends; rewrite ?Hs; lens.
Qed.

Lemma conditionsLoop_ends n : forall s, (length (ps_rest s) < n)%nat -> (n <= fuel)%nat ->
  ends (conditionsLoop fuel n s).
Proof.
  induction n as [|n IH]; intros s Hn Hf; [lia|]. cbn [conditionsLoop]. ends_step. apply peek_done in E as [-> _].
  destruct (String.eqb _ "}"); [done|]. do 2 ends_step. apply rejectDeferred_done in E as [_ ->].
  apply error_if_done in E0 as [E0 ->]. apply andb_false_iff in E0.
  assert (upper (tk_text a) ∈ keywords) as Hk.
  { destruct E0 as [E0|E0]; apply negb_false_iff, String.eqb_eq in E0; rewrite E0; by apply (bool_decide_unpack _). }
  apply bind_ends; [apply callNames_ends; lia|]. intros names s2 E2.
  apply callNames_iff in E2 as (ts & E2 & G); [|done|lia]. apply bind_ends; [done|]. intros [] s3 [= <-].
  apply IH; [|lia]. cbn. inversion G; subst. lens.
Qed.

Lemma parseRuleHead_ends s : ends (parseRuleHead s).
Proof.
  unfold parseRuleHead. do 9 ends_step. apply bind_ends; [|intros; ends_step].
  unfold parseOption. ends_step. destruct (String.eqb _ ","); [|done]. by do 3 ends_step.
Qed.

Lemma rulesLoop_ends n : forall s, (length (ps_rest s) < n)%nat -> (n <= fuel)%nat -> ends (rulesLoop fuel n s).
Proof.
  induction n as [|n IH]; intros s Hn Hf; [lia|]. cbn [rulesLoop]. ends_step. apply peek_done in E as [-> _].
  destruct (String.eqb _ "}"); [done|]. apply bind_ends.
  - unfold parseRule. apply bind_ends; [apply parseRuleHead_ends|]. intros ? s1 (ts & E1 & _)%parseRuleHead_iff.
    apply bind_ends; [done|]. intros ended s2 [= <- <-]. destruct (bool_decide _); [done|]. ends_step.
    apply peek_done in E as [-> _]. destruct (negb _); [done|]. ends_step. apply take_done in E.
    apply bind_ends; [apply conditionsLoop_ends; lens|]. intros. ends_step.
  - intros ? s1 E1. apply parseRule_sound in E1 as (ts & rs & E1 & G); [|lia].
    pose proof (g_head_start _ _ G) as (t & ts' & -> & _). apply IH; lens.
Qed.

Lemma parseLoop_ends n : forall gs s, (length (ps_rest s) < n)%nat -> (n <= fuel)%nat -> ends (parseLoop fuel n gs s).
Proof.
  induction n as [|n IH]; intros gs s Hn Hf; [lia|]. rewrite parseLoop_step.
  destruct (bool_decide _); [done|]. apply bind_ends.
  - unfold parseItem. do 2 ends_step. apply peek_done in E as [-> _]. apply rejectDeferred_done in E0 as [_ ->].
    cbv zeta. destruct (_ || _) eqn:Ek.
    + assert (upper (tk_text a) ∈ keywords) as Hk.
      { apply orb_true_iff in Ek as [Ek|Ek]; apply String.eqb_eq in Ek; rewrite Ek; by apply (bool_decide_unpack _). }
      apply bind_ends; [apply parseNamedList_ends; [done|lia]|done].
    + destruct (String.eqb _ "ASG"); [|done]. apply bind_ends.
      * apply bind_ends; [apply definitionName_ends; lia|]. intros g s1 E1.
        apply definitionName_iff in E1 as (? & E1 & _); [|by apply (bool_decide_unpack _)|lia].
        ends_step. apply expect_done in E as (? & _ & E). apply bind_ends; [apply rulesLoop_ends; lens|].
        intros. ends_step. done.
      * intros g s1 _. destruct (ss_insert g gs) as [gs1 []]; cbn [negb]; apply bind_ends; try done.
        intros. by ends_step.
  - intros gs1 s1 E1. apply parseItem_iff in E1 as (ts & i & Hp & G & _); [|lia].
    pose proof (g_item_start _ _ G) as (t & ts' & -> & _). apply plays_length in Hp. cbn in Hp. apply IH; lia.
Qed.
End Ends.

(** The tokenizer consumes text in every round. *)
Lemma skipComment_length text : (String.length (skipComment text).1 <= String.length text)%nat.
Proof.
  induction text as [|c text IH]; cbn; [done|]. destruct (Ascii.eqb c newline); [done|].
  destruct (skipComment text). cbn in *. lia.
Qed.

Lemma scanQuoted_length text : forall line column escaped value rest line' column',
  scanQuoted text line column escaped = Some (value, rest, line', column') ->
  (String.length rest < String.length text)%nat.
Proof.
  induction text as [|c text IH]; intros line column escaped value rest line' column'; cbn [scanQuoted]; [done|].
  destruct (if Ascii.eqb c newline then _ else _) as [line1 column1]. cbv zeta.
  assert (forall r, match r with Some (v, r', l, k) => Some (String c v, r', l, k) | None => None end =
    Some (value, rest, line', column') -> exists v, r = Some (v, rest, line', column')) as Hpush.
  { intros [[[[v r'] l] k]|]; [|done]. intros [= _ -> -> ->]. eauto. }
  destruct escaped; [intros (v & Hv)%Hpush|destruct (Ascii.eqb c backslash); [intros Hv|
    destruct (Ascii.eqb c quote); [intros [= _ <- _ _]; cbn; lia|intros (v & Hv)%Hpush]]].
  all: apply IH in Hv; cbn; lia.
Qed.

Lemma scanWord_length text : (String.length (scanWord text).2 <= String.length text)%nat.
Proof.
  induction text as [|c text IH]; cbn; [done|]. destruct (ends_word c); [done|].
  destruct (scanWord text). cbn in *. lia.
Qed.

Lemma push_ends (t : Token) r : ends r -> ends (tokens ← r; Done (t :: tokens)).
Proof. by destruct r. Qed.

Lemma tokenizeLoop_ends fuel : forall text line column, (String.length text < fuel)%nat ->
  ends (tokenizeLoop fuel text line column).
Proof.
  induction fuel as [|fuel IH]; intros text line column Hn; [lia|]. destruct text as [|c text]; [done|].
  cbn [String.length] in Hn. cbn [tokenizeLoop]. destruct (isspace c) eqn:Es.
  { destruct (Ascii.eqb c newline); apply IH; lia. }
  destruct (Ascii.eqb_spec c "#") as [->|Hhash].
  { cbn [skipComment]. cbn [Ascii.eqb Bool.eqb newline]. pose proof (skipComment_length text).
    destruct (skipComment text) as [rest n]. cbn in *. apply IH. lia. }
  destruct (Ascii.eqb c quote) eqn:Eq.
  { destruct (scanQuoted text line (column + 1) false) as [[[[v rest] l] k]|] eqn:Ev; [|done].
    apply scanQuoted_length in Ev. apply push_ends, IH. lia. }
  destruct (negb (is_punct c)) eqn:Ep; [|apply push_ends, IH; lia].
  assert (ends_word c = false) as Hw.
  { unfold ends_word. rewrite Es, Eq. apply negb_true_iff in Ep. rewrite Ep.
    by rewrite (proj2 (Ascii.eqb_neq c "#") Hhash). }
  pose proof (scanWord_length text). cbn [scanWord]. rewrite Hw. destruct (scanWord text) as [w rest]. cbn in *.
  apply push_ends, IH. lia.
Qed.

Lemma tokenizeAcf_ends text : ends (tokenizeAcf text).
Proof. apply tokenizeLoop_ends. lia. Qed.

Lemma parse_ends tokens : ends (parse tokens).
Proof.
  unfold parse. set (fuel := S (length tokens)).
  pose proof (parseLoop_ends fuel fuel [] {| ps_before := []; ps_rest := tokens; ps_uags := []; ps_hags := [];
    ps_references := [] |} ltac:(cbn; lia) ltac:(lia)) as Hl.
  unfold ends in *. destruct (parseLoop _ _ _ _) as [[gs s]| |]; cbn; [|done..].
  assert (forall rs, checkReferences s rs <> OutOfFuel) as Hr.
  { induction rs as [|r rs IH]; cbn; [done|]. by destruct (negb _). }
  specialize (Hr (ps_references s)). by destruct (checkReferences s _).
Qed.

(** C11. The policy check decides the supported grammar: it always returns (with
    the groups or an error), and it accepts a policy text exactly when the text
    tokenizes to UAG, HAG and ASG definitions of the grammar in which no group
    is defined twice and every UAG or HAG a rule refers to is defined (before
    or after the rule); the groups it reports are then the policy's ASGs and
    DEFAULT. *)
Theorem inspectAcf_decides text :
  inspectAcf text <> OutOfFuel /\
  forall gs, inspectAcf text = Done gs <->
    exists tokens l, tokenizeAcf text = Done tokens /\ g_policy tokens l /\ policy_ok l /\ gs = policy_groups l.
Proof.
  unfold inspectAcf. split.
  - pose proof (tokenizeAcf_ends text). destruct (tokenizeAcf text) as [tokens| |]; cbn; [|done..]. apply parse_ends.
  - intros gs. rewrite run_bind_done. setoid_rewrite parse_iff. naive_solver.
Qed.

(** A quoted brace ends a member list: [expect] and the loop conditions compare
    the text of a token and not whether it was quoted. *)
Definition quoted (s : string) : string := String quote (s +:+ String quote EmptyString).
Example quoted_brace_closes :
  inspectAcf ("UAG(ops) {alice " +:+ quoted "}") = Done [("DEFAULT", tt)].
Proof. by vm_compute. Qed.

(** ** Macro expansion *)

Section Macros.
Context `{MacLaws}.

(** With [k] doublings left to the limit, [k + 1] rounds are enough. *)
Lemma expandLoop_spec fuel macros input capacity : forall k,
  (2 <= capacity <= kMaxExpandedPolicyBytes + 1)%Z -> (kMaxExpandedPolicyBytes + 1 <= capacity * 2 ^ Z.of_nat k)%Z ->
  (k < fuel)%nat ->
  expandLoop fuel macros input capacity =
  match macExpansion macros input with
  | None => Fails "ACF contains an undefined macro"
  | Some text => if (strlen text <? kMaxExpandedPolicyBytes)%Z then Done text
                 else Fails "expanded ACF exceeds supported size"
  end.
Proof.
  revert capacity; induction fuel as [|fuel IH]; intros capacity k Hc Hk Hf; [lia|]. cbn [expandLoop].
  destruct (Z.leb_spec capacity (kMaxExpandedPolicyBytes + 1)) as [_|]; [|lia].
  destruct (macExpansion macros input) as [text|] eqn:Et.
  2: { pose proof (macExpand_undefined macros input capacity Et) as Hu.
       destruct (macExpandString macros input capacity) as [r out]. cbn in Hu. by destruct (Z.ltb_spec r 0); [|lia]. }
  rewrite (macExpand_defined macros input capacity text Et) by lia. pose proof (strlen_nonneg text) as Hn.
  destruct (Z.ltb_spec (Z.min (strlen text) (capacity - 1)) 0); [lia|].
  destruct (Z.ltb_spec (Z.min (strlen text) (capacity - 1) + 1) capacity) as [Hfit|Hfull].
  - destruct (Z.ltb_spec (strlen text) kMaxExpandedPolicyBytes); [|lia].
    unfold strlen in *. rewrite (substring_all (Z.to_nat (capacity - 1))) by lia. by rewrite substring_all by lia.
  - destruct (Z.eqb_spec capacity (kMaxExpandedPolicyBytes + 1)) as [Hmax|Hmax].
    + by destruct (Z.ltb_spec (strlen text) kMaxExpandedPolicyBytes); [lia|].
    + destruct k as [|k]; [cbn in Hk; lia|]. rewrite Nat2Z.inj_succ, Z.pow_succ_r in Hk by lia.
      assert (0 < 2 ^ Z.of_nat k)%Z by (apply Z.pow_pos_nonneg; lia).
      unfold kMaxExpandedPolicyBytes in *. rewrite u64_id by lia.
      apply (IH _ k); [lia| |lia]. destruct (Z.min_spec (4 * 1024 * 1024 + 1) (capacity * 2)) as [[_ ->]|[_ ->]]; nia.
Qed.

(** C40. Expanding the macros of a policy returns the whole expansion exactly
    when every macro is defined and the expansion is shorter than 4 MiB, never
    a truncated one: the doubling buffer always ends, at the limit at the
    latest. *)
Theorem expandMacros_complete input macros :
  macCreateHandle macros = true -> (strlen input < 2 ^ 63)%Z ->
  expandMacros input macros =
  match macExpansion macros input with
  | None => Fails "ACF contains an undefined macro"
  | Some text => if (strlen text <? kMaxExpandedPolicyBytes)%Z then Done text
                 else Fails "expanded ACF exceeds supported size"
  end.
Proof.
  intros Hh Hi. unfold expandMacros. rewrite Hh. cbn [negb]. pose proof (strlen_nonneg input).
  unfold kMaxExpandedPolicyBytes. rewrite u64_id by lia. apply (expandLoop_spec _ _ _ _ 11); [|cbn|lia];
    unfold kMaxExpandedPolicyBytes; lia.
Qed.
End Macros.

(** A macro library with no macros: every text expands to itself. *)
Module PlainMacros.
#[export] Instance mac : MacLib := {|
  macCreateHandle := fun _ => true;
  macExpandString := fun _ input capacity =>
    (Z.min (strlen input) (capacity - 1), String.substring 0 (Z.to_nat (capacity - 1)) input);
|}.
#[export] Instance mac_laws : MacLaws.
Proof. refine {| macExpansion := fun _ input => Some input |}; [done|]. by intros macros input capacity text [= ->] _. Defined.

Lemma expandMacros_complete_witness : expandMacros "ASG(DEFAULT) { RULE(1,READ) }" [] = Done "ASG(DEFAULT) { RULE(1,READ) }".
Proof. rewrite (expandMacros_complete "ASG(DEFAULT) { RULE(1,READ) }" []); [reflexivity|reflexivity|vm_compute; reflexivity]. Defined.
End PlainMacros.
