(* ===== verification/PVRegistry.v ===== *)
(** * The registry of served names

    src/pv_registry.cpp: a namespace is prepared off-line and published as one
    immutable snapshot; the registrations it replaces are retired, and the
    channels opened under a retired registration are closed.

    Objects behind [shared_ptr]s have identities: registrations and snapshots
    are numbered as they are allocated, channels by the server.  The state is
    shared by the publishing threads and the server's threads; each definition
    is what one thread does between two points where another may run (the lock
    of a registration, the atomic load or store of the snapshot, the flag
    [active], a call into PVXS).  PVXS itself is outside: [attach] and [close]
    only record that the call was made, and a wrapper is a parameter. *)

From S2P Require Import Prelude.
From S2P Require Import StrMap.
From S2P Require Import Config.

Local Open Scope string_scope.
Local Open Scope list_scope.
Local Open Scope Z_scope.

(** ** Data *)

(** [pv] and [owner] are pointers: [None] is an empty one. *)
Record PVBinding := { bd_pv : option Z; bd_owner : option Z; bd_access : AccessAssignment }.
Abbreviation PVBindings := (smap PVBinding).

(** A wrapper takes the tracked channel and may return none. *)
Abbreviation Wrapper := (Z -> bool).

Record Registration := {
  rn_binding : PVBinding;
  rn_wrapper : option Wrapper;
  rn_active : bool;
  rn_channels : list Z;
}.
#[export] Instance Registration_eta : Eta Registration := fun r =>
  Build_Registration (rn_binding r) (rn_wrapper r) (rn_active r) (rn_channels r).

Record Snapshot := { sn_id : Z; sn_entries : smap Z; sn_names : sset }.

Record Prepared := { pr_previous : Z; pr_next : Snapshot; pr_retiring : list Z }.

(** Where [publish] is, while it holds [publishMutex]. *)
Inductive publishing :=
| BeforeCommit
| Retiring (left : list Z).

(** Where [onCreate] is for a channel. *)
Inductive creating := Found | Tracked | Attached.

Record State := {
  rs_regs : gmap Z Registration;
  rs_nextReg : Z;
  rs_nextSnap : Z;
  rs_current : Snapshot;
  rs_publisher : option (Prepared * publishing);
  rs_creating : gmap Z (Z * creating);
  rs_open : gmap Z Z;
  rs_closing : list Z;
  rs_gone : gset Z;
}.
#[export] Instance State_eta : Eta State := fun r =>
  Build_State (rs_regs r) (rs_nextReg r) (rs_nextSnap r) (rs_current r) (rs_publisher r) (rs_creating r)
    (rs_open r) (rs_closing r) (rs_gone r).

Definition State_new : State :=
  {| rs_regs := ∅; rs_nextReg := 0; rs_nextSnap := 1; rs_current := {| sn_id := 0; sn_entries := []; sn_names := [] |};
     rs_publisher := None; rs_creating := ∅; rs_open := ∅; rs_closing := []; rs_gone := ∅ |}.

(** ** Registrations *)

(** [channel] is dropped from the list when its [weak_ptr] has expired. *)
Definition track (gone : gset Z) (channel : Z) (r : Registration) : Registration :=
  r <| rn_channels := filter (fun c => c ∉ gone) (rn_channels r) ++ [channel] |>.

(** The critical section of [Registration::close]; the channels taken are
    closed after it. *)
Definition drain (r : Registration) : Registration * list Z := (r <| rn_channels := [] |>, rn_channels r).

(** The answer to an operation that reaches a tracked channel, connection or
    exec: forwarded while the registration is active. *)
Inductive answer := Forward | Error (message : string).

Definition fence (r : Registration) : answer :=
  if rn_active r then Forward else Error "endpoint retired".

(** [TrackedExec::authorized] *)
Definition authorized (r : Registration) (authorizeWriteDispatch : bool) : bool :=
  rn_active r && authorizeWriteDispatch.

(** ** Preparing *)

Definition binding_ok (name : string) (b : PVBinding) : bool :=
  negb (str_empty name || has_nul name || bool_decide (bd_pv b = None) || bool_decide (bd_owner b = None)).

(** May the published registration [old] of a name go on serving [b]? *)
Definition keeps (old : Registration) (b : PVBinding) : bool :=
  bool_decide (bd_owner (rn_binding old) = bd_owner b) &&
  sameAccessAssignment (bd_access (rn_binding old)) (bd_access b).

(** The loop of [prepare] over the desired bindings: the registrations
    allocated so far, the next identity, the entries and the names. *)
Record PrepareLoop := { pl_regs : gmap Z Registration; pl_nextReg : Z; pl_entries : smap Z; pl_names : sset }.

Definition prepareEntry (previous : smap Z) (wrappers : smap Wrapper) (s : PrepareLoop)
    (entry : string * PVBinding) : exn PrepareLoop :=
  let '(name, b) := entry in
  if negb (binding_ok name b) then Throw ("invalid endpoint binding: " +:+ name)
  else
    let old := id ← sm_find name previous; r ← pl_regs s !! id; if keeps r b then Some id else None in
    let names := (ss_insert name (pl_names s)).1 in
    match old with
    | Some id =>
        Ret {| pl_regs := pl_regs s; pl_nextReg := pl_nextReg s;
               pl_entries := (sm_emplace name id (pl_entries s)).1; pl_names := names |}
    | None =>
        let r := {| rn_binding := b; rn_wrapper := sm_find name wrappers; rn_active := true; rn_channels := [] |} in
        Ret {| pl_regs := <[pl_nextReg s := r]> (pl_regs s); pl_nextReg := pl_nextReg s + 1;
               pl_entries := (sm_emplace name (pl_nextReg s) (pl_entries s)).1; pl_names := names |}
    end.

(** The registrations of [previous] that [next] does not keep. *)
Definition retiring (previous next : smap Z) : list Z :=
  omap (fun '(name, id) => if bool_decide (sm_find name next = Some id) then None else Some id) previous.

Definition prepare (s : State) (desired : PVBindings) (wrappers : smap Wrapper) : exn (State * Prepared) :=
  let previous := rs_current s in
  loop ← exn_fold (prepareEntry (sn_entries previous) wrappers)
           {| pl_regs := rs_regs s; pl_nextReg := rs_nextReg s; pl_entries := []; pl_names := [] |} desired;
  let next := {| sn_id := rs_nextSnap s; sn_entries := pl_entries loop; sn_names := pl_names loop |} in
  Ret (s <| rs_regs := pl_regs loop |> <| rs_nextReg := pl_nextReg loop |> <| rs_nextSnap := rs_nextSnap s + 1 |>,
       {| pr_previous := sn_id previous; pr_next := next;
          pr_retiring := retiring (sn_entries previous) (pl_entries loop) |}).

Definition bindings (s : State) : PVBindings :=
  omap (fun '(name, id) => (fun r => (name, rn_binding r)) <$> (rs_regs s !! id)) (sn_entries (rs_current s)).

(** ** Publishing *)

(** [publish] takes [publishMutex] and compares the snapshots. *)
Definition publish_start (s : State) (p : Prepared) : State * bool :=
  if negb (pr_previous p =? sn_id (rs_current s)) then (s, false)
  else (s <| rs_publisher := Some (p, BeforeCommit) |>, true).

(** [beforeCommit] has returned. *)
Definition publish_commit (s : State) (p : Prepared) (allowed : bool) : State :=
  s <| rs_publisher := if allowed then Some (p, Retiring (pr_retiring p)) else None |>.

(** One iteration of the loop that clears [active], or the final store. *)
Definition publish_step (s : State) (p : Prepared) (left : list Z) : State :=
  match left with
  | id :: left' =>
      s <| rs_regs := alter (fun r => r <| rn_active := false |>) id (rs_regs s) |>
        <| rs_publisher := Some (p, Retiring left') |>
  | [] => s <| rs_current := pr_next p |> <| rs_publisher := None |>
  end.

(** One iteration of [finish]: the channels of a retired registration. *)
Definition finish_one (s : State) (id : Z) : State :=
  match rs_regs s !! id with
  | Some r =>
      let '(r', channels) := drain r in
      s <| rs_regs := <[id := r']> (rs_regs s) |> <| rs_closing := rs_closing s ++ channels |>
  | None => s
  end.

(** [channel->close()] outside the lock. *)
Definition close (s : State) (channel : Z) : State := s <| rs_open := delete channel (rs_open s) |>.

Definition close_next (s : State) : State :=
  match rs_closing s with
  | c :: rest => close (s <| rs_closing := rest |>) c
  | [] => s
  end.

(** The calls without interference, as [clear] makes them. *)
Fixpoint publish_retire (s : State) (p : Prepared) (left : list Z) : State :=
  match left with
  | [] => publish_step s p []
  | id :: left' => publish_retire (publish_step s p left) p left'
  end.

Definition publish (s : State) (p : Prepared) (beforeCommit : bool) : State * bool :=
  let '(s1, current) := publish_start s p in
  if negb current then (s1, false)
  else
    let s2 := publish_commit s1 p beforeCommit in
    if beforeCommit then (publish_retire s2 p (pr_retiring p), true) else (s2, false).

Definition finish (s : State) (p : Prepared) : State := fold_left finish_one (pr_retiring p) s.

Definition clear (s : State) : exn State :=
  '(s1, prepared) ← prepare s [] [];
  let '(s2, published) := publish s1 prepared true in
  if negb published then Throw "endpoint publication changed during preparation"
  else Ret (finish s2 prepared).

(** ** Serving *)

(** [onSearch] claims the names of the snapshot; [onList] lists them. *)
Definition onSearch (s : State) (name : string) : bool := sm_has name (sn_entries (rs_current s)).
Definition onList (s : State) : sset := sn_names (rs_current s).

(** [onCreate], from the lookup in the snapshot to the check at its end. *)
Definition create_find (s : State) (channel : Z) (name : string) : State :=
  match sm_find name (sn_entries (rs_current s)) with
  | Some id => s <| rs_creating := <[channel := (id, Found)]> (rs_creating s) |>
  | None => s
  end.

Definition create_track (s : State) (channel id : Z) : State :=
  s <| rs_regs := alter (track (rs_gone s) channel) id (rs_regs s) |>
    <| rs_creating := <[channel := (id, Tracked)]> (rs_creating s) |>.

Definition create_attach (s : State) (channel id : Z) : State :=
  match rs_regs s !! id with
  | Some r =>
      if match rn_wrapper r with Some w => w channel | None => true end
      then s <| rs_open := <[channel := id]> (rs_open s) |>
             <| rs_creating := <[channel := (id, Attached)]> (rs_creating s) |>
      else s <| rs_creating := delete channel (rs_creating s) |>
  | None => s
  end.

Definition create_check (s : State) (channel id : Z) : State :=
  let s := s <| rs_creating := delete channel (rs_creating s) |> in
  match rs_regs s !! id with
  | Some r => if negb (rn_active r) then close s channel else s
  | None => s
  end.

(** A channel disappears: its client left or PVXS destroyed it. *)
Definition destroy (s : State) (channel : Z) : State :=
  s <| rs_open := delete channel (rs_open s) |> <| rs_gone := rs_gone s ∪ {[channel]} |>.

(** ** What [prepare] builds *)

Lemma sameAccessAssignment_eq a b : sameAccessAssignment a b = true <-> a = b.
Proof.
  unfold sameAccessAssignment. destruct a, b; cbn. rewrite andb_true_iff, String.eqb_eq, Z.eqb_eq. naive_solver.
Qed.

Lemma keeps_spec r b :
  keeps r b = true <-> bd_owner (rn_binding r) = bd_owner b /\ bd_access (rn_binding r) = bd_access b.
Proof. unfold keeps. by rewrite andb_true_iff, bool_decide_eq_true, sameAccessAssignment_eq. Qed.

(** The set of the keys of a map. *)
Definition names_of {V} (m : smap V) : sset := map (fun e => (e.1, tt)) m.
#[global] Arguments names_of : simpl never.

Lemma names_of_keys {V} (m : smap V) : sm_keys (names_of m) = sm_keys m.
Proof. unfold sm_keys, names_of. by rewrite map_map. Qed.

Lemma names_of_set {V} k (v : V) m : names_of (sm_set k v m) = sm_set k tt (names_of m).
Proof.
  unfold names_of. induction m as [|[k' v'] m IH]; cbn; [done|].
  destruct (k ?= k')%string; cbn; [done..|]. by rewrite IH.
Qed.

Lemma names_of_emplace {V} k (v : V) m :
  names_of (sm_emplace k v m).1 = (ss_insert k (names_of m)).1.
Proof.
  unfold ss_insert, sm_emplace. replace (sm_has k (names_of m)) with (sm_has k m).
  { destruct (sm_has k m); cbn; [done|]. apply names_of_set. }
  apply eq_bool_prop_intro. rewrite !Is_true_true, !sm_has_spec. by rewrite names_of_keys.
Qed.

Lemma sm_find_emplace {V} k k' (v v0 : V) m :
  sm_find k' (sm_emplace k v m).1 = Some v0 -> sm_find k' m = Some v0 \/ k' = k /\ v0 = v /\ k ∉ sm_keys m.
Proof.
  unfold sm_emplace. destruct (sm_has k m) eqn:E; cbn; [by left|].
  rewrite sm_find_set. case_decide; [|by left]. intros [= <-]. right. split; [done|].
  split; [done|]. intros Hin%sm_has_spec. congruence.
Qed.

Lemma sm_keys_emplace {V} k k' (v : V) m :
  k' ∈ sm_keys (sm_emplace k v m).1 <-> k' = k \/ k' ∈ sm_keys m.
Proof.
  unfold sm_emplace. destruct (sm_has k m) eqn:E; cbn; [|apply sm_keys_set].
  apply sm_has_spec in E. naive_solver.
Qed.

Definition fresh_registration (wrappers : smap Wrapper) (name : string) (b : PVBinding) : Registration :=
  {| rn_binding := b; rn_wrapper := sm_find name wrappers; rn_active := true; rn_channels := [] |}.

Section prepare.
Context (regs0 : gmap Z Registration) (next0 : Z) (previous : smap Z) (desired : PVBindings)
  (wrappers : smap Wrapper).

(** The registration of the published snapshot that may serve the binding. *)
Definition reusable (name : string) (b : PVBinding) : option Z :=
  id ← sm_find name previous; r ← regs0 !! id; if keeps r b then Some id else None.

Lemma reusable_Some name b id :
  reusable name b = Some id <->
  sm_find name previous = Some id /\ exists r, regs0 !! id = Some r /\ keeps r b = true.
Proof.
  unfold reusable. rewrite bind_Some. setoid_rewrite bind_Some. split.
  - intros (o & Ho & r & Hr & H). destruct (keeps r b) eqn:E; naive_solver.
  - intros (Ho & r & Hr & H). exists id. split; [done|]. exists r. by rewrite H.
Qed.

(** What an entry of the new snapshot is: the published registration when it
    can be reused, a new one otherwise. *)
Definition entry_ok (regs : gmap Z Registration) (name : string) (id : Z) : Prop :=
  exists b, sm_find name desired = Some b /\
  match reusable name b with
  | Some old => id = old
  | None => next0 <= id /\ regs !! id = Some (fresh_registration wrappers name b)
  end.

Record loop_ok (s : PrepareLoop) : Prop := {
  lo_next : next0 <= pl_nextReg s;
  lo_old : forall id, id < next0 -> pl_regs s !! id = regs0 !! id;
  lo_dom : forall id, is_Some (pl_regs s !! id) -> id < pl_nextReg s;
  lo_wf : sm_wf (pl_entries s);
  lo_names : pl_names s = names_of (pl_entries s);
  lo_entry : forall name id, sm_find name (pl_entries s) = Some id -> entry_ok (pl_regs s) name id;
  lo_fresh : forall n1 n2 id, sm_find n1 (pl_entries s) = Some id -> sm_find n2 (pl_entries s) = Some id ->
    next0 <= id -> n1 = n2;
}.

Context (Hwf : sm_wf desired) (Hdom : forall id, is_Some (regs0 !! id) -> id < next0)
  (Hprev : forall name id, sm_find name previous = Some id -> is_Some (regs0 !! id)).

Lemma reusable_old name b id : reusable name b = Some id -> id < next0.
Proof. intros [? _]%reusable_Some. by eapply Hdom, Hprev. Qed.

Lemma reusable_loop s name b : loop_ok s ->
  (id ← sm_find name previous; r ← pl_regs s !! id; if keeps r b then Some id else None) = reusable name b.
Proof.
  intros Hs. unfold reusable. destruct (sm_find name previous) as [o|] eqn:E; [|done]. cbn.
  by rewrite (lo_old _ Hs) by eauto.
Qed.

Lemma entry_fresh_bound s name id : loop_ok s -> sm_find name (pl_entries s) = Some id -> id < pl_nextReg s.
Proof.
  intros Hs (b & _ & Hid)%(lo_entry _ Hs). pose proof (lo_next _ Hs).
  destruct (reusable name b) eqn:E.
  - subst. apply reusable_old in E. lia.
  - destruct Hid as [_ Hid]. eapply lo_dom; eauto.
Qed.

Lemma prepareEntry_ok s entry s' :
  entry ∈ desired -> loop_ok s -> prepareEntry previous wrappers s entry = Ret s' -> loop_ok s'.
Proof.
  destruct entry as [name b]. intros Hin%sm_elem_find Hs; [|done]. unfold prepareEntry.
  destruct (negb _); [done|]. rewrite (reusable_loop s) by done. pose proof (lo_next _ Hs) as Hn.
  destruct (reusable name b) as [old|] eqn:Er; intros H; ex_inv.
  - pose proof (reusable_old _ _ _ Er). destruct Hs as [?? Hd Hw Hnm He Hf]. split; cbn; try done.
    + by apply sm_wf_emplace.
    + by rewrite names_of_emplace, Hnm.
    + intros n id [?|(-> & -> & _)]%sm_find_emplace; [by apply He|]. exists b. by rewrite Er.
    + intros n1 n2 id [?|(-> & -> & _)]%sm_find_emplace [?|(? & ? & _)]%sm_find_emplace ?; subst; eauto; lia.
  - pose proof (fun n id => entry_fresh_bound s n id Hs) as Hb. destruct Hs as [? Ho Hd Hw Hnm He Hf].
    split; cbn.
    + lia.
    + intros id ?. rewrite lookup_insert_ne by lia. by apply Ho.
    + intros id. rewrite lookup_insert_is_Some. intros [->|[_ ?%Hd]]; lia.
    + by apply sm_wf_emplace.
    + by rewrite names_of_emplace, Hnm.
    + intros n id [Hfd|(-> & -> & _)]%sm_find_emplace.
      * pose proof (Hb _ _ Hfd). destruct (He _ _ Hfd) as (b' & Hb' & Hm). exists b'. split; [done|].
        destruct (reusable n b'); [done|]. by rewrite lookup_insert_ne by lia.
      * exists b. rewrite Er, lookup_insert_eq. done.
    + intros n1 n2 id [H1|(-> & -> & _)]%sm_find_emplace [H2|(? & ? & _)]%sm_find_emplace ?; subst; eauto.
      * apply Hb in H1. lia.
      * apply Hb in H2. lia.
Qed.

Lemma prepare_loop_ok s :
  exn_fold (prepareEntry previous wrappers)
    {| pl_regs := regs0; pl_nextReg := next0; pl_entries := []; pl_names := [] |} desired = Ret s ->
  loop_ok s.
Proof.
  apply exn_fold_inv; [|eauto using prepareEntry_ok].
  split; cbn; try done. constructor.
Qed.

End prepare.

Lemma prepareEntry_keys previous wrappers s e s' name :
  prepareEntry previous wrappers s e = Ret s' ->
  name ∈ sm_keys (pl_entries s') <-> name = e.1 \/ name ∈ sm_keys (pl_entries s).
Proof.
  destruct e as [n b]. unfold prepareEntry. destruct (negb _); [done|].
  destruct (mbind _ _); intros H; ex_inv; cbn [pl_entries fst]; apply sm_keys_emplace.
Qed.

Lemma prepare_loop_keys previous wrappers desired s s' name :
  exn_fold (prepareEntry previous wrappers) s desired = Ret s' ->
  name ∈ sm_keys (pl_entries s') <-> name ∈ sm_keys desired \/ name ∈ sm_keys (pl_entries s).
Proof.
  revert s; induction desired as [|e l IH]; intros s; cbn; [intros [= ->]; set_solver|].
  intros (s1 & H1 & H2)%exn_bind_ret. rewrite (IH _ H2), (prepareEntry_keys _ _ _ _ _ _ H1), elem_of_cons.
  tauto.
Qed.

Lemma prepareEntry_ret_iff previous wrappers s e :
  (exists s', prepareEntry previous wrappers s e = Ret s') <-> binding_ok e.1 e.2 = true.
Proof.
  destruct e as [n b]. unfold prepareEntry. cbn [fst snd]. destruct (binding_ok n b); cbn.
  - split; [done|]. destruct (mbind _ _); eauto.
  - split; [by intros [??]|done].
Qed.

Lemma prepare_loop_ret_iff previous wrappers desired s :
  (exists s', exn_fold (prepareEntry previous wrappers) s desired = Ret s') <->
  Forall (fun e => binding_ok e.1 e.2 = true) desired.
Proof.
  revert s; induction desired as [|e l IH]; intros s; cbn; [split; eauto|].
  rewrite Forall_cons, <-(prepareEntry_ret_iff previous wrappers s). split.
  - intros (s' & (s1 & H1 & H2)%exn_bind_ret). split; [eauto|]. apply (IH s1). eauto.
  - intros [[s1 H1] Hl]. apply (IH s1) in Hl as [s' H2]. exists s'. apply exn_bind_ret. eauto.
Qed.

Lemma prepare_ret s desired wrappers s' p :
  prepare s desired wrappers = Ret (s', p) <->
  exists l, exn_fold (prepareEntry (sn_entries (rs_current s)) wrappers)
      {| pl_regs := rs_regs s; pl_nextReg := rs_nextReg s; pl_entries := []; pl_names := [] |} desired = Ret l /\
    s' = s <| rs_regs := pl_regs l |> <| rs_nextReg := pl_nextReg l |> <| rs_nextSnap := rs_nextSnap s + 1 |> /\
    p = {| pr_previous := sn_id (rs_current s);
           pr_next := {| sn_id := rs_nextSnap s; sn_entries := pl_entries l; sn_names := pl_names l |};
           pr_retiring := retiring (sn_entries (rs_current s)) (pl_entries l) |}.
Proof. unfold prepare. rewrite exn_bind_ret. naive_solver. Qed.

Lemma prepare_ret_iff s desired wrappers :
  (exists r, prepare s desired wrappers = Ret r) <-> Forall (fun e => binding_ok e.1 e.2 = true) desired.
Proof.
  rewrite <-(prepare_loop_ret_iff (sn_entries (rs_current s)) wrappers desired
    {| pl_regs := rs_regs s; pl_nextReg := rs_nextReg s; pl_entries := []; pl_names := [] |}).
  split.
  - intros [[s' p] (l & Hl & _)%prepare_ret]. eauto.
  - intros [l Hl]. eexists (_, _). apply prepare_ret. eauto.
Qed.

Lemma retiring_elem previous next id :
  sm_wf previous ->
  id ∈ retiring previous next <-> exists name, sm_find name previous = Some id /\ sm_find name next <> Some id.
Proof.
  intros Hwf. unfold retiring. rewrite list_elem_of_omap. split.
  - intros ([name i] & Hin & H). case_bool_decide; [done|]. simplify_eq.
    exists name. split; [by apply sm_elem_find|done].
  - intros (name & Hf & Hn). exists (name, id). split; [by apply sm_find_elem|]. by rewrite bool_decide_eq_false_2.
Qed.
