(* ===== verification/PVRegistrySpec.v ===== *)
(** * What the registry promises while names are replaced under load

    The threads of the program around one registry, as a step relation: any
    number of preparations, publications serialized by [publishMutex], the
    closing of retired channels, and the server's threads creating channels
    and losing them, interleaved in any order.  The invariant has two parts:
    which registrations are active ([PubInv]) and where every channel of a
    registration is still remembered ([ChanInv]). *)

From S2P Require Import Prelude.
From S2P Require Import StrMap.
From S2P Require Import Config.
From S2P Require Import PVRegistry.

Local Open Scope string_scope.
Local Open Scope list_scope.
Local Open Scope Z_scope.

(** ** The system *)

(** The registry, the preparations made, those published, and what happened:
    the registrations that [finish] has drained, those that were ever served
    and the channels the server has offered. *)
Record Sys := {
  y_state : State;
  y_prepared : list Prepared;
  y_published : list Prepared;
  y_drained : gset Z;
  y_served : gset Z;
  y_channels : gset Z;
}.
#[export] Instance Sys_eta : Eta Sys := fun r =>
  Build_Sys (y_state r) (y_prepared r) (y_published r) (y_drained r) (y_served r) (y_channels r).

Definition Sys_new : Sys :=
  {| y_state := State_new; y_prepared := []; y_published := []; y_drained := ∅; y_served := ∅; y_channels := ∅ |}.

Definition snapshot_ids (n : Snapshot) : gset Z := list_to_set (map snd (sn_entries n)).

Inductive step (x : Sys) : Sys -> Prop :=
| S_prepare desired wrappers s' p :
    sm_wf desired -> prepare (y_state x) desired wrappers = Ret (s', p) ->
    step x (x <| y_state := s' |> <| y_prepared := p :: y_prepared x |>)
| S_start p :
    p ∈ y_prepared x -> rs_publisher (y_state x) = None ->
    step x (x <| y_state := (publish_start (y_state x) p).1 |>)
| S_commit p allowed :
    rs_publisher (y_state x) = Some (p, BeforeCommit) ->
    step x (x <| y_state := publish_commit (y_state x) p allowed |>)
| S_retire p id todo :
    rs_publisher (y_state x) = Some (p, Retiring (id :: todo)) ->
    step x (x <| y_state := publish_step (y_state x) p (id :: todo) |>)
| S_store p :
    rs_publisher (y_state x) = Some (p, Retiring []) ->
    step x (x <| y_state := publish_step (y_state x) p [] |> <| y_published := p :: y_published x |>
              <| y_served := y_served x ∪ snapshot_ids (pr_next p) |>)
| S_finish p id :
    p ∈ y_published x -> id ∈ pr_retiring p ->
    step x (x <| y_state := finish_one (y_state x) id |> <| y_drained := y_drained x ∪ {[id]} |>)
| S_close : step x (x <| y_state := close_next (y_state x) |>)
| S_find channel name :
    channel ∉ y_channels x ->
    step x (x <| y_state := create_find (y_state x) channel name |>
              <| y_channels := y_channels x ∪ {[channel]} |>)
| S_track channel id :
    rs_creating (y_state x) !! channel = Some (id, Found) ->
    step x (x <| y_state := create_track (y_state x) channel id |>)
| S_attach channel id :
    rs_creating (y_state x) !! channel = Some (id, Tracked) ->
    step x (x <| y_state := create_attach (y_state x) channel id |>)
| S_check channel id :
    rs_creating (y_state x) !! channel = Some (id, Attached) ->
    step x (x <| y_state := create_check (y_state x) channel id |>)
| S_destroy channel :
    channel ∈ y_channels x -> rs_creating (y_state x) !! channel = None ->
    step x (x <| y_state := destroy (y_state x) channel |>).

Definition reach : Sys -> Prop := rtc step Sys_new.

(** ** Publication *)

(** The flag [active] of a registration that exists. *)
Definition active (s : State) (id : Z) : option bool := rn_active <$> (rs_regs s !! id).

Definition serves (n : Snapshot) (name : string) (id : Z) : Prop := sm_find name (sn_entries n) = Some id.

(** A preparation that is still current: every entry of its snapshot is the
    published one of that name or a registration never served so far. *)
Record fits (s : State) (served : gset Z) (p : Prepared) : Prop := {
  ft_entry : forall name id, serves (pr_next p) name id ->
    serves (rs_current s) name id \/ (id ∉ served) /\ active s id = Some true;
  ft_fresh : forall n1 n2 id, serves (pr_next p) n1 id -> serves (pr_next p) n2 id -> id ∉ served -> n1 = n2;
  ft_retiring : pr_retiring p = retiring (sn_entries (rs_current s)) (sn_entries (pr_next p));
}.

Record prepared_ok (s : State) (served : gset Z) (p : Prepared) : Prop := {
  po_next : pr_previous p < sn_id (pr_next p) < rs_nextSnap s;
  po_previous : pr_previous p <= sn_id (rs_current s);
  po_wf : sm_wf (sn_entries (pr_next p));
  po_names : sn_names (pr_next p) = names_of (sn_entries (pr_next p));
  po_fits : pr_previous p = sn_id (rs_current s) -> fits s served p;
}.

(** Progress of the publisher: the registrations it has passed are inactive. *)
Definition publisher_ok (s : State) (p : Prepared) (phase : publishing) : Prop :=
  pr_previous p = sn_id (rs_current s) /\
  match phase with
  | BeforeCommit => True
  | Retiring todo => forall id, id ∈ pr_retiring p -> id ∈ todo \/ active s id = Some false
  end /\
  match phase with
  | BeforeCommit => True
  | Retiring todo => forall id, id ∈ todo -> id ∈ pr_retiring p
  end.

Definition retiring_now (s : State) (id : Z) : Prop :=
  exists p todo, rs_publisher s = Some (p, Retiring todo) /\ id ∈ pr_retiring p.

Record PubInv (s : State) (prepared published : list Prepared) (drained served : gset Z) : Prop := {
  pi_dom : forall id, is_Some (active s id) -> id < rs_nextReg s;
  pi_wf : sm_wf (sn_entries (rs_current s));
  pi_names : sn_names (rs_current s) = names_of (sn_entries (rs_current s));
  pi_snap : sn_id (rs_current s) < rs_nextSnap s;
  pi_served : forall id, id ∈ served -> is_Some (active s id);
  pi_cur : forall name id, serves (rs_current s) name id -> id ∈ served;
  pi_inj : forall n1 n2 id, serves (rs_current s) n1 id -> serves (rs_current s) n2 id -> n1 = n2;
  pi_prep : forall p, p ∈ prepared -> prepared_ok s served p;
  pi_publisher : forall p phase, rs_publisher s = Some (p, phase) -> p ∈ prepared /\ publisher_ok s p phase;
  pi_active : forall name id, serves (rs_current s) name id -> active s id = Some true \/ retiring_now s id;
  pi_retired : forall id, id ∈ served -> (forall name, ~ serves (rs_current s) name id) -> active s id = Some false;
  pi_published : forall p id, p ∈ published -> id ∈ pr_retiring p -> active s id = Some false;
  pi_drained : forall id, id ∈ drained -> active s id = Some false;
}.

Lemma PubInv_new : PubInv State_new [] [] ∅ ∅.
Proof. split; cbn; try set_solver; try done; [by intros ? []|constructor]. Qed.

Lemma prepared_ok_grow s s' served p :
  (forall id b, active s id = Some b -> active s' id = Some b) -> rs_current s' = rs_current s ->
  rs_nextSnap s <= rs_nextSnap s' -> prepared_ok s served p -> prepared_ok s' served p.
Proof.
  intros Ha Hc Hn [? ? ? ? Hf]. split; rewrite ?Hc; try done; [lia|].
  intros Hp. destruct (Hf Hp) as [He Hfr Hr]. split; rewrite ?Hc; [|done..].
  intros name id Hs. destruct (He _ _ Hs) as [?|[? ?%Ha]]; [by left|by right].
Qed.

Lemma publisher_ok_grow s s' p phase :
  (forall id b, active s id = Some b -> active s' id = Some b) -> rs_current s' = rs_current s ->
  publisher_ok s p phase -> publisher_ok s' p phase.
Proof.
  intros Ha Hc (H1 & H2 & H3). split; [by rewrite Hc|]. split; [|done]. destruct phase; [done|].
  intros id Hin. destruct (H2 id Hin) as [?|?%Ha]; [by left|by right].
Qed.

(** The channels of the registrations do not matter for publication. *)
Lemma PubInv_frame s s' prepared published drained served :
  (forall id, active s' id = active s id) -> rs_current s' = rs_current s ->
  rs_nextReg s' = rs_nextReg s -> rs_nextSnap s' = rs_nextSnap s -> rs_publisher s' = rs_publisher s ->
  PubInv s prepared published drained served -> PubInv s' prepared published drained served.
Proof.
  intros Ha Hc Hr Hn Hp [].
  split; unfold retiring_now in *; rewrite ?Hc, ?Hr, ?Hn, ?Hp;
    try (intros *; rewrite ?Ha; eauto; done); try done.
  - intros p Hin. apply (prepared_ok_grow s); auto; [|lia]. intros. by rewrite Ha.
  - intros p phase Hph. destruct (pi_publisher0 _ _ Hph). split; [done|]. apply (publisher_ok_grow s); auto. intros. by rewrite Ha.
Qed.

(** *** A preparation *)

Section preparation.
Context (s : State) (served : gset Z) (desired : PVBindings) (wrappers : smap Wrapper) (l : PrepareLoop)
  (Hwf : sm_wf desired)
  (Hregs : forall id, is_Some (active s id) -> id < rs_nextReg s)
  (Hserved : forall id, id ∈ served -> is_Some (active s id))
  (Hcur : forall name id, serves (rs_current s) name id -> id ∈ served)
  (Hl : exn_fold (prepareEntry (sn_entries (rs_current s)) wrappers)
      {| pl_regs := rs_regs s; pl_nextReg := rs_nextReg s; pl_entries := []; pl_names := [] |} desired = Ret l).

Definition after_prepare : State :=
  s <| rs_regs := pl_regs l |> <| rs_nextReg := pl_nextReg l |> <| rs_nextSnap := rs_nextSnap s + 1 |>.

Definition made : Prepared :=
  {| pr_previous := sn_id (rs_current s);
     pr_next := {| sn_id := rs_nextSnap s; sn_entries := pl_entries l; sn_names := pl_names l |};
     pr_retiring := retiring (sn_entries (rs_current s)) (pl_entries l) |}.

Lemma active_is_Some t id : is_Some (active t id) <-> is_Some (rs_regs t !! id).
Proof. apply fmap_is_Some. Qed.

Lemma made_loop : loop_ok (rs_regs s) (rs_nextReg s) (sn_entries (rs_current s)) desired wrappers l.
Proof.
  apply prepare_loop_ok; [done| | |done].
  - intros id. rewrite <-active_is_Some. apply Hregs.
  - intros name id ?%Hcur%Hserved. by apply active_is_Some.
Qed.

(** What exists is not changed by preparing. *)
Lemma active_after_prepare id b : active s id = Some b -> active after_prepare id = Some b.
Proof.
  intros Hb. unfold active. cbn. rewrite (lo_old _ _ _ _ _ _ made_loop); [done|]. apply Hregs. eauto.
Qed.

Lemma made_fits : fits after_prepare served made.
Proof.
  pose proof made_loop as Hok.
  assert (He : forall name id, serves (pr_next made) name id ->
    serves (rs_current s) name id \/ rs_nextReg s <= id /\ active after_prepare id = Some true).
  { intros name id (b & Hb & Hid)%(lo_entry _ _ _ _ _ _ Hok). destruct (reusable _ _ _ _) as [old|] eqn:E.
    - subst. left. by apply reusable_Some in E as [??].
    - destruct Hid as [Hge Hr]. right. unfold active. cbn. by rewrite Hr. }
  split; [| |done].
  - intros name id [?|[? ?]]%He; [by left|]. right. split; [|done]. intros ?%Hserved%Hregs. lia.
  - intros n1 n2 id H1 H2 Hns. destruct (He _ _ H1) as [?%Hcur|[? _]]; [done|].
    by eapply (lo_fresh _ _ _ _ _ _ Hok).
Qed.

Lemma made_ok : sn_id (rs_current s) < rs_nextSnap s -> prepared_ok after_prepare served made.
Proof.
  intros Hs. split; cbn; try lia.
  - apply (lo_wf _ _ _ _ _ _ made_loop).
  - apply (lo_names _ _ _ _ _ _ made_loop).
  - intros _. apply made_fits.
Qed.

End preparation.

Lemma PubInv_prepare s desired wrappers s' p prepared published drained served :
  sm_wf desired -> prepare s desired wrappers = Ret (s', p) ->
  PubInv s prepared published drained served -> PubInv s' (p :: prepared) published drained served.
Proof.
  intros Hwf (l & Hl & -> & ->)%prepare_ret [].
  pose proof (active_after_prepare s served desired wrappers l Hwf pi_dom0 pi_served0 pi_cur0 Hl) as Ha.
  pose proof (made_ok s served desired wrappers l Hwf pi_dom0 pi_served0 pi_cur0 Hl pi_snap0) as Hm.
  pose proof (made_loop s served desired wrappers l Hwf pi_dom0 pi_served0 pi_cur0 Hl) as Hok.
  fold (after_prepare s l) (made s l) in *. split; try (intros; apply Ha; eauto; done); try done.
  - intros id ?%active_is_Some. by apply (lo_dom _ _ _ _ _ _ Hok).
  - cbn. lia.
  - intros id [b Hb]%pi_served0. exists b. by apply Ha.
  - intros q [->|Hq]%elem_of_cons; [done|]. apply (prepared_ok_grow s); auto. cbn. lia.
  - intros q phase Hph. destruct (pi_publisher0 q phase Hph). split; [by right|]. by apply (publisher_ok_grow s).
  - intros name id [?%Ha|?]%pi_active0; [by left|by right].
Qed.

(** *** A publication *)

Lemma PubInv_start s p prepared published drained served :
  p ∈ prepared -> rs_publisher s = None ->
  PubInv s prepared published drained served -> PubInv (publish_start s p).1 prepared published drained served.
Proof.
  intros Hp Hn Hi. unfold publish_start. destruct (Z.eqb_spec (pr_previous p) (sn_id (rs_current s))) as [E|]; [|done].
  assert (Hno : forall id, ~ retiring_now s id) by (intros id (? & ? & ? & _); congruence).
  destruct Hi. split; try done.
  - intros q Hq. by apply (prepared_ok_grow s); auto.
  - intros q phase [= <- <-]. done.
  - intros name id [?|?%Hno]%pi_active0; [by left|done].
Qed.

Lemma PubInv_commit s p allowed prepared published drained served :
  rs_publisher s = Some (p, BeforeCommit) ->
  PubInv s prepared published drained served -> PubInv (publish_commit s p allowed) prepared published drained served.
Proof.
  intros Hp Hi. assert (Hno : forall id, ~ retiring_now s id) by (intros id (? & ? & ? & _); congruence).
  destruct Hi. destruct (pi_publisher0 _ _ Hp) as (Hin & Hprev & _). split; try done.
  - intros q Hq. by apply (prepared_ok_grow s); auto.
  - intros q phase. unfold publish_commit. cbn. destruct allowed; [|done]. intros [= <- <-].
    split; [done|]. split; [done|]. split; [by left|done].
  - intros name id [?|?%Hno]%pi_active0; [by left|done].
Qed.

(** A current preparation retires published registrations. *)
Lemma retiring_current s served p id :
  sm_wf (sn_entries (rs_current s)) -> fits s served p ->
  id ∈ pr_retiring p <-> exists name, serves (rs_current s) name id /\ ~ serves (pr_next p) name id.
Proof. intros Hwf Hf. rewrite (ft_retiring _ _ _ Hf). by apply retiring_elem. Qed.

Lemma active_retire s p id todo j :
  active (publish_step s p (id :: todo)) j =
  if decide (j = id) then (fun _ => false) <$> active s j else active s j.
Proof.
  unfold active, publish_step. cbn. case_decide; subst.
  - rewrite lookup_alter_eq. by destruct (rs_regs s !! id).
  - by rewrite lookup_alter_ne by done.
Qed.

Lemma PubInv_retire s p id todo prepared published drained served :
  rs_publisher s = Some (p, Retiring (id :: todo)) ->
  PubInv s prepared published drained served ->
  PubInv (publish_step s p (id :: todo)) prepared published drained served.
Proof.
  intros Hp Hi. destruct Hi. destruct (pi_publisher0 _ _ Hp) as (Hin & Hprev & Hdone & Htodo).
  pose proof (po_fits _ _ _ (pi_prep0 _ Hin) Hprev) as Hf.
  assert (Hid : id ∈ pr_retiring p) by (apply Htodo; left).
  assert (Hs : id ∈ served) by (apply (retiring_current _ _ _ _ pi_wf0 Hf) in Hid as (n & ? & _); eauto).
  destruct (pi_served0 _ Hs) as [b0 Hb0].
  assert (Hfalse : forall j, active s j = Some false -> active (publish_step s p (id :: todo)) j = Some false).
  { intros j Hj. rewrite active_retire. case_decide; [|done]. by rewrite Hj. }
  assert (Hself : active (publish_step s p (id :: todo)) id = Some false).
  { rewrite active_retire, decide_True by done. by rewrite Hb0. }
  split; try done; try (intros; apply Hfalse; eauto; done).
  - intros j [b Hj]. rewrite active_retire in Hj. case_decide; subst; eauto.
  - intros j Hj. rewrite active_retire. case_decide; [apply fmap_is_Some|]; eauto.
  - intros q Hq. destruct (pi_prep0 _ Hq) as [? ? ? ? Hfq]. split; try done. intros Hqp.
    destruct (Hfq Hqp) as [He ? ?]. split; try done. intros n j Hj.
    destruct (He _ _ Hj) as [?|[? ?]]; [by left|]. right. split; [done|].
    rewrite active_retire, decide_False by congruence. done.
  - intros q phase [= <- <-]. split; [done|]. split; [done|]. split; [|by intros j ?; apply Htodo; right].
    intros j Hj. destruct (Hdone j Hj) as [[->|?]%elem_of_cons|?]; auto.
  - intros n j Hj. destruct (pi_active0 _ _ Hj) as [?|(q & t & Hq & ?)].
    + rewrite active_retire. case_decide; [|by left]. subst. right. by exists p, todo.
    + right. rewrite Hp in Hq. simplify_eq. by exists q, todo.
Qed.

Lemma snapshot_ids_elem n id : sm_wf (sn_entries n) -> id ∈ snapshot_ids n <-> exists name, serves n name id.
Proof.
  intros Hwf. unfold snapshot_ids, serves. rewrite elem_of_list_to_set, list_elem_of_fmap. split.
  - intros ([name i] & -> & Hin). exists name. by apply sm_elem_find.
  - intros [name Hn]. exists (name, id). split; [done|]. by apply sm_find_elem.
Qed.

Lemma PubInv_store s p prepared published drained served :
  rs_publisher s = Some (p, Retiring []) ->
  PubInv s prepared published drained served ->
  PubInv (publish_step s p []) prepared (p :: published) drained (served ∪ snapshot_ids (pr_next p)).
Proof.
  intros Hp Hi. destruct Hi. destruct (pi_publisher0 _ _ Hp) as (Hin & Hprev & Hdone & _).
  destruct (pi_prep0 _ Hin) as [Hnx _ Hwf Hnm Hf]. specialize (Hf Hprev).
  assert (Hret : forall id, id ∈ pr_retiring p -> active s id = Some false).
  { intros id [?%elem_of_nil|?]%Hdone; done. }
  assert (Hkept : forall name id, serves (pr_next p) name id -> active s id = Some true).
  { intros name id Hs. destruct (ft_entry _ _ _ Hf _ _ Hs) as [Hc|[_ ?]]; [|done].
    destruct (pi_active0 _ _ Hc) as [?|(q & t & Hq & Hr)]; [done|]. rewrite Hp in Hq. simplify_eq.
    apply (retiring_current _ _ _ _ pi_wf0 Hf) in Hr as (n & Hn & Hnn). exfalso.
    apply Hnn. by rewrite (pi_inj0 _ _ _ Hn Hc). }
  split; try done; cbn.
  - lia.
  - intros id [?|[n ?]%snapshot_ids_elem]%elem_of_union; eauto.
  - intros n id ?. apply elem_of_union. right. apply snapshot_ids_elem; eauto.
  - intros n1 n2 id H1 H2. destruct (decide (id ∈ served)) as [Hs|]; [|by eapply (ft_fresh _ _ _ Hf)].
    destruct (ft_entry _ _ _ Hf _ _ H1) as [?|[? _]], (ft_entry _ _ _ Hf _ _ H2) as [?|[? _]]; [eauto|done..].
  - intros q Hq. destruct (pi_prep0 _ Hq) as [? ? ? ? _]. split; cbn; try done; lia.
  - intros n id ?%Hkept. by left.
  - intros id Hid Hno. rewrite elem_of_union, (snapshot_ids_elem _ _ Hwf) in Hid.
    destruct Hid as [Hs|[n Hs]]; [|by apply Hno in Hs].
    destruct (decide (id ∈ snapshot_ids (rs_current s))) as [Hc|Hc]; rewrite snapshot_ids_elem in Hc by done.
    + apply Hret, (retiring_current _ _ _ _ pi_wf0 Hf). destruct Hc as [n Hn]. exists n. split; [done|]. apply Hno.
    + apply pi_retired0; [done|]. intros n Hn. apply Hc. by exists n.
  - intros q id [->|Hq]%elem_of_cons Hid; [by apply Hret|]. by eapply pi_published0.
Qed.

(** *** The other steps *)

Lemma active_finish_one s id j : active (finish_one s id) j = active s j.
Proof.
  unfold active, finish_one. destruct (rs_regs s !! id) as [r|] eqn:E; [|done]. cbn.
  destruct (decide (j = id)) as [->|]; [by rewrite lookup_insert_eq, E|by rewrite lookup_insert_ne].
Qed.

Lemma active_create_track s c id j : active (create_track s c id) j = active s j.
Proof.
  unfold active, create_track. cbn. destruct (decide (j = id)) as [->|]; [|by rewrite lookup_alter_ne].
  rewrite lookup_alter_eq. by destruct (rs_regs s !! id).
Qed.

Lemma PubInv_finish s p id prepared published drained served :
  p ∈ published -> id ∈ pr_retiring p ->
  PubInv s prepared published drained served ->
  PubInv (finish_one s id) prepared published (drained ∪ {[id]}) served.
Proof.
  intros Hp Hid Hi. assert (Hf : active s id = Some false) by (by eapply pi_published).
  apply (PubInv_frame s); [intros; apply active_finish_one|unfold finish_one; by destruct (_ !! _)..|].
  destruct Hi. split; try done. intros j. rewrite elem_of_union, elem_of_singleton. naive_solver.
Qed.

(** ** Channels *)

Definition tracked (s : State) (c id : Z) : Prop := exists r, rs_regs s !! id = Some r /\ c ∈ rn_channels r.

Record creating_ok (s : State) (drained : gset Z) (c id : Z) (stage : creating) : Prop := {
  co_reg : is_Some (rs_regs s !! id);
  co_gone : c ∉ rs_gone s;
  co_closed : stage <> Attached -> rs_open s !! c = None;
  co_tracked : stage <> Found -> tracked s c id \/ id ∈ drained;
}.

(** A channel that is open is being created, or is where retirement finds it:
    in the list of its registration while that is not drained, or among those
    about to be closed. *)
Definition open_ok (s : State) (drained : gset Z) (c id : Z) : Prop :=
  (c ∉ rs_gone s) /\
  match rs_creating s !! c with
  | Some (id', _) => id' = id
  | None => (tracked s c id /\ id ∉ drained) \/ c ∈ rs_closing s
  end.

Record ChanInv (s : State) (drained channels : gset Z) : Prop := {
  ci_creating : forall c id stage, rs_creating s !! c = Some (id, stage) -> creating_ok s drained c id stage;
  ci_open : forall c id, rs_open s !! c = Some id -> open_ok s drained c id;
  ci_known : forall c, is_Some (rs_creating s !! c) \/ is_Some (rs_open s !! c) \/ c ∈ rs_gone s -> c ∈ channels;
}.

Lemma ChanInv_new : ChanInv State_new ∅ ∅.
Proof. split; cbn; [done|done|]. intros c [[? ?]|[[? ?]|?]]; set_solver. Qed.

(** Steps that leave the channels alone. *)
Lemma ChanInv_frame s s' drained channels :
  (forall c id, tracked s c id -> tracked s' c id) ->
  (forall id, is_Some (rs_regs s !! id) -> is_Some (rs_regs s' !! id)) ->
  rs_creating s' = rs_creating s -> rs_open s' = rs_open s -> rs_closing s' = rs_closing s -> rs_gone s' = rs_gone s ->
  ChanInv s drained channels -> ChanInv s' drained channels.
Proof.
  intros Ht Hr Hc Ho Hcl Hg [H1 H2 H3]. split; rewrite ?Hc, ?Ho, ?Hg; [| |done].
  - intros c id stage [? ? ? Htr]%H1. split; rewrite ?Ho, ?Hg; auto. intros Hst. destruct (Htr Hst); auto.
  - intros c id [Hgn Hm]%H2. split; [by rewrite Hg|]. rewrite Hc, Hcl.
    destruct (rs_creating s !! c) as [[]|]; [done|]. destruct Hm as [[? ?]|?]; auto.
Qed.

(** A registration may change anything but its channels. *)
Lemma ChanInv_regs s s' drained channels :
  (forall id r, rs_regs s !! id = Some r -> exists r', rs_regs s' !! id = Some r' /\ rn_channels r' = rn_channels r) ->
  rs_creating s' = rs_creating s -> rs_open s' = rs_open s -> rs_closing s' = rs_closing s -> rs_gone s' = rs_gone s ->
  ChanInv s drained channels -> ChanInv s' drained channels.
Proof.
  intros Hr. apply ChanInv_frame.
  - intros c id (r & (r' & ? & E)%Hr & Hc). exists r'. by rewrite E.
  - intros id [r (r' & ? & _)%Hr]. eauto.
Qed.

Lemma ChanInv_prepare s desired wrappers s' p prepared published drained served channels :
  sm_wf desired -> prepare s desired wrappers = Ret (s', p) ->
  PubInv s prepared published drained served ->
  ChanInv s drained channels -> ChanInv s' drained channels.
Proof.
  intros Hwf (l & Hl & -> & _)%prepare_ret Hi. apply ChanInv_regs; try done.
  destruct Hi. pose proof (made_loop s served desired wrappers l Hwf pi_dom0 pi_served0 pi_cur0 Hl) as Hok.
  intros id r Hr. exists r. split; [|done]. cbn. rewrite (lo_old _ _ _ _ _ _ Hok); [done|].
  apply pi_dom0, active_is_Some. eauto.
Qed.

Lemma ChanInv_retire s p id todo drained channels :
  ChanInv s drained channels -> ChanInv (publish_step s p (id :: todo)) drained channels.
Proof.
  apply ChanInv_regs; try done. intros j r Hr. cbn. destruct (decide (j = id)) as [->|].
  - rewrite lookup_alter_eq, Hr. by eexists.
  - rewrite lookup_alter_ne by done. eauto.
Qed.

(** Draining a registration hands its channels to the closing loop. *)
Lemma ChanInv_finish s id drained channels :
  ChanInv s drained channels -> ChanInv (finish_one s id) (drained ∪ {[id]}) channels.
Proof.
  intros [H1 H2 H3]. unfold finish_one. destruct (rs_regs s !! id) as [r|] eqn:E; cbn.
  2: { split; [| |done].
    - intros c j stage [? ? ? Ht]%H1. split; auto. intros [?|?]%Ht; [by left|]. set_solver.
    - intros c j [? Hm]%H2. split; [done|]. destruct (rs_creating s !! c) as [[]|]; [done|].
      destruct Hm as [[(r & Hr & ?) ?]|?]; [left|by right]. split; [by exists r|].
      assert (j <> id) by congruence. set_solver. }
  set (s' := Build_State _ _ _ _ _ _ _ _ _).
  assert (Ht : forall c j, tracked s c j -> tracked s' c j \/ j = id /\ c ∈ rn_channels r).
  { intros c j (r0 & Hr0 & Hc). destruct (decide (j = id)) as [->|]; [right; by simplify_eq|].
    left. exists r0. cbn. by rewrite lookup_insert_ne. }
  split; cbn; [| |done].
  - intros c j stage [? ? ? Htr]%H1. split; cbn; auto.
    + rewrite lookup_insert_is_Some. destruct (decide (id = j)); auto.
    + intros Hst. destruct (Htr Hst) as [[?|[-> _]]%Ht|]; [by left|set_solver..].
  - intros c j [? Hm]%H2. split; [done|]. cbn. destruct (rs_creating s !! c) as [[]|]; [done|].
    rewrite elem_of_app. destruct Hm as [[(r0 & Hr0 & ?) ?]|?]; [|by auto].
    destruct (decide (j = id)) as [->|]; [simplify_eq; auto|]. left. split; [|set_solver].
    exists r0. cbn. by rewrite lookup_insert_ne.
Qed.

Lemma close_open_ok s c c' id : rs_open (close s c) !! c' = Some id <-> c' <> c /\ rs_open s !! c' = Some id.
Proof. cbn. rewrite lookup_delete_Some. naive_solver. Qed.

(** Closing a channel never breaks anything. *)
Lemma ChanInv_close s c drained channels : ChanInv s drained channels -> ChanInv (close s c) drained channels.
Proof.
  intros [H1 H2 H3]. split.
  - intros c' id stage [? ? Ho ?]%H1. split; auto. intros Hst. cbn. apply lookup_delete_None. auto.
  - intros c' id [_ Ho]%close_open_ok. by apply H2.
  - intros c' [?|[[id [_ ?]%close_open_ok]|?]]; apply H3; eauto.
Qed.

Lemma ChanInv_close_next s drained channels : ChanInv s drained channels -> ChanInv (close_next s) drained channels.
Proof.
  intros Hi. unfold close_next. destruct (rs_closing s) as [|c rest] eqn:E; [done|].
  destruct (ChanInv_close s c _ _ Hi) as [H1 H2 H3]. split; [|..|apply H3].
  - intros c' id stage [? ? ? ?]%H1. by split.
  - intros c' id Ho. destruct (H2 _ _ Ho) as [? Hm]. split; [done|]. cbn in *.
    destruct (rs_creating s !! c') as [[]|]; [done|]. destruct Hm as [?|Hin]; [by left|].
    rewrite E in Hin. apply elem_of_cons in Hin as [->|?]; [|by right].
    by rewrite lookup_delete_eq in Ho.
Qed.

Lemma ChanInv_find s c name prepared published drained served channels :
  c ∉ channels -> PubInv s prepared published drained served ->
  ChanInv s drained channels -> ChanInv (create_find s c name) drained (channels ∪ {[c]}).
Proof.
  intros Hc Hp [H1 H2 H3]. unfold create_find.
  destruct (sm_find name _) as [id|] eqn:E.
  2: { split; [done..|]. intros c' ?%H3. set_solver. }
  assert (Hn : rs_open s !! c = None /\ c ∉ rs_gone s).
  { split; [apply eq_None_not_Some|]; intros ?; apply Hc, H3; auto. }
  split; cbn.
  - intros c' j stage [[<- [= <- <-]]|[? Hs%H1]]%lookup_insert_Some; [|by destruct Hs].
    split; cbn; [|naive_solver..]. apply active_is_Some. by eapply pi_served, pi_cur.
  - intros c' j Ho. destruct (H2 _ _ Ho). split; [done|]. cbn.
    rewrite lookup_insert_ne; [done|]. intros <-. naive_solver.
  - intros c'. rewrite lookup_insert_is_Some'. intros Hk. destruct (decide (c' = c)) as [->|]; [set_solver|].
    apply elem_of_union_l, H3. naive_solver.
Qed.

Lemma tracked_create s c id c' j :
  is_Some (rs_regs s !! id) -> c' ∉ rs_gone s -> tracked s c' j \/ c' = c /\ j = id -> tracked (create_track s c id) c' j.
Proof.
  intros [r0 Hr0] Hg Hc. unfold tracked, create_track. cbn. destruct (decide (j = id)) as [->|].
  - rewrite lookup_alter_eq, Hr0. eexists. split; [done|]. cbn. rewrite elem_of_app, list_elem_of_filter.
    destruct Hc as [(r & Hr & Hin)|[-> _]]; [left; by simplify_eq|right; left].
  - rewrite lookup_alter_ne by done. naive_solver.
Qed.

Lemma ChanInv_track s c id drained channels :
  rs_creating s !! c = Some (id, Found) ->
  ChanInv s drained channels -> ChanInv (create_track s c id) drained channels.
Proof.
  intros Hc [H1 H2 H3]. destruct (H1 _ _ _ Hc) as [Hreg Hg Ho _].
  assert (Hregs : forall j, is_Some (rs_regs s !! j) -> is_Some (rs_regs (create_track s c id) !! j)).
  { intros j. cbn. by rewrite lookup_alter_is_Some. }
  split.
  - intros c' j stage. unfold create_track at 1; cbn.
    intros [[<- [= <- <-]]|[? [? ? ? Ht]%H1]]%lookup_insert_Some.
    + split; [auto|done|by auto|]. intros _. left. apply tracked_create; auto.
    + split; auto. intros [?|?]%Ht; [left; apply tracked_create; auto|by right].
  - intros c' j Hop. destruct (H2 _ _ Hop) as [? Hm]. split; [done|]. unfold create_track at 1; cbn.
    destruct (decide (c' = c)) as [->|].
    + cbn in Hop. by rewrite Ho in Hop.
    + rewrite lookup_insert_ne by done. destruct (rs_creating s !! c') as [[]|]; [done|].
      destruct Hm as [[? ?]|?]; [left; split; [apply tracked_create; auto|done]|by right].
  - intros c'. cbn. rewrite lookup_insert_is_Some'. intros Hk. apply H3. destruct Hk as [[<-|?]|?]; eauto.
Qed.

(** [onCreate] returns: the channel is closed, or still in the list of its
    registration. *)
Lemma ChanInv_created s c drained channels :
  (forall id, rs_open s !! c = Some id -> tracked s c id /\ id ∉ drained) ->
  ChanInv s drained channels -> ChanInv (s <| rs_creating := delete c (rs_creating s) |>) drained channels.
Proof.
  intros Hc [H1 H2 H3]. split; cbn.
  - intros c' j stage [? ?]%lookup_delete_Some. by destruct (H1 c' j stage).
  - intros c' j Hop. destruct (H2 _ _ Hop) as [? Hm]. split; [done|]. cbn.
    destruct (decide (c' = c)) as [->|]; [|by rewrite lookup_delete_ne].
    rewrite lookup_delete_eq. left. by apply Hc.
  - intros c' Hk. apply H3. destruct Hk as [[? [_ ?]%lookup_delete_Some]|?]; eauto.
Qed.

Lemma ChanInv_attach s c id drained channels :
  rs_creating s !! c = Some (id, Tracked) ->
  ChanInv s drained channels -> ChanInv (create_attach s c id) drained channels.
Proof.
  intros Hc Hi. pose proof Hi as [H1 H2 H3]. destruct (H1 _ _ _ Hc) as [[r Hr] Hg Ho Ht].
  unfold create_attach. rewrite Hr. destruct (match rn_wrapper r with Some w => w c | None => true end).
  - split; cbn.
    + intros c' j stage [[<- [= <- <-]]|[? [? ? Hcl ?]%H1]]%lookup_insert_Some; [by split; eauto|].
      split; auto. intros ?. cbn. rewrite lookup_insert_ne; auto.
    + intros c' j [[<- <-]|[? [? Hm]%H2]]%lookup_insert_Some; (split; [done|]); cbn.
      * by rewrite lookup_insert_eq.
      * by rewrite lookup_insert_ne.
    + intros c'. rewrite !lookup_insert_is_Some'. intros Hk. apply H3.
      destruct Hk as [[<-|?]|[[<-|?]|?]]; eauto.
  - apply ChanInv_created; [|done]. intros j. by rewrite Ho.
Qed.

(** The last check: the channel is closed unless the registration is active,
    and then no drain can have missed it. *)
Lemma ChanInv_check s c id prepared published drained served channels :
  rs_creating s !! c = Some (id, Attached) ->
  PubInv s prepared published drained served ->
  ChanInv s drained channels -> ChanInv (create_check s c id) drained channels.
Proof.
  intros Hc Hp Hi. destruct (ci_creating _ _ _ Hi _ _ _ Hc) as [[r Hr] _ _ Ht].
  unfold create_check. cbn. rewrite Hr. destruct (rn_active r) eqn:Ha; cbn [negb].
  - apply ChanInv_created; [|done]. intros j [_ Hj]%(ci_open _ _ _ Hi). rewrite Hc in Hj. subst j.
    assert (Hnd : id ∉ drained).
    { intros Hd%(pi_drained _ _ _ _ _ Hp). unfold active in Hd. rewrite Hr in Hd. cbn in Hd. congruence. }
    destruct Ht as [?|?]; done.
  - apply (ChanInv_created (close s c)); [|by apply ChanInv_close].
    intros j [? _]%close_open_ok. done.
Qed.

Lemma ChanInv_destroy s c drained channels :
  c ∈ channels -> rs_creating s !! c = None ->
  ChanInv s drained channels -> ChanInv (destroy s c) drained channels.
Proof.
  intros Hk Hc Hi. destruct (ChanInv_close s c _ _ Hi) as [H1 H2 H3]. split; cbn.
  - intros c' id stage Hs. destruct (H1 _ _ _ Hs). split; try done. cbn in *.
    assert (c' <> c) by (intros ->; rewrite Hc in Hs; done). set_solver.
  - intros c' id Ho. destruct (H2 _ _ Ho). split; [|done]. cbn in *.
    assert (c' <> c) by (intros ->; rewrite lookup_delete_eq in Ho; done). set_solver.
  - intros c' H. destruct (decide (c' = c)) as [->|]; [done|]. apply H3. cbn. set_solver.
Qed.

(** ** The invariant *)

Record Inv (x : Sys) : Prop := {
  inv_pub : PubInv (y_state x) (y_prepared x) (y_published x) (y_drained x) (y_served x);
  inv_chan : ChanInv (y_state x) (y_drained x) (y_channels x);
}.

Ltac pub_frame s :=
  apply (PubInv_frame s); [intros; unfold active|..]; try done.

Lemma step_inv x x' : step x x' -> Inv x -> Inv x'.
Proof.
  intros Hs [Hp Hc].
  destruct Hs as [desired wrappers s' p Hwf Hpr|p Hin Hn|p allowed Hph|p id todo Hph|p Hph|p id Hin Hid| |
    c name Hnew|c id Hcr|c id Hcr|c id Hcr|c Hk Hcr]; split; cbn.
  - by eapply PubInv_prepare.
  - by eapply ChanInv_prepare.
  - by apply PubInv_start.
  - unfold publish_start. destruct (negb _); [done|]. eapply ChanInv_regs, Hc; eauto.
  - by apply PubInv_commit.
  - eapply ChanInv_regs, Hc; eauto.
  - by apply PubInv_retire.
  - by apply ChanInv_retire.
  - by apply PubInv_store.
  - eapply ChanInv_regs, Hc; eauto.
  - by eapply PubInv_finish.
  - by apply ChanInv_finish.
  - unfold close_next. destruct (rs_closing _); [done|]. by pub_frame (y_state x).
  - by apply ChanInv_close_next.
  - unfold create_find. destruct (sm_find _ _); [|done]. by pub_frame (y_state x).
  - by eapply ChanInv_find.
  - apply (PubInv_frame (y_state x)); try done. apply active_create_track.
  - by apply ChanInv_track.
  - unfold create_attach. destruct (rs_regs _ !! _) as [r|]; [|done].
    destruct (match rn_wrapper r with Some w => w c | None => true end); by pub_frame (y_state x).
  - by apply ChanInv_attach.
  - unfold create_check. cbn. destruct (rs_regs _ !! _) as [r|]; [destruct (negb _)|]; by pub_frame (y_state x).
  - by eapply ChanInv_check.
  - by pub_frame (y_state x).
  - by apply ChanInv_destroy.
Qed.

Lemma registry_reach_inv x : reach x -> Inv x.
Proof.
  unfold reach. intros H. assert (Inv Sys_new) as Hn by (split; [apply PubInv_new|apply ChanInv_new]).
  revert Hn. induction H; eauto using step_inv.
Qed.

Lemma onList_keys x : reach x -> sm_keys (onList (y_state x)) = sm_keys (sn_entries (rs_current (y_state x))).
Proof. intros [[] _]%registry_reach_inv. unfold onList. by rewrite pi_names0, names_of_keys. Qed.

Lemma served_active x id :
  reach x -> rs_publisher (y_state x) = None -> id ∈ y_served x ->
  active (y_state x) id = Some true <-> exists name, serves (rs_current (y_state x)) name id.
Proof.
  intros [[] _]%registry_reach_inv Hn Hid. split.
  - intros Ha. destruct (decide (id ∈ snapshot_ids (rs_current (y_state x)))) as [Hs|Hs];
      rewrite snapshot_ids_elem in Hs by done; [done|].
    rewrite pi_retired0 in Ha; [done|done|]. intros name ?. apply Hs. eauto.
  - intros [name [?|(p & todo & Hp & _)]%pi_active0]; [done|congruence].
Qed.

(** ** A publication without interference *)

(** The loop of [publish], as steps of the system. *)
Lemma publish_retire_reach x p todo :
  reach x -> rs_publisher (y_state x) = Some (p, Retiring todo) ->
  exists x', reach x' /\ y_state x' = publish_retire (y_state x) p todo /\ p ∈ y_published x' /\
    (forall id, (exists name, serves (pr_next p) name id) \/ id ∈ y_served x -> id ∈ y_served x') /\
    rs_publisher (y_state x') = None /\ rs_current (y_state x') = pr_next p /\
    (forall id, rn_binding <$> (rs_regs (y_state x') !! id) = rn_binding <$> (rs_regs (y_state x) !! id)).
Proof.
  revert x. induction todo as [|id todo IH]; intros x Hx Hp.
  - eexists. split; [eapply rtc_r; [exact Hx|by apply S_store]|]. cbn. split; [done|]. split; [left|].
    split; [|done]. destruct (registry_reach_inv _ Hx) as [Hi _].
    pose proof (pi_publisher _ _ _ _ _ Hi _ _ Hp) as [Hin _].
    pose proof (po_wf _ _ _ (pi_prep _ _ _ _ _ Hi _ Hin)) as Hwf.
    intros id. rewrite elem_of_union, (snapshot_ids_elem _ _ Hwf). tauto.
  - destruct (IH (x <| y_state := publish_step (y_state x) p (id :: todo) |>)) as (x' & Hx' & Hs & Hpb & Hsv & Hn & Hc & Hb).
    { eapply rtc_r; [exact Hx|by apply S_retire]. }
    { done. }
    exists x'. split; [done|]. split; [done|]. split; [done|]. split; [done|]. split; [done|]. split; [done|].
    intros j. rewrite Hb. cbn. destruct (decide (j = id)) as [->|]; [|by rewrite lookup_alter_ne].
    rewrite lookup_alter_eq. by destruct (rs_regs (y_state x) !! id).
Qed.

Lemma publish_reach x p :
  reach x -> rs_publisher (y_state x) = None -> p ∈ y_prepared x -> pr_previous p = sn_id (rs_current (y_state x)) ->
  (publish (y_state x) p true).2 = true /\
  exists x', reach x' /\ y_state x' = (publish (y_state x) p true).1 /\ p ∈ y_published x' /\
    (forall id, (exists name, serves (pr_next p) name id) \/ id ∈ y_served x -> id ∈ y_served x') /\
    rs_publisher (y_state x') = None /\ rs_current (y_state x') = pr_next p /\
    (forall id, rn_binding <$> (rs_regs (y_state x') !! id) = rn_binding <$> (rs_regs (y_state x) !! id)).
Proof.
  intros Hx Hn Hp Hprev. set (s := y_state x) in *.
  assert (Hst : publish_start s p = (s <| rs_publisher := Some (p, BeforeCommit) |>, true)).
  { unfold publish_start. by rewrite (proj2 (Z.eqb_eq _ _) Hprev). }
  unfold publish. rewrite Hst. cbn [negb]. split; [done|].
  set (x1 := x <| y_state := s <| rs_publisher := Some (p, BeforeCommit) |> |>).
  assert (Hx1 : reach x1).
  { eapply rtc_r; [exact Hx|]. pose proof (S_start x p Hp Hn) as H. fold s in H. by rewrite Hst in H. }
  destruct (publish_retire_reach (x1 <| y_state := publish_commit (y_state x1) p true |>) p (pr_retiring p))
    as (x' & Hx' & Hs & Hpb & Hsv & Hn' & Hc & Hb); [eapply rtc_r; [exact Hx1|by apply S_commit]|done|].
  exists x'. split; [done|]. split; [exact Hs|]. split; [done|]. split; [exact Hsv|]. split; [done|].
  split; [done|exact Hb].
Qed.

Lemma publish_installs_aux x desired wrappers s' p :
  reach x -> rs_publisher (y_state x) = None -> sm_wf desired ->
  prepare (y_state x) desired wrappers = Ret (s', p) ->
  (publish s' p true).2 = true /\
  exists x', reach x' /\ y_state x' = (publish s' p true).1 /\ p ∈ y_published x' /\
    sm_keys (onList (y_state x')) = sm_keys (sn_entries (pr_next p)) /\
    (forall name, name ∈ sm_keys (onList (y_state x')) <-> name ∈ sm_keys desired) /\
    forall name b, sm_find name desired = Some b -> exists id r,
      serves (rs_current (y_state x')) name id /\ rs_regs (y_state x') !! id = Some r /\
      rn_active r = true /\ bd_owner (rn_binding r) = bd_owner b /\ bd_access (rn_binding r) = bd_access b /\
      (forall old, reusable (rs_regs (y_state x)) (sn_entries (rs_current (y_state x))) name b = Some old -> id = old).
Proof.
  intros Hx Hn Hwf Hpr. pose proof (registry_reach_inv _ Hx) as [[] _].
  set (x1 := x <| y_state := s' |> <| y_prepared := p :: y_prepared x |>).
  assert (Hx1 : reach x1) by (eapply rtc_r; [exact Hx|by eapply S_prepare]).
  pose proof Hpr as (l & Hl & Hs' & Hp)%prepare_ret.
  pose proof (made_loop _ _ _ _ _ Hwf pi_dom0 pi_served0 pi_cur0 Hl) as Hok.
  destruct (publish_reach x1 p Hx1) as (Hret & x' & Hx' & Hst & Hpb & Hsv & Hn' & Hc & Hb);
    [by subst s'|left|by subst s' p|].
  split; [done|]. exists x'. split; [done|]. split; [done|]. split; [done|].
  assert (Hkeys : sm_keys (onList (y_state x')) = sm_keys (pl_entries l)) by (rewrite onList_keys, Hc by done; by subst p).
  split; [by rewrite Hkeys, Hp|]. split.
  { intros name. rewrite Hkeys, (prepare_loop_keys _ _ _ _ _ name Hl). cbn. set_solver. }
  intros name b Hname. assert (Hin : name ∈ sm_keys (pl_entries l)).
  { apply (prepare_loop_keys _ _ _ _ _ name Hl). left. apply sm_has_spec. unfold sm_has. by rewrite Hname. }
  apply sm_has_spec in Hin. unfold sm_has in Hin. destruct (sm_find name (pl_entries l)) as [id|] eqn:Hid; [|done].
  assert (Hsrv : serves (rs_current (y_state x')) name id) by (rewrite Hc, Hp; done).
  assert (Hact : active (y_state x') id = Some true).
  { apply served_active; [done|done| |eauto]. apply Hsv. left. exists name. by rewrite <-Hc. }
  unfold active in Hact. destruct (rs_regs (y_state x') !! id) as [r|] eqn:Hr; [|done]. injection Hact as Hact.
  exists id, r. split; [done|]. split; [done|]. split; [done|].
  specialize (Hb id). rewrite Hr in Hb. replace (rs_regs (y_state x1)) with (pl_regs l) in Hb by (cbn; by subst s').
  destruct (lo_entry _ _ _ _ _ _ Hok _ _ Hid) as (b' & Hb' & He). simplify_eq.
  destruct (reusable _ _ name b) as [old|] eqn:Er.
  - subst old. pose proof Er as (Hold & r0 & Hr0 & Hk)%reusable_Some. apply keeps_spec in Hk as [Ho Ha].
    rewrite (lo_old _ _ _ _ _ _ Hok), Hr0 in Hb by (apply pi_dom0, active_is_Some; eauto).
    injection Hb as Hb. rewrite Hb. split; [done|]. split; [done|]. by intros ? [= <-].
  - destruct He as [_ He]. rewrite He in Hb. injection Hb as Hb. rewrite Hb. done.
Qed.

(** ** The guarantees *)

(** C32. Exactly the published registrations serve: whenever no publication is
    in progress, an operation that reaches a registration that was ever served
    is forwarded if and only if some name of the current snapshot maps to that
    registration; otherwise it gets the answer that the endpoint is retired,
    and a queued write that is about to run is not authorized.  The names
    listed are the names claimed. *)
Theorem registry_serves_current x :
  reach x -> rs_publisher (y_state x) = None ->
  (forall id r, id ∈ y_served x -> rs_regs (y_state x) !! id = Some r ->
    ((fence r = Forward <-> exists name, serves (rs_current (y_state x)) name id) /\
     (fence r <> Forward -> fence r = Error "endpoint retired" /\ forall allowed, authorized r allowed = false))) /\
  (forall name, onSearch (y_state x) name = true <-> name ∈ sm_keys (onList (y_state x))).
Proof.
  intros Hx Hn. split.
  - intros id r Hid Hr. pose proof (served_active x id Hx Hn Hid) as Ha. unfold active in Ha. rewrite Hr in Ha.
    unfold fence, authorized. cbn in Ha. destruct (rn_active r); (split; [naive_solver|done]).
  - intros name. rewrite onList_keys by done. apply sm_has_spec.
Qed.

(** C7. No channel escapes retirement, however creation and retirement
    interleave: once [finish] has drained a registration, a channel of it that
    is still open is one whose [onCreate] is still running (it will check the
    registration before it returns) or one that [finish] is about to close. *)
Theorem retired_channels_close x c id :
  reach x -> id ∈ y_drained x -> rs_open (y_state x) !! c = Some id ->
  (exists stage, rs_creating (y_state x) !! c = Some (id, stage) /\
     rs_open (create_check (y_state x) c id) !! c = None) \/
  rs_creating (y_state x) !! c = None /\ c ∈ rs_closing (y_state x).
Proof.
  intros [Hp Hc]%registry_reach_inv Hdr Ho. pose proof (pi_drained _ _ _ _ _ Hp _ Hdr) as Hd. unfold active in Hd.
  destruct (rs_regs (y_state x) !! id) as [r|] eqn:Hr; [|done]. injection Hd as Hd.
  destruct (ci_open _ _ _ Hc _ _ Ho) as [_ Hm]. destruct (rs_creating (y_state x) !! c) as [[j stage]|] eqn:Hcr.
  - left. subst j. exists stage. split; [done|]. unfold create_check. cbn. rewrite Hr, Hd. cbn.
    by rewrite lookup_delete_eq.
  - right. split; [done|]. by destruct Hm as [[_ ?]|?].
Qed.

(** A prepared namespace is what gets served: preparation succeeds exactly
    when every binding has a usable name, a PV and an owner; publishing it
    with nothing else going on succeeds, serves exactly the desired names, and
    each name is served by an active registration with the desired owner and
    access assignment, which is the one that served it before (so that open
    channels survive) whenever that one has the same owner and access. *)
Theorem publish_installs x desired wrappers :
  reach x -> rs_publisher (y_state x) = None -> sm_wf desired ->
  ((exists r, prepare (y_state x) desired wrappers = Ret r) <->
     Forall (fun e => binding_ok e.1 e.2 = true) desired) /\
  forall s' p, prepare (y_state x) desired wrappers = Ret (s', p) ->
    let '(s'', published) := publish s' p true in
    published = true /\
    (forall name, name ∈ sm_keys (onList s'') <-> name ∈ sm_keys desired) /\
    forall name b, sm_find name desired = Some b -> exists id r,
      serves (rs_current s'') name id /\ rs_regs s'' !! id = Some r /\
      rn_active r = true /\ bd_owner (rn_binding r) = bd_owner b /\ bd_access (rn_binding r) = bd_access b /\
      (forall old, reusable (rs_regs (y_state x)) (sn_entries (rs_current (y_state x))) name b = Some old -> id = old).
Proof.
  intros Hx Hn Hwf. split; [apply prepare_ret_iff|]. intros s' p Hp.
  destruct (publish_installs_aux x desired wrappers s' p Hx Hn Hwf Hp) as (Hret & x' & _ & Hs & _ & _ & Hk & Hb).
  destruct (publish s' p true) as [s'' published]. cbn in Hret, Hs. subst. done.
Qed.

Lemma finish_current s p : rs_current (finish s p) = rs_current s.
Proof.
  unfold finish. generalize (pr_retiring p). intros l. revert s; induction l as [|id l IH]; intros s; [done|].
  cbn. rewrite IH. unfold finish_one. by destruct (rs_regs s !! id).
Qed.

(** [clear] never throws when no other publisher runs, and leaves no name. *)
Lemma clear_empties x :
  reach x -> rs_publisher (y_state x) = None ->
  exists s, clear (y_state x) = Ret s /\ forall name, onSearch s name = false.
Proof.
  intros Hx Hn. destruct (proj2 (prepare_ret_iff (y_state x) [] [])) as [[s' p] Hp]; [done|].
  destruct (publish_installs_aux x [] [] s' p Hx Hn sm_wf_nil Hp) as (Hret & x' & Hx' & Hs & _ & _ & Hk & _).
  exists (finish (y_state x') p). unfold clear. rewrite Hp. cbn.
  destruct (publish s' p true) as [s'' published]. cbn in Hret, Hs. subst. cbn. split; [done|].
  intros name. unfold onSearch. rewrite finish_current. apply not_true_iff_false. rewrite sm_has_spec.
  rewrite <-onList_keys by done. rewrite Hk. apply not_elem_of_nil.
Qed.

(** ** Schedules *)

(** Actions that can be run, to reach concrete states. *)
Inductive action :=
| APrepare (desired : PVBindings) (wrappers : smap Wrapper)
| AStart (i : nat)
| ACommit (allowed : bool)
| ARetire
| AFinish (i j : nat)
| AClose
| AFind (channel : Z) (name : string)
| ACreate (channel : Z)
| ADestroy (channel : Z).

Definition perform (x : Sys) (a : action) : option Sys :=
  let s := y_state x in
  match a with
  | APrepare desired wrappers =>
      if decide (sm_wf desired) then
        match prepare s desired wrappers with
        | Ret (s', p) => Some (x <| y_state := s' |> <| y_prepared := p :: y_prepared x |>)
        | Throw _ => None
        end
      else None
  | AStart i =>
      match y_prepared x !! i, rs_publisher s with
      | Some p, None => Some (x <| y_state := (publish_start s p).1 |>)
      | _, _ => None
      end
  | ACommit allowed =>
      match rs_publisher s with
      | Some (p, BeforeCommit) => Some (x <| y_state := publish_commit s p allowed |>)
      | _ => None
      end
  | ARetire =>
      match rs_publisher s with
      | Some (p, Retiring (id :: todo)) => Some (x <| y_state := publish_step s p (id :: todo) |>)
      | Some (p, Retiring []) =>
          Some (x <| y_state := publish_step s p [] |> <| y_published := p :: y_published x |>
                  <| y_served := y_served x ∪ snapshot_ids (pr_next p) |>)
      | _ => None
      end
  | AFinish i j =>
      p ← y_published x !! i; id ← pr_retiring p !! j;
      Some (x <| y_state := finish_one s id |> <| y_drained := y_drained x ∪ {[id]} |>)
  | AClose => Some (x <| y_state := close_next s |>)
  | AFind channel name =>
      if decide (channel ∈ y_channels x) then None
      else Some (x <| y_state := create_find s channel name |> <| y_channels := y_channels x ∪ {[channel]} |>)
  | ACreate channel =>
      match rs_creating s !! channel with
      | Some (id, Found) => Some (x <| y_state := create_track s channel id |>)
      | Some (id, Tracked) => Some (x <| y_state := create_attach s channel id |>)
      | Some (id, Attached) => Some (x <| y_state := create_check s channel id |>)
      | None => None
      end
  | ADestroy channel =>
      if decide (channel ∈ y_channels x) then
        match rs_creating s !! channel with None => Some (x <| y_state := destroy s channel |>) | Some _ => None end
      else None
  end.

Definition run (x : Sys) (l : list action) : option Sys := fold_left (fun o a => x ← o; perform x a) l (Some x).

Lemma perform_step x a x' : perform x a = Some x' -> step x x'.
Proof.
  destruct a; unfold perform; intros H; repeat case_match; simplify_option_eq;
    [eapply S_prepare|eapply S_start|eapply S_commit|eapply S_store|eapply S_retire|eapply S_finish|eapply S_close
    |eapply S_find|eapply S_track|eapply S_attach|eapply S_check|eapply S_destroy];
    eauto using list_elem_of_lookup_2.
Qed.

Lemma registry_run_reach x l x' : reach x -> run x l = Some x' -> reach x'.
Proof.
  unfold run. revert x. induction l as [|a l IH]; cbn; intros x Hx H; [by simplify_eq|].
  destruct (perform x a) as [x1|] eqn:E.
  - apply (IH x1); [|done]. eapply rtc_r; [done|by apply perform_step in E].
  - exfalso. clear IH E. induction l; cbn in H; [done|auto].
Qed.

Module RegistryDemo.

Definition default_access : AccessAssignment := {| asg := "DEFAULT"; asl := 1 |}.
Definition demo_binding (pv owner : Z) : PVBinding :=
  {| bd_pv := Some pv; bd_owner := Some owner; bd_access := default_access |}.
Definition demo_names : PVBindings := [("dev:a", demo_binding 1 10); ("dev:b", demo_binding 2 11)].
Definition next_names : PVBindings := [("dev:b", demo_binding 2 11); ("dev:c", demo_binding 3 12)].

(** Two names are published and a channel to the first is opened; then a
    reload drops that name while a second channel is being created. *)
Definition opened : list action :=
  [APrepare demo_names []; AStart 0; ACommit true; ARetire;
   AFind 7 "dev:a"; ACreate 7; ACreate 7; ACreate 7; AFind 8 "dev:a"; ACreate 8].
Definition reloaded : list action :=
  opened ++ [APrepare next_names []; AStart 0; ACommit true; ARetire; ARetire; AFinish 0 0; ACreate 8].

Definition at_open : Sys := default Sys_new (run Sys_new opened).
Definition at_reload : Sys := default Sys_new (run Sys_new reloaded).

Lemma at_open_reach : reach at_open.
Proof. by apply (registry_run_reach Sys_new opened); [apply rtc_refl|vm_compute]. Qed.

Lemma at_reload_reach : reach at_reload.
Proof. by apply (registry_run_reach Sys_new reloaded); [apply rtc_refl|vm_compute]. Qed.

Lemma registry_serves_current_witness :
  reach at_reload /\ rs_publisher (y_state at_reload) = None /\
  fence <$> (rs_regs (y_state at_reload) !! 0) = Some (Error "endpoint retired") /\
  (forall name, onSearch (y_state at_reload) name = true <-> name ∈ sm_keys (onList (y_state at_reload))).
Proof.
  split; [apply at_reload_reach|]. split; [by vm_compute|]. split; [by vm_compute|].
  apply (registry_serves_current at_reload at_reload_reach). by vm_compute.
Defined.

Lemma retired_channels_close_witness :
  7 ∈ rs_closing (y_state at_reload) /\ rs_open (create_check (y_state at_reload) 8 0) !! 8 = None.
Proof.
  split.
  - destruct (retired_channels_close at_reload 7 0) as [(stage & H & _)|[_ H]]; [apply at_reload_reach| | | |exact H].
    + apply (bool_decide_eq_true_1 (0 ∈ y_drained at_reload)). by vm_compute.
    + by vm_compute.
    + by vm_compute in H.
  - destruct (retired_channels_close at_reload 8 0) as [(stage & _ & H)|[H _]]; [apply at_reload_reach| | |exact H|].
    + apply (bool_decide_eq_true_1 (0 ∈ y_drained at_reload)). by vm_compute.
    + by vm_compute.
    + by vm_compute in H.
Defined.

Lemma publish_installs_witness :
  exists s' p, prepare (y_state at_open) next_names [] = Ret (s', p) /\ (publish s' p true).2 = true.
Proof.
  destruct (publish_installs at_open next_names []) as [Hiff Hall]; [apply at_open_reach|by vm_compute| |].
  { apply (bool_decide_eq_true_1 (sm_wf next_names)). by vm_compute. }
  destruct (proj2 Hiff) as [[s' p] Hp]; [repeat constructor|].
  exists s', p. split; [exact Hp|]. specialize (Hall s' p Hp). destruct (publish s' p true) as [s'' published].
  apply Hall.
Defined.

End RegistryDemo.
