(* ===== verification/QueuedExec.v ===== *)
(** * The handle of a queued operation

    include/redis_pvxs_ioc/queued_exec.h: one object owns the PVA operation
    while it waits in the operation queue, runs, times out or is cancelled by
    its peer.  Its lock, its flags and its ticket are shared by the thread
    that submits, the worker, the timer and the peer's cancellation.

    Each definition is what a thread does between two points where another may
    run; what it does to others (answering the peer, waking the worker,
    cancelling in the queue) is an effect. *)

From S2P Require Import Prelude.

Local Open Scope string_scope.
Local Open Scope list_scope.
Local Open Scope Z_scope.

Record QueuedExec := {
  qx_op : bool;
  qx_wake : bool;
  qx_stopped : bool;
  qx_aborted : bool;
  qx_ticket : Z;
}.
#[export] Instance QueuedExec_eta : Eta QueuedExec := fun x =>
  Build_QueuedExec (qx_op x) (qx_wake x) (qx_stopped x) (qx_aborted x) (qx_ticket x).
#[export] Instance QueuedExec_eq_dec : EqDecision QueuedExec.
Proof. solve_decision. Defined.

(** Whether a reply carries a value does not matter here. *)
Inductive exec_effect :=
| XReply
| XError (message : string)
| XNotify
| XCancel (ticket : Z).
#[export] Instance exec_effect_eq_dec : EqDecision exec_effect.
Proof. solve_decision. Defined.

Definition QueuedExec_create : QueuedExec :=
  {| qx_op := true; qx_wake := false; qx_stopped := false; qx_aborted := false; qx_ticket := 0 |}.

(** [finish]: the winner of [stopped_] takes the operation out and answers. *)
Definition finish (x : QueuedExec) (message : string) (cancelled : bool) : QueuedExec * list exec_effect :=
  if qx_stopped x then (x, [])
  else
    (x <| qx_stopped := true |> <| qx_aborted := cancelled || negb (str_empty message) |> <| qx_op := false |>,
     (if qx_wake x then [XNotify] else []) ++
     (if qx_op x && negb cancelled then [if str_empty message then XReply else XError message] else [])).

Definition reply (x : QueuedExec) : QueuedExec * list exec_effect := finish x "" false.
Definition error (x : QueuedExec) (message : string) : QueuedExec * list exec_effect := finish x message false.
Definition stopped (x : QueuedExec) : bool := qx_stopped x.
Definition operation (x : QueuedExec) : bool := qx_op x.

(** [wake]: register the callback, and call it when it came too late. *)
Definition wake (x : QueuedExec) : QueuedExec * list exec_effect :=
  (x <| qx_wake := true |>, if qx_stopped x then [XNotify] else []).

(** [ticket]: store the identifier, then look at [aborted_]. *)
Definition ticket_store (x : QueuedExec) (id : Z) : QueuedExec := x <| qx_ticket := id |>.
Definition ticket_check (x : QueuedExec) (id : Z) : list exec_effect := if qx_aborted x then [XCancel id] else [].

(** The callback of [onCancel]: [finish], then cancel whatever ticket is known. *)
Definition cancel_finish (x : QueuedExec) : QueuedExec * list exec_effect := finish x "" true.
Definition cancel_load (x : QueuedExec) : list exec_effect := [XCancel (qx_ticket x)].

(** ** What an answer is *)

Definition is_answer (e : exec_effect) : bool := match e with XReply | XError _ => true | _ => false end.
Definition answers (log : list exec_effect) : list exec_effect := filter (fun e => is_answer e = true) log.
#[global] Arguments answers : simpl never.

Lemma answers_app l1 l2 : answers (l1 ++ l2) = answers l1 ++ answers l2.
Proof. apply filter_app. Qed.

(** [stopped_] is set once and the operation is held until then. *)
Definition exec_ok (x : QueuedExec) : Prop := qx_op x = negb (qx_stopped x).

Lemma finish_spec x message cancelled :
  exec_ok x ->
  exec_ok (finish x message cancelled).1 /\ qx_stopped (finish x message cancelled).1 = true /\
  answers (finish x message cancelled).2 =
    if qx_stopped x || cancelled then [] else [if str_empty message then XReply else XError message].
Proof.
  unfold finish, exec_ok. intros Hop. destruct (qx_stopped x) eqn:E.
  { cbn. rewrite E. by split_and!. }
  rewrite Hop. cbn.
  split; [done|]. split; [done|]. rewrite answers_app.
  destruct (qx_wake x), cancelled, (str_empty message); done.
Qed.

Lemma finish_stopped x message cancelled : qx_stopped x = true -> finish x message cancelled = (x, []).
Proof. unfold finish. by intros ->. Qed.

Lemma finish_ticket x message cancelled : qx_ticket (finish x message cancelled).1 = qx_ticket x.
Proof. unfold finish. by destruct (qx_stopped x). Qed.

(** ** All interleavings *)

(** The thread that submits, and the peer's cancellation. *)
Inductive submitter := Submitting | Stored (id : Z) | Submitted (id : Z).
Inductive canceller := NotCancelled | Finished | Cancelled.

Record ExecSys := {
  es_exec : QueuedExec;
  es_submitter : submitter;
  es_canceller : canceller;
  es_log : list exec_effect;
}.

Definition ExecSys_new : ExecSys :=
  {| es_exec := QueuedExec_create; es_submitter := Submitting; es_canceller := NotCancelled; es_log := [] |}.

(** [X_finish] is any of the other threads: the worker's answer, the failure
    callback of the queue. *)
Inductive exec_step : ExecSys -> ExecSys -> Prop :=
| X_finish x p c log message :
    exec_step (Build_ExecSys x p c log)
      (Build_ExecSys (finish x message false).1 p c (log ++ (finish x message false).2))
| X_wake x p c log :
    exec_step (Build_ExecSys x p c log) (Build_ExecSys (wake x).1 p c (log ++ (wake x).2))
| X_store x c log id :
    exec_step (Build_ExecSys x Submitting c log) (Build_ExecSys (ticket_store x id) (Stored id) c log)
| X_check x c log id :
    exec_step (Build_ExecSys x (Stored id) c log)
      (Build_ExecSys x (Submitted id) c (log ++ ticket_check x id))
| X_cancel x p log :
    exec_step (Build_ExecSys x p NotCancelled log)
      (Build_ExecSys (cancel_finish x).1 p Finished (log ++ (cancel_finish x).2))
| X_load x p log :
    exec_step (Build_ExecSys x p Finished log) (Build_ExecSys x p Cancelled (log ++ cancel_load x)).

(** What holds between steps.  [qx_ticket] is the identifier from [Stored] on;
    a cancellation that loaded too early leaves [aborted_] for the submitter
    to see. *)
Record exec_inv (s : ExecSys) : Prop := {
  ei_ok : exec_ok (es_exec s);
  ei_once : (length (answers (es_log s)) <= if qx_stopped (es_exec s) then 1 else 0)%nat;
  ei_aborted : qx_aborted (es_exec s) = true -> qx_stopped (es_exec s) = true;
  ei_cancelled : es_canceller s <> NotCancelled -> qx_stopped (es_exec s) = true;
  ei_ticket : match es_submitter s with
              | Submitting => True
              | Stored id | Submitted id => qx_ticket (es_exec s) = id
              end;
  ei_reach : es_canceller s = Cancelled -> qx_aborted (es_exec s) = true ->
    match es_submitter s with Submitted id => XCancel id ∈ es_log s | _ => True end;
}.

Lemma finish_inv x p c c' log message cancelled :
  exec_inv (Build_ExecSys x p c log) -> (c' = Cancelled -> c = Cancelled) ->
  (c' = NotCancelled -> c = NotCancelled) ->
  exec_inv (Build_ExecSys (finish x message cancelled).1 p c' (log ++ (finish x message cancelled).2)).
Proof.
  intros [Hok Hon Hab Hca Hti Hre] Hc1 Hc2. cbn in *.
  destruct (finish_spec x message cancelled Hok) as (Hok' & Hst & Han). split; cbn; rewrite ?finish_ticket; try done.
  - rewrite answers_app, length_app, Hst, Han. destruct (qx_stopped x); cbn [orb length]; [lia|].
    destruct cancelled; cbn [length]; lia.
  - intros Hc Ha. destruct (qx_stopped x) eqn:E.
    + rewrite finish_stopped in Ha |- * by done. cbn in *. destruct p; try done. rewrite app_nil_r. apply Hre; auto.
    + destruct p; try done. exfalso. assert (c <> NotCancelled) as Hn by (by rewrite (Hc1 Hc)).
      apply Hca in Hn. congruence.
Qed.

Lemma exec_step_inv s s' : exec_step s s' -> exec_inv s -> exec_inv s'.
Proof.
  intros Hs Hi. destruct Hs as [x p c log m|x p c log|x c log id|x c log id|x p log|x p log].
  - by apply (finish_inv x p c c).
  - destruct Hi as [Hok Hon Hab Hca Hti Hre]. split; cbn in *; try done.
    + rewrite answers_app. destruct (qx_stopped x); by rewrite app_nil_r.
    + intros Hc Ha. specialize (Hre Hc Ha). destruct p; try done. apply elem_of_app. by left.
  - destruct Hi as [Hok Hon Hab Hca Hti Hre]. by split.
  - destruct Hi as [Hok Hon Hab Hca Hti Hre]. split; cbn in *; try done.
    + rewrite answers_app. unfold ticket_check. destruct (qx_aborted x); by rewrite app_nil_r.
    + intros _ Ha. unfold ticket_check. rewrite Ha. apply elem_of_app. right. left.
  - by apply (finish_inv x p NotCancelled Finished).
  - destruct Hi as [Hok Hon Hab Hca Hti Hre]. split; cbn in *; try done.
    + rewrite answers_app. by rewrite app_nil_r.
    + intros _. by apply Hca.
    + intros _ Ha. unfold cancel_load. destruct p; try done. rewrite Hti. apply elem_of_app. right. left.
Qed.

Lemma exec_reach_inv s : rtc exec_step ExecSys_new s -> exec_inv s.
Proof.
  intros H. assert (Hn : exec_inv ExecSys_new) by (split; cbn; try done; lia).
  revert Hn. induction H; eauto using exec_step_inv.
Qed.

(** C19. However its threads interleave, a queued operation is answered at most
    once, its operation is gone by then, and a cancellation always reaches the queue: once the submitter has stored the
    ticket and looked at the flag and the cancellation has run, an aborted
    operation has been cancelled in the queue under its own ticket, whichever
    of the two came first. *)
Theorem exec_answered_once s :
  rtc exec_step ExecSys_new s ->
  (length (answers (es_log s)) <= 1)%nat /\
  (answers (es_log s) <> [] -> qx_stopped (es_exec s) = true /\ operation (es_exec s) = false) /\
  (forall id, es_submitter s = Submitted id -> es_canceller s = Cancelled -> qx_aborted (es_exec s) = true ->
     XCancel id ∈ es_log s).
Proof.
  intros [Hok Hon Hab Hca Hti Hre]%exec_reach_inv. split_and!.
  - destruct (qx_stopped (es_exec s)); lia.
  - unfold operation. rewrite Hok. destruct (qx_stopped (es_exec s)); [done|].
    destruct (answers (es_log s)); [done|cbn [length] in Hon; lia].
  - intros id Hs Hc Ha. specialize (Hre Hc Ha). by rewrite Hs in Hre.
Qed.

(** The peer cancels between the submission and the arrival of the ticket. *)
Definition early_cancel : ExecSys :=
  Build_ExecSys (ticket_store (cancel_finish QueuedExec_create).1 7) (Submitted 7) Cancelled
    ([XCancel 0] ++ [XCancel 7]).

Lemma early_cancel_reach : rtc exec_step ExecSys_new early_cancel.
Proof.
  eapply rtc_l; [apply X_cancel|]. eapply rtc_l; [apply X_load|]. eapply rtc_l; [apply (X_store _ _ _ 7)|].
  eapply rtc_l; [apply X_check|]. apply rtc_refl.
Qed.

Lemma exec_answered_once_witness : (length (answers (es_log early_cancel)) <= 1)%nat /\ XCancel 7 ∈ es_log early_cancel.
Proof.
  destruct (exec_answered_once early_cancel early_cancel_reach) as (H1 & _ & H3).
  split; [exact H1|]. by apply (H3 7).
Defined.
