(* ===== verification/Runtime.v ===== *)
(** * A PV: samples in, writes out

    src/runtime.cpp, [TypedRuntime]: a PV of a scalar or array type reads
    samples of a Redis stream, publishes them with metadata, time stamp and
    alarm, and writes the values clients put, confirmed or not by a sample of
    another stream.  [NDArrayRuntime] is in NDRuntime.

    Definitions take and return the runtime; each is one critical section of
    [mutex_], or what a thread does between two of them.  [alive_],
    [committed_] and [commandEpoch_] are also read outside the lock, which is
    why the handlers of a put are split where they are.

    Outside: the RedisAdapter (decoding of an entry, the time and the order of
    stream identifiers, the status of a reader, the result of a write) is a
    parameter or an argument; the PVXS value and [SharedPV] are the interfaces
    [PvxsValue] and [SharedPV]. *)

From S2P Require Import Prelude.
From S2P Require Import StrMap.
From S2P Require Import Floats.
From S2P Require Import Config.
From S2P Require Import ConfigDiff.
From S2P Require Import SourceHealth.
From S2P Require Import Util.
From S2P Require Import QueuedExec.

Local Open Scope string_scope.
Local Open Scope list_scope.
Local Open Scope Z_scope.

(** ** What is used of [SharedPV] *)

(** A path at or below another. *)
Definition under (p q : string) : Prop := q = p \/ exists r, q = p +:+ "." +:+ r.

(** [fetch] returns a copy of the current value; [post] stores the marked
    leaves of its argument and sends it to the subscribers; [unmark] clears
    the marks, of everything or at and below a path; [isMarked(true, true)]
    looks at a path and everything below it. *)
Class SharedPV (V : Type) `{PvxsValue V} := {
  pv_fetch : V -> V;
  pv_post : V -> V -> V;
  v_unmark : V -> V;
  v_unmark_at : V -> string -> V;
  v_isMarked : V -> string -> bool;
  pv_code_fetch : forall v p, v_code (pv_fetch v) p = v_code v p;
  pv_data_fetch : forall v p, v_data (pv_fetch v) p = v_data v p;
  pv_code_post : forall v w p, v_code (pv_post v w) p = v_code v p;
  pv_data_post_marked : forall v w p, v_code v p <> None -> v_marked w p = true -> v_data (pv_post v w) p = v_data w p;
  pv_data_post_unmarked : forall v w p, v_marked w p = false -> v_data (pv_post v w) p = v_data v p;
  v_code_unmark : forall v p, v_code (v_unmark v) p = v_code v p;
  v_data_unmark : forall v p, v_data (v_unmark v) p = v_data v p;
  v_marked_unmark : forall v p, v_marked (v_unmark v) p = false;
  v_code_unmark_at : forall v p q, v_code (v_unmark_at v p) q = v_code v q;
  v_data_unmark_at : forall v p q, v_data (v_unmark_at v p) q = v_data v q;
  v_marked_unmark_in : forall v p q, under p q -> v_marked (v_unmark_at v p) q = false;
  v_marked_unmark_out : forall v p q, ~ under p q -> v_marked (v_unmark_at v p) q = v_marked v q;
  v_isMarked_spec : forall v p, v_isMarked v p = true <-> exists q, under p q /\ v_marked v q = true;
}.

(** ** Types of values *)

(** The alternative of [TypedValue] a runtime of this type works with. *)
Definition has_type (type : PrimitiveType) (shape : Shape) (v : TypedValue) : bool :=
  match shape, type, v with
  | Scalar, Boolean, TVbool _ | Scalar, Int8, TVint8 _ | Scalar, UInt8, TVuint8 _
  | Scalar, Int16, TVint16 _ | Scalar, UInt16, TVuint16 _ | Scalar, Int32, TVint32 _
  | Scalar, UInt32, TVuint32 _ | Scalar, Int64, TVint64 _ | Scalar, UInt64, TVuint64 _
  | Scalar, Float32, TVfloat _ | Scalar, Float64, TVdouble _ | Scalar, String_, TVstring _
  | Array, Int8, TVvint8 _ | Array, UInt8, TVvuint8 _ | Array, Int16, TVvint16 _
  | Array, UInt16, TVvuint16 _ | Array, Int32, TVvint32 _ | Array, UInt32, TVvuint32 _
  | Array, Int64, TVvint64 _ | Array, UInt64, TVvuint64 _ | Array, Float32, TVvfloat _
  | Array, Float64, TVvdouble _ => true
  | _, _, _ => false
  end.

(** [T{}] and [std::vector<T>{}]; [None] where [makeRuntime] has no instance. *)
Definition zero_value (type : PrimitiveType) (shape : Shape) : option TypedValue :=
  match shape, type with
  | Scalar, Boolean => Some (TVbool false)
  | Scalar, Int8 => Some (TVint8 0) | Scalar, UInt8 => Some (TVuint8 0)
  | Scalar, Int16 => Some (TVint16 0) | Scalar, UInt16 => Some (TVuint16 0)
  | Scalar, Int32 => Some (TVint32 0) | Scalar, UInt32 => Some (TVuint32 0)
  | Scalar, Int64 => Some (TVint64 0) | Scalar, UInt64 => Some (TVuint64 0)
  | Scalar, Float32 => Some (TVfloat f_zero) | Scalar, Float64 => Some (TVdouble f_zero)
  | Scalar, String_ => Some (TVstring "")
  | Array, Int8 => Some (TVvint8 []) | Array, UInt8 => Some (TVvuint8 [])
  | Array, Int16 => Some (TVvint16 []) | Array, UInt16 => Some (TVvuint16 [])
  | Array, Int32 => Some (TVvint32 []) | Array, UInt32 => Some (TVvuint32 [])
  | Array, Int64 => Some (TVvint64 []) | Array, UInt64 => Some (TVvuint64 [])
  | Array, Float32 => Some (TVvfloat []) | Array, Float64 => Some (TVvdouble [])
  | Array, Boolean | Array, String_ => None
  end.

(** [initialScalarOr], [initialVectorOr] *)
Definition initialOr (config : PVConfig) : option TypedValue :=
  if has_type (pv_type config) (pv_shape config) (pv_initialValue config)
  then Some (pv_initialValue config) else zero_value (pv_type config) (pv_shape config).

(** [static_cast<double>(present)], for the scalars that have threshold alarms. *)
Definition to_double (v : TypedValue) : option spec_float :=
  match v with
  | TVint8 z | TVuint8 z | TVint16 z | TVuint16 z | TVint32 z | TVuint32 z | TVint64 z | TVuint64 z =>
      Some (f_of_Z binary64 z)
  | TVfloat x => Some (f_convert binary64 x)
  | TVdouble x => Some x
  | _ => None
  end.

Definition sizeof (type : PrimitiveType) : Z :=
  match type with
  | Boolean | Int8 | UInt8 => 1
  | Int16 | UInt16 => 2
  | Int32 | UInt32 | Float32 => 4
  | Int64 | UInt64 | Float64 => 8
  | String_ => 32
  end.

(** [samePresentedPayload]: sizes, then elements, floats by representation
    (signed zeros differ; the model has one NaN). *)
Definition same_elements {A} `{EqDecision A} (before after : list A) : bool :=
  Nat.eqb (length before) (length after) && forallb (fun e => bool_decide (e.1 = e.2)) (zip before after).

Definition same_typed (prior next : TypedValue) : bool :=
  match prior, next with
  | TVbool a, TVbool b => Bool.eqb a b
  | TVint8 a, TVint8 b | TVuint8 a, TVuint8 b | TVint16 a, TVint16 b | TVuint16 a, TVuint16 b
  | TVint32 a, TVint32 b | TVuint32 a, TVuint32 b | TVint64 a, TVint64 b | TVuint64 a, TVuint64 b => a =? b
  | TVfloat a, TVfloat b | TVdouble a, TVdouble b => bool_decide (a = b)
  | TVstring a, TVstring b => String.eqb a b
  | TVvint8 a, TVvint8 b | TVvuint8 a, TVvuint8 b | TVvint16 a, TVvint16 b | TVvuint16 a, TVvuint16 b
  | TVvint32 a, TVvint32 b | TVvuint32 a, TVvuint32 b | TVvint64 a, TVvint64 b | TVvuint64 a, TVvuint64 b =>
      same_elements a b
  | TVvfloat a, TVvfloat b | TVvdouble a, TVvdouble b => same_elements a b
  | _, _ => false
  end.

Definition samePresentedPayload (prior next : option field_data) : bool :=
  match prior, next with Some (FTyped a), Some (FTyped b) => same_typed a b | _, _ => false end.

Definition sameRouteTarget (l r : RouteConfig) : bool :=
  String.eqb (rt_backend l) (rt_backend r) && String.eqb (rt_key l) (rt_key r).
Definition sameConfirmTarget (l : RouteConfig) (r : ConfirmConfig) : bool :=
  String.eqb (rt_backend l) (cf_backend r) && String.eqb (rt_key l) (cf_key r).

(** Do samples of the read stream confirm writes? *)
Definition readConfirms (config : PVConfig) : bool :=
  match pv_confirm config with Some c => sameConfirmTarget (pv_read config) c | None => false end.

(** [StreamBatchMetadata] *)
Record BatchMetadata := { bm_epoch : Z; bm_readRejections : Z }.

Definition batchHealthError (current : ReaderStatus) (metadata : BatchMetadata) : string :=
  if negb (rs_connected current) then "Source reader disconnected"
  else if bm_readRejections metadata <? rs_readRejections current
  then "Source read rejected; waiting for valid data" else "".

(** ** State *)

Record PendingPut := {
  pp_expectedRaw : TypedValue;
  pp_afterId : string;
  pp_sourceEpoch : Z;
  pp_done : bool;
  pp_error : option string;
}.
#[export] Instance PendingPut_eta : Eta PendingPut := fun r =>
  Build_PendingPut (pp_expectedRaw r) (pp_afterId r) (pp_sourceEpoch r) (pp_done r) (pp_error r).

Section Runtime.
Context {V : Type} {HV : PvxsValue V} {HS : SharedPV V}.

(** An alarm registration is known by the identity of its object. *)
Record TypedRuntime := {
  ru_config : PVConfig;
  ru_generation : Z;
  ru_commandEpoch : Z;
  ru_alive : bool;
  ru_committed : bool;
  ru_open : bool;
  ru_pv : V;
  ru_alarm : option Z;
  ru_readSample : SourceSampleState;
  ru_confirmSample : SourceSampleState;
  ru_healthError : string;
  ru_lastRaw : TypedValue;
  ru_lastTimestampNs : Z;
  ru_sourceValid : bool;
  ru_sourceError : string;
  ru_nextPendingId : Z;
  ru_pending : gmap Z PendingPut;
}.
#[global] Instance TypedRuntime_eta : Eta TypedRuntime := fun r =>
  Build_TypedRuntime (ru_config r) (ru_generation r) (ru_commandEpoch r) (ru_alive r) (ru_committed r) (ru_open r)
    (ru_pv r) (ru_alarm r) (ru_readSample r) (ru_confirmSample r) (ru_healthError r) (ru_lastRaw r)
    (ru_lastTimestampNs r) (ru_sourceValid r) (ru_sourceError r) (ru_nextPendingId r) (ru_pending r).

Inductive effect :=
| FPost (v : V)
| FAlarm (registration : Z) (state : AlarmState)
| FActivate (registration : Z)
| FRetire (registration : Z).

Context (decode : gmap string string -> option TypedValue).
Context (RA_Time : string -> option Z).
Context (compareStreamIds : string -> string -> Z).

(** ** Presenting a sample *)

Definition timestampOf (s : TypedRuntime) (v : V) : V :=
  if negb (ru_lastTimestampNs s =? 0) then applyTimestamp v (ru_lastTimestampNs s) None
  else v_assign (v_assign (v_assign v "timeStamp.secondsPastEpoch" (FInt 0)) "timeStamp.nanoseconds" (FInt 0))
         "timeStamp.userTag" (FInt 0).

(** The prior status, [value["alarm.status"].as<int>()]. *)
Definition alarmStatusOf (v : V) : Z := match v_data v "alarm.status" with Some (FInt z) => z | _ => 0 end.

Definition invalidAlarm (message : string) : AlarmState :=
  {| am_severity := epicsSevInvalid; am_status := epicsAlarmUDF; am_message := message |}.

Definition alarmOf (s : TypedRuntime) (config : PVConfig) (present : TypedValue) (prior : Z) : AlarmState :=
  if negb (str_empty (ru_healthError s)) then invalidAlarm (ru_healthError s)
  else if negb (ru_sourceValid s) then invalidAlarm (ru_sourceError s)
  else match to_double present with
       | Some x => evaluateNumericAlarm config x prior
       | None => {| am_severity := epicsSevNone; am_status := epicsAlarmNone; am_message := "" |}
       end.

(** [None] is undefined behaviour in [applyStandardMetadata] or
    [applyAlarmFields]. *)
Definition populateValue (s : TypedRuntime) (v : V) (config : PVConfig) : option (V * AlarmState) :=
  let present := forwardTyped config (ru_lastRaw s) in
  let v := v_assign v "value" (FTyped present) in
  v ← applyStandardMetadata v config;
  let v := timestampOf s v in
  let state := alarmOf s config present (alarmStatusOf v) in
  v ← applyAlarmFields v config state;
  Some (v, state).

Definition recordAlarmLocked (s : TypedRuntime) (state : AlarmState) : list effect :=
  match ru_alarm s with
  | Some registration =>
      FAlarm registration state :: (if ru_alive s && ru_committed s then [FActivate registration] else [])
  | None => []
  end.

(** [fetch], [populateValue], [post], [recordAlarmLocked]. *)
Definition republish (s : TypedRuntime) : option (TypedRuntime * list effect) :=
  '(v, state) ← populateValue s (pv_fetch (ru_pv s)) (ru_config s);
  Some (s <| ru_pv := pv_post (ru_pv s) v |>, FPost v :: recordAlarmLocked s state).

(** ** Reading *)

Definition sampleOf (s : TypedRuntime) (read : bool) : SourceSampleState :=
  if read then ru_readSample s else ru_confirmSample s.
Definition set_sample (s : TypedRuntime) (read : bool) (sample : SourceSampleState) : TypedRuntime :=
  if read then s <| ru_readSample := sample |> else s <| ru_confirmSample := sample |>.

(** [reader] is the status of the reader the batch came from. *)
Definition acceptEpochLocked (s : TypedRuntime) (read : bool) (epoch : Z) (reader : ReaderStatus)
    : TypedRuntime * bool :=
  if negb (ru_alive s) then (s, false)
  else if rs_epoch reader =? epoch then (s, true)
  else (set_sample s read ((sampleOf s read) <| sp_staleCallbacks ::= fun n => u64 (n + 1) |>), false).

Definition markInvalid (s : TypedRuntime) (error : string) (updateValue : bool) (epoch : Z) (reader : ReaderStatus)
    : option (TypedRuntime * list effect * bool) :=
  let '(s, accepted) := acceptEpochLocked s updateValue epoch reader in
  if negb accepted then Some (s, [], false)
  else
    let s := set_sample s updateValue (reject (sampleOf s updateValue) error epoch) in
    if negb updateValue then Some (s, [], true)
    else
      let s := s <| ru_sourceValid := false |> <| ru_sourceError := error |> <| ru_healthError := "" |> in
      '(s, eff) ← republish s;
      Some (s, eff, true).

(** What a sample of the confirming stream does to a pending put. *)
Definition confirm_one (streamId : string) (epoch : Z) (raw : TypedValue) (pending : PendingPut) : PendingPut :=
  if negb (pp_done pending) && negb (pp_sourceEpoch pending =? epoch) then
    pending <| pp_done := true |> <| pp_error := Some "confirmation source epoch changed; not retried" |>
  else if negb (pp_done pending) && (0 <? compareStreamIds streamId (pp_afterId pending)) &&
          valuesEqual (pp_expectedRaw pending) raw then
    pending <| pp_done := true |>
  else pending.

Definition handleRawUpdate (s : TypedRuntime) (raw : TypedValue) (timestamp : Z) (updateValue canConfirm : bool)
    (streamId : string) (metadata : option BatchMetadata) (reader : ReaderStatus) (now : Z)
    : option (TypedRuntime * list effect * bool) :=
  if negb (ru_alive s) then Some (s, [], false)
  else
    let epoch := match metadata with Some m => bm_epoch m | None => 0 end in
    let '(s, accepted) := if epoch =? 0 then (s, true) else acceptEpochLocked s updateValue epoch reader in
    if negb accepted then Some (s, [], false)
    else
      let s := match metadata with
               | Some m =>
                   if epoch =? 0 then s
                   else set_sample s updateValue
                          ((accept (sampleOf s updateValue) streamId epoch now)
                             <| sp_acceptedReadRejections := bm_readRejections m |>)
               | None => s
               end in
      let s := if canConfirm then s <| ru_pending := confirm_one streamId epoch raw <$> ru_pending s |> else s in
      if negb updateValue then Some (s, [], true)
      else
        let s := s <| ru_lastRaw := raw |> <| ru_lastTimestampNs := timestamp |>
                   <| ru_sourceValid := true |> <| ru_sourceError := "" |> in
        let s := match metadata with
                 | Some m => if epoch =? 0 then s else s <| ru_healthError := batchHealthError reader m |>
                 | None => s
                 end in
        '(s, eff) ← republish s;
        Some (s, eff, true).

(** One entry of a batch, and whether the loop goes on. *)
Definition handleEntry (s : TypedRuntime) (entry : string * gmap string string) (updateValue canConfirm : bool)
    (metadata : BatchMetadata) (reader : ReaderStatus) (now : Z) : option (TypedRuntime * list effect * bool) :=
  if negb (ru_alive s) then Some (s, [], false)
  else match decode entry.2, RA_Time entry.1 with
       | Some raw, Some timestamp =>
           handleRawUpdate s raw (u64 timestamp) updateValue canConfirm entry.1 (Some metadata) reader now
       | _, _ => markInvalid s "Invalid Redis payload or source timestamp" updateValue (bm_epoch metadata) reader
       end.

Fixpoint handleRead (s : TypedRuntime) (data : list (string * gmap string string)) (updateValue canConfirm : bool)
    (metadata : BatchMetadata) (reader : ReaderStatus) (now : Z) : option (TypedRuntime * list effect) :=
  match data with
  | [] => Some (s, [])
  | entry :: data =>
      '(s, eff, continue) ← handleEntry s entry updateValue canConfirm metadata reader now;
      if negb continue then Some (s, eff)
      else
        '(s, eff') ← handleRead s data updateValue canConfirm metadata reader now;
        Some (s, eff ++ eff')
  end.

(** ** Health *)

(** A pending put whose confirming reader has moved to another epoch. *)
Definition expire_epoch (epoch : Z) (pending : PendingPut) : PendingPut :=
  if negb (pp_done pending) && negb (pp_sourceEpoch pending =? epoch) then
    pending <| pp_done := true |> <| pp_error := Some "confirmation source epoch changed; not retried" |>
  else pending.

Definition sourceHealth (s : TypedRuntime) (fullName : string) (readProbeMs confirmProbeMs : Z)
    (readReader confirmReader : ReaderStatus) (now : Z)
    : option (TypedRuntime * list effect * list SourceStatus) :=
  let config := ru_config s in
  let same := readConfirms config in
  let active := ru_alive s && ru_committed s in
  let '(sample, read) := assessSource (ru_readSample s) readReader config fullName (pv_read config)
                           (if same then "read-confirm" else "read") active readProbeMs now in
  let s := s <| ru_readSample := sample |> in
  let epoch := if same then rs_epoch (ss_reader read) else rs_epoch confirmReader in
  '(s, eff) ← (if active then
      let s := s <| ru_pending := expire_epoch epoch <$> ru_pending s |> in
      if negb (String.eqb (ss_error read) (ru_healthError s))
      then republish (s <| ru_healthError := ss_error read |>)
      else Some (s, [])
    else Some (s, []));
  match pv_confirm config with
  | Some c =>
      if same then Some (s, eff, [read])
      else
        let '(sample, confirm) := assessSource (ru_confirmSample s) confirmReader config fullName
              {| rt_backend := cf_backend c; rt_key := cf_key c |} "confirm" active confirmProbeMs now in
        Some (s <| ru_confirmSample := sample |>, eff, [read; confirm])
  | None => Some (s, eff, [read])
  end.

(** ** Starting, reconfiguring and retiring *)

(** [getStreamSnapshot] *)
Record StreamSnapshot := { sx_present : bool; sx_connected : bool; sx_id : string; sx_fields : gmap string string }.

(** [decode] and the time of a snapshot that is present. *)
Definition decodeSnapshot (snapshot : StreamSnapshot) : option (TypedValue * Z) :=
  if sx_present snapshot then
    raw ← decode (sx_fields snapshot); time ← RA_Time (sx_id snapshot); Some (raw, time)
  else None.

Definition startSample (snapshot : StreamSnapshot) (sample : SourceSampleState) (error : string) (now : Z)
    : SourceSampleState :=
  match decodeSnapshot snapshot with
  | Some _ => accept sample (sx_id snapshot) 1 now
  | None => if sx_present snapshot then reject sample error 1 else sample
  end.

(** The constructor and [initialize], up to the subscriptions; [registration]
    is what [prepare] of the alarm publisher returned, [None] without one. *)
Definition initialize (config : PVConfig) (generation : Z) (ntscalar : TypeCode -> bool -> bool -> bool -> bool -> V)
    (snapshot : StreamSnapshot) (confirmation : StreamSnapshot) (registration : option Z)
    (clock : option (Z * Z)) (now : Z) : option (TypedRuntime * AlarmState) :=
  zero ← initialOr config;
  let sourceError := if sx_present snapshot then "Invalid Redis snapshot" else "No source data; using initial fallback" in
  initial ← createInitialValue ntscalar config clock;
  let s :=
    {| ru_config := config; ru_generation := generation; ru_commandEpoch := 0; ru_alive := true;
       ru_committed := false; ru_open := true; ru_pv := initial; ru_alarm := registration;
       ru_readSample := startSample snapshot SourceSampleState_default sourceError now;
       ru_confirmSample := SourceSampleState_default; ru_healthError := "";
       ru_lastRaw := match decodeSnapshot snapshot with Some (raw, _) => raw | None => zero end;
       ru_lastTimestampNs := match decodeSnapshot snapshot with Some (_, time) => u64 time | None => 0 end;
       ru_sourceValid := is_some (decodeSnapshot snapshot);
       ru_sourceError := if is_some (decodeSnapshot snapshot) then "" else sourceError;
       ru_nextPendingId := 0; ru_pending := ∅ |} in
  '(v, state) ← populateValue s initial config;
  let s := s <| ru_pv := v |> in
  Some (if is_some (pv_confirm config) && negb (readConfirms config)
        then s <| ru_confirmSample := startSample confirmation SourceSampleState_default
                                        "Invalid confirmation snapshot" now |>
        else s, state).

Definition runtime_activate (s : TypedRuntime) : TypedRuntime * list effect :=
  (s <| ru_committed := true |>, match ru_alarm s with Some r => [FActivate r] | None => [] end).

(** [Update]: a prepared configuration, with the registration it will use. *)
Record Update := { up_config : PVConfig; up_generation : Z; up_alarm : option Z }.

(** [registration] is the new registration when the publisher changes. *)
Definition prepareReconfigure (s : TypedRuntime) (config : PVConfig) (generation : Z) (registration : option Z)
    : option (exn Update) :=
  if negb (ru_alive s) || negb (sameReaderTopology (ru_config s) config) then
    Some (Throw "runtime changed during preparation")
  else
    _ ← populateValue s (pv_fetch (ru_pv s)) config;
    Some (Ret {| up_config := config; up_generation := generation;
                 up_alarm := match registration with Some r => Some r | None => ru_alarm s end |}).

Definition fail_one (reason : string) (pending : PendingPut) : PendingPut :=
  pending <| pp_done := true |> <| pp_error := Some reason |>.

Definition failPendingLocked (s : TypedRuntime) (reason : string) : TypedRuntime :=
  s <| ru_pending := fail_one reason <$> ru_pending s |>.

Definition commit (s : TypedRuntime) (u : Update) : TypedRuntime * list effect :=
  let same := sameTransform (pv_transform (ru_config s)) (pv_transform (up_config u)) in
  let s := if same then s
           else failPendingLocked (s <| ru_commandEpoch ::= fun n => u64 (n + 1) |>)
                  "write transform changed during reload" in
  let eff := if bool_decide (up_alarm u = ru_alarm s) then []
             else match ru_alarm s with Some r => [FRetire r] | None => [] end in
  (s <| ru_alarm := up_alarm u |> <| ru_config := up_config u |> <| ru_generation := up_generation u |>, eff).

Definition refreshMetadata (s : TypedRuntime) : option (TypedRuntime * list effect) :=
  if negb (ru_alive s) then Some (s, [])
  else
    let v := pv_fetch (ru_pv s) in
    let prior := v_data v "value" in
    '(v, state) ← populateValue s (v_unmark v) (ru_config s);
    let v := if samePresentedPayload prior (v_data v "value") then v_unmark_at v "value" else v in
    let v := v_unmark_at v "timeStamp" in
    Some (s <| ru_pv := pv_post (ru_pv s) v |>, FPost v :: recordAlarmLocked s state).

(** monitor_sample.h *)
Definition monitorPublishesSample (v : V) : bool := v_isMarked v "value" || v_isMarked v "timeStamp".

(** [deactivate]: the exchange of [alive_], the critical section, the close. *)
Definition deactivate_flag (s : TypedRuntime) : TypedRuntime * bool := (s <| ru_alive := false |>, ru_alive s).
Definition deactivate_locked (s : TypedRuntime) (reason : string) : TypedRuntime * list effect :=
  (failPendingLocked (s <| ru_commandEpoch ::= fun n => u64 (n + 1) |>) reason,
   match ru_alarm s with Some r => [FRetire r] | None => [] end).
Definition deactivate_close (s : TypedRuntime) : TypedRuntime := s <| ru_open := false |>.

(** ** Writing *)

(** The size check of [handlePut]: [count] is the number of elements of an
    array, or the bytes of a string. *)
Definition put_bytes (config : PVConfig) (maxPayloadBytes : Z) (count : exn Z) : exn Z :=
  let count := match count with Ret n => Ret n | Throw what => Throw ("invalid put value: " +:+ what) end in
  bytes ← match pv_shape config, pv_type config with
          | Array, t =>
              n ← count;
              if maxPayloadBytes / sizeof t <? n then Throw "write payload exceeds max_payload_bytes"
              else Ret (n * sizeof t)
          | Scalar, String_ => count
          | Scalar, t => Ret (sizeof t)
          end;
  if maxPayloadBytes <? bytes then Throw "write payload exceeds max_payload_bytes" else Ret bytes.

Definition put_deadline (limits : OperationLimitsConfig) (confirmationMs now : Z) : Z :=
  now + default (Z.max 5000 (confirmationMs + 2000)) (ol_operationTimeoutMs limits) * 1000000.

(** Where the thread of a put is. *)
Inductive stage :=
| SQueued (epoch : Z)
| SEncoded (epoch : Z) (current : PVConfig) (raw : TypedValue)
| SWatching (epoch : Z) (current : PVConfig) (raw : TypedValue) (sourceEpoch : Z)
| SReady (epoch : Z) (current : PVConfig) (raw : TypedValue) (watch : option (string * Z))
| SWritten (current : PVConfig) (raw : TypedValue) (time : Z)
| SUpdated
| SRegistered (epoch : Z) (id : Z)
| SWaiting (epoch : Z) (id : Z)
| SWoken (error : option string) (confirmed : bool)
| SDone.

(** [pu_present] is the client's value converted to the type of the PV. *)
Record Put := {
  pu_exec : QueuedExec;
  pu_deadline : Z;
  pu_present : exn TypedValue;
  pu_stage : stage;
}.
#[global] Instance Put_eta : Eta Put := fun r =>
  Build_Put (pu_exec r) (pu_deadline r) (pu_present r) (pu_stage r).

(** Answer and leave. *)
Definition put_error (p : Put) (message : string) : Put * list exec_effect :=
  let '(x, eff) := error (pu_exec p) message in (p <| pu_exec := x |> <| pu_stage := SDone |>, eff).
Definition put_reply (p : Put) : Put * list exec_effect :=
  let '(x, eff) := reply (pu_exec p) in (p <| pu_exec := x |> <| pu_stage := SDone |>, eff).
Definition put_leave (p : Put) : Put * list exec_effect := (p <| pu_stage := SDone |>, []).

(** [handlePut] before it looks at the payload: the answer when the runtime
    does not take puts. *)
Definition put_admits (s : TypedRuntime) : bool := ru_alive s && ru_committed s.

(** The rest of [handlePut]: the epoch was loaded after the flags. *)
Definition put_submit (s : TypedRuntime) (limits : OperationLimitsConfig) (confirmationMs now : Z) (count : exn Z)
    (present : exn TypedValue) : exn Put :=
  _ ← put_bytes (ru_config s) (ol_maxPayloadBytes limits) count;
  Ret {| pu_exec := QueuedExec_create; pu_deadline := put_deadline limits confirmationMs now;
         pu_present := present; pu_stage := SQueued (ru_commandEpoch s) |}.

(** [dispatchPut], up to the encoded value. *)
Definition dispatch_begin (s : TypedRuntime) (p : Put) (epoch : Z) : Put * list exec_effect :=
  if stopped (pu_exec p) then put_leave p
  else if negb (ru_alive s) || negb (ru_committed s) || negb (ru_commandEpoch s =? epoch) then
    put_error p "write configuration changed before dispatch"
  else match pu_present p with
       | Throw what => put_error p ("invalid put value: " +:+ what)
       | Ret present =>
           let current := ru_config s in
           let raw := inverseTyped current present in
           (p <| pu_stage := if is_some (pv_confirm current) then SEncoded epoch current raw
                             else SReady epoch current raw None |>, [])
       end.

(** The epoch of the confirming reader, then the snapshot after which a
    confirmation counts. *)
Definition dispatch_watch (p : Put) (epoch : Z) (current : PVConfig) (raw : TypedValue) (readerEpoch : Z)
    : Put * list exec_effect :=
  if stopped (pu_exec p) then put_leave p
  else (p <| pu_stage := SWatching epoch current raw readerEpoch |>, []).

Definition dispatch_snapshot (p : Put) (epoch : Z) (current : PVConfig) (raw : TypedValue) (sourceEpoch : Z)
    (snapshot : StreamSnapshot) : Put * list exec_effect :=
  if negb (sx_connected snapshot) then put_error p "confirmation backend unavailable"
  else (p <| pu_stage := SReady epoch current raw (Some (sx_id snapshot, sourceEpoch)) |>, []).

(** The result of [writeToRedis]: accepted at a time, refused, or an exception. *)
Inductive write_result := WroteAt (time : Z) | WriteRefused | WriteThrew.

(** The critical section that writes; [readerEpoch] is the confirming
    reader's, [authorized] the answer of [authorizeWriteDispatch].  The second
    result says whether the command was sent. *)
Definition dispatch_write (s : TypedRuntime) (p : Put) (epoch : Z) (current : PVConfig) (raw : TypedValue)
    (watch : option (string * Z)) (now readerEpoch : Z) (authorized : bool) (result : write_result)
    : TypedRuntime * Put * list exec_effect * bool :=
  let fail message := let '(p, eff) := put_error p message in (s, p, eff, false) in
  let leave := let '(p, eff) := put_leave p in (s, p, eff, false) in
  if negb (ru_alive s) || negb (ru_commandEpoch s =? epoch) then fail "write configuration changed"
  else if stopped (pu_exec p) then leave
  else if pu_deadline p <=? now then fail "total operation deadline exceeded before dispatch"
  else if negb (operation (pu_exec p)) then leave
  else if negb authorized then fail "write no longer authorized at dispatch"
  else
    let refused s := let '(p, eff) := put_error p "redis write failed; not retried" in (s, p, eff, true) in
    let threw s := let '(p, eff) := put_leave p in (s, p, eff, true) in
    match watch with
    | None =>
        match result with
        | WroteAt time => (s, p <| pu_stage := SWritten current raw time |>, [], true)
        | WriteRefused => refused s
        | WriteThrew => threw s
        end
    | Some (afterId, sourceEpoch) =>
        if negb (sourceEpoch =? readerEpoch) then fail "confirmation source epoch changed before dispatch"
        else
          let id := u64 (ru_nextPendingId s + 1) in
          let s := s <| ru_nextPendingId := id |> in
          match result with
          | WroteAt _ =>
              (s <| ru_pending := <[id := {| pp_expectedRaw := raw; pp_afterId := afterId;
                                             pp_sourceEpoch := sourceEpoch; pp_done := false;
                                             pp_error := None |}]> (ru_pending s) |>,
               p <| pu_stage := SRegistered epoch id |>, [], true)
          | WriteRefused => refused s
          | WriteThrew => threw s
          end
    end.

(** A write without confirmation: the value becomes the readback when the PV
    reads what it writes. *)
Definition dispatch_update (s : TypedRuntime) (p : Put) (current : PVConfig) (raw : TypedValue) (time : Z)
    (reader : ReaderStatus) (now : Z) : option (TypedRuntime * Put * list effect) :=
  if stopped (pu_exec p) then Some (s, (put_leave p).1, [])
  else
    let p := p <| pu_stage := SUpdated |> in
    match pv_write current with
    | Some route =>
        if sameRouteTarget (pv_read current) route then
          '(s, eff, _) ← handleRawUpdate s raw (u64 time) true false "" None reader now;
          Some (s, p, eff)
        else Some (s, p, [])
    | None => Some (s, p, [])
    end.

Definition dispatch_reply (p : Put) (now : Z) : Put * list exec_effect :=
  if pu_deadline p <=? now then put_error p "total operation deadline exceeded after dispatch; not retried"
  else put_reply p.

Definition dispatch_wake (p : Put) (epoch id : Z) : Put * list exec_effect :=
  let '(x, eff) := wake (pu_exec p) in (p <| pu_exec := x |> <| pu_stage := SWaiting epoch id |>, eff).

(** The predicate of [wait_until]. *)
Definition wait_over (s : TypedRuntime) (p : Put) (epoch id : Z) : bool :=
  match ru_pending s !! id with Some pending => pp_done pending | None => false end ||
  stopped (pu_exec p) || negb (ru_alive s) || negb (ru_commandEpoch s =? epoch).

(** The wait ends, by the predicate or by the clock. *)
Definition dispatch_woken (s : TypedRuntime) (p : Put) (epoch id : Z) : TypedRuntime * Put :=
  let completed := wait_over s p epoch id in
  match ru_pending s !! id with
  | Some pending =>
      (s <| ru_pending := delete id (ru_pending s) |>,
       p <| pu_stage := SWoken (pp_error pending) (completed && pp_done pending) |>)
  | None => (s, p <| pu_stage := SWoken None false |>)
  end.

Definition dispatch_answer (p : Put) (err : option string) (confirmed : bool) (now : Z) : Put * list exec_effect :=
  if stopped (pu_exec p) then put_leave p
  else match err with
       | Some message => put_error p message
       | None =>
           if pu_deadline p <=? now then put_error p "total operation deadline exceeded after dispatch; not retried"
           else if negb confirmed then put_error p "backend confirmation timeout; not retried"
           else put_reply p
       end.

End Runtime.

Arguments TypedRuntime : clear implicits.
Arguments effect : clear implicits.
