(* ===== verification/RuntimeFacts.v ===== *)
(** * What a runtime presents

    The leaves of the value a PV serves after each handler of Runtime, the
    marks a refresh leaves, and the type of everything that is published or
    written.  [MapShared] is a concrete [SharedPV] on the structures of
    [MapValue]. *)

From S2P Require Import Prelude.
From S2P Require Import StrMap.
From S2P Require Import Floats.
From S2P Require Import Config.
From S2P Require Import ConfigDiff.
From S2P Require Import SourceHealth.
From S2P Require Import Util.
From S2P Require Import QueuedExec.
From S2P Require Import Runtime.

Local Open Scope string_scope.
Local Open Scope list_scope.
Local Open Scope Z_scope.

Ltac path_member := apply (bool_decide_unpack _); vm_compute; exact I.
Ltac path_absent := apply (bool_decide_unpack _); vm_compute; exact I.

(** ** Leaves of the chains of assignments *)

Section Leaves.
Context {V : Type} {HV : PvxsValue V}.
Implicit Types v : V.

Lemma frame_weaken (P Q : string -> Prop) v v' : (forall p, P p -> Q p) -> frame P v v' -> frame Q v v'.
Proof. intros HPQ [Hc Hd]. split; [done|]. intros p Hp. apply Hd. auto. Qed.

Lemma frame_data P v v' p : frame P v v' -> ~ P p -> v_data v' p = v_data v p /\ v_marked v' p = v_marked v p.
Proof. intros [_ H]. apply H. Qed.

Lemma frame_code P v v' p : frame P v v' -> v_code v' p = v_code v p.
Proof. intros [H _]. apply H. Qed.

Lemma assign_eq v p d : v_code v p <> None -> v_data (v_assign v p d) p = Some d /\ v_marked (v_assign v p d) p = true.
Proof. intros Hv. rewrite v_data_assign, v_marked_assign, String.eqb_refl by done. done. Qed.

Lemma assign_ne v p d q : v_code v p <> None -> q <> p ->
  v_data (v_assign v p d) q = v_data v q /\ v_marked (v_assign v p d) q = v_marked v q.
Proof. intros Hv Hq. rewrite v_data_assign, v_marked_assign by done. by rewrite (proj2 (String.eqb_neq q p)). Qed.

Lemma numeric_frame (P : string -> Prop) v p input dflt v' :
  P p -> assignTypedNumeric v p input dflt = Some v' -> frame P v v'.
Proof.
  intros HP. unfold assignTypedNumeric. destruct (v_code v p) as [c|] eqn:E; [|by intros [= ->]].
  destruct (castNumeric c _) as [d|]; cbn; [|done]. intros [= <-].
  destruct d; [|done]. apply frame_assign; [done|congruence].
Qed.

Lemma numeric_if_frame (P : string -> Prop) v p input dflt v' :
  P p -> numeric_if_valid v p input dflt = Some v' -> frame P v v'.
Proof.
  intros HP. unfold numeric_if_valid. destruct (v_valid v p); [by apply numeric_frame|by intros [= ->]].
Qed.

Lemma metadata_frame v config v' : applyStandardMetadata v config = Some v' -> frame metadata_path v v'.
Proof.
  unfold applyStandardMetadata. cbn zeta. intros H.
  repeat (apply bind_Some in H as (? & ?%(numeric_if_frame metadata_path) & H); [|path_member]).
  apply (numeric_if_frame metadata_path) in H; [|path_member].
  repeat (etrans; [|eassumption]).
  repeat match goal with F : frame _ (assign_if_valid _ _ _) ?x |- frame _ _ ?x => etrans; [|exact F] end.
  repeat (apply frame_assign_if_r; [|path_member]).
  match goal with F : frame _ _ ?x |- frame _ _ ?x => etrans; [|exact F] end.
  match goal with F : frame _ _ ?x |- frame _ _ ?x => etrans; [|exact F] end.
  repeat (apply frame_assign_if_r; [|path_member]). done.
Qed.

(** The leaves every NTScalar has. *)
Definition stamp_path (p : string) : Prop :=
  p ∈ ["timeStamp.secondsPastEpoch"; "timeStamp.nanoseconds"; "timeStamp.userTag"].
Definition alarm_path (p : string) : Prop := p ∈ ["alarm.severity"; "alarm.status"; "alarm.message"].
Definition value_alarm_path (p : string) : Prop :=
  p ∈ ["valueAlarm.active"; "valueAlarm.lowAlarmLimit"; "valueAlarm.lowWarningLimit"; "valueAlarm.highWarningLimit";
       "valueAlarm.highAlarmLimit"; "valueAlarm.lowAlarmSeverity"; "valueAlarm.lowWarningSeverity";
       "valueAlarm.highWarningSeverity"; "valueAlarm.highAlarmSeverity"; "valueAlarm.hysteresis"].

Definition scalar_leaves : list string :=
  ["value"; "timeStamp.secondsPastEpoch"; "timeStamp.nanoseconds"; "timeStamp.userTag";
   "alarm.severity"; "alarm.status"; "alarm.message"].

(** The leaves of the [valueAlarm] structure come together. *)
Record presentable (v : V) : Prop := {
  pr_leaves : Forall (fun p => v_code v p <> None) scalar_leaves;
  pr_valueAlarm : forall p, value_alarm_path p -> v_code v "valueAlarm.active" <> None -> v_code v p <> None;
}.

Lemma presentable_code v v' : (forall p, v_code v' p = v_code v p) -> presentable v -> presentable v'.
Proof.
  intros Hc [Hl Ha]. split.
  - eapply Forall_impl; [exact Hl|]. intros p. cbn. by rewrite Hc.
  - intros p Hp. rewrite !Hc. by apply Ha.
Qed.

Lemma presentable_leaf v p : presentable v -> p ∈ scalar_leaves -> v_code v p <> None.
Proof. intros [Hl _] Hp. by eapply Forall_forall in Hl. Qed.

(** A leaf with its data, and also with its mark. *)
Definition leaf_is v (p : string) (d : field_data) : Prop := v_data v p = Some d.
Definition leaf_set v (p : string) (d : field_data) : Prop := v_data v p = Some d /\ v_marked v p = true.

Definition stamp_leaves (leaf : string -> field_data -> Prop) (seconds nanoseconds : Z) : Prop :=
  leaf "timeStamp.secondsPastEpoch" (FInt seconds) /\ leaf "timeStamp.nanoseconds" (FInt nanoseconds) /\
  leaf "timeStamp.userTag" (FInt 0).
Definition alarm_leaves (leaf : string -> field_data -> Prop) (state : AlarmState) : Prop :=
  leaf "alarm.severity" (FInt (am_severity state)) /\ leaf "alarm.status" (FInt (am_status state)) /\
  leaf "alarm.message" (FString (am_message state)).

Lemma leaf_set_frame P v v' p d : frame P v v' -> ~ P p -> leaf_set v p d -> leaf_set v' p d.
Proof. intros [_ Hf] HP [H1 H2]. destruct (Hf p HP) as [E1 E2]. split; congruence. Qed.

Lemma stamp_assign v a b :
  presentable v ->
  let v' := v_assign (v_assign (v_assign v "timeStamp.secondsPastEpoch" (FInt a)) "timeStamp.nanoseconds" (FInt b))
              "timeStamp.userTag" (FInt 0) in
  frame stamp_path v v' /\ stamp_leaves (leaf_set v') a b.
Proof.
  intros Hv v'. assert (Hl : forall q, q ∈ scalar_leaves -> v_code v q <> None) by (intros; by apply presentable_leaf).
  split.
  - subst v'. repeat (etrans; [|apply frame_assign; [path_member|rewrite ?v_code_assign; apply Hl; path_member]]). done.
  - subst v'. unfold stamp_leaves, leaf_set.
    rewrite !v_data_assign, !v_marked_assign by (rewrite ?v_code_assign; apply Hl; path_member). done.
Qed.

(** An assignment to a leaf whose validity is known from the layout. *)
Lemma frame_assign_r (P : string -> Prop) v0 v p d :
  frame P v0 v -> P p -> v_code v0 p <> None -> frame P v0 (v_assign v p d).
Proof. intros Hf HP Hc. etrans; [exact Hf|]. apply frame_assign; [done|]. by rewrite (frame_code _ _ _ p Hf). Qed.

Lemma alarm_fields_frame v config state v' :
  presentable v -> applyAlarmFields v config state = Some v' ->
  frame (fun p => alarm_path p \/ value_alarm_path p) v v' /\ alarm_leaves (leaf_set v') state.
Proof.
  intros Hv. assert (Hl : forall q, q ∈ scalar_leaves -> v_code v q <> None) by (intros; by apply presentable_leaf).
  unfold applyAlarmFields. cbn zeta.
  set (v1 := v_assign (v_assign (v_assign v _ _) _ _) _ _).
  assert (F1 : frame alarm_path v v1).
  { subst v1. repeat (apply frame_assign_r; [|path_member|apply Hl; path_member]). done. }
  assert (A1 : alarm_leaves (leaf_set v1) state).
  { subst v1. unfold alarm_leaves, leaf_set.
    rewrite !v_data_assign, !v_marked_assign by (rewrite ?v_code_assign; apply Hl; path_member). done. }
  assert (Hend : frame value_alarm_path v1 v' ->
    frame (fun p => alarm_path p \/ value_alarm_path p) v v' /\ alarm_leaves (leaf_set v') state).
  { intros F2. split.
    - etrans; eapply frame_weaken; [|exact F1| |exact F2]; auto.
    - destruct A1 as (? & ? & ?). split_and!; (eapply leaf_set_frame; [exact F2|path_absent|done]). }
  unfold v_valid. destruct (v_code v1 "valueAlarm.active") eqn:Ea; cbn [is_some negb]; [|by intros [= <-]; apply Hend].
  assert (Hva : forall p, value_alarm_path p -> v_code v1 p <> None).
  { intros p Hp. rewrite (frame_code _ _ _ p F1). apply (pr_valueAlarm _ Hv p Hp).
    rewrite <-(frame_code _ _ _ _ F1), Ea. done. }
  intros H. apply Hend.
  apply bind_Some in H as (v2 & G2%(numeric_frame value_alarm_path) & H); [|path_member].
  apply bind_Some in H as (v3 & G3%(numeric_frame value_alarm_path) & H); [|path_member].
  apply bind_Some in H as (v4 & G4%(numeric_frame value_alarm_path) & H); [|path_member].
  apply bind_Some in H as (v5 & G5%(numeric_frame value_alarm_path) & H); [|path_member].
  injection H as <-. repeat (apply frame_assign_r; [|path_member|apply Hva; path_member]).
  etrans; [|exact G5]. etrans; [|exact G4]. etrans; [|exact G3]. etrans; [|exact G2].
  apply frame_assign; [path_member|]. by rewrite Ea.
Qed.

End Leaves.

Section Present.
Context {V : Type} {HV : PvxsValue V} {HS : SharedPV V}.
Implicit Types (v : V) (s : TypedRuntime V).

(** The time stamp of the last sample, zero before the first. *)
Definition stampOf s : Z * Z := if ru_lastTimestampNs s =? 0 then (0, 0) else splitTimestamp (ru_lastTimestampNs s).

Lemma timestampOf_spec s v :
  presentable v -> frame stamp_path v (timestampOf s v) /\
  stamp_leaves (leaf_set (timestampOf s v)) (stampOf s).1 (stampOf s).2.
Proof.
  intros Hv. unfold timestampOf, stampOf, applyTimestamp. destruct (ru_lastTimestampNs s =? 0) eqn:E; cbn [negb].
  - by apply stamp_assign.
  - destruct (splitTimestamp (ru_lastTimestampNs s)) as [a b]. cbn. by apply stamp_assign.
Qed.

(** Everything [populateValue] says about the leaves it fills. *)
Record populated s (config : PVConfig) v v' (state : AlarmState) : Prop := {
  pd_code : forall p, v_code v' p = v_code v p;
  pd_value : leaf_set v' "value" (FTyped (forwardTyped config (ru_lastRaw s)));
  pd_stamp : stamp_leaves (leaf_set v') (stampOf s).1 (stampOf s).2;
  pd_alarm : alarm_leaves (leaf_set v') state;
  pd_state : state = alarmOf s config (forwardTyped config (ru_lastRaw s)) (alarmStatusOf v);
}.

Lemma populateValue_spec s v config v' state :
  presentable v -> populateValue s v config = Some (v', state) -> populated s config v v' state.
Proof.
  intros Hv H. unfold populateValue in H. cbn zeta in H.
  set (v1 := v_assign v "value" _) in H.
  assert (Hval : v_code v "value" <> None) by (apply presentable_leaf; [done|path_member]).
  assert (F1 : frame (fun p => p = "value") v v1) by (by apply frame_assign).
  apply bind_Some in H as (v2 & F2%metadata_frame & H).
  assert (P2 : presentable v2).
  { apply (presentable_code v1); [apply F2|]. by apply (presentable_code v); [apply F1|]. }
  destruct (timestampOf_spec s v2 P2) as [F3 S3].
  set (v3 := timestampOf s v2) in *.
  apply bind_Some in H as (v4 & F4 & [= <- <-]).
  apply alarm_fields_frame in F4 as [F4 A4]; [|by apply (presentable_code v2); [apply F3|]].
  split.
  - intros p. by rewrite (frame_code _ _ _ p F4), (frame_code _ _ _ p F3), (frame_code _ _ _ p F2), (frame_code _ _ _ p F1).
  - eapply leaf_set_frame; [exact F4|path_absent|]. eapply leaf_set_frame; [exact F3|path_absent|].
    eapply leaf_set_frame; [exact F2|path_absent|]. by apply assign_eq.
  - destruct S3 as (? & ? & ?). split_and!; (eapply leaf_set_frame; [exact F4|path_absent|done]).
  - done.
  - f_equal. unfold alarmStatusOf.
    rewrite (proj1 (frame_data _ _ _ "alarm.status" F3 ltac:(path_absent))).
    rewrite (proj1 (frame_data _ _ _ "alarm.status" F2 ltac:(path_absent))).
    by rewrite (proj1 (frame_data _ _ _ "alarm.status" F1 ltac:(path_absent))).
Qed.

Lemma post_leaf v w p d : presentable v -> p ∈ scalar_leaves -> leaf_set w p d -> leaf_is (pv_post v w) p d.
Proof.
  intros Hv Hp [Hd Hm]. unfold leaf_is. rewrite pv_data_post_marked; [done| |done]. by apply presentable_leaf.
Qed.

(** What clients of the PV see after it was published again. *)
Record presents s (pv : V) (state : AlarmState) : Prop := {
  ps_value : leaf_is pv "value" (FTyped (forwardTyped (ru_config s) (ru_lastRaw s)));
  ps_stamp : stamp_leaves (leaf_is pv) (stampOf s).1 (stampOf s).2;
  ps_alarm : alarm_leaves (leaf_is pv) state;
}.

Lemma republish_spec s s' eff :
  presentable (ru_pv s) -> republish s = Some (s', eff) ->
  exists v state, s' = s <| ru_pv := pv_post (ru_pv s) v |> /\ eff = FPost v :: recordAlarmLocked s state /\
    populated s (ru_config s) (pv_fetch (ru_pv s)) v state /\ presents s' (ru_pv s') state /\
    state = alarmOf s (ru_config s) (forwardTyped (ru_config s) (ru_lastRaw s)) (alarmStatusOf (ru_pv s)) /\
    (forall p, v_code (ru_pv s') p = v_code (ru_pv s) p).
Proof.
  intros Hp H. unfold republish in H. apply bind_Some in H as ([v state] & H & [= <- <-]).
  assert (Hpf : presentable (pv_fetch (ru_pv s))).
  { apply (presentable_code (ru_pv s)); [intros; apply pv_code_fetch|done]. }
  pose proof (populateValue_spec _ _ _ _ _ Hpf H) as Hd.
  exists v, state. split; [done|]. split; [done|]. split; [done|]. destruct Hd as [Hc Hv Hst Hal Hs]. cbn. split_and!.
  - split; cbn.
    + by apply post_leaf; [|path_member|].
    + destruct Hst as (? & ? & ?). split_and!; by apply post_leaf; [|path_member|].
    + destruct Hal as (? & ? & ?). split_and!; by apply post_leaf; [|path_member|].
  - rewrite Hs. f_equal. unfold alarmStatusOf. by rewrite pv_data_fetch.
  - intros p. apply pv_code_post.
Qed.

(** ** One entry of a batch *)

Lemma set_sample_frame s read sample :
  ru_pv (set_sample s read sample) = ru_pv s /\ ru_config (set_sample s read sample) = ru_config s /\
  ru_lastRaw (set_sample s read sample) = ru_lastRaw s /\
  ru_lastTimestampNs (set_sample s read sample) = ru_lastTimestampNs s /\
  ru_pending (set_sample s read sample) = ru_pending s /\ ru_alive (set_sample s read sample) = ru_alive s /\
  ru_healthError (set_sample s read sample) = ru_healthError s.
Proof. unfold set_sample. by destruct read. Qed.

Lemma acceptEpoch_spec s read epoch reader s1 accepted :
  acceptEpochLocked s read epoch reader = (s1, accepted) ->
  (accepted = true <-> ru_alive s = true /\ rs_epoch reader = epoch) /\ (accepted = true -> s1 = s) /\
  exists sample, s1 = s \/ s1 = set_sample s read sample.
Proof.
  unfold acceptEpochLocked. destruct (ru_alive s) eqn:Ea; cbn [negb].
  - destruct (Z.eqb_spec (rs_epoch reader) epoch); intros [= <- <-].
    + split_and!; [tauto|done|]. exists (sampleOf s read). by left.
    + split_and!; [|done|by eexists; right]. split; [done|by intros [_ ?]].
  - intros [= <- <-]. split_and!; [|done|exists (sampleOf s read); by left]. split; [done|by intros [? _]].
Qed.

End Present.

Section Entry.
Context {V : Type} {HV : PvxsValue V} {HS : SharedPV V}.
Context (decode : gmap string string -> option TypedValue) (RA_Time : string -> option Z)
  (compareStreamIds : string -> string -> Z).
Implicit Types (v : V) (s : TypedRuntime V).

(** The presentation of a PV is what it was. *)
Definition same_presentation s s' : Prop :=
  ru_pv s' = ru_pv s /\ ru_lastRaw s' = ru_lastRaw s /\ ru_lastTimestampNs s' = ru_lastTimestampNs s /\
  ru_healthError s' = ru_healthError s.

Lemma entry_ignored s read epoch reader s1 :
  acceptEpochLocked s read epoch reader = (s1, false) -> same_presentation s s1.
Proof.
  intros (_ & _ & sample & [->| ->])%acceptEpoch_spec; [done|].
  pose proof (set_sample_frame s read sample) as H. unfold same_presentation. naive_solver.
Qed.

(** C14. What a PV shows is its last sample: an entry of a batch is used exactly
    when the runtime is alive and the batch belongs to the reader's current
    epoch.  An entry of the read stream that decodes becomes the value
    (transformed), the time stamp and the alarm of the PV, the alarm being the
    reader's trouble if there is any and that of the limits otherwise; one
    that does not decode keeps value and time stamp and makes the alarm
    INVALID.  An entry that is not used, or of the confirmation stream, changes
    nothing a client can see. *)
Theorem entry_presented s entry updateValue canConfirm m reader now s' eff continue :
  presentable (ru_pv s) -> bm_epoch m <> 0 ->
  handleEntry decode RA_Time compareStreamIds s entry updateValue canConfirm m reader now = Some (s', eff, continue) ->
  (continue = true <-> ru_alive s = true /\ rs_epoch reader = bm_epoch m) /\
  (continue = false \/ updateValue = false -> eff = [] /\ same_presentation s s') /\
  (continue = true -> updateValue = true ->
   exists v state, eff = FPost v :: recordAlarmLocked s' state /\ presents s' (ru_pv s') state /\
     match decode entry.2, RA_Time entry.1 with
     | Some raw, Some time =>
         ru_lastRaw s' = raw /\ ru_lastTimestampNs s' = u64 time /\
         state = if str_empty (batchHealthError reader m)
                 then match to_double (forwardTyped (ru_config s) raw) with
                      | Some x => evaluateNumericAlarm (ru_config s) x (alarmStatusOf (ru_pv s))
                      | None => {| am_severity := epicsSevNone; am_status := epicsAlarmNone; am_message := "" |}
                      end
                 else invalidAlarm (batchHealthError reader m)
     | _, _ =>
         ru_lastRaw s' = ru_lastRaw s /\ ru_lastTimestampNs s' = ru_lastTimestampNs s /\
         state = invalidAlarm "Invalid Redis payload or source timestamp"
     end).
Proof.
  intros Hp Hm. unfold handleEntry. destruct (ru_alive s) eqn:Ha; cbn [negb].
  2: { intros [= <- <- <-]. split_and!; [split; [done|by intros [? _]]|intros _; by split_and!|done]. }
  assert (Hbad : markInvalid s "Invalid Redis payload or source timestamp" updateValue (bm_epoch m) reader = Some (s', eff, continue) ->
    (continue = true <-> true = true /\ rs_epoch reader = bm_epoch m) /\
    (continue = false \/ updateValue = false -> eff = [] /\ same_presentation s s') /\
    (continue = true -> updateValue = true ->
     exists v state, eff = FPost v :: recordAlarmLocked s' state /\ presents s' (ru_pv s') state /\
       ru_lastRaw s' = ru_lastRaw s /\ ru_lastTimestampNs s' = ru_lastTimestampNs s /\
       state = invalidAlarm "Invalid Redis payload or source timestamp")).
  { unfold markInvalid. destruct (acceptEpochLocked s updateValue (bm_epoch m) reader) as [s1 accepted] eqn:E.
    pose proof (acceptEpoch_spec _ _ _ _ _ _ E) as (Hacc & Hs1 & _). rewrite Ha in Hacc.
    destruct accepted; cbn [negb].
    - rewrite (Hs1 eq_refl) in *. pose proof (set_sample_frame s updateValue
        (reject (sampleOf s updateValue) "Invalid Redis payload or source timestamp" (bm_epoch m))) as Hf.
      set (s2 := set_sample s updateValue _) in *. clearbody s2. destruct updateValue; cbn [negb].
      + intros H. apply bind_Some in H as ([s3 eff3] & H & [= <- <- <-]).
        apply republish_spec in H as (v & state & -> & -> & Hd & Hpr & Hst & _); [|cbn; by rewrite (proj1 Hf)].
        split; [tauto|]. split; [by intros [?|?]|]. intros _ _. exists v, state. split; [reflexivity|]. split; [done|].
        cbn. destruct Hf as (_ & _ & -> & -> & _). done.
      + intros [= <- <- <-]. split; [tauto|]. split; [|done]. intros _. unfold same_presentation. naive_solver.
    - intros [= <- <- <-]. split; [split; [done|tauto]|]. split; [|done]. intros _. split; [done|]. by eapply entry_ignored. }
  destruct (decode entry.2) as [raw|], (RA_Time entry.1) as [time|]; [|done..]. clear Hbad.
  unfold handleRawUpdate. rewrite Ha. cbn [negb]. rewrite (proj2 (Z.eqb_neq _ _) Hm).
  destruct (acceptEpochLocked s updateValue (bm_epoch m) reader) as [s1 accepted] eqn:E.
  pose proof (acceptEpoch_spec _ _ _ _ _ _ E) as (Hacc & Hs1 & _). rewrite Ha in Hacc.
  destruct accepted; cbn [negb].
  2: { intros [= <- <- <-]. split; [split; [done|tauto]|]. split; [|done]. intros _. split; [done|]. by eapply entry_ignored. }
  rewrite (Hs1 eq_refl) in *.
  match goal with |- context [set_sample s updateValue ?x] => pose proof (set_sample_frame s updateValue x) as Hf;
    set (s2 := set_sample s updateValue x) in * end.
  set (s3 := if canConfirm then _ else s2).
  assert (Hf3 : ru_pv s3 = ru_pv s /\ ru_config s3 = ru_config s /\ ru_lastRaw s3 = ru_lastRaw s /\
    ru_lastTimestampNs s3 = ru_lastTimestampNs s /\ ru_healthError s3 = ru_healthError s).
  { subst s3. destruct canConfirm; cbn; naive_solver. }
  clearbody s3. destruct Hf3 as (F1 & F2 & F3 & F4 & F5). destruct updateValue; cbn [negb].
  - intros H. apply bind_Some in H as ([s4 eff4] & H & [= <- <- <-]).
    apply republish_spec in H as (v & state & -> & -> & Hd & Hpr & Hst & _); [|cbn; by rewrite F1].
    split; [tauto|]. split; [by intros [?|?]|]. intros _ _. exists v, state. split; [reflexivity|]. split; [done|]. cbn.
    split; [done|]. split; [done|]. rewrite Hst. unfold alarmOf. cbn. rewrite F1, F2.
    by destruct (str_empty (batchHealthError reader m)).
  - intros [= <- <- <-]. split; [tauto|]. split; [|done]. intros _. by split_and!.
Qed.

End Entry.

(** ** Reconfiguration does not publish samples *)

Section Refresh.
Context {V : Type} {HV : PvxsValue V} {HS : SharedPV V}.
Implicit Types (v : V) (s : TypedRuntime V).

Lemma under_value_stamp q : under "value" q -> under "timeStamp" q -> False.
Proof. intros [->|[r ->]] [?|[r' ?]]; discriminate. Qed.

Lemma stamp_under : under "timeStamp" "timeStamp.secondsPastEpoch" /\ under "timeStamp" "timeStamp.nanoseconds" /\
  under "timeStamp" "timeStamp.userTag".
Proof. split_and!; right; by eexists. Qed.

Lemma same_elements_spec {A} `{EqDecision A} (a b : list A) : same_elements a b = true <-> a = b.
Proof.
  unfold same_elements. rewrite andb_true_iff, Nat.eqb_eq, forallb_forall. split.
  - revert b. induction a as [|x a IH]; intros [|y b] [Hl Hf]; try done. cbn [zip zip_with] in Hf. f_equal.
    + apply (bool_decide_unpack (x = y)), Is_true_true. apply (Hf (x, y)). by left.
    + apply IH. split; [by injection Hl|]. intros e He. apply Hf. by right.
  - intros ->. split; [done|]. induction b as [|x b IH]; [done|]. intros e [<-|He]; [by apply bool_decide_eq_true|auto].
Qed.

Lemma same_typed_spec a b : a <> TVmonostate -> same_typed a b = true <-> a = b.
Proof.
  intros Ha. split.
  - destruct a, b; cbn; try done; rewrite ?Bool.eqb_true_iff, ?Z.eqb_eq, ?bool_decide_eq_true, ?String.eqb_eq,
      ?same_elements_spec; by intros ->.
  - intros ->. destruct b; cbn; try done; rewrite ?Bool.eqb_true_iff, ?Z.eqb_eq, ?bool_decide_eq_true, ?String.eqb_eq,
      ?same_elements_spec; done.
Qed.

Lemma forwardTyped_value config (v : TypedValue) : v <> TVmonostate -> forwardTyped config v <> TVmonostate.
Proof. by destruct v. Qed.

Lemma samePresented_spec prior present : present <> TVmonostate ->
  (prior = Some (FTyped present) -> samePresentedPayload prior (Some (FTyped present)) = true) /\
  (prior <> Some (FTyped present) -> samePresentedPayload prior (Some (FTyped present)) = false).
Proof.
  intros Hp. split; [intros ->; by apply same_typed_spec|]. intros Hne. apply not_true_iff_false. intros H. apply Hne.
  unfold samePresentedPayload in H. repeat case_match; try done. apply same_typed_spec in H; [by subst|].
  intros ->. by destruct present.
Qed.

(** A reload changes how a sample is presented, not that it was taken: a
    refresh after a change of configuration posts the new metadata and alarm;
    it counts as a sample for a subscriber exactly when the transformed value
    itself changed, and the time stamp of the PV stays what it was. *)
Theorem refresh_publishes_no_sample s s' eff :
  presentable (ru_pv s) -> ru_lastRaw s <> TVmonostate -> refreshMetadata s = Some (s', eff) -> ru_alive s = true ->
  exists v state, eff = FPost v :: recordAlarmLocked s state /\ alarm_leaves (leaf_is (ru_pv s')) state /\
    (v_data (ru_pv s) "value" = Some (FTyped (forwardTyped (ru_config s) (ru_lastRaw s))) ->
      monitorPublishesSample v = false /\ v_data (ru_pv s') "value" = v_data (ru_pv s) "value") /\
    (v_data (ru_pv s) "value" <> Some (FTyped (forwardTyped (ru_config s) (ru_lastRaw s))) ->
      monitorPublishesSample v = true /\
      leaf_is (ru_pv s') "value" (FTyped (forwardTyped (ru_config s) (ru_lastRaw s)))) /\
    (forall p, stamp_path p -> v_data (ru_pv s') p = v_data (ru_pv s) p).
Proof.
  intros Hp Hraw H Ha. apply (forwardTyped_value (ru_config s)) in Hraw. unfold refreshMetadata in H. rewrite Ha in H. cbn [negb] in H.
  apply bind_Some in H as ([w state] & H & Hr).
  assert (Hpu : presentable (v_unmark (pv_fetch (ru_pv s)))).
  { apply (presentable_code (ru_pv s)); [|done]. intros p. by rewrite v_code_unmark, pv_code_fetch. }
  pose proof (populateValue_spec _ _ _ _ _ Hpu H) as [Hc Hval Hst Hal _].
  rewrite pv_data_fetch, (proj1 Hval) in Hr. injection Hr as <- <-. cbn.
  destruct (samePresented_spec (v_data (ru_pv s) "value") _ Hraw) as [Hsm Hdf].
  set (same' := samePresentedPayload _ _) in *.
  set (w1 := if same' then _ else w). exists (v_unmark_at w1 "timeStamp"), state. split; [done|].
  assert (Hout : forall p d, p ∈ scalar_leaves -> ~ under "value" p -> ~ under "timeStamp" p -> leaf_set w p d ->
    leaf_is (pv_post (ru_pv s) (v_unmark_at w1 "timeStamp")) p d).
  { intros p d Hl Hv Ht [Hd Hm]. apply post_leaf; [done..|]. split.
    - rewrite v_data_unmark_at. subst w1. destruct same'; [by rewrite v_data_unmark_at|done].
    - rewrite v_marked_unmark_out by done. subst w1. destruct same'; [by rewrite v_marked_unmark_out|done]. }
  assert (Hstamp : forall q, under "timeStamp" q -> v_marked (v_unmark_at w1 "timeStamp") q = false)
    by (intros; by apply v_marked_unmark_in).
  split_and!.
  - destruct Hal as (? & ? & ?). split_and!; (apply Hout; [path_member|intros [?|[? ?]]; discriminate..|done]).
  - intros Hsame%Hsm. unfold w1. rewrite Hsame. split.
    + unfold monitorPublishesSample. apply orb_false_iff. split; apply not_true_iff_false;
        rewrite v_isMarked_spec; intros (q & Hq & Hm).
      * rewrite v_marked_unmark_out in Hm by (intros Ht; by eapply under_value_stamp).
        by rewrite v_marked_unmark_in in Hm.
      * by rewrite v_marked_unmark_in in Hm.
    + apply pv_data_post_unmarked. rewrite v_marked_unmark_out by (intros [?|[? ?]]; discriminate).
      apply v_marked_unmark_in. by left.
  - intros Hsame%Hdf. unfold w1. rewrite Hsame. destruct Hval as [Hd Hm].
    assert (Hm' : v_marked (v_unmark_at w "timeStamp") "value" = true).
    { rewrite v_marked_unmark_out; [done|]. intros [?|[? ?]]; discriminate. }
    split.
    + unfold monitorPublishesSample. apply orb_true_iff. left. apply v_isMarked_spec. exists "value". split; [by left|done].
    + apply post_leaf; [done|path_member|]. split; [by rewrite v_data_unmark_at|done].
  - intros p Hin. apply pv_data_post_unmarked, Hstamp. destruct stamp_under as (? & ? & ?).
    unfold stamp_path in Hin. set_solver.
Qed.

End Refresh.

(** ** Types *)

Lemma transformTyped_type f type shape v : has_type type shape (transformTyped f v) = has_type type shape v.
Proof. by destruct shape, type, v. Qed.

Lemma forwardTyped_type config type shape v : has_type type shape (forwardTyped config v) = has_type type shape v.
Proof. apply transformTyped_type. Qed.

Lemma inverseTyped_type config type shape v : has_type type shape (inverseTyped config v) = has_type type shape v.
Proof. apply transformTyped_type. Qed.

Lemma initialOr_type config v : initialOr config = Some v -> has_type (pv_type config) (pv_shape config) v = true.
Proof.
  unfold initialOr. destruct (has_type _ _ (pv_initialValue config)) eqn:E; [by intros [= <-]|].
  by destruct (pv_shape config), (pv_type config); intros [= <-].
Qed.

(** ** A concrete [SharedPV] *)

Module MapShared.

(** Leaves below a path, by text. *)
Definition underb (p q : string) : bool := String.eqb q p || String.prefix (p +:+ ".") q.

Lemma prefix_spec p q : String.prefix p q = true <-> exists r, q = p +:+ r.
Proof.
  revert q; induction p as [|c p IH]; intros q.
  - split; [|by destruct q]. intros _. by exists q.
  - destruct q as [|c' q]; [split; [done|by intros [? ?]]|]. cbn [String.prefix].
    destruct (Ascii.ascii_dec c c') as [->|Hne].
    + rewrite IH. split; intros [r Hr]; exists r; [by rewrite Hr|by injection Hr].
    + split; [done|]. intros [r [= ? ?]]. congruence.
Qed.

Lemma underb_spec p q : underb p q = true <-> under p q.
Proof.
  unfold underb, under. rewrite orb_true_iff, String.eqb_eq, prefix_spec.
  split; (intros [?|[r ->]]; [by left|right; exists r]); by rewrite <-?str_app_assoc.
Qed.

Definition mark (m : bool) (x : TypeCode * option field_data * bool) : TypeCode * option field_data * bool := (x.1, m).
Definition post (v w : MapValue.t) : MapValue.t :=
  map_imap (fun p x => Some (match w !! p with Some (_, d, true) => (x.1.1, d, x.2) | _ => x end)) v.
Definition unmark (v : MapValue.t) : MapValue.t := mark false <$> v.
Definition unmark_at (v : MapValue.t) (p : string) : MapValue.t :=
  map_imap (fun q x => Some (if underb p q then mark false x else x)) v.
Definition isMarked (v : MapValue.t) (p : string) : bool :=
  existsb (fun e : string * (TypeCode * option field_data * bool) => underb p e.1 && e.2.2) (map_to_list v).

#[global] Instance shared_pv : SharedPV MapValue.t.
Proof.
  refine {| pv_fetch := fun v => v; pv_post := post; v_unmark := unmark; v_unmark_at := unmark_at;
            v_isMarked := isMarked |}; try done; cbn.
  - intros v w p. unfold post. rewrite map_lookup_imap. destruct (v !! p) as [[[c d] m]|]; [|done]. cbn.
    by destruct (w !! p) as [[[? ?] []]|].
  - intros v w p Hv Hm. unfold post. rewrite map_lookup_imap. destruct (v !! p) as [[[c d] m]|]; [|done]. cbn.
    by destruct (w !! p) as [[[? ?] []]|].
  - intros v w p Hm. unfold post. rewrite map_lookup_imap. destruct (v !! p) as [[[c d] m]|]; [|done]. cbn.
    by destruct (w !! p) as [[[? ?] []]|].
  - intros v p. unfold unmark. rewrite lookup_fmap. by destruct (v !! p) as [[[c d] m]|].
  - intros v p. unfold unmark. rewrite lookup_fmap. by destruct (v !! p) as [[[c d] m]|].
  - intros v p. unfold unmark. rewrite lookup_fmap. by destruct (v !! p) as [[[c d] m]|].
  - intros v p q. unfold unmark_at. rewrite map_lookup_imap. destruct (v !! q) as [[[c d] m]|]; [|done]. cbn.
    by destruct (underb p q).
  - intros v p q. unfold unmark_at. rewrite map_lookup_imap. destruct (v !! q) as [[[c d] m]|]; [|done]. cbn.
    by destruct (underb p q).
  - intros v p q Hu%underb_spec. unfold unmark_at. rewrite map_lookup_imap.
    destruct (v !! q) as [[[c d] m]|]; [|done]. cbn. by rewrite Hu.
  - intros v p q Hu. unfold unmark_at. rewrite map_lookup_imap.
    destruct (v !! q) as [[[c d] m]|]; [|done]. cbn. destruct (underb p q) eqn:E; [|done].
    by apply underb_spec in E.
  - intros v p. unfold isMarked. rewrite existsb_exists. split.
    + intros ([q [[c d] m]] & Hin & H). apply andb_true_iff in H as [Hu Hm]. exists q.
      apply list_elem_of_In, elem_of_map_to_list in Hin. rewrite Hin. split; [by apply underb_spec|done].
    + intros (q & Hu & Hm). destruct (v !! q) as [[[c d] m]|] eqn:E; [|done]. exists (q, (c, d, m)).
      split; [by apply list_elem_of_In, elem_of_map_to_list|]. cbn. apply andb_true_iff. split; [by apply underb_spec|done].
Defined.

End MapShared.

(** ** A runtime of a [double] *)

Module RuntimeDemo.

Definition leaf (p : string) (c : TypeCode) : string * (TypeCode * option field_data * bool) := (p, (c, None, false)).

Definition double_scalar : MapValue.t :=
  list_to_map [leaf "value" TFloat64; leaf "timeStamp.secondsPastEpoch" TInt64; leaf "timeStamp.nanoseconds" TInt32;
    leaf "timeStamp.userTag" TInt32; leaf "alarm.severity" TInt32; leaf "alarm.status" TInt32;
    leaf "alarm.message" TString; leaf "display.units" TString; leaf "display.limitHigh" TFloat64].

Definition demo_config : PVConfig :=
  PVConfig_default <| pv_name := "setpoint" |> <| pv_type := Float64 |>
    <| pv_read := {| rt_backend := "default"; rt_key := "dev:readback" |} |>
    <| pv_write := Some {| rt_backend := "default"; rt_key := "dev:command" |} |>
    <| pv_confirm := Some {| cf_backend := "default"; cf_key := "dev:readback"; cf_timeoutMs := 1000 |} |>
    <| pv_transform := Some {| tr_scale := f_of_Z binary64 2; tr_offset := f_zero |} |>
    <| pv_alarms := {| al_lowAlarm := None; al_lowWarning := None; al_highWarning := None;
                       al_highAlarm := Some (f_of_Z binary64 100); al_hysteresis := f_zero |} |>.

Definition dbl (z : Z) : TypedValue := TVdouble (f_of_Z binary64 z).

(** Entries hold the text of a number, identifiers the text of their time. *)
Definition demo_decode (fields : gmap string string) : option TypedValue :=
  match fields !! "_" with
  | Some "1" => Some (dbl 1) | Some "21" => Some (dbl 21) | Some "80" => Some (dbl 80) | _ => None
  end.
Definition demo_time (id : string) : option Z :=
  match id with "100-0" => Some 100 | "200-0" => Some 200 | "300-0" => Some 300 | _ => None end.
Definition demo_compare (a b : string) : Z :=
  match (a ?= b)%string with Lt => -1 | Eq => 0 | Gt => 1 end.

Definition demo_snapshot : StreamSnapshot :=
  {| sx_present := true; sx_connected := true; sx_id := "100-0"; sx_fields := {[ "_" := "1" ]} |}.

Definition demo_reader : ReaderStatus :=
  {| rs_active := true; rs_connected := true; rs_epoch := 1; rs_streamKind := KindStream; rs_readRejections := 0;
     rs_inspected := true; rs_inspectionRejections := 0; rs_inspectionFailures := 0; rs_hasData := true;
     rs_cursor := ""; rs_observedCursor := ""; rs_readFailures := 0; rs_socketTimeouts := 0; rs_reconnects := 0;
     rs_streamResets := 0; rs_disappearances := 0; rs_retentionGaps := 0; rs_callbacks := 0; rs_entries := 0;
     rs_callbackErrors := 0; rs_lastReceived := 0 |}.

Definition no_snapshot : StreamSnapshot := {| sx_present := false; sx_connected := true; sx_id := ""; sx_fields := ∅ |}.

Definition demo_runtime : option (TypedRuntime MapValue.t) :=
  fst <$> initialize demo_decode demo_time demo_config 1 (fun _ _ _ _ _ => double_scalar) demo_snapshot no_snapshot
            (Some 5) None 1.

(** The runtime serves the transformed snapshot; an entry above the limit
    raises the alarm. *)
Example demo_started : (fun s => v_data (ru_pv s) "value") <$> demo_runtime = Some (Some (FTyped (dbl 2))).
Proof. vm_compute. reflexivity. Qed.

Definition started : TypedRuntime MapValue.t :=
  match demo_runtime with Some s => s <| ru_committed := true |> | None =>
    Build_TypedRuntime demo_config 0 0 false false false double_scalar None SourceSampleState_default
      SourceSampleState_default "" TVmonostate 0 false "" 0 ∅ end.

Lemma started_presentable : presentable (ru_pv started).
Proof.
  split.
  - apply (bool_decide_unpack _). vm_compute. exact I.
  - intros p _ H. exfalso. apply H. vm_compute. reflexivity.
Qed.

Definition meta : BatchMetadata := {| bm_epoch := 1; bm_readRejections := 0 |}.

Definition handled : option (TypedRuntime MapValue.t * list (effect MapValue.t) * bool) :=
  handleEntry demo_decode demo_time demo_compare started ("200-0", {[ "_" := "80" ]}) true true meta demo_reader 2.

Lemma handled_used : match handled with Some (_, _, continue) => continue = true | None => False end.
Proof. vm_compute. reflexivity. Qed.

Lemma entry_presented_witness :
  exists s' eff, handled = Some (s', eff, true) /\
    exists v state, eff = FPost v :: recordAlarmLocked s' state /\ presents s' (ru_pv s') state /\
      am_severity state = epicsSevMajor.
Proof.
  pose proof handled_used as Hu. destruct handled as [[[s' eff] continue]|] eqn:E; [|destruct Hu]. subst continue.
  exists s', eff. split; [reflexivity|].
  destruct (entry_presented demo_decode demo_time demo_compare started ("200-0", {[ "_" := "80" ]}) true true meta
    demo_reader 2 s' eff true started_presentable ltac:(discriminate) E) as (_ & _ & H).
  destruct (H eq_refl eq_refl) as (v & state & H1 & H2 & H3).
  exists v, state. split; [exact H1|]. split; [exact H2|].
  vm_compute in H3. destruct H3 as (_ & _ & ->). reflexivity.
Defined.

Definition refreshed : option (TypedRuntime MapValue.t * list (effect MapValue.t)) := refreshMetadata started.

Lemma refreshed_same :
  match refreshed with Some _ => True | None => False end /\
  v_data (ru_pv started) "value" = Some (FTyped (forwardTyped (ru_config started) (ru_lastRaw started))).
Proof. vm_compute. split; reflexivity. Qed.

Lemma refresh_publishes_no_sample_witness :
  exists s' eff v state, refreshed = Some (s', eff) /\ eff = FPost v :: recordAlarmLocked started state /\
    monitorPublishesSample v = false /\ v_data (ru_pv s') "value" = v_data (ru_pv started) "value".
Proof.
  destruct refreshed_same as [Hr Hs]. destruct refreshed as [[s' eff]|] eqn:E; [|destruct Hr].
  destruct (refresh_publishes_no_sample started s' eff started_presentable ltac:(vm_compute; discriminate) E)
    as (v & state & H1 & _ & H2 & _).
  { vm_compute. reflexivity. }
  exists s', eff, v, state. split; [reflexivity|]. split; [exact H1|]. exact (H2 Hs).
Defined.

End RuntimeDemo.
