(* ===== verification/RuntimeSpec.v ===== *)
(** * What a PV promises a client that writes

    The threads around one runtime as a step relation: readers delivering
    entries, the health poll, reloads that prepare, commit and refresh,
    retirement, and any number of puts, each at its own point of [dispatchPut],
    with failures and cancellations arriving at any time.  A log records what
    was published, answered, written and observed. *)

From S2P Require Import Prelude.
From S2P Require Import StrMap.
From S2P Require Import Floats.
From S2P Require Import Config.
From S2P Require Import ConfigDiff.
From S2P Require Import SourceHealth.
From S2P Require Import Util.
From S2P Require Import QueuedExec.
From S2P Require Import Runtime.
From S2P Require Import RuntimeFacts.

Local Open Scope string_scope.
Local Open Scope list_scope.
Local Open Scope Z_scope.

(** ** Transforms that are the same *)

Lemma feq_cases x y : feq x y = true -> x = y \/ exists s t, x = S754_zero s /\ y = S754_zero t.
Proof.
  unfold feq, SFeqb. destruct x as [s|s| |s m e], y as [t|t| |t m' e']; cbn; try done; try (by destruct s);
    try (by destruct t).
  - intros _. right. by exists s, t.
  - destruct s, t; try done; by left.
  - destruct s, t; try done; destruct (Z.compare_spec e e') as [->| |]; try done; cbn;
      fold (Pos.compare m m'); destruct (Pos.compare_spec m m') as [->| |]; try done; by left.
Qed.

Lemma feq_trans x y z : feq x y = true -> feq y z = true -> feq x z = true.
Proof.
  intros Hxy Hyz. destruct (feq_cases x y Hxy) as [->|(s & t & -> & ->)]; [done|].
  destruct (feq_cases _ z Hyz) as [<-|(s' & t' & _ & ->)]; done.
Qed.

Lemma sameTransform_trans a b c : sameTransform a b = true -> sameTransform b c = true -> sameTransform a c = true.
Proof.
  destruct a as [a|], b as [b|], c as [c|]; cbn; try done. rewrite !andb_true_iff.
  intros [? ?] [? ?]; split; by eapply feq_trans.
Qed.

(** The transform of [c] encodes as that of [c'] does. *)
Definition same_force (c c' : PVConfig) : Prop :=
  pv_transform c = pv_transform c' \/ sameTransform (pv_transform c) (pv_transform c') = true.

Lemma same_force_trans a b c : same_force a b -> same_force b c -> same_force a c.
Proof.
  unfold same_force. intros [->|H1] [H2|H2]; auto.
  - right. by rewrite <-H2.
  - right. by eapply sameTransform_trans.
Qed.

(** What a reload cannot change without a new runtime, as far as it matters
    here. *)
Definition same_kind (c c' : PVConfig) : Prop :=
  pv_type c = pv_type c' /\ pv_shape c = pv_shape c' /\ is_some (pv_confirm c) = is_some (pv_confirm c').

#[export] Instance same_kind_equiv : Equivalence same_kind.
Proof. split; unfold same_kind; repeat intro; naive_solver congruence. Qed.

Lemma topology_kind c c' : sameReaderTopology c c' = true -> same_kind c c'.
Proof.
  unfold sameReaderTopology, same_kind. rewrite !andb_true_iff, !bool_decide_eq_true.
  intros [[[[[[[[_ _] ->] ->] _] _] _] _] H]. split_and!; try done.
  unfold sameConfirm in H. by destruct (pv_confirm c), (pv_confirm c').
Qed.

(** ** The system *)

Section System.
Context {V : Type} {HV : PvxsValue V} {HS : SharedPV V}.
Context (decode : gmap string string -> option TypedValue) (RA_Time : string -> option Z)
  (compareStreamIds : string -> string -> Z).

(** [EWrite]: a command was sent for a put, under the configuration of that
    moment, watched by a confirmation from an identifier and an epoch on.
    [EObserve]: a sample of the confirming stream was used.
    [EReport]: the queue's failure callback ran with this text.
    [EReceive]: a reader delivered an entry, and whether the PV shows its stream.
    [ECommit]: a reload put a configuration in force. *)
Inductive event :=
| ERt (e : effect V)
| EExec (pid : Z) (e : exec_effect)
| EWrite (pid : Z) (raw : TypedValue) (config : PVConfig) (watch : option (string * Z)) (accepted : bool)
| EObserve (streamId : string) (epoch : Z) (raw : TypedValue)
| EReport (pid : Z) (message : string)
| EReceive (entry : string * gmap string string) (updateValue : bool)
| ECommit (config : PVConfig).

(** [x_retiring] and [x_retired]: the steps of [deactivate] that are done. *)
Record RtSys := {
  x_run : TypedRuntime V;
  x_puts : gmap Z Put;
  x_updates : list Update;
  x_retiring : bool;
  x_retired : bool;
  x_log : list event;
}.
#[global] Instance RtSys_eta : Eta RtSys := fun r =>
  Build_RtSys (x_run r) (x_puts r) (x_updates r) (x_retiring r) (x_retired r) (x_log r).

Definition logged (x : RtSys) (new : list event) : RtSys := x <| x_log ::= fun log => log ++ new |>.

(** The put [pid] moves on and has effects. *)
Definition on_put (x : RtSys) (pid : Z) (r : Put * list exec_effect) : RtSys :=
  logged (x <| x_puts ::= fun puts => <[pid := r.1]> puts |>) (EExec pid <$> r.2).

Definition observes (canConfirm continue : bool) (entry : string * gmap string string) (m : BatchMetadata)
    : list event :=
  if canConfirm && continue then
    match decode entry.2, RA_Time entry.1 with
    | Some raw, Some _ => [EObserve entry.1 (bm_epoch m) raw]
    | _, _ => []
    end
  else [].

Definition accepted_write (r : write_result) : bool := match r with WroteAt _ => true | _ => false end.

Definition at_stage (x : RtSys) (pid : Z) (p : Put) (st : stage) : Prop :=
  x_puts x !! pid = Some p /\ pu_stage p = st.

(** Statuses of readers, clocks, results of the backend and authorizations are
    arbitrary.  [put_admits] is a check before the epoch is loaded, so a put
    may also arrive in a runtime that stopped admitting.  The queue may report a
    failure of a put at any time and with any text, also an empty one, which
    the handle answers with success ([R_fail]); [deactivate] is only called
    with the texts of app.cpp and of the destructor, none of them empty.  The bounds on the
    two 64-bit counters say that they do not wrap around. *)
Inductive rstep (x : RtSys) : RtSys -> Prop :=
| R_entry entry updateValue canConfirm m reader now s' eff continue :
    handleEntry decode RA_Time compareStreamIds (x_run x) entry updateValue canConfirm m reader now =
      Some (s', eff, continue) ->
    rstep x (logged (x <| x_run := s' |>)
      (EReceive entry updateValue :: (ERt <$> eff) ++ observes canConfirm continue entry m))
| R_health fullName readProbeMs confirmProbeMs readReader confirmReader now s' eff sources :
    sourceHealth (x_run x) fullName readProbeMs confirmProbeMs readReader confirmReader now =
      Some (s', eff, sources) ->
    rstep x (logged (x <| x_run := s' |>) (ERt <$> eff))
| R_activate :
    rstep x (logged (x <| x_run := (runtime_activate (x_run x)).1 |>) (ERt <$> (runtime_activate (x_run x)).2))
| R_prepare config generation registration u :
    prepareReconfigure (x_run x) config generation registration = Some (Ret u) ->
    rstep x (x <| x_updates ::= cons u |>)
| R_commit u :
    u ∈ x_updates x -> ru_commandEpoch (x_run x) + 1 < 2 ^ 64 ->
    rstep x (logged (x <| x_run := (commit (x_run x) u).1 |>) (ECommit (up_config u) :: (ERt <$> (commit (x_run x) u).2)))
| R_refresh s' eff :
    refreshMetadata (x_run x) = Some (s', eff) ->
    rstep x (logged (x <| x_run := s' |>) (ERt <$> eff))
| R_flag :
    rstep x (x <| x_run := (deactivate_flag (x_run x)).1 |>
               <| x_retiring := x_retiring x || (deactivate_flag (x_run x)).2 |>)
| R_locked reason :
    x_retiring x = true -> x_retired x = false -> reason <> "" -> ru_commandEpoch (x_run x) + 1 < 2 ^ 64 ->
    rstep x (logged (x <| x_run := (deactivate_locked (x_run x) reason).1 |> <| x_retired := true |>)
               (ERt <$> (deactivate_locked (x_run x) reason).2))
| R_close : x_retired x = true -> rstep x (x <| x_run := deactivate_close (x_run x) |>)
| R_submit pid limits confirmationMs now count present p :
    x_puts x !! pid = None -> put_submit (x_run x) limits confirmationMs now count present = Ret p ->
    rstep x (x <| x_puts ::= fun puts => <[pid := p]> puts |>)
| R_begin pid p epoch :
    at_stage x pid p (SQueued epoch) -> rstep x (on_put x pid (dispatch_begin (x_run x) p epoch))
| R_watch pid p epoch current raw readerEpoch :
    at_stage x pid p (SEncoded epoch current raw) ->
    rstep x (on_put x pid (dispatch_watch p epoch current raw readerEpoch))
| R_snapshot pid p epoch current raw sourceEpoch snapshot :
    at_stage x pid p (SWatching epoch current raw sourceEpoch) ->
    rstep x (on_put x pid (dispatch_snapshot p epoch current raw sourceEpoch snapshot))
| R_write pid p epoch current raw watch now readerEpoch authorized result s' p' eff sent :
    at_stage x pid p (SReady epoch current raw watch) -> ru_nextPendingId (x_run x) + 1 < 2 ^ 64 ->
    dispatch_write (x_run x) p epoch current raw watch now readerEpoch authorized result = (s', p', eff, sent) ->
    rstep x (on_put (logged (x <| x_run := s' |>)
               (if sent then [EWrite pid raw (ru_config (x_run x)) watch (accepted_write result)] else []))
               pid (p', eff))
| R_update pid p current raw time reader now s' p' eff :
    at_stage x pid p (SWritten current raw time) ->
    dispatch_update compareStreamIds (x_run x) p current raw time reader now = Some (s', p', eff) ->
    rstep x (on_put (logged (x <| x_run := s' |>) (ERt <$> eff)) pid (p', []))
| R_reply pid p now :
    at_stage x pid p SUpdated -> rstep x (on_put x pid (dispatch_reply p now))
| R_wake pid p epoch id :
    at_stage x pid p (SRegistered epoch id) -> rstep x (on_put x pid (dispatch_wake p epoch id))
| R_woken pid p epoch id :
    at_stage x pid p (SWaiting epoch id) ->
    rstep x (on_put (x <| x_run := (dispatch_woken (x_run x) p epoch id).1 |>) pid
               ((dispatch_woken (x_run x) p epoch id).2, []))
| R_answer pid p err confirmed now :
    at_stage x pid p (SWoken err confirmed) -> rstep x (on_put x pid (dispatch_answer p err confirmed now))
| R_fail pid p message :
    x_puts x !! pid = Some p ->
    rstep x (on_put (logged x [EReport pid message]) pid (p <| pu_exec := (error (pu_exec p) message).1 |>, (error (pu_exec p) message).2))
| R_cancel pid p :
    x_puts x !! pid = Some p ->
    rstep x (on_put x pid (p <| pu_exec := (cancel_finish (pu_exec p)).1 |>, (cancel_finish (pu_exec p)).2)).

(** A runtime that [initialize] just made. *)
Definition RtSys_new (s : TypedRuntime V) : RtSys :=
  {| x_run := s; x_puts := ∅; x_updates := []; x_retiring := false; x_retired := false; x_log := [] |}.

(** ** Reading the log *)

Definition exec_of (pid : Z) (e : event) : option exec_effect :=
  match e with EExec q x => if q =? pid then Some x else None | _ => None end.
Definition exec_log (pid : Z) (log : list event) : list exec_effect := omap (exec_of pid) log.
Definition write_of (pid : Z) (e : event) : option TypedValue :=
  match e with EWrite q raw _ _ _ => if q =? pid then Some raw else None | _ => None end.
Definition writes (pid : Z) (log : list event) : list TypedValue := omap (write_of pid) log.

(** After the write, the confirming stream showed the written value. *)
Definition observed (raw : TypedValue) (watch : option (string * Z)) (later : list event) : Prop :=
  match watch with
  | None => True
  | Some (afterId, epoch) =>
      exists streamId seen, EObserve streamId epoch seen ∈ later /\ 0 < compareStreamIds streamId afterId /\
        valuesEqual raw seen = true
  end.

(** What a client may rely on when its put succeeds. *)
Definition success (pid : Z) (log : list event) : Prop :=
  exists before raw config watch later,
    log = before ++ EWrite pid raw config watch true :: later /\ observed raw watch later.

(** A failure without a text was reported, which reads as success. *)
Definition blank_report (pid : Z) (log : list event) : Prop := EReport pid "" ∈ log.

End System.

Arguments event : clear implicits.
Arguments RtSys : clear implicits.

(** ** What a handler leaves alone *)

Section Handlers.
Context {V : Type} {HV : PvxsValue V} {HS : SharedPV V}.
Context (decode : gmap string string -> option TypedValue) (RA_Time : string -> option Z)
  (compareStreamIds : string -> string -> Z).
Implicit Types s : TypedRuntime V.

(** Configuration, flags and counters stay. *)
Record quiet s s' : Prop := {
  qt_config : ru_config s' = ru_config s;
  qt_epoch : ru_commandEpoch s' = ru_commandEpoch s;
  qt_alive : ru_alive s' = ru_alive s;
  qt_next : ru_nextPendingId s' = ru_nextPendingId s;
}.

#[global] Instance quiet_preorder : PreOrder quiet.
Proof. split; [by split|]. intros ? ? ? [] []. split; congruence. Qed.

Lemma quiet_set_sample s read sample : quiet s (set_sample s read sample).
Proof. unfold set_sample. by destruct read. Qed.

Lemma republish_quiet s s' eff : republish s = Some (s', eff) ->
  quiet s s' /\ ru_pending s' = ru_pending s /\ ru_lastRaw s' = ru_lastRaw s.
Proof. unfold republish. intros H. apply bind_Some in H as ([v st] & _ & [= <- <-]). by split_and!. Qed.

Lemma acceptEpoch_quiet s read epoch reader s1 accepted :
  acceptEpochLocked s read epoch reader = (s1, accepted) ->
  quiet s s1 /\ ru_pending s1 = ru_pending s /\ ru_lastRaw s1 = ru_lastRaw s.
Proof.
  intros (_ & _ & sample & [->| ->])%acceptEpoch_spec; [by split_and!|].
  pose proof (set_sample_frame s read sample) as (_ & _ & ? & _ & ? & _). split_and!; auto using quiet_set_sample.
Qed.

(** The last sample is the old one or the one given; pending puts are touched
    exactly when the sample may confirm and was used. *)
Lemma handleRawUpdate_quiet s raw time uv cc id m reader now s' eff continue :
  handleRawUpdate compareStreamIds s raw time uv cc id m reader now = Some (s', eff, continue) ->
  quiet s s' /\ (ru_lastRaw s' = ru_lastRaw s \/ ru_lastRaw s' = raw) /\ (ru_alive s = false -> s' = s /\ eff = []) /\
  ru_pending s' = if cc && continue
                  then confirm_one compareStreamIds id (match m with Some m => bm_epoch m | None => 0 end) raw <$> ru_pending s
                  else ru_pending s.
Proof.
  unfold handleRawUpdate. destruct (ru_alive s) eqn:Ha; cbn [negb].
  2: { intros [= <- <- <-]. rewrite andb_false_r. split_and!; [done|by left|by split|done]. }
  set (epoch := match m with Some m => bm_epoch m | None => 0 end).
  destruct (if epoch =? 0 then _ else _) as [s1 accepted] eqn:E.
  assert (quiet s s1 /\ ru_pending s1 = ru_pending s /\ ru_lastRaw s1 = ru_lastRaw s) as (Q1 & P1 & R1).
  { destruct (epoch =? 0); [by injection E as <- <-|by eapply acceptEpoch_quiet]. }
  destruct accepted; cbn [negb].
  2: { intros [= <- <- <-]. rewrite andb_false_r. split_and!; [done|by left|done|done]. }
  remember (match m with Some m' => _ | None => s1 end) as s2 eqn:E2.
  assert (quiet s s2 /\ ru_pending s2 = ru_pending s /\ ru_lastRaw s2 = ru_lastRaw s) as (Q2 & P2 & R2).
  { subst s2. destruct m as [m|]; [|done]. destruct (epoch =? 0); [done|].
    match goal with |- context [set_sample s1 uv ?z] => pose proof (set_sample_frame s1 uv z) as (_ & _ & -> & _ & -> & _);
      pose proof (quiet_set_sample s1 uv z) end. split_and!; [by etrans|done|done]. }
  clear E2. set (s3 := if cc then _ else s2).
  assert (quiet s s3 /\ ru_lastRaw s3 = ru_lastRaw s /\
    ru_pending s3 = if cc then confirm_one compareStreamIds id epoch raw <$> ru_pending s else ru_pending s) as (Q3 & R3 & P3).
  { subst s3. destruct cc; [|done]. cbn. rewrite P2. split; [by etrans; [exact Q2|]|done]. }
  clearbody s3. destruct uv; cbn [negb].
  - intros H. apply bind_Some in H as ([s4 eff4] & H & [= <- <- <-]). apply republish_quiet in H as (Q4 & P4 & R4).
    rewrite P4, R4, andb_true_r. split.
    { etrans; [exact Q3|]. etrans; [|exact Q4]. destruct m; [|by split]. by destruct (epoch =? 0). }
    split; [right; destruct m; [|done]; by destruct (epoch =? 0)|]. split; [done|]. rewrite <-P3.
    destruct m; [|done]. by destruct (epoch =? 0).
  - intros [= <- <- <-]. rewrite andb_true_r. split_and!; [done|by left|done|done].
Qed.

Lemma markInvalid_quiet s error uv epoch reader s' eff continue :
  markInvalid s error uv epoch reader = Some (s', eff, continue) ->
  quiet s s' /\ ru_lastRaw s' = ru_lastRaw s /\ ru_pending s' = ru_pending s.
Proof.
  unfold markInvalid. destruct (acceptEpochLocked s uv epoch reader) as [s1 accepted] eqn:E.
  apply acceptEpoch_quiet in E as (Q1 & P1 & R1). destruct accepted; cbn [negb].
  2: { intros [= <- <- <-]. by split_and!. }
  match goal with |- context [set_sample s1 uv ?z] =>
    pose proof (set_sample_frame s1 uv z) as (_ & _ & R2 & _ & P2 & _); pose proof (quiet_set_sample s1 uv z) as Q2;
    set (s2 := set_sample s1 uv z) in * end.
  clearbody s2. destruct uv; cbn [negb].
  - intros H. apply bind_Some in H as ([s3 eff3] & H & [= <- <- <-]). apply republish_quiet in H as (Q3 & P3 & R3).
    cbn in *. split_and!; [|congruence|congruence]. etrans; [exact Q1|]. etrans; [exact Q2|]. by etrans; [|exact Q3].
  - intros [= <- <- <-]. split_and!; [by etrans|congruence|congruence].
Qed.

Lemma handleEntry_quiet s entry uv cc m reader now s' eff continue :
  handleEntry decode RA_Time compareStreamIds s entry uv cc m reader now = Some (s', eff, continue) ->
  quiet s s' /\ (ru_lastRaw s' = ru_lastRaw s \/ decode entry.2 = Some (ru_lastRaw s')) /\
  (ru_alive s = false -> s' = s /\ eff = []) /\
  (ru_pending s' = ru_pending s \/
   exists raw, ru_pending s' = confirm_one compareStreamIds entry.1 (bm_epoch m) raw <$> ru_pending s /\
     @observes V decode RA_Time cc continue entry m = [EObserve entry.1 (bm_epoch m) raw]).
Proof.
  unfold handleEntry, observes. destruct (ru_alive s) eqn:Ha; cbn [negb].
  2: { intros [= <- <- <-]. split_and!; [done|by left|done|by left]. }
  destruct (decode entry.2) as [raw|], (RA_Time entry.1) as [time|];
    [intros (Q & R & A & P)%handleRawUpdate_quiet; split_and!; [done|naive_solver|by rewrite Ha in A|]|..].
  { rewrite P. destruct (cc && continue); [right; by exists raw|by left]. }
  all: intros (Q & R & P)%markInvalid_quiet; split_and!; [done|by left|done|by left].
Qed.

Lemma sourceHealth_quiet s name p1 p2 r1 r2 now s' eff sources :
  sourceHealth s name p1 p2 r1 r2 now = Some (s', eff, sources) ->
  quiet s s' /\ ru_lastRaw s' = ru_lastRaw s /\ (ru_alive s = false -> eff = []) /\
  (ru_pending s' = ru_pending s \/ exists epoch, ru_pending s' = expire_epoch epoch <$> ru_pending s).
Proof.
  unfold sourceHealth. cbn zeta. destruct (assessSource _ _ _ _ _ _ _ _ _) as [sample read].
  intros H. apply bind_Some in H as ([s1 eff1] & H1 & H).
  assert (quiet s s1 /\ ru_lastRaw s1 = ru_lastRaw s /\ (ru_alive s = false -> eff1 = []) /\
    (ru_pending s1 = ru_pending s \/ exists epoch, ru_pending s1 = expire_epoch epoch <$> ru_pending s)) as (Q & R & A & P).
  { destruct (ru_alive s && ru_committed s) eqn:E; [|injection H1 as <- <-; split_and!; [done..|by left]].
    destruct (negb _).
    - apply republish_quiet in H1 as (Q & P & R). cbn in *. split_and!; [by etrans; [|exact Q]|done| |right; by eexists].
      intros Ha. by rewrite Ha in E.
    - injection H1 as <- <-. split_and!; [done..|right; by eexists]. }
  destruct (pv_confirm (ru_config s)) as [c|]; [|by injection H as <- <- <-].
  destruct (readConfirms _); [by injection H as <- <- <-|].
  destruct (assessSource _ _ _ _ _ _ _ _ _) as [sample' confirm]. injection H as <- <- <-. cbn.
  split_and!; [by etrans; [exact Q|]|done..].
Qed.

Lemma refresh_quiet s s' eff : refreshMetadata s = Some (s', eff) ->
  quiet s s' /\ ru_lastRaw s' = ru_lastRaw s /\ ru_pending s' = ru_pending s /\ (ru_alive s = false -> eff = []).
Proof.
  unfold refreshMetadata. destruct (ru_alive s) eqn:Ha; cbn [negb].
  - intros H. apply bind_Some in H as ([v st] & _ & [= <- <-]). by split_and!.
  - intros [= <- <-]. by split_and!.
Qed.

End Handlers.

(** ** The invariant *)

Section Invariant.
Context {V : Type} {HV : PvxsValue V} {HS : SharedPV V}.
Context (decode : gmap string string -> option TypedValue) (RA_Time : string -> option Z)
  (compareStreamIds : string -> string -> Z).
Implicit Types (s : TypedRuntime V) (x : RtSys V) (log new : list (event V)) (p : Put) (q : PendingPut).

Local Notation rstep := (rstep decode RA_Time compareStreamIds).
Local Notation success := (success compareStreamIds).
Local Notation observed := (observed compareStreamIds).

Lemma exec_log_app pid log new : exec_log pid (log ++ new) = exec_log pid log ++ exec_log pid new.
Proof. apply omap_app. Qed.
Lemma writes_app pid log new : writes pid (log ++ new) = writes pid log ++ writes pid new.
Proof. apply omap_app. Qed.

Lemma exec_log_rt pid (eff : list (effect V)) : exec_log pid (ERt <$> eff) = [].
Proof. by induction eff. Qed.
Lemma writes_rt pid (eff : list (effect V)) : writes pid (ERt <$> eff) = [].
Proof. by induction eff. Qed.
Lemma writes_exec pid pid' (eff : list exec_effect) : writes pid ((EExec pid' <$> eff) : list (event V)) = [].
Proof. by induction eff. Qed.
Lemma exec_log_exec pid pid' (eff : list exec_effect) :
  exec_log pid ((EExec pid' <$> eff) : list (event V)) = if pid' =? pid then eff else [].
Proof.
  induction eff as [|e eff IH]; [by destruct (pid' =? pid)|]. unfold exec_log in *. cbn. rewrite IH.
  by destruct (pid' =? pid).
Qed.

(** Nothing about a put in these events. *)
Definition silent (pid : Z) new : Prop := exec_log pid new = [] /\ writes pid new = [].

Lemma silent_app pid l1 l2 : silent pid l1 -> silent pid l2 -> silent pid (l1 ++ l2).
Proof. unfold silent. rewrite exec_log_app, writes_app. by intros [-> ->] [-> ->]. Qed.
Lemma silent_rt pid eff : silent pid (ERt <$> eff).
Proof. split; [apply exec_log_rt|apply writes_rt]. Qed.
Lemma silent_observes pid cc continue entry m : silent pid (observes decode RA_Time cc continue entry m).
Proof. unfold observes. repeat case_match; done. Qed.
Lemma silent_exec pid pid' eff : pid <> pid' -> silent pid (EExec pid' <$> eff).
Proof.
  intros Hne. split; [|apply writes_exec]. rewrite exec_log_exec. by rewrite (proj2 (Z.eqb_neq pid' pid)).
Qed.

Lemma observed_app raw watch later new : observed raw watch later -> observed raw watch (later ++ new).
Proof.
  destruct watch as [[? ?]|]; [|done]. intros (i & seen & H & ?). exists i, seen. split; [|done].
  apply elem_of_app. by left.
Qed.

Lemma success_app pid log new : success pid log -> success pid (log ++ new).
Proof.
  intros (l1 & raw & c & w & l2 & -> & H). exists l1, raw, c, w, (l2 ++ new).
  split; [by rewrite <-app_assoc|by apply observed_app].
Qed.

Lemma real_app pid log new :
  success pid log \/ blank_report pid log -> success pid (log ++ new) \/ blank_report pid (log ++ new).
Proof. intros [H|H]; [left; by apply success_app|right]. unfold blank_report. rewrite elem_of_app. by left. Qed.

(** The write of [pid] was accepted. *)
Definition written (pid : Z) log raw (watch : option (string * Z)) (P : list (event V) -> Prop) : Prop :=
  exists before config later, log = before ++ EWrite pid raw config watch true :: later /\ P later.

Lemma written_app pid log new raw watch (P Q : list (event V) -> Prop) :
  (forall later, P later -> Q (later ++ new)) -> written pid log raw watch P -> written pid (log ++ new) raw watch Q.
Proof.
  intros HPQ (l1 & c & l2 & -> & H). exists l1, c, (l2 ++ new). split; [by rewrite <-app_assoc|auto].
Qed.

Lemma written_success pid log raw watch : written pid log raw watch (observed raw watch) -> success pid log.
Proof. intros (l1 & c & l2 & -> & H). by exists l1, raw, c, watch, l2. Qed.

(** How a pending put may change while other things happen. *)
Record link new q q' : Prop := {
  lk_raw : pp_expectedRaw q' = pp_expectedRaw q;
  lk_after : pp_afterId q' = pp_afterId q;
  lk_epoch : pp_sourceEpoch q' = pp_sourceEpoch q;
  lk_error : pp_error q <> Some "" -> pp_error q' <> Some "";
  lk_done : pp_done q' = true -> pp_error q' = None ->
    (pp_done q = true /\ pp_error q = None) \/
    observed (pp_expectedRaw q) (Some (pp_afterId q, pp_sourceEpoch q)) new;
}.

Lemma link_refl new q : link new q q.
Proof. split; auto. Qed.

Lemma link_fail new q reason : reason <> "" -> link new q (fail_one reason q).
Proof. intros Hr. split; cbn; try done. congruence. Qed.

Lemma link_expire new q epoch : link new q (expire_epoch epoch q).
Proof.
  unfold expire_epoch. destruct (negb _ && negb _); [|apply link_refl]. split; cbn; try done.
Qed.

Lemma link_confirm new q id epoch raw :
  EObserve id epoch raw ∈ new -> link new q (confirm_one compareStreamIds id epoch raw q).
Proof.
  intros Hin. unfold confirm_one. destruct (pp_done q) eqn:Hd; cbn [negb andb]; [apply link_refl|].
  destruct (Z.eqb_spec (pp_sourceEpoch q) epoch) as [He|He]; cbn [negb].
  - destruct (Z.ltb_spec 0 (compareStreamIds id (pp_afterId q))); [|apply link_refl].
    destruct (valuesEqual (pp_expectedRaw q) raw) eqn:Ev; [|apply link_refl]. cbn [andb]. split; cbn; try done.
    intros _ _. right. exists id, raw. by rewrite He.
  - split; cbn; done.
Qed.

(** How the runtime may change under a put. *)
Record evolves s s' new : Prop := {
  ev_epoch : ru_commandEpoch s <= ru_commandEpoch s';
  ev_force : ru_commandEpoch s = ru_commandEpoch s' -> same_force (ru_config s) (ru_config s');
  ev_kind : same_kind (ru_config s) (ru_config s');
  ev_next : ru_nextPendingId s <= ru_nextPendingId s';
  ev_pending : forall id q', id <= ru_nextPendingId s -> ru_pending s' !! id = Some q' ->
    exists q, ru_pending s !! id = Some q /\ link new q q';
}.

Lemma evolves_pending s s' new f :
  quiet s s' -> ru_pending s' = f <$> ru_pending s -> (forall q, link new q (f q)) -> evolves s s' new.
Proof.
  intros [Hc He Ha Hn] Hp Hf. split; rewrite ?Hc, ?He, ?Hn; try done; [by left|].
  intros id q' _. rewrite Hp, lookup_fmap. intros (q & -> & H)%fmap_Some. exists q. subst. auto.
Qed.

Lemma evolves_quiet s s' new : quiet s s' -> ru_pending s' = ru_pending s -> evolves s s' new.
Proof.
  intros Hq Hp. apply (evolves_pending s s' new id); [done|by rewrite Hp, map_fmap_id|apply link_refl].
Qed.

Lemma evolves_same s new : evolves s s new.
Proof. by apply evolves_quiet. Qed.

(** What a put that is about to write has in hand. *)
Record encoded s p (epoch : Z) (current : PVConfig) (raw : TypedValue) : Prop := {
  en_raw : exists present, pu_present p = Ret present /\ raw = inverseTyped current present;
  en_epoch : epoch <= ru_commandEpoch s;
  en_force : epoch = ru_commandEpoch s -> same_force current (ru_config s);
  en_kind : same_kind current (ru_config s);
}.

Lemma encoded_evolves s s' new p epoch current raw :
  evolves s s' new -> encoded s p epoch current raw -> encoded s' p epoch current raw.
Proof.
  intros [E1 E2 E3 _ _] [H1 H2 H3 H4]. split; [done|lia| |by etrans].
  intros He. assert (epoch = ru_commandEpoch s) as Heq by lia.
  eapply same_force_trans; [by apply H3|]. apply E2. lia.
Qed.

Definition pending_ok log pid raw after epoch q : Prop :=
  pp_expectedRaw q = raw /\ pp_afterId q = after /\ pp_sourceEpoch q = epoch /\ pp_error q <> Some "" /\
  (pp_done q = true -> pp_error q = None -> written pid log raw (Some (after, epoch)) (observed raw (Some (after, epoch)))).

(** Where a put is, what it has done. *)
Definition stage_ok s log (pid : Z) p : Prop :=
  match pu_stage p with
  | SQueued _ => writes pid log = []
  | SEncoded epoch current raw | SWatching epoch current raw _ =>
      writes pid log = [] /\ encoded s p epoch current raw /\ is_some (pv_confirm current) = true
  | SReady epoch current raw watch =>
      writes pid log = [] /\ encoded s p epoch current raw /\ is_some (pv_confirm current) = is_some watch
  | SWritten _ raw _ => written pid log raw None (fun _ => True)
  | SUpdated => exists raw, written pid log raw None (fun _ => True)
  | SRegistered _ id | SWaiting _ id =>
      exists raw after epoch, written pid log raw (Some (after, epoch)) (fun _ => True) /\
        id <= ru_nextPendingId s /\
        forall q, ru_pending s !! id = Some q -> pending_ok log pid raw after epoch q
  | SWoken err confirmed =>
      err <> Some "" /\ (err = None -> confirmed = true -> success pid log)
  | SDone => True
  end.

Record put_ok s log (pid : Z) p : Prop := {
  po_exec : exec_ok (pu_exec p);
  po_once : (length (answers (exec_log pid log)) <= if stopped (pu_exec p) then 1 else 0)%nat;
  po_reply : XReply ∈ exec_log pid log -> success pid log \/ blank_report pid log;
  po_writes : (length (writes pid log) <= 1)%nat;
  po_stage : stage_ok s log pid p;
}.

Lemma pending_evolves log new pid raw after epoch q q' :
  link new q q' -> written pid log raw (Some (after, epoch)) (fun _ => True) ->
  pending_ok log pid raw after epoch q -> pending_ok (log ++ new) pid raw after epoch q'.
Proof.
  intros [L1 L2 L3 L4 L5] Hw (H1 & H2 & H3 & H4 & H5). split_and!; [congruence..|auto|].
  intros Hd He. destruct (L5 Hd He) as [[Hd' He']|Ho].
  - eapply written_app, H5; [|done|done]. intros. by apply observed_app.
  - eapply written_app, Hw. intros later _. rewrite H1, H2, H3 in Ho. destruct Ho as (i & seen & Hin & ?).
    exists i, seen. split; [|done]. apply elem_of_app. by right.
Qed.

Lemma stage_ok_evolves s s' log new pid p :
  evolves s s' new -> writes pid new = [] -> stage_ok s log pid p -> stage_ok s' (log ++ new) pid p.
Proof.
  intros Hev Hw H5.
  assert (Hreg : forall i, (exists raw after epoch, written pid log raw (Some (after, epoch)) (fun _ => True) /\
      i <= ru_nextPendingId s /\ forall q, ru_pending s !! i = Some q -> pending_ok log pid raw after epoch q) ->
    exists raw after epoch, written pid (log ++ new) raw (Some (after, epoch)) (fun _ => True) /\
      i <= ru_nextPendingId s' /\ forall q, ru_pending s' !! i = Some q -> pending_ok (log ++ new) pid raw after epoch q).
  { intros i (raw & after & ep & Hwr & Hid & Hq). exists raw, after, ep. split_and!.
    - by eapply written_app, Hwr.
    - pose proof (ev_next _ _ _ Hev). lia.
    - intros q' Hq'. destruct (ev_pending _ _ _ Hev i q' Hid Hq') as (q & Hl & Hlink).
      eapply pending_evolves; eauto. }
  unfold stage_ok in *. destruct (pu_stage p) as [| | | | | |e i|e i|err c|]; rewrite ?writes_app, ?Hw, ?app_nil_r;
    try done; try (destruct H5 as (? & ? & ?); split_and!; [done|by eapply encoded_evolves|done]).
  - by eapply written_app, H5.
  - destruct H5 as [raw H5]. exists raw. by eapply written_app, H5.
  - by apply Hreg.
  - by apply Hreg.
  - destruct H5 as [? H5]. split; [done|]. intros He Hc. by apply success_app, H5.
Qed.

(** A put that does nothing stays as good as it was. *)
Lemma put_ok_evolves s s' log new pid p :
  evolves s s' new -> silent pid new -> put_ok s log pid p -> put_ok s' (log ++ new) pid p.
Proof.
  intros Hev [Hx Hw] [H1 H2 H3 H4 H5]. split; [done| | | |by apply (stage_ok_evolves s)].
  - by rewrite exec_log_app, Hx, app_nil_r.
  - rewrite exec_log_app, Hx, app_nil_r. intros Hr. by apply real_app, H3.
  - by rewrite writes_app, Hw, app_nil_r.
Qed.

Lemma stage_ok_same s log pid p p' :
  pu_stage p' = pu_stage p -> pu_present p' = pu_present p -> stage_ok s log pid p -> stage_ok s log pid p'.
Proof.
  intros Hs Hp. unfold stage_ok. rewrite Hs. destruct (pu_stage p); try done;
    (intros (? & [] & ?); split_and!; [done|split; rewrite ?Hp; done|done]).
Qed.

Lemma answers_reply eff : XReply ∈ eff -> XReply ∈ answers eff.
Proof. intros H. apply list_elem_of_filter. by split. Qed.

(** [finish]: the answer is an error, or the put has succeeded. *)
Lemma put_ok_finish s log pid p message cancelled st :
  put_ok s log pid p -> (stopped (pu_exec p) = false -> message = "" -> cancelled = false -> success pid log \/ blank_report pid log) ->
  (st = SDone \/ st = pu_stage p) ->
  put_ok s (log ++ (EExec pid <$> (finish (pu_exec p) message cancelled).2)) pid
    (p <| pu_exec := (finish (pu_exec p) message cancelled).1 |> <| pu_stage := st |>).
Proof.
  intros [H1 H2 H3 H4 H5] Hs Hst. destruct (finish_spec (pu_exec p) message cancelled H1) as (Hok & Hstop & Han).
  set (eff := (finish _ _ _).2) in *. set (x' := (finish _ _ _).1) in *.
  assert (Hx : exec_log pid (EExec pid <$> eff : list (event V)) = eff) by (by rewrite exec_log_exec, Z.eqb_refl).
  split; cbn.
  - done.
  - unfold stopped in *. rewrite Hstop, exec_log_app, Hx, answers_app, length_app, Han.
    destruct (qx_stopped (pu_exec p)); cbn [orb length]; [lia|]. destruct cancelled; cbn [length]; lia.
  - rewrite exec_log_app, Hx, elem_of_app. intros [Hr|Hr]; [by apply real_app, H3|].
    apply answers_reply in Hr. rewrite Han in Hr. unfold stopped in Hs.
    destruct (qx_stopped (pu_exec p)), cancelled; cbn [orb] in Hr; try (by apply not_elem_of_nil in Hr).
    apply list_elem_of_singleton in Hr. destruct (str_empty message) eqn:E; [|done].
    apply real_app, Hs; [done| |done]. by apply str_empty_true.
  - by rewrite writes_app, writes_exec, app_nil_r.
  - destruct Hst as [->| ->]; [done|].
    apply (stage_ok_same _ _ _ p); [done..|]. apply (stage_ok_evolves s); [apply evolves_same|apply writes_exec|done].
Qed.

(** A write was encoded for the configuration in force when it was made. *)
Definition write_ok (puts : gmap Z Put) (pid : Z) raw config (watch : option (string * Z)) : Prop :=
  exists p present current, puts !! pid = Some p /\ pu_present p = Ret present /\ raw = inverseTyped current present /\
    same_force current config /\ same_kind current config /\ is_some (pv_confirm config) = is_some watch.

(** The counters are counted from zero. *)
Definition counters_ok s : Prop := 0 <= ru_commandEpoch s /\ 0 <= ru_nextPendingId s.

Record sys_inv x : Prop := {
  si_counters : counters_ok (x_run x);
  si_puts : forall pid p, x_puts x !! pid = Some p -> put_ok (x_run x) (x_log x) pid p;
  si_fresh : forall pid, x_puts x !! pid = None -> silent pid (x_log x);
  si_writes : forall pid raw config watch accepted,
    EWrite pid raw config watch accepted ∈ x_log x -> write_ok (x_puts x) pid raw config watch;
  si_updates : forall u, u ∈ x_updates x -> same_kind (ru_config (x_run x)) (up_config u);
}.

Lemma write_in_writes pid raw config watch accepted log :
  EWrite pid raw config watch accepted ∈ log -> raw ∈ writes pid log.
Proof.
  intros H. unfold writes. apply list_elem_of_omap. eexists. split; [exact H|]. cbn. by rewrite Z.eqb_refl.
Qed.

(** Puts keep the value they carry. *)
Definition presents_kept (puts puts' : gmap Z Put) : Prop :=
  forall pid p, puts !! pid = Some p -> exists p', puts' !! pid = Some p' /\ pu_present p' = pu_present p.

Lemma write_ok_kept puts puts' pid raw config watch :
  presents_kept puts puts' -> write_ok puts pid raw config watch -> write_ok puts' pid raw config watch.
Proof.
  intros Hk (p & present & current & Hp & Hv & Hrest). destruct (Hk pid p Hp) as (p' & Hp' & Hv').
  exists p', present, current. by rewrite Hv'.
Qed.

Lemma counters_evolves s s' new : evolves s s' new -> counters_ok s -> counters_ok s'.
Proof. intros [H1 _ _ H2 _] [? ?]. split; lia. Qed.

(** Only the runtime moves. *)
Lemma inv_runtime x s' new retiring retired :
  sys_inv x -> evolves (x_run x) s' new -> (forall pid, silent pid new) ->
  sys_inv (logged (x <| x_run := s' |> <| x_retiring := retiring |> <| x_retired := retired |>) new).
Proof.
  intros [H0 H1 H2 H3 H4] Hev Hs. split; cbn.
  - by eapply counters_evolves.
  - intros pid p Hp. by apply (put_ok_evolves (x_run x)), H1.
  - intros pid Hp. by apply silent_app; [apply H2|].
  - intros pid raw c w a [Hin|Hin]%elem_of_app; [by eapply H3|].
    apply write_in_writes in Hin. rewrite (proj2 (Hs pid)) in Hin. by apply not_elem_of_nil in Hin.
  - intros u Hu. rewrite <-(ev_kind _ _ _ Hev). auto.
Qed.

(** One put moves, and perhaps the runtime. *)
Lemma inv_put x pid p p' s' new :
  sys_inv x -> x_puts x !! pid = Some p -> evolves (x_run x) s' new -> pu_present p' = pu_present p ->
  (forall pid', pid' <> pid -> silent pid' new) ->
  (forall raw config watch a, EWrite pid raw config watch a ∈ new -> write_ok (x_puts x) pid raw config watch) ->
  put_ok s' (x_log x ++ new) pid p' ->
  sys_inv (logged (x <| x_run := s' |> <| x_puts ::= fun puts => <[pid := p']> puts |>) new).
Proof.
  intros [H0 H1 H2 H3 H4] Hp Hev Hpr Hs Hw Hok.
  assert (Hk : presents_kept (x_puts x) (<[pid := p']> (x_puts x))).
  { intros pid2 p2 Hp2. destruct (decide (pid2 = pid)) as [->|Hne].
    - exists p'. rewrite lookup_insert_eq. split; [done|congruence].
    - exists p2. by rewrite lookup_insert_ne. }
  split; cbn.
  - by eapply counters_evolves.
  - intros pid2 p2. destruct (decide (pid2 = pid)) as [->|Hne].
    + rewrite lookup_insert_eq. by intros [= <-].
    + rewrite lookup_insert_ne by done. intros Hp2. apply (put_ok_evolves (x_run x)); auto.
  - intros pid2. destruct (decide (pid2 = pid)) as [->|Hne]; [by rewrite lookup_insert_eq|].
    rewrite lookup_insert_ne by done. intros Hp2. apply silent_app; auto.
  - intros pid2 raw c w a [Hin|Hin]%elem_of_app; apply (write_ok_kept _ _ _ _ _ _ Hk); [by eapply H3|].
    destruct (decide (pid2 = pid)) as [->|Hne]; [by eapply Hw|].
    apply write_in_writes in Hin. rewrite (proj2 (Hs pid2 Hne)) in Hin. by apply not_elem_of_nil in Hin.
  - intros u Hu. rewrite <-(ev_kind _ _ _ Hev). auto.
Qed.

(** A step of one put that only answers. *)
Lemma inv_on_put x pid p r :
  sys_inv x -> x_puts x !! pid = Some p -> pu_present r.1 = pu_present p ->
  put_ok (x_run x) (x_log x ++ (EExec pid <$> r.2)) pid r.1 -> sys_inv (on_put x pid r).
Proof.
  intros Hi Hp Hpr Hok. unfold on_put.
  pose proof (inv_put x pid p r.1 (x_run x) (EExec pid <$> r.2) Hi Hp (evolves_same _ _) Hpr) as H.
  destruct x; apply H; [|by intros ? ? ? ? (? & ? & ?)%list_elem_of_fmap|done].
  intros pid' Hne. by apply silent_exec.
Qed.

Lemma inv_on_put_error x pid p message :
  sys_inv x -> x_puts x !! pid = Some p -> message <> "" -> sys_inv (on_put x pid (put_error p message)).
Proof.
  intros Hi Hp Hm. pose proof (put_ok_finish _ _ _ p message false SDone (si_puts _ Hi _ _ Hp)
    ltac:(done) (or_introl eq_refl)) as Hf.
  unfold put_error, error. destruct (finish (pu_exec p) message false) as [e eff]. by apply (inv_on_put _ _ p).
Qed.

Lemma inv_on_put_reply x pid p :
  sys_inv x -> x_puts x !! pid = Some p -> success pid (x_log x) -> sys_inv (on_put x pid (put_reply p)).
Proof.
  intros Hi Hp Hs. pose proof (put_ok_finish _ _ _ p "" false SDone (si_puts _ Hi _ _ Hp)
    ltac:(by left) (or_introl eq_refl)) as Hf.
  unfold put_reply, reply. destruct (finish (pu_exec p) "" false) as [e eff]. by apply (inv_on_put _ _ p).
Qed.

(** A put that moves to another stage without an effect. *)
Lemma put_ok_stage s log pid p st :
  put_ok s log pid p -> stage_ok s log pid (p <| pu_stage := st |>) -> put_ok s log pid (p <| pu_stage := st |>).
Proof. intros [H1 H2 H3 H4 H5] Hst. by split. Qed.

Lemma inv_on_put_stage x pid p st :
  sys_inv x -> x_puts x !! pid = Some p -> stage_ok (x_run x) (x_log x) pid (p <| pu_stage := st |>) ->
  sys_inv (on_put x pid (p <| pu_stage := st |>, [])).
Proof.
  intros Hi Hp Hst. apply (inv_on_put _ _ p); [done..|]. cbn. rewrite app_nil_r.
  apply put_ok_stage; [by apply (si_puts _ Hi)|done].
Qed.

Lemma inv_on_put_leave x pid p :
  sys_inv x -> x_puts x !! pid = Some p -> sys_inv (on_put x pid (put_leave p)).
Proof. intros Hi Hp. by apply inv_on_put_stage. Qed.

(** ** Every step keeps the invariant *)

Lemma u64_next z : 0 <= z -> z + 1 < 2 ^ 64 -> u64 (z + 1) = z + 1.
Proof. intros ? ?. unfold u64. apply Z.mod_small. lia. Qed.

Lemma commit_evolves s u new :
  counters_ok s -> ru_commandEpoch s + 1 < 2 ^ 64 -> same_kind (ru_config s) (up_config u) ->
  evolves s (commit s u).1 new.
Proof.
  intros [Hc _] Hb Hk. unfold commit.
  destruct (sameTransform _ _) eqn:E; split; cbn; try done; rewrite ?u64_next by done; try lia.
  - intros _. by right.
  - intros id q' _ H. exists q'. split; [done|apply link_refl].
  - intros id q' _. rewrite lookup_fmap. intros (q & -> & ->)%fmap_Some. exists q. split; [done|by apply link_fail].
Qed.

Lemma locked_evolves s reason new :
  counters_ok s -> ru_commandEpoch s + 1 < 2 ^ 64 -> reason <> "" -> evolves s (deactivate_locked s reason).1 new.
Proof.
  intros [Hc _] Hb Hr. split; cbn; rewrite ?u64_next by done; try done; try lia.
  intros id q' _. rewrite lookup_fmap. intros (q & -> & ->)%fmap_Some. exists q. split; [done|by apply link_fail].
Qed.

Lemma prepare_kind s config generation registration u :
  prepareReconfigure s config generation registration = Some (Ret u) -> same_kind (ru_config s) (up_config u).
Proof.
  unfold prepareReconfigure. destruct (ru_alive s); cbn [negb orb]; [|done].
  destruct (sameReaderTopology (ru_config s) config) eqn:E; cbn [negb]; [|done].
  intros H. apply bind_Some in H as (? & _ & [= <-]). by apply topology_kind.
Qed.

Lemma inv_begin x pid p epoch :
  sys_inv x -> at_stage x pid p (SQueued epoch) -> sys_inv (on_put x pid (dispatch_begin (x_run x) p epoch)).
Proof.
  intros Hi [Hp Hst]. unfold dispatch_begin. destruct (stopped (pu_exec p)); [by apply inv_on_put_leave|].
  destruct (negb (ru_alive (x_run x)) || negb (ru_committed (x_run x))); cbn [orb]; [by apply inv_on_put_error|].
  destruct (Z.eqb_spec (ru_commandEpoch (x_run x)) epoch) as [He|He]; cbn [negb]; [|by apply inv_on_put_error].
  pose proof (po_stage _ _ _ _ (si_puts _ Hi _ _ Hp)) as Hw. unfold stage_ok in Hw. rewrite Hst in Hw.
  destruct (pu_present p) as [present|what] eqn:Epr.
  2: { apply inv_on_put_error; [done..|]. by destruct what. }
  assert (Hen : forall st, encoded (x_run x) (p <| pu_stage := st |>) epoch (ru_config (x_run x))
    (inverseTyped (ru_config (x_run x)) present)).
  { intros st. split; [by exists present|lia|by left|done]. }
  apply inv_on_put_stage; [done..|]. destruct (pv_confirm _) eqn:Ec; cbn; split_and!; try done; try apply Hen; by rewrite Ec.
Qed.

Lemma inv_watch x pid p epoch current raw readerEpoch :
  sys_inv x -> at_stage x pid p (SEncoded epoch current raw) ->
  sys_inv (on_put x pid (dispatch_watch p epoch current raw readerEpoch)).
Proof.
  intros Hi [Hp Hst]. unfold dispatch_watch. destruct (stopped (pu_exec p)); [by apply inv_on_put_leave|].
  pose proof (po_stage _ _ _ _ (si_puts _ Hi _ _ Hp)) as Hw. unfold stage_ok in Hw. rewrite Hst in Hw.
  apply inv_on_put_stage; [done..|]. destruct Hw as (? & [] & ?). cbn. split_and!; [done|by split|done].
Qed.

Lemma inv_snapshot x pid p epoch current raw sourceEpoch snapshot :
  sys_inv x -> at_stage x pid p (SWatching epoch current raw sourceEpoch) ->
  sys_inv (on_put x pid (dispatch_snapshot p epoch current raw sourceEpoch snapshot)).
Proof.
  intros Hi [Hp Hst]. unfold dispatch_snapshot.
  destruct (sx_connected snapshot); cbn [negb]; [|by apply inv_on_put_error].
  pose proof (po_stage _ _ _ _ (si_puts _ Hi _ _ Hp)) as Hw. unfold stage_ok in Hw. rewrite Hst in Hw.
  apply inv_on_put_stage; [done..|]. destruct Hw as (? & [] & ?). cbn. split_and!; [done|by split|done].
Qed.

Lemma inv_reply x pid p now :
  sys_inv x -> at_stage x pid p SUpdated -> sys_inv (on_put x pid (dispatch_reply p now)).
Proof.
  intros Hi [Hp Hst]. unfold dispatch_reply. destruct (pu_deadline p <=? now); [by apply inv_on_put_error|].
  apply inv_on_put_reply; [done..|].
  pose proof (po_stage _ _ _ _ (si_puts _ Hi _ _ Hp)) as Hw. unfold stage_ok in Hw. rewrite Hst in Hw.
  destruct Hw as [raw Hw]. by apply written_success in Hw.
Qed.

Lemma inv_wake x pid p epoch id :
  sys_inv x -> at_stage x pid p (SRegistered epoch id) -> sys_inv (on_put x pid (dispatch_wake p epoch id)).
Proof.
  intros Hi [Hp Hst]. unfold dispatch_wake, wake. apply (inv_on_put _ _ p); [done..|]. cbn.
  pose proof (si_puts _ Hi _ _ Hp) as [H1 H2 H3 H4 H5].
  assert (Hx : answers (exec_log pid (EExec pid <$> (if qx_stopped (pu_exec p) then [XNotify] else []) : list (event V))) = [] /\
    XReply ∉ exec_log pid (EExec pid <$> (if qx_stopped (pu_exec p) then [XNotify] else []) : list (event V))).
  { rewrite exec_log_exec, Z.eqb_refl. destruct (qx_stopped (pu_exec p)); (split; [done|set_solver]). }
  destruct Hx as [Hx1 Hx2]. split; cbn.
  - done.
  - rewrite exec_log_app, answers_app, Hx1, app_nil_r. done.
  - rewrite exec_log_app, elem_of_app. intros [Hr|Hr]; [by apply real_app, H3|done].
  - by rewrite writes_app, writes_exec, app_nil_r.
  - pose proof (stage_ok_evolves _ _ _ (EExec pid <$> (if qx_stopped (pu_exec p) then [XNotify] else []))
      pid p (evolves_same _ _) (writes_exec _ _ _) H5) as H. unfold stage_ok in *. by rewrite Hst in H.
Qed.

Lemma inv_answer x pid p err confirmed now :
  sys_inv x -> at_stage x pid p (SWoken err confirmed) -> sys_inv (on_put x pid (dispatch_answer p err confirmed now)).
Proof.
  intros Hi [Hp Hst]. pose proof (po_stage _ _ _ _ (si_puts _ Hi _ _ Hp)) as Hw. unfold stage_ok in Hw.
  rewrite Hst in Hw. destruct Hw as [He Hs]. unfold dispatch_answer.
  destruct (stopped (pu_exec p)); [by apply inv_on_put_leave|].
  destruct err as [message|]; [apply inv_on_put_error; congruence|].
  destruct (pu_deadline p <=? now); [by apply inv_on_put_error|].
  destruct confirmed; cbn [negb]; [|by apply inv_on_put_error]. apply inv_on_put_reply; auto.
Qed.

Lemma inv_exec x pid p message cancelled :
  sys_inv x -> x_puts x !! pid = Some p -> message <> "" \/ cancelled = true \/ blank_report pid (x_log x) ->
  sys_inv (on_put x pid (p <| pu_exec := (finish (pu_exec p) message cancelled).1 |>,
                         (finish (pu_exec p) message cancelled).2)).
Proof.
  intros Hi Hp Hm. apply (inv_on_put _ _ p); [done..|]. cbn.
  pose proof (put_ok_finish _ _ _ p message cancelled (pu_stage p) (si_puts _ Hi _ _ Hp)
    ltac:(intros; destruct Hm as [?|[?|?]]; [congruence..|by right]) (or_intror eq_refl)) as Hf. by destruct p.
Qed.

(** What the critical section of a put may do. *)
Variant write_outcome s p current raw watch s' p' eff : bool -> bool -> Prop :=
| WO_refuse message : message <> "" -> s' = s -> (p', eff) = put_error p message ->
    write_outcome s p current raw watch s' p' eff false false
| WO_leave : s' = s -> (p', eff) = put_leave p -> write_outcome s p current raw watch s' p' eff false false
| WO_failed message : message <> "" -> quiet (s <| ru_nextPendingId := ru_nextPendingId s' |>) s' ->
    ru_nextPendingId s <= ru_nextPendingId s' -> ru_pending s' = ru_pending s ->
    (p', eff) = put_error p message -> write_outcome s p current raw watch s' p' eff true false
| WO_threw : quiet (s <| ru_nextPendingId := ru_nextPendingId s' |>) s' ->
    ru_nextPendingId s <= ru_nextPendingId s' -> ru_pending s' = ru_pending s ->
    (p', eff) = put_leave p -> write_outcome s p current raw watch s' p' eff true false
| WO_written time : watch = None -> s' = s -> p' = p <| pu_stage := SWritten current raw time |> -> eff = [] ->
    write_outcome s p current raw watch s' p' eff true true
| WO_registered epoch after sourceEpoch : watch = Some (after, sourceEpoch) ->
    quiet (s <| ru_nextPendingId := ru_nextPendingId s + 1 |>) s' ->
    ru_pending s' = <[ru_nextPendingId s + 1 := {| pp_expectedRaw := raw; pp_afterId := after;
       pp_sourceEpoch := sourceEpoch; pp_done := false; pp_error := None |}]> (ru_pending s) ->
    p' = p <| pu_stage := SRegistered epoch (ru_nextPendingId s + 1) |> -> eff = [] ->
    write_outcome s p current raw watch s' p' eff true true.

Ltac refused E := eapply WO_refuse; [|reflexivity|symmetry; exact E]; discriminate.

Lemma dispatch_write_outcome s p epoch current raw watch now readerEpoch authorized result s' p' eff sent :
  counters_ok s -> ru_nextPendingId s + 1 < 2 ^ 64 ->
  dispatch_write s p epoch current raw watch now readerEpoch authorized result = (s', p', eff, sent) ->
  write_outcome s p current raw watch s' p' eff sent (sent && accepted_write result) /\
  (sent = true -> ru_alive s = true /\ epoch = ru_commandEpoch s).
Proof.
  intros [_ Hn] Hb. unfold dispatch_write. cbn zeta. rewrite (u64_next _ Hn Hb).
  destruct (put_error p "write configuration changed") as [pa ea] eqn:Ea.
  destruct (ru_alive s); cbn [negb orb]; [|intros [= <- <- <- <-]; split; [refused Ea|done]].
  destruct (Z.eqb_spec (ru_commandEpoch s) epoch) as [He|]; cbn [negb];
    [|intros [= <- <- <- <-]; split; [refused Ea|done]].
  destruct (stopped _); [intros [= <- <- <- <-]; split; [by eapply WO_leave|done]|].
  destruct (pu_deadline p <=? now).
  { destruct (put_error p _) as [pb eb] eqn:Eb in |- *. intros [= <- <- <- <-]. split; [refused Eb|done]. }
  destruct (operation _); cbn [negb]; [|intros [= <- <- <- <-]; split; [by eapply WO_leave|done]].
  destruct authorized; cbn [negb].
  2: { destruct (put_error p _) as [pb eb] eqn:Eb in |- *. intros [= <- <- <- <-]. split; [refused Eb|done]. }
  destruct (put_error p "redis write failed; not retried") as [pr er] eqn:Er.
  destruct watch as [[after se]|].
  - destruct (negb (se =? readerEpoch)).
    { destruct (put_error p _) as [pb eb] eqn:Eb in |- *. intros [= <- <- <- <-]. split; [refused Eb|done]. }
    destruct result; intros [= <- <- <- <-]; (split; [|done]); cbn.
    + by eapply WO_registered.
    + eapply WO_failed; [| |cbn; lia| |by symmetry]; done.
    + eapply WO_threw; [|cbn; lia| |]; done.
  - destruct result; intros [= <- <- <- <-]; (split; [|done]); cbn.
    + by eapply WO_written.
    + eapply WO_failed; [| |lia| |by symmetry]; [done|by destruct s|done].
    + eapply WO_threw; [|lia| |]; [by destruct s|done..].
Qed.

Lemma on_put_logged x s' w pid r :
  on_put (logged (x <| x_run := s' |>) w) pid r =
  logged (x <| x_run := s' |> <| x_puts ::= fun puts => <[pid := r.1]> puts |>) (w ++ (EExec pid <$> r.2)).
Proof. unfold on_put, logged. destruct x. cbn. f_equal. by rewrite app_assoc. Qed.

Lemma evolves_registered s s' new :
  quiet (s <| ru_nextPendingId := ru_nextPendingId s' |>) s' -> ru_nextPendingId s <= ru_nextPendingId s' ->
  (forall id, id <= ru_nextPendingId s -> ru_pending s' !! id = ru_pending s !! id) -> evolves s s' new.
Proof.
  intros [Hc He Ha Hn] Hle Hp. cbn in *. split; rewrite ?Hc, ?He; try done; [by left|].
  intros id q' Hid. rewrite Hp by done. intros Hq. exists q'. split; [done|apply link_refl].
Qed.

Lemma put_ok_wrote s s' log pid p epoch current raw watch config accepted st :
  put_ok s log pid p -> pu_stage p = SReady epoch current raw watch ->
  stage_ok s' (log ++ [EWrite pid raw config watch accepted]) pid (p <| pu_stage := st |>) ->
  put_ok s' (log ++ [EWrite pid raw config watch accepted]) pid (p <| pu_stage := st |>).
Proof.
  intros [H1 H2 H3 H4 H5] Hst Hok. unfold stage_ok in H5. rewrite Hst in H5. destruct H5 as (Hw & _).
  split; cbn.
  - done.
  - by rewrite exec_log_app, app_nil_r.
  - rewrite exec_log_app, app_nil_r. intros Hr. by apply real_app, H3.
  - rewrite writes_app, Hw. unfold writes. cbn. rewrite Z.eqb_refl. cbn. lia.
  - done.
Qed.

Lemma write_silent pid pid' raw config watch a eff :
  pid' <> pid -> silent pid' ((EWrite pid raw config watch a : event V) :: (EExec pid <$> eff)).
Proof.
  intros Hne. pose proof (silent_exec pid' pid eff Hne) as [Hx Hw]. unfold silent, exec_log, writes in *. cbn.
  rewrite (proj2 (Z.eqb_neq pid pid')) by done. done.
Qed.

Lemma inv_write x pid p epoch current raw watch now readerEpoch authorized result s' p' eff sent :
  sys_inv x -> at_stage x pid p (SReady epoch current raw watch) -> ru_nextPendingId (x_run x) + 1 < 2 ^ 64 ->
  dispatch_write (x_run x) p epoch current raw watch now readerEpoch authorized result = (s', p', eff, sent) ->
  sys_inv (on_put (logged (x <| x_run := s' |>)
             (if sent then [EWrite pid raw (ru_config (x_run x)) watch (accepted_write result)] else [])) pid (p', eff)).
Proof.
  intros Hi [Hp Hst] Hb Hd. apply dispatch_write_outcome in Hd as [Ho Hsent]; [|apply (si_counters _ Hi)|done].
  destruct sent; cbn [andb] in Ho.
  2: { inversion Ho as [message Hm Hs Hr|Hs Hr| | | |]; subst; replace (logged _ []) with x
         by (unfold logged; destruct x; cbn; by rewrite app_nil_r).
       - rewrite Hr. by apply inv_on_put_error.
       - rewrite Hr. by apply inv_on_put_leave. }
  remember (accepted_write result) as acc eqn:Eacc. clear Eacc. destruct (Hsent eq_refl) as [Ha He].
  pose proof (si_puts _ Hi _ _ Hp) as Hok. pose proof (po_stage _ _ _ _ Hok) as Hw. unfold stage_ok in Hw.
  rewrite Hst in Hw. destruct Hw as (Hw & [Hraw _ Hf Hk] & Hc).
  assert (Hwr : write_ok (x_puts x) pid raw (ru_config (x_run x)) watch).
  { destruct Hraw as (present & Hpr & ->). exists p, present, current. split_and!; [done..|by apply Hf|done|].
    rewrite <-Hc. symmetry. apply Hk. }
  assert (Hgo : evolves (x_run x) s' (EWrite pid raw (ru_config (x_run x)) watch acc ::
                 (EExec pid <$> eff)) ->
    pu_present p' = pu_present p ->
    put_ok s' ((x_log x ++ [EWrite pid raw (ru_config (x_run x)) watch acc]) ++ (EExec pid <$> eff)) pid p' ->
    sys_inv (on_put (logged (x <| x_run := s' |>)
      [EWrite pid raw (ru_config (x_run x)) watch acc]) pid (p', eff))).
  { intros Hev Hpr Hok'. rewrite on_put_logged. rewrite <-app_assoc in Hok'. apply (inv_put x pid p); try done.
    - intros pid' Hne. by apply write_silent.
    - intros raw' c' w' a' [[= -> -> -> ->]|H]%elem_of_cons; [done|]. by apply list_elem_of_fmap in H as (? & ? & _). }
  assert (Hkeep : quiet ((x_run x) <| ru_nextPendingId := ru_nextPendingId s' |>) s' ->
    ru_nextPendingId (x_run x) <= ru_nextPendingId s' -> ru_pending s' = ru_pending (x_run x) ->
    forall new, evolves (x_run x) s' new).
  { intros Hq Hle Hpe new. apply evolves_registered; [done..|]. by rewrite Hpe. }
  assert (Hdone : put_ok s' (x_log x ++ [EWrite pid raw (ru_config (x_run x)) watch acc]) pid
    (p <| pu_stage := SDone |>)) by (eapply put_ok_wrote; [exact Hok|exact Hst|done]).
  revert Hgo Hdone.
  inversion Ho as [| |message Hm Hq Hle Hpe Hr|Hq Hle Hpe Hr|time Hwa Hs Hp' Heff|ep af se Hwa Hq Hpe Hp' Heff]; clear Ho;
    intros Hgo Hdone.
  - apply Hgo; [by apply Hkeep| |].
    { unfold put_error in Hr. destruct (error _ _) as [x1 e1]. by injection Hr as -> _. }
    pose proof (put_ok_finish _ _ _ _ message false SDone Hdone ltac:(done) (or_introl eq_refl)) as Hfin.
    unfold put_error, error in Hr. destruct p as [px pd pp ps]. cbn in *.
    destruct (finish px message false) as [x' e']. by injection Hr as -> ->.
  - injection Hr as -> ->. apply Hgo; [by apply Hkeep|done|]. cbn. by rewrite app_nil_r.
  - subst s' p' eff. apply Hgo; [apply evolves_same|done|]. cbn [fmap list_fmap]. rewrite app_nil_r.
    eapply put_ok_wrote; [exact Hok|exact Hst|]. cbn. exists (x_log x), (ru_config (x_run x)), [].
    by rewrite Hwa.
  - subst p' eff. assert (Hne : ru_nextPendingId s' = ru_nextPendingId (x_run x) + 1) by apply Hq. apply Hgo; [|done|].
    + apply evolves_registered; [by rewrite Hne|lia|]. intros id Hid. rewrite Hpe, lookup_insert_ne by lia. done.
    + cbn [fmap list_fmap]. rewrite app_nil_r. eapply put_ok_wrote; [exact Hok|exact Hst|]. cbn.
      exists raw, af, se. split_and!.
      * exists (x_log x), (ru_config (x_run x)), []. by rewrite Hwa.
      * lia.
      * intros q. rewrite Hpe, lookup_insert_eq. intros [= <-]. by split_and!.
Qed.

Lemma inv_update x pid p current raw time reader now s' p' eff :
  sys_inv x -> at_stage x pid p (SWritten current raw time) ->
  dispatch_update compareStreamIds (x_run x) p current raw time reader now = Some (s', p', eff) ->
  sys_inv (on_put (logged (x <| x_run := s' |>) (ERt <$> eff)) pid (p', [])).
Proof.
  intros Hi [Hp Hst] Hd. pose proof (si_puts _ Hi _ _ Hp) as Hok. pose proof (po_stage _ _ _ _ Hok) as Hw.
  unfold stage_ok in Hw. rewrite Hst in Hw.
  assert (quiet (x_run x) s' /\ ru_pending s' = ru_pending (x_run x) /\
    exists st, p' = p <| pu_stage := st |> /\ (st = SDone \/ st = SUpdated)) as (Hq & Hpe & st & -> & Hst').
  { unfold dispatch_update in Hd. destruct (stopped (pu_exec p)).
    { injection Hd as <- <- <-. split_and!; [done..|]. exists SDone. split; [done|by left]. }
    destruct (pv_write current) as [r|].
    2: { injection Hd as <- <- <-. split_and!; [done..|]. exists SUpdated. split; [done|by right]. }
    destruct (sameRouteTarget _ r).
    2: { injection Hd as <- <- <-. split_and!; [done..|]. exists SUpdated. split; [done|by right]. }
    apply bind_Some in Hd as ([[s1 e1] c1] & Hd & [= <- <- <-]). apply handleRawUpdate_quiet in Hd as (Q & _ & _ & P).
    split_and!; [done..|]. exists SUpdated. split; [done|by right]. }
  assert (Hev : evolves (x_run x) s' (ERt <$> eff)) by (by apply evolves_quiet).
  rewrite on_put_logged. apply (inv_put x pid p); try done; cbn; rewrite ?app_nil_r.
  - done.
  - intros ? _. apply silent_rt.
  - by intros ? ? ? ? (? & ? & _)%list_elem_of_fmap.
  - apply put_ok_stage; [apply (put_ok_evolves (x_run x)); [done|apply silent_rt|done]|].
    destruct Hst' as [-> | ->]; cbn; [done|]. exists raw. by eapply written_app, Hw.
Qed.

Lemma inv_woken x pid p epoch id :
  sys_inv x -> at_stage x pid p (SWaiting epoch id) ->
  sys_inv (on_put (x <| x_run := (dispatch_woken (x_run x) p epoch id).1 |>) pid
             ((dispatch_woken (x_run x) p epoch id).2, [])).
Proof.
  intros Hi [Hp Hst]. pose proof (si_puts _ Hi _ _ Hp) as Hok. pose proof (po_stage _ _ _ _ Hok) as Hw.
  unfold stage_ok in Hw. rewrite Hst in Hw. destruct Hw as (raw & after & ep & Hwr & Hid & Hq).
  set (s' := (dispatch_woken (x_run x) p epoch id).1). set (p' := (dispatch_woken (x_run x) p epoch id).2).
  assert (evolves (x_run x) s' [] /\ exists st, p' = p <| pu_stage := st |> /\
    stage_ok s' (x_log x) pid (p <| pu_stage := st |>)) as (Hev & st & Hp' & Hok').
  { subst s' p'. unfold dispatch_woken. destruct (ru_pending (x_run x) !! id) as [q|] eqn:E; cbn.
    - split.
      + split; cbn; try done; [by left|]. intros i q' _ [_ H]%lookup_delete_Some. exists q'. split; [done|apply link_refl].
      + eexists. split; [done|]. destruct (Hq q eq_refl) as (_ & _ & _ & He & Hd). cbn. split; [done|].
        intros Hn Hc. apply andb_true_iff in Hc as [_ Hc]. by eapply written_success, Hd.
    - split; [apply evolves_same|]. eexists. split; [done|]. cbn. split; done. }
  clearbody s' p'. subst p'.
  pose proof (on_put_logged x s' [] pid (p <| pu_stage := st |>, [])) as Heq.
  assert (logged (x <| x_run := s' |>) [] = x <| x_run := s' |>) as Hl
    by (unfold logged; destruct x; cbn; by rewrite app_nil_r).
  rewrite Hl in Heq. rewrite Heq. clear Heq Hl. apply (inv_put x pid p); try done; cbn; rewrite ?app_nil_r.
  - by intros ? ? ? ? ?%not_elem_of_nil.
  - apply put_ok_stage; [|done].
    pose proof (put_ok_evolves _ s' (x_log x) [] pid p Hev) as H. rewrite app_nil_r in H. by apply H.
Qed.

Lemma inv_submit x pid limits confirmationMs now count present p :
  sys_inv x -> x_puts x !! pid = None -> put_submit (x_run x) limits confirmationMs now count present = Ret p ->
  sys_inv (x <| x_puts ::= fun puts => <[pid := p]> puts |>).
Proof.
  intros [H0 H1 H2 H3 H4] Hn Hs.
  assert (Hp : put_ok (x_run x) (x_log x) pid p).
  { destruct (H2 pid Hn) as [Hx Hw]. unfold put_submit in Hs. apply exn_bind_ret in Hs as (? & _ & [= <-]).
    split; cbn; rewrite ?Hx, ?Hw; cbn; try done; [by intros ?%not_elem_of_nil|lia]. }
  split; cbn; [done| | | |done].
  - intros pid2 p2. destruct (decide (pid2 = pid)) as [->|Hne].
    + rewrite lookup_insert_eq. by intros [= <-].
    + rewrite lookup_insert_ne by done. apply H1.
  - intros pid2. destruct (decide (pid2 = pid)) as [->|Hne]; [by rewrite lookup_insert_eq|].
    rewrite lookup_insert_ne by done. apply H2.
  - intros pid2 raw c w a Hin. apply (write_ok_kept (x_puts x)); [|by eapply H3].
    intros pid3 p3 Hp3. exists p3. rewrite lookup_insert_ne by congruence. done.
Qed.

Lemma logged_nil x : logged x [] = x.
Proof. unfold logged. destruct x. cbn. by rewrite app_nil_r. Qed.

Lemma rstep_inv x x' : rstep x x' -> sys_inv x -> sys_inv x'.
Proof.
  intros Hs Hi. assert (Hr : forall s' new, evolves (x_run x) s' new -> (forall pid, silent pid new) ->
    sys_inv (logged (x <| x_run := s' |>) new)).
  { intros s' new Hev Hsi. pose proof (inv_runtime x s' new (x_retiring x) (x_retired x) Hi Hev Hsi) as H. by destruct x. }
  destruct Hs as [entry uv cc m reader now s' eff continue H|n p1 p2 r1 r2 now s' eff ss H| |c g r u H|u Hu Hb|s' eff H| |
    reason _ _ Hre Hb|_|pid l cm now ct pr p Hp H|pid p e H|pid p e c raw re H|pid p e c raw se sn H|
    pid p e c raw w now re au res s' p' eff sent H Hb Hd|pid p c raw t rd now s' p' eff H Hd|pid p now H|pid p e i H|
    pid p e i H|pid p err cf now H|pid p msg Hp|pid p Hp].
  - apply handleEntry_quiet in H as (Q & _ & _ & P). apply Hr.
    + destruct P as [P|(raw & P & Ho)]; [by apply evolves_quiet|].
      eapply evolves_pending; [done|exact P|]. intros q. apply link_confirm. rewrite Ho. apply elem_of_cons. right.
      apply elem_of_app. right. left.
    + intros pid. apply (silent_app _ [_]); [done|]. apply silent_app; [apply silent_rt|apply silent_observes].
  - apply sourceHealth_quiet in H as (Q & _ & _ & P). apply Hr; [|intros; apply silent_rt].
    destruct P as [P|(epoch & P)]; [by apply evolves_quiet|].
    eapply evolves_pending; [done|exact P|]. intros q. apply link_expire.
  - apply Hr; [by apply evolves_quiet|intros; apply silent_rt].
  - apply prepare_kind in H. destruct Hi as [H0 H1 H2 H3 H4]. split; cbn; try done.
    intros u' [->|Hu']%elem_of_cons; auto.
  - apply Hr; [|intros pid; apply (silent_app _ [_]); [done|apply silent_rt]]. apply commit_evolves; [apply (si_counters _ Hi)|done|by apply (si_updates _ Hi)].
  - apply refresh_quiet in H as (Q & _ & P & _). apply Hr; [by apply evolves_quiet|intros; apply silent_rt].
  - pose proof (inv_runtime x (deactivate_flag (x_run x)).1 [] (x_retiring x || (deactivate_flag (x_run x)).2) (x_retired x) Hi)
      as H. rewrite logged_nil in H. apply H; [|done]. split; cbn; try done; [by left|].
    intros i q' _ Hq. exists q'. split; [done|apply link_refl].
  - pose proof (inv_runtime x (deactivate_locked (x_run x) reason).1 (ERt <$> (deactivate_locked (x_run x) reason).2)
      (x_retiring x) true Hi) as H. apply H; [|intros; apply silent_rt].
    apply locked_evolves; [apply (si_counters _ Hi)|done|done].
  - pose proof (Hr (deactivate_close (x_run x)) [] ltac:(by apply evolves_quiet) ltac:(done)) as H.
    by rewrite logged_nil in H.
  - by eapply inv_submit.
  - by apply inv_begin.
  - by apply inv_watch.
  - by apply inv_snapshot.
  - by eapply inv_write.
  - by eapply inv_update.
  - by apply inv_reply.
  - by apply inv_wake.
  - by apply inv_woken.
  - by apply inv_answer.
  - pose proof (Hr (x_run x) [EReport pid msg] (evolves_same _ _) ltac:(done)) as Hl.
    replace (x <| x_run := x_run x |>) with x in Hl by (by destruct x). apply (inv_exec (logged x [EReport pid msg])); [done..|].
    destruct (decide (msg = "")) as [->|]; [right; right|by left]. unfold blank_report. cbn. rewrite elem_of_app. right. left.
  - apply inv_exec; [done..|by right; left].
Qed.

Lemma new_inv s : counters_ok s -> sys_inv (RtSys_new s).
Proof. intros Hc. split; cbn; try done; [by intros ? ? ? ? ? ?%not_elem_of_nil|by intros ? ?%not_elem_of_nil]. Qed.

Lemma rreach_inv s x : counters_ok s -> rtc rstep (RtSys_new s) x -> sys_inv x.
Proof.
  intros Hc H. assert (Hi : sys_inv (RtSys_new s)) by (by apply new_inv).
  revert Hi. induction H; eauto using rstep_inv.
Qed.

(** ** The promises *)

(** C5. A client is told that its put succeeded only when it did, but for one
    gap: whatever else happens to the PV meanwhile, a success answer means that
    the backend accepted the write made for this put and, when the PV confirms
    its writes, that after the write a sample of the confirming stream, of the
    reader's epoch of that time and newer than what the stream held before,
    carried the written value; or that the queue reported a failure of the put
    whose text was empty, which the handle takes for success.  The queue's own
    texts are not empty, the [what()] of an exception thrown by the dispatch
    may be.  No put is answered twice. *)
Theorem put_success_is_real s x pid :
  counters_ok s -> rtc rstep (RtSys_new s) x ->
  (XReply ∈ exec_log pid (x_log x) -> success pid (x_log x) \/ blank_report pid (x_log x)) /\
  (length (answers (exec_log pid (x_log x))) <= 1)%nat.
Proof.
  intros Hc Hi%rreach_inv; [|done]. destruct (x_puts x !! pid) as [p|] eqn:Hp.
  - destruct (si_puts _ Hi _ _ Hp) as [_ H2 H3 _ _]. split; [done|]. destruct (stopped _); lia.
  - destruct (si_fresh _ Hi _ Hp) as [-> _]. split; [by intros ?%not_elem_of_nil|change (answers []) with (@nil exec_effect); cbn; lia].
Qed.

(** C6. A command is sent for the configuration in force: every value written
    to the backend is the client's value under the inverse of a transform that
    is the PV's at that moment, however reloads, retirement, health polls and other
    puts interleave with the dispatch; a put of a PV that confirms its writes is
    always watched; and for no put is a command sent twice. *)
Theorem write_matches_configuration s x pid raw config watch accepted :
  counters_ok s -> rtc rstep (RtSys_new s) x -> EWrite pid raw config watch accepted ∈ x_log x ->
  writes pid (x_log x) = [raw] /\
  exists p present current, x_puts x !! pid = Some p /\ pu_present p = Ret present /\
    raw = inverseTyped current present /\ same_force current config /\ same_kind current config /\
    is_some (pv_confirm config) = is_some watch.
Proof.
  intros Hc Hi%rreach_inv Hin; [|done]. pose proof (si_writes _ Hi _ _ _ _ _ Hin) as Hw. split; [|exact Hw].
  destruct Hw as (p & present & current & Hp & _). pose proof (po_writes _ _ _ _ (si_puts _ Hi _ _ Hp)) as Hl.
  apply write_in_writes in Hin. destruct (writes pid (x_log x)) as [|a [|b l]]; [by apply not_elem_of_nil in Hin| |cbn in Hl; lia].
  apply list_elem_of_singleton in Hin. by subst.
Qed.

End Invariant.

(** ** Retirement and the origin of values *)

(** The machine width of the integers of a value. *)
Definition within (bits : Z) (signed : bool) (z : Z) : bool :=
  if signed then (- 2 ^ (bits - 1) <=? z) && (z <? 2 ^ (bits - 1)) else (0 <=? z) && (z <? 2 ^ bits).
Definition in_width (v : TypedValue) : bool :=
  match v with
  | TVint8 z => within 8 true z | TVuint8 z => within 8 false z
  | TVint16 z => within 16 true z | TVuint16 z => within 16 false z
  | TVint32 z => within 32 true z | TVuint32 z => within 32 false z
  | TVint64 z => within 64 true z | TVuint64 z => within 64 false z
  | TVvint8 l => forallb (within 8 true) l | TVvuint8 l => forallb (within 8 false) l
  | TVvint16 l => forallb (within 16 true) l | TVvuint16 l => forallb (within 16 false) l
  | TVvint32 l => forallb (within 32 true) l | TVvuint32 l => forallb (within 32 false) l
  | TVvint64 l => forallb (within 64 true) l | TVvuint64 l => forallb (within 64 false) l
  | _ => true
  end.

Definition well_typed (type : PrimitiveType) (shape : Shape) (v : TypedValue) : bool := has_type type shape v && in_width v.

Section Promises.
Context {V : Type} {HV : PvxsValue V} {HS : SharedPV V}.
Context (decode : gmap string string -> option TypedValue) (RA_Time : string -> option Z)
  (compareStreamIds : string -> string -> Z).
Implicit Types (s : TypedRuntime V) (x : RtSys V) (p : Put).

Local Notation rstep := (rstep decode RA_Time compareStreamIds).

(** The steps of [deactivate] come in order and [alive_] never comes back. *)
Definition retire_inv x : Prop :=
  (x_retired x = true -> x_retiring x = true) /\ (x_retiring x = true -> ru_alive (x_run x) = false).

Definition loud (e : event V) : bool :=
  match e with EWrite _ _ _ _ _ | ERt (FPost _) | ERt (FAlarm _ _) => true | _ => false end.

Lemma quiet_exec pid (eff : list exec_effect) : Forall (fun e => loud e = false) (EExec pid <$> eff).
Proof. by apply Forall_fmap, Forall_true. Qed.

Ltac nothing_new := exists []; cbn [fmap list_fmap]; rewrite ?app_nil_r; split; [reflexivity|constructor].

Lemma rstep_retire x x' : rstep x x' ->
  (ru_alive (x_run x) = false -> ru_alive (x_run x') = false /\
     exists new, x_log x' = x_log x ++ new /\ Forall (fun e => loud e = false) new) /\
  (retire_inv x -> retire_inv x').
Proof.
  intros Hs. unfold retire_inv.
  destruct Hs as [entry uv cc m reader now s' eff continue H|n p1 p2 r1 r2 now s' eff ss H| |c g r u H|u Hu Hb|s' eff H| |
    reason Hri _ Hre Hb|_|pid l cm now ct pr p Hp H|pid p e H|pid p e c raw re H|pid p e c raw se sn H|
    pid p e c raw w now re au res s' p' eff sent H Hb Hd|pid p c raw t rd now s' p' eff H Hd|pid p now H|pid p e i H|
    pid p e i H|pid p err cf now H|pid p msg Hp|pid p Hp]; cbn.
  - apply handleEntry_quiet in H as ([_ _ Ha _] & _ & He & _). rewrite Ha. split; [|done].
    intros Hal. destruct (He Hal) as [-> ->]. split; [done|]. eexists. split; [done|]. cbn. constructor; [done|].
    unfold observes. repeat case_match; auto.
  - apply sourceHealth_quiet in H as ([_ _ Ha _] & _ & He & _). rewrite Ha. split; [|done].
    intros Hal. rewrite (He Hal). split; [done|]. nothing_new.
  - split; [|done]. intros Hal. split; [done|]. eexists. split; [done|]. destruct (ru_alarm _); cbn; auto.
  - split; [|done]. intros Hal. split; [done|]. nothing_new.
  - unfold commit. destruct (sameTransform _ _); cbn; (split; [|done]); intros Hal; (split; [done|]); eexists;
      (split; [reflexivity|]); (constructor; [done|]); (destruct (bool_decide _); [constructor|]); destruct (ru_alarm _); cbn; auto.
  - apply refresh_quiet in H as ([_ _ Ha _] & _ & _ & He). rewrite Ha. split; [|done].
    intros Hal. rewrite (He Hal). split; [done|]. nothing_new.
  - split; [|intros [H1 H2]; split; [intros Hx; by rewrite (H1 Hx)|done]]. intros Hal. split; [done|]. nothing_new.
  - split; [|by intros [H1 H2]; split]. intros Hal. split; [done|]. eexists. split; [done|]. destruct (ru_alarm _); cbn; auto.
  - split; [|done]. intros Hal. split; [done|]. nothing_new.
  - split; [|done]. intros Hal. split; [done|]. nothing_new.
  - split; [|done]. intros Hal. split; [done|]. eexists. split; [done|apply quiet_exec].
  - split; [|done]. intros Hal. split; [done|]. eexists. split; [done|apply quiet_exec].
  - split; [|done]. intros Hal. split; [done|]. eexists. split; [done|apply quiet_exec].
  - assert (ru_alive s' = ru_alive (x_run x) /\ (sent = true -> ru_alive (x_run x) = true)) as [Ha Hsent].
    { unfold dispatch_write in Hd. cbn zeta in Hd.
      destruct (ru_alive (x_run x)) eqn:Hal; cbn [negb orb] in Hd.
      - split; [|done]. repeat case_match; simplify_eq; done.
      - destruct (put_error p _) in Hd. by injection Hd as <- <- <- <-. }
    rewrite Ha. split; [|done]. intros Hal. split; [done|]. eexists. split; [by rewrite <-app_assoc|].
    destruct sent; [rewrite Hsent in Hal by done; done|]. apply quiet_exec.
  - assert (ru_alive s' = ru_alive (x_run x) /\ (ru_alive (x_run x) = false -> eff = [])) as [Ha He].
    { unfold dispatch_update in Hd. destruct (stopped (pu_exec p)); [by injection Hd as <- <- <-|].
      destruct (pv_write c) as [r|]; [|by injection Hd as <- <- <-].
      destruct (sameRouteTarget _ r); [|by injection Hd as <- <- <-].
      apply bind_Some in Hd as ([[s1 e1] c1] & Hd & [= <- <- <-]).
      apply handleRawUpdate_quiet in Hd as ([_ _ Ha _] & _ & He & _). split; [done|]. intros Hal. by apply He. }
    rewrite Ha. split; [|done]. intros Hal. split; [done|]. rewrite (He Hal). nothing_new.
  - split; [|done]. intros Hal. split; [done|]. eexists. split; [done|apply quiet_exec].
  - split; [|done]. intros Hal. split; [done|]. eexists. split; [done|apply quiet_exec].
  - replace (ru_alive (dispatch_woken (x_run x) p e i).1) with (ru_alive (x_run x))
      by (unfold dispatch_woken; by destruct (ru_pending _ !! i)).
    split; [|done]. intros Hal. split; [done|]. nothing_new.
  - split; [|done]. intros Hal. split; [done|]. eexists. split; [done|apply quiet_exec].
  - split; [|done]. intros Hal. split; [done|]. eexists. split; [by rewrite <-app_assoc|]. constructor; [done|apply quiet_exec].
  - split; [|done]. intros Hal. split; [done|]. eexists. split; [done|apply quiet_exec].
Qed.

(** C13. Retirement is final: once [deactivate] has been through its critical
    section, whatever the readers, reloads and pending puts still do, nothing more is
    published on the PV, no alarm is recorded for it and no command is sent to
    the backend. *)
Theorem retired_is_silent s x x' :
  rtc rstep (RtSys_new s) x -> x_retired x = true -> rtc rstep x x' ->
  exists new, x_log x' = x_log x ++ new /\ Forall (fun e => loud e = false) new.
Proof.
  intros Hr Hx Hr'. assert (Hi : retire_inv x).
  { clear Hx Hr'. remember (RtSys_new s) as x0. assert (Hi : retire_inv x0) by (by subst).
    clear Heqx0. induction Hr as [|x0 x1 x Hs _ IH]; [done|]. apply IH. by eapply rstep_retire. }
  assert (Hal : ru_alive (x_run x) = false) by (apply Hi, Hi, Hx). clear Hr Hx Hi.
  induction Hr' as [x|x x1 x' Hs _ IH]; [nothing_new|].
  destruct (proj1 (rstep_retire _ _ Hs) Hal) as (Hal' & l1 & Hl1 & Hf1).
  destruct (IH Hal') as (l2 & Hl2 & Hf2). exists (l1 ++ l2). rewrite Hl2, Hl1, app_assoc. split; [done|].
  by apply Forall_app.
Qed.

(** ** Types *)

(** A handler keeps the structure of the PV and posts its last sample. *)
Definition publishes s s' (eff : list (effect V)) : Prop :=
  presentable (ru_pv s) -> presentable (ru_pv s') /\
  forall v, FPost v ∈ eff -> v_data v "value" = Some (FTyped (forwardTyped (ru_config s') (ru_lastRaw s'))).

Lemma publishes_nothing s s' : ru_pv s' = ru_pv s -> publishes s s' [].
Proof. intros Hp H. rewrite Hp. split; [done|]. by intros v ?%not_elem_of_nil. Qed.

Lemma recordAlarm_no_post s state v : FPost v ∉ recordAlarmLocked s state.
Proof. unfold recordAlarmLocked. destruct (ru_alarm s); [|set_solver]. destruct (_ && _); set_solver. Qed.

Lemma republish_publishes s0 s s' eff : ru_pv s = ru_pv s0 -> republish s = Some (s', eff) -> publishes s0 s' eff.
Proof.
  intros Hpv H Hp. rewrite <-Hpv in Hp. apply republish_spec in H as (v & state & -> & -> & Hd & _ & _ & Hc); [|done].
  split; [by apply (presentable_code (ru_pv s))|]. intros w [[= ->]|Hw]%elem_of_cons.
  - destruct Hd as [_ [Hd _] _ _ _]. done.
  - by apply recordAlarm_no_post in Hw.
Qed.

Lemma refresh_publishes s s' eff : refreshMetadata s = Some (s', eff) -> publishes s s' eff.
Proof.
  unfold refreshMetadata. destruct (ru_alive s); cbn [negb]; [|intros [= <- <-]; by apply publishes_nothing].
  intros H Hp. apply bind_Some in H as ([w state] & H & [= <- <-]).
  assert (Hpu : presentable (v_unmark (pv_fetch (ru_pv s)))).
  { apply (presentable_code (ru_pv s)); [|done]. intros q. by rewrite v_code_unmark, pv_code_fetch. }
  pose proof (populateValue_spec _ _ _ _ _ Hpu H) as [_ [Hd _] _ _ _]. cbn. split.
  - apply (presentable_code (ru_pv s)); [|done]. intros q. apply pv_code_post.
  - intros v [[= ->]|Hv]%elem_of_cons; [|by apply recordAlarm_no_post in Hv].
    rewrite v_data_unmark_at. destruct (samePresentedPayload _ _); [by rewrite v_data_unmark_at|done].
Qed.

Lemma acceptEpoch_pv s read epoch reader s1 accepted :
  acceptEpochLocked s read epoch reader = (s1, accepted) -> ru_pv s1 = ru_pv s.
Proof.
  intros (_ & _ & sample & [->| ->])%acceptEpoch_spec; [done|]. apply set_sample_frame.
Qed.

Lemma handleRawUpdate_publishes s raw time uv cc id m reader now s' eff continue :
  handleRawUpdate compareStreamIds s raw time uv cc id m reader now = Some (s', eff, continue) -> publishes s s' eff.
Proof.
  unfold handleRawUpdate. destruct (ru_alive s); cbn [negb]; [|intros [= <- <- <-]; by apply publishes_nothing].
  set (epoch := match m with Some m => bm_epoch m | None => 0 end).
  destruct (if epoch =? 0 then _ else _) as [s1 accepted] eqn:E.
  assert (P1 : ru_pv s1 = ru_pv s).
  { destruct (epoch =? 0); [by injection E as <- <-|by eapply acceptEpoch_pv]. }
  destruct accepted; cbn [negb]; [|intros [= <- <- <-]; by apply publishes_nothing].
  remember (match m with Some m' => _ | None => s1 end) as s2 eqn:E2.
  assert (P2 : ru_pv s2 = ru_pv s).
  { subst s2. destruct m as [m|]; [|done]. destruct (epoch =? 0); [done|]. rewrite <-P1. apply set_sample_frame. }
  clear E2. set (s3 := if cc then _ else s2). assert (P3 : ru_pv s3 = ru_pv s) by (subst s3; by destruct cc).
  clearbody s3. destruct uv; cbn [negb]; [|intros [= <- <- <-]; by apply publishes_nothing].
  intros H. apply bind_Some in H as ([s4 eff4] & H & [= <- <- <-]). eapply republish_publishes, H.
  destruct m; [|done]. by destruct (epoch =? 0).
Qed.

Lemma markInvalid_publishes s error uv epoch reader s' eff continue :
  markInvalid s error uv epoch reader = Some (s', eff, continue) -> publishes s s' eff.
Proof.
  unfold markInvalid. destruct (acceptEpochLocked s uv epoch reader) as [s1 accepted] eqn:E.
  apply acceptEpoch_pv in E. destruct accepted; cbn [negb]; [|intros [= <- <- <-]; by apply publishes_nothing].
  match goal with |- context [set_sample s1 uv ?z] => pose proof (set_sample_frame s1 uv z) as (P2 & _);
    set (s2 := set_sample s1 uv z) in * end.
  clearbody s2. destruct uv; cbn [negb]; [|intros [= <- <- <-]; apply publishes_nothing; congruence].
  intros H. apply bind_Some in H as ([s3 eff3] & H & [= <- <- <-]). eapply republish_publishes, H. cbn. congruence.
Qed.

Lemma handleEntry_publishes s entry uv cc m reader now s' eff continue :
  handleEntry decode RA_Time compareStreamIds s entry uv cc m reader now = Some (s', eff, continue) ->
  publishes s s' eff.
Proof.
  unfold handleEntry. destruct (ru_alive s); cbn [negb]; [|intros [= <- <- <-]; by apply publishes_nothing].
  destruct (decode entry.2), (RA_Time entry.1); eauto using handleRawUpdate_publishes, markInvalid_publishes.
Qed.

Lemma publishes_frame s s1 s2 eff :
  publishes s s1 eff -> ru_pv s2 = ru_pv s1 -> ru_config s2 = ru_config s1 -> ru_lastRaw s2 = ru_lastRaw s1 ->
  publishes s s2 eff.
Proof. intros H P C R Hp. rewrite P, C, R. by apply H. Qed.

Lemma sourceHealth_publishes s name rp cp r1 r2 now s' eff sources :
  sourceHealth s name rp cp r1 r2 now = Some (s', eff, sources) -> publishes s s' eff.
Proof.
  unfold sourceHealth. cbn zeta. destruct (assessSource _ _ _ _ _ _ _ _ _) as [sample read].
  intros H. apply bind_Some in H as ([s1 eff1] & H1 & H).
  assert (Hp : publishes s s1 eff1).
  { destruct (_ && _); [|injection H1 as <- <-; by apply publishes_nothing].
    destruct (negb _); [by eapply republish_publishes, H1|injection H1 as <- <-; by apply publishes_nothing]. }
  destruct (pv_confirm (ru_config s)) as [c|]; [|by injection H as <- <- <-].
  destruct (readConfirms _); [by injection H as <- <- <-|].
  destruct (assessSource _ _ _ _ _ _ _ _ _) as [sample' confirm]. injection H as <- <- <-.
  by eapply publishes_frame.
Qed.

Lemma post_in_rt v (eff : list (effect V)) : ERt (FPost v) ∈ ERt <$> eff -> FPost v ∈ eff.
Proof. intros (e & [= <-] & H)%list_elem_of_fmap. done. Qed.

Lemma post_in_exec v pid (eff : list exec_effect) (P : Prop) :
  ERt (FPost v) ∈ ((EExec pid <$> eff) : list (event V)) -> P.
Proof. by intros (e & ? & _)%list_elem_of_fmap. Qed.

Lemma dispatch_write_frame s p epoch current raw watch now re au res s' p' eff sent :
  dispatch_write s p epoch current raw watch now re au res = (s', p', eff, sent) ->
  ru_config s' = ru_config s /\ ru_pv s' = ru_pv s /\ ru_lastRaw s' = ru_lastRaw s.
Proof. unfold dispatch_write, put_leave. cbn zeta. intros Hd. repeat case_match; simplify_eq; done. Qed.

Lemma commit_publishes s u : publishes s (commit s u).1 [].
Proof. apply publishes_nothing. unfold commit. by destruct (sameTransform _ _). Qed.

Lemma commit_no_post s u v : FPost v ∉ (commit s u).2.
Proof.
  unfold commit. destruct (sameTransform _ _); cbn; (destruct (bool_decide _); [set_solver|]);
    destruct (ru_alarm _); set_solver.
Qed.

(** ** Where shown values come from *)

Lemma handleRawUpdate_raw s raw time uv cc id m reader now s' eff continue :
  handleRawUpdate compareStreamIds s raw time uv cc id m reader now = Some (s', eff, continue) ->
  ru_lastRaw s' = ru_lastRaw s \/ uv = true /\ ru_lastRaw s' = raw.
Proof.
  intros H. destruct uv; [apply handleRawUpdate_quiet in H as (_ & [?|?] & _); [by left|by right]|]. left. revert H.
  unfold handleRawUpdate. destruct (ru_alive s); cbn [negb]; [|by intros [= <- <- <-]].
  set (epoch := match m with Some m => bm_epoch m | None => 0 end).
  destruct (if epoch =? 0 then _ else _) as [s1 accepted] eqn:E.
  assert (P1 : ru_lastRaw s1 = ru_lastRaw s).
  { destruct (epoch =? 0); [by injection E as <- <-|]. by apply acceptEpoch_quiet in E as (_ & _ & ?). }
  destruct accepted; cbn [negb]; [|by intros [= <- <- <-]].
  remember (match m with Some m' => _ | None => s1 end) as s2 eqn:E2.
  assert (P2 : ru_lastRaw s2 = ru_lastRaw s).
  { subst s2. destruct m as [m|]; [|done]. destruct (epoch =? 0); [done|]. rewrite <-P1. apply set_sample_frame. }
  clear E2. destruct cc; by intros [= <- <- <-].
Qed.

(** The last sample changes only by an entry of the stream the PV shows. *)
Lemma handleEntry_raw s entry uv cc m reader now s' eff continue :
  handleEntry decode RA_Time compareStreamIds s entry uv cc m reader now = Some (s', eff, continue) ->
  ru_lastRaw s' = ru_lastRaw s \/ uv = true /\ decode entry.2 = Some (ru_lastRaw s') /\ is_Some (RA_Time entry.1).
Proof.
  unfold handleEntry. destruct (ru_alive s); cbn [negb]; [|intros [= <- <- <-]; by left].
  destruct (decode entry.2) as [raw|] eqn:Ed, (RA_Time entry.1) as [time|] eqn:Et;
    try (intros (_ & ? & _)%markInvalid_quiet; by left).
  intros [?|[-> ->]]%handleRawUpdate_raw; [by left|right]. by split_and!.
Qed.

(** The configuration in force after the events of a log. *)
Definition in_force (config : PVConfig) (log : list (event V)) : PVConfig :=
  fold_left (fun c e => match e with ECommit c' => c' | _ => c end) log config.

(** Where a raw value comes from: the configured initial value, when the stream
    had nothing readable at the start; the entry the stream held then; an entry
    of the stream the PV shows, with a readable time; or the accepted write of
    a put of a PV that does not confirm. *)
Definition origin (config : PVConfig) (snapshot : StreamSnapshot) (log : list (event V)) (raw : TypedValue) : Prop :=
  (decodeSnapshot decode RA_Time snapshot = None /\ initialOr config = Some raw) \/
  (exists time, decodeSnapshot decode RA_Time snapshot = Some (raw, time)) \/
  (exists entry, EReceive entry true ∈ log /\ decode entry.2 = Some raw /\ is_Some (RA_Time entry.1)) \/
  (exists pid c, EWrite pid raw c None true ∈ log).

Lemma origin_app config snapshot log new raw : origin config snapshot log raw -> origin config snapshot (log ++ new) raw.
Proof.
  intros [?|[?|[(e & He & ?)|(pid & c & Hw)]]]; [by left|by right; left|right; right; left|right; right; right].
  - exists e. rewrite elem_of_app. by split; [left|].
  - exists pid, c. rewrite elem_of_app. by left.
Qed.

Lemma in_force_app config log new : in_force config (log ++ new) = in_force (in_force config log) new.
Proof. apply fold_left_app. Qed.

(** Events that leave the configuration alone. *)
Definition no_commit (new : list (event V)) : Prop := forall config, in_force config new = config.

Lemma no_commit_rt (eff : list (effect V)) : no_commit (ERt <$> eff).
Proof. intros config. induction eff; done. Qed.
Lemma no_commit_exec pid (eff : list exec_effect) : no_commit (EExec pid <$> eff).
Proof. intros config. induction eff; done. Qed.
Lemma no_commit_app l1 l2 : no_commit l1 -> no_commit l2 -> no_commit (l1 ++ l2).
Proof. intros H1 H2 config. by rewrite in_force_app, H1, H2. Qed.
Lemma no_commit_observes cc continue entry m : no_commit (observes (V:=V) decode RA_Time cc continue entry m).
Proof. intros config. unfold observes. by repeat case_match. Qed.

Section Traced.
Context (config0 : PVConfig) (snapshot0 : StreamSnapshot).

(** A post in the log shows, under the configuration in force then, a value
    with an origin before it. *)
Definition traced_post (before : list (event V)) (v : V) : Prop :=
  exists raw, v_data v "value" = Some (FTyped (forwardTyped (in_force config0 before) raw)) /\ origin config0 snapshot0 before raw.

Fixpoint traced (before log : list (event V)) : Prop :=
  match log with
  | [] => True
  | e :: log => match e with ERt (FPost v) => traced_post before v | _ => True end /\ traced (before ++ [e]) log
  end.

Lemma traced_app before l1 l2 : traced before (l1 ++ l2) <-> traced before l1 /\ traced (before ++ l1) l2.
Proof.
  revert before. induction l1 as [|e l1 IH]; intros before; cbn; [rewrite app_nil_r; tauto|].
  rewrite IH, <-app_assoc. cbn. tauto.
Qed.

Lemma traced_mute before new : (forall v, ERt (FPost v) ∉ new) -> traced before new.
Proof.
  revert before. induction new as [|e new IH]; intros before Hn; [done|]. cbn. split; [|apply IH; set_solver].
  destruct e as [[v| | |]| | | | | |]; try done. destruct (Hn v). left.
Qed.

Lemma traced_shown before config raw (eff : list (effect V)) :
  in_force config0 before = config -> origin config0 snapshot0 before raw ->
  (forall v, FPost v ∈ eff -> v_data v "value" = Some (FTyped (forwardTyped config raw))) -> traced before (ERt <$> eff).
Proof.
  revert before. induction eff as [|e eff IH]; intros before Hc Ho Hv; [done|]. cbn. split.
  - destruct e as [v| | |]; try done. exists raw. rewrite Hc. split; [apply Hv; left|done].
  - apply IH; [by rewrite in_force_app, Hc|by apply origin_app|]. intros v Hin. apply Hv. by right.
Qed.

Record trace_inv x : Prop := {
  tr_config : in_force config0 (x_log x) = ru_config (x_run x);
  tr_present : presentable (ru_pv (x_run x));
  tr_raw : origin config0 snapshot0 (x_log x) (ru_lastRaw (x_run x));
  tr_posts : traced [] (x_log x);
}.

Definition mute (new : list (event V)) : Prop := no_commit new /\ forall v, ERt (FPost v) ∉ new.

(** A step that logs [head], publishes and logs [tail]. *)
Lemma trace_step x x' head eff tail :
  trace_inv x -> publishes (x_run x) (x_run x') eff -> ru_config (x_run x') = ru_config (x_run x) ->
  x_log x' = x_log x ++ head ++ (ERt <$> eff) ++ tail -> mute head -> mute tail ->
  origin config0 snapshot0 (x_log x ++ head) (ru_lastRaw (x_run x')) -> trace_inv x'.
Proof.
  intros [Hc Hp _ Hv] Hpub Hk Hlog [Nh Ph] [Nt Pt] Ho. destruct (Hpub Hp) as [Hp' Hd].
  split; [|done|rewrite Hlog, app_assoc; by apply origin_app|].
  - rewrite Hlog, in_force_app, (no_commit_app head) by auto using no_commit_app, no_commit_rt. congruence.
  - rewrite Hlog. rewrite !traced_app. split_and!; [done|by apply traced_mute| |by apply traced_mute].
    apply (traced_shown _ (ru_config (x_run x')) (ru_lastRaw (x_run x'))); [|done|done].
    rewrite app_nil_l, in_force_app, Nh, Hc. done.
Qed.

Lemma mute_nil : mute [].
Proof. split; [done|]. intros v. apply not_elem_of_nil. Qed.

(** A step that shows nothing. *)
Lemma trace_stay x x' new :
  trace_inv x -> ru_pv (x_run x') = ru_pv (x_run x) -> ru_config (x_run x') = ru_config (x_run x) ->
  ru_lastRaw (x_run x') = ru_lastRaw (x_run x) -> x_log x' = x_log x ++ new -> mute new -> trace_inv x'.
Proof.
  intros Hi Hp Hc Hr Hl Hm. apply (trace_step x x' new [] []); [done|by apply publishes_nothing|done|by rewrite app_nil_r|done|apply mute_nil|].
  rewrite Hr. apply origin_app, Hi.
Qed.

Lemma mute_exec pid (eff : list exec_effect) : mute (EExec pid <$> eff).
Proof. split; [apply no_commit_exec|]. intros v Hv. by eapply post_in_exec. Qed.
Lemma mute_app l1 l2 : mute l1 -> mute l2 -> mute (l1 ++ l2).
Proof. intros [? H1] [? H2]. split; [by apply no_commit_app|]. intros v [?|?]%elem_of_app; [by eapply H1|by eapply H2]. Qed.
Lemma mute_rt (eff : list (effect V)) : (forall v, FPost v ∉ eff) -> mute (ERt <$> eff).
Proof. intros H. split; [apply no_commit_rt|]. intros v Hv%post_in_rt. by eapply H. Qed.
Lemma mute_observes cc continue entry m : mute (observes (V:=V) decode RA_Time cc continue entry m).
Proof. split; [apply no_commit_observes|]. intros v. unfold observes. repeat case_match; set_solver. Qed.
Lemma mute_one e : match e with ERt (FPost _) | ECommit _ => False | _ => True end -> mute [e].
Proof. intros H. split; [intros c; by destruct e|]. intros v Hv%list_elem_of_singleton. by subst e. Qed.

Lemma echoed x pid p c raw t :
  sys_inv compareStreamIds x -> at_stage x pid p (SWritten c raw t) -> exists config, EWrite pid raw config None true ∈ x_log x.
Proof.
  intros Hi [Hp Hst]. pose proof (po_stage _ _ _ _ _ (si_puts _ _ Hi _ _ Hp)) as Hw. unfold stage_ok in Hw.
  rewrite Hst in Hw. destruct Hw as (l1 & config & l2 & Hlog & _). exists config. rewrite Hlog. apply elem_of_app. right. left.
Qed.

Lemma commit_traced x u :
  trace_inv x -> trace_inv (logged (x <| x_run := (commit (x_run x) u).1 |>) (ECommit (up_config u) :: (ERt <$> (commit (x_run x) u).2))).
Proof.
  intros [Hc Hp Ho Hv]. assert (Hm : mute (ERt <$> (commit (x_run x) u).2)) by (apply mute_rt; intros v; apply commit_no_post).
  assert (Hf : ru_config (commit (x_run x) u).1 = up_config u /\ ru_pv (commit (x_run x) u).1 = ru_pv (x_run x) /\
    ru_lastRaw (commit (x_run x) u).1 = ru_lastRaw (x_run x)) by (unfold commit; by destruct (sameTransform _ _)).
  destruct Hf as (Fc & Fp & Fr). split; cbn -[traced in_force origin commit].
  - rewrite in_force_app, Fc. exact (proj1 Hm (up_config u)).
  - by rewrite Fp.
  - rewrite Fr. by apply origin_app.
  - rewrite traced_app. split; [done|]. cbn. split; [done|]. by apply traced_mute, Hm.
Qed.

Lemma rstep_traced x x' : sys_inv compareStreamIds x -> rstep x x' -> trace_inv x -> trace_inv x'.
Proof.
  intros Hi Hs Ht. pose proof (tr_raw _ Ht) as Ho.
  destruct Hs as [entry uv cc m reader now s' eff continue H|n p1 p2 r1 r2 now s' eff ss H| |c g r u H|u Hu Hb|s' eff H| |
    reason Hri _ Hre Hb|_|pid l cm now ct pr p Hp H|pid p e H|pid p e c raw re H|pid p e c raw se sn H|
    pid p e c raw w now re au res s' p' eff sent H Hb Hd|pid p c raw t rd now s' p' eff H Hd|pid p now H|pid p e i H|
    pid p e i H|pid p err cf now H|pid p msg Hp|pid p Hp].
  - pose proof (handleEntry_publishes _ _ _ _ _ _ _ _ _ _ H) as Hpub. pose proof (handleEntry_raw _ _ _ _ _ _ _ _ _ _ H) as Hr.
    apply handleEntry_quiet in H as ([Hc _ _ _] & _). apply (trace_step x _ [EReceive entry uv] eff (observes decode RA_Time cc continue entry m));
      [done|done|done|done|by apply mute_one|apply mute_observes|].
    destruct Hr as [Hr|(-> & Hd & Hti)]; [cbn; rewrite Hr; by apply origin_app|].
    right; right; left. exists entry. split; [|done]. rewrite elem_of_app. right. left.
  - pose proof (sourceHealth_publishes _ _ _ _ _ _ _ _ _ _ H) as Hpub. apply sourceHealth_quiet in H as ([Hc _ _ _] & Hr & _).
    apply (trace_step x _ [] eff []); [done|done|done|by rewrite app_nil_r|apply mute_nil|apply mute_nil|]. cbn. rewrite app_nil_r. by rewrite Hr.
  - eapply trace_stay; [done..|]. apply mute_rt. intros v. cbn. destruct (ru_alarm _); set_solver.
  - apply (trace_stay x _ []); cbn; rewrite ?app_nil_r; try done. apply mute_nil.
  - by apply commit_traced.
  - pose proof (refresh_publishes _ _ _ H) as Hpub. apply refresh_quiet in H as ([Hc _ _ _] & Hr & _).
    apply (trace_step x _ [] eff []); [done|done|done|by rewrite app_nil_r|apply mute_nil|apply mute_nil|]. cbn. rewrite app_nil_r. by rewrite Hr.
  - apply (trace_stay x _ []); cbn; rewrite ?app_nil_r; try done. apply mute_nil.
  - eapply trace_stay; [done..|]. apply mute_rt. intros v. cbn. destruct (ru_alarm _); set_solver.
  - apply (trace_stay x _ []); cbn; rewrite ?app_nil_r; try done. apply mute_nil.
  - apply (trace_stay x _ []); cbn; rewrite ?app_nil_r; try done. apply mute_nil.
  - eapply trace_stay; [done..|apply mute_exec].
  - eapply trace_stay; [done..|apply mute_exec].
  - eapply trace_stay; [done..|apply mute_exec].
  - apply dispatch_write_frame in Hd as (Hc & Hpv & Hr).
    eapply trace_stay; [exact Ht|exact Hpv|exact Hc|exact Hr|cbn; by rewrite <-app_assoc|].
    apply mute_app; [|apply mute_exec]. destruct sent; [by apply mute_one|apply mute_nil].
  - destruct (echoed _ _ _ _ _ _ Hi H) as [config Hw]. unfold dispatch_update in Hd.
    assert (Hupd : s' = x_run x /\ eff = [] \/ exists continue,
      handleRawUpdate compareStreamIds (x_run x) raw (u64 t) true false "" None rd now = Some (s', eff, continue)).
    { destruct (stopped _); [injection Hd as <- <- <-; by left|].
      destruct (pv_write c); [|injection Hd as <- <- <-; by left].
      destruct (sameRouteTarget _ _); [|injection Hd as <- <- <-; by left].
      apply bind_Some in Hd as ([[s1 e1] c1] & Hd & [= <- <- <-]). right. by exists c1. }
    destruct Hupd as [[-> ->]|[continue Hu]]; [apply (trace_stay x _ []); cbn; rewrite ?app_nil_r; try done; apply mute_nil|].
    pose proof (handleRawUpdate_publishes _ _ _ _ _ _ _ _ _ _ _ _ Hu) as Hpub. apply handleRawUpdate_quiet in Hu as ([Hc _ _ _] & Hr & _).
    apply (trace_step x _ [] eff []); [done|done|done|cbn; by rewrite !app_nil_r|apply mute_nil|apply mute_nil|]. cbn. rewrite app_nil_r.
    destruct Hr as [->| ->]; [done|]. right; right; right. by exists pid, config.
  - eapply trace_stay; [done..|apply mute_exec].
  - eapply trace_stay; [done..|apply mute_exec].
  - unfold dispatch_woken. destruct (ru_pending _ !! i); (eapply trace_stay; [done..|apply (mute_exec pid [])]).
  - eapply trace_stay; [done..|apply mute_exec].
  - eapply trace_stay; [exact Ht|done|done|done|cbn; by rewrite <-app_assoc|]. apply (mute_app [_]); [by apply mute_one|apply mute_exec].
  - eapply trace_stay; [done..|apply mute_exec].
Qed.
End Traced.

Lemma initialize_traced config generation ntscalar snapshot confirmation registration clock now s state :
  (forall code a b c d, presentable (ntscalar code a b c d)) ->
  initialize decode RA_Time config generation ntscalar snapshot confirmation registration clock now = Some (s, state) ->
  counters_ok s /\ trace_inv config snapshot (RtSys_new s) /\ v_data (ru_pv s) "value" = Some (FTyped (forwardTyped config (ru_lastRaw s))).
Proof.
  intros Hn H. unfold initialize in H. apply bind_Some in H as (zero & Hz & H). cbn zeta in H. apply bind_Some in H as (initial & Hin & H).
  apply bind_Some in H as ([v st] & Hp & H).
  assert (Hi : presentable initial).
  { unfold createInitialValue in Hin. cbn zeta in Hin. apply bind_Some in Hin as (v1 & F1%metadata_frame & Hin).
    apply bind_Some in Hin as (v2 & F2 & [= <-]).
    assert (P1 : presentable v1) by (eapply presentable_code; [apply F1|apply Hn]).
    apply alarm_fields_frame in F2 as [F2 _]; [|done]. assert (P2 : presentable v2) by (eapply presentable_code; [apply F2|done]).
    unfold applyTimestamp. eapply presentable_code; [|exact P2]. intros p. repeat case_match; by rewrite !v_code_assign. }
  apply populateValue_spec in Hp as [Hcode [Hv _] _ _ _]; [|done]. cbn in Hv.
  assert (Ho : origin config snapshot [] (match decodeSnapshot decode RA_Time snapshot with Some (raw, _) => raw | None => zero end)).
  { destruct (decodeSnapshot _ _ snapshot) as [[raw time]|] eqn:E; [right; left; by exists time|left; by split]. }
  assert (Hpv : presentable v) by (by apply (presentable_code initial)).
  destruct (_ && _); injection H as <- <-; cbn; (split_and!; [done| |done]); by split.
Qed.

(** C12. Everything a PV shows can be traced: whatever readers, reloads,
    health polls and puts do in whatever order, the value a runtime first
    serves and every value it posts later is the forward transform, under the
    configuration in force at that moment, of a raw value that the PV has: its
    configured initial value, and only if the stream held nothing readable at
    the start, the entry the stream held then, an entry of the stream the PV
    shows that was delivered before and has a readable time, or the value of an accepted write
    of one of its puts.  A sample of a separate confirmation stream is never shown. *)
Theorem shown_values_traced config generation ntscalar snapshot confirmation registration clock now s state x :
  (forall code a b c d, presentable (ntscalar code a b c d)) ->
  initialize decode RA_Time config generation ntscalar snapshot confirmation registration clock now = Some (s, state) ->
  rtc rstep (RtSys_new s) x ->
  traced_post config snapshot [] (ru_pv s) /\
  (forall before v after, x_log x = before ++ ERt (FPost v) :: after -> traced_post config snapshot before v).
Proof.
  intros Hn H Hr. apply initialize_traced in H as (Hc & Ht & Hv); [|done]. split.
  { exists (ru_lastRaw s). split; [exact Hv|apply Ht]. }
  assert (Hx : trace_inv config snapshot x).
  { revert x Hr. refine (rtc_ind_r _ _ _ _); [done|]. intros x x' Hr Hs IH. eapply rstep_traced; [|done|done]. by eapply rreach_inv. }
  intros before v after Heq. pose proof (tr_posts _ _ _ Hx) as Hp. rewrite Heq, traced_app in Hp. apply Hp.
Qed.

End Promises.

(** ** A confirmed write *)

Module PutDemo.
Import RuntimeDemo.

Definition limits : OperationLimitsConfig := OperationLimitsConfig_default.
Definition submitted : Put :=
  {| pu_exec := QueuedExec_create; pu_deadline := put_deadline limits 1000 1; pu_present := Ret (dbl 42);
     pu_stage := SQueued 0 |}.
Definition put_of (x : RtSys MapValue.t) : Put := default submitted (x_puts x !! 1).

Definition demo_step : RtSys MapValue.t -> RtSys MapValue.t -> Prop := rstep demo_decode demo_time demo_compare.
Definition half : TypedValue := inverseTyped demo_config (dbl 42).

Definition d0 : RtSys MapValue.t := RtSys_new started.
Definition d1 := d0 <| x_puts ::= fun puts => <[1 := submitted]> puts |>.
Definition d2 := on_put d1 1 (dispatch_begin (x_run d1) (put_of d1) 0).
Definition d3 := on_put d2 1 (dispatch_watch (put_of d2) 0 demo_config half 1).
Definition d4 := on_put d3 1 (dispatch_snapshot (put_of d3) 0 demo_config half 1 demo_snapshot).
Definition sent4 := dispatch_write (x_run d4) (put_of d4) 0 demo_config half (Some ("100-0", 1)) 2 1 true (WroteAt 5).
Definition d5 :=
  on_put (logged (d4 <| x_run := sent4.1.1.1 |>)
    (if sent4.2 then [EWrite 1 half (ru_config (x_run d4)) (Some ("100-0", 1)) (accepted_write (WroteAt 5))] else []))
    1 (sent4.1.1.2, sent4.1.2).
Definition d6 := on_put d5 1 (dispatch_wake (put_of d5) 0 1).
Definition seen6 :=
  handleEntry demo_decode demo_time demo_compare (x_run d6) ("200-0", {[ "_" := "21" ]}) true true meta demo_reader 3.
Definition d7 :=
  match seen6 with
  | Some (s', eff, continue) =>
      logged (d6 <| x_run := s' |>)
        (EReceive ("200-0", {[ "_" := "21" ]}) true ::
           (ERt <$> eff) ++ observes demo_decode demo_time true continue ("200-0", {[ "_" := "21" ]}) meta)
  | None => d6
  end.
Definition d8 :=
  on_put (d7 <| x_run := (dispatch_woken (x_run d7) (put_of d7) 0 1).1 |>) 1
    ((dispatch_woken (x_run d7) (put_of d7) 0 1).2, []).
Definition d9 := on_put d8 1 (dispatch_answer (put_of d8) None true 4).

Example put_answered : exec_log 1 (x_log d9) = [XNotify; XReply].
Proof. vm_compute. reflexivity. Qed.

Ltac at_demo := split; vm_compute; reflexivity.

Lemma d4_reach : rtc demo_step d0 d4.
Proof.
  eapply rtc_l with d1; [refine (R_submit _ _ _ d0 1 limits 1000 1 (Ret 8) (Ret (dbl 42)) submitted _ _); vm_compute; reflexivity|].
  eapply rtc_l with d2; [refine (R_begin _ _ _ d1 1 (put_of d1) 0 _); at_demo|].
  eapply rtc_l with d3; [refine (R_watch _ _ _ d2 1 (put_of d2) 0 demo_config half 1 _); at_demo|].
  eapply rtc_l with d4; [refine (R_snapshot _ _ _ d3 1 (put_of d3) 0 demo_config half 1 demo_snapshot _); at_demo|]. apply rtc_refl.
Qed.

Lemma d5_step : demo_step d4 d5.
Proof.
  eapply (R_write _ _ _ d4 1 (put_of d4) 0 demo_config half (Some ("100-0", 1)) 2 1 true (WroteAt 5)).
  - at_demo.
  - vm_compute. reflexivity.
  - fold sent4. by destruct sent4 as [[[? ?] ?] ?].
Qed.

Lemma seen6_used : match seen6 with Some _ => True | None => False end.
Proof. vm_compute. exact I. Qed.

Lemma d7_step : demo_step d6 d7.
Proof.
  pose proof seen6_used as Hs. unfold d7. destruct seen6 as [[[s' eff] continue]|] eqn:E; [|destruct Hs].
  by apply (R_entry _ _ _ d6 _ true true meta demo_reader 3).
Qed.

Lemma d9_reach : rtc demo_step d0 d9.
Proof.
  etrans; [exact d4_reach|]. eapply rtc_l; [exact d5_step|].
  eapply rtc_l with d6; [refine (R_wake _ _ _ d5 1 (put_of d5) 0 1 _); at_demo|]. eapply rtc_l; [exact d7_step|].
  eapply rtc_l with d8; [refine (R_woken _ _ _ d7 1 (put_of d7) 0 1 _); at_demo|]. eapply rtc_l with d9; [refine (R_answer _ _ _ d8 1 (put_of d8) None true 4 _); at_demo|]. apply rtc_refl.
Qed.

Lemma d0_counters : counters_ok started.
Proof. split; vm_compute; discriminate. Qed.

(** The reply came after sample 200-0 carried the value written. *)
Definition report_of (e : event MapValue.t) : option (Z * string) := match e with EReport pid message => Some (pid, message) | _ => None end.

Lemma reported_in (log : list (event MapValue.t)) pid message : EReport pid message ∈ log -> (pid, message) ∈ omap report_of log.
Proof. intros H. apply list_elem_of_omap. by exists (EReport pid message). Qed.

Lemma put_success_is_real_witness : success demo_compare 1 (x_log d9).
Proof.
  destruct (put_success_is_real demo_decode demo_time demo_compare started d9 1 d0_counters d9_reach) as [[H|H] _].
  - rewrite put_answered. right. left.
  - exact H.
  - exfalso. assert (Hn : omap report_of (x_log d9) = []) by (vm_compute; reflexivity).
    assert (Hin : (1, "") ∈ omap report_of (x_log d9)) by (exact (reported_in _ _ _ H)).
    rewrite Hn in Hin. by apply not_elem_of_nil in Hin.
Defined.

(** A failure that is reported without a text reads as success: nothing was
    written for this put. *)
Definition blank1 := on_put (logged d1 [EReport 1 ""]) 1
  ((put_of d1) <| pu_exec := (error (pu_exec (put_of d1)) "").1 |>, (error (pu_exec (put_of d1)) "").2).

Example blank_report_step : demo_step d1 blank1.
Proof. refine (R_fail _ _ _ d1 1 (put_of d1) "" _). vm_compute. reflexivity. Qed.

Example blank_report_answered : exec_log 1 (x_log blank1) = [XReply] /\ writes 1 (x_log blank1) = [].
Proof. vm_compute. done. Qed.

Definition sent_of (e : event MapValue.t) : option (Z * TypedValue * PVConfig * option (string * Z) * bool) :=
  match e with EWrite pid raw config watch accepted => Some (pid, raw, config, watch, accepted) | _ => None end.

Lemma sent_in (log : list (event MapValue.t)) pid raw config watch accepted :
  (pid, raw, config, watch, accepted) ∈ omap sent_of log -> EWrite pid raw config watch accepted ∈ log.
Proof. intros ([] & Hin & He)%list_elem_of_omap; try discriminate. by injection He as -> -> -> -> ->. Qed.

Lemma d9_wrote : EWrite 1 half demo_config (Some ("100-0", 1)) true ∈ x_log d9.
Proof.
  assert (H : omap sent_of (x_log d9) = [(1, half, demo_config, Some ("100-0", 1), true)]) by (vm_compute; reflexivity).
  assert (Hin : (1, half, demo_config, Some ("100-0", 1), true) ∈ omap sent_of (x_log d9)) by (rewrite H; left).
  exact (sent_in _ _ _ _ _ _ Hin).
Qed.

Lemma write_matches_configuration_witness : writes 1 (x_log d9) = [half].
Proof.
  exact (proj1 (write_matches_configuration demo_decode demo_time demo_compare started d9 1 half demo_config
    (Some ("100-0", 1)) true d0_counters d9_reach d9_wrote)).
Defined.

(** The PV is retired; its reader delivers one more entry. *)
Definition d10 := d9 <| x_run := (deactivate_flag (x_run d9)).1 |>
                     <| x_retiring := x_retiring d9 || (deactivate_flag (x_run d9)).2 |>.
Definition d11 :=
  logged (d10 <| x_run := (deactivate_locked (x_run d10) "runtime destroyed").1 |> <| x_retired := true |>)
    (ERt <$> (deactivate_locked (x_run d10) "runtime destroyed").2).
Definition d12 := logged (d11 <| x_run := x_run d11 |>) [EReceive ("300-0", {[ "_" := "80" ]}) true].

Lemma d11_reach : rtc demo_step d0 d11.
Proof.
  etrans; [exact d9_reach|]. eapply rtc_l with d10; [exact (R_flag _ _ _ d9)|].
  eapply rtc_l with d11; [|apply rtc_refl].
  refine (R_locked _ _ _ d10 "runtime destroyed" _ _ _ _); [vm_compute; reflexivity..|discriminate|vm_compute; reflexivity].
Qed.

Lemma d12_step : demo_step d11 d12.
Proof.
  eapply (R_entry _ _ _ d11 ("300-0", {[ "_" := "80" ]}) true true meta demo_reader 6 (x_run d11) [] false).
  assert (Ha : ru_alive (x_run d11) = false) by (vm_compute; reflexivity). unfold handleEntry. by rewrite Ha.
Qed.

Lemma retired_is_silent_witness :
  exists new, x_log d12 = x_log d11 ++ new /\ Forall (fun e => loud e = false) new.
Proof.
  apply (retired_is_silent demo_decode demo_time demo_compare started d11 d12 d11_reach).
  - vm_compute. reflexivity.
  - eapply rtc_l; [exact d12_step|apply rtc_refl].
Defined.

(** The runtime starts from its snapshot, is activated and gets an entry. *)
Definition first_run : TypedRuntime MapValue.t := match demo_runtime with Some s => s | None => started end.
Definition t0 : RtSys MapValue.t := RtSys_new first_run.
Definition t1 := logged (t0 <| x_run := (runtime_activate (x_run t0)).1 |>) (ERt <$> (runtime_activate (x_run t0)).2).
Definition seen1 :=
  handleEntry demo_decode demo_time demo_compare (x_run t1) ("200-0", {[ "_" := "21" ]}) true true meta demo_reader 3.
Definition t2 :=
  match seen1 with
  | Some (s', eff, continue) =>
      logged (t1 <| x_run := s' |>)
        (EReceive ("200-0", {[ "_" := "21" ]}) true ::
           (ERt <$> eff) ++ observes demo_decode demo_time true continue ("200-0", {[ "_" := "21" ]}) meta)
  | None => t1
  end.

Lemma double_scalar_presentable : presentable double_scalar.
Proof.
  split; [apply (bool_decide_unpack _); vm_compute; exact I|]. intros p _ H. exfalso. apply H. vm_compute. reflexivity.
Qed.

Lemma t2_reach : rtc demo_step t0 t2.
Proof.
  eapply rtc_l with t1; [exact (R_activate _ _ _ t0)|]. eapply rtc_l; [|apply rtc_refl].
  assert (Hs : match seen1 with Some _ => True | None => False end) by (vm_compute; exact I).
  unfold t2. destruct seen1 as [[[s' eff] continue]|] eqn:E; [|destruct Hs].
  by apply (R_entry _ _ _ t1 _ true true meta demo_reader 3).
Qed.

Definition is_post (e : event MapValue.t) : bool := match e with ERt (FPost _) => true | _ => false end.

Lemma shown_values_traced_witness :
  existsb is_post (x_log t2) = true /\
  forall before v after, x_log t2 = before ++ ERt (FPost v) :: after ->
    traced_post demo_decode demo_time demo_config demo_snapshot before v.
Proof.
  split; [vm_compute; reflexivity|].
  assert (Hs : match demo_runtime with Some _ => True | None => False end) by (vm_compute; exact I).
  assert (Hi : exists state, initialize demo_decode demo_time demo_config 1 (fun _ _ _ _ _ => double_scalar) demo_snapshot no_snapshot
    (Some 5) None 1 = Some (first_run, state)).
  { unfold first_run, demo_runtime in *. destruct (initialize _ _ _ _ _ _ _ _ _ _) as [[s state]|]; [by exists state|destruct Hs]. }
  destruct Hi as [state Hi].
  exact (proj2 (shown_values_traced demo_decode demo_time demo_compare demo_config 1 _ demo_snapshot no_snapshot (Some 5) None 1 first_run state t2
    (fun _ _ _ _ _ => double_scalar_presentable) Hi t2_reach)).
Defined.

End PutDemo.
