(* ===== verification/NDRuntime.v ===== *)
(** * A PV that serves frames

    src/runtime.cpp, [NDArrayRuntime] and [makeRuntime]: frames of a Redis
    stream are parsed, counted and published as an NTNDArray, and which class
    of runtime serves a configured PV.

    As in Runtime, each definition is one critical section; the adapter and
    PVXS are arguments and interfaces.  [RuntimeStats] is shared by all
    runtimes through atomic additions, which commute, so one runtime is
    studied with counters of its own. *)

From S2P Require Import Prelude.
From S2P Require Import StrMap.
From S2P Require Import Floats.
From S2P Require Import Config.
From S2P Require Import SourceHealth.
From S2P Require Import Util.
From S2P Require Import Yaml.
From S2P Require Import ConfigParse.
From S2P Require Import ConfigSafety.
From S2P Require Import NTNDArray.
From S2P Require Import Runtime.
From S2P Require Import RuntimeFacts.
From S2P Require Import RuntimeSpec.

Local Open Scope string_scope.
Local Open Scope list_scope.
Local Open Scope Z_scope.

Record RuntimeStats := { st_invalidFrames : Z; st_skippedFrames : Z; st_discontinuities : Z }.
#[export] Instance RuntimeStats_eta : Eta RuntimeStats := fun r =>
  Build_RuntimeStats (st_invalidFrames r) (st_skippedFrames r) (st_discontinuities r).

(** [+=] on the three counters. *)
Definition add_stats (a : RuntimeStats) (invalid skipped discontinuities : Z) : RuntimeStats :=
  {| st_invalidFrames := u64 (st_invalidFrames a + invalid);
     st_skippedFrames := u64 (st_skippedFrames a + skipped);
     st_discontinuities := u64 (st_discontinuities a + discontinuities) |}.

(** [std::string(error.what()).substr(0, 512)] *)
Definition short (what : string) : string := String.substring 0 512 what.

Definition okAlarm : AlarmState := {| am_severity := epicsSevNone; am_status := epicsAlarmNone; am_message := "" |}.

Section NDArrayRuntime.
Context {V : Type} {HV : PvxsValue V} {HS : SharedPV V}.

(** The three counters before activation are one record. *)
Record NDArrayRuntime := {
  nd_config : PVConfig;
  nd_alarm : option Z;
  nd_maxFrameBytes : Z;
  nd_generation : Z;
  nd_pv : V;
  nd_prototype : V;
  nd_sample : SourceSampleState;
  nd_healthError : string;
  nd_alive : bool;
  nd_committed : bool;
  nd_haveGoodFrame : bool;
  nd_lastUniqueId : Z;
  nd_pending : RuntimeStats;
  nd_currentAlarm : AlarmState;
  nd_open : bool;
}.
#[global] Instance NDArrayRuntime_eta : Eta NDArrayRuntime := fun r =>
  Build_NDArrayRuntime (nd_config r) (nd_alarm r) (nd_maxFrameBytes r) (nd_generation r) (nd_pv r) (nd_prototype r)
    (nd_sample r) (nd_healthError r) (nd_alive r) (nd_committed r) (nd_haveGoodFrame r) (nd_lastUniqueId r)
    (nd_pending r) (nd_currentAlarm r) (nd_open r).

Context (littleEndian : bool).
(** [RA_Time(id).value], not positive for an identifier that is no time. *)
Context (RA_value : string -> Z).

Definition nd_parse (attrs : NDArrayAttrs) (id : string) (maxFrameBytes : Z) : exn NDArrayFrame :=
  parseNDArrayFrame littleEndian attrs (RA_value id) maxFrameBytes.

(** The constructor and [initialize], up to the subscription.  [empty] is the
    library's empty NTNDArray, [registration] what [prepare] returned. *)
Definition nd_initialize (config : PVConfig) (payloadLimit generation : Z) (empty : V) (snapshot : StreamSnapshot)
    (registration : option Z) (clock : option (Z * Z)) (now : Z) : NDArrayRuntime :=
  let maxFrameBytes := Z.min (pv_maxFrameBytes config) payloadLimit in
  let initial := createEmptyNTNDArray empty "no valid frame" clock in
  let s :=
    {| nd_config := config; nd_alarm := registration; nd_maxFrameBytes := maxFrameBytes; nd_generation := generation;
       nd_pv := initial; nd_prototype := empty; nd_sample := SourceSampleState_default; nd_healthError := "";
       nd_alive := true; nd_committed := false; nd_haveGoodFrame := false; nd_lastUniqueId := 0;
       nd_pending := Build_RuntimeStats 0 0 0; nd_currentAlarm := invalidAlarm "no valid frame"; nd_open := true |} in
  if negb (sx_present snapshot) then s
  else
    match frame ← nd_parse (sx_fields snapshot) (sx_id snapshot) maxFrameBytes;
          value ← buildNTNDArrayValue empty frame clock; Ret (frame, value) with
    | Ret (frame, value) =>
        s <| nd_pv := value |> <| nd_lastUniqueId := fr_uniqueId frame |> <| nd_haveGoodFrame := true |>
          <| nd_sample := accept (nd_sample s) (sx_id snapshot) 1 now |> <| nd_currentAlarm := okAlarm |>
    | Throw what =>
        s <| nd_pending := add_stats (nd_pending s) 1 0 0 |>
          <| nd_sample := reject (nd_sample s) (short what) 1 |>
          <| nd_currentAlarm := invalidAlarm (short what) |>
          <| nd_pv := setNTNDArrayInvalidAlarm initial (short what) clock |>
    end.

Definition publishAlarmLocked (s : NDArrayRuntime) : list (effect V) :=
  match nd_alarm s with
  | Some registration =>
      FAlarm registration (nd_currentAlarm s) :: (if nd_alive s && nd_committed s then [FActivate registration] else [])
  | None => []
  end.

Definition nd_acceptEpochLocked (s : NDArrayRuntime) (epoch : Z) (reader : ReaderStatus) : NDArrayRuntime * bool :=
  if negb (nd_alive s) then (s, false)
  else if rs_epoch reader =? epoch then (s, true)
  else (s <| nd_sample ::= fun sample => sample <| sp_staleCallbacks ::= fun n => u64 (n + 1) |> |>, false).

(** Where a count goes: to the statistics once the runtime is committed. *)
Definition count (s : NDArrayRuntime) (stats : RuntimeStats) (invalid skipped discontinuities : Z)
    : NDArrayRuntime * RuntimeStats :=
  if nd_committed s then (s, add_stats stats invalid skipped discontinuities)
  else (s <| nd_pending := add_stats (nd_pending s) invalid skipped discontinuities |>, stats).

(** What became of an item of a batch. *)
Inductive nd_outcome :=
| Ignored
| GoodFrame (frame : NDArrayFrame) (gap : NDArrayFrameGap)
| BadFrame.

Definition noGap : NDArrayFrameGap := {| gap_skipped := 0; gap_discontinuity := false |}.

(** One item of [handleRead]. *)
Definition nd_item (s : NDArrayRuntime) (stats : RuntimeStats) (item : string * NDArrayAttrs) (m : BatchMetadata)
    (reader : ReaderStatus) (clock : option (Z * Z)) (now : Z)
    : NDArrayRuntime * RuntimeStats * list (effect V) * nd_outcome :=
  let epoch := bm_epoch m in
  match frame ← nd_parse item.2 item.1 (nd_maxFrameBytes s);
        value ← buildNTNDArrayValue (nd_prototype s) frame clock; Ret (frame, value) with
  | Ret (frame, value) =>
      let '(s, accepted) := nd_acceptEpochLocked s epoch reader in
      if negb accepted then (s, stats, [], Ignored)
      else
        let newEpoch := negb (sp_epoch (nd_sample s) =? epoch) in
        let gap := if nd_haveGoodFrame s && negb newEpoch
                   then assessNDArrayFrameGap (nd_lastUniqueId s) (fr_uniqueId frame) (pv_maxFrameGap (nd_config s))
                   else noGap in
        let '(s, stats) := count s stats 0 (gap_skipped gap) (if gap_discontinuity gap then 1 else 0) in
        let s := s <| nd_lastUniqueId := fr_uniqueId frame |> <| nd_haveGoodFrame := true |>
                   <| nd_sample := (accept (nd_sample s) item.1 epoch now)
                        <| sp_acceptedReadRejections := bm_readRejections m |> |>
                   <| nd_healthError := batchHealthError reader m |> in
        let s := s <| nd_currentAlarm := if str_empty (nd_healthError s) then okAlarm
                                         else invalidAlarm (nd_healthError s) |> in
        let value := if negb (str_empty (nd_healthError s))
                     then setNTNDArrayInvalidAlarm value (nd_healthError s) clock else value in
        (s <| nd_pv := pv_post (nd_pv s) value |>, stats, FPost value :: publishAlarmLocked s, GoodFrame frame gap)
  | Throw what =>
      let '(s, accepted) := nd_acceptEpochLocked s epoch reader in
      if negb accepted then (s, stats, [], Ignored)
      else
        let '(s, stats) := count s stats 1 0 0 in
        let s := s <| nd_currentAlarm := invalidAlarm (short what) |>
                   <| nd_sample ::= fun sample => reject sample (short what) epoch |> in
        let value := setNTNDArrayInvalidAlarm (pv_fetch (nd_pv s)) (short what) clock in
        (s <| nd_pv := pv_post (nd_pv s) value |>, stats, FPost value :: publishAlarmLocked s, BadFrame)
  end.

Definition is_ignored (o : nd_outcome) : bool := match o with Ignored => true | _ => false end.

(** [handleRead]: the loop stops at the first item that is not accepted. *)
Fixpoint nd_handleRead (s : NDArrayRuntime) (stats : RuntimeStats) (data : list (string * NDArrayAttrs))
    (m : BatchMetadata) (reader : ReaderStatus) (clock : option (Z * Z)) (now : Z)
    : NDArrayRuntime * RuntimeStats * list (effect V) * list nd_outcome :=
  match data with
  | [] => (s, stats, [], [])
  | item :: data =>
      let '(s, stats, eff, out) := nd_item s stats item m reader clock now in
      if is_ignored out then (s, stats, eff, [out])
      else
        let '(s, stats, eff', outs) := nd_handleRead s stats data m reader clock now in
        (s, stats, eff ++ eff', out :: outs)
  end.

(** ** Health, reconfiguration, life *)

Definition nd_sourceHealth (s : NDArrayRuntime) (fullName : string) (probeMs : Z) (reader : ReaderStatus)
    (clock : option (Z * Z)) (now : Z) : NDArrayRuntime * list (effect V) * SourceStatus :=
  let active := nd_alive s && nd_committed s in
  let '(sample, status) := assessSource (nd_sample s) reader (nd_config s) fullName (pv_read (nd_config s)) "read"
                             active probeMs now in
  let s := s <| nd_sample := sample |> in
  if active && negb (String.eqb (ss_error status) (nd_healthError s)) then
    let s := s <| nd_healthError := ss_error status |>
               <| nd_currentAlarm := if ss_ready status then okAlarm else invalidAlarm (ss_error status) |> in
    let value := pv_fetch (nd_pv s) in
    let value := if ss_ready status then
                   v_assign (v_assign (v_assign value "alarm.severity" (FInt epicsSevNone))
                     "alarm.status" (FInt epicsAlarmNone)) "alarm.message" (FString "")
                 else setNTNDArrayInvalidAlarm value (ss_error status) clock in
    (s <| nd_pv := pv_post (nd_pv s) value |>, FPost value :: publishAlarmLocked s, status)
  else (s, [], status).

Definition nd_prepareReconfigure (s : NDArrayRuntime) (config : PVConfig) (generation : Z) (registration : option Z)
    : exn Update :=
  if negb (nd_alive s) || negb (sameReaderTopology (nd_config s) config) then
    Throw "NTNDArray runtime changed during preparation"
  else Ret {| up_config := config; up_generation := generation;
              up_alarm := match registration with Some r => Some r | None => nd_alarm s end |}.

Definition nd_commit (s : NDArrayRuntime) (u : Update) : NDArrayRuntime * list (effect V) :=
  let eff := if bool_decide (up_alarm u = nd_alarm s) then []
             else match nd_alarm s with Some r => [FRetire r] | None => [] end in
  (s <| nd_config := up_config u |> <| nd_generation := up_generation u |> <| nd_alarm := up_alarm u |>, eff).

Definition nd_refresh (s : NDArrayRuntime) : list (effect V) := if nd_alive s then publishAlarmLocked s else [].

Definition nd_activate (s : NDArrayRuntime) (stats : RuntimeStats) : NDArrayRuntime * RuntimeStats * list (effect V) :=
  if nd_committed s || negb (nd_alive s) then (s, stats, [])
  else
    let p := nd_pending s in
    (s <| nd_committed := true |> <| nd_pending := Build_RuntimeStats 0 0 0 |>,
     add_stats stats (st_invalidFrames p) (st_skippedFrames p) (st_discontinuities p),
     match nd_alarm s with Some r => [FActivate r] | None => [] end).

Definition nd_deactivate (s : NDArrayRuntime) : NDArrayRuntime * list (effect V) :=
  if negb (nd_alive s) then (s, [])
  else (s <| nd_alive := false |> <| nd_committed := false |> <| nd_open := false |>,
        match nd_alarm s with Some r => [FRetire r] | None => [] end).

End NDArrayRuntime.
Arguments NDArrayRuntime : clear implicits.

(** ** Which runtime serves a PV *)

(** [resolveBackend]; the adapters are known by their number. *)
Definition resolveBackend (redisBackends : gmap string Z) (alias fullName routeName : string) : exn Z :=
  match redisBackends !! alias with
  | Some redis => Ret redis
  | None => Throw ("unknown redis backend '" +:+ alias +:+ "' for " +:+ fullName +:+ " " +:+ routeName)
  end.

(** [readerPolicies], as the probe interval of each backend. *)
Definition probeMsOf (readerPolicies : gmap string Z) (backend : string) : Z := default 1000 (readerPolicies !! backend).

Inductive runtime_class :=
| ClassNDArray (read probeMs payloadLimit : Z)
| ClassTyped (type : PrimitiveType) (shape : Shape) (read : Z) (write confirm : option Z) (readProbeMs confirmProbeMs : Z).

Definition makeTypedRuntime (server : ServerConfig) (config : PVConfig) (redisBackends readerPolicies : gmap string Z)
    : exn runtime_class :=
  let fullName := fullPVName server config in
  read ← resolveBackend redisBackends (rt_backend (pv_read config)) fullName "read route";
  write ← match pv_write config with
          | Some r => w ← resolveBackend redisBackends (rt_backend r) fullName "write route"; Ret (Some w)
          | None => Ret None
          end;
  confirm ← match pv_confirm config with
            | Some c => b ← resolveBackend redisBackends (cf_backend c) fullName "confirm route"; Ret (Some b)
            | None => Ret None
            end;
  Ret (ClassTyped (pv_type config) (pv_shape config) read write confirm
         (probeMsOf readerPolicies (rt_backend (pv_read config)))
         (match pv_confirm config with Some c => probeMsOf readerPolicies (cf_backend c) | None => 1000 end)).

Definition makeRuntime (server : ServerConfig) (config : PVConfig) (redisBackends readerPolicies : gmap string Z)
    (limits : OperationLimitsConfig) : exn runtime_class :=
  match pv_kind config with
  | Config.NTNDArray =>
      read ← resolveBackend redisBackends (rt_backend (pv_read config)) (fullPVName server config) "read route";
      Ret (ClassNDArray read (probeMsOf readerPolicies (rt_backend (pv_read config))) (ol_maxPayloadBytes limits))
  | Value =>
      match pv_shape config, pv_type config with
      | Array, (Boolean | String_) => Throw "unsupported runtime type"
      | _, _ => makeTypedRuntime server config redisBackends readerPolicies
      end
  end.

(** ** What clients see of a frame *)

Section Frames.
Context {V : Type} {HV : PvxsValue V} {HS : SharedPV V}.
Implicit Types (v w : V) (s : NDArrayRuntime V).

(** The leaves of a frame that do not depend on when it was published. *)
Definition frame_content (f : NDArrayFrame) : list (string * field_data) :=
  let size := FInt (i64 (Z.of_nat (length (fr_payload f)))) in
  match pixelMember (fr_dataType f) with Some m => [(m, FPixels (fr_dataType f) (fr_payload f))] | None => [] end ++
  [("codec.name", FString ""); ("compressedSize", size); ("uncompressedSize", size);
   ("uniqueId", FInt (fr_uniqueId f))] ++
  timestampFields "dataTimeStamp" (fr_dataTimestampNs f) ++
  [("dimension", FStructs (map dimensionFields (fr_shape f))); ("attribute", FStructs (frameAttributes f))].

Definition alarm_content (a : AlarmState) : list (string * field_data) :=
  [("alarm.severity", FInt (am_severity a)); ("alarm.status", FInt (am_status a));
   ("alarm.message", FString (am_message a))].

Definition shows v (l : list (string * field_data)) : Prop := forall p d, (p, d) ∈ l -> v_data v p = Some d.

(** Every leaf a frame or an alarm is stored in exists. *)
Definition nd_paths : list string :=
  ["codec.name"; "compressedSize"; "uncompressedSize"; "uniqueId"; "dataTimeStamp.secondsPastEpoch";
   "dataTimeStamp.nanoseconds"; "dataTimeStamp.userTag"; "timeStamp.secondsPastEpoch"; "timeStamp.nanoseconds";
   "timeStamp.userTag"; "alarm.severity"; "alarm.status"; "alarm.message"; "dimension"; "attribute";
   "value->byteValue"; "value->ubyteValue"; "value->shortValue"; "value->ushortValue"; "value->intValue";
   "value->uintValue"; "value->longValue"; "value->ulongValue"; "value->floatValue"; "value->doubleValue"].
Definition nd_layout v : Prop := Forall (fun p => v_code v p <> None) nd_paths.

Lemma layout_code v w : (forall p, v_code w p = v_code v p) -> nd_layout v -> nd_layout w.
Proof. intros H Hv. eapply Forall_impl; [exact Hv|]. intros p Hp. cbn. by rewrite H. Qed.

Lemma layout_in v p : nd_layout v -> p ∈ nd_paths -> v_code v p <> None.
Proof. unfold nd_layout. rewrite Forall_forall. auto. Qed.

Lemma keys_in l : bool_decide (l ⊆ nd_paths) = true -> forall v, nd_layout v -> forall p, p ∈ l -> v_code v p <> None.
Proof. intros Hl%bool_decide_eq_true v Hv p Hp. apply layout_in; auto. Qed.

Lemma assign_all_marked v l p :
  (forall q, q ∈ l.*1 -> v_code v q <> None) -> p ∈ l.*1 \/ v_marked v p = true -> v_marked (assign_all v l) p = true.
Proof.
  revert v; induction l as [|[q d] l IH]; intros v Hv Hp; cbn in *; [by destruct Hp as [?%not_elem_of_nil|]|].
  apply IH; [intros; rewrite v_code_assign; apply Hv; by right|].
  rewrite v_marked_assign by (apply Hv; left). destruct Hp as [[->|Hp]%elem_of_cons|Hp].
  - right. by rewrite String.eqb_refl.
  - by left.
  - right. rewrite Hp. apply orb_true_r.
Qed.

(** What an assignment of several leaves and a post do to the PV. *)
Lemma post_assigned v w l p d :
  nd_layout v -> nd_layout w -> NoDup l.*1 -> l.*1 ⊆ nd_paths -> (p, d) ∈ l ->
  v_data (pv_post v (assign_all w l)) p = Some d.
Proof.
  intros Hv Hw Hnd Hl Hin. assert (Hp : p ∈ l.*1) by (apply list_elem_of_fmap; by exists (p, d)).
  assert (Hc : forall q, q ∈ l.*1 -> v_code w q <> None) by (intros q Hq; apply layout_in; auto).
  rewrite pv_data_post_marked.
  - by apply assign_all_data.
  - apply layout_in; auto.
  - apply assign_all_marked; auto.
Qed.

Lemma post_kept v l p :
  nd_layout v -> l.*1 ⊆ nd_paths -> p ∈ nd_paths -> p ∉ l.*1 ->
  v_data (pv_post v (assign_all (pv_fetch v) l)) p = v_data v p.
Proof.
  intros Hv Hl Hp Hn. assert (Hf : nd_layout (pv_fetch v)) by (apply (layout_code v); [apply pv_code_fetch|done]).
  assert (Hd : v_data (assign_all (pv_fetch v) l) p = v_data v p).
  { rewrite assign_all_other; [apply pv_data_fetch| |done]. intros q Hq. apply layout_in; auto. }
  destruct (v_marked (assign_all (pv_fetch v) l) p) eqn:E.
  - rewrite pv_data_post_marked; [done| |done]. by apply layout_in.
  - by apply pv_data_post_unmarked.
Qed.

(** The invalid alarm as a list of assignments. *)
Definition invalidFields (reason : string) (clock : option (Z * Z)) : list (string * field_data) :=
  alarm_content (invalidAlarm reason) ++ timestampFields "timeStamp" (currentTimeNs clock).

Lemma setInvalid_assign v reason clock : setNTNDArrayInvalidAlarm v reason clock = assign_all v (invalidFields reason clock).
Proof.
  unfold setNTNDArrayInvalidAlarm, invalidFields, applyTimestamp, timestampFields. cbn [Z.eqb].
  by destruct (splitTimestamp _).
Qed.

Lemma invalidFields_keys reason clock : (invalidFields reason clock).*1 =
  ["alarm.severity"; "alarm.status"; "alarm.message"; "timeStamp.secondsPastEpoch"; "timeStamp.nanoseconds"; "timeStamp.userTag"].
Proof. unfold invalidFields, timestampFields. by destruct (splitTimestamp _). Qed.

Ltac in_paths := apply (bool_decide_unpack _); vm_compute; exact I.

Lemma invalid_paths reason clock : (invalidFields reason clock).*1 ⊆ nd_paths /\ NoDup (invalidFields reason clock).*1.
Proof. rewrite invalidFields_keys. split; in_paths. Qed.

(** The whole assignment of a frame. *)
Definition allFields (f : NDArrayFrame) (clock : option (Z * Z)) : list (string * field_data) :=
  match pixelMember (fr_dataType f) with Some m => [(m, FPixels (fr_dataType f) (fr_payload f))] | None => [] end ++
  frameFields f clock.

Lemma build_assign v f clock w : buildNTNDArrayValue v f clock = Ret w -> w = assign_all v (allFields f clock).
Proof.
  unfold buildNTNDArrayValue, populateNTNDArrayValue, allFields. destruct (pixelMember _); [|done]. by intros [= <-].
Qed.

Lemma allFields_paths f clock : (allFields f clock).*1 ⊆ nd_paths /\ NoDup (allFields f clock).*1.
Proof.
  unfold allFields, frameFields, timestampFields. destruct (splitTimestamp _), (splitTimestamp _).
  destruct (fr_dataType f); cbn [pixelMember app fmap list_fmap fst]; split; in_paths.
Qed.

Lemma content_fields f clock p d : (p, d) ∈ frame_content f -> (p, d) ∈ allFields f clock.
Proof.
  unfold frame_content, allFields, frameFields. rewrite !elem_of_app. intros [H|[H|[H|H]]]; [by left|..];
    right; rewrite ?elem_of_app; [by left|by right; left|].
  right; right; right. set_solver.
Qed.

Lemma frame_content_paths f p d : (p, d) ∈ frame_content f ->
  p ∈ nd_paths /\ p ∉ ["alarm.severity"; "alarm.status"; "alarm.message"; "timeStamp.secondsPastEpoch";
                        "timeStamp.nanoseconds"; "timeStamp.userTag"].
Proof.
  intros Hin. assert (Hp : p ∈ (frame_content f).*1) by (apply list_elem_of_fmap; by exists (p, d)). clear Hin. revert p Hp.
  apply Forall_forall. unfold frame_content, timestampFields. destruct (splitTimestamp _).
  destruct (fr_dataType f); cbn [pixelMember app fmap list_fmap fst]; in_paths.
Qed.

(** After a good frame the PV shows it, with no alarm or the reader's. *)
Lemma post_frame v proto f clock value error :
  nd_layout v -> nd_layout proto -> buildNTNDArrayValue proto f clock = Ret value ->
  let value' := if negb (str_empty error) then setNTNDArrayInvalidAlarm value error clock else value in
  shows (pv_post v value') (frame_content f) /\
  shows (pv_post v value') (alarm_content (if str_empty error then okAlarm else invalidAlarm error)).
Proof.
  intros Hv Hp ->%build_assign. destruct (allFields_paths f clock) as [Ha Hna].
  destruct (invalid_paths error clock) as [Hi Hni].
  assert (Hl : nd_layout (assign_all proto (allFields f clock))).
  { apply (layout_code proto); [intros; apply assign_all_code|done]. }
  destruct (str_empty error) eqn:E; cbn [negb].
  - split; intros p d Hin.
    + apply post_assigned; auto. by apply content_fields.
    + apply post_assigned; auto. unfold allFields, frameFields. rewrite !elem_of_app. do 4 right. cbn in Hin. set_solver.
  - rewrite setInvalid_assign. split; intros p d Hin.
    + destruct (frame_content_paths f p d Hin) as [Hpp Hout].
      assert (Hc : forall q, q ∈ (invalidFields error clock).*1 -> v_code (assign_all proto (allFields f clock)) q <> None)
        by (intros; apply layout_in; auto).
      rewrite pv_data_post_marked.
      * rewrite assign_all_other; [|done|by rewrite invalidFields_keys].
        apply assign_all_data; [done| |by apply content_fields]. intros; apply layout_in; auto.
      * by apply layout_in.
      * apply assign_all_marked; [done|right]. apply assign_all_marked; [intros; apply layout_in; auto|left].
        apply list_elem_of_fmap. exists (p, d). split; [done|by apply content_fields].
    + apply post_assigned; auto. unfold invalidFields. apply elem_of_app. by left.
Qed.

(** A change of alarm keeps the frame. *)
Lemma post_alarm v l a :
  nd_layout v -> l.*1 ⊆ ["alarm.severity"; "alarm.status"; "alarm.message"; "timeStamp.secondsPastEpoch";
                          "timeStamp.nanoseconds"; "timeStamp.userTag"] ->
  NoDup l.*1 -> (forall e, e ∈ alarm_content a -> e ∈ l) ->
  shows (pv_post v (assign_all (pv_fetch v) l)) (alarm_content a) /\
  (forall f, shows v (frame_content f) -> shows (pv_post v (assign_all (pv_fetch v) l)) (frame_content f)).
Proof.
  intros Hv Hl Hnd Ha. assert (Hln : l.*1 ⊆ nd_paths) by (etrans; [exact Hl|in_paths]). split.
  - intros p d Hin. apply post_assigned; auto. apply (layout_code v); [apply pv_code_fetch|done].
  - intros f Hs p d Hin. destruct (frame_content_paths f p d Hin) as [Hp Hout]. rewrite post_kept; auto.
Qed.

End Frames.

(** ** Any sequence of events *)

Local Arguments setNTNDArrayInvalidAlarm : simpl never.

Section Executions.
Context {V : Type} {HV : PvxsValue V} {HS : SharedPV V}.
Context (littleEndian : bool) (RA_value : string -> Z).
Implicit Types (v : V) (s : NDArrayRuntime V).

Inductive nd_op :=
| OItem (item : string * NDArrayAttrs) (m : BatchMetadata) (reader : ReaderStatus) (clock : option (Z * Z)) (now : Z)
| OHealth (fullName : string) (probeMs : Z) (reader : ReaderStatus) (clock : option (Z * Z)) (now : Z)
| OActivate
| OCommit (u : Update)
| ORefresh
| ODeactivate.

Definition nd_exec s (stats : RuntimeStats) (op : nd_op) : NDArrayRuntime V * RuntimeStats * list nd_outcome :=
  match op with
  | OItem item m reader clock now =>
      let '(s, stats, _, out) := nd_item littleEndian RA_value s stats item m reader clock now in (s, stats, [out])
  | OHealth fullName probeMs reader clock now => ((nd_sourceHealth s fullName probeMs reader clock now).1.1, stats, [])
  | OActivate => let '(s, stats, _) := nd_activate s stats in (s, stats, [])
  | OCommit u => ((nd_commit s u).1, stats, [])
  | ORefresh => (s, stats, [])
  | ODeactivate => ((nd_deactivate s).1, stats, [])
  end.

Fixpoint nd_run s stats (ops : list nd_op) : NDArrayRuntime V * RuntimeStats * list nd_outcome :=
  match ops with
  | [] => (s, stats, [])
  | op :: ops =>
      let '(s, stats, out) := nd_exec s stats op in
      let '(s, stats, outs) := nd_run s stats ops in (s, stats, out ++ outs)
  end.

(** What the outcomes add up to. *)
Definition bad_of (o : nd_outcome) : Z := match o with BadFrame => 1 | _ => 0 end.
Definition skipped_of (o : nd_outcome) : Z := match o with GoodFrame _ gap => gap_skipped gap | _ => 0 end.
Definition discontinuity_of (o : nd_outcome) : Z :=
  match o with GoodFrame _ gap => if gap_discontinuity gap then 1 else 0 | _ => 0 end.
Definition sum_of (f : nd_outcome -> Z) (outs : list nd_outcome) : Z := foldr (fun o n => f o + n) 0 outs.

Lemma sum_of_app f l1 l2 : sum_of f (l1 ++ l2) = sum_of f l1 + sum_of f l2.
Proof. unfold sum_of. induction l1 as [|o l1 IH]; cbn; [done|]. rewrite IH. lia. Qed.

(** Counted, and about to be counted at activation. *)
Definition totals s stats : RuntimeStats :=
  add_stats stats (st_invalidFrames (nd_pending s)) (st_skippedFrames (nd_pending s)) (st_discontinuities (nd_pending s)).

Lemma u64_add_l a b : u64 (u64 a + b) = u64 (a + b).
Proof. unfold u64. by rewrite Zplus_mod_idemp_l. Qed.
Lemma u64_add_r a b : u64 (a + u64 b) = u64 (a + b).
Proof. unfold u64. by rewrite Zplus_mod_idemp_r. Qed.

Lemma add_stats_assoc a i k d i' k' d' :
  add_stats (add_stats a i k d) i' k' d' = add_stats a (i + i') (k + k') (d + d').
Proof. unfold add_stats. cbn. rewrite !u64_add_l. f_equal; f_equal; lia. Qed.

Lemma count_totals s stats i k d :
  totals (count s stats i k d).1 (count s stats i k d).2 = add_stats (totals s stats) i k d.
Proof.
  unfold count, totals. destruct (nd_committed s); cbn; rewrite !add_stats_assoc.
  - f_equal; lia.
  - unfold add_stats. cbn. rewrite !u64_add_r. f_equal; f_equal; lia.
Qed.

Lemma add_stats_0 s stats : add_stats (totals s stats) 0 0 0 = totals s stats.
Proof. unfold totals. by rewrite add_stats_assoc, !Z.add_0_r. Qed.

Lemma nd_acceptEpoch_frame s epoch reader s1 ok :
  nd_acceptEpochLocked s epoch reader = (s1, ok) ->
  (ok = true -> s1 = s) /\ nd_pv s1 = nd_pv s /\ nd_prototype s1 = nd_prototype s /\ nd_pending s1 = nd_pending s /\
  nd_currentAlarm s1 = nd_currentAlarm s /\ nd_committed s1 = nd_committed s /\ nd_maxFrameBytes s1 = nd_maxFrameBytes s.
Proof.
  unfold nd_acceptEpochLocked. destruct (nd_alive s); cbn [negb]; [|by intros [= <- <-]].
  destruct (rs_epoch reader =? epoch); by intros [= <- <-].
Qed.

Lemma count_frame s stats i k d s1 st1 : count s stats i k d = (s1, st1) ->
  nd_pv s1 = nd_pv s /\ nd_prototype s1 = nd_prototype s /\ nd_currentAlarm s1 = nd_currentAlarm s /\
  totals s1 st1 = add_stats (totals s stats) i k d.
Proof.
  intros E. pose proof (count_totals s stats i k d) as H. rewrite E in H. cbn in H.
  unfold count in E. destruct (nd_committed s); injection E as <- <-; done.
Qed.

(** What is shown, and why. *)
Record nd_inv (last : option NDArrayFrame) s : Prop := {
  ni_layout : nd_layout (nd_pv s);
  ni_prototype : nd_layout (nd_prototype s);
  ni_alarm : shows (nd_pv s) (alarm_content (nd_currentAlarm s));
  ni_frame : forall f, last = Some f -> shows (nd_pv s) (frame_content f);
}.

Definition last_of (last : option NDArrayFrame) (outs : list nd_outcome) : option NDArrayFrame :=
  foldl (fun last o => match o with GoodFrame f _ => Some f | _ => last end) last outs.

Lemma post_layout v w : nd_layout v -> nd_layout (pv_post v w).
Proof. apply layout_code. intros p. apply pv_code_post. Qed.

Lemma item_facts s stats item m reader clock now s' stats' eff out last :
  nd_item littleEndian RA_value s stats item m reader clock now = (s', stats', eff, out) ->
  totals s' stats' = add_stats (totals s stats) (bad_of out) (skipped_of out) (discontinuity_of out) /\
  (nd_inv last s -> nd_inv (last_of last [out]) s').
Proof.
  unfold nd_item. destruct (mbind _ _) as [[f value]|what] eqn:E.
  - apply exn_bind_ret in E as (f' & _ & E). apply exn_bind_ret in E as (value' & Hb & [= -> ->]).
    destruct (nd_acceptEpochLocked s (bm_epoch m) reader) as [s1 ok] eqn:Ea.
    pose proof (nd_acceptEpoch_frame _ _ _ _ _ Ea) as (Hs & Hpv & Hpr & Hpe & Hal & _). destruct ok; cbn [negb].
    2: { intros [= <- <- <- <-]. split; [cbn; rewrite add_stats_0; unfold totals; by rewrite Hpe|].
         intros [L P A F]. split; cbn; rewrite ?Hpv, ?Hpr, ?Hal; done. }
    rewrite (Hs eq_refl) in *. clear Hs s1 Ea Hpv Hpr Hpe Hal. set (gap := if _ && _ then _ else noGap).
    destruct (count s stats 0 (gap_skipped gap) _) as [s2 st2] eqn:Ec. apply count_frame in Ec as (Hpv & Hpr & Hal & Ht).
    intros [= <- <- <- <-]. split; [exact Ht|]. intros [L P A F].
    destruct (post_frame (nd_pv s2) (nd_prototype s) f clock value (batchHealthError reader m)) as [S1 S2];
      [by rewrite Hpv|done|done|].
    split; cbn; rewrite ?Hpr; try done; [apply post_layout; by rewrite Hpv|].
    intros g [= <-]. exact S1.
  - destruct (nd_acceptEpochLocked s (bm_epoch m) reader) as [s1 ok] eqn:Ea.
    pose proof (nd_acceptEpoch_frame _ _ _ _ _ Ea) as (Hs & Hpv & Hpr & Hpe & Hal & _). destruct ok; cbn [negb].
    2: { intros [= <- <- <- <-]. split; [cbn; rewrite add_stats_0; unfold totals; by rewrite Hpe|].
         intros [L P A F]. split; cbn; rewrite ?Hpv, ?Hpr, ?Hal; done. }
    rewrite (Hs eq_refl) in *. clear Hs s1 Ea Hpv Hpr Hpe Hal.
    destruct (count s stats 1 0 0) as [s2 st2] eqn:Ec. apply count_frame in Ec as (Hpv & Hpr & Hal & Ht).
    intros [= <- <- <- <-]. split; [exact Ht|]. intros [L P A F].
    destruct (post_alarm (nd_pv s2) (invalidFields (short what) clock) (invalidAlarm (short what))) as [S1 S2];
      [by rewrite Hpv|by rewrite invalidFields_keys|apply invalid_paths|
       intros e He; unfold invalidFields; apply elem_of_app; by left|].
    rewrite <-setInvalid_assign in S1, S2. split; cbn; rewrite ?Hpr; try done.
    + apply post_layout. by rewrite Hpv.
    + intros g Hg. apply S2. rewrite Hpv. auto.
Qed.

Lemma health_facts s name probe reader clock now last :
  let s' := (nd_sourceHealth s name probe reader clock now).1.1 in
  nd_pending s' = nd_pending s /\ (nd_inv last s -> nd_inv last s').
Proof.
  unfold nd_sourceHealth. destruct (assessSource _ _ _ _ _ _ _ _ _) as [sample status]. cbn.
  destruct (_ && _); [|split; [done|]; by intros [L P A F]]. cbn. split; [done|]. intros [L P A F].
  assert (Hl : exists l, (if ss_ready status then
        v_assign (v_assign (v_assign (pv_fetch (nd_pv s)) "alarm.severity" (FInt epicsSevNone))
          "alarm.status" (FInt epicsAlarmNone)) "alarm.message" (FString "")
      else setNTNDArrayInvalidAlarm (pv_fetch (nd_pv s)) (ss_error status) clock) = assign_all (pv_fetch (nd_pv s)) l /\
    l.*1 ⊆ ["alarm.severity"; "alarm.status"; "alarm.message"; "timeStamp.secondsPastEpoch";
                          "timeStamp.nanoseconds"; "timeStamp.userTag"] /\ NoDup l.*1 /\
    forall e, e ∈ alarm_content (if ss_ready status then okAlarm else invalidAlarm (ss_error status)) -> e ∈ l).
  { destruct (ss_ready status).
    - exists (alarm_content okAlarm). split_and!; [done|apply (bool_decide_unpack _); vm_compute; exact I..|done].
    - exists (invalidFields (ss_error status) clock). split_and!; [apply setInvalid_assign|by rewrite invalidFields_keys|
        apply invalid_paths|]. intros e He. unfold invalidFields. apply elem_of_app. by left. }
  destruct Hl as (l & -> & Hk & Hnd & Hin). destruct (post_alarm (nd_pv s) l _ L Hk Hnd Hin) as [S1 S2].
  split; cbn; auto. by apply post_layout.
Qed.

Lemma exec_facts s stats op s' stats' outs last :
  nd_exec s stats op = (s', stats', outs) ->
  totals s' stats' = add_stats (totals s stats) (sum_of bad_of outs) (sum_of skipped_of outs) (sum_of discontinuity_of outs) /\
  (nd_inv last s -> nd_inv (last_of last outs) s').
Proof.
  destruct op as [item m reader clock now|name probe reader clock now| |u| |]; cbn [nd_exec].
  - destruct (nd_item _ _ _ _ _ _ _ _ _) as [[[s1 st1] eff] out] eqn:E. intros [= <- <- <-].
    apply (item_facts _ _ _ _ _ _ _ _ _ _ _ last) in E as [Ht Hi]. cbn. by rewrite !Z.add_0_r.
  - intros [= <- <- <-]. destruct (health_facts s name probe reader clock now last) as [Hp Hi]. cbn.
    rewrite add_stats_0. split; [unfold totals; by rewrite Hp|done].
  - unfold nd_activate. destruct (nd_committed s || negb (nd_alive s)); intros [= <- <- <-]; cbn.
    + by rewrite add_stats_0.
    + rewrite add_stats_0. unfold totals at 1. cbn. split; [|by intros [L P A F]].
      rewrite add_stats_assoc. by rewrite !Z.add_0_r.
  - intros [= <- <- <-]. cbn. rewrite add_stats_0. split; [done|by intros [L P A F]].
  - intros [= <- <- <-]. cbn. by rewrite add_stats_0.
  - unfold nd_deactivate. destruct (negb (nd_alive s)); intros [= <- <- <-]; cbn; rewrite add_stats_0; (split; [done|]);
      by intros [L P A F].
Qed.

Lemma run_facts ops s stats s' stats' outs last :
  nd_run s stats ops = (s', stats', outs) ->
  totals s' stats' = add_stats (totals s stats) (sum_of bad_of outs) (sum_of skipped_of outs) (sum_of discontinuity_of outs) /\
  (nd_inv last s -> nd_inv (last_of last outs) s').
Proof.
  revert s stats outs last. induction ops as [|op ops IH]; intros s stats outs last; cbn [nd_run].
  - intros [= <- <- <-]. cbn. by rewrite add_stats_0.
  - destruct (nd_exec s stats op) as [[s1 st1] out] eqn:E1. destruct (nd_run s1 st1 ops) as [[s2 st2] outs2] eqn:E2.
    intros [= <- <- <-]. apply (exec_facts _ _ _ _ _ _ last) in E1 as [T1 I1].
    apply (IH _ _ _ (last_of last out)) in E2 as [T2 I2]. split.
    + by rewrite T2, T1, add_stats_assoc, !sum_of_app.
    + intros Hi. unfold last_of. rewrite foldl_app. apply I2, I1, Hi.
Qed.

Lemma parsed_pixels attrs id maxFrameBytes f :
  nd_parse littleEndian RA_value attrs id maxFrameBytes = Ret f -> is_some (pixelMember (fr_dataType f)) = true.
Proof.
  unfold nd_parse, parseNDArrayFrame. intros Hr. parse_steps. ex_inv. simplify_eq. cbn.
  match goal with H : elementSize _ = Ret _ |- _ => revert H end. by destruct x3.
Qed.

(** The frame of the snapshot a runtime starts with. *)
Definition snapshot_frame (config : PVConfig) (payloadLimit : Z) (snapshot : StreamSnapshot) : option NDArrayFrame :=
  if sx_present snapshot
  then match nd_parse littleEndian RA_value (sx_fields snapshot) (sx_id snapshot)
               (Z.min (pv_maxFrameBytes config) payloadLimit) with Ret f => Some f | Throw _ => None end
  else None.

Lemma initialize_inv config payloadLimit generation empty snapshot registration clock now :
  nd_layout empty ->
  nd_inv (snapshot_frame config payloadLimit snapshot)
    (nd_initialize littleEndian RA_value config payloadLimit generation empty snapshot registration clock now).
Proof.
  intros Hl. unfold nd_initialize, snapshot_frame.
  assert (Hkeys : forall l v, l.*1 ⊆ nd_paths -> nd_layout v -> nd_layout (assign_all v l)).
  { intros l v _. apply layout_code. intros. apply assign_all_code. }
  assert (Hempty : exists l, createEmptyNTNDArray empty "no valid frame" clock =
      assign_all (assign_all empty l) (invalidFields "no valid frame" clock)).
  { unfold createEmptyNTNDArray. rewrite setInvalid_assign. by eexists (("value->ubyteValue", FPixels UInt8 []) :: _). }
  destruct Hempty as [l0 He].
  assert (Hle : nd_layout (createEmptyNTNDArray empty "no valid frame" clock)).
  { apply (layout_code empty); [|done]. intros p. by rewrite He, !assign_all_code. }
  assert (Hinv : forall v reason, nd_layout v ->
    shows (setNTNDArrayInvalidAlarm v reason clock) (alarm_content (invalidAlarm reason))).
  { intros v reason Hv p d Hin. rewrite setInvalid_assign. destruct (invalid_paths reason clock) as [Hk Hnd].
    apply assign_all_data; [done|intros; apply layout_in; auto|]. unfold invalidFields. apply elem_of_app. by left. }
  destruct (sx_present snapshot); cbn [negb].
  2: { split; cbn -[createEmptyNTNDArray]; try done. rewrite He, <-setInvalid_assign. apply Hinv.
       apply (layout_code empty); [intros; apply assign_all_code|done]. }
  destruct (nd_parse _ _ _ _ _) as [f|what] eqn:Ep.
  - cbn [mbind exn_bind]. destruct (buildNTNDArrayValue empty f clock) as [value|what] eqn:Eb.
    + cbn [mbind exn_bind]. apply build_assign in Eb. destruct (allFields_paths f clock) as [Ha Hna].
      assert (Hd : forall p d, (p, d) ∈ allFields f clock -> v_data value p = Some d).
      { intros p d Hin. subst value. apply assign_all_data; [done|intros; apply layout_in; auto|done]. }
      split; cbn; try done.
      * subst value. apply (layout_code empty); [intros; apply assign_all_code|done].
      * intros p d Hin. apply Hd. unfold allFields, frameFields. rewrite !elem_of_app. do 4 right. cbn in Hin. set_solver.
      * intros g [= <-] p d Hin. by apply Hd, content_fields.
    + exfalso. apply parsed_pixels in Ep. unfold buildNTNDArrayValue, populateNTNDArrayValue in Eb.
      by destruct (pixelMember _).
  - cbn [mbind exn_bind]. split; cbn -[createEmptyNTNDArray]; try done; [|by apply Hinv].
    rewrite setInvalid_assign. apply (layout_code (createEmptyNTNDArray empty "no valid frame" clock));
      [intros; apply assign_all_code|done].
Qed.

(** C15. What clients see of a camera is always one whole frame: from the
    snapshot it starts with, through any sequence of frames, health polls,
    reloads, activation and retirement, the pixels, dimensions, sizes,
    identifier, attributes and acquisition time on the PV are those of the last frame that
    parsed and was accepted, and the alarm on the PV is the runtime's current
    alarm: a record that does not parse changes only the alarm. *)
Theorem frames_shown_whole config payloadLimit generation empty snapshot registration clock now stats ops s' stats' outs :
  nd_layout empty ->
  nd_run (nd_initialize littleEndian RA_value config payloadLimit generation empty snapshot registration clock now)
    stats ops = (s', stats', outs) ->
  shows (nd_pv s') (alarm_content (nd_currentAlarm s')) /\
  (forall f, last_of (snapshot_frame config payloadLimit snapshot) outs = Some f -> shows (nd_pv s') (frame_content f)).
Proof.
  intros Hl Hr. apply (run_facts _ _ _ _ _ _ (snapshot_frame config payloadLimit snapshot)) in Hr as [_ Hi].
  destruct Hi as [_ _ A F]; [by apply initialize_inv|]. by split.
Qed.

(** No frame is counted twice or lost: whenever the runtime is activated
    between its records, what it has added to the shared counters together with what
    it still holds back is exactly the number of records that did not parse,
    the frames skipped between the accepted ones and the discontinuities seen
    (modulo the 64 bits of the counters). *)
Theorem frames_counted_once s stats ops s' stats' outs :
  nd_run s stats ops = (s', stats', outs) ->
  totals s' stats' = add_stats (totals s stats) (sum_of bad_of outs) (sum_of skipped_of outs) (sum_of discontinuity_of outs).
Proof. intros Hr. by apply (run_facts _ _ _ _ _ _ None) in Hr as [Ht _]. Qed.

End Executions.

(** ** Every configured PV can start *)

Section Start.
Context `{YamlLaws}.

Lemma in_ctype_within t z : in_ctype t z ->
  match t with
  | TI8 => within 8 true z | TU8 => within 8 false z | TI16 => within 16 true z | TU16 => within 16 false z
  | TI32 => within 32 true z | TU32 => within 32 false z | TI64 => within 64 true z | TU64 => within 64 false z
  end = true.
Proof. unfold in_ctype, within. destruct t; cbn; intros [? ?]; apply andb_true_iff; split; lia. Qed.

Lemma within_all t (b : Z -> bool) l :
  (forall z, in_ctype t z -> b z = true) -> Forall (in_ctype t) l -> forallb b l = true.
Proof. intros Hb Hl. induction Hl as [|z l Hz _ IH]; [done|]. cbn. by rewrite Hb, IH. Qed.

(** An initial value of an accepted PV is of the PV's type, in range. *)
Lemma typed_wf_well type shape v : v <> TVmonostate -> typed_wf type shape v -> well_typed type shape v = true.
Proof.
  intros Hv Ht. unfold well_typed. apply andb_true_iff.
  destruct shape, type, v; cbn in Ht; try done; (split; [done|]); cbn;
    try (by apply (in_ctype_within TI8)); try (by apply (in_ctype_within TU8)); try (by apply (in_ctype_within TI16));
    try (by apply (in_ctype_within TU16)); try (by apply (in_ctype_within TI32)); try (by apply (in_ctype_within TU32));
    try (by apply (in_ctype_within TI64)); try (by apply (in_ctype_within TU64)).
  all: (eapply within_all; [|exact Ht]); intros z Hz; by apply in_ctype_within in Hz.
Qed.

Lemma initial_well type shape zero : zero_value type shape = Some zero -> well_typed type shape zero = true.
Proof. by destruct shape, type; intros [= <-]. Qed.

Lemma initial_of_wf pv : pv_wf pv ->
  exists v, initialOr pv = Some v /\ well_typed (pv_type pv) (pv_shape pv) v = true.
Proof.
  intros Hwf. pose proof (wf_initial pv Hwf) as Ht. unfold initialOr.
  destruct (has_type (pv_type pv) (pv_shape pv) (pv_initialValue pv)) eqn:E.
  - eexists. split; [done|]. apply typed_wf_well; [|done]. intros Hm. rewrite Hm in E. by destruct (pv_shape pv), (pv_type pv).
  - assert (Hz : is_some (zero_value (pv_type pv) (pv_shape pv)) = true).
    { destruct (pv_shape pv) eqn:Es; [by destruct (pv_type pv)|].
      destruct (wf_array pv Hwf Es) as [Ha _]. by destruct (pv_type pv). }
    destruct (zero_value _ _) as [zero|] eqn:Ez; [|done]. exists zero. split; [done|by apply initial_well].
Qed.

(** An accepted configuration can be served: with an adapter for every backend
    it names, each of its PVs gets a runtime, an NTNDArray the frame runtime
    and a value the instance of exactly its type and shape, connected to the
    backends of its own routes, and the instance starts from an initial value
    of that type with its integers in range. *)
Theorem accepted_pvs_have_runtimes env root dir c redisBackends readerPolicies :
  parseConfig env root dir = Ret c ->
  (forall alias, alias ∈ sm_keys (app_redisBackends c) -> is_Some (redisBackends !! alias)) ->
  Forall (fun pv =>
    match makeRuntime (app_server c) pv redisBackends readerPolicies (app_limits c) with
    | Ret (ClassNDArray read _ _) => pv_kind pv = Config.NTNDArray /\ redisBackends !! rt_backend (pv_read pv) = Some read
    | Ret (ClassTyped type shape read write confirm _ _) =>
        pv_kind pv = Value /\ type = pv_type pv /\ shape = pv_shape pv /\
        redisBackends !! rt_backend (pv_read pv) = Some read /\
        write = (pv_write pv ≫= fun r => redisBackends !! rt_backend r) /\
        confirm = (pv_confirm pv ≫= fun r => redisBackends !! cf_backend r) /\
        exists v, initialOr pv = Some v /\ well_typed type shape v = true
    | Throw _ => False
    end) (app_pvs c).
Proof.
  intros Hp Hb. apply parseConfig_loop in Hp as (es & loop & _ & -> & Hli).
  eapply Forall_impl; [exact (li_pvs _ _ _ _ _ Hli)|]. intros pv [Hwf Hr Hw Hc _]. unfold makeRuntime.
  destruct (Hb _ Hr) as [read Eread].
  destruct (pv_kind pv) eqn:Ek.
  2: { unfold resolveBackend. rewrite Eread. cbn. done. }
  assert (Hty : match pv_shape pv, pv_type pv with Array, (Boolean | String_) => False | _, _ => True end).
  { destruct (pv_shape pv) eqn:Es; [done|]. destruct (wf_array pv Hwf Es) as [Ha _]. by destruct (pv_type pv). }
  assert (Hm : forall cls, makeTypedRuntime (app_server c) pv redisBackends readerPolicies = cls ->
    match pv_shape pv, pv_type pv with
    | Array, (Boolean | String_) => Throw "unsupported runtime type"
    | _, _ => makeTypedRuntime (app_server c) pv redisBackends readerPolicies
    end = cls) by (intros cls <-; by destruct (pv_shape pv), (pv_type pv)).
  erewrite Hm; [|reflexivity]. clear Hm Hty. unfold makeTypedRuntime, resolveBackend. rewrite Eread. cbn [mbind exn_bind].
  destruct (initial_of_wf pv Hwf) as (v & Hi & Hv).
  destruct (pv_write pv) as [w|] eqn:Ew; [destruct (Hb _ (Hw w eq_refl)) as [wr Ewr]; rewrite Ewr|]; cbn [mbind exn_bind];
  (destruct (pv_confirm pv) as [cf|] eqn:Ecf; [destruct (Hb _ (Hc cf eq_refl)) as [cr Ecr]; rewrite Ecr|]); cbn;
  split_and!; try done; by exists v.
Qed.

End Start.

(** ** A camera *)

Module CameraDemo.
Import RuntimeDemo.

Definition nd_empty : MapValue.t := list_to_map ((fun p : string => (p, (TStruct, None, false))) <$> nd_paths).

Lemma nd_empty_layout : nd_layout nd_empty.
Proof. apply (bool_decide_unpack _). vm_compute. exact I. Qed.

Definition later_frame : NDArrayFrame :=
  {| fr_dataType := fr_dataType demo_frame; fr_shape := fr_shape demo_frame; fr_colorMode := fr_colorMode demo_frame;
     fr_payload := fr_payload demo_frame; fr_uniqueId := -4; fr_dataTimestampNs := 300;
     fr_provenance := fr_provenance demo_frame |}.

Definition time_of (id : string) : Z := match id with "100-0" => 100 | "200-0" => 200 | "300-0" => 300 | _ => -1 end.

Definition camera_config : PVConfig :=
  PVConfig_default <| pv_name := "camera" |> <| pv_kind := Config.NTNDArray |> <| pv_type := UInt8 |> <| pv_shape := Array |>.

Definition first_snapshot : StreamSnapshot :=
  {| sx_present := true; sx_connected := true; sx_id := "100-0"; sx_fields := frame_attrs demo_frame |}.

(** A record that is no frame, the activation, and a frame three identifiers on. *)
Definition camera_ops : list nd_op :=
  [OItem ("200-0", ∅) meta demo_reader None 2; OActivate;
   OItem ("300-0", frame_attrs later_frame) meta demo_reader None 3].

Definition camera_run :=
  nd_run true time_of
    (nd_initialize true time_of camera_config 4096 1 nd_empty first_snapshot (Some 7) None 1)
    (Build_RuntimeStats 0 0 0) camera_ops.

Example camera_outcomes :
  camera_run.2 = [BadFrame; GoodFrame later_frame {| gap_skipped := 2; gap_discontinuity := false |}].
Proof. vm_compute. reflexivity. Qed.

Lemma frames_shown_whole_witness : shows (nd_pv camera_run.1.1) (frame_content later_frame).
Proof.
  destruct camera_run as [[s' stats'] outs] eqn:E. pose proof E as Er. unfold camera_run in Er.
  destruct (frames_shown_whole true time_of camera_config 4096 1 nd_empty first_snapshot (Some 7) None 1
    (Build_RuntimeStats 0 0 0) camera_ops s' stats' outs nd_empty_layout Er) as [_ H].
  apply H. pose proof camera_outcomes as Ho. rewrite E in Ho. cbn in Ho. rewrite Ho. reflexivity.
Defined.

Lemma frames_counted_once_witness :
  totals camera_run.1.1 camera_run.1.2 = {| st_invalidFrames := 1; st_skippedFrames := 2; st_discontinuities := 0 |}.
Proof.
  destruct camera_run as [[s' stats'] outs] eqn:E. pose proof E as Er. unfold camera_run in Er.
  pose proof (frames_counted_once true time_of _ _ _ s' stats' outs Er) as H.
  pose proof camera_outcomes as Ho. rewrite E in Ho. cbn in Ho. rewrite Ho in H. cbn [fst snd]. rewrite H.
  vm_compute. reflexivity.
Defined.

#[local] Existing Instance Demo.conv.
#[local] Existing Instance Demo.conv_laws.

Lemma accepted_pvs_have_runtimes_witness :
  Forall (fun pv => match makeRuntime (app_server Demo.config) pv {[ "default" := 1 ]} ∅ (app_limits Demo.config) with
                    | Ret _ => True | Throw _ => False end) (app_pvs Demo.config).
Proof.
  eapply Forall_impl; [apply (accepted_pvs_have_runtimes Demo.env Demo.document "/etc" Demo.config {[ "default" := 1 ]} ∅
    Demo.accepted)|].
  - intros alias Ha. assert (Hk : sm_keys (app_redisBackends Demo.config) = ["default"]) by (vm_compute; reflexivity).
    rewrite Hk in Ha. apply list_elem_of_singleton in Ha as ->. exists 1. reflexivity.
  - intros pv Hpv. cbn beta in Hpv. destruct (makeRuntime _ pv _ _ _) as [[]|]; [exact I|exact I|destruct Hpv].
Defined.

End CameraDemo.
