(* ===== verification/Discovery.v ===== *)
(** * Announcing the served names

    src/discovery.cpp: the catalog of records a receiver (RecCeiver) is sent,
    as bytes on the wire, and the publisher that uploads the latest catalog
    and keeps it synchronized.  The sockets are outside: what they deliver is
    an argument of a step.  The reference reader of catalogs is in
    DiscoverySpec. *)

From S2P Require Import Prelude.
From S2P Require Import StrMap.
From S2P Require Import Config.

Local Open Scope string_scope.
Local Open Scope list_scope.
Local Open Scope Z_scope.

Definition Bytes := list Z.
Definition magic : Z := 0x5243.

Record DiscoveryRecord := {
  dr_name : string;
  dr_type : string;
  dr_aliases : list string;
  dr_properties : smap string;
}.

Record DiscoveryCatalog := {
  ct_generation : Z;
  ct_records : Z;
  ct_aliases : Z;
  ct_wire : Bytes;
}.
#[export] Instance DiscoveryCatalog_eta : Eta DiscoveryCatalog := fun r =>
  Build_DiscoveryCatalog (ct_generation r) (ct_records r) (ct_aliases r) (ct_wire r).
#[export] Instance DiscoveryCatalog_eq_dec : EqDecision DiscoveryCatalog.
Proof. solve_decision. Defined.

(** ** Bytes *)

Definition append16 (out : Bytes) (value : Z) : Bytes :=
  out ++ [u8 (Z.shiftr (u16 value) 8); u8 (Z.land (u16 value) 255)].
Definition append32 (out : Bytes) (value : Z) : Bytes :=
  append16 (append16 out (Z.shiftr (u32 value) 16)) (Z.land (u32 value) 65535).
Definition read16 (bytes : Bytes) : Z :=
  u16 (Z.lor (Z.shiftl (nth 0 bytes 0) 8) (nth 1 bytes 0)).
Definition read32 (bytes : Bytes) : Z :=
  u32 (Z.lor (Z.shiftl (read16 bytes) 16) (read16 (drop 2 bytes))).

Definition text (value : string) : Bytes := map ascii_code (String.list_ascii_of_string value).
Definition appendText (out : Bytes) (value : string) : Bytes := out ++ text value.
Definition size (bytes : Bytes) : Z := Z.of_nat (length bytes).

Definition validateText (value : string) (maximum : Z) (field : string) (allowEmpty : bool) : exn unit :=
  throw_if ((negb allowEmpty && str_empty value) || (maximum <? strlen value) || has_nul value)
    ("discovery " +:+ field +:+ " is empty, too long, or contains NUL").

Definition message (wire : Bytes) (id : Z) (body : Bytes) (maximum : Z) : exn Bytes :=
  throw_if ((maximum <? size wire) || (maximum - size wire <? size body + 8)) "discovery catalog exceeds max_bytes" ;;
  Ret (append32 (append16 (append16 wire magic) id) (size body) ++ body).

Definition is_ascii (value : string) : bool := forallb (fun c => c <? 128) (text value).

Definition info_body (id : Z) (key value : string) : Bytes :=
  appendText (appendText (append16 (append32 [] id ++ [u8 (strlen key); 0]) (strlen value)) key) value.

Definition info (wire : Bytes) (id : Z) (key value : string) (maximum : Z) : exn Bytes :=
  validateText key 255 "property name" false ;;
  validateText value 65535 "property value" true ;;
  throw_if (negb (is_ascii key)) "discovery property names must be ASCII" ;;
  message wire 6 (info_body id key value) maximum.

Definition record_body (id : Z) (type name : string) : Bytes :=
  appendText (appendText (append16 (append32 [] id ++ [0; u8 (strlen type)]) (strlen name)) type) name.
Definition alias_body (id : Z) (alias : string) : Bytes :=
  appendText (append16 (append32 [] id ++ [1; 0]) (strlen alias)) alias.

(** The catalog so far, the names in it and the last identifier. *)
Record CatalogLoop := { cl_catalog : DiscoveryCatalog; cl_names : gset string; cl_id : Z }.

Definition catalog_full (limits : DiscoveryConfig) (c : DiscoveryCatalog) : bool :=
  dc_maxRecords limits <=? u64 (ct_records c + ct_aliases c).

Definition claim_name (names : gset string) (name : string) : exn (gset string) :=
  throw_if (bool_decide (name ∈ names)) ("duplicate discovery PV: " +:+ name) ;;
  Ret ({[name]} ∪ names).

Definition prepareAlias (limits : DiscoveryConfig) (s : CatalogLoop) (alias : string) : exn CatalogLoop :=
  let c := cl_catalog s in
  throw_if (catalog_full limits c) "discovery catalog exceeds max_records" ;;
  validateText alias 65535 "alias" false ;;
  names ← claim_name (cl_names s) alias;
  wire ← message (ct_wire c) 3 (alias_body (cl_id s) alias) (dc_maxBytes limits);
  Ret {| cl_catalog := c <| ct_wire := wire |> <| ct_aliases ::= fun n => u64 (n + 1) |>; cl_names := names;
         cl_id := cl_id s |}.

Definition prepareProperty (limits : DiscoveryConfig) (id : Z) (c : DiscoveryCatalog) (property : string * string)
    : exn DiscoveryCatalog :=
  wire ← info (ct_wire c) id property.1 property.2 (dc_maxBytes limits);
  Ret (c <| ct_wire := wire |>).

Definition prepareRecord (limits : DiscoveryConfig) (s : CatalogLoop) (record : DiscoveryRecord) : exn CatalogLoop :=
  let c := cl_catalog s in
  throw_if (catalog_full limits c) "discovery catalog exceeds max_records" ;;
  validateText (dr_name record) 65535 "PV name" false ;;
  validateText (dr_type record) 255 "type" false ;;
  names ← claim_name (cl_names s) (dr_name record);
  let id := u32 (cl_id s + 1) in
  wire ← message (ct_wire c) 3 (record_body id (dr_type record) (dr_name record)) (dc_maxBytes limits);
  let c := c <| ct_wire := wire |> <| ct_records ::= fun n => u64 (n + 1) |> in
  s ← exn_fold (prepareAlias limits) {| cl_catalog := c; cl_names := names; cl_id := id |} (dr_aliases record);
  c ← exn_fold (prepareProperty limits id) (cl_catalog s) (dr_properties record);
  Ret {| cl_catalog := c; cl_names := cl_names s; cl_id := id |}.

Definition prepareDiscoveryCatalog (limits : DiscoveryConfig) (generation : Z) (identity : smap string)
    (records : list DiscoveryRecord) : exn DiscoveryCatalog :=
  let c := {| ct_generation := generation; ct_records := 0; ct_aliases := 0; ct_wire := [] |} in
  c ← exn_fold (prepareProperty limits 0) c identity;
  s ← exn_fold (prepareRecord limits) {| cl_catalog := c; cl_names := ∅; cl_id := 0 |} records;
  wire ← message (ct_wire (cl_catalog s)) 5 (replicate 4 0) (dc_maxBytes limits);
  Ret ((cl_catalog s) <| ct_wire := wire |>).

(** ** Announcements of a receiver *)

(** Address and port are in host order; [peer] is the sender of the datagram. *)
Record Endpoint := { ep_address : Z; ep_port : Z; ep_key : Z }.

Definition parseAnnouncement (count : Z) (announcement : Bytes) (peer : Z) : option Endpoint :=
  if (count <? 16) || negb (read16 announcement =? magic) || negb (nth 2 announcement 0 =? 0) ||
     (read16 (drop 8 announcement) =? 0) || (read32 (drop 4 announcement) =? 0)
  then None
  else
    let ip := read32 (drop 4 announcement) in
    Some {| ep_address := if ip =? 0xffffffff then peer else ip; ep_port := read16 (drop 8 announcement);
            ep_key := read32 (drop 12 announcement) |}.

(** ** The publisher *)

Record DiscoveryStatus := {
  ds_state : string;
  ds_peer : string;
  ds_lastError : string;
  ds_desiredGeneration : Z;
  ds_synchronizedGeneration : Z;
  ds_records : Z;
  ds_aliases : Z;
  ds_bytes : Z;
  ds_uploads : Z;
  ds_failures : Z;
  ds_coalesced : Z;
  ds_invalidAnnouncements : Z;
  ds_port : Z;
}.
#[export] Instance DiscoveryStatus_eta : Eta DiscoveryStatus := fun r =>
  Build_DiscoveryStatus (ds_state r) (ds_peer r) (ds_lastError r) (ds_desiredGeneration r)
    (ds_synchronizedGeneration r) (ds_records r) (ds_aliases r) (ds_bytes r) (ds_uploads r) (ds_failures r)
    (ds_coalesced r) (ds_invalidAnnouncements r) (ds_port r).

(** Where the worker is: opening the UDP socket, taking the latest catalog,
    listening for announcements, holding off and connecting, greeting,
    uploading from an offset (before the check of [wait], and after it, before
    [::send]), waiting for a ping, answering one, and the delay
    after an error (returning to the inner or the outer loop). *)
Inductive worker :=
| WOpen
| WTake
| WListen (catalog : DiscoveryCatalog) (expected : Z) (candidate : option Endpoint)
| WConnect (catalog : DiscoveryCatalog) (expected : Z) (server : Endpoint)
| WGreet (catalog : DiscoveryCatalog) (expected : Z)
| WUpload (catalog : DiscoveryCatalog) (expected : Z) (offset : Z)
| WSend (catalog : DiscoveryCatalog) (expected : Z) (offset : Z)
| WPing (catalog : DiscoveryCatalog) (expected : Z)
| WPong (catalog : DiscoveryCatalog) (expected : Z)
| WDelay (inner : bool) (expected : Z)
| WEnd.

Record Impl := {
  im_latest : option DiscoveryCatalog;
  im_epoch : Z;
  im_stopping : bool;
  im_current : DiscoveryStatus;
  im_worker : worker;
}.
#[export] Instance Impl_eta : Eta Impl := fun r =>
  Build_Impl (im_latest r) (im_epoch r) (im_stopping r) (im_current r) (im_worker r).

Definition Impl_new : Impl :=
  {| im_latest := None; im_epoch := 0; im_stopping := false;
     im_current := {| ds_state := "idle"; ds_peer := ""; ds_lastError := ""; ds_desiredGeneration := 0;
       ds_synchronizedGeneration := 0; ds_records := 0; ds_aliases := 0; ds_bytes := 0; ds_uploads := 0;
       ds_failures := 0; ds_coalesced := 0; ds_invalidAnnouncements := 0; ds_port := 0 |};
     im_worker := WOpen |}.

(** [publish] with a catalog; the null check is the caller's [option]. *)
Definition publish (s : Impl) (catalog : option DiscoveryCatalog) : exn Impl :=
  match catalog with
  | None => Throw "discovery catalog must not be null"
  | Some catalog =>
      let current := im_current s in
      let current := match im_latest s with
                     | Some latest =>
                         if negb (ct_generation latest =? ds_synchronizedGeneration current)
                         then current <| ds_coalesced ::= fun n => u64 (n + 1) |> else current
                     | None => current
                     end in
      Ret (s <| im_current := current <| ds_desiredGeneration := ct_generation catalog |>
                                <| ds_records := ct_records catalog |> <| ds_aliases := ct_aliases catalog |>
                                <| ds_bytes := size (ct_wire catalog) |> |>
             <| im_latest := Some catalog |> <| im_epoch ::= fun n => u64 (n + 1) |>)
  end.

Definition stop (s : Impl) : Impl := s <| im_stopping := true |>.

(** [check]: has the worker been interrupted? *)
Definition check (s : Impl) (expected : Z) : bool := negb (im_stopping s || negb (im_epoch s =? expected)).

Definition state (s : Impl) (value : string) : Impl := s <| im_current ::= fun c => c <| ds_state := value |> |>.
Definition at_worker (s : Impl) (w : worker) : Impl := s <| im_worker := w |>.

(** The handlers of [std::exception]. *)
Definition failed (s : Impl) (what : string) (inner : bool) (expected : Z) : Impl :=
  at_worker (s <| im_current ::= fun c => c <| ds_failures ::= fun n => u64 (n + 1) |>
                 <| ds_lastError := String.substring 0 1024 what |> <| ds_state := "error" |> |>) (WDelay inner expected).

(** The head of a loop. *)
Definition loop (s : Impl) (inner : bool) : Impl :=
  at_worker s (if im_stopping s then WEnd else if inner then WTake else WOpen).

(** The socket is bound to [port], or it could not be. *)
Definition run_open (s : Impl) (port : exn Z) : Impl :=
  match port with
  | Ret port => loop (s <| im_current ::= fun c => c <| ds_port := port |> |>) true
  | Throw what => failed s what false (im_epoch s)
  end.

(** Take the latest catalog; without one, the worker waits here. *)
Definition run_take (s : Impl) : Impl :=
  match im_latest s with
  | Some catalog => at_worker (state s "listening") (WListen catalog (im_epoch s) None)
  | None => loop s true
  end.

(** One datagram of the batch. *)
Definition run_datagram (s : Impl) (catalog : DiscoveryCatalog) (expected : Z) (candidate : option Endpoint)
    (count : Z) (announcement : Bytes) (peer : Z) : Impl :=
  if negb (check s expected) then loop s true
  else match parseAnnouncement count announcement peer with
       | Some server => at_worker s (WListen catalog expected (Some server))
       | None => at_worker (s <| im_current ::= fun c => c <| ds_invalidAnnouncements ::= fun n => u64 (n + 1) |> |>)
                   (WListen catalog expected candidate)
       end.

(** The batch is over; after the hold-off the worker connects. *)
Definition run_batch (s : Impl) (catalog : DiscoveryCatalog) (expected : Z) (candidate : option Endpoint) : Impl :=
  match candidate with
  | None => loop s true
  | Some server =>
      if negb (check s expected) then loop s true
      else at_worker (state s "connecting") (WConnect catalog expected server)
  end.

(** The connection stands ([peer] its text). *)
Definition run_connected (s : Impl) (catalog : DiscoveryCatalog) (expected : Z) (peer : string) : Impl :=
  at_worker (s <| im_current ::= fun c => c <| ds_peer := peer |> |>) (WGreet catalog expected).

(** The greeting of the client, after the header and the version. *)
Definition greeting (key : Z) : exn Bytes := message [] 1 (append32 (replicate 4 0) key) 64.

(** [receiveMessage]: the header and the length of the body that follows. *)
Definition controlHeader (header : Bytes) : exn (Z * Z) :=
  throw_if (negb (read16 header =? magic) || (64 <? read32 (drop 4 header)))
    "invalid or oversized RecCeiver control message" ;;
  Ret (read16 (drop 2 header), read32 (drop 4 header)).

Definition run_greeted (s : Impl) (catalog : DiscoveryCatalog) (expected : Z) (response : Z * Bytes) : Impl :=
  if negb (response.1 =? 0x8001) || negb (size response.2 =? 1) || negb (nth 0 response.2 0 =? 0)
  then failed s "unsupported RecCeiver greeting" true expected
  else at_worker (state s "uploading") (WUpload catalog expected 0).

(** The bytes one [::send] is offered. *)
Definition chunk (data : Bytes) (offset : Z) : Bytes :=
  take (Z.to_nat (Z.min 16384 (size data - offset))) (drop (Z.to_nat offset) data).

(** The last look of [wait] at the flag and the epoch in a round of [send].  The
    socket is polled after it, so that the worker may be overtaken before it
    sends. *)
Definition run_wait (s : Impl) (catalog : DiscoveryCatalog) (expected offset : Z) : Impl :=
  if negb (check s expected) then loop s true else at_worker s (WSend catalog expected offset).

(** [::send]: the socket took [count] bytes, or would have blocked. *)
Definition run_send (s : Impl) (catalog : DiscoveryCatalog) (expected offset count : Z) : Impl :=
  at_worker s (WUpload catalog expected (if 0 <? count then offset + count else offset)).

(** [send] returned: the catalog is uploaded. *)
Definition run_uploaded (s : Impl) (catalog : DiscoveryCatalog) (expected : Z) : Impl :=
  at_worker (s <| im_current ::= fun c => c <| ds_state := "uploaded" |> <| ds_uploads ::= fun n => u64 (n + 1) |> |>)
    (WPing catalog expected).

Definition run_ping (s : Impl) (catalog : DiscoveryCatalog) (expected : Z) (ping : Z * Bytes) : Impl :=
  if negb (ping.1 =? 0x8002) || negb (size ping.2 =? 4) then failed s "invalid RecCeiver ping" true expected
  else at_worker s (WPong catalog expected).

(** The answer to a ping was sent. *)
Definition run_pong (s : Impl) (catalog : DiscoveryCatalog) (expected : Z) : Impl :=
  at_worker (s <| im_current ::= fun c => c <| ds_state := "synchronized" |>
                 <| ds_synchronizedGeneration := ct_generation catalog |> <| ds_lastError := "" |> |>)
    (WPing catalog expected).
