(* ===== verification/DiscoverySpec.v ===== *)
(** * What discovery promises

    A reference reader of catalogs, the round trip of every catalog the
    program prepares, and the publisher with a receiver on the other side of
    the connection: what the status says is what the receiver has. *)

From S2P Require Import Prelude.
From S2P Require Import StrMap.
From S2P Require Import Config.
From S2P Require Import Discovery.

Local Open Scope string_scope.
Local Open Scope list_scope.
Local Open Scope Z_scope.

(** ** The reader *)

(** A message of a catalog, texts as bytes. *)
Inductive wire_message :=
| MInfo (id : Z) (key value : Bytes)
| MRecord (id : Z) (type name : Bytes)
| MAlias (id : Z) (name : Bytes)
| MDone.

(** [n] bytes from the front, if there are that many. *)
Definition read_bytes (n : Z) (bytes : Bytes) : option (Bytes * Bytes) :=
  if size bytes <? n then None else Some (take (Z.to_nat n) bytes, drop (Z.to_nat n) bytes).

Definition read_body (id : Z) (body : Bytes) : option wire_message :=
  '(head, rest) ← read_bytes 8 body;
  let record := read32 head in
  let a := nth 4 head 0 in
  let b := nth 5 head 0 in
  '(text1, rest) ← read_bytes (if id =? 6 then a else b) rest;
  '(text2, rest) ← read_bytes (read16 (drop 6 head)) rest;
  match rest with
  | [] => if id =? 6 then if b =? 0 then Some (MInfo record text1 text2) else None
          else if id =? 3 then
            if a =? 0 then Some (MRecord record text1 text2)
            else if (a =? 1) && (b =? 0) then Some (MAlias record text2) else None
          else None
  | _ => None
  end.

Definition read_message (bytes : Bytes) : option (wire_message * Bytes) :=
  '(head, rest) ← read_bytes 8 bytes;
  '(body, rest) ← read_bytes (read32 (drop 4 head)) rest;
  if negb (read16 head =? magic) then None
  else let id := read16 (drop 2 head) in
       if id =? 5 then if bool_decide (body = replicate 4 0) then Some (MDone, rest) else None
       else m ← read_body id body; Some (m, rest).

(** The messages up to [MDone], which must be the last. *)
Fixpoint read_catalog (fuel : nat) (bytes : Bytes) : option (list wire_message) :=
  match fuel with
  | O => None
  | S fuel =>
      '(m, rest) ← read_message bytes;
      match m with
      | MDone => match rest with [] => Some [] | _ => None end
      | _ => l ← read_catalog fuel rest; Some (m :: l)
      end
  end.

(** What a catalog of these records says. *)
Definition property_messages (id : Z) (properties : smap string) : list wire_message :=
  map (fun p => MInfo id (text p.1) (text p.2)) properties.
Definition record_messages (id : Z) (r : DiscoveryRecord) : list wire_message :=
  MRecord id (text (dr_type r)) (text (dr_name r)) :: map (fun a => MAlias id (text a)) (dr_aliases r) ++
  property_messages id (dr_properties r).
Fixpoint records_messages (id : Z) (records : list DiscoveryRecord) : list wire_message :=
  match records with
  | [] => []
  | r :: records => record_messages (id + 1) r ++ records_messages (id + 1) records
  end.

(** ** Numbers on the wire *)

Lemma text_size s : size (text s) = strlen s.
Proof.
  unfold size, text, strlen. rewrite length_map. f_equal. induction s as [|c s IH]; cbn; [done|]. by rewrite IH.
Qed.

Lemma append16_app out v : append16 out v = out ++ append16 [] v.
Proof. done. Qed.
Lemma append32_app out v : append32 out v = out ++ append32 [] v.
Proof. unfold append32. rewrite (append16_app (append16 _ _)), (append16_app out), <-app_assoc. done. Qed.

Lemma length_append16 out v : length (append16 out v) = (length out + 2)%nat.
Proof. unfold append16. rewrite length_app. done. Qed.
Lemma length_append32 out v : length (append32 out v) = (length out + 4)%nat.
Proof. unfold append32. rewrite !length_append16. lia. Qed.

Lemma bytes16 v : 0 <= v < 65536 -> append16 [] v = [v / 256; v mod 256].
Proof.
  intros Hv. unfold append16. cbn [app]. unfold u16, u8. change (2 ^ 16) with 65536. rewrite (Z.mod_small v) by done.
  rewrite Z.shiftr_div_pow2 by lia. change 255 with (Z.ones 8). rewrite Z.land_ones by lia. change (2 ^ 8) with 256.
  rewrite (Z.mod_small (v / 256)), Zmod_mod; [done|]. split; [apply Z.div_pos; lia|apply Z.div_lt_upper_bound; lia].
Qed.

Lemma lor_add a b k : 0 <= k -> 0 <= a -> 0 <= b < 2 ^ k -> Z.lor (Z.shiftl a k) b = a * 2 ^ k + b.
Proof.
  intros Hk Ha Hb. pose proof (Z.add_lor_land (Z.shiftl a k) b) as H.
  assert (Z.land (Z.shiftl a k) b = 0) as Hl; [|rewrite Hl, Z.add_0_r in H; rewrite H; by rewrite Z.shiftl_mul_pow2].
  apply Z.bits_inj'. intros n Hn. rewrite Z.land_spec, Z.bits_0.
  destruct (Z.ltb_spec n k).
  - by rewrite Z.shiftl_spec_low.
  - destruct (Z.eq_dec b 0) as [->|]; [rewrite Z.bits_0; apply andb_false_r|].
    rewrite (Z.bits_above_log2 b n); [apply andb_false_r|lia|].
    apply Z.log2_lt_pow2; [lia|]. eapply Z.lt_le_trans; [apply Hb|]. apply Z.pow_le_mono_r; lia.
Qed.

Lemma read16_append v rest : 0 <= v < 65536 -> read16 (append16 [] v ++ rest) = v.
Proof.
  intros Hv. rewrite bytes16 by done. unfold read16. cbn [app nth].
  rewrite lor_add; [|lia|apply Z.div_pos; lia|apply Z.mod_pos_bound; lia].
  change (2 ^ 8) with 256. unfold u16. change (2 ^ 16) with 65536. rewrite Z.mod_small; [|rewrite Z.mul_comm, <-Z_div_mod_eq_full; done].
  by rewrite Z.mul_comm, <-Z_div_mod_eq_full.
Qed.

Lemma append32_parts v : 0 <= v < 4294967296 -> append32 [] v = append16 [] (v / 65536) ++ append16 [] (v mod 65536).
Proof.
  intros Hv. unfold append32. rewrite append16_app. unfold u32. change (2 ^ 32) with 4294967296. rewrite (Z.mod_small v) by done.
  rewrite Z.shiftr_div_pow2 by lia. change 65535 with (Z.ones 16). by rewrite Z.land_ones by lia.
Qed.

Lemma read32_append v rest : 0 <= v < 4294967296 -> read32 (append32 [] v ++ rest) = v.
Proof.
  intros Hv. rewrite append32_parts by done.
  assert (0 <= v / 65536 < 65536) as H1 by (split; [apply Z.div_pos; lia|apply Z.div_lt_upper_bound; lia]).
  assert (0 <= v mod 65536 < 65536) as H2 by (apply Z.mod_pos_bound; lia).
  unfold read32. rewrite <-app_assoc, read16_append by done.
  replace (drop 2 _) with (append16 [] (v mod 65536) ++ rest) by done.
  rewrite read16_append by done. rewrite lor_add by lia. unfold u32. change (2 ^ 16) with 65536. change (2 ^ 32) with 4294967296.
  rewrite Z.mod_small; rewrite (Z.mul_comm (v / 65536)), <-Z_div_mod_eq_full; done.
Qed.

Lemma read_bytes_app n a b : size a = n -> read_bytes n (a ++ b) = Some (a, b).
Proof.
  intros Hn. unfold read_bytes, size in *. rewrite length_app.
  destruct (Z.ltb_spec (Z.of_nat (length a + length b)) n); [lia|].
  rewrite take_app_length', drop_app_length' by lia. done.
Qed.

(** ** Messages *)

Definition encode (id : Z) (body : Bytes) : Bytes := append32 (append16 (append16 [] magic) id) (size body) ++ body.

Lemma message_ret wire id body maximum wire' :
  message wire id body maximum = Ret wire' -> wire' = wire ++ encode id body /\ size wire' <= maximum.
Proof.
  unfold message. intros Hr. apply exn_bind_ret in Hr as (u & Hu%throw_if_ret & [= <-]). bool_split.
  assert (append32 (append16 (append16 wire magic) id) (size body) ++ body = wire ++ encode id body) as ->.
  { unfold encode. rewrite append32_app, (append16_app (append16 wire _)), (append16_app wire).
    rewrite (append32_app (append16 _ _)), (append16_app (append16 [] _)), <-!app_assoc. done. }
  split; [done|]. unfold size, encode in *. rewrite !length_app, length_append32, !length_append16. cbn. lia.
Qed.

Lemma read_message_encode id body rest :
  0 <= id < 65536 -> size body < 4294967296 ->
  read_message (encode id body ++ rest) =
    if id =? 5 then if bool_decide (body = replicate 4 0) then Some (MDone, rest) else None
    else m ← read_body id body; Some (m, rest).
Proof.
  intros Hid Hs. assert (0 <= size body) as Hs0 by (unfold size; lia). unfold read_message, encode.
  rewrite <-app_assoc, read_bytes_app by (unfold size; by rewrite length_append32, !length_append16).
  cbn [mbind option_bind]. rewrite append32_app, (append16_app (append16 [] magic)), <-app_assoc.
  replace (drop 4 _) with (append32 [] (size body)) by done.
  replace (read32 (append32 [] (size body))) with (size body)
    by (rewrite <-(app_nil_r (append32 [] _)); by rewrite read32_append).
  rewrite read_bytes_app by done. cbn [mbind option_bind].
  rewrite read16_append by (unfold magic; lia). rewrite Z.eqb_refl. cbn [negb].
  replace (drop 2 _) with (append16 [] id ++ append32 [] (size body)) by done.
  by rewrite read16_append.
Qed.

Lemma read_body_parts mid id a b t1 t2 :
  0 <= id < 4294967296 -> size t1 = (if mid =? 6 then a else b) -> size t2 < 65536 ->
  read_body mid (append16 (append32 [] id ++ [a; b]) (size t2) ++ t1 ++ t2) =
    (if mid =? 6 then if b =? 0 then Some (MInfo id t1 t2) else None
     else if mid =? 3 then
       if a =? 0 then Some (MRecord id t1 t2)
       else if (a =? 1) && (b =? 0) then Some (MAlias id t2) else None
     else None).
Proof.
  intros Hid H1 H2. assert (0 <= size t2) as H0 by (unfold size; lia). unfold read_body.
  rewrite read_bytes_app by (unfold size; by rewrite length_append16, length_app, length_append32).
  cbn [mbind option_bind]. rewrite append16_app, <-app_assoc, read32_append by done.
  replace (nth 4 _ 0) with a by done. replace (nth 5 _ 0) with b by done.
  rewrite read_bytes_app by done. cbn [mbind option_bind].
  replace (drop 6 _) with (append16 [] (size t2)) by done.
  replace (read16 (append16 [] (size t2))) with (size t2)
    by (rewrite <-(app_nil_r (append16 [] _)); by rewrite read16_append).
  rewrite <-(app_nil_r t2) at 2. rewrite read_bytes_app by done. done.
Qed.

(** Bytes that read as these messages, whatever follows. *)
Definition says (bytes : Bytes) (l : list wire_message) : Prop :=
  forall fuel rest, read_catalog (length l + fuel) (bytes ++ rest) = (l' ← read_catalog fuel rest; Some (l ++ l')).

Lemma says_nil : says [] [].
Proof. intros fuel rest. cbn. by destruct (read_catalog fuel rest). Qed.

Lemma says_app b1 b2 l1 l2 : says b1 l1 -> says b2 l2 -> says (b1 ++ b2) (l1 ++ l2).
Proof.
  intros H1 H2 fuel rest. rewrite length_app, <-Nat.add_assoc, <-app_assoc, H1, H2.
  destruct (read_catalog fuel rest); cbn; [|done]. by rewrite app_assoc.
Qed.

Lemma says_message id body m :
  0 <= id < 65536 -> id <> 5 -> size body < 4294967296 -> read_body id body = Some m -> m <> MDone ->
  says (encode id body) [m].
Proof.
  intros Hid H5 Hs Hb Hm fuel rest. cbn [length Nat.add]. cbn [read_catalog].
  rewrite read_message_encode by done. rewrite (proj2 (Z.eqb_neq id 5)) by done. rewrite Hb. cbn.
  destruct m; try done; by destruct (read_catalog fuel rest).
Qed.

Lemma validateText_ret value maximum field allowEmpty u :
  validateText value maximum field allowEmpty = Ret u -> strlen value <= maximum.
Proof. unfold validateText. intros H%throw_if_ret. bool_split. done. Qed.

Lemma u8_small z : 0 <= z <= 255 -> u8 z = z.
Proof. intros Hz. unfold u8. apply Z.mod_small. change (2 ^ 8) with 256. lia. Qed.

Lemma info_ret wire id key value maximum wire' :
  0 <= id < 4294967296 -> info wire id key value maximum = Ret wire' ->
  exists b, wire' = wire ++ b /\ says b [MInfo id (text key) (text value)] /\ size wire' <= maximum.
Proof.
  intros Hid Hr. unfold info in Hr. apply exn_bind_ret in Hr as (? & Hk%validateText_ret & Hr).
  apply exn_bind_ret in Hr as (? & Hv%validateText_ret & Hr). apply exn_bind_ret in Hr as (? & _ & Hr).
  apply message_ret in Hr as [-> Hs]. eexists. split; [done|]. split; [|done].
  pose proof (strlen_nonneg key). pose proof (strlen_nonneg value).
  apply says_message; [lia|done| | |done].
  - unfold info_body, appendText, size. rewrite !length_app, length_append16, length_app, length_append32.
    pose proof (text_size key). pose proof (text_size value). unfold size in *. cbn. lia.
  - unfold info_body, appendText. rewrite <-app_assoc, <-(text_size value).
    rewrite read_body_parts; [done|done| |rewrite text_size; lia]. cbn. rewrite u8_small by lia. apply text_size.
Qed.

Lemma record_says id type name :
  0 <= id < 4294967296 -> strlen type <= 255 -> strlen name <= 65535 ->
  says (encode 3 (record_body id type name)) [MRecord id (text type) (text name)].
Proof.
  intros Hid Ht Hn. pose proof (strlen_nonneg type). pose proof (strlen_nonneg name).
  apply says_message; [lia|done| | |done].
  - unfold record_body, appendText, size. rewrite !length_app, length_append16, length_app, length_append32.
    pose proof (text_size type). pose proof (text_size name). unfold size in *. cbn. lia.
  - unfold record_body, appendText. rewrite <-app_assoc, <-(text_size name).
    rewrite read_body_parts; [done|done| |rewrite text_size; lia]. cbn. rewrite u8_small by lia. apply text_size.
Qed.

Lemma alias_says id alias :
  0 <= id < 4294967296 -> strlen alias <= 65535 -> says (encode 3 (alias_body id alias)) [MAlias id (text alias)].
Proof.
  intros Hid Hn. pose proof (strlen_nonneg alias). apply says_message; [lia|done| | |done].
  - unfold alias_body, appendText, size. rewrite !length_app, length_append16, length_app, length_append32.
    pose proof (text_size alias). unfold size in *. cbn. lia.
  - unfold alias_body, appendText. rewrite <-(text_size alias).
    pose proof (read_body_parts 3 id 1 0 [] (text alias)) as H1. cbn [app] in H1.
    rewrite H1; [done|done|done|rewrite text_size; lia].
Qed.

(** ** The whole catalog *)

Section Catalog.
Context (limits : DiscoveryConfig).
Context (Hrecords : 0 <= dc_maxRecords limits < 4294967296).
Implicit Types (c : DiscoveryCatalog) (s : CatalogLoop).

(** The wire says these messages within the limit; the counters count. *)
Record catalog_inv (generation : Z) c (l : list wire_message) (records aliases : Z) : Prop := {
  ci_generation : ct_generation c = generation;
  ci_says : says (ct_wire c) l;
  ci_bytes : ct_wire c = [] \/ size (ct_wire c) <= dc_maxBytes limits;
  ci_records : ct_records c = records /\ 0 <= records;
  ci_aliases : ct_aliases c = aliases /\ 0 <= aliases;
  ci_total : records + aliases <= dc_maxRecords limits;
}.

Lemma catalog_room g c l r a :
  catalog_inv g c l r a -> catalog_full limits c = false -> r + a < dc_maxRecords limits.
Proof.
  intros [_ _ _ [Er Hr] [Ea Ha] Ht] Hf. unfold catalog_full in Hf. rewrite Er, Ea in Hf. apply Z.leb_gt in Hf.
  unfold u64 in Hf. rewrite Z.mod_small in Hf; [done|]. change (2 ^ 64) with 18446744073709551616. lia.
Qed.

Lemma u64_count n : 0 <= n < 4294967296 -> u64 (n + 1) = n + 1.
Proof. intros Hn. unfold u64. apply Z.mod_small. change (2 ^ 64) with 18446744073709551616. lia. Qed.

Lemma property_inv g id c l r a p c' :
  0 <= id < 4294967296 -> catalog_inv g c l r a -> prepareProperty limits id c p = Ret c' ->
  catalog_inv g c' (l ++ [MInfo id (text p.1) (text p.2)]) r a.
Proof.
  intros Hid [H1 H2 H3 H4 H5 H6] Hr. unfold prepareProperty in Hr. apply exn_bind_ret in Hr as (wire & Hi & [= <-]).
  apply info_ret in Hi as (b & -> & Hb & Hs); [|done]. split; cbn; auto. by apply says_app.
Qed.

Lemma properties_inv g id ps : forall c l r a c',
  0 <= id < 4294967296 -> catalog_inv g c l r a -> exn_fold (prepareProperty limits id) c ps = Ret c' ->
  catalog_inv g c' (l ++ property_messages id ps) r a.
Proof.
  induction ps as [|p ps IH]; intros c l r a c' Hid Hc Hr; cbn [exn_fold] in Hr.
  - injection Hr as <-. unfold property_messages. cbn. by rewrite app_nil_r.
  - apply exn_bind_ret in Hr as (c1 & Hp & Hr). apply (property_inv g id c l r a) in Hp; [|done..].
    apply (IH c1 _ r a c' Hid Hp) in Hr. unfold property_messages in *. cbn [map]. by rewrite <-app_assoc in Hr.
Qed.

(** The names so far are distinct. *)
Definition names_inv (names : gset string) (l : list string) : Prop := names = list_to_set l /\ NoDup l.

Lemma claim_inv names l name names' :
  names_inv names l -> claim_name names name = Ret names' -> names_inv names' (l ++ [name]).
Proof.
  intros [-> Hnd] Hr. unfold claim_name in Hr. apply exn_bind_ret in Hr as (? & Hn%throw_if_ret & [= <-]).
  apply bool_decide_eq_false in Hn. rewrite elem_of_list_to_set in Hn. split; [set_solver|].
  apply NoDup_app. split_and!; [done|set_solver|apply NoDup_singleton].
Qed.

Lemma alias_inv g s l r a ns alias s' :
  0 <= cl_id s < 4294967296 -> catalog_inv g (cl_catalog s) l r a -> names_inv (cl_names s) ns ->
  prepareAlias limits s alias = Ret s' ->
  catalog_inv g (cl_catalog s') (l ++ [MAlias (cl_id s) (text alias)]) r (a + 1) /\
  names_inv (cl_names s') (ns ++ [alias]) /\ cl_id s' = cl_id s.
Proof.
  intros Hid Hc Hn Hr. unfold prepareAlias in Hr. apply exn_bind_ret in Hr as (? & Hf%throw_if_ret & Hr).
  apply exn_bind_ret in Hr as (? & Hv%validateText_ret & Hr). apply exn_bind_ret in Hr as (names & Hcl & Hr).
  apply exn_bind_ret in Hr as (wire & [-> Hs]%message_ret & [= <-]).
  pose proof (catalog_room _ _ _ _ _ Hc Hf) as Hroom. destruct Hc as [H1 H2 H3 [H4 H4'] [H5 H5'] H6]. cbn.
  split_and!; [|by eapply claim_inv|done]. split; cbn; auto.
  - apply says_app; [done|by apply alias_says].
  - rewrite H5. split; [apply u64_count|]; lia.
  - lia.
Qed.

Lemma aliases_inv g als : forall s l r a ns s',
  0 <= cl_id s < 4294967296 -> catalog_inv g (cl_catalog s) l r a -> names_inv (cl_names s) ns ->
  exn_fold (prepareAlias limits) s als = Ret s' ->
  catalog_inv g (cl_catalog s') (l ++ map (fun x => MAlias (cl_id s) (text x)) als) r (a + Z.of_nat (length als)) /\
  names_inv (cl_names s') (ns ++ als) /\ cl_id s' = cl_id s.
Proof.
  induction als as [|x als IH]; intros s l r a ns s' Hid Hc Hn Hr; cbn [exn_fold] in Hr.
  - injection Hr as <-. cbn. by rewrite !app_nil_r, Z.add_0_r.
  - apply exn_bind_ret in Hr as (s1 & Hp & Hr). apply (alias_inv g s l r a ns) in Hp as (C1 & N1 & I1); [|done..].
    rewrite <-I1 in Hid. apply (IH s1 _ r (a + 1) _ s' Hid C1 N1) in Hr as (C2 & N2 & I2).
    rewrite <-!app_assoc in C2. rewrite <-app_assoc in N2. rewrite I1 in C2, I2. cbn [length map].
    replace (a + Z.of_nat (S (length als))) with (a + 1 + Z.of_nat (length als)) by lia. done.
Qed.

Definition record_names (r : DiscoveryRecord) : list string := dr_name r :: dr_aliases r.

Lemma record_inv g s l k a ns rec s' :
  cl_id s = k -> catalog_inv g (cl_catalog s) l k a -> names_inv (cl_names s) ns ->
  prepareRecord limits s rec = Ret s' ->
  catalog_inv g (cl_catalog s') (l ++ record_messages (k + 1) rec) (k + 1) (a + Z.of_nat (length (dr_aliases rec))) /\
  names_inv (cl_names s') (ns ++ record_names rec) /\ cl_id s' = k + 1.
Proof.
  intros Hk Hc Hn Hr. unfold prepareRecord in Hr. cbv zeta in Hr. apply exn_bind_ret in Hr as (? & Hf%throw_if_ret & Hr).
  apply exn_bind_ret in Hr as (? & Hv%validateText_ret & Hr). apply exn_bind_ret in Hr as (? & Ht%validateText_ret & Hr).
  apply exn_bind_ret in Hr as (names & Hcl & Hr). apply exn_bind_ret in Hr as (wire & [-> Hs]%message_ret & Hr).
  apply exn_bind_ret in Hr as (s1 & Ha & Hr). apply exn_bind_ret in Hr as (c1 & Hp & [= <-]). cbn [cl_catalog cl_names cl_id].
  pose proof (catalog_room _ _ _ _ _ Hc Hf) as Hroom. destruct Hc as [H1 H2 H3 [H4 H4'] [H5 H5'] H6].
  assert (Hid : u32 (cl_id s + 1) = k + 1).
  { rewrite Hk. unfold u32. apply Z.mod_small. change (2 ^ 32) with 4294967296. lia. }
  rewrite Hid in *. assert (0 <= k + 1 < 4294967296) as Hb by lia.
  apply (aliases_inv g _ _ (l ++ [MRecord (k + 1) (text (dr_type rec)) (text (dr_name rec))]) (k + 1) a
    (ns ++ [dr_name rec])) in Ha as (C1 & N1 & I1); cbn [cl_id cl_catalog cl_names].
  - apply (properties_inv g (k + 1) _ _ _ (k + 1) _ _ Hb C1) in Hp. split_and!; [|by rewrite <-app_assoc in N1|done].
    rewrite <-!app_assoc in Hp. exact Hp.
  - done.
  - split; cbn; auto.
    + apply says_app; [done|by apply record_says].
    + rewrite H4. split; [apply u64_count|]; lia.
    + lia.
  - by eapply claim_inv.
Qed.

Fixpoint alias_count (records : list DiscoveryRecord) : Z :=
  match records with [] => 0 | r :: records => Z.of_nat (length (dr_aliases r)) + alias_count records end.

Lemma records_inv g recs : forall s l k a ns s',
  cl_id s = k -> catalog_inv g (cl_catalog s) l k a -> names_inv (cl_names s) ns ->
  exn_fold (prepareRecord limits) s recs = Ret s' ->
  catalog_inv g (cl_catalog s') (l ++ records_messages k recs) (k + Z.of_nat (length recs)) (a + alias_count recs) /\
  names_inv (cl_names s') (ns ++ concat (map record_names recs)).
Proof.
  induction recs as [|x recs IH]; intros s l k a ns s' Hid Hc Hn Hr; cbn [exn_fold] in Hr.
  - injection Hr as <-. cbn. by rewrite !app_nil_r, !Z.add_0_r.
  - apply exn_bind_ret in Hr as (s1 & Hp & Hr). apply (record_inv g s l k a ns) in Hp as (C1 & N1 & I1); [|done..].
    apply (IH s1 _ (k + 1) _ _ s' I1 C1 N1) in Hr as (C2 & N2).
    rewrite <-!app_assoc in C2. rewrite <-app_assoc in N2. cbn [length records_messages alias_count map concat].
    replace (k + Z.of_nat (S (length recs))) with (k + 1 + Z.of_nat (length recs)) by lia.
    by rewrite Z.add_assoc.
Qed.

(** The receiver is told exactly what is served: a catalog the program
    prepares reads back, to the last byte, as the identity properties and then
    each record with its type, aliases and properties under its own number, in the order
    given; it fits in [max_bytes], it has at most [max_records] records and
    aliases and says how many, and no name occurs in it twice. *)
Theorem catalog_roundtrip generation identity records c :
  prepareDiscoveryCatalog limits generation identity records = Ret c ->
  let messages := property_messages 0 identity ++ records_messages 0 records in
  read_catalog (S (length messages)) (ct_wire c) = Some messages /\
  size (ct_wire c) <= dc_maxBytes limits /\ ct_generation c = generation /\
  ct_records c = Z.of_nat (length records) /\ ct_aliases c = alias_count records /\
  ct_records c + ct_aliases c <= dc_maxRecords limits /\ NoDup (concat (map record_names records)).
Proof.
  intros Hr. cbv zeta. unfold prepareDiscoveryCatalog in Hr. apply exn_bind_ret in Hr as (c0 & Hp & Hr).
  apply exn_bind_ret in Hr as (s & Hf & Hr). apply exn_bind_ret in Hr as (wire & Hm & Hr).
  apply message_ret in Hm as [Hw Hs]. subst wire. injection Hr as <-.
  apply (properties_inv generation 0 _ _ [] 0 0) in Hp; [|lia|split; cbn; auto using says_nil; lia].
  assert (Hn : names_inv ∅ []) by (split; [done|constructor]).
  destruct (records_inv generation records {| cl_catalog := c0; cl_names := ∅; cl_id := 0 |} _ 0 0 [] s eq_refl Hp Hn Hf)
    as [[H1 H2 H3 [H4 H4'] [H5 H5'] H6] [_ N]].
  cbn [app] in *. cbn -[read_catalog length app].
  assert (Hend : read_catalog 1 (encode 5 (replicate 4 0)) = Some []).
  { cbn [read_catalog]. rewrite <-(app_nil_r (encode _ _)), read_message_encode by (unfold size; cbn; lia). done. }
  split_and!; try done.
  - pose proof (H2 1%nat (encode 5 (replicate 4 0))) as H. rewrite Hend in H. cbn [mbind option_bind] in H.
    rewrite app_nil_r, Nat.add_1_r in H. exact H.
  - lia.
Qed.

End Catalog.

(** ** The publisher and its receiver *)

(** [y_received]: the bytes on the current connection after the greeting.
    [y_done]: for every ping that was answered, the catalog of the worker and
    what the connection had carried.  [y_late]: for every [::send] of an upload
    made after a publication or [stop] had overtaken it, the epoch the upload
    was for and the number of bytes. *)
Record DSys := {
  y_impl : Impl;
  y_received : Bytes;
  y_published : list DiscoveryCatalog;
  y_done : list (DiscoveryCatalog * Bytes);
  y_late : list (Z * Z);
}.
#[export] Instance DSys_eta : Eta DSys := fun r =>
  Build_DSys (y_impl r) (y_received r) (y_published r) (y_done r) (y_late r).

Definition DSys_new : DSys := {| y_impl := Impl_new; y_received := []; y_published := []; y_done := []; y_late := [] |}.

(** The catalog and the epoch a worker goes on with. *)
Definition serving (w : worker) : option (DiscoveryCatalog * Z) :=
  match w with
  | WListen c e _ | WConnect c e _ | WGreet c e | WUpload c e _ | WSend c e _ | WPing c e | WPong c e => Some (c, e)
  | _ => None
  end.

(** Everything the sockets may do: the greeting and the pings are arbitrary
    messages, a send takes any part of the chunk offered, and at any point
    with a deadline the worker may be interrupted or fail. *)
Inductive dstep (y : DSys) : DSys -> Prop :=
| D_publish c s' :
    im_epoch (y_impl y) + 1 < 2 ^ 64 -> publish (y_impl y) (Some c) = Ret s' ->
    dstep y (y <| y_impl := s' |> <| y_published ::= cons c |>)
| D_stop : dstep y (y <| y_impl := stop (y_impl y) |>)
| D_open port : im_worker (y_impl y) = WOpen -> dstep y (y <| y_impl := run_open (y_impl y) port |>)
| D_take : im_worker (y_impl y) = WTake -> dstep y (y <| y_impl := run_take (y_impl y) |>)
| D_datagram c e candidate count announcement peer :
    im_worker (y_impl y) = WListen c e candidate ->
    dstep y (y <| y_impl := run_datagram (y_impl y) c e candidate count announcement peer |>)
| D_batch c e candidate :
    im_worker (y_impl y) = WListen c e candidate ->
    dstep y (y <| y_impl := run_batch (y_impl y) c e candidate |>)
| D_connected c e server peer :
    im_worker (y_impl y) = WConnect c e server ->
    dstep y (y <| y_impl := run_connected (y_impl y) c e peer |>)
| D_greeted c e response :
    im_worker (y_impl y) = WGreet c e ->
    dstep y (y <| y_impl := run_greeted (y_impl y) c e response |> <| y_received := [] |>)
| D_wait c e offset :
    im_worker (y_impl y) = WUpload c e offset -> offset <> size (ct_wire c) ->
    dstep y (y <| y_impl := run_wait (y_impl y) c e offset |>)
| D_send c e offset count :
    im_worker (y_impl y) = WSend c e offset -> 0 < count <= size (chunk (ct_wire c) offset) ->
    dstep y (y <| y_impl := run_send (y_impl y) c e offset count |>
               <| y_received ::= fun b => b ++ take (Z.to_nat count) (chunk (ct_wire c) offset) |>
               <| y_late ::= fun l => if check (y_impl y) e then l else (e, count) :: l |>)
| D_blocked c e offset :
    im_worker (y_impl y) = WSend c e offset -> dstep y (y <| y_impl := run_send (y_impl y) c e offset 0 |>)
| D_uploaded c e :
    im_worker (y_impl y) = WUpload c e (size (ct_wire c)) ->
    dstep y (y <| y_impl := run_uploaded (y_impl y) c e |>)
| D_ping c e ping :
    im_worker (y_impl y) = WPing c e -> dstep y (y <| y_impl := run_ping (y_impl y) c e ping |>)
| D_pong c e :
    im_worker (y_impl y) = WPong c e ->
    dstep y (y <| y_impl := run_pong (y_impl y) c e |> <| y_done ::= cons (c, y_received y) |>)
| D_interrupt c e :
    serving (im_worker (y_impl y)) = Some (c, e) -> check (y_impl y) e = false ->
    dstep y (y <| y_impl := loop (y_impl y) true |>)
| D_fail c e what :
    serving (im_worker (y_impl y)) = Some (c, e) -> dstep y (y <| y_impl := failed (y_impl y) what true e |>)
| D_delay inner e :
    im_worker (y_impl y) = WDelay inner e -> dstep y (y <| y_impl := loop (y_impl y) inner |>).

Definition worker_ok (published : list DiscoveryCatalog) (latest : option DiscoveryCatalog) (epoch : Z) (received : Bytes)
    (w : worker) : Prop :=
  (forall c e, serving w = Some (c, e) -> c ∈ published /\ e <= epoch /\ (e = epoch -> latest = Some c)) /\
  match w with
  | WUpload c _ offset | WSend c _ offset => 0 <= offset <= size (ct_wire c) /\ received = take (Z.to_nat offset) (ct_wire c)
  | WPing c _ | WPong c _ => received = ct_wire c
  | _ => True
  end.

Definition describes (c : DiscoveryCatalog) (d : DiscoveryStatus) : Prop :=
  ds_desiredGeneration d = ct_generation c /\ ds_records d = ct_records c /\ ds_aliases d = ct_aliases c /\
  ds_bytes d = size (ct_wire c).

Record dinv (y : DSys) : Prop := {
  di_epoch : 0 <= im_epoch (y_impl y);
  di_latest : forall c, im_latest (y_impl y) = Some c -> c ∈ y_published y /\ describes c (im_current (y_impl y));
  di_worker : worker_ok (y_published y) (im_latest (y_impl y)) (im_epoch (y_impl y)) (y_received y) (im_worker (y_impl y));
  di_done : forall c b, (c, b) ∈ y_done y -> c ∈ y_published y /\ b = ct_wire c;
  di_sync : ds_synchronizedGeneration (im_current (y_impl y)) <> 0 ->
    exists c b rest, y_done y = (c, b) :: rest /\ ct_generation c = ds_synchronizedGeneration (im_current (y_impl y));
}.

(** A step of the worker that keeps the connection. *)
Lemma dinv_worker y s' received :
  dinv y -> im_latest s' = im_latest (y_impl y) -> im_epoch s' = im_epoch (y_impl y) ->
  (forall c, describes c (im_current (y_impl y)) -> describes c (im_current s')) ->
  ds_synchronizedGeneration (im_current s') = ds_synchronizedGeneration (im_current (y_impl y)) ->
  worker_ok (y_published y) (im_latest (y_impl y)) (im_epoch (y_impl y)) received (im_worker s') ->
  dinv (y <| y_impl := s' |> <| y_received := received |>).
Proof.
  intros [H1 H2 H3 H4 H5] Hl He Hd Hs Hw. split; cbn; rewrite ?Hl, ?He, ?Hs; auto.
  intros c Hc. destruct (H2 c Hc) as [? ?]. split; auto.
Qed.

Lemma dinv_idle y s' :
  dinv y -> im_latest s' = im_latest (y_impl y) -> im_epoch s' = im_epoch (y_impl y) ->
  (forall c, describes c (im_current (y_impl y)) -> describes c (im_current s')) ->
  ds_synchronizedGeneration (im_current s') = ds_synchronizedGeneration (im_current (y_impl y)) ->
  serving (im_worker s') = None -> dinv (y <| y_impl := s' |>).
Proof.
  intros Hi Hl He Hd Hs Hw. pose proof (dinv_worker y s' (y_received y) Hi Hl He Hd Hs) as H. destruct y. apply H.
  split; [intros c e; by rewrite Hw|]. by destruct (im_worker s').
Qed.

Lemma dinv_late y late : dinv y -> dinv (y <| y_late := late |>).
Proof. intros [H1 H2 H3 H4 H5]. by split. Qed.

Lemma loop_idle s inner : serving (im_worker (loop s inner)) = None.
Proof. unfold loop. cbn. by destruct (im_stopping s), inner. Qed.

Lemma chunk_spec data offset count :
  0 <= offset <= size data -> 0 < count <= size (chunk data offset) ->
  offset + count <= size data /\
  take (Z.to_nat offset) data ++ take (Z.to_nat count) (chunk data offset) = take (Z.to_nat (offset + count)) data.
Proof.
  unfold chunk, size. rewrite length_take, length_drop. intros Ho Hc. split; [lia|].
  rewrite take_take, Nat.min_l by lia. rewrite Z2Nat.inj_add by lia. apply take_take_drop.
Qed.

Lemma dstep_inv y y' : dstep y y' -> dinv y -> dinv y'.
Proof.
  intros Hs Hi. assert (Hserve : forall c e, serving (im_worker (y_impl y)) = Some (c, e) -> forall w received,
    serving w = Some (c, e) ->
    match w with
    | WUpload c _ offset | WSend c _ offset => 0 <= offset <= size (ct_wire c) /\ received = take (Z.to_nat offset) (ct_wire c)
    | WPing c _ | WPong c _ => received = ct_wire c | _ => True end ->
    worker_ok (y_published y) (im_latest (y_impl y)) (im_epoch (y_impl y)) received w).
  { intros c e Hc w received Hw Hm. split; [|done]. intros c' e' He. rewrite Hw in He. injection He as <- <-.
    by apply (di_worker _ Hi). }
  pose proof (di_worker _ Hi) as [_ Hm].
  destruct Hs as [c s' Hb Hp| |port Hw|Hw|c e cand count ann peer Hw|c e cand Hw|c e server peer Hw|c e resp Hw|
    c e off Hw Hne|c e off count Hw Hc|c e off Hw|c e Hw|c e ping Hw|c e Hw|c e Hw Hck|c e what Hw|inner e Hw].
  - cbn in Hp. injection Hp as <-. destruct Hi as [H1 H2 H3 H4 H5].
    assert (He : u64 (im_epoch (y_impl y) + 1) = im_epoch (y_impl y) + 1) by (unfold u64; apply Z.mod_small; split; [apply Z.add_nonneg_nonneg; [exact H1|done]|exact Hb]).
    set (cur := match im_latest (y_impl y) with Some latest => _ | None => _ end).
    assert (Hcur : ds_synchronizedGeneration cur = ds_synchronizedGeneration (im_current (y_impl y))).
    { subst cur. destruct (im_latest (y_impl y)) as [l|]; [|done]. by destruct (negb _). }
    clearbody cur. split; cbn.
    + rewrite He. lia.
    + intros c' [= <-]. split; [left|done].
    + destruct H3 as [Hs Hr]. split; [|done]. intros c' e' Hse. destruct (Hs c' e' Hse) as (? & ? & _).
      rewrite He. split_and!; [by right|lia|lia].
    + intros c' b Hin. destruct (H4 c' b Hin). split; [by right|done].
    + rewrite Hcur. exact H5.
  - destruct Hi as [H1 H2 H3 H4 H5]. by split.
  - unfold run_open. destruct port; apply dinv_idle; try done; apply loop_idle.
  - unfold run_take. destruct (im_latest (y_impl y)) as [c|] eqn:El; [|apply dinv_idle; try done; apply loop_idle].
    pose proof (dinv_worker y (at_worker (state (y_impl y) "listening") (WListen c (im_epoch (y_impl y)) None)) (y_received y) Hi) as H.
    destruct y. apply H; try done. split; [|done]. intros c' e' [= <- <-]. split_and!; [by apply (di_latest _ Hi)|apply Z.le_refl|done].
  - unfold run_datagram. destruct (check (y_impl y) e); cbn [negb]; [|apply dinv_idle; try done; apply loop_idle].
    destruct (parseAnnouncement count ann peer) as [server|].
    + pose proof (dinv_worker y (at_worker (y_impl y) (WListen c e (Some server))) (y_received y) Hi) as H.
      destruct y. apply H; try done. apply (Hserve c e); [by rewrite Hw|done|done].
    + match goal with |- dinv (y <| y_impl := ?s' |>) => pose proof (dinv_worker y s' (y_received y) Hi) as H end.
      destruct y. apply H; try done. apply (Hserve c e); [by rewrite Hw|done|done].
  - unfold run_batch. destruct cand as [server|]; [|apply dinv_idle; try done; apply loop_idle].
    destruct (check (y_impl y) e); cbn [negb]; [|apply dinv_idle; try done; apply loop_idle].
    pose proof (dinv_worker y (at_worker (state (y_impl y) "connecting") (WConnect c e server)) (y_received y) Hi) as H.
    destruct y. apply H; try done. apply (Hserve c e); [by rewrite Hw|done|done].
  - match goal with |- dinv (y <| y_impl := ?s' |>) => pose proof (dinv_worker y s' (y_received y) Hi) as H end.
    destruct y. apply H; try done. apply (Hserve c e); [by rewrite Hw|done|done].
  - unfold run_greeted. destruct (_ || _ || _).
    + apply dinv_worker; done.
    + apply dinv_worker; try done. apply (Hserve c e); [by rewrite Hw|done|].
      split; [unfold size; lia|done].
  - rewrite Hw in Hm. unfold run_wait. destruct (check (y_impl y) e); cbn [negb]; [|apply dinv_idle; try done; apply loop_idle].
    pose proof (dinv_worker y (at_worker (y_impl y) (WSend c e off)) (y_received y) Hi) as H. destruct y. apply H; try done.
    apply (Hserve c e); [by rewrite Hw|done|done].
  - rewrite Hw in Hm. destruct Hm as [Hoff Hrec]. destruct (chunk_spec _ _ _ Hoff Hc) as [Hle Htk].
    apply dinv_late. apply dinv_worker; try done. apply (Hserve c e); [by rewrite Hw|done|]. cbn.
    rewrite (proj2 (Z.ltb_lt 0 count)), Hrec by lia. split; [lia|done].
  - rewrite Hw in Hm. pose proof (dinv_worker y (run_send (y_impl y) c e off 0) (y_received y) Hi) as H. destruct y. apply H; try done.
    apply (Hserve c e); [by rewrite Hw|done|done].
  - rewrite Hw in Hm. destruct Hm as [_ Hrec].
    pose proof (dinv_worker y (run_uploaded (y_impl y) c e) (y_received y) Hi) as H. destruct y. apply H; try done.
    apply (Hserve c e); [by rewrite Hw|done|]. cbn in *. rewrite Hrec. unfold size. rewrite Nat2Z.id. apply firstn_all.
  - rewrite Hw in Hm. unfold run_ping. destruct (_ || _); [apply dinv_idle; done|].
    pose proof (dinv_worker y (at_worker (y_impl y) (WPong c e)) (y_received y) Hi) as H. destruct y. apply H; try done.
    apply (Hserve c e); [by rewrite Hw|done|done].
  - rewrite Hw in Hm. destruct (di_worker _ Hi) as [Hsv _]. rewrite Hw in Hsv. destruct (Hsv c e eq_refl) as (Hpub & Hex).
    destruct Hi as [H1 H2 H3 H4 H5]. split; cbn.
    + done.
    + done.
    + split; [|done]. intros c' e' [= <- <-]. by split.
    + intros c' b [[= -> ->]|Hin]%elem_of_cons; [done|auto].
    + intros _. by exists c, (y_received y), (y_done y).
  - apply dinv_idle; try done. apply loop_idle.
  - by apply dinv_idle.
  - apply dinv_idle; try done. apply loop_idle.
Qed.

Lemma dinv_new : dinv DSys_new.
Proof. split; cbn; try done; by intros ? ? ?%not_elem_of_nil. Qed.

Lemma dreach_inv y : rtc dstep DSys_new y -> dinv y.
Proof. intros H. assert (Hi := dinv_new). revert Hi. induction H; eauto using dstep_inv. Qed.

(** *** Uploads that were overtaken *)

(** A late send is of an upload whose epoch is over, each upload has at most
    one, and one that is about to send has none yet. *)
Record late_inv (y : DSys) : Prop := {
  la_size : Forall (fun x => 0 < x.2 <= 16384) (y_late y);
  la_once : NoDup (y_late y).*1;
  la_over : forall x, x ∈ y_late y -> x.1 < im_epoch (y_impl y) \/ im_stopping (y_impl y) = true;
  la_send : match im_worker (y_impl y) with WSend _ e _ => e ∉ (y_late y).*1 | _ => True end;
}.

(** A step that sends nothing late: what is over stays over, and the worker is
    not about to send, or was before. *)
Lemma late_keep y y' :
  late_inv y -> y_late y' = y_late y -> im_epoch (y_impl y) <= im_epoch (y_impl y') ->
  (im_stopping (y_impl y) = true -> im_stopping (y_impl y') = true) ->
  match im_worker (y_impl y') with WSend _ _ _ => im_worker (y_impl y') = im_worker (y_impl y) | _ => True end -> late_inv y'.
Proof.
  intros [H1 H2 H3 H4] Hl He Hs Hw. split; rewrite ?Hl; try done.
  - intros x Hx. destruct (H3 x Hx); [left; lia|right; auto].
  - destruct (im_worker (y_impl y')); try done. by rewrite <-Hw in H4.
Qed.

Lemma chunk_size data offset : size (chunk data offset) <= 16384.
Proof. unfold chunk, size. rewrite length_take. lia. Qed.

Lemma dstep_late y y' : dstep y y' -> dinv y -> late_inv y -> late_inv y'.
Proof.
  intros Hs Hi Hl.
  assert (Hloop : forall s inner, im_epoch s = im_epoch (y_impl y) -> im_stopping s = im_stopping (y_impl y) ->
    late_inv (y <| y_impl := loop s inner |>)).
  { intros s inner He Hst. apply (late_keep y); try done; [cbn; lia|cbn; congruence|]. cbn. by destruct (im_stopping s), inner. }
  destruct Hs as [c s' Hb Hp| |port Hw|Hw|c e cand count ann peer Hw|c e cand Hw|c e server peer Hw|c e resp Hw|
    c e off Hw Hne|c e off count Hw Hc|c e off Hw|c e Hw|c e ping Hw|c e Hw|c e Hw Hck|c e what Hw|inner e Hw].
  - cbn in Hp. injection Hp as <-. pose proof (di_epoch _ Hi) as H0.
    assert (He : u64 (im_epoch (y_impl y) + 1) = im_epoch (y_impl y) + 1) by (unfold u64; apply Z.mod_small; lia).
    apply (late_keep y); try done; [cbn; rewrite He; lia|]. cbn. by destruct (im_worker (y_impl y)).
  - apply (late_keep y); try done; cbn. by destruct (im_worker (y_impl y)).
  - unfold run_open. destruct port; [by apply Hloop|]. by apply (late_keep y).
  - unfold run_take. destruct (im_latest _); [|by apply Hloop]. by apply (late_keep y).
  - unfold run_datagram. destruct (negb _); [by apply Hloop|]. destruct (parseAnnouncement _ _ _); by apply (late_keep y).
  - unfold run_batch. destruct cand; [|by apply Hloop]. destruct (negb _); [by apply Hloop|]. by apply (late_keep y).
  - by apply (late_keep y).
  - unfold run_greeted. destruct (_ || _ || _); by apply (late_keep y).
  - unfold run_wait. destruct (check (y_impl y) e) eqn:Ec; cbn [negb]; [|by apply Hloop].
    destruct Hl as [H1 H2 H3 H4]. split; try done. cbn. intros (x & -> & Hx)%list_elem_of_fmap.
    unfold check in Ec. bool_split. destruct (H3 x Hx); [lia|congruence].
  - destruct Hl as [H1 H2 H3 H4]. rewrite Hw in H4. destruct (di_worker _ Hi) as [Hsv _]. rewrite Hw in Hsv.
    destruct (Hsv c e eq_refl) as (_ & Hle & _). split; cbn; destruct (check (y_impl y) e) eqn:Ec; cbn; try done.
    + constructor; [|done]. pose proof (chunk_size (ct_wire c) off). cbn. lia.
    + by constructor.
    + intros x [->|Hx]%elem_of_cons; [|auto]. cbn. unfold check in Ec. destruct (im_stopping (y_impl y)); [by right|left].
      cbn in Ec. apply negb_false_iff, negb_true_iff, Z.eqb_neq in Ec. lia.
  - by apply (late_keep y).
  - by apply (late_keep y).
  - unfold run_ping. destruct (_ || _); by apply (late_keep y).
  - by apply (late_keep y).
  - by apply Hloop.
  - by apply (late_keep y).
  - by apply Hloop.
Qed.

Lemma dreach_late y : rtc dstep DSys_new y -> dinv y /\ late_inv y.
Proof.
  intros H. assert (Hi : dinv DSys_new /\ late_inv DSys_new).
  { split; [apply dinv_new|]. split; cbn; try done; [constructor|by intros ? ?%not_elem_of_nil]. }
  revert Hi. induction H as [|x y z Hxy _ IH]; [done|]. intros [Hi Hl]. apply IH. eauto using dstep_inv, dstep_late.
Qed.

(** C35. The discovery status is true: the desired generation, counts and size
    are those of the catalog published last; a synchronized generation, which
    may be that of an earlier catalog, is that of a published catalog whose
    whole wire image, and nothing else, was sent on a connection whose receiver
    was then answered a ping.  A worker that passes its interruption check is
    working on the latest catalog.  A publication may still come between that
    check and the [::send] after it: then one piece of the overtaken catalog
    goes out, of at most 16 KiB, which may be the rest of it, and no second
    one, because the next check ends the upload. *)
Theorem discovery_status_true y :
  rtc dstep DSys_new y ->
  (forall c, im_latest (y_impl y) = Some c -> c ∈ y_published y /\ describes c (im_current (y_impl y))) /\
  (ds_synchronizedGeneration (im_current (y_impl y)) <> 0 ->
   exists c rest, y_done y = (c, ct_wire c) :: rest /\ c ∈ y_published y /\
     ct_generation c = ds_synchronizedGeneration (im_current (y_impl y))) /\
  (forall c e, serving (im_worker (y_impl y)) = Some (c, e) -> check (y_impl y) e = true ->
   im_latest (y_impl y) = Some c) /\
  Forall (fun x => 0 < x.2 <= 16384) (y_late y) /\ NoDup (y_late y).*1.
Proof.
  intros [[H1 H2 [H3 _] H4 H5] [L1 L2 _ _]]%dreach_late. split_and!; try done.
  - intros Hne. destruct (H5 Hne) as (c & b & rest & Hd & Hg). destruct (H4 c b) as [Hp Hb]; [rewrite Hd; left|].
    exists c, rest. by subst b.
  - intros c e Hs Hc. destruct (H3 c e Hs) as (_ & _ & Hl). apply Hl. unfold check in Hc. bool_split. done.
Qed.

(** ** A receiver is synchronized *)

Module DiscoveryDemo.

Definition records : list DiscoveryRecord :=
  [{| dr_name := "dev:temp"; dr_type := "NTScalar"; dr_aliases := ["dev:t"]; dr_properties := [("units", "C")] |}].
Definition catalog : DiscoveryCatalog :=
  match prepareDiscoveryCatalog DiscoveryConfig_default 3 [("iocName", "demo")] records with
  | Ret c => c
  | Throw _ => {| ct_generation := 0; ct_records := 0; ct_aliases := 0; ct_wire := [] |}
  end.

Lemma prepared : prepareDiscoveryCatalog DiscoveryConfig_default 3 [("iocName", "demo")] records = Ret catalog.
Proof. vm_compute. reflexivity. Qed.

Lemma catalog_roundtrip_witness :
  size (ct_wire catalog) = 114 /\
  exists l, read_catalog 5 (ct_wire catalog) = Some l /\ length l = 4%nat.
Proof.
  destruct (catalog_roundtrip DiscoveryConfig_default ltac:(cbn; lia) 3 [("iocName", "demo")] records catalog prepared)
    as [H _].
  split; [vm_compute; reflexivity|]. eexists. split; [exact H|reflexivity].
Defined.

(** An announcement of port 5050 at 10.0.0.1 with key 7. *)
Definition announcement : Bytes := [0x52; 0x43; 0; 0; 10; 0; 0; 1; 0x13; 0xba; 0; 0; 0; 0; 0; 7].
Definition server : Endpoint := {| ep_address := 167772161; ep_port := 5050; ep_key := 7 |}.

Definition y1 : DSys := DSys_new <| y_impl := run_open (y_impl DSys_new) (Ret 5049) |>.
Definition y2 : DSys :=
  y1 <| y_impl := match publish (y_impl y1) (Some catalog) with Ret s => s | Throw _ => y_impl y1 end |>
     <| y_published ::= cons catalog |>.
Definition y3 : DSys := y2 <| y_impl := run_take (y_impl y2) |>.
Definition y4 : DSys := y3 <| y_impl := run_datagram (y_impl y3) catalog 1 None 16 announcement 0 |>.
Definition y5 : DSys := y4 <| y_impl := run_batch (y_impl y4) catalog 1 (Some server) |>.
Definition y6 : DSys := y5 <| y_impl := run_connected (y_impl y5) catalog 1 "10.0.0.1:5050" |>.
Definition y7 : DSys := y6 <| y_impl := run_greeted (y_impl y6) catalog 1 (0x8001, [0]) |> <| y_received := [] |>.
Definition y8w : DSys := y7 <| y_impl := run_wait (y_impl y7) catalog 1 0 |>.
Definition y8 : DSys :=
  y8w <| y_impl := run_send (y_impl y8w) catalog 1 0 114 |>
      <| y_received ::= fun b => b ++ take (Z.to_nat 114) (chunk (ct_wire catalog) 0) |>
      <| y_late ::= fun l => if check (y_impl y8w) 1 then l else (1, 114) :: l |>.
Definition y9 : DSys := y8 <| y_impl := run_uploaded (y_impl y8) catalog 1 |>.
Definition y10 : DSys := y9 <| y_impl := run_ping (y_impl y9) catalog 1 (0x8002, [0; 0; 0; 1]) |>.
Definition y11 : DSys := y10 <| y_impl := run_pong (y_impl y10) catalog 1 |> <| y_done ::= cons (catalog, y_received y10) |>.

Lemma y8w_reach : rtc dstep DSys_new y8w.
Proof.
  eapply rtc_l with y1; [apply D_open; reflexivity|].
  eapply rtc_l with y2; [apply D_publish; vm_compute; reflexivity|].
  eapply rtc_l with y3; [apply D_take; reflexivity|].
  eapply rtc_l with y4; [eapply (D_datagram y3); vm_compute; reflexivity|].
  eapply rtc_l with y5; [eapply (D_batch y4); vm_compute; reflexivity|].
  eapply rtc_l with y6; [eapply (D_connected y5 catalog 1 server); vm_compute; reflexivity|].
  eapply rtc_l with y7; [eapply (D_greeted y6); vm_compute; reflexivity|].
  apply rtc_once. eapply (D_wait y7); [vm_compute; reflexivity|vm_compute; discriminate].
Qed.

Lemma y11_reach : rtc dstep DSys_new y11.
Proof.
  etrans; [exact y8w_reach|].
  eapply rtc_l with y8; [eapply (D_send y8w); [vm_compute; reflexivity|vm_compute; split; [reflexivity|discriminate]]|].
  eapply rtc_l with y9; [eapply (D_uploaded y8); vm_compute; reflexivity|].
  eapply rtc_l with y10; [eapply (D_ping y9); vm_compute; reflexivity|].
  eapply rtc_l with y11; [eapply (D_pong y10); vm_compute; reflexivity|]. apply rtc_refl.
Qed.

(** The same catalog is published again between the check and the send: the
    piece goes out all the same, late. *)
Definition z1 : DSys :=
  y8w <| y_impl := match publish (y_impl y8w) (Some catalog) with Ret s => s | Throw _ => y_impl y8w end |>
      <| y_published ::= cons catalog |>.
Definition z2 : DSys :=
  z1 <| y_impl := run_send (y_impl z1) catalog 1 0 100 |>
     <| y_received ::= fun b => b ++ take (Z.to_nat 100) (chunk (ct_wire catalog) 0) |>
     <| y_late ::= fun l => if check (y_impl z1) 1 then l else (1, 100) :: l |>.

Lemma z2_reach : rtc dstep DSys_new z2.
Proof.
  etrans; [exact y8w_reach|]. eapply rtc_l with z1; [apply D_publish; vm_compute; reflexivity|]. apply rtc_once.
  eapply (D_send z1); [vm_compute; reflexivity|vm_compute; split; [reflexivity|discriminate]].
Qed.

Lemma discovery_status_true_witness :
  (exists c rest, y_done y11 = (c, ct_wire c) :: rest /\ ct_generation c = 3) /\ y_late z2 = [(1, 100)] /\ NoDup (y_late z2).*1.
Proof.
  destruct (discovery_status_true y11 y11_reach) as (_ & H & _ & _). destruct H as (c & rest & Hd & _ & Hg).
  - vm_compute. discriminate.
  - destruct (discovery_status_true z2 z2_reach) as (_ & _ & _ & _ & Hl).
    split; [exists c, rest; split; [exact Hd|exact Hg]|]. split; [vm_compute; reflexivity|exact Hl].
Defined.

End DiscoveryDemo.
