(* ===== verification/DiscoveryIO.v ===== *)
(** * The conversation with a receiver

    src/discovery.cpp, the network side of the publisher: waiting with a
    deadline and an interruption, sending and receiving in pieces, control
    messages, and [connectAndUpload] from the connection to the answered pings.
    The sockets and the clock are outside: a run takes the list of what each
    [poll], [send] and [recv] did, and is [Blocked] when the list ends before the
    program is done.  The states of the whole publisher and its interleaving with
    [publish] are in Discovery; this file shows what the receiver is sent,
    however the network cuts it. *)

From S2P Require Import Prelude.
From S2P Require Import StrMap.
From S2P Require Import Config.
From S2P Require Import Discovery.
From S2P Require Import DiscoverySpec.

Local Open Scope string_scope.
Local Open Scope list_scope.
Local Open Scope Z_scope.

(** ** What the outside does *)

(** The result of [poll]: interrupted by a signal, failed, or which of the
    wakeup socket and the socket are ready. *)
Inductive polled := PollAgain | PollFailed (error : string) | Polled (woken ready : bool).

(** One turn of the loop in [wait]: is the worker interrupted at its head, the
    clock, the poll, and is it interrupted after the wakeup was drained. *)
Record tick := { tk_before : bool; tk_now : Z; tk_poll : polled; tk_after : bool }.

(** What [::send] and [::recv] do: so many bytes at most, try again, or an
    error. *)
Inductive sending := Took (count : Z) | SendAgain | SendFailed (error : string).
Inductive receiving := Came (count : Z) | RecvAgain | RecvFailed (error : string).

(** A connection: what will happen on it, what the receiver got and what it
    sends. *)
Record Net := { nt_ticks : list tick; nt_sends : list sending; nt_recvs : list receiving; nt_out : Bytes; nt_in : Bytes }.
#[export] Instance Net_eta : Eta Net := fun r => Build_Net (nt_ticks r) (nt_sends r) (nt_recvs r) (nt_out r) (nt_in r).

(** ** Programs *)

Inductive halt := Interrupted | Failed (what : string).
Inductive io (A : Type) := Done (a : A) | Halt (h : halt) | Blocked.
Arguments Done {A} _.
Arguments Halt {A} _.
Arguments Blocked {A}.

(** The connection and the status under the lock. *)
Record Talk := { tl_net : Net; tl_current : DiscoveryStatus }.
#[export] Instance Talk_eta : Eta Talk := fun r => Build_Talk (tl_net r) (tl_current r).

Definition prog (A : Type) : Type := Talk -> Talk * io A.
Definition pret {A} (a : A) : prog A := fun t => (t, Done a).
Definition pbind {A B} (p : prog A) (f : A -> prog B) : prog B := fun t =>
  match p t with
  | (t, Done a) => f a t
  | (t, Halt h) => (t, Halt h)
  | (t, Blocked) => (t, Blocked)
  end.
Definition phalt {A} (h : halt) : prog A := fun t => (t, Halt h).
Definition pexn {A} (m : exn A) : prog A := match m with Ret a => pret a | Throw what => phalt (Failed what) end.
Definition note (f : DiscoveryStatus -> DiscoveryStatus) : prog unit := fun t => (t <| tl_current ::= f |>, Done tt).

#[export] Instance prog_bind : MBind prog := fun A B f p => pbind p f.

Definition socketError {A} (operation error : string) : prog A := phalt (Failed (operation +:+ ": " +:+ error)).

(** ** Waiting *)

(** Times are in nanoseconds; what is left of a deadline, in milliseconds. *)
Definition remaining (deadline now : Z) : Z := Z.quot (deadline - now) 1000000.

Fixpoint wait_turns (fd : bool) (deadline : Z) (ticks : list tick) : list tick * io unit :=
  match ticks with
  | [] => ([], Blocked)
  | t :: ticks =>
      if tk_before t then (ticks, Halt Interrupted)
      else if remaining deadline (tk_now t) <=? 0 then (ticks, Halt (Failed "discovery network deadline exceeded"))
      else match tk_poll t with
           | PollAgain => wait_turns fd deadline ticks
           | PollFailed error => (ticks, Halt (Failed ("discovery poll: " +:+ error)))
           | Polled woken ready =>
               if woken && tk_after t then (ticks, Halt Interrupted)
               else if fd && ready then (ticks, Done tt)
               else wait_turns fd deadline ticks
           end
  end.
Definition wait (fd : bool) (deadline : Z) : prog unit := fun t =>
  let '(ticks, r) := wait_turns fd deadline (nt_ticks (tl_net t)) in (t <| tl_net ::= fun n => n <| nt_ticks := ticks |> |>, r).

(** [interrupted] is what [check] finds when there is no delay. *)
Definition delay (millis now : Z) (interrupted : bool) : prog unit := fun t =>
  if millis =? 0 then (t, if interrupted then Halt Interrupted else Done tt)
  else match wait false (now + millis * 1000000) t with
       | (t, Halt (Failed _)) => (t, Done tt)
       | r => r
       end.

(** ** Sending and receiving *)

(** The receiver gets these bytes. *)
Definition transmit (bytes : Bytes) : prog unit := fun t =>
  (t <| tl_net ::= fun n => n <| nt_out ::= fun out => out ++ bytes |> |>, Done tt).

Definition sent (sends : list sending) : prog unit := fun t => (t <| tl_net ::= fun n => n <| nt_sends := sends |> |>, Done tt).
Definition blocked {A} : prog A := fun t => (t, Blocked).

(** The loop of [send], from [offset]; [sends] is what [::send] will do. *)
Fixpoint send_loop (sends : list sending) (data : Bytes) (deadline offset : Z) : prog unit :=
  if offset =? size data then sent sends
  else
    wait true deadline ;;
    match sends with
    | [] => blocked
    | SendAgain :: sends => send_loop sends data deadline offset
    | SendFailed error :: sends => socketError "discovery send" error
    | Took count :: sends =>
        let count := Z.min count (size (chunk data offset)) in
        if 0 <? count then
          transmit (take (Z.to_nat count) (chunk data offset)) ;;
          send_loop sends data deadline (offset + count)
        else socketError "discovery send" ""
    end.
Definition send (data : Bytes) (deadline : Z) : prog unit := fun t => send_loop (nt_sends (tl_net t)) data deadline 0 t.

(** The loop of [receive], with what was received so far. *)
Fixpoint receive_loop (recvs : list receiving) (total : Z) (deadline : Z) (got : Bytes) : prog Bytes :=
  if size got =? total then fun t => (t <| tl_net ::= fun n => n <| nt_recvs := recvs |> |>, Done got)
  else
    wait true deadline ;;
    match recvs with
    | [] => blocked
    | RecvAgain :: recvs => receive_loop recvs total deadline got
    | RecvFailed error :: recvs => socketError "discovery receive" error
    | Came count :: recvs => fun t =>
        let n := Z.to_nat (Z.min count (total - size got)) in
        let bytes := take n (nt_in (tl_net t)) in
        if size bytes =? 0 then (t, Halt (Failed "RecCeiver disconnected"))
        else receive_loop recvs total deadline (got ++ bytes)
               (t <| tl_net ::= fun net => net <| nt_in ::= drop n |> |>)
    end.
Definition receive (total deadline : Z) : prog Bytes := fun t => receive_loop (nt_recvs (tl_net t)) total deadline [] t.

Definition receiveMessage (deadline : Z) : prog (Z * Bytes) :=
  header ← receive 8 deadline;
  control ← pexn (controlHeader header);
  body ← receive control.2 deadline;
  pret (control.1, body).

(** ** The conversation *)

(** [::connect]: done, in progress (and then established, without a status, or
    with an error), or refused. *)
Inductive settled := Established | NoStatus (error : string) | Broken (error : string).
Inductive connecting := Connected | InProgress (s : settled) | Refused (error : string).

Definition connect (c : connecting) (deadline : Z) : prog unit :=
  match c with
  | Connected => pret tt
  | Refused error => socketError "connect to RecCeiver" error
  | InProgress s =>
      wait true deadline ;;
      match s with
      | Established => pret tt
      | NoStatus error => socketError "RecCeiver connection status" error
      | Broken error => socketError "connect to RecCeiver" error
      end
  end.

(** One turn of the loop of pings; [clocks] are the two readings of the clock. *)
Definition answerPing (catalog : DiscoveryCatalog) (timeout : Z) (clocks : Z * Z) : prog unit :=
  ping ← receiveMessage (clocks.1 + u64 (timeout * 4) * 1000000);
  (if negb (ping.1 =? 0x8002) || negb (size ping.2 =? 4) then phalt (Failed "invalid RecCeiver ping") else pret tt) ;;
  packet ← pexn (message [] 2 ping.2 64);
  send packet (clocks.2 + timeout * 1000000) ;;
  note (fun c => c <| ds_state := "synchronized" |> <| ds_synchronizedGeneration := ct_generation catalog |> <| ds_lastError := "" |>).

Fixpoint answerPings (catalog : DiscoveryCatalog) (timeout : Z) (rounds : list (Z * Z)) : prog unit :=
  match rounds with
  | [] => blocked
  | clocks :: rounds => answerPing catalog timeout clocks ;; answerPings catalog timeout rounds
  end.

(** [connectAndUpload] at time [now] with [config.timeoutMs] = [timeout]; [peer]
    is the text of the address. *)
Definition connectAndUpload (c : connecting) (peer : string) (key : Z) (catalog : DiscoveryCatalog) (now timeout : Z)
    (rounds : list (Z * Z)) : prog unit :=
  let deadline := now + timeout * 1000000 in
  note (fun c => c <| ds_state := "connecting" |>) ;;
  connect c deadline ;;
  note (fun c => c <| ds_peer := peer |>) ;;
  packet ← pexn (greeting key);
  send packet deadline ;;
  response ← receiveMessage deadline;
  (if negb (response.1 =? 0x8001) || negb (size response.2 =? 1) || negb (nth 0 response.2 0 =? 0)
   then phalt (Failed "unsupported RecCeiver greeting") else pret tt) ;;
  note (fun c => c <| ds_state := "uploading" |>) ;;
  send (ct_wire catalog) deadline ;;
  note (fun c => c <| ds_state := "uploaded" |> <| ds_uploads ::= fun n => u64 (n + 1) |>) ;;
  answerPings catalog timeout rounds.

(** ** What the parts do *)

(** How a program ends: it goes on with a value, or the whole ends there. *)
Lemma bind_cases {A B} (p : prog A) (f : A -> prog B) t t' r :
  (p ≫= f) t = (t', r) ->
  (exists a t1, p t = (t1, Done a) /\ f a t1 = (t', r)) \/
  (exists r0, p t = (t', r0) /\ (forall a, r0 <> Done a) /\ forall b, r <> Done b).
Proof.
  unfold mbind, prog_bind, pbind. destruct (p t) as [t1 [a|h|]]; intros H; [left; by exists a, t1|right..]; simplify_eq; eexists; by split_and!.
Qed.

(** Between two moments the receiver got [out] and the program read [inn]. *)
Definition moved (t t' : Talk) (out inn : Bytes) : Prop :=
  nt_out (tl_net t') = nt_out (tl_net t) ++ out /\ nt_in (tl_net t) = inn ++ nt_in (tl_net t').

Lemma moved_none t t' : nt_out (tl_net t') = nt_out (tl_net t) -> nt_in (tl_net t') = nt_in (tl_net t) -> moved t t' [] [].
Proof. intros H1 H2. split; [by rewrite H1, app_nil_r|by rewrite H2]. Qed.
Lemma moved_trans t1 t2 t3 o1 i1 o2 i2 : moved t1 t2 o1 i1 -> moved t2 t3 o2 i2 -> moved t1 t3 (o1 ++ o2) (i1 ++ i2).
Proof. intros [H1 H2] [H3 H4]. split; [by rewrite H3, H1, app_assoc|by rewrite H2, H4, app_assoc]. Qed.

Lemma wait_quiet fd deadline t t' r : wait fd deadline t = (t', r) -> moved t t' [] [] /\ tl_current t' = tl_current t.
Proof. unfold wait. destruct (wait_turns _ _ _) as [ticks r0]. intros [= <- _]. split; [by apply moved_none|done]. Qed.

(** A wait ends: by the first turn at or after its deadline at the latest. *)
Lemma wait_ends fd deadline ticks : Exists (fun t => deadline <= tk_now t) ticks -> (wait_turns fd deadline ticks).2 <> Blocked.
Proof.
  induction 1 as [t ticks Ht|t ticks _ IH]; cbn [wait_turns]; destruct (tk_before t); try done.
  - rewrite (proj2 (Z.leb_le (remaining deadline (tk_now t)) 0)); [done|]. unfold remaining.
    replace (deadline - tk_now t) with (- (tk_now t - deadline)) by lia. rewrite Z.quot_opp_l by lia.
    pose proof (Z.quot_pos (tk_now t - deadline) 1000000). lia.
  - destruct (_ <=? 0); [done|]. destruct (tk_poll t) as [|e|woken ready]; [done|done|].
    destruct (woken && tk_after t); [done|]. by destruct (fd && ready).
Qed.

(** Only a socket that was ready, in time and without an interruption, lets the
    program go on. *)
Lemma wait_ready deadline ticks ticks' : wait_turns true deadline ticks = (ticks', Done tt) ->
  exists before t, ticks = before ++ t :: ticks' /\ tk_before t = false /\ tk_now t < deadline /\ exists woken, tk_poll t = Polled woken true.
Proof.
  revert ticks'. induction ticks as [|t ticks IH]; intros ticks' H; cbn [wait_turns] in H; [done|].
  destruct (tk_before t) eqn:Hb; [done|]. destruct (Z.leb_spec (remaining deadline (tk_now t)) 0) as [|Hr]; [done|].
  assert (Hmore : wait_turns true deadline ticks = (ticks', Done tt) -> exists before x, t :: ticks = before ++ x :: ticks' /\
    tk_before x = false /\ tk_now x < deadline /\ exists woken, tk_poll x = Polled woken true)
    by (intros (before & x & -> & Hx)%IH; by exists (t :: before), x).
  destruct (tk_poll t) as [|e|woken ready] eqn:Hp; [by apply Hmore|done|].
  destruct (woken && tk_after t); [done|]. destruct ready; cbn [andb] in H; [|by apply Hmore]. injection H as <-.
  exists [], t. split_and!; [done|done| |by exists woken]. unfold remaining in Hr. destruct (decide (tk_now t < deadline)); [done|].
  replace (deadline - tk_now t) with (- (tk_now t - deadline)) in Hr by lia. rewrite Z.quot_opp_l in Hr by lia.
  pose proof (Z.quot_pos (tk_now t - deadline) 1000000). lia.
Qed.

(** A delay of some length is over in time, and only an interruption shows. *)
Lemma delay_over millis now interrupted t :
  millis <> 0 -> Exists (fun k => now + millis * 1000000 <= tk_now k) (nt_ticks (tl_net t)) ->
  (delay millis now interrupted t).2 = Done tt \/ (delay millis now interrupted t).2 = Halt Interrupted.
Proof.
  intros Hm Ht. unfold delay. rewrite (proj2 (Z.eqb_neq millis 0)) by done. unfold wait.
  pose proof (wait_ends false _ _ Ht) as He. destruct (wait_turns _ _ _) as [ticks r]. cbn in *.
  destruct r as [[]|[|what]|]; [by left|by right|by left|done].
Qed.

(** The receiver gets a prefix of the data, and all of it when [send] returns. *)
Lemma send_loop_spec sends data deadline offset t t' r :
  send_loop sends data deadline offset t = (t', r) -> 0 <= offset <= size data ->
  exists k, offset <= k <= size data /\ (r = Done tt -> k = size data) /\ tl_current t' = tl_current t /\
    exists out, moved t t' out [] /\ take (Z.to_nat offset) data ++ out = take (Z.to_nat k) data.
Proof.
  revert offset t. induction sends as [|x sends IH]; intros offset t H Ho; cbn [send_loop] in H; destruct (Z.eqb_spec offset (size data)) as [E|E].
  1,3: injection H as <- <-; exists offset; split_and!; [lia|lia|done|done|]; exists []; split; [by apply moved_none|by rewrite app_nil_r].
  - apply bind_cases in H as [([] & t1 & Hw & H)|(r0 & Hw & _ & Hr)]; apply wait_quiet in Hw as [Hm Hc].
    + injection H as <- <-. exists offset. split_and!; [lia|lia|done|done|]. exists []. split; [done|by rewrite app_nil_r].
    + exists offset. split_and!; [lia|lia|by intros ->; destruct (Hr tt)|done|]. exists []. split; [done|by rewrite app_nil_r].
  - apply bind_cases in H as [([] & t1 & Hw & H)|(r0 & Hw & _ & Hr)]; apply wait_quiet in Hw as [Hm Hc].
    2:{ exists offset. split_and!; [lia|lia|by intros ->; destruct (Hr tt)|done|]. exists []. split; [done|by rewrite app_nil_r]. }
    destruct x as [count| |error].
    + set (n := Z.min count (size (chunk data offset))) in *. destruct (Z.ltb_spec 0 n) as [Hn|Hn].
      * unfold mbind, prog_bind, pbind, transmit in H. destruct (chunk_spec data offset n Ho ltac:(lia)) as [Hle Htake].
        apply IH in H as (k & Hk & Hd & Hc' & out & Hm' & Hout); [|lia]. exists k. split_and!; [lia|lia|done|by rewrite Hc', <-Hc|].
        exists (take (Z.to_nat n) (chunk data offset) ++ out). split; [|by rewrite app_assoc, Htake].
        apply (moved_trans t t1 t' [] [] _ []); [done|]. destruct Hm' as [M1 M2]. split; [by rewrite M1, app_assoc|exact M2].
      * injection H as <- <-. exists offset. split_and!; [lia|lia|done|done|]. exists []. split; [done|by rewrite app_nil_r].
    + apply IH in H as (k & Hk & Hd & Hc' & out & Hm' & Hout); [|done]. exists k. split_and!; [lia|lia|done|by rewrite Hc', <-Hc|].
      exists out. split; [by apply (moved_trans t t1 t' [] [] out [])|done].
    + injection H as <- <-. exists offset. split_and!; [lia|lia|done|done|]. exists []. split; [done|by rewrite app_nil_r].
Qed.

Lemma send_spec data deadline t t' r : send data deadline t = (t', r) ->
  tl_current t' = tl_current t /\ exists out, moved t t' out [] /\ out `prefix_of` data /\ (r = Done tt -> out = data).
Proof.
  intros H. unfold send in H. apply send_loop_spec in H as (k & Hk & Hd & Hc & out & Hm & Hout); [|unfold size; lia].
  split; [done|]. exists out. change (take (Z.to_nat 0) data) with (@nil Z) in Hout. cbn [app] in Hout. subst out. split_and!; [done|apply prefix_take|]. intros Hr. rewrite (Hd Hr). unfold size. rewrite Nat2Z.id. by rewrite take_ge.
Qed.

(** What is received is the next bytes of the connection, in order, and exactly
    as many as were asked for. *)
Lemma receive_loop_spec recvs total deadline got t t' r :
  receive_loop recvs total deadline got t = (t', r) ->
  tl_current t' = tl_current t /\ exists inn, moved t t' [] inn /\ forall bytes, r = Done bytes -> bytes = got ++ inn /\ size bytes = total.
Proof.
  revert got t. induction recvs as [|x recvs IH]; intros got t H; cbn [receive_loop] in H; destruct (Z.eqb_spec (size got) total) as [E|E].
  1,3: injection H as <- <-; split; [done|]; exists []; split; [by apply moved_none|]; intros bytes [= <-]; by rewrite app_nil_r.
  - apply bind_cases in H as [([] & t1 & Hw & H)|(r0 & Hw & _ & Hr)]; apply wait_quiet in Hw as [Hm Hc]; [injection H as <- <-|];
      (split; [done|]); exists []; (split; [done|]); [done|]. intros bytes ->. by destruct (Hr bytes).
  - apply bind_cases in H as [([] & t1 & Hw & H)|(r0 & Hw & _ & Hr)]; apply wait_quiet in Hw as [Hm Hc].
    2:{ split; [done|]. exists []. split; [done|]. intros bytes ->. by destruct (Hr bytes). }
    destruct x as [count| |error].
    + set (n := Z.to_nat (Z.min count (total - size got))) in *. destruct (Z.eqb_spec (size (take n (nt_in (tl_net t1)))) 0) as [|Hb].
      * injection H as <- <-. split; [done|]. exists []. by split.
      * apply IH in H as (Hc' & inn & Hm' & Hd). split; [by rewrite Hc', <-Hc|]. exists (take n (nt_in (tl_net t1)) ++ inn). split.
        -- apply (moved_trans t t1 t' [] [] [] _); [done|]. destruct Hm' as [M1 M2]. split; [exact M1|].
           cbn in M2. by rewrite <-app_assoc, <-M2, take_drop.
        -- intros bytes Hr. destruct (Hd bytes Hr) as [-> ->]. by rewrite app_assoc.
    + apply IH in H as (Hc' & inn & Hm' & Hd). split; [by rewrite Hc', <-Hc|]. exists inn. split; [by apply (moved_trans t t1 t' [] [] [] inn)|done].
    + injection H as <- <-. split; [done|]. exists []. by split.
Qed.

Lemma receive_spec total deadline t t' r : receive total deadline t = (t', r) ->
  tl_current t' = tl_current t /\ exists inn, moved t t' [] inn /\ forall bytes, r = Done bytes -> bytes = inn /\ size bytes = total.
Proof. apply receive_loop_spec. Qed.

(** A control message of this kind and body: the header with the magic number
    and the length, then the body. *)
Definition is_control (kind : Z) (body bytes : Bytes) : Prop :=
  exists header, bytes = header ++ body /\ size header = 8 /\ read16 header = magic /\ read16 (drop 2 header) = kind /\
    read32 (drop 4 header) = size body /\ size body <= 64.

Lemma receiveMessage_spec deadline t t' r : receiveMessage deadline t = (t', r) ->
  tl_current t' = tl_current t /\ exists inn, moved t t' [] inn /\ forall kind body, r = Done (kind, body) -> is_control kind body inn.
Proof.
  unfold receiveMessage. intros H. apply bind_cases in H as [(header & t1 & H1 & H)|(r0 & H1 & _ & Hr)]; apply receive_spec in H1 as (C1 & i1 & M1 & D1).
  2:{ split; [done|]. exists i1. split; [done|]. intros kind body ->. by destruct (Hr (kind, body)). }
  destruct (D1 header eq_refl) as [-> Hsize]. apply bind_cases in H as [(control & t2 & H2 & H)|(r0 & H2 & _ & Hr)].
  2:{ assert (t' = t1) as -> by (unfold pexn in H2; destruct (controlHeader i1); by injection H2). split; [done|]. exists i1. split; [done|].
      intros kind body ->. by destruct (Hr (kind, body)). }
  unfold pexn in H2. destruct (controlHeader i1) as [control'|] eqn:Hctl; [|done]. injection H2 as <- <-.
  unfold controlHeader in Hctl. apply exn_bind_ret in Hctl as ([] & Hok%throw_if_ret & [= <-]). bool_split. cbn [fst snd] in H.
  apply bind_cases in H as [(body & t3 & H3 & H)|(r0 & H3 & _ & Hr)]; apply receive_spec in H3 as (C3 & i3 & M3 & D3).
  - destruct (D3 body eq_refl) as [-> Hb]. injection H as <- <-. split; [by rewrite C3|]. exists (i1 ++ i3).
    split; [by apply (moved_trans t t1 t3 [] i1 [] i3)|]. intros kind body [= <- <-]. exists i1. split_and!; try done; lia.
  - split; [by rewrite C3|]. exists (i1 ++ i3). split; [by apply (moved_trans t t1 t' [] i1 [] i3)|]. intros kind body ->. by destruct (Hr (kind, body)).
Qed.

(** ** What the receiver is sent *)

Definition hello (key : Z) : Bytes := encode 1 (append32 (replicate 4 0) key).
Definition is_welcome (bytes : Bytes) : Prop := exists body, is_control 0x8001 body bytes /\ size body = 1 /\ nth 0 body 0 = 0.
Definition is_ping (bytes : Bytes) : Prop := is_control 0x8002 (drop 8 bytes) bytes /\ size (drop 8 bytes) = 4.

(** The answer to a ping: its four bytes. *)
Definition pong (ping : Bytes) : Bytes := encode 2 (drop 8 ping).

Lemma control_body kind body bytes : is_control kind body bytes -> drop 8 bytes = body.
Proof. intros (header & -> & Hs & _). unfold size in Hs. apply drop_app_length'. lia. Qed.

Definition synchronized (catalog : DiscoveryCatalog) (c : DiscoveryStatus) : DiscoveryStatus :=
  c <| ds_state := "synchronized" |> <| ds_synchronizedGeneration := ct_generation catalog |> <| ds_lastError := "" |>.

(** The part of an answer that was sent when the conversation broke off. *)
Definition broken_off (out inn : Bytes) : Prop := out = [] \/ is_ping inn /\ out `prefix_of` pong inn.

Lemma answerPing_spec catalog timeout clocks t t' r : answerPing catalog timeout clocks t = (t', r) ->
  (r = Done tt /\ tl_current t' = synchronized catalog (tl_current t) /\ exists ping, is_ping ping /\ moved t t' (pong ping) ping) \/
  ((forall u, r <> Done u) /\ tl_current t' = tl_current t /\ exists out inn, moved t t' out inn /\ broken_off out inn).
Proof.
  unfold answerPing. intros H. apply bind_cases in H as [([kind body] & t1 & H1 & H)|(r0 & H1 & _ & Hr)];
    apply receiveMessage_spec in H1 as (C1 & inn & M1 & D1).
  2:{ right. split_and!; [done|done|]. exists [], inn. by split; [|left]. }
  specialize (D1 kind body eq_refl). apply bind_cases in H as [([] & t2 & H2 & H)|(r0 & H2 & _ & Hr)].
  2:{ right. assert (t' = t1) as -> by (destruct (_ || _); by injection H2). split_and!; [done|done|]. exists [], inn. by split; [|left]. }
  destruct (negb _ || _) eqn:Hping; [done|]. injection H2 as <-. cbn [fst snd] in *. bool_split. subst kind.
  pose proof (control_body _ _ _ D1) as Hbody. assert (Hp : is_ping inn) by (split; by rewrite Hbody).
  apply bind_cases in H as [(packet & t3 & H3 & H)|(r0 & H3 & _ & Hr)].
  2:{ right. assert (t' = t1) as -> by (unfold pexn in H3; destruct (message _ _ _ _); by injection H3). split_and!; [done|done|]. exists [], inn. by split; [|left]. }
  unfold pexn in H3. destruct (message [] 2 body 64) as [packet'|] eqn:Hm; [|done]. injection H3 as <- <-.
  apply message_ret in Hm as [-> _]. cbn [app] in H. rewrite <-Hbody in H. fold (pong inn) in H.
  apply bind_cases in H as [([] & t4 & H4 & H)|(r0 & H4 & Hr0 & Hr)]; apply send_spec in H4 as (C4 & out & M4 & Hpre & Hall).
  - left. rewrite (Hall eq_refl) in M4. injection H as <- <-. split_and!; [done|cbn; by rewrite C4, C1|]. exists inn. split; [done|].
    apply (moved_trans t t1 _ [] inn (pong inn) []) in M4; [|done]. rewrite app_nil_r in M4. exact M4.
  - right. split_and!; [done|by rewrite C4, C1|]. exists out, inn. split; [|by right].
    apply (moved_trans t t1 _ [] inn out []) in M4; [|done]. rewrite app_nil_r in M4. exact M4.
Qed.

Lemma answerPings_spec catalog timeout rounds t t' r : answerPings catalog timeout rounds t = (t', r) ->
  (forall u, r <> Done u) /\ exists pings tail inn, Forall is_ping pings /\
    moved t t' (concat (map pong pings) ++ tail) (concat pings ++ inn) /\ broken_off tail inn /\
    (pings = [] -> tl_current t' = tl_current t) /\
    (pings <> [] -> exists c, tl_current t' = synchronized catalog c).
Proof.
  revert t. induction rounds as [|clocks rounds IH]; intros t H; cbn [answerPings] in H.
  { injection H as <- <-. split; [done|]. exists [], [], []. split_and!; try done; [by apply moved_none|by left]. }
  apply bind_cases in H as [([] & t1 & H1 & H)|(r0 & H1 & Hr0 & Hr)];
    apply answerPing_spec in H1 as [(Hd & C1 & ping & Hp & M1)|(Hd & C1 & out & inn & M1 & Hb)]; [|by destruct (Hd tt)|by destruct (Hr0 tt)|].
  - apply IH in H as (Hr & pings & tail & inn & Hall & M & Hb & C2 & C3). split; [done|]. exists (ping :: pings), tail, inn.
    split_and!; [by constructor| |done|done|].
    + cbn [map concat]. rewrite <-!app_assoc. by apply (moved_trans t t1 t').
    + intros _. destruct pings as [|p pings]; [exists (tl_current t); by rewrite C2, C1|]. apply C3. done.
  - split; [done|]. exists [], out, inn. split_and!; try done.
Qed.

Lemma connect_quiet c deadline t t' r : connect c deadline t = (t', r) -> moved t t' [] [] /\ tl_current t' = tl_current t.
Proof.
  destruct c as [|s|error]; cbn [connect]; intros H; [injection H as <- _; split; [by apply moved_none|done]| |injection H as <- _; split; [by apply moved_none|done]].
  apply bind_cases in H as [([] & t1 & Hw & H)|(r0 & Hw & _)]; apply wait_quiet in Hw; [|done].
  destruct s; injection H as <- _; done.
Qed.

Lemma note_quiet f t t' r : note f t = (t', r) -> moved t t' [] [] /\ tl_current t' = f (tl_current t) /\ r = Done tt.
Proof. intros [= <- <-]. split; [by apply moved_none|done]. Qed.

(** The conversation up to the greeting of the receiver, and from there to the
    end. *)
Definition greet (c : connecting) (peer : string) (key deadline : Z) : prog unit :=
  note (fun c => c <| ds_state := "connecting" |>) ;;
  connect c deadline ;;
  note (fun c => c <| ds_peer := peer |>) ;;
  packet ← pexn (greeting key);
  send packet deadline ;;
  response ← receiveMessage deadline;
  if negb (response.1 =? 0x8001) || negb (size response.2 =? 1) || negb (nth 0 response.2 0 =? 0)
  then phalt (Failed "unsupported RecCeiver greeting") else pret tt.
Definition upload (catalog : DiscoveryCatalog) (deadline timeout : Z) (rounds : list (Z * Z)) : prog unit :=
  note (fun c => c <| ds_state := "uploading" |>) ;;
  send (ct_wire catalog) deadline ;;
  note (fun c => c <| ds_state := "uploaded" |> <| ds_uploads ::= fun n => u64 (n + 1) |>) ;;
  answerPings catalog timeout rounds.

Lemma bind_assoc {A B C} (p : prog A) (f : A -> prog B) (g : B -> prog C) t : ((p ≫= f) ≫= g) t = (p ≫= (fun a => f a ≫= g)) t.
Proof. unfold mbind, prog_bind, pbind. by destruct (p t) as [t1 [a|h|]]. Qed.
Lemma bind_ext {A B} (p : prog A) (f g : A -> prog B) t : (forall a t, f a t = g a t) -> (p ≫= f) t = (p ≫= g) t.
Proof. intros H. unfold mbind, prog_bind, pbind. by destruct (p t) as [t1 [a|h|]]. Qed.

Lemma connectAndUpload_parts c peer key catalog now timeout rounds t :
  connectAndUpload c peer key catalog now timeout rounds t =
  (greet c peer key (now + timeout * 1000000) ≫= fun _ => upload catalog (now + timeout * 1000000) timeout rounds) t.
Proof.
  unfold connectAndUpload, greet. symmetry. do 6 (rewrite bind_assoc; apply bind_ext; intros ? ?). reflexivity.
Qed.

Lemma greet_spec c peer key deadline t t' r : greet c peer key deadline t = (t', r) ->
  ds_state (tl_current t') = "connecting" /\ exists out inn, moved t t' out inn /\ out `prefix_of` hello key /\
  (r = Done tt -> out = hello key /\ is_welcome inn).
Proof.
  unfold greet. intros H. apply bind_cases in H as [([] & t1 & H1 & H)|(r0 & H1 & Hd & _)]; apply note_quiet in H1 as (M0 & C1 & E1); [|by destruct (Hd tt)].
  assert (Hs : ds_state (tl_current t1) = "connecting") by by rewrite C1.
  apply bind_cases in H as [([] & t2 & H2 & H)|(r0 & H2 & _ & Hr)]; apply connect_quiet in H2 as [M2 C2];
    pose proof (moved_trans _ _ _ _ _ _ _ M0 M2) as M; cbn [app] in M.
  2:{ split; [by rewrite C2|]. exists [], []. split_and!; [done|apply prefix_nil|by intros ->; destruct (Hr tt)]. }
  apply bind_cases in H as [([] & t3 & H3 & H)|(r0 & H3 & Hd & _)]; apply note_quiet in H3 as (M3' & C3 & E3); [|by destruct (Hd tt)].
  assert (Hs3 : ds_state (tl_current t3) = "connecting") by (rewrite C3; cbn; by rewrite C2).
  pose proof (moved_trans _ _ _ _ _ _ _ M M3') as M3. cbn [app] in M3. clear M0 M2 M M3' C1 C2 C3 Hs.
  apply bind_cases in H as [(packet & t4 & H4 & H)|(r0 & H4 & _ & Hr)].
  2:{ assert (t' = t3) as -> by (unfold pexn in H4; destruct (greeting key); by injection H4). split; [done|]. exists [], [].
      split_and!; [done|apply prefix_nil|by intros ->; destruct (Hr tt)]. }
  unfold pexn in H4. destruct (greeting key) as [packet'|] eqn:Hg; [|done]. injection H4 as <- <-.
  unfold greeting in Hg. apply message_ret in Hg as [-> _]. cbn [app] in H. fold (hello key) in H.
  apply bind_cases in H as [([] & t5 & H5 & H)|(r0 & H5 & _ & Hr)]; apply send_spec in H5 as (C5 & out & M5 & Hpre & Hall);
    pose proof (moved_trans _ _ _ _ _ _ _ M3 M5) as M; cbn [app] in M.
  2:{ split; [by rewrite C5|]. exists out, []. split_and!; [done|done|by intros ->; destruct (Hr tt)]. }
  specialize (Hall eq_refl). subst out. assert (Hs5 : ds_state (tl_current t5) = "connecting") by by rewrite C5.
  apply bind_cases in H as [([kind body] & t6 & H6 & H)|(r0 & H6 & _ & Hr)]; apply receiveMessage_spec in H6 as (C6 & inn & M6 & D6);
    pose proof (moved_trans _ _ _ _ _ _ _ M M6) as M7; rewrite app_nil_r in M7; cbn [app] in M7.
  2:{ split; [by rewrite C6|]. exists (hello key), inn. split_and!; [done|done|by intros ->; destruct (Hr tt)]. }
  specialize (D6 _ _ eq_refl). cbn [fst snd] in H. split; [destruct (_ || _); injection H as <- _; by rewrite C6|].
  exists (hello key), inn. destruct (negb _ || _ || _) eqn:Hw; injection H as <- <-; (split_and!; [done|done|]); [done|].
  intros _. bool_split. subst kind. split; [done|]. by exists body.
Qed.

(** C34. However the network cuts it, interrupts it or breaks off, the receiver is
    sent exactly its catalog.  Of a conversation on a new connection, on any course
    of polls, sends and receives: either it ended before the catalog was whole, and
    the receiver got a prefix of the greeting and the catalog; or the receiver sent
    its greeting, got the greeting and the whole catalog, and then for each ping it
    sent the four bytes of that ping, but for the part of one more answer.  The
    status says synchronized, with the generation of the catalog, exactly once a
    ping was answered.  What it was sent as catalog reads as the identity and the
    records the catalog was prepared from.  The conversation never ends of itself. *)
Theorem catalog_delivered limits generation identity records catalog c peer key now timeout rounds t :
  0 <= dc_maxRecords limits < 4294967296 ->
  prepareDiscoveryCatalog limits generation identity records = Ret catalog -> nt_out (tl_net t) = [] ->
  let '(t', r) := connectAndUpload c peer key catalog now timeout rounds t in
  let status := tl_current t' in
  let messages := property_messages 0 identity ++ records_messages 0 records in
  (forall u, r <> Done u) /\ read_catalog (S (length messages)) (ct_wire catalog) = Some messages /\
  (nt_out (tl_net t') `prefix_of` hello key ++ ct_wire catalog /\ (ds_state status = "connecting" \/ ds_state status = "uploading") \/
   exists welcome pings tail inn, is_welcome welcome /\ Forall is_ping pings /\ broken_off tail inn /\
     nt_in (tl_net t) = welcome ++ concat pings ++ inn ++ nt_in (tl_net t') /\
     nt_out (tl_net t') = hello key ++ ct_wire catalog ++ concat (map pong pings) ++ tail /\
     if bool_decide (pings = []) then ds_state status = "uploaded"
     else ds_state status = "synchronized" /\ ds_synchronizedGeneration status = generation).
Proof.
  intros Hlim Hprep Hout. destruct (connectAndUpload _ _ _ _ _ _ _ t) as [t' r] eqn:H. rewrite connectAndUpload_parts in H.
  destruct (catalog_roundtrip limits Hlim _ _ _ _ Hprep) as (Hread & _ & Hgen & _). cbv zeta.
  apply bind_cases in H as [([] & t1 & H1 & H)|(r0 & H1 & _ & Hr)]; apply greet_spec in H1 as (S1 & out & inn & M1 & Hpre & Hall).
  2:{ split_and!; [done|done|]. left. split; [|by left]. destruct M1 as [-> _]. rewrite Hout. by apply prefix_app_r. }
  destruct (Hall eq_refl) as [-> Hw]. clear Hall Hpre S1. unfold upload in H.
  apply bind_cases in H as [([] & t2 & H2 & H)|(r0 & H2 & Hd & _)]; apply note_quiet in H2 as (M2' & C2 & E2); [|by destruct (Hd tt)].
  pose proof (moved_trans _ _ _ _ _ _ _ M1 M2') as M2. rewrite !app_nil_r in M2.
  assert (S2 : ds_state (tl_current t2) = "uploading") by by rewrite C2.
  apply bind_cases in H as [([] & t3 & H3 & H)|(r0 & H3 & _ & Hr)]; apply send_spec in H3 as (C3 & out & M3 & Hpre & Hall);
    pose proof (moved_trans _ _ _ _ _ _ _ M2 M3) as M4; rewrite app_nil_r in M4.
  2:{ split_and!; [done|done|]. left. split; [|right; by rewrite C3]. destruct M4 as [-> _]. rewrite Hout. cbn [app]. by apply prefix_app. }
  rewrite (Hall eq_refl) in M4. apply bind_cases in H as [([] & t4 & H4 & H)|(r0 & H4 & Hd & _)];
    apply note_quiet in H4 as (M4' & C4 & E4'); [|by destruct (Hd tt)].
  pose proof (moved_trans _ _ _ _ _ _ _ M4 M4') as M6. rewrite !app_nil_r in M6. apply answerPings_spec in H as (Hr & pings & tail & inn' & Hp & M5 & Hb & C5 & C6).
  split_and!; [done|done|]. right. exists inn, pings, tail, inn'. destruct M6 as [F1 F2], M5 as [F3 F4]. split_and!; try done.
  - by rewrite F2, F4, <-!app_assoc.
  - by rewrite F3, F1, Hout, <-!app_assoc.
  - case_bool_decide as Hn; [by rewrite (C5 Hn), C4|]. destruct (C6 Hn) as [st ->]. by cbn.
Qed.

(** ** A conversation in pieces *)

Module TalkDemo.
Import DiscoveryDemo.

Definition on_time : tick := {| tk_before := false; tk_now := 1; tk_poll := Polled false true; tk_after := false |}.
Definition signalled : tick := {| tk_before := false; tk_now := 1; tk_poll := PollAgain; tk_after := false |}.
Definition interruption : tick := {| tk_before := true; tk_now := 2; tk_poll := Polled true false; tk_after := true |}.

(** The receiver greets and sends a ping, a few bytes at a time; the worker is
    interrupted while it waits for the next one. *)
Definition net : Net :=
  {| nt_ticks := signalled :: replicate 14 on_time ++ [interruption];
     nt_sends := [Took 7; SendAgain; Took 100; Took 50; Took 16384; Took 3; Took 9];
     nt_recvs := [Came 3; RecvAgain; Came 5; Came 1; Came 8; Came 4];
     nt_out := []; nt_in := encode 0x8001 [0] ++ encode 0x8002 [1; 2; 3; 4] |}.
Definition talk : Talk := {| tl_net := net; tl_current := im_current Impl_new |}.
Definition final : Talk * io unit := connectAndUpload (InProgress Established) "10.0.0.1:5050" 7 catalog 0 5000 [(0, 0); (0, 0)] talk.

Lemma catalog_delivered_witness :
  final.2 = Halt Interrupted /\ ds_state (tl_current final.1) = "synchronized" /\
  exists pings tail, pings <> [] /\ nt_out (tl_net final.1) = hello 7 ++ ct_wire catalog ++ concat (map pong pings) ++ tail.
Proof.
  pose proof (catalog_delivered DiscoveryConfig_default 3 [("iocName", "demo")] records catalog (InProgress Established) "10.0.0.1:5050" 7 0 5000
    [(0, 0); (0, 0)] talk ltac:(cbn; lia) prepared eq_refl) as H.
  fold final in H. rewrite (surjective_pairing final) in H. destruct H as (_ & _ & H). split; [vm_compute; reflexivity|].
  assert (Hs : ds_state (tl_current final.1) = "synchronized") by (vm_compute; reflexivity). split; [exact Hs|].
  destruct H as [[_ [E|E]]|(welcome & pings & tail & inn & _ & _ & _ & _ & Hout & Hst)]; [rewrite Hs in E; discriminate E..|].
  exists pings, tail. split; [|exact Hout]. intros ->. rewrite bool_decide_true in Hst by reflexivity. rewrite Hs in Hst. discriminate Hst.
Defined.
End TalkDemo.
