(* ===== verification/ChannelFinder.v ===== *)
(** * The directory of channels

    src/channelfinder.cpp: the channels a configuration is published as, their
    JSON text and the address they are sent to.  The clock behind
    [currentChannelFinderTime] is outside. *)

From S2P Require Import Prelude.
From S2P Require Import StrMap.
From S2P Require Import Config.
From S2P Require Import ConfigDiff.
From Stdlib Require Import Ascii.

Local Open Scope char_scope.
Local Open Scope string_scope.
Local Open Scope list_scope.
Local Open Scope Z_scope.

Definition kDefaultPvaServerPort : Z := 5075.

Record ChannelFinderChannel := {
  ch_name : string;
  ch_channelOwner : string;
  ch_channelTags : list string;
  ch_channelProperties : smap string;
}.
#[export] Instance ChannelFinderChannel_eta : Eta ChannelFinderChannel := fun r =>
  Build_ChannelFinderChannel (ch_name r) (ch_channelOwner r) (ch_channelTags r) (ch_channelProperties r).

(** The tags so far and the set of those seen. *)
Definition addUniqueTag (s : list string * sset) (tag : string) : list string * sset :=
  if str_empty tag then s
  else let '(seen, inserted) := ss_insert tag s.2 in
       (if inserted then s.1 ++ [tag] else s.1, seen).

Definition channelTags (config : AppConfig) : list string :=
  let s := foldl addUniqueTag ([], []) (ch_tags (app_channelFinder config)) in
  (addUniqueTag (addUniqueTag s "redis-pvxs-ioc") "pva").1.

(** [channel.properties[key] = value] *)
Definition set_properties (properties : smap string) (l : list (string * string)) : smap string :=
  foldl (fun m e => sm_set e.1 e.2 m) properties l.

Definition standardProperties (config : AppConfig) (syncTime : string) (pv : PVConfig) : list (string * string) :=
  [("source", "redis-pvxs-ioc"); ("protocol", "pva"); ("iocName", sv_instance (app_server config));
   ("namespace", sv_nameSpace (app_server config)); ("pvStatus", "Active"); ("time", syncTime);
   ("pvaPort", to_dec (default kDefaultPvaServerPort (sv_tcpPort (app_server config))));
   ("type", match pv_kind pv with NTNDArray => "ntndarray" | Value => toString_PrimitiveType (pv_type pv) end);
   ("shape", toString_Shape (pv_shape pv)); ("description", md_description (pv_metadata pv));
   ("units", md_units (pv_metadata pv))] ++
  match md_precision (pv_metadata pv) with Some precision => [("precision", to_dec precision)] | None => [] end ++
  [("redisBackend", rt_backend (pv_read pv)); ("redisReadKey", rt_key (pv_read pv))] ++
  match pv_write pv with Some w => [("redisWriteKey", rt_key w)] | None => [] end ++
  match pv_confirm pv with Some c => [("redisConfirmKey", cf_key c)] | None => [] end.

Definition pvChannels (config : AppConfig) (syncTime : string) (pv : PVConfig) : list ChannelFinderChannel :=
  let channel :=
    {| ch_name := fullPVName (app_server config) pv; ch_channelOwner := ch_owner (app_channelFinder config);
       ch_channelTags := channelTags config;
       ch_channelProperties := set_properties (set_properties [] (standardProperties config syncTime pv))
                                 (ch_properties (app_channelFinder config)) |} in
  channel :: map (fun alias => channel <| ch_name := alias |>
                                 <| ch_channelProperties ::= sm_set "aliasOf" (ch_name channel) |>) (pv_aliases pv).

Definition buildChannelFinderChannels (config : AppConfig) (syncTime : string) : list ChannelFinderChannel :=
  concat (map (pvChannels config syncTime) (app_pvs config)).

(** ** JSON *)

Definition jsonEscapeByte (c : Ascii.ascii) : string :=
  if bool_decide (c = quote_char) then String backslash (str1 quote_char)
  else if bool_decide (c = backslash) then String backslash (str1 backslash)
  else if bool_decide (c = "008"%char) then String backslash "b"
  else if bool_decide (c = "012"%char) then String backslash "f"
  else if bool_decide (c = "010"%char) then String backslash "n"
  else if bool_decide (c = "013"%char) then String backslash "r"
  else if bool_decide (c = "009"%char) then String backslash "t"
  else if (Ascii.N_of_ascii c <? 32)%N then
    String backslash ("u00" +:+ str1 (hex_digit (Ascii.N_of_ascii c / 16)) +:+
                      str1 (hex_digit (Ascii.N_of_ascii c mod 16)))
  else str1 c.

Fixpoint jsonEscape (input : string) : string :=
  match input with EmptyString => "" | String c rest => jsonEscapeByte c +:+ jsonEscape rest end.

Definition jsonString (value : string) : string := str1 quote_char +:+ jsonEscape value +:+ str1 quote_char.

Definition indented (n : nat) (s : string) : string := newline +:+ String.concat "" (replicate n " ") +:+ s.

Definition jsonKey (key : string) : string := str1 quote_char +:+ key +:+ str1 quote_char +:+ ": ".

Definition tagJson (owner tag : string) : string :=
  "{" +:+ jsonKey "name" +:+ jsonString tag +:+ ", " +:+ jsonKey "owner" +:+ jsonString owner +:+ "}".

Definition propertyJson (owner : string) (property : string * string) : string :=
  "{" +:+ jsonKey "name" +:+ jsonString property.1 +:+ ", " +:+ jsonKey "owner" +:+ jsonString owner +:+ ", " +:+
  jsonKey "value" +:+ jsonString property.2 +:+ "}".

Definition channelJson (channel : ChannelFinderChannel) : string :=
  "  {" +:+ indented 4 (jsonKey "name") +:+ jsonString (ch_name channel) +:+
  "," +:+ indented 4 (jsonKey "owner") +:+ jsonString (ch_channelOwner channel) +:+
  "," +:+ indented 4 (jsonKey "tags") +:+ "[" +:+
  join ", " (map (tagJson (ch_channelOwner channel)) (ch_channelTags channel)) +:+
  "]," +:+ indented 4 (jsonKey "properties") +:+ "[" +:+
  join ", " (map (propertyJson (ch_channelOwner channel)) (ch_channelProperties channel)) +:+
  "]" +:+ indented 2 "}".

Fixpoint channelsJson (channels : list ChannelFinderChannel) : string :=
  match channels with
  | [] => ""
  | [c] => channelJson c +:+ newline
  | c :: rest => channelJson c +:+ "," +:+ newline +:+ channelsJson rest
  end.

Definition channelFinderChannelsJson (channels : list ChannelFinderChannel) : string :=
  "[" +:+ newline +:+ channelsJson channels +:+ "]" +:+ newline.

(** ** The address *)

Definition endsWith (input suffix : string) : bool :=
  (String.length suffix <=? String.length input)%nat &&
  String.eqb (String.substring (String.length input - String.length suffix) (String.length suffix) input) suffix.

(** The loop removes from the back, so it works on the reversed text. *)
Fixpoint pop_slashes (l : list Ascii.ascii) : list Ascii.ascii :=
  match l with c :: l' => if bool_decide (c = "/"%char) then pop_slashes l' else l | [] => [] end.
Definition trimTrailingSlash (url : string) : string :=
  String.string_of_list_ascii (rev (pop_slashes (rev (String.list_ascii_of_string url)))).

Definition normalizeChannelFinderChannelsUrl (url : string) : exn string :=
  throw_if (str_empty url) "channelfinder.url must be set when publishing" ;;
  let trimmed := trimTrailingSlash url in
  if endsWith trimmed "/channels" then Ret trimmed
  else if endsWith trimmed "/resources" then Ret (trimmed +:+ "/channels")
  else Ret (trimmed +:+ "/resources/channels").
