(* ===== verification/ChannelFinderSpec.v ===== *)
(** * What is sent to ChannelFinder

    The JSON text read back with a reference reader, the channels of an
    accepted configuration, and the address they are sent to. *)

From S2P Require Import Prelude.
From S2P Require Import StrMap.
From S2P Require Import Config.
From S2P Require Import Endpoints.
From S2P Require Import Yaml.
From S2P Require Import ConfigParse.
From S2P Require Import ConfigDiff.
From S2P Require Import ConfigSafety.
From S2P Require Import ChannelFinder.
From Stdlib Require Import Ascii.

Local Open Scope char_scope.
Local Open Scope string_scope.
Local Open Scope list_scope.
Local Open Scope Z_scope.

(** ** A JSON reader

    The grammar of RFC 8259 restricted to strings, arrays and objects, the
    values the texts above are made of: the reference the writer is compared
    with.  [fuel] bounds the nesting and the number of items. *)

Inductive json :=
| JStr (s : string)
| JArr (l : list json)
| JObj (l : list (string * json)).

(** The character an escape letter stands for. *)
Definition unescape (e : Ascii.ascii) : option Ascii.ascii :=
  if bool_decide (e ∈ [quote_char; backslash; "/"%char]) then Some e
  else if bool_decide (e = "b"%char) then Some "008"%char
  else if bool_decide (e = "f"%char) then Some "012"%char
  else if bool_decide (e = "n"%char) then Some "010"%char
  else if bool_decide (e = "r"%char) then Some "013"%char
  else if bool_decide (e = "t"%char) then Some "009"%char
  else None.

(** The text after an opening quote: the string and the text after the closing
    quote.  Control characters must be escaped. *)
Fixpoint readJsonString (s : string) : option (string * string) :=
  match s with
  | EmptyString => None
  | String c s1 =>
      if bool_decide (c = quote_char) then Some (EmptyString, s1)
      else if bool_decide (c = backslash) then
        match s1 with
        | String "u"%char (String h1 (String h2 (String h3 (String h4 s2)))) =>
            match hex_value h1, hex_value h2, hex_value h3, hex_value h4 with
            | Some 0%N, Some 0%N, Some x, Some y => cons_fst (Ascii.ascii_of_N (16 * x + y)) (readJsonString s2)
            | _, _, _, _ => None
            end
        | String e s2 => d ← unescape e; cons_fst d (readJsonString s2)
        | EmptyString => None
        end
      else if (Ascii.N_of_ascii c <? 32)%N then None
      else cons_fst c (readJsonString s1)
  end.

Definition is_blank (c : Ascii.ascii) : bool := bool_decide (c ∈ ["032"; "010"; "013"; "009"]%char).
Fixpoint skip (s : string) : string :=
  match s with String c s' => if is_blank c then skip s' else s | EmptyString => EmptyString end.

(** The text after this character, when it is the next one that is not blank. *)
Definition next_is (c : Ascii.ascii) (s : string) : option string :=
  match skip s with String d s' => if bool_decide (d = c) then Some s' else None | EmptyString => None end.

Section Readers.
Context {A : Type} (item : string -> option (A * string)).

(** One or more items, with commas between them and a closing character. *)
Fixpoint readItems (close : Ascii.ascii) (fuel : nat) (s : string) : option (list A * string) :=
  match fuel with
  | O => None
  | S fuel =>
      '(v, s) ← item s;
      match next_is ","%char s with
      | Some s => '(l, s) ← readItems close fuel s; Some (v :: l, s)
      | None => s ← next_is close s; Some ([v], s)
      end
  end.

Definition readSequence (close : Ascii.ascii) (fuel : nat) (s : string) : option (list A * string) :=
  match next_is close s with Some s => Some ([], s) | None => readItems close fuel s end.

Definition readMember (s : string) : option ((string * A) * string) :=
  s ← next_is quote_char s; '(k, s) ← readJsonString s; s ← next_is ":"%char s;
  '(v, s) ← item s; Some ((k, v), s).
End Readers.

Fixpoint readValue (fuel : nat) (s : string) : option (json * string) :=
  match fuel with
  | O => None
  | S fuel =>
      match next_is quote_char s with
      | Some s => '(t, s) ← readJsonString s; Some (JStr t, s)
      | None =>
          match next_is "["%char s with
          | Some s => '(l, s) ← readSequence (readValue fuel) "]"%char fuel s; Some (JArr l, s)
          | None =>
              s ← next_is "{"%char s;
              '(l, s) ← readSequence (readMember (readValue fuel)) "}"%char fuel s; Some (JObj l, s)
          end
      end
  end.

(** What the channels mean as JSON. *)
Definition tag_value (owner tag : string) : json := JObj [("name", JStr tag); ("owner", JStr owner)].
Definition property_value (owner : string) (p : string * string) : json :=
  JObj [("name", JStr p.1); ("owner", JStr owner); ("value", JStr p.2)].
Definition channel_value (c : ChannelFinderChannel) : json :=
  JObj [("name", JStr (ch_name c)); ("owner", JStr (ch_channelOwner c));
        ("tags", JArr (map (tag_value (ch_channelOwner c)) (ch_channelTags c)));
        ("properties", JArr (map (property_value (ch_channelOwner c)) (ch_channelProperties c)))].

(** ** Reading back *)

Lemma readJsonString_byte c r : readJsonString (jsonEscapeByte c +:+ r) = cons_fst c (readJsonString r).
Proof. by destruct c as [[] [] [] [] [] [] [] []]. Qed.

Lemma readJsonString_escape s r : readJsonString (jsonEscape s +:+ str1 quote_char +:+ r) = Some (s, r).
Proof.
  induction s as [|c s IH]; cbn [jsonEscape]; [reflexivity|]. by rewrite <-str_app_assoc, readJsonString_byte, IH.
Qed.

(** Text that is skipped. *)
Definition blank (s : string) : Prop := forall r, skip (s +:+ r) = skip r.

Lemma blank_nil : blank EmptyString.
Proof. done. Qed.
Lemma blank_app a b : blank a -> blank b -> blank (a +:+ b).
Proof. intros Ha Hb r. by rewrite <-str_app_assoc, Ha, Hb. Qed.
Lemma next_is_blank b c s : blank b -> next_is c (b +:+ s) = next_is c s.
Proof. intros Hb. unfold next_is. by rewrite Hb. Qed.

(** [t] is read as [v] whatever blanks come before it and whatever follows. *)
Definition reads {A} (f : string -> option (A * string)) (t : string) (v : A) : Prop :=
  forall b rest, blank b -> f (b +:+ t +:+ rest) = Some (v, rest).

Lemma reads_blank {A} (f : string -> option (A * string)) b t v : blank b -> reads f t v -> reads f (b +:+ t) v.
Proof. intros Hb Ht b' rest Hb'. rewrite <-str_app_assoc, str_app_assoc. by apply Ht, blank_app. Qed.

Lemma reads_string n s : reads (readValue (S n)) (jsonString s) (JStr s).
Proof.
  intros b rest Hb. cbn [readValue]. unfold jsonString. rewrite !(next_is_blank b), <-!str_app_assoc by done.
  change (next_is quote_char (str1 quote_char +:+ ?x)) with (Some x). cbn -[readJsonString jsonEscape].
  by rewrite readJsonString_escape.
Qed.

Lemma str_app_nil_l a : EmptyString +:+ a = a.
Proof. done. Qed.
Lemma join_cons sep x y l : join sep (x :: y :: l) = x +:+ sep +:+ join sep (y :: l).
Proof. done. Qed.

(** A character that ends a sequence. *)
Definition closing (c : Ascii.ascii) : Prop := is_blank c = false /\ c <> ","%char.

Lemma next_is_here c s : is_blank c = false -> next_is c (str1 c +:+ s) = Some s.
Proof.
  intros H. unfold next_is. change (skip (str1 c +:+ s)) with (if is_blank c then skip s else String c s).
  by rewrite H, bool_decide_true.
Qed.
Lemma next_is_other c d s : is_blank d = false -> d <> c -> next_is c (str1 d +:+ s) = None.
Proof.
  intros H ?. unfold next_is. change (skip (str1 d +:+ s)) with (if is_blank d then skip s else String d s).
  by rewrite H, bool_decide_false.
Qed.

Lemma reads_items {A} (item : string -> option (A * string)) close sep stop ts vs n :
  closing close -> blank sep -> blank stop -> ts <> [] -> Forall2 (reads item) ts vs -> (length ts <= n)%nat ->
  reads (readItems item close n) (join ("," +:+ sep) ts +:+ stop +:+ str1 close) vs.
Proof.
  intros [Hc1 Hc2] Hsep Hstop Hne Hts. revert n Hne.
  induction Hts as [|t v ts vs Ht Hts IH]; intros n Hne Hn; [done|]. destruct n as [|n]; cbn in Hn; [lia|].
  intros b rest Hb. destruct ts as [|t2 ts].
  - inversion Hts; subst. cbn [join readItems]. rewrite <-!str_app_assoc, Ht by done. cbn [mbind option_bind].
    by rewrite !(next_is_blank stop), next_is_other, next_is_here by done.
  - cbn [readItems]. rewrite join_cons, <-!str_app_assoc, Ht by done. cbn [mbind option_bind].
    rewrite (next_is_here ","%char) by done.
    pose proof (IH n ltac:(done) ltac:(lia) sep rest Hsep) as E. rewrite <-!str_app_assoc in E. by rewrite E.
Qed.

(** The first character of the text of a value is not a closing bracket, blanks
    apart. *)
Definition opens (close : Ascii.ascii) (t : string) : Prop := forall rest, next_is close (t +:+ rest) = None.

Lemma reads_sequence {A} (item : string -> option (A * string)) close sep start stop ts vs n :
  closing close -> blank sep -> blank start -> blank stop -> Forall (opens close) ts ->
  Forall2 (reads item) ts vs -> (length ts <= n)%nat ->
  reads (readSequence item close n) (start +:+ join ("," +:+ sep) ts +:+ stop +:+ str1 close) vs.
Proof.
  intros Hc Hsep Hstart Hstop Hop Hts Hn b rest Hb. unfold readSequence.
  rewrite (next_is_blank b), <-!str_app_assoc, (next_is_blank start) by done.
  destruct Hts as [|t v ts vs Ht Hts].
  - cbn [join]. change (EmptyString +:+ ?x) with x. rewrite (next_is_blank stop), next_is_here by (done || apply Hc). done.
  - inversion Hop as [|? ? Ho]; subst.
    assert (next_is close (join ("," +:+ sep) (t :: ts) +:+ stop +:+ str1 close +:+ rest) = None) as ->.
    { destruct ts; rewrite ?join_cons, <-?str_app_assoc; apply Ho. }
    rewrite str_app_assoc.
    pose proof (reads_items item close sep stop (t :: ts) (v :: vs) n Hc Hsep Hstop ltac:(done)
                  ltac:(by constructor) Hn (b +:+ start) rest (blank_app _ _ Hb Hstart)) as E.
    by rewrite <-!str_app_assoc in *.
Qed.

Lemma closing_square : closing "]"%char.
Proof. done. Qed.
Lemma closing_curly : closing "}"%char.
Proof. done. Qed.
Lemma blank_space : blank " ".
Proof. done. Qed.
Lemma blank_newline : blank newline.
Proof. done. Qed.
Lemma blank_indent n : blank (newline +:+ String.concat "" (replicate n " ")).
Proof.
  apply blank_app; [done|]. induction n as [|n IH]; [done|].
  destruct n; [done|]. change (blank (" " +:+ (String.concat "" (replicate (S n) " ")))). by apply blank_app.
Qed.

Create HintDb json.
#[local] Hint Resolve closing_square closing_curly blank_nil blank_space blank_newline blank_indent blank_app : json.

Lemma reads_array n sep start stop ts vs :
  blank sep -> blank start -> blank stop -> Forall (opens "]"%char) ts ->
  Forall2 (reads (readValue n)) ts vs -> (length ts <= n)%nat ->
  reads (readValue (S n)) ("[" +:+ start +:+ join ("," +:+ sep) ts +:+ stop +:+ "]") (JArr vs).
Proof.
  intros. intros b rest Hb. cbn [readValue]. rewrite !(next_is_blank b), <-!str_app_assoc by done.
  rewrite (next_is_other quote_char "["%char), (next_is_here "["%char) by done.
  pose proof (reads_sequence (readValue n) "]"%char sep start stop ts vs n) as R.
  specialize (R ltac:(auto with json) ltac:(done) ltac:(done) ltac:(done) ltac:(done) ltac:(done) ltac:(done)
                EmptyString rest blank_nil).
  rewrite <-!str_app_assoc in R. unfold str1 in R. rewrite !str_app_nil_l in R. by rewrite R.
Qed.

(** A member of an object: blanks, the key, a colon, and its value. *)
Definition member (lead : string) (k t : string) : string := lead +:+ jsonString k +:+ ": " +:+ t.

Lemma reads_member {A} (item : string -> option (A * string)) lead k t v :
  blank lead -> reads item t v -> reads (readMember item) (member lead k t) (k, v).
Proof.
  intros Hl Ht b rest Hb. unfold readMember, member, jsonString. rewrite <-!str_app_assoc, !next_is_blank by done.
  rewrite (next_is_here quote_char) by done. cbn [mbind option_bind]. rewrite readJsonString_escape.
  cbn [mbind option_bind]. change (": " +:+ ?x) with (str1 ":"%char +:+ " " +:+ x).
  rewrite next_is_here by done. cbn [mbind option_bind]. by rewrite (Ht " ") by auto with json.
Qed.

Lemma opens_member lead k t : blank lead -> opens "}"%char (member lead k t).
Proof. intros Hl rest. unfold member. by rewrite <-!str_app_assoc, next_is_blank by done. Qed.

Lemma reads_object n sep stop (ms : list (string * string * string)) vs :
  blank sep -> blank stop ->
  Forall2 (fun m kv => blank m.1.1 /\ m.1.2 = kv.1 /\ reads (readValue n) m.2 kv.2) ms vs -> (length ms <= n)%nat ->
  reads (readValue (S n)) ("{" +:+ join ("," +:+ sep) (map (fun m => member m.1.1 m.1.2 m.2) ms) +:+ stop +:+ "}")
    (JObj vs).
Proof.
  intros Hsep Hstop Hms Hn b rest Hb. cbn [readValue]. rewrite !(next_is_blank b), <-!str_app_assoc by done.
  rewrite (next_is_other quote_char "{"%char), (next_is_other "["%char "{"%char), (next_is_here "{"%char) by done.
  pose proof (reads_sequence (readMember (readValue n)) "}"%char sep EmptyString stop
    (map (fun m => member m.1.1 m.1.2 m.2) ms) vs n) as R.
  specialize (R ltac:(auto with json) ltac:(done) ltac:(done) ltac:(done)).
  specialize (R ltac:(apply Forall_map, Forall_forall; intros m Hin;
    apply list_elem_of_lookup in Hin as [i Hi]; destruct (Forall2_lookup_l _ _ _ _ _ Hms Hi) as (? & ? & ? & ?);
    by apply opens_member)).
  specialize (R ltac:(apply Forall2_fmap_l; eapply Forall2_impl; [exact Hms|];
    intros [[]] [] (? & ? & ?); cbn in *; subst; by apply reads_member)).
  specialize (R ltac:(by rewrite length_map) EmptyString rest blank_nil).
  rewrite <-!str_app_assoc in R. unfold str1 in R. rewrite !str_app_nil_l in R. cbn [mbind option_bind]. by rewrite R.
Qed.

(** ** The channels *)

Lemma opens_brace t : opens "]"%char ("{" +:+ t).
Proof. by intros rest. Qed.

Lemma reads_tag n owner tag : reads (readValue (S (S (S n)))) (tagJson owner tag) (tag_value owner tag).
Proof.
  pose proof (reads_object (S (S n)) EmptyString EmptyString
    [(EmptyString, "name", jsonString tag); (" ", "owner", jsonString owner)]
    [("name", JStr tag); ("owner", JStr owner)]) as R.
  specialize (R ltac:(done) ltac:(done) ltac:(repeat constructor; try done; apply reads_string) ltac:(cbn; lia)).
  intros b rest Hb. unfold tag_value. rewrite <-(R b rest Hb). f_equal. f_equal. unfold tagJson, jsonKey, member, jsonString.
  cbn [map join fst snd]. by rewrite <-!str_app_assoc.
Qed.

Lemma reads_property n owner p : reads (readValue (S (S (S (S n))))) (propertyJson owner p) (property_value owner p).
Proof.
  pose proof (reads_object (S (S (S n))) EmptyString EmptyString
    [(EmptyString, "name", jsonString p.1); (" ", "owner", jsonString owner); (" ", "value", jsonString p.2)]
    [("name", JStr p.1); ("owner", JStr owner); ("value", JStr p.2)]) as R.
  specialize (R ltac:(done) ltac:(done) ltac:(repeat constructor; try done; apply reads_string) ltac:(cbn; lia)).
  intros b rest Hb. unfold property_value. rewrite <-(R b rest Hb). f_equal. f_equal. unfold propertyJson, jsonKey, member, jsonString.
  cbn [map join fst snd]. by rewrite <-!str_app_assoc.
Qed.

Definition channel_fuel (c : ChannelFinderChannel) : nat :=
  6 + length (ch_channelTags c) + length (ch_channelProperties c).

Lemma reads_list {A} n (f : A -> string) (g : A -> json) l :
  (forall x, reads (readValue n) (f x) (g x)) -> (forall x, opens "]"%char (f x)) -> (length l <= n)%nat ->
  reads (readValue (S n)) ("[" +:+ join ", " (map f l) +:+ "]") (JArr (map g l)).
Proof.
  intros Hr Ho Hn. apply (reads_array n " " EmptyString EmptyString); auto with json.
  - apply Forall_map, Forall_forall. intros. apply Ho.
  - apply Forall2_fmap_l, Forall2_fmap_r, Forall_Forall2_diag, Forall_forall. intros. apply Hr.
  - by rewrite length_map.
Qed.

Lemma reads_channel n c : (channel_fuel c <= n)%nat -> reads (readValue n) (channelJson c) (channel_value c).
Proof.
  unfold channel_fuel. intros Hn. do 6 (destruct n as [|n]; [lia|]).
  pose proof (reads_object (S (S (S (S (S n))))) EmptyString (newline +:+ String.concat "" (replicate 2 " "))
    [(newline +:+ String.concat "" (replicate 4 " "), "name", jsonString (ch_name c));
     (newline +:+ String.concat "" (replicate 4 " "), "owner", jsonString (ch_channelOwner c));
     (newline +:+ String.concat "" (replicate 4 " "), "tags",
        "[" +:+ join ", " (map (tagJson (ch_channelOwner c)) (ch_channelTags c)) +:+ "]");
     (newline +:+ String.concat "" (replicate 4 " "), "properties",
        "[" +:+ join ", " (map (propertyJson (ch_channelOwner c)) (ch_channelProperties c)) +:+ "]")]
    [("name", JStr (ch_name c)); ("owner", JStr (ch_channelOwner c));
     ("tags", JArr (map (tag_value (ch_channelOwner c)) (ch_channelTags c)));
     ("properties", JArr (map (property_value (ch_channelOwner c)) (ch_channelProperties c)))]) as R.
  assert (Rs : forall s, reads (readValue (S (S (S (S (S n)))))) (jsonString s) (JStr s)) by (intros; apply reads_string).
  specialize (R ltac:(done) ltac:(auto with json)).
  specialize (R ltac:(repeat (apply Forall2_cons_2 || apply Forall2_nil_2); (split; [apply blank_indent|]);
    (split; [done|]); try apply Rs; apply reads_list; try lia; intros;
    [apply reads_tag|apply opens_brace|apply reads_property|apply opens_brace]) ltac:(cbn; lia)).
  intros b rest Hb. unfold channel_value. rewrite <-(R (b +:+ "  ") rest ltac:(by apply blank_app)). rewrite <-str_app_assoc. f_equal. f_equal.
  unfold channelJson, indented, jsonKey, member. cbn [map join fst snd]. by rewrite <-!str_app_assoc.
Qed.

Lemma channelsJson_join c cs :
  channelsJson (c :: cs) = join ("," +:+ newline) (map channelJson (c :: cs)) +:+ newline.
Proof.
  revert c; induction cs as [|d cs IH]; intros c; [done|].
  change (channelsJson (c :: d :: cs)) with (channelJson c +:+ "," +:+ newline +:+ channelsJson (d :: cs)).
  cbn [map]. rewrite IH, join_cons. by rewrite <-!str_app_assoc.
Qed.

Lemma channel_value_inj c1 c2 : channel_value c1 = channel_value c2 -> c1 = c2.
Proof.
  destruct c1 as [n1 o1 t1 p1], c2 as [n2 o2 t2 p2]. unfold channel_value. cbn. intros [= -> -> Ht Hp].
  f_equal.
  - revert t2 Ht. induction t1 as [|x t1 IH]; intros [|y t2]; cbn; intros E; try done. injection E as -> E. f_equal. by apply IH.
  - revert p2 Hp. induction p1 as [|[k v] p1 IH]; intros [|[k' v'] p2]; cbn; intros E; try done.
    injection E as -> -> E. f_equal. by apply IH.
Qed.

#[local] Instance channel_value_Inj : Inj (=) (=) channel_value := channel_value_inj.

Lemma channels_read channels : exists fuel, forall m, (fuel <= m)%nat ->
  readValue m (channelFinderChannelsJson channels) = Some (JArr (map channel_value channels), newline).
Proof.
  exists (S (length channels + sum_list_with channel_fuel channels)). intros [|m] Hm; [lia|].
  assert (reads (readValue (S m)) ("[" +:+ newline +:+ join ("," +:+ newline) (map channelJson channels) +:+
            (match channels with [] => "" | _ => newline end) +:+ "]") (JArr (map channel_value channels))) as R.
  { apply reads_array; auto with json; [by destruct channels| | |rewrite length_map; lia].
    - apply Forall_map, Forall_forall. by intros c _ rest.
    - apply Forall2_fmap_l, Forall2_fmap_r, Forall_Forall2_diag, Forall_forall. intros c Hc.
      apply reads_channel. enough (channel_fuel c <= sum_list_with channel_fuel channels)%nat by lia.
      by apply sum_list_with_in. }
  rewrite <-(R EmptyString newline blank_nil), str_app_nil_l. unfold channelFinderChannelsJson. f_equal.
  destruct channels as [|c cs]; [done|]. rewrite channelsJson_join. by rewrite <-!str_app_assoc.
Qed.

(** C37. The text sent to ChannelFinder is JSON that means the channels and
    nothing else: the reference reader, given enough fuel, consumes all of it
    but the last line break and finds an array with one object per channel, in
    their order, with its name, owner, tags and properties -- whatever bytes
    names, tags and values hold -- and different lists of channels never have
    the same text. *)
Theorem channelfinder_text_roundtrip channels :
  (exists fuel, forall m, (fuel <= m)%nat ->
    readValue m (channelFinderChannelsJson channels) = Some (JArr (map channel_value channels), newline)) /\
  (forall channels', channelFinderChannelsJson channels' = channelFinderChannelsJson channels -> channels' = channels).
Proof.
  pose proof channels_read as R. split; [apply R|]. intros channels' E.
  destruct (R channels) as [f1 E1], (R channels') as [f2 E2].
  specialize (E1 (f1 + f2)%nat ltac:(lia)). specialize (E2 (f1 + f2)%nat ltac:(lia)).
  rewrite E, E1 in E2. injection E2 as E3. symmetry. eapply (inj (fmap channel_value)), E3.
Qed.

(** ** The channels of a configuration *)

(** The tags collected so far: each once, none empty, the set beside them. *)
Definition tags_inv (s : list string * sset) (given : list string) : Prop :=
  NoDup s.1 /\ (forall k, k ∈ sm_keys s.2 <-> k ∈ s.1) /\ (forall k, k ∈ s.1 <-> k ∈ given /\ k <> "").

Lemma addUniqueTag_inv s given tag : tags_inv s given -> tags_inv (addUniqueTag s tag) (given ++ [tag]).
Proof.
  intros (Hnd & Hset & Hin). unfold addUniqueTag. destruct (str_empty tag) eqn:He.
  { apply str_empty_true in He as ->. split_and!; try done. intros k. rewrite Hin. set_solver. }
  assert (tag <> "") by (intros ->; done). unfold ss_insert, sm_emplace. destruct (sm_has tag s.2) eqn:Hh.
  - apply sm_has_spec, Hset in Hh. split_and!; cbn [fst snd]; try done.
    intros k. rewrite elem_of_app, list_elem_of_singleton. rewrite Hin in Hh |- *. naive_solver.
  - assert (tag ∉ s.1) as Hn. { rewrite <-Hset, <-sm_has_spec. congruence. }
    split_and!; cbn [fst snd].
    + apply NoDup_app. split_and!; [done|set_solver|apply NoDup_singleton].
    + intros k. rewrite sm_keys_set, Hset. set_solver.
    + intros k. rewrite !elem_of_app, Hin. set_solver.
Qed.

Lemma channelTags_spec config :
  NoDup (channelTags config) /\
  forall tag, tag ∈ channelTags config <->
    tag <> "" /\ (tag ∈ ch_tags (app_channelFinder config) \/ tag = "redis-pvxs-ioc" \/ tag = "pva").
Proof.
  assert (forall l s given, tags_inv s given -> tags_inv (foldl addUniqueTag s l) (given ++ l)) as Hf.
  { induction l as [|t l IH]; intros s given Hs; cbn; [by rewrite app_nil_r|].
    rewrite cons_middle, app_assoc. by apply IH, addUniqueTag_inv. }
  unfold channelTags.
  assert (tags_inv ([], []) []) as H0 by (split_and!; [constructor|set_solver|set_solver]).
  apply (Hf (ch_tags (app_channelFinder config))), (addUniqueTag_inv _ _ "redis-pvxs-ioc"),
    (addUniqueTag_inv _ _ "pva") in H0 as (Hnd & _ & Hin).
  split; [done|]. intros tag. rewrite Hin. set_solver.
Qed.

Section Channels.
Context `{YamlLaws}.

Lemma parseConfig_channelFinder env root dir c :
  parseConfig env root dir = Ret c ->
  parseChannelFinderConfig (yget root "channelfinder") "root.channelfinder" = Ret (app_channelFinder c).
Proof.
  unfold parseConfig. intros Hr. do 4 apply exn_bind_ret in Hr as (? & _ & Hr). cbv zeta in Hr.
  do 6 apply exn_bind_ret in Hr as (? & _ & Hr). apply exn_bind_ret in Hr as (cf & Hcf & Hr).
  apply exn_bind_ret in Hr as ([? ?] & _ & Hr). do 7 apply exn_bind_ret in Hr as (? & _ & Hr).
  by injection Hr as <-.
Qed.

Lemma parseChannelFinderConfig_wf node path cf :
  parseChannelFinderConfig node path = Ret cf -> sm_wf (ch_properties cf).
Proof.
  unfold parseChannelFinderConfig. destruct node as [n|]; [|by intros [= <-]; apply sm_wf_nil].
  intros Hr. do 4 apply exn_bind_ret in Hr as (? & _ & Hr). apply exn_bind_ret in Hr as (m & Hm & [= <-]).
  cbn. apply with_default_ret in Hm as [[_ ->]|(e & _ & He)]; [apply sm_wf_nil|].
  apply exn_bind_ret in He as (l & _ & He). eapply exn_fold_inv; [apply sm_wf_nil| |exact He].
  intros s [k v] s' _ Hs Hx. do 3 apply exn_bind_ret in Hx as (? & _ & Hx). injection Hx as <-. by apply sm_wf_set.
Qed.

(** The later of two assignments wins; the assignments have different keys. *)
Lemma set_properties_find l m k : NoDup (map fst l) ->
  sm_find k (set_properties m l) = match sm_find k l with Some v => Some v | None => sm_find k m end.
Proof.
  revert m; induction l as [|[k' v] l IH]; intros m Hnd; [done|]. inversion Hnd as [|? ? Hn Hnd']; subst.
  cbn [set_properties foldl fst snd sm_find]. change (foldl _ ?x l) with (set_properties x l). rewrite (IH _ Hnd').
  destruct (String.eqb_spec k k') as [->|Hk].
  - assert (sm_find k' l = None) as -> by (by apply sm_find_None). apply sm_find_set_eq.
  - by rewrite sm_find_set_ne.
Qed.

Lemma standardProperties_keys config time pv : NoDup (map fst (standardProperties config time pv)).
Proof.
  unfold standardProperties. destruct (md_precision _), (pv_write pv), (pv_confirm pv); cbn [map app fst];
    by apply (bool_decide_unpack _).
Qed.

Lemma build_names config time :
  map ch_name (buildChannelFinderChannels config time) =
  concat (map (fullPVNames (app_server config)) (app_pvs config)).
Proof.
  unfold buildChannelFinderChannels. rewrite concat_map, map_map. f_equal. apply map_ext. intros pv.
  unfold pvChannels, fullPVNames. cbn [map]. f_equal. rewrite map_map. apply map_id.
Qed.

Lemma NoDup_concat_in {A} (ls : list (list A)) l : NoDup (concat ls) -> l ∈ ls -> NoDup l.
Proof.
  intros Hnd (l1 & l2 & ->)%list_elem_of_split. rewrite concat_app in Hnd. cbn [concat] in Hnd.
  apply NoDup_app in Hnd as (_ & _ & Hnd). by apply NoDup_app in Hnd as (? & _).
Qed.

(** What a channel of [pv] says under a key: the alias's own entry, else the
    configured property, else the standard one. *)
Definition property_of (config : AppConfig) (time : string) (pv : PVConfig) (name key : string) : option string :=
  if bool_decide (key = "aliasOf" /\ name <> fullPVName (app_server config) pv)
  then Some (fullPVName (app_server config) pv)
  else match sm_find key (ch_properties (app_channelFinder config)) with
       | Some v => Some v
       | None => sm_find key (standardProperties config time pv)
       end.

Lemma properties_find config time pv key : sm_wf (ch_properties (app_channelFinder config)) ->
  sm_find key (set_properties (set_properties [] (standardProperties config time pv))
                 (ch_properties (app_channelFinder config))) =
  match sm_find key (ch_properties (app_channelFinder config)) with
  | Some v => Some v
  | None => sm_find key (standardProperties config time pv)
  end.
Proof.
  intros Hwf. rewrite set_properties_find by (by apply sm_wf_NoDup).
  rewrite set_properties_find by apply standardProperties_keys. by repeat case_match.
Qed.

Lemma pvChannels_spec config time pv name :
  sm_wf (ch_properties (app_channelFinder config)) -> NoDup (fullPVNames (app_server config) pv) ->
  name ∈ fullPVNames (app_server config) pv ->
  exists ch, ch ∈ pvChannels config time pv /\ ch_name ch = name /\
    ch_channelOwner ch = ch_owner (app_channelFinder config) /\ ch_channelTags ch = channelTags config /\
    forall key, sm_find key (ch_channelProperties ch) = property_of config time pv name key.
Proof.
  intros Hwf Hnd Hin. apply elem_of_cons in Hin as [->|Hin].
  - eexists. split; [by apply list_elem_of_here|]. split_and!; try done. intros key.
    unfold property_of. rewrite bool_decide_false by naive_solver. by apply properties_find.
  - inversion Hnd as [|? ? Hfull _]; subst.
    eexists. split; [apply list_elem_of_further, list_elem_of_fmap; by exists name|]. split_and!; try done.
    intros key. cbn [ch_channelProperties field_update]. unfold property_of.
    match goal with |- sm_find key ?m = _ =>
      change m with (sm_set "aliasOf" (fullPVName (app_server config) pv)
        (set_properties (set_properties [] (standardProperties config time pv)) (ch_properties (app_channelFinder config)))) end.
    destruct (decide (key = "aliasOf")) as [->|Hk].
    + rewrite bool_decide_true by (split; [done|]; by intros ->). apply sm_find_set_eq.
    + rewrite bool_decide_false by tauto. rewrite sm_find_set_ne by done. by apply properties_find.
Qed.

(** C36. An accepted configuration is published as exactly its PVs: one channel
    per full name and alias, in the order of the configuration, no name twice;
    each with the configured owner, the configured tags and the two of the
    program without repetition, and under every property key the configured
    text, or else the standard one, an alias naming the PV it stands for. *)
Theorem channels_of_accepted_config env root dir c time :
  parseConfig env root dir = Ret c ->
  map ch_name (buildChannelFinderChannels c time) = concat (map (fullPVNames (app_server c)) (app_pvs c)) /\
  NoDup (map ch_name (buildChannelFinderChannels c time)) /\
  forall pv name, pv ∈ app_pvs c -> name ∈ fullPVNames (app_server c) pv ->
    exists ch, ch ∈ buildChannelFinderChannels c time /\ ch_name ch = name /\
      ch_channelOwner ch = ch_owner (app_channelFinder c) /\ NoDup (ch_channelTags ch) /\
      (forall tag, tag ∈ ch_channelTags ch <->
         tag <> "" /\ (tag ∈ ch_tags (app_channelFinder c) \/ tag = "redis-pvxs-ioc" \/ tag = "pva")) /\
      (forall key, sm_find key (ch_channelProperties ch) = property_of c time pv name key).
Proof.
  intros Hc. assert (NoDup (concat (map (fullPVNames (app_server c)) (app_pvs c)))) as Hnd.
  { apply parseConfig_endpoints in Hc as [es Hes]. apply configuredEndpoints_names in Hes as [_ Hes].
    by apply NoDup_app in Hes as (_ & _ & ?). }
  rewrite build_names. split_and!; try done. intros pv name Hpv Hname.
  pose proof (parseChannelFinderConfig_wf _ _ _ (parseConfig_channelFinder _ _ _ _ Hc)) as Hwf.
  destruct (pvChannels_spec c time pv name Hwf) as (ch & Hch & ? & ? & Ht & ?); [|done|].
  { eapply NoDup_concat_in; [exact Hnd|]. apply list_elem_of_fmap. by exists pv. }
  exists ch. rewrite Ht. destruct (channelTags_spec c) as [? ?]. split_and!; try done.
  apply list_elem_of_In, in_concat. exists (pvChannels c time pv). split; [|by apply list_elem_of_In].
  by apply in_map, list_elem_of_In.
Qed.
End Channels.

(** ** The address *)

Lemma list_ascii_app a b :
  String.list_ascii_of_string (a +:+ b) = String.list_ascii_of_string a ++ String.list_ascii_of_string b.
Proof.
  induction a as [|c a IH]; [done|]. rewrite str_app_cons. cbn [String.list_ascii_of_string app]. by rewrite IH.
Qed.

Lemma pop_slashes_idem l : pop_slashes (pop_slashes l) = pop_slashes l.
Proof. induction l as [|c l IH]; cbn; [done|]. case_bool_decide; [done|]. cbn. by rewrite bool_decide_false. Qed.

Lemma trim_app_slash url : trimTrailingSlash (url +:+ "/") = trimTrailingSlash url.
Proof.
  unfold trimTrailingSlash. rewrite list_ascii_app, rev_app_distr. cbn [String.list_ascii_of_string rev app pop_slashes].
  by rewrite bool_decide_true.
Qed.

Lemma trim_idem url : trimTrailingSlash (trimTrailingSlash url) = trimTrailingSlash url.
Proof.
  unfold trimTrailingSlash. by rewrite String.list_ascii_of_string_of_list_ascii, rev_involutive, pop_slashes_idem.
Qed.

(** Text that does not end in a slash is left alone. *)
Lemma trim_app_last url c : c <> "/"%char -> trimTrailingSlash (url +:+ str1 c) = url +:+ str1 c.
Proof.
  intros Hc. unfold trimTrailingSlash. rewrite list_ascii_app, rev_app_distr.
  cbn [String.list_ascii_of_string rev app pop_slashes str1]. rewrite bool_decide_false by done.
  cbn [rev]. rewrite rev_involutive. change [c] with (String.list_ascii_of_string (str1 c)).
  by rewrite <-list_ascii_app, String.string_of_list_ascii_of_string.
Qed.

(** A suffix is looked for in the last part of the text. *)
Lemma endsWith_app a b suffix : (String.length suffix <= String.length b)%nat ->
  endsWith (a +:+ b) suffix = endsWith b suffix.
Proof.
  intros Hl. unfold endsWith. rewrite str_length_app.
  rewrite (proj2 (Nat.leb_le _ _) Hl), (proj2 (Nat.leb_le _ _)) by lia. do 2 f_equal.
  replace (String.length a + String.length b - String.length suffix)%nat
    with (String.length a + (String.length b - String.length suffix))%nat by lia.
  induction a as [|c a IH]; [done|]. exact IH.
Qed.

Lemma normalize_nonempty url : url <> "" ->
  normalizeChannelFinderChannelsUrl url =
  let trimmed := trimTrailingSlash url in
  if endsWith trimmed "/channels" then Ret trimmed
  else if endsWith trimmed "/resources" then Ret (trimmed +:+ "/channels")
  else Ret (trimmed +:+ "/resources/channels").
Proof. unfold normalizeChannelFinderChannelsUrl. by destruct url. Qed.

Lemma trim_suffix a b c : c <> "/"%char -> trimTrailingSlash (a +:+ b +:+ str1 c) = a +:+ b +:+ str1 c.
Proof. rewrite str_app_assoc. apply trim_app_last. Qed.

Lemma normalize_channels url : normalizeChannelFinderChannelsUrl (url +:+ "/channels") = Ret (url +:+ "/channels").
Proof.
  rewrite normalize_nonempty by (by destruct url). cbv zeta.
  assert (trimTrailingSlash (url +:+ "/channels") = url +:+ "/channels") as ->
    by (by apply (trim_suffix url "/channel" "s"%char)).
  by rewrite endsWith_app.
Qed.

Lemma normalize_resources url :
  normalizeChannelFinderChannelsUrl (url +:+ "/resources") = Ret (url +:+ "/resources/channels").
Proof.
  rewrite normalize_nonempty by (by destruct url). cbv zeta.
  assert (trimTrailingSlash (url +:+ "/resources") = url +:+ "/resources") as ->
    by (by apply (trim_suffix url "/resource" "s"%char)).
  rewrite !endsWith_app by (cbn; lia). cbn -[String.append]. by rewrite <-str_app_assoc.
Qed.

(** The address may be given in any of the ways it is written: with the
    channels resource, with the resources directory or as the service's root,
    with or without slashes at its end; all of them are the same address, which
    ends in the channels resource and is itself unchanged.  Only an empty one is
    refused. *)
Theorem channelfinder_url_equivalent url :
  (normalizeChannelFinderChannelsUrl "" = Throw "channelfinder.url must be set when publishing") /\
  (url <> "" -> exists u, normalizeChannelFinderChannelsUrl url = Ret u /\
     endsWith u "/channels" = true /\ normalizeChannelFinderChannelsUrl u = Ret u /\
     normalizeChannelFinderChannelsUrl (url +:+ "/") = Ret u /\
     let service := trimTrailingSlash url in
     (endsWith service "/channels" = false -> endsWith service "/resources" = false ->
      u = service +:+ "/resources/channels" /\
      normalizeChannelFinderChannelsUrl (service +:+ "/resources") = Ret u /\
      normalizeChannelFinderChannelsUrl (service +:+ "/resources/channels") = Ret u)).
Proof.
  split; [done|]. intros Hne. rewrite !normalize_nonempty by (by destruct url). rewrite trim_app_slash. cbv zeta.
  set (service := trimTrailingSlash url). assert (trimTrailingSlash service = service) as Ht by apply trim_idem.
  destruct (endsWith service "/channels") eqn:E1; [|destruct (endsWith service "/resources") eqn:E2].
  - exists service. split_and!; try done. rewrite normalize_nonempty, Ht by (by intros ->). cbv zeta. by rewrite E1.
  - exists (service +:+ "/channels"). split_and!; try done; [by rewrite endsWith_app|apply normalize_channels].
  - exists (service +:+ "/resources/channels"). rewrite normalize_resources.
    pose proof (normalize_channels (service +:+ "/resources")) as Hn. rewrite <-str_app_assoc in Hn.
    change ("/resources" +:+ "/channels") with "/resources/channels" in Hn.
    split_and!; try done. by rewrite endsWith_app by (cbn; lia).
Qed.

Module ChannelFinderDemo.
Import Demo.

Lemma channels_of_accepted_config_witness :
  parseConfig Demo.env Demo.document "/etc" = Ret Demo.config /\
  NoDup (map ch_name (buildChannelFinderChannels Demo.config "now")).
Proof.
  split; [apply Demo.accepted|].
  apply (channels_of_accepted_config Demo.env Demo.document "/etc" Demo.config "now" Demo.accepted).
Defined.

Lemma channelfinder_url_equivalent_witness :
  "http://cf/" <> "" /\ normalizeChannelFinderChannelsUrl "http://cf/" = Ret "http://cf/resources/channels".
Proof.
  split; [done|].
  destruct (proj2 (channelfinder_url_equivalent "http://cf/") ltac:(done)) as (u & -> & _ & _ & _ & Hu).
  f_equal. by apply Hu.
Defined.
End ChannelFinderDemo.
