(* ===== verification/AccessBindings.v ===== *)
(** * Secured names

    src/access_control.cpp: [AccessController] keeps, beside the registry of
    served names, the member of the access library of each name.  Both change
    together: members are prepared with the bindings and swapped in when the
    registry commits.

    The theorems show that after every operation each served name has exactly
    one member, created for the assignment the name is served with, and that
    changing one assignment leaves the registrations (hence the open channels)
    and the members of all other names as they are. *)

From S2P Require Import Prelude.
From S2P Require Import StrMap.
From S2P Require Import Config.
From S2P Require Import PVRegistry.
From S2P Require Import PVRegistrySpec.

Local Open Scope string_scope.
Local Open Scope list_scope.
Local Open Scope Z_scope.

(** ** State and operations *)

(** [AccessMember]: an object of the access library for a security group. *)
Record AccessMember := { mb_id : Z; mb_assignment : AccessAssignment }.

Record Secured := { se_registry : State; se_members : gmap string AccessMember; se_next : Z }.
#[export] Instance Secured_eta : Eta Secured := fun r => Build_Secured (se_registry r) (se_members r) (se_next r).
Definition Secured_new : Secured := {| se_registry := State_new; se_members := ∅; se_next := 0 |}.

Record PreparedBindings := { pb_publication : Prepared; pb_members : gmap string AccessMember }.

(** [asAddMember] is the access library's; what a wrapper answers depends on
    the client that opens the channel. *)
Section Secured.
Context (asAddMember : string -> bool) (wrap : AccessMember -> string -> Wrapper).

Record MembersLoop := { ml_members : gmap string AccessMember; ml_wrappers : smap Wrapper; ml_next : Z }.

Definition newMember (next : Z) (assignment : AccessAssignment) : exn AccessMember :=
  if asAddMember (asg assignment) then Ret {| mb_id := next; mb_assignment := assignment |}
  else Throw ("failed to add access member for ASG '" +:+ asg assignment +:+ "'").

(** The member that may go on serving the binding. *)
Definition keptMember (existing : PVBindings) (previous : gmap string AccessMember) (name : string) (b : PVBinding)
    : option AccessMember :=
  match sm_find name existing, previous !! name with
  | Some before, Some member =>
      if bool_decide (bd_owner before = bd_owner b) && sameAccessAssignment (bd_access before) (bd_access b)
      then Some member else None
  | _, _ => None
  end.

Definition prepareMember (existing : PVBindings) (previous : gmap string AccessMember) (s : MembersLoop)
    (entry : string * PVBinding) : exn MembersLoop :=
  let '(name, b) := entry in
  '(member, next) ← match keptMember existing previous name b with
                    | Some member => Ret (member, ml_next s)
                    | None => member ← newMember (ml_next s) (bd_access b); Ret (member, ml_next s + 1)
                    end;
  Ret {| ml_members := match ml_members s !! name with
                       | Some _ => ml_members s
                       | None => <[name := member]> (ml_members s)
                       end;
         ml_wrappers := (sm_emplace name (wrap member name) (ml_wrappers s)).1; ml_next := next |}.

Definition prepareBindings (s : Secured) (desired : PVBindings) : exn (Secured * PreparedBindings) :=
  loop ← exn_fold (prepareMember (bindings (se_registry s)) (se_members s))
           {| ml_members := ∅; ml_wrappers := []; ml_next := se_next s |} desired;
  '(registry, publication) ← prepare (se_registry s) desired (ml_wrappers loop);
  Ret (s <| se_registry := registry |> <| se_next := ml_next loop |>,
       {| pb_publication := publication; pb_members := ml_members loop |}).

(** [beforeCommit] is what the caller's function returns; the members change
    only after the registry has found the preparation to be current. *)
Definition publishBindings (s : Secured) (p : PreparedBindings) (beforeCommit : bool) : Secured * bool :=
  let '(registry, published) := publish (se_registry s) (pb_publication p) beforeCommit in
  (s <| se_registry := registry |> <| se_members := if published then pb_members p else se_members s |>, published).

Definition finishBindings (s : Secured) (p : PreparedBindings) : Secured :=
  s <| se_registry := finish (se_registry s) (pb_publication p) |>.

(** Prepare, publish and finish, as every caller below does. *)
Definition replaceBindings (s : Secured) (desired : PVBindings) : exn Secured :=
  '(s1, p) ← prepareBindings s desired;
  let '(s2, published) := publishBindings s1 p true in
  if negb published then Throw "endpoint publication changed during preparation" else Ret (finishBindings s2 p).

Definition clearBindings (s : Secured) : exn Secured := replaceBindings s [].

(** [pv] and [owner] are the new objects. *)
Definition addPV (s : Secured) (name : string) (pv owner : Z) (assignment : AccessAssignment) : exn Secured :=
  let '(desired, inserted) :=
    sm_emplace name {| bd_pv := Some pv; bd_owner := Some owner; bd_access := assignment |} (bindings (se_registry s)) in
  if negb inserted then Throw ("duplicate secured PV '" +:+ name +:+ "'") else replaceBindings s desired.

Definition removePV (s : Secured) (name : string) : exn Secured :=
  let desired := bindings (se_registry s) in
  if negb (sm_has name desired) then Ret s else replaceBindings s (sm_erase name desired).

Definition setAssignment (s : Secured) (name : string) (assignment : AccessAssignment) : exn Secured :=
  let desired := bindings (se_registry s) in
  match sm_find name desired with
  | None => Throw ("unknown secured PV '" +:+ name +:+ "'")
  | Some b =>
      if sameAccessAssignment (bd_access b) assignment then Ret s
      else replaceBindings s (sm_set name {| bd_pv := bd_pv b; bd_owner := bd_owner b; bd_access := assignment |} desired)
  end.

End Secured.

(** ** The registry between publications *)

(** The binding under which a name is served. *)
Definition served (s : State) (name : string) : option PVBinding :=
  id ← sm_find name (sn_entries (rs_current s)); rn_binding <$> (rs_regs s !! id).

(** A state of the registry that is reachable, with whatever the server's
    threads have done, when no thread is publishing. *)
Definition quiet (s : State) : Prop := exists x, reach x /\ y_state x = s /\ rs_publisher s = None.

(** Nothing a client can see of the registry differs. *)
Definition same_names (s s' : State) : Prop :=
  rs_current s' = rs_current s /\ forall id r, rs_regs s !! id = Some r -> rs_regs s' !! id = Some r.

Lemma same_names_refl s : same_names s s.
Proof. done. Qed.
Lemma same_names_trans s1 s2 s3 : same_names s1 s2 -> same_names s2 s3 -> same_names s1 s3.
Proof. intros [H1 H2] [H3 H4]. split; [congruence|eauto]. Qed.

Lemma quiet_new : quiet State_new.
Proof. exists Sys_new. split; [apply rtc_refl|done]. Qed.

Lemma quiet_inv s : quiet s ->
  sm_wf (sn_entries (rs_current s)) /\
  forall name id, sm_find name (sn_entries (rs_current s)) = Some id -> exists r, rs_regs s !! id = Some r /\ rn_active r = true.
Proof.
  intros (x & Hx & <- & Hn). pose proof (registry_reach_inv _ Hx) as [Hi _]. split; [by destruct Hi|].
  intros name id Hf. destruct (pi_active _ _ _ _ _ Hi _ _ Hf) as [Ha|(p & todo & Hp & _)]; [|congruence].
  unfold active in Ha. destruct (rs_regs _ !! id) as [r|]; [|done]. exists r. split; [done|]. by injection Ha.
Qed.

Lemma same_served s s' : quiet s -> same_names s s' -> forall name, served s' name = served s name.
Proof.
  intros [_ Hq]%quiet_inv [Hc Hr] name. unfold served. rewrite Hc.
  destruct (sm_find name _) as [id|] eqn:E; [|done]. cbn. destruct (Hq _ _ E) as (r & Hr0 & _).
  by rewrite Hr0, (Hr _ _ Hr0).
Qed.

Lemma quiet_prepare s desired wrappers s' p :
  quiet s -> sm_wf desired -> prepare s desired wrappers = Ret (s', p) -> quiet s' /\ same_names s s'.
Proof.
  intros (x & Hx & <- & Hn) Hwf Hpr. pose proof (registry_reach_inv _ Hx) as [Hi _].
  pose proof Hpr as (l & Hl & Hs' & _)%prepare_ret.
  pose proof (made_loop _ _ _ _ _ Hwf (pi_dom _ _ _ _ _ Hi) (pi_served _ _ _ _ _ Hi) (pi_cur _ _ _ _ _ Hi) Hl) as Hok. split.
  - exists (x <| y_state := s' |> <| y_prepared := p :: y_prepared x |>). split; [|split; [done|by subst s']].
    eapply rtc_r; [exact Hx|by eapply S_prepare].
  - subst s'. split; [done|]. intros id r Hr. cbn. rewrite (lo_old _ _ _ _ _ _ Hok); [done|].
    eapply (pi_dom _ _ _ _ _ Hi), active_is_Some. eauto.
Qed.

(** A refused publication changes nothing. *)
Lemma quiet_refused s desired wrappers s' p :
  quiet s -> sm_wf desired -> prepare s desired wrappers = Ret (s', p) ->
  exists s'', publish s' p false = (s'', false) /\ quiet s'' /\ same_names s s''.
Proof.
  intros (x & Hx & <- & Hn) Hwf Hpr.
  destruct (quiet_prepare (y_state x) desired wrappers s' p) as [_ Hsame]; [by exists x|done..|].
  set (x1 := x <| y_state := s' |> <| y_prepared := p :: y_prepared x |>).
  assert (Hx1 : reach x1) by (eapply rtc_r; [exact Hx|by eapply S_prepare]).
  pose proof Hpr as (l & Hl & Hs' & Hp)%prepare_ret.
  assert (Hst : publish_start s' p = (s' <| rs_publisher := Some (p, BeforeCommit) |>, true)).
  { unfold publish_start. subst p s'. cbn. by rewrite Z.eqb_refl. }
  unfold publish. rewrite Hst. cbn [negb]. eexists. split; [reflexivity|]. split; [|exact Hsame].
  set (x2 := x1 <| y_state := s' <| rs_publisher := Some (p, BeforeCommit) |> |>).
  assert (Hx2 : reach x2).
  { eapply rtc_r; [exact Hx1|]. pose proof (S_start x1 p) as H. cbn in H. rewrite Hst in H. apply H; [left|by subst s']. }
  eexists. split; [eapply rtc_r; [exact Hx2|]; by apply (S_commit x2 p false)|]. done.
Qed.

Lemma finish_regs s p id :
  (fun r => (rn_binding r, rn_active r)) <$> (rs_regs (finish s p) !! id) =
  (fun r => (rn_binding r, rn_active r)) <$> (rs_regs s !! id).
Proof.
  unfold finish. generalize (pr_retiring p). intros l. revert s; induction l as [|j l IH]; intros s; [done|].
  cbn. rewrite IH. unfold finish_one. destruct (rs_regs s !! j) as [r|] eqn:E; [|done]. cbn.
  destruct (decide (id = j)) as [->|]; [|by rewrite lookup_insert_ne]. by rewrite lookup_insert_eq, E.
Qed.

Lemma finish_served s p name : served (finish s p) name = served s name.
Proof.
  unfold served. rewrite finish_current. destruct (sm_find name _) as [id|]; [|done]. cbn.
  pose proof (finish_regs s p id) as H. destruct (rs_regs _ !! id), (rs_regs s !! id); cbn in *; congruence.
Qed.

Lemma finish_reach x p : reach x -> p ∈ y_published x ->
  exists x', reach x' /\ y_state x' = finish (y_state x) p.
Proof.
  intros Hx Hp. unfold finish. assert (Hall : forall id, id ∈ pr_retiring p -> id ∈ pr_retiring p) by done.
  revert Hall. generalize (pr_retiring p) at 1 3 as todo. intros todo. revert x Hx Hp.
  induction todo as [|id todo IH]; intros x Hx Hp Hall; [by exists x|]. cbn.
  destruct (IH (x <| y_state := finish_one (y_state x) id |> <| y_drained := y_drained x ∪ {[id]} |>))
    as (x' & Hx' & Hs).
  - eapply rtc_r; [exact Hx|]. eapply S_finish; [exact Hp|]. apply Hall. left.
  - done.
  - intros j Hj. apply Hall. by right.
  - exists x'. split; [done|exact Hs].
Qed.

Lemma finish_publisher s p : rs_publisher (finish s p) = rs_publisher s.
Proof.
  unfold finish. generalize (pr_retiring p). intros l. revert s; induction l as [|id l IH]; intros s; [done|].
  cbn. rewrite IH. unfold finish_one. by destruct (rs_regs s !! id).
Qed.

Lemma publish_retire_publisher s p todo : rs_publisher (publish_retire s p todo) = None.
Proof. revert s; induction todo as [|id todo IH]; intros s; [done|]. cbn. apply IH. Qed.

(** What a publication that commits serves: the desired owners and accesses,
    under the registration that served the name before where it can be kept. *)
Definition installs (s : State) (desired : PVBindings) (s' : State) : Prop :=
  (forall name, is_Some (sm_find name (sn_entries (rs_current s'))) <-> is_Some (sm_find name desired)) /\
  forall name b, sm_find name desired = Some b -> exists id b',
    sm_find name (sn_entries (rs_current s')) = Some id /\ served s' name = Some b' /\
    bd_owner b' = bd_owner b /\ bd_access b' = bd_access b /\
    (forall old, sm_find name (sn_entries (rs_current s)) = Some old ->
       (bd_owner <$> served s name) = Some (bd_owner b) -> (bd_access <$> served s name) = Some (bd_access b) -> id = old).

(** A registration never changes its binding. *)
Definition keeps_bindings (s s' : State) : Prop :=
  forall id r, rs_regs s !! id = Some r -> (rn_binding <$> (rs_regs s' !! id)) = Some (rn_binding r).

Lemma publish_retire_bindings s p todo id :
  (rn_binding <$> (rs_regs (publish_retire s p todo) !! id)) = (rn_binding <$> (rs_regs s !! id)).
Proof.
  revert s; induction todo as [|j todo IH]; intros s; [done|]. cbn. rewrite IH. cbn.
  destruct (decide (id = j)) as [->|]; [|by rewrite lookup_alter_ne]. rewrite lookup_alter_eq.
  by destruct (rs_regs s !! j).
Qed.

Lemma quiet_published s desired wrappers s' p :
  quiet s -> sm_wf desired -> prepare s desired wrappers = Ret (s', p) ->
  exists s'', publish s' p true = (s'', true) /\ quiet s'' /\ quiet (finish s'' p) /\ installs s desired s'' /\
    installs s desired (finish s'' p) /\ keeps_bindings s (finish s'' p).
Proof.
  intros (x & Hx & <- & Hn) Hwf Hpr.
  destruct (publish_installs_aux x desired wrappers s' p Hx Hn Hwf Hpr) as (Hret & x' & Hx' & Hs & Hpub & _ & Hk & Hb).
  destruct (publish s' p true) as [s'' published] eqn:Epub. cbn in Hret, Hs. subst published s''. exists (y_state x').
  assert (Hn' : rs_publisher (y_state x') = None).
  { pose proof Hpr as (l & Hl & Hs' & Hp)%prepare_ret. unfold publish, publish_start in Epub. revert Epub.
    destruct (negb _); cbn [negb]; [done|]. intros [= Heq]. rewrite <-Heq. apply publish_retire_publisher. }
  assert (Hi : installs (y_state x) desired (y_state x')).
  { split.
    - intros name. rewrite !sm_find_is_Some, <-onList_keys by done. apply Hk.
    - intros name b Hname. destruct (Hb name b Hname) as (id & r & Hid & Hr & _ & Ho & Ha & Hold).
      exists id, (rn_binding r). split; [exact Hid|]. split; [unfold served; unfold serves in Hid; rewrite Hid; cbn; by rewrite Hr|].
      split; [done|]. split; [done|]. intros old Hf Hfo Hfa. apply Hold, reusable_Some. split; [done|].
      unfold served in Hfo, Hfa. rewrite Hf in Hfo, Hfa. cbn in Hfo, Hfa.
      destruct (rs_regs (y_state x) !! old) as [r0|]; [|done]. cbn in Hfo, Hfa. exists r0. split; [done|].
      apply keeps_spec. split; congruence. }
  split; [done|]. split; [by exists x'|]. split.
  { destruct (finish_reach x' p Hx' Hpub) as (x'' & Hx'' & Hs'). exists x''. split; [done|]. split; [done|].
    by rewrite finish_publisher. }
  split; [done|]. destruct Hi as [Hi1 Hi2]. split.
  { split; intros name; rewrite ?finish_current; [apply Hi1|].
    intros b Hname. destruct (Hi2 name b Hname) as (id & b' & ?). exists id, b'. by rewrite ?finish_current, finish_served. }
  intros id r Hr. destruct (quiet_prepare (y_state x) desired wrappers s' p) as [_ [_ Hsame]]; [by exists x|done..|].
  pose proof (finish_regs (y_state x') p id) as Hf. apply (f_equal (fmap fst)) in Hf. rewrite <-!option_fmap_compose in Hf.
  etransitivity; [exact Hf|]. unfold publish, publish_start in Epub. revert Epub.
  destruct (negb _); cbn [negb]; [done|]. intros [= <-]. transitivity (rn_binding <$> (rs_regs s' !! id)).
  { exact (publish_retire_bindings _ p (pr_retiring p) id). }
  by rewrite (Hsame _ _ Hr).
Qed.

(** ** Names and their members *)

Lemma sm_omap {V W} (f : V -> option W) (l : smap V) :
  (forall n v, (n, v) ∈ l -> is_Some (f v)) ->
  let l' := omap (fun '(n, v) => (fun w => (n, w)) <$> f v) l in
  sm_keys l' = sm_keys l /\ forall name, sm_find name l' = (sm_find name l ≫= f).
Proof.
  induction l as [|[n v] l IH]; intros Hf; [done|]. destruct (Hf n v) as [w Hw]; [left|].
  destruct IH as [Hk Hfind]; [intros ???; eapply Hf; by right|]. cbn. rewrite Hw. cbn. split.
  - f_equal. exact Hk.
  - intros name. rewrite Hfind. by destruct (String.eqb name n).
Qed.

Lemma bindings_spec s : quiet s -> sm_wf (bindings s) /\ forall name, sm_find name (bindings s) = served s name.
Proof.
  intros [Hwf Hq]%quiet_inv.
  destruct (sm_omap (fun id => rn_binding <$> (rs_regs s !! id)) (sn_entries (rs_current s))) as [Hk Hf].
  { intros n id Hin%sm_elem_find; [|done]. destruct (Hq _ _ Hin) as (r & Hr & _). rewrite Hr. eauto. }
  assert (bindings s = omap (fun '(n, v) => (fun w => (n, w)) <$> (rn_binding <$> (rs_regs s !! v))) (sn_entries (rs_current s))) as ->.
  { unfold bindings. apply list_omap_ext. apply Forall_Forall2_diag, Forall_forall. intros [n id] _.
    by destruct (rs_regs s !! id). }
  split; [|exact Hf]. unfold sm_wf. by rewrite Hk.
Qed.

Section Members.
Context (asAddMember : string -> bool) (wrap : AccessMember -> string -> Wrapper).
Implicit Types (s : Secured) (name : string).

(** Each served name has one member, of the assignment it is served with, and
    no two names share a member. *)
Record members_ok s : Prop := {
  mo_quiet : quiet (se_registry s);
  mo_assignment : forall name,
    (mb_assignment <$> se_members s !! name) = (bd_access <$> served (se_registry s) name);
  mo_bound : forall name m, se_members s !! name = Some m -> mb_id m < se_next s;
  mo_distinct : forall n1 n2 m1 m2, se_members s !! n1 = Some m1 -> se_members s !! n2 = Some m2 ->
    mb_id m1 = mb_id m2 -> n1 = n2;
}.

Record loop_members s (desired : PVBindings) (l : MembersLoop) : Prop := {
  lm_next : se_next s <= ml_next l;
  lm_member : forall name m, ml_members l !! name = Some m -> exists b, sm_find name desired = Some b /\
    mb_assignment m = bd_access b /\ mb_id m < ml_next l /\
    match keptMember (bindings (se_registry s)) (se_members s) name b with
    | Some old => m = old
    | None => se_next s <= mb_id m
    end;
  lm_fresh : forall n1 n2 m1 m2, ml_members l !! n1 = Some m1 -> ml_members l !! n2 = Some m2 ->
    se_next s <= mb_id m1 -> mb_id m1 = mb_id m2 -> n1 = n2;
}.

Lemma keptMember_Some s name b m :
  quiet (se_registry s) ->
  keptMember (bindings (se_registry s)) (se_members s) name b = Some m <->
  se_members s !! name = Some m /\
  exists before, served (se_registry s) name = Some before /\ bd_owner before = bd_owner b /\ bd_access before = bd_access b.
Proof.
  intros Hq. unfold keptMember. rewrite (proj2 (bindings_spec _ Hq)).
  destruct (served _ name) as [before|]; [|naive_solver]. destruct (se_members s !! name); [|naive_solver].
  destruct (_ && _) eqn:E.
  - apply andb_true_iff in E as [?%bool_decide_eq_true ?%sameAccessAssignment_eq]. naive_solver.
  - split; [done|]. intros (_ & b0 & [= ->] & Ho & Ha). exfalso. revert E. apply not_false_iff_true, andb_true_iff.
    by rewrite bool_decide_eq_true, sameAccessAssignment_eq.
Qed.

Lemma prepareMember_ok s desired l e l' :
  members_ok s -> sm_wf desired -> e ∈ desired -> loop_members s desired l ->
  prepareMember asAddMember wrap (bindings (se_registry s)) (se_members s) l e = Ret l' -> loop_members s desired l'.
Proof.
  destruct e as [name b]. intros Hs Hwf Hin%sm_elem_find Hl; [|done]. unfold prepareMember.
  intros ([member next] & Hm & Hret)%exn_bind_ret. injection Hret as <-.
  assert (Hprop : ml_next l <= next /\ mb_assignment member = bd_access b /\ mb_id member < next /\
    match keptMember (bindings (se_registry s)) (se_members s) name b with
    | Some old => member = old | None => mb_id member = ml_next l end).
  { destruct (keptMember _ _ name b) as [old|] eqn:Ek; [|unfold newMember in Hm].
    - injection Hm as <- <-. apply keptMember_Some in Ek as (Hold & before & Hb & Ho & Ha); [|apply Hs].
      pose proof (mo_assignment _ Hs name) as Hx. rewrite Hold, Hb in Hx. injection Hx as Hx.
      pose proof (mo_bound _ Hs _ _ Hold). pose proof (lm_next _ _ _ Hl). split_and!; try done; [congruence|lia].
    - destruct (asAddMember _); [|done]. injection Hm as <- <-. cbn. split_and!; try done; lia. }
  destruct Hprop as (Hn & Ha & Hb & Hk). destruct Hl as [Hnext Hmem Hfresh].
  assert (Hmem' : forall n m, ml_members l !! n = Some m -> mb_id m < ml_next l) by (intros n m (?&?&?&?&?)%Hmem; done).
  split; cbn; [lia| |].
  - intros n m. destruct (ml_members l !! name) eqn:El.
    + intros Hnm. destruct (Hmem _ _ Hnm) as (b0 & ? & ? & ? & ?). exists b0. split_and!; try done. lia.
    + intros [(<- & <-)|(Hne & Hnm)]%lookup_insert_Some.
      * exists b. split_and!; try done. destruct (keptMember _ _ name b); [done|lia].
      * destruct (Hmem _ _ Hnm) as (b0 & ? & ? & ? & ?). exists b0. split_and!; try done. lia.
  - destruct (ml_members l !! name) eqn:El; [done|]. intros n1 n2 m1 m2.
    intros [(<- & <-)|(Hn1 & H1)]%lookup_insert_Some [(<- & <-)|(Hn2 & H2)]%lookup_insert_Some Hge Heq; try done.
    + destruct (keptMember _ _ name b) as [old|] eqn:Ek; [|apply Hmem' in H2; lia].
      apply keptMember_Some in Ek as [Hold _]; [|apply Hs]. subst old. apply (mo_bound _ Hs) in Hold. lia.
    + destruct (keptMember _ _ name b) as [old|] eqn:Ek; [|apply Hmem' in H1; lia].
      apply keptMember_Some in Ek as [Hold _]; [|apply Hs]. subst old. apply (mo_bound _ Hs) in Hold. lia.
    + eauto.
Qed.

Lemma prepareMember_keys existing previous l e l' name :
  prepareMember asAddMember wrap existing previous l e = Ret l' ->
  is_Some (ml_members l' !! name) <-> name = e.1 \/ is_Some (ml_members l !! name).
Proof.
  destruct e as [n b]. unfold prepareMember. intros ([member next] & _ & [= <-])%exn_bind_ret. cbn.
  destruct (ml_members l !! n) eqn:E; [|rewrite lookup_insert_is_Some'; naive_solver]. naive_solver.
Qed.

Lemma prepareMembers_keys existing previous desired l l' name :
  exn_fold (prepareMember asAddMember wrap existing previous) l desired = Ret l' ->
  is_Some (ml_members l' !! name) <-> name ∈ sm_keys desired \/ is_Some (ml_members l !! name).
Proof.
  revert l; induction desired as [|e d IH]; intros l; cbn; [intros [= ->]; set_solver|].
  intros (l1 & H1 & H2)%exn_bind_ret. rewrite (IH _ H2), (prepareMember_keys _ _ _ _ _ name H1), elem_of_cons. tauto.
Qed.

(** The names are replaced: as [installs] for the registrations, and a member
    that can be kept is kept. *)
Definition replaced s (desired : PVBindings) (s' : Secured) : Prop :=
  installs (se_registry s) desired (se_registry s') /\
  forall name b m, sm_find name desired = Some b -> se_members s !! name = Some m ->
    (bd_owner <$> served (se_registry s) name) = Some (bd_owner b) ->
    (bd_access <$> served (se_registry s) name) = Some (bd_access b) -> se_members s' !! name = Some m.

Definition unchanged s s' : Prop := same_names (se_registry s) (se_registry s') /\ se_members s' = se_members s.

Lemma unchanged_ok s s' : members_ok s -> unchanged s s' -> quiet (se_registry s') -> se_next s <= se_next s' -> members_ok s'.
Proof.
  intros [Hq Ha Hb Hd] [Hsame Hm] Hq' Hn. split; rewrite ?Hm; try done.
  - intros name. by rewrite (same_served _ _ Hq Hsame).
  - intros name m Hl. apply Hb in Hl. lia.
Qed.

Lemma installs_served (r r' : State) desired name :
  installs r desired r' -> (bd_access <$> served r' name) = (bd_access <$> sm_find name desired).
Proof.
  intros [Hk Hb]. destruct (sm_find name desired) as [b|] eqn:E.
  - destruct (Hb _ _ E) as (id & b' & _ & Hs & _ & Ha & _). rewrite Hs. cbn. by rewrite Ha.
  - unfold served. destruct (sm_find name (sn_entries _)) eqn:Es; [|done].
    destruct (proj1 (Hk name)) as [? Hx]; [eauto|]. congruence.
Qed.

Lemma prepareBindings_cases s desired s1 p :
  members_ok s -> sm_wf desired -> prepareBindings asAddMember wrap s desired = Ret (s1, p) ->
  members_ok s1 /\ unchanged s s1 /\
  (exists s2, publishBindings s1 p false = (s2, false) /\ members_ok s2 /\ unchanged s s2) /\
  exists s2, publishBindings s1 p true = (s2, true) /\ members_ok s2 /\ replaced s desired s2 /\
    members_ok (finishBindings s2 p) /\ replaced s desired (finishBindings s2 p) /\
    keeps_bindings (se_registry s) (se_registry (finishBindings s2 p)).
Proof.
  intros Hs Hwf (l & Hl & ([reg pub] & Hp & [= <- <-])%exn_bind_ret)%exn_bind_ret.
  assert (Hlm : loop_members s desired l).
  { eapply exn_fold_inv; [|intros ???; eapply prepareMember_ok; eauto|exact Hl]. split; cbn; [lia|done..]. }
  pose proof (mo_quiet _ Hs) as Hq. destruct (quiet_prepare _ _ _ _ _ Hq Hwf Hp) as [Hq1 Hsame1].
  destruct (quiet_refused _ _ _ _ _ Hq Hwf Hp) as (r2 & Hpub2 & Hq2 & Hsame2).
  destruct (quiet_published _ _ _ _ _ Hq Hwf Hp) as (r3 & Hpub3 & Hq3 & Hqf & Hi & Hif & Hkb).
  pose proof (lm_next _ _ _ Hlm) as Hnext. split; [by eapply unchanged_ok; [exact Hs|..]|]. split; [done|].
  assert (Hok : forall r, quiet r -> installs (se_registry s) desired r ->
    members_ok {| se_registry := r; se_members := ml_members l; se_next := ml_next l |} /\
    replaced s desired {| se_registry := r; se_members := ml_members l; se_next := ml_next l |}).
  { intros r Hr Hir.
    assert (Hfound : forall name b, sm_find name desired = Some b -> is_Some (ml_members l !! name)).
    { intros name b Hname. apply (prepareMembers_keys _ _ _ _ _ name Hl). left. apply sm_find_is_Some. eauto. }
    split; split; cbn.
    - done.
    - intros name. rewrite (installs_served _ _ _ _ Hir). destruct (ml_members l !! name) as [m|] eqn:Em.
      + destruct (lm_member _ _ _ Hlm _ _ Em) as (b & Hb & Ha & _). rewrite Hb. cbn. by rewrite Ha.
      + destruct (sm_find name desired) as [b|] eqn:Eb; [|done]. destruct (Hfound _ _ Eb). congruence.
    - intros name m Hm. destruct (lm_member _ _ _ Hlm _ _ Hm) as (b & _ & _ & ? & _). done.
    - intros n1 n2 m1 m2 H1 H2 Heq. destruct (decide (se_next s <= mb_id m1)) as [|Hlt]; [by eapply lm_fresh|].
      destruct (lm_member _ _ _ Hlm _ _ H1) as (b1 & _ & _ & _ & K1), (lm_member _ _ _ Hlm _ _ H2) as (b2 & _ & _ & _ & K2).
      destruct (keptMember _ _ n1 b1) as [o1|] eqn:E1; [|lia]. destruct (keptMember _ _ n2 b2) as [o2|] eqn:E2; [|lia].
      apply keptMember_Some in E1 as [E1 _]; [|done]. apply keptMember_Some in E2 as [E2 _]; [|done]. subst o1 o2.
      exact (mo_distinct _ Hs n1 n2 m1 m2 E1 E2 Heq).
    - done.
    - intros name b m Hname Hm Ho Ha. destruct (Hfound _ _ Hname) as [m' Hm'].
      destruct (lm_member _ _ _ Hlm _ _ Hm') as (b' & Hb' & _ & _ & K). rewrite Hname in Hb'. injection Hb' as <-.
      rewrite (proj2 (keptMember_Some s name b m Hq)) in K; [by subst m'|]. split; [done|].
      destruct (served _ name) as [before|]; [|done]. exists before. cbn in Ho, Ha. split; [done|]. split; congruence. }
  split.
  - exists (s <| se_registry := r2 |> <| se_next := ml_next l |>). unfold publishBindings. cbn. rewrite Hpub2.
    split; [done|]. split; [|done]. by eapply unchanged_ok; [exact Hs|..].
  - exists {| se_registry := r3; se_members := ml_members l; se_next := ml_next l |}. unfold publishBindings. cbn.
    rewrite Hpub3. split; [done|]. destruct (Hok r3 Hq3 Hi) as [? ?]. split; [done|]. split; [done|].
    destruct (Hok _ Hqf Hif) as [? ?]. done.
Qed.

Lemma replaceBindings_ok s desired s' :
  members_ok s -> sm_wf desired -> replaceBindings asAddMember wrap s desired = Ret s' ->
  members_ok s' /\ replaced s desired s' /\ keeps_bindings (se_registry s) (se_registry s').
Proof.
  intros Hs Hwf ([s1 p] & Hp & Hret)%exn_bind_ret.
  destruct (prepareBindings_cases _ _ _ _ Hs Hwf Hp) as (_ & _ & _ & s2 & Hpub & _ & _ & Hok & Hr & Hkb).
  rewrite Hpub in Hret. cbn in Hret. by injection Hret as <-.
Qed.

(** What happens to a controller: its operations, a refused publication, and
    steps of the registry that publish nothing, made by the server's threads. *)
Inductive secured_step s : Secured -> Prop :=
| W_replace desired s' :
    sm_wf desired -> replaceBindings asAddMember wrap s desired = Ret s' -> secured_step s s'
| W_refused desired s1 p :
    sm_wf desired -> prepareBindings asAddMember wrap s desired = Ret (s1, p) ->
    secured_step s (publishBindings s1 p false).1
| W_clear s' : clearBindings asAddMember wrap s = Ret s' -> secured_step s s'
| W_add name pv owner assignment s' :
    addPV asAddMember wrap s name pv owner assignment = Ret s' -> secured_step s s'
| W_remove name s' : removePV asAddMember wrap s name = Ret s' -> secured_step s s'
| W_assign name assignment s' : setAssignment asAddMember wrap s name assignment = Ret s' -> secured_step s s'
| W_server x x' :
    reach x -> y_state x = se_registry s -> step x x' -> rs_publisher (y_state x') = None ->
    rs_current (y_state x') = rs_current (se_registry s) -> secured_step s (s <| se_registry := y_state x' |>).

Lemma step_bindings x x' id r :
  reach x -> step x x' -> rs_regs (y_state x) !! id = Some r ->
  (rn_binding <$> (rs_regs (y_state x') !! id)) = Some (rn_binding r).
Proof.
  intros [Hi _]%registry_reach_inv H Hr.
  assert (Halter : forall (f : Registration -> Registration) j, (forall r0, rn_binding (f r0) = rn_binding r0) ->
    (rn_binding <$> (alter f j (rs_regs (y_state x)) !! id)) = Some (rn_binding r)).
  { intros f j Hf. destruct (decide (id = j)) as [->|]; [|by rewrite lookup_alter_ne, Hr].
    rewrite lookup_alter_eq, Hr. cbn. by rewrite Hf. }
  destruct H; cbn; rewrite ?Hr; try done.
  - apply prepare_ret in H0 as (l & Hl & -> & _). cbn.
    rewrite (lo_old _ _ _ _ _ _ (made_loop _ _ _ _ _ H (pi_dom _ _ _ _ _ Hi) (pi_served _ _ _ _ _ Hi) (pi_cur _ _ _ _ _ Hi) Hl)), Hr; [done|].
    eapply (pi_dom _ _ _ _ _ Hi), active_is_Some. eauto.
  - unfold publish_start. destruct (negb _); cbn; by rewrite Hr.
  - by apply Halter.
  - unfold finish_one. destruct (rs_regs (y_state x) !! id0) as [r0|] eqn:E; cbn; [|by rewrite Hr].
    destruct (decide (id = id0)) as [->|]; [|by rewrite lookup_insert_ne, Hr].
    rewrite lookup_insert_eq. rewrite E in Hr. by injection Hr as ->.
  - unfold close_next. destruct (rs_closing (y_state x)); cbn; by rewrite Hr.
  - unfold create_find. destruct (sm_find _ _); cbn; by rewrite Hr.
  - by apply Halter.
  - unfold create_attach. destruct (rs_regs (y_state x) !! id0); cbn; [|by rewrite Hr].
    destruct (match rn_wrapper _ with Some _ => _ | None => _ end); cbn; by rewrite Hr.
  - unfold create_check. cbn. destruct (rs_regs (y_state x) !! id0); cbn; [|by rewrite Hr].
    destruct (negb _); cbn; by rewrite Hr.
Qed.

Lemma server_step_ok s x x' :
  members_ok s -> reach x -> y_state x = se_registry s -> step x x' -> rs_publisher (y_state x') = None ->
  rs_current (y_state x') = rs_current (se_registry s) -> members_ok (s <| se_registry := y_state x' |>).
Proof.
  intros [Hq Ha Hb Hd] Hx Hxs Hstep Hn Hc. split; cbn; try done.
  - exists x'. split; [by eapply rtc_r|done].
  - intros name. rewrite Ha. f_equal. unfold served. rewrite Hc.
    destruct (sm_find name _) as [id|] eqn:E; [|done]. cbn. destruct (proj2 (quiet_inv _ Hq) _ _ E) as (r & Hr & _).
    rewrite Hr. cbn. rewrite <-Hxs in Hr. by rewrite (step_bindings _ _ _ _ Hx Hstep Hr).
Qed.

Lemma sm_erase_elem {V} name k (v : V) (m : smap V) : (k, v) ∈ sm_erase name m -> (k, v) ∈ m.
Proof.
  induction m as [|[k' v'] m IH]; cbn; [done|]. destruct (String.eqb name k'); [by right|].
  intros [->|?]%elem_of_cons; [left|right; auto].
Qed.

Lemma sm_wf_erase {V} name (m : smap V) : sm_wf m -> sm_wf (sm_erase name m).
Proof.
  induction m as [|[k v] m IH]; [done|]. intros [Hm Hk]%sm_wf_cons. cbn. destruct (String.eqb name k); [done|].
  apply sm_wf_cons. split; [auto|]. apply Forall_forall. intros k' (e & -> & He)%list_elem_of_fmap. destruct e as [k1 v1].
  eapply Forall_forall in Hk; [exact Hk|]. apply list_elem_of_fmap. exists (k1, v1). split; [done|]. by eapply sm_erase_elem.
Qed.

Lemma bindings_wf s : members_ok s -> sm_wf (bindings (se_registry s)).
Proof. intros Hs. apply bindings_spec, Hs. Qed.

Lemma replaceBindings_members s desired s' :
  members_ok s -> sm_wf desired -> replaceBindings asAddMember wrap s desired = Ret s' -> members_ok s'.
Proof. intros Hs Hwf H. by destruct (replaceBindings_ok _ _ _ Hs Hwf H). Qed.

Lemma secured_step_ok s s' : members_ok s -> secured_step s s' -> members_ok s'.
Proof.
  intros Hs H. pose proof (bindings_wf s Hs) as Hwf. destruct H.
  - exact (replaceBindings_members _ _ _ Hs H H0).
  - destruct (prepareBindings_cases _ _ _ _ Hs H H0) as (_ & _ & (s2 & Hp & Hok & _) & _).
    by rewrite Hp.
  - exact (replaceBindings_members _ [] _ Hs sm_wf_nil H).
  - unfold addPV in H. destruct (sm_emplace _ _ _) as [d ins] eqn:E. destruct (negb ins); [done|].
    eapply replaceBindings_members; [exact Hs| |exact H]. pose proof (sm_wf_emplace name {| bd_pv := Some pv; bd_owner := Some owner; bd_access := assignment |} _ Hwf) as Hw. by rewrite E in Hw.
  - unfold removePV in H. destruct (negb _); [by injection H as <-|].
    eapply replaceBindings_members; [exact Hs| |exact H]. by apply sm_wf_erase.
  - unfold setAssignment in H. destruct (sm_find _ _) as [b|]; [|done]. destruct (sameAccessAssignment _ _); [by injection H as <-|].
    eapply replaceBindings_members; [exact Hs| |exact H]. by apply sm_wf_set.
  - by eapply server_step_ok.
Qed.

Lemma members_ok_new : members_ok Secured_new.
Proof. split; cbn; try done. apply quiet_new. Qed.

Lemma members_reach s : rtc secured_step Secured_new s -> members_ok s.
Proof.
  intros H. pose proof members_ok_new as Hn. revert Hn. induction H; [done|]. intros Hn. apply IHrtc.
  by eapply secured_step_ok.
Qed.

(** C31. Members follow the names: however names are published, refused, added,
    removed and reassigned while clients come and go, every served name has a
    member, of the security group and level its registration is published
    with, a name that is not served has none, and no two names share one. *)
Theorem members_follow_names s :
  rtc secured_step Secured_new s ->
  (forall name, is_Some (se_members s !! name) <-> onSearch (se_registry s) name = true) /\
  (forall name m id r, se_members s !! name = Some m ->
     sm_find name (sn_entries (rs_current (se_registry s))) = Some id -> rs_regs (se_registry s) !! id = Some r ->
     mb_assignment m = bd_access (rn_binding r)) /\
  (forall n1 n2 m1 m2, se_members s !! n1 = Some m1 -> se_members s !! n2 = Some m2 -> mb_id m1 = mb_id m2 -> n1 = n2).
Proof.
  intros [Hq Ha _ Hd]%members_reach. split; [|split; [|done]].
  - intros name. specialize (Ha name). unfold onSearch. rewrite sm_has_spec, <-sm_find_is_Some. unfold served in Ha.
    destruct (sm_find name _) as [id|] eqn:E.
    + destruct (proj2 (quiet_inv _ Hq) _ _ E) as (r & Hr & _). cbn in Ha. rewrite Hr in Ha.
      destruct (se_members s !! name); [|done]. split; eauto.
    + destruct (se_members s !! name); [done|]. split; intros [??]; done.
  - intros name m id r Hm Hid Hr. specialize (Ha name). unfold served in Ha. rewrite Hm, Hid in Ha. cbn in Ha.
    rewrite Hr in Ha. by injection Ha.
Qed.

(** Changing one assignment is local: [setAssignment] succeeds or throws
    without a change; when it succeeds the name is served by the same owner
    with the new assignment, by a new registration exactly when the assignment
    differs, and every other name keeps its registration, with its channels,
    and its member. *)
Theorem setAssignment_local s name assignment s' :
  rtc secured_step Secured_new s -> setAssignment asAddMember wrap s name assignment = Ret s' ->
  exists b b', served (se_registry s) name = Some b /\ served (se_registry s') name = Some b' /\
    bd_owner b' = bd_owner b /\ bd_access b' = assignment /\
    (sm_find name (sn_entries (rs_current (se_registry s'))) = sm_find name (sn_entries (rs_current (se_registry s))) <->
     bd_access b = assignment) /\
    forall other, other <> name ->
      sm_find other (sn_entries (rs_current (se_registry s'))) = sm_find other (sn_entries (rs_current (se_registry s))) /\
      se_members s' !! other = se_members s !! other.
Proof.
  intros Hs%members_reach. pose proof (mo_quiet _ Hs) as Hq. destruct (bindings_spec _ Hq) as [Hwf Hfind].
  unfold setAssignment. rewrite Hfind. destruct (served _ name) as [b|] eqn:Eb; [|done].
  destruct (sameAccessAssignment (bd_access b) assignment) eqn:Esame.
  { intros [= <-]. apply sameAccessAssignment_eq in Esame. exists b, b. by rewrite Eb. }
  assert (Hdiff : bd_access b <> assignment) by (intros ?%sameAccessAssignment_eq; congruence).
  set (b1 := {| bd_pv := _; bd_owner := _; bd_access := _ |}). intros Hrep.
  destruct (replaceBindings_ok s _ s' Hs (sm_wf_set _ _ _ Hwf) Hrep) as (Hs' & [[Hk Hi] Hm] & Hkb).
  destruct (Hi name b1) as (id & b' & Hid & Hb' & Ho & Ha & _); [by apply sm_find_set_eq|].
  exists b, b'. split; [done|]. split; [done|]. split; [done|]. split; [done|]. split.
  - split; [|done]. intros Hold. exfalso. apply Hdiff. rewrite Hid in Hold. symmetry in Hold.
    unfold served in Eb, Hb'. rewrite Hid in Hb'. rewrite Hold in Eb. cbn in Eb, Hb'.
    destruct (rs_regs (se_registry s) !! id) as [r|] eqn:Er; [|done]. rewrite (Hkb _ _ Er) in Hb'. cbn in Eb, Ha.
    by simplify_eq.
  - intros other Hne. pose proof (mo_assignment _ Hs other) as Hao. pose proof (mo_assignment _ Hs' other) as Hao'.
    assert (Hf : sm_find other (sm_set name b1 (bindings (se_registry s))) = served (se_registry s) other).
    { by rewrite sm_find_set_ne, Hfind. }
    destruct (served (se_registry s) other) as [bo|] eqn:Eo.
    + destruct (Hi other bo Hf) as (ido & bo' & Hido & Hbo' & _ & _ & Hold). split.
      * pose proof Eo as Eo'. unfold served in Eo'.
        destruct (sm_find other (sn_entries (rs_current (se_registry s)))) as [old|] eqn:Eold; [|done].
        rewrite Hido. f_equal. by apply Hold; rewrite ?Eo.
      * destruct (se_members s !! other) as [m|] eqn:Em; [|done]. by apply (Hm other bo m); rewrite ?Eo.
    + assert (Hnone : forall r, quiet r -> served r other = None -> sm_find other (sn_entries (rs_current r)) = None).
      { intros r Hr Hsv. unfold served in Hsv.
        destruct (sm_find other (sn_entries (rs_current r))) as [j|] eqn:Ej; [|done].
        destruct (proj2 (quiet_inv _ Hr) _ _ Ej) as (rj & Hrj & _). cbn in Hsv. by rewrite Hrj in Hsv. }
      assert (Hn' : sm_find other (sn_entries (rs_current (se_registry s'))) = None).
      { specialize (Hk other). rewrite Hf in Hk. destruct (sm_find other (sn_entries _)); [|done].
        destruct (proj1 Hk) as [??]; [eauto|done]. }
      rewrite Hn', Hnone by done. split; [done|]. unfold served in Hao'. rewrite Hn' in Hao'. cbn in Hao, Hao'.
      destruct (se_members s !! other), (se_members s' !! other); done.
Qed.
End Members.

(** ** Two secured names *)

Module SecuredDemo.
Import RegistryDemo.

Definition add (asg : string) : bool := true.
Definition wrapped (m : AccessMember) (name : string) : Wrapper := fun _ => true.
Definition operator : AccessAssignment := {| asg := "OPERATORS"; asl := 0 |}.
Definition get (r : exn Secured) : Secured := match r with Ret s => s | Throw _ => Secured_new end.

Definition secured1 : Secured := get (replaceBindings add wrapped Secured_new demo_names).
Definition secured2 : Secured := get (setAssignment add wrapped secured1 "dev:a" operator).

Lemma secured1_reach : rtc (secured_step add wrapped) Secured_new secured1.
Proof.
  eapply rtc_l; [|apply rtc_refl]. apply (W_replace add wrapped _ demo_names); [|by vm_compute].
  repeat constructor.
Qed.

Lemma members_follow_names_witness :
  se_members secured2 !! "dev:a" = Some {| mb_id := 2; mb_assignment := operator |} /\
  forall name, is_Some (se_members secured2 !! name) <-> onSearch (se_registry secured2) name = true.
Proof.
  split; [by vm_compute|]. apply (members_follow_names add wrapped). eapply rtc_r; [exact secured1_reach|].
  apply (W_assign add wrapped _ "dev:a" operator). by vm_compute.
Defined.

Lemma setAssignment_local_witness :
  sm_find "dev:a" (sn_entries (rs_current (se_registry secured2))) = Some 2 /\
  sm_find "dev:b" (sn_entries (rs_current (se_registry secured2))) =
    sm_find "dev:b" (sn_entries (rs_current (se_registry secured1))).
Proof.
  split; [by vm_compute|].
  destruct (setAssignment_local add wrapped secured1 "dev:a" operator secured2 secured1_reach) as (b & b' & H);
    [by vm_compute|]. by apply H.
Defined.

End SecuredDemo.
