(* ===== verification/AccessPolicy.v ===== *)
(** * The access policy in force

    src/access_control.cpp, [AccessController]: loading, reloading, restoring
    and watching the policy file.  Reading, expanding and checking a policy is
    Acf's [preparePolicy].  The access library is outside: each call of
    [asInitMem] has the status the library returns, and a status other than
    zero leaves what it enforces as it was ([ai_library]).  Calls are
    serialized by [reloadMutex]; the re-evaluation of the clients is an
    effect. *)

From S2P Require Import Prelude.
From S2P Require Import StrMap.
From S2P Require Import Config.
From S2P Require Import Yaml.
From S2P Require Import ConfigParse.
From S2P Require Import Acf.
From S2P Require Import AcfGrammar.

Local Open Scope string_scope.
Local Open Scope list_scope.
Local Open Scope Z_scope.

(** The policy fields of [AccessController::Impl], and the text the access
    library enforces.  Times are in milliseconds. *)
Record AccessImpl := {
  ai_config : AccessConfig;
  ai_generation : Z;
  ai_lastStatus : string;
  ai_lastError : string;
  ai_policyFingerprint : string;
  ai_activePolicy : string;
  ai_previousConfig : AccessConfig;
  ai_previousConfiguredAsgs : sset;
  ai_previousPolicy : string;
  ai_previousPolicyFingerprint : string;
  ai_previousRaw : string;
  ai_previousGeneration : Z;
  ai_hasPreviousPolicy : bool;
  ai_watchStatus : string;
  ai_pendingTrigger : string;
  ai_lastMaintenance : Z;
  ai_lastWatchPoll : Z;
  ai_watchCandidateSince : Z;
  ai_observedRaw : string;
  ai_watchCandidateRaw : string;
  ai_watchLastAttemptRaw : string;
  ai_watchMissingReported : bool;
  ai_configuredAsgs : sset;
  ai_library : string;
}.
#[export] Instance AccessImpl_eta : Eta AccessImpl := fun r =>
  Build_AccessImpl (ai_config r) (ai_generation r) (ai_lastStatus r) (ai_lastError r) (ai_policyFingerprint r)
    (ai_activePolicy r) (ai_previousConfig r) (ai_previousConfiguredAsgs r) (ai_previousPolicy r)
    (ai_previousPolicyFingerprint r) (ai_previousRaw r) (ai_previousGeneration r) (ai_hasPreviousPolicy r)
    (ai_watchStatus r) (ai_pendingTrigger r) (ai_lastMaintenance r) (ai_lastWatchPoll r) (ai_watchCandidateSince r)
    (ai_observedRaw r) (ai_watchCandidateRaw r) (ai_watchLastAttemptRaw r) (ai_watchMissingReported r)
    (ai_configuredAsgs r) (ai_library r).

Definition AccessImpl_new (config : AccessConfig) : AccessImpl :=
  {| ai_config := config; ai_generation := 0; ai_lastStatus := "initializing"; ai_lastError := "";
     ai_policyFingerprint := ""; ai_activePolicy := ""; ai_previousConfig := AccessConfig_default;
     ai_previousConfiguredAsgs := []; ai_previousPolicy := ""; ai_previousPolicyFingerprint := "";
     ai_previousRaw := ""; ai_previousGeneration := 0; ai_hasPreviousPolicy := false; ai_watchStatus := "disabled";
     ai_pendingTrigger := ""; ai_lastMaintenance := 0; ai_lastWatchPoll := 0; ai_watchCandidateSince := 0;
     ai_observedRaw := ""; ai_watchCandidateRaw := ""; ai_watchLastAttemptRaw := "";
     ai_watchMissingReported := false; ai_configuredAsgs := []; ai_library := "" |}.

(** What is done to the clients: all of them, or those marked dirty. *)
Inductive effect := RecomputeAll | DrainDirty.

Definition watching (config : AccessConfig) : string :=
  if aw_enabled (ac_watch config) then "watching " +:+ ac_file config else "disabled".

Definition asInitMem (s : AccessImpl) (text : string) (status : Z) : AccessImpl :=
  if status =? 0 then s <| ai_library := text |> else s.

Section AccessPolicy.
(** [errSymMsg] and the status [S_asLib_asNotActive] are EPICS Base's. *)
Context `{MacLib} (errSymMsg : Z -> string) (S_asLib_asNotActive : Z).

(** [preparePolicy] always ends (lemma [preparePolicy_ends]); running out of
    fuel has no counterpart. *)
Definition prepared (files : string -> TextFile) (config : AccessConfig) (asgs : sset) : exn PreparedPolicy :=
  match preparePolicy files config asgs with
  | Done p => Ret p
  | Fails what => Throw what
  | OutOfFuel => Throw ""
  end.

Definition initFailed (prefix : string) (status : Z) : string := prefix +:+ " failed: " +:+ errSymMsg status.

Definition reloadLocked (s : AccessImpl) (trigger : string) (config : AccessConfig) (requiredAsgs : sset)
    (files : string -> TextFile) (status : Z) : AccessImpl * exn unit * list effect :=
  let failed (s : AccessImpl) (what : string) :=
    (s <| ai_lastStatus := trigger +:+ " reload failed" |> <| ai_lastError := what |>, Throw what, []) in
  match prepared files config requiredAsgs with
  | Throw what => failed s what
  | Ret p =>
      let s := asInitMem s (pp_expanded p) status in
      if negb (status =? 0) then failed s (initFailed "ACF parse" status)
      else
        (s <| ai_activePolicy := pp_expanded p |> <| ai_policyFingerprint := pp_fingerprint p |>
           <| ai_observedRaw := pp_raw p |> <| ai_watchLastAttemptRaw := "" |> <| ai_watchMissingReported := false |>
           <| ai_lastStatus := trigger +:+ " reload active" |> <| ai_lastError := "" |>
           <| ai_watchStatus := watching config |> <| ai_generation ::= fun n => u64 (n + 1) |>,
         Ret tt, [RecomputeAll])
  end.

Definition reload (s : AccessImpl) (trigger : string) (files : string -> TextFile) (status : Z)
    : AccessImpl * exn unit * list effect :=
  reloadLocked s trigger (ai_config s) (ai_configuredAsgs s) files status.

Definition start (s : AccessImpl) (requiredAsgs : sset) (files : string -> TextFile) (status : Z)
    : AccessImpl * exn unit * list effect :=
  if negb (ac_enabled (ai_config s)) then (s, Throw "access controller requires enabled configuration", [])
  else reload (s <| ai_configuredAsgs := requiredAsgs |>) "startup" files status.

Definition reconfigure (s : AccessImpl) (config : AccessConfig) (requiredAsgs : sset) (files : string -> TextFile)
    (status : Z) : AccessImpl * exn unit * list effect :=
  if negb (Bool.eqb (ac_enabled config) (ac_enabled (ai_config s))) then
    (s, Throw "access.enabled is immutable after startup", [])
  else
    let '(s', r, eff) := reloadLocked (s <| ai_config := config |> <| ai_configuredAsgs := requiredAsgs |>)
                           "config" config requiredAsgs files status in
    match r with
    | Throw what => (s' <| ai_config := ai_config s |> <| ai_configuredAsgs := ai_configuredAsgs s |>, Throw what, eff)
    | Ret _ =>
        (s' <| ai_previousConfig := ai_config s |> <| ai_previousConfiguredAsgs := ai_configuredAsgs s |>
            <| ai_previousPolicy := ai_activePolicy s |> <| ai_previousPolicyFingerprint := ai_policyFingerprint s |>
            <| ai_previousRaw := ai_observedRaw s |> <| ai_previousGeneration := u64 (ai_generation s' - 1) |>
            <| ai_hasPreviousPolicy := true |>, Ret tt, eff)
    end.

Definition restorePrevious (s : AccessImpl) (status : Z) : AccessImpl * exn unit * list effect :=
  if negb (ai_hasPreviousPolicy s) then (s, Throw "no previous access policy is available", [])
  else
    let s' := asInitMem s (ai_previousPolicy s) status in
    if negb (status =? 0) then (s', Throw (initFailed "previous ACF restore" status), [])
    else
      (s' <| ai_config := ai_previousConfig s |> <| ai_configuredAsgs := ai_previousConfiguredAsgs s |>
          <| ai_activePolicy := ai_previousPolicy s |> <| ai_policyFingerprint := ai_previousPolicyFingerprint s |>
          <| ai_observedRaw := ai_previousRaw s |> <| ai_lastStatus := "previous policy restored" |>
          <| ai_lastError := "" |> <| ai_watchStatus := watching (ai_previousConfig s) |>
          <| ai_hasPreviousPolicy := false |> <| ai_generation := ai_previousGeneration s |>,
       Ret tt, [RecomputeAll]).

(** ** The two phases of a configuration reload *)

Record PreparedConfiguration := {
  pc_config : AccessConfig;
  pc_requiredAsgs : sset;
  pc_policy : PreparedPolicy;
  pc_watchStatus : string;
  pc_policyChanged : bool;
}.

Definition prepareConfiguration (s : AccessImpl) (config : AccessConfig) (requiredAsgs : sset)
    (files : string -> TextFile) : exn PreparedConfiguration :=
  policy ← prepared files config requiredAsgs;
  throw_if (negb (Bool.eqb (ac_enabled config) (ac_enabled (ai_config s)))) "access.enabled is immutable after startup" ;;
  Ret {| pc_config := config; pc_requiredAsgs := requiredAsgs; pc_policy := policy;
         pc_watchStatus := watching config;
         pc_policyChanged := negb (String.eqb (pp_expanded policy) (ai_activePolicy s)) |}.

(** The lock taken by [prepareConfiguration] is held until here. *)
Definition activateConfiguration (s : AccessImpl) (p : PreparedConfiguration) (status : Z) : AccessImpl * exn unit :=
  let s' := if pc_policyChanged p then asInitMem s (pp_expanded (pc_policy p)) status else s in
  if pc_policyChanged p && negb (status =? 0) then (s', Throw (initFailed "ACF parse" status))
  else
    (s' <| ai_config := pc_config p |> <| ai_configuredAsgs := pc_requiredAsgs p |>
        <| ai_activePolicy := pp_expanded (pc_policy p) |> <| ai_policyFingerprint := pp_fingerprint (pc_policy p) |>
        <| ai_observedRaw := pp_raw (pc_policy p) |> <| ai_lastStatus := "config reload active" |>
        <| ai_watchStatus := pc_watchStatus p |> <| ai_lastError := "" |> <| ai_watchLastAttemptRaw := "" |>
        <| ai_watchCandidateRaw := "" |> <| ai_watchMissingReported := false |> <| ai_hasPreviousPolicy := false |>
        <| ai_generation ::= fun n => u64 (n + 1) |>, Ret tt).

Definition finishConfiguration : list effect := [RecomputeAll].

Definition requestReload (s : AccessImpl) (trigger : string) : AccessImpl := s <| ai_pendingTrigger := trigger |>.

(** ** The watcher *)

(** One poll of the file; [files] is read by the poll, [files'] by the reload
    it may make. *)
Definition watchPoll (s : AccessImpl) (config : AccessConfig) (now : Z) (files files' : string -> TextFile) (status : Z)
    : AccessImpl * list effect :=
  match readTextFile files (ac_file config) with
  | Done raw =>
      let recoveredMissing := ai_watchMissingReported s in
      let s := s <| ai_watchMissingReported := false |> in
      if String.eqb raw (ai_observedRaw s) then
        let s := if recoveredMissing || String.eqb (ai_lastStatus s) "watch reload failed"
                 then s <| ai_lastStatus := "watch active" |> <| ai_lastError := "" |> else s in
        (s <| ai_watchCandidateRaw := "" |> <| ai_watchLastAttemptRaw := "" |>, [])
      else if String.eqb raw (ai_watchLastAttemptRaw s) then (s <| ai_watchCandidateRaw := "" |>, [])
      else if negb (String.eqb raw (ai_watchCandidateRaw s)) then
        (s <| ai_watchCandidateRaw := raw |> <| ai_watchCandidateSince := now |>, [])
      else if aw_settleMs (ac_watch config) <=? now - ai_watchCandidateSince s then
        let '(s', _, eff) := reload (s <| ai_watchLastAttemptRaw := raw |>) "watch" files' status in
        (s' <| ai_watchCandidateRaw := "" |>, eff)
      else (s, [])
  | Fails what =>
      (if ai_watchMissingReported s then s
       else s <| ai_lastStatus := "watch reload failed" |> <| ai_lastError := what |>
              <| ai_watchMissingReported := true |>, [])
  | OutOfFuel => (s, [])
  end.

Definition maintain (s : AccessImpl) (now hagStatus hagChanged : Z) : AccessImpl * list effect :=
  if 1000 <=? now - ai_lastMaintenance s then
    (s <| ai_lastMaintenance := now |>,
     if negb (hagStatus =? 0) && negb (hagStatus =? S_asLib_asNotActive) then []
     else if negb (hagChanged =? 0) then [RecomputeAll] else [DrainDirty])
  else (s, []).

Record PumpInput := {
  pi_now : Z;
  pi_triggerFiles : string -> TextFile; pi_triggerStatus : Z;
  pi_hagStatus : Z; pi_hagChanged : Z;
  pi_watchFiles : string -> TextFile; pi_reloadFiles : string -> TextFile; pi_reloadStatus : Z;
}.

Definition pump (s : AccessImpl) (i : PumpInput) : AccessImpl * list effect :=
  let trigger := ai_pendingTrigger s in
  let s := s <| ai_pendingTrigger := "" |> in
  let '(s, eff1) := if str_empty trigger then (s, [])
                    else let '(s, _, eff) := reload s trigger (pi_triggerFiles i) (pi_triggerStatus i) in (s, eff) in
  let '(s, eff2) := maintain s (pi_now i) (pi_hagStatus i) (pi_hagChanged i) in
  let config := ai_config s in
  if negb (aw_enabled (ac_watch config)) || (pi_now i - ai_lastWatchPoll s <? aw_intervalMs (ac_watch config))
  then (s, eff1 ++ eff2)
  else
    let '(s, eff3) := watchPoll (s <| ai_lastWatchPoll := pi_now i |>) config (pi_now i) (pi_watchFiles i)
                        (pi_reloadFiles i) (pi_reloadStatus i) in
    (s, eff1 ++ eff2 ++ eff3).

(** Checking without a server: the fingerprint of the policy. *)
Definition validateAccessPolicy (files : string -> TextFile) (config : AccessConfig) (requiredAsgs : sset) : exn string :=
  if negb (ac_enabled config) then Ret ""
  else p ← prepared files config requiredAsgs; Ret (pp_fingerprint p).
End AccessPolicy.

(** ** What is in force *)

Section Guarantees.
Context `{MacLib} (errSymMsg : Z -> string) (S_asLib_asNotActive : Z).
Implicit Types (s : AccessImpl) (files : string -> TextFile).

Lemma expandMacros_ends input macros : MacLaws -> expandMacros input macros <> OutOfFuel.
Proof.
  intros HL. unfold expandMacros. destruct (macCreateHandle macros); cbn [negb]; [|done].
  rewrite (expandLoop_spec 12 macros input _ 11).
  - destruct (macExpansion macros input); [by destruct (_ <? _)|done].
  - unfold kMaxExpandedPolicyBytes. lia.
  - unfold kMaxExpandedPolicyBytes. lia.
  - lia.
Qed.

Lemma preparePolicy_ends files config asgs : MacLaws -> preparePolicy files config asgs <> OutOfFuel.
Proof.
  intros HL. unfold preparePolicy, readTextFile. unfold mbind, run_bind.
  assert (Hr : forall gs l, requireAsgs gs l <> OutOfFuel).
  { intros gs l. induction l as [|a l IH]; cbn; [done|]. by destruct (negb _). }
  destruct (files (ac_file config)) as [| |len data intact]; try done.
  destruct (_ <? _); [done|]. destruct (negb intact); [done|]. destruct (has_nul data); [done|].
  pose proof (expandMacros_ends data (ac_macros config) HL) as He.
  destruct (expandMacros data (ac_macros config)) as [text| |]; try done.
  unfold inspectAcf. pose proof (tokenizeAcf_ends text). unfold ends in *. unfold mbind, run_bind.
  destruct (tokenizeAcf text) as [tokens| |]; try done. pose proof (parse_ends tokens). unfold ends in *.
  destruct (parse tokens) as [gs| |]; try done. specialize (Hr gs (sm_keys asgs)). by destruct (requireAsgs _ _).
Qed.

(** A policy that may be in force for a configuration and the ASGs it uses:
    the checked expansion of the file's text, with its fingerprint. *)
Record policy_for (config : AccessConfig) (asgs : sset) (raw policy print : string) : Prop := {
  pf_expanded : expandMacros raw (ac_macros config) = Done policy;
  pf_print : print = fingerprint policy;
  pf_groups : exists groups, inspectAcf policy = Done groups /\ forall asg, asg ∈ sm_keys asgs -> asg ∈ sm_keys groups;
}.

Lemma requireAsgs_done groups l : requireAsgs groups l = Done tt -> forall asg, asg ∈ l -> asg ∈ sm_keys groups.
Proof.
  induction l as [|a l IH]; cbn; [set_solver|]. destruct (sm_has a groups) eqn:E; cbn [negb]; [|done].
  intros Hr asg [->|Hin]%elem_of_cons; [by apply sm_has_spec|by apply IH].
Qed.

Lemma prepared_policy files config asgs p :
  prepared files config asgs = Ret p -> policy_for config asgs (pp_raw p) (pp_expanded p) (pp_fingerprint p).
Proof.
  unfold prepared, preparePolicy. unfold mbind, run_bind.
  destruct (readTextFile files (ac_file config)) as [raw| |]; try done.
  destruct (expandMacros raw (ac_macros config)) as [text| |] eqn:Ee; try done.
  destruct (inspectAcf text) as [groups| |] eqn:Ei; try done.
  destruct (requireAsgs groups (sm_keys asgs)) as [[]| |] eqn:Er; try done. intros [= <-]. split; [done..|].
  exists groups. split; [done|]. by apply requireAsgs_done.
Qed.

Definition in_force s : Prop :=
  ai_library s = ai_activePolicy s /\
  policy_for (ai_config s) (ai_configuredAsgs s) (ai_observedRaw s) (ai_activePolicy s) (ai_policyFingerprint s).

Record policy_inv s : Prop := {
  pi_force : in_force s;
  pi_enabled : ac_enabled (ai_config s) = true;
  pi_previous : ai_hasPreviousPolicy s = true ->
    ac_enabled (ai_previousConfig s) = true /\
    policy_for (ai_previousConfig s) (ai_previousConfiguredAsgs s) (ai_previousRaw s) (ai_previousPolicy s)
      (ai_previousPolicyFingerprint s);
}.

(** The fields that say what is in force and since which generation. *)
Definition force_fields s :=
  (ai_config s, ai_configuredAsgs s, ai_observedRaw s, ai_activePolicy s, ai_policyFingerprint s, ai_library s,
   ai_generation s).

Lemma reloadLocked_cases s trigger config asgs files status s' r eff :
  reloadLocked errSymMsg s trigger config asgs files status = (s', r, eff) ->
  (exists what, r = Throw what /\ eff = [] /\
     s' = s <| ai_lastStatus := trigger +:+ " reload failed" |> <| ai_lastError := what |>) \/
  (r = Ret tt /\ eff = [RecomputeAll] /\ exists p, prepared files config asgs = Ret p /\
     s' = s <| ai_library := pp_expanded p |> <| ai_activePolicy := pp_expanded p |>
            <| ai_policyFingerprint := pp_fingerprint p |>
            <| ai_observedRaw := pp_raw p |> <| ai_watchLastAttemptRaw := "" |> <| ai_watchMissingReported := false |>
            <| ai_lastStatus := trigger +:+ " reload active" |> <| ai_lastError := "" |>
            <| ai_watchStatus := watching config |> <| ai_generation ::= fun n => u64 (n + 1) |>).
Proof.
  unfold reloadLocked, asInitMem. destruct (prepared files config asgs) as [p|what] eqn:Ep.
  - destruct (status =? 0); cbn [negb]; intros [= <- <- <-]; [right|left].
    + split_and!; try done. by exists p.
    + by eexists.
  - intros [= <- <- <-]. left. by eexists.
Qed.

Lemma reload_inv s trigger files status s' r eff :
  reload errSymMsg s trigger files status = (s', r, eff) -> policy_inv s ->
  policy_inv s' /\ ai_config s' = ai_config s /\ ai_configuredAsgs s' = ai_configuredAsgs s /\
  (r <> Ret tt -> force_fields s' = force_fields s).
Proof.
  unfold reload. intros [(what & -> & -> & ->)|(-> & -> & p & Hp & ->)]%reloadLocked_cases [Hf He Hprev].
  - split; [by split|by split_and!].
  - split; [|by split_and!]. split; cbn; [|done|done]. split; [done|]. by apply prepared_policy in Hp.
Qed.

(** ** Any sequence of calls *)

Inductive access_op :=
| OReload (trigger : string) (files : string -> TextFile) (status : Z)
| OReconfigure (config : AccessConfig) (asgs : sset) (files : string -> TextFile) (status : Z)
| ORestore (status : Z)
| OConfigure (config : AccessConfig) (asgs : sset) (files : string -> TextFile) (status : Z)
| ORequest (trigger : string)
| OPump (input : PumpInput).

(** The state after a call, and whether the call reported an error. *)
Definition access_exec s (op : access_op) : AccessImpl * bool :=
  match op with
  | OReload trigger files status => let '(s, r, _) := reload errSymMsg s trigger files status in (s, negb (is_ret r))
  | OReconfigure config asgs files status =>
      let '(s, r, _) := reconfigure errSymMsg s config asgs files status in (s, negb (is_ret r))
  | ORestore status => let '(s, r, _) := restorePrevious errSymMsg s status in (s, negb (is_ret r))
  | OConfigure config asgs files status =>
      match prepareConfiguration s config asgs files with
      | Ret p => let '(s, r) := activateConfiguration errSymMsg s p status in (s, negb (is_ret r))
      | Throw _ => (s, true)
      end
  | ORequest trigger => (requestReload s trigger, false)
  | OPump input => ((pump errSymMsg S_asLib_asNotActive s input).1, false)
  end.

Lemma reconfigure_inv s config asgs files status s' r eff :
  reconfigure errSymMsg s config asgs files status = (s', r, eff) -> policy_inv s ->
  policy_inv s' /\ (r <> Ret tt -> force_fields s' = force_fields s).
Proof.
  unfold reconfigure. intros Hr [[Hl Hf] He Hprev].
  destruct (Bool.eqb_spec (ac_enabled config) (ac_enabled (ai_config s))) as [Een|_]; cbn [negb] in Hr.
  2: { injection Hr as <- <- <-. split; [by split|done]. }
  destruct (reloadLocked _ _ _ _ _ _ _) as [[s1 r1] eff1] eqn:E.
  apply reloadLocked_cases in E as [(what & -> & -> & ->)|(-> & -> & p & Hp & ->)]; injection Hr as <- <- <-.
  - split; [by split|done].
  - split; [|done]. apply prepared_policy in Hp. split; cbn; [by split|by rewrite Een|]. intros _. by split.
Qed.

Lemma restore_inv s status s' r eff :
  restorePrevious errSymMsg s status = (s', r, eff) -> policy_inv s ->
  policy_inv s' /\ (r <> Ret tt -> force_fields s' = force_fields s).
Proof.
  unfold restorePrevious, asInitMem. intros Hr Hi. destruct (ai_hasPreviousPolicy s) eqn:Eh; cbn [negb] in Hr.
  2: { by injection Hr as <- <- <-. }
  destruct (status =? 0); cbn [negb] in Hr; injection Hr as <- <- <-; [|by split].
  split; [|done]. destruct Hi as [_ _ Hp]. destruct (Hp Eh) as [He Hf]. by split; cbn.
Qed.

Lemma configure_inv s config asgs files status p s' r :
  prepareConfiguration s config asgs files = Ret p -> activateConfiguration errSymMsg s p status = (s', r) ->
  policy_inv s -> policy_inv s' /\ (r <> Ret tt -> force_fields s' = force_fields s).
Proof.
  intros Hp Ha [[Hl Hf] He Hprev]. unfold prepareConfiguration in Hp.
  apply exn_bind_ret in Hp as (policy & Hpol & Hp). apply exn_bind_ret in Hp as (? & Hen%throw_if_ret & [= <-]).
  apply prepared_policy in Hpol. apply negb_false_iff, Bool.eqb_prop in Hen.
  unfold activateConfiguration, asInitMem in Ha. cbn in Ha.
  destruct (String.eqb_spec (pp_expanded policy) (ai_activePolicy s)) as [Eq|_]; cbn [negb andb] in Ha.
  - injection Ha as <- <-. split; [|done]. split; cbn; [|by rewrite Hen|done]. split; [cbn; congruence|done].
  - destruct (status =? 0); cbn [negb] in Ha; injection Ha as <- <-; [|by split].
    split; [|done]. split; cbn; [|by rewrite Hen|done]. by split.
Qed.

Lemma policy_inv_ext s s' :
  force_fields s' = force_fields s -> ai_hasPreviousPolicy s' = ai_hasPreviousPolicy s ->
  ai_previousConfig s' = ai_previousConfig s -> ai_previousConfiguredAsgs s' = ai_previousConfiguredAsgs s ->
  ai_previousRaw s' = ai_previousRaw s -> ai_previousPolicy s' = ai_previousPolicy s ->
  ai_previousPolicyFingerprint s' = ai_previousPolicyFingerprint s -> policy_inv s -> policy_inv s'.
Proof.
  unfold force_fields. intros [= E1 E2 E3 E4 E5 E6 _] F1 F2 F3 F4 F5 F6 [[Hl Hf] He Hp].
  split; [split|..]; rewrite ?E1, ?E2, ?E3, ?E4, ?E5, ?E6, ?F1, ?F2, ?F3, ?F4, ?F5, ?F6; done.
Qed.

Lemma watchPoll_inv s config now files files' status :
  policy_inv s -> policy_inv (watchPoll errSymMsg s config now files files' status).1.
Proof.
  intros Hi. unfold watchPoll. destruct (readTextFile files (ac_file config)) as [raw|what|]; [| |done].
  - cbv zeta. destruct (String.eqb _ _); [destruct (_ || _); by apply (policy_inv_ext s)|].
    destruct (String.eqb _ _); [by apply (policy_inv_ext s)|]. destruct (negb _); [by apply (policy_inv_ext s)|].
    destruct (_ <=? _); [|by apply (policy_inv_ext s)].
    destruct (reload _ _ _ _ _) as [[s' r] eff] eqn:E. apply reload_inv in E as (Hi' & _); [|by apply (policy_inv_ext s)].
    by apply (policy_inv_ext s').
  - destruct (ai_watchMissingReported s); [done|by apply (policy_inv_ext s)].
Qed.

Lemma pump_inv s i : policy_inv s -> policy_inv (pump errSymMsg S_asLib_asNotActive s i).1.
Proof.
  intros Hi. unfold pump.
  set (x := if str_empty (ai_pendingTrigger s) then _ else _).
  assert (policy_inv x.1) as Hx.
  { subst x. destruct (str_empty _); [by apply (policy_inv_ext s)|].
    destruct (reload _ _ _ _ _) as [[s' r] eff] eqn:E. apply reload_inv in E as (Hi' & _); [done|by apply (policy_inv_ext s)]. }
  destruct x as [s1 eff1]. cbn [fst] in Hx.
  assert (policy_inv (maintain S_asLib_asNotActive s1 (pi_now i) (pi_hagStatus i) (pi_hagChanged i)).1) as Hm.
  { unfold maintain. destruct (_ <=? _); [by apply (policy_inv_ext s1)|done]. }
  destruct (maintain _ _ _ _ _) as [s2 eff2]. cbn [fst] in Hm. destruct (_ || _); [done|].
  pose proof (watchPoll_inv (s2 <| ai_lastWatchPoll := pi_now i |>) (ai_config s2) (pi_now i) (pi_watchFiles i)
    (pi_reloadFiles i) (pi_reloadStatus i) ltac:(by apply (policy_inv_ext s2))) as Hw.
  by destruct (watchPoll _ _ _ _ _ _ _).
Qed.

(** The configuration and the groups a controller is for. *)
Definition policy_of (config : AccessConfig) (asgs : sset) s : Prop :=
  policy_inv s /\ ai_config s = config /\ ai_configuredAsgs s = asgs.

Lemma configure_of s config asgs files status p s' :
  prepareConfiguration s config asgs files = Ret p -> activateConfiguration errSymMsg s p status = (s', Ret tt) ->
  policy_inv s -> policy_of config asgs s'.
Proof.
  intros Hp Ha Hi. split; [by eapply configure_inv|]. unfold prepareConfiguration in Hp.
  apply exn_bind_ret in Hp as (policy & _ & (? & _ & [= <-])%exn_bind_ret). revert Ha. unfold activateConfiguration.
  destruct (_ && _); [done|]. by intros [= <-].
Qed.

Lemma start_of config asgs files status s eff :
  start errSymMsg (AccessImpl_new config) asgs files status = (s, Ret tt, eff) -> policy_of config asgs s.
Proof.
  unfold start. intros Hs. destruct (ac_enabled (ai_config (AccessImpl_new config))) eqn:Ee; cbn [negb] in Hs; [|done].
  unfold reload in Hs. apply reloadLocked_cases in Hs as [(what & ? & _)|(_ & _ & p & Hp & ->)]; [done|].
  apply prepared_policy in Hp. split; [|done]. split; cbn; [by split|done|done].
Qed.

Lemma request_of config asgs s trigger : policy_of config asgs s -> policy_of config asgs (requestReload s trigger).
Proof. intros (Hi & Hc & Ha). split; [by apply (policy_inv_ext s)|done]. Qed.

Lemma pump_of config asgs s i : policy_of config asgs s -> policy_of config asgs (pump errSymMsg S_asLib_asNotActive s i).1.
Proof.
  intros Hs. split; [apply pump_inv, Hs|]. destruct Hs as (Hi & <- & <-). unfold pump.
  assert (Hr : forall s trigger files status, let s' := (reload errSymMsg s trigger files status).1.1 in
    ai_config s' = ai_config s /\ ai_configuredAsgs s' = ai_configuredAsgs s).
  { intros s0 trigger files status. cbv zeta. destruct (reload _ _ _ _ _) as [[s' r] eff] eqn:E. unfold reload in E.
    by apply reloadLocked_cases in E as [(what & -> & -> & ->)|(-> & -> & p & Hp & ->)]. }
  set (x := if str_empty (ai_pendingTrigger s) then _ else _).
  assert (Hx : ai_config x.1 = ai_config s /\ ai_configuredAsgs x.1 = ai_configuredAsgs s).
  { subst x. destruct (str_empty _); [done|]. pose proof (Hr (s <| ai_pendingTrigger := "" |>) (ai_pendingTrigger s) (pi_triggerFiles i) (pi_triggerStatus i)) as Hx.
    destruct (reload _ _ _ _ _) as [[s' r] eff]. exact Hx. }
  destruct x as [s1 eff1]. cbn [fst] in Hx. unfold maintain.
  set (y := if 1000 <=? _ then _ else _).
  assert (Hy : ai_config y.1 = ai_config s /\ ai_configuredAsgs y.1 = ai_configuredAsgs s) by (subst y; by destruct (_ <=? _)).
  destruct y as [s2 eff2]. cbn [fst] in Hy. destruct (_ || _); [done|]. unfold watchPoll.
  destruct (readTextFile _ _) as [raw|what|]; [| |done].
  - cbv zeta. destruct (String.eqb _ _); [by destruct (_ || _)|]. destruct (String.eqb _ _); [done|]. destruct (negb _); [done|].
    destruct (_ <=? _); [|done].
    match goal with |- context [reload errSymMsg ?s0 ?t ?f ?st] => pose proof (Hr s0 t f st) as Hw; destruct (reload errSymMsg s0 t f st) as [[s' r] eff] end.
    cbn in Hw |- *. destruct Hw as [-> ->]. done.
  - cbn. by destruct (ai_watchMissingReported _).
Qed.

Lemma access_exec_inv s op :
  policy_inv s -> policy_inv (access_exec s op).1 /\ ((access_exec s op).2 = true ->
    force_fields (access_exec s op).1 = force_fields s).
Proof.
  intros Hi. destruct op as [trigger files status|config asgs files status|status|config asgs files status|trigger|i]; cbn.
  - destruct (reload _ _ _ _ _) as [[s' r] eff] eqn:E. apply reload_inv in E as (? & _ & _ & Hr); [|done].
    split; [done|]. cbn. intros Hb. apply Hr. by intros ->.
  - destruct (reconfigure _ _ _ _ _ _) as [[s' r] eff] eqn:E. apply reconfigure_inv in E as (? & Hr); [|done].
    split; [done|]. cbn. intros Hb. apply Hr. by intros ->.
  - destruct (restorePrevious _ _ _) as [[s' r] eff] eqn:E. apply restore_inv in E as (? & Hr); [|done].
    split; [done|]. cbn. intros Hb. apply Hr. by intros ->.
  - destruct (prepareConfiguration s config asgs files) as [p|what] eqn:Ep; [|done].
    destruct (activateConfiguration _ _ _ _) as [s' r] eqn:E. eapply configure_inv in E as (? & Hr); [|done..].
    split; [done|]. cbn. intros Hb. apply Hr. by intros ->.
  - split; [by apply (policy_inv_ext s)|done].
  - split; [by apply pump_inv|done].
Qed.

(** C16. Once the controller has started, the access library enforces, after
    any sequence of reloads, reconfigurations, rollbacks and polls of the file,
    exactly the policy the controller reports: the checked expansion, with the
    macros of the configuration in force, of the file text it last took over,
    under its fingerprint, and every ASG the served names use is defined in it.
    A call that reports an error changes none of this, nor the generation. *)
Theorem policy_in_force config asgs files status s eff ops :
  start errSymMsg (AccessImpl_new config) asgs files status = (s, Ret tt, eff) ->
  let s' := foldl (fun s op => (access_exec s op).1) s ops in
  ai_library s' = ai_activePolicy s' /\
  policy_for (ai_config s') (ai_configuredAsgs s') (ai_observedRaw s') (ai_activePolicy s') (ai_policyFingerprint s') /\
  ac_enabled (ai_config s') = true /\
  (forall op, (access_exec s' op).2 = true -> force_fields (access_exec s' op).1 = force_fields s').
Proof.
  intros Hs. pose proof (proj1 (start_of _ _ _ _ _ _ Hs)) as Hi.
  clear Hs. cbv zeta. revert s Hi. induction ops as [|op ops IH]; intros s Hi; cbn [foldl].
  - destruct Hi as [[? ?] ? ?]. split_and!; try done. intros op. by apply access_exec_inv.
  - apply IH. by apply access_exec_inv.
Qed.

(** A rollback puts back what was in force before the reconfiguration. *)
Lemma restore_undoes_reconfigure s config asgs files status s1 eff s2 r eff' :
  0 <= ai_generation s < 2 ^ 64 -> policy_inv s ->
  reconfigure errSymMsg s config asgs files status = (s1, Ret tt, eff) ->
  restorePrevious errSymMsg s1 0 = (s2, r, eff') -> r = Ret tt /\ force_fields s2 = force_fields s.
Proof.
  intros Hg [[Hl _] _ _] H1 H2. unfold reconfigure in H1. destruct (negb _); [done|].
  destruct (reloadLocked _ _ _ _ _ _ _) as [[s' r'] e'] eqn:E.
  apply reloadLocked_cases in E as [(what & -> & -> & ->)|(-> & -> & p & Hp & ->)]; [done|].
  injection H1 as <- <-. unfold restorePrevious in H2. cbn in H2. injection H2 as <- <- <-.
  split; [done|]. unfold force_fields. cbn. rewrite Hl. repeat f_equal.
  unfold u64, Prelude.u64. rewrite Zminus_mod_idemp_l. rewrite Z.add_simpl_r. by apply Z.mod_small.
Qed.

(** ** The watcher *)

Record poll := { pl_now : Z; pl_files : string -> TextFile; pl_reload : string -> TextFile; pl_status : Z }.

Definition sees s (p : poll) : run string := readTextFile (pl_files p) (ac_file (ai_config s)).

(** The content this poll makes a reload attempt for. *)
Definition attempt s (p : poll) : option string :=
  match sees s p with
  | Done raw =>
      if negb (String.eqb raw (ai_observedRaw s)) && negb (String.eqb raw (ai_watchLastAttemptRaw s)) &&
         String.eqb raw (ai_watchCandidateRaw s) &&
         (aw_settleMs (ac_watch (ai_config s)) <=? pl_now p - ai_watchCandidateSince s)
      then Some raw else None
  | _ => None
  end.

Definition do_poll s (p : poll) : AccessImpl :=
  (watchPoll errSymMsg s (ai_config s) (pl_now p) (pl_files p) (pl_reload p) (pl_status p)).1.
Definition do_polls s (l : list poll) : AccessImpl := foldl do_poll s l.

(** What one poll does, by what it reads. *)
Lemma do_poll_cases s p :
  ai_config (do_poll s p) = ai_config s /\
  match sees s p with
  | Done raw =>
      if String.eqb raw (ai_observedRaw s) then
        ai_watchCandidateRaw (do_poll s p) = "" /\ ai_watchLastAttemptRaw (do_poll s p) = "" /\
        attempt s p = None /\ force_fields (do_poll s p) = force_fields s
      else if String.eqb raw (ai_watchLastAttemptRaw s) then
        ai_watchCandidateRaw (do_poll s p) = "" /\ ai_watchLastAttemptRaw (do_poll s p) = raw /\
        attempt s p = None /\ force_fields (do_poll s p) = force_fields s
      else if negb (String.eqb raw (ai_watchCandidateRaw s)) then
        ai_watchCandidateRaw (do_poll s p) = raw /\ ai_watchCandidateSince (do_poll s p) = pl_now p /\
        attempt s p = None /\ force_fields (do_poll s p) = force_fields s
      else if aw_settleMs (ac_watch (ai_config s)) <=? pl_now p - ai_watchCandidateSince s then
        ai_watchCandidateRaw (do_poll s p) = "" /\ attempt s p = Some raw /\
        (force_fields (do_poll s p) = force_fields s /\ ai_watchLastAttemptRaw (do_poll s p) = raw \/
         exists q, prepared (pl_reload p) (ai_config s) (ai_configuredAsgs s) = Ret q /\
           ai_activePolicy (do_poll s p) = pp_expanded q /\ ai_generation (do_poll s p) = u64 (ai_generation s + 1))
      else do_poll s p = s <| ai_watchMissingReported := false |> /\ attempt s p = None
  | _ => attempt s p = None /\ force_fields (do_poll s p) = force_fields s /\
         ai_watchCandidateRaw (do_poll s p) = ai_watchCandidateRaw s /\
         ai_watchCandidateSince (do_poll s p) = ai_watchCandidateSince s /\
         ai_watchLastAttemptRaw (do_poll s p) = ai_watchLastAttemptRaw s
  end.
Proof.
  unfold attempt, do_poll, watchPoll, sees. destruct (readTextFile (pl_files p) (ac_file (ai_config s))) as [raw|what|]; cbv zeta.
  - set (t := s <| ai_watchMissingReported := false |>). change (ai_observedRaw t) with (ai_observedRaw s).
    change (ai_watchLastAttemptRaw t) with (ai_watchLastAttemptRaw s).
    change (ai_watchCandidateRaw t) with (ai_watchCandidateRaw s).
    change (ai_watchCandidateSince t) with (ai_watchCandidateSince s).
    destruct (String.eqb_spec raw (ai_observedRaw s)) as [E1|_]; cbn [negb andb].
    { destruct (_ || _); split_and!; reflexivity. }
    destruct (String.eqb_spec raw (ai_watchLastAttemptRaw s)) as [E2|_]; cbn [negb andb]; [split_and!; first [reflexivity|exact (eq_sym E2)]|].
    destruct (String.eqb_spec raw (ai_watchCandidateRaw s)) as [E3|_]; cbn [negb andb]; [|split_and!; reflexivity].
    destruct (_ <=? _); [|split_and!; reflexivity].
    destruct (reload _ _ _ _ _) as [[s' r] eff] eqn:E. unfold reload in E.
    apply reloadLocked_cases in E as [(what & -> & -> & ->)|(-> & -> & q & Hq & ->)]; (split_and!; [reflexivity..|]).
    + left. split; reflexivity.
    + right. exists q. split_and!; [exact Hq|reflexivity..].
  - destruct (ai_watchMissingReported s); split_and!; reflexivity.
  - split_and!; reflexivity.
Qed.

Lemma u64_succ_ne n : u64 (n + 1) <> n.
Proof.
  unfold u64. intros E. pose proof (Z.mod_pos_bound (n + 1) (2 ^ 64) ltac:(done)) as Hb. rewrite E in Hb.
  assert (n < 2 ^ 64 - 1 \/ n = 2 ^ 64 - 1) as [Hn | ->] by lia; [|done]. rewrite Z.mod_small in E by lia. lia.
Qed.

Lemma do_polls_config s l : ai_config (do_polls s l) = ai_config s.
Proof.
  revert s; induction l as [|p l IH]; intros s; [done|]. cbn. change (foldl do_poll ?x l) with (do_polls x l).
  rewrite IH. apply do_poll_cases.
Qed.

(** A poll that reads the text, or cannot read the file. *)
Definition unchanged s (raw : string) (p : poll) : Prop := sees s p = Done raw \/ forall t, sees s p <> Done t.

Lemma candidate_history s l :
  ai_watchCandidateRaw s = "" -> ai_watchCandidateRaw (do_polls s l) <> "" ->
  exists l1 first l2, l = l1 ++ first :: l2 /\ sees s first = Done (ai_watchCandidateRaw (do_polls s l)) /\
    pl_now first = ai_watchCandidateSince (do_polls s l) /\
    Forall (unchanged s (ai_watchCandidateRaw (do_polls s l))) l2.
Proof.
  intros H0. induction l as [|p l IH] using rev_ind; [done|]. unfold do_polls. rewrite foldl_app. cbn [foldl].
  change (foldl do_poll s l) with (do_polls s l). set (t := do_polls s l) in *.
  pose proof (do_poll_cases t p) as [_ Hc]. assert (Hse : sees t p = sees s p) by (unfold sees, t; by rewrite do_polls_config).
  intros Hne.
  assert (Hkeep : ai_watchCandidateRaw (do_poll t p) = ai_watchCandidateRaw t ->
    ai_watchCandidateSince (do_poll t p) = ai_watchCandidateSince t -> unchanged s (ai_watchCandidateRaw t) p ->
    exists l1 first l2, l ++ [p] = l1 ++ first :: l2 /\ sees s first = Done (ai_watchCandidateRaw (do_poll t p)) /\
    pl_now first = ai_watchCandidateSince (do_poll t p) /\
    Forall (unchanged s (ai_watchCandidateRaw (do_poll t p))) l2).
  { intros E1 E2 Hu. rewrite E1, E2. rewrite E1 in Hne. destruct (IH Hne) as (l1 & f & l2 & -> & Hf & Hn & Hl).
    exists l1, f, (l2 ++ [p]). rewrite <-app_assoc. split_and!; try done. apply Forall_app. split; [done|by constructor]. }
  rewrite Hse in Hc. destruct (sees s p) as [raw|what|] eqn:Es.
  - destruct (String.eqb raw (ai_observedRaw t)); [by destruct Hne; apply Hc|].
    destruct (String.eqb raw (ai_watchLastAttemptRaw t)); [by destruct Hne; apply Hc|].
    destruct (String.eqb_spec raw (ai_watchCandidateRaw t)) as [E|E]; cbn [negb] in Hc.
    + destruct (_ <=? _); [by destruct Hne; apply Hc|]. destruct Hc as [Hd _].
      apply Hkeep; [by rewrite Hd|by rewrite Hd|]. left. by rewrite Es, E.
    + destruct Hc as (-> & -> & _). exists l, p, []. by split_and!.
  - destruct Hc as (_ & _ & Hc1 & Hc2 & _). apply Hkeep; [done|done|]. right. intros t'. by rewrite Es.
  - destruct Hc as (_ & _ & Hc1 & Hc2 & _). apply Hkeep; [done|done|]. right. intros t'. by rewrite Es.
Qed.

Lemma no_attempt_again s raw l :
  ai_watchLastAttemptRaw s = raw -> raw <> ai_observedRaw s -> Forall (unchanged s raw) l ->
  force_fields (do_polls s l) = force_fields s /\ forall p, unchanged s raw p -> attempt (do_polls s l) p = None.
Proof.
  intros Hl Ho Hall. enough (force_fields (do_polls s l) = force_fields s /\ ai_watchLastAttemptRaw (do_polls s l) = raw) as [Hf Ha].
  { split; [done|]. intros p Hu. clear Hf.
    assert (Hse : sees (do_polls s l) p = sees s p) by (unfold sees; by rewrite do_polls_config).
    unfold attempt. rewrite Hse. destruct (sees s p) as [r| |] eqn:Es; try done.
    destruct Hu as [Hu|Hu]; [|by destruct (Hu r)]. rewrite Es in Hu. injection Hu as ->. rewrite Ha, String.eqb_refl. cbn [negb].
    by rewrite andb_false_r. }
  induction l as [|p l IH] using rev_ind; [done|]. apply Forall_app in Hall as [Hall Hp]. inversion Hp as [|? ? Hu _]; subst.
  destruct (IH Hall) as [Hf Ha]. unfold do_polls. rewrite foldl_app. cbn [foldl].
  change (foldl do_poll s l) with (do_polls s l). pose proof (do_poll_cases (do_polls s l) p) as [_ Hc].
  assert (Hse : sees (do_polls s l) p = sees s p) by (unfold sees; by rewrite do_polls_config). rewrite Hse in Hc.
  assert (Hob : ai_observedRaw (do_polls s l) = ai_observedRaw s) by (unfold force_fields in Hf; by simplify_eq).
  destruct (sees s p) as [r| |] eqn:Es.
  - destruct Hu as [Hu|Hu]; [|by destruct (Hu r)]. rewrite Es in Hu. injection Hu as ->. rewrite Hob, Ha in Hc.
    rewrite (proj2 (String.eqb_neq _ _) Ho), String.eqb_refl in Hc. destruct Hc as (_ & -> & _ & ->). done.
  - destruct Hc as (_ & Hf' & _ & _ & ->). by rewrite Hf'.
  - destruct Hc as (_ & Hf' & _ & _ & ->). by rewrite Hf'.
Qed.

(** The watcher of the policy file loads only content that has settled: a
    poll changes what is in force only by a reload attempt; it makes an attempt
    for a nonempty text only when an earlier poll, at least the settling time
    before, read the same text and no poll since then read another; and a text
    whose reload failed is not attempted again while the file keeps it, and
    changes nothing that is in force. *)
Theorem watch_settled_once s l :
  ai_watchCandidateRaw s = "" ->
  (forall p, attempt (do_polls s l) p = None -> force_fields (do_polls s (l ++ [p])) = force_fields (do_polls s l)) /\
  (forall p raw, raw <> "" -> attempt (do_polls s l) p = Some raw ->
    (exists l1 first l2, l = l1 ++ first :: l2 /\ sees s first = Done raw /\
       aw_settleMs (ac_watch (ai_config s)) <= pl_now p - pl_now first /\ Forall (unchanged s raw) l2) /\
    (force_fields (do_polls s (l ++ [p])) = force_fields (do_polls s l) ->
     forall later q, Forall (unchanged s raw) later -> unchanged s raw q ->
       force_fields (do_polls s (l ++ p :: later)) = force_fields (do_polls s l) /\
       attempt (do_polls s (l ++ p :: later)) q = None)).
Proof.
  intros H0. split.
  { intros p Ha. unfold do_polls. rewrite foldl_app. cbn [foldl]. change (foldl do_poll s l) with (do_polls s l).
    pose proof (do_poll_cases (do_polls s l) p) as [_ Hc]. destruct (sees _ p) as [r| |]; [|apply Hc..].
    destruct (String.eqb r _); [apply Hc|]. destruct (String.eqb r _); [apply Hc|]. destruct (negb _); [apply Hc|].
    destruct (_ <=? _); [destruct Hc as (_ & Hc & _); congruence|]. by destruct Hc as [-> _]. }
  intros p raw Hne Ha.
  assert (Hsn : do_polls s (l ++ [p]) = do_poll (do_polls s l) p) by (unfold do_polls; by rewrite foldl_app).
  rewrite Hsn.
  set (t := do_polls s l) in *. pose proof (do_polls_config s l) as Hcf. fold t in Hcf.
  pose proof (do_poll_cases t p) as [Hcp Hc]. unfold attempt in Ha.
  destruct (sees t p) as [r| |] eqn:Es; try done.
  destruct (negb (String.eqb r (ai_observedRaw t))) eqn:E1; [|done]. destruct (negb (String.eqb r (ai_watchLastAttemptRaw t))) eqn:E2; [|done].
  destruct (String.eqb_spec r (ai_watchCandidateRaw t)) as [E3|]; [|done]. cbn [andb] in Ha.
  destruct (_ <=? _) eqn:E4; [|done]. injection Ha as ->. apply negb_true_iff in E1, E2. rewrite E1, E2 in Hc. cbn [negb] in Hc. split.
  - destruct (candidate_history s l H0) as (l1 & f & l2 & -> & Hf & Hn & Hu); [fold t; congruence|]. fold t in Hf, Hn, Hu.
    rewrite <-E3 in Hf, Hu. exists l1, f, l2. split_and!; try done. rewrite Hcf in E4. rewrite Hn. by apply Z.leb_le.
  - intros Hff later q Hl Hq. unfold do_polls. rewrite foldl_app. cbn [foldl]. change (foldl do_poll s l) with t.
    change (foldl do_poll (do_poll t p) later) with (do_polls (do_poll t p) later).
    apply String.eqb_neq in E1.
    assert (ai_watchLastAttemptRaw (do_poll t p) = raw) as Hla.
    { destruct Hc as (_ & _ & [[_ ?]|(q' & _ & _ & Hg)]); [done|]. exfalso.
      unfold force_fields in Hff. simplify_eq. by apply (u64_succ_ne (ai_generation t)); congruence. }
    assert (forall u, unchanged s raw u -> unchanged (do_poll t p) raw u) as Hun.
    { intros u. unfold unchanged, sees. by rewrite Hcp, Hcf. }
    destruct (no_attempt_again (do_poll t p) raw later) as [Hf1 Hf2].
    + done.
    + unfold force_fields in Hff. simplify_eq. congruence.
    + eapply Forall_impl; [exact Hl|]. intros u. apply Hun.
    + split; [by rewrite Hf1|]. by apply Hf2, Hun.
Qed.
End Guarantees.

(** ** A file that is edited *)

Module PolicyDemo.
Import PlainMacros.

Definition errText (status : Z) : string := "bad ACF".
Definition config : AccessConfig :=
  {| ac_enabled := true; ac_file := "/acf"; ac_macros := [];
     ac_watch := {| aw_enabled := true; aw_intervalMs := 1000; aw_settleMs := 250 |};
     ac_defaults := AccessDefaultsConfig_default |}.
Definition asgs : sset := [("DEFAULT", tt)].
Definition file (text : string) (path : string) : TextFile := Contents (strlen text) text true.
Definition good : string := "ASG(DEFAULT) { RULE(1,READ) }".
Definition other : string := "ASG(DEFAULT) { RULE(1,WRITE) }".
Definition broken : string := "ASG(DEFAULT) { RULE(1,".

Definition started : AccessImpl := (start errText (AccessImpl_new config) asgs (file good) 0).1.1.

Lemma started_ok : start errText (AccessImpl_new config) asgs (file good) 0 = (started, Ret tt, [RecomputeAll]).
Proof. vm_compute. reflexivity. Qed.

Definition edits : list access_op :=
  [OReload "admin-pv" (file broken) 0; OReload "admin-pv" (file other) 0].

Lemma policy_in_force_witness :
  ai_library (foldl (fun s op => (access_exec errText 1 s op).1) started edits) = other.
Proof.
  destruct (policy_in_force errText 1 config asgs (file good) 0 started [RecomputeAll] edits started_ok) as (-> & _).
  vm_compute. reflexivity.
Defined.

Definition seen (now : Z) (text : string) : poll :=
  {| pl_now := now; pl_files := file text; pl_reload := file text; pl_status := 0 |}.

Lemma watch_settled_once_witness :
  attempt (do_polls errText started [seen 1000 broken]) (seen 2000 broken) = Some broken /\
  attempt (do_polls errText started [seen 1000 broken; seen 2000 broken]) (seen 3000 broken) = None.
Proof.
  assert (attempt (do_polls errText started [seen 1000 broken]) (seen 2000 broken) = Some broken) as Ha
    by (vm_compute; reflexivity).
  split; [exact Ha|].
  destruct (watch_settled_once errText started [seen 1000 broken]) as [_ H1]; [vm_compute; reflexivity|].
  destruct (H1 (seen 2000 broken) broken) as [_ H2]; [discriminate|exact Ha|].
  refine (proj2 (H2 _ [] (seen 3000 broken) _ _)); [vm_compute; reflexivity|constructor|].
  left. vm_compute. reflexivity.
Defined.

(** An empty file is taken for the cleared candidate: after a failed attempt
    it is attempted at the first poll that sees it, without settling. *)
Example empty_not_settled :
  attempt (do_polls errText started [seen 1000 broken; seen 2000 broken]) (seen 2001 "") = Some "".
Proof. vm_compute. reflexivity. Qed.
End PolicyDemo.
