(* ===== verification/Generation.v ===== *)
(** * The parts of a generation

    src/app.cpp: what a configuration is turned into before anything is
    published -- Redis backends, diagnostics, RPC endpoints, the security
    groups the policy must have and the discovery catalog.

    Adapters, PVs and owners are objects behind [shared_ptr]s; they have
    numbers, and a function that creates some takes and returns the next free
    number.  What Redis, a gRPC server and the environment answer is an
    argument ([Outside]).

    The theorems show that the installed diagnostics are the reserved ones,
    that a backend is reused exactly when its settings did not change, that
    the RPC names of a generation are disjoint from each other and from the
    configured ones, and which services are reflected again. *)

From S2P Require Import Prelude.
From S2P Require Import StrMap.
From S2P Require Import Floats.
From S2P Require Import Config.
From S2P Require Import Endpoints.
From S2P Require Import ConfigDiff.
From S2P Require Import PVRegistry.
From S2P Require Discovery.
From S2P Require Acf.
From Stdlib Require Import Ascii.

Import Discovery (DiscoveryRecord, Build_DiscoveryRecord, DiscoveryCatalog).

Local Open Scope string_scope.
Local Open Scope list_scope.
Local Open Scope Z_scope.

(** ** What happens outside *)

(** What reflection answers: the methods of the service, as service and
    method name, and whether the defaults suit them; or why it failed. *)
Inductive discovered :=
| Methods (methods : list (string * string)) (defaults : exn unit)
| Unavailable (what : string)
| Invalid (what : string).

Record Outside := {
  ox_adapter : string -> RedisConfig -> exn bool;
  ox_connected : Z -> bool;
  ox_now : Z;
  ox_reconfigure : Z -> PVConfig -> exn unit;
  ox_construct : PVConfig -> exn unit;
  ox_grpc : bool;
  ox_discover : RpcServiceConfig -> discovered;
  ox_hostname : option string;
  ox_getenv : string -> option string;
  ox_epicsVersion : string;
  ox_version : string;
  ox_port : Z;
  ox_files : string -> Acf.TextFile;
  ox_asInitMem : Z;
  ox_asAddMember : string -> bool;
  ox_refresh : option (nat * string);
}.

(** ** Diagnostics *)

(** The names [AdminNamespace::bindings] adds, in its order; [true] for the two
    commands. *)
Definition diagnostics (server : ServerConfig) : list (string * bool) :=
  let name suffix := adminPVName server suffix in
  [(name "config:lastDiff", false); (name "config:reloadStatus", false); (name "stats:operations", false);
   (name "rpc:status", false); (name "alarms:status", false); (name "discovery:status", false);
   (name "config:reload", true); (versionPVName server, false); (revisionPVName server, false);
   (name "version", false); (name "revision", false); (name "config:generation", false);
   (name "config:lastStatus", false); (name "config:lastError", false); (name "stats:pvCount", false);
   (name "stats:ndarrayInvalidFrames", false); (name "stats:ndarraySkippedFrames", false);
   (name "stats:ndarrayDiscontinuities", false); (name "backend:health", false); (name "source:status", false);
   (name "ready", false); (name "access:reload", true); (name "access:enabled", false);
   (name "access:generation", false); (name "access:lastStatus", false); (name "access:lastError", false);
   (name "access:policyFingerprint", false); (name "access:watchStatus", false);
   (name "access:activeClients", false); (name "access:deniedReads", false); (name "access:deniedWrites", false);
   (name "access:rightsChanges", false); (name "access:operations", false)].

(** The lambda [add]; every diagnostic has the namespace object as owner. *)
Definition adminAdd (admin : Z) (defaults : AccessDefaultsConfig) (s : EndpointRegistry * PVBindings)
    (d : string * bool) : exn (EndpointRegistry * PVBindings) :=
  endpoints ← reserve s.1 d.1 Diagnostic "runtime" "endpoints";
  Ret (endpoints, (sm_emplace d.1 (Build_PVBinding (Some admin) (Some admin)
                     (if d.2 then ad_adminWrite defaults else ad_adminRead defaults)) s.2).1).

Definition adminBindings (server : ServerConfig) (admin : Z) (defaults : AccessDefaultsConfig) : exn PVBindings :=
  s ← exn_fold (adminAdd admin defaults) ([], []) (diagnostics server);
  let reserved := adminPVNames server in
  throw_if (negb (length s.2 =? length reserved)%nat) "installed diagnostics do not match the reserved namespace" ;;
  match find (fun name => negb (sm_has name s.2)) reserved with
  | Some name => Throw ("reserved diagnostic is not installed: " +:+ name)
  | None => Ret s.2
  end.

(** ** Redis backends *)

Record BackendPreparation := { bp_name : string; bp_action : string; bp_preconnect : string; bp_cutover : string }.
#[export] Instance BackendPreparation_eta : Eta BackendPreparation := fun r =>
  Build_BackendPreparation (bp_name r) (bp_action r) (bp_preconnect r) (bp_cutover r).

Definition preconnect (connected : bool) : string := if connected then "connected" else "disconnected".

Definition retainedBackend (previous : RedisBackendConfigs) (existing : smap Z) (name : string) (config : RedisConfig)
    : option Z :=
  match sm_find name previous, sm_find name existing with
  | Some old, Some runtime => if sameRedisConfig config old then Some runtime else None
  | _, _ => None
  end.

(** The loop over the configured backends: the outcomes reported, which an
    exception keeps, and the registry with the next free number. *)
Fixpoint buildBackends (o : Outside) (previous : RedisBackendConfigs) (existing : smap Z)
    (entries : RedisBackendConfigs) (backends : smap Z) (next : Z) : list BackendPreparation * exn (smap Z * Z) :=
  match entries with
  | [] => ([], Ret (backends, next))
  | (name, config) :: rest =>
      match retainedBackend previous existing name config with
      | Some backend =>
          let '(outcomes, r) := buildBackends o previous existing rest (sm_emplace name backend backends).1 next in
          (Build_BackendPreparation name "retained" (preconnect (ox_connected o backend)) "pending" :: outcomes, r)
      | None =>
          match ox_adapter o name config with
          | Ret connected =>
              let '(outcomes, r) :=
                buildBackends o previous existing rest (sm_emplace name next backends).1 (next + 1) in
              (Build_BackendPreparation name "created" (preconnect connected) "pending" :: outcomes, r)
          | Throw what => ([Build_BackendPreparation name "created" "failed" "pending"], Throw what)
          end
      end
  end.

Definition removedBackends (config : RedisBackendConfigs) (existing : smap Z) : list BackendPreparation :=
  omap (fun e : string * Z => if sm_has e.1 config then None
                              else Some (Build_BackendPreparation e.1 "removed" "not-applicable" "pending")) existing.

Definition buildRedisBackends (o : Outside) (config previous : AppConfig) (existing : smap Z) (next : Z)
    : list BackendPreparation * exn (smap Z * Z) :=
  let '(outcomes, r) :=
    buildBackends o (app_redisBackends previous) existing (app_redisBackends config) [] next in
  match r with
  | Ret built => (outcomes ++ removedBackends (app_redisBackends config) existing, Ret built)
  | Throw what => (outcomes, Throw what)
  end.

Definition sameBackend (before after : smap Z) (name : string) : bool :=
  match sm_find name before, sm_find name after with
  | Some a, Some b => a =? b
  | _, _ => false
  end.

Definition sameBackendBindings (pv : PVConfig) (before after : smap Z) : bool :=
  sameBackend before after (rt_backend (pv_read pv)) &&
  match pv_write pv with Some w => sameBackend before after (rt_backend w) | None => true end &&
  match pv_confirm pv with Some c => sameBackend before after (cf_backend c) | None => true end.

Definition backendHealthSummary (backends : smap Z) (connected : Z -> bool) : string :=
  match backends with
  | [] => "0/0 connected"
  | _ =>
      let up := filter (fun e : string * Z => connected e.2 = true) backends in
      let disconnected := map fst (filter (fun e : string * Z => connected e.2 = false) backends) in
      to_dec (Z.of_nat (length up)) +:+ "/" +:+ to_dec (Z.of_nat (length backends)) +:+ " connected" +:+
      match disconnected with [] => "" | _ => " (" +:+ join "," disconnected +:+ " disconnected)" end
  end.

(** ** Security groups *)

Definition requiredAccessAsgs (config : AppConfig) : sset :=
  if negb (ac_enabled (app_access config)) then []
  else
    let defaults := ac_defaults (app_access config) in
    let insert groups group := (ss_insert group groups).1 in
    let groups := insert (insert [] (asg (ad_adminRead defaults))) (asg (ad_adminWrite defaults)) in
    let groups := fold_left (fun g pv => insert g (asg (default (ad_pv defaults) (pv_access pv)))) (app_pvs config) groups in
    fold_left (fun g service => insert g (asg (default (ad_rpc defaults) (rs_access service)))) (app_rpcServices config)
      groups.

(** ** RPC services *)

(** Times are in milliseconds of the steady clock. *)
Record RpcServiceState := {
  rv_config : RpcServiceConfig;
  rv_pvs : smap Z;
  rv_owners : smap string;
  rv_state : string;
  rv_error : string;
  rv_attempts : Z;
  rv_nextRetry : Z;
}.
#[export] Instance RpcServiceState_eta : Eta RpcServiceState := fun r =>
  Build_RpcServiceState (rv_config r) (rv_pvs r) (rv_owners r) (rv_state r) (rv_error r) (rv_attempts r) (rv_nextRetry r).

Definition RpcServiceState_new (config : RpcServiceConfig) : RpcServiceState :=
  {| rv_config := config; rv_pvs := []; rv_owners := []; rv_state := "ready"; rv_error := ""; rv_attempts := 1;
     rv_nextRetry := 0 |}.

Definition isupper (c : ascii) : bool := (65 <=? ascii_code c) && (ascii_code c <=? 90).

(** [methodToPvLeaf]; [previous] is the character before. *)
Fixpoint leafOf (previous : option ascii) (method : string) : string :=
  match method with
  | EmptyString => EmptyString
  | String c rest =>
      let c' := String (Acf.toupper c) (leafOf (Some c) rest) in
      match previous with
      | Some p => if isupper c && negb (isupper p) then String "_" c' else c'
      | None => c'
      end
  end.
Definition methodToPvLeaf (method : string) : string := leafOf None method.

Definition rpcName (server : ServerConfig) (svc : RpcServiceConfig) (method : string) : string :=
  let leaf := methodToPvLeaf method +:+ rs_suffix svc in
  if str_empty (sv_nameSpace server) then leaf else sv_nameSpace server +:+ ":" +:+ leaf.

(** The exception [RpcDiscoveryUnavailable] is told from the others. *)
Inductive reflected :=
| Reflected (service : RpcServiceState) (next : Z)
| DiscoveryUnavailable (what : string)
| ReflectionFailed (what : string).

Fixpoint reflectMethods (server : ServerConfig) (svc : RpcServiceConfig) (methods : list (string * string))
    (result : RpcServiceState) (next : Z) : reflected :=
  match methods with
  | [] => Reflected result next
  | (service, method) :: rest =>
      let name := rpcName server svc method in
      let '(pvs, inserted) := sm_emplace name next (rv_pvs result) in
      if negb inserted then
        ReflectionFailed ("duplicate served PV name '" +:+ name +:+ "' within reflected service " +:+ rs_service svc)
      else
        reflectMethods server svc rest
          (result <| rv_pvs := pvs |> <| rv_owners ::= fun owners => (sm_emplace name (service +:+ "/" +:+ method) owners).1 |>)
          (next + 1)
  end.

Definition reflectRpcService (o : Outside) (server : ServerConfig) (svc : RpcServiceConfig) (next : Z) : reflected :=
  match ox_discover o svc with
  | Unavailable what => DiscoveryUnavailable what
  | Invalid what => ReflectionFailed what
  | Methods [] _ => ReflectionFailed ("reflected service has no methods: " +:+ rs_service svc)
  | Methods _ (Throw what) => ReflectionFailed what
  | Methods methods (Ret _) => reflectMethods server svc methods (RpcServiceState_new svc) next
  end.

(** May the prepared service go on serving? *)
Definition reusableService (svc : RpcServiceConfig) (entry : RpcServiceState) : bool :=
  let c := rv_config entry in
  negb (bool_decide (rv_pvs entry = [])) && String.eqb (rs_endpoint c) (rs_endpoint svc) &&
  String.eqb (rs_service c) (rs_service svc) && String.eqb (rs_suffix c) (rs_suffix svc) &&
  bool_decide (rs_defaults c = rs_defaults svc) && bool_decide (rs_methodDefaults c = rs_methodDefaults svc) &&
  Bool.eqb (rs_optional c) (rs_optional svc) && (rs_discoveryTimeoutMs c =? rs_discoveryTimeoutMs svc) &&
  (rs_timeoutMs c =? rs_timeoutMs svc) && (rs_retryIntervalMs c =? rs_retryIntervalMs svc).

Definition unavailableService (o : Outside) (svc : RpcServiceConfig) (what : string) : RpcServiceState :=
  (RpcServiceState_new svc) <| rv_state := "unavailable" |> <| rv_error := String.substring 0 1024 what |>
    <| rv_nextRetry := ox_now o + rs_retryIntervalMs svc |>.

Definition stageService (o : Outside) (server : ServerConfig) (previous : list RpcServiceState)
    (s : list RpcServiceState * Z) (svc : RpcServiceConfig) : exn (list RpcServiceState * Z) :=
  let '(staged, next) := s in
  match find (reusableService svc) previous with
  | Some prior => Ret (staged ++ [prior <| rv_config := svc |>], next)
  | None =>
      match reflectRpcService o server svc next with
      | Reflected service next => Ret (staged ++ [service], next)
      | DiscoveryUnavailable what =>
          if negb (rs_optional svc) then
            Throw ("required rpc_service " +:+ rs_service svc +:+ " unavailable: " +:+ what)
          else Ret (staged ++ [unavailableService o svc what], next)
      | ReflectionFailed what => Throw what
      end
  end.

(** The endpoints, PVs and assignments assembled so far.  [RpcMap] has no
    order of its own; its names are kept sorted here. *)
Record RpcAssembly := { ra_endpoints : EndpointRegistry; ra_pvs : smap Z; ra_assignments : smap AccessAssignment }.

Definition assembleMethod (config : AppConfig) (service : RpcServiceState) (s : RpcAssembly) (item : string * Z)
    : exn RpcAssembly :=
  match sm_find item.1 (rv_owners service) with
  | None => Throw "map::at"
  | Some owner =>
      endpoints ← reserve (ra_endpoints s) item.1 RPC owner "root.rpc_services";
      Ret {| ra_endpoints := endpoints; ra_pvs := (sm_emplace item.1 item.2 (ra_pvs s)).1;
             ra_assignments := (sm_emplace item.1 (default (ad_rpc (ac_defaults (app_access config)))
                                  (rs_access (rv_config service))) (ra_assignments s)).1 |}
  end.

Definition assembleRpcPVs (config : AppConfig) (services : list RpcServiceState) : exn (smap Z * smap AccessAssignment) :=
  endpoints ← configuredEndpoints config;
  s ← exn_fold (fun s service => exn_fold (assembleMethod config service) s (rv_pvs service))
        {| ra_endpoints := endpoints; ra_pvs := []; ra_assignments := [] |} services;
  Ret (ra_pvs s, ra_assignments s).

Definition buildRpcPVs (o : Outside) (config : AppConfig) (previous : list RpcServiceState) (next : Z)
    : exn (smap Z * smap AccessAssignment * list RpcServiceState * Z) :=
  '(staged, next) ←
    (if ox_grpc o then exn_fold (stageService o (app_server config) previous) ([], next) (app_rpcServices config)
     else throw_if (negb (bool_decide (app_rpcServices config = [])))
            "rpc_services requires a build with REDIS_PVXS_IOC_ENABLE_GRPC=ON" ;; Ret ([], next));
  '(pvs, assignments) ← assembleRpcPVs config staged;
  Ret (pvs, assignments, staged, next).

(** ** The discovery catalog *)

Definition sm_init {V} (l : list (string * V)) : smap V := fold_left (fun m e => (sm_emplace e.1 e.2 m).1) l [].

Definition catalogIdentity (o : Outside) (config : AppConfig) (port generation : Z) : smap string :=
  let identity := sm_init
    [("IOCNAME", sv_instance (app_server config)); ("PVAS_SERVER_PORT", to_dec port); ("PVXS_PROTOCOL", "pva");
     ("EPICS_VERSION", ox_epicsVersion o); ("REDIS_PVXS_IOC_VERSION", ox_version o);
     ("CONFIG_GENERATION", to_dec generation)] in
  let identity := match ox_hostname o with Some host => sm_set "HOSTNAME" host identity | None => identity end in
  fold_left (fun identity key =>
      match ox_getenv o key with
      | Some value => if str_empty value then identity else sm_set key value identity
      | None => identity
      end)
    ["HOSTNAME"; "ENGINEER"; "LOCATION"; "CONTACT"; "BUILDING"; "SECTOR"] identity.

Definition pvRecord (config : AppConfig) (pv : PVConfig) : DiscoveryRecord :=
  let nd := bool_decide (pv_kind pv = Config.NTNDArray) in
  {| Discovery.dr_name := fullPVName (app_server config) pv;
     Discovery.dr_type := if nd then "epics:nt/NTNDArray:1.0"
                          else if bool_decide (pv_shape pv = Array) then "epics:nt/NTScalarArray:1.0"
                          else "epics:nt/NTScalar:1.0";
     Discovery.dr_aliases := pv_aliases pv;
     Discovery.dr_properties := sm_init
       [("protocol", "pva"); ("DESC", md_description (pv_metadata pv)); ("units", md_units (pv_metadata pv));
        ("type", if nd then "ntndarray" else toString_PrimitiveType (pv_type pv)); ("shape", toString_Shape (pv_shape pv))] |}.

Definition namedRecord (type name : string) : DiscoveryRecord :=
  {| Discovery.dr_name := name; Discovery.dr_type := type; Discovery.dr_aliases := [];
     Discovery.dr_properties := sm_init [("protocol", "pva")] |}.

Definition catalogRecords (config : AppConfig) (rpcs : smap Z) : list DiscoveryRecord :=
  map (pvRecord config) (app_pvs config) ++
  map (namedRecord "pvxs:diagnostic") (adminPVNames (app_server config)) ++
  map (namedRecord "pvxs:RPC") (sm_keys rpcs).

Definition buildDiscoveryCatalog (o : Outside) (config : AppConfig) (rpcs : smap Z) (port generation : Z)
    : exn (option DiscoveryCatalog) :=
  if negb (dc_enabled (app_discovery config)) then Ret None
  else catalog ← Discovery.prepareDiscoveryCatalog (app_discovery config) generation
                   (catalogIdentity o config port generation) (catalogRecords config rpcs);
       Ret (Some catalog).

(** ** The diagnostics are the reserved names *)

Lemma diagnostics_names server : map fst (diagnostics server) ≡ₚ adminPVNames server.
Proof.
  symmetry. apply NoDup_Permutation_bis; [apply NoDup_ListNoDup, adminPVNames_NoDup|done|].
  intros n Hn%list_elem_of_In. apply list_elem_of_In. revert n Hn. apply Forall_forall.
  repeat (apply Forall_cons_2; [repeat (apply list_elem_of_here || apply list_elem_of_further)|]). constructor.
Qed.

Definition adminBinding (admin : Z) (defaults : AccessDefaultsConfig) (command : bool) : PVBinding :=
  Build_PVBinding (Some admin) (Some admin) (if command then ad_adminWrite defaults else ad_adminRead defaults).

Lemma length_sm_set {V} k (v : V) m : k ∉ sm_keys m -> length (sm_set k v m) = S (length m).
Proof.
  induction m as [|[k' v'] m IH]; intros Hk; [done|]. cbn. destruct (str_compare_spec k k') as [->| |]; [|done|].
  - destruct Hk. left.
  - cbn. rewrite IH; [done|]. intros Hin. apply Hk. by right.
Qed.

Lemma sm_emplace_new {V} k (v : V) m : k ∉ sm_keys m -> sm_emplace k v m = (sm_set k v m, true).
Proof. intros Hk. unfold sm_emplace. destruct (sm_has k m) eqn:E; [|done]. by apply sm_has_spec in E. Qed.

Record admin_inv (s : EndpointRegistry * PVBindings) : Prop := {
  di_es : sm_wf s.1; di_bs : sm_wf s.2; di_keys : forall n, n ∈ sm_keys s.1 <-> n ∈ sm_keys s.2;
}.

Lemma adminAdd_ret admin defaults s d s' :
  admin_inv s -> adminAdd admin defaults s d = Ret s' <->
  exists es, reserve s.1 d.1 Diagnostic "runtime" "endpoints" = Ret es /\
    s' = (es, sm_set d.1 (adminBinding admin defaults d.2) s.2).
Proof.
  intros Hi. unfold adminAdd. rewrite exn_bind_ret. split.
  - intros (es & Hes & [= <-]). exists es. split; [done|]. pose proof Hes as (_ & Hn & _)%reserve_ret.
    rewrite sm_emplace_new; [done|]. by rewrite <-(di_keys _ Hi).
  - intros (es & Hes & ->). exists es. split; [done|]. pose proof Hes as (_ & Hn & _)%reserve_ret.
    rewrite sm_emplace_new; [done|]. by rewrite <-(di_keys _ Hi).
Qed.

Lemma adminAdd_inv admin defaults s d s' : admin_inv s -> adminAdd admin defaults s d = Ret s' -> admin_inv s'.
Proof.
  intros Hi (es & Hes & ->)%adminAdd_ret; [|done]. pose proof Hes as (_ & _ & ->)%reserve_ret. destruct Hi as [H1 H2 H3].
  split; cbn [fst snd]; [by apply sm_wf_set..|]. intros n. by rewrite !sm_keys_set, H3.
Qed.

Lemma adminAdd_fold admin defaults l s :
  admin_inv s -> NoDup (map fst l) ->
  (forall s', exn_fold (adminAdd admin defaults) s l = Ret s' ->
     admin_inv s' /\ length s'.2 = (length l + length s.2)%nat /\
     forall n b, sm_find n s'.2 = Some b <->
       (n ∉ map fst l) /\ sm_find n s.2 = Some b \/ exists command, (n, command) ∈ l /\ b = adminBinding admin defaults command) /\
  (reservable s.1 (map fst l) -> exists s', exn_fold (adminAdd admin defaults) s l = Ret s').
Proof.
  revert s; induction l as [|[n0 c0] l IH]; intros s Hi Hnd; cbn.
  { split; [|eauto]. intros s' [= <-]. split; [done|]. split; [done|]. intros n b. setoid_rewrite elem_of_nil. naive_solver. }
  apply NoDup_cons in Hnd as [Hn0 Hnd]. split.
  - intros s' (s1 & H1 & H2)%exn_bind_ret. pose proof (adminAdd_inv _ _ _ _ _ Hi H1) as Hi1.
    apply adminAdd_ret in H1 as (es & Hes & ->); [|done]. pose proof Hes as (_ & Hnew & _)%reserve_ret.
    destruct (IH _ Hi1 Hnd) as [IH1 _]. destruct (IH1 _ H2) as (Hi' & Hlen & Hf). split; [done|]. split.
    { rewrite Hlen. cbn. rewrite length_sm_set by (by rewrite <-(di_keys _ Hi)). lia. }
    intros n b. rewrite Hf. cbn. rewrite sm_find_set, elem_of_cons. setoid_rewrite elem_of_cons.
    case_decide as E; [subst n|].
    + split; [intros [[_ [= <-]]|?]; [right; eauto|]|intros [[[] _]|(c & [[= ->]|Hin] & ->)]]; [naive_solver..|naive_solver| |].
      * left. split; [|done]. exact Hn0.
      * right. eauto.
    + naive_solver.
  - intros Hr. pose proof Hr as (Ho & _ & Hf). inversion Ho; subst.
    destruct (reserve_complete s.1 n0 Diagnostic "runtime" "endpoints") as [es Hes]; [done|apply Hf; left|].
    assert (Hadd : adminAdd admin defaults s (n0, c0) = Ret (es, sm_set n0 (adminBinding admin defaults c0) s.2)).
    { apply adminAdd_ret; [done|]. eauto. }
    rewrite Hadd. cbn. apply IH; [by eapply adminAdd_inv|done|]. eapply (reservable_app s.1 [n0]); [exact Hr|].
    cbn. eapply reserve_sound; [exact Hes|apply Hi].
Qed.

Lemma adminBindings_spec server admin defaults :
  (forall bs, adminBindings server admin defaults = Ret bs ->
     sm_wf bs /\ forall n b, sm_find n bs = Some b <->
       exists command, (n, command) ∈ diagnostics server /\ b = adminBinding admin defaults command) /\
  (has_nul (sv_instance server) = false -> exists bs, adminBindings server admin defaults = Ret bs).
Proof.
  assert (Hi : admin_inv ([], [])) by (split; cbn; [apply sm_wf_nil..|done]).
  assert (Hnd : NoDup (map fst (diagnostics server))) by (rewrite diagnostics_names; apply adminPVNames_NoDup).
  destruct (adminAdd_fold admin defaults (diagnostics server) ([], []) Hi Hnd) as [Hsound Hcomp]. unfold adminBindings. split.
  - intros bs ([es bs'] & Hs & (u & _ & Hret)%exn_bind_ret)%exn_bind_ret. destruct (Hsound _ Hs) as (Hi' & _ & Hf).
    destruct (List.find _ _); [done|]. injection Hret as <-. split; [apply Hi'|]. intros n b. rewrite (Hf n b).
    split; [intros [[_ ?]|?]|right]; done.
  - intros Hnul. destruct Hcomp as [[es bs] Hs].
    { split_and!; [|done|intros ??; apply not_elem_of_nil]. apply Forall_forall. intros n Hn.
      rewrite diagnostics_names in Hn. apply has_nul_adminPVNames in Hn as [H1 H2]. split; [done|congruence]. }
    rewrite Hs. destruct (Hsound _ Hs) as (_ & Hlen & Hf). cbn [mbind exn_bind snd].
    assert (length bs = length (adminPVNames server)) as Hl by (transitivity (length (diagnostics server) + 0)%nat; [exact Hlen|reflexivity]).
    rewrite (proj2 (Nat.eqb_eq _ _) Hl). cbn [negb throw_if mbind exn_bind].
    destruct (List.find _ (adminPVNames server)) as [n|] eqn:Ef; [|eauto]. exfalso.
    apply List.find_some in Ef as [Hin%list_elem_of_In Hno]. rewrite <-diagnostics_names in Hin.
    apply list_elem_of_fmap in Hin as ([n' c] & -> & Hin). apply negb_true_iff in Hno.
    unfold sm_has in Hno. cbn in Hno. destruct (sm_find n' bs) eqn:E; [done|].
    assert (Hs' : sm_find n' bs = Some (adminBinding admin defaults c)) by (apply (Hf n'); right; eauto). congruence.
Qed.

(** ** Backends are reused exactly when their settings did not change *)

Lemma buildBackends_spec o previous existing entries : forall backends next outcomes backends' next',
  sm_wf entries -> sm_wf backends -> (forall n, n ∈ sm_keys entries -> n ∉ sm_keys backends) ->
  buildBackends o previous existing entries backends next = (outcomes, Ret (backends', next')) ->
  next <= next' /\ sm_wf backends' /\ (forall n, n ∈ sm_keys backends' <-> n ∈ sm_keys entries \/ n ∈ sm_keys backends) /\
  forall name id, sm_find name backends' = Some id ->
    match sm_find name entries with
    | Some config =>
        match retainedBackend previous existing name config with
        | Some old => id = old
        | None => next <= id < next'
        end
    | None => sm_find name backends = Some id
    end.
Proof.
  induction entries as [|[n c] rest IH]; intros backends next outcomes backends' next' Hwf Hb Hdis; cbn.
  { intros [= <- <- <-]. split_and!; [lia|done| |done]. intros n. rewrite elem_of_nil. tauto. }
  apply sm_wf_cons in Hwf as [Hwf Hlt].
  assert (Hn : n ∉ sm_keys backends) by (apply Hdis; left).
  assert (Hnr : n ∉ sm_keys rest).
  { intros Hin. eapply Forall_forall in Hlt; [|exact Hin]. by apply (irreflexivity str_lt) in Hlt. }
  assert (Hrec : forall v nx out, buildBackends o previous existing rest (sm_emplace n v backends).1 nx = (out, Ret (backends', next')) ->
    next <= nx -> match retainedBackend previous existing n c with Some old => v = old | None => next <= v < nx end ->
    next <= next' /\ sm_wf backends' /\ (forall n0, n0 ∈ sm_keys backends' <-> n0 ∈ n :: sm_keys rest \/ n0 ∈ sm_keys backends) /\
    forall name id, sm_find name backends' = Some id ->
      match (if String.eqb name n then Some c else sm_find name rest) with
      | Some config => match retainedBackend previous existing name config with Some old => id = old | None => next <= id < next' end
      | None => sm_find name backends = Some id
      end).
  { intros v nx out Hbuild Hle Hv. rewrite sm_emplace_new in Hbuild by done. cbn [fst] in Hbuild.
    assert (Hd : forall m, m ∈ sm_keys rest -> m ∉ sm_keys (sm_set n v backends)).
    { intros m Hm. rewrite sm_keys_set. intros [->|]; [done|]. by eapply (Hdis m); [right|]. }
    destruct (IH _ _ _ _ _ Hwf (sm_wf_set n v _ Hb) Hd Hbuild) as (Hle' & Hwf' & Hk & Hf).
    split; [lia|]. split; [done|]. split.
    { intros m. rewrite Hk, sm_keys_set, elem_of_cons. tauto. }
    intros name id Hid. specialize (Hf name id Hid). destruct (String.eqb_spec name n) as [->|Hne].
    - rewrite (proj2 (sm_find_None n rest) Hnr), sm_find_set_eq in Hf. injection Hf as <-.
      destruct (retainedBackend _ _ n c); [done|lia].
    - destruct (sm_find name rest) as [config|]; [destruct (retainedBackend _ _ name config); [done|lia]|].
      by rewrite sm_find_set_ne in Hf. }
  destruct (retainedBackend previous existing n c) as [backend|] eqn:Er.
  - destruct (buildBackends _ _ _ rest _ next) as [out r] eqn:Eb. intros [= <- ->]. eapply Hrec; [exact Eb|lia|done].
  - destruct (ox_adapter o n c) as [connected|]; [|done].
    destruct (buildBackends _ _ _ rest _ (next + 1)) as [out r] eqn:Eb. intros [= <- ->].
    eapply Hrec; [exact Eb|lia|lia].
Qed.

Lemma sameRedisConfig_sym a b : sameRedisConfig a b = sameRedisConfig b a.
Proof.
  unfold sameRedisConfig.
  by rewrite (String.eqb_sym (rd_baseKey a)), (String.eqb_sym (rd_host a)), (Z.eqb_sym (rd_port a)),
    (String.eqb_sym (rd_user a)), (String.eqb_sym (rd_password a)), (Z.eqb_sym (rd_workers a)),
    (Z.eqb_sym (rd_readers a)), (Z.eqb_sym (rd_readerProbeMs a)).
Qed.

Lemma buildRedisBackends_spec o config previous existing next outcomes backends' next' :
  sm_wf (app_redisBackends config) -> (forall n id, sm_find n existing = Some id -> id < next) ->
  buildRedisBackends o config previous existing next = (outcomes, Ret (backends', next')) ->
  next <= next' /\ sm_wf backends' /\ (forall n, n ∈ sm_keys backends' <-> n ∈ sm_keys (app_redisBackends config)) /\
  forall n id, sm_find n backends' = Some id -> id < next' /\
    exists c, sm_find n (app_redisBackends config) = Some c /\
      match retainedBackend (app_redisBackends previous) existing n c with
      | Some old => id = old
      | None => next <= id
      end.
Proof.
  intros Hwf Hlt. unfold buildRedisBackends. destruct (buildBackends _ _ _ _ _ _) as [out r] eqn:Eb.
  destruct r as [built|]; [|done]. intros [= <- ->].
  destruct (buildBackends_spec _ _ _ _ _ _ _ _ _ Hwf sm_wf_nil (fun n _ => not_elem_of_nil n) Eb) as (Hle & Hwf' & Hk & Hf).
  split; [done|]. split; [done|]. split; [intros n; rewrite Hk, elem_of_nil; tauto|].
  intros n id Hid. specialize (Hf n id Hid). destruct (sm_find n (app_redisBackends config)) as [c|]; [|done].
  split; [|exists c; split; [done|]; destruct (retainedBackend _ _ n c); [done|lia]].
  destruct (retainedBackend _ _ n c) as [old|] eqn:Er; [|lia]. subst id. unfold retainedBackend in Er.
  destruct (sm_find n (app_redisBackends previous)), (sm_find n existing) as [e|] eqn:Ee; try done.
  destruct (sameRedisConfig _ _); [|done]. injection Er as ->. apply Hlt in Ee. lia.
Qed.

(** The registries of two generations share the adapter of a backend exactly
    when the diff does not list it as changed. *)
Lemma sameBackend_unchanged o config previous existing next outcomes backends' next' n :
  sm_wf (app_redisBackends config) -> (forall n, n ∈ sm_keys existing <-> n ∈ sm_keys (app_redisBackends previous)) ->
  (forall n id, sm_find n existing = Some id -> id < next) ->
  buildRedisBackends o config previous existing next = (outcomes, Ret (backends', next')) ->
  sameBackend existing backends' n = negb (backendChanged (app_redisBackends previous) (app_redisBackends config) n).
Proof.
  intros Hwf Hkeys Hlt Hb. destruct (buildRedisBackends_spec _ _ _ _ _ _ _ _ Hwf Hlt Hb) as (_ & _ & Hk & Hf).
  unfold sameBackend, backendChanged.
  specialize (Hkeys n). specialize (Hk n). rewrite <-!sm_find_is_Some in Hkeys, Hk. specialize (Hf n).
  destruct (sm_find n existing) as [a|] eqn:Ea, (sm_find n (app_redisBackends previous)) as [old|] eqn:Eo;
    [|destruct (proj1 Hkeys) as [??]; [eauto|done]|destruct (proj2 Hkeys) as [??]; [eauto|done]|done].
  destruct (sm_find n backends') as [b|] eqn:Ebb, (sm_find n (app_redisBackends config)) as [c|] eqn:Ec;
    [|destruct (proj1 Hk) as [??]; [eauto|done]|destruct (proj2 Hk) as [??]; [eauto|done]|done].
  destruct (Hf b eq_refl) as (_ & c' & [= <-] & Hr). unfold retainedBackend in Hr. rewrite Eo, Ea, sameRedisConfig_sym in Hr.
  destruct (sameRedisConfig old c); [subst; apply Z.eqb_refl|]. apply Z.eqb_neq. apply Hlt in Ea. lia.
Qed.

(** ** The RPC names of a generation *)

Record assembly_ok (es : EndpointRegistry) (s : RpcAssembly) : Prop := {
  ay_endpoints : sm_wf (ra_endpoints s);
  ay_pvs : sm_wf (ra_pvs s);
  ay_keys : forall n, n ∈ sm_keys (ra_endpoints s) <-> n ∈ sm_keys es \/ n ∈ sm_keys (ra_pvs s);
  ay_assigned : forall n, n ∈ sm_keys (ra_assignments s) <-> n ∈ sm_keys (ra_pvs s);
  ay_new : forall n, n ∈ sm_keys (ra_pvs s) -> name_ok n /\ n ∉ sm_keys es;
}.

Lemma assembleMethod_ret config service s item s' :
  assembleMethod config service s item = Ret s' ->
  exists owner es, sm_find item.1 (rv_owners service) = Some owner /\
    reserve (ra_endpoints s) item.1 RPC owner "root.rpc_services" = Ret es /\
    s' = {| ra_endpoints := es; ra_pvs := (sm_emplace item.1 item.2 (ra_pvs s)).1;
            ra_assignments := (sm_emplace item.1 (default (ad_rpc (ac_defaults (app_access config)))
                                 (rs_access (rv_config service))) (ra_assignments s)).1 |}.
Proof.
  unfold assembleMethod. destruct (sm_find _ _) as [owner|]; [|done].
  intros (es & Hes & [= <-])%exn_bind_ret. eauto.
Qed.

Lemma assembleMethod_ok es config service s item s' :
  assembly_ok es s -> assembleMethod config service s item = Ret s' -> assembly_ok es s'.
Proof.
  intros [He Hp Hk Ha Hn] (owner & es' & _ & Hr & ->)%assembleMethod_ret.
  apply reserve_ret in Hr as (Hok & Hnew & ->). split; cbn [ra_endpoints ra_pvs ra_assignments].
  - by apply sm_wf_set.
  - by apply sm_wf_emplace.
  - intros n. rewrite sm_keys_set, sm_keys_emplace, Hk. tauto.
  - intros n. rewrite !sm_keys_emplace, Ha. tauto.
  - intros n [->|Hin]%sm_keys_emplace; [|by apply Hn]. split; [done|]. intros Hes. apply Hnew, Hk. by left.
Qed.

Lemma assembleMethod_elem config service s item s' n :
  assembleMethod config service s item = Ret s' ->
  n ∈ sm_keys (ra_pvs s') <-> n = item.1 \/ n ∈ sm_keys (ra_pvs s).
Proof. intros (owner & es & _ & _ & ->)%assembleMethod_ret. apply sm_keys_emplace. Qed.

Lemma assembleService_elem config service items s s' n :
  exn_fold (assembleMethod config service) s items = Ret s' ->
  n ∈ sm_keys (ra_pvs s') <-> n ∈ sm_keys items \/ n ∈ sm_keys (ra_pvs s).
Proof.
  revert s; induction items as [|item items IH]; intros s; cbn; [intros [= <-]; rewrite elem_of_nil; tauto|].
  intros (s1 & H1 & H2)%exn_bind_ret. rewrite (IH _ H2), (assembleMethod_elem _ _ _ _ _ n H1), elem_of_cons. tauto.
Qed.

Lemma assembleServices_elem config services s s' n :
  exn_fold (fun s service => exn_fold (assembleMethod config service) s (rv_pvs service)) s services = Ret s' ->
  n ∈ sm_keys (ra_pvs s') <-> (exists service, service ∈ services /\ n ∈ sm_keys (rv_pvs service)) \/ n ∈ sm_keys (ra_pvs s).
Proof.
  revert s; induction services as [|service services IH]; intros s; cbn.
  { intros [= <-]. setoid_rewrite elem_of_nil. naive_solver. }
  intros (s1 & H1 & H2)%exn_bind_ret. rewrite (IH _ H2), (assembleService_elem _ _ _ _ _ n H1).
  setoid_rewrite elem_of_cons. split; [intros [(x & ? & ?)|[?|?]]|intros [(x & [->|?] & ?)|?]]; eauto.
Qed.

Lemma assembleRpcPVs_spec config services pvs assignments :
  assembleRpcPVs config services = Ret (pvs, assignments) ->
  Forall name_ok (servedNames config) /\ NoDup (servedNames config) /\ sm_wf pvs /\
  (forall n, n ∈ sm_keys assignments <-> n ∈ sm_keys pvs) /\
  (forall n, n ∈ sm_keys pvs -> name_ok n /\ n ∉ servedNames config) /\
  (forall n, n ∈ sm_keys pvs <-> exists service, service ∈ services /\ n ∈ sm_keys (rv_pvs service)).
Proof.
  unfold assembleRpcPVs. intros (es & Hes & (s & Hs & [= <- <-])%exn_bind_ret)%exn_bind_ret.
  destruct (configuredEndpoints_names _ _ Hes) as [Hok Hnd]. split; [done|]. split; [done|].
  destruct (proj1 (configuredEndpoints_iff config)) as (es' & Hes' & Hwf & Hk); [done|].
  assert (es' = es) as -> by congruence.
  assert (Ha : assembly_ok es s).
  { eapply exn_fold_inv; [| |exact Hs].
    - split; cbn; [done|apply sm_wf_nil|..]; intros n; rewrite ?elem_of_nil; tauto.
    - intros s1 service s2 _ H1 H2. eapply exn_fold_inv; [exact H1| |exact H2].
      intros s3 item s4 _ H3. by apply assembleMethod_ok. }
  destruct Ha as [_ Hp _ Ha Hn]. split; [done|]. split; [done|]. split.
  - intros n Hin. rewrite <-Hk. by apply Hn.
  - intros n. rewrite (assembleServices_elem _ _ _ _ n Hs). cbn. rewrite elem_of_nil. tauto.
Qed.
