(* ===== verification/AccessRights.v ===== *)
(** * Rights, operations and audit of a secured channel

    src/access_control.cpp, the classes around [ChannelState]: what a client
    may do with a channel, decided from rights cached per channel and kept
    current by the callbacks of the access library; the count and the audit of
    the operations admitted; the text written to the log.  The access library
    is outside: [rg_lib] is what it grants the channel's users at the moment,
    and a callback runs on the thread that changed the policy. *)

From S2P Require Import Prelude.
From S2P Require Import StrMap.
From Stdlib Require Import Ascii.

Local Open Scope string_scope.
Local Open Scope list_scope.
Local Open Scope Z_scope.

Definition kRead : Z := 1.
Definition kWrite : Z := 2.
Definition kTrapWrite : Z := 4.

(** ** Log text *)

(** The buffer of [BoundedStreamBuffer]: what it holds, and whether anything
    was left out.  [xsputn] takes a run of characters, [overflow] one. *)
Record Bounded := { bb_output : string; bb_truncated : bool }.

Definition xsputn (limit : nat) (b : Bounded) (data : string) : Bounded :=
  let available := (limit - String.length (bb_output b))%nat in
  let copied := Nat.min available (String.length data) in
  {| bb_output := bb_output b +:+ String.substring 0 copied data;
     bb_truncated := bb_truncated b || negb (copied =? String.length data)%nat |}.

Definition overflow (limit : nat) (b : Bounded) (ch : ascii) : Bounded :=
  if (String.length (bb_output b) <? limit)%nat
  then {| bb_output := bb_output b +:+ String ch EmptyString; bb_truncated := bb_truncated b |}
  else {| bb_output := bb_output b; bb_truncated := true |}.

Definition bounded_result (b : Bounded) : string := bb_output b +:+ (if bb_truncated b then "..." else "").

(** What a formatter writes: runs and single characters. *)
Inductive put := PutRun (data : string) | PutChar (ch : ascii).
Definition write (limit : nat) (b : Bounded) (p : put) : Bounded :=
  match p with PutRun data => xsputn limit b data | PutChar ch => overflow limit b ch end.

Fixpoint string_map (f : ascii -> ascii) (s : string) : string :=
  match s with EmptyString => EmptyString | String c s' => String (f c) (string_map f s') end.

Definition is_newline (c : ascii) : bool := (ascii_code c =? 10) || (ascii_code c =? 13).

(** [valuePreview]: the formatted value, in one line. *)
Definition valuePreview (formatted : list put) : string :=
  string_map (fun c => if is_newline c then " "%char else c)
    (bounded_result (foldl (write 256) {| bb_output := ""; bb_truncated := false |} formatted)).

Definition unprintable (c : ascii) : bool :=
  (ascii_code c <? 32) || (ascii_code c =? 127) || (ascii_code c =? 34) || (ascii_code c =? 92).

Definition auditField (input : string) : string :=
  string_map (fun c => if unprintable c then "?"%char else c) (String.substring 0 256 input) +:+
  (if (256 <? String.length input)%nat then "..." else "").

(** ** Denials *)

(** Log stamps of a channel, for reads and for writes. *)
Record Stamps := { lastDeniedReadMs : Z; lastDeniedWriteMs : Z }.

(** [recordDenied]: is this denial logged?  [ms] is the steady clock in
    milliseconds. *)
Definition recordDenied (s : Stamps) (write : bool) (ms : Z) : Stamps * bool :=
  let now := ms + 1 in
  let prior := if write then lastDeniedWriteMs s else lastDeniedReadMs s in
  let emit := (prior =? 0) || (5000 <=? now - prior) in
  (if emit
   then if write then {| lastDeniedReadMs := lastDeniedReadMs s; lastDeniedWriteMs := now |}
        else {| lastDeniedReadMs := now; lastDeniedWriteMs := lastDeniedWriteMs s |}
   else s, emit).

(** ** Admission *)

Inductive request := RInfo | RGet | RPut | RRpc | RSubscribe.
Inductive decision := Admit (trap : bool) | Deny (write : bool).

Definition has (rights right : Z) : bool := negb (Z.land rights right =? 0).

Definition connect (rights : Z) (info : bool) : decision :=
  if info && negb (has rights kRead) then Deny false else Admit false.
Definition onGet (rights : Z) : decision := if has rights kRead then Admit false else Deny false.
Definition onPut (rights : Z) : decision := if has rights kWrite then Admit (has rights kTrapWrite) else Deny true.
Definition onRPC (rights : Z) : decision := if has rights kWrite then Admit (has rights kTrapWrite) else Deny true.
Definition onSubscribe (rights : Z) : decision := if has rights kRead then Admit false else Deny false.

Definition admission (rights : Z) (r : request) : decision :=
  match r with
  | RInfo => connect rights true
  | RGet => onGet rights
  | RPut => onPut rights
  | RRpc => onRPC rights
  | RSubscribe => onSubscribe rights
  end.

(** ** Admitted operations *)

Inductive outcome := Success | ErrorOutcome | Cancelled | Denied | Abandoned.

(** An operation is open, claimed by the caller that will complete it, or
    complete. *)
Inductive op_state := Open | Claimed (o : outcome) | Complete (o : outcome).
Record AccessOperation := { ao_trap : bool; ao_state : op_state }.

Inductive audit := AAllowed (id : Z) | ADenied (id : Z) | ACompletion (id : Z) (o : outcome).

Record Counters := {
  ct_authorized : Z; ct_inFlight : Z; ct_succeeded : Z; ct_failed : Z; ct_cancelled : Z; ct_denied : Z;
  ct_abandoned : Z; ct_ops : list AccessOperation; ct_log : list audit;
}.
#[export] Instance Counters_eta : Eta Counters := fun r =>
  Build_Counters (ct_authorized r) (ct_inFlight r) (ct_succeeded r) (ct_failed r) (ct_cancelled r) (ct_denied r)
    (ct_abandoned r) (ct_ops r) (ct_log r).

Definition Counters_new : Counters :=
  {| ct_authorized := 0; ct_inFlight := 0; ct_succeeded := 0; ct_failed := 0; ct_cancelled := 0; ct_denied := 0;
     ct_abandoned := 0; ct_ops := []; ct_log := [] |}.

(** Operations are numbered from one in the order they were admitted; [op_at]
    is the one with this number. *)
Definition op_at (c : Counters) (id : Z) : option AccessOperation :=
  if 1 <=? id then ct_ops c !! Z.to_nat (id - 1) else None.
Definition set_op (c : Counters) (id : Z) (op : AccessOperation) : Counters :=
  c <| ct_ops ::= <[Z.to_nat (id - 1) := op]> |>.

(** The constructor: a new identifier, and the audit record of an operation
    that traps writes. *)
Definition admit_op (c : Counters) (trap : bool) : Counters :=
  let id := u64 (ct_authorized c + 1) in
  c <| ct_authorized := id |> <| ct_inFlight ::= fun n => u64 (n + 1) |>
    <| ct_ops ::= fun l => l ++ [{| ao_trap := trap; ao_state := Open |}] |>
    <| ct_log ::= fun l => if trap then l ++ [AAllowed id] else l |>.

(** [claim]: the exchange of [done]; one caller wins. *)
Definition claim (c : Counters) (id : Z) (o : outcome) : Counters * bool :=
  match op_at c id with
  | Some op =>
      match ao_state op with
      | Open => (set_op c id {| ao_trap := ao_trap op; ao_state := Claimed o |}, true)
      | _ => (c, false)
      end
  | None => (c, false)
  end.

(** [complete], by the caller that claimed. *)
Definition complete (c : Counters) (id : Z) (op : AccessOperation) (o : outcome) : Counters :=
  let c := set_op (c <| ct_inFlight ::= fun n => u64 (n - 1) |>) id
             {| ao_trap := ao_trap op; ao_state := Complete o |} in
  let c := match o with
           | Success => c <| ct_succeeded ::= fun n => u64 (n + 1) |>
           | ErrorOutcome => c <| ct_failed ::= fun n => u64 (n + 1) |>
           | Cancelled => c <| ct_cancelled ::= fun n => u64 (n + 1) |>
           | Denied => c <| ct_denied ::= fun n => u64 (n + 1) |>
           | Abandoned => c <| ct_abandoned ::= fun n => u64 (n + 1) |>
           end in
  if ao_trap op then c <| ct_log ::= fun l => l ++ [ACompletion id o] |> else c.

(** [AuthorizedExecOp::authorized] with the rights gone: the denial is audited
    under the operation's identifier only by the caller that closes it. *)
Definition refuse (c : Counters) (id : Z) : Counters :=
  let '(c, open) := claim c id Denied in
  let trap := match op_at c id with Some op => ao_trap op | None => false end in
  c <| ct_log ::= fun l => l ++ [ADenied (if open && trap then id else 0)] |>.

(** ** The rights of a channel *)

(** Where the thread that creates the channel is ([initialize], from the
    registered callbacks on): in [recompute(false)] about to ask the library,
    to store what it was told, to clear the two flags, then about to set
    [initialized] and to join the member's clients. *)
Inductive creator := CSample | CStore (next : Z) | CClear | CTake | CInitialized | CList | CDone.

(** Where the thread that changes policies is: in the callback
    [accessChanged], or in [recompute(true)]. *)
Inductive pump := PIdle | PZero | PCheck | PMark | PSample | PStore (next : Z) | PClear (current next : Z)
  | PTake (current next : Z).

Record ChannelState := {
  rg_lib : Z;
  rg_rights : Z;
  rg_rightsBeforeChange : Z;
  rg_dirty : bool;
  rg_initialized : bool;
  rg_listed : bool;
  rg_queued : bool;
  rg_owed : bool;
  rg_rightsChanges : Z;
  rg_creator : creator;
  rg_pump : pump;
}.
#[export] Instance ChannelState_eta : Eta ChannelState := fun r =>
  Build_ChannelState (rg_lib r) (rg_rights r) (rg_rightsBeforeChange r) (rg_dirty r) (rg_initialized r) (rg_listed r)
    (rg_queued r) (rg_owed r) (rg_rightsChanges r) (rg_creator r) (rg_pump r).

Definition ChannelState_new (lib : Z) : ChannelState :=
  {| rg_lib := lib; rg_rights := 0; rg_rightsBeforeChange := 0; rg_dirty := false; rg_initialized := false;
     rg_listed := false; rg_queued := false; rg_owed := false; rg_rightsChanges := 0; rg_creator := CSample;
     rg_pump := PIdle |}.

(** [recompute] after the library was asked, one atomic operation at a time. *)
Definition store_rights (s : ChannelState) (next : Z) : ChannelState := s <| rg_rights := next |>.
Definition clear_dirty (s : ChannelState) : ChannelState := s <| rg_dirty := false |>.
Definition take_prior (s : ChannelState) (current : Z) : ChannelState * Z :=
  let callbackPrior := rg_rightsBeforeChange s in
  (s <| rg_rightsBeforeChange := 0 |>, if negb (callbackPrior =? 0) then callbackPrior else current).
Definition close_changed (s : ChannelState) (prior next : Z) : ChannelState :=
  if negb (prior =? next) then s <| rg_rightsChanges ::= fun n => u64 (n + 1) |> else s.

(** [initialize], a step at a time. *)
Definition create_step (s : ChannelState) : ChannelState :=
  match rg_creator s with
  | CSample => s <| rg_creator := CStore (rg_lib s) |>
  | CStore next => (store_rights s next) <| rg_creator := CClear |>
  | CClear => (clear_dirty s) <| rg_creator := CTake |>
  | CTake => (take_prior s 0).1 <| rg_creator := CInitialized |>
  | CInitialized => s <| rg_initialized := true |> <| rg_creator := CList |>
  | CList => s <| rg_listed := true |> <| rg_creator := CDone |>
  | CDone => s
  end.

(** The library has another policy or host list: the callback runs when what
    it grants has changed; [recomputeAllClients] is owed either way. *)
Definition change (s : ChannelState) (lib : Z) : ChannelState :=
  s <| rg_lib := lib |> <| rg_owed := true |> <| rg_pump := if lib =? rg_lib s then PIdle else PZero |>.

(** [recomputeAllClients] and [drainDirty], up to this channel's turn. *)
Definition recomputeAllClients (s : ChannelState) : ChannelState :=
  s <| rg_queued := false |> <| rg_owed := false |> <| rg_pump := if rg_listed s then PSample else PIdle |>.
Definition drainDirty (s : ChannelState) : ChannelState :=
  s <| rg_queued := false |> <| rg_pump := if rg_queued s then PSample else PIdle |>.

(** The callback and [recompute(true)], a step at a time. *)
Definition pump_step (s : ChannelState) : ChannelState :=
  match rg_pump s with
  | PIdle => s
  | PZero => s <| rg_rightsBeforeChange := Z.lor (rg_rightsBeforeChange s) (rg_rights s) |> <| rg_rights := 0 |>
               <| rg_pump := PCheck |>
  | PCheck => s <| rg_pump := if rg_initialized s then PMark else PIdle |>
  | PMark => s <| rg_queued := rg_queued s || negb (rg_dirty s) |> <| rg_dirty := true |> <| rg_pump := PIdle |>
  | PSample => s <| rg_pump := PStore (rg_lib s) |>
  | PStore next => (store_rights s next) <| rg_pump := PClear (rg_rights s) next |>
  | PClear current next => (clear_dirty s) <| rg_pump := PTake current next |>
  | PTake current next =>
      let '(s, prior) := take_prior s current in (close_changed s prior next) <| rg_pump := PIdle |>
  end.

Inductive rights_step (s : ChannelState) : ChannelState -> Prop :=
| R_create : rg_creator s <> CDone -> rights_step s (create_step s)
| R_pump : rg_pump s <> PIdle -> rights_step s (pump_step s)
| R_change lib : rg_pump s = PIdle -> rg_owed s = false -> rights_step s (change s lib)
| R_recompute : rg_pump s = PIdle -> rg_owed s = true -> rights_step s (recomputeAllClients s)
| R_drain : rg_pump s = PIdle -> rg_owed s = false -> rights_step s (drainDirty s).

(** ** Rights of an established channel *)

Definition established (s : ChannelState) : Prop :=
  rg_creator s = CDone /\ rg_initialized s = true /\ rg_listed s = true.








(** ** A client that connects during a policy change *)

Definition late_path : list ChannelState :=
  let s1 := create_step (ChannelState_new (Z.lor kRead kWrite)) in
  let s2 := change s1 0 in
  let s3 := pump_step s2 in
  let s4 := pump_step s3 in
  let s5 := recomputeAllClients s4 in
  let s6 := create_step s5 in
  let s7 := create_step s6 in
  let s8 := create_step s7 in
  let s9 := create_step s8 in
  [s1; s2; s3; s4; s5; s6; s7; s8; s9; create_step s9].

Definition late : ChannelState := default (ChannelState_new 0) (last late_path).

Lemma late_reachable : rtc rights_step (ChannelState_new (Z.lor kRead kWrite)) late.
Proof.
  eapply rtc_l; [by apply R_create|]. eapply rtc_l; [by apply (R_change _ 0)|].
  eapply rtc_l; [by apply R_pump|]. eapply rtc_l; [by apply R_pump|]. eapply rtc_l; [by apply R_recompute|].
  do 4 (eapply rtc_l; [by apply R_create|]). apply rtc_once. by apply R_create.
Qed.

Lemma settled_stays s s' :
  rg_creator s = CDone -> rg_pump s = PIdle -> rg_owed s = false -> rg_queued s = false -> rights_step s s' ->
  s' = s \/ exists lib, s' = change s lib.
Proof.
  intros Hc Hp Ho Hq Hs. destruct Hs as [H|H|lib _ _|_ H|_ _]; [by destruct H..| |congruence|].
  - right. by exists lib.
  - left. destruct s. cbn in *. by subst.
Qed.

(** C33. The rights of a client that connects while the policy changes can be
    out of date for good: there is an interleaving after which the channel is
    created, no callback or re-evaluation is pending, the library grants
    nothing, and the cached rights still admit writes; nothing but another
    change of the policy ends this. *)
Theorem late_client_keeps_old_rights :
  exists s, rtc rights_step (ChannelState_new (Z.lor kRead kWrite)) s /\ established s /\
    rg_pump s = PIdle /\ rg_owed s = false /\ rg_queued s = false /\ rg_lib s = 0 /\
    admission (rg_lib s) RPut = Deny true /\ admission (rg_rights s) RPut = Admit false /\
    (forall s', rights_step s s' -> s' = s \/ exists lib, s' = change s lib).
Proof.
  exists late. split; [apply late_reachable|]. split; [split_and!; vm_compute; reflexivity|].
  split_and!; try (vm_compute; reflexivity).
  intros s'. by apply settled_stays.
Qed.

(** ** Every admitted operation is accounted for once *)

Inductive account_step (c : Counters) : Counters -> Prop :=
| K_admit trap : ct_authorized c + 1 < 2 ^ 64 -> account_step c (admit_op c trap)
| K_claim id o : (claim c id o).2 = true -> o <> Denied -> account_step c (claim c id o).1
| K_refuse id : account_step c (refuse c id)
| K_complete id op o : op_at c id = Some op -> ao_state op = Claimed o -> account_step c (complete c id op o).

#[export] Instance outcome_eq_dec : EqDecision outcome.
Proof. solve_decision. Defined.
#[export] Instance op_state_eq_dec : EqDecision op_state.
Proof. solve_decision. Defined.
#[export] Instance audit_eq_dec : EqDecision audit.
Proof. solve_decision. Defined.

Definition is_complete (o : outcome) (op : AccessOperation) : bool := bool_decide (ao_state op = Complete o).
Definition is_running (op : AccessOperation) : bool := match ao_state op with Complete _ => false | _ => true end.
Fixpoint tally (p : AccessOperation -> bool) (l : list AccessOperation) : Z :=
  match l with [] => 0 | op :: l => Z.b2z (p op) + tally p l end.

Lemma tally_app p l1 l2 : tally p (l1 ++ l2) = tally p l1 + tally p l2.
Proof. induction l1 as [|x l1 IH]; cbn [tally app]; [done|]. rewrite IH. lia. Qed.
Lemma tally_insert p l i x y : l !! i = Some x -> tally p (<[i := y]> l) = tally p l - Z.b2z (p x) + Z.b2z (p y).
Proof.
  revert i; induction l as [|z l IH]; intros [|i] Hx; cbn in Hx; simplify_eq; cbn [tally insert list_insert]; [lia|].
  rewrite IH by done. lia.
Qed.
Lemma tally_bound p l : 0 <= tally p l <= Z.of_nat (length l).
Proof. induction l as [|x l IH]; cbn [tally length]; [lia|]. destruct (p x); cbn [Z.b2z]; lia. Qed.

Definition outcome_count (c : Counters) (o : outcome) : Z :=
  match o with
  | Success => ct_succeeded c | ErrorOutcome => ct_failed c | Cancelled => ct_cancelled c
  | Denied => ct_denied c | Abandoned => ct_abandoned c
  end.

(** How often an audit record was written. *)
Fixpoint occurrences (l : list audit) (a : audit) : Z :=
  match l with [] => 0 | b :: l => (if decide (b = a) then 1 else 0) + occurrences l a end.
Definition written (c : Counters) (a : audit) : Z := occurrences (ct_log c) a.

Record account_inv (c : Counters) : Prop := {
  ai_length : Z.of_nat (length (ct_ops c)) = ct_authorized c;
  ai_range : ct_authorized c < 2 ^ 64;
  ai_flight : ct_inFlight c = tally is_running (ct_ops c);
  ai_outcomes : forall o, outcome_count c o = tally (is_complete o) (ct_ops c);
  ai_allowed : forall id, written c (AAllowed id) =
    match op_at c id with Some op => Z.b2z (ao_trap op) | None => 0 end;
  ai_completed : forall id o, written c (ACompletion id o) =
    match op_at c id with Some op => Z.b2z (ao_trap op && is_complete o op) | None => 0 end;
}.

Lemma occurrences_snoc l b a : occurrences (l ++ [b]) a = occurrences l a + if decide (b = a) then 1 else 0.
Proof. induction l as [|x l IH]; cbn [occurrences app]; [lia|]. rewrite IH. lia. Qed.

Lemma op_at_index c id op : op_at c id = Some op -> 1 <= id /\ ct_ops c !! Z.to_nat (id - 1) = Some op.
Proof. unfold op_at. destruct (Z.leb_spec 1 id); [by split|done]. Qed.

Lemma op_at_set c id op op' id' :
  op_at c id = Some op -> op_at (set_op c id op') id' = if decide (id' = id) then Some op' else op_at c id'.
Proof.
  intros [H1 Hl]%op_at_index. unfold op_at, set_op. cbn. destruct (Z.leb_spec 1 id'); case_decide; subst; try lia; [| |done].
  - apply list_lookup_insert_eq. by apply lookup_lt_Some in Hl.
  - apply list_lookup_insert_ne. lia.
Qed.

Lemma admit_inv c trap : account_inv c -> ct_authorized c + 1 < 2 ^ 64 -> account_inv (admit_op c trap).
Proof.
  intros [Hn Hr Hf Ho Ha Hc] Hlt. pose proof (tally_bound is_running (ct_ops c)) as Hb.
  assert (Hid : u64 (ct_authorized c + 1) = ct_authorized c + 1) by (apply u64_id; lia).
  assert (Hat : forall id, op_at (admit_op c trap) id =
    if decide (id = ct_authorized c + 1) then Some {| ao_trap := trap; ao_state := Open |} else op_at c id).
  { intros id. unfold op_at, admit_op. cbn. destruct (Z.leb_spec 1 id); case_decide; subst; try done; try lia.
    - rewrite lookup_app_r by lia. replace (_ - _)%nat with 0%nat by lia. done.
    - destruct (decide (id - 1 < ct_authorized c)); [by rewrite lookup_app_l by lia|].
      rewrite !lookup_ge_None_2; [done|lia|rewrite length_app; cbn; lia]. }
  assert (Hlog : forall a, written (admit_op c trap) a =
    written c a + if decide (a = AAllowed (ct_authorized c + 1)) then Z.b2z trap else 0).
  { intros a. unfold written, admit_op. cbn [ct_log field_update Counters_eta]. rewrite Hid.
    destruct trap; [rewrite occurrences_snoc|]; repeat case_decide; subst; cbn; try done; lia. }
  assert (Hnew : op_at c (ct_authorized c + 1) = None).
  { unfold op_at. destruct (_ <=? _); [|done]. apply lookup_ge_None_2. lia. }
  split.
  - unfold admit_op. cbn. rewrite length_app, Hid. cbn. lia.
  - unfold admit_op. cbn. rewrite Hid. lia.
  - unfold admit_op. cbn [ct_inFlight ct_ops field_update Counters_eta]. rewrite tally_app, Hf. cbn [tally is_running ao_state Z.b2z].
    rewrite u64_id; lia.
  - intros o. transitivity (outcome_count c o); [by destruct o|]. rewrite Ho. unfold admit_op.
    cbn [ct_ops field_update Counters_eta]. rewrite tally_app. cbn [tally]. unfold is_complete at 3. cbn [ao_state].
    rewrite bool_decide_false by done. cbn [Z.b2z]. lia.
  - intros id. rewrite Hlog, Hat, Ha. repeat case_decide; simplify_eq; rewrite ?Hnew; cbn [ao_trap]; try done; lia.
  - intros id o. rewrite Hlog, Hat, Hc. repeat case_decide; simplify_eq; rewrite ?Hnew; cbn; rewrite ?andb_false_r; cbn; try done; lia.
Qed.

Lemma set_inv c id op st log :
  account_inv c -> op_at c id = Some op -> is_running op = true ->
  let op' := {| ao_trap := ao_trap op; ao_state := st |} in
  let c' := (set_op c id op') <| ct_log := log |> in
  (forall a, written c' a = written c a +
     match a, st with ACompletion i o, Complete o' => if decide (i = id /\ o = o') then Z.b2z (ao_trap op) else 0 | _, _ => 0 end
     \/ exists i, a = ADenied i) ->
  forall c'', c'' = c' <| ct_inFlight ::= fun n => n - Z.b2z (negb (is_running op')) |>
    <| ct_succeeded ::= fun n => n + Z.b2z (is_complete Success op') |>
    <| ct_failed ::= fun n => n + Z.b2z (is_complete ErrorOutcome op') |>
    <| ct_cancelled ::= fun n => n + Z.b2z (is_complete Cancelled op') |>
    <| ct_denied ::= fun n => n + Z.b2z (is_complete Denied op') |>
    <| ct_abandoned ::= fun n => n + Z.b2z (is_complete Abandoned op') |> -> account_inv c''.
Proof.
  intros [Hn Hr Hf Ho Ha Hc] Hop Hrun op' c' Hlog c'' ->. pose proof (op_at_index _ _ _ Hop) as [H1 Hl].
  assert (Hat : forall i, op_at c' i = if decide (i = id) then Some op' else op_at c i).
  { intros i. subst c'. rewrite <-(op_at_set c id op op' i Hop). done. }
  assert (Hnc : forall o, is_complete o op = false).
  { intros o. unfold is_complete, is_running in *. destruct (ao_state op); [..|done]; by apply bool_decide_eq_false_2. }
  split.
  - cbn. by rewrite length_insert.
  - done.
  - transitivity (ct_inFlight c - Z.b2z (negb (is_running op'))); [done|].
    transitivity (tally is_running (<[Z.to_nat (id - 1) := op']> (ct_ops c))); [|done].
    rewrite (tally_insert _ _ _ _ _ Hl), Hf, Hrun. destruct (is_running op'); cbn; lia.
  - intros o. transitivity (outcome_count c o + Z.b2z (is_complete o op')); [by destruct o|].
    transitivity (tally (is_complete o) (<[Z.to_nat (id - 1) := op']> (ct_ops c))); [|done].
    rewrite (tally_insert _ _ _ _ _ Hl), Ho, Hnc. cbn [Z.b2z]. lia.
  - intros i. transitivity (written c' (AAllowed i)); [done|]. destruct (Hlog (AAllowed i)) as [->|[? [=]]].
    rewrite Ha. transitivity (match op_at c' i with Some op => Z.b2z (ao_trap op) | None => 0 end); [|done].
    rewrite Hat. case_decide; subst; [rewrite Hop; cbn; lia|lia].
  - intros i o. transitivity (written c' (ACompletion i o)); [done|]. destruct (Hlog (ACompletion i o)) as [->|[? [=]]].
    rewrite Hc. transitivity (match op_at c' i with Some op => Z.b2z (ao_trap op && is_complete o op) | None => 0 end); [|done].
    rewrite Hat. destruct (decide (i = id)) as [->|Hi].
    + rewrite Hop, Hnc, andb_false_r. unfold is_complete, op'. cbn. destruct st as [|o'|o'].
      * rewrite bool_decide_false by done. by rewrite andb_false_r.
      * rewrite bool_decide_false by done. by rewrite andb_false_r.
      * destruct (decide (o = o')) as [->|Hne].
        -- rewrite decide_True by done. rewrite bool_decide_true by done. rewrite andb_true_r. done.
        -- rewrite decide_False by naive_solver. rewrite bool_decide_false by naive_solver. by rewrite andb_false_r.
    + destruct st; try lia. rewrite decide_False by naive_solver. lia.
Qed.

Lemma tally_pos p l i x : l !! i = Some x -> p x = true -> 1 <= tally p l.
Proof.
  revert i; induction l as [|z l IH]; intros [|i] Hx Hp; cbn in Hx; simplify_eq; cbn [tally].
  - rewrite Hp. pose proof (tally_bound p l). cbn. lia.
  - specialize (IH i Hx Hp). destruct (p z); cbn; lia.
Qed.

Lemma denied_log_inv c id : account_inv c -> account_inv (c <| ct_log ::= fun l => l ++ [ADenied id] |>).
Proof.
  intros [Hn Hr Hf Ho Ha Hc]. split; try done.
  - intros i. transitivity (written c (AAllowed i)); [|apply Ha]. unfold written. cbn [ct_log field_update Counters_eta]. rewrite occurrences_snoc, decide_False by done. lia.
  - intros i o. transitivity (written c (ACompletion i o)); [|apply Hc]. unfold written. cbn [ct_log field_update Counters_eta]. rewrite occurrences_snoc, decide_False by done. lia.
Qed.

Lemma claimed_inv c id o : account_inv c -> account_inv (claim c id o).1.
Proof.
  intros Hi. unfold claim. destruct (op_at c id) as [op|] eqn:Hop; [|done]. destruct (ao_state op) eqn:Hs; [|done..].
  cbn [fst]. eapply (set_inv c id op (Claimed o) (ct_log c) Hi Hop).
  - unfold is_running. by rewrite Hs.
  - intros a. left. transitivity (written c a); [done|]. destruct a; lia.
  - unfold set_op, is_complete. destruct c. cbn -[bool_decide]. rewrite !bool_decide_false by done. cbn. f_equal; lia.
Qed.

Lemma complete_inv c id op o :
  account_inv c -> op_at c id = Some op -> ao_state op = Claimed o -> account_inv (complete c id op o).
Proof.
  intros Hi Hop Hs. assert (Hrun : is_running op = true) by (unfold is_running; by rewrite Hs).
  pose proof (op_at_index _ _ _ Hop) as [_ Hl]. pose proof Hi as [Hn Hr Hf Ho _ _].
  pose proof (tally_pos _ _ _ _ Hl Hrun). pose proof (tally_bound is_running (ct_ops c)).
  set (op' := {| ao_trap := ao_trap op; ao_state := Complete o |}).
  assert (Hout : 0 <= outcome_count c o < Z.of_nat (length (ct_ops c))).
  { pose proof (tally_bound (is_complete o) (ct_ops c)). rewrite Ho.
    pose proof (tally_bound (is_complete o) (<[Z.to_nat (id - 1) := op']> (ct_ops c))) as [_ Hb].
    rewrite length_insert, (tally_insert _ _ _ _ _ Hl) in Hb. unfold is_complete at 2 3 in Hb. cbn in Hb. rewrite Hs in Hb.
    rewrite bool_decide_false, bool_decide_true in Hb by done. cbn in Hb. lia. }
  eapply (set_inv c id op (Complete o) (if ao_trap op then ct_log c ++ [ACompletion id o] else ct_log c) Hi Hop Hrun).
  - intros a. left. unfold written. cbn [ct_log field_update Counters_eta].
    destruct (ao_trap op); [rewrite occurrences_snoc|]; destruct a; repeat case_decide; naive_solver lia.
  - assert (Hfl : u64 (ct_inFlight c - 1) = ct_inFlight c - 1) by (apply u64_id; lia).
    assert (Hoc : u64 (outcome_count c o + 1) = outcome_count c o + 1) by (apply u64_id; lia).
    unfold complete, set_op. destruct c, o, (ao_trap op); cbn in *; rewrite ?Hfl, ?Hoc, ?Z.add_0_r; reflexivity.
Qed.

Lemma refuse_inv c id : account_inv c -> account_inv (refuse c id).
Proof.
  intros Hi. unfold refuse. pose proof (claimed_inv c id Denied Hi) as Hc. destruct (claim c id Denied) as [c1 open].
  by apply denied_log_inv.
Qed.

Lemma account_reachable c : rtc account_step Counters_new c -> account_inv c.
Proof.
  intros Hs. assert (account_inv Counters_new) as Hi.
  { split; try done; [by intros []|..]; intros id; unfold op_at; by destruct (_ <=? _). }
  revert Hi. induction Hs as [|x y z Hxy _ IH]; [done|]. intros Hi. apply IH.
  destruct Hxy; [by apply admit_inv|by apply claimed_inv|by apply refuse_inv|by apply complete_inv].
Qed.

Lemma outcomes_sum c : account_inv c ->
  ct_authorized c = ct_inFlight c + ct_succeeded c + ct_failed c + ct_cancelled c + ct_denied c + ct_abandoned c.
Proof.
  intros [Hn Hr Hf Ho Ha Hc].
  pose proof (Ho Success) as E1. pose proof (Ho ErrorOutcome) as E2. pose proof (Ho Cancelled) as E3.
  pose proof (Ho Denied) as E4. pose proof (Ho Abandoned) as E5. cbn [outcome_count] in *.
  rewrite Hf, E1, E2, E3, E4, E5, <-Hn. clear. induction (ct_ops c) as [|op l IH]; [done|]. cbn [tally length]. rewrite Nat2Z.inj_succ, IH.
  generalize (tally is_running l), (tally (is_complete Success) l), (tally (is_complete ErrorOutcome) l),
    (tally (is_complete Cancelled) l), (tally (is_complete Denied) l), (tally (is_complete Abandoned) l).
  intros. unfold is_running, is_complete. destruct op as [t [|o|[]]]; cbn -[Z.add bool_decide];
    repeat first [rewrite bool_decide_true by done | rewrite bool_decide_false by done]; cbn [Z.b2z]; lia.
Qed.

(** Every operation a client was admitted to is accounted for exactly
    once: however replies, errors, cancellations, dispatch-time refusals and
    destructions race, the operations authorized are those in flight plus those
    that ended in one of the five ways; and an operation that traps writes has
    exactly one authorization record and, from its completion on, exactly one
    completion record, with the outcome it was counted under. *)
Theorem operations_accounted c :
  rtc account_step Counters_new c ->
  ct_authorized c = ct_inFlight c + ct_succeeded c + ct_failed c + ct_cancelled c + ct_denied c + ct_abandoned c /\
  (forall id op, op_at c id = Some op ->
     written c (AAllowed id) = Z.b2z (ao_trap op) /\
     forall o, written c (ACompletion id o) = Z.b2z (ao_trap op && is_complete o op)).
Proof.
  intros Hs. destruct (account_reachable c Hs) as [Hn Hr Hf Ho Ha Hc].
  split.
  - by apply outcomes_sum, account_reachable.
  - intros id op Hop. specialize (Ha id). rewrite Hop in Ha. split; [done|]. intros o. specialize (Hc id o). by rewrite Hop in Hc.
Qed.

(** ** What is written to the log *)

Fixpoint all_chars (p : ascii -> bool) (s : string) : bool :=
  match s with EmptyString => true | String c s' => p c && all_chars p s' end.

Lemma all_chars_app p a b : all_chars p (a +:+ b) = all_chars p a && all_chars p b.
Proof. induction a as [|c a IH]; [done|]. rewrite str_app_cons. cbn [all_chars]. by rewrite IH, andb_assoc. Qed.
Lemma all_chars_map p f s : (forall c, p (f c) = true) -> all_chars p (string_map f s) = true.
Proof. intros Hf. induction s as [|c s IH]; [done|]. cbn [string_map all_chars]. by rewrite Hf, IH. Qed.
Lemma length_map_str f s : String.length (string_map f s) = String.length s.
Proof. induction s as [|c s IH]; [done|]. cbn. by rewrite IH. Qed.
Lemma length_substring n s : (String.length (String.substring 0 n s) <= n)%nat.
Proof.
  revert s; induction n as [|n IH]; intros [|c s]; cbn; try lia. specialize (IH s). lia.
Qed.

Lemma write_bounded limit b p :
  (String.length (bb_output b) <= limit)%nat -> (String.length (bb_output (write limit b p)) <= limit)%nat.
Proof.
  intros Hb. destruct p as [data|ch]; cbn [write].
  - unfold xsputn. cbn [bb_output]. rewrite str_length_app.
    pose proof (length_substring (Nat.min (limit - String.length (bb_output b)) (String.length data)) data). lia.
  - unfold overflow. destruct (Nat.ltb_spec (String.length (bb_output b)) limit); cbn [bb_output]; [|done].
    rewrite str_length_app. cbn. lia.
Qed.

Lemma audit_text_facts input :
  (String.length (auditField input) <= 259)%nat /\ all_chars (fun c => negb (unprintable c)) (auditField input) = true.
Proof.
  split; unfold auditField.
  - rewrite str_length_app, length_map_str. pose proof (length_substring 256 input).
    destruct (_ <? _)%nat; cbn [String.length]; lia.
  - rewrite all_chars_app, all_chars_map; [by destruct (_ <? _)%nat|].
    intros c. by destruct (unprintable c) eqn:E; [|rewrite E].
Qed.

(** Nothing a client sends can forge or flood the log: a field of an
    audit record and the preview of a value are at most 259 bytes whatever
    their input, a field has no control character, quote or backslash, and a
    preview no line break. *)
Theorem audit_text_bounded input formatted :
  (String.length (auditField input) <= 259)%nat /\ all_chars (fun c => negb (unprintable c)) (auditField input) = true /\
  (String.length (valuePreview formatted) <= 259)%nat /\
  all_chars (fun c => negb (is_newline c)) (valuePreview formatted) = true.
Proof.
  destruct (audit_text_facts input) as [H1 H2]. split_and!; [exact H1|exact H2|..].
  - unfold valuePreview, bounded_result. rewrite length_map_str, str_length_app.
    assert (forall b, (String.length (bb_output b) <= 256)%nat ->
      (String.length (bb_output (foldl (write 256) b formatted)) <= 256)%nat) as Hf.
    { induction formatted as [|p l IH]; intros b Hb; [done|]. cbn [foldl]. by apply IH, write_bounded. }
    specialize (Hf {| bb_output := ""; bb_truncated := false |} ltac:(cbn; lia)).
    destruct (bb_truncated _); cbn [String.length]; lia.
  - unfold valuePreview. apply all_chars_map. intros c. by destruct (is_newline c) eqn:E; [|rewrite E].
Qed.

(** Denials of one kind that are logged are at least five seconds apart. *)
Lemma denials_throttled s write ms1 ms2 :
  0 <= ms1 -> (recordDenied s write ms1).2 = true ->
  (recordDenied (recordDenied s write ms1).1 write ms2).2 = true -> 5000 <= ms2 - ms1.
Proof.
  intros H0 H1 H2. unfold recordDenied in *. destruct write; cbn in *; rewrite H1 in H2; cbn in H2;
    destruct (Z.eqb_spec (ms1 + 1) 0); cbn in H2; lia.
Qed.

(** A read was allowed, then the policy allowed nothing. *)
Module RightsDemo.




(** Two operations: one answered, the other refused at dispatch. *)
Definition c2 : Counters := admit_op (admit_op Counters_new true) true.
Definition c3 : Counters := (claim c2 1 Success).1.
Definition c4 : Counters := complete c3 1 {| ao_trap := true; ao_state := Claimed Success |} Success.
Definition c5 : Counters := refuse c4 2.
Definition c6 : Counters := complete c5 2 {| ao_trap := true; ao_state := Claimed Denied |} Denied.

Lemma c6_reach : rtc account_step Counters_new c6.
Proof.
  eapply rtc_l; [apply (K_admit _ true); vm_compute; reflexivity|].
  eapply rtc_l; [apply (K_admit _ true); vm_compute; reflexivity|].
  eapply rtc_l; [apply (K_claim c2 1 Success); [vm_compute; reflexivity|done]|].
  eapply rtc_l; [apply (K_complete c3 1 {| ao_trap := true; ao_state := Claimed Success |} Success); vm_compute; reflexivity|].
  eapply rtc_l; [apply (K_refuse c4 2)|].
  apply rtc_once. apply (K_complete c5 2 {| ao_trap := true; ao_state := Claimed Denied |} Denied); vm_compute; reflexivity.
Qed.

Lemma operations_accounted_witness :
  ct_authorized c6 = 2 /\ ct_inFlight c6 = 0 /\ written c6 (ACompletion 2 Denied) = 1.
Proof.
  destruct (operations_accounted c6 c6_reach) as [_ H]. split_and!; [reflexivity..|].
  destruct (H 2 {| ao_trap := true; ao_state := Complete Denied |}) as [_ Hd]; [vm_compute; reflexivity|].
  rewrite (Hd Denied). vm_compute. reflexivity.
Defined.
End RightsDemo.
