(* ===== verification/AccessAudit.v ===== *)
(** * Secured channels and their audit trail

    src/access_control.cpp: the life of a [ChannelState] (its clients in the
    access library, its place among the clients of its member, the count of
    active clients), the requests that pass through the wrappers around the
    objects of PVXS, the end of each admitted operation, and what is written to
    the log about them.  The rights a request sees are those cached at that
    moment, whose upkeep is AccessRights; the access library answers whether a
    client was added and its callback registered.  Memory is never short: a line
    that is to be written is written.

    The last part reads a log back; what the log tells and what becomes of
    channels is in AccessAuditSpec. *)

From S2P Require Import Prelude.
From S2P Require Import StrMap.
From S2P Require Import Acf.
From S2P Require Import AccessRights.
From S2P Require Import UtcTime.
From Stdlib Require Import Ascii.

Local Open Scope string_scope.
Local Open Scope list_scope.
Local Open Scope Z_scope.

(** ** Data *)

(** The credentials of a client, as PVXS gives them. *)
Record Credentials := { cr_peer : string; cr_method : string; cr_account : string; cr_roles : list string }.

(** [ChannelState], without the cached rights; [ch_clients] are the clients
    that were added to the access library, [ch_control] whether the channel
    control that [closer] refers to exists. *)
Record Channel := {
  ch_member : Z; ch_asg : string; ch_asl : Z;
  ch_name : string; ch_peer : string; ch_host : string; ch_method : string; ch_account : string; ch_users : list string;
  ch_clients : list Z; ch_stamps : Stamps; ch_counted : bool; ch_control : bool;
}.
#[export] Instance Channel_eta : Eta Channel := fun r =>
  Build_Channel (ch_member r) (ch_asg r) (ch_asl r) (ch_name r) (ch_peer r) (ch_host r) (ch_method r) (ch_account r)
    (ch_users r) (ch_clients r) (ch_stamps r) (ch_counted r) (ch_control r).

Inductive operation := OpPut | OpRpc.
Definition operation_text (o : operation) : string := match o with OpPut => "put" | OpRpc => "rpc" end.

(** What an admitted operation keeps: its channel and its kind, and whether the
    [AuthorizedExecOp] still exists; the rest of it is in [Counters]. *)
Record Detail := { dt_channel : Z; dt_who : Channel; dt_operation : operation; dt_wrapper : bool }.
#[export] Instance Detail_eta : Eta Detail := fun r => Build_Detail (dt_channel r) (dt_who r) (dt_operation r) (dt_wrapper r).

(** The controller, as far as channels and operations change it.  Channels,
    members and clients of the library are numbered; [im_clients] are the
    [clients] of each member, weak references; [im_log] are the lines written. *)
Record Impl := {
  im_channels : gmap Z Channel; im_nextChannel : Z;
  im_clients : gmap Z (list Z);
  im_library : gset Z; im_nextClient : Z;
  im_activeClients : Z; im_deniedReads : Z; im_deniedWrites : Z; im_denialLogsSuppressed : Z;
  im_counters : Counters; im_details : list Detail;
  im_log : list string;
}.
#[export] Instance Impl_eta : Eta Impl := fun r =>
  Build_Impl (im_channels r) (im_nextChannel r) (im_clients r) (im_library r) (im_nextClient r) (im_activeClients r)
    (im_deniedReads r) (im_deniedWrites r) (im_denialLogsSuppressed r) (im_counters r) (im_details r) (im_log r).
Definition Impl_new : Impl :=
  {| im_channels := ∅; im_nextChannel := 0; im_clients := ∅; im_library := ∅; im_nextClient := 0; im_activeClients := 0;
     im_deniedReads := 0; im_deniedWrites := 0; im_denialLogsSuppressed := 0; im_counters := Counters_new;
     im_details := []; im_log := [] |}.

(** ** What is written *)

Definition dquote : string := String "034" EmptyString.
Definition quoted (s : string) : string := dquote +:+ s +:+ dquote.

(** [recordAudit], the line; [now] is the system clock, [value] what the
    formatter of the value writes. *)
Definition auditLine (ch : Channel) (id : Z) (o : operation) (phase result : string) (value : option (list put)) (now : Z) : string :=
  let preview := match value with Some v => auditField (valuePreview v) | None => "<omitted>" end in
  "[redis-pvxs-ioc] access audit timestamp=" +:+ auditTimestamp now +:+ " id=" +:+ to_dec id +:+ " phase=" +:+ phase +:+
  " operation=" +:+ operation_text o +:+ " pv=" +:+ quoted (auditField (ch_name ch)) +:+ " result=" +:+ result +:+
  " asg=" +:+ quoted (auditField (ch_asg ch)) +:+ " asl=" +:+ to_dec (ch_asl ch) +:+
  " user=" +:+ quoted (auditField (ch_account ch)) +:+ " peer=" +:+ quoted (auditField (ch_peer ch)) +:+
  " auth=" +:+ quoted (auditField (ch_method ch)) +:+ " value=" +:+ quoted preview.

Definition recordAudit (im : Impl) (ch : Channel) (id : Z) (o : operation) (phase result : string) (value : option (list put))
    (now : Z) : Impl :=
  im <| im_log ::= fun log => log ++ [auditLine ch id o phase result value now] |>.

(** The line of a denial. *)
Definition deniedLine (ch : Channel) (write : bool) (o : operation) (value : option (list put)) : string :=
  "[redis-pvxs-ioc] access denied phase=authorization operation=" +:+ (if write then operation_text o else "read") +:+
  " pv=" +:+ quoted (auditField (ch_name ch)) +:+ " result=denied asg=" +:+ quoted (auditField (ch_asg ch)) +:+
  " asl=" +:+ to_dec (ch_asl ch) +:+ " user=" +:+ quoted (auditField (ch_account ch)) +:+
  " peer=" +:+ quoted (auditField (ch_peer ch)) +:+ " auth=" +:+ quoted (auditField (ch_method ch)) +:+
  match value with Some v => " value=" +:+ auditField (valuePreview v) | None => "" end.

(** [recordDenied] for channel number [channel]; [ms] is the steady clock. *)
Definition recordDenied (im : Impl) (channel : Z) (ch : Channel) (write : bool) (value : option (list put)) (o : operation)
    (id now ms : Z) : Impl :=
  let im := if write then im <| im_deniedWrites ::= fun n => u64 (n + 1) |> else im <| im_deniedReads ::= fun n => u64 (n + 1) |> in
  let im := if write
            then (recordAudit im ch id o "authorization" "denied" value now)
                   <| im_counters ::= fun c => c <| ct_log ::= fun l => l ++ [ADenied id] |> |>
            else im in
  let '(stamps, emit) := AccessRights.recordDenied (ch_stamps ch) write ms in
  let im := im <| im_channels ::= <[channel := ch <| ch_stamps := stamps |>]> |> in
  if emit then im <| im_log ::= fun log => log ++ [deniedLine ch write o value] |>
  else im <| im_denialLogsSuppressed ::= fun n => u64 (n + 1) |>.

(** ** Channels *)

(** The constructor of [ChannelState]. *)
Definition Channel_new (member : Z) (asg : string) (asl : Z) (name : string) (cr : Credentials) : Channel :=
  {| ch_member := member; ch_asg := asg; ch_asl := asl; ch_name := name; ch_peer := cr_peer cr; ch_host := clientHost (cr_peer cr);
     ch_method := cr_method cr; ch_account := cr_account cr;
     ch_users := clientUsers (cr_method cr) (cr_account cr) (cr_roles cr);
     ch_clients := []; ch_stamps := {| lastDeniedReadMs := 0; lastDeniedWriteMs := 0 |}; ch_counted := false; ch_control := false |}.

(** [asAddClient] for each user; an answer is whether the status was good and
    whether a client was handed out.  Returns the clients of the library, the
    clients of the channel and whether all was well. *)
Fixpoint addClients (library : gset Z) (next : Z) (users : list string) (answers : list (bool * bool)) : gset Z * Z * list Z * bool :=
  match users, answers with
  | [], _ => (library, next, [], true)
  | _ :: users, (status, handed) :: answers =>
      let library := if handed then {[next]} ∪ library else library in
      let clients := if handed then [next] else [] in
      let next := if handed then next + 1 else next in
      if status && handed then
        let '(library, next, more, ok) := addClients library next users answers in (library, next, clients ++ more, ok)
      else (library, next, clients, false)
  | _ :: _, [] => (library, next, [], false)
  end.

(** The live ones among the weak references of a member. *)
Definition alive (im : Impl) (l : list Z) : list Z := filter (fun id => is_Some (im_channels im !! id)) l.
Definition members_clients (im : Impl) (member : Z) : list Z := default [] (im_clients im !! member).
Definition addClient (im : Impl) (member id : Z) : Impl :=
  im <| im_clients ::= <[member := alive im (members_clients im member) ++ [id]]> |>.
Definition liveClients (im : Impl) (member : Z) : Impl * list Z :=
  let live := alive im (members_clients im member) in (im <| im_clients ::= <[member := live]> |>, live).

(** [~ChannelState]. *)
Definition destroy (im : Impl) (id : Z) : Impl :=
  match im_channels im !! id with
  | Some ch =>
      let im := im <| im_library ::= fun l => l ∖ list_to_set (ch_clients ch) |> in
      let im := if ch_counted ch then im <| im_activeClients ::= fun n => u64 (n - 1) |> else im in
      im <| im_channels ::= delete id |>
  | None => im
  end.

(** [initialize] of channel number [id]; [registered] are the answers to
    [asRegisterClientCallback].  [false] is the exception. *)
Definition initialize (im : Impl) (id : Z) (ch : Channel) (answers : list (bool * bool)) (registered : list bool) : Impl * bool :=
  let '(library, next, clients, ok) := addClients (im_library im) (im_nextClient im) (ch_users ch) answers in
  let ch := ch <| ch_clients := clients |> in
  let im := im <| im_library := library |> <| im_nextClient := next |> <| im_channels ::= <[id := ch]> |> in
  if ok && bool_decide (firstn (length clients) registered = replicate (length clients) true) then
    let im := (addClient im (ch_member ch) id) <| im_activeClients ::= fun n => u64 (n + 1) |> in
    (im <| im_channels ::= <[id := ch <| ch_counted := true |>]> |>, true)
  else (im, false).

(** The constructor of [AuthorizedChannelControl]. *)
Definition attachControl (im : Impl) (id : Z) : Impl :=
  im <| im_channels ::= alter (fun ch => ch <| ch_control := true |>) id |>.

(** The wrapper of a channel; when [initialize] throws, the channel is
    destroyed. *)
Definition createChannel (im : Impl) (member : Z) (asg : string) (asl : Z) (name : string) (cr : Credentials)
    (answers : list (bool * bool)) (registered : list bool) : Impl * bool :=
  let id := im_nextChannel im in
  let ch := Channel_new member asg asl name cr in
  let '(im, ok) := initialize (im <| im_nextChannel := id + 1 |>) id ch answers registered in
  if ok then (attachControl im id, true) else (destroy im id, false).

(** [~AuthorizedChannelControl]. *)
Definition dropControl (im : Impl) (id : Z) : Impl :=
  im <| im_channels ::= alter (fun ch => ch <| ch_control := false |>) id |>.

(** ** Requests *)

(** The constructor of [AccessOperation]. *)
Definition admitOperation (im : Impl) (channel : Z) (ch : Channel) (o : operation) (trap : bool) (value : list put) (now : Z) : Impl :=
  let c := admit_op (im_counters im) trap in
  let im := im <| im_counters := c |> <| im_details ::= fun l => l ++ [{| dt_channel := channel; dt_who := ch; dt_operation := o; dt_wrapper := true |}] |> in
  if trap then recordAudit im ch (ct_authorized c) o "authorization" "allowed"
                 (match o with OpRpc => None | OpPut => Some value end) now
  else im.

(** A request on a channel, with the rights cached at that moment; the answer
    is whether it went on. *)
Definition serve (im : Impl) (channel : Z) (r : request) (rights : Z) (value : list put) (now ms : Z) : Impl * bool :=
  match im_channels im !! channel with
  | None => (im, false)
  | Some ch =>
      match r, admission rights r with
      | RPut, Deny _ => (recordDenied im channel ch true (Some value) OpPut 0 now ms, false)
      | RPut, Admit trap => (admitOperation im channel ch OpPut trap value now, true)
      | RRpc, Deny _ => (recordDenied im channel ch true None OpRpc 0 now ms, false)
      | RRpc, Admit trap => (admitOperation im channel ch OpRpc trap value now, true)
      | _, Deny _ => (recordDenied im channel ch false None OpPut 0 now ms, false)
      | _, Admit _ => (im, true)
      end
  end.

(** ** The end of an operation *)

(** [AccessOperation::finish]: the claim; [completeOperation] is the rest. *)
Definition finish (im : Impl) (id : Z) (o : outcome) : Impl := im <| im_counters ::= fun c => (claim c id o).1 |>.
Definition reply (im : Impl) (id : Z) : Impl := finish im id Success.
Definition error (im : Impl) (id : Z) : Impl := finish im id ErrorOutcome.
Definition onCancel (im : Impl) (id : Z) : Impl := finish im id Cancelled.

(** [~AuthorizedExecOp]. *)
Definition abandon (im : Impl) (id : Z) : Impl :=
  (finish im id Abandoned) <| im_details ::= alter (fun d => d <| dt_wrapper := false |>) (Z.to_nat (id - 1)) |>.

Definition outcome_text (o : outcome) : string :=
  match o with Success => "success" | ErrorOutcome => "error" | Cancelled => "cancelled" | Denied => "denied" | Abandoned => "abandoned" end.

Definition detail (im : Impl) (id : Z) : option Detail := if 1 <=? id then im_details im !! Z.to_nat (id - 1) else None.

Definition completeOperation (im : Impl) (id : Z) (now : Z) : Impl :=
  match op_at (im_counters im) id, detail im id with
  | Some op, Some d =>
      match ao_state op with
      | Claimed o =>
          let im := im <| im_counters ::= fun c => complete c id op o |> in
          if ao_trap op then recordAudit im (dt_who d) id (dt_operation d) "completion" (outcome_text o) None now else im
      | _ => im
      end
  | _, _ => im
  end.

(** An operation as a backend sees it: one of PVXS, or one wrapped here. *)
Inductive ExecOp := Native | Authorized (id : Z) (target : ExecOp).

(** [authorizeWriteDispatch] and [AuthorizedExecOp::authorized]; [rights] are
    the rights cached for each channel. *)
Definition denyDispatch (im : Impl) (id : Z) (d : Detail) (value : list put) (now ms : Z) : Impl :=
  match im_channels im !! dt_channel d with
  | Some ch =>
      let '(c, open) := claim (im_counters im) id Denied in
      let trap := match op_at c id with Some op => ao_trap op | None => false end in
      recordDenied (im <| im_counters := c |>) (dt_channel d) ch true
        (match dt_operation d with OpRpc => None | OpPut => Some value end) (dt_operation d)
        (if open && trap then id else 0) now ms
  | None => im
  end.
Fixpoint authorizeWriteDispatch (im : Impl) (op : ExecOp) (rights : Z -> Z) (value : list put) (now ms : Z) : Impl * bool :=
  match op with
  | Native => (im, true)
  | Authorized id target =>
      match detail im id with
      | None => (im, false)
      | Some d =>
          if has (rights (dt_channel d)) kWrite then authorizeWriteDispatch im target rights value now ms
          else (denyDispatch im id d value now ms, false)
      end
  end.

(** ** Runs *)

Definition unfinished (im : Impl) (id : Z) : Prop :=
  exists op, op_at (im_counters im) id = Some op /\ is_running op = true.
Definition wrapped (im : Impl) (id : Z) : Prop := exists d, detail im id = Some d /\ dt_wrapper d = true.

(** The operations that an object wraps; all of them exist. *)
Fixpoint wraps (op : ExecOp) : list Z := match op with Native => [] | Authorized id target => id :: wraps target end.

(** One call.  The [ChannelState] goes when nothing refers to it any more: not
    the channel control, no wrapped operation, and no operation that is not
    complete. *)
Inductive access_step (im : Impl) : Impl -> Prop :=
| A_create member asg asl name cr answers registered :
    access_step im (createChannel im member asg asl name cr answers registered).1
| A_drop id : access_step im (dropControl im id)
| A_destroy id ch : im_channels im !! id = Some ch -> ch_control ch = false ->
    (forall i d, detail im i = Some d -> dt_channel d = id -> dt_wrapper d = false /\ ~ unfinished im i) ->
    access_step im (destroy im id)
| A_live member : access_step im (liveClients im member).1
| A_serve channel r rights value now ms : ct_authorized (im_counters im) + 1 < 2 ^ 64 ->
    access_step im (serve im channel r rights value now ms).1
| A_reply id : wrapped im id -> access_step im (reply im id)
| A_error id : wrapped im id -> access_step im (error im id)
| A_cancel id : access_step im (onCancel im id)
| A_abandon id : access_step im (abandon im id)
| A_complete id now : access_step im (completeOperation im id now)
| A_dispatch op rights value now ms : Forall (wrapped im) (wraps op) ->
    access_step im (authorizeWriteDispatch im op rights value now ms).1.

(** ** Reading the log *)

Record Entry := {
  en_timestamp : string; en_id : string; en_phase : string; en_operation : string; en_pv : string; en_result : string;
  en_asg : string; en_asl : string; en_user : string; en_peer : string; en_auth : string; en_value : string;
}.

Definition audit_template : template :=
  [("[redis-pvxs-ioc] access audit timestamp=", " "%char); ("id=", " "%char); ("phase=", " "%char); ("operation=", " "%char);
   ("pv=" +:+ dquote, "034"%char); (" result=", " "%char); ("asg=" +:+ dquote, "034"%char); (" asl=", " "%char);
   ("user=" +:+ dquote, "034"%char); (" peer=" +:+ dquote, "034"%char); (" auth=" +:+ dquote, "034"%char);
   (" value=" +:+ dquote, "034"%char)].

(** The record in a line, if it is an audit record. *)
Definition read_audit (line : string) : option Entry :=
  fields ← scan audit_template line;
  match fields with
  | [timestamp; id; phase; operation; pv; result; asg; asl; user; peer; auth; value] =>
      Some {| en_timestamp := timestamp; en_id := id; en_phase := phase; en_operation := operation; en_pv := pv;
              en_result := result; en_asg := asg; en_asl := asl; en_user := user; en_peer := peer; en_auth := auth;
              en_value := value |}
  | _ => None
  end.

Definition entry (ch : Channel) (id : Z) (o : operation) (phase result : string) (value : option (list put)) (now : Z) : Entry :=
  {| en_timestamp := auditTimestamp now; en_id := to_dec id; en_phase := phase; en_operation := operation_text o;
     en_pv := auditField (ch_name ch); en_result := result; en_asg := auditField (ch_asg ch); en_asl := to_dec (ch_asl ch);
     en_user := auditField (ch_account ch); en_peer := auditField (ch_peer ch); en_auth := auditField (ch_method ch);
     en_value := match value with Some v => auditField (valuePreview v) | None => "<omitted>" end |}.

Lemma auditField_free stop s : unprintable stop = true -> free_of stop (auditField s) = true.
Proof.
  intros Hs. destruct (audit_text_facts s) as [_ Ha]. revert Ha. generalize (auditField s). intros t.
  induction t as [|c t IH]; [done|]. cbn [all_chars free_of]. intros [Hc Ht]%andb_true_iff. rewrite (IH Ht), andb_true_r.
  destruct (Ascii.eqb_spec c stop) as [->|]; [by rewrite Hs in Hc|done].
Qed.

(** Numbers and times hold digits and the signs of their formats only. *)
Lemma to_dec_free stop z : is_digit stop = false -> stop <> "-"%char -> free_of stop (to_dec z) = true.
Proof.
  intros Hs Hm. destruct (decide (0 <= z)) as [Hz|Hz]; [by apply digits_free; [|apply to_dec_digits]|].
  destruct z as [|p|p]; [lia|lia|]. destruct (to_dec_digits (Z.pos p) ltac:(lia)) as (_ & Hd & _).
  change (to_dec (Z.neg p)) with ("-" +:+ to_dec (Z.pos p)). rewrite free_of_app, (digits_free _ _ Hs Hd), andb_true_r.
  cbn [free_of]. destruct (Ascii.eqb_spec "-" stop) as [<-|]; done.
Qed.
Lemma padded_free stop width z : is_digit stop = false -> stop <> "-"%char -> free_of stop (padded width z) = true.
Proof.
  intros Hs Hm. unfold padded. rewrite free_of_app, to_dec_free, andb_true_r by done.
  induction (width - _)%nat as [|k IH]; [done|]. cbn [zeros]. rewrite free_of_app, IH, andb_true_r. cbn [free_of].
  destruct (Ascii.eqb_spec "0" stop) as [<-|]; done.
Qed.
Lemma stamp_free stop now : stop = " "%char \/ stop = "010"%char -> free_of stop (auditTimestamp now) = true.
Proof.
  intros Hs. unfold auditTimestamp, put_time. rewrite !free_of_app, to_dec_free by (by destruct Hs as [->| ->]).
  rewrite !padded_free by (by destruct Hs as [->| ->]). by destruct Hs as [->| ->].
Qed.

(** An audit line reads back as the record it was made from. *)
Lemma read_auditLine ch id o phase result value now :
  free_of " " phase = true -> free_of " " result = true ->
  read_audit (auditLine ch id o phase result value now) = Some (entry ch id o phase result value now).
Proof.
  intros Hp Hr. set (e := entry ch id o phase result value now).
  assert (auditLine ch id o phase result value now = render audit_template
    [en_timestamp e; en_id e; en_phase e; en_operation e; en_pv e; en_result e; en_asg e; en_asl e; en_user e; en_peer e; en_auth e; en_value e]) as ->.
  { unfold auditLine, quoted. cbn [render audit_template]. rewrite <-!str_app_assoc. reflexivity. }
  unfold read_audit. rewrite scan_render; [done|]. unfold audit_template.
  repeat constructor; cbn [snd e entry en_timestamp en_id en_phase en_operation en_pv en_result en_asg en_asl en_user en_peer en_auth en_value];
    try (by apply auditField_free); try (by apply to_dec_free); try done; [by apply stamp_free; left|by destruct o|].
  destruct value; [by apply auditField_free|done].
Qed.

Lemma read_deniedLine ch write o value : read_audit (deniedLine ch write o value) = None.
Proof. reflexivity. Qed.

(** Every line is one line. *)
Lemma auditLine_single ch id o phase result value now :
  free_of "010" phase = true -> free_of "010" result = true -> free_of "010" (auditLine ch id o phase result value now) = true.
Proof.
  intros Hp Hr. unfold auditLine, quoted. rewrite !free_of_app, stamp_free, !to_dec_free, !auditField_free, Hp, Hr by (done || by right).
  destruct value; [rewrite auditField_free by done|]; by destruct o.
Qed.
Lemma deniedLine_single ch write o value : free_of "010" (deniedLine ch write o value) = true.
Proof.
  unfold deniedLine, quoted. rewrite !free_of_app, !to_dec_free, !auditField_free by done.
  destruct value; [rewrite free_of_app, auditField_free by done|]; by destruct write, o.
Qed.
