(* ===== verification/AccessAuditSpec.v ===== *)
(** * What the audit trail tells

    The guarantees of AccessAudit, for every sequence of calls on secured
    channels: the log reads back as the records of every audited operation, in
    order and with who did it, and denials are counted as they are recorded; the
    channels that live are those that are counted, listed and known to the
    access library, and nothing of a channel is left behind when it is gone. *)

From S2P Require Import Prelude.
From S2P Require Import StrMap.
From S2P Require Import AccessRights.
From S2P Require Import UtcTime.
From S2P Require Import AccessAudit.
From Stdlib Require Import Ascii.

Local Open Scope string_scope.
Local Open Scope list_scope.
Local Open Scope Z_scope.

(** ** The records of one operation *)

Definition audit_id (a : audit) : Z := match a with AAllowed id | ADenied id | ACompletion id _ => id end.
Definition of_id (id : Z) (l : list audit) : list audit := filter (fun a => audit_id a = id) l.

(** What is recorded of an audited operation, as far as it has got. *)
Definition story (id : Z) (op : AccessOperation) : list audit :=
  if ao_trap op then
    AAllowed id :: match ao_state op with
                   | Open => []
                   | Claimed Denied => [ADenied id]
                   | Claimed _ => []
                   | Complete Denied => [ADenied id; ACompletion id Denied]
                   | Complete o => [ACompletion id o]
                   end
  else [].
Definition told (c : Counters) (id : Z) : list audit := match op_at c id with Some op => story id op | None => [] end.

Lemma of_id_snoc id l a : of_id id (l ++ [a]) = of_id id l ++ if decide (audit_id a = id) then [a] else [].
Proof. unfold of_id. rewrite filter_app, filter_cons, filter_nil. by case_decide. Qed.

Section Told.
Context (c : Counters) (id : Z) (Hid : 1 <= id) (IH : of_id id (ct_log c) = told c id).

Lemma told_admit trap : account_inv c -> ct_authorized c + 1 < 2 ^ 64 ->
  of_id id (ct_log (admit_op c trap)) = told (admit_op c trap) id.
Proof.
  intros [Hn Hr _ _ _ _] Hlt. assert (Hu : u64 (ct_authorized c + 1) = ct_authorized c + 1) by (apply u64_id; lia).
  unfold told, admit_op, op_at in *. cbn [ct_log ct_ops field_update Counters_eta]. rewrite Hu.
  rewrite (proj2 (Z.leb_le 1 id) Hid) in *.
  assert (Hlog : of_id id (if trap then ct_log c ++ [AAllowed (ct_authorized c + 1)] else ct_log c) =
    of_id id (ct_log c) ++ if decide (ct_authorized c + 1 = id) then if trap then [AAllowed id] else [] else []).
  { destruct trap; [rewrite of_id_snoc; cbn [audit_id]; by case_decide; subst|case_decide; symmetry; apply app_nil_r]. }
  rewrite Hlog, IH. destruct (decide (ct_authorized c + 1 = id)) as [E|E].
  - rewrite (lookup_ge_None_2 (ct_ops c)) by lia. rewrite lookup_app_r by lia. replace (_ - length _)%nat with 0%nat by lia. by destruct trap.
  - rewrite app_nil_r. destruct (decide (id - 1 < ct_authorized c)); [by rewrite lookup_app_l by lia|].
    rewrite !lookup_ge_None_2; [done|rewrite length_app; cbn; lia|lia].
Qed.

Lemma told_claim i o : o <> Denied -> of_id id (ct_log (claim c i o).1) = told (claim c i o).1 id.
Proof.
  intros Ho. unfold claim in *. destruct (op_at c i) as [op|] eqn:Hop; [|done]. destruct (ao_state op) eqn:Hst; [|done..].
  cbn [fst]. unfold told. rewrite (op_at_set _ _ _ _ _ Hop). transitivity (told c id); [exact IH|]. unfold told.
  case_decide; subst; [|done]. rewrite Hop. unfold story. cbn [ao_trap ao_state]. rewrite Hst. by destruct (ao_trap op), o.
Qed.

Lemma told_unnamed : of_id id (ct_log c ++ [ADenied 0]) = told c id.
Proof. rewrite of_id_snoc, IH. cbn [audit_id]. rewrite decide_False by lia. apply app_nil_r. Qed.

Lemma told_refuse i : of_id id (ct_log (refuse c i)) = told (refuse c i) id.
Proof.
  unfold refuse, claim. destruct (op_at c i) as [op|] eqn:Hop; [|rewrite Hop; apply told_unnamed].
  destruct (ao_state op) eqn:Hst; [|apply told_unnamed..].
  set (op' := {| ao_trap := ao_trap op; ao_state := Claimed Denied |}). set (c1 := set_op c i op').
  assert (Hat : forall j, op_at c1 j = if decide (j = i) then Some op' else op_at c j) by (intros j; by apply (op_at_set c i op)).
  rewrite Hat, decide_True by done. cbn [ao_trap op' andb].
  transitivity (of_id id (ct_log c ++ [ADenied (if ao_trap op then i else 0)])); [done|].
  transitivity (told c1 id); [|done]. rewrite of_id_snoc, IH. unfold told. rewrite Hat. cbn [audit_id].
  destruct (op_at_index _ _ _ Hop) as [Hi1 _]. destruct (decide (id = i)) as [->|Hne].
  - rewrite Hop. unfold story. cbn [ao_trap ao_state op']. rewrite Hst. destruct (ao_trap op); [by rewrite decide_True|by rewrite decide_False by lia].
  - rewrite decide_False by (destruct (ao_trap op); lia). by rewrite app_nil_r.
Qed.

Lemma told_complete i op o : op_at c i = Some op -> ao_state op = Claimed o ->
  of_id id (ct_log (complete c i op o)) = told (complete c i op o) id.
Proof.
  intros Hop Hst. unfold told, complete. set (c1 := set_op _ _ _).
  assert (Hat : op_at c1 id = if decide (id = i) then Some {| ao_trap := ao_trap op; ao_state := Complete o |} else op_at c id)
    by (unfold c1; by rewrite (op_at_set _ _ op)).
  assert (Hop' : forall c2, ct_ops c2 = ct_ops c1 -> op_at c2 id = op_at c1 id) by (intros c2 E; unfold op_at; by rewrite E).
  transitivity (of_id id (if ao_trap op then ct_log c ++ [ACompletion i o] else ct_log c)); [by destruct o, (ao_trap op)|].
  rewrite Hop', Hat by (by destruct o, (ao_trap op)).
  assert (of_id id (if ao_trap op then ct_log c ++ [ACompletion i o] else ct_log c) =
    told c id ++ if decide (i = id) then if ao_trap op then [ACompletion i o] else [] else []) as ->.
  { rewrite <-IH. destruct (ao_trap op); [rewrite of_id_snoc; cbn [audit_id]; by case_decide|destruct (decide (i = id)); symmetry; apply app_nil_r]. }
  unfold told. destruct (decide (id = i)) as [->|Hne].
  - rewrite decide_True, Hop by done. unfold story. cbn [ao_trap ao_state]. rewrite Hst. by destruct (ao_trap op), o.
  - rewrite decide_False by done. by rewrite app_nil_r.
Qed.
End Told.

Lemma told_reachable c id : rtc account_step Counters_new c -> 1 <= id -> of_id id (ct_log c) = told c id.
Proof.
  intros Hs Hid. revert c Hs. apply (rtc_ind_r (fun c => of_id id (ct_log c) = told c id)).
  - unfold told, op_at. by destruct (_ <=? _).
  - intros y z Hxy Hyz IH. pose proof (account_reachable y Hxy).
    destruct Hyz; [by apply told_admit|by apply told_claim|by apply told_refuse|by apply told_complete].
Qed.

(** ** The log tells the records *)

(** Who uses a channel, and what an operation is. *)
Definition identity (ch : Channel) : string * string * string * string * string * Z :=
  (ch_name ch, ch_account ch, ch_peer ch, ch_method ch, ch_asg ch, ch_asl ch).
Definition subject (d : Detail) : (string * string * string * string * string * Z) * operation := (identity (dt_who d), dt_operation d).

Definition about (s : (string * string * string * string * string * Z) * operation) (e : Entry) : Prop :=
  let '(name, account, peer, method, asg, asl, o) := s in
  en_pv e = auditField name /\ en_user e = auditField account /\ en_peer e = auditField peer /\ en_auth e = auditField method /\
  en_asg e = auditField asg /\ en_asl e = to_dec asl /\ en_operation e = operation_text o.

Definition phase_of (a : audit) : string := match a with ACompletion _ _ => "completion" | _ => "authorization" end.
Definition result_of (a : audit) : string :=
  match a with AAllowed _ => "allowed" | ADenied _ => "denied" | ACompletion _ o => outcome_text o end.

(** A record in text stands for a record; one with a number is about the
    operation with that number. *)
Definition tells (ds : list Detail) (e : Entry) (a : audit) : Prop :=
  en_id e = to_dec (audit_id a) /\ en_phase e = phase_of a /\ en_result e = result_of a /\ 0 <= audit_id a /\
  (1 <= audit_id a -> exists s, (subject <$> ds) !! Z.to_nat (audit_id a - 1) = Some s /\ about s e).

Lemma tells_entry ds ch a o value now :
  0 <= audit_id a ->
  (1 <= audit_id a -> (subject <$> ds) !! Z.to_nat (audit_id a - 1) = Some (identity ch, o)) ->
  tells ds (entry ch (audit_id a) o (phase_of a) (result_of a) value now) a.
Proof. intros H0 H. split_and!; [done..|]. intros H1. eexists. split; [by apply H|done]. Qed.
Lemma tells_more ds ds' e a : (subject <$> ds) `prefix_of` (subject <$> ds') -> tells ds e a -> tells ds' e a.
Proof.
  intros [more Hp] (H1 & H2 & H3 & H4 & H5). split_and!; [done..|]. intros H. destruct (H5 H) as (s & Hs & He). exists s. split; [|done].
  rewrite Hp. by apply lookup_app_l_Some.
Qed.

Record trail (im : Impl) : Prop := {
  tr_account : rtc account_step Counters_new (im_counters im);
  tr_length : length (im_details im) = length (ct_ops (im_counters im));
  tr_read : Forall2 (tells (im_details im)) (omap read_audit (im_log im)) (ct_log (im_counters im));
  tr_single : Forall (fun line => free_of "010" line = true) (im_log im);
}.

(** How the parts of a trail change: nothing is written, a line that is no
    record, a line for a record. *)
Section Trail.
Context (im im' : Impl) (Ht : trail im).
Context (Hds : (subject <$> im_details im) `prefix_of` (subject <$> im_details im'))
        (Hlen : length (im_details im') = length (ct_ops (im_counters im')))
        (Hacc : rtc account_step (im_counters im) (im_counters im')).

Lemma trail_silent : im_log im' = im_log im -> ct_log (im_counters im') = ct_log (im_counters im) -> trail im'.
Proof.
  intros Hl Hc. destruct Ht as [T1 T2 T3 T4]. split; [by etransitivity|done| |by rewrite Hl].
  rewrite Hl, Hc. eapply Forall2_impl; [exact T3|]. intros. by eapply tells_more.
Qed.
Lemma trail_record a ch o value now :
  im_log im' = im_log im ++ [auditLine ch (audit_id a) o (phase_of a) (result_of a) value now] ->
  ct_log (im_counters im') = ct_log (im_counters im) ++ [a] -> 0 <= audit_id a ->
  (1 <= audit_id a -> (subject <$> im_details im') !! Z.to_nat (audit_id a - 1) = Some (identity ch, o)) -> trail im'.
Proof.
  intros Hl Hc H0 H1. destruct Ht as [T1 T2 T3 T4].
  assert (Hp : forall stop, stop = " "%char \/ stop = "010"%char -> free_of stop (phase_of a) = true /\ free_of stop (result_of a) = true)
    by (intros stop [->| ->]; by destruct a as [| |? []]).
  split; [by etransitivity|done| |].
  - rewrite Hl, Hc, omap_app. cbn [omap list_omap]. rewrite read_auditLine by (by apply Hp; left).
    apply Forall2_app; [eapply Forall2_impl; [exact T3|]; intros; by eapply tells_more|]. constructor; [by apply tells_entry|done].
  - rewrite Hl. apply Forall_app. split; [done|]. constructor; [|done]. by apply auditLine_single; apply Hp; right.
Qed.
End Trail.

Lemma trail_other im line : trail im -> read_audit line = None -> free_of "010" line = true ->
  trail (im <| im_log ::= fun log => log ++ [line] |>).
Proof.
  intros [T1 T2 T3 T4] Hr Hf. split; [done|done| |].
  - cbn [im_log field_update Impl_eta im_details im_counters]. rewrite omap_app. cbn [omap list_omap]. rewrite Hr. by rewrite app_nil_r.
  - cbn [im_log field_update Impl_eta]. apply Forall_app. split; [done|]. by constructor.
Qed.

(** A trail does not depend on the channels. *)
Lemma trail_same im im' : trail im -> im_counters im' = im_counters im -> im_details im' = im_details im -> im_log im' = im_log im -> trail im'.
Proof. intros [] E1 E2 E3. split; by rewrite ?E1, ?E2, ?E3. Qed.

Lemma trail_emit im channel ch stamps (emit write : bool) o value :
  trail im ->
  trail (let im := im <| im_channels ::= <[channel := ch <| ch_stamps := stamps |>]> |> in
         if emit then im <| im_log ::= fun log => log ++ [deniedLine ch write o value] |>
         else im <| im_denialLogsSuppressed ::= fun n => u64 (n + 1) |>).
Proof.
  intros Ht. cbn zeta. destruct emit; [|by apply (trail_same im)].
  apply trail_other; [by apply (trail_same im)|apply read_deniedLine|apply deniedLine_single].
Qed.

Lemma trail_deniedRead im channel ch value o id now ms :
  trail im -> trail (recordDenied im channel ch false value o id now ms).
Proof.
  intros Ht. unfold recordDenied. destruct (AccessRights.recordDenied _ _ _) as [stamps emit].
  apply trail_emit. by apply (trail_same im).
Qed.

Lemma trail_deniedWrite im c channel ch value o id now ms :
  trail im -> rtc account_step (im_counters im) (c <| ct_log ::= fun l => l ++ [ADenied id] |>) ->
  ct_log c = ct_log (im_counters im) -> length (ct_ops c) = length (ct_ops (im_counters im)) -> 0 <= id ->
  (1 <= id -> (subject <$> im_details im) !! Z.to_nat (id - 1) = Some (identity ch, o)) ->
  trail (recordDenied (im <| im_counters := c |>) channel ch true value o id now ms).
Proof.
  intros Ht Hacc Hlog Hlen H0 H1. unfold recordDenied. destruct (AccessRights.recordDenied _ _ _) as [stamps emit].
  apply trail_emit. apply (trail_record im _ Ht) with (ADenied id) ch o value now; cbn; try done.
  - by rewrite (tr_length _ Ht), Hlen.
  - by rewrite Hlog.
Qed.

Lemma detail_lookup im id d : detail im id = Some d -> 1 <= id /\ im_details im !! Z.to_nat (id - 1) = Some d.
Proof. unfold detail. destruct (Z.leb_spec 1 id); [by split|done]. Qed.
Lemma trail_detail im id op : trail im -> op_at (im_counters im) id = Some op -> exists d, detail im id = Some d.
Proof.
  intros Ht [H1 Hl]%op_at_index. unfold detail. rewrite (proj2 (Z.leb_le 1 id) H1). apply lookup_lt_is_Some.
  rewrite (tr_length _ Ht). by apply lookup_lt_Some in Hl.
Qed.

Lemma trail_admit im channel ch o trap value now :
  trail im -> ct_authorized (im_counters im) + 1 < 2 ^ 64 -> trail (admitOperation im channel ch o trap value now).
Proof.
  intros Ht Hlt. pose proof (account_reachable _ (tr_account _ Ht)) as [Hn Hr _ _ _ _].
  assert (Hu : u64 (ct_authorized (im_counters im) + 1) = ct_authorized (im_counters im) + 1) by (apply u64_id; lia).
  assert (Hacc : rtc account_step (im_counters im) (admit_op (im_counters im) trap)) by (by apply rtc_once, K_admit).
  unfold admitOperation. destruct trap.
  - apply (trail_record im _ Ht) with (AAllowed (ct_authorized (im_counters im) + 1)) ch o (match o with OpRpc => None | OpPut => Some value end) now;
      cbn -[Z.add fmap list_fmap]; rewrite ?Hu; try done.
    + rewrite fmap_app. by eexists.
    + rewrite !length_app. cbn. by rewrite (tr_length _ Ht).
    + lia.
    + intros _. rewrite fmap_app, lookup_app_r; rewrite length_fmap, (tr_length _ Ht); [|lia].
      replace (_ - _)%nat with 0%nat by lia. done.
  - apply (trail_silent im _ Ht); cbn -[fmap list_fmap]; try done.
    + rewrite fmap_app. by eexists.
    + rewrite !length_app. cbn. by rewrite (tr_length _ Ht).
Qed.

Lemma claim_ops c id o : length (ct_ops (claim c id o).1) = length (ct_ops c).
Proof. unfold claim. destruct (op_at c id) as [op|]; [|done]. destruct (ao_state op); [|done..]. cbn. apply length_insert. Qed.
Lemma claim_log c id o : ct_log (claim c id o).1 = ct_log c.
Proof. unfold claim. destruct (op_at c id) as [op|]; [|done]. by destruct (ao_state op). Qed.

Lemma trail_finish im id o : o <> Denied -> trail im -> trail (finish im id o).
Proof.
  intros Ho Ht. apply (trail_silent im _ Ht); cbn; [done| | |done|apply claim_log].
  - by rewrite claim_ops, (tr_length _ Ht).
  - destruct (claim (im_counters im) id o) as [c won] eqn:E. destruct won.
    + apply rtc_once. replace c with (claim (im_counters im) id o).1 by by rewrite E. apply K_claim; [by rewrite E|done].
    + unfold claim in E. destruct (op_at _ id) as [op|]; [destruct (ao_state op)|]; by simplify_eq.
Qed.

Lemma trail_abandon im id : trail im -> trail (abandon im id).
Proof.
  intros Ht%(trail_finish im id Abandoned); [|done]. unfold abandon. set (im1 := finish im id Abandoned) in *.
  assert (Hs : subject <$> alter (fun d => d <| dt_wrapper := false |>) (Z.to_nat (id - 1)) (im_details im) = subject <$> im_details im).
  { rewrite (list_fmap_alter _ _ (fun s => s)); [|by apply Forall_true]. by apply list_alter_id. }
  apply (trail_silent im1 _ Ht); [|etransitivity; [apply length_alter|exact (tr_length _ Ht)]|done..].
  exists []. rewrite app_nil_r. exact Hs.
Qed.

Lemma trail_complete im id now : trail im -> trail (completeOperation im id now).
Proof.
  intros Ht. unfold completeOperation. destruct (op_at _ id) as [op|] eqn:Hop; [|done]. destruct (detail im id) as [d|] eqn:Hd; [|done].
  destruct (ao_state op) as [|o|o] eqn:Hst; [done| |done]. apply detail_lookup in Hd as [H1 Hd].
  assert (Hacc : rtc account_step (im_counters im) (complete (im_counters im) id op o)) by (by apply rtc_once, K_complete).
  assert (Hops : length (ct_ops (complete (im_counters im) id op o)) = length (ct_ops (im_counters im)))
    by (unfold complete, set_op; destruct o, (ao_trap op); cbn; apply length_insert).
  assert (Hlog : ct_log (complete (im_counters im) id op o) =
    ct_log (im_counters im) ++ if ao_trap op then [ACompletion id o] else [])
    by (unfold complete; destruct o, (ao_trap op); cbn; by rewrite ?app_nil_r).
  destruct (ao_trap op).
  - apply (trail_record im _ Ht) with (ACompletion id o) (dt_who d) (dt_operation d) None now; cbn -[fmap list_fmap complete]; try done.
    + by rewrite Hops, (tr_length _ Ht).
    + lia.
    + intros _. by rewrite list_lookup_fmap, Hd.
  - apply (trail_silent im _ Ht); cbn -[complete]; [done| |done|done|]; [by rewrite Hops, (tr_length _ Ht)|by rewrite Hlog, app_nil_r].
Qed.

(** ** Channels *)

(** The channels that live and what belongs to them: the count, a client of the
    library for each user, and the place among the clients of the member. *)
Record channels_ok (im : Impl) : Prop := {
  co_active : im_activeClients im = u64 (Z.of_nat (size (im_channels im)));
  co_each : forall id ch, im_channels im !! id = Some ch ->
    id < im_nextChannel im /\ ch_counted ch = true /\ length (ch_clients ch) = length (ch_users ch);
  co_library : forall h, h ∈ im_library im <-> exists id ch, im_channels im !! id = Some ch /\ h ∈ ch_clients ch;
  co_apart : forall i j a b h, im_channels im !! i = Some a -> im_channels im !! j = Some b ->
    h ∈ ch_clients a -> h ∈ ch_clients b -> i = j;
  co_fresh : forall h, h ∈ im_library im -> h < im_nextClient im;
  co_members : forall m id, id ∈ members_clients im m -> id < im_nextChannel im /\
    forall ch, im_channels im !! id = Some ch -> ch_member ch = m;
  co_listed : forall id ch, im_channels im !! id = Some ch -> id ∈ members_clients im (ch_member ch);
  co_once : forall m, NoDup (members_clients im m);
}.

(** A channel stays as long as it is used. *)
Definition held (im : Impl) : Prop := forall i d, detail im i = Some d -> dt_wrapper d = true \/ unfinished im i ->
  exists ch, im_channels im !! dt_channel d = Some ch /\ identity ch = identity (dt_who d).

Lemma held_mono im im' :
  held im ->
  (forall i d', detail im' i = Some d' -> dt_wrapper d' = true \/ unfinished im' i ->
     exists d, detail im i = Some d /\ dt_channel d = dt_channel d' /\ dt_who d = dt_who d' /\ (dt_wrapper d = true \/ unfinished im i)) ->
  (forall i d ch, detail im i = Some d -> dt_wrapper d = true \/ unfinished im i -> im_channels im !! dt_channel d = Some ch ->
     exists ch', im_channels im' !! dt_channel d = Some ch' /\ identity ch' = identity ch) -> held im'.
Proof.
  intros Hh Hd Hc i d' Hd' Hu. destruct (Hd i d' Hd' Hu) as (d & E & Echan & Ewho & Hu0). destruct (Hh i d E Hu0) as (ch & Hch & Hid).
  destruct (Hc i d ch E Hu0 Hch) as (ch' & Hch' & Hid'). exists ch'. by rewrite <-Echan, <-Ewho, Hid'.
Qed.

(** Clients of the library. *)
Lemma addClients_spec users answers library next library' next' clients ok :
  addClients library next users answers = (library', next', clients, ok) ->
  next <= next' /\ (forall h, h ∈ clients <-> next <= h < next') /\ (forall h, h ∈ library' <-> h ∈ library \/ h ∈ clients) /\
  (ok = true -> length clients = length users).
Proof.
  revert answers library next library' next' clients ok. induction users as [|user users IH]; intros answers library next library' next' clients ok H.
  { cbn in H. simplify_eq. split_and!; [lia|intros h; split; [set_solver|lia]|set_solver|done]. }
  destruct answers as [|[status handed] answers]; cbn in H.
  { simplify_eq. split_and!; [lia|intros h; split; [set_solver|lia]|set_solver|done]. }
  destruct (status && handed) eqn:E.
  - apply andb_true_iff in E as [-> ->]. destruct (addClients ({[next]} ∪ library) (next + 1) users answers) as [[[l n] more] k] eqn:Hrec.
    simplify_eq. destruct (IH _ _ _ _ _ _ _ Hrec) as (H1 & H2 & H3 & H4). split_and!; [lia| | |].
    + intros h. cbn. rewrite elem_of_cons, H2. lia.
    + intros h. cbn. rewrite elem_of_cons, H3. set_solver.
    + intros Hk. cbn. by rewrite (H4 Hk).
  - simplify_eq. destruct handed; (split_and!; [lia| | |done]); intros h.
    + rewrite list_elem_of_singleton. lia.
    + set_solver.
    + split; [set_solver|lia].
    + set_solver.
Qed.

Lemma alive_elem im l id : id ∈ alive im l <-> id ∈ l /\ is_Some (im_channels im !! id).
Proof. unfold alive. rewrite list_elem_of_filter. naive_solver. Qed.
Lemma members_insert im m l m' :
  default [] (<[m := l]> (im_clients im) !! m') = if decide (m' = m) then l else members_clients im m'.
Proof. unfold members_clients. case_decide; subst; [by rewrite lookup_insert_eq|by rewrite lookup_insert_ne]. Qed.

Lemma channels_grow im im' :
  channels_ok im -> im_channels im' = im_channels im -> im_nextChannel im <= im_nextChannel im' -> im_clients im' = im_clients im ->
  im_library im' = im_library im -> im_nextClient im <= im_nextClient im' -> im_activeClients im' = im_activeClients im -> channels_ok im'.
Proof.
  intros [H1 H2 H3 H4 H5 H6 H7 H8] E1 E2 E3 E4 E5 E6. unfold members_clients in *.
  split; unfold members_clients; rewrite ?E1, ?E3, ?E4, ?E6; try done.
  - intros id ch Hch. destruct (H2 id ch Hch) as (? & ? & ?). split_and!; [lia|done|done].
  - intros h Hh. specialize (H5 h Hh). lia.
  - intros m id Hi. destruct (H6 m id Hi). split; [lia|done].
Qed.

(** The data of a channel that the bookkeeping depends on. *)
Definition holdings (ch : Channel) : Z * list string * list Z * bool := (ch_member ch, ch_users ch, ch_clients ch, ch_counted ch).

Lemma channels_update im id ch ch' :
  channels_ok im -> im_channels im !! id = Some ch -> holdings ch' = holdings ch ->
  channels_ok (im <| im_channels ::= <[id := ch']> |>).
Proof.
  intros [H1 H2 H3 H4 H5 H6 H7 H8] Hch Hh. unfold holdings in Hh. injection Hh as Em Eu Ec En.
  assert (Hlk : forall i x, <[id := ch']> (im_channels im) !! i = Some x -> exists y, im_channels im !! i = Some y /\
    ch_member x = ch_member y /\ ch_users x = ch_users y /\ ch_clients x = ch_clients y /\ ch_counted x = ch_counted y).
  { intros i x. destruct (decide (i = id)) as [->|]; [rewrite lookup_insert_eq|rewrite lookup_insert_ne by done]; naive_solver. }
  assert (Hkl : forall i y, im_channels im !! i = Some y -> exists x, <[id := ch']> (im_channels im) !! i = Some x /\
    ch_clients x = ch_clients y).
  { intros i y. destruct (decide (i = id)) as [->|]; [rewrite lookup_insert_eq|rewrite lookup_insert_ne by done]; naive_solver. }
  split; cbn [im_activeClients im_channels im_nextChannel im_library im_nextClient field_update Impl_eta].
  - rewrite map_size_insert_Some by done. done.
  - intros i x Hx. destruct (Hlk i x Hx) as (y & Hy & E1 & E2 & E3 & E4). rewrite E2, E3, E4. by apply H2.
  - intros h. rewrite H3. split.
    + intros (i & y & Hy & Hh). destruct (Hkl i y Hy) as (x & Hx & E). exists i, x. by rewrite E.
    + intros (i & x & Hx & Hh). destruct (Hlk i x Hx) as (y & Hy & _ & _ & E & _). exists i, y. by rewrite <-E.
  - intros i j a b h Ha Hb Hha Hhb. destruct (Hlk i a Ha) as (a' & Ha' & _ & _ & E1 & _). destruct (Hlk j b Hb) as (b' & Hb' & _ & _ & E2 & _).
    rewrite E1 in Hha. rewrite E2 in Hhb. by eapply H4.
  - done.
  - intros m i Hi. destruct (H6 m i Hi) as [Hlt Hm]. split; [done|]. intros x Hx. destruct (Hlk i x Hx) as (y & Hy & E & _). rewrite E. by apply Hm.
  - intros i x Hx. destruct (Hlk i x Hx) as (y & Hy & E & _). rewrite E. by apply (H7 i y).
  - done.
Qed.

Lemma channels_destroy im id ch : channels_ok im -> im_channels im !! id = Some ch -> channels_ok (destroy im id).
Proof.
  intros [H1 H2 H3 H4 H5 H6 H7 H8] Hch. unfold destroy. rewrite Hch. destruct (H2 _ _ Hch) as (_ & Hc & _). rewrite Hc.
  assert (Hlk : forall i x, delete id (im_channels im) !! i = Some x -> i <> id /\ im_channels im !! i = Some x)
    by (intros i x [? ?]%lookup_delete_Some; by split).
  split; cbn [im_activeClients im_channels im_nextChannel im_library im_nextClient field_update Impl_eta].
  - rewrite map_size_delete_Some by done. rewrite H1. unfold u64. rewrite Zminus_mod_idemp_l. f_equal.
    assert (size (im_channels im) <> 0)%nat by (by apply (map_size_ne_0_lookup_2 _ id)). lia.
  - intros i x [_ Hx]%Hlk. by apply H2.
  - intros h. rewrite elem_of_difference, elem_of_list_to_set, H3. split.
    + intros [(i & x & Hx & Hh) Hn]. exists i, x. split; [|done]. apply lookup_delete_Some. split; [|done]. intros ->. naive_solver.
    + intros (i & x & [Hne Hx]%Hlk & Hh). split; [by exists i, x|]. intros Hh'. apply Hne. by apply (H4 i id x ch h).
  - intros i j a b h [_ Ha]%Hlk [_ Hb]%Hlk. by apply H4.
  - intros h [Hh _]%elem_of_difference. by apply H5.
  - intros m i Hi. destruct (H6 m i Hi) as [Hlt Hm]. split; [done|]. intros x [_ Hx]%Hlk. by apply Hm.
  - intros i x [_ Hx]%Hlk. by apply (H7 i x).
  - done.
Qed.

Lemma channels_live im m : channels_ok im -> channels_ok (liveClients im m).1.
Proof.
  intros [H1 H2 H3 H4 H5 H6 H7 H8]. unfold liveClients. cbn [fst].
  assert (Hm : forall m', members_clients (im <| im_clients ::= <[m := alive im (members_clients im m)]> |>) m' =
    if decide (m' = m) then alive im (members_clients im m) else members_clients im m') by (intros; apply members_insert).
  split; cbn [im_activeClients im_channels im_nextChannel im_library im_nextClient field_update Impl_eta]; try done.
  - intros m' i. rewrite Hm. case_decide; subst; [rewrite alive_elem; intros [Hi _]; by apply H6|apply H6].
  - intros i x Hx. rewrite Hm. case_decide as E; [|by apply (H7 i x)]. apply alive_elem. rewrite <-E. split; [by apply (H7 i x)|by eexists].
  - intros m'. rewrite Hm. case_decide; [apply NoDup_filter|]; apply H8.
Qed.

Lemma filter_same {A} (P Q : A -> Prop) `{!forall x, Decision (P x)} `{!forall x, Decision (Q x)} (l : list A) :
  (forall x, x ∈ l -> P x <-> Q x) -> filter P l = filter Q l.
Proof.
  induction l as [|x l IH]; intros Hl; [done|]. rewrite !filter_cons. rewrite IH by (intros y Hy; apply Hl; by right).
  specialize (Hl x (list_elem_of_here _ _)). repeat case_decide; naive_solver.
Qed.

(** A new channel that is counted and listed and has its clients. *)
Lemma channels_add im im' ch (library : gset Z) next :
  let n := im_nextChannel im in
  channels_ok im -> ch_counted ch = true -> length (ch_clients ch) = length (ch_users ch) ->
  im_nextClient im <= next -> (forall h, h ∈ ch_clients ch <-> im_nextClient im <= h < next) ->
  (forall h, h ∈ library <-> h ∈ im_library im \/ h ∈ ch_clients ch) ->
  im_channels im' = <[n := ch]> (im_channels im) -> im_nextChannel im' = n + 1 -> im_library im' = library ->
  im_nextClient im' = next -> im_activeClients im' = u64 (im_activeClients im + 1) ->
  (forall m, members_clients im' m =
     if decide (m = ch_member ch) then alive im (members_clients im m) ++ [n] else members_clients im m) ->
  channels_ok im'.
Proof.
  intros n [H1 H2 H3 H4 H5 H6 H7 H8] Hc Hlen A1 A2 A3 E1 E2 E3 E4 E5 Hm.
  assert (Hn : forall i x, im_channels im !! i = Some x -> i < n) by (intros i x Hx; by destruct (H2 _ _ Hx)).
  assert (Hnew : forall i x h, im_channels im !! i = Some x -> h ∈ ch_clients x -> h ∉ ch_clients ch).
  { intros i x h Hx Hh Hl. apply A2 in Hl. assert (h ∈ im_library im) as Hb%H5 by (apply H3; by exists i, x). lia. }
  assert (Hlk : forall i x, im_channels im' !! i = Some x <-> i = n /\ x = ch \/ im_channels im !! i = Some x).
  { intros i x. rewrite E1, lookup_insert_Some. split; [naive_solver|]. intros [[-> ->]|Hx]; [by left|right; split; [|done]].
    intros E. specialize (Hn i x Hx). lia. }
  split; rewrite ?E2, ?E3, ?E4, ?E5.
  - rewrite E1, map_size_insert_None by (apply eq_None_not_Some; intros [x Hx]; specialize (Hn n x Hx); lia).
    rewrite H1. unfold u64. rewrite Zplus_mod_idemp_l. f_equal. lia.
  - intros i x [[-> ->]|Hx]%Hlk; [split_and!; [lia|done|done]|]. destruct (H2 _ _ Hx) as (? & ? & ?). split_and!; [lia|done|done].
  - intros h. rewrite A3, H3. setoid_rewrite Hlk. split; [intros [(i & x & Hx & Hh)|Hh]; [exists i, x; naive_solver|exists n, ch; naive_solver]|].
    intros (i & x & [[-> ->]|Hx] & Hh); [by right|left; by exists i, x].
  - intros i j a b h [[-> ->]|Ha]%Hlk [[-> ->]|Hb]%Hlk Hha Hhb; [done|by destruct (Hnew j b h)|by destruct (Hnew i a h)|by eapply H4].
  - intros h. rewrite A3. intros [Hh|Hh]; [specialize (H5 h Hh); lia|by apply A2].
  - intros m i. rewrite Hm. intros Hi. assert (Hcase : i ∈ members_clients im m \/ i = n /\ m = ch_member ch).
    { case_decide; subst; [|by left]. apply elem_of_app in Hi as [[Hi _]%alive_elem|Hi%list_elem_of_singleton]; naive_solver. }
    destruct Hcase as [[Hlt Hmm]%H6|[-> ->]]; (split; [lia|]); intros x [[? ->]|Hx]%Hlk; [lia|by apply Hmm|done|]. specialize (Hn n x Hx). lia.
  - intros i x [[-> ->]|Hx]%Hlk; rewrite Hm; [rewrite decide_True by done; set_solver|].
    case_decide; [|by apply (H7 i x)]. apply elem_of_app. left. apply alive_elem. split; [by apply (H7 i x)|by eexists].
  - intros m. rewrite Hm. case_decide; [|apply H8]. apply NoDup_app. split_and!; [apply NoDup_filter, H8| |apply NoDup_singleton].
    intros i [Hi _]%alive_elem Hin%list_elem_of_singleton. destruct (H6 _ _ Hi). lia.
Qed.

Lemma destroy_effect im id ch : im_channels im !! id = Some ch ->
  im_channels (destroy im id) = delete id (im_channels im) /\ im_library (destroy im id) = im_library im ∖ list_to_set (ch_clients ch) /\
  im_activeClients (destroy im id) = (if ch_counted ch then u64 (im_activeClients im - 1) else im_activeClients im) /\
  im_nextChannel (destroy im id) = im_nextChannel im /\ im_clients (destroy im id) = im_clients im /\
  im_nextClient (destroy im id) = im_nextClient im /\ im_counters (destroy im id) = im_counters im /\
  im_details (destroy im id) = im_details im /\ im_log (destroy im id) = im_log im /\
  im_deniedWrites (destroy im id) = im_deniedWrites im.
Proof. intros Hch. unfold destroy. rewrite Hch. by destruct (ch_counted ch). Qed.

Lemma created_channels n (a b : Channel) f (m : gmap Z Channel) : alter f n (<[n := a]> (<[n := b]> m)) = <[n := f a]> m.
Proof. by rewrite alter_insert_eq, insert_insert_eq. Qed.

(** A channel that could not be set up leaves nothing. *)
Lemma channels_create im member asg asl name cr answers registered :
  channels_ok im -> channels_ok (createChannel im member asg asl name cr answers registered).1.
Proof.
  intros Hok. unfold createChannel, initialize. set (ch0 := Channel_new member asg asl name cr).
  change (im_library (im <| im_nextChannel := _ |>)) with (im_library im). change (im_nextClient (im <| im_nextChannel := _ |>)) with (im_nextClient im).
  destruct (addClients (im_library im) (im_nextClient im) (ch_users ch0) answers) as [[[library next] clients] ok] eqn:Ha.
  destruct (addClients_spec _ _ _ _ _ _ _ _ Ha) as (A1 & A2 & A3 & A4). destruct (ok && _) eqn:Hgood; cbn [fst].
  - apply andb_true_iff in Hgood as [-> _]. specialize (A4 eq_refl).
    eapply (channels_add im _ (ch0 <| ch_clients := clients |> <| ch_counted := true |> <| ch_control := true |>) library next);
      [done|done|exact A4|done|exact A2|exact A3|apply created_channels|done..|].
    intros m. etransitivity; [apply members_insert|]. cbn [ch_member ch0 Channel_new field_update Channel_eta]. case_decide; [|done]. subst m. f_equal.
    unfold alive. apply filter_same. intros i Hi. cbn. destruct (co_members _ Hok _ _ Hi). rewrite lookup_insert_ne by lia. done.
  - set (n := im_nextChannel im). set (ch := ch0 <| ch_clients := clients |>).
    set (im1 := im <| im_nextChannel := _ |> <| im_library := _ |> <| im_nextClient := _ |> <| im_channels ::= _ |>).
    assert (Hch : im_channels im1 !! n = Some ch) by apply lookup_insert_eq.
    destruct (destroy_effect im1 n ch Hch) as (D1 & D2 & D3 & D4 & D5 & D6 & _).
    apply (channels_grow im); rewrite ?D1, ?D2, ?D3, ?D4, ?D5, ?D6; [done| | |done| |exact A1|done].
    + apply delete_insert_id. apply eq_None_not_Some. intros [x Hx]. destruct (co_each _ Hok _ _ Hx). lia.
    + change (n <= n + 1). lia.
    + change (library ∖ list_to_set clients = im_library im). apply set_eq. intros h.
      rewrite elem_of_difference, elem_of_list_to_set, A3, A2. split; [intros [[Hh|Hh] Hn]; [done|by destruct Hn]|].
      intros Hh. split; [by left|]. pose proof (co_fresh _ Hok h Hh). lia.
Qed.

(** ** What holds throughout *)

Definition is_denial (a : audit) : bool := match a with ADenied _ => true | _ => false end.
Definition denials (l : list audit) : Z := Z.of_nat (length (filter (fun a => is_denial a = true) l)).

Record access_ok (im : Impl) : Prop := {
  ao_trail : trail im;
  ao_channels : channels_ok im;
  ao_held : held im;
  ao_denials : im_deniedWrites im = u64 (denials (ct_log (im_counters im)));
}.

Lemma denials_snoc l a : denials (l ++ [a]) = denials l + Z.b2z (is_denial a).
Proof. unfold denials. rewrite filter_app, length_app, filter_cons, filter_nil. case_decide as E; rewrite ?E; cbn; [lia|]. destruct (is_denial a); [done|cbn; lia]. Qed.

(** What [recordDenied] does to the rest of the controller. *)
Lemma recordDenied_effect im channel ch write value o id now ms :
  let im' := recordDenied im channel ch write value o id now ms in
  (exists stamps, im_channels im' = <[channel := ch <| ch_stamps := stamps |>]> (im_channels im)) /\
  im_counters im' = (if write then (im_counters im) <| ct_log ::= fun l => l ++ [ADenied id] |> else im_counters im) /\
  im_deniedWrites im' = (if write then u64 (im_deniedWrites im + 1) else im_deniedWrites im) /\
  im_details im' = im_details im /\ im_nextChannel im' = im_nextChannel im /\ im_clients im' = im_clients im /\
  im_library im' = im_library im /\ im_nextClient im' = im_nextClient im /\ im_activeClients im' = im_activeClients im.
Proof.
  unfold recordDenied. destruct (AccessRights.recordDenied _ _ _) as [stamps emit].
  split; [exists stamps; by destruct write, emit|]. by destruct write, emit.
Qed.

Lemma channels_denied im channel ch write value o id now ms :
  channels_ok im -> im_channels im !! channel = Some ch -> channels_ok (recordDenied im channel ch write value o id now ms).
Proof.
  intros Hok Hch. destruct (recordDenied_effect im channel ch write value o id now ms) as ((stamps & E1) & _ & _ & _ & E2 & E3 & E4 & E5 & E6).
  apply (channels_grow (im <| im_channels ::= <[channel := ch <| ch_stamps := stamps |>]> |>)); rewrite ?E1, ?E2, ?E3, ?E4, ?E5, ?E6; try done.
  by apply (channels_update im channel ch).
Qed.

(** The operations that still run. *)
Definition runs (c : Counters) (i : Z) : Prop := exists op, op_at c i = Some op /\ is_running op = true.

Lemma claim_runs c id o i : runs (claim c id o).1 i -> runs c i.
Proof.
  unfold claim. destruct (op_at c id) as [op|] eqn:Hop; [|done]. destruct (ao_state op) eqn:Hst; [|done..].
  intros (op' & Ho & Hr). cbn [fst] in Ho. rewrite (op_at_set _ _ _ _ _ Hop) in Ho. case_decide; [|by exists op'].
  subst. exists op. split; [done|]. unfold is_running. by rewrite Hst.
Qed.
Lemma complete_runs c id op o i : op_at c id = Some op -> runs (complete c id op o) i -> runs c i.
Proof.
  intros Hop (op' & Ho & Hr). unfold complete in Ho. set (c1 := set_op _ _ _) in Ho.
  assert (Ho1 : op_at c1 i = Some op') by (destruct o, (ao_trap op); exact Ho).
  unfold c1 in Ho1. rewrite (op_at_set _ _ op) in Ho1 by done. case_decide; [by simplify_eq|by exists op'].
Qed.

(** A call that changes no channel but one, and no operation but to end it. *)
Lemma held_fewer im im' :
  held im -> im_details im' = im_details im -> (forall i, runs (im_counters im') i -> runs (im_counters im) i) ->
  (im_channels im' = im_channels im \/ exists id ch ch', im_channels im !! id = Some ch /\ identity ch' = identity ch /\
     im_channels im' = <[id := ch']> (im_channels im)) -> held im'.
Proof.
  intros Hh Ed Hr Hc. apply (held_mono im); [done|..].
  - intros i d Hd Hu. exists d. unfold detail in *. rewrite Ed in Hd. split_and!; [done..|]. destruct Hu as [?|Hu]; [by left|right; by apply Hr].
  - intros i d ch _ _ Hch. destruct Hc as [->|(id & old & new & Hold & Hid & ->)]; [by exists ch|].
    destruct (decide (dt_channel d = id)) as [E|E]; [exists new; rewrite E, lookup_insert_eq|exists ch; by rewrite lookup_insert_ne].
    split; [done|]. rewrite E, Hold in Hch. injection Hch as <-. exact Hid.
Qed.

(** The channels of a state are those of [im]. *)
Ltac unchanged im := apply (channels_grow im); first [done | apply Z.le_refl].

Section Steps.
Context (im : Impl) (Hok : access_ok im).

Lemma denied_ok channel ch write value o now ms :
  im_channels im !! channel = Some ch -> access_ok (recordDenied im channel ch write value o 0 now ms).
Proof.
  intros Hch. destruct Hok as [T C H D].
  destruct (recordDenied_effect im channel ch write value o 0 now ms) as ((stamps & E1) & E2 & E3 & E4 & _).
  assert (Hr : refuse (im_counters im) 0 = (im_counters im) <| ct_log ::= fun l => l ++ [ADenied 0] |>) by done.
  split.
  - destruct write; [|by apply trail_deniedRead]. assert (Hi : im = im <| im_counters := im_counters im |>) by by destruct im.
    rewrite Hi. apply (trail_deniedWrite im (im_counters im)); try done. rewrite <-Hr. apply rtc_once, K_refuse.
  - by apply channels_denied.
  - apply (held_fewer im); [done|done| |right; exists channel, ch; eexists; split_and!; [done| |exact E1]; done].
    intros i Hi. rewrite E2 in Hi. by destruct write.
  - rewrite E2, E3, D. destruct write; [|done]. cbn [ct_log field_update Counters_eta]. rewrite denials_snoc. unfold u64. by rewrite Zplus_mod_idemp_l.
Qed.

Lemma finish_ok id o : o <> Denied -> access_ok (finish im id o).
Proof.
  intros Ho. destruct Hok as [T C H D]. split; [by apply trail_finish|unchanged im| |].
  - apply (held_fewer im); [done|done|apply claim_runs|by left].
  - cbn. by rewrite claim_log.
Qed.

Lemma abandon_ok id : access_ok (abandon im id).
Proof.
  destruct (finish_ok id Abandoned ltac:(done)) as [T C H D]. split; [apply trail_abandon, Hok|unchanged (finish im id Abandoned)| |done].
  apply (held_mono (finish im id Abandoned)); [done| |by intros i d ch _ _ Hch; exists ch].
  intros i d' Hd Hu. unfold detail in *. cbn [im_details abandon field_update Impl_eta] in Hd. destruct (1 <=? i); [|done].
  change (alter (fun d => d <| dt_wrapper := false |>) (Z.to_nat (id - 1)) (im_details im) !! Z.to_nat (i - 1) = Some d') in Hd.
  change (exists d, im_details im !! Z.to_nat (i - 1) = Some d /\ dt_channel d = dt_channel d' /\ dt_who d = dt_who d' /\
    (dt_wrapper d = true \/ unfinished (abandon im id) i)).
  rewrite list_lookup_alter in Hd. case_decide as E; [|by exists d'].
  rewrite E in Hd. apply fmap_Some in Hd as (d & Hd & ->). exists d. split_and!; [done..|]. by destruct Hu as [[=]|Hu]; right.
Qed.

Lemma complete_ok id now : access_ok (completeOperation im id now).
Proof.
  destruct Hok as [T C H D]. split; [by apply trail_complete| | |].
  all: unfold completeOperation; destruct (op_at _ id) as [op|] eqn:Hop; [|done]; destruct (detail im id) as [d|]; [|done];
    destruct (ao_state op) as [|o|o]; [done| |done].
  - destruct (ao_trap op); unchanged im.
  - apply (held_fewer im); [done|by destruct (ao_trap op)| |left; by destruct (ao_trap op)].
    intros i Hi. apply (complete_runs _ id op o); [done|]. destruct (ao_trap op); exact Hi.
  - assert (Hl : denials (ct_log (complete (im_counters im) id op o)) = denials (ct_log (im_counters im))).
    { unfold complete. destruct o, (ao_trap op); cbn [ct_log field_update Counters_eta set_op]; rewrite ?denials_snoc; cbn; lia. }
    transitivity (u64 (denials (ct_log (complete (im_counters im) id op o)))); [rewrite Hl, <-D|]; by destruct (ao_trap op).
Qed.

Lemma admit_ok channel ch o trap value now :
  im_channels im !! channel = Some ch -> ct_authorized (im_counters im) + 1 < 2 ^ 64 -> access_ok (admitOperation im channel ch o trap value now).
Proof.
  intros Hch Hlt. destruct Hok as [T C H D]. pose proof (tr_length _ T) as Hlen.
  set (new := {| dt_channel := channel; dt_who := ch; dt_operation := o; dt_wrapper := true |}).
  assert (Hd : im_details (admitOperation im channel ch o trap value now) = im_details im ++ [new]) by (unfold admitOperation; by destruct trap).
  assert (Hc : im_channels (admitOperation im channel ch o trap value now) = im_channels im) by (unfold admitOperation; by destruct trap).
  assert (Hops : ct_ops (im_counters (admitOperation im channel ch o trap value now)) =
    ct_ops (im_counters im) ++ [{| ao_trap := trap; ao_state := Open |}]) by (unfold admitOperation; by destruct trap).
  split; [by apply trail_admit|unfold admitOperation; destruct trap; unchanged im| |].
  - intros i d. unfold detail. rewrite Hd, Hc. destruct (1 <=? i) eqn:Hi; [|done]. intros Hl Hu.
    apply lookup_snoc_Some in Hl as [[Hlt' Hl]|[_ <-]]; [|by exists ch]. apply (H i d); [unfold detail; by rewrite Hi|].
    destruct Hu as [Hu|(op & Ho & Hr)]; [by left|right; exists op; split; [|done]]. unfold op_at in *. rewrite Hi in *.
    rewrite Hops, lookup_app_l in Ho by lia. done.
  - transitivity (im_deniedWrites im); [unfold admitOperation; by destruct trap|]. rewrite D. unfold admitOperation, admit_op.
    destruct trap; cbn [im_counters recordAudit ct_log field_update Impl_eta Counters_eta]; [|done]. rewrite denials_snoc. cbn [is_denial Z.b2z]. by rewrite Z.add_0_r.
Qed.

Lemma serve_ok channel r rights value now ms :
  ct_authorized (im_counters im) + 1 < 2 ^ 64 -> access_ok (serve im channel r rights value now ms).1.
Proof.
  intros Hlt. unfold serve. destruct (im_channels im !! channel) as [ch|] eqn:Hch; [|done].
  destruct r, (admission rights _) as [trap|w]; cbn [fst]; first [done | by apply denied_ok | by apply admit_ok].
Qed.

Lemma dispatch_denied_ok id d value now ms :
  detail im id = Some d -> dt_wrapper d = true -> access_ok (denyDispatch im id d value now ms).
Proof.
  intros Hd Hw. destruct Hok as [T C H D]. destruct (H id d Hd (or_introl Hw)) as (ch & Hch & Hid). unfold denyDispatch. rewrite Hch.
  destruct (claim (im_counters im) id Denied) as [c open] eqn:Hc.
  set (trap := match op_at c id with Some op => ao_trap op | None => false end). set (id' := if open && trap then id else 0).
  set (v := match dt_operation d with OpRpc => None | OpPut => Some value end).
  assert (Hlog : ct_log c = ct_log (im_counters im)) by (pose proof (claim_log (im_counters im) id Denied) as E; by rewrite Hc in E).
  assert (Hops : length (ct_ops c) = length (ct_ops (im_counters im))) by (pose proof (claim_ops (im_counters im) id Denied) as E; by rewrite Hc in E).
  assert (Href : refuse (im_counters im) id = c <| ct_log ::= fun l => l ++ [ADenied id'] |>) by (unfold refuse; by rewrite Hc).
  apply detail_lookup in Hd as [H1 Hd].
  destruct (recordDenied_effect (im <| im_counters := c |>) (dt_channel d) ch true v (dt_operation d) id' now ms) as ((stamps & E1) & E2 & E3 & E4 & _).
  split.
  - apply trail_deniedWrite; [done|rewrite <-Href; apply rtc_once, K_refuse|done|done|unfold id'; destruct (open && trap); lia|].
    intros Hi. assert (id' = id) as -> by (unfold id' in *; destruct (open && trap); lia). rewrite list_lookup_fmap, Hd. cbn. unfold subject. by rewrite Hid.
  - apply channels_denied; [unchanged im|done].
  - apply (held_fewer im); [done|done| |right; exists (dt_channel d), ch; eexists; split_and!; [done| |exact E1]; done].
    intros i Hi. rewrite E2 in Hi. apply (claim_runs _ id Denied). by rewrite Hc.
  - rewrite E2, E3. cbn [ct_log field_update Counters_eta im_counters im_deniedWrites Impl_eta]. rewrite D, denials_snoc, Hlog. unfold u64. by rewrite Zplus_mod_idemp_l.
Qed.

Lemma dispatch_ok op rights value now ms :
  Forall (wrapped im) (wraps op) -> access_ok (authorizeWriteDispatch im op rights value now ms).1.
Proof.
  induction op as [|id target IH]; intros Hw; [done|]. cbn [wraps] in Hw. apply Forall_cons in Hw as [(d & Hd & Hdw) Hw].
  cbn [authorizeWriteDispatch]. rewrite Hd. destruct (has _ _); [by apply IH|]. by apply dispatch_denied_ok.
Qed.
End Steps.

Lemma created_ok im member asg asl name cr answers registered :
  access_ok im -> access_ok (createChannel im member asg asl name cr answers registered).1.
Proof.
  intros [T C H D]. pose proof (channels_create im member asg asl name cr answers registered C) as C'. revert C'. unfold createChannel, initialize.
  set (n := im_nextChannel im). set (ch0 := Channel_new member asg asl name cr).
  change (im_library (im <| im_nextChannel := _ |>)) with (im_library im). change (im_nextClient (im <| im_nextChannel := _ |>)) with (im_nextClient im).
  destruct (addClients (im_library im) (im_nextClient im) (ch_users ch0) answers) as [[[library next] clients] ok]. set (ch := _ <| ch_clients := clients |>).
  set (im1 := im <| im_nextChannel := _ |> <| im_library := _ |> <| im_nextClient := _ |> <| im_channels ::= _ |>).
  assert (Hn : forall i x, im_channels im !! i = Some x -> i <> n) by (intros i x Hx ->; destruct (co_each _ C _ _ Hx); lia).
  intros C'. assert (forall im', im_counters im' = im_counters im -> im_details im' = im_details im -> im_log im' = im_log im ->
    im_deniedWrites im' = im_deniedWrites im -> (forall i x, i <> n -> im_channels im !! i = Some x -> im_channels im' !! i = Some x) ->
    channels_ok im' -> access_ok im') as Hgen.
  { intros im' E1 E2 E3 E4 Hx Hc. split; [by apply (trail_same im)|done| |by rewrite E4, E1].
    apply (held_mono im); [done| |].
    - intros i d Hd Hu. exists d. unfold detail, unfinished in *. rewrite E1 in Hu. rewrite E2 in Hd. by split_and!.
    - intros i d x _ _ Hch. exists x. split; [|done]. apply Hx; [by eapply Hn|done]. }
  destruct (ok && _); cbn [fst] in *.
  - apply Hgen; try done. intros i x Hi Hx. etransitivity; [apply f_equal, created_channels|]. by rewrite lookup_insert_ne.
  - destruct (destroy_effect im1 n ch (lookup_insert_eq _ n _)) as (E1 & _ & _ & _ & _ & _ & E7 & E8 & E9 & E10).
    apply Hgen; rewrite ?E7, ?E8, ?E9, ?E10; try done. intros i x Hi Hx. rewrite E1, lookup_delete_ne by done.
    cbn -[insert]. by rewrite lookup_insert_ne.
Qed.

Lemma dropped_ok im id : access_ok im -> access_ok (dropControl im id).
Proof.
  intros [T C H D]. unfold dropControl. destruct (im_channels im !! id) as [ch|] eqn:Hch.
  - assert (E : alter (fun ch => ch <| ch_control := false |>) id (im_channels im) = <[id := ch <| ch_control := false |>]> (im_channels im)).
    { apply map_eq. intros j. destruct (decide (j = id)) as [->|]; [by rewrite lookup_alter_eq, lookup_insert_eq, Hch|by rewrite lookup_alter_ne, lookup_insert_ne]. }
    split; [by apply (trail_same im)| | |done].
    + eapply channels_grow; [apply (channels_update im id ch (ch <| ch_control := false |>)); [done|done|done]|exact E|apply Z.le_refl|done|done|apply Z.le_refl|done].
    + apply (held_fewer im); [done|done|done|]. right. exists id, ch, (ch <| ch_control := false |>). by split_and!.
  - assert (E : alter (fun ch => ch <| ch_control := false |>) id (im_channels im) = im_channels im).
    { apply map_eq. intros j. destruct (decide (j = id)) as [->|]; [by rewrite lookup_alter_eq, Hch|by rewrite lookup_alter_ne]. }
    split; [by apply (trail_same im)|by eapply channels_grow; first [exact C|exact E|apply Z.le_refl|done]| |done].
    apply (held_fewer im); [done|done|done|]. left. exact E.
Qed.

Lemma destroyed_ok im id ch :
  access_ok im -> im_channels im !! id = Some ch ->
  (forall i d, detail im i = Some d -> dt_channel d = id -> dt_wrapper d = false /\ ~ unfinished im i) -> access_ok (destroy im id).
Proof.
  intros [T C H D] Hch Hfree. destruct (destroy_effect im id ch Hch) as (E1 & E2 & E3 & E4 & E5 & E6 & E7 & E8 & E9 & E10).
  split; [by apply (trail_same im)|by eapply channels_destroy| |by rewrite E10, E7].
  apply (held_mono im); [done|..].
  - intros i d Hd Hu. exists d. unfold detail, unfinished in *. rewrite E7 in Hu. rewrite E8 in Hd. by split_and!.
  - intros i d x Hd Hu Hx. exists x. split; [|done]. rewrite E1. apply lookup_delete_Some. split; [|done]. intros E.
    destruct (Hfree i d Hd (eq_sym E)) as [Hw Hr]. destruct Hu as [Hu|Hu]; [congruence|done].
Qed.

Lemma access_step_ok im im' : access_ok im -> access_step im im' -> access_ok im'.
Proof.
  intros Hok Hs. destruct Hs.
  - by apply created_ok.
  - by apply dropped_ok.
  - by eapply destroyed_ok.
  - destruct Hok as [T C H D]. split; [by apply (trail_same im)|by apply channels_live| |done].
    by apply (held_fewer im); [..|left].
  - by apply serve_ok.
  - by apply finish_ok.
  - by apply finish_ok.
  - by apply finish_ok.
  - by apply abandon_ok.
  - by apply complete_ok.
  - by apply dispatch_ok.
Qed.

Lemma access_reachable im : rtc access_step Impl_new im -> access_ok im.
Proof.
  revert im. apply (rtc_ind_r access_ok); [|intros y z _ Hyz Hy; by eapply access_step_ok]. split; [by split|split|..]; try done.
  - intros h. split; [set_solver|]. intros (id & ch & Hch & _). discriminate Hch.
  - intros m id Hid. change (id ∈ []) in Hid. set_solver.
  - intros m. apply NoDup_nil_2.
  - intros i d Hd. unfold detail in Hd. by destruct (1 <=? i).
Qed.

Lemma tally_none p l : (forall i x, l !! i = Some x -> p x = false) -> tally p l = 0.
Proof.
  induction l as [|x l IH]; intros Hp; [done|]. cbn [tally]. rewrite (Hp 0%nat x eq_refl), IH; [done|]. intros i. apply (Hp (S i)).
Qed.

Lemma Forall2_with {A B} (P : A -> B -> Prop) (Q : B -> Prop) l k :
  Forall2 P l k -> Forall Q k -> Forall2 (fun x y => P x y /\ Q y) l k.
Proof. induction 1; intros Hq; [done|]. apply Forall_cons in Hq as [??]. constructor; auto. Qed.

Lemma to_dec_inj a b : 0 <= a -> 0 <= b -> to_dec a = to_dec b -> a = b.
Proof. intros Ha Hb E. destruct (to_dec_digits a Ha) as [Va _]. destruct (to_dec_digits b Hb) as [Vb _]. congruence. Qed.

Definition denied_entry (e : Entry) : Prop := en_phase e = "authorization" /\ en_result e = "denied".
#[export] Instance denied_entry_dec e : Decision (denied_entry e).
Proof. unfold denied_entry. apply _. Defined.

(** C18. The log of secured channels can be relied on.  After any calls on them,
    in any order: the records of an audited operation, read back from the lines
    and in their order, are its authorization, the denial if its rights were gone
    when it was dispatched, and its completion once it is complete, with the
    outcome it was counted under; each names the PV, the user, the peer, the
    authentication, the group and level of the channel and the kind of operation.
    Operations that are not audited have none.  The denied writes counted are the
    denials recorded, and no text a client sends breaks a line. *)
Theorem audit_trail_faithful im :
  rtc access_step Impl_new im ->
  let entries := omap read_audit (im_log im) in
  (forall id op, op_at (im_counters im) id = Some op -> exists d, detail im id = Some d /\
     Forall2 (fun e a => en_phase e = phase_of a /\ en_result e = result_of a /\ about (subject d) e)
       (filter (fun e => en_id e = to_dec id) entries) (story id op)) /\
  im_deniedWrites im = u64 (Z.of_nat (length (filter denied_entry entries))) /\
  Forall (fun line => free_of "010" line = true) (im_log im) /\
  let c := im_counters im in
  ct_authorized c = ct_inFlight c + ct_succeeded c + ct_failed c + ct_cancelled c + ct_denied c + ct_abandoned c.
Proof.
  intros Hs entries. destruct (access_reachable im Hs) as [[Tacc Tlen Tread Tsingle] _ _ Hden]. fold entries in Tread. split_and!.
  - intros id op Hop. destruct (trail_detail im id op (Build_trail _ Tacc Tlen Tread Tsingle) Hop) as [d Hd]. exists d. split; [done|].
    apply detail_lookup in Hd as [H1 Hd]. pose proof (told_reachable _ id Tacc H1) as Htold. unfold told in Htold. rewrite Hop in Htold.
    rewrite <-Htold. unfold of_id. eapply Forall2_impl; [apply (Forall2_with (tells (im_details im)) (fun a => audit_id a = id))|].
    + apply Forall2_filter; [|exact Tread]. intros e a (E & _ & _ & H0 & _). rewrite E. split; [intros H; apply to_dec_inj in H; lia|by intros ->].
    + apply Forall_forall. intros a Ha. by apply list_elem_of_filter in Ha as [? _].
    + intros e a [(_ & E1 & E2 & _ & Hsub) Ha]. rewrite Ha in Hsub. destruct (Hsub H1) as (s & Hl & Hab).
      rewrite list_lookup_fmap, Hd in Hl. cbn in Hl. by simplify_eq.
  - rewrite Hden. unfold denials. do 2 f_equal. symmetry. eapply Forall2_length, Forall2_filter; [|exact Tread].
    intros e a (_ & E1 & E2 & _). unfold denied_entry. rewrite E1, E2. destruct a as [| |? []]; cbn [phase_of result_of outcome_text is_denial]; naive_solver.
  - done.
  - by apply outcomes_sum, account_reachable.
Qed.

(** C22. Channels are accounted for and leave nothing behind.  After any calls, with
    any of the calls to the access library failing: the active clients counted
    are the channels that live; the library knows exactly the clients of these,
    one for each user of each; the live clients of a member are its channels,
    each once; an operation that is not complete keeps its channel; and when no
    channel is left, the library has no client and no operation is in flight. *)
Theorem channels_accounted im :
  rtc access_step Impl_new im ->
  im_activeClients im = u64 (Z.of_nat (size (im_channels im))) /\
  (forall h, h ∈ im_library im <-> exists id ch, im_channels im !! id = Some ch /\ h ∈ ch_clients ch) /\
  (forall id ch, im_channels im !! id = Some ch -> length (ch_clients ch) = length (ch_users ch)) /\
  (forall m, NoDup (liveClients im m).2 /\
     forall id, id ∈ (liveClients im m).2 <-> exists ch, im_channels im !! id = Some ch /\ ch_member ch = m) /\
  (forall id op, op_at (im_counters im) id = Some op -> is_running op = true ->
     exists d, detail im id = Some d /\ is_Some (im_channels im !! dt_channel d)) /\
  (im_channels im = ∅ -> im_library im = ∅ /\ ct_inFlight (im_counters im) = 0).
Proof.
  intros Hs. destruct (access_reachable im Hs) as [T [H1 H2 H3 H4 H5 H6 H7 H8] Hheld _].
  assert (Hlive : forall id op, op_at (im_counters im) id = Some op -> is_running op = true ->
     exists d, detail im id = Some d /\ is_Some (im_channels im !! dt_channel d)).
  { intros id op Hop Hr. destruct (trail_detail im id op T Hop) as [d Hd]. exists d. split; [done|].
    destruct (Hheld id d Hd) as (ch & -> & _); [right; by exists op|by eexists]. }
  split_and!; [done|done|intros id ch Hch; by destruct (H2 _ _ Hch) as (_ & _ & ?)| |done|].
  - intros m. split; [apply NoDup_filter, H8|]. intros id. cbn [liveClients snd]. rewrite alive_elem. split.
    + intros [Hi [ch Hch]]. exists ch. split; [done|]. by apply (H6 _ _ Hi).
    + intros (ch & Hch & <-). split; [by apply (H7 id ch)|by eexists].
  - intros He. rewrite He in *. split; [apply set_eq; intros h; rewrite H3; split; [intros (id & ch & Hch & _); by rewrite lookup_empty in Hch|set_solver]|].
    destruct (account_reachable _ (tr_account _ T)) as [_ _ Hf _ _ _]. rewrite Hf. apply tally_none. intros i op Hi.
    destruct (is_running op) eqn:Hr; [|done]. destruct (Hlive (Z.of_nat i + 1) op) as (d & _ & [x Hx]); [|done|by rewrite lookup_empty in Hx].
    unfold op_at. rewrite (proj2 (Z.leb_le 1 (Z.of_nat i + 1))) by lia. by replace (Z.to_nat (Z.of_nat i + 1 - 1)) with i by lia.
Qed.

(** ** A day of one channel *)

(** Alice puts a value and calls a service; her rights are gone when the call is
    dispatched, and a later put is denied; then the channel goes.  A second
    channel cannot be set up. *)
Module AuditDemo.
Definition alice : Credentials :=
  {| cr_peer := "10.0.0.7:4711"; cr_method := "ca"; cr_account := "console/alice"; cr_roles := ["ops"] |}.
Definition value : list put := [PutRun "int32_t = "; PutRun "42"; PutChar "010"].
Definition noon : Z := 1709208000000000000.
Definition all : Z := 7.

Definition s1 : Impl := (createChannel Impl_new 0 "OPS" 1 "TEST:SETPOINT" alice [(true, true); (true, true)] [true; true]).1.
Definition s2 : Impl := (createChannel s1 0 "OPS" 1 "TEST:SETPOINT" alice [(true, true); (false, false)] []).1.
Definition s3 : Impl := (serve s2 0 RPut all value noon 1000).1.
Definition s4 : Impl := reply s3 1.
Definition s5 : Impl := completeOperation s4 1 noon.
Definition s6 : Impl := (serve s5 0 RRpc all value noon 2000).1.
Definition s7 : Impl := (authorizeWriteDispatch s6 (Authorized 2 Native) (fun _ => kRead) value noon 3000).1.
Definition s8 : Impl := completeOperation s7 2 noon.
Definition s9 : Impl := (serve s8 0 RPut kRead value noon 4000).1.
Definition s10 : Impl := abandon (abandon s9 1) 2.
Definition s11 : Impl := destroy (dropControl s10 0) 0.

Lemma day : rtc access_step Impl_new s10.
Proof.
  apply (rtc_l _ _ s1); [apply (A_create Impl_new 0 "OPS" 1 "TEST:SETPOINT" alice [(true, true); (true, true)] [true; true])|].
  apply (rtc_l _ _ s2); [apply (A_create s1 0 "OPS" 1 "TEST:SETPOINT" alice [(true, true); (false, false)] [])|].
  apply (rtc_l _ _ s3); [apply (A_serve s2 0 RPut all value noon 1000); vm_compute; reflexivity|].
  apply (rtc_l _ _ s4); [apply (A_reply s3 1); eexists; split; vm_compute; reflexivity|].
  apply (rtc_l _ _ s5); [apply (A_complete s4 1 noon)|].
  apply (rtc_l _ _ s6); [apply (A_serve s5 0 RRpc all value noon 2000); vm_compute; reflexivity|].
  apply (rtc_l _ _ s7); [apply (A_dispatch s6 (Authorized 2 Native) (fun _ => kRead) value noon 3000)|].
  { constructor; [|constructor]. eexists. split; vm_compute; reflexivity. }
  apply (rtc_l _ _ s8); [apply (A_complete s7 2 noon)|].
  apply (rtc_l _ _ s9); [apply (A_serve s8 0 RPut kRead value noon 4000); vm_compute; reflexivity|].
  apply (rtc_l _ _ (abandon s9 1)); [apply (A_abandon s9 1)|]. apply rtc_once. apply (A_abandon (abandon s9 1) 2).
Qed.

Lemma audit_trail_faithful_witness :
  map (fun e => (en_user e, en_pv e, en_result e)) (filter (fun e => en_id e = "2") (omap read_audit (im_log s10))) =
    [("console/alice", "TEST:SETPOINT", "allowed"); ("console/alice", "TEST:SETPOINT", "denied");
     ("console/alice", "TEST:SETPOINT", "denied")] /\
  im_deniedWrites s10 = 2.
Proof.
  destruct (audit_trail_faithful s10 day) as (H & Hd & _).
  destruct (H 2 {| ao_trap := true; ao_state := Complete Denied |}) as (d & Hdet & Hall); [vm_compute; reflexivity|].
  split; [|exact Hd]. clear Hd H. vm_compute in Hdet. injection Hdet as <-. revert Hall.
  vm_compute (to_dec 2). generalize (filter (fun e => en_id e = "2") (omap read_audit (im_log s10))). intros l Hall.
  inversion Hall as [|e1 ? l1 ? (_ & R1 & A1) H1]; subst. inversion H1 as [|e2 ? l2 ? (_ & R2 & A2) H2]; subst.
  inversion H2 as [|e3 ? l3 ? (_ & R3 & A3) H3]; subst. inversion H3; subst.
  destruct A1 as (N1 & U1 & _), A2 as (N2 & U2 & _), A3 as (N3 & U3 & _). cbn [map].
  rewrite R1, R2, R3, N1, N2, N3, U1, U2, U3. reflexivity.
Defined.

Lemma gone : rtc access_step Impl_new s11.
Proof.
  transitivity s10; [exact day|]. eapply rtc_l; [apply (A_drop s10 0)|]. apply rtc_once.
  apply (A_destroy (dropControl s10 0) 0 (default (Channel_new 0 "" 0 "" alice) (im_channels (dropControl s10 0) !! 0)));
    [vm_compute; reflexivity..|].
  intros i d Hd _. split.
  - unfold detail in Hd. destruct (1 <=? i); [|done]. revert Hd. vm_compute (im_details (dropControl s10 0)).
    destruct (Z.to_nat (i - 1)) as [|[|k]]; cbn; intros Hd; simplify_eq; done.
  - intros (op & Ho & Hr). unfold op_at in Ho. destruct (1 <=? i); [|done]. revert Ho. vm_compute (ct_ops (im_counters (dropControl s10 0))).
    destruct (Z.to_nat (i - 1)) as [|[|k]]; cbn; intros Ho; simplify_eq; done.
Qed.

Lemma channels_accounted_witness :
  im_activeClients s10 = 1 /\ size (im_library s10) = 2%nat /\ im_library s11 = ∅ /\ ct_inFlight (im_counters s11) = 0.
Proof.
  destruct (channels_accounted s10 day) as [Ha _]. destruct (channels_accounted s11 gone) as (_ & _ & _ & _ & _ & He).
  split; [rewrite Ha; vm_compute; reflexivity|]. split; [vm_compute; reflexivity|]. apply He. vm_compute. reflexivity.
Defined.

Example first_line : im_log s3 = [
  "[redis-pvxs-ioc] access audit timestamp=2024-02-29T12:00:00.000Z id=1 phase=authorization operation=put pv=" +:+
  quoted "TEST:SETPOINT" +:+ " result=allowed asg=" +:+ quoted "OPS" +:+ " asl=1 user=" +:+ quoted "console/alice" +:+
  " peer=" +:+ quoted "10.0.0.7:4711" +:+ " auth=" +:+ quoted "ca" +:+ " value=" +:+ quoted "int32_t = 42 "].
Proof. vm_compute. reflexivity. Qed.
End AuditDemo.
