(* ===== verification/App.v ===== *)
(** * The application: generations and reloads

    src/app.cpp, [Application]: a configuration is prepared as a generation
    beside the active one and published as a whole; reloads, the recovery of
    RPC services, start and stop.  The state is what the thread that starts,
    pumps and stops the application keeps.  The objects it refers to have
    numbers; of a runtime the state has what this thread sees
    ([RuntimeObject]), the runtimes themselves are Runtime and NDRuntime. *)

From S2P Require Import Prelude.
From S2P Require Import StrMap.
From S2P Require Import Floats.
From S2P Require Import Config.
From S2P Require Import Endpoints.
From S2P Require Import ConfigDiff.
From S2P Require Import ConfigSafety.
From S2P Require Import PVRegistry.
From S2P Require Import AccessBindings.
From S2P Require Import Generation.
From S2P Require NDRuntime.
From S2P Require Discovery.
From S2P Require Acf.
From S2P Require AccessPolicy.

Import AccessPolicy (AccessImpl, PreparedConfiguration).

Local Open Scope string_scope.
Local Open Scope list_scope.
Local Open Scope Z_scope.

(** ** State *)

Record ReloadStatus := {
  rl_attempt : Z; rl_candidateGeneration : Z; rl_activeGeneration : Z; rl_schemaVersion : Z;
  rl_added : Z; rl_removed : Z; rl_recreated : Z; rl_retained : Z;
  rl_metadataChanged : Z; rl_aliasesChanged : Z; rl_accessChanged : Z;
  rl_diffKnown : bool; rl_committed : bool;
  rl_kind : string; rl_state : string; rl_phase : string; rl_error : string;
  rl_backends : list BackendPreparation;
}.
#[export] Instance ReloadStatus_eta : Eta ReloadStatus := fun r =>
  Build_ReloadStatus (rl_attempt r) (rl_candidateGeneration r) (rl_activeGeneration r) (rl_schemaVersion r)
    (rl_added r) (rl_removed r) (rl_recreated r) (rl_retained r) (rl_metadataChanged r) (rl_aliasesChanged r)
    (rl_accessChanged r) (rl_diffKnown r) (rl_committed r) (rl_kind r) (rl_state r) (rl_phase r) (rl_error r)
    (rl_backends r).
Definition ReloadStatus_new : ReloadStatus :=
  {| rl_attempt := 0; rl_candidateGeneration := 0; rl_activeGeneration := 0; rl_schemaVersion := 0; rl_added := 0;
     rl_removed := 0; rl_recreated := 0; rl_retained := 0; rl_metadataChanged := 0; rl_aliasesChanged := 0;
     rl_accessChanged := 0; rl_diffKnown := false; rl_committed := false; rl_kind := ""; rl_state := "idle";
     rl_phase := ""; rl_error := ""; rl_backends := [] |}.

(** A runtime as the application sees it: its configuration, generation and
    alarm publisher, and whether it was activated and deactivated. *)
Record RuntimeObject := {
  ro_config : PVConfig; ro_generation : Z; ro_alarm : Z; ro_active : bool; ro_retired : bool;
}.
#[export] Instance RuntimeObject_eta : Eta RuntimeObject := fun r =>
  Build_RuntimeObject (ro_config r) (ro_generation r) (ro_alarm r) (ro_active r) (ro_retired r).

(** The diagnostics, as last posted. *)
Record AdminNamespace := {
  an_owner : Z; an_server : ServerConfig;
  an_generation : Z; an_status : string; an_error : string; an_pvCount : Z; an_lastDiff : string;
  an_reload : ReloadStatus; an_reloadRequested : bool; an_accessReloadRequested : bool;
}.
#[export] Instance AdminNamespace_eta : Eta AdminNamespace := fun r =>
  Build_AdminNamespace (an_owner r) (an_server r) (an_generation r) (an_status r) (an_error r) (an_pvCount r)
    (an_lastDiff r) (an_reload r) (an_reloadRequested r) (an_accessReloadRequested r).
Definition AdminNamespace_new (owner : Z) (server : ServerConfig) : AdminNamespace :=
  {| an_owner := owner; an_server := server; an_generation := 0; an_status := "idle"; an_error := "";
     an_pvCount := 0; an_lastDiff := "{}"; an_reload := ReloadStatus_new; an_reloadRequested := false;
     an_accessReloadRequested := false |}.

(** A reflection task in flight: [rpcDiscovery] and what goes with it. *)
Record RpcTask := { tk_generation : Z; tk_index : nat; tk_server : ServerConfig; tk_config : RpcServiceConfig }.

(** [ap_names] is the registry that serves, the access controller's when there
    is one; [ap_stopped] are the alarm publishers stopped; [ap_next] is the
    next free object number. *)
Record App := {
  ap_config : AppConfig;
  ap_hasConfig : bool;
  ap_generation : Z;
  ap_backends : smap Z;
  ap_alarm : option Z;
  ap_runtimes : gmap string Z;
  ap_objects : gmap Z RuntimeObject;
  ap_rpcPVs : smap Z;
  ap_rpcAssignments : smap AccessAssignment;
  ap_rpcServices : list RpcServiceState;
  ap_catalog : option Discovery.DiscoveryCatalog;
  ap_discovery : option Discovery.Impl;
  ap_names : Secured;
  ap_access : option AccessImpl;
  ap_admin : option AdminNamespace;
  ap_reload : ReloadStatus;
  ap_stopped : gset Z;
  ap_next : Z;
  ap_started : bool;
  ap_reloadRequested : bool;
  ap_task : option RpcTask;
  ap_nextIndex : nat;
}.
#[export] Instance App_eta : Eta App := fun r =>
  Build_App (ap_config r) (ap_hasConfig r) (ap_generation r) (ap_backends r) (ap_alarm r) (ap_runtimes r)
    (ap_objects r) (ap_rpcPVs r) (ap_rpcAssignments r) (ap_rpcServices r) (ap_catalog r) (ap_discovery r)
    (ap_names r) (ap_access r) (ap_admin r) (ap_reload r) (ap_stopped r) (ap_next r) (ap_started r)
    (ap_reloadRequested r) (ap_task r) (ap_nextIndex r).

(** The constructor; [config] is a default-constructed configuration. *)
Definition App_new (config : AppConfig) : App :=
  {| ap_config := config; ap_hasConfig := false; ap_generation := 0; ap_backends := []; ap_alarm := None;
     ap_runtimes := ∅; ap_objects := ∅; ap_rpcPVs := []; ap_rpcAssignments := []; ap_rpcServices := [];
     ap_catalog := None; ap_discovery := None; ap_names := Secured_new; ap_access := None; ap_admin := None;
     ap_reload := ReloadStatus_new; ap_stopped := ∅; ap_next := 0; ap_started := false; ap_reloadRequested := false;
     ap_task := None; ap_nextIndex := 0%nat |}.

(** Computations that keep what they did when they throw. *)
Definition M (A : Type) : Type := App -> App * exn A.
#[export] Instance M_ret : MRet M := fun A x a => (a, Ret x).
#[export] Instance M_bind : MBind M := fun A B f m a =>
  match m a with (a', Ret x) => f x a' | (a', Throw what) => (a', Throw what) end.
Definition get : M App := fun a => (a, Ret a).
Definition modify (f : App -> App) : M unit := fun a => (f a, Ret tt).
Definition lift {A} (m : exn A) : M A := fun a => (a, m).
Fixpoint fold_m {S A} (f : S -> A -> M S) (s : S) (l : list A) : M S :=
  match l with [] => mret s | x :: l => s' ← f s x; fold_m f s' l end.

(** ** The report of a reload *)

Definition setAdmin (f : AdminNamespace -> AdminNamespace) (a : App) : App := a <| ap_admin ::= fmap f |>.
Definition setReload (f : ReloadStatus -> ReloadStatus) (a : App) : App := a <| ap_reload ::= f |>.

Definition publishReload (a : App) : App := setAdmin (fun n => n <| an_reload := ap_reload a |>) a.
Definition reloadPhase (phase : string) (a : App) : App :=
  publishReload (setReload (fun r => r <| rl_phase := phase |>) a).

Definition beginReload (kind : string) (a : App) : App :=
  publishReload (setAdmin (fun n => n <| an_lastDiff := "{}" |>)
    (setReload (fun r => ReloadStatus_new <| rl_attempt := u64 (rl_attempt r + 1) |> <| rl_kind := kind |>
       <| rl_state := "running" |> <| rl_phase := "parse" |> <| rl_activeGeneration := ap_generation a |>
       <| rl_candidateGeneration := u64 (ap_generation a + 1) |>) a)).

Definition count {A} (l : list A) : Z := Z.of_nat (length l).

Definition describeReload (config : AppConfig) (a : App) : App :=
  let diff := diffConfigs (ap_config a) config in
  reloadPhase "validate" (setAdmin (fun n => n <| an_lastDiff := formatConfigDiff diff true |>)
    (setReload (fun r => r <| rl_diffKnown := true |> <| rl_schemaVersion := app_schemaVersion config |>
       <| rl_added := count (df_added diff) |> <| rl_removed := count (df_removed diff) |>
       <| rl_recreated := count (df_replaced diff) |>
       <| rl_retained := u64 (count (app_pvs config) - count (df_added diff) - count (df_replaced diff)) |>
       <| rl_metadataChanged := count (df_metadataChanged diff) |> <| rl_aliasesChanged := count (df_aliasesChanged diff) |>
       <| rl_accessChanged := count (df_accessChanged diff) |>) a)).

Definition cutover (accepted : bool) (backends : smap Z) (b : BackendPreparation) : BackendPreparation :=
  b <| bp_cutover := if accepted then if String.eqb (bp_action b) "removed" then "removed" else "active"
                     else if sm_has (bp_name b) backends then "previous-preserved" else "not-activated" |>.

Definition finishReload (accepted : bool) (error : string) (a : App) : App :=
  publishReload (setReload (fun r =>
    let r := if str_empty error then r else r <| rl_error := error |> in
    let clean := str_empty (rl_error r) in
    r <| rl_committed := accepted |> <| rl_activeGeneration := ap_generation a |>
      <| rl_state := if accepted then if clean then "committed" else "committed-with-error"
                     else if rl_diffKnown r then "rejected" else "failed" |>
      <| rl_phase ::= fun phase => if accepted && clean then "complete" else phase |>
      <| rl_backends ::= map (cutover accepted (ap_backends a)) |>) a).

(** ** Preparing a generation *)

Section Application.
Context `{Acf.MacLib} (errSymMsg : Z -> string) (wrap : AccessMember -> string -> Wrapper).

Inductive prepared_names := PSecured (p : PreparedBindings) | PPlain (p : Prepared).

(** What [applyGeneration] has prepared when it comes to publishing. *)
Record Next := {
  nx_config : AppConfig; nx_generation : Z;
  nx_backends : smap Z; nx_alarm : option Z; nx_reuseAlarm : bool;
  nx_runtimes : gmap string Z; nx_updates : list (Z * PVConfig); nx_added : list Z; nx_retired : list Z;
  nx_rpcPVs : smap Z; nx_rpcAssignments : smap AccessAssignment; nx_rpcServices : list RpcServiceState;
  nx_catalog : option Discovery.DiscoveryCatalog;
  nx_policy : option PreparedConfiguration; nx_names : prepared_names;
}.

Definition reuseAlarm (a : App) (config : AppConfig) : bool :=
  ap_hasConfig a && sameAlarmStreamConfig (app_alarms (ap_config a)) (app_alarms config) &&
  match sm_find (as_backend (app_alarms config)) (app_redisBackends (ap_config a)),
        sm_find (as_backend (app_alarms config)) (app_redisBackends config) with
  | Some before, Some after => sameRedisConfig before after
  | _, _ => false
  end.

Definition prepareAlarm (o : Outside) (config : AppConfig) : M (option Z) := fun a =>
  if reuseAlarm a config then (a, Ret (ap_alarm a))
  else match buildAlarmPublisher config (ox_now o) with
       | Ret _ => (a <| ap_next := ap_next a + 1 |>, Ret (Some (ap_next a)))
       | Throw what => (a, Throw what)
       end.

(** The updates and runtimes prepared so far. *)
Record RuntimeLoop := { lp_runtimes : gmap string Z; lp_updates : list (Z * PVConfig); lp_added : list Z }.

Definition emplace (m : gmap string Z) (name : string) (id : Z) : gmap string Z :=
  match m !! name with Some _ => m | None => <[name := id]> m end.

(** [structurallyCompatible] and the guards of [prepareReconfigure]. *)
Definition structurallyCompatible (r : RuntimeObject) (pv : PVConfig) : bool := sameReaderTopology (ro_config r) pv.

Definition prepareReconfigure (o : Outside) (id : Z) (r : RuntimeObject) (pv : PVConfig) : exn unit :=
  throw_if (ro_retired r || negb (sameReaderTopology (ro_config r) pv))
    (if bool_decide (pv_kind (ro_config r) = Config.NTNDArray) then "NTNDArray runtime changed during preparation"
     else "runtime changed during preparation") ;;
  ox_reconfigure o id pv.

(** The runtime that can go on serving the PV. *)
Definition retainedRuntime (a : App) (backends : smap Z) (name : string) (pv : PVConfig) : option (Z * RuntimeObject) :=
  id ← ap_runtimes a !! name; r ← ap_objects a !! id;
  if structurallyCompatible r pv && sameBackendBindings pv (ap_backends a) backends then Some (id, r) else None.

Definition backendMap (backends : smap Z) : gmap string Z := list_to_map backends.
Definition readerPolicies (config : RedisBackendConfigs) : gmap string Z :=
  list_to_map (map (fun e => (e.1, rd_readerProbeMs e.2)) config).

Definition newRuntime (o : Outside) (config : AppConfig) (backends : smap Z) (alarm generation : Z) (pv : PVConfig) : M Z :=
  fun a =>
    match NDRuntime.makeRuntime (app_server config) pv (backendMap backends) (readerPolicies (app_redisBackends config))
            (app_limits config) with
    | Throw what => (a, Throw what)
    | Ret _ =>
        match ox_construct o pv with
        | Throw what => (a, Throw what)
        | Ret _ =>
            (a <| ap_objects := <[ap_next a := {| ro_config := pv; ro_generation := generation; ro_alarm := alarm;
                                                  ro_active := false; ro_retired := false |}]> (ap_objects a) |>
               <| ap_next := ap_next a + 1 |>, Ret (ap_next a))
        end
    end.

Definition prepareRuntime (o : Outside) (config : AppConfig) (backends : smap Z) (alarm generation : Z)
    (s : RuntimeLoop) (pv : PVConfig) : M RuntimeLoop :=
  let name := fullPVName (app_server config) pv in
  a ← get;
  match retainedRuntime a backends name pv with
  | Some (id, r) =>
      _ ← lift (prepareReconfigure o id r pv);
      mret {| lp_runtimes := emplace (lp_runtimes s) name id; lp_updates := lp_updates s ++ [(id, pv)];
              lp_added := lp_added s |}
  | None =>
      id ← newRuntime o config backends alarm generation pv;
      mret {| lp_runtimes := emplace (lp_runtimes s) name id; lp_updates := lp_updates s;
              lp_added := lp_added s ++ [id] |}
  end.

Definition retiredRuntimes (before after : gmap string Z) : list Z :=
  omap (fun '(name, id) => if bool_decide (after !! name = Some id) then None else Some id) (map_to_list before).

(** The lambda [bind]; PVs and RPC endpoints own themselves. *)
Definition bind (bindings : PVBindings) (name : string) (object : Z) (access : AccessAssignment) : exn PVBindings :=
  let '(bindings, inserted) := sm_emplace name (Build_PVBinding (Some object) (Some object) access) bindings in
  if negb inserted then Throw ("duplicate endpoint binding: " +:+ name) else Ret bindings.

Definition pvAssignment (config : AppConfig) (pv : PVConfig) : AccessAssignment :=
  default (ad_pv (ac_defaults (app_access config))) (pv_access pv).

Definition bindPV (config : AppConfig) (runtimes : gmap string Z) (bindings : PVBindings) (pv : PVConfig) : exn PVBindings :=
  match runtimes !! fullPVName (app_server config) pv with
  | None => Throw "_Map_base::at"
  | Some id => exn_fold (fun b name => bind b name id (pvAssignment config pv)) bindings (fullPVNames (app_server config) pv)
  end.

Definition bindRpc (assignments : smap AccessAssignment) (bindings : PVBindings) (rpc : string * Z) : exn PVBindings :=
  match sm_find rpc.1 assignments with
  | None => Throw "_Map_base::at"
  | Some access => bind bindings rpc.1 rpc.2 access
  end.

Definition generationBindings (admin : AdminNamespace) (config : AppConfig) (runtimes : gmap string Z) (rpcs : smap Z)
    (assignments : smap AccessAssignment) : exn PVBindings :=
  bindings ← adminBindings (an_server admin) (an_owner admin) (ac_defaults (app_access config));
  bindings ← exn_fold (bindPV config runtimes) bindings (app_pvs config);
  exn_fold (bindRpc assignments) bindings rpcs.

(** [prepareBindings] of the controller, or [prepare] of the plain registry. *)
Definition prepareNames (o : Outside) (bindings : PVBindings) : M prepared_names := fun a =>
  match ap_access a with
  | Some _ =>
      match prepareBindings (ox_asAddMember o) wrap (ap_names a) bindings with
      | Ret (names, p) => (a <| ap_names := names |>, Ret (PSecured p))
      | Throw what => (a, Throw what)
      end
  | None =>
      match prepare (se_registry (ap_names a)) bindings [] with
      | Ret (registry, p) => (a <| ap_names := (ap_names a) <| se_registry := registry |> |>, Ret (PPlain p))
      | Throw what => (a, Throw what)
      end
  end.

Definition preparePolicy (o : Outside) (config : AppConfig) (a : App) : exn (option PreparedConfiguration) :=
  match ap_access a with
  | Some access =>
      if ap_hasConfig a then Some <$> AccessPolicy.prepareConfiguration access (app_access config) (requiredAccessAsgs config) (ox_files o)
      else Ret None
  | None => Ret None
  end.

Definition prepareBackends (o : Outside) (config : AppConfig) : M (smap Z) := fun a =>
  let '(outcomes, r) := buildRedisBackends o config (ap_config a) (ap_backends a) (ap_next a) in
  let a := setReload (fun s => s <| rl_backends ::= fun l => l ++ outcomes |>) a in
  match r with
  | Ret (backends, next) => (a <| ap_next := next |>, Ret backends)
  | Throw what => (a, Throw what)
  end.

Definition prepareRpcs (o : Outside) (config : AppConfig) : M (smap Z * smap AccessAssignment * list RpcServiceState) :=
  fun a =>
    match buildRpcPVs o config (ap_rpcServices a) (ap_next a) with
    | Ret (pvs, assignments, services, next) => (a <| ap_next := next |>, Ret (pvs, assignments, services))
    | Throw what => (a, Throw what)
    end.

Definition getAdmin (a : App) : exn AdminNamespace :=
  match ap_admin a with Some admin => Ret admin | None => Throw "no diagnostics" end.

(** [applyGeneration] up to the publication.  The diagnostics exist by then. *)
Definition prepareGeneration (o : Outside) (config : AppConfig) (generation : Z) : M Next :=
  _ ← modify (reloadPhase "backends");
  backends ← prepareBackends o config;
  _ ← modify (reloadPhase "runtimes");
  a ← get;
  let reuse := reuseAlarm a config in
  alarm ← prepareAlarm o config;
  loop ← fold_m (prepareRuntime o config backends (default 0 alarm) generation)
           {| lp_runtimes := ∅; lp_updates := []; lp_added := [] |} (app_pvs config);
  _ ← modify (reloadPhase "rpc");
  rpc ← prepareRpcs o config;
  let '(rpcs, assignments, services) := rpc in
  catalog ← lift (buildDiscoveryCatalog o config rpcs (ox_port o) generation);
  admin ← (a ← get; lift (getAdmin a));
  bindings ← lift (generationBindings admin config (lp_runtimes loop) rpcs assignments);
  _ ← modify (reloadPhase "policy");
  policy ← (a ← get; lift (preparePolicy o config a));
  names ← prepareNames o bindings;
  mret {| nx_config := config; nx_generation := generation; nx_backends := backends; nx_alarm := alarm;
          nx_reuseAlarm := reuse; nx_runtimes := lp_runtimes loop; nx_updates := lp_updates loop;
          nx_added := lp_added loop; nx_retired := retiredRuntimes (ap_runtimes a) (lp_runtimes loop);
          nx_rpcPVs := rpcs; nx_rpcAssignments := assignments; nx_rpcServices := services; nx_catalog := catalog;
          nx_policy := policy; nx_names := names |}.

(** ** Publishing it *)

Definition publication (p : prepared_names) : Prepared :=
  match p with PSecured p => pb_publication p | PPlain p => p end.

Definition publishNames (s : Secured) (p : prepared_names) (allowed : bool) : Secured * bool :=
  match p with
  | PSecured p => publishBindings s p allowed
  | PPlain p => let '(registry, published) := publish (se_registry s) p allowed in (s <| se_registry := registry |>, published)
  end.

Definition finishNames (s : Secured) (p : prepared_names) : Secured :=
  match p with
  | PSecured p => finishBindings s p
  | PPlain p => s <| se_registry := finish (se_registry s) p |>
  end.

Definition commitUpdate (generation alarm : Z) (objects : gmap Z RuntimeObject) (u : Z * PVConfig) : gmap Z RuntimeObject :=
  alter (fun r => r <| ro_config := u.2 |> <| ro_generation := generation |> <| ro_alarm := alarm |>) u.1 objects.
Definition activateRuntime (objects : gmap Z RuntimeObject) (id : Z) : gmap Z RuntimeObject :=
  alter (fun r => r <| ro_active := true |>) id objects.

(** The policy becomes active, or the failure that refuses the generation. *)
Definition activatePolicy (o : Outside) (policy : option PreparedConfiguration) (a : App) : App * exn unit :=
  match policy, ap_access a with
  | Some policy, Some access =>
      let '(access, r) := AccessPolicy.activateConfiguration errSymMsg access policy (ox_asInitMem o) in
      (a <| ap_access := Some access |>, r)
  | _, _ => (a, Ret tt)
  end.

Definition commitRuntimes (n : Next) (a : App) : App :=
  a <| ap_objects ::= fun objects =>
         fold_left activateRuntime (nx_added n)
           (fold_left (commitUpdate (nx_generation n) (default 0 (nx_alarm n))) (nx_updates n) objects) |>.

(** [publish] with the lambda [commit]: a stale preparation is refused before
    [commit] runs; then the policy decides. *)
Definition publishGeneration (o : Outside) (n : Next) (a : App) : App * exn unit :=
  if negb (publish_start (se_registry (ap_names a)) (publication (nx_names n))).2 then
    (a, Throw "endpoint publication changed during preparation")
  else
    let '(a, r) := activatePolicy o (nx_policy n) a in
    match r with
    | Throw what => (a <| ap_names := (publishNames (ap_names a) (nx_names n) false).1 |>, Throw what)
    | Ret _ =>
        let a := commitRuntimes n a in
        (a <| ap_names := (publishNames (ap_names a) (nx_names n) true).1 |>, Ret tt)
    end.

Definition swapGeneration (n : Next) (a : App) : App :=
  a <| ap_runtimes := nx_runtimes n |> <| ap_backends := nx_backends n |> <| ap_rpcPVs := nx_rpcPVs n |>
    <| ap_rpcAssignments := nx_rpcAssignments n |> <| ap_rpcServices := nx_rpcServices n |> <| ap_alarm := nx_alarm n |>
    <| ap_config := nx_config n |> <| ap_catalog := nx_catalog n |> <| ap_generation := nx_generation n |>
    <| ap_hasConfig := true |>.

(** ** Refreshing what is served *)

Definition deactivate (id : Z) (a : App) : App :=
  a <| ap_objects ::= alter (fun r => r <| ro_active := false |> <| ro_retired := true |>) id |>.
Definition stopAlarm (id : Z) (a : App) : App := a <| ap_stopped ::= union {[id]} |>.

Definition announce (a : App) : exn App :=
  match ap_discovery a with
  | None => Ret a
  | Some d => d ← Discovery.publish d (ap_catalog a); Ret (a <| ap_discovery := Some d |>)
  end.

Definition generationStatus (generation : Z) (suffix : string) : string :=
  "generation " +:+ to_dec generation +:+ " active" +:+ suffix.
Definition pvCount (a : App) : Z := Z.of_nat (size (ap_runtimes a)) + count (ap_rpcPVs a).

(** The calls after the swap, in order; [old] is the replaced publisher.  Those
    that only post values or notify clients leave the state as it is. *)
Definition refreshSteps (n : Next) (old : option Z) : list (App -> exn App) :=
  [fun a => Ret (reloadPhase "refresh" a);
   fun a => Ret (a <| ap_names ::= fun s => finishNames s (nx_names n) |>)] ++
  map (fun id a => Ret (deactivate id a)) (nx_retired n) ++
  match old with Some id => if nx_reuseAlarm n then [] else [fun a => Ret (stopAlarm id a)] | None => [] end ++
  map (fun _ a => Ret a) (nx_updates n) ++
  [fun a => Ret a; fun a => Ret a; announce;
   fun a => Ret (setAdmin (fun s => s <| an_generation := i64 (nx_generation n) |>) a);
   fun a => Ret (setAdmin (fun s => s <| an_pvCount := i64 (pvCount a) |>) a);
   fun a => Ret (setAdmin (fun s => s <| an_status := generationStatus (nx_generation n) "" |>) a);
   fun a => Ret (setAdmin (fun s => s <| an_error := "" |>) a);
   fun a => Ret a; fun a => Ret a; fun a => Ret a; fun a => Ret a].

(** The steps run until one throws, on its own account or as told. *)
Fixpoint runSteps (steps : list (App -> exn App)) (failure : option (nat * string)) (a : App) : App * exn unit :=
  match steps, failure with
  | [], _ => (a, Ret tt)
  | _ :: _, Some (0%nat, what) => (a, Throw what)
  | step :: steps, _ =>
      match step a with
      | Ret a => runSteps steps (match failure with Some (S n, what) => Some (n, what) | _ => None end) a
      | Throw what => (a, Throw what)
      end
  end.

Definition refreshFailed (generation : Z) (what : string) (a : App) : App :=
  setReload (fun r => r <| rl_error := what |>)
    (setAdmin (fun s => s <| an_generation := i64 generation |> <| an_status := "generation active; refresh failed" |>
                          <| an_error := what |>) a).

Definition refreshGeneration (o : Outside) (n : Next) (old : option Z) (a : App) : App :=
  let '(a, r) := runSteps (refreshSteps n old) (ox_refresh o) a in
  match r with Ret _ => a | Throw what => refreshFailed (nx_generation n) what a end.

(** [Throw] is [false] with its error text. *)
Definition applyGeneration (o : Outside) (config : AppConfig) (generation : Z) (a : App) : App * exn unit :=
  match prepareGeneration o config generation a with
  | (a, Throw what) => (a, Throw what)
  | (a, Ret n) =>
      match publishGeneration o n a with
      | (a, Throw what) => (a, Throw what)
      | (a, Ret _) => (refreshGeneration o n (ap_alarm a) (swapGeneration n a), Ret tt)
      end
  end.

(** ** Reloading *)

Definition immutable (initialLoad : bool) (a : App) (config : AppConfig) : exn unit :=
  let current := ap_config a in
  throw_if (negb initialLoad && negb (sameOperationLimits (app_limits current) (app_limits config)))
    "operation limits are immutable after startup; restart is required" ;;
  throw_if (negb initialLoad && ap_hasConfig a && negb (sameServerConfig (app_server current) (app_server config)))
    "server namespace/bind settings are immutable after startup" ;;
  throw_if (negb initialLoad && ap_hasConfig a &&
            negb (Bool.eqb (ac_enabled (app_access current)) (ac_enabled (app_access config))))
    "access.enabled is immutable after startup; restart is required" ;;
  throw_if (negb initialLoad && negb (sameDiscoveryConfig (app_discovery current) (app_discovery config)))
    "discovery listener settings are immutable after startup; restart is required".

Definition applyConfig (o : Outside) (config : AppConfig) (initialLoad : bool) (a : App) : App * exn unit :=
  let a := describeReload config a in
  match immutable initialLoad a config with
  | Throw what => (a, Throw what)
  | Ret _ => applyGeneration o config (u64 (ap_generation a + 1)) a
  end.

(** The reload of [pump]; [loaded] is what [loadConfigFile] does. *)
Definition pumpReload (o : Outside) (loaded : exn AppConfig) (a : App) : App :=
  let a := beginReload "reload" a in
  match loaded with
  | Throw what =>
      let a := setAdmin (fun s => s <| an_status := "reload failed" |> <| an_error := what |>) a in
      finishReload (ap_generation a =? rl_candidateGeneration (ap_reload a)) what a
  | Ret config =>
      match applyConfig o config false a with
      | (a, Ret _) => finishReload true "" a
      | (a, Throw what) =>
          finishReload false what (setAdmin (fun s => s <| an_status := "reload rejected" |> <| an_error := what |>) a)
      end
  end.

(** ** Recovering RPC services *)

(** What the reflection task returns, and the next free number. *)
Definition taskResult (o : Outside) (task : RpcTask) (next : Z) : RpcServiceState * Z :=
  let failed state what := (RpcServiceState_new (tk_config task)) <| rv_state := state |>
                             <| rv_error := String.substring 0 1024 what |> in
  match reflectRpcService o (tk_server task) (tk_config task) next with
  | Reflected service next => (service, next)
  | DiscoveryUnavailable what => (failed "unavailable" what, next)
  | ReflectionFailed what => (failed "invalid" what, next)
  end.

Definition recoverPV (o : Outside) (a : App) (config : AppConfig) (s : list (Z * PVConfig) * PVBindings) (pv : PVConfig)
    : exn (list (Z * PVConfig) * PVBindings) :=
  match id ← ap_runtimes a !! fullPVName (app_server config) pv; r ← ap_objects a !! id; Some (id, r) with
  | None => Throw "_Map_base::at"
  | Some (id, r) =>
      _ ← prepareReconfigure o id r pv;
      Ret (s.1 ++ [(id, pv)],
           fold_left (fun b name => (sm_emplace name (Build_PVBinding (Some id) (Some id) (pvAssignment config pv)) b).1)
             (fullPVNames (app_server config) pv) s.2)
  end.

Definition recoverRpc (assignments : smap AccessAssignment) (bindings : PVBindings) (rpc : string * Z) : exn PVBindings :=
  match sm_find rpc.1 assignments with
  | None => Throw "_Map_base::at"
  | Some access => Ret (sm_emplace rpc.1 (Build_PVBinding (Some rpc.2) (Some rpc.2) access) bindings).1
  end.

(** The [try] block up to the publication, as a [Next] that keeps everything
    but the RPC endpoints and the catalog. *)
Definition prepareRecovery (o : Outside) (services : list RpcServiceState) (generation : Z) : M Next :=
  a ← get;
  let config := ap_config a in
  rpc ← lift (assembleRpcPVs config services);
  let '(rpcs, assignments) := rpc in
  catalog ← lift (buildDiscoveryCatalog o config rpcs (ox_port o) generation);
  admin ← lift (getAdmin a);
  bindings ← lift (adminBindings (an_server admin) (an_owner admin) (ac_defaults (app_access config)));
  prepared ← lift (exn_fold (recoverPV o a config) ([], bindings) (app_pvs config));
  let '(updates, bindings) := prepared in
  bindings ← lift (exn_fold (recoverRpc assignments) bindings rpcs);
  names ← prepareNames o bindings;
  _ ← modify (reloadPhase "publish");
  mret {| nx_config := config; nx_generation := generation; nx_backends := ap_backends a; nx_alarm := ap_alarm a;
          nx_reuseAlarm := true; nx_runtimes := ap_runtimes a; nx_updates := updates; nx_added := []; nx_retired := [];
          nx_rpcPVs := rpcs; nx_rpcAssignments := assignments; nx_rpcServices := services; nx_catalog := catalog;
          nx_policy := None; nx_names := names |}.

Definition swapRecovery (n : Next) (a : App) : App :=
  a <| ap_rpcServices := nx_rpcServices n |> <| ap_rpcPVs := nx_rpcPVs n |> <| ap_rpcAssignments := nx_rpcAssignments n |>
    <| ap_catalog := nx_catalog n |> <| ap_generation := nx_generation n |>.

Definition recoverySteps (n : Next) : list (App -> exn App) :=
  [fun a => Ret (reloadPhase "refresh" a);
   fun a => Ret (a <| ap_names ::= fun s => finishNames s (nx_names n) |>)] ++
  map (fun _ a => Ret a) (nx_updates n) ++
  [announce;
   fun a => Ret (setAdmin (fun s => s <| an_generation := i64 (nx_generation n) |>) a);
   fun a => Ret (setAdmin (fun s => s <| an_pvCount := i64 (pvCount a) |>) a);
   fun a => Ret (setAdmin (fun s => s <| an_status := generationStatus (nx_generation n) " after optional RPC recovery" |>) a);
   fun a => Ret (setAdmin (fun s => s <| an_error := "" |>) a)].

Definition invalidService (what : string) (s : RpcServiceState) : RpcServiceState :=
  s <| rv_state := "invalid" |> <| rv_error := String.substring 0 1024 what |> <| rv_attempts ::= fun n => u64 (n + 1) |>.

Definition recoveryRefused (index : nat) (what : string) (a : App) : App :=
  finishReload false what (setAdmin (fun s => s <| an_error := what |>)
    (a <| ap_rpcServices ::= alter (invalidService what) index |>)).

Definition recoveryCommitted (r : exn unit) (a : App) : App :=
  match r with
  | Ret _ => finishReload true "" a
  | Throw what => finishReload true what (setAdmin (fun s => s <| an_error := what |>) a)
  end.

(** The [try] block and its handler, once the report has begun. *)
Definition recoverFrom (o : Outside) (index : nat) (recovered : RpcServiceState) (a : App) : App :=
  match prepareRecovery o (<[index := recovered]> (ap_rpcServices a)) (u64 (ap_generation a + 1)) a with
  | (a, Throw what) => recoveryRefused index what a
  | (a, Ret n) =>
      match publishGeneration o n a with
      | (a, Throw what) => recoveryRefused index what a
      | (a, Ret _) => let '(a, r) := runSteps (recoverySteps n) (ox_refresh o) (swapRecovery n a) in recoveryCommitted r a
      end
  end.

Definition recoverService (o : Outside) (index : nat) (recovered : RpcServiceState) (a : App) : App :=
  recoverFrom o index recovered (describeReload (ap_config a) (beginReload "rpc-recovery" a)).

(** The finished task; a reload may have retired its service meanwhile. *)
Definition finishTask (o : Outside) (task : RpcTask) (a : App) : App :=
  let '(recovered, next) := taskResult o task (ap_next a) in
  let a := a <| ap_task := None |> <| ap_next := next |> in
  match ap_rpcServices a !! tk_index task with
  | Some service =>
      if negb (tk_generation task =? ap_generation a) then a
      else
        let recovered := recovered <| rv_attempts := u64 (rv_attempts service + 1) |> in
        if negb (String.eqb (rv_state recovered) "ready") then
          a <| ap_rpcServices ::= <[tk_index task := recovered <| rv_nextRetry := ox_now o + rs_retryIntervalMs (rv_config recovered) |>]> |>
        else recoverService o (tk_index task) recovered a
  | None => a
  end.

(** The index of the next service to reflect, round robin. *)
Fixpoint nextDiscovery (now : Z) (services : list RpcServiceState) (first offset todo : nat) : option nat :=
  match todo with
  | 0%nat => None
  | S todo =>
      let index := ((first + offset) mod length services)%nat in
      match services !! index with
      | Some service =>
          if String.eqb (rv_state service) "unavailable" && (rv_nextRetry service <=? now) then Some index
          else nextDiscovery now services first (S offset) todo
      | None => None
      end
  end.

Definition startTask (o : Outside) (a : App) : App :=
  match nextDiscovery (ox_now o) (ap_rpcServices a) (ap_nextIndex a) 0 (length (ap_rpcServices a)) with
  | Some index =>
      match ap_rpcServices a !! index with
      | Some service =>
          a <| ap_task := Some {| tk_generation := ap_generation a; tk_index := index;
                                  tk_server := app_server (ap_config a); tk_config := rv_config service |} |>
            <| ap_nextIndex := (S index mod length (ap_rpcServices a))%nat |>
            <| ap_rpcServices ::= alter (fun s => s <| rv_state := "discovering" |>) index |>
      | None => a
      end
  | None => a
  end.

(** [ready] says that the task, if there is one, has finished. *)
Definition pumpRpcRecovery (o : Outside) (ready : bool) (a : App) : App :=
  if negb (ox_grpc o) then a
  else match ap_task a with
       | Some task => if ready then startTask o (finishTask o task a) else a
       | None => startTask o a
       end.

(** ** The main loop, start and stop *)

Record PumpInput := { pu_load : exn AppConfig; pu_out : Outside; pu_access : AccessPolicy.PumpInput; pu_ready : bool }.

Context (S_asLib_asNotActive : Z).

(** The put handlers of the two commands. *)
Definition putReload (a : App) : App := setAdmin (fun s => s <| an_reloadRequested := true |>) a.
Definition putAccessReload (accessConfigured : bool) (a : App) : exn App :=
  if negb accessConfigured then Throw "access control is disabled"
  else Ret (setAdmin (fun s => s <| an_accessReloadRequested := true |>) a).
Definition requestReload (a : App) : App := a <| ap_reloadRequested := true |>.

Definition consumeReload (a : App) : App :=
  match ap_admin a with
  | Some admin =>
      if an_reloadRequested admin
      then setAdmin (fun s => s <| an_reloadRequested := false |>) (requestReload a) else a
  | None => a
  end.

Definition consumeAccessReload (a : App) : App :=
  match ap_access a, ap_admin a with
  | Some access, Some admin =>
      if an_accessReloadRequested admin
      then setAdmin (fun s => s <| an_accessReloadRequested := false |>)
             (a <| ap_access := Some (AccessPolicy.requestReload access "admin-pv") |>)
      else a
  | _, _ => a
  end.

Definition pumpAccess (i : AccessPolicy.PumpInput) (a : App) : App :=
  a <| ap_access ::= fmap (fun access => (AccessPolicy.pump errSymMsg S_asLib_asNotActive access i).1) |>.

(** [pump], without the posting of health and statistics once a second.  It is
    one turn of the main thread, and the server's threads run beside it: what
    they can find in the meantime is [pumpViews]. *)
Definition pump (i : PumpInput) (a : App) : App :=
  if negb (ap_started a) then a
  else
    let a := consumeAccessReload (consumeReload a) in
    let a := if ap_reloadRequested a then pumpReload (pu_out i) (pu_load i) (a <| ap_reloadRequested := false |>) else a in
    pumpRpcRecovery (pu_out i) (pu_ready i) (pumpAccess (pu_access i) a).

(** ** What the server's threads see of a pump

    The lambda [commit] of a reload puts the new policy in force before the
    registry stores the new snapshot.  Until the store, searches and channels
    find the old names, under the new policy. *)
Definition commitWindow (o : Outside) (config : AppConfig) (generation : Z) (a : App) : option App :=
  match prepareGeneration o config generation a with
  | (_, Throw _) => None
  | (a, Ret n) =>
      if negb (publish_start (se_registry (ap_names a)) (publication (nx_names n))).2 then None
      else match activatePolicy o (nx_policy n) a with
           | (_, Throw _) => None
           | (a, Ret _) => Some a
           end
  end.

Definition reloadWindow (o : Outside) (loaded : exn AppConfig) (a : App) : option App :=
  match loaded with
  | Throw _ => None
  | Ret config =>
      let a := describeReload config (beginReload "reload" a) in
      match immutable false a config with
      | Throw _ => None
      | Ret _ => commitWindow o config (u64 (ap_generation a + 1)) a
      end
  end.

Definition pumpWindow (i : PumpInput) (a : App) : option App :=
  if negb (ap_started a) then None
  else
    let a := consumeAccessReload (consumeReload a) in
    if ap_reloadRequested a then reloadWindow (pu_out i) (pu_load i) (a <| ap_reloadRequested := false |>) else None.

(** The stages of a pump, in order. *)
Definition pumpViews (i : PumpInput) (a : App) : list App :=
  let commands := consumeAccessReload (consumeReload a) in
  let reloaded := if ap_reloadRequested commands
                  then pumpReload (pu_out i) (pu_load i) (commands <| ap_reloadRequested := false |>) else commands in
  let access := pumpAccess (pu_access i) reloaded in
  [a; commands] ++ option_list (pumpWindow i a) ++ [reloaded; access; pumpRpcRecovery (pu_out i) (pu_ready i) access].

(** [st_build] and [st_start] are building and starting the PVXS server. *)
Record StartInput := { st_load : exn AppConfig; st_out : Outside; st_build : exn unit; st_start : exn unit }.

(** The policy of a secured application, in a new controller. *)
Definition startAccess (o : Outside) (config : AppConfig) (a : App) : App * exn unit :=
  if negb (ac_enabled (app_access config)) then (a, Ret tt)
  else
    let a := reloadPhase "policy" a in
    let '(access, r, _) := AccessPolicy.start errSymMsg (AccessPolicy.AccessImpl_new (app_access config))
                             (requiredAccessAsgs config) (ox_files o) (ox_asInitMem o) in
    (a <| ap_access := Some access |> <| ap_names := Secured_new |>, r).

Definition startAdmin (config : AppConfig) (a : App) : App :=
  a <| ap_admin := Some (AdminNamespace_new (ap_next a) (app_server config)) |> <| ap_next := ap_next a + 1 |>.

Definition startDiscovery (config : AppConfig) (a : App) : exn App :=
  if dc_enabled (app_discovery config) then announce (a <| ap_discovery := Some Discovery.Impl_new |>) else Ret a.

Definition start (i : StartInput) (a : App) : App * exn unit :=
  let o := st_out i in
  let a := beginReload "startup" a in
  let fails (a : App) what := (finishReload (ap_hasConfig a) what a, Throw what) in
  match st_load i with
  | Throw what => fails a what
  | Ret config =>
      let a := describeReload config a in
      match st_build i with
      | Throw what => fails a what
      | Ret _ =>
          match startAccess o config a with
          | (a, Throw what) => (finishReload false what a, Throw what)
          | (a, Ret _) =>
              match applyConfig o config true (startAdmin config a) with
              | (a, Throw what) => (finishReload false what a, Throw what)
              | (a, Ret _) =>
                  match (_ ← st_start i; startDiscovery config a) with
                  | Throw what => fails a what
                  | Ret a => (finishReload true "" (a <| ap_started := true |>), Ret tt)
                  end
              end
          end
      end
  end.

Definition clearNames (o : Outside) (a : App) : exn Secured :=
  match ap_access a with
  | Some _ => clearBindings (ox_asAddMember o) wrap (ap_names a)
  | None => registry ← clear (se_registry (ap_names a)); Ret ((ap_names a) <| se_registry := registry |>)
  end.

Definition stop (o : Outside) (a : App) : App * exn unit :=
  if negb (ap_started a) && negb (ap_hasConfig a) then (a, Ret tt)
  else
    let a := a <| ap_discovery := None |> <| ap_catalog := None |> in
    match clearNames o a with
    | Throw what => (a, Throw what)
    | Ret names =>
        let a := fold_left (fun a e => deactivate e.2 a) (map_to_list (ap_runtimes a)) (a <| ap_names := names |>) in
        (a <| ap_runtimes := ∅ |> <| ap_rpcPVs := [] |> <| ap_rpcServices := [] |> <| ap_backends := [] |>
           <| ap_alarm := None |> <| ap_access := None |> <| ap_hasConfig := false |> <| ap_started := false |>, Ret tt)
    end.

End Application.
