(* ===== verification/AppFacts.v ===== *)
(** * Preparing a generation leaves the active one alone

    Everything [applyGeneration] and the recovery of an RPC service do before
    they publish is additive: new objects with new numbers, registrations that
    no name is served by, and the report.  These lemmas say what the
    preparation of a generation may change ([grows]) and what it has built
    when it succeeds. *)

From S2P Require Import Prelude.
From S2P Require Import StrMap.
From S2P Require Import Config.
From S2P Require Import Endpoints.
From S2P Require Import ConfigDiff.
From S2P Require Import PVRegistry.
From S2P Require Import AccessBindings.
From S2P Require Import Generation.
From S2P Require Import App.
From S2P Require Acf.
From S2P Require AccessPolicy.

Local Open Scope string_scope.
Local Open Scope list_scope.
Local Open Scope Z_scope.

(** ** The frame *)

(** What clients, operators and the other threads can observe, but for the
    registry and the objects. *)
Definition core (a : App) :=
  (ap_config a, ap_hasConfig a, ap_generation a, ap_backends a, ap_alarm a, ap_runtimes a, ap_rpcPVs a,
   ap_rpcAssignments a, ap_rpcServices a, ap_catalog a, ap_discovery a, ap_access a, ap_stopped a, ap_started a,
   ap_reloadRequested a, ap_task a, ap_nextIndex a).

(** The diagnostics, but for the report on the reload. *)
Definition posted (a : App) :=
  (fun n => (an_owner n, an_server n, an_generation n, an_status n, an_error n, an_pvCount n, an_reloadRequested n,
             an_accessReloadRequested n)) <$> ap_admin a.

Definition names_ok (a : App) : Prop :=
  match ap_access a with
  | Some _ => members_ok (ap_names a)
  | None => quiet (se_registry (ap_names a))
  end.

Definition numbered (a : App) : Prop := forall id, is_Some (ap_objects a !! id) -> id < ap_next a.

Record grows (a a' : App) : Prop := {
  gr_core : core a' = core a;
  gr_posted : posted a' = posted a;
  gr_objects : numbered a -> forall id r, ap_objects a !! id = Some r -> ap_objects a' !! id = Some r;
  gr_fresh : forall id, is_Some (ap_objects a' !! id) -> is_Some (ap_objects a !! id) \/ ap_next a <= id < ap_next a';
  gr_next : ap_next a <= ap_next a';
  gr_names : names_ok a -> names_ok a' /\ unchanged (ap_names a) (ap_names a');
}.

Lemma grows_numbered a a' : grows a a' -> numbered a -> numbered a'.
Proof. intros H Hn id [Hs|Hs]%(gr_fresh _ _ H); [apply Hn in Hs; pose proof (gr_next _ _ H); lia|lia]. Qed.

Lemma names_ok_access a a' : ap_access a' = ap_access a -> ap_names a' = ap_names a -> names_ok a -> names_ok a'.
Proof. unfold names_ok. by intros -> ->. Qed.

Lemma unchanged_refl s : unchanged s s.
Proof. split; [apply same_names_refl|done]. Qed.
Lemma unchanged_trans s1 s2 s3 : unchanged s1 s2 -> unchanged s2 s3 -> unchanged s1 s3.
Proof. intros [H1 H2] [H3 H4]. split; [by eapply same_names_trans|congruence]. Qed.

Lemma core_access a a' : core a' = core a -> ap_access a' = ap_access a.
Proof. unfold core. intros H. by simplify_eq. Qed.

#[export] Instance grows_preorder : PreOrder grows.
Proof.
  split.
  - intros a. split; [done|done|done|by left|lia|]. intros H. split; [done|apply unchanged_refl].
  - intros a b c H1 H2. pose proof (grows_numbered _ _ H1) as Hb.
    destruct H1 as [C1 P1 O1 F1 N1 S1], H2 as [C2 P2 O2 F2 N2 S2]. split; [congruence|congruence|eauto| |lia|].
    + intros id [H|H]%F2; [|right; lia]. apply F1 in H as [H|H]; [by left|right; lia].
    + intros Ha. destruct (S1 Ha) as [Hab U1]. destruct (S2 Hab) as [Hc U2]. split; [done|]. by eapply unchanged_trans.
Qed.

(** Changes that touch the report only. *)
Lemma grows_report a a' :
  core a' = core a -> posted a' = posted a -> ap_objects a' = ap_objects a -> ap_next a <= ap_next a' ->
  ap_names a' = ap_names a -> grows a a'.
Proof.
  intros Hc Hp Ho Hn Hs. split; rewrite ?Ho; [done|done|done|by left|done|]. intros H. rewrite Hs. split; [|apply unchanged_refl].
  eapply names_ok_access; [by apply core_access|done|done].
Qed.

Lemma posted_setAdmin f a :
  (forall n, (an_owner (f n), an_server (f n), an_generation (f n), an_status (f n), an_error (f n), an_pvCount (f n),
              an_reloadRequested (f n), an_accessReloadRequested (f n)) =
             (an_owner n, an_server n, an_generation n, an_status n, an_error n, an_pvCount n, an_reloadRequested n,
              an_accessReloadRequested n)) ->
  posted (setAdmin f a) = posted a.
Proof. intros Hf. unfold posted, setAdmin. cbn. destruct (ap_admin a); [|done]. cbn. by rewrite Hf. Qed.

Lemma grows_phase phase a : grows a (reloadPhase phase a).
Proof. apply grows_report; try done; try lia. unfold reloadPhase, publishReload. by rewrite posted_setAdmin. Qed.

Lemma grows_describe config a : grows a (describeReload config a).
Proof.
  apply grows_report; try done; try lia. unfold describeReload, reloadPhase, publishReload. rewrite posted_setAdmin by done.
  unfold setReload at 1. transitivity (posted (setAdmin (fun n => n <| an_lastDiff := formatConfigDiff (diffConfigs (ap_config a) config) true |>) a)); [done|].
  by rewrite posted_setAdmin.
Qed.

Lemma grows_begin kind a : grows a (beginReload kind a).
Proof.
  apply grows_report; try done; try lia. unfold beginReload, publishReload. rewrite posted_setAdmin by done.
  transitivity (posted (setAdmin (fun n => n <| an_lastDiff := "{}" |>) a)); [done|]. by rewrite posted_setAdmin.
Qed.

Lemma grows_finish accepted error a : grows a (finishReload accepted error a).
Proof. apply grows_report; try done; try lia. unfold finishReload, publishReload. by rewrite posted_setAdmin. Qed.

(** ** Computations that only grow the state *)

Definition growing {A} (m : M A) : Prop := forall a, grows a (m a).1.

Lemma growing_ret {A} (x : A) : growing (mret x).
Proof. intros a. reflexivity. Qed.
Lemma growing_lift {A} (m : exn A) : growing (lift m).
Proof. intros a. reflexivity. Qed.
Lemma growing_get : growing get.
Proof. intros a. reflexivity. Qed.
Lemma growing_phase phase : growing (modify (reloadPhase phase)).
Proof. intros a. apply grows_phase. Qed.

(** [f] need only grow the state on results that [m] can have. *)
Lemma growing_bind {A B} (m : M A) (f : A -> M B) :
  growing m -> (forall x, (exists a a', m a = (a', Ret x)) -> growing (f x)) -> growing (m ≫= f).
Proof.
  intros Hm Hf a. unfold mbind, M_bind. specialize (Hm a). destruct (m a) as [a' [x|what]] eqn:E; [|done].
  etransitivity; [exact Hm|]. apply Hf. eauto.
Qed.

Lemma growing_fold {S A} (f : S -> A -> M S) s l :
  (forall s x, growing (f s x)) -> growing (fold_m f s l).
Proof.
  intros Hf. revert s; induction l as [|x l IH]; intros s; [apply growing_ret|]. cbn.
  apply growing_bind; [done|]. intros s' _. apply IH.
Qed.

Lemma bind_ret_inv {A B} (m : M A) (f : A -> M B) a a' y :
  (m ≫= f) a = (a', Ret y) <-> exists a1 x, m a = (a1, Ret x) /\ f x a1 = (a', Ret y).
Proof.
  unfold mbind, M_bind. destruct (m a) as [a1 [x|what]]; [naive_solver|]. split; [done|]. intros (?&?&?&?). congruence.
Qed.

Create HintDb grow.
#[export] Hint Resolve growing_ret growing_lift growing_get growing_phase : grow.

(** ** The steps of the preparation *)

Lemma buildBackends_next o previous existing entries : forall backends next outcomes backends' next',
  buildBackends o previous existing entries backends next = (outcomes, Ret (backends', next')) -> next <= next'.
Proof.
  induction entries as [|[n c] rest IH]; intros backends next outcomes backends' next'; cbn.
  { intros [= <- <- <-]. lia. }
  destruct (retainedBackend _ _ _ _) as [b|].
  - destruct (buildBackends _ _ _ rest _ _) as [out r] eqn:E. intros [= <- ->]. by eapply IH.
  - destruct (ox_adapter o n c); [|done].
    destruct (buildBackends _ _ _ rest _ _) as [out r] eqn:E. intros [= <- ->]. apply IH in E. lia.
Qed.

Lemma growing_backends o config : growing (prepareBackends o config).
Proof.
  intros a. unfold prepareBackends, buildRedisBackends.
  destruct (buildBackends _ _ _ _ _ _) as [out [[backends next]|what]] eqn:E; cbn.
  - apply buildBackends_next in E. by apply grows_report.
  - by apply grows_report.
Qed.

Lemma growing_alarm o config : growing (prepareAlarm o config).
Proof.
  intros a. unfold prepareAlarm. destruct (reuseAlarm a config); [reflexivity|].
  destruct (ConfigSafety.buildAlarmPublisher _ _); [|reflexivity]. apply grows_report; try done. cbn. lia.
Qed.

Lemma growing_newRuntime o config backends alarm generation pv : growing (newRuntime o config backends alarm generation pv).
Proof.
  intros a. unfold newRuntime. destruct (NDRuntime.makeRuntime _ _ _ _ _); [|reflexivity].
  destruct (ox_construct o pv); [|reflexivity]. split; try done; cbn.
  - intros Hn id r Hr. rewrite lookup_insert_ne; [done|]. intros <-. assert (ap_next a < ap_next a) by (apply Hn; eauto). lia.
  - intros id [->|[_ ?]]%lookup_insert_is_Some; [right; lia|by left].
  - lia.
Qed.

Lemma growing_runtime o config backends alarm generation s pv :
  growing (prepareRuntime o config backends alarm generation s pv).
Proof.
  unfold prepareRuntime. apply growing_bind; [apply growing_get|]. intros a _.
  destruct (retainedRuntime _ _ _ _) as [[id r]|].
  - apply growing_bind; [apply growing_lift|]. intros u _. apply growing_ret.
  - apply growing_bind; [apply growing_newRuntime|]. intros id _. apply growing_ret.
Qed.

Lemma reflectMethods_next server svc methods : forall result next service next',
  reflectMethods server svc methods result next = Reflected service next' -> next <= next'.
Proof.
  induction methods as [|[s m] methods IH]; intros result next service next'; cbn; [intros [= _ <-]; lia|].
  destruct (sm_emplace _ _ _) as [pvs []]; cbn; [|done]. intros H%IH. lia.
Qed.

Lemma reflectRpcService_next o server svc next service next' :
  reflectRpcService o server svc next = Reflected service next' -> next <= next'.
Proof.
  unfold reflectRpcService. destruct (ox_discover o svc) as [[|m l] [u|]| |]; try done. apply reflectMethods_next.
Qed.

Lemma stageService_next o server previous s svc s' : stageService o server previous s svc = Ret s' -> s.2 <= s'.2.
Proof.
  destruct s as [staged next]. unfold stageService. destruct (List.find _ _); [intros [= <-]; cbn; lia|].
  destruct (reflectRpcService _ _ _ _) as [service next'|what|what] eqn:E; [|destruct (negb _); [done|]|done]; intros [= <-]; cbn.
  - by apply reflectRpcService_next in E.
  - lia.
Qed.

Lemma growing_rpcs o config : growing (prepareRpcs o config).
Proof.
  intros a. unfold prepareRpcs. destruct (buildRpcPVs _ _ _ _) as [[[[pvs assignments] services] next]|what] eqn:E;
    [|reflexivity]. apply grows_report; try done. cbn [fst].
  unfold buildRpcPVs in E. apply exn_bind_ret in E as ([staged next1] & Hst & ([p1 a1] & _ & Hret)%exn_bind_ret).
  injection Hret as <- <- <- <-. change (ap_next a <= next1). destruct (ox_grpc o).
  - apply (exn_fold_inv (fun s : list RpcServiceState * Z => ap_next a <= s.2)) in Hst; [done|cbn; lia|].
    intros s1 svc s2 _ Hle Hs%stageService_next. lia.
  - apply exn_bind_ret in Hst as (_ & _ & [= <- <-]). lia.
Qed.

Lemma growing_names wrap o bindings : sm_wf bindings -> growing (prepareNames wrap o bindings).
Proof.
  intros Hwf a. unfold prepareNames. destruct (ap_access a) as [access|] eqn:Ea.
  - destruct (prepareBindings _ _ _ _) as [[names p]|what] eqn:Ep; [|reflexivity].
    split; cbn; try done; [by left|]. unfold names_ok. cbn. rewrite Ea. intros Hs.
    destruct (prepareBindings_cases _ _ _ _ _ _ Hs Hwf Ep) as (? & ? & _). done.
  - destruct (prepare _ _ _) as [[registry p]|what] eqn:Ep; [|reflexivity].
    split; cbn; try done; [by left|]. unfold names_ok. cbn. rewrite Ea. intros Hq.
    destruct (quiet_prepare _ _ _ _ _ Hq Hwf Ep) as [? ?]. split; [done|]. by split.
Qed.

(** ** The bindings of a generation *)

Definition own (id : Z) (access : AccessAssignment) : PVBinding := Build_PVBinding (Some id) (Some id) access.

(** [bs'] is [bs] with the entries added, none of which was there. *)
Definition adds (bs : PVBindings) (entries : list (string * PVBinding)) (bs' : PVBindings) : Prop :=
  sm_wf bs' /\ forall n b, sm_find n bs' = Some b <-> sm_find n bs = Some b \/ (n, b) ∈ entries.

Lemma adds_nil bs : sm_wf bs -> adds bs [] bs.
Proof. intros Hwf. split; [done|]. intros n b. rewrite elem_of_nil. tauto. Qed.

Lemma adds_app bs l1 bs1 l2 bs2 : adds bs l1 bs1 -> adds bs1 l2 bs2 -> adds bs (l1 ++ l2) bs2.
Proof. intros [_ H1] [Hwf H2]. split; [done|]. intros n b. rewrite H2, H1, elem_of_app. tauto. Qed.

Lemma adds_new bs n b : sm_wf bs -> n ∉ sm_keys bs -> adds bs [(n, b)] (sm_set n b bs).
Proof.
  intros Hwf Hn. split; [by apply sm_wf_set|]. intros n' b'. rewrite sm_find_set, list_elem_of_singleton.
  apply sm_find_None in Hn. case_decide as E; [subst; rewrite Hn|]; naive_solver.
Qed.

Lemma adds_fold {A} (f : PVBindings -> A -> exn PVBindings) (E : A -> list (string * PVBinding)) l bs bs' :
  (forall bs1 x bs2, x ∈ l -> sm_wf bs1 -> f bs1 x = Ret bs2 -> adds bs1 (E x) bs2) -> sm_wf bs ->
  exn_fold f bs l = Ret bs' -> adds bs (concat (map E l)) bs'.
Proof.
  revert bs; induction l as [|x l IH]; intros bs Hf Hwf; cbn; [intros [= <-]; by apply adds_nil|].
  intros (bs1 & H1 & H2)%exn_bind_ret. pose proof (Hf _ _ _ (list_elem_of_here x l) Hwf H1) as Ha.
  eapply adds_app; [exact Ha|]. apply IH; [|apply Ha|done]. intros ??? Hin. apply Hf. by right.
Qed.

Lemma bind_adds bs n id access bs' : sm_wf bs -> App.bind bs n id access = Ret bs' -> adds bs [(n, own id access)] bs'.
Proof.
  intros Hwf. unfold App.bind, sm_emplace. destruct (sm_has n bs) eqn:E; cbn; [done|]. intros [= <-].
  apply adds_new; [done|]. intros Hin%sm_has_spec. congruence.
Qed.

Definition pvEntries (config : AppConfig) (runtimes : gmap string Z) (pv : PVConfig) : list (string * PVBinding) :=
  match runtimes !! fullPVName (app_server config) pv with
  | Some id => map (fun n => (n, own id (pvAssignment config pv))) (fullPVNames (app_server config) pv)
  | None => []
  end.

Definition rpcEntries (assignments : smap AccessAssignment) (rpc : string * Z) : list (string * PVBinding) :=
  match sm_find rpc.1 assignments with Some access => [(rpc.1, own rpc.2 access)] | None => [] end.

Lemma bindPV_adds config runtimes bs pv bs' :
  sm_wf bs -> bindPV config runtimes bs pv = Ret bs' -> adds bs (pvEntries config runtimes pv) bs'.
Proof.
  intros Hwf. unfold bindPV, pvEntries. destruct (runtimes !! _) as [id|]; [|done]. intros Hf.
  pose proof (adds_fold (fun b name => App.bind b name id (pvAssignment config pv))
    (fun n => [(n, own id (pvAssignment config pv))]) _ _ _ (fun _ _ _ _ => bind_adds _ _ _ _ _) Hwf Hf) as H.
  replace (map _ _) with (concat (map (fun n => [(n, own id (pvAssignment config pv))]) (fullPVNames (app_server config) pv))); [done|].
  clear. induction (fullPVNames _ _) as [|n l IH]; [done|]. cbn. by rewrite IH.
Qed.

Lemma bindRpc_adds assignments bs rpc bs' :
  sm_wf bs -> bindRpc assignments bs rpc = Ret bs' -> adds bs (rpcEntries assignments rpc) bs'.
Proof. intros Hwf. unfold bindRpc, rpcEntries. destruct (sm_find _ _); [|done]. by apply bind_adds. Qed.

(** The owner and access of each name of a generation. *)
Definition expected (admin : AdminNamespace) (config : AppConfig) (runtimes : gmap string Z) (rpcs : smap Z)
    (assignments : smap AccessAssignment) (n : string) (b : PVBinding) : Prop :=
  (exists command, (n, command) ∈ diagnostics (an_server admin) /\
     b = adminBinding (an_owner admin) (ac_defaults (app_access config)) command) \/
  (exists pv id, pv ∈ app_pvs config /\ n ∈ fullPVNames (app_server config) pv /\
     runtimes !! fullPVName (app_server config) pv = Some id /\ b = own id (pvAssignment config pv)) \/
  (exists id access, (n, id) ∈ rpcs /\ sm_find n assignments = Some access /\ b = own id access).

Lemma elem_concat_map {A B} (f : A -> list B) l y : y ∈ concat (map f l) <-> exists x, x ∈ l /\ y ∈ f x.
Proof.
  induction l as [|x l IH]; cbn; [setoid_rewrite elem_of_nil; naive_solver|].
  rewrite elem_of_app, IH. setoid_rewrite elem_of_cons. naive_solver.
Qed.

Lemma entries_expected admin config runtimes rpcs assignments bs1 bs2 bs3 :
  adminBindings (an_server admin) (an_owner admin) (ac_defaults (app_access config)) = Ret bs1 ->
  adds bs1 (concat (map (pvEntries config runtimes) (app_pvs config))) bs2 ->
  adds bs2 (concat (map (rpcEntries assignments) rpcs)) bs3 ->
  sm_wf bs3 /\ forall n b, sm_find n bs3 = Some b <-> expected admin config runtimes rpcs assignments n b.
Proof.
  intros H1 [Hwf2 Hf2] [Hwf3 Hf3]. destruct (proj1 (adminBindings_spec _ _ _) _ H1) as [Hwf1 Hf1].
  split; [done|]. intros n b. rewrite Hf3, Hf2, Hf1, !elem_concat_map. unfold expected, pvEntries, rpcEntries.
  assert (Hpv : (exists pv, pv ∈ app_pvs config /\ (n, b) ∈ pvEntries config runtimes pv) <->
    exists pv id, pv ∈ app_pvs config /\ n ∈ fullPVNames (app_server config) pv /\
      runtimes !! fullPVName (app_server config) pv = Some id /\ b = own id (pvAssignment config pv)).
  { unfold pvEntries. split.
    - intros (pv & Hpv & Hin). destruct (runtimes !! _) as [id|] eqn:E; [|by apply elem_of_nil in Hin].
      apply list_elem_of_fmap in Hin as (n' & [= -> ->] & Hn). eauto 10.
    - intros (pv & id & Hpv & Hn & Hid & ->). exists pv. rewrite Hid. split; [done|].
      apply list_elem_of_fmap. eauto. }
  assert (Hrpc : (exists rpc, rpc ∈ (rpcs : list (string * Z)) /\ (n, b) ∈ rpcEntries assignments rpc) <->
    exists id access, (n, id) ∈ rpcs /\ sm_find n assignments = Some access /\ b = own id access).
  { unfold rpcEntries. split.
    - intros ([n' id] & Hin & Hb). cbn in Hb. destruct (sm_find n' assignments) as [access|] eqn:E; [|by apply elem_of_nil in Hb].
      apply list_elem_of_singleton in Hb as [= -> ->]. eauto 10.
    - intros (id & access & Hin & Ha & ->). exists (n, id). cbn. rewrite Ha. split; [done|]. by apply list_elem_of_singleton. }
  fold (pvEntries config runtimes). fold (rpcEntries assignments). rewrite <-Hpv, <-Hrpc. tauto.
Qed.

Lemma generationBindings_spec admin config runtimes rpcs assignments bs :
  generationBindings admin config runtimes rpcs assignments = Ret bs ->
  sm_wf bs /\ forall n b, sm_find n bs = Some b <-> expected admin config runtimes rpcs assignments n b.
Proof.
  unfold generationBindings.
  intros (bs1 & H1 & (bs2 & H2 & H3)%exn_bind_ret)%exn_bind_ret.
  pose proof (proj1 (proj1 (adminBindings_spec _ _ _) _ H1)) as Hwf1.
  pose proof (adds_fold _ (pvEntries config runtimes) _ _ _ (fun _ _ _ _ => bindPV_adds _ _ _ _ _) Hwf1 H2) as Ha2.
  pose proof (adds_fold _ (rpcEntries assignments) _ _ _ (fun _ _ _ _ => bindRpc_adds _ _ _ _) (proj1 Ha2) H3) as Ha3.
  by eapply entries_expected.
Qed.

(** ** The runtimes of a generation *)

Definition linked (a : App) : Prop := forall name id, ap_runtimes a !! name = Some id -> is_Some (ap_objects a !! id).

Lemma core_fields a a' : core a' = core a ->
  ap_config a' = ap_config a /\ ap_hasConfig a' = ap_hasConfig a /\ ap_generation a' = ap_generation a /\
  ap_backends a' = ap_backends a /\ ap_alarm a' = ap_alarm a /\ ap_runtimes a' = ap_runtimes a /\
  ap_rpcServices a' = ap_rpcServices a /\ ap_discovery a' = ap_discovery a /\ ap_access a' = ap_access a.
Proof. unfold core. intros H. simplify_eq. split_and!; congruence. Qed.

Lemma grows_retained a a' backends name pv :
  numbered a -> linked a -> grows a a' -> retainedRuntime a' backends name pv = retainedRuntime a backends name pv.
Proof.
  intros Hn Hl Hg. destruct (core_fields _ _ (gr_core _ _ Hg)) as (_ & _ & _ & Eb & _ & Er & _).
  unfold retainedRuntime. rewrite Eb, Er. destruct (ap_runtimes a !! name) as [id|] eqn:E; [|done]. cbn.
  destruct (Hl _ _ E) as [r Hr]. by rewrite Hr, (gr_objects _ _ Hg Hn _ _ Hr).
Qed.

Section Runtimes.
Context (o : Outside) (config : AppConfig) (backends : smap Z) (alarm generation : Z) (a0 : App).
Context (Hnum : numbered a0) (Hlink : linked a0).

Definition freshRuntime (pv : PVConfig) : RuntimeObject :=
  {| ro_config := pv; ro_generation := generation; ro_alarm := alarm; ro_active := false; ro_retired := false |}.

(** What the loop has prepared for the name of a PV. *)
Definition runtime_for (a : App) (s : RuntimeLoop) (pv : PVConfig) (id : Z) : Prop :=
  match retainedRuntime a0 backends (fullPVName (app_server config) pv) pv with
  | Some (old, r) => id = old /\ (id, pv) ∈ lp_updates s /\ ro_retired r = false
  | None => id ∈ lp_added s /\ ap_next a0 <= id < ap_next a /\ ap_objects a !! id = Some (freshRuntime pv)
  end.

Record loop_ok (a : App) (processed : list PVConfig) (s : RuntimeLoop) : Prop := {
  lk_grows : grows a0 a;
  lk_runtime : forall pv, pv ∈ processed -> exists id,
    lp_runtimes s !! fullPVName (app_server config) pv = Some id /\ runtime_for a s pv id;
  lk_dom : forall name id, lp_runtimes s !! name = Some id ->
    exists pv, pv ∈ processed /\ fullPVName (app_server config) pv = name;
  lk_updates : forall id pv, (id, pv) ∈ lp_updates s -> pv ∈ processed /\
    lp_runtimes s !! fullPVName (app_server config) pv = Some id /\
    exists r, retainedRuntime a0 backends (fullPVName (app_server config) pv) pv = Some (id, r);
  lk_added : forall id, id ∈ lp_added s -> ap_next a0 <= id < ap_next a /\ exists name, lp_runtimes s !! name = Some id;
  lk_fresh : forall n1 n2 id, lp_runtimes s !! n1 = Some id -> lp_runtimes s !! n2 = Some id -> ap_next a0 <= id -> n1 = n2;
}.

Lemma loop_ok_start : loop_ok a0 [] {| lp_runtimes := ∅; lp_updates := []; lp_added := [] |}.
Proof. clear Hnum Hlink. split; [reflexivity|set_solver|done|set_solver|set_solver|done]. Qed.

Lemma retained_old name pv id r :
  retainedRuntime a0 backends name pv = Some (id, r) -> ap_runtimes a0 !! name = Some id /\ ap_objects a0 !! id = Some r /\ id < ap_next a0.
Proof.
  unfold retainedRuntime. intros (id' & Hid & (r' & Hr & H)%bind_Some)%bind_Some.
  destruct (_ && _); [|done]. injection H as -> ->. split; [done|]. split; [done|]. apply Hnum. eauto.
Qed.

Lemma runtime_for_mono a a' s s' pv id :
  numbered a -> grows a a' -> lp_updates s ⊆ lp_updates s' -> lp_added s ⊆ lp_added s' ->
  runtime_for a s pv id -> runtime_for a' s' pv id.
Proof.
  intros Hn Hg Hu Ha. unfold runtime_for. destruct (retainedRuntime a0 _ _ pv) as [[old r]|].
  - intros (? & ? & ?). split_and!; auto.
  - intros (? & ? & Hobj). pose proof (gr_next _ _ Hg). split_and!; [auto|lia|lia|]. by apply (gr_objects _ _ Hg).
Qed.

(** The name of one more PV gets the runtime [id]. *)
Lemma loop_ok_extend a processed s pv a' s' id (name := fullPVName (app_server config) pv) :
  loop_ok a processed s -> grows a a' -> name ∉ map (fullPVName (app_server config)) processed ->
  lp_runtimes s' = emplace (lp_runtimes s) name id -> lp_updates s ⊆ lp_updates s' -> lp_added s ⊆ lp_added s' ->
  runtime_for a' s' pv id ->
  (forall u, u ∈ lp_updates s' -> u ∈ lp_updates s \/ u = (id, pv) /\ exists r, retainedRuntime a0 backends name pv = Some (id, r)) ->
  (forall i, i ∈ lp_added s' -> i ∈ lp_added s \/ i = id /\ ap_next a0 <= id < ap_next a') ->
  (ap_next a0 <= id -> forall n, lp_runtimes s !! n <> Some id) ->
  loop_ok a' (processed ++ [pv]) s'.
Proof.
  intros Hok Hg Hnew Hs' Hu Ha Hid Hus Has Hfr. pose proof (lk_grows _ _ _ Hok) as Hg0.
  assert (Hnum_a : numbered a) by (eapply grows_numbered; eauto).
  assert (Hne : forall pv', pv' ∈ processed -> name <> fullPVName (app_server config) pv').
  { intros pv' Hin E. apply Hnew. rewrite E. by apply list_elem_of_fmap_2. }
  assert (Hnone : lp_runtimes s !! name = None).
  { destruct (_ !! _) as [i|] eqn:E; [|done]. destruct (lk_dom _ _ _ Hok _ _ E) as (pv' & Hin & Heq). by destruct (Hne _ Hin). }
  unfold emplace in Hs'. rewrite Hnone in Hs'. split; rewrite ?Hs'.
  - etransitivity; eauto.
  - intros pv' [Hin| ->%list_elem_of_singleton]%elem_of_app.
    + destruct (lk_runtime _ _ _ Hok _ Hin) as (id' & Hl & Hf). exists id'. rewrite lookup_insert_ne by auto.
      split; [done|]. by eapply runtime_for_mono.
    + exists id. by rewrite lookup_insert_eq.
  - intros n i [[<- <-]|[_ Hl]]%lookup_insert_Some; [exists pv; set_solver|].
    destruct (lk_dom _ _ _ Hok _ _ Hl) as (pv' & ? & ?). exists pv'. set_solver.
  - intros i p [Hin|([= -> ->] & r & Hr)]%Hus.
    + destruct (lk_updates _ _ _ Hok _ _ Hin) as (Hp & Hl & Hr'). split; [set_solver|]. split; [|done].
      by rewrite lookup_insert_ne by auto.
    + split; [set_solver|]. fold name. rewrite lookup_insert_eq. eauto.
  - intros i [Hin|(-> & Hb)]%Has.
    + destruct (lk_added _ _ _ Hok _ Hin) as (Hb & n & Hl). pose proof (gr_next _ _ Hg). split; [lia|].
      exists n. rewrite lookup_insert_ne; [done|]. intros <-. congruence.
    + split; [done|]. exists name. apply lookup_insert_eq.
  - intros n1 n2 i [[<- <-]|[_ H1]]%lookup_insert_Some [[<- E]|[_ H2]]%lookup_insert_Some Hge; try done.
    + by destruct (Hfr Hge n2).
    + subst i. by destruct (Hfr Hge n1).
    + by eapply (lk_fresh _ _ _ Hok).
Qed.

Lemma loop_ok_bound a processed s n i : loop_ok a processed s -> lp_runtimes s !! n = Some i -> i < ap_next a.
Proof.
  intros Hok Hl. destruct (lk_dom _ _ _ Hok _ _ Hl) as (pv & Hin & <-).
  destruct (lk_runtime _ _ _ Hok _ Hin) as (i' & Hl' & Hf). rewrite Hl in Hl'. injection Hl' as <-. unfold runtime_for in Hf.
  destruct (retainedRuntime a0 _ _ pv) as [[old r]|] eqn:Er; [|lia]. destruct Hf as (-> & _).
  apply retained_old in Er as (_ & _ & ?). pose proof (gr_next _ _ (lk_grows _ _ _ Hok)). lia.
Qed.

Lemma prepareRuntime_ok a processed s pv a' s' :
  loop_ok a processed s -> fullPVName (app_server config) pv ∉ map (fullPVName (app_server config)) processed ->
  prepareRuntime o config backends alarm generation s pv a = (a', Ret s') -> loop_ok a' (processed ++ [pv]) s'.
Proof.
  intros Hok Hnew H. pose proof (growing_runtime o config backends alarm generation s pv a) as Hg. rewrite H in Hg. cbn in Hg.
  pose proof (lk_grows _ _ _ Hok) as Hg0. pose proof (gr_next _ _ Hg0) as Hnext.
  revert H. unfold prepareRuntime. intros (a1 & x & [= <- <-] & H)%bind_ret_inv. cbv beta in H.
  rewrite (grows_retained _ _ _ _ _ Hnum Hlink Hg0) in H. set (name := fullPVName (app_server config) pv) in *.
  destruct (retainedRuntime a0 backends name pv) as [[id r]|] eqn:Er.
  - apply bind_ret_inv in H as (a1 & u & Hlift & H). unfold lift in Hlift. injection Hlift as <- Hprep.
    injection H as <- <-. pose proof Er as (Hid & Hr & Hlt)%retained_old.
    apply (loop_ok_extend _ _ _ _ _ _ id Hok Hg Hnew); cbn; [done|set_solver|done| | |by left|lia].
    + unfold runtime_for. fold name. rewrite Er. cbn. split; [done|]. split; [set_solver|].
      apply exn_bind_ret in Hprep as (u' & Ht & _). apply throw_if_ret, orb_false_iff in Ht. apply Ht.
    + intros v [?| ->%list_elem_of_singleton]%elem_of_app; [by left|right]. fold name. eauto.
  - apply bind_ret_inv in H as (a1 & id & Hnewr & H). injection H as <- <-.
    unfold newRuntime in Hnewr. destruct (NDRuntime.makeRuntime _ _ _ _ _); [|done].
    destruct (ox_construct o pv); [|done]. injection Hnewr as <- <-.
    apply (loop_ok_extend _ _ _ _ _ _ (ap_next a) Hok Hg Hnew); cbn; [done|done|set_solver| |by left| |].
    + unfold runtime_for. fold name. rewrite Er. cbn. split; [set_solver|]. split; [lia|]. apply lookup_insert_eq.
    + intros i [?| ->%list_elem_of_singleton]%elem_of_app; [by left|right]. lia.
    + intros _ n Hl%(loop_ok_bound _ _ _ _ _ Hok). lia.
Qed.

Lemma prepareRuntimes_ok l : forall a processed s a' s',
  loop_ok a processed s -> NoDup (map (fullPVName (app_server config)) (processed ++ l)) ->
  fold_m (prepareRuntime o config backends alarm generation) s l a = (a', Ret s') -> loop_ok a' (processed ++ l) s'.
Proof.
  induction l as [|pv l IH]; intros a processed s a' s' Hok Hnd; cbn.
  { intros [= <- <-]. by rewrite app_nil_r. }
  intros (a1 & s1 & H1 & H2)%bind_ret_inv. replace (processed ++ pv :: l) with ((processed ++ [pv]) ++ l) in * by (by rewrite <-app_assoc).
  eapply IH; [|done|exact H2]. eapply prepareRuntime_ok; [exact Hok| |exact H1].
  rewrite !map_app in Hnd. apply NoDup_app in Hnd as (Hnd & _). apply NoDup_app in Hnd as (_ & Hd & _).
  intros Hin. apply (Hd _ Hin). cbn. left.
Qed.
End Runtimes.

(** ** The whole preparation *)

Section Preparation.
Context `{Acf.MacLib} (wrap : AccessMember -> string -> Wrapper).

Lemma growing_generation o config generation : growing (prepareGeneration wrap o config generation).
Proof.
  unfold prepareGeneration.
  repeat first
    [ apply growing_phase | apply growing_backends | apply growing_get | apply growing_alarm | apply growing_rpcs
    | apply growing_lift | apply growing_ret
    | apply growing_fold; intros; apply growing_runtime
    | match goal with
      | |- growing (prepareNames _ _ ?bs) =>
          apply growing_names;
          match goal with Hx : exists a a', lift (generationBindings _ _ _ _ _) a = (a', Ret bs) |- _ =>
            destruct Hx as (? & ? & Hx); injection Hx as _ Hx; apply generationBindings_spec in Hx; apply Hx end
      end
    | apply growing_bind; [|intros ? ?]
    | match goal with |- growing (let '(_, _) := ?x in _) => destruct x end ].
Qed.

Lemma servedNames_pvs config : NoDup (servedNames config) -> NoDup (map (fullPVName (app_server config)) (app_pvs config)).
Proof.
  unfold servedNames. intros (_ & _ & Hnd)%NoDup_app. revert Hnd. induction (app_pvs config) as [|pv l IH]; [constructor|].
  cbn. intros [Hn (_ & Hd & Hl)%NoDup_app]%NoDup_cons. apply NoDup_cons. split; [|by apply IH].
  intros (pv' & Heq & Hin)%list_elem_of_fmap. apply Hn, elem_of_app. right. apply elem_concat_map.
  exists pv'. split; [done|]. rewrite Heq. left.
Qed.

Record generation_prepared (o : Outside) (config : AppConfig) (generation : Z) (a a' : App) (n : Next) : Prop := {
  gp_grows : grows a a';
  gp_config : nx_config n = config;
  gp_generation : nx_generation n = generation;
  gp_backends : exists outcomes next,
    buildRedisBackends o config (ap_config a) (ap_backends a) (ap_next a) = (outcomes, Ret (nx_backends n, next)) /\
    next <= ap_next a';
  gp_reuse : nx_reuseAlarm n = reuseAlarm a config;
  gp_alarm : if nx_reuseAlarm n then nx_alarm n = ap_alarm a else exists id, nx_alarm n = Some id /\ ap_next a <= id;
  gp_loop : exists a1 a2, grows a a1 /\ grows a2 a' /\
    loop_ok config (nx_backends n) (default 0 (nx_alarm n)) generation a1 a2 (app_pvs config)
      {| lp_runtimes := nx_runtimes n; lp_updates := nx_updates n; lp_added := nx_added n |};
  gp_retired : nx_retired n = retiredRuntimes (ap_runtimes a) (nx_runtimes n);
  gp_rpc : assembleRpcPVs config (nx_rpcServices n) = Ret (nx_rpcPVs n, nx_rpcAssignments n);
  gp_services : exists next next',
    buildRpcPVs o config (ap_rpcServices a) next = Ret (nx_rpcPVs n, nx_rpcAssignments n, nx_rpcServices n, next');
  gp_catalog : buildDiscoveryCatalog o config (nx_rpcPVs n) (ox_port o) generation = Ret (nx_catalog n);
  gp_policy : preparePolicy o config a = Ret (nx_policy n);
  gp_names : exists admin bs a4 a5, ap_admin a4 = Some admin /\ grows a a4 /\ grows a a5 /\
    generationBindings admin config (nx_runtimes n) (nx_rpcPVs n) (nx_rpcAssignments n) = Ret bs /\
    prepareNames wrap o bs a5 = (a', Ret (nx_names n));
}.

Lemma reuseAlarm_core a a' config : core a' = core a -> reuseAlarm a' config = reuseAlarm a config.
Proof. intros (Ec & Eh & _)%core_fields. unfold reuseAlarm. by rewrite Ec, Eh. Qed.

Lemma preparePolicy_core o config a a' : core a' = core a -> preparePolicy o config a' = preparePolicy o config a.
Proof. intros (_ & Eh & _ & _ & _ & _ & _ & _ & Ea)%core_fields. unfold preparePolicy. by rewrite Ea, Eh. Qed.

Lemma prepareAlarm_ret o config a a' alarm : prepareAlarm o config a = (a', Ret alarm) ->
  if reuseAlarm a config then alarm = ap_alarm a else exists id, alarm = Some id /\ ap_next a <= id.
Proof.
  unfold prepareAlarm. destruct (reuseAlarm a config); [by intros [= _ <-]|].
  destruct (ConfigSafety.buildAlarmPublisher _ _); [|done]. intros [= _ <-]. exists (ap_next a). split; [done|lia].
Qed.

Lemma prepareRpcs_ret o config a a' pvs assignments services :
  prepareRpcs o config a = (a', Ret (pvs, assignments, services)) ->
  assembleRpcPVs config services = Ret (pvs, assignments) /\
  exists next', buildRpcPVs o config (ap_rpcServices a) (ap_next a) = Ret (pvs, assignments, services, next').
Proof.
  unfold prepareRpcs. destruct (buildRpcPVs _ _ _ _) as [[[[p1 a1] s1] next]|] eqn:E; [|done]. intros [= _ <- <- <-].
  split; [|eauto].
  unfold buildRpcPVs in E. apply exn_bind_ret in E as ([staged next1] & _ & ([p2 a2] & Has & [= <- <- <- _])%exn_bind_ret).
  done.
Qed.

Lemma prepareBackends_ret o config a a' backends :
  prepareBackends o config a = (a', Ret backends) -> exists outcomes next,
    buildRedisBackends o config (ap_config a) (ap_backends a) (ap_next a) = (outcomes, Ret (backends, next)) /\ ap_next a' = next.
Proof.
  unfold prepareBackends. destruct (buildRedisBackends _ _ _ _ _) as [outcomes [[b next]|]]; [|done].
  intros [= <- <-]. eauto.
Qed.

Lemma phase_ret phase a a' u : modify (reloadPhase phase) a = (a', Ret u) -> a' = reloadPhase phase a.
Proof. by intros [= <- _]. Qed.

Lemma lift_ret {A} (m : exn A) a a' x : lift m a = (a', Ret x) -> a' = a /\ m = Ret x.
Proof. by intros [= <- ?]. Qed.

Lemma fold_grows {S A} (f : S -> A -> M S) s l a a' x :
  (forall s x, growing (f s x)) -> fold_m f s l a = (a', Ret x) -> grows a a'.
Proof. intros Hf H0. pose proof (growing_fold f s l Hf a) as Hg. by rewrite H0 in Hg. Qed.

Lemma growing_ret_inv {A} (m : M A) a a' x : growing m -> m a = (a', Ret x) -> grows a a'.
Proof. intros Hm E. specialize (Hm a). by rewrite E in Hm. Qed.

Lemma grows_linked a a' : numbered a -> linked a -> grows a a' -> linked a'.
Proof.
  intros Hn Hl Hg name id. destruct (core_fields _ _ (gr_core _ _ Hg)) as (_ & _ & _ & _ & _ & -> & _). intros Hr.
  destruct (Hl _ _ Hr) as [r Hobj]. exists r. by apply (gr_objects _ _ Hg).
Qed.

Lemma prepareGeneration_ret o config generation a a' n :
  numbered a -> linked a -> prepareGeneration wrap o config generation a = (a', Ret n) ->
  generation_prepared o config generation a a' n.
Proof.
  intros Hn Hl Hp. pose proof (growing_ret_inv _ _ _ _ (growing_generation o config generation) Hp) as Hg.
  revert Hp. unfold prepareGeneration.
  intros (a1 & u1 & ->%phase_ret & Hp)%bind_ret_inv. pose proof (grows_phase "backends" a) as G1.
  apply bind_ret_inv in Hp as (a2 & backends & Hb & Hp). pose proof (growing_ret_inv _ _ _ _ (growing_backends o config) Hb) as G2.
  apply bind_ret_inv in Hp as (a3 & u3 & ->%phase_ret & Hp). pose proof (grows_phase "runtimes" a2) as G3.
  apply bind_ret_inv in Hp as (a4 & x & [= <- <-] & Hp). cbv beta zeta in Hp.
  assert (G3' : grows a (reloadPhase "runtimes" a2)) by (etransitivity; [exact G1|]; etransitivity; eauto).
  apply bind_ret_inv in Hp as (a4 & alarm & Ha & Hp). pose proof (growing_ret_inv _ _ _ _ (growing_alarm o config) Ha) as G4.
  assert (G4' : grows a a4) by (etransitivity; eauto).
  apply bind_ret_inv in Hp as (a5 & loop & Hloop & Hp).
  pose proof (fold_grows _ _ _ _ _ _ (fun s x => growing_runtime o config backends (default 0 alarm) generation s x) Hloop) as G5.
  apply bind_ret_inv in Hp as (a6 & u6 & ->%phase_ret & Hp). pose proof (grows_phase "rpc" a5) as G6.
  apply bind_ret_inv in Hp as (a7 & [[rpcs assignments] services] & Hr & Hp).
  pose proof (growing_ret_inv _ _ _ _ (growing_rpcs o config) Hr) as G7.
  apply bind_ret_inv in Hp as (a8 & catalog & [-> Hcat]%lift_ret & Hp).
  apply bind_ret_inv in Hp as (a8 & admin & (a9 & x & [= <- <-] & [-> Hadmin]%lift_ret)%bind_ret_inv & Hp).
  apply bind_ret_inv in Hp as (a8 & bs & [-> Hbs]%lift_ret & Hp).
  apply bind_ret_inv in Hp as (a8 & u8 & ->%phase_ret & Hp). pose proof (grows_phase "policy" a7) as G8.
  apply bind_ret_inv in Hp as (a9 & policy & (a10 & x & [= <- <-] & [-> Hpol]%lift_ret)%bind_ret_inv & Hp).
  apply bind_ret_inv in Hp as (a9 & names & Hnames & [= <- <-]).
  assert (G57 : grows a5 a7) by (etransitivity; [exact G6|exact G7]).
  assert (G7' : grows a a7) by (etransitivity; [exact G4'|]; etransitivity; [exact G5|exact G57]).
  assert (G8' : grows a (reloadPhase "policy" a7)) by (etransitivity; [exact G7'|exact G8]).
  pose proof (growing_ret_inv _ _ _ _ (growing_names wrap o bs (proj1 (generationBindings_spec _ _ _ _ _ _ Hbs))) Hnames) as G9.
  pose proof (prepareRpcs_ret _ _ _ _ _ _ _ Hr) as [Hrpc Hbuild].
  assert (Hnd : NoDup (map (fullPVName (app_server config)) (app_pvs config))).
  { apply assembleRpcPVs_spec in Hrpc as (_ & ? & _). by apply servedNames_pvs. }
  split; cbn; try done.
  - destruct (prepareBackends_ret _ _ _ _ _ Hb) as (outcomes & next & Hbb & Hnx). exists outcomes, next. split; [exact Hbb|].
    rewrite <-Hnx. etransitivity; [|apply (gr_next _ _ G9)]. etransitivity; [|apply (gr_next _ _ G8)].
    etransitivity; [|apply (gr_next _ _ G7)]. etransitivity; [|apply (gr_next _ _ G6)]. etransitivity; [|apply (gr_next _ _ G5)].
    apply (gr_next _ _ G4).
  - by apply reuseAlarm_core, gr_core.
  - apply prepareAlarm_ret in Ha. destruct (reuseAlarm _ config); [rewrite Ha; by destruct (core_fields _ _ (gr_core _ _ G3')) as (_ & _ & _ & _ & ? & _)|].
    destruct Ha as (id & -> & Hle). exists id. split; [done|]. pose proof (gr_next _ _ G3'). lia.
  - exists a4, a5. split; [done|]. split; [etransitivity; [exact G57|]; etransitivity; [exact G8|exact G9]|].
    destruct loop as [runtimes updates added]. cbn.
    exact (prepareRuntimes_ok o config backends (default 0 alarm) generation a4 (grows_numbered _ _ G4' Hn)
      (grows_linked _ _ Hn Hl G4') (app_pvs config) a4 [] _ _ _ (loop_ok_start config backends (default 0 alarm) generation a4) Hnd Hloop).
  - f_equal. by destruct (core_fields _ _ (gr_core _ _ G3')) as (_ & _ & _ & _ & _ & ? & _).
  - assert (G5' : grows a (reloadPhase "rpc" a5)) by (etransitivity; [exact G4'|]; etransitivity; [exact G5|exact G6]).
    destruct (core_fields _ _ (gr_core _ _ G5')) as (_ & _ & _ & _ & _ & _ & Esv & _). rewrite Esv in Hbuild.
    destruct Hbuild as [next' Hbuild]. eauto.
  - rewrite <-Hpol. symmetry. by apply preparePolicy_core, gr_core.
  - exists admin, bs, a7, (reloadPhase "policy" a7). split_and!; try done.
    unfold getAdmin in Hadmin. destruct (ap_admin a7); [|done]. by injection Hadmin as ->.
Qed.
End Preparation.
