(* ===== verification/AppSpec.v ===== *)
(** * Reloads are all or nothing

    A configuration that is rejected, at whatever point, leaves everything
    that serves as it was; one that is committed is served as a whole, even
    when the refresh that follows fails half way.  The report says which, and
    its counts are the runtimes kept and recreated.  These properties hold
    from the start of the application on, through reloads, recovered RPC
    services and access policy changes. *)

From S2P Require Import Prelude.
From S2P Require Import StrMap.
From S2P Require Import Config.
From S2P Require Import Endpoints.
From S2P Require Import ConfigDiff.
From S2P Require Import PVRegistry.
From S2P Require Import AccessBindings.
From S2P Require Import Generation.
From S2P Require Import App.
From S2P Require Import AppFacts.
From S2P Require Acf.
From S2P Require AccessPolicy.

Set Default Proof Using "Type".

Local Open Scope string_scope.
Local Open Scope list_scope.
Local Open Scope Z_scope.

Section Reload.
Context `{Acf.MacLib} (errSymMsg : Z -> string) (wrap : AccessMember -> string -> Wrapper).
Implicit Types (o : Outside) (a : App) (config : AppConfig).

(** ** What a preparation offers the registry *)

(** A refusal leaves the names as they were; a publication installs them. *)
Record offers (s0 : Secured) (secured : bool) (bs : PVBindings) (s : Secured) (p : prepared_names) : Prop := {
  of_refused : exists s', publishNames s p false = (s', false) /\ unchanged s0 s' /\
    (if secured then members_ok s' else quiet (se_registry s'));
  of_published : exists s', publishNames s p true = (s', true) /\
    forall s'', s'' = s' \/ s'' = finishNames s' p ->
      installs (se_registry s0) bs (se_registry s'') /\ (if secured then members_ok s'' else quiet (se_registry s''));
}.

Lemma prepareNames_offers o bs a a' p :
  names_ok a -> sm_wf bs -> prepareNames wrap o bs a = (a', Ret p) ->
  offers (ap_names a) (match ap_access a with Some _ => true | None => false end) bs (ap_names a') p /\
  core a' = core a /\ ap_objects a' = ap_objects a /\ ap_next a' = ap_next a /\ ap_admin a' = ap_admin a.
Proof.
  unfold names_ok, prepareNames. intros Hok Hwf. destruct (ap_access a) as [access|].
  - destruct (prepareBindings _ _ _ _) as [[names q]|] eqn:Ep; [|done]. intros [= <- <-]. split; [|done].
    destruct (prepareBindings_cases _ _ _ _ _ _ Hok Hwf Ep) as (_ & _ & (s2 & H2 & ? & ?) & s3 & H3 & ? & [? _] & ? & [? _] & _).
    split; cbn; [by exists s2|]. exists s3. split; [done|]. by intros s'' [->| ->].
  - destruct (prepare _ _ _) as [[registry q]|] eqn:Ep; [|done]. intros [= <- <-]. split; [|done].
    destruct (quiet_refused _ _ _ _ _ Hok Hwf Ep) as (r2 & H2 & Hq2 & Hs2).
    destruct (quiet_published _ _ _ _ _ Hok Hwf Ep) as (r3 & H3 & Hq3 & Hqf & Hi & Hif & _).
    split; cbn.
    + rewrite H2. eexists. split; [reflexivity|]. split; [by split|done].
    + rewrite H3. eexists. split; [reflexivity|]. by intros s'' [->| ->].
Qed.

(** ** Rejection *)

Lemma activateConfiguration_throw (s : AccessPolicy.AccessImpl) p status s' what :
  AccessPolicy.activateConfiguration errSymMsg s p status = (s', Throw what) -> s' = s.
Proof.
  unfold AccessPolicy.activateConfiguration, AccessPolicy.asInitMem.
  destruct (AccessPolicy.pc_policyChanged p); cbn [andb]; [|done].
  destruct (status =? 0); cbn [negb]; [done|]. by intros [= <- _].
Qed.

Lemma activatePolicy_throw o policy a a' what : activatePolicy errSymMsg o policy a = (a', Throw what) -> a' = a.
Proof.
  unfold activatePolicy. destruct policy as [p|]; [|done]. destruct (ap_access a) as [access|] eqn:Ea; [|done].
  destruct (AccessPolicy.activateConfiguration _ _ _ _) as [access' r] eqn:E. intros [= <- ->].
  apply activateConfiguration_throw in E as ->. destruct a. cbn in *. by subst.
Qed.

(** The publication of prepared names: refused, nothing but the registry's
    bookkeeping changes. *)
Lemma publishGeneration_throw o n a a' what s0 bs :
  offers s0 (match ap_access a with Some _ => true | None => false end) bs (ap_names a) (nx_names n) ->
  publishGeneration errSymMsg o n a = (a', Throw what) ->
  core a' = core a /\ posted a' = posted a /\ ap_objects a' = ap_objects a /\ ap_next a' = ap_next a /\
  (ap_names a' = ap_names a \/ unchanged s0 (ap_names a') /\ names_ok a').
Proof.
  intros [(s' & Hs & Hu & Hok) _]. unfold publishGeneration. destruct (negb _).
  { intros [= <- _]. split_and!; try done. by left. }
  destruct (activatePolicy _ _ _ _) as [a1 [u|w]] eqn:Ep; [done|]. apply activatePolicy_throw in Ep as ->.
  intros [= <- _]. split_and!; try done. right. cbn. rewrite Hs. split; [done|]. unfold names_ok. cbn.
  by destruct (ap_access a).
Qed.

Lemma refused_grows o n a a1 a2 what s0 bs :
  grows a a1 -> names_ok a -> unchanged (ap_names a) s0 ->
  offers s0 (match ap_access a1 with Some _ => true | None => false end) bs (ap_names a1) (nx_names n) ->
  publishGeneration errSymMsg o n a1 = (a2, Throw what) -> grows a a2.
Proof.
  intros [G1 G2 G3 G4 G5 G6] Hok Hu0 Hoff Epub.
  destruct (publishGeneration_throw _ _ _ _ _ _ _ Hoff Epub) as (Hc2 & Hp2 & Ho2 & Hn2 & Hs2).
  split; rewrite ?Ho2, ?Hn2; try done; [congruence..|].
  intros _. destruct Hs2 as [Hs2|[Hu2 Hok2]]; [|split; [done|by eapply unchanged_trans]].
  rewrite Hs2. destruct (G6 Hok) as [Hok1 ?]. split; [|done].
  eapply names_ok_access; [by apply core_access|done|done].
Qed.

Lemma applyGeneration_throw o config generation a a' what :
  numbered a -> linked a -> names_ok a ->
  applyGeneration errSymMsg wrap o config generation a = (a', Throw what) -> grows a a'.
Proof.
  intros Hn Hl Hok. unfold applyGeneration.
  pose proof (growing_generation wrap o config generation a) as Hg.
  destruct (prepareGeneration _ _ _ _ _) as [a1 [n|w]] eqn:Ep; [|by intros [= <- _]]. cbn in Hg.
  pose proof (prepareGeneration_ret wrap _ _ _ _ _ _ Hn Hl Ep) as Hp.
  destruct (gp_names _ _ _ _ _ _ _ Hp) as (admin & bs & a4 & a5 & _ & _ & Hg5 & Hbs & Hnames).
  destruct (gr_names _ _ Hg5 Hok) as [Hok5 Hu5].
  destruct (prepareNames_offers _ _ _ _ _ Hok5 (proj1 (generationBindings_spec _ _ _ _ _ _ Hbs)) Hnames) as (Hoff & Hc & _).
  rewrite <-(core_access _ _ Hc) in Hoff.
  destruct (publishGeneration _ _ _ _) as [a2 [u|w]] eqn:Epub; [done|]. intros [= <- _].
  eapply refused_grows; [exact Hg|exact Hok|exact Hu5|exact Hoff|exact Epub].
Qed.

Lemma applyConfig_throw o config initialLoad a a' what :
  numbered a -> linked a -> names_ok a ->
  applyConfig errSymMsg wrap o config initialLoad a = (a', Throw what) -> grows a a'.
Proof.
  intros Hn Hl Hok. unfold applyConfig. pose proof (grows_describe config a) as Hg.
  destruct (immutable _ _ _) as [u|w]; [|by intros [= <- _]]. intros Ha. etransitivity; [exact Hg|].
  eapply applyGeneration_throw; [by eapply grows_numbered|by eapply grows_linked|by apply (gr_names _ _ Hg)|exact Ha].
Qed.

(** ** Commitment *)

(** The objects after the updates and activations of a commit. *)
Definition updated (generation alarm : Z) (r : RuntimeObject) (pv : PVConfig) : RuntimeObject :=
  r <| ro_config := pv |> <| ro_generation := generation |> <| ro_alarm := alarm |>.

Lemma commitUpdates_other generation alarm us : forall objects id,
  id ∉ map fst us -> fold_left (commitUpdate generation alarm) us objects !! id = objects !! id.
Proof. clear errSymMsg.
  induction us as [|[i pv] us IH]; intros objects id Hid; [done|]. cbn in *. rewrite IH by set_solver.
  unfold commitUpdate. cbn. rewrite lookup_alter_ne; [done|set_solver].
Qed.

Lemma commitUpdates_same generation alarm us : forall objects id pv r,
  (forall pv', (id, pv') ∈ us -> pv' = pv) -> (id, pv) ∈ us -> objects !! id = Some r ->
  fold_left (commitUpdate generation alarm) us objects !! id = Some (updated generation alarm r pv).
Proof.
  induction us as [|[i p] us IH]; intros objects id pv r Hu Hin Hr; [set_solver|]. cbn.
  destruct (decide (id = i)) as [->|Hne].
  - assert (p = pv) as -> by (apply Hu; left).
    assert (H1 : commitUpdate generation alarm objects (i, pv) !! i = Some (updated generation alarm r pv)).
    { unfold commitUpdate. cbn. by rewrite lookup_alter_eq, Hr. }
    destruct (decide (i ∈ map fst us)) as [Hi|Hi]; [|by rewrite commitUpdates_other].
    apply list_elem_of_fmap in Hi as ([i' p'] & Heq & Hi). cbn in Heq. subst i'.
    assert (p' = pv) as -> by (apply Hu; by right).
    etransitivity; [exact (IH _ i pv _ (fun pv' Hx => Hu pv' (list_elem_of_further _ _ _ Hx)) Hi H1)|done].
  - apply elem_of_cons in Hin as [[= -> ->]|Hin]; [done|].
    apply IH; [intros; apply Hu; by right|done|]. unfold commitUpdate. cbn. by rewrite lookup_alter_ne.
Qed.

Lemma activate_lookup ids : forall objects id,
  fold_left activateRuntime ids objects !! id =
  (if decide (id ∈ ids) then (fun r => r <| ro_active := true |>) <$> objects !! id else objects !! id).
Proof. clear errSymMsg.
  induction ids as [|i ids IH]; intros objects id; [done|]. cbn. rewrite IH. unfold activateRuntime.
  destruct (decide (id = i)) as [->|Hne].
  - rewrite lookup_alter_eq, (decide_True (P := i ∈ i :: ids)) by left.
    destruct (decide (i ∈ ids)); [|done]. by destruct (objects !! i).
  - rewrite lookup_alter_ne by done. destruct (decide (id ∈ ids)), (decide (id ∈ i :: ids)); set_solver.
Qed.

(** The runtime a configured PV is served by. *)
Definition servingRuntime (generation alarm : Z) (pv : PVConfig) : RuntimeObject :=
  {| ro_config := pv; ro_generation := generation; ro_alarm := alarm; ro_active := true; ro_retired := false |}.

(** Runtimes that serve are alive and active, one per name. *)
Record base a : Prop := {
  ba_numbered : numbered a;
  ba_names : names_ok a;
  ba_backends : forall n id, sm_find n (ap_backends a) = Some id -> id < ap_next a;
  ba_distinct : forall n1 n2 id, ap_runtimes a !! n1 = Some id -> ap_runtimes a !! n2 = Some id -> n1 = n2;
  ba_live : forall name id, ap_runtimes a !! name = Some id -> exists r,
    ap_objects a !! id = Some r /\ ro_active r = true /\ ro_retired r = false;
}.

Lemma base_linked a : base a -> linked a.
Proof. intros Hb name id (r & Hr & _)%(ba_live _ Hb). eauto. Qed.

Lemma NoDup_map_inj {A B} (f : A -> B) l x y : NoDup (map f l) -> x ∈ l -> y ∈ l -> f x = f y -> x = y.
Proof.
  induction l as [|z l IH]; cbn; [set_solver|]. intros [Hn Hd]%NoDup_cons.
  intros [->|Hx]%elem_of_cons [->|Hy]%elem_of_cons Heq; [done|..|auto];
    destruct Hn; apply list_elem_of_fmap; eauto.
Qed.

(** The runtimes of a prepared generation, once committed. *)
Record runtimes_ok (config : AppConfig) (generation alarm next : Z) (runtimes : gmap string Z)
    (objects : gmap Z RuntimeObject) : Prop := {
  rk_pvs : forall pv, pv ∈ app_pvs config -> exists id,
    runtimes !! fullPVName (app_server config) pv = Some id /\ objects !! id = Some (servingRuntime generation alarm pv);
  rk_dom : forall name id, runtimes !! name = Some id -> exists pv, pv ∈ app_pvs config /\ fullPVName (app_server config) pv = name;
  rk_distinct : forall n1 n2 id, runtimes !! n1 = Some id -> runtimes !! n2 = Some id -> n1 = n2;
  rk_numbered : forall id, is_Some (objects !! id) -> id < next;
}.

Definition committedObjects (n : Next) (objects : gmap Z RuntimeObject) : gmap Z RuntimeObject :=
  fold_left activateRuntime (nx_added n)
    (fold_left (commitUpdate (nx_generation n) (default 0 (nx_alarm n))) (nx_updates n) objects).

Lemma committed_dom n objects id : is_Some (committedObjects n objects !! id) -> is_Some (objects !! id).
Proof.
  unfold committedObjects. rewrite activate_lookup. intros Hs.
  assert (Hx : is_Some (fold_left (commitUpdate (nx_generation n) (default 0 (nx_alarm n))) (nx_updates n) objects !! id)).
  { destruct (decide _); [|done]. by apply fmap_is_Some in Hs. }
  clear Hs. revert objects Hx. induction (nx_updates n) as [|u us IH]; intros objects Hx; [done|]. cbn in Hx. apply IH in Hx.
  unfold commitUpdate in Hx. by apply lookup_alter_is_Some in Hx.
Qed.

Lemma committed_runtimes o config generation a a' n :
  base a -> generation_prepared wrap o config generation a a' n ->
  runtimes_ok config generation (default 0 (nx_alarm n)) (ap_next a') (nx_runtimes n) (committedObjects n (ap_objects a')).
Proof.
  intros Hb Hp. destruct (gp_loop _ _ _ _ _ _ _ Hp) as (a1 & a2 & G1 & G2 & Hl).
  pose proof (ba_numbered _ Hb) as Hn. pose proof (base_linked _ Hb) as Hli.
  assert (Hn1 : numbered a1) by (by eapply grows_numbered). assert (Hn2 : numbered a2) by (by eapply grows_numbered; [apply (lk_grows _ _ _ _ _ _ _ _ Hl)|]).
  assert (Hret : forall name pv id r, retainedRuntime a1 (nx_backends n) name pv = Some (id, r) ->
    ap_runtimes a !! name = Some id /\ ap_objects a !! id = Some r /\ id < ap_next a1).
  { intros name pv id r Hr. rewrite (grows_retained a a1) in Hr by done. pose proof (gr_next _ _ G1).
    apply (retained_old (nx_backends n) a Hn) in Hr as (? & ? & ?). split_and!; [done|done|lia]. }
  assert (Hnd : NoDup (map (fullPVName (app_server config)) (app_pvs config))).
  { pose proof (gp_rpc _ _ _ _ _ _ _ Hp) as (_ & ? & _)%assembleRpcPVs_spec. by apply servedNames_pvs. }
  assert (Hupd : forall id pv r, retainedRuntime a1 (nx_backends n) (fullPVName (app_server config) pv) pv = Some (id, r) ->
    pv ∈ app_pvs config -> forall pv', (id, pv') ∈ nx_updates n -> pv' = pv).
  { intros id pv r Hr Hpv pv' Hin. apply (lk_updates _ _ _ _ _ _ _ _ Hl) in Hin as (Hpv' & _ & r' & Hr').
    apply (NoDup_map_inj (fullPVName (app_server config)) (app_pvs config)); [done..|].
    eapply (ba_distinct _ Hb); [by eapply Hret|by eapply Hret]. }
  split.
  - intros pv Hpv. destruct (lk_runtime _ _ _ _ _ _ _ _ Hl _ Hpv) as (id & Hid & Hf). exists id. split; [exact Hid|].
    unfold runtime_for in Hf. unfold committedObjects. rewrite activate_lookup.
    destruct (retainedRuntime a1 _ _ pv) as [[old r]|] eqn:Er.
    + destruct Hf as (-> & Hin & Hre). destruct (Hret _ _ _ _ Er) as (Hrt & Hobj & Hlt).
      rewrite decide_False by (intros [Hb' _]%(lk_added _ _ _ _ _ _ _ _ Hl); lia).
      rewrite (commitUpdates_same _ _ _ _ old pv r); [|by eapply Hupd|exact Hin|].
      * destruct (ba_live _ Hb _ _ Hrt) as (r' & Hr' & Hact & Hret'). assert (r' = r) as -> by congruence.
        rewrite (gp_generation _ _ _ _ _ _ _ Hp). destruct r. cbn in *. by subst.
      * apply (gr_objects _ _ (gp_grows _ _ _ _ _ _ _ Hp)); done.
    + destruct Hf as (Hin & Hrange & Hobj). cbn in Hin. rewrite decide_True by done.
      rewrite commitUpdates_other.
      * rewrite (gr_objects _ _ G2 Hn2 _ _ Hobj). done.
      * intros ([i p] & Heq & Hu)%list_elem_of_fmap. cbn in Heq. subst i.
        apply (lk_updates _ _ _ _ _ _ _ _ Hl) in Hu as (_ & _ & r' & Hr'). apply Hret in Hr'. lia.
  - intros name id Hid. by apply (lk_dom _ _ _ _ _ _ _ _ Hl) in Hid.
  - intros n1 n2 id H1 H2. destruct (decide (ap_next a1 <= id)) as [|Hlt]; [by eapply (lk_fresh _ _ _ _ _ _ _ _ Hl)|].
    assert (Hold : forall nm, nx_runtimes n !! nm = Some id -> ap_runtimes a !! nm = Some id).
    { intros nm Hnm. destruct (lk_dom _ _ _ _ _ _ _ _ Hl _ _ Hnm) as (pv & Hpv & <-).
      destruct (lk_runtime _ _ _ _ _ _ _ _ Hl _ Hpv) as (id' & Hid' & Hf). cbn in Hid'. rewrite Hnm in Hid'. injection Hid' as <-.
      unfold runtime_for in Hf. destruct (retainedRuntime a1 _ _ pv) as [[old r]|] eqn:Er; [|lia].
      destruct Hf as (-> & _). by eapply Hret. }
    eapply (ba_distinct _ Hb); eauto.
  - intros id Hs%committed_dom. pose proof (grows_numbered _ _ (gp_grows _ _ _ _ _ _ _ Hp) Hn) as Hn'. by apply Hn'.
Qed.

(** ** Refreshing *)

(** What the refresh after a commit may change: retired runtimes, stopped
    publishers, the announcement, the report and the posted values. *)
Definition committed a :=
  (ap_config a, ap_hasConfig a, ap_generation a, ap_backends a, ap_alarm a, ap_runtimes a, ap_rpcPVs a,
   ap_rpcAssignments a, ap_rpcServices a, ap_catalog a, ap_access a, ap_started a, ap_reloadRequested a, ap_task a,
   ap_nextIndex a, ap_next a).
Definition identity a := (fun n => (an_owner n, an_server n)) <$> ap_admin a.

Record refreshes (retired : list Z) a a' : Prop := {
  rf_committed : committed a' = committed a;
  rf_identity : identity a' = identity a;
  rf_objects : forall id, id ∉ retired -> ap_objects a' !! id = ap_objects a !! id;
  rf_dom : forall id, is_Some (ap_objects a' !! id) -> is_Some (ap_objects a !! id);
}.

#[local] Instance refreshes_preorder retired : PreOrder (refreshes retired).
Proof.
  split; [by split|]. intros a b c [C1 I1 O1 D1] [C2 I2 O2 D2]. split; [congruence|congruence| |eauto].
  intros id Hid. by rewrite O2, O1.
Qed.

Definition refreshing (retired : list Z) (step : App -> exn App) : Prop :=
  forall a a', step a = Ret a' -> refreshes retired a a' /\ ap_names a' = ap_names a.

Lemma refreshing_report retired (f : App -> App) :
  (forall a, committed (f a) = committed a /\ identity (f a) = identity a /\ ap_objects (f a) = ap_objects a /\
             ap_names (f a) = ap_names a) -> refreshing retired (fun a => Ret (f a)).
Proof.
  intros Hf a a' [= <-]. destruct (Hf a) as (? & ? & Ho & ?). split; [|done]. split; try done; by rewrite Ho.
Qed.

Lemma identity_setAdmin f a :
  (forall n, an_owner (f n) = an_owner n /\ an_server (f n) = an_server n) -> identity (setAdmin f a) = identity a.
Proof. intros Hf. unfold identity, setAdmin. cbn. destruct (ap_admin a) as [n|]; [|done]. cbn. by destruct (Hf n) as [-> ->]. Qed.

Lemma refreshing_setAdmin retired (f : App -> AdminNamespace -> AdminNamespace) :
  (forall a n, an_owner (f a n) = an_owner n /\ an_server (f a n) = an_server n) ->
  refreshing retired (fun a => Ret (setAdmin (f a) a)).
Proof. intros Hf. apply refreshing_report. intros a. split_and!; try done. by apply identity_setAdmin. Qed.

Lemma refreshing_id retired : refreshing retired (fun a => Ret a).
Proof. by apply (refreshing_report retired id). Qed.

Lemma refreshing_announce retired : refreshing retired announce.
Proof.
  intros a a'. unfold announce. destruct (ap_discovery a) as [d|]; [|intros [= <-]; split; [reflexivity|done]].
  intros (d' & _ & [= <-])%exn_bind_ret. split; [by split|done].
Qed.

Lemma refreshing_deactivate retired id : id ∈ retired -> refreshing retired (fun a => Ret (deactivate id a)).
Proof.
  intros Hid a a' [= <-]. split; [|done]. split; try done; cbn.
  - intros i Hi. rewrite lookup_alter_ne; [done|]. by intros ->.
  - intros i. by rewrite lookup_alter_is_Some.
Qed.

Lemma reloadPhase_refreshes retired phase a : refreshes retired a (reloadPhase phase a) /\ ap_names (reloadPhase phase a) = ap_names a.
Proof. split; [|done]. split; try done. unfold reloadPhase, publishReload. by rewrite identity_setAdmin. Qed.

Lemma runSteps_inv (R : App -> App -> Prop) `{!PreOrder R} steps failure a :
  Forall (fun step => forall a a', step a = Ret a' -> R a a') steps -> R a (runSteps steps failure a).1.
Proof.
  revert failure a; induction steps as [|step steps IH]; intros failure a Hs; [reflexivity|]. apply Forall_cons in Hs as [Hs Hl].
  assert (Hgo : forall f, R a (match step a with Ret a1 => runSteps steps f a1 | Throw what => (a, Throw what) end).1).
  { intros f. destruct (step a) as [a1|] eqn:E; [|reflexivity]. etransitivity; [by apply Hs|]. by apply IH. }
  cbn. destruct failure as [[[|k] what]|]; [reflexivity|apply Hgo..].
Qed.

Definition stays (retired : list Z) a a' : Prop := refreshes retired a a' /\ ap_names a' = ap_names a.
#[local] Instance stays_preorder retired : PreOrder (stays retired).
Proof.
  split; [split; [reflexivity|done]|]. intros a b c [H1 N1] [H2 N2]. split; [by etransitivity|congruence].
Qed.

(** After the commit the names are finished or not, and nothing else that was
    committed changes, wherever the refresh stops. *)
Lemma runSteps_finish (names : prepared_names) retired first rest failure a :
  refreshing retired first -> Forall (refreshing retired) rest ->
  let a' := (runSteps ([first; fun a => Ret (a <| ap_names ::= fun s => finishNames s names |>)] ++ rest) failure a).1 in
  refreshes retired a a' /\ (ap_names a' = ap_names a \/ ap_names a' = finishNames (ap_names a) names).
Proof.
  intros Hfirst Hrest. cbv zeta. cbn [app runSteps].
  assert (Hgo : forall f a1, first a = Ret a1 ->
    let a' := (runSteps rest f (a1 <| ap_names := finishNames (ap_names a1) names |>)).1 in
    refreshes retired a a' /\ (ap_names a' = ap_names a \/ ap_names a' = finishNames (ap_names a) names)).
  { intros f a1 E1. destruct (Hfirst _ _ E1) as [H1 N1].
    destruct (runSteps_inv (stays retired) rest f (a1 <| ap_names := finishNames (ap_names a1) names |>) Hrest) as [H3 N3].
    split; [etransitivity; [exact H1|]; etransitivity; [|exact H3]; by split|right]. etransitivity; [exact N3|]. cbn. by rewrite N1. }
  destruct failure as [[[|k] what]|]; [split; [reflexivity|by left]|..];
    (destruct (first a) as [a1|] eqn:E1; [|split; [reflexivity|by left]]); [|by apply Hgo].
  destruct k as [|k]; [|by apply Hgo]. destruct (Hfirst _ _ E1) as [H1 N1]. split; [done|by left].
Qed.

Lemma Forall_refreshSteps n old :
  Forall (refreshing (nx_retired n)) (
    map (fun id a => Ret (deactivate id a)) (nx_retired n) ++
    match old with Some id => if nx_reuseAlarm n then [] else [fun a => Ret (stopAlarm id a)] | None => [] end ++
    map (fun _ a => Ret a) (nx_updates n) ++
    [fun a => Ret a; fun a => Ret a; announce;
     fun a => Ret (setAdmin (fun s => s <| an_generation := i64 (nx_generation n) |>) a);
     fun a => Ret (setAdmin (fun s => s <| an_pvCount := i64 (pvCount a) |>) a);
     fun a => Ret (setAdmin (fun s => s <| an_status := generationStatus (nx_generation n) "" |>) a);
     fun a => Ret (setAdmin (fun s => s <| an_error := "" |>) a);
     fun a => Ret a; fun a => Ret a; fun a => Ret a; fun a => Ret a]).
Proof.
  rewrite !Forall_app. split_and!.
  - rewrite Forall_map. apply Forall_forall. intros id Hid. by apply refreshing_deactivate.
  - destruct old as [id|]; [|constructor]. destruct (nx_reuseAlarm n); [constructor|]. constructor; [|constructor].
    by apply (refreshing_report _ (stopAlarm id)).
  - rewrite Forall_map. apply Forall_forall. intros u _. apply refreshing_id.
  - repeat (apply Forall_cons; split;
      [first [apply refreshing_id | apply refreshing_announce | apply (refreshing_setAdmin _ (fun a s => _)); by intros ??]|]).
    constructor.
Qed.

Lemma refreshGeneration_spec o n old a :
  refreshes (nx_retired n) a (refreshGeneration o n old a) /\
  (ap_names (refreshGeneration o n old a) = ap_names a \/
   ap_names (refreshGeneration o n old a) = finishNames (ap_names a) (nx_names n)).
Proof.
  unfold refreshGeneration, refreshSteps.
  pose proof (runSteps_finish (nx_names n) (nx_retired n) (fun a => Ret (reloadPhase "refresh" a)) _ (ox_refresh o) a
    (fun a1 a2 E => match E in _ = r return match r with Ret a2 => refreshes _ a1 a2 /\ ap_names a2 = ap_names a1 | Throw _ => True end
                    with eq_refl => reloadPhase_refreshes _ "refresh" a1 end) (Forall_refreshSteps n old)) as [Hr Hn].
  destruct (runSteps _ _ _) as [a1 [u|what]]; cbn in Hr, Hn; [done|].
  split; [|done]. etransitivity; [exact Hr|]. split; try done.
  transitivity (identity (setAdmin (fun s => s <| an_generation := i64 (nx_generation n) |>
    <| an_status := "generation active; refresh failed" |> <| an_error := what |>) a1)); [done|by apply identity_setAdmin].
Qed.

(** ** The committed generation *)

Lemma kept_or_new o config generation a a' n name id :
  base a -> generation_prepared wrap o config generation a a' n -> nx_runtimes n !! name = Some id ->
  ap_runtimes a !! name = Some id \/ ap_next a <= id.
Proof.
  intros Hb Hp Hid. destruct (gp_loop _ _ _ _ _ _ _ Hp) as (a1 & a2 & G1 & _ & Hl).
  destruct (lk_dom _ _ _ _ _ _ _ _ Hl _ _ Hid) as (pv & Hpv & <-).
  destruct (lk_runtime _ _ _ _ _ _ _ _ Hl _ Hpv) as (id' & Hid' & Hf). cbn in Hid'. rewrite Hid in Hid'. injection Hid' as <-.
  unfold runtime_for in Hf. rewrite (grows_retained a a1) in Hf by (done || apply Hb || by apply base_linked).
  destruct (retainedRuntime a _ _ pv) as [[old r]|] eqn:Er.
  - destruct Hf as (-> & _). left. by apply (retained_old (nx_backends n) a (ba_numbered _ Hb)) in Er as [? _].
  - right. pose proof (gr_next _ _ G1). lia.
Qed.

Lemma serving_not_retired o config generation a a' n name id :
  base a -> generation_prepared wrap o config generation a a' n -> nx_runtimes n !! name = Some id -> id ∉ nx_retired n.
Proof.
  intros Hb Hp Hid. rewrite (gp_retired _ _ _ _ _ _ _ Hp). unfold retiredRuntimes.
  intros ([m i] & Hm & Hx)%list_elem_of_omap. case_bool_decide as Hd; [done|]. injection Hx as ->.
  apply elem_of_map_to_list in Hm. destruct (kept_or_new _ _ _ _ _ _ _ _ Hb Hp Hid) as [Hold|Hge].
  - assert (name = m) as -> by (eapply (ba_distinct _ Hb); eauto). done.
  - destruct (ba_live _ Hb _ _ Hm) as (r & Hr & _). assert (id < ap_next a) by (apply Hb; eauto). lia.
Qed.

(** Every name is served, by its owner and with its assignment, and no other. *)
Definition serves_generation a : Prop :=
  exists admin, ap_admin a = Some admin /\
  let names := expected admin (ap_config a) (ap_runtimes a) (ap_rpcPVs a) (ap_rpcAssignments a) in
  forall n, (is_Some (served (se_registry (ap_names a)) n) <-> exists b, names n b) /\
    forall b, names n b -> exists b', served (se_registry (ap_names a)) n = Some b' /\
      bd_owner b' = bd_owner b /\ bd_access b' = bd_access b.

(** An application that serves its configuration. *)
Record app_ok a : Prop := {
  ok_base : base a;
  ok_hasConfig : ap_hasConfig a = true;
  ok_backends : forall n, n ∈ sm_keys (ap_backends a) <-> n ∈ sm_keys (app_redisBackends (ap_config a));
  ok_runtimes : runtimes_ok (ap_config a) (ap_generation a) (default 0 (ap_alarm a)) (ap_next a) (ap_runtimes a) (ap_objects a);
  ok_rpc : assembleRpcPVs (ap_config a) (ap_rpcServices a) = Ret (ap_rpcPVs a, ap_rpcAssignments a);
  ok_serves : serves_generation a;
  ok_policy : forall access, ap_access a = Some access ->
    AccessPolicy.policy_of (app_access (ap_config a)) (requiredAccessAsgs (ap_config a)) access;
}.

Lemma expected_identity admin admin' config runtimes rpcs assignments n b :
  (an_owner admin', an_server admin') = (an_owner admin, an_server admin) ->
  expected admin' config runtimes rpcs assignments n b <-> expected admin config runtimes rpcs assignments n b.
Proof. intros [= Ho Hs]. unfold expected. by rewrite Ho, Hs. Qed.

Lemma installs_serves (r r' : State) bs n :
  quiet r' -> installs r bs r' ->
  (is_Some (served r' n) <-> exists b, sm_find n bs = Some b) /\
  forall b, sm_find n bs = Some b -> exists b', served r' n = Some b' /\ bd_owner b' = bd_owner b /\ bd_access b' = bd_access b.
Proof.
  intros Hq [Hk Hi]. assert (Hfind : forall b, sm_find n bs = Some b ->
    exists b', served r' n = Some b' /\ bd_owner b' = bd_owner b /\ bd_access b' = bd_access b).
  { intros b Hb. destruct (Hi _ _ Hb) as (id & b' & _ & ? & ? & ? & _). eauto. }
  split; [|done]. split.
  - intros [b Hb]. unfold served in Hb. destruct (sm_find n (sn_entries _)) eqn:E; [|done].
    destruct (proj1 (Hk n)) as [b0 Hb0]; eauto.
  - intros [b (b' & Hb' & _)%Hfind]. eauto.
Qed.

Lemma activatePolicy_ret o policy a a' u : activatePolicy errSymMsg o policy a = (a', Ret u) ->
  a' = a <| ap_access := ap_access a' |> /\
  (ap_access a = None -> ap_access a' = None) /\
  forall access, ap_access a = Some access -> exists access', ap_access a' = Some access' /\
    match policy with
    | Some p => AccessPolicy.activateConfiguration errSymMsg access p (ox_asInitMem o) = (access', Ret tt)
    | None => access' = access
    end.
Proof.
  unfold activatePolicy. destruct policy as [p|]; [|intros [= <- _]; destruct a; naive_solver].
  destruct (ap_access a) as [access|] eqn:Ea; [|intros [= <- _]; split; [by destruct a|naive_solver]].
  destruct (AccessPolicy.activateConfiguration _ _ _ _) as [access' r] eqn:E. intros [= <- ->]. split; [done|]. split; [done|].
  intros ? [= <-]. exists access'. by destruct u.
Qed.

Lemma preparePolicy_ret o config a policy : preparePolicy o config a = Ret policy ->
  match ap_access a with
  | Some access => if ap_hasConfig a then exists p, policy = Some p /\
      AccessPolicy.prepareConfiguration access (app_access config) (requiredAccessAsgs config) (ox_files o) = Ret p else policy = None
  | None => policy = None
  end.
Proof.
  unfold preparePolicy. destruct (ap_access a) as [access|]; [|by intros [= <-]]. destruct (ap_hasConfig a); [|by intros [= <-]].
  intros (p & Hp & ->)%ConfigSafety.exn_fmap_ret. eauto.
Qed.

Lemma committed_fields a a' : committed a' = committed a ->
  ap_config a' = ap_config a /\ ap_hasConfig a' = ap_hasConfig a /\ ap_generation a' = ap_generation a /\
  ap_backends a' = ap_backends a /\ ap_alarm a' = ap_alarm a /\ ap_runtimes a' = ap_runtimes a /\
  ap_rpcPVs a' = ap_rpcPVs a /\ ap_rpcAssignments a' = ap_rpcAssignments a /\ ap_rpcServices a' = ap_rpcServices a /\
  ap_access a' = ap_access a /\ ap_next a' = ap_next a /\ ap_started a' = ap_started a.
Proof. unfold committed. intros Hc. simplify_eq. split_and!; congruence. Qed.

Lemma committed_tasks a a' : committed a' = committed a -> ap_task a' = ap_task a /\ ap_nextIndex a' = ap_nextIndex a.
Proof. unfold committed. intros Hc. by injection Hc. Qed.
Lemma core_tasks a a' : core a' = core a ->
  ap_started a' = ap_started a /\ ap_task a' = ap_task a /\ ap_nextIndex a' = ap_nextIndex a.
Proof. unfold core. intros Hc. by injection Hc. Qed.

(** What is known once [publish] has returned true. *)
Lemma publishGeneration_ret o n a a' u s0 bs :
  offers s0 (match ap_access a with Some _ => true | None => false end) bs (ap_names a) (nx_names n) ->
  publishGeneration errSymMsg o n a = (a', Ret u) ->
  ap_objects a' = committedObjects n (ap_objects a) /\ ap_next a' = ap_next a /\ identity a' = identity a /\
  ap_alarm a' = ap_alarm a /\ ap_started a' = ap_started a /\ ap_discovery a' = ap_discovery a /\ ap_task a' = ap_task a /\
  (ap_access a = None -> ap_access a' = None) /\
  (forall access, ap_access a = Some access -> exists access', ap_access a' = Some access' /\
     match nx_policy n with
     | Some p => AccessPolicy.activateConfiguration errSymMsg access p (ox_asInitMem o) = (access', Ret tt)
     | None => access' = access
     end) /\
  forall s'', s'' = ap_names a' \/ s'' = finishNames (ap_names a') (nx_names n) ->
    installs (se_registry s0) bs (se_registry s'') /\
    (if match ap_access a with Some _ => true | None => false end then members_ok s'' else quiet (se_registry s'')).
Proof.
  intros [_ (s' & Hs & Hp)]. unfold publishGeneration. destruct (negb _); [done|].
  destruct (activatePolicy _ _ _ _) as [a1 [u1|w]] eqn:Ea; [|done]. intros [= <- _].
  apply activatePolicy_ret in Ea as (Heq & Hnone & Hsome).
  assert (ap_names a1 = ap_names a /\ ap_objects a1 = ap_objects a /\ ap_next a1 = ap_next a /\ ap_admin a1 = ap_admin a /\
    ap_alarm a1 = ap_alarm a /\ ap_started a1 = ap_started a /\ ap_discovery a1 = ap_discovery a /\ ap_task a1 = ap_task a)
    as (En & Eo & Ex & Ead & Eal & Est & Ed & Et)
    by (rewrite Heq; done).
  cbn. unfold committedObjects, identity. cbn. rewrite Eo, Ex, En, Hs, Ead. split_and!; try done.
Qed.

Lemma identity_grows a a' : grows a a' -> identity a' = identity a.
Proof.
  intros Hg. pose proof (gr_posted _ _ Hg) as Hp. apply (f_equal (fmap (fun x => x.1.1.1.1.1.1))) in Hp.
  unfold posted in Hp. by rewrite <-!option_fmap_compose in Hp.
Qed.

Lemma names_ok_quiet a : names_ok a -> quiet (se_registry (ap_names a)).
Proof. unfold names_ok. destruct (ap_access a); [apply mo_quiet|done]. Qed.

(** An application whose names were installed as expected serves them. *)
Lemma serves_installed a admin s0 bs :
  names_ok a -> identity a = Some (an_owner admin, an_server admin) -> installs s0 bs (se_registry (ap_names a)) ->
  (forall n b, sm_find n bs = Some b <->
     expected admin (ap_config a) (ap_runtimes a) (ap_rpcPVs a) (ap_rpcAssignments a) n b) -> serves_generation a.
Proof.
  intros Hok Hid Hinst Hbf. unfold identity in Hid. destruct (ap_admin a) as [admin'|] eqn:Ea; [|done]. injection Hid as Hown Hsrv.
  exists admin'. split; [done|]. cbv zeta. intros m.
  destruct (installs_serves _ _ _ m (names_ok_quiet _ Hok) Hinst) as [Hs1 Hs2]. setoid_rewrite Hbf in Hs1.
  assert (Heq : forall b, expected admin' (ap_config a) (ap_runtimes a) (ap_rpcPVs a) (ap_rpcAssignments a) m b <->
    expected admin (ap_config a) (ap_runtimes a) (ap_rpcPVs a) (ap_rpcAssignments a) m b)
    by (intros b; apply expected_identity; congruence).
  setoid_rewrite Heq. split; [exact Hs1|]. intros b Hb'. by apply Hs2, Hbf.
Qed.

Lemma base_runtimes a config generation alarm :
  runtimes_ok config generation alarm (ap_next a) (ap_runtimes a) (ap_objects a) -> names_ok a ->
  (forall n id, sm_find n (ap_backends a) = Some id -> id < ap_next a) -> base a.
Proof.
  intros Hrt Hok Hbk. split; [exact (rk_numbered _ _ _ _ _ _ Hrt)|done|done|exact (rk_distinct _ _ _ _ _ _ Hrt)|].
  intros name id Hid. destruct (rk_dom _ _ _ _ _ _ Hrt _ _ Hid) as (pv & Hpv & Hname).
  destruct (rk_pvs _ _ _ _ _ _ Hrt _ Hpv) as (id' & Hid' & Hr'). rewrite Hname, Hid in Hid'. injection Hid' as <-. eauto.
Qed.

(** The bindings of a prepared generation and what the registry is offered. *)
Lemma prepared_offers o config generation a a1 n :
  base a -> generation_prepared wrap o config generation a a1 n ->
  exists admin bs s0, identity a = Some (an_owner admin, an_server admin) /\
    offers s0 (match ap_access a1 with Some _ => true | None => false end) bs (ap_names a1) (nx_names n) /\
    unchanged (ap_names a) s0 /\
    forall m b, sm_find m bs = Some b <-> expected admin config (nx_runtimes n) (nx_rpcPVs n) (nx_rpcAssignments n) m b.
Proof.
  intros Hb Hp. destruct (gp_names _ _ _ _ _ _ _ Hp) as (admin & bs & a4 & a5 & Hadmin & Hg4 & Hg5 & Hbs & Hnames).
  destruct (generationBindings_spec _ _ _ _ _ _ Hbs) as [Hbwf Hbf].
  destruct (gr_names _ _ Hg5 (ba_names _ Hb)) as [Hok5 Hu5].
  destruct (prepareNames_offers _ _ _ _ _ Hok5 Hbwf Hnames) as (Hoff & Hc15 & _).
  rewrite <-(core_access _ _ Hc15) in Hoff. exists admin, bs, (ap_names a5). split_and!; try done; try apply Hu5.
  rewrite <-(identity_grows _ _ Hg4). unfold identity. by rewrite Hadmin.
Qed.

(** From a preparation that was published to an application that serves it,
    whatever part of the refresh was done. *)
Lemma applyGeneration_ret o config generation a a' u :
  base a -> sm_wf (app_redisBackends config) ->
  (forall access, ap_access a = Some access ->
     if ap_hasConfig a then AccessPolicy.policy_inv access
     else AccessPolicy.policy_of (app_access config) (requiredAccessAsgs config) access) ->
  applyGeneration errSymMsg wrap o config generation a = (a', Ret u) ->
  app_ok a' /\ ap_config a' = config /\ ap_generation a' = generation /\ identity a' = identity a /\
  ap_started a' = ap_started a /\ (is_Some (ap_access a') <-> is_Some (ap_access a)) /\
  ap_task a' = ap_task a /\
  exists a1 n, generation_prepared wrap o config generation a a1 n /\ ap_runtimes a' = nx_runtimes n /\
    ap_rpcServices a' = nx_rpcServices n.
Proof.
  intros Hb Hwf Hfirst. unfold applyGeneration. destruct (prepareGeneration _ _ _ _ _) as [a1 [n|w]] eqn:Ep; [|done].
  pose proof (prepareGeneration_ret wrap _ _ _ _ _ _ (ba_numbered _ Hb) (base_linked _ Hb) Ep) as Hp.
  pose proof (gp_grows _ _ _ _ _ _ _ Hp) as Hg.
  destruct (prepared_offers _ _ _ _ _ _ Hb Hp) as (admin & bs & s0 & Hadmin & Hoff & _ & Hbf).
  destruct (publishGeneration _ _ _ _) as [a2 [u2|w]] eqn:Epub; [|done]. intros [= <- _].
  apply (publishGeneration_ret _ _ _ _ _ _ _ Hoff) in Epub as (Ho2 & Hn2 & Hi2 & _ & Hst2 & _ & Htk2 & Hacc0 & Hacc1 & Hnm2).
  set (a3 := swapGeneration n a2). set (a' := refreshGeneration o n (ap_alarm a2) a3).
  destruct (refreshGeneration_spec o n (ap_alarm a2) a3) as [Hrf Hnames']. fold a' in Hrf, Hnames'.
  destruct (committed_fields _ _ (rf_committed _ _ _ Hrf)) as (Ec & Eh & Eg & Eb & Ea & Er & Epv & Eas & Esv & Eac & Enx & Est).
  cbn in Ec, Eh, Eg, Eb, Ea, Er, Epv, Eas, Esv, Eac, Enx, Est.
  rewrite (gp_config _ _ _ _ _ _ _ Hp) in Ec. rewrite (gp_generation _ _ _ _ _ _ _ Hp) in Eg.
  assert (Hcore : core a1 = core a) by apply Hg. destruct (core_fields _ _ Hcore) as (_ & Ehc & _ & _ & _ & _ & _ & _ & Eaa).
  assert (Hid : identity a' = identity a).
  { rewrite <-(identity_grows _ _ Hg). rewrite (rf_identity _ _ _ Hrf). exact Hi2. }
  destruct (Hnm2 _ Hnames') as [Hinst Hok].
  assert (Hsec : is_Some (ap_access a') <-> is_Some (ap_access a1)).
  { rewrite Eac. destruct (ap_access a1) as [access|]; [|by rewrite Hacc0].
    destruct (Hacc1 _ eq_refl) as (access' & -> & _). by split. }
  assert (Hok' : names_ok a').
  { unfold names_ok. destruct (ap_access a1), (ap_access a'); try done;
      [destruct (proj2 Hsec) as [??]; [eauto|done]|destruct (proj1 Hsec) as [??]; [eauto|done]]. }
  assert (Hrt : runtimes_ok config generation (default 0 (ap_alarm a')) (ap_next a') (ap_runtimes a') (ap_objects a')).
  { destruct (committed_runtimes _ _ _ _ _ _ Hb Hp) as [H1 H2 H3 H4]. split; rewrite ?Er, ?Enx, ?Hn2, ?Ea; try done.
    - intros pv (id & Hr & Hob)%H1. exists id. split; [done|].
      rewrite (rf_objects _ _ _ Hrf); [cbn; by rewrite Ho2|]. by eapply serving_not_retired.
    - intros id Hs. apply (rf_dom _ _ _ Hrf) in Hs. cbn in Hs. rewrite Ho2 in Hs. by apply H4. }
  destruct (gp_backends _ _ _ _ _ _ _ Hp) as (out & next & Hbb & Hle).
  destruct (buildRedisBackends_spec _ _ _ _ _ _ _ _ Hwf (ba_backends _ Hb) Hbb) as (_ & _ & Hk & Hlt).
  split; [split|].
  - eapply base_runtimes; [exact Hrt|done|]. rewrite Eb, Enx, Hn2. intros m id (? & _)%Hlt. lia.
  - done.
  - by rewrite Eb, Ec.
  - by rewrite Ec, Eg.
  - rewrite Ec, Esv, Epv, Eas. apply Hp.
  - eapply (serves_installed a' admin); [done|by rewrite Hid|exact Hinst|]. by rewrite Ec, Er, Epv, Eas.
  - rewrite Ec. intros access' Hacc'. pose proof (preparePolicy_ret _ _ _ _ (gp_policy _ _ _ _ _ _ _ Hp)) as Hpol.
    rewrite Eac in Hacc'. rewrite Eaa in Hacc0, Hacc1. destruct (ap_access a) as [access|] eqn:E0; [|rewrite Hacc0 in Hacc'; done].
    destruct (Hacc1 _ eq_refl) as (access'' & Hx & Hcfg). rewrite Hx in Hacc'. injection Hacc' as <-.
    specialize (Hfirst _ eq_refl). destruct (ap_hasConfig a); [|rewrite Hpol in Hcfg; by rewrite Hcfg].
    destruct Hpol as (p & Hpn & Hpc). rewrite Hpn in Hcfg. by eapply AccessPolicy.configure_of.
  - split_and!; try done; [|by rewrite <-Eaa| |eauto].
    + rewrite Est, Hst2. by injection Hcore.
    + rewrite (proj1 (committed_tasks _ _ (rf_committed _ _ _ Hrf))). etransitivity; [exact Htk2|]. by apply core_tasks.
Qed.

(** ** The report and the runtimes *)

Lemma pvMap_find c n pv :
  NoDup (map (fullPVName (app_server c)) (app_pvs c)) ->
  sm_find n (pvMap c) = Some pv <-> pv ∈ app_pvs c /\ fullPVName (app_server c) pv = n.
Proof.
  unfold pvMap. assert (Hgen : forall l m, NoDup (map (fullPVName (app_server c)) l) ->
    (forall p, p ∈ l -> fullPVName (app_server c) p ∉ sm_keys m) ->
    sm_find n (fold_left (fun m pv => (sm_emplace (fullPVName (app_server c) pv) pv m).1) l m) = Some pv <->
    sm_find n m = Some pv \/ pv ∈ l /\ fullPVName (app_server c) pv = n).
  { induction l as [|p l IH]; intros m Hnd Hm; cbn; [setoid_rewrite elem_of_nil; tauto|].
    apply NoDup_cons in Hnd as [Hn Hnd]. pose proof (Hm p (list_elem_of_here _ _)) as Hp.
    rewrite sm_emplace_new by done. cbn [fst]. rewrite IH; [|done|].
    - rewrite sm_find_set, elem_of_cons. apply sm_find_None in Hp. case_decide as E; [subst n; rewrite Hp|]; [|naive_solver].
      split; [intros [[= ->]|?]; [right; by split; [left|]|naive_solver]|].
      intros [?|[[->|Hin] He]]; [done|by left|]. destruct Hn. rewrite <-He. by apply list_elem_of_fmap_2.
    - intros q Hq. rewrite sm_keys_set. intros [Heq|Hin]; [|by eapply Hm; [right|]].
      apply Hn. rewrite <-Heq. by apply list_elem_of_fmap_2. }
  intros Hnd. rewrite Hgen; [|done|intros; apply not_elem_of_nil]. cbn. naive_solver.
Qed.

Lemma count_size {V} (m : gmap string V) (l : list string) :
  NoDup l -> (forall n, n ∈ l <-> is_Some (m !! n)) -> count l = Z.of_nat (size m).
Proof.
  intros Hnd Hl. unfold count. f_equal. rewrite <-size_dom, <-(size_list_to_set (C := gset string) l) by done. f_equal.
  apply set_eq. intros n. rewrite elem_of_list_to_set, elem_of_dom. apply Hl.
Qed.

(** Names by what became of their runtime between two states. *)
Definition keptNames a a' : gmap string Z := filter (fun e => ap_runtimes a !! e.1 = Some e.2) (ap_runtimes a').
Definition recreatedNames a a' : gmap string Z :=
  filter (fun e => is_Some (ap_runtimes a !! e.1) /\ ap_runtimes a !! e.1 <> Some e.2) (ap_runtimes a').
Definition addedNames a a' : gmap string Z := filter (fun e => ap_runtimes a !! e.1 = None) (ap_runtimes a').
Definition removedNames a a' : gmap string Z := filter (fun e => ap_runtimes a' !! e.1 = None) (ap_runtimes a).

Definition routes_known (config : AppConfig) (pv : PVConfig) : Prop :=
  rt_backend (pv_read pv) ∈ sm_keys (app_redisBackends config) /\
  (forall w, pv_write pv = Some w -> rt_backend w ∈ sm_keys (app_redisBackends config)) /\
  (forall c, pv_confirm pv = Some c -> cf_backend c ∈ sm_keys (app_redisBackends config)).

Lemma diff_backends_elem before after n : n ∈ sm_keys (app_redisBackends after) ->
  n ∈ diff_backends before after <-> backendChanged (app_redisBackends before) (app_redisBackends after) n = true.
Proof.
  intros Hn. unfold diff_backends. rewrite list_elem_of_filter, ss_of_list_elem, elem_of_app. tauto.
Qed.

(** The runtime keeps its backends exactly when the PV uses no changed one. *)
Lemma sameBackendBindings_unchanged o config previous existing next outcomes backends next' pv :
  sm_wf (app_redisBackends config) -> (forall n, n ∈ sm_keys existing <-> n ∈ sm_keys (app_redisBackends previous)) ->
  (forall n id, sm_find n existing = Some id -> id < next) ->
  buildRedisBackends o config previous existing next = (outcomes, Ret (backends, next')) -> routes_known config pv ->
  sameBackendBindings pv existing backends = negb (usesChanged (diff_backends previous config) pv).
Proof.
  intros Hwf Hk Hlt Hb (Hr & Hw & Hc).
  assert (Hone : forall n, n ∈ sm_keys (app_redisBackends config) ->
    sameBackend existing backends n = negb (bool_decide (n ∈ diff_backends previous config))).
  { intros n Hn. rewrite (sameBackend_unchanged _ _ _ _ _ _ _ _ n Hwf Hk Hlt Hb). f_equal.
    apply eq_bool_prop_intro. rewrite !Is_true_true, bool_decide_eq_true. by rewrite diff_backends_elem. }
  unfold sameBackendBindings, usesChanged. rewrite (Hone _ Hr).
  destruct (pv_write pv) as [w|], (pv_confirm pv) as [c|]; rewrite ?(Hone _ (Hw _ eq_refl)), ?(Hone _ (Hc _ eq_refl));
    by repeat case_bool_decide.
Qed.

Lemma app_ok_names a : app_ok a -> NoDup (map (fullPVName (app_server (ap_config a))) (app_pvs (ap_config a))).
Proof. intros Hok. pose proof (ok_rpc _ Hok) as (_ & ? & _)%assembleRpcPVs_spec. by apply servedNames_pvs. Qed.

(** The runtimes of a configuration are those of its PVs. *)
Lemma runtimes_pvMap config generation alarm next runtimes objects :
  NoDup (map (fullPVName (app_server config)) (app_pvs config)) ->
  runtimes_ok config generation alarm next runtimes objects ->
  (forall n, is_Some (runtimes !! n) <-> n ∈ sm_keys (pvMap config)) /\
  (forall n id pv, runtimes !! n = Some id -> sm_find n (pvMap config) = Some pv ->
     objects !! id = Some (servingRuntime generation alarm pv)) /\
  count (app_pvs config) = Z.of_nat (size runtimes).
Proof. clear errSymMsg.
  intros Hnd [Hpv Hdom _ _].
  assert (Hk : forall n, is_Some (runtimes !! n) <-> n ∈ sm_keys (pvMap config)).
  { intros n. rewrite <-sm_find_is_Some. split.
    - intros [id (pv & Hin & Hn)%Hdom]. exists pv. by apply pvMap_find.
    - intros [pv [Hin <-]%pvMap_find]; [|done]. destruct (Hpv _ Hin) as (id & ? & _). eauto. }
  split; [done|]. split.
  - intros n id pv Hid [Hin <-]%pvMap_find; [|done]. destruct (Hpv _ Hin) as (id' & Hid' & Hr). congruence.
  - rewrite <-(count_size _ (map (fullPVName (app_server config)) (app_pvs config))); [|done|].
    + unfold count. by rewrite length_map.
    + intros n. rewrite Hk, <-sm_find_is_Some, list_elem_of_fmap. unfold is_Some. setoid_rewrite pvMap_find; [|done]. naive_solver.
Qed.

Lemma kept_iff o config generation a a1 n name id :
  app_ok a -> sm_wf (app_redisBackends config) -> Forall (routes_known config) (app_pvs config) ->
  generation_prepared wrap o config generation a a1 n -> nx_runtimes n !! name = Some id ->
  ap_runtimes a !! name = Some id <->
  exists old new, sm_find name (pvMap (ap_config a)) = Some old /\ sm_find name (pvMap config) = Some new /\
    sameReaderTopology old new = true /\ usesChanged (diff_backends (ap_config a) config) new = false.
Proof.
  intros Hok Hwf Hroutes Hp Hid. pose proof (ok_base _ Hok) as Hb.
  assert (Hnd : NoDup (map (fullPVName (app_server config)) (app_pvs config))).
  { pose proof (gp_rpc _ _ _ _ _ _ _ Hp) as (_ & ? & _)%assembleRpcPVs_spec. by apply servedNames_pvs. }
  destruct (gp_loop _ _ _ _ _ _ _ Hp) as (b1 & b2 & G1 & _ & Hl).
  destruct (lk_dom _ _ _ _ _ _ _ _ Hl _ _ Hid) as (new & Hnew & Hname).
  assert (Hfn : sm_find name (pvMap config) = Some new) by (by apply pvMap_find).
  destruct (lk_runtime _ _ _ _ _ _ _ _ Hl _ Hnew) as (id' & Hid' & Hf). cbn in Hid'. rewrite Hname, Hid in Hid'. injection Hid' as <-.
  unfold runtime_for in Hf. rewrite (grows_retained a b1) in Hf by (done || apply Hb || by apply base_linked). rewrite Hname in Hf.
  destruct (gp_backends _ _ _ _ _ _ _ Hp) as (out & next & Hbb & _).
  assert (Hbind : sameBackendBindings new (ap_backends a) (nx_backends n) = negb (usesChanged (diff_backends (ap_config a) config) new)).
  { eapply sameBackendBindings_unchanged; [done|apply Hok|apply Hb|exact Hbb|]. by eapply Forall_forall in Hroutes. }
  destruct (runtimes_pvMap _ _ _ _ _ _ (app_ok_names _ Hok) (ok_runtimes _ Hok)) as (Hk & Hobj & _).
  unfold retainedRuntime, structurallyCompatible in Hf. destruct (ap_runtimes a !! name) as [id0|] eqn:E0; cbn in Hf.
  - pose proof (proj1 (Hk name)) as Hkey. rewrite E0, <-sm_find_is_Some in Hkey. destruct Hkey as [old Hold]; [eauto|].
    rewrite (Hobj _ _ _ E0 Hold) in Hf. cbn in Hf. rewrite Hbind in Hf.
    destruct (sameReaderTopology old new) eqn:Et, (usesChanged _ new) eqn:Eu; cbn in Hf.
    2: { destruct Hf as (-> & _). split; [|done]. intros _. exists old, new. done. }
    all: split; [intros [= ->]; exfalso|intros (old' & new' & ? & ? & ? & ?); simplify_eq; congruence].
    all: destruct Hf as (_ & [Hge _] & _); assert (id < ap_next a) by (apply Hb; rewrite (Hobj _ _ _ E0 Hold); eauto);
         pose proof (gr_next _ _ G1); lia.
  - split; [done|]. intros (old & new' & Hold & _). exfalso. destruct (proj2 (Hk name)) as [i Hi]; [|congruence].
    apply sm_find_is_Some. eauto.
Qed.

(** Every name of the new generation is kept, recreated or added. *)
Lemma names_partition a a' :
  size (ap_runtimes a') = (size (keptNames a a') + (size (recreatedNames a a') + size (addedNames a a')))%nat.
Proof.
  assert (Hd1 : recreatedNames a a' ##ₘ addedNames a a').
  { apply map_disjoint_spec. intros m x y [_ [[? Hx] _]]%map_lookup_filter_Some [_ Hy]%map_lookup_filter_Some. cbn in *. congruence. }
  assert (Hd2 : keptNames a a' ##ₘ recreatedNames a a' ∪ addedNames a a').
  { apply map_disjoint_spec. intros m x y [Hx Hxx]%map_lookup_filter_Some
      [[Hy [_ Hyy]]%map_lookup_filter_Some|[_ [Hy Hyy]%map_lookup_filter_Some]]%lookup_union_Some_raw; cbn in *; congruence. }
  rewrite <-map_size_disj_union by done. rewrite <-map_size_disj_union by done. f_equal. apply map_eq. intros m.
  apply option_eq. intros x. rewrite !lookup_union_Some by done. unfold keptNames, recreatedNames, addedNames.
  rewrite !map_lookup_filter_Some. cbn. destruct (ap_runtimes a !! m) as [i|] eqn:Ei; [destruct (decide (i = x)) as [->|Hne]|];
    [clear -Ei|clear -Ei Hne|clear -Ei]; naive_solver.
Qed.

(** The lists of the diff are the names added, removed and recreated. *)
Lemma report_counts o config generation a a1 n a' :
  app_ok a -> sm_wf (app_redisBackends config) -> Forall (routes_known config) (app_pvs config) ->
  generation_prepared wrap o config generation a a1 n -> app_ok a' -> ap_config a' = config -> ap_runtimes a' = nx_runtimes n ->
  let diff := diffConfigs (ap_config a) config in
  count (df_added diff) = Z.of_nat (size (addedNames a a')) /\
  count (df_removed diff) = Z.of_nat (size (removedNames a a')) /\
  count (df_replaced diff) = Z.of_nat (size (recreatedNames a a')) /\
  count (app_pvs config) - count (df_added diff) - count (df_replaced diff) = Z.of_nat (size (keptNames a a')).
Proof.
  intros Hok Hwf Hroutes Hp Hok' Hc' Hr'. cbv zeta.
  destruct (runtimes_pvMap _ _ _ _ _ _ (app_ok_names _ Hok) (ok_runtimes _ Hok)) as (Hk & _ & _).
  destruct (runtimes_pvMap _ _ _ _ _ _ (app_ok_names _ Hok') (ok_runtimes _ Hok')) as (Hk' & _ & Hsize). rewrite Hc' in Hk', Hsize.
  assert (Hn : forall n, ap_runtimes a !! n = None <-> n ∉ sm_keys (pvMap (ap_config a))).
  { intros m. rewrite <-Hk. apply eq_None_not_Some. }
  assert (Hn' : forall n, ap_runtimes a' !! n = None <-> n ∉ sm_keys (pvMap config)).
  { intros m. rewrite <-Hk'. apply eq_None_not_Some. }
  pose proof (fun m => diffConfigs_lists (ap_config a) config m) as Hlists.
  destruct (diffConfigs_fields (ap_config a) config) as (Ha & Hrm & _ & _ & _ & _ & _ & _ & _ & Hnd).
  assert (Hadd : count (df_added (diffConfigs (ap_config a) config)) = Z.of_nat (size (addedNames a a'))).
  { apply count_size; [rewrite Ha; apply sorted_NoDup, sel_sorted, pvMap_wf|]. intros m. destruct (Hlists m) as (-> & _).
    unfold addedNames, is_Some. setoid_rewrite map_lookup_filter_Some. cbn. rewrite <-Hk', <-Hn.
    split; [intros [[x Hx] Hy]; eauto|intros (x & Hx & Hy); eauto]. }
  assert (Hrep : count (df_replaced (diffConfigs (ap_config a) config)) = Z.of_nat (size (recreatedNames a a'))).
  { apply count_size; [done|]. intros m. destruct (Hlists m) as (_ & _ & -> & _).
    unfold recreatedNames. unfold is_Some at 1. setoid_rewrite map_lookup_filter_Some. cbn. split.
    - intros (old & new & Hold & Hnew & Hx). assert (is_Some (ap_runtimes a' !! m)) as [id Hid]
        by (apply Hk', sm_find_is_Some; eauto). exists id. split; [done|]. split; [apply Hk, sm_find_is_Some; eauto|].
      rewrite (kept_iff _ _ _ _ _ _ m id Hok Hwf Hroutes Hp) by (by rewrite <-Hr'). intros (o' & n' & ? & ? & ? & ?).
      destruct Hx; congruence.
    - intros (id & Hid & Hold & Hne). rewrite (kept_iff _ _ _ _ _ _ m id Hok Hwf Hroutes Hp) in Hne by (by rewrite <-Hr').
      apply Hk, sm_find_is_Some in Hold as [old Hold].
      assert (is_Some (sm_find m (pvMap config))) as [new Hnew] by (apply sm_find_is_Some, Hk'; eauto).
      exists old, new. split; [done|]. split; [done|]. destruct (sameReaderTopology old new) eqn:Et; [|by left]. right.
      destruct (usesChanged _ new) eqn:Eu; [done|]. destruct Hne. exists old, new. done. }
  split; [done|]. split; [|split; [done|]].
  - apply count_size; [rewrite Hrm; apply sorted_NoDup, sel_sorted, pvMap_wf|]. intros m. destruct (Hlists m) as (_ & -> & _).
    unfold removedNames, is_Some. setoid_rewrite map_lookup_filter_Some. cbn. rewrite <-Hk, <-Hn'.
    split; [intros [[x Hx] Hy]; eauto|intros (x & Hx & Hy); eauto].
  - rewrite Hadd, Hrep, Hsize.
    pose proof (names_partition a a'). lia.
Qed.

(** ** The report is about this reload *)

(** What [describeReload] fills in stays until the next attempt. *)
Definition described a :=
  let r := ap_reload a in
  (rl_attempt r, rl_candidateGeneration r, rl_schemaVersion r, (rl_added r, rl_removed r, rl_recreated r, rl_retained r),
   (rl_metadataChanged r, rl_aliasesChanged r, rl_accessChanged r), rl_diffKnown r, rl_kind r).

Definition describing {A} (m : M A) : Prop := forall a, described (m a).1 = described a.

Lemma describing_bind {A B} (m : M A) (f : A -> M B) : describing m -> (forall x, describing (f x)) -> describing (m ≫= f).
Proof.
  intros Hm Hf a. unfold mbind, M_bind. specialize (Hm a). destruct (m a) as [a' [x|what]]; [|done].
  etransitivity; [apply Hf|exact Hm].
Qed.
Lemma describing_modify f : (forall a, described (f a) = described a) -> describing (modify f).
Proof. intros Hf a. apply Hf. Qed.
Lemma describing_keeps {A} (m : M A) : (forall a, ap_reload (m a).1 = ap_reload a) -> describing m.
Proof. intros Hm a. unfold described. by rewrite Hm. Qed.
Lemma describing_fold {S A} (f : S -> A -> M S) s l : (forall s x, describing (f s x)) -> describing (fold_m f s l).
Proof.
  intros Hf. revert s; induction l as [|x l IH]; intros s; [done|]. cbn. apply describing_bind; [done|]. intros s'. apply IH.
Qed.

Lemma describing_generation o config generation : describing (prepareGeneration wrap o config generation).
Proof.
  unfold prepareGeneration.
  repeat first
    [ apply describing_bind; [|intros ?]
    | apply describing_modify; done
    | apply describing_fold; intros
    | match goal with |- describing (let '(_, _) := ?x in _) => destruct x end
    | match goal with |- describing (prepareRuntime _ _ _ _ _ _ _) => unfold prepareRuntime end
    | match goal with |- describing (match ?x with Some _ => _ | None => _ end) => destruct x as [[??]|] end
    | (intros ?; unfold prepareBackends; destruct (buildRedisBackends _ _ _ _ _) as [? [[??]|?]]; done)
    | (apply describing_keeps; intros ?; unfold prepareAlarm, newRuntime, prepareRpcs, prepareNames, lift, get;
       repeat case_match; done) ].
Qed.

Lemma described_publish o n a : described (publishGeneration errSymMsg o n a).1 = described a.
Proof.
  unfold publishGeneration. destruct (negb _); [done|]. unfold activatePolicy.
  destruct (nx_policy n) as [p|]; [|done]. destruct (ap_access a) as [access|]; [|done].
  by destruct (AccessPolicy.activateConfiguration _ _ _ _) as [access' [u|w]].
Qed.

Definition same_report a a' : Prop := described a' = described a.
#[local] Instance same_report_preorder : PreOrder same_report.
Proof. split; [done|]. intros a b c H1 H2. unfold same_report in *. congruence. Qed.

Lemma described_refresh o n old a : described (refreshGeneration o n old a) = described a.
Proof.
  unfold refreshGeneration. assert (Hs : same_report a (runSteps (refreshSteps n old) (ox_refresh o) a).1).
  { apply (runSteps_inv same_report). unfold refreshSteps. rewrite !Forall_app. split_and!.
    - repeat constructor; by intros a1 a2 [= <-].
    - rewrite Forall_map. apply Forall_forall. by intros id _ a1 a2 [= <-].
    - destruct old as [id|]; [|constructor]. destruct (nx_reuseAlarm n); repeat constructor; by intros a1 a2 [= <-].
    - rewrite Forall_map. apply Forall_forall. by intros id _ a1 a2 [= <-].
    - repeat (apply Forall_cons; split; [intros a1 a2; try (by intros [= <-]); unfold announce|]); [|constructor].
      destruct (ap_discovery a1); [|by intros [= <-]]. by intros (d' & _ & [= <-])%exn_bind_ret. }
  destruct (runSteps _ _ _) as [a1 [u|what]]; exact Hs.
Qed.

Lemma described_apply o config generation a : described (applyGeneration errSymMsg wrap o config generation a).1 = described a.
Proof.
  unfold applyGeneration. pose proof (describing_generation o config generation a) as H1.
  destruct (prepareGeneration _ _ _ _ _) as [a1 [n|w]]; [|done]. cbn in H1.
  pose proof (described_publish o n a1) as H2. destruct (publishGeneration _ _ _ _) as [a2 [u|w]]; cbn in *; [|congruence].
  rewrite described_refresh. transitivity (described a2); [done|congruence].
Qed.

(** ** Reloads *)

Lemma app_ok_keeps a a' :
  app_ok a -> core a' = core a -> identity a' = identity a -> numbered a' -> names_ok a' -> unchanged (ap_names a) (ap_names a') ->
  ap_next a <= ap_next a' -> (forall id r, ap_objects a !! id = Some r -> ap_objects a' !! id = Some r) -> app_ok a'.
Proof.
  intros Hok Hc Hid Hn Hnm Hu Hnx Hobj. pose proof (ok_base _ Hok) as Hb.
  assert (Hfull : ap_rpcPVs a' = ap_rpcPVs a /\ ap_rpcAssignments a' = ap_rpcAssignments a).
  { unfold core in Hc. simplify_eq. split; congruence. }
  destruct Hfull as [Epv Eas]. destruct (core_fields _ _ Hc) as (Ec & Eh & Eg & Eb & Ea & Er & Es & _ & Eac).
  split; rewrite ?Ec, ?Eh, ?Eg, ?Eb, ?Ea, ?Er, ?Es, ?Epv, ?Eas, ?Eac; try apply Hok.
  - split; rewrite ?Eb, ?Er; try done.
    + intros n id Hid'%(ba_backends _ Hb). lia.
    + apply Hb.
    + intros name id (r & Hr & Ha)%(ba_live _ Hb). eauto.
  - destruct (ok_runtimes _ Hok) as [H1 H2 H3 H4]. split; try done. intros pv (id & ? & ?)%H1. eauto.
  - destruct (ok_serves _ Hok) as (admin & Hadmin & Hserves). unfold identity in Hid. rewrite Hadmin in Hid. cbn in Hid.
    destruct (ap_admin a') as [admin'|] eqn:Ea'; [|done]. injection Hid as Ho Hs. exists admin'. split; [done|].
    cbv zeta in *. intros n. rewrite Ec, Er, Epv, Eas.
    rewrite (same_served _ _ (names_ok_quiet _ (ba_names _ Hb)) (proj1 Hu)). destruct (Hserves n) as [Hs1 Hs2].
    assert (Heq : forall b, expected admin' (ap_config a) (ap_runtimes a) (ap_rpcPVs a) (ap_rpcAssignments a) n b <->
      expected admin (ap_config a) (ap_runtimes a) (ap_rpcPVs a) (ap_rpcAssignments a) n b)
      by (intros b; apply expected_identity; congruence).
    setoid_rewrite Heq. done.
Qed.

(** Nothing that serves has changed. *)
Record keeps_serving a a' : Prop := {
  kp_core : core a' = core a;
  kp_objects : forall id r, ap_objects a !! id = Some r -> ap_objects a' !! id = Some r;
  kp_names : unchanged (ap_names a) (ap_names a');
}.

Lemma grows_keeps a a' : app_ok a -> grows a a' -> app_ok a' /\ keeps_serving a a'.
Proof.
  intros Hok Hg. pose proof (ok_base _ Hok) as Hb. destruct (gr_names _ _ Hg (ba_names _ Hb)) as [Hn Hu]. split.
  - apply (app_ok_keeps a); [done|apply Hg|by apply identity_grows|by eapply grows_numbered; [|apply Hb]|done|done|apply Hg|].
    apply (gr_objects _ _ Hg), Hb.
  - split; [apply Hg| |done]. apply (gr_objects _ _ Hg), Hb.
Qed.

Lemma setAdmin_keeps f a :
  (forall n, an_owner (f n) = an_owner n /\ an_server (f n) = an_server n) -> app_ok a -> app_ok (setAdmin f a).
Proof.
  intros Hf Hok. pose proof (ok_base _ Hok) as Hb. apply (app_ok_keeps a); try done; try apply Hb. by apply identity_setAdmin.
Qed.

Lemma finish_keeps accepted error a : app_ok a -> app_ok (finishReload accepted error a).
Proof. intros Hok. apply (grows_keeps a); [done|apply grows_finish]. Qed.

Lemma keeps_serving_report accepted error f a a' :
  keeps_serving a a' -> keeps_serving a (finishReload accepted error (setAdmin f a')).
Proof. intros [C O N]. split; [exact C|exact O|exact N]. Qed.

(** A configuration as [loadConfigFile] returns it: its map of backends is one,
    and every route names a backend of it. *)
Record loadable (config : AppConfig) : Prop := {
  ld_backends : sm_wf (app_redisBackends config);
  ld_routes : Forall (routes_known config) (app_pvs config);
  ld_count : count (app_pvs config) < 2 ^ 64;
}.

(** The reload that [applyConfig] commits or refuses. *)
Lemma applyConfig_cases o config a :
  app_ok a -> loadable config ->
  match applyConfig errSymMsg wrap o config false a with
  | (a', Throw _) => app_ok a' /\ keeps_serving a a'
  | (a', Ret _) =>
      app_ok a' /\ ap_config a' = config /\ ap_generation a' = u64 (ap_generation a + 1) /\ identity a' = identity a /\
      immutable false a config = Ret tt /\ (is_Some (ap_access a') <-> is_Some (ap_access a)) /\ ap_started a' = ap_started a /\
      described a' = described (describeReload config a) /\
      exists a0 a1 n, app_ok a0 /\ ap_runtimes a0 = ap_runtimes a /\ ap_config a0 = ap_config a /\
        generation_prepared wrap o config (u64 (ap_generation a + 1)) a0 a1 n /\ ap_runtimes a' = nx_runtimes n /\
        ap_rpcServices a0 = ap_rpcServices a /\ ap_rpcServices a' = nx_rpcServices n /\ ap_task a' = ap_task a
  end.
Proof.
  intros Hok Hld. destruct (applyConfig errSymMsg wrap o config false a) as [a' [u|w]] eqn:E.
  - unfold applyConfig in E. pose proof (grows_describe config a) as Hg. destruct (grows_keeps _ _ Hok Hg) as [Hok0 _].
    set (a0 := describeReload config a) in *.
    assert (Himm : immutable false a0 config = immutable false a config) by done.
    destruct (immutable false a0 config) as [[]|w] eqn:Ei; [|done].
    pose proof (described_apply o config (u64 (ap_generation a0 + 1)) a0) as Hd. rewrite E in Hd.
    apply applyGeneration_ret in E as (? & ? & ? & Hid & Hst & ? & Htk & a1 & n & Hp & Hr & Hs); [|apply Hok0|apply Hld|].
    + split_and!; try done; [by rewrite Hid; apply identity_grows|]. exists a0, a1, n. done.
    + intros access Hacc. rewrite (ok_hasConfig _ Hok0). by apply (ok_policy _ Hok0).
  - apply grows_keeps; [done|]. pose proof (ok_base _ Hok) as Hb. eapply applyConfig_throw; [apply Hb|by apply base_linked|apply Hb|exact E].
Qed.

(** C2. A reload is all or nothing.  Whatever the file holds and wherever the
    attempt fails -- reading it, an immutable setting, a backend, a runtime,
    the reflection of an RPC service, the catalog, a duplicate name, the
    policy's preparation or its activation in the middle of publishing -- the
    reload reports itself as not committed and the application serves exactly
    as before: the same configuration, generation, backends, runtimes, RPC
    endpoints, catalog and policy, every runtime untouched, every name served
    by the same registration with the same channels.  Otherwise it reports
    itself as committed and serves the whole new configuration under the next
    generation, even if the refresh that follows fails at any step. *)
Theorem reload_all_or_nothing o loaded a :
  app_ok a -> (forall config, loaded = Ret config -> loadable config) ->
  let a' := pumpReload errSymMsg wrap o loaded a in
  rl_activeGeneration (ap_reload a') = ap_generation a' /\ app_ok a' /\
  ((rl_committed (ap_reload a') = true /\ ap_generation a' = u64 (ap_generation a + 1) /\ loaded = Ret (ap_config a')) \/
   (rl_committed (ap_reload a') = false /\ keeps_serving a a')).
Proof.
  intros Hok Hld. cbv zeta. unfold pumpReload. set (a0 := beginReload "reload" a).
  destruct (grows_keeps _ _ Hok (grows_begin "reload" a)) as [Hok0 Hk0]. fold a0 in Hok0, Hk0.
  destruct loaded as [config|what].
  - pose proof (applyConfig_cases o config a0 Hok0 (Hld _ eq_refl)) as Hc.
    destruct (applyConfig _ _ _ _ _ _) as [a1 [u|w]].
    + destruct Hc as (Hok1 & Hc1 & Hg1 & _). split; [done|]. split; [by apply finish_keeps|]. left. cbn. by rewrite Hc1.
    + destruct Hc as (Hok1 & Hk1). split; [done|]. split; [by apply finish_keeps, setAdmin_keeps|]. right. split; [done|].
      apply keeps_serving_report. destruct Hk0 as [C0 O0 N0], Hk1 as [C1 O1 N1].
      split; [by rewrite <-C0, <-C1|eauto|by eapply unchanged_trans].
  - split; [done|]. split; [by apply finish_keeps, setAdmin_keeps|]. right. split.
    + cbn. apply Z.eqb_neq. intros E. by apply (AccessPolicy.u64_succ_ne (ap_generation a)).
    + by apply keeps_serving_report.
Qed.

Lemma described_counts a a' : described a' = described a ->
  rl_added (ap_reload a') = rl_added (ap_reload a) /\ rl_removed (ap_reload a') = rl_removed (ap_reload a) /\
  rl_recreated (ap_reload a') = rl_recreated (ap_reload a) /\ rl_retained (ap_reload a') = rl_retained (ap_reload a).
Proof. unfold described. intros Hd. by injection Hd. Qed.

Lemma described_counts_of config a :
  let diff := diffConfigs (ap_config a) config in let r := ap_reload (describeReload config a) in
  rl_added r = count (df_added diff) /\ rl_removed r = count (df_removed diff) /\ rl_recreated r = count (df_replaced diff) /\
  rl_retained r = u64 (count (app_pvs config) - count (df_added diff) - count (df_replaced diff)).
Proof. done. Qed.

Lemma finish_counts accepted error a :
  let r := ap_reload a in let r' := ap_reload (finishReload accepted error a) in
  rl_added r' = rl_added r /\ rl_removed r' = rl_removed r /\ rl_recreated r' = rl_recreated r /\ rl_retained r' = rl_retained r.
Proof. cbn. by destruct (str_empty error). Qed.

(** The report of a committed reload is true: it counts as added and removed
    the names that only one of the two generations has, as recreated the names
    whose runtime was replaced, as retained those that kept theirs. *)
Theorem reload_report_true o config a :
  app_ok a -> loadable config ->
  let a' := pumpReload errSymMsg wrap o (Ret config) a in
  rl_committed (ap_reload a') = true ->
  rl_added (ap_reload a') = Z.of_nat (size (addedNames a a')) /\
  rl_removed (ap_reload a') = Z.of_nat (size (removedNames a a')) /\
  rl_recreated (ap_reload a') = Z.of_nat (size (recreatedNames a a')) /\
  rl_retained (ap_reload a') = Z.of_nat (size (keptNames a a')).
Proof.
  intros Hok Hld. cbv zeta. unfold pumpReload. set (a0 := beginReload "reload" a).
  destruct (grows_keeps _ _ Hok (grows_begin "reload" a)) as [Hok0 _]. fold a0 in Hok0.
  pose proof (applyConfig_cases o config a0 Hok0 Hld) as Hc. destruct (applyConfig _ _ _ _ _ _) as [a1 [u|w]]; [|done]. intros _.
  destruct Hc as (Hok1 & Hc1 & _ & _ & _ & _ & _ & Hd & b0 & b1 & n & Hokb & Hrb & Hcb & Hp & Hr & _).
  destruct (report_counts _ _ _ _ _ _ a1 Hokb (ld_backends _ Hld) (ld_routes _ Hld) Hp Hok1 Hc1 Hr) as (H1 & H2 & H3 & H4).
  destruct (described_counts _ _ Hd) as (E1 & E2 & E3 & E4). destruct (described_counts_of config a0) as (F1 & F2 & F3 & F4).
  destruct (finish_counts true "" a1) as (-> & -> & -> & ->). rewrite E1, E2, E3, E4, F1, F2, F3, F4.
  unfold addedNames, removedNames, recreatedNames, keptNames in *. rewrite Hrb, Hcb in *.
  split_and!; [exact H1|exact H2|exact H3|]. etransitivity; [|exact H4]. apply u64_id. split; [rewrite H4; lia|].
  pose proof (ld_count _ Hld). unfold count in *. lia.
Qed.
End Reload.
