(* ===== verification/AppRun.v ===== *)
(** * The application from start to stop

    Recovering an RPC service publishes a generation like a reload does;
    starting publishes the first one.  Whatever the pump, the commands and the
    server's threads do in between, the application serves its configuration,
    the settings that are fixed at the start do not change, and every RPC
    service is ready, waits for its retry or is being reflected by the one
    task in flight.  Stopping leaves no name served. *)

From S2P Require Import Prelude.
From S2P Require Import StrMap.
From S2P Require Import Config.
From S2P Require Import Endpoints.
From S2P Require Import Yaml.
From S2P Require Import ConfigParse.
From S2P Require Import ConfigDiff.
From S2P Require Import ConfigSafety.
From S2P Require Import PVRegistry.
From S2P Require Import PVRegistrySpec.
From S2P Require Import AccessBindings.
From S2P Require Import Generation.
From S2P Require Import App.
From S2P Require Import AppFacts.
From S2P Require Import AppSpec.
From S2P Require Acf.
From S2P Require AcfGrammar.
From S2P Require AccessPolicy.

Set Default Proof Using "Type".

Local Open Scope string_scope.
Local Open Scope list_scope.
Local Open Scope Z_scope.

Section Run.
Context `{Acf.MacLib} (errSymMsg : Z -> string) (wrap : AccessMember -> string -> Wrapper) (S_asLib_asNotActive : Z).
Implicit Types (o : Outside) (a : App) (config : AppConfig).

(** ** The bindings of a recovery *)

(** Names that are new all get the binding. *)
Lemma emplace_adds (b : PVBinding) names : forall bs,
  sm_wf bs -> NoDup names -> (forall n, n ∈ names -> n ∉ sm_keys bs) ->
  adds bs (map (fun n => (n, b)) names) (fold_left (fun bs n => (sm_emplace n b bs).1) names bs).
Proof.
  induction names as [|n names IH]; intros bs Hwf Hnd Hnew; [by apply adds_nil|]. cbn.
  apply NoDup_cons in Hnd as [Hn Hnd]. rewrite sm_emplace_new by (apply Hnew; left). cbn [fst].
  pose proof (adds_new bs n b Hwf (Hnew _ (list_elem_of_here _ _))) as Ha.
  apply (adds_app _ [(n, b)] (sm_set n b bs)); [done|]. apply IH; [apply Ha|done|].
  intros m Hm. rewrite sm_keys_set. intros [->|Hin]; [done|]. by apply (Hnew m); [right|].
Qed.

Lemma adds_keys bs l bs' n : adds bs l bs' -> n ∈ sm_keys bs' -> n ∈ sm_keys bs \/ exists b, (n, b) ∈ l.
Proof.
  intros [_ Hf] [b Hb]%sm_find_is_Some. apply Hf in Hb as [Hb|Hb]; [left; apply sm_find_is_Some; eauto|eauto].
Qed.

Lemma pvEntries_names config runtimes pv n b : (n, b) ∈ pvEntries config runtimes pv -> n ∈ fullPVNames (app_server config) pv.
Proof.
  unfold pvEntries. destruct (runtimes !! _); [|set_solver]. intros (m & [= <- _] & ?)%list_elem_of_fmap. done.
Qed.

(** The loop over the PVs: an update for each, and their names. *)
Lemma recoverPVs_spec o a config l : forall us bs us' bs',
  sm_wf bs -> NoDup (concat (map (fullPVNames (app_server config)) l)) ->
  (forall n, n ∈ concat (map (fullPVNames (app_server config)) l) -> n ∉ sm_keys bs) ->
  exn_fold (recoverPV o a config) (us, bs) l = Ret (us', bs') ->
  adds bs (concat (map (pvEntries config (ap_runtimes a)) l)) bs' /\
  (forall id pv, (id, pv) ∈ us' <-> (id, pv) ∈ us \/ pv ∈ l /\ ap_runtimes a !! fullPVName (app_server config) pv = Some id) /\
  (forall pv, pv ∈ l -> is_Some (ap_runtimes a !! fullPVName (app_server config) pv)).
Proof. clear errSymMsg.
  induction l as [|pv l IH]; intros us bs us' bs' Hwf Hnd Hnew; cbn [exn_fold map concat].
  { intros [= <- <-]. split; [by apply adds_nil|]. split; [|set_solver]. intros. set_solver. }
  cbn [map concat] in Hnd, Hnew. apply NoDup_app in Hnd as (Hn & Hd & Hl). intros ([us1 bs1] & Hone & Hrest)%exn_bind_ret.
  unfold recoverPV in Hone. destruct (ap_runtimes a !! fullPVName (app_server config) pv) as [id|] eqn:Eid; cbn in Hone; [|done].
  destruct (ap_objects a !! id) as [r|]; cbn in Hone; [|done]. apply exn_bind_ret in Hone as (u & _ & [= <- <-]).
  pose proof (emplace_adds (own id (pvAssignment config pv)) _ bs Hwf Hn (fun n Hin => Hnew n (proj2 (elem_of_app _ _ _) (or_introl Hin)))) as Ha.
  apply IH in Hrest as (Hadds & Hus & His); [|apply Ha|done|].
  - split; [|split].
    + eapply adds_app; [|exact Hadds]. unfold pvEntries. by rewrite Eid.
    + intros i p. rewrite Hus, elem_of_app, list_elem_of_singleton, elem_of_cons. split.
      * intros [[?|[= -> ->]]|[? ?]]; [by left|right; by split; [left|]|right; by split; [right|]].
      * intros [?|[[->|?] Hx]]; [by left; left| |by right]. left. right. congruence.
    + intros p [->|Hp]%elem_of_cons; [by rewrite Eid; eauto|auto].
  - intros n Hin Hk. destruct (adds_keys _ _ _ _ Ha Hk) as [Hk'|(b & (m & [= -> _] & Hm)%list_elem_of_fmap)].
    + apply (Hnew n); [apply elem_of_app; by right|done].
    + by apply (Hd m).
Qed.

Lemma recoverRpc_adds assignments bs rpc bs' :
  sm_wf bs -> rpc.1 ∉ sm_keys bs -> recoverRpc assignments bs rpc = Ret bs' -> adds bs (rpcEntries assignments rpc) bs'.
Proof.
  intros Hwf Hn. unfold recoverRpc, rpcEntries. destruct (sm_find _ _) as [access|]; [|done]. intros [= <-].
  rewrite sm_emplace_new by done. by apply adds_new.
Qed.

Lemma recoverRpcs_spec assignments (rpcs : smap Z) : forall bs bs',
  sm_wf bs -> NoDup (sm_keys rpcs) -> (forall n, n ∈ sm_keys rpcs -> n ∉ sm_keys bs) ->
  exn_fold (recoverRpc assignments) bs rpcs = Ret bs' -> adds bs (concat (map (rpcEntries assignments) rpcs)) bs'.
Proof.
  induction rpcs as [|[n id] rpcs IH]; intros bs bs' Hwf Hnd Hnew; cbn; [intros [= <-]; by apply adds_nil|].
  cbn in Hnd, Hnew. apply NoDup_cons in Hnd as [Hn Hl]. intros (bs1 & Hone & Hrest)%exn_bind_ret.
  pose proof (recoverRpc_adds assignments bs (n, id) bs1 Hwf (Hnew n (list_elem_of_here _ _)) Hone) as Ha.
  eapply adds_app; [exact Ha|]. apply IH; [apply Ha|done| |done].
  intros m Hm Hk. destruct (adds_keys _ _ _ _ Ha Hk) as [Hk'|(b & Hb)]; [by apply (Hnew m); [right|]|].
  unfold rpcEntries in Hb. cbn in Hb. destruct (sm_find n assignments); [|set_solver].
  apply list_elem_of_singleton in Hb as [= -> _]. done.
Qed.

(** ** Preparing a recovery *)

Record recovery_prepared o (services : list RpcServiceState) (generation : Z) a a1 (n : Next) : Prop := {
  rp_grows : grows a a1;
  rp_next : nx_config n = ap_config a /\ nx_generation n = generation /\ nx_alarm n = ap_alarm a /\
            nx_runtimes n = ap_runtimes a /\ nx_added n = [] /\ nx_rpcServices n = services /\ nx_policy n = None;
  rp_updates : forall id pv, (id, pv) ∈ nx_updates n <->
    pv ∈ app_pvs (ap_config a) /\ ap_runtimes a !! fullPVName (app_server (ap_config a)) pv = Some id;
  rp_rpc : assembleRpcPVs (ap_config a) services = Ret (nx_rpcPVs n, nx_rpcAssignments n);
  rp_names : exists admin bs s0, identity a = Some (an_owner admin, an_server admin) /\
    offers s0 (match ap_access a1 with Some _ => true | None => false end) bs (ap_names a1) (nx_names n) /\
    unchanged (ap_names a) s0 /\
    forall m b, sm_find m bs = Some b <->
      expected admin (ap_config a) (ap_runtimes a) (nx_rpcPVs n) (nx_rpcAssignments n) m b;
}.

Definition admin_server a : Prop := forall admin, ap_admin a = Some admin -> an_server admin = app_server (ap_config a).

(** The names of a recovery do not meet. *)
Lemma recoveryBindings_spec o a admin config services rpcs assignments bs1 us bs2 bs3 :
  an_server admin = app_server config -> assembleRpcPVs config services = Ret (rpcs, assignments) ->
  adminBindings (an_server admin) (an_owner admin) (ac_defaults (app_access config)) = Ret bs1 ->
  exn_fold (recoverPV o a config) ([], bs1) (app_pvs config) = Ret (us, bs2) ->
  exn_fold (recoverRpc assignments) bs2 rpcs = Ret bs3 ->
  (sm_wf bs3 /\ forall n b, sm_find n bs3 = Some b <-> expected admin config (ap_runtimes a) rpcs assignments n b) /\
  forall id pv, (id, pv) ∈ us <-> pv ∈ app_pvs config /\ ap_runtimes a !! fullPVName (app_server config) pv = Some id.
Proof. clear errSymMsg.
  intros Hs (_ & Hnd & Hwf & _ & Hnew & _)%assembleRpcPVs_spec H1 H2 H3.
  destruct (proj1 (adminBindings_spec _ _ _) _ H1) as [Hwf1 Hf1]. unfold servedNames in Hnd, Hnew. rewrite <-Hs in Hnd at 1.
  apply NoDup_app in Hnd as (_ & Hd & Hnd).
  assert (Hk1 : forall n, n ∈ sm_keys bs1 -> n ∈ adminPVNames (an_server admin)).
  { intros n [b (c & Hc & _)%Hf1]%sm_find_is_Some. rewrite <-diagnostics_names. apply list_elem_of_fmap. by exists (n, c). }
  apply recoverPVs_spec in H2 as (Ha2 & Hus & _); [|done|done|by intros n Hn Hk%Hk1; apply (Hd n)].
  split; [|intros id pv; rewrite Hus, elem_of_nil; tauto].
  eapply entries_expected; [exact H1|exact Ha2|]. apply recoverRpcs_spec; [apply Ha2|by apply sorted_NoDup|  |done].
  intros n Hn Hk. destruct (Hnew n Hn) as [_ Hno]. apply Hno, elem_of_app.
  destruct (adds_keys _ _ _ _ Ha2 Hk) as [Hk'|(b & (pv & Hpv & He)%elem_concat_map)].
  - left. rewrite <-Hs. by apply Hk1.
  - right. apply elem_concat_map. exists pv. split; [done|]. by eapply pvEntries_names.
Qed.

Lemma prepareRecovery_cases o services generation a :
  base a -> admin_server a ->
  match prepareRecovery wrap o services generation a with
  | (a1, Throw _) => grows a a1
  | (a1, Ret n) => recovery_prepared o services generation a a1 n
  end.
Proof.
  intros Hb Hsrv. destruct (prepareRecovery _ _ _ _ _) as [a1 r] eqn:E. revert E. unfold prepareRecovery, mbind, M_bind, get, lift.
  destruct (assembleRpcPVs (ap_config a) services) as [[rpcs assignments]|] eqn:Erpc; [|intros [= <- <-]; reflexivity].
  destruct (buildDiscoveryCatalog _ _ _ _ _) as [catalog|]; [|intros [= <- <-]; reflexivity].
  unfold getAdmin. destruct (ap_admin a) as [admin|] eqn:Eadmin; [|intros [= <- <-]; reflexivity].
  destruct (adminBindings _ _ _) as [bs1|] eqn:E1; [|intros [= <- <-]; reflexivity].
  destruct (exn_fold (recoverPV o a _) _ _) as [[us bs2]|] eqn:E2; [|intros [= <- <-]; reflexivity].
  destruct (exn_fold (recoverRpc _) _ _) as [bs3|] eqn:E3; [|intros [= <- <-]; reflexivity].
  destruct (recoveryBindings_spec _ _ _ _ _ _ _ _ _ _ _ (Hsrv _ Eadmin) Erpc E1 E2 E3) as [[Hwf Hexp] Hus].
  pose proof (growing_names wrap o bs3 Hwf a) as Hg.
  destruct (prepareNames _ _ _ _) as [a2 [names|what]] eqn:En; [|intros [= <- <-]; exact Hg].
  cbn in Hg. unfold modify. intros [= <- <-].
  destruct (prepareNames_offers _ _ _ _ _ _ (ba_names _ Hb) Hwf En) as (Hoff & Hc & _).
  split; cbn; try done.
  - etransitivity; [exact Hg|apply grows_phase].
  - exists admin, bs3, (ap_names a). split_and!; try done; [by unfold identity; rewrite Eadmin|].
    by rewrite (core_access _ _ Hc).
Qed.

(** ** Committing a recovery *)

Lemma recovered_runtimes o services generation a a1 n :
  app_ok a -> recovery_prepared o services generation a a1 n ->
  runtimes_ok (ap_config a) generation (default 0 (ap_alarm a)) (ap_next a1) (ap_runtimes a) (committedObjects n (ap_objects a1)).
Proof.
  intros Hok Hp. pose proof (ok_base _ Hok) as Hb. destruct (ok_runtimes _ Hok) as [Hpv Hdom Hdis Hnum].
  destruct (rp_next _ _ _ _ _ _ Hp) as (_ & Eg & Ea & _ & Eadd & _). split; [|done|done|].
  - intros pv Hin. destruct (Hpv _ Hin) as (id & Hid & Hr). exists id. split; [done|].
    unfold committedObjects. rewrite Eadd, Eg, Ea. cbn [fold_left].
    rewrite (commitUpdates_same _ _ _ _ id pv (servingRuntime (ap_generation a) (default 0 (ap_alarm a)) pv)); [done| | |].
    + intros pv' [Hin' Hid']%(rp_updates _ _ _ _ _ _ Hp). apply (NoDup_map_inj _ _ _ _ (app_ok_names _ Hok)); [done|done|].
      by eapply (ba_distinct _ Hb).
    + by apply (rp_updates _ _ _ _ _ _ Hp).
    + apply (gr_objects _ _ (rp_grows _ _ _ _ _ _ Hp)); [apply Hb|done].
  - intros id Hs%committed_dom. pose proof (grows_numbered _ _ (rp_grows _ _ _ _ _ _ Hp) (ba_numbered _ Hb)) as Hn. by apply Hn.
Qed.

Lemma Forall_recoverySteps n : exists rest,
  recoverySteps n = [fun a => Ret (reloadPhase "refresh" a); fun a => Ret (a <| ap_names ::= fun s => finishNames s (nx_names n) |>)] ++ rest /\
  Forall (refreshing []) rest.
Proof.
  unfold recoverySteps. eexists. split; [reflexivity|]. rewrite Forall_app. split.
  - rewrite Forall_map. apply Forall_forall. intros u _. apply refreshing_id.
  - repeat (apply Forall_cons; split;
      [first [apply refreshing_announce | apply (refreshing_setAdmin _ (fun a s => _)); by intros ??]|]).
    constructor.
Qed.

(** What stays through a recovery, apart from the RPC services. *)
Definition fixed a := (ap_config a, ap_hasConfig a, ap_backends a, ap_alarm a, ap_runtimes a, ap_started a, identity a).

Lemma recovery_committed o services generation a a1 n a2 u :
  app_ok a -> recovery_prepared o services generation a a1 n -> publishGeneration errSymMsg o n a1 = (a2, Ret u) ->
  let a' := (runSteps (recoverySteps n) (ox_refresh o) (swapRecovery n a2)).1 in
  app_ok a' /\ fixed a' = fixed a /\ ap_generation a' = generation /\ ap_rpcServices a' = services /\
  ap_access a' = ap_access a /\ ap_task a' = ap_task a /\ ap_nextIndex a' = ap_nextIndex a.
Proof.
  intros Hok Hp Epub. pose proof (ok_base _ Hok) as Hb. pose proof (rp_grows _ _ _ _ _ _ Hp) as Hg.
  destruct (rp_names _ _ _ _ _ _ Hp) as (admin & bs & s0 & Hid & Hoff & _ & Hexp).
  destruct (rp_next _ _ _ _ _ _ Hp) as (En & Eg & Ea & Er & _ & Es & Epol).
  assert (Hfr : a2 = a1 <| ap_objects := ap_objects a2 |> <| ap_names := ap_names a2 |>).
  { revert Epub. unfold publishGeneration, activatePolicy. rewrite Epol. destruct (negb _); [done|]. by intros [= <- _]. }
  apply (publishGeneration_ret _ _ _ _ _ _ _ _ Hoff) in Epub as (Ho2 & Hn2 & Hi2 & _ & _ & _ & _ & _ & _ & Hnm2).
  assert (Hc2 : core a2 = core a) by (rewrite Hfr; exact (gr_core _ _ Hg)).
  cbv zeta. set (a3 := swapRecovery n a2). set (a' := (runSteps _ _ _).1).
  assert (Hspec : refreshes [] a3 a' /\ (ap_names a' = ap_names a3 \/ ap_names a' = finishNames (ap_names a3) (nx_names n))).
  { unfold a'. destruct (Forall_recoverySteps n) as (rest & -> & Hrest). apply runSteps_finish; [|done].
    intros b1 b2 [= <-]. apply reloadPhase_refreshes. }
  destruct Hspec as [Hrf Hnames'].
  destruct (committed_fields _ _ (rf_committed _ _ _ Hrf)) as (Ec & Eh & Egn & Eb & Eal & Ert & Epv & Eas & Esv & Eac & Enx & Est).
  destruct (committed_tasks _ _ (rf_committed _ _ _ Hrf)) as [Etk' Eix'].
  cbn in Ec, Eh, Egn, Eb, Eal, Ert, Epv, Eas, Esv, Eac, Enx, Est.
  destruct (core_fields _ _ Hc2) as (Ec2 & Eh2 & _ & Eb2 & Ea2 & Er2 & _ & _ & Eac2).
  destruct (core_tasks _ _ Hc2) as (Est2 & Etk & Eix). cbn in Etk', Eix'.
  rewrite Ec2 in Ec. rewrite Eh2 in Eh. rewrite Eb2 in Eb. rewrite Ea2 in Eal. rewrite Er2 in Ert. rewrite Eac2 in Eac.
  rewrite Eg in Egn. rewrite Es in Esv. rewrite Est2 in Est.
  assert (Hid' : identity a' = identity a).
  { rewrite (rf_identity _ _ _ Hrf). etransitivity; [exact Hi2|]. by apply identity_grows. }
  destruct (Hnm2 _ Hnames') as [Hinst Hnok].
  assert (Hok' : names_ok a').
  { unfold names_ok. rewrite Eac. rewrite (core_access _ _ (gr_core _ _ Hg)) in Hnok. by destruct (ap_access a). }
  assert (Hrt : runtimes_ok (ap_config a) generation (default 0 (ap_alarm a')) (ap_next a') (ap_runtimes a') (ap_objects a')).
  { destruct (recovered_runtimes _ _ _ _ _ _ Hok Hp) as [H1 H2 H3 H4]. split; rewrite ?Ert, ?Enx, ?Hn2, ?Eal; try done.
    - intros pv (id & Hr & Hob)%H1. exists id. split; [done|].
      rewrite (rf_objects _ _ _ Hrf); [cbn; by rewrite Ho2|set_solver].
    - intros id Hs. apply (rf_dom _ _ _ Hrf) in Hs. cbn in Hs. rewrite Ho2 in Hs. by apply H4. }
  split; [split|].
  - eapply base_runtimes; [exact Hrt|done|]. rewrite Eb, Enx, Hn2. intros m id Hlt%(ba_backends _ Hb).
    pose proof (gr_next _ _ Hg). lia.
  - rewrite Eh. apply Hok.
  - rewrite Eb, Ec. apply Hok.
  - by rewrite Ec, Egn.
  - rewrite Ec, Esv, Epv, Eas. apply Hp.
  - eapply (serves_installed a' admin); [done|by rewrite Hid'|exact Hinst|]. by rewrite Ec, Ert, Epv, Eas.
  - rewrite Ec, Eac. apply Hok.
  - unfold fixed. rewrite Ec, Eh, Eb, Eal, Ert, Est, Hid'. split_and!; congruence.
Qed.

(** ** RPC services *)

(** A service serves its methods, or has none. *)
Definition service_ok (s : RpcServiceState) : Prop :=
  rv_state s = "ready" /\ rv_pvs s <> [] \/
  rv_state s ∈ ["unavailable"; "invalid"; "discovering"] /\ rv_pvs s = [].

(** Services that serve the same endpoints. *)
Definition alike (s s' : RpcServiceState) : Prop :=
  rv_pvs s' = rv_pvs s /\ (rv_pvs s <> [] -> rv_owners s' = rv_owners s /\ rv_config s' = rv_config s).

Lemma alike_refl s : alike s s.
Proof. done. Qed.

Lemma assembleMethods_alike config s s' acc : alike s s' ->
  exn_fold (assembleMethod config s') acc (rv_pvs s') = exn_fold (assembleMethod config s) acc (rv_pvs s).
Proof.
  intros [Hp Ho]. rewrite Hp. destruct (decide (rv_pvs s = [])) as [->|Hne]; [done|]. destruct (Ho Hne) as [Ew Ec].
  generalize (rv_pvs s). intros l. revert acc; induction l as [|item l IH]; intros acc; [done|]. cbn [exn_fold].
  replace (assembleMethod config s' acc item) with (assembleMethod config s acc item) by (unfold assembleMethod; by rewrite Ew, Ec).
  destruct (assembleMethod config s acc item); [|done]. apply IH.
Qed.

Lemma assembleRpcPVs_alike config services services' :
  Forall2 alike services services' -> assembleRpcPVs config services' = assembleRpcPVs config services.
Proof.
  intros Hs. unfold assembleRpcPVs. destruct (configuredEndpoints config) as [es|]; [|done]. cbn [mbind exn_bind]. f_equal.
  generalize {| ra_endpoints := es; ra_pvs := []; ra_assignments := [] |}.
  induction Hs as [|s s' l l' Hs Hl IH]; intros acc; [done|]. cbn [exn_fold]. rewrite (assembleMethods_alike _ _ _ _ Hs).
  destruct (exn_fold (assembleMethod config s) acc (rv_pvs s)); [|done]. apply IH.
Qed.

Lemma app_ok_services a services : app_ok a -> Forall2 alike (ap_rpcServices a) services -> app_ok (a <| ap_rpcServices := services |>).
Proof.
  intros [Hb Hc Hk Hr Hrpc Hs Hp] Ha. split; try done.
  - destruct Hb. by split.
  - etransitivity; [exact (assembleRpcPVs_alike _ _ _ Ha)|exact Hrpc].
Qed.

Lemma alike_insert (services : list RpcServiceState) i s s' :
  services !! i = Some s -> alike s s' -> Forall2 alike services (<[i := s']> services).
Proof.
  intros Hi Ha. apply Forall2_same_length_lookup_2; [by rewrite length_insert|]. intros j x y Hx Hy.
  destruct (decide (i = j)) as [->|Hne].
  - rewrite list_lookup_insert_eq in Hy by (by eapply lookup_lt_Some). congruence.
  - rewrite list_lookup_insert_ne in Hy by done. replace y with x by congruence. apply alike_refl.
Qed.

Lemma alter_insert_services (f : RpcServiceState -> RpcServiceState) (services : list RpcServiceState) i s :
  services !! i = Some s -> alter f i services = <[i := f s]> services.
Proof.
  intros Hi. apply list_eq. intros j. destruct (decide (i = j)) as [->|Hne].
  - rewrite list_lookup_alter_eq, Hi, list_lookup_insert_eq by (by eapply lookup_lt_Some). done.
  - by rewrite list_lookup_alter_ne, list_lookup_insert_ne.
Qed.

Lemma alike_invalid what s : rv_pvs s = [] -> alike s (invalidService what s).
Proof. intros Hs. split; [done|]. by rewrite Hs. Qed.

(** What [finishReload] and the posting of an error leave. *)
Lemma reported accepted error f a :
  (forall n, an_owner (f n) = an_owner n /\ an_server (f n) = an_server n) ->
  let a' := finishReload accepted error (setAdmin f a) in
  (app_ok a -> app_ok a') /\ fixed a' = fixed a /\ ap_generation a' = ap_generation a /\ ap_rpcServices a' = ap_rpcServices a /\
  ap_access a' = ap_access a /\ ap_task a' = ap_task a /\ ap_nextIndex a' = ap_nextIndex a /\ rl_committed (ap_reload a') = accepted.
Proof.
  intros Hf. cbv zeta. split; [intros Hok; by apply finish_keeps, setAdmin_keeps|]. split; [|done]. unfold fixed.
  assert (Hid : identity (finishReload accepted error (setAdmin f a)) = identity a); [|by rewrite Hid].
  unfold finishReload, publishReload. rewrite identity_setAdmin by done. transitivity (identity (setAdmin f a)); [done|].
  by apply identity_setAdmin.
Qed.

(** A recovery is all or nothing, too: refused, the service is marked invalid
    and everything serves on; committed, the service's endpoints are served
    with the rest, under the next generation. *)
Record recovers (i : nat) (recovered : RpcServiceState) a a' : Prop := {
  rc_ok : app_ok a';
  rc_fixed : fixed a' = fixed a;
  rc_access : ap_access a' = ap_access a;
  rc_task : ap_task a' = ap_task a /\ ap_nextIndex a' = ap_nextIndex a;
  rc_cases :
    (rl_committed (ap_reload a') = true /\ ap_generation a' = u64 (ap_generation a + 1) /\
       ap_rpcServices a' = <[i := recovered]> (ap_rpcServices a)) \/
    (rl_committed (ap_reload a') = false /\ exists what,
       ap_rpcServices a' = alter (invalidService what) i (ap_rpcServices a) /\
       keeps_serving (a <| ap_rpcServices := ap_rpcServices a' |>) a');
}.

Lemma recovers_refused i recovered what s a0 a :
  app_ok a0 -> ap_rpcServices a0 !! i = Some s -> rv_pvs s = [] -> grows a0 a ->
  recovers i recovered a0 (recoveryRefused i what a).
Proof.
  unfold recoveryRefused. intros Hok Hi Hs Hg. destruct (grows_keeps _ _ Hok Hg) as [Hok1 [Hk1 Hk2 Hk3]].
  destruct (core_fields _ _ Hk1) as (_ & _ & Egn & _ & _ & _ & Esv & _ & Eac). destruct (core_tasks _ _ Hk1) as (_ & Et & Ei).
  set (a1 := a <| ap_rpcServices ::= alter (invalidService what) i |>).
  assert (Hok2 : app_ok a1).
  { apply (app_ok_services a); [done|]. rewrite Esv. rewrite (alter_insert_services _ _ _ _ Hi).
    eapply alike_insert; [exact Hi|by apply alike_invalid]. }
  destruct (reported false what (fun s => s <| an_error := what |>) a1) as (H1 & H2 & H3 & H4 & H5 & H6 & H7 & H8); [done|].
  split; [by apply H1| |by rewrite H5|by rewrite H6, H7|right].
  - rewrite H2. transitivity (fixed a); [done|]. unfold fixed. rewrite (identity_grows _ _ Hg). unfold core in Hk1. simplify_eq. congruence.
  - split; [done|]. exists what. rewrite H4. split; [cbn; by rewrite Esv|].
    apply keeps_serving_report. split; [|exact Hk2|exact Hk3]. unfold core in *. cbn. simplify_eq. congruence.
Qed.

Lemma setAdmin_id a : setAdmin (fun n => n) a = a.
Proof. unfold setAdmin. by destruct a as [?????????????? [?|] ???????]. Qed.

Lemma recovers_committed i recovered r a0 a :
  app_ok a -> fixed a = fixed a0 -> ap_access a = ap_access a0 -> ap_task a = ap_task a0 -> ap_nextIndex a = ap_nextIndex a0 ->
  ap_generation a = u64 (ap_generation a0 + 1) -> ap_rpcServices a = <[i := recovered]> (ap_rpcServices a0) ->
  recovers i recovered a0 (recoveryCommitted r a).
Proof.
  intros Hok Hf Ha Ht Hx Hg Hs.
  assert (Hdone : forall error f, (forall n, an_owner (f n) = an_owner n /\ an_server (f n) = an_server n) ->
    recovers i recovered a0 (finishReload true error (setAdmin f a))).
  { intros error f Hf'. destruct (reported true error f a Hf') as (H1 & H2 & H3 & H4 & H5 & H6 & H7 & H8).
    split; [by apply H1|congruence|congruence|split; congruence|]. left. split; [done|]. split; congruence. }
  unfold recoveryCommitted. destruct r as [u|what]; [rewrite <-(setAdmin_id a)|]; by apply Hdone.
Qed.

Lemma grows_admin_server a a' : grows a a' -> admin_server a -> admin_server a'.
Proof.
  intros Hg Hs admin Ea. pose proof (identity_grows _ _ Hg) as Hid. unfold identity in Hid. rewrite Ea in Hid. cbn in Hid.
  destruct (ap_admin a) as [admin0|] eqn:E0; [|done]. injection Hid as _ ->.
  destruct (core_fields _ _ (gr_core _ _ Hg)) as [-> _]. by apply Hs.
Qed.

Lemma grows_fixed a a' : grows a a' -> fixed a' = fixed a.
Proof.
  intros Hg. unfold fixed. rewrite (identity_grows _ _ Hg). pose proof (gr_core _ _ Hg) as Hc. unfold core in Hc. simplify_eq. congruence.
Qed.

Lemma recoverFrom_cases o i recovered s a a0 :
  app_ok a -> admin_server a -> ap_rpcServices a !! i = Some s -> rv_pvs s = [] -> grows a a0 ->
  recovers i recovered a (recoverFrom errSymMsg wrap o i recovered a0).
Proof.
  intros Hok Hsrv Hi Hs Hg0. destruct (grows_keeps _ _ Hok Hg0) as [Hok0 _].
  destruct (core_fields _ _ (gr_core _ _ Hg0)) as (Ec0 & _ & Eg0 & _ & _ & _ & Es0 & _ & Ea0). unfold recoverFrom. rewrite Es0, Eg0.
  pose proof (prepareRecovery_cases o (<[i:=recovered]> (ap_rpcServices a)) (u64 (ap_generation a + 1)) a0 (ok_base _ Hok0)
    (grows_admin_server _ _ Hg0 Hsrv)) as Hp.
  destruct (prepareRecovery _ _ _ _ _) as [a1 [n|what]]; [|by eapply recovers_refused; [| | |etransitivity]].
  destruct (publishGeneration _ _ _ _) as [a2 [u|what]] eqn:Epub.
  - destruct (recovery_committed _ _ _ _ _ _ _ _ Hok0 Hp Epub) as (Hok1 & Hfx & Hgn & Hsv & Hacc & Htk & Hix).
    destruct (core_tasks _ _ (gr_core _ _ Hg0)) as (_ & Et & Ei). rewrite (grows_fixed _ _ Hg0) in Hfx.
    destruct (runSteps _ _ _) as [a3 r]. cbn [fst] in *. apply recovers_committed; congruence.
  - destruct (rp_names _ _ _ _ _ _ Hp) as (admin & bs & s0 & _ & Hoff & Hu & _).
    eapply recovers_refused; [done|exact Hi|done|]. etransitivity; [exact Hg0|].
    eapply refused_grows; [apply Hp|apply (ok_base _ Hok0)|exact Hu|exact Hoff|exact Epub].
Qed.

Lemma recoverService_cases o i recovered s a :
  app_ok a -> admin_server a -> ap_rpcServices a !! i = Some s -> rv_pvs s = [] ->
  recovers i recovered a (recoverService errSymMsg wrap o i recovered a).
Proof.
  intros Hok Hsrv Hi Hs. unfold recoverService. eapply recoverFrom_cases; [done|done|exact Hi|done|].
  etransitivity; [apply grows_begin|apply grows_describe].
Qed.

(** ** The services of a generation *)

(** A service of a generation just prepared: none is being reflected. *)
Definition staged_ok (s : RpcServiceState) : Prop := service_ok s /\ rv_state s <> "discovering".

Lemma reflectMethods_ready server svc methods : forall result next service next',
  reflectMethods server svc methods result next = Reflected service next' ->
  rv_state service = rv_state result /\ rv_config service = rv_config result /\
  (methods <> [] \/ rv_pvs result <> [] -> rv_pvs service <> []).
Proof.
  induction methods as [|[s m] methods IH]; intros result next service next'; cbn [reflectMethods].
  { intros [= <- <-]. split_and!; [done|done|]. intros [?|?]; done. }
  destruct (sm_emplace _ _ _) as [pvs inserted] eqn:E. destruct inserted; cbn [negb]; [|done].
  intros (-> & -> & Hp)%IH. split_and!; [done|done|]. intros _. apply Hp. right. cbn. intros ->.
  unfold sm_emplace in E. destruct (sm_has _ _); [done|]. injection E as E.
  assert (Hin : rpcName server svc m ∈ sm_keys (sm_set (rpcName server svc m) next (rv_pvs result))) by (apply sm_keys_set; by left).
  rewrite E in Hin. by apply elem_of_nil in Hin.
Qed.

Lemma reflectRpcService_ready o server svc next service next' :
  reflectRpcService o server svc next = Reflected service next' ->
  rv_state service = "ready" /\ rv_config service = svc /\ rv_pvs service <> [].
Proof.
  unfold reflectRpcService. destruct (ox_discover o svc) as [[|m l] [u|]| |]; try done.
  intros (-> & -> & Hp)%reflectMethods_ready. split_and!; [done|done|]. apply Hp. by left.
Qed.

Lemma stageService_ok o server previous s svc s' :
  Forall service_ok previous -> stageService o server previous s svc = Ret s' ->
  exists service, s'.1 = s.1 ++ [service] /\ staged_ok service /\ rv_config service = svc.
Proof.
  clear errSymMsg. intros Hprev. destruct s as [staged next]. unfold stageService. destruct (List.find _ _) as [prior|] eqn:Ef.
  - intros [= <-]. exists (prior <| rv_config := svc |>). split; [done|]. split; [|done].
    apply List.find_some in Ef as [Hin Hre]. apply list_elem_of_In in Hin. eapply Forall_forall in Hprev; [|exact Hin].
    unfold reusableService in Hre. rewrite !andb_true_iff, negb_true_iff, bool_decide_eq_false in Hre.
    destruct Hprev as [[Hst Hpvs]|[_ Hno]]; [|naive_solver]. split; [left; by split|]. cbn. by rewrite Hst.
  - destruct (reflectRpcService _ _ _ _) as [service next'|what|what] eqn:E; [|destruct (negb _); [done|]|done]; intros [= <-].
    + apply reflectRpcService_ready in E as (Hst & Hc & Hp). exists service. split; [done|]. split; [|done].
      split; [left; by split|by rewrite Hst].
    + eexists. split; [reflexivity|]. split; [|done]. split; [right; split; [|done]|done]. cbn. set_solver.
Qed.

Lemma stageServices_ok o server previous svcs : forall s s',
  Forall service_ok previous -> exn_fold (stageService o server previous) s svcs = Ret s' ->
  exists added, s'.1 = s.1 ++ added /\ Forall staged_ok added /\ map rv_config added = svcs.
Proof.
  induction svcs as [|svc svcs IH]; intros s s' Hprev; cbn [exn_fold].
  { intros [= <-]. exists []. split; [by rewrite app_nil_r|by split]. }
  intros (s1 & (service & Hs1 & Hok & Hc)%stageService_ok & (added & Hs' & Ha & Hm)%IH)%exn_bind_ret; [|done..].
  exists (service :: added). rewrite Hs', Hs1, <-app_assoc. split; [done|]. split; [by constructor|]. cbn. by rewrite Hc, Hm.
Qed.

Lemma buildRpcPVs_services o config previous next pvs assignments services next' :
  Forall service_ok previous -> buildRpcPVs o config previous next = Ret (pvs, assignments, services, next') ->
  Forall staged_ok services /\ map rv_config services = app_rpcServices config.
Proof.
  unfold buildRpcPVs. intros Hprev ([staged next1] & Hst & ([p1 a1] & _ & [= <- <- <- <-])%exn_bind_ret)%exn_bind_ret.
  destruct (ox_grpc o).
  - apply stageServices_ok in Hst as (added & Hs & Ha & Hm); [|done]. cbn in Hs. by subst.
  - apply exn_bind_ret in Hst as (u & Ht%throw_if_ret & [= <- <-]). apply negb_false_iff, bool_decide_eq_true in Ht.
    by rewrite Ht.
Qed.

(** ** The invariant of a running application *)

(** Every service is ready, waits, failed for good, or is being reflected by
    the task in flight; a task of an older generation belongs to none. *)
Record rpc_ok a : Prop := {
  ro_services : Forall service_ok (ap_rpcServices a);
  ro_configs : map rv_config (ap_rpcServices a) = app_rpcServices (ap_config a);
  ro_discovering : forall i s, ap_rpcServices a !! i = Some s -> rv_state s = "discovering" ->
    exists t, ap_task a = Some t /\ tk_index t = i /\ tk_generation t = ap_generation a;
  ro_task : forall t, ap_task a = Some t -> tk_generation t = ap_generation a ->
    exists s, ap_rpcServices a !! tk_index t = Some s /\ rv_state s = "discovering" /\ rv_config s = tk_config t;
  ro_stale : forall t, ap_task a = Some t -> tk_generation t <= ap_generation a;
}.

(** The settings that only a restart changes. *)
Definition settings (config : AppConfig) :=
  (app_server config, app_limits config, app_discovery config, ac_enabled (app_access config)).

Record running (config0 : AppConfig) (limit : Z) a : Prop := {
  rn_ok : app_ok a;
  rn_rpc : rpc_ok a;
  rn_admin : admin_server a;
  rn_started : ap_started a = true;
  rn_settings : settings (ap_config a) = settings config0;
  rn_secured : is_Some (ap_access a) <-> ac_enabled (app_access config0) = true;
  rn_generation : 1 <= ap_generation a <= limit;
}.

Lemma running_mono config0 limit limit' a : limit <= limit' -> running config0 limit a -> running config0 limit' a.
Proof. intros Hle [H1 H2 H3 H4 H5 H6 H7]. split; try done. lia. Qed.

(** *** Reloads *)

Lemma sameServerConfig_eq l r : sameServerConfig l r = true -> l = r.
Proof.
  unfold sameServerConfig. rewrite !andb_true_iff, !bool_decide_eq_true, !String.eqb_eq, Bool.eqb_true_iff. destruct l, r. cbn.
  intros; destruct_and?; subst; done.
Qed.
Lemma sameOperationLimits_eq l r : sameOperationLimits l r = true -> l = r.
Proof.
  unfold sameOperationLimits. rewrite !andb_true_iff, !Z.eqb_eq, !bool_decide_eq_true. destruct l, r. cbn. intros; destruct_and?; subst; done.
Qed.
Lemma sameDiscoveryConfig_eq l r : sameDiscoveryConfig l r = true -> l = r.
Proof.
  unfold sameDiscoveryConfig. rewrite !andb_true_iff, !Z.eqb_eq, !Bool.eqb_true_iff, !String.eqb_eq. destruct l, r. cbn.
  intros; destruct_and?; subst; done.
Qed.

Lemma immutable_settings a config :
  ap_hasConfig a = true -> immutable false a config = Ret tt -> settings config = settings (ap_config a).
Proof.
  intros Hc. unfold immutable. rewrite Hc. cbn [negb andb].
  intros (? & H1%throw_if_ret & (? & H2%throw_if_ret & (? & H3%throw_if_ret & H4%throw_if_ret)%exn_bind_ret)%exn_bind_ret)%exn_bind_ret.
  apply negb_false_iff in H1, H2, H3, H4. apply sameOperationLimits_eq in H1. apply sameServerConfig_eq in H2.
  apply Bool.eqb_prop in H3. apply sameDiscoveryConfig_eq in H4. unfold settings. congruence.
Qed.

(** The services of a generation that a reload committed. *)
Lemma reloaded_rpc a a' :
  rpc_ok a -> Forall staged_ok (ap_rpcServices a') -> map rv_config (ap_rpcServices a') = app_rpcServices (ap_config a') ->
  ap_task a' = ap_task a -> ap_generation a' = ap_generation a + 1 -> rpc_ok a'.
Proof.
  intros [_ _ _ _ Hst] Hs Hm Ht Hg. split; [|done| | |].
  - eapply Forall_impl; [exact Hs|]. by intros s [? _].
  - intros i s Hi Hd. eapply Forall_lookup in Hs as [_ Hne]; [|exact Hi]. done.
  - intros t Et Eg. rewrite Ht in Et. apply Hst in Et. lia.
  - intros t Et. rewrite Ht in Et. apply Hst in Et. lia.
Qed.

Lemma rpc_ok_core a a' : core a' = core a -> rpc_ok a -> rpc_ok a'.
Proof.
  intros Hc [H1 H2 H3 H4 H5]. destruct (core_fields _ _ Hc) as (E1 & _ & E2 & _ & _ & _ & E3 & _). destruct (core_tasks _ _ Hc) as (_ & E4 & _).
  split; rewrite ?E1, ?E2, ?E3, ?E4; done.
Qed.

Lemma identity_admin_server a a' : identity a' = identity a -> app_server (ap_config a') = app_server (ap_config a) ->
  admin_server a -> admin_server a'.
Proof.
  intros Hid Hc Hs admin Ea. unfold identity in Hid. rewrite Ea in Hid. cbn in Hid.
  destruct (ap_admin a) as [admin0|] eqn:E0; [|done]. injection Hid as _ ->. rewrite Hc. by apply Hs.
Qed.

Lemma running_grows config0 limit a a' : running config0 limit a -> grows a a' -> running config0 limit a'.
Proof.
  intros [H1 H2 H3 H4 H5 H6 H7] Hg. pose proof (gr_core _ _ Hg) as Hc.
  destruct (core_fields _ _ Hc) as (E1 & _ & E2 & _ & _ & _ & _ & _ & Ea). destruct (core_tasks _ _ Hc) as (E3 & _).
  split; [by apply (grows_keeps a)|by apply (rpc_ok_core a)|by apply (grows_admin_server a)|by rewrite E3|by rewrite E1|by rewrite Ea|by rewrite E2].
Qed.

Lemma running_setAdmin config0 limit f a :
  (forall n, an_owner (f n) = an_owner n /\ an_server (f n) = an_server n) ->
  running config0 limit a -> running config0 limit (setAdmin f a).
Proof.
  intros Hf [H1 H2 H3 H4 H5 H6 H7]. split; try done; [by apply setAdmin_keeps|by destruct H2|].
  by apply (identity_admin_server a); [apply identity_setAdmin| |].
Qed.

Lemma running_applyConfig config0 limit o config a :
  running config0 limit a -> loadable config -> limit + 1 < 2 ^ 64 ->
  running config0 (limit + 1) (applyConfig errSymMsg wrap o config false a).1.
Proof.
  intros Hr Hld Hlim. destruct Hr as [H1 H2 H3 H4 H5 H6 H7]. pose proof (applyConfig_cases errSymMsg wrap o config a H1 Hld) as Hc.
  destruct (applyConfig _ _ _ _ _ _) as [a' [u|what]] eqn:E; cbn [fst].
  - destruct Hc as (Hok & Hcfg & Hgen & Hid & Himm & Hacc & Hst & _ & a0 & a1 & n & _ & _ & _ & Hp & _ & Hs0 & Hs & Ht).
    apply (immutable_settings a) in Himm; [|apply H1]. destruct (gp_services _ _ _ _ _ _ _ Hp) as (next & next' & Hb).
    rewrite Hs0 in Hb. apply buildRpcPVs_services in Hb as [Hsv Hm]; [|apply H2].
    rewrite u64_id in Hgen by lia.
    split; [done| | |congruence|congruence|by rewrite Hacc|lia].
    + apply (reloaded_rpc a); [done|by rewrite Hs|by rewrite Hs, Hcfg|done|done].
    + apply (identity_admin_server a); [done| |done]. rewrite Hcfg. by injection Himm.
  - apply (running_mono _ limit); [lia|]. apply (running_grows _ _ a); [by split|]. pose proof (ok_base _ H1) as Hb.
    eapply applyConfig_throw; [apply Hb|by apply base_linked|apply Hb|exact E].
Qed.

Lemma running_pumpReload config0 limit o loaded a :
  running config0 limit a -> (forall config, loaded = Ret config -> loadable config) -> limit + 1 < 2 ^ 64 ->
  running config0 (limit + 1) (pumpReload errSymMsg wrap o loaded a).
Proof.
  intros Hr Hld Hlim. unfold pumpReload. pose proof (running_grows _ _ _ _ Hr (grows_begin "reload" a)) as Hr0.
  set (a0 := beginReload "reload" a) in *. clearbody a0. destruct loaded as [config|what].
  - pose proof (running_applyConfig _ _ o config a0 Hr0 (Hld _ eq_refl) Hlim) as Hr1.
    destruct (applyConfig _ _ _ _ _ _) as [a1 [u|what]]; cbn [fst] in Hr1; eapply running_grows; [|apply grows_finish| |apply grows_finish];
      [done|by apply running_setAdmin].
  - apply (running_mono _ limit); [lia|]. eapply running_grows; [|apply grows_finish]. by apply running_setAdmin.
Qed.

(** *** Recoveries *)

Lemma taskResult_cases o t next :
  let '(recovered, next') := taskResult o t next in
  next <= next' /\ rv_config recovered = tk_config t /\ staged_ok recovered.
Proof.
  unfold taskResult. destruct (reflectRpcService _ _ _ _) as [service next'|what|what] eqn:E.
  - split; [by eapply reflectRpcService_next|]. apply reflectRpcService_ready in E as (Hst & Hc & Hp). split; [done|].
    split; [left; by split|by rewrite Hst].
  - split; [lia|]. split; [done|]. split; [right|done]. split; [cbn; by left|done].
  - split; [lia|]. split; [done|]. split; [right|done]. split; [cbn; right; by left|done].
Qed.

Lemma app_ok_task t next a : app_ok a -> ap_next a <= next -> app_ok (a <| ap_task := t |> <| ap_next := next |>).
Proof.
  intros [Hb Hc Hk [R1 R2 R3 R4] Hrpc Hs Hp] Hle. destruct Hb as [B1 B2 B3 B4 B5]. split; try done.
  - split; try done; cbn; [intros id Hid%B1; cbn; lia|intros n id Hid%B3; lia].
  - split; try done. intros id Hid%R4. cbn. lia.
Qed.

(** The task is over: the service it was for is the only one not settled. *)
Definition settling (i : nat) a : Prop :=
  Forall service_ok (ap_rpcServices a) /\ map rv_config (ap_rpcServices a) = app_rpcServices (ap_config a) /\
  ap_task a = None /\ forall j s, ap_rpcServices a !! j = Some s -> rv_state s = "discovering" -> j = i.

Lemma settled i s a :
  settling i a -> service_ok s -> rv_state s <> "discovering" ->
  (forall old, ap_rpcServices a !! i = Some old -> rv_config s = rv_config old) ->
  forall a', ap_rpcServices a' = <[i := s]> (ap_rpcServices a) -> ap_config a' = ap_config a -> ap_task a' = None -> rpc_ok a'.
Proof.
  intros (Hf & Hm & Ht & Hd) Hs Hne Hc a' Es Ec Et. split; rewrite ?Et, ?Es; try done.
  - by apply Forall_insert.
  - rewrite Ec, <-Hm. change (map rv_config) with (fmap (M := list) rv_config). rewrite list_fmap_insert.
    destruct (ap_rpcServices a !! i) as [old|] eqn:E.
    + apply list_insert_id. rewrite list_lookup_fmap, E. cbn. by rewrite (Hc _ eq_refl).
    + rewrite list_insert_ge; [done|]. rewrite length_fmap. by apply lookup_ge_None.
  - intros j x Hj Hx. destruct (decide (j = i)) as [->|Hji].
    + apply list_lookup_insert_Some in Hj as [(_ & <- & _)|[? _]]; done.
    + rewrite list_lookup_insert_ne in Hj by done. by destruct Hji; eapply Hd.
Qed.

Lemma task_settles t next a : rpc_ok a -> ap_task a = Some t -> tk_generation t = ap_generation a ->
  settling (tk_index t) (a <| ap_task := None |> <| ap_next := next |>).
Proof.
  intros [H1 H2 H3 H4 H5] Et Eg. split_and!; try done. cbn. intros j s Hj Hd.
  destruct (H3 _ _ Hj Hd) as (t' & Et' & <- & _). congruence.
Qed.

Lemma fixed_fields a a' : fixed a' = fixed a ->
  ap_config a' = ap_config a /\ ap_started a' = ap_started a /\ identity a' = identity a.
Proof. unfold fixed. intros Hf. by injection Hf. Qed.

Lemma service_discovering s : service_ok s -> rv_state s = "discovering" -> rv_pvs s = [].
Proof. intros [[E _]|[_ ?]] Hd; [rewrite E in Hd|]; done. Qed.

Lemma running_recovered config0 limit o i s recovered a :
  app_ok a -> admin_server a -> settling i a -> ap_started a = true -> settings (ap_config a) = settings config0 ->
  (is_Some (ap_access a) <-> ac_enabled (app_access config0) = true) -> 1 <= ap_generation a <= limit -> limit + 1 < 2 ^ 64 ->
  ap_rpcServices a !! i = Some s -> rv_pvs s = [] -> service_ok recovered -> rv_state recovered <> "discovering" ->
  rv_config recovered = rv_config s ->
  running config0 (limit + 1) (recoverService errSymMsg wrap o i recovered a).
Proof.
  intros Hok Hsrv Hset Hst Hse Hsec Hgen Hlim Hi Hp Hrec Hne Hcfg.
  destruct (recoverService_cases o i recovered s a Hok Hsrv Hi Hp) as [Hok' Hfx Hacc [Ht _] Hcases].
  destruct (fixed_fields _ _ Hfx) as (Ec & Est & Eid).
  assert (Hrun : rpc_ok (recoverService errSymMsg wrap o i recovered a) /\
    1 <= ap_generation (recoverService errSymMsg wrap o i recovered a) <= limit + 1).
  { destruct Hset as (Hf & Hm & Hnone & Hd). destruct Hcases as [(_ & Eg & Es)|(_ & what & Es & [Hk _ _])].
    - rewrite u64_id in Eg by lia. split; [|lia].
      apply (settled i recovered a) with (a' := recoverService errSymMsg wrap o i recovered a); try done; [|congruence].
      intros old Ho. congruence.
    - rewrite (alter_insert_services _ _ _ _ Hi) in Es. split.
      + apply (settled i (invalidService what s) a) with (a' := recoverService errSymMsg wrap o i recovered a); try done; [..|congruence].
        * right. split; [cbn; right; by left|done].
        * intros old Ho. cbn. congruence.
      + destruct (core_fields _ _ Hk) as (_ & _ & Eg & _). rewrite Eg. cbn. lia. }
  destruct Hrun as [Hrpc Hg]. split; try done; [|by rewrite Est|by rewrite Ec|by rewrite Hacc].
  apply (identity_admin_server a); [done|by rewrite Ec|done].
Qed.

Lemma running_services config0 limit services t next a :
  running config0 limit a -> ap_next a <= next -> Forall2 alike (ap_rpcServices a) services ->
  (forall a', ap_rpcServices a' = services -> ap_config a' = ap_config a -> ap_task a' = t -> ap_generation a' = ap_generation a -> rpc_ok a') ->
  running config0 limit (a <| ap_task := t |> <| ap_next := next |> <| ap_rpcServices := services |>).
Proof.
  intros [H1 H2 H3 H4 H5 H6 H7] Hle Hal Hrpc. split; try done; [|by apply Hrpc].
  apply app_ok_services; [by apply app_ok_task|done].
Qed.

Lemma Forall2_alike_refl services : Forall2 alike services services.
Proof. induction services; constructor; [apply alike_refl|done]. Qed.

Lemma App_same_services a t next : a <| ap_task := t |> <| ap_next := next |> =
  a <| ap_task := t |> <| ap_next := next |> <| ap_rpcServices := ap_rpcServices a |>.
Proof. done. Qed.

Lemma running_finishTask config0 limit o t a :
  running config0 limit a -> ap_task a = Some t -> limit + 1 < 2 ^ 64 ->
  running config0 (limit + 1) (finishTask errSymMsg wrap o t a) /\ ap_task (finishTask errSymMsg wrap o t a) = None.
Proof.
  intros Hr Et Hlim. unfold finishTask. pose proof (taskResult_cases o t (ap_next a)) as Hres.
  destruct (taskResult o t (ap_next a)) as [recovered next]. destruct Hres as (Hle & Hcfg & Hrec & Hne).
  pose proof (rn_rpc _ _ _ Hr) as Hrpc. set (a0 := a <| ap_task := None |> <| ap_next := next |>).
  assert (Hidle : tk_generation t <> ap_generation a \/ ap_rpcServices a !! tk_index t = None -> running config0 (limit + 1) a0).
  { intros Hst. apply (running_mono _ limit); [lia|]. unfold a0. rewrite App_same_services.
    apply running_services; [done|done|apply Forall2_alike_refl|]. destruct Hrpc as [R1 R2 R3 R4 R5].
    intros a' Es Ec Et' Eg. split; rewrite ?Es, ?Ec, ?Et'; try done. intros i s Hi Hd. destruct (R3 _ _ Hi Hd) as (t' & Et'' & <- & Eg'').
    assert (t' = t) as -> by congruence. destruct Hst as [?|?]; congruence. }
  change (ap_rpcServices a0) with (ap_rpcServices a). change (ap_generation a0) with (ap_generation a).
  destruct (ap_rpcServices a !! tk_index t) as [service|] eqn:Ei; [|split; [apply Hidle; by right|done]].
  destruct (Z.eqb_spec (tk_generation t) (ap_generation a)) as [Eg|Hng]; cbn [negb]; [|split; [apply Hidle; by left|done]].
  destruct (ro_task _ Hrpc _ Et Eg) as (s & Hs & Hd & Hc). rewrite Ei in Hs. injection Hs as <-.
  pose proof (ro_services _ Hrpc) as Hf. eapply Forall_lookup in Hf as Hso; [|exact Ei].
  pose proof (service_discovering _ Hso Hd) as Hnil. pose proof (task_settles t next a Hrpc Et Eg) as Hset. fold a0 in Hset.
  set (rec := recovered <| rv_attempts := u64 (rv_attempts service + 1) |>).
  change (rv_state rec) with (rv_state recovered). destruct (String.eqb_spec (rv_state recovered) "ready") as [Er|Hnr]; cbn [negb].
  - assert (Hrun : running config0 (limit + 1) (recoverService errSymMsg wrap o (tk_index t) rec a0)).
    { destruct Hr as [H1 H2 H3 H4 H5 H6 H7]. apply (running_recovered _ _ _ _ service); try done.
      - by apply app_ok_task.
      - etransitivity; [exact Hcfg|]. by rewrite <-Hc. }
    split; [done|]. assert (Hok0 : app_ok a0) by (apply app_ok_task; [apply Hr|done]).
    destruct (recoverService_cases o (tk_index t) rec service a0 Hok0) as [_ _ _ [-> _] _]; [apply Hr|done|done|done].
  - split; [|done]. apply (running_mono _ limit); [lia|].
    assert (Hpvs : rv_pvs recovered = []) by (destruct Hrec as [[? _]|[_ ?]]; done).
    apply (running_services _ _ (<[tk_index t := rec <| rv_nextRetry := ox_now o + rs_retryIntervalMs (rv_config rec) |>]> (ap_rpcServices a))
             None next); [done|done| |].
    + eapply alike_insert; [exact Ei|]. split; [cbn; by rewrite Hnil, Hpvs|]. by rewrite Hnil.
    + intros a' Es Ec Et' Eg'. eapply (settled _ _ a0 Hset); [| | |exact Es|exact Ec|exact Et']; [|done|].
      * destruct Hrec as [?|?]; [by left|by right].
      * intros old Ho. cbn in Ho. rewrite Ei in Ho. injection Ho as <-. cbn. by rewrite Hcfg.
Qed.

Lemma nextDiscovery_Some now services first todo : forall offset i,
  nextDiscovery now services first offset todo = Some i ->
  exists s, services !! i = Some s /\ rv_state s = "unavailable" /\ rv_nextRetry s <= now.
Proof.
  induction todo as [|todo IH]; intros offset i; cbn; [done|]. destruct (services !! _) as [s|] eqn:E; [|done].
  destruct (String.eqb_spec (rv_state s) "unavailable"), (Z.leb_spec (rv_nextRetry s) now); cbn; [|by apply IH..].
  intros [= <-]. eauto.
Qed.

Lemma running_startTask config0 limit o a :
  running config0 limit a -> ap_task a = None -> running config0 limit (startTask o a).
Proof.
  intros Hr Hn. unfold startTask. destruct (nextDiscovery _ _ _ _ _) as [i|] eqn:E; [|done].
  apply nextDiscovery_Some in E as (s & Hi & Hu & _). rewrite Hi.
  set (t := {| tk_generation := _; tk_index := _; tk_server := _; tk_config := _ |}).
  pose proof (rn_rpc _ _ _ Hr) as Hrpc. pose proof (ro_services _ Hrpc) as Hf. eapply Forall_lookup in Hf as Hso; [|exact Hi].
  assert (Hnil : rv_pvs s = []) by (destruct Hso as [[Hx _]|[_ ?]]; [rewrite Hx in Hu|]; done).
  assert (Hrun : running config0 limit (a <| ap_task := Some t |> <| ap_next := ap_next a |>
    <| ap_rpcServices := alter (fun s => s <| rv_state := "discovering" |>) i (ap_rpcServices a) |>)).
  { apply running_services; [done|lia| |].
    - rewrite (alter_insert_services _ _ _ _ Hi). eapply alike_insert; [exact Hi|]. split; [done|]. by rewrite Hnil.
    - destruct Hrpc as [R1 R2 R3 R4 R5]. rewrite (alter_insert_services _ _ _ _ Hi).
      set (s' := s <| rv_state := "discovering" |>).
      intros a' Es Ec Et Eg. split; rewrite ?Es, ?Ec, ?Et, ?Eg.
      + apply Forall_insert; [done|]. right. split; [cbn; right; right; by left|done].
      + rewrite <-R2. change (map rv_config) with (fmap (M := list) rv_config). rewrite list_fmap_insert.
        apply list_insert_id. by rewrite list_lookup_fmap, Hi.
      + intros j x Hj Hx. destruct (decide (j = i)) as [->|Hji]; [by exists t|].
        rewrite list_lookup_insert_ne in Hj by done. destruct (R3 _ _ Hj Hx) as (t' & Et' & _). congruence.
      + intros t' [= <-] _. exists s'. rewrite list_lookup_insert_eq by (by eapply lookup_lt_Some). done.
      + intros t' [= <-]. cbn. lia. }
  destruct Hrun as [[[B1 B2 B3 B4 B5] C1 C2 C3 C4 C5 C6] [R1 R2 R3 R4 R5] G1 G2 G3 G4 G5]. split; try done.
Qed.

Lemma running_recovery config0 limit o ready a :
  running config0 limit a -> limit + 1 < 2 ^ 64 -> running config0 (limit + 1) (pumpRpcRecovery errSymMsg wrap o ready a).
Proof.
  intros Hr Hlim. unfold pumpRpcRecovery. destruct (negb _); [apply (running_mono _ limit); [lia|done]|].
  destruct (ap_task a) as [t|] eqn:Et.
  - destruct ready; [|apply (running_mono _ limit); [lia|done]].
    destruct (running_finishTask _ _ o t a Hr Et Hlim) as [H1 H2]. by apply running_startTask.
  - apply (running_mono _ limit); [lia|]. by apply running_startTask.
Qed.

(** *** The pump *)

Lemma running_request config0 limit b a : running config0 limit a -> running config0 limit (a <| ap_reloadRequested := b |>).
Proof. intros [[[B1 B2 B3 B4 B5] C1 C2 C3 C4 C5 C6] [R1 R2 R3 R4 R5] G1 G2 G3 G4 G5]. split; done. Qed.

Lemma running_access config0 limit access access' a :
  running config0 limit a -> ap_access a = Some access ->
  (forall c asgs, AccessPolicy.policy_of c asgs access -> AccessPolicy.policy_of c asgs access') ->
  running config0 limit (a <| ap_access := Some access' |>).
Proof.
  intros [[[B1 B2 B3 B4 B5] C1 C2 C3 C4 C5 C6] [R1 R2 R3 R4 R5] G1 G2 G3 G4 G5] Ea Hp.
  split; try done.
  - split; try done; cbn.
    + split; try done. unfold names_ok in *. by rewrite Ea in B2.
    + intros ? [= <-]. by apply Hp, C6.
  - cbn. rewrite <-G4, Ea. split; eauto.
Qed.

Lemma running_consume config0 limit a : running config0 limit a -> running config0 limit (consumeAccessReload (consumeReload a)).
Proof.
  intros Hr. assert (Hr1 : running config0 limit (consumeReload a)).
  { unfold consumeReload. destruct (ap_admin a) as [admin|]; [|done]. destruct (an_reloadRequested admin); [|done].
    apply running_setAdmin; [done|]. by apply running_request. }
  revert Hr1. generalize (consumeReload a). clear. intros a Hr. unfold consumeAccessReload.
  destruct (ap_access a) as [access|] eqn:Ea; [|done]. destruct (ap_admin a) as [admin|]; [|done].
  destruct (an_accessReloadRequested admin); [|done]. apply running_setAdmin; [done|].
  eapply running_access; [done|exact Ea|]. intros c asgs. apply AccessPolicy.request_of.
Qed.

Lemma running_pumpAccess config0 limit i a :
  running config0 limit a -> running config0 limit (pumpAccess errSymMsg S_asLib_asNotActive i a).
Proof.
  intros Hr. unfold pumpAccess. destruct (ap_access a) as [access|] eqn:Ea.
  - assert (Heq : forall f, a <| ap_access ::= fmap f |> = a <| ap_access := Some (f access) |>).
    { intros f. destruct a. cbn in Ea |- *. by rewrite Ea. }
    rewrite Heq. eapply running_access; [done|exact Ea|]. intros c asgs. apply AccessPolicy.pump_of.
  - assert (Heq : forall f, a <| ap_access ::= fmap f |> = a).
    { intros f. destruct a. cbn in Ea |- *. by rewrite Ea. }
    by rewrite Heq.
Qed.

Definition loads (i : PumpInput) : Prop := forall config, pu_load i = Ret config -> loadable config.

Lemma running_pump config0 limit i a :
  running config0 limit a -> loads i -> limit + 2 < 2 ^ 64 ->
  running config0 (limit + 2) (pump errSymMsg wrap S_asLib_asNotActive i a).
Proof.
  intros Hr Hld Hlim. unfold pump. rewrite (rn_started _ _ _ Hr). cbn [negb]. apply running_consume in Hr. revert Hr.
  generalize (consumeAccessReload (consumeReload a)). clear a. intros a Hr.
  replace (limit + 2) with (limit + 1 + 1) by lia. apply running_recovery; [|lia]. apply running_pumpAccess.
  destruct (ap_reloadRequested a); [|apply (running_mono _ limit); [lia|done]].
  apply running_pumpReload; [by apply running_request|done|lia].
Qed.

(** *** The server's threads and the commands *)

Lemma served_step x x' n :
  reach x -> rs_publisher (y_state x) = None -> step x x' -> rs_current (y_state x') = rs_current (y_state x) ->
  served (y_state x') n = served (y_state x) n.
Proof.
  intros Hx Hn Hstep Hc. unfold served. rewrite Hc. destruct (sm_find n _) as [id|] eqn:E; [|done]. cbn.
  assert (Hq : quiet (y_state x)) by (by exists x). destruct (proj2 (quiet_inv _ Hq) _ _ E) as (r & Hr & _).
  rewrite Hr. cbn. by rewrite (step_bindings _ _ _ _ Hx Hstep Hr).
Qed.

Inductive other_step a : App -> Prop :=
| A_reload : other_step a (putReload a)
| A_accessReload configured a' : putAccessReload configured a = Ret a' -> other_step a a'
| A_signal : other_step a (requestReload a)
| A_server x x' :
    reach x -> y_state x = se_registry (ap_names a) -> step x x' -> rs_publisher (y_state x') = None ->
    rs_current (y_state x') = rs_current (se_registry (ap_names a)) ->
    other_step a (a <| ap_names := (ap_names a) <| se_registry := y_state x' |> |>).

Lemma running_other config0 limit a a' : running config0 limit a -> other_step a a' -> running config0 limit a'.
Proof.
  intros Hr Hs. destruct Hs as [|configured a' Hput| |x x' Hx Ex Hstep Hn Hc].
  - by apply running_setAdmin.
  - unfold putAccessReload in Hput. destruct (negb _); [done|]. injection Hput as <-. by apply running_setAdmin.
  - by apply running_request.
  - destruct Hr as [[[B1 B2 B3 B4 B5] C1 C2 C3 C4 C5 C6] [R1 R2 R3 R4 R5] G1 G2 G3 G4 G5]. split; try done. split; try done; cbn.
    + split; try done. unfold names_ok in *. cbn. destruct (ap_access a); [by eapply server_step_ok|].
      exists x'. split; [by eapply rtc_r|done].
    + destruct C5 as (admin & Ha & Hserves). exists admin. split; [done|]. cbv zeta in *. cbn. intros n.
      rewrite (served_step x x' n), Ex; [apply Hserves|done| |done|by rewrite Ex]. rewrite Ex.
      apply names_ok_quiet in B2. destruct B2 as (y & _ & <- & ?). done.
Qed.

(** After [n] pumps, with commands and the server's steps in between. *)
Inductive runs a0 : nat -> App -> Prop :=
| R_start : runs a0 0 a0
| R_other n a a' : runs a0 n a -> other_step a a' -> runs a0 n a'
| R_pump n a i : runs a0 n a -> loads i -> runs a0 (S n) (pump errSymMsg wrap S_asLib_asNotActive i a).

Lemma running_runs config0 a0 n a :
  running config0 1 a0 -> runs a0 n a -> 2 * Z.of_nat n + 1 < 2 ^ 64 -> running config0 (2 * Z.of_nat n + 1) a.
Proof.
  intros Hr Hs. induction Hs as [|n a a' Hs IH Ho|n a i Hs IH Hl]; intros Hlim; [done|by eapply running_other; [apply IH|]|].
  replace (2 * Z.of_nat (S n) + 1) with (2 * Z.of_nat n + 1 + 2) by lia. apply running_pump; [apply IH; lia|done|lia].
Qed.

(** ** Starting *)

(** Nothing is served yet. *)
Record fresh a : Prop := {
  fr_hasConfig : ap_hasConfig a = false;
  fr_generation : ap_generation a = 0;
  fr_backends : ap_backends a = [];
  fr_runtimes : ap_runtimes a = ∅;
  fr_objects : ap_objects a = ∅;
  fr_services : ap_rpcServices a = [];
  fr_task : ap_task a = None;
  fr_names : ap_names a = Secured_new;
}.

Lemma fresh_base a : fresh a -> base a.
Proof.
  intros [_ _ Hb Hr Ho _ _ Hn]. split.
  - intros id. rewrite Ho, lookup_empty. by intros [].
  - unfold names_ok. rewrite Hn. destruct (ap_access a); [apply members_ok_new|apply quiet_new].
  - rewrite Hb. done.
  - rewrite Hr. intros ??? H0. by rewrite lookup_empty in H0.
  - rewrite Hr. intros ?? H0. by rewrite lookup_empty in H0.
Qed.

Lemma startAccess_ret o config a a' u :
  startAccess errSymMsg o config a = (a', Ret u) -> fresh a -> ap_access a = None ->
  fresh a' /\ (is_Some (ap_access a') <-> ac_enabled (app_access config) = true) /\
  forall access, ap_access a' = Some access -> AccessPolicy.policy_of (app_access config) (requiredAccessAsgs config) access.
Proof.
  unfold startAccess. intros Hs Hf Ha. destruct (ac_enabled (app_access config)); cbn [negb] in Hs.
  - destruct (AccessPolicy.start _ _ _ _ _) as [[access r] eff] eqn:E. injection Hs as <- ->.
    split; [by destruct Hf|]. split; [split; [done|eauto]|]. intros ? [= <-]. destruct u. by eapply AccessPolicy.start_of.
  - injection Hs as <- _. split; [done|]. rewrite Ha. split; [split; [by intros []|done]|done].
Qed.

Lemma fresh_admin config a : fresh a -> fresh (startAdmin config a).
Proof. by intros []. Qed.

Lemma firstConfig_ret o config a a' u :
  fresh a -> loadable config ->
  (forall access, ap_access a = Some access -> AccessPolicy.policy_of (app_access config) (requiredAccessAsgs config) access) ->
  applyConfig errSymMsg wrap o config true a = (a', Ret u) ->
  app_ok a' /\ rpc_ok a' /\ ap_config a' = config /\ ap_generation a' = 1 /\ identity a' = identity a /\
  (is_Some (ap_access a') <-> is_Some (ap_access a)).
Proof.
  intros Hf Hld Hpol. unfold applyConfig. change (immutable true (describeReload config a) config) with (Ret tt).
  assert (Hfd : fresh (describeReload config a)) by (by destruct Hf).
  assert (Hid : identity (describeReload config a) = identity a) by apply identity_grows, grows_describe.
  change (ap_access a) with (ap_access (describeReload config a)) in *.
  rewrite <-Hid. revert Hfd Hpol. clear Hid Hf. generalize (describeReload config a). clear a. intros a Hf Hpol Happ.
  apply applyGeneration_ret in Happ as (Hok & Hc & Hg & Hid & _ & Hacc & Htk & a1 & n & Hp & _ & Hs).
  - split; [done|]. rewrite (fr_generation _ Hf) in Hg. change (u64 (0 + 1)) with 1 in Hg. split_and!; try done; try apply Hacc.
    destruct (gp_services _ _ _ _ _ _ _ Hp) as (next & next' & Hb). rewrite (fr_services _ Hf) in Hb.
    apply buildRpcPVs_services in Hb as [Hsv Hm]; [|constructor]. rewrite (fr_task _ Hf) in Htk.
    split; rewrite ?Htk, ?Hs, ?Hc; try done.
    + eapply Forall_impl; [exact Hsv|]. by intros s [? _].
    + intros i s Hi Hd. eapply Forall_lookup in Hsv as [_ Hne]; [|exact Hi]. done.
  - by apply fresh_base.
  - apply Hld.
  - rewrite (fr_hasConfig _ Hf). done.
Qed.

Lemma startDiscovery_ret config a a' : startDiscovery config a = Ret a' -> a' = a <| ap_discovery := ap_discovery a' |>.
Proof.
  unfold startDiscovery. destruct (dc_enabled _); [|intros [= <-]; by destruct a].
  unfold announce. cbn. intros (d & _ & [= <-])%exn_bind_ret. done.
Qed.

Lemma running_start config0 i config a :
  st_load i = Ret config -> loadable config ->
  start errSymMsg wrap i (App_new config0) = (a, Ret tt) -> running config 1 a.
Proof.
  intros El Hld. unfold start. rewrite El. set (a0 := beginReload "startup" (App_new config0)).
  set (a1 := describeReload config a0). assert (Hf1 : fresh a1) by (by split). assert (Ha1 : ap_access a1 = None) by done.
  clearbody a1. clear a0. destruct (st_build i); [|done].
  destruct (startAccess _ _ _ _) as [a2 [u2|what]] eqn:E2; [|done].
  destruct (startAccess_ret _ _ _ _ _ E2 Hf1 Ha1) as (Hf2 & Hsec & Hpol).
  pose proof (fresh_admin config a2 Hf2) as Hf3. change (ap_access a2) with (ap_access (startAdmin config a2)) in Hsec, Hpol.
  assert (Hid3 : identity (startAdmin config a2) = Some (ap_next a2, app_server config)) by done.
  revert Hf3 Hsec Hpol Hid3. generalize (startAdmin config a2). generalize (ap_next a2). clear a2 E2 Hf2. intros owner a3 Hf3 Hsec Hpol Hid3.
  destruct (applyConfig _ _ _ _ _ _) as [a4 [u4|what]] eqn:E4; [|done].
  destruct (firstConfig_ret _ _ _ _ _ Hf3 Hld Hpol E4) as (Hok & Hrpc & Hc & Hg & Hid & Hacc).
  destruct (st_start i); [|done]. cbn [mbind exn_bind]. destruct (startDiscovery config a4) as [a5|] eqn:E5; [|done].
  apply startDiscovery_ret in E5. intros [= <-].
  assert (Hr : running config 1 (a5 <| ap_started := true |>)); [|by eapply running_grows; [exact Hr|apply grows_finish]].
  assert (Hsrv : admin_server a4).
  { intros admin Ead. rewrite Hid3 in Hid. unfold identity in Hid. rewrite Ead in Hid. injection Hid as _ ->. by rewrite Hc. }
  rewrite E5. destruct Hok as [[B1 B2 B3 B4 B5] C1 C2 C3 C4 C5 C6], Hrpc as [R1 R2 R3 R4 R5]. split; try done; cbn.
  - by rewrite Hc.
  - by rewrite Hacc.
  - rewrite Hg. lia.
Qed.

(** ** The groups of the served names *)

Lemma insert_keys g (s : sset) n : n ∈ sm_keys (ss_insert g s).1 <-> n = g \/ n ∈ sm_keys s.
Proof. clear. unfold ss_insert. rewrite sm_keys_emplace. tauto. Qed.

Lemma insert_fold_keys {A} (f : A -> string) l : forall (s : sset) n,
  n ∈ sm_keys (fold_left (fun g x => (ss_insert (f x) g).1) l s) <-> n ∈ sm_keys s \/ exists x, x ∈ l /\ n = f x.
Proof.
  clear. induction l as [|x l IH]; intros s n; cbn [fold_left]; [setoid_rewrite elem_of_nil; naive_solver|].
  rewrite IH, insert_keys. setoid_rewrite elem_of_cons. naive_solver.
Qed.

(** The assignment of an RPC endpoint is that of its service. *)
Lemma assembled_assignments config services pvs assignments n access :
  assembleRpcPVs config services = Ret (pvs, assignments) -> sm_find n assignments = Some access ->
  exists service, service ∈ services /\ access = default (ad_rpc (ac_defaults (app_access config))) (rs_access (rv_config service)).
Proof.
  clear. unfold assembleRpcPVs. intros (es & _ & (s & Hs & [= <- <-])%exn_bind_ret)%exn_bind_ret. revert n access.
  set (P := fun s => forall n access, sm_find n (ra_assignments s) = Some access -> exists service, service ∈ services /\
    access = default (ad_rpc (ac_defaults (app_access config))) (rs_access (rv_config service))).
  change (P s). eapply exn_fold_inv; [| |exact Hs]; [done|]. intros s1 service s2 Hin H1 H2.
  eapply exn_fold_inv; [exact H1| |exact H2].
  intros s3 item s4 _ H3 (owner & es' & _ & _ & ->)%assembleMethod_ret n access. cbn.
  unfold sm_emplace. destruct (sm_has _ _); cbn; [apply H3|]. rewrite sm_find_set. case_decide; [|apply H3].
  intros [= <-]. eauto.
Qed.

Lemma expected_group a admin n b :
  rpc_ok a -> assembleRpcPVs (ap_config a) (ap_rpcServices a) = Ret (ap_rpcPVs a, ap_rpcAssignments a) ->
  ac_enabled (app_access (ap_config a)) = true ->
  expected admin (ap_config a) (ap_runtimes a) (ap_rpcPVs a) (ap_rpcAssignments a) n b ->
  asg (bd_access b) ∈ sm_keys (requiredAccessAsgs (ap_config a)).
Proof.
  intros Hrpc Has Hen Hex. unfold requiredAccessAsgs. rewrite Hen. cbn [negb].
  rewrite (insert_fold_keys (fun s => asg (default _ (rs_access s)))), (insert_fold_keys (fun pv => asg (default _ (pv_access pv)))), !insert_keys.
  destruct Hex as [(command & _ & ->)|[(pv & id & Hpv & _ & _ & ->)|(id & access & _ & Hf & ->)]].
  - left. left. unfold adminBinding. cbn. destruct command; [by left|right; by left].
  - left. right. by exists pv.
  - right. apply (assembled_assignments _ _ _ _ _ _ Has) in Hf as (service & Hin & ->). exists (rv_config service). split; [|done].
    rewrite <-(ro_configs _ Hrpc). by apply list_elem_of_fmap_2.
Qed.

Definition due (now : Z) (s : RpcServiceState) : Prop := rv_state s = "unavailable" /\ rv_nextRetry s <= now.

Lemma nextDiscovery_None now services first todo : forall offset,
  services <> [] -> nextDiscovery now services first offset todo = None ->
  forall k s, (k < todo)%nat -> services !! ((first + (offset + k)) mod length services)%nat = Some s -> ~ due now s.
Proof.
  clear. intros offset Hne. revert offset. induction todo as [|todo IH]; intros offset; cbn; [lia|].
  assert (Hlt : ((first + offset) mod length services < length services)%nat) by (apply Nat.mod_upper_bound; by destruct services).
  destruct (lookup_lt_is_Some_2 _ _ Hlt) as [s0 Hs0]. rewrite Hs0.
  destruct (_ && _) eqn:E; [done|]. intros Hn k s Hk Hs. destruct k as [|k].
  - rewrite Nat.add_0_r, Hs0 in Hs. injection Hs as <-. intros [Hu Hr].
    rewrite Hu in E. apply andb_false_iff in E as [E|E]; [done|]. apply Z.leb_gt in E. lia.
  - apply (IH _ Hn k s); [lia|]. by replace (S offset + k)%nat with (offset + S k)%nat by lia.
Qed.

(** Every index is met on the way round. *)
Lemma round_trip (first i len : nat) : (i < len)%nat -> exists k, (k < len)%nat /\ ((first + k) mod len = i)%nat.
Proof.
  clear. intros Hi. exists ((i + (len - first mod len)) mod len)%nat. pose proof (Nat.mod_upper_bound first len ltac:(lia)) as Hf.
  split; [apply Nat.mod_upper_bound; lia|]. rewrite Nat.Div0.add_mod_idemp_r.
  rewrite (Nat.div_mod_eq first len) at 1. replace (len * (first / len) + first mod len + (i + (len - first mod len)))%nat
    with (i + (first / len + 1) * len)%nat by nia. rewrite Nat.Div0.mod_add. by apply Nat.mod_small.
Qed.

Lemma startTask_serves o a : ap_task a = None ->
  (exists t, ap_task (startTask o a) = Some t) \/ startTask o a = a /\ Forall (fun s => ~ due (ox_now o) s) (ap_rpcServices a).
Proof.
  intros Hn. unfold startTask. destruct (nextDiscovery _ _ _ _ _) as [i|] eqn:E.
  - apply nextDiscovery_Some in E as (s & Hi & _). rewrite Hi. left. eauto.
  - right. split; [done|]. apply Forall_lookup. intros i s Hi.
    destruct (round_trip (ap_nextIndex a) i (length (ap_rpcServices a))) as (k & Hk & Hmod); [by eapply lookup_lt_Some|].
    eapply nextDiscovery_None; [|exact E|exact Hk|]; [intros En; by rewrite En in Hi|]. cbn. by rewrite Hmod.
Qed.

(** ** Stopping *)

Lemma installs_nothing (s s' : State) n : installs s [] s' -> onSearch s' n = false.
Proof.
  intros [Hk _]. unfold onSearch. destruct (sm_has n _) eqn:E; [|done]. apply sm_has_spec, sm_find_is_Some, Hk in E as [b Hb]. done.
Qed.

Lemma clearNames_total o a : names_ok a ->
  exists s, clearNames wrap o a = Ret s /\ forall n, onSearch (se_registry s) n = false.
Proof.
  unfold names_ok, clearNames. destruct (ap_access a) as [access|]; intros Hok.
  - unfold clearBindings, replaceBindings. destruct (prepareBindings (ox_asAddMember o) wrap (ap_names a) []) as [[s1 p]|] eqn:Ep.
    + destruct (prepareBindings_cases _ _ _ _ _ _ Hok sm_wf_nil Ep) as (_ & _ & _ & s2 & Hpub & _ & _ & _ & [Hi _] & _).
      cbn. rewrite Hpub. cbn. eexists. split; [reflexivity|]. intros n. by eapply installs_nothing.
    + unfold prepareBindings in Ep. cbn [exn_fold mbind exn_bind ml_wrappers] in Ep.
      destruct (proj2 (prepare_ret_iff (se_registry (ap_names a)) [] []) (Forall_nil_2 _)) as [[r q] Hr]. by rewrite Hr in Ep.
  - unfold clear. destruct (proj2 (prepare_ret_iff (se_registry (ap_names a)) [] []) (Forall_nil_2 _)) as [[r q] Hr]. rewrite Hr. cbn.
    destruct (quiet_published _ _ _ _ _ Hok sm_wf_nil Hr) as (r3 & Hpub & _ & _ & _ & Hi & _). rewrite Hpub. cbn.
    eexists. split; [reflexivity|]. intros n. cbn. by eapply installs_nothing.
Qed.

Lemma deactivate_fold (l : list (string * Z)) : forall a id r, ap_objects a !! id = Some r ->
  exists r', ap_objects (fold_left (fun a e => deactivate e.2 a) l a) !! id = Some r' /\
    (ro_retired r = true /\ ro_active r = false \/ id ∈ map snd l -> ro_retired r' = true /\ ro_active r' = false).
Proof.
  induction l as [|[m i] l IH]; intros a id r Hr; cbn [fold_left map snd].
  { exists r. split; [done|]. intros [?|Hin]; [done|]. by apply elem_of_nil in Hin. }
  destruct (decide (i = id)) as [->|Hne].
  - destruct (IH (deactivate id a) id (r <| ro_active := false |> <| ro_retired := true |>)) as (r' & Hr' & Hx).
    { cbn. by rewrite lookup_alter_eq, Hr. }
    exists r'. split; [done|]. intros _. apply Hx. by left.
  - destruct (IH (deactivate i a) id r) as (r' & Hr' & Hx); [cbn; by rewrite lookup_alter_ne|].
    exists r'. split; [done|]. intros [?|[->|?]%elem_of_cons]; [apply Hx; by left|done|apply Hx; by right].
Qed.

Lemma deactivate_fold_frame (l : list (string * Z)) : forall a,
  let a' := fold_left (fun a e => deactivate e.2 a) l a in
  ap_names a' = ap_names a /\ ap_discovery a' = ap_discovery a /\ ap_catalog a' = ap_catalog a.
Proof. induction l as [|e l IH]; intros a; [done|]. exact (IH (deactivate e.2 a)). Qed.

(** The policy in force defines the group of every name served, but for some. *)
Definition groups_defined (excepted : string -> Prop) a : Prop :=
  exists access groups, ap_access a = Some access /\ Acf.inspectAcf (AccessPolicy.ai_library access) = Acf.Done groups /\
    forall name b, served (se_registry (ap_names a)) name = Some b ->
      asg (bd_access b) ∈ sm_keys groups \/ excepted (asg (bd_access b)).

Lemma groups_defined_mono (P Q : string -> Prop) a : (forall g, P g -> Q g) -> groups_defined P a -> groups_defined Q a.
Proof. intros HPQ (access & groups & Ha & Hg & Hin). exists access, groups. split_and!; [done..|]. intros name b [?|?]%Hin; auto. Qed.

Lemma running_groups config limit a :
  running config limit a -> ac_enabled (app_access config) = true -> groups_defined (fun _ => False) a.
Proof.
  intros [H1 H2 _ _ H5 H6 _] Hen.
  destruct (proj2 H6 Hen) as [access Ha]. destruct (ok_policy _ H1 _ Ha) as ([[Hl [_ _ (groups & Hg & Hreq)]] _ _] & Hc & Hasgs).
  rewrite Hasgs in Hreq. exists access, groups. rewrite Hl. split_and!; [done|done|]. intros name b Hb. left.
  destruct (ok_serves _ H1) as (admin & Hadmin & Hserves). cbv zeta in Hserves. destruct (Hserves name) as [Hdom Hown].
  destruct (proj1 Hdom) as [b0 Hb0]; [eauto|]. destruct (Hown _ Hb0) as (b' & Hb' & _ & Hacc). rewrite Hb in Hb'. injection Hb' as <-.
  rewrite Hacc. apply Hreq. eapply expected_group; [exact H2|apply H1| |exact Hb0]. unfold settings in H5. congruence.
Qed.

(** The stages of a pump are those of a running application, but for the window. *)
Lemma pumpViews_running config limit p a v :
  running config limit a -> loads p -> limit + 2 < 2 ^ 64 -> v ∈ pumpViews errSymMsg wrap S_asLib_asNotActive p a ->
  (exists limit', running config limit' v) \/ pumpWindow errSymMsg wrap p a = Some v.
Proof.
  intros Hr Hlp Hlim. unfold pumpViews. cbv zeta. pose proof (running_consume _ _ _ Hr) as Hr1.
  set (commands := consumeAccessReload (consumeReload a)) in *.
  set (reloaded := if ap_reloadRequested commands then _ else commands).
  assert (Hr2 : running config (limit + 1) reloaded).
  { subst reloaded. destruct (ap_reloadRequested commands); [|apply (running_mono _ limit); [lia|done]].
    apply running_pumpReload; [by apply running_request|done|lia]. }
  pose proof (running_pumpAccess _ _ (pu_access p) _ Hr2) as Hr3.
  pose proof (running_recovery _ _ (pu_out p) (pu_ready p) _ Hr3 ltac:(lia)) as Hr4.
  intros Hv. apply elem_of_app in Hv as [Hv|[Hv|Hv]%elem_of_app].
  - left. rewrite !elem_of_cons in Hv. destruct Hv as [->|[->|Hv]]; [eauto..|by apply elem_of_nil in Hv].
  - right. by destruct (pumpWindow _ _ p a) as [w|]; [apply list_elem_of_singleton in Hv as ->|apply elem_of_nil in Hv].
  - left. rewrite !elem_of_cons in Hv. destruct Hv as [->|[->|[->|Hv]]]; [eauto..|by apply elem_of_nil in Hv].
Qed.

(** In the window the new policy is in force and the old names are served. *)
Lemma commitWindow_spec config0 limit o config generation a w :
  running config0 limit a -> commitWindow errSymMsg wrap o config generation a = Some w ->
  (forall name, served (se_registry (ap_names w)) name = served (se_registry (ap_names a)) name) /\
  forall access, ap_access a = Some access -> exists access', ap_access w = Some access' /\
    AccessPolicy.policy_of (app_access config) (requiredAccessAsgs config) access'.
Proof.
  intros Hr. pose proof (rn_ok _ _ _ Hr) as Hok. pose proof (ok_base _ Hok) as Hb. unfold commitWindow.
  destruct (prepareGeneration _ _ _ _ _) as [a1 [n|what]] eqn:Ep; [|done]. destruct (negb _); [done|].
  pose proof (prepareGeneration_ret wrap _ _ _ _ _ _ (ba_numbered _ Hb) (base_linked _ Hb) Ep) as Hp.
  pose proof (gp_grows _ _ _ _ _ _ _ Hp) as Hg. destruct (activatePolicy _ _ _ _) as [a2 [u|what]] eqn:Ea; [|done]. intros [= <-].
  apply activatePolicy_ret in Ea as (E2 & _ & Hsome). destruct (gr_names _ _ Hg (ba_names _ Hb)) as [_ [Hsame _]]. split.
  - intros name. rewrite E2. apply same_served; [|exact Hsame]. apply names_ok_quiet, Hb.
  - intros access Hacc. assert (ap_access a1 = Some access) as Hacc1 by (rewrite <-Hacc; apply core_access, Hg).
    destruct (Hsome _ Hacc1) as (access' & Ha' & Hact). exists access'. split; [done|].
    pose proof (preparePolicy_ret _ _ _ _ (gp_policy _ _ _ _ _ _ _ Hp)) as Hpol. rewrite Hacc, (ok_hasConfig _ Hok) in Hpol.
    destruct Hpol as (p & Hpn & Hpc). rewrite Hpn in Hact. eapply AccessPolicy.configure_of; [exact Hpc|exact Hact|].
    apply (ok_policy _ Hok _ Hacc).
Qed.

Lemma consume_frame a : ap_names (consumeAccessReload (consumeReload a)) = ap_names a.
Proof.
  assert (ap_names (consumeReload a) = ap_names a) as <- by (unfold consumeReload; by repeat case_match).
  unfold consumeAccessReload. by repeat case_match.
Qed.

(** The window of a pump is that of a running application with the same names. *)
Lemma pumpWindow_spec config limit p a w :
  running config limit a -> pumpWindow errSymMsg wrap p a = Some w ->
  exists config' generation a1, pu_load p = Ret config' /\ running config limit a1 /\
    (forall name, served (se_registry (ap_names a1)) name = served (se_registry (ap_names a)) name) /\
    commitWindow errSymMsg wrap (pu_out p) config' generation a1 = Some w.
Proof.
  intros Hr. unfold pumpWindow. rewrite (rn_started _ _ _ Hr). cbn [negb]. pose proof (consume_frame a) as Hn.
  apply running_consume in Hr. set (a0 := consumeAccessReload (consumeReload a)) in *. clearbody a0. rewrite <-Hn. clear Hn.
  destruct (ap_reloadRequested a0); [|done]. apply (running_request _ _ false) in Hr.
  change (ap_names a0) with (ap_names (a0 <| ap_reloadRequested := false |>)).
  set (a1 := a0 <| ap_reloadRequested := false |>) in *. clearbody a1. unfold reloadWindow.
  destruct (pu_load p) as [config'|what] eqn:El; [|done]. set (a2 := describeReload config' (beginReload "reload" a1)).
  assert (Hg : grows a1 a2) by (etrans; [apply grows_begin|apply grows_describe]).
  destruct (immutable false a2 config') as [u|what]; [|done]. intros Hw. exists config', (u64 (ap_generation a2 + 1)), a2. split_and!; [done| | |done].
  - by eapply running_grows.
  - pose proof (ba_names _ (ok_base _ (rn_ok _ _ _ Hr))) as Hnames. destruct (gr_names _ _ Hg Hnames) as [_ [Hsame _]].
    apply same_served; [by apply names_ok_quiet|done].
Qed.

Lemma window_served config limit p a w :
  running config limit a -> pumpWindow errSymMsg wrap p a = Some w ->
  forall name, served (se_registry (ap_names w)) name = served (se_registry (ap_names a)) name.
Proof.
  intros Hr Hw name. destruct (pumpWindow_spec _ _ _ _ _ Hr Hw) as (config' & generation & a1 & _ & Hr1 & <- & Hc).
  by apply (commitWindow_spec _ _ _ _ _ _ _ Hr1 Hc).
Qed.

Lemma window_policy config limit p a w :
  running config limit a -> ac_enabled (app_access config) = true -> pumpWindow errSymMsg wrap p a = Some w ->
  exists config' access groups, pu_load p = Ret config' /\ ap_access w = Some access /\
    Acf.inspectAcf (AccessPolicy.ai_library access) = Acf.Done groups /\
    forall g, g ∈ sm_keys (requiredAccessAsgs config') -> g ∈ sm_keys groups.
Proof.
  intros Hr Hen Hw. destruct (pumpWindow_spec _ _ _ _ _ Hr Hw) as (config' & generation & a1 & Hl & Hr1 & _ & Hc).
  destruct (proj2 (rn_secured _ _ _ Hr1) Hen) as [access Ha].
  destruct (proj2 (commitWindow_spec _ _ _ _ _ _ _ Hr1 Hc) _ Ha) as (access' & Ha' & ([[Hlib [_ _ (groups & Hg & Hreq)]] _ _] & _ & Hasgs)).
  exists config', access', groups. rewrite Hlib. rewrite Hasgs in Hreq. split_and!; done.
Qed.

(** ** The theorems *)

(** C3. From its start on the application serves its configuration: after any
    number of pumps, whatever configurations they load, RPC services they
    recover and policies they take over, and whatever the server's threads and
    the two commands do in between, exactly the diagnostics, PVs, aliases and
    RPC methods of the configuration in force are served, each by its own live
    runtime of the current generation and with its own access assignment; and
    the settings that a restart alone may change are those of the start. *)
Theorem application_serves config0 i config a0 n a :
  st_load i = Ret config -> loadable config -> start errSymMsg wrap i (App_new config0) = (a0, Ret tt) ->
  runs a0 n a -> 2 * Z.of_nat n + 1 < 2 ^ 64 ->
  app_ok a /\ settings (ap_config a) = settings config /\ ap_started a = true /\
  (is_Some (ap_access a) <-> ac_enabled (app_access config) = true).
Proof.
  intros El Hld Hst Hs Hn. destruct (running_runs config a0 n a (running_start _ _ _ _ El Hld Hst) Hs Hn) as [H1 _ _ H4 H5 H6 _].
  done.
Qed.

(** C4. With access control, the policy the access library enforces defines the
    security group of every name served: after the start, between any two pumps,
    and at every stage of a pump, with one exception.  While a reload is
    committed the policy of the new configuration is in force and the names of
    the old one are still served; then a served name can be in a group that the
    policy does not define, but only in one that the new configuration places
    nothing in. *)
Theorem served_groups_defined config0 i config a0 n a :
  st_load i = Ret config -> loadable config -> start errSymMsg wrap i (App_new config0) = (a0, Ret tt) ->
  runs a0 n a -> 2 * Z.of_nat n + 3 < 2 ^ 64 -> ac_enabled (app_access config) = true ->
  groups_defined (fun _ => False) a /\
  forall p v, loads p -> v ∈ pumpViews errSymMsg wrap S_asLib_asNotActive p a ->
    groups_defined (fun g => pumpWindow errSymMsg wrap p a = Some v /\
      exists config', pu_load p = Ret config' /\ g ∉ sm_keys (requiredAccessAsgs config')) v /\
    (pumpWindow errSymMsg wrap p a = Some v -> forall name, served (se_registry (ap_names v)) name = served (se_registry (ap_names a)) name).
Proof.
  intros El Hld Hst Hs Hn Hen. pose proof (running_runs config a0 n a (running_start _ _ _ _ El Hld Hst) Hs ltac:(lia)) as Hr.
  split; [by eapply running_groups|]. intros p v Hlp Hv. split; [|by eapply window_served].
  apply (pumpViews_running _ _ _ _ _ Hr Hlp ltac:(lia)) in Hv as [[limit Hv]|Hv].
  - eapply groups_defined_mono; [|by eapply running_groups]. done.
  - destruct (window_policy _ _ _ _ _ Hr Hen Hv) as (config' & access & groups & Hc & Ha & Hg & Hreq). exists access, groups. split_and!; [done..|].
    intros name b _. destruct (decide (asg (bd_access b) ∈ sm_keys (requiredAccessAsgs config'))) as [Hin|Hnin]; [left; by apply Hreq|right].
    by split; [|exists config'].
Qed.

(** C30. No RPC service is forgotten: after every pump that finds its task done,
    each service serves its methods, was found invalid, is being reflected by
    the task in flight, or waits for a retry that is not due yet or that only
    waits for the task in flight. *)
Theorem rpc_services_settle config0 i config a0 n a p :
  st_load i = Ret config -> loadable config -> start errSymMsg wrap i (App_new config0) = (a0, Ret tt) ->
  runs a0 n a -> 2 * Z.of_nat n + 3 < 2 ^ 64 -> loads p -> ox_grpc (pu_out p) = true -> pu_ready p = true ->
  let a' := pump errSymMsg wrap S_asLib_asNotActive p a in
  forall j s, ap_rpcServices a' !! j = Some s ->
    (rv_state s = "ready" /\ rv_pvs s <> []) \/ (rv_state s = "invalid" /\ rv_pvs s = []) \/
    (rv_state s = "discovering" /\ rv_pvs s = [] /\
       exists t, ap_task a' = Some t /\ tk_index t = j /\ tk_config t = rv_config s /\ tk_generation t = ap_generation a') \/
    (rv_state s = "unavailable" /\ rv_pvs s = [] /\ (ox_now (pu_out p) < rv_nextRetry s \/ is_Some (ap_task a'))).
Proof.
  intros El Hld Hst Hs Hn Hlp Hgrpc Hready. cbv zeta.
  pose proof (running_runs config a0 n a (running_start _ _ _ _ El Hld Hst) Hs ltac:(lia)) as Hr.
  pose proof (running_pump _ _ p a Hr Hlp ltac:(lia)) as Hr'. set (a' := pump _ _ _ p a) in *.
  assert (Htask : is_Some (ap_task a') \/ Forall (fun s => ~ due (ox_now (pu_out p)) s) (ap_rpcServices a')).
  { assert (Hstart : forall b, ap_task b = None -> is_Some (ap_task (startTask (pu_out p) b)) \/
      Forall (fun s => ~ due (ox_now (pu_out p)) s) (ap_rpcServices (startTask (pu_out p) b))).
    { intros b Hb. destruct (startTask_serves (pu_out p) b Hb) as [[t Ht]|[-> Hd]]; [left; eauto|by right]. }
    unfold a', pump. rewrite (rn_started _ _ _ Hr). cbn [negb]. unfold pumpRpcRecovery. rewrite Hgrpc, Hready. cbn [negb].
    match goal with |- context [match ap_task ?b with _ => _ end] => cut (running config (2 * Z.of_nat n + 2) b); [generalize b|] end.
    - intros b Hb. destruct (ap_task b) as [t|] eqn:Et; [|by apply Hstart]. apply Hstart.
      by destruct (running_finishTask _ _ (pu_out p) t b Hb Et ltac:(lia)).
    - apply running_pumpAccess. apply running_consume in Hr.
      destruct (ap_reloadRequested _); [|apply (running_mono _ (2 * Z.of_nat n + 1)); [lia|done]].
      replace (2 * Z.of_nat n + 2) with (2 * Z.of_nat n + 1 + 1) by lia. apply running_pumpReload; [by apply running_request|done|lia]. }
  intros j s Hj. destruct (rn_rpc _ _ _ Hr') as [R1 R2 R3 R4 R5]. eapply Forall_lookup in R1; [|exact Hj].
  destruct R1 as [[? ?]|[Hst' Hnil]]; [by left|].
  repeat (apply elem_of_cons in Hst' as [Hst'|Hst']); [..|by apply elem_of_nil in Hst'].
  - right. right. right. split; [done|]. split; [done|]. destruct Htask as [?|Hd]; [by right|]. left.
    eapply Forall_lookup in Hd; [|exact Hj]. apply Z.nle_gt. intros Hle. by apply Hd.
  - right. by left.
  - right. right. left. split; [done|]. split; [done|]. destruct (R3 _ _ Hj Hst') as (t & Et & Ei & Eg). exists t. split_and!; try done.
    destruct (R4 _ Et Eg) as (s' & Hs' & _ & Hc). rewrite Ei, Hj in Hs'. congruence.
Qed.

(** Stopping a running application always succeeds and leaves nothing behind:
    no name is served, no runtime, backend, RPC endpoint, alarm publisher or
    policy is kept, and every runtime that served is deactivated. *)
Theorem stop_leaves_nothing o a :
  app_ok a -> exists a', stop wrap o a = (a', Ret tt) /\
  (forall name, onSearch (se_registry (ap_names a')) name = false) /\
  (ap_runtimes a' = ∅ /\ ap_backends a' = [] /\ ap_rpcPVs a' = [] /\ ap_rpcServices a' = [] /\ ap_alarm a' = None /\
   ap_access a' = None /\ ap_discovery a' = None /\ ap_catalog a' = None /\ ap_started a' = false) /\
  forall name id, ap_runtimes a !! name = Some id -> exists r, ap_objects a' !! id = Some r /\ ro_retired r = true /\ ro_active r = false.
Proof.
  intros Hok. unfold stop. rewrite (ok_hasConfig _ Hok), andb_false_r.
  assert (Hn : names_ok (a <| ap_discovery := None |> <| ap_catalog := None |>)) by apply (ba_names _ (ok_base _ Hok)).
  destruct (clearNames_total o _ Hn) as (names & -> & Hnone). eexists. split; [reflexivity|].
  set (l := map_to_list _). set (b := a <| ap_discovery := None |> <| ap_catalog := None |> <| ap_names := names |>).
  destruct (deactivate_fold_frame l b) as (En & Ed & Ec). split_and!; try done.
  - intros name. etransitivity; [|exact (Hnone name)]. cbn. by rewrite En.
  - intros name id Hid. destruct (ba_live _ (ok_base _ Hok) _ _ Hid) as (r & Hr & _).
    destruct (deactivate_fold l b id r Hr) as (r' & Hr' & Hx). exists r'. split; [exact Hr'|]. apply Hx. right.
    apply list_elem_of_fmap. exists (name, id). split; [done|]. by apply elem_of_map_to_list.
Qed.
End Run.

(** ** Configurations as they are loaded *)

Section Parsed.
Context `{YamlLaws}.

Lemma parseBackends_wf env root dir backends legacy : parseBackends env root dir = Ret (backends, legacy) -> sm_wf backends.
Proof.
  unfold parseBackends. intros (u & _ & Hb)%exn_bind_ret. destruct (is_some (yget root "redis")).
  - apply exn_bind_ret in Hb as (node & _ & (redis & _ & [= <- _])%exn_bind_ret). apply sm_wf_emplace, sm_wf_nil.
  - apply exn_bind_ret in Hb as (node & _ & (entries & _ & (u1 & _ & (b & Hf & [= <- _])%exn_bind_ret)%exn_bind_ret)%exn_bind_ret).
    eapply (exn_fold_inv sm_wf); [apply sm_wf_nil| |exact Hf]. intros m e m' _ Hwf. unfold parseBackend.
    intros (alias & _ & (u2 & _ & (redis & _ & He)%exn_bind_ret)%exn_bind_ret)%exn_bind_ret.
    pose proof (sm_wf_emplace alias redis m Hwf) as Hw. destruct (sm_emplace alias redis m) as [m1 ins].
    apply exn_bind_ret in He as (u3 & _ & [= <-]). exact Hw.
Qed.

Lemma parsePVs_length server access backends legacy nodes : forall s s',
  exn_fold (parsePVEntry server access backends legacy) s nodes = Ret s' -> length (lp_pvs s') = (length (lp_pvs s) + length nodes)%nat.
Proof.
  induction nodes as [|e nodes IH]; intros s s'; cbn [exn_fold length]; [intros [= <-]; lia|].
  intros (s1 & H1 & Hl%IH)%exn_bind_ret. rewrite Hl. unfold parsePVEntry in H1.
  do 5 apply exn_bind_ret in H1 as (? & _ & H1). apply exn_bind_ret in H1 as (? & _ & [= <-]). cbn. rewrite length_app. cbn. lia.
Qed.

Lemma tree_size_get root key l : yget root key = Some (YSeq l) -> Z.of_nat (length l) <= tree_size root.
Proof.
  assert (Hseq : forall l : list ynode, Z.of_nat (length l) <= foldr (fun v acc => tree_size v + acc) 0 l).
  { clear. induction l as [|v l IH]; [done|]. cbn [foldr length]. pose proof (tree_size_pos v). lia. }
  destruct root as [| |l0|entries]; try done. cbn. intros Hy.
  assert (He : forall v, yfind key entries = Some v -> tree_size v <= foldr (fun e acc => tree_size e.2 + acc) 0 entries).
  { clear. intros v. assert (Hpos : forall l : list (ynode * ynode), 0 <= foldr (fun e acc => tree_size e.2 + acc) 0 l).
    { induction l as [|e l IH]; [done|]. cbn [foldr]. pose proof (tree_size_pos e.2). lia. }
    induction entries as [|[k v'] entries IH]; cbn [yfind foldr]; [done|]. pose proof (Hpos entries). pose proof (tree_size_pos v').
    cbn [snd]. repeat case_match; try done; intros; simplify_eq; try lia; assert (tree_size v <= _) by (apply IH; done); lia. }
  apply He in Hy. specialize (Hseq l). cbn [tree_size] in *. lia.
Qed.

(** Whatever [parseConfig] accepts can be loaded. *)
Lemma parsed_loadable env root dir c : parseConfig env root dir = Ret c -> loadable c.
Proof using All.
  intros Hc. pose proof (parseConfig_loop _ _ _ _ Hc) as (es & loop & _ & Hpvs & [Hl _ _ _]).
  assert (Hmore : sm_wf (app_redisBackends c) /\ count (app_pvs c) <= 1000000).
  { clear Hl es loop Hpvs. revert Hc. unfold parseConfig. intros Hr. apply exn_bind_ret in Hr as (? & _ & Hr). apply exn_bind_ret in Hr as (? & _ & Hr).
    apply exn_bind_ret in Hr as (visited & Hv & Hr). apply exn_bind_ret in Hr as (? & _ & Hr). cbv zeta in Hr.
    do 6 apply exn_bind_ret in Hr as (? & _ & Hr). apply exn_bind_ret in Hr as (? & _ & Hr).
    apply exn_bind_ret in Hr as ([backends legacy] & Hb%parseBackends_wf & Hr). apply exn_bind_ret in Hr as (? & _ & Hr).
    apply exn_bind_ret in Hr as (nodes & Hnodes & Hr). apply exn_bind_ret in Hr as (? & _ & Hr).
    apply exn_bind_ret in Hr as (loop & Hloop%parsePVs_length & Hr). do 3 apply exn_bind_ret in Hr as (? & _ & Hr). injection Hr as <-.
    split; [done|]. cbn [app_pvs]. unfold count. rewrite Hloop. cbn [lp_pvs length]. rewrite length_imap.
    apply (validateTree_validates root 0) in Hv as (_ & Hsize & _).
    apply with_default_ret in Hnodes as [[_ ->]|(node & Hy & Hseq)]; [cbn; lia|].
    destruct node; try done. injection Hseq as ->. apply tree_size_get in Hy. lia. }
  destruct Hmore as [Hwf Hcount]. split; [done| |lia]. rewrite Hpvs. eapply Forall_impl; [exact Hl|].
  intros pv [_ H1 H2 H3 _]. by split.
Qed.
End Parsed.

(** ** A run

    The document of ConfigSafety, with a required RPC service, without and
    with access control. *)

Module RunDemo.
Import AcfGrammar.PlainMacros.
#[local] Existing Instances ConfigSafety.Demo.conv ConfigSafety.Demo.conv_laws.

Definition errText (status : Z) : string := "error".
Definition wrapped (m : AccessMember) (name : string) : Wrapper := fun _ => true.
Definition outsideWith (policy : string) : Outside := {|
  ox_adapter := fun _ _ => Ret true; ox_connected := fun _ => true; ox_now := 0;
  ox_reconfigure := fun _ _ => Ret tt; ox_construct := fun _ => Ret tt; ox_grpc := true;
  ox_discover := fun _ => Methods [("q.Q", "GetState")] (Ret tt);
  ox_hostname := None; ox_getenv := fun _ => None; ox_epicsVersion := "7"; ox_version := "1"; ox_port := 5075;
  ox_files := AccessPolicy.PolicyDemo.file policy; ox_asInitMem := 0;
  ox_asAddMember := fun _ => true; ox_refresh := None |}.
Definition outside : Outside := outsideWith AccessPolicy.PolicyDemo.good.

Definition plain : AppConfig := ConfigSafety.Demo.config.
Definition with_parts (access : AccessConfig) (pvs : list PVConfig) (c : AppConfig) : AppConfig := {|
  app_schemaVersion := 1; app_legacyInput := false; app_server := app_server c;
  app_access := access; app_redisBackends := app_redisBackends c; app_alarms := app_alarms c;
  app_channelFinder := app_channelFinder c; app_discovery := app_discovery c; app_limits := app_limits c;
  app_pvs := pvs; app_rpcServices := app_rpcServices c |}.
Definition secured : AppConfig := with_parts AccessPolicy.PolicyDemo.config (app_pvs plain) plain.
Definition input (config : AppConfig) : StartInput :=
  {| st_load := Ret config; st_out := outside; st_build := Ret tt; st_start := Ret tt |}.
Definition started (config : AppConfig) : App := (start errText wrapped (input config) (App_new plain)).1.

Lemma plain_loadable : loadable plain.
Proof. exact (parsed_loadable _ _ _ _ ConfigSafety.Demo.accepted). Qed.

Lemma parts_loadable access pvs c :
  loadable c -> Forall (routes_known c) pvs -> count pvs < 2 ^ 64 -> loadable (with_parts access pvs c).
Proof. intros [H1 _ _] H2 H3. by split. Qed.

Lemma secured_loadable : loadable secured.
Proof. apply parts_loadable; apply plain_loadable. Qed.

Lemma plain_starts : start errText wrapped (input plain) (App_new plain) = (started plain, Ret tt).
Proof.
  unfold started. assert (Hr : (start errText wrapped (input plain) (App_new plain)).2 = Ret tt) by (vm_compute; reflexivity).
  destruct (start _ _ _ _). cbn in *. by rewrite Hr.
Qed.

Lemma secured_starts : start errText wrapped (input secured) (App_new plain) = (started secured, Ret tt).
Proof.
  unfold started. assert (Hr : (start errText wrapped (input secured) (App_new plain)).2 = Ret tt) by (vm_compute; reflexivity).
  destruct (start _ _ _ _). cbn in *. by rewrite Hr.
Qed.

(** The reload of an edited file: a PV renamed, one kept. *)
Definition rename (pvs : list PVConfig) : list PVConfig :=
  match pvs with a :: b :: _ => [a; b <| pv_name := "IMG2" |>] | l => l end.
Definition edited : AppConfig := with_parts (app_access plain) (rename (app_pvs plain)) plain.

Lemma rename_routes c pvs : Forall (routes_known c) pvs -> Forall (routes_known c) (rename pvs).
Proof. destruct pvs as [|a [|b l]]; [done|done|]. intros [Ha [Hb _]%Forall_cons]%Forall_cons. constructor; [exact Ha|]. constructor; [exact Hb|constructor]. Qed.

Lemma edited_loadable : loadable edited.
Proof. apply parts_loadable; [apply plain_loadable|apply rename_routes, plain_loadable|vm_compute; reflexivity]. Qed.

Lemma plain_ok : app_ok (started plain).
Proof. exact (rn_ok _ _ _ (running_start errText wrapped plain (input plain) plain _ eq_refl plain_loadable plain_starts)). Qed.

Lemma reload_all_or_nothing_witness :
  let a' := pumpReload errText wrapped outside (Ret edited) (started plain) in
  rl_committed (ap_reload a') = true /\ ap_generation a' = 2 /\ app_ok a'.
Proof.
  destruct (reload_all_or_nothing errText wrapped outside (Ret edited) (started plain) plain_ok) as (_ & Hok & _).
  - intros config [= <-]. exact edited_loadable.
  - split; [vm_compute; reflexivity|]. split; [vm_compute; reflexivity|exact Hok].
Defined.

Lemma reload_report_true_witness :
  let a' := pumpReload errText wrapped outside (Ret edited) (started plain) in
  rl_added (ap_reload a') = 1 /\ Z.of_nat (size (addedNames (started plain) a')) = 1 /\
  rl_retained (ap_reload a') = 1 /\ Z.of_nat (size (keptNames (started plain) a')) = 1.
Proof.
  assert (Hc : rl_committed (ap_reload (pumpReload errText wrapped outside (Ret edited) (started plain))) = true) by (vm_compute; reflexivity).
  destruct (reload_report_true errText wrapped outside edited (started plain) plain_ok edited_loadable Hc) as (Ha & _ & _ & Hr).
  cbv zeta. rewrite <-Ha, <-Hr. split_and!; vm_compute; reflexivity.
Defined.
(** A pump that loads the edited file, after the command. *)
Definition reading : PumpInput := {|
  pu_load := Ret edited; pu_out := outside; pu_ready := true;
  pu_access := {| AccessPolicy.pi_now := 0; AccessPolicy.pi_triggerFiles := ox_files outside; AccessPolicy.pi_triggerStatus := 0;
    AccessPolicy.pi_hagStatus := 0; AccessPolicy.pi_hagChanged := 0; AccessPolicy.pi_watchFiles := ox_files outside;
    AccessPolicy.pi_reloadFiles := ox_files outside; AccessPolicy.pi_reloadStatus := 0 |} |}.

Lemma reading_loads : loads reading.
Proof. intros config [= <-]. exact edited_loadable. Qed.

Definition pumped (config : AppConfig) : App := pump errText wrapped 1 reading (putReload (started config)).

Lemma pumped_runs config : runs errText wrapped 1 (started config) 1 (pumped config).
Proof. apply R_pump; [|exact reading_loads]. eapply R_other; [apply R_start|apply A_reload]. Qed.

Lemma application_serves_witness : ap_generation (pumped plain) = 2 /\ app_ok (pumped plain).
Proof.
  split; [vm_compute; reflexivity|].
  apply (application_serves errText wrapped 1 plain (input plain) plain (started plain) 1 (pumped plain) eq_refl
           plain_loadable plain_starts (pumped_runs plain)). vm_compute. reflexivity.
Defined.

(** The reload of a file that takes the PVs out of a group, with a policy that
    no longer defines it. *)
Definition grouped : AppConfig :=
  with_parts AccessPolicy.PolicyDemo.config (map (fun pv => pv <| pv_access := Some {| asg := "OPS"; asl := 1 |} |>) (app_pvs plain)) plain.
Definition groupedInput : StartInput :=
  {| st_load := Ret grouped; st_build := Ret tt; st_start := Ret tt;
     st_out := outsideWith "ASG(DEFAULT) { RULE(1,READ) } ASG(OPS) { RULE(1,WRITE) }" |}.
Definition groupedStarted : App := (start errText wrapped groupedInput (App_new plain)).1.
Definition regrouping : PumpInput :=
  {| pu_load := Ret secured; pu_out := outside; pu_ready := true; pu_access := pu_access reading |}.

Lemma grouped_loadable : loadable grouped.
Proof.
  apply parts_loadable; [apply plain_loadable| |vm_compute; reflexivity].
  apply Forall_fmap, (Forall_impl _ _ _ (ld_routes _ plain_loadable)). by intros pv Hpv.
Qed.

Lemma grouped_starts : start errText wrapped groupedInput (App_new plain) = (groupedStarted, Ret tt).
Proof.
  unfold groupedStarted. assert (Hr : (start errText wrapped groupedInput (App_new plain)).2 = Ret tt) by (vm_compute; reflexivity).
  destruct (start _ _ _ _). cbn in *. by rewrite Hr.
Qed.

Lemma served_groups_defined_witness :
  groups_defined (fun _ => False) (putReload groupedStarted) /\
  exists w, pumpWindow errText wrapped regrouping (putReload groupedStarted) = Some w /\
    groups_defined (fun g => g ∉ sm_keys (requiredAccessAsgs secured)) w.
Proof.
  destruct (served_groups_defined errText wrapped 1 plain groupedInput grouped groupedStarted 0 (putReload groupedStarted) eq_refl
    grouped_loadable grouped_starts) as [H1 H2]; [eapply R_other; [apply R_start|apply A_reload]|vm_compute; reflexivity|reflexivity|].
  split; [exact H1|]. assert (Hw : is_some (pumpWindow errText wrapped regrouping (putReload groupedStarted)) = true) by (vm_compute; reflexivity).
  destruct (pumpWindow errText wrapped regrouping (putReload groupedStarted)) as [w|] eqn:Ew; [|done]. exists w. split; [done|].
  destruct (H2 regrouping w) as [H3 _].
  - intros config [= <-]. exact secured_loadable.
  - unfold pumpViews. rewrite Ew. by do 2 right; left.
  - eapply groups_defined_mono; [|exact H3]. by intros g [_ (config' & [= <-] & Hg)].
Defined.

(** In that window every PV is served, in a group the policy does not define. *)
Example window_leaves_group :
  match pumpWindow errText wrapped regrouping (putReload groupedStarted) with
  | Some w =>
      asg ∘ bd_access <$> served (se_registry (ap_names w)) "LAB:T1" = Some "OPS" /\
      (groups ← (fun access => Acf.inspectAcf (AccessPolicy.ai_library access)) <$> ap_access w;
       match groups with Acf.Done groups => Some (sm_keys groups) | _ => None end) = Some ["DEFAULT"]
  | None => False
  end.
Proof. vm_compute. split; reflexivity. Qed.

Lemma rpc_services_settle_witness : exists s,
  ap_rpcServices (pump errText wrapped 1 reading (pumped plain)) !! 0%nat = Some s /\ rv_state s = "ready" /\ rv_pvs s <> [].
Proof.
  assert (Hs : rv_state <$> (ap_rpcServices (pump errText wrapped 1 reading (pumped plain)) !! 0%nat) = Some "ready")
    by (vm_compute; reflexivity).
  apply fmap_Some in Hs as (s & Hj & Hs). exists s. split; [exact Hj|].
  destruct (rpc_services_settle errText wrapped 1 plain (input plain) plain (started plain) 1 (pumped plain) reading eq_refl
    plain_loadable plain_starts (pumped_runs plain) ltac:(vm_compute; reflexivity) reading_loads eq_refl eq_refl 0%nat s Hj)
    as [Hr|[[Hr _]|[[Hr _]|[Hr _]]]]; [exact Hr|rewrite Hr in Hs; discriminate..].
Defined.

Lemma stop_leaves_nothing_witness : exists a', stop wrapped outside (started plain) = (a', Ret tt) /\
  onSearch (se_registry (ap_names (started plain))) "LAB:T1" = true /\ onSearch (se_registry (ap_names a')) "LAB:T1" = false.
Proof.
  destruct (stop_leaves_nothing wrapped outside (started plain) plain_ok) as (a' & Hs & Hn & _). exists a'.
  split; [exact Hs|]. split; [vm_compute; reflexivity|apply Hn].
Defined.
End RunDemo.
