(* ===== verification/Admin.v ===== *)
(** * The diagnostic PVs

    src/app.cpp, class [AdminNamespace]: the PVs an operator reads, with their
    structures, and the functions that post a status to them, for the typed
    statuses of the components.

    A structure of PVXS is created from its members ([TypeDef]); [value[p] = x]
    throws for a path that is not a member, stores a value of the member's own
    type and converts others.  The creation of structures and normative types
    and the conversion are the library's: parameters with laws.  The PVs are
    keyed by the names of the fields of the class.

    The theorems show that no update of a diagnostic can throw, whatever the
    statuses are, and that every post replaces the whole status: each member
    then holds the value of this status, none that of an older one. *)

From S2P Require Import Prelude.
From S2P Require Import StrMap.
From S2P Require Import Floats.
From S2P Require Import Config.
From S2P Require Import SourceHealth.
From S2P Require Import Util.
From S2P Require Import Runtime.
From S2P Require Import Generation.
From S2P Require OperationQueue.
From S2P Require AlarmWorker.
From S2P Require NDRuntime.
From S2P Require Discovery.
From S2P Require AccessPolicy.
From S2P Require AccessRights.
From S2P Require Import App.

Import OperationQueue (OperationQueueStats, c_accepted, c_completed, c_overloaded, c_expired, c_cancelled, c_queued,
  c_running, c_residentBytes, c_peakBytes).
Import Discovery (DiscoveryStatus, ds_state, ds_peer, ds_lastError, ds_desiredGeneration, ds_synchronizedGeneration,
  ds_records, ds_aliases, ds_bytes, ds_uploads, ds_failures, ds_coalesced, ds_invalidAnnouncements, ds_port).

Local Open Scope string_scope.
Local Open Scope list_scope.
Local Open Scope Z_scope.

(** ** Structures *)

(** [pvxs::Member]: a leaf, or a structure. *)
Inductive Member := Leaf (code : TypeCode) (name : string) | Struct (name : string) (members : list Member).

(** The leaves of a structure by path. *)
Fixpoint leavesOf (m : Member) : list (string * TypeCode) :=
  match m with
  | Leaf code name => [(name, code)]
  | Struct name members => map (fun l => (name +:+ "." +:+ l.1, l.2)) (concat (map leavesOf members))
  end.
Definition layout (members : list Member) : list (string * TypeCode) := concat (map leavesOf members).

Definition leaves (l : list (TypeCode * string)) : list Member := map (fun l => Leaf l.1 l.2) l.

(** The type of a C++ value that is assigned. *)
Definition natural (d : field_data) : option TypeCode :=
  match d with
  | FBool _ => Some TBool
  | FReal _ => Some TFloat64
  | FString _ => Some TString
  | FStrings _ => Some TStringA
  | FBools _ => Some TBoolA
  | FTyped (TVuint16 _) => Some TUInt16
  | FTyped (TVint32 _) => Some TInt32
  | FTyped (TVuint32 _) => Some TUInt32
  | FTyped (TVint64 _) => Some TInt64
  | FTyped (TVuint64 _) => Some TUInt64
  | FTyped (TVfloat _) => Some TFloat32
  | FTyped (TVvint32 _) => Some TInt32A
  | FTyped (TVvuint32 _) => Some TUInt32A
  | FTyped (TVvint64 _) => Some TInt64A
  | FTyped (TVvuint64 _) => Some TUInt64A
  | FTyped (TVvfloat _) => Some TFloat32A
  | FTyped (TVvdouble _) => Some TFloat64A
  | _ => None
  end.

Definition U64 (z : Z) : field_data := FTyped (TVuint64 z).
Definition U32 (z : Z) : field_data := FTyped (TVuint32 z).
Definition I64 (z : Z) : field_data := FTyped (TVint64 z).
Definition U64s (l : list Z) : field_data := FTyped (TVvuint64 l).
Definition U32s (l : list Z) : field_data := FTyped (TVvuint32 l).
Definition I64s (l : list Z) : field_data := FTyped (TVvint64 l).

Definition reloadType : list Member :=
  [Leaf TUInt64 "attempt"; Leaf TUInt64 "candidateGeneration"; Leaf TUInt64 "activeGeneration"; Leaf TUInt64 "schemaVersion";
   Leaf TString "kind"; Leaf TString "state"; Leaf TString "phase"; Leaf TString "error"; Leaf TFloat64 "durationMs";
   Leaf TBool "diffKnown"; Leaf TBool "committed"; Leaf TUInt64 "added"; Leaf TUInt64 "removed"; Leaf TUInt64 "recreated";
   Leaf TUInt64 "retained"; Leaf TUInt64 "metadataChanged"; Leaf TUInt64 "aliasesChanged"; Leaf TUInt64 "accessChanged";
   Struct "backends" (leaves [(TStringA, "name"); (TStringA, "action"); (TStringA, "preconnect"); (TStringA, "cutover")])].

Definition queueLeaves : list (TypeCode * string) :=
  [(TUInt64, "accepted"); (TUInt64, "finished"); (TUInt64, "overloaded"); (TUInt64, "expired"); (TUInt64, "cancelled");
   (TUInt64, "queued"); (TUInt64, "running"); (TUInt64, "residentBytes"); (TUInt64, "peakBytes"); (TUInt64, "byteLimit");
   (TUInt64, "payloadLimit"); (TUInt32, "workers")].
Definition operationsType : list Member :=
  leaves (queueLeaves ++ [(TUInt32, "queuedPerPV")]).
Definition rpcType : list Member :=
  [Leaf TString "state"; Struct "queue" (leaves (queueLeaves ++ [(TUInt32, "queuedPerMethod")]));
   Struct "services" (leaves [(TStringA, "name"); (TStringA, "endpoint"); (TStringA, "state"); (TStringA, "lastError");
     (TBoolA, "optional"); (TUInt64A, "methods"); (TUInt64A, "attempts"); (TUInt64A, "retryInMs"); (TUInt64A, "dispatched");
     (TUInt64A, "succeeded"); (TUInt64A, "failed"); (TUInt64A, "invalid"); (TUInt64A, "unauthorized")])].

Definition alarmsType : list Member :=
  [Leaf TString "state"; Leaf TString "lastError"; Leaf TUInt64 "sent"; Leaf TUInt64 "transportFailures"; Leaf TUInt64 "rejected";
   Leaf TUInt64 "reconciled"; Leaf TUInt64 "coalescedUpdates"; Leaf TUInt64 "discardedTransitions";
   Leaf TUInt64 "messagesTruncated"; Leaf TUInt64 "registrations"; Leaf TUInt64 "active"; Leaf TUInt64 "pending";
   Leaf TUInt64 "queued"; Leaf TUInt64 "reservedBytes"; Leaf TUInt64 "peakBytes"; Leaf TUInt64 "byteLimit"; Leaf TUInt64 "queueLimit"].

Definition discoveryType : list Member :=
  [Leaf TString "state"; Leaf TString "peer"; Leaf TString "lastError"; Leaf TUInt64 "desiredGeneration";
   Leaf TUInt64 "synchronizedGeneration"; Leaf TUInt64 "records"; Leaf TUInt64 "aliases"; Leaf TUInt64 "bytes"; Leaf TUInt64 "uploads";
   Leaf TUInt64 "failures"; Leaf TUInt64 "coalesced"; Leaf TUInt64 "invalidAnnouncements"; Leaf TUInt16 "port"].

Definition accessOperationsType : list Member :=
  [Leaf TUInt64 "authorized"; Leaf TUInt64 "inFlight"; Leaf TUInt64 "succeeded"; Leaf TUInt64 "failed"; Leaf TUInt64 "cancelled";
   Leaf TUInt64 "abandoned"; Leaf TUInt64 "denied"; Leaf TUInt64 "denialLogsSuppressed"; Leaf TUInt64 "rateLimitChannels"].

Definition sourcesType : list Member :=
  [Leaf TBool "ready"; Leaf TString "state"; Leaf TUInt64 "generation"; Leaf TUInt64 "total"; Leaf TUInt64 "required";
   Leaf TUInt64 "readySources"; Leaf TUInt64 "unreadyRequired";
   Struct "sources" (leaves
     [(TStringA, "pv"); (TStringA, "backend"); (TStringA, "key"); (TStringA, "role"); (TStringA, "state"); (TStringA, "error");
      (TStringA, "inspection"); (TStringA, "streamKind"); (TStringA, "cursor"); (TStringA, "observedCursor");
      (TStringA, "lastValidCursor"); (TBoolA, "required"); (TBoolA, "active"); (TBoolA, "connected"); (TBoolA, "inspected");
      (TBoolA, "hasData"); (TBoolA, "valid"); (TBoolA, "fresh"); (TBoolA, "stale"); (TBoolA, "ready");
      (TUInt32A, "staleAfterMs"); (TUInt32A, "readerProbeMs"); (TInt64A, "lastValidAgeMs"); (TInt64A, "lastReceivedAgeMs");
      (TUInt64A, "epoch"); (TUInt64A, "lastValidEpoch"); (TUInt64A, "readFailures"); (TUInt64A, "readRejections");
      (TUInt64A, "socketTimeouts"); (TUInt64A, "reconnects"); (TUInt64A, "streamResets"); (TUInt64A, "disappearances");
      (TUInt64A, "retentionGaps"); (TUInt64A, "inspectionFailures"); (TUInt64A, "inspectionRejections"); (TUInt64A, "callbacks");
      (TUInt64A, "entries"); (TUInt64A, "callbackErrors"); (TUInt64A, "invalidSamples"); (TUInt64A, "staleTransitions");
      (TUInt64A, "staleCallbacks")])].

(** ** The library *)

(** [TypeDef(...).create()], [nt::NTScalar{...}.create()] and the conversion of
    an assigned value to the type of the field, [None] when there is none. *)
Class PvxsTypes (V : Type) {HV : PvxsValue V} {HS : SharedPV V} := {
  tp_create : list Member -> V;
  tp_scalar : TypeCode -> bool -> bool -> bool -> bool -> V;
  tp_convert : TypeCode -> field_data -> option field_data;
  tp_create_code : forall ms p c, NoDup (layout ms).*1 -> (p, c) ∈ layout ms -> v_code (tp_create ms) p = Some c;
  tp_scalar_value : forall code d c a f, v_code (tp_scalar code d c a f) "value" = Some code;
  tp_scalar_time : forall code d c a f p,
    p ∈ ["timeStamp.secondsPastEpoch"; "timeStamp.nanoseconds"; "timeStamp.userTag"] ->
    v_code (tp_scalar code d c a f) p <> None;
  tp_scalar_limits : forall code d c f p,
    p ∈ ["valueAlarm.lowAlarmLimit"; "valueAlarm.lowWarningLimit"; "valueAlarm.highWarningLimit"; "valueAlarm.highAlarmLimit"] ->
    v_code (tp_scalar code d c true f) p = Some code;
  tp_scalar_noalarm : forall code d c f, v_code (tp_scalar code d c false f) "valueAlarm.active" = None;
  tp_convert_same : forall c d, natural d = Some c -> tp_convert c d = Some d;
}.

Record RpcCallStats := { rc_dispatched : Z; rc_succeeded : Z; rc_failed : Z; rc_invalid : Z; rc_unauthorized : Z }.

Record AccessStatus := {
  at_enabled : bool; at_generation : Z; at_activeClients : Z; at_deniedReads : Z; at_deniedWrites : Z; at_rightsChanges : Z;
  at_authorizedOperations : Z; at_operationsInFlight : Z; at_operationsSucceeded : Z; at_operationsFailed : Z;
  at_operationsCancelled : Z; at_operationsAbandoned : Z; at_operationsDenied : Z; at_denialLogsSuppressed : Z;
  at_lastStatus : string; at_lastError : string; at_policyFingerprint : string; at_watchStatus : string;
}.
Definition AccessStatus_default : AccessStatus :=
  Build_AccessStatus false 0 0 0 0 0 0 0 0 0 0 0 0 0 "disabled" "" "" "disabled".

(** [AccessController::status]; the counts of clients, denials and changes of
    rights are sums over the channels. *)
Definition accessStatus (impl : AccessPolicy.AccessImpl) (c : AccessRights.Counters)
    (activeClients deniedReads deniedWrites rightsChanges denialLogsSuppressed : Z) : AccessStatus :=
  {| at_enabled := true; at_generation := AccessPolicy.ai_generation impl; at_activeClients := activeClients;
     at_deniedReads := deniedReads; at_deniedWrites := deniedWrites; at_rightsChanges := rightsChanges;
     at_authorizedOperations := AccessRights.ct_authorized c; at_operationsInFlight := AccessRights.ct_inFlight c;
     at_operationsSucceeded := AccessRights.ct_succeeded c; at_operationsFailed := AccessRights.ct_failed c;
     at_operationsCancelled := AccessRights.ct_cancelled c; at_operationsAbandoned := AccessRights.ct_abandoned c;
     at_operationsDenied := AccessRights.ct_denied c; at_denialLogsSuppressed := denialLogsSuppressed;
     at_lastStatus := AccessPolicy.ai_lastStatus impl; at_lastError := AccessPolicy.ai_lastError impl;
     at_policyFingerprint := AccessPolicy.ai_policyFingerprint impl; at_watchStatus := AccessPolicy.ai_watchStatus impl |}.

(** ** What is posted *)

(** The assignments to a fetched value, or to the value of a scalar. *)
Inductive post := PScalar (pv : string) (d : field_data) | PFields (pv : string) (fields : list (string * field_data)).
Definition post_pv (x : post) : string := match x with PScalar pv _ | PFields pv _ => pv end.

Definition reloadFields (status : ReloadStatus) (durationMs : spec_float) : list (string * field_data) :=
  [("attempt", U64 (rl_attempt status)); ("candidateGeneration", U64 (rl_candidateGeneration status));
   ("activeGeneration", U64 (rl_activeGeneration status)); ("schemaVersion", U64 (rl_schemaVersion status));
   ("kind", FString (rl_kind status)); ("state", FString (rl_state status)); ("phase", FString (rl_phase status));
   ("error", FString (rl_error status)); ("durationMs", FReal durationMs);
   ("diffKnown", FBool (rl_diffKnown status)); ("committed", FBool (rl_committed status));
   ("added", U64 (rl_added status)); ("removed", U64 (rl_removed status));
   ("recreated", U64 (rl_recreated status)); ("retained", U64 (rl_retained status));
   ("metadataChanged", U64 (rl_metadataChanged status)); ("aliasesChanged", U64 (rl_aliasesChanged status));
   ("accessChanged", U64 (rl_accessChanged status));
   ("backends.name", FStrings (map bp_name (rl_backends status)));
   ("backends.action", FStrings (map bp_action (rl_backends status)));
   ("backends.preconnect", FStrings (map bp_preconnect (rl_backends status)));
   ("backends.cutover", FStrings (map bp_cutover (rl_backends status)))].

Definition operationFields (stats : OperationQueueStats) (limits : OperationLimitsConfig) : list (string * field_data) :=
  [("accepted", U64 (c_accepted stats)); ("finished", U64 (c_completed stats));
   ("overloaded", U64 (c_overloaded stats)); ("expired", U64 (c_expired stats));
   ("cancelled", U64 (c_cancelled stats)); ("queued", U64 (c_queued stats)); ("running", U64 (c_running stats));
   ("residentBytes", U64 (c_residentBytes stats)); ("peakBytes", U64 (c_peakBytes stats));
   ("byteLimit", U64 (ol_queuedWriteBytes limits)); ("payloadLimit", U64 (ol_maxPayloadBytes limits));
   ("workers", U32 (ol_writeWorkers limits)); ("queuedPerPV", U32 (ol_queuedWritesPerPV limits))].

Definition discoveryFields (status : DiscoveryStatus) : list (string * field_data) :=
  [("state", FString (ds_state status)); ("peer", FString (ds_peer status)); ("lastError", FString (ds_lastError status));
   ("desiredGeneration", U64 (ds_desiredGeneration status)); ("synchronizedGeneration", U64 (ds_synchronizedGeneration status));
   ("records", U64 (ds_records status)); ("aliases", U64 (ds_aliases status)); ("bytes", U64 (ds_bytes status));
   ("uploads", U64 (ds_uploads status)); ("failures", U64 (ds_failures status)); ("coalesced", U64 (ds_coalesced status));
   ("invalidAnnouncements", U64 (ds_invalidAnnouncements status)); ("port", FTyped (TVuint16 (ds_port status)))].

(** Milliseconds until the next attempt. *)
Definition retryIn (now : Z) (service : RpcServiceState) : Z :=
  if String.eqb (rv_state service) "unavailable" && (now <? rv_nextRetry service) then u64 (rv_nextRetry service - now) else 0.

(** Each service comes with the counters of its calls; [grpc] says whether they are
    compiled in. *)
Definition rpcFields (grpc : bool) (now : Z) (services : list (RpcServiceState * RpcCallStats)) (queue : OperationQueueStats)
    (limits : OperationLimitsConfig) : list (string * field_data) :=
  let column {A} (f : RpcServiceState -> A) := map (fun s => f s.1) services in
  let calls (f : RpcCallStats -> Z) := map (fun s => if grpc then f s.2 else 0) services in
  [("state", FString (if bool_decide (services = []) then "disabled" else "ready"));
   ("queue.accepted", U64 (c_accepted queue)); ("queue.finished", U64 (c_completed queue));
   ("queue.overloaded", U64 (c_overloaded queue)); ("queue.expired", U64 (c_expired queue));
   ("queue.cancelled", U64 (c_cancelled queue)); ("queue.queued", U64 (c_queued queue));
   ("queue.running", U64 (c_running queue)); ("queue.residentBytes", U64 (c_residentBytes queue));
   ("queue.peakBytes", U64 (c_peakBytes queue)); ("queue.byteLimit", U64 (ol_queuedRpcBytes limits));
   ("queue.payloadLimit", U64 (ol_maxPayloadBytes limits)); ("queue.workers", U32 (ol_rpcWorkers limits));
   ("queue.queuedPerMethod", U32 (ol_queuedRpcPerMethod limits))] ++
  concat (map (fun s => if String.eqb (rv_state s.1) "ready" then [] else [("state", FString "degraded")]) services) ++
  [("services.name", FStrings (column (fun s => rs_service (rv_config s))));
   ("services.endpoint", FStrings (column (fun s => rs_endpoint (rv_config s))));
   ("services.state", FStrings (column rv_state)); ("services.lastError", FStrings (column rv_error));
   ("services.optional", FBools (column (fun s => rs_optional (rv_config s))));
   ("services.methods", U64s (column (fun s => count (rv_pvs s))));
   ("services.attempts", U64s (column rv_attempts)); ("services.retryInMs", U64s (column (retryIn now)));
   ("services.dispatched", U64s (calls rc_dispatched)); ("services.succeeded", U64s (calls rc_succeeded));
   ("services.failed", U64s (calls rc_failed)); ("services.invalid", U64s (calls rc_invalid));
   ("services.unauthorized", U64s (calls rc_unauthorized))].

Definition alarmFields (r : AlarmWorker.AlarmReport) : list (string * field_data) :=
  let c := AlarmWorker.ar_counters r in
  [("state", FString (AlarmWorker.ar_state r)); ("lastError", FString (AlarmWorker.ct_lastError c));
   ("sent", U64 (AlarmWorker.ct_sent c)); ("transportFailures", U64 (AlarmWorker.ct_transportFailures c));
   ("rejected", U64 (AlarmWorker.ct_rejected c)); ("reconciled", U64 (AlarmWorker.ct_reconciled c));
   ("coalescedUpdates", U64 (AlarmWorker.ct_coalescedUpdates c));
   ("discardedTransitions", U64 (AlarmWorker.ct_discardedTransitions c));
   ("messagesTruncated", U64 (AlarmWorker.ct_messagesTruncated c));
   ("registrations", U64 (AlarmWorker.ar_registrations r)); ("active", U64 (AlarmWorker.ar_active r));
   ("pending", U64 (AlarmWorker.ar_pending r)); ("queued", U64 (AlarmWorker.ar_queued r));
   ("reservedBytes", U64 (AlarmWorker.ar_reservedBytes r)); ("peakBytes", U64 (AlarmWorker.ar_peakBytes r));
   ("byteLimit", U64 (AlarmWorker.ar_byteLimit r)); ("queueLimit", U64 (AlarmWorker.ar_queueLimit r))].

(** [std::sort] by (pv, role). *)
Definition source_le (a b : SourceStatus) : Prop :=
  match (ss_pv a ?= ss_pv b)%string with
  | Lt => True
  | Gt => False
  | Eq => (ss_role b ?= ss_role a)%string <> Lt
  end.
#[export] Instance source_le_dec : RelDecision source_le.
Proof. intros a b. unfold source_le. destruct (_ ?= _)%string; solve_decision. Defined.
Definition sortSources (sources : list SourceStatus) : list SourceStatus := merge_sort source_le sources.

(** The loop of [setSourceStatus]. *)
Definition tally (sources : list SourceStatus) : Z * Z * Z :=
  fold_left (fun n s => (u64 (n.1.1 + Z.b2z (ss_required s)), u64 (n.1.2 + Z.b2z (ss_ready s)),
                         u64 (n.2 + Z.b2z (ss_required s && negb (ss_ready s))))) sources (0, 0, 0).

(** Time points are in nanoseconds; 0 is the epoch of the clock, "never". *)
Definition receivedAge (now : Z) (s : SourceStatus) : Z :=
  if rs_lastReceived (ss_reader s) =? 0 then -1
  else Z.max 0 (Z.quot (now - rs_lastReceived (ss_reader s)) 1000000).

Definition sourceFields (sorted : list SourceStatus) (generation now : Z) : list (string * field_data) :=
  let '(required, available, unready) := tally sorted in
  let ready := unready =? 0 in
  let strings f := FStrings (map f sorted) in
  let bools f := FBools (map f sorted) in
  let u64s f := U64s (map f sorted) in
  let reader {A} (f : ReaderStatus -> A) s := f (ss_reader s) in
  [("ready", FBool ready); ("state", FString (if ready then "ready" else "degraded"));
   ("generation", U64 generation); ("total", U64 (count sorted));
   ("required", U64 required); ("readySources", U64 available); ("unreadyRequired", U64 unready);
   ("sources.pv", strings ss_pv); ("sources.backend", strings ss_backend); ("sources.key", strings ss_key);
   ("sources.role", strings ss_role); ("sources.state", strings ss_state); ("sources.error", strings ss_error);
   ("sources.inspection", strings ss_inspection); ("sources.lastValidCursor", strings ss_lastValidCursor);
   ("sources.required", bools ss_required); ("sources.valid", bools ss_valid); ("sources.fresh", bools ss_fresh);
   ("sources.stale", bools ss_stale); ("sources.ready", bools ss_ready);
   ("sources.staleAfterMs", U32s (map ss_staleAfterMs sorted)); ("sources.readerProbeMs", U32s (map ss_readerProbeMs sorted));
   ("sources.lastValidAgeMs", I64s (map ss_lastValidAgeMs sorted)); ("sources.lastValidEpoch", u64s ss_lastValidEpoch);
   ("sources.invalidSamples", u64s ss_invalidSamples); ("sources.staleTransitions", u64s ss_staleTransitions);
   ("sources.staleCallbacks", u64s ss_staleCallbacks);
   ("sources.cursor", strings (reader rs_cursor)); ("sources.observedCursor", strings (reader rs_observedCursor));
   ("sources.active", bools (reader rs_active)); ("sources.connected", bools (reader rs_connected));
   ("sources.inspected", bools (reader rs_inspected)); ("sources.hasData", bools (reader rs_hasData));
   ("sources.epoch", u64s (reader rs_epoch)); ("sources.readFailures", u64s (reader rs_readFailures));
   ("sources.readRejections", u64s (reader rs_readRejections)); ("sources.socketTimeouts", u64s (reader rs_socketTimeouts));
   ("sources.reconnects", u64s (reader rs_reconnects)); ("sources.streamResets", u64s (reader rs_streamResets));
   ("sources.disappearances", u64s (reader rs_disappearances)); ("sources.retentionGaps", u64s (reader rs_retentionGaps));
   ("sources.inspectionFailures", u64s (reader rs_inspectionFailures));
   ("sources.inspectionRejections", u64s (reader rs_inspectionRejections));
   ("sources.callbacks", u64s (reader rs_callbacks)); ("sources.entries", u64s (reader rs_entries));
   ("sources.callbackErrors", u64s (reader rs_callbackErrors));
   ("sources.streamKind", strings (fun s => streamKindName (rs_streamKind (ss_reader s))));
   ("sources.lastReceivedAgeMs", I64s (map (receivedAge now) sorted))].

Definition accessFields (status : AccessStatus) : list (string * field_data) :=
  [("authorized", U64 (at_authorizedOperations status)); ("inFlight", U64 (at_operationsInFlight status));
   ("succeeded", U64 (at_operationsSucceeded status)); ("failed", U64 (at_operationsFailed status));
   ("cancelled", U64 (at_operationsCancelled status)); ("abandoned", U64 (at_operationsAbandoned status));
   ("denied", U64 (at_operationsDenied status)); ("denialLogsSuppressed", U64 (at_denialLogsSuppressed status));
   ("rateLimitChannels", U64 (at_activeClients status))].

(** The set functions, as the posts they make. *)
Definition setLastDiff (diff : string) : list post := [PScalar "lastDiff_" (FString diff)].
Definition setReloadStatus (status : ReloadStatus) (durationMs : spec_float) : list post :=
  [PFields "reloadStatus_" (reloadFields status durationMs)].
Definition setOperations (stats : OperationQueueStats) (limits : OperationLimitsConfig) : list post :=
  [PFields "operations_" (operationFields stats limits)].
Definition setDiscoveryStatus (status : DiscoveryStatus) : list post := [PFields "discovery_" (discoveryFields status)].
Definition setRpcStatus (grpc : bool) (now : Z) (services : list (RpcServiceState * RpcCallStats)) (queue : OperationQueueStats)
    (limits : OperationLimitsConfig) : list post := [PFields "rpc_" (rpcFields grpc now services queue limits)].
Definition setAlarmStatus (status : AlarmWorker.AlarmReport) : list post := [PFields "alarms_" (alarmFields status)].
Definition setSourceStatus (sources : list SourceStatus) (generation now : Z) : list post :=
  let sorted := sortSources sources in
  [PFields "sourceStatus_" (sourceFields sorted generation now); PScalar "ready_" (FBool ((tally sorted).2 =? 0))].
Definition setGeneration (generation : Z) : list post := [PScalar "generation_" (I64 (i64 generation))].
Definition setStatus (status : string) : list post := [PScalar "lastStatus_" (FString status)].
Definition setError (error : string) : list post := [PScalar "lastError_" (FString error)].
Definition setPvCount (count : Z) : list post := [PScalar "pvCount_" (I64 (i64 count))].
Definition setRuntimeStats (stats : NDRuntime.RuntimeStats) : list post :=
  [PScalar "ndarrayInvalidFrames_" (U64 (NDRuntime.st_invalidFrames stats));
   PScalar "ndarraySkippedFrames_" (U64 (NDRuntime.st_skippedFrames stats));
   PScalar "ndarrayDiscontinuities_" (U64 (NDRuntime.st_discontinuities stats))].
Definition setBackendHealth (health : string) : list post := [PScalar "backendHealth_" (FString health)].
Definition setAccessStatus (status : AccessStatus) : list post :=
  [PScalar "accessEnabled_" (FBool (at_enabled status)); PScalar "accessGeneration_" (I64 (i64 (at_generation status)));
   PScalar "accessLastStatus_" (FString (at_lastStatus status)); PScalar "accessLastError_" (FString (at_lastError status));
   PScalar "accessPolicyFingerprint_" (FString (at_policyFingerprint status));
   PScalar "accessWatchStatus_" (FString (at_watchStatus status));
   PScalar "accessActiveClients_" (I64 (i64 (at_activeClients status)));
   PScalar "accessDeniedReads_" (I64 (i64 (at_deniedReads status)));
   PScalar "accessDeniedWrites_" (I64 (i64 (at_deniedWrites status)));
   PScalar "accessRightsChanges_" (I64 (i64 (at_rightsChanges status)));
   PFields "accessOperations_" (accessFields status)].

(** ** The namespace *)

(** The value a PV is opened with: an [NTScalar] or a structure, and the
    assignments made before [open]. *)
Inductive shape := SScalar (code : TypeCode) (description : string) | SStruct (members : list Member).
Record opening := { og_pv : string; og_shape : shape; og_init : list (string * field_data) }.

Definition openScalar (pv : string) (code : TypeCode) (init : field_data) (description : string) : opening :=
  {| og_pv := pv; og_shape := SScalar code description; og_init := [("value", init)] |}.
Definition openStringPV (pv scalar description : string) : opening := openScalar pv TString (FString scalar) description.
Definition openStruct (pv : string) (members : list Member) : opening :=
  {| og_pv := pv; og_shape := SStruct members; og_init := [] |}.

(** The constructor, in its order. *)
Definition openings (VERSION GIT_REVISION : string) : list opening :=
  let version := "redis-pvxs-ioc v" +:+ VERSION in
  let revision := "redis-pvxs-ioc " +:+ GIT_REVISION in
  [openStringPV "lastDiff_" "{}" "Last parsed reload differences; credential values omitted";
   openScalar "ready_" TBool (FBool false) "All required Redis data sources are ready";
   openStruct "sourceStatus_" sourcesType;
   openStruct "reloadStatus_" reloadType;
   openStruct "operations_" operationsType;
   openStruct "rpc_" rpcType;
   openStruct "alarms_" alarmsType;
   {| og_pv := "discovery_"; og_shape := SStruct discoveryType; og_init := [("state", FString "disabled")] |};
   openStruct "accessOperations_" accessOperationsType;
   openScalar "reloadCommand_" TInt64 (I64 0) "Write any value to request a config reload";
   openScalar "accessReloadCommand_" TInt64 (I64 0) "Write any value to request an ACF reload";
   openStringPV "version_" version "redis-pvxs-ioc version";
   openStringPV "sysVersion_" version "redis-pvxs-ioc version";
   openStringPV "revision_" revision "redis-pvxs-ioc git revision";
   openStringPV "sysRevision_" revision "redis-pvxs-ioc git revision";
   openScalar "generation_" TInt64 (I64 0) "Current config generation";
   openScalar "lastStatus_" TString (FString "idle") "Last config/app status";
   openScalar "lastError_" TString (FString "") "Last config/app error";
   openScalar "pvCount_" TInt64 (I64 0) "Configured PV count";
   openScalar "ndarrayInvalidFrames_" TUInt64 (U64 0) "Invalid NTNDArray frames since startup";
   openScalar "ndarraySkippedFrames_" TUInt64 (U64 0) "Skipped NTNDArray frame IDs since startup";
   openScalar "ndarrayDiscontinuities_" TUInt64 (U64 0) "NTNDArray ID discontinuities since startup";
   openScalar "backendHealth_" TString (FString "unknown") "Redis backend health";
   openScalar "accessEnabled_" TBool (FBool false) "Whether ACF access control was enabled at startup";
   openScalar "accessGeneration_" TInt64 (I64 0) "Current access policy generation";
   openStringPV "accessLastStatus_" "disabled" "Last access policy status";
   openStringPV "accessLastError_" "" "Last access policy error";
   openStringPV "accessPolicyFingerprint_" "" "Expanded access policy fingerprint";
   openStringPV "accessWatchStatus_" "disabled" "Access policy file watcher status";
   openScalar "accessActiveClients_" TInt64 (I64 0) "Connected access-controlled channels";
   openScalar "accessDeniedReads_" TInt64 (I64 0) "Denied read operations since startup";
   openScalar "accessDeniedWrites_" TInt64 (I64 0) "Denied write operations since startup";
   openScalar "accessRightsChanges_" TInt64 (I64 0) "Access-right changes since startup"].

Definition numericCode (code : TypeCode) : bool :=
  match code with TBool | TBoolA | TString | TStringA | TStruct => false | _ => true end.

Section Admin.
Context {V : Type} {HV : PvxsValue V} {HS : SharedPV V} {HT : PvxsTypes V}.

Record Admin := {
  dm_pvs : gmap string V; dm_reloadRequested : bool; dm_accessReloadRequested : bool; dm_accessConfigured : bool;
}.
#[export] Instance Admin_eta : Eta Admin := fun r =>
  Build_Admin (dm_pvs r) (dm_reloadRequested r) (dm_accessReloadRequested r) (dm_accessConfigured r).

(** [value[p] = d]: [NoField] without such a field, [NoConvert] without a
    conversion. *)
Definition assign (v : V) (x : string * field_data) : exn V :=
  match v_code v x.1 with
  | Some c => match tp_convert c x.2 with Some d => Ret (v_assign v x.1 d) | None => Throw "No conversion" end
  | None => Throw "No such field"
  end.

(** An undefined cast counts as a failure; none occurs. *)
Definition defined {A} (o : option A) : exn A := match o with Some x => Ret x | None => Throw "undefined" end.

Definition makeAdminValue (code : TypeCode) (description : string) (clock : option (Z * Z)) : exn V :=
  let numeric := numericCode code in
  let v := tp_scalar code true numeric numeric numeric in
  let v := assign_if_valid v "display.description" (FString description) in
  let v := assign_if_valid v "display.form.choices" (FStrings standardDisplayFormChoices) in
  let v := applyTimestamp v 0 clock in
  defined (applyAlarmFields v PVConfig_default (Build_AlarmState 0 0 "")).

Definition openPV (clock : option (Z * Z)) (pvs : gmap string V) (o : opening) : exn (gmap string V) :=
  v ← match og_shape o with
      | SScalar code description => makeAdminValue code description clock
      | SStruct members => Ret (tp_create members)
      end;
  v ← exn_fold assign v (og_init o);
  Ret (<[og_pv o := v]> pvs).

Definition Admin_new (VERSION GIT_REVISION : string) (accessConfigured : bool) (clock : option (Z * Z)) : exn Admin :=
  pvs ← exn_fold (openPV clock) ∅ (openings VERSION GIT_REVISION);
  Ret {| dm_pvs := pvs; dm_reloadRequested := false; dm_accessReloadRequested := false;
         dm_accessConfigured := accessConfigured |}.

(** [fetch], the assignments and [post]; both throw for a PV that is not open. *)
Definition runPost (clock : option (Z * Z)) (a : Admin) (x : post) : exn Admin :=
  match dm_pvs a !! post_pv x with
  | None => Throw "Must open() before post()"
  | Some pv =>
      v ← match x with
          | PScalar _ d => v ← assign (pv_fetch pv) ("value", d); Ret (applyTimestamp v 0 clock)
          | PFields _ fields => exn_fold assign (pv_fetch pv) fields
          end;
      Ret (a <| dm_pvs ::= <[post_pv x := pv_post pv v]> |>)
  end.

Definition runPosts (clock : option (Z * Z)) (a : Admin) (l : list post) : exn Admin := exn_fold (runPost clock) a l.

(** The value of a command goes up by one with every put; at the end of its
    range the addition is undefined ([None]). *)
Definition bump (clock : option (Z * Z)) (pv : string) (a : Admin) : option (exn Admin) :=
  match dm_pvs a !! pv with
  | None => Some (Throw "Must open() before post()")
  | Some v =>
      match v_data v "value" with
      | Some (FTyped (TVint64 n)) =>
          if n =? max_i64 then None else Some (runPost clock a (PScalar pv (I64 (n + 1))))
      | _ => Some (Throw "No conversion")
      end
  end.

(** The put handlers; the second refuses with an error when access control was
    not configured at start. *)
Definition onReloadPut (clock : option (Z * Z)) (a : Admin) : option (exn Admin) :=
  bump clock "reloadCommand_" (a <| dm_reloadRequested := true |>).
Definition onAccessReloadPut (clock : option (Z * Z)) (a : Admin) : option (exn Admin) :=
  if negb (dm_accessConfigured a) then Some (Throw "access control is disabled")
  else bump clock "accessReloadCommand_" (a <| dm_accessReloadRequested := true |>).

Definition consumeReloadRequest (a : Admin) : Admin * bool := (a <| dm_reloadRequested := false |>, dm_reloadRequested a).
Definition consumeAccessReloadRequest (a : Admin) : Admin * bool :=
  (a <| dm_accessReloadRequested := false |>, dm_accessReloadRequested a).
End Admin.
Arguments Admin : clear implicits.

(** ** Once a second *)

(** What [pump] samples: the connections, the sources of each runtime, the
    queues, the calls of each service, and the status of alarms and access. *)
Record Health := {
  hl_now : Z; hl_connected : Z -> bool; hl_sources : list (list SourceStatus);
  hl_operations : OperationQueueStats; hl_rpcOperations : option OperationQueueStats; hl_calls : nat -> RpcCallStats;
  hl_alarms : AlarmWorker.AlarmReport; hl_access : option AccessStatus; hl_stats : NDRuntime.RuntimeStats; hl_grpc : bool;
}.

Definition OperationQueueStats_default : OperationQueueStats :=
  {| c_accepted := 0; c_completed := 0; c_overloaded := 0; c_expired := 0; c_cancelled := 0; c_queued := 0; c_running := 0;
     c_residentBytes := 0; c_peakBytes := 0 |}.
Definition DiscoveryStatus_default : DiscoveryStatus :=
  {| ds_state := "disabled"; ds_peer := ""; ds_lastError := ""; ds_desiredGeneration := 0; ds_synchronizedGeneration := 0;
     ds_records := 0; ds_aliases := 0; ds_bytes := 0; ds_uploads := 0; ds_failures := 0; ds_coalesced := 0;
     ds_invalidAnnouncements := 0; ds_port := 0 |}.

Definition publishSourceHealth (h : Health) (a : App) : list post :=
  setSourceStatus (concat (hl_sources h)) (ap_generation a) (hl_now h).

Definition healthPosts (h : Health) (a : App) : list post :=
  setBackendHealth (backendHealthSummary (ap_backends a) (hl_connected h)) ++
  publishSourceHealth h a ++
  setOperations (hl_operations h) (app_limits (ap_config a)) ++
  setRpcStatus (hl_grpc h) (hl_now h / 1000000) (imap (fun i s => (s, hl_calls h i)) (ap_rpcServices a))
    (default OperationQueueStats_default (hl_rpcOperations h)) (app_limits (ap_config a)) ++
  setAlarmStatus (hl_alarms h) ++
  setDiscoveryStatus (from_option Discovery.im_current DiscoveryStatus_default (ap_discovery a)) ++
  setAccessStatus (default AccessStatus_default (hl_access h)) ++
  setRuntimeStats (hl_stats h).

(** The end of [pump]; the second component is [lastHealthUpdate], in
    nanoseconds. *)
Definition pumpHealth {V} `{PvxsTypes V} (clock : option (Z * Z)) (h : Health) (a : App) (s : Admin V * Z)
    : exn (Admin V * Z) :=
  if 1000000000 <=? hl_now h - s.2 then admin ← runPosts clock s.1 (healthPosts h a); Ret (admin, hl_now h) else Ret s.
