(* ===== verification/AdminSpec.v ===== *)
(** * The diagnostic PVs tell the truth

    For the namespace of Admin: it can always be built; no update of a
    diagnostic throws, and each replaces the whole status; the [ready] PV says
    whether every required source is ready; what clients read is what the
    application last posted. *)

From S2P Require Import Prelude.
From S2P Require Import StrMap.
From S2P Require Import Floats.
From S2P Require Import Config.
From S2P Require Import SourceHealth.
From S2P Require Import Util.
From S2P Require Import Runtime.
From S2P Require Import RuntimeFacts.
From S2P Require ConfigDiff.
From S2P Require Import Generation.
From S2P Require OperationQueue.
From S2P Require AlarmWorker.
From S2P Require NDRuntime.
From S2P Require Discovery.
From S2P Require Import App.
From S2P Require Import Admin.

Local Open Scope string_scope.
Local Open Scope list_scope.
Local Open Scope Z_scope.

(** ** Assignments *)

(** The last value assigned to a path. *)
Fixpoint final (p : string) (l : list (string * field_data)) : option field_data :=
  match l with
  | [] => None
  | x :: l => match final p l with Some d => Some d | None => if String.eqb p x.1 then Some x.2 else None end
  end.

Lemma final_app p l1 l2 : final p (l1 ++ l2) = match final p l2 with Some d => Some d | None => final p l1 end.
Proof. induction l1 as [|x l1 IH]; cbn; [by destruct (final p l2)|]. rewrite IH. by destruct (final p l2). Qed.

Lemma final_Some p l : p ∈ l.*1 -> is_Some (final p l).
Proof.
  induction l as [|x l IH]; cbn; [by intros ?%not_elem_of_nil|]. intros [->|Hin]%elem_of_cons.
  - rewrite String.eqb_refl. destruct (final x.1 l); eauto.
  - by destruct (IH Hin) as [d ->].
Qed.

Lemma final_None p l : p ∉ l.*1 -> final p l = None.
Proof.
  induction l as [|x l IH]; cbn; [done|]. intros [Hx Hl]%not_elem_of_cons. rewrite IH by done.
  by destruct (String.eqb_spec p x.1).
Qed.

Section Assignments.
Context {V : Type} {HV : PvxsValue V} {HS : SharedPV V} {HT : PvxsTypes V}.
Implicit Types v pv : V.

(** A field of the assigned value's own type. *)
Definition fits v (x : string * field_data) : Prop := exists c, v_code v x.1 = Some c /\ natural x.2 = Some c.

(** The result of assigning [l] to [v]. *)
Record assigned v (l : list (string * field_data)) v' : Prop := {
  as_code : forall p, v_code v' p = v_code v p;
  as_data : forall p, v_data v' p = match final p l with Some d => Some d | None => v_data v p end;
  as_marked : forall p, v_marked v' p = bool_decide (final p l <> None) || v_marked v p;
}.

Lemma assign_fits v x : fits v x -> assign v x = Ret (v_assign v x.1 x.2).
Proof. intros (c & Hc & Hn). unfold assign. by rewrite Hc, (tp_convert_same c). Qed.

Lemma assigned_cons v x l v' : v_code v x.1 <> None -> assigned (v_assign v x.1 x.2) l v' -> assigned v (x :: l) v'.
Proof.
  intros Hx [Hc Hd Hm]. split; intros p; cbn [final].
  - by rewrite Hc, v_code_assign.
  - rewrite Hd, v_data_assign by done. by destruct (final p l), (String.eqb p x.1).
  - rewrite Hm, v_marked_assign by done. by destruct (final p l), (String.eqb p x.1).
Qed.

Lemma assign_all v l : Forall (fits v) l -> exists v', exn_fold assign v l = Ret v' /\ assigned v l v'.
Proof.
  revert v. induction l as [|x l IH]; intros v Hl.
  { exists v. split; [done|]. by split. }
  inversion Hl as [|? ? Hx Hl']; subst. cbn [exn_fold]. rewrite assign_fits by done. cbn [mbind exn_bind].
  destruct (IH (v_assign v x.1 x.2)) as (v' & -> & Ha).
  { eapply Forall_impl; [exact Hl'|]. intros y (c & Hc & Hn). exists c. by rewrite v_code_assign. }
  exists v'. split; [done|]. apply assigned_cons; [|done]. destruct Hx as (c & Hc & _). congruence.
Qed.

(** What [post] makes of a fetched and assigned value. *)
Lemma posted_fields pv l v' p :
  assigned (pv_fetch pv) l v' -> v_code pv p <> None ->
  v_data (pv_post pv v') p = match final p l with Some d => Some d | None => v_data pv p end.
Proof.
  intros [Hc Hd Hm] Hp. destruct (v_marked v' p) eqn:E.
  - rewrite pv_data_post_marked by done. by rewrite Hd, pv_data_fetch.
  - rewrite pv_data_post_unmarked by done. rewrite Hm in E. destruct (final p l); [|done].
    by rewrite bool_decide_eq_true_2 in E.
Qed.

(** The time stamp of a scalar. *)
Definition timePaths : list string := ["timeStamp.secondsPastEpoch"; "timeStamp.nanoseconds"; "timeStamp.userTag"].

Lemma applyTimestamp_assigned v t clock :
  (forall p, p ∈ timePaths -> v_code v p <> None) ->
  exists l, assigned v l (applyTimestamp v t clock) /\ forall p, p ∉ timePaths -> final p l = None.
Proof.
  intros Ht. unfold applyTimestamp. destruct (splitTimestamp _) as [s n].
  exists [("timeStamp.secondsPastEpoch", FInt s); ("timeStamp.nanoseconds", FInt n); ("timeStamp.userTag", FInt 0)]. split.
  - apply assigned_cons; [apply Ht; by left|]. apply assigned_cons; [cbn; rewrite v_code_assign; apply Ht; by right; left|].
    apply assigned_cons; [cbn; rewrite !v_code_assign; apply Ht; by right; right; left|]. by split.
  - intros p Hp. by apply final_None.
Qed.

Lemma assigned_trans v1 l1 v2 l2 v3 : assigned v1 l1 v2 -> assigned v2 l2 v3 -> assigned v1 (l1 ++ l2) v3.
Proof.
  intros [C1 D1 M1] [C2 D2 M2]. split; intros p.
  - by rewrite C2.
  - rewrite D2, D1, final_app. by destruct (final p l2).
  - rewrite M2, M1, final_app. by destruct (final p l2).
Qed.
End Assignments.

(** ** Posts *)

(** The structure of a PV; the same for every version. *)
Definition shape_of (pv : string) : option shape :=
  og_shape <$> List.find (fun o => String.eqb (og_pv o) pv) (openings "" "").

(** A post that suits a structure: of the scalar's type, or one value of its
    own type for every leaf. *)
Definition suits (sh : shape) (x : post) : Prop :=
  match sh, x with
  | SScalar code _, PScalar _ d => natural d = Some code
  | SStruct ms, PFields _ fields =>
      Forall (fun x => exists c, (x.1, c) ∈ layout ms /\ natural x.2 = Some c) fields /\
      forall p, p ∈ (layout ms).*1 -> p ∈ fields.*1
  | _, _ => False
  end.
Definition post_ok (x : post) : Prop := exists sh, shape_of (post_pv x) = Some sh /\ suits sh x.

(** A decision of [suits] that computes on the paths and types alone. *)
Definition leafb (ms : list Member) (x : string * field_data) : bool :=
  match natural x.2 with Some c => bool_decide ((x.1, c) ∈ layout ms) | None => false end.
Definition suitsb (sh : shape) (x : post) : bool :=
  match sh, x with
  | SScalar code _, PScalar _ d => bool_decide (natural d = Some code)
  | SStruct ms, PFields _ fields => forallb (leafb ms) fields && forallb (fun p => bool_decide (p ∈ fields.*1)) (layout ms).*1
  | _, _ => false
  end.

Lemma leafb_spec ms fields :
  forallb (leafb ms) fields = true -> Forall (fun x => exists c, (x.1, c) ∈ layout ms /\ natural x.2 = Some c) fields.
Proof.
  rewrite forallb_forall. intros H. apply Forall_forall. intros x Hin%list_elem_of_In. specialize (H _ Hin).
  unfold leafb in H. destruct (natural x.2) as [c|]; [|done]. exists c. split; [by apply bool_decide_eq_true in H|done].
Qed.

Lemma suitsb_spec sh x : suitsb sh x = true -> suits sh x.
Proof.
  destruct sh as [code descr|ms], x as [pv d|pv fields]; cbn; try done; [by intros ?%bool_decide_eq_true|].
  intros [H1 H2]%andb_true_iff. split; [by apply leafb_spec|]. rewrite forallb_forall in H2.
  intros p Hp%list_elem_of_In. by apply (bool_decide_eq_true (p ∈ fields.*1)), (H2 p Hp).
Qed.

Section Posts.
Context {V : Type} {HV : PvxsValue V} {HS : SharedPV V} {HT : PvxsTypes V}.
Implicit Types (v pv : V) (a : Admin V).

Definition has_shape v (sh : shape) : Prop :=
  match sh with
  | SScalar code _ =>
      v_code v "value" = Some code /\ (forall p, p ∈ timePaths -> v_code v p <> None) /\
      exists d, v_data v "value" = Some d /\ natural d = Some code
  | SStruct ms => forall p c, (p, c) ∈ layout ms -> v_code v p = Some c
  end.

(** Every diagnostic is open, with its structure. *)
Definition admin_ok a : Prop :=
  forall name sh, shape_of name = Some sh -> exists pv, dm_pvs a !! name = Some pv /\ has_shape pv sh.

(** The PV shows what was posted, in every leaf. *)
Definition shows (x : post) a : Prop :=
  exists pv, dm_pvs a !! post_pv x = Some pv /\
  match x with
  | PScalar _ d => v_data pv "value" = Some d
  | PFields name fields => forall ms p c, shape_of name = Some (SStruct ms) -> (p, c) ∈ layout ms ->
      exists d, final p fields = Some d /\ v_data pv p = Some d
  end.

Lemma stamped_post pv d clock :
  (forall p, p ∈ timePaths -> v_code pv p <> None) -> fits pv ("value", d) ->
  exists v, assign (pv_fetch pv) ("value", d) = Ret v /\
    (forall p, v_code (pv_post pv (applyTimestamp v 0 clock)) p = v_code pv p) /\
    v_data (pv_post pv (applyTimestamp v 0 clock)) "value" = Some d.
Proof.
  intros Ht (c & Hc & Hn). cbn [fst snd] in *. set (v := v_assign (pv_fetch pv) "value" d).
  assert (assigned (pv_fetch pv) [("value", d)] v) as Ha.
  { apply (assigned_cons _ ("value", d)); [|by split]. cbn. rewrite pv_code_fetch. congruence. }
  exists v. split; [apply assign_fits; exists c; cbn; by rewrite pv_code_fetch|]. split; [intros p; apply pv_code_post|].
  destruct (applyTimestamp_assigned v 0 clock) as (l & Hl & Hf).
  { intros p Hp. rewrite (as_code _ _ _ Ha), pv_code_fetch. by apply Ht. }
  rewrite (posted_fields pv _ _ "value" (assigned_trans _ _ _ _ _ Ha Hl)) by congruence.
  rewrite final_app, (Hf "value"); [done|]. by apply (bool_decide_unpack _).
Qed.

Lemma fields_post pv fields ms :
  (forall p c, (p, c) ∈ layout ms -> v_code pv p = Some c) -> suits (SStruct ms) (PFields "" fields) ->
  exists v, exn_fold assign (pv_fetch pv) fields = Ret v /\
    (forall p, v_code (pv_post pv v) p = v_code pv p) /\
    forall p c, (p, c) ∈ layout ms -> exists d, final p fields = Some d /\ v_data (pv_post pv v) p = Some d.
Proof.
  intros Hsh [Hf Hall]. destruct (assign_all (pv_fetch pv) fields) as (v & Hv & Ha).
  { eapply Forall_impl; [exact Hf|]. intros x (c & Hin & Hn). exists c. rewrite pv_code_fetch. auto. }
  exists v. split; [done|]. split; [intros p; apply pv_code_post|]. intros p c Hin.
  destruct (final_Some p fields) as [d Hd]; [apply Hall, list_elem_of_fmap; by exists (p, c)|]. exists d. split; [done|].
  rewrite (posted_fields pv fields v p Ha), Hd; [done|]. by rewrite (Hsh p c).
Qed.

Lemma runPost_spec clock a x :
  admin_ok a -> post_ok x ->
  exists pv', runPost clock a x = Ret (a <| dm_pvs ::= <[post_pv x := pv']> |>) /\
    admin_ok (a <| dm_pvs ::= <[post_pv x := pv']> |>) /\ shows x (a <| dm_pvs ::= <[post_pv x := pv']> |>).
Proof.
  intros Hok (sh & Hs & Hsu). destruct (Hok _ _ Hs) as (pv & Hpv & Hsh).
  assert (exists pv', runPost clock a x = Ret (a <| dm_pvs ::= <[post_pv x := pv']> |>) /\ has_shape pv' sh /\
    shows x (a <| dm_pvs ::= <[post_pv x := pv']> |>)) as (pv' & Hr & Hsh' & Hshow).
  { unfold runPost. rewrite Hpv. destruct sh as [code descr|ms], x as [name d|name fields]; try done; cbn [post_pv] in *.
    - destruct Hsh as (Hc & Ht & _). destruct (stamped_post pv d clock Ht) as (v & -> & Hcode & Hdata); [by exists code|].
      eexists. split; [reflexivity|]. split; [split_and!; eauto; intros; rewrite ?Hcode; auto; by apply Ht|].
      eexists. cbn. by rewrite lookup_insert_eq.
    - destruct (fields_post pv fields ms Hsh Hsu) as (v & -> & Hcode & Hdata). eexists. split; [reflexivity|].
      split; [intros p c Hin; rewrite Hcode; by apply Hsh|]. eexists. split; [cbn; by rewrite lookup_insert_eq|].
      intros ms' p c Hs'. rewrite Hs in Hs'. injection Hs' as <-. apply Hdata. }
  exists pv'. split_and!; try done. intros name sh' Hs'. cbn. destruct (decide (name = post_pv x)) as [->|Hne].
  - exists pv'. rewrite lookup_insert_eq. split; [done|]. congruence.
  - rewrite lookup_insert_ne by done. by apply Hok.
Qed.

Lemma shows_other x a name pv' :
  shows x a -> post_pv x <> name -> shows x (a <| dm_pvs ::= <[name := pv']> |>).
Proof. intros (pv & Hpv & Hx) Hne. exists pv. split; [cbn; by rewrite lookup_insert_ne|done]. Qed.

(** The state after posts: each shown, nothing else changed. *)
Record posted a (l : list post) a' : Prop := {
  pd_ok : admin_ok a';
  pd_shows : forall x, x ∈ l -> shows x a';
  pd_others : forall name, name ∉ map post_pv l -> dm_pvs a' !! name = dm_pvs a !! name;
  pd_reload : dm_reloadRequested a' = dm_reloadRequested a;
  pd_access : dm_accessReloadRequested a' = dm_accessReloadRequested a;
  pd_configured : dm_accessConfigured a' = dm_accessConfigured a;
}.

Lemma shows_lookup x a a' : dm_pvs a' !! post_pv x = dm_pvs a !! post_pv x -> shows x a -> shows x a'.
Proof. intros He (pv & Hpv & Hx). exists pv. by rewrite He. Qed.

Lemma runPosts_spec clock a l :
  admin_ok a -> Forall post_ok l -> NoDup (map post_pv l) -> exists a', runPosts clock a l = Ret a' /\ posted a l a'.
Proof.
  intros Hok Hl. revert a Hok. induction Hl as [|x l Hx Hl IH]; intros a Hok Hnd.
  { exists a. split; [done|]. split; try done. by intros x ?%not_elem_of_nil. }
  cbn [map] in Hnd. apply NoDup_cons in Hnd as [Hnin Hnd].
  destruct (runPost_spec clock a x Hok Hx) as (pv' & Hr & Hok' & Hs).
  destruct (IH _ Hok' Hnd) as (a' & Hr' & [Pok Psh Pot Pre Pac Pco]).
  exists a'. split; [unfold runPosts in *; cbn [exn_fold]; rewrite Hr; exact Hr'|]. split; try done.
  - intros y [->|Hy]%elem_of_cons; [|by apply Psh]. eapply shows_lookup; [by apply Pot|done].
  - intros name [Hn1 Hn2]%not_elem_of_cons. rewrite Pot by done. cbn. by rewrite lookup_insert_ne.
Qed.
End Posts.

Lemma posts_ok (l : list post) :
  Forall (fun x => match shape_of (post_pv x) with Some sh => suitsb sh x = true | None => False end) l -> Forall post_ok l.
Proof.
  intros Hl. eapply Forall_impl; [exact Hl|]. intros x Hx. cbn beta in Hx. destruct (shape_of (post_pv x)) as [sh|] eqn:E; [|done].
  exists sh. split; [done|]. by apply suitsb_spec.
Qed.

(** The calls that post. *)
Inductive setter : list post -> Prop :=
| set_lastDiff diff : setter (setLastDiff diff)
| set_reloadStatus status durationMs : setter (setReloadStatus status durationMs)
| set_generation generation : setter (setGeneration generation)
| set_status status : setter (setStatus status)
| set_error error : setter (setError error)
| set_pvCount count : setter (setPvCount count)
| set_operations stats limits : setter (setOperations stats limits)
| set_alarms status : setter (setAlarmStatus status)
| set_discovery status : setter (setDiscoveryStatus status)
| set_access status : setter (setAccessStatus status)
| set_runtimeStats stats : setter (setRuntimeStats stats)
| set_backendHealth health : setter (setBackendHealth health)
| set_rpc grpc now services queue limits : setter (setRpcStatus grpc now services queue limits)
| set_sources sources generation now : setter (setSourceStatus sources generation now)
| set_health h a : setter (healthPosts h a).

Ltac posts_check := apply posts_ok; repeat constructor; by vm_compute.

Lemma rpcFields_ok grpc now services queue limits : Forall post_ok (setRpcStatus grpc now services queue limits).
Proof.
  apply Forall_singleton. exists (SStruct rpcType). split; [done|].
  unfold rpcFields. split.
  - rewrite !Forall_app. split_and!; [apply leafb_spec; by vm_compute| |apply leafb_spec; by vm_compute].
    apply Forall_concat, Forall_fmap, Forall_true. intros s. cbn beta.
    unfold compose. destruct (String.eqb _ _); [done|]. apply (leafb_spec rpcType). by vm_compute.
  - assert (suits (SStruct rpcType) (PFields "" (rpcFields grpc now [] queue limits))) as [_ H2]
      by (apply suitsb_spec; by vm_compute).
    intros p Hp. specialize (H2 p Hp). unfold rpcFields in H2. cbn [map concat] in H2.
    rewrite !fmap_app, !elem_of_app in *. destruct H2 as [H2|[H2|H2]]; [by left|by apply not_elem_of_nil in H2|by right; right].
Qed.

Lemma sources_ok sources generation now : Forall post_ok (setSourceStatus sources generation now).
Proof.
  unfold setSourceStatus. cbn zeta. generalize (sortSources sources). intros sorted. unfold sourceFields.
  destruct (tally sorted) as [[required available] unready]. posts_check.
Qed.

Lemma health_ok h a : Forall post_ok (healthPosts h a).
Proof.
  unfold healthPosts. repeat rewrite Forall_app. split_and!; [..|apply sources_ok| |apply rpcFields_ok| | | |]; posts_check.
Qed.

Lemma setter_ok l : setter l -> Forall post_ok l /\ NoDup (map post_pv l).
Proof.
  intros Hl. split.
  - destruct Hl; [posts_check..|apply rpcFields_ok|apply sources_ok|apply health_ok].
  - destruct Hl; by apply (bool_decide_unpack _); vm_compute.
Qed.

(** ** The constructor *)

Definition opening_ok (o : opening) : Prop :=
  match og_shape o with
  | SScalar code _ => exists d, og_init o = [("value", d)] /\ natural d = Some code
  | SStruct ms => NoDup (layout ms).*1 /\ forallb (leafb ms) (og_init o) = true
  end.

Lemma openings_ok VERSION GIT_REVISION : Forall opening_ok (openings VERSION GIT_REVISION).
Proof.
  unfold openings. cbn zeta. repeat (apply Forall_cons_2; [|]); [..|apply Forall_nil_2];
    unfold opening_ok; cbn [og_shape og_init openStringPV openScalar openStruct];
    first [by eexists | split; [by apply (bool_decide_unpack _); vm_compute|by vm_compute]].
Qed.

Lemma openings_shapes VERSION GIT_REVISION :
  map (fun o => (og_pv o, og_shape o)) (openings VERSION GIT_REVISION) = map (fun o => (og_pv o, og_shape o)) (openings "" "").
Proof. reflexivity. Qed.

Section Constructor.
Context {V : Type} {HV : PvxsValue V} {HS : SharedPV V} {HT : PvxsTypes V}.
Implicit Types v pv : V.

Definition same_layout v v' : Prop := forall p, v_code v' p = v_code v p.

Lemma assign_if_layout v p d : same_layout v (assign_if_valid v p d).
Proof. intros q. unfold assign_if_valid. destruct (v_valid v p); [apply v_code_assign|done]. Qed.

Lemma numeric_defined v p code dflt :
  v_code v p = Some code -> castNumeric code dflt <> None ->
  exists v', assignTypedNumeric v p None dflt = Some v' /\ same_layout v v'.
Proof.
  intros Hc Hd. unfold assignTypedNumeric. rewrite Hc. cbn [default from_option]. unfold default, from_option.
  destruct (castNumeric code _) as [d|]; [|done]. cbn. eexists. split; [done|]. intros q.
  destruct d; [apply v_code_assign|done].
Qed.

(** The default of a limit can be stored in a field of every type. *)
Definition limitDefault (code : TypeCode) : spec_float :=
  if bool_decide (Some code = Some TFloat32) || bool_decide (Some code = Some TFloat64) then S754_nan else f_zero.
Lemma limitDefault_castable code : castNumeric code (limitDefault code) <> None.
Proof. by destruct code. Qed.

Lemma applyAlarmFields_defined v config state :
  al_lowAlarm (pv_alarms config) = None -> al_lowWarning (pv_alarms config) = None ->
  al_highWarning (pv_alarms config) = None -> al_highAlarm (pv_alarms config) = None ->
  v_code v "valueAlarm.active" = None \/
    (exists code, forall p, p ∈ ["valueAlarm.lowAlarmLimit"; "valueAlarm.lowWarningLimit"; "valueAlarm.highWarningLimit";
       "valueAlarm.highAlarmLimit"] -> v_code v p = Some code) ->
  exists v', applyAlarmFields v config state = Some v' /\ same_layout v v'.
Proof.
  intros N1 N2 N3 N4 Hv. unfold applyAlarmFields, v_valid. cbn zeta. rewrite !v_code_assign, N1, N2, N3, N4.
  destruct (v_code v "valueAlarm.active") as [c|] eqn:E; cbn [is_some negb].
  2: { eexists. split; [done|]. intros p. by rewrite !v_code_assign. }
  destruct Hv as [|[code Hcode]]; [done|]. rewrite (Hcode "valueAlarm.lowAlarmLimit") by (by left).
  fold (limitDefault code). set (v0 := v_assign _ "valueAlarm.active" _).
  assert (same_layout v v0) as L0 by (intros p; unfold v0; by rewrite !v_code_assign).
  assert (Hstep : forall w p, same_layout v w ->
    p ∈ ["valueAlarm.lowAlarmLimit"; "valueAlarm.lowWarningLimit"; "valueAlarm.highWarningLimit"; "valueAlarm.highAlarmLimit"] ->
    exists w', assignTypedNumeric w p None (limitDefault code) = Some w' /\ same_layout v w').
  { intros w p Hw Hp. destruct (numeric_defined w p code (limitDefault code)) as (w' & ? & Hl);
      [rewrite Hw; by apply Hcode|apply limitDefault_castable|]. exists w'. split; [done|]. intros q. by rewrite Hl. }
  destruct (Hstep v0 "valueAlarm.lowAlarmLimit" L0) as (v1 & -> & L1); [by left|]. cbn [mbind option_bind].
  destruct (Hstep v1 "valueAlarm.lowWarningLimit" L1) as (v2 & -> & L2); [by right; left|]. cbn [mbind option_bind].
  destruct (Hstep v2 "valueAlarm.highWarningLimit" L2) as (v3 & -> & L3); [by right; right; left|]. cbn [mbind option_bind].
  destruct (Hstep v3 "valueAlarm.highAlarmLimit" L3) as (v4 & -> & L4); [by do 3 right; left|]. cbn [mbind option_bind].
  eexists. split; [done|]. intros p. by rewrite !v_code_assign.
Qed.

Lemma makeAdminValue_spec code description clock :
  exists v, makeAdminValue code description clock = Ret v /\ v_code v "value" = Some code /\
    forall p, p ∈ timePaths -> v_code v p <> None.
Proof.
  unfold makeAdminValue. cbn zeta. set (v0 := tp_scalar _ _ _ _ _). set (v1 := applyTimestamp _ _ _).
  assert (same_layout v0 v1) as L1.
  { intros p. unfold v1, applyTimestamp. destruct (splitTimestamp _). by rewrite !v_code_assign, !assign_if_layout. }
  destruct (applyAlarmFields_defined v1 PVConfig_default (Build_AlarmState 0 0 "")) as (v & -> & Hl); try done.
  { rewrite L1. unfold v0. destruct (numericCode code); [right|left; apply tp_scalar_noalarm].
    exists code. intros p Hp. rewrite L1. by apply tp_scalar_limits. }
  exists v. split; [done|]. split; [rewrite Hl, L1; apply tp_scalar_value|].
  intros p Hp. rewrite Hl, L1. by apply tp_scalar_time.
Qed.

(** A PV just opened. *)
Definition opened (o : opening) v : Prop :=
  has_shape v (og_shape o) /\ forall d, og_init o = [("value", d)] -> v_data v "value" = Some d.

Lemma openPV_spec clock (pvs : gmap string V) o :
  opening_ok o -> exists v, openPV clock pvs o = Ret (<[og_pv o := v]> pvs) /\ opened o v.
Proof.
  unfold opening_ok, openPV, opened. destruct (og_shape o) as [code descr|ms].
  - intros (d & -> & Hn). destruct (makeAdminValue_spec code descr clock) as (v & -> & Hc & Ht). cbn [mbind exn_bind].
    destruct (assign_all v [("value", d)]) as (v' & -> & Ha); [apply Forall_singleton; by exists code|].
    exists v'. split; [done|]. assert (v_data v' "value" = Some d) as Hd by (by rewrite (as_data _ _ _ Ha)).
    split; [|by intros d' [= <-]]. split; [by rewrite (as_code _ _ _ Ha)|].
    split; [intros p Hp; rewrite (as_code _ _ _ Ha); by apply Ht|]. by exists d.
  - intros [Hnd Hl%leafb_spec]. cbn [mbind exn_bind].
    destruct (assign_all (tp_create ms) (og_init o)) as (v' & -> & Ha).
    { eapply Forall_impl; [exact Hl|]. intros x (c & Hin & Hn). exists c. split; [|done]. by apply tp_create_code. }
    exists v'. split; [done|]. split; [intros p c Hin; rewrite (as_code _ _ _ Ha); by apply tp_create_code|].
    intros d Hd. by rewrite (as_data _ _ _ Ha), Hd.
Qed.

Lemma openAll clock (pvs : gmap string V) l :
  Forall opening_ok l -> NoDup (map og_pv l) ->
  exists pvs', exn_fold (openPV clock) pvs l = Ret pvs' /\
    (forall name, name ∉ map og_pv l -> pvs' !! name = pvs !! name) /\
    forall o, o ∈ l -> exists v, pvs' !! og_pv o = Some v /\ opened o v.
Proof.
  intros Hl. revert pvs. induction Hl as [|o l Ho Hl IH]; intros pvs Hnd.
  { exists pvs. split_and!; [done..|]. by intros o ?%not_elem_of_nil. }
  cbn [map] in Hnd. apply NoDup_cons in Hnd as [Hnin Hnd]. destruct (openPV_spec clock pvs o Ho) as (v & Hv & Hs).
  cbn [exn_fold]. rewrite Hv. cbn [mbind exn_bind]. destruct (IH (<[og_pv o := v]> pvs) Hnd) as (pvs' & -> & Hot & Hin).
  exists pvs'. split_and!; [done|..].
  - intros name [Hn1 Hn2]%not_elem_of_cons. rewrite Hot by done. by rewrite lookup_insert_ne.
  - intros o' [->|Ho']%elem_of_cons; [|by apply Hin]. exists v. rewrite Hot by done. by rewrite lookup_insert_eq.
Qed.

Lemma Admin_new_spec VERSION GIT_REVISION configured clock :
  exists a : Admin V, Admin_new VERSION GIT_REVISION configured clock = Ret a /\ admin_ok a /\
    dm_reloadRequested a = false /\ dm_accessReloadRequested a = false /\
    forall o, o ∈ openings VERSION GIT_REVISION -> exists v, dm_pvs a !! og_pv o = Some v /\ opened o v.
Proof.
  unfold Admin_new. destruct (openAll clock ∅ (openings VERSION GIT_REVISION)) as (pvs & -> & _ & Hin);
    [apply openings_ok|by apply (bool_decide_unpack _); vm_compute|].
  cbn [mbind exn_bind]. eexists. split; [done|]. split; [|done]. intros name sh Hs. unfold shape_of in Hs.
  apply fmap_Some in Hs as (o & Ho & ->). apply List.find_some in Ho as [Ho%list_elem_of_In Hn].
  apply String.eqb_eq in Hn as <-.
  assert ((og_pv o, og_shape o) ∈ map (fun o => (og_pv o, og_shape o)) (openings VERSION GIT_REVISION)) as Ho'.
  { rewrite openings_shapes. apply list_elem_of_fmap. by exists o. }
  apply list_elem_of_fmap in Ho' as (o' & [= -> ->] & Ho').
  destruct (Hin o' Ho') as (v & Hv & Hop & _). by exists v.
Qed.
End Constructor.

(** ** Every state of the namespace *)

Section Reach.
Context {V : Type} {HV : PvxsValue V} {HS : SharedPV V} {HT : PvxsTypes V}.
Implicit Types a : Admin V.

(** Built, then posted to, put to by clients and asked for requests, in any
    order. *)
Inductive admin_reach : Admin V -> Prop :=
| ar_new VERSION GIT_REVISION configured clock a :
    Admin_new VERSION GIT_REVISION configured clock = Ret a -> admin_reach a
| ar_set clock l a a' : admin_reach a -> setter l -> runPosts clock a l = Ret a' -> admin_reach a'
| ar_put clock a a' : admin_reach a -> onReloadPut clock a = Some (Ret a') -> admin_reach a'
| ar_accessPut clock a a' : admin_reach a -> onAccessReloadPut clock a = Some (Ret a') -> admin_reach a'
| ar_consume a : admin_reach a -> admin_reach (consumeReloadRequest a).1
| ar_consumeAccess a : admin_reach a -> admin_reach (consumeAccessReloadRequest a).1.

Definition command (name : string) : Prop := name = "reloadCommand_" \/ name = "accessReloadCommand_".

Lemma command_post name n : command name -> post_ok (PScalar name (I64 n)).
Proof. intros [->| ->]; eexists; split; reflexivity. Qed.

(** A put to a command counts up its value. *)
Lemma bump_spec clock name a :
  admin_ok a -> command name ->
  exists pv n, dm_pvs a !! name = Some pv /\ v_data pv "value" = Some (I64 n) /\
    (n = max_i64 -> bump clock name a = None) /\
    (n <> max_i64 -> exists pv', bump clock name a = Some (Ret (a <| dm_pvs ::= <[name := pv']> |>)) /\
       admin_ok (a <| dm_pvs ::= <[name := pv']> |>) /\
       shows (PScalar name (I64 (n + 1))) (a <| dm_pvs ::= <[name := pv']> |>)).
Proof.
  intros Hok Hc. destruct (command_post name 0 Hc) as (sh & Hs & _).
  assert (exists descr, sh = SScalar TInt64 descr) as [descr ->].
  { destruct Hc as [->| ->]; vm_compute in Hs; injection Hs as <-; eauto. }
  destruct (Hok name _ Hs) as (pv & Hpv & _ & _ & d & Hd & Hn).
  assert (exists n, d = I64 n) as [n ->].
  { destruct d as [| | | | | |tv| |]; try done. destruct tv; try done. eauto. }
  exists pv, n. unfold bump. rewrite Hpv, Hd. cbn [I64]. unfold I64. split_and!; [done|done|by intros ->|].
  intros Hne. rewrite (proj2 (Z.eqb_neq n max_i64)) by done.
  destruct (runPost_spec clock a (PScalar name (I64 (n + 1))) Hok (command_post name (n + 1) Hc)) as (pv' & Hr & Hok' & Hsh).
  exists pv'. unfold I64 in *. cbn [post_pv] in *. by rewrite Hr.
Qed.

Lemma bump_ok clock name a a' : admin_ok a -> command name -> bump clock name a = Some (Ret a') -> admin_ok a'.
Proof.
  intros Hok Hc Hb. destruct (bump_spec clock name a Hok Hc) as (pv & n & _ & _ & H1 & H2).
  destruct (decide (n = max_i64)) as [E|E]; [by rewrite H1 in Hb|].
  destruct (H2 E) as (pv' & Hb' & Hok' & _). rewrite Hb' in Hb. by injection Hb as <-.
Qed.

Lemma reach_ok a : admin_reach a -> admin_ok a.
Proof.
  induction 1 as [VERSION REV configured clock a Hn|clock l a a' _ IH Hl Hr|clock a a' _ IH Hp|clock a a' _ IH Hp|a _ IH|a _ IH].
  - destruct (Admin_new_spec (V:=V) VERSION REV configured clock) as (a0 & E & Hok & _). rewrite E in Hn. by injection Hn as <-.
  - destruct (setter_ok l Hl) as [Ho Hnd]. destruct (runPosts_spec clock a l IH Ho Hnd) as (a0 & E & []).
    rewrite E in Hr. by injection Hr as <-.
  - eapply bump_ok; [|by left|exact Hp]. exact IH.
  - unfold onAccessReloadPut in Hp. destruct (dm_accessConfigured a); [|done]. cbn [negb] in Hp.
    eapply bump_ok; [|by right|exact Hp]. exact IH.
  - exact IH.
  - exact IH.
Qed.

(** The diagnostics are always whole and current.  The namespace can be built
    on every system; and in every state it can reach, no matter which updates
    and puts came before, every update of the diagnostics succeeds: no
    assignment meets a missing field or a wrong type.  Afterwards each PV it
    posts to shows this status in every leaf of its structure, none is left
    over from an older status, and no other PV has changed. *)
Theorem diagnostics_current :
  (forall VERSION GIT_REVISION configured clock, exists a : Admin V,
     Admin_new VERSION GIT_REVISION configured clock = Ret a) /\
  forall clock a l, admin_reach a -> setter l -> exists a', runPosts clock a l = Ret a' /\
    (forall x, x ∈ l -> shows x a') /\
    (forall name, name ∉ map post_pv l -> dm_pvs a' !! name = dm_pvs a !! name).
Proof.
  split.
  - intros. destruct (Admin_new_spec (V:=V) VERSION GIT_REVISION configured clock) as (a & E & _). eauto.
  - intros clock a l Ha Hl. destruct (setter_ok l Hl) as [Ho Hnd].
    destruct (runPosts_spec clock a l (reach_ok a Ha) Ho Hnd) as (a' & E & []). eauto.
Qed.
End Reach.

(** ** Readiness *)

Lemma str_compare_flip a b : (b ?= a)%string = CompOpp (a ?= b)%string.
Proof. apply String.compare_antisym. Qed.

#[export] Instance source_le_total : Total source_le.
Proof.
  intros a b. unfold source_le. rewrite (str_compare_flip (ss_pv a) (ss_pv b)).
  destruct (ss_pv a ?= ss_pv b)%string; cbn; auto.
  rewrite (str_compare_flip (ss_role a) (ss_role b)). destruct (ss_role a ?= ss_role b)%string; cbn; naive_solver.
Qed.

Definition unready (s : SourceStatus) : bool := ss_required s && negb (ss_ready s).

Lemma tally_unready sources n :
  0 <= n.2 -> n.2 + count sources < 2 ^ 64 ->
  (fold_left (fun n s => (u64 (n.1.1 + Z.b2z (ss_required s)), u64 (n.1.2 + Z.b2z (ss_ready s)),
     u64 (n.2 + Z.b2z (ss_required s && negb (ss_ready s))))) sources n).2 = n.2 + count (List.filter unready sources).
Proof.
  unfold count. revert n. induction sources as [|s l IH]; intros n Hn Hl; cbn [fold_left List.filter length] in *; [lia|].
  fold (unready s). rewrite IH; cbn [snd fst]; rewrite u64_id; destruct (unready s); cbn [Z.b2z length]; lia.
Qed.

Lemma tally_ready sources :
  count sources < 2 ^ 64 ->
  ((tally sources).2 =? 0) = true <-> forall s, s ∈ sources -> ss_required s = true -> ss_ready s = true.
Proof.
  intros Hc. unfold tally. rewrite tally_unready by (cbn; lia). cbn [snd]. rewrite Z.eqb_eq. unfold count.
  assert (0 + Z.of_nat (length (List.filter unready sources)) = 0 <-> List.filter unready sources = []) as ->
    by (rewrite <-length_zero_iff_nil; lia).
  split.
  - intros He s Hs Hr. destruct (ss_ready s) eqn:E; [done|].
    assert (List.In s (List.filter unready sources)) as Hin.
    { apply List.filter_In. split; [by apply list_elem_of_In|]. unfold unready. by rewrite Hr, E. }
    by rewrite He in Hin.
  - intros Hall. destruct (List.filter unready sources) as [|s l] eqn:E; [done|].
    assert (List.In s (List.filter unready sources)) as Hin by (rewrite E; by left).
    apply List.filter_In in Hin as [Hin%list_elem_of_In Hu]. unfold unready in Hu.
    apply andb_true_iff in Hu as [Hr Hn]. by rewrite (Hall s Hin Hr) in Hn.
Qed.

Section Ready.
Context {V : Type} {HV : PvxsValue V} {HS : SharedPV V} {HT : PvxsTypes V}.
Implicit Types a : Admin V.

(** C21. The [ready] PV can be relied on.  Whenever [pump] comes round a second
    after the last time, in every reachable state of the diagnostics, the
    posting succeeds and then: [ready] is true exactly when every required
    source of every runtime is ready; the summary of [source:status] agrees;
    and its table has one row for each source, in the order of PV and role,
    with every column taken from the same row. *)
Theorem ready_pv_truthful clock h app a last :
  admin_reach a -> 1000000000 <= hl_now h - last -> count (concat (hl_sources h)) < 2 ^ 64 ->
  exists a' rows ready, pumpHealth clock h app (a, last) = Ret (a', hl_now h) /\
    (ready = true <-> forall s, s ∈ concat (hl_sources h) -> ss_required s = true -> ss_ready s = true) /\
    shows (PScalar "ready_" (FBool ready)) a' /\
    rows ≡ₚ concat (hl_sources h) /\ Sorted source_le rows /\
    shows (PFields "sourceStatus_" (sourceFields rows (ap_generation app) (hl_now h))) a' /\
    final "ready" (sourceFields rows (ap_generation app) (hl_now h)) = Some (FBool ready).
Proof.
  intros Ha Hdue Hc. destruct (setter_ok _ (set_health h app)) as [Ho Hnd].
  destruct (runPosts_spec clock a _ (reach_ok a Ha) Ho Hnd) as (a' & E & [_ Hsh _ _ _ _]).
  set (rows := sortSources (concat (hl_sources h))).
  assert (rows ≡ₚ concat (hl_sources h)) as Hp by apply merge_sort_Permutation.
  exists a', rows, ((tally rows).2 =? 0). split_and!.
  - unfold pumpHealth. cbn [fst snd]. rewrite (proj2 (Z.leb_le 1000000000 (hl_now h - last))) by done. by rewrite E.
  - rewrite tally_ready by (unfold count in *; by rewrite Hp). by setoid_rewrite Hp.
  - apply Hsh. unfold healthPosts. rewrite !elem_of_app. right; left. by right; left.
  - done.
  - apply Sorted_merge_sort, _.
  - apply Hsh. unfold healthPosts. rewrite !elem_of_app. right; left. by left.
  - unfold sourceFields. destruct (tally rows) as [[? ?] ?]. reflexivity.
Qed.
End Ready.

(** ** What the application posted is what clients read *)

Section View.
Context {V : Type} {HV : PvxsValue V} {HS : SharedPV V} {HT : PvxsTypes V}.
Implicit Types (a : Admin V) (n : AdminNamespace).

(** A call of the application or a put of a client. *)
Inductive call :=
| CallGeneration (generation : Z) | CallStatus (status : string) | CallError (error : string) | CallPvCount (count : Z)
| CallLastDiff (diff : string) | CallReload (status : ReloadStatus) (durationMs : spec_float)
| CallOther (l : list post) | CallPut | CallAccessPut | CallConsume | CallConsumeAccess.

(** On the record App keeps of the last posts. *)
Definition abstractly (c : call) n : AdminNamespace :=
  match c with
  | CallGeneration generation => n <| an_generation := generation |>
  | CallStatus status => n <| an_status := status |>
  | CallError error => n <| an_error := error |>
  | CallPvCount count => n <| an_pvCount := count |>
  | CallLastDiff diff => n <| an_lastDiff := diff |>
  | CallReload status _ => n <| an_reload := status |>
  | CallOther _ => n
  | CallPut => n <| an_reloadRequested := true |>
  | CallAccessPut => n <| an_accessReloadRequested := true |>
  | CallConsume => n <| an_reloadRequested := false |>
  | CallConsumeAccess => n <| an_accessReloadRequested := false |>
  end.

Definition concretely (clock : option (Z * Z)) (c : call) a : option (exn (Admin V)) :=
  match c with
  | CallGeneration generation => Some (runPosts clock a (setGeneration generation))
  | CallStatus status => Some (runPosts clock a (setStatus status))
  | CallError error => Some (runPosts clock a (setError error))
  | CallPvCount count => Some (runPosts clock a (setPvCount count))
  | CallLastDiff diff => Some (runPosts clock a (setLastDiff diff))
  | CallReload status durationMs => Some (runPosts clock a (setReloadStatus status durationMs))
  | CallOther l => Some (runPosts clock a l)
  | CallPut => onReloadPut clock a
  | CallAccessPut => onAccessReloadPut clock a
  | CallConsume => Some (Ret (consumeReloadRequest a).1)
  | CallConsumeAccess => Some (Ret (consumeAccessReloadRequest a).1)
  end.

Definition tracked : list string := ["generation_"; "lastStatus_"; "lastError_"; "pvCount_"; "lastDiff_"; "reloadStatus_"].
(** [CallOther] posts the remaining statuses. *)
Definition callable (c : call) : Prop :=
  match c with CallOther l => setter l /\ Forall (fun x => post_pv x ∉ tracked) l | _ => True end.

(** The two sides after the same calls; the flag says that a reload has been
    reported. *)
Inductive in_step : bool -> AdminNamespace -> Admin V -> Prop :=
| is_new VERSION GIT_REVISION configured clock owner server a :
    Admin_new VERSION GIT_REVISION configured clock = Ret a -> in_step false (AdminNamespace_new owner server) a
| is_call clock c b n a a' :
    in_step b n a -> callable c -> concretely clock c a = Some (Ret a') ->
    in_step (b || match c with CallReload _ _ => true | _ => false end) (abstractly c n) a'.

Record reads (b : bool) n a : Prop := {
  rd_ok : admin_ok a;
  rd_generation : shows (PScalar "generation_" (I64 (i64 (an_generation n)))) a;
  rd_status : shows (PScalar "lastStatus_" (FString (an_status n))) a;
  rd_error : shows (PScalar "lastError_" (FString (an_error n))) a;
  rd_pvCount : shows (PScalar "pvCount_" (I64 (i64 (an_pvCount n)))) a;
  rd_lastDiff : shows (PScalar "lastDiff_" (FString (an_lastDiff n))) a;
  rd_reload : b = true -> exists durationMs, shows (PFields "reloadStatus_" (reloadFields (an_reload n) durationMs)) a;
  rd_requested : dm_reloadRequested a = an_reloadRequested n;
  rd_accessRequested : dm_accessReloadRequested a = an_accessReloadRequested n;
}.

(** Posts elsewhere leave what is read. *)
Lemma reads_others b n a a' :
  admin_ok a' -> (forall name, name ∈ tracked -> dm_pvs a' !! name = dm_pvs a !! name) ->
  dm_reloadRequested a' = dm_reloadRequested a -> dm_accessReloadRequested a' = dm_accessReloadRequested a ->
  reads b n a -> reads b n a'.
Proof.
  intros Hok Hs H1 H2 []. assert (Hsh : forall x, post_pv x ∈ tracked -> shows x a -> shows x a').
  { intros x Hx. apply shows_lookup. by apply Hs. }
  split; rewrite ?H1, ?H2; try done; [..|intros Hb; destruct (rd_reload0 Hb) as [dur Hd]; exists dur];
    apply Hsh; try done; by apply (bool_decide_unpack _).
Qed.

Lemma reads_new VERSION GIT_REVISION configured clock owner server a :
  Admin_new VERSION GIT_REVISION configured clock = Ret a -> reads false (AdminNamespace_new owner server) a.
Proof.
  intros Hn. destruct (Admin_new_spec (V:=V) VERSION GIT_REVISION configured clock) as (a0 & E & Hok & H1 & H2 & Hall).
  rewrite E in Hn. injection Hn as <-.
  assert (Hsh : forall i o d, openings VERSION GIT_REVISION !! i = Some o -> og_init o = [("value", d)] ->
    shows (PScalar (og_pv o) d) a0).
  { intros i o d Ho%list_elem_of_lookup_2 Hd. destruct (Hall o Ho) as (v & Hv & _ & Hin). exists v. split; [done|].
    by apply Hin. }
  split; try done; [exact (Hsh 15%nat _ _ eq_refl eq_refl)|exact (Hsh 16%nat _ _ eq_refl eq_refl)|
    exact (Hsh 17%nat _ _ eq_refl eq_refl)|exact (Hsh 18%nat _ _ eq_refl eq_refl)|exact (Hsh 0%nat _ _ eq_refl eq_refl)].
Qed.

(** One post to a tracked PV. *)
Lemma reads_post clock a x a' b n :
  reads b n a -> setter [x] -> runPosts clock a [x] = Ret a' ->
  admin_ok a' /\ shows x a' /\ (forall y, post_pv y <> post_pv x -> shows y a -> shows y a') /\
  dm_reloadRequested a' = dm_reloadRequested a /\ dm_accessReloadRequested a' = dm_accessReloadRequested a.
Proof.
  intros Hrd Hl Hr. destruct (setter_ok [x] Hl) as [Ho Hnd].
  destruct (runPosts_spec clock a [x] (rd_ok _ _ _ Hrd) Ho Hnd) as (a0 & E & [Hok Hsh Hot H1 H2 _]).
  rewrite E in Hr. injection Hr as <-. split_and!; try done; [apply Hsh; by left|].
  intros y Hy. apply shows_lookup, Hot. by intros ?%list_elem_of_singleton.
Qed.

(** A put to a command. *)
Lemma reads_bump clock name b n a a' :
  reads b n a -> command name -> bump clock name a = Some (Ret a') -> reads b n a'.
Proof.
  intros Hrd Hc Hb. destruct (bump_spec clock name a (rd_ok _ _ _ Hrd) Hc) as (pv & k & _ & _ & H1 & H2).
  destruct (decide (k = max_i64)) as [E|E]; [by rewrite H1 in Hb|].
  destruct (H2 E) as (pv' & Hb' & Hok & _). rewrite Hb' in Hb. injection Hb as <-.
  apply (reads_others b n a); [done| |done..]. intros t Ht. cbn. apply lookup_insert_ne. intros ->.
  destruct Hc as [->| ->]; vm_compute in Ht; set_solver.
Qed.

Lemma bump_total clock name a :
  admin_ok a -> command name ->
  (exists a', bump clock name a = Some (Ret a')) \/ shows (PScalar name (I64 max_i64)) a /\ bump clock name a = None.
Proof.
  intros Hok Hc. destruct (bump_spec clock name a Hok Hc) as (pv & k & Hpv & Hd & H1 & H2).
  destruct (decide (k = max_i64)) as [->|E]; [right; split; [by exists pv|by apply H1]|].
  destruct (H2 E) as (pv' & Hb & _). left. eauto.
Qed.

Lemma reads_call clock c b n a a' :
  reads b n a -> callable c -> concretely clock c a = Some (Ret a') ->
  reads (b || match c with CallReload _ _ => true | _ => false end) (abstractly c n) a'.
Proof.
  intros Hrd Hc Hr. destruct c as [g|s|s|k|d|r dur|l| | | |]; cbn [concretely abstractly] in *; rewrite ?orb_false_r.
  1-6: injection Hr as Hr;
    (edestruct reads_post as (Hok & Hsh & Hot & H1 & H2); [exact Hrd| |exact Hr|]; [constructor|]);
    destruct Hrd as [_ ? ? ? ? ? Hre ? ?]; split; cbn; try done; try congruence; try (by apply Hot);
    try (by intros Hb; destruct (Hre Hb) as [dur' Hd]; exists dur'; apply Hot).
  - by exists dur.
  - injection Hr as Hr. destruct Hc as [Hl Hun]. destruct (setter_ok l Hl) as [Ho Hnd].
    destruct (runPosts_spec clock a l (rd_ok _ _ _ Hrd) Ho Hnd) as (a0 & E & [Hok _ Hot H1 H2 _]).
    rewrite E in Hr. injection Hr as <-. apply (reads_others b n a); [done| |done..].
    intros name Hn. apply Hot. intros (x & -> & Hx)%list_elem_of_fmap. rewrite Forall_forall in Hun. by apply (Hun x).
  - eapply (reads_bump _ _ b (n <| an_reloadRequested := true |>)); [|by left|exact Hr]. by destruct Hrd.
  - unfold onAccessReloadPut in Hr. destruct (dm_accessConfigured a); [|done].
    eapply (reads_bump _ _ b (n <| an_accessReloadRequested := true |>)); [|by right|exact Hr]. by destruct Hrd.
  - injection Hr as <-. by destruct Hrd.
  - injection Hr as <-. by destruct Hrd.
Qed.

(** C20. What App records of its posts is what clients read: after any sequence of
    updates and puts, the PVs of generation, status, error, count and last
    difference hold the values of the record, the reload status holds, leaf for
    leaf, the last one reported, and a reload is requested exactly when the
    record says so.  Every update returns, and so does every put of a command
    with two exceptions: a put of the access command where access control is
    not configured is refused with an error, and the put of a command whose
    count is the largest 64-bit integer overflows it. *)
Theorem posted_is_read b n a :
  in_step b n a ->
  reads b n a /\
  forall clock c, callable c ->
    (exists a', concretely clock c a = Some (Ret a')) \/
    (c = CallAccessPut /\ dm_accessConfigured a = false /\ concretely clock c a = Some (Throw "access control is disabled")) \/
    (exists name, (c = CallPut /\ name = "reloadCommand_" \/ c = CallAccessPut /\ name = "accessReloadCommand_") /\
       shows (PScalar name (I64 max_i64)) a /\ concretely clock c a = None).
Proof.
  intros Hs. assert (reads b n a) as Hrd.
  { induction Hs; [by eapply reads_new|by eapply reads_call]. }
  split; [done|]. intros clock c Hc. pose proof (rd_ok _ _ _ Hrd) as Hok.
  assert (Hset : forall l, setter l -> exists a', runPosts clock a l = Ret a').
  { intros l Hl. destruct (setter_ok l Hl) as [Ho Hnd]. destruct (runPosts_spec clock a l Hok Ho Hnd) as (a' & E & _). eauto. }
  destruct c as [g|s|s|k|d|r dur|l| | | |]; cbn [concretely].
  1-6: left; edestruct Hset as [a' ->]; [|by eexists]; constructor.
  - left. destruct (Hset l) as [a' ->]; [apply Hc|eauto].
  - destruct (bump_total clock "reloadCommand_" (a <| dm_reloadRequested := true |>)) as [|]; [done|by left|by left|].
    right; right. exists "reloadCommand_". split; [by left|]. done.
  - unfold onAccessReloadPut. destruct (dm_accessConfigured a) eqn:E; cbn [negb]; [|by right; left].
    destruct (bump_total clock "accessReloadCommand_" (a <| dm_accessReloadRequested := true |>)) as [|]; [done|by right|by left|].
    right; right. exists "accessReloadCommand_". split; [by right|]. done.
  - left. eauto.
  - left. eauto.
Qed.
End View.

(** ** A concrete namespace *)

Module AdminDemo.

Definition structure (l : list (string * TypeCode)) : MapValue.t :=
  list_to_map ((fun x => (x.1, (x.2, None, false))) <$> l).

Lemma structure_code l p c : NoDup l.*1 -> (p, c) ∈ l -> v_code (structure l) p = Some c.
Proof.
  intros Hnd Hin. cbn. unfold structure.
  rewrite (elem_of_list_to_map_1 _ p (c, None, false)); [done| |].
  - rewrite <-list_fmap_compose. exact Hnd.
  - apply list_elem_of_fmap. by exists (p, c).
Qed.

Definition scalarLeaves (code : TypeCode) (alarm : bool) : list (string * TypeCode) :=
  [("value", code); ("timeStamp.secondsPastEpoch", TInt64); ("timeStamp.nanoseconds", TInt32); ("timeStamp.userTag", TInt32);
   ("alarm.severity", TInt32); ("alarm.status", TInt32); ("alarm.message", TString); ("display.description", TString)] ++
  if alarm then
    [("valueAlarm.active", TBool); ("valueAlarm.lowAlarmLimit", code); ("valueAlarm.lowWarningLimit", code);
     ("valueAlarm.highWarningLimit", code); ("valueAlarm.highAlarmLimit", code)]
  else [].

#[global] Instance pvxs_types : PvxsTypes MapValue.t.
Proof.
  refine {| tp_create := fun ms => structure (layout ms); tp_scalar := fun code _ _ a _ => structure (scalarLeaves code a);
            tp_convert := fun c d => if bool_decide (natural d = Some c) then Some d else None |}.
  - intros ms p c. apply structure_code.
  - intros code d c a f. apply structure_code; [destruct a; by apply (bool_decide_unpack _); vm_compute|by left].
  - intros code d c a f p Hp.
    assert (exists k, v_code (structure (scalarLeaves code a)) p = Some k) as [k Hk]; [|by rewrite Hk].
    repeat (apply elem_of_cons in Hp as [->|Hp]); [..|by apply not_elem_of_nil in Hp]; destruct a; eexists; reflexivity.
  - intros code d c f p Hp. apply structure_code; [by apply (bool_decide_unpack _); vm_compute|].
    repeat (apply elem_of_cons in Hp as [->|Hp]); [..|by apply not_elem_of_nil in Hp]; cbn; set_solver.
  - intros code d c f. reflexivity.
  - intros c d Hn. by rewrite bool_decide_eq_true_2.
Defined.

Definition admin : Admin MapValue.t :=
  match Admin_new "1" "r" true None with Ret a => a | Throw _ => Build_Admin ∅ false false false end.
Lemma admin_new : Admin_new "1" "r" true None = Ret admin.
Proof. unfold admin. destruct (Admin_new_spec (V:=MapValue.t) "1" "r" true None) as (a & -> & _). done. Qed.
Lemma admin_reached : admin_reach admin.
Proof. eapply ar_new. apply admin_new. Qed.

Definition source (name : string) (ready : bool) : SourceStatus :=
  {| ss_pv := name; ss_backend := ""; ss_key := ""; ss_role := "read"; ss_state := ""; ss_error := ""; ss_inspection := "";
     ss_required := true; ss_valid := ready; ss_fresh := ready; ss_stale := false; ss_ready := ready; ss_staleAfterMs := 0;
     ss_readerProbeMs := 0; ss_lastValidAgeMs := 0; ss_lastValidCursor := ""; ss_lastValidEpoch := 0; ss_invalidSamples := 0;
     ss_staleTransitions := 0; ss_staleCallbacks := 0; ss_reader := SourceHealth.demo_reader |}.

Definition health : Health :=
  {| hl_now := 2000000000; hl_connected := fun _ => true; hl_sources := [[source "B" true]; [source "A" false]];
     hl_operations := OperationQueueStats_default; hl_rpcOperations := None;
     hl_calls := fun _ => {| rc_dispatched := 0; rc_succeeded := 0; rc_failed := 0; rc_invalid := 0; rc_unauthorized := 0 |};
     hl_alarms := {| AlarmWorker.ar_state := "idle"; AlarmWorker.ar_counters := AlarmWorker.Build_AlarmPublisherStatus 0 0 0 0 0 0 0 "";
       AlarmWorker.ar_registrations := 0; AlarmWorker.ar_active := 0; AlarmWorker.ar_pending := 0; AlarmWorker.ar_queued := 0;
       AlarmWorker.ar_reservedBytes := 0; AlarmWorker.ar_peakBytes := 0; AlarmWorker.ar_byteLimit := 0; AlarmWorker.ar_queueLimit := 0 |};
     hl_access := None; hl_stats := NDRuntime.Build_RuntimeStats 0 0 0; hl_grpc := false |}.
Definition config : AppConfig := ConfigDiff.demo_config [].
End AdminDemo.

Lemma diagnostics_current_witness :
  exists a', runPosts None AdminDemo.admin (setStatus "up") = Ret a' /\ (forall x, x ∈ setStatus "up" -> shows x a') /\
    (forall name, name ∉ map post_pv (setStatus "up") -> dm_pvs a' !! name = dm_pvs AdminDemo.admin !! name).
Proof.
  apply (proj2 (diagnostics_current (V:=MapValue.t)) None AdminDemo.admin (setStatus "up") AdminDemo.admin_reached).
  constructor.
Defined.

Lemma ready_pv_truthful_witness :
  exists a' rows ready, pumpHealth None AdminDemo.health (App_new AdminDemo.config) (AdminDemo.admin, 0) = Ret (a', 2000000000) /\
    (ready = true <-> forall s, s ∈ concat (hl_sources AdminDemo.health) -> ss_required s = true -> ss_ready s = true) /\
    shows (PScalar "ready_" (FBool ready)) a' /\
    rows ≡ₚ concat (hl_sources AdminDemo.health) /\ Sorted source_le rows /\
    shows (PFields "sourceStatus_" (sourceFields rows 0 2000000000)) a' /\
    final "ready" (sourceFields rows 0 2000000000) = Some (FBool ready).
Proof.
  apply (ready_pv_truthful None AdminDemo.health (App_new AdminDemo.config) AdminDemo.admin 0 AdminDemo.admin_reached); by vm_compute.
Defined.

(** A status, a failed reload with its report, both commands and a pump that
    takes the first. *)
Definition demo_calls : list call :=
  [CallStatus "up"; CallPut; CallAccessPut; CallReload (an_reload (AdminNamespace_new 0 (app_server AdminDemo.config))) f_zero; CallError "no file"; CallConsume].
Definition called (a : Admin MapValue.t) (c : call) : Admin MapValue.t :=
  match concretely None c a with Some (Ret a') => a' | _ => a end.
Definition returns (a : Admin MapValue.t) (c : call) : bool :=
  match concretely None c a with Some (Ret _) => true | _ => false end.

Lemma called_step b n a c : in_step b n a -> callable c -> returns a c = true ->
  in_step (b || match c with CallReload _ _ => true | _ => false end) (abstractly c n) (called a c).
Proof.
  intros Hs Hc. unfold returns, called. destruct (concretely None c a) as [[a'|]|] eqn:E; try done. intros _. by eapply is_call.
Qed.

Fixpoint all_return (a : Admin MapValue.t) (l : list call) : bool :=
  match l with [] => true | c :: l => returns a c && all_return (called a c) l end.

Lemma called_steps b n a l : in_step b n a -> Forall callable l -> all_return a l = true ->
  in_step (b || existsb (fun c => match c with CallReload _ _ => true | _ => false end) l)
    (fold_left (fun n c => abstractly c n) l n) (fold_left called l a).
Proof.
  revert b n a. induction l as [|c l IH]; intros b n a Hs Hl Hr; cbn; [by rewrite orb_false_r|].
  inversion Hl; subst. cbn in Hr. apply andb_true_iff in Hr as [Hr1 Hr2]. rewrite orb_assoc. apply IH; [by apply called_step|done..].
Qed.

Lemma posted_is_read_witness :
  let n := fold_left (fun n c => abstractly c n) demo_calls (AdminNamespace_new 0 (app_server AdminDemo.config)) in
  an_status n = "up" /\ an_error n = "no file" /\ an_reloadRequested n = false /\ an_accessReloadRequested n = true /\
  reads true n (fold_left called demo_calls AdminDemo.admin).
Proof.
  cbv zeta. split_and!; [reflexivity..|].
  apply (posted_is_read true).
  refine (called_steps false _ _ demo_calls (is_new "1" "r" true None _ _ _ AdminDemo.admin_new) _ _); [by repeat constructor|].
  vm_compute. reflexivity.
Defined.
