(* ===== verification/CNumber.v ===== *)
(** * Numbers in C text

    What src/grpc_bridge.cpp uses of the C library to read numbers from text:
    [strtoll] and [strtoull] with base 0, [strtod] and [strtof], and the two
    functions built on them, [parseInteger] and [parseReal].

    The theorem shows that a number is read back exactly and that only numbers
    of the type's range are accepted. *)

From S2P Require Import Prelude.
From S2P Require Import Floats.
From S2P Require Import Acf.
From Stdlib Require Import Ascii.

Local Open Scope string_scope.
Local Open Scope Z_scope.

(** ** Integers *)

(** A digit of any base up to 16. *)
Definition digit_of (c : ascii) : option Z :=
  let k := ascii_code c in
  if is_digit c then Some (k - 48)
  else if (97 <=? k) && (k <=? 102) then Some (k - 87)
  else if (65 <=? k) && (k <=? 70) then Some (k - 55) else None.
Definition digit_in (base : Z) (c : ascii) : option Z :=
  match digit_of c with Some d => if d <? base then Some d else None | None => None end.

(** The digits of a base: their value, how many, and the rest. *)
Fixpoint scan (base acc : Z) (n : nat) (s : string) : Z * nat * string :=
  match s with
  | EmptyString => (acc, n, s)
  | String c s' => match digit_in base c with Some d => scan base (acc * base + d) (S n) s' | None => (acc, n, s) end
  end.

Definition sign (s : string) : bool * string :=
  match s with
  | String c s' => if Ascii.eqb c "-" then (true, s') else if Ascii.eqb c "+" then (false, s') else (false, s)
  | EmptyString => (false, s)
  end.

(** ["0x"] before a hexadecimal digit, and what follows it. *)
Definition hex_prefix (s : string) : option string :=
  match s with
  | String z (String x s') =>
      if Ascii.eqb z "0" && (Ascii.eqb x "x" || Ascii.eqb x "X") then
        match s' with
        | String c _ => match digit_in 16 c with Some _ => Some s' | None => None end
        | EmptyString => None
        end
      else None
  | _ => None
  end.

(** [strtoll] and [strtoull] with base 0 on text that does not begin with
    white space, before the range is considered: the value and the rest, [None]
    without digits. *)
Definition strtoz (text : string) : option (Z * string) :=
  let '(negative, s) := sign text in
  let result := match hex_prefix s with
                | Some s' => scan 16 0 0 s'
                | None => match s with String c _ => scan (if Ascii.eqb c "0" then 8 else 10) 0 0 s | EmptyString => (0, 0%nat, s) end
                end in
  let '(value, digits, rest) := result in
  if (digits =? 0)%nat then None else Some (if negative then - value else value, rest).

Definition badField {A} (field reason : string) : exn A := Throw (reason +:+ " for field " +:+ field).

Definition starts_badly (text : string) : bool :=
  match text with EmptyString => true | String c _ => isspace c end.
Definition starts_minus (text : string) : bool :=
  match text with EmptyString => false | String c _ => Ascii.eqb c "-" end.

(** [parseInteger<T>] for a [T] of range [lo .. hi]. *)
Definition parseInteger (unsigned : bool) (lo hi : Z) (text field : string) : exn Z :=
  if starts_badly text then badField field "invalid integer"
  else if unsigned && starts_minus text then badField field "negative unsigned integer"
  else
    let erange v := if unsigned then max_u64 <? v else (v <? min_i64) || (max_i64 <? v) in
    match strtoz text with
    | Some (value, EmptyString) =>
        if erange value || (value <? lo) || (hi <? value) then badField field "invalid or out-of-range integer" else Ret value
    | _ => badField field "invalid or out-of-range integer"
    end.

(** ** Real numbers *)

(** Digits of a base with at most one point: the digits as an integer, how many
    there are, how many follow the point, and the rest. *)
Definition mantissa (base : Z) (s : string) : Z * nat * nat * string :=
  let '(whole, n, rest) := scan base 0 0 s in
  match rest with
  | String c rest' =>
      if Ascii.eqb c "." then let '(all, m, rest'') := scan base whole 0 rest' in (all, (n + m)%nat, m, rest'')
      else (whole, n, 0%nat, rest)
  | EmptyString => (whole, n, 0%nat, rest)
  end.

(** An exponent introduced by [e], in either case; it needs a digit. *)
Definition exponent (e E : ascii) (s : string) : Z * string :=
  match s with
  | String c s' =>
      if Ascii.eqb c e || Ascii.eqb c E then
        let '(negative, digits) := sign s' in
        let '(value, n, rest) := scan 10 0 0 digits in
        if (n =? 0)%nat then (0, s) else (if negative then - value else value, rest)
      else (0, s)
  | EmptyString => (0, s)
  end.

(** The value of [num / den * 2 ^ e], rounded to nearest, ties to even. *)
Definition rounded (fm : ffmt) (negative : bool) (num den e : Z) : spec_float :=
  match num, den with
  | Z.pos n, Z.pos d =>
      let '(q, e', l) := SFdiv_core_binary (f_prec fm) (f_emax fm) (Z.pos n) e (Z.pos d) 0 in
      binary_round_aux (f_prec fm) (f_emax fm) negative q e' l
  | _, _ => S754_zero negative
  end.

(** Whether a float is exactly [num / den * 2 ^ e]. *)
Definition exactly (num den e : Z) (x : spec_float) : bool :=
  match x with
  | S754_finite _ m ex =>
      let k := Z.min e ex in Z.pos m * den * 2 ^ (ex - k) =? num * 2 ^ (e - k)
  | S754_zero _ => num =? 0
  | _ => false
  end.

(** [ERANGE]: an overflow, or a subnormal or zero result that is not exact. *)
Definition range_error (fm : ffmt) (num den e : Z) (x : spec_float) : bool :=
  match x with
  | S754_infinity _ => true
  | S754_finite _ m _ => (Z.pos m <? 2 ^ (f_prec fm - 1)) && negb (exactly num den e x)
  | S754_zero _ => negb (num =? 0)
  | S754_nan => false
  end.

(** [strtod] and [strtof]: the value, whether [ERANGE], and the rest.  The
    spellings of infinity and NaN are [None], like text without a number: the
    caller refuses both in the same way. *)
Definition strtor (fm : ffmt) (text : string) : option (spec_float * bool * string) :=
  let '(negative, s) := sign text in
  let result num den e rest :=
    let x := rounded fm negative num den e in Some (x, range_error fm num den e x, rest) in
  let hex := match s with
             | String z (String x s') => if Ascii.eqb z "0" && (Ascii.eqb x "x" || Ascii.eqb x "X") then Some s' else None
             | _ => None
             end in
  let decimal :=
    let '(digits, n, fraction, rest) := mantissa 10 s in
    if (n =? 0)%nat then None
    else let '(e, rest) := exponent "e" "E" rest in
         let e := e - Z.of_nat fraction in
         if 0 <=? e then result (digits * 10 ^ e) 1 0 rest else result digits (10 ^ (- e)) 0 rest in
  match hex with
  | Some s' =>
      let '(digits, n, fraction, rest) := mantissa 16 s' in
      if (n =? 0)%nat then decimal
      else let '(e, rest) := exponent "p" "P" rest in result digits 1 (e - 4 * Z.of_nat fraction) rest
  | None => decimal
  end.

Definition parseReal (fm : ffmt) (text field : string) : exn spec_float :=
  if starts_badly text then badField field "invalid real number"
  else match strtor fm text with
       | Some (value, erange, EmptyString) =>
           if erange || negb (is_finite value) then badField field "invalid or out-of-range real number" else Ret value
       | _ => badField field "invalid or out-of-range real number"
       end.

Example parse_hex : parseInteger false min_i64 max_i64 "-0x1F" "f" = Ret (-31).
Proof. reflexivity. Qed.
Example parse_octal : parseInteger true 0 255 "0377" "f" = Ret 255.
Proof. reflexivity. Qed.
Example parse_octal_digit : parseInteger true 0 255 "089" "f" = Throw "invalid or out-of-range integer for field f".
Proof. reflexivity. Qed.
Example parse_tenth : parseReal binary64 "0.1" "f" = Ret (S754_finite false 7205759403792794 (-56)).
Proof. vm_compute. reflexivity. Qed.
Example parse_hex_real : parseReal binary64 "-0x1.8p3" "f" = Ret (f_of_Z binary64 (-12)).
Proof. vm_compute. reflexivity. Qed.
Example parse_min_subnormal : is_ret (parseReal binary64 "0x1p-1074" "f") = true.
Proof. vm_compute. reflexivity. Qed.
Example parse_underflow : is_ret (parseReal binary64 "1e-400" "f") = false.
Proof. vm_compute. reflexivity. Qed.
Example parse_overflow : is_ret (parseReal binary32 "1e39" "f") = false.
Proof. vm_compute. reflexivity. Qed.

(** ** Reading back *)

Lemma digit_in_10 c : is_digit c = true -> digit_in 10 c = Some (digit_value c).
Proof.
  intros Hd. unfold digit_in, digit_of. rewrite Hd. unfold digit_value, is_digit in *.
  apply andb_true_iff in Hd as [H1%Z.leb_le H2%Z.leb_le].
  by rewrite (proj2 (Z.ltb_lt (ascii_code c - 48) 10)) by lia.
Qed.

Lemma scan_digits acc n s : all_digits s = true -> scan 10 acc n s = (dec_value acc s, (n + String.length s)%nat, "").
Proof.
  revert acc n. induction s as [|c s IH]; intros acc n Hs; cbn; [by rewrite Nat.add_0_r|].
  cbn in Hs. apply andb_true_iff in Hs as [Hc Hs]. rewrite digit_in_10 by done. rewrite IH by done.
  by rewrite Nat.add_succ_r.
Qed.

(** A printed positive number has no leading zero. *)
Lemma pretty_N_go_first x s :
  (0 < x)%N -> exists c s', pretty_N_go x s = String c s' /\ c <> "0"%char /\ is_digit c = true.
Proof.
  revert s. induction (N.lt_wf_0 x) as [x _ IH]; intros s Hx. rewrite pretty_N_go_step by done.
  destruct (decide (0 < x `div` 10)%N) as [Hd|Hd].
  - apply IH; [apply N.div_lt; lia|done].
  - assert (x `div` 10 = 0)%N as E by (apply N.le_0_r, N.nlt_ge, Hd). rewrite E, pretty_N_go_0.
    assert (x < 10)%N as Hs by (by apply N.div_small_iff in E).
    rewrite N.mod_small by done. eexists _, _. split; [done|].
    destruct (pretty_N_char_digit x Hs) as [H1 H2]. split; [|done]. intros Hc. rewrite Hc in H2. change (digit_value "0") with 0 in H2. lia.
Qed.

Lemma to_dec_first z :
  0 < z -> exists c s, to_dec z = String c s /\ c <> "0"%char /\ is_digit c = true.
Proof.
  intros Hz. unfold to_dec. destruct z as [|p|p]; [done| |lia].
  change (pretty (Z.pos p)) with (if decide (N.pos p = 0%N) then "0" else pretty_N_go (N.pos p) "").
  rewrite decide_False by done. by apply pretty_N_go_first.
Qed.

(** Scanning an unsigned decimal number. *)
Lemma strtoz_pos z : 0 <= z -> strtoz (to_dec z) = Some (z, "").
Proof.
  intros Hz. destruct (decide (z = 0)) as [->|Hne]; [reflexivity|].
  destruct (to_dec_first z ltac:(lia)) as (c & s & Hs & Hc & Hd).
  destruct (to_dec_digits z Hz) as (Hv & Ha & _). unfold strtoz, sign. rewrite Hs in *.
  assert (Ascii.eqb c "-" = false) as -> by (apply Ascii.eqb_neq; intros ->; done).
  assert (Ascii.eqb c "+" = false) as -> by (apply Ascii.eqb_neq; intros ->; done).
  assert (Ascii.eqb c "0" = false) as E0 by (by apply Ascii.eqb_neq).
  assert (hex_prefix (String c s) = None) as ->. { unfold hex_prefix. destruct s; [done|]. by rewrite E0. }
  rewrite E0, scan_digits by done. cbn [String.length Nat.add Nat.eqb]. by rewrite Hv.
Qed.

Lemma strtoz_dec z : strtoz (to_dec z) = Some (z, "").
Proof.
  destruct (Z.le_gt_cases 0 z) as [|Hz]; [by apply strtoz_pos|]. destruct z as [|p|p]; [lia|lia|].
  pose proof (strtoz_pos (Z.pos p) ltac:(lia)) as H.
  destruct (to_dec_first (Z.pos p) ltac:(lia)) as (c & s & Hs & Hc & Hd).
  change (to_dec (Z.neg p)) with (String "-" (to_dec (Z.pos p))). unfold strtoz, sign in *. rewrite Hs in *.
  assert (Ascii.eqb c "-" = false) as E1 by (apply Ascii.eqb_neq; intros ->; done).
  assert (Ascii.eqb c "+" = false) as E2 by (apply Ascii.eqb_neq; intros ->; done).
  rewrite E1, E2 in H. change (Ascii.eqb "-" "-") with true. cbn iota in *.
  destruct (match hex_prefix (String c s) with Some s' => scan 16 0 0 s'
    | None => scan (if Ascii.eqb c "0" then 8 else 10) 0 0 (String c s) end) as [[v n] rest].
  destruct (n =? 0)%nat; [done|]. injection H as -> ->. done.
Qed.

(** Integers are read exactly: every number of the type's range is read back
    from its decimal text, a number outside it is refused, and whatever is
    accepted, in decimal, octal or hexadecimal, lies in the range. *)
Theorem parseInteger_exact (unsigned : bool) (lo hi : Z) field :
  (if unsigned then lo = 0 /\ hi <= max_u64 else min_i64 <= lo /\ hi <= max_i64) ->
  (forall z, lo <= z <= hi -> parseInteger unsigned lo hi (to_dec z) field = Ret z) /\
  (forall z, z < lo \/ hi < z -> is_ret (parseInteger unsigned lo hi (to_dec z) field) = false) /\
  (forall text z, parseInteger unsigned lo hi text field = Ret z -> lo <= z <= hi).
Proof.
  intros Hr.
  assert (Hstart : forall z, starts_badly (to_dec z) = false /\ (0 <= z -> starts_minus (to_dec z) = false)).
  { intros z. destruct z as [|p|p]; [done| |by split; [|lia]].
    destruct (to_dec_first (Z.pos p) ltac:(lia)) as (c & s & -> & _ & Hd). cbn. split.
    - destruct (isspace c) eqn:E; [|done]. unfold isspace, is_digit in *. bool_split; lia.
    - intros _. apply Ascii.eqb_neq. intros ->. done. }
  split_and!.
  - intros z Hz. unfold parseInteger. destruct (Hstart z) as [-> Hm]. rewrite strtoz_dec.
    destruct unsigned.
    + rewrite Hm by lia. cbn [andb]. rewrite (proj2 (Z.ltb_ge max_u64 z)), (proj2 (Z.ltb_ge z lo)), (proj2 (Z.ltb_ge hi z)) by lia.
      done.
    + cbn [andb]. rewrite (proj2 (Z.ltb_ge z min_i64)), (proj2 (Z.ltb_ge max_i64 z)), (proj2 (Z.ltb_ge z lo)),
        (proj2 (Z.ltb_ge hi z)) by lia. done.
  - intros z Hz. unfold parseInteger. destruct (Hstart z) as [-> _]. rewrite strtoz_dec.
    destruct (unsigned && starts_minus (to_dec z)); [done|].
    assert ((z <? lo) || (hi <? z) = true) as E.
    { destruct Hz; [by rewrite (proj2 (Z.ltb_lt z lo))|by rewrite (proj2 (Z.ltb_lt hi z)), orb_true_r]. }
    by rewrite <-orb_assoc, E, orb_true_r.
  - intros text z. unfold parseInteger. destruct (starts_badly text); [done|].
    destruct (unsigned && starts_minus text); [done|]. destruct (strtoz text) as [[v []]|]; try done.
    destruct (_ || (v <? lo) || (hi <? v)) eqn:E; [done|]. intros [= <-]. bool_split. lia.
Qed.

Lemma parseInteger_exact_witness :
  parseInteger false (-128) 127 "-128" "f" = Ret (-128) /\ is_ret (parseInteger false (-128) 127 "128" "f") = false.
Proof.
  destruct (parseInteger_exact false (-128) 127 "f") as (H1 & H2 & _); [by vm_compute|].
  split; [apply (H1 (-128)); lia|apply (H2 128); lia].
Defined.
