(* ===== verification/CNumberSpec.v ===== *)
(** * What a number in C text means

    A grammar of the numbers that src/grpc_bridge.cpp accepts, with the value of
    each text as an integer or an exact rational, and what it means for a
    floating-point number to be the one nearest to a rational.

    The lemmas show that [parseInteger] accepts exactly the texts of the grammar
    whose value is in the range of the type, and that [parseReal] accepts only
    texts of the grammar and returns a float nearest to their value. *)

From S2P Require Import Prelude.
From S2P Require Import Floats.
From S2P Require Import Acf.
From S2P Require Import CNumber.
From Stdlib Require Import Ascii QArith Qabs Qpower Lqa.

Local Open Scope string_scope.
Local Open Scope list_scope.
Local Open Scope Z_scope.

(** ** Digits *)

(** The character [c] is the digit [d], in either case. *)
Definition hexdigit (c : ascii) (d : Z) : Prop :=
  0 <= d /\ (String.get (Z.to_nat d) "0123456789abcdef" = Some c \/ String.get (Z.to_nat d) "0123456789ABCDEF" = Some c).

(** Text made of digits of a base, and the digits, the most significant first. *)
Inductive numeral (base : Z) : list Z -> string -> Prop :=
  | num_nil : numeral base [] ""
  | num_cons c d ds s : hexdigit c d -> d < base -> numeral base ds s -> numeral base (d :: ds) (String c s).

Fixpoint positional (base : Z) (ds : list Z) : Z :=
  match ds with [] => 0 | d :: ds => d * base ^ Z.of_nat (length ds) + positional base ds end.

(** An optional sign before text of [P]. *)
Inductive signed {A} (P : string -> A -> Prop) : bool -> string -> A -> Prop :=
  | sg_none s x : P s x -> signed P false s x
  | sg_plus s x : P s x -> signed P false (String "+" s) x
  | sg_minus s x : P s x -> signed P true (String "-" s) x.

(** ** Integers *)

(** Hexadecimal after [0x], octal after [0], decimal otherwise. *)
Inductive c_natural : string -> Z -> Prop :=
  | cn_hex x d ds s : x = "x"%char \/ x = "X"%char -> numeral 16 (d :: ds) s ->
      c_natural (String "0" (String x s)) (positional 16 (d :: ds))
  | cn_oct ds s : numeral 8 ds s -> c_natural (String "0" s) (positional 8 ds)
  | cn_dec d ds s : d <> 0 -> numeral 10 (d :: ds) s -> c_natural s (positional 10 (d :: ds)).

(** The text of the integer [z] of a type of range [lo .. hi]. *)
Definition integer_text (unsigned : bool) (lo hi : Z) (text : string) (z : Z) : Prop :=
  exists negative n, signed c_natural negative text n /\ z = (if negative then - n else n) /\
    lo <= z <= hi /\ (unsigned = true -> negative = false).

(** ** Real numbers *)

Definition decimal (s : string) (n : Z) : Prop := exists d ds, numeral 10 (d :: ds) s /\ n = positional 10 (d :: ds).

(** Digits with at most one point, and how many follow the point. *)
Inductive point_digits (base : Z) : list Z -> nat -> string -> Prop :=
  | pd_whole ds s : numeral base ds s -> point_digits base ds 0 s
  | pd_point ds fs s t : numeral base ds s -> numeral base fs t -> point_digits base (ds ++ fs) (length fs) (s +:+ String "." t).

Inductive power (e E : ascii) : string -> Z -> Prop :=
  | pw_none : power e E "" 0
  | pw_some c s negative n : c = e \/ c = E -> signed decimal negative s n -> power e E (String c s) (if negative then - n else n).

(** A number without its sign and its exact value. *)
Inductive c_magnitude : string -> Q -> Prop :=
  | cm_dec d ds fraction s t e : point_digits 10 (d :: ds) fraction s -> power "e" "E" t e ->
      c_magnitude (s +:+ t) (inject_Z (positional 10 (d :: ds)) * inject_Z 10 ^ (e - Z.of_nat fraction))
  | cm_hex x d ds fraction s t e : x = "x"%char \/ x = "X"%char -> point_digits 16 (d :: ds) fraction s -> power "p" "P" t e ->
      c_magnitude (String "0" (String x (s +:+ t))) (inject_Z (positional 16 (d :: ds)) * inject_Z 2 ^ (e - 4 * Z.of_nat fraction)).

(** The exact value of a finite float. *)
Definition f_value (x : spec_float) : Q :=
  match x with
  | S754_finite s m e => inject_Z (if s then Z.neg m else Z.pos m) * inject_Z 2 ^ e
  | _ => 0
  end.
Definition is_negative (x : spec_float) : bool :=
  match x with S754_zero s | S754_infinity s | S754_finite s _ _ => s | S754_nan => false end.

Definition is_float (fm : ffmt) (x : spec_float) : Prop :=
  is_finite x = true /\ valid_binary (f_prec fm) (f_emax fm) x = true.

(** No float of the format is nearer to [q]. *)
Definition nearest (fm : ffmt) (q : Q) (x : spec_float) : Prop :=
  is_float fm x /\ forall y, is_float fm y -> (Qabs (f_value x - q) <= Qabs (f_value y - q))%Q.

(** The mantissa has all its bits. *)
Definition full_precision (fm : ffmt) (x : spec_float) : Prop :=
  match x with S754_finite _ m _ => 2 ^ (f_prec fm - 1) <= Z.pos m | _ => False end.

(** The text of a real number and the float it is read as: of the same sign,
    nearest in magnitude, and exact where the format loses precision. *)
Definition real_text (fm : ffmt) (text : string) (x : spec_float) : Prop :=
  exists negative q, signed c_magnitude negative text q /\ is_negative x = negative /\
    nearest fm q (fabs x) /\ (full_precision fm x \/ (f_value (fabs x) == q)%Q).

(** ** Scanning digits *)

Lemma hexdigit_of c d : digit_of c = Some d <-> hexdigit c d.
Proof.
  unfold hexdigit. split.
  - destruct c as [[] [] [] [] [] [] [] []]; vm_compute; intros [= <-]; (split; [done|]); auto.
  - intros [Hd Hg]. assert (d < 16).
    { apply Z.nle_gt. intros Hle. assert (Hn : (16 <= Z.to_nat d)%nat) by lia. revert Hg. generalize (Z.to_nat d), Hn.
      intros n Hn'. do 16 (destruct n as [|n]; [lia|]). cbn. by intros []. }
    rewrite <-(Z2Nat.id d) by done. revert Hg. assert (Hn : (Z.to_nat d < 16)%nat) by lia.
    generalize (Z.to_nat d), Hn. clear. intros n Hn.
    do 16 (destruct n as [|n]; [cbn; by intros [[= <-]|[= <-]]|]). lia.
Qed.

Lemma digit_in_Some base c d : digit_in base c = Some d <-> hexdigit c d /\ d < base.
Proof.
  rewrite <-hexdigit_of. unfold digit_in. destruct (digit_of c) as [d'|]; [|by split; [|intros []]].
  destruct (Z.ltb_spec d' base); split; [by intros [= <-]|by intros [[= <-] _]|done|intros [[= <-] ?]; lia].
Qed.

Lemma scan_numeral base ds s acc n rest :
  numeral base ds s -> match rest with String c _ => digit_in base c = None | EmptyString => True end ->
  scan base acc n (s +:+ rest) = (acc * base ^ Z.of_nat (length ds) + positional base ds, (n + length ds)%nat, rest).
Proof.
  intros Hs Hr. revert acc n. induction Hs as [|c d ds s H1 H2 Hs IH]; intros acc n.
  - cbn. rewrite Z.mul_1_r, Z.add_0_r, Nat.add_0_r. change ("" +:+ rest) with rest. destruct rest as [|c rest]; [done|]. cbn [scan]. by rewrite Hr.
  - rewrite str_app_cons. cbn [scan]. rewrite (proj2 (digit_in_Some base c d)) by done. rewrite IH. cbn [length positional].
    f_equal; [f_equal; [|lia]]. rewrite Nat2Z.inj_succ, Z.pow_succ_r by lia. ring.
Qed.

Lemma scan_Some base acc n s v n' rest :
  scan base acc n s = (v, n', rest) ->
  exists ds t, s = t +:+ rest /\ numeral base ds t /\ n' = (n + length ds)%nat /\
    v = acc * base ^ Z.of_nat (length ds) + positional base ds.
Proof.
  revert acc n. induction s as [|c s IH]; intros acc n; cbn [scan].
  - intros [= <- <- <-]. exists [], "". split_and!; [done|constructor|cbn; lia|cbn; lia].
  - destruct (digit_in base c) as [d|] eqn:Hd.
    + intros (ds & t & -> & Ht & -> & ->)%IH. apply digit_in_Some in Hd as [H1 H2].
      exists (d :: ds), (String c t). split_and!; [done|by constructor|cbn; lia|].
      cbn [length positional]. rewrite Nat2Z.inj_succ, Z.pow_succ_r by lia. ring.
    + intros [= <- <- <-]. exists [], "". split_and!; [done|constructor|cbn; lia|cbn; lia].
Qed.

(** The scan of a whole text. *)
Lemma scan_all base s v n :
  scan base 0 0 s = (v, n, "") <-> exists ds, numeral base ds s /\ n = length ds /\ v = positional base ds.
Proof.
  split.
  - intros (ds & t & Hs & Ht & -> & ->)%scan_Some. rewrite str_app_nil_r in Hs. subst. by exists ds.
  - intros (ds & Hs & -> & ->). rewrite <-(str_app_nil_r s) at 1. by rewrite (scan_numeral base ds s 0 0 "").
Qed.

Lemma numeral_first base ds c s : numeral base ds (String c s) -> c <> "+"%char /\ c <> "-"%char /\ c <> "x"%char /\ c <> "X"%char /\ isspace c = false.
Proof.
  intros Hn. inversion Hn as [|c' d ds' s' Hd%hexdigit_of _ _]; subst. revert Hd.
  destruct c as [[] [] [] [] [] [] [] []]; vm_compute; intros; split_and!; done.
Qed.

(** ** Integers *)

(** The sign a text begins with. *)
Lemma sign_signed {A} (P : string -> A -> Prop) text negative s x : sign text = (negative, s) -> P s x -> signed P negative text x.
Proof.
  unfold sign. intros Hs H. destruct text as [|c text]; [injection Hs as <- <-; by constructor|].
  destruct (Ascii.eqb_spec c "-") as [->|_]; [injection Hs as <- <-; by constructor|].
  destruct (Ascii.eqb_spec c "+") as [->|_]; injection Hs as <- <-; by constructor.
Qed.

Lemma sign_spec {A} (P : string -> A -> Prop) text x :
  (forall c s y, P (String c s) y -> c <> "+"%char /\ c <> "-"%char) ->
  forall negative, signed P negative text x <-> exists s, sign text = (negative, s) /\ P s x.
Proof.
  intros HP negative. split; [|intros (s & Hs & H); by eapply sign_signed].
  intros [s y H|s y H|s y H]; [|by exists s..]. exists s. split; [|done]. destruct s as [|c s]; [done|].
  destruct (HP _ _ _ H) as [H1 H2]. unfold sign. by rewrite (proj2 (Ascii.eqb_neq _ _) H2), (proj2 (Ascii.eqb_neq _ _) H1).
Qed.

(** The unsigned part of [strtoz]. *)
Definition natural_scan (s : string) : Z * nat * string :=
  match hex_prefix s with
  | Some s' => scan 16 0 0 s'
  | None => match s with String c _ => scan (if Ascii.eqb c "0" then 8 else 10) 0 0 s | EmptyString => (0, 0%nat, s) end
  end.

Lemma hexdigit_0 c : hexdigit c 0 <-> c = "0"%char.
Proof. split; [by intros [_ [[= <-]|[= <-]]]|intros ->; split; [done|by left]]. Qed.

Lemma hex_prefix_digits x s d ds :
  x = "x"%char \/ x = "X"%char -> numeral 16 (d :: ds) s -> hex_prefix (String "0" (String x s)) = Some s.
Proof.
  intros Hx Hs. inversion Hs as [|c' d' ds' s' H1 H2 H3]; subst. cbn [hex_prefix].
  rewrite (proj2 (digit_in_Some 16 c' d)) by done. by destruct Hx as [-> | ->].
Qed.

Lemma hex_prefix_None base ds s : numeral base ds s -> hex_prefix s = None.
Proof.
  intros Hs. destruct s as [|z [|x s]]; [done..|]. inversion Hs as [|c' d' ds' s' _ _ H3]; subst.
  destruct (numeral_first _ _ _ _ H3) as (_ & _ & H1 & H2 & _). cbn [hex_prefix].
  by rewrite (proj2 (Ascii.eqb_neq _ _) H1), (proj2 (Ascii.eqb_neq _ _) H2), andb_false_r.
Qed.

Lemma natural_scan_spec s n :
  (exists k, natural_scan s = (n, k, "") /\ k <> 0%nat) <-> c_natural s n.
Proof.
  unfold natural_scan. split.
  - intros (k & Hk & Hne). destruct (hex_prefix s) as [s'|] eqn:Hh.
    + apply scan_all in Hk as (ds & Hds & -> & ->). destruct ds as [|d ds]; [done|].
      destruct s as [|z [|x s]]; [done..|]. cbn [hex_prefix] in Hh.
      destruct (Ascii.eqb_spec z "0") as [->|]; [|done].
      assert (x = "x"%char \/ x = "X"%char).
      { destruct (Ascii.eqb_spec x "x"); [by left|]. destruct (Ascii.eqb_spec x "X"); [by right|done]. }
      assert (s' = s) as ->; [|by apply cn_hex].
      destruct (true && _); [|done]. destruct s as [|c s]; [done|]. destruct (digit_in 16 c); congruence.
    + destruct s as [|c s]; [by injection Hk as <- <-|]. destruct (Ascii.eqb_spec c "0") as [->|Hc];
        apply scan_all in Hk as (ds & Hds & -> & ->); destruct ds as [|d ds]; [done| |done|];
        inversion Hds as [|c' d' ds' s' H1 H2 H3]; subst.
      * assert (d = 0) as -> by (apply hexdigit_of in H1; by injection H1). cbn [positional]. rewrite Z.mul_0_l. by apply cn_oct.
      * apply cn_dec; [|done]. intros ->. by apply Hc, hexdigit_0.
  - intros [x d ds s' Hx Hs|ds s' Hs|d ds s' Hd Hs].
    + rewrite (hex_prefix_digits x s' d ds) by done. eexists. split; [by apply scan_all; exists (d :: ds)|done].
    + assert (H0 : numeral 8 (0 :: ds) (String "0" s')) by (constructor; [by apply hexdigit_0|lia|done]).
      rewrite (hex_prefix_None _ _ _ H0). exists (S (length ds)). split; [|done]. apply scan_all. by exists (0 :: ds).
    + rewrite (hex_prefix_None _ _ _ Hs). inversion Hs as [|c d' ds' t H1 H2 H3]; subst.
      exists (S (length ds)). split; [|done]. rewrite (proj2 (Ascii.eqb_neq c "0")) by (intros ->; apply hexdigit_of in H1; by injection H1 as <-).
      apply scan_all. by exists (d :: ds).
Qed.

Lemma c_natural_first c s n : c_natural (String c s) n -> c <> "+"%char /\ c <> "-"%char /\ isspace c = false.
Proof.
  inversion 1 as [|?|d ds s' ? Hs]; subst; [done..|]. by destruct (numeral_first _ _ _ _ Hs) as (? & ? & _ & _ & ?).
Qed.

Lemma strtoz_spec text z :
  strtoz text = Some (z, "") <-> exists negative n, signed c_natural negative text n /\ z = (if negative then - n else n).
Proof.
  assert (Hs := fun n => sign_spec c_natural text n ltac:(intros c s m H; by destruct (c_natural_first _ _ _ H) as (? & ? & _))).
  unfold strtoz. destruct (sign text) as [neg s] eqn:Es. fold (natural_scan s).
  destruct (natural_scan s) as [[v k] rest] eqn:En. split.
  - destruct (Nat.eqb_spec k 0); [done|]. intros [= <- ->]. exists neg, v. split; [|done]. apply Hs. exists s. split; [done|].
    apply natural_scan_spec. by exists k.
  - intros (negative & n & (s' & [= <- <-] & Hn)%Hs & ->). apply natural_scan_spec in Hn as (k' & Hk & Hne).
    rewrite Hk in En. injection En as <- <- <-. by destruct (Nat.eqb_spec k' 0).
Qed.

(** Exactly the texts of integers of the type's range are accepted, as the
    integers they denote. *)
Lemma parseInteger_spec (unsigned : bool) lo hi text field z :
  (if unsigned then 0 <= lo /\ hi <= max_u64 else min_i64 <= lo /\ hi <= max_i64) ->
  parseInteger unsigned lo hi text field = Ret z <-> integer_text unsigned lo hi text z.
Proof.
  intros Hr. unfold parseInteger, integer_text. split.
  - destruct (starts_badly text); [done|]. destruct (unsigned && starts_minus text) eqn:Em; [done|].
    destruct (strtoz text) as [[v []]|] eqn:Ev; try done. destruct (_ || (v <? lo) || (hi <? v)) eqn:E; [done|].
    intros [= <-]. apply strtoz_spec in Ev as (negative & n & Hn & ->). exists negative, n. bool_split. split_and!; [done..|lia|lia|].
    intros ->. destruct Hn; [done..|]. cbn in Em. done.
  - intros (negative & n & Hn & Hz & Hb & Hu).
    assert (starts_badly text = false) as ->.
    { destruct Hn as [s x H|s x H|s x H]; [|done..]. destruct s as [|c s]; [inversion H; subst; by inversion H1|].
      by destruct (c_natural_first _ _ _ H) as (_ & _ & ?). }
    assert (unsigned && starts_minus text = false) as ->.
    { destruct unsigned; [|done]. specialize (Hu eq_refl). subst negative. inversion Hn as [s x H|s x H|]; subst; [|done].
      destruct text as [|c s]; [done|]. destruct (c_natural_first _ _ _ H) as (_ & ? & _). cbn. by apply Ascii.eqb_neq. }
    rewrite (proj2 (strtoz_spec text z)) by (by exists negative, n).
    rewrite (proj2 (Z.ltb_ge z lo)), (proj2 (Z.ltb_ge hi z)) by lia. destruct unsigned.
    + by rewrite (proj2 (Z.ltb_ge max_u64 z)) by lia.
    + by rewrite (proj2 (Z.ltb_ge z min_i64)), (proj2 (Z.ltb_ge max_i64 z)) by lia.
Qed.

(** ** Rounding to nearest *)

(** Where [a] lies between the multiples [m * u] and [(m + 1) * u]. *)
Definition located (m u : Z) (l : location) (a : Z) : Prop :=
  match l with
  | loc_Exact => a = m * u
  | loc_Inexact Lt => m * u < a /\ 2 * a < (2 * m + 1) * u
  | loc_Inexact Eq => 2 * a = (2 * m + 1) * u
  | loc_Inexact Gt => (2 * m + 1) * u < 2 * a /\ a < (m + 1) * u
  end.
Definition located_r (r : shr_record) (u a : Z) : Prop := 0 <= shr_m r /\ located (shr_m r) u (loc_of_shr_record r) a.

Lemma located_shr_1 r u a : 0 < u -> located_r r u a -> located_r (shr_1 r) (2 * u) a.
Proof.
  intros Hu. destruct r as [m r s]. unfold located_r. cbn [shr_m]. intros [Hm Hl]. revert Hl.
  destruct m as [|[p|p|]|p]; [| | | |lia]; destruct r, s; cbn -[Z.mul Z.add]; intros Hl; (split; [lia|]);
    rewrite ?(Pos2Z.inj_xI p), ?(Pos2Z.inj_xO p) in Hl; lia.
Qed.

Lemma located_iter p r u a :
  0 < u -> located_r r u a -> located_r (SpecFloat.iter_pos shr_1 p r) (u * 2 ^ Z.pos p) a.
Proof.
  revert r u. induction p as [p IH|p IH|]; intros r u Hu Hl; cbn [SpecFloat.iter_pos].
  - replace (u * 2 ^ Z.pos p~1) with (2 * u * 2 ^ Z.pos p * 2 ^ Z.pos p).
    + apply IH; [nia|]. apply IH; [lia|]. by apply located_shr_1.
    + rewrite (Pos2Z.inj_xI p), Z.pow_add_r, Z.pow_twice_r by lia. ring.
  - replace (u * 2 ^ Z.pos p~0) with (u * 2 ^ Z.pos p * 2 ^ Z.pos p).
    + apply IH; [nia|]. by apply IH.
    + rewrite (Pos2Z.inj_xO p), Z.pow_twice_r by lia. ring.
  - rewrite Z.pow_1_r, Z.mul_comm. by apply located_shr_1.
Qed.

Lemma located_shr r e n u a : 0 < u -> 0 <= n -> located_r r u a -> located_r (shr r e n).1 (u * 2 ^ n) a /\ (shr r e n).2 = e + n.
Proof.
  intros Hu Hn Hl. destruct n as [|p|p]; [|cbn [shr fst snd]|lia].
  - cbn. by rewrite Z.mul_1_r, Z.add_0_r.
  - split; [by apply located_iter|done].
Qed.

Lemma located_record m u l a : 0 <= m -> located m u l a -> located_r (shr_record_of_loc m l) u a.
Proof. intros Hm Hl. by destruct l as [|[]]. Qed.

Lemma located_new q u r : 0 < u -> 0 <= r < u -> located q u (new_location u r) (q * u + r).
Proof.
  intros Hu Hr. unfold new_location. destruct (Z.even u) eqn:Ev.
  - unfold new_location_even. destruct (Z.eqb_spec r 0); [cbn; lia|]. destruct (Z.compare_spec (2 * r) u); cbn; lia.
  - unfold new_location_odd. destruct (Z.eqb_spec r 0); [cbn; lia|].
    assert (2 * r <> u) by (intros <-; by rewrite Z.even_mul in Ev).
    destruct (Z.compare_spec (2 * r + 1) u); cbn; lia.
Qed.

(** The bounds of a located number, and its rounding. *)
Lemma located_bounds m u l a : 0 < u -> located m u l a -> m * u <= a < (m + 1) * u.
Proof. intros Hu. destruct l as [|[]]; cbn; lia. Qed.

Lemma located_round m u l a :
  0 < u -> located m u l a -> m <= round_nearest_even m l <= m + 1 /\ Z.abs (2 * a - 2 * (round_nearest_even m l * u)) <= u.
Proof. intros Hu. destruct l as [|[]]; cbn; [lia| |lia..]. destruct (Z.even m); lia. Qed.

Lemma digits2_bounds p : 2 ^ (Z.pos (digits2_pos p) - 1) <= Z.pos p < 2 ^ Z.pos (digits2_pos p).
Proof.
  induction p as [p IH|p IH|]; cbn [digits2_pos]; [| |done];
    rewrite Pos2Z.inj_succ; replace (Z.succ (Z.pos (digits2_pos p)) - 1) with (Z.succ (Z.pos (digits2_pos p) - 1)) by lia;
    rewrite !Z.pow_succ_r by lia; lia.
Qed.

Lemma Zdigits2_le m k : 0 <= m -> 0 <= k -> Zdigits2 m <= k <-> m < 2 ^ k.
Proof.
  intros Hm Hk. destruct m as [|p|p]; [|cbn [Zdigits2]|lia]; [split; [intros _; lia|done]|].
  pose proof (digits2_bounds p) as [H1 H2]. split; intros H.
  - pose proof (Z.pow_le_mono_r 2 _ _ ltac:(lia) H). lia.
  - apply Z.nlt_ge. intros Hlt. pose proof (Z.pow_le_mono_r 2 k (Z.pos (digits2_pos p) - 1) ltac:(lia) ltac:(lia)). lia.
Qed.
Lemma Zdigits2_nonneg m : 0 <= Zdigits2 m.
Proof. by destruct m. Qed.

Section rounding.
Context (fm : ffmt) (Hprec : 1 < f_prec fm).
Notation prec := (f_prec fm).
Notation emin' := (emin (f_prec fm) (f_emax fm)).
Notation fexp' := (fexp (f_prec fm) (f_emax fm)).

(** The first shift leaves a mantissa that fits, and no smaller than it must be. *)
Lemma first_shift q e u l a :
  0 < u -> 0 <= q -> located q u l a -> e <= fexp' (Zdigits2 q + e) ->
  exists n, 0 <= n /\ (shr_fexp prec (f_emax fm) q e l).2 = e + n /\
    located_r (shr_fexp prec (f_emax fm) q e l).1 (u * 2 ^ n) a /\ emin' <= e + n /\
    a < 2 ^ prec * (u * 2 ^ n) /\ (e + n = emin' \/ 2 ^ (prec - 1) * (u * 2 ^ n) <= a).
Proof.
  intros Hu Hq Hl He. set (n := fexp' (Zdigits2 q + e) - e). exists n. assert (0 <= n) as Hn by lia.
  destruct (located_shr _ e n u a Hu Hn (located_record _ _ _ _ Hq Hl)) as [H1 H2].
  pose proof (located_bounds _ _ _ _ Hu Hl) as Hb. pose proof (Zdigits2_nonneg q) as Hd.
  assert (q + 1 <= 2 ^ Zdigits2 q) by (apply Zlt_le_succ, Zdigits2_le; lia).
  assert (Hf : Zdigits2 q <= prec + n /\ emin' <= e + n /\ (e + n = emin' \/ n = Zdigits2 q - prec)).
  { subst n. unfold fexp. lia. }
  destruct Hf as (Hf & Hm & Hc). split_and!; [done..| |].
  - pose proof (Z.pow_le_mono_r 2 _ _ ltac:(lia) Hf) as Hp. rewrite Z.pow_add_r in Hp by lia. nia.
  - destruct Hc as [Hc|Hc]; [by left|right].
    assert (2 ^ (Zdigits2 q - 1) <= q) by (apply Z.nlt_ge; intros Hlt%Zdigits2_le; lia).
    assert (2 ^ (prec - 1) * 2 ^ n = 2 ^ (Zdigits2 q - 1)) by (rewrite <-Z.pow_add_r by lia; f_equal; lia). nia.
Qed.

(** The second shift of [binary_round_aux] only undoes a carry. *)
Lemma second_shift m e :
  0 <= m <= 2 ^ prec -> emin' <= e ->
  let r := shr_fexp prec (f_emax fm) m e loc_Exact in
  (m < 2 ^ prec /\ shr_m r.1 = m /\ r.2 = e) \/ (m = 2 ^ prec /\ shr_m r.1 = 2 ^ (prec - 1) /\ r.2 = e + 1).
Proof.
  intros Hm He r. destruct (decide (m < 2 ^ prec)) as [Hlt|Hge]; [left|right].
  - apply Zdigits2_le in Hlt as Hd; [|lia..]. subst r. unfold shr_fexp, shr.
    assert (fexp' (Zdigits2 m + e) - e <= 0) by (unfold fexp; lia).
    destruct (fexp' (Zdigits2 m + e) - e); [done| |done]. lia.
  - assert (m = 2 ^ prec) as -> by lia. split; [done|].
    assert (Hd : Zdigits2 (2 ^ prec) = prec + 1).
    { apply Z.le_antisymm; [apply Zdigits2_le; [lia..|apply Z.pow_lt_mono_r; lia]|].
      apply Z.nlt_ge. intros Hlt. assert (Zdigits2 (2 ^ prec) <= prec) as H%Zdigits2_le by lia; lia. }
    subst r. unfold shr_fexp. rewrite Hd. replace (fexp' (prec + 1 + e) - e) with 1 by (unfold fexp; lia).
    cbn [shr fst snd SpecFloat.iter_pos shr_record_of_loc]. split; [|done].
    replace (2 ^ prec) with (2 * 2 ^ (prec - 1)) by (rewrite <-Z.pow_succ_r by lia; f_equal; lia).
    pose proof (Z.pow_pos_nonneg 2 (prec - 1) ltac:(lia) ltac:(lia)). by destruct (2 ^ (prec - 1)).
Qed.

(** A mantissa of full precision, or at the least exponent, is canonical. *)
Lemma canonical_of m e :
  Z.pos m < 2 ^ prec -> emin' <= e -> e = emin' \/ 2 ^ (prec - 1) <= Z.pos m -> canonical_mantissa prec (f_emax fm) m e = true.
Proof.
  intros Hm He Hc. unfold canonical_mantissa. apply Z.eqb_eq. change (Z.pos (digits2_pos m)) with (Zdigits2 (Z.pos m)).
  apply Zdigits2_le in Hm; [|lia..]. unfold fexp. destruct Hc as [-> |Hc]; [lia|].
  assert (prec <= Zdigits2 (Z.pos m)); [|lia]. apply Z.nlt_ge. intros Hlt.
  assert (Zdigits2 (Z.pos m) <= prec - 1) as H%Zdigits2_le by lia; lia.
Qed.

Lemma pow2_pos e : (0 < inject_Z 2 ^ e)%Q.
Proof. clear Hprec. by apply Qpower_0_lt. Qed.
Lemma pow2_plus e n : 0 <= n -> (inject_Z 2 ^ (e + n) == inject_Z (2 ^ n) * inject_Z 2 ^ e)%Q.
Proof. clear Hprec. intros Hn. rewrite Qpower_plus, Zpower_Qpower by done. ring. Qed.

(** The rounding of [a], in units of [2 ^ e / u]: a multiple of a larger unit
    at most half of it away. *)
Lemma round_aux_spec s q e u l a :
  0 < u -> 0 <= q -> located q u l a -> e <= fexp' (Zdigits2 q + e) ->
  let x := binary_round_aux prec (f_emax fm) s q e l in is_finite x = true ->
  is_float fm x /\ is_negative x = s /\
  exists n m, 0 <= n /\ Z.abs (2 * a - 2 * (m * (u * 2 ^ n))) <= u * 2 ^ n /\ emin' <= e + n /\
    (e + n = emin' \/ 2 ^ (prec - 1) * (u * 2 ^ n) <= a) /\ (f_value (fabs x) == inject_Z m * inject_Z 2 ^ (e + n))%Q.
Proof using Hprec.
  intros Hu Hq Hl He. cbn zeta. destruct (first_shift q e u l a Hu Hq Hl He) as (n & Hn & H2 & [Hm1 H1] & Hmin & Hup & Hlow).
  unfold binary_round_aux. destruct (shr_fexp _ _ q e l) as [r1 e1]. cbn [fst snd] in *. subst e1.
  assert (0 < u * 2 ^ n) as HU by (apply Z.mul_pos_pos; lia). set (U := u * 2 ^ n) in *.
  pose proof (located_bounds _ _ _ _ HU H1) as Hb. destruct (located_round _ _ _ _ HU H1) as [Hm2 Habs].
  set (m2 := round_nearest_even _ _) in *. assert (shr_m r1 < 2 ^ prec) by nia.
  assert (Hfull : e + n = emin' \/ 2 ^ (prec - 1) <= m2) by (destruct Hlow as [?|Hlow]; [by left|right; nia]).
  pose proof (Z.pow_pos_nonneg 2 (prec - 1) ltac:(lia) ltac:(lia)) as Hpp.
  assert (Hpe : 2 ^ prec = 2 * 2 ^ (prec - 1)) by (rewrite <-Z.pow_succ_r by lia; f_equal; lia).
  assert (Hval : forall r e2, shr_fexp prec (f_emax fm) m2 (e + n) loc_Exact = (r, e2) ->
    0 <= shr_m r /\ shr_m r < 2 ^ prec /\ emin' <= e2 /\ (e2 = emin' \/ 2 ^ (prec - 1) <= shr_m r) /\
    (inject_Z (shr_m r) * inject_Z 2 ^ e2 == inject_Z m2 * inject_Z 2 ^ (e + n))%Q).
  { intros r e2 E. pose proof (second_shift m2 (e + n) ltac:(lia) Hmin) as Hs. rewrite E in Hs. cbn [fst snd] in Hs.
    destruct Hs as [(? & -> & ->)|(-> & -> & ->)]; [by split_and!; [lia|..]|]. split_and!; [lia..|by right|].
    rewrite Hpe, (pow2_plus (e + n) 1), inject_Z_mult, Z.pow_1_r by done. ring. }
  destruct (shr_fexp _ _ m2 (e + n) loc_Exact) as [r e2]. destruct (Hval r e2 eq_refl) as (Hr0 & Hr1 & Hr2 & Hr3 & Hr4). clear Hval.
  destruct (shr_m r) as [|p|p]; [| |lia].
  - intros _. split; [done|]. split; [done|]. exists n, m2. split_and!; [done..|]. rewrite <-Hr4. cbn. ring.
  - destruct (Z.leb_spec e2 (f_emax fm - prec)) as [Hmax|]; [|done]. intros _. split_and!; [|done|].
    + split; [done|]. cbn. unfold bounded. by rewrite (canonical_of p e2), (proj2 (Z.leb_le _ _) Hmax).
    + exists n, m2. by split_and!.
Qed.

(** No multiple of the unit is nearer than one at most half the unit away. *)
Lemma grid_nearest a m k U : Z.abs (2 * a - 2 * (m * U)) <= U -> Z.abs (m * U - a) <= Z.abs (k * U - a).
Proof. clear Hprec. intros H. destruct (Z.lt_trichotomy k m) as [|[->|]]; [nia|lia|nia]. Qed.

(** Every float is a multiple of the unit or below the numbers that need it. *)
Lemma float_on_grid y e : is_float fm y ->
  (exists k, (f_value y == inject_Z k * inject_Z 2 ^ e)%Q) \/
  (emin' < e /\ (f_value y <= inject_Z (2 ^ (prec - 1)) * inject_Z 2 ^ e)%Q).
Proof using Hprec.
  intros [Hf Hv]. destruct y as [s|s| |s m ey]; try done; [left; exists 0; cbn; ring|]. cbn [f_value].
  cbn in Hv. unfold bounded, canonical_mantissa in Hv. apply andb_true_iff in Hv as [Hc%Z.eqb_eq _].
  assert (emin' <= ey /\ Zdigits2 (Z.pos m) <= prec) as [Hmin Hd%Zdigits2_le] by (cbn [Zdigits2]; unfold fexp in Hc; lia); [|lia..].
  destruct (Z.le_gt_cases e ey) as [Hle|Hgt]; [left|right].
  - exists ((if s then Z.neg m else Z.pos m) * 2 ^ (ey - e)). replace ey with (e + (ey - e)) at 1 by lia.
    rewrite pow2_plus, inject_Z_mult by lia. ring.
  - split; [lia|]. pose proof (pow2_pos ey) as Hy. pose proof (pow2_pos e) as He.
    assert (Hme : (inject_Z (Z.pos m) <= inject_Z (2 ^ (prec - 1)) * inject_Z (2 ^ (e - ey)))%Q).
    { rewrite <-inject_Z_mult, <-Zle_Qle, <-Z.pow_add_r by lia.
      pose proof (Z.pow_le_mono_r 2 prec (prec - 1 + (e - ey)) ltac:(lia) ltac:(lia)). lia. }
    replace e with (ey + (e - ey)) at 1 by lia. rewrite pow2_plus by lia.
    assert (inject_Z (if s then Z.neg m else Z.pos m) <= inject_Z (Z.pos m))%Q as Hs by (rewrite <-Zle_Qle; destruct s; lia).
    apply (Qle_trans _ (inject_Z (Z.pos m) * inject_Z 2 ^ ey)); [by apply Qmult_le_r|].
    rewrite Qmult_assoc. by apply Qmult_le_r.
Qed.

Lemma Qabs_scaled k a U t w : (0 < t)%Q -> (w == inject_Z (k * U) * t)%Q -> (Qabs (w - inject_Z a * t) == inject_Z (Z.abs (k * U - a)) * t)%Q.
Proof.
  clear Hprec. intros Ht Hw. assert (w - inject_Z a * t == inject_Z (k * U - a) * t)%Q as ->.
  - rewrite Hw. unfold Zminus. rewrite inject_Z_plus, inject_Z_opp. ring.
  - rewrite Qabs_Qmult, (Qabs_pos t) by (by apply Qlt_le_weak). reflexivity.
Qed.

(** The nearest float, in units of [t]. *)
Lemma nearest_of a U t e m x :
  0 <= a -> 0 < U -> (0 < t)%Q -> (inject_Z 2 ^ e == inject_Z U * t)%Q ->
  is_float fm x -> (f_value x == inject_Z m * inject_Z 2 ^ e)%Q ->
  Z.abs (2 * a - 2 * (m * U)) <= U -> emin' <= e -> e = emin' \/ 2 ^ (prec - 1) * U <= a ->
  nearest fm (inject_Z a * t) x.
Proof using Hprec.
  intros Ha HU Ht Hunit Hx Hv Hm Hmin Hlow. split; [done|]. intros y Hy.
  assert (Hgrid : forall k w, (w == inject_Z k * inject_Z 2 ^ e)%Q ->
    (Qabs (f_value x - inject_Z a * t) <= Qabs (w - inject_Z a * t))%Q).
  { intros k w Hw. rewrite (Qabs_scaled m a U t), (Qabs_scaled k a U t);
      [|done|by rewrite Hw, Hunit, inject_Z_mult; ring|done|by rewrite Hv, Hunit, inject_Z_mult; ring].
    apply Qmult_le_r; [done|]. rewrite <-Zle_Qle. by apply grid_nearest. }
  destruct (float_on_grid y e Hy) as [[k Hk]|[He Hk]]; [by apply (Hgrid k)|].
  destruct Hlow as [->|Hlow]; [lia|]. eapply Qle_trans; [apply (Hgrid (2 ^ (prec - 1))); reflexivity|].
  assert (inject_Z (2 ^ (prec - 1)) * inject_Z 2 ^ e <= inject_Z a * t)%Q.
  { rewrite Hunit, Qmult_assoc, <-inject_Z_mult. apply Qmult_le_r; [done|]. by rewrite <-Zle_Qle. }
  rewrite !Qabs_neg by lra. lra.
Qed.

(** The quotient that is rounded: enough bits of it, and where the rest lies. *)
Lemma div_core_spec n e d q e' l :
  SFdiv_core_binary prec (f_emax fm) (Z.pos n) e (Z.pos d) 0 = (q, e', l) ->
  e' <= e /\ 0 <= q /\ located q (Z.pos d) l (Z.pos n * 2 ^ (e - e')) /\ e' <= fexp' (Zdigits2 q + e').
Proof using Hprec.
  unfold SFdiv_core_binary. set (dn := Zdigits2 (Z.pos n)). set (dd := Zdigits2 (Z.pos d)).
  rewrite Z.add_0_r, Z.sub_0_r. set (f := Z.min _ e).
  assert (Hm : match e - f with 0 => Z.pos n | Z.pos _ => Z.shiftl (Z.pos n) (e - f) | Z.neg _ => 0 end = Z.pos n * 2 ^ (e - f)).
  { assert (0 <= e - f) as Hs by lia. destruct (e - f) eqn:E; [lia|by rewrite Z.shiftl_mul_pow2|lia]. }
  rewrite Hm. set (a := Z.pos n * 2 ^ (e - f)). pose proof (Z_div_mod a (Z.pos d) ltac:(lia)) as Hd.
  destruct (Z.div_eucl a (Z.pos d)) as [q' r']. destruct Hd as [Ha Hr]. intros [= -> <- <-].
  assert (0 < a) by (subst a; apply Z.mul_pos_pos; lia). assert (0 <= q) by nia. split_and!; [lia|done| |].
  - fold a. rewrite Ha, Z.mul_comm. apply located_new; lia.
  - assert (f <= fexp' (dn + e - dd)) as Hf by lia. unfold fexp in *.
    destruct (Z.le_gt_cases f emin') as [|Hgt]; [lia|]. assert (prec <= Zdigits2 q); [|lia].
    apply Z.nlt_ge. intros Hlt. assert (Zdigits2 q <= prec - 1) as Hq%Zdigits2_le by lia; [|lia..].
    pose proof (digits2_bounds n) as [Hn _]. pose proof (digits2_bounds d) as [_ Hdd].
    change (Z.pos (digits2_pos n)) with dn in Hn. change (Z.pos (digits2_pos d)) with dd in Hdd.
    assert (1 <= dn /\ 1 <= dd) by (subst dn dd; cbn; lia).
    assert (2 ^ (dn - 1) * 2 ^ (e - f) <= a) by (subst a; nia).
    assert (2 ^ (dd + (prec - 1)) <= 2 ^ (dn - 1) * 2 ^ (e - f)) by (rewrite <-Z.pow_add_r by lia; apply Z.pow_le_mono_r; lia).
    rewrite Z.pow_add_r in * by lia. nia.
Qed.

(** The exact value that [rounded] approximates. *)
Definition ratio (num den e : Z) : Q := inject_Z num / inject_Z den * inject_Z 2 ^ e.

Lemma ratio_unit num den e e' :
  0 < den -> e' <= e -> (ratio num den e == inject_Z (num * 2 ^ (e - e')) * (inject_Z 2 ^ e' / inject_Z den))%Q.
Proof.
  clear Hprec. intros Hd He. unfold ratio. replace e with (e' + (e - e')) at 1 by lia. rewrite pow2_plus, inject_Z_mult by lia.
  field. intros E. unfold Qeq in E. cbn in E. lia.
Qed.

Lemma nearest_ext q q' x : (q == q')%Q -> nearest fm q x -> nearest fm q' x.
Proof. clear Hprec. intros E [Hx H]. split; [done|]. intros y Hy. rewrite <-E. by apply H. Qed.

Lemma is_float_fabs x : is_float fm x -> is_float fm (fabs x).
Proof. clear Hprec. by destruct x. Qed.

Lemma rounded_nearest negative num den e :
  0 <= num -> 0 < den -> let x := rounded fm negative num den e in is_finite x = true ->
  is_negative x = negative /\ nearest fm (ratio num den e) (fabs x).
Proof using Hprec.
  intros Hn Hd x Hx. subst x. destruct num as [|n|n]; [| |lia]; destruct den as [|d|d]; try lia.
  - cbn. split; [done|]. split; [done|]. intros y _. cbn [f_value]. apply (Qle_trans _ 0); [|apply Qabs_nonneg].
    assert (0 - ratio 0 (Z.pos d) e == 0)%Q as -> by (unfold ratio; change (inject_Z 0) with 0%Q; unfold Qdiv; ring). apply Qle_refl.
  - unfold rounded in *. destruct (SFdiv_core_binary _ _ _ e _ 0) as [[q e'] l] eqn:E.
    apply div_core_spec in E as (He & Hq & Hl & Hf).
    destruct (round_aux_spec negative q e' (Z.pos d) l _ ltac:(lia) Hq Hl Hf Hx) as (H1 & H2 & k & m & Hk & Hm & Hmin & Hlow & Hv).
    split; [done|]. eapply nearest_ext; [symmetry; by apply (ratio_unit _ _ _ e')|].
    eapply (nearest_of _ (Z.pos d * 2 ^ k) _ (e' + k) m); try done.
    + apply Z.mul_nonneg_nonneg; lia.
    + apply Z.mul_pos_pos; lia.
    + apply Qlt_shift_div_l; [done|]. rewrite Qmult_0_l. apply pow2_pos.
    + rewrite pow2_plus, inject_Z_mult by lia. field. done.
    + by apply is_float_fabs.
Qed.

(** Without a range error the float has full precision or is exact. *)
Lemma range_error_spec num den e x :
  0 < den -> is_finite x = true -> range_error fm num den e x = false -> full_precision fm x \/ (f_value (fabs x) == ratio num den e)%Q.
Proof.
  clear Hprec. intros Hd Hx. destruct x as [s|s| |s m ex]; try done; cbn [range_error].
  - intros E%negb_false_iff%Z.eqb_eq. right. subst num. unfold ratio. cbn [fabs SFabs f_value]. change (inject_Z 0) with 0%Q. unfold Qdiv. ring.
  - destruct (Z.ltb_spec (Z.pos m) (2 ^ (prec - 1))) as [_|]; [|by left]. cbn [andb]. intros E%negb_false_iff. right.
    cbn in E. apply Z.eqb_eq in E. set (k := Z.min e ex) in *.
    cbn [fabs SFabs f_value]. rewrite (ratio_unit _ _ _ k) by lia. rewrite <-E. replace ex with (k + (ex - k)) at 1 by lia.
    rewrite pow2_plus, !inject_Z_mult by lia. field. intros E'. unfold Qeq in E'. cbn in E'. lia.
Qed.
End rounding.

(** ** Reading real numbers *)

Lemma numeral_nonneg base ds s : numeral base ds s -> Forall (fun d => 0 <= d) ds.
Proof. induction 1 as [|c d ds s [Hd _] _ _ IH]; by constructor. Qed.
Lemma point_digits_nonneg base ds fraction s : point_digits base ds fraction s -> Forall (fun d => 0 <= d) ds.
Proof. intros [ds' s' H|ds' fs s' t H1 H2]; [|apply Forall_app; split]; by eapply numeral_nonneg. Qed.
Lemma positional_nonneg base ds : 0 < base -> Forall (fun d => 0 <= d) ds -> 0 <= positional base ds.
Proof.
  intros Hb. induction 1 as [|d ds Hd _ IH]; [done|]. cbn [positional].
  pose proof (Z.pow_nonneg base (Z.of_nat (length ds))). nia.
Qed.

Lemma positional_app base ds fs : positional base (ds ++ fs) = positional base ds * base ^ Z.of_nat (length fs) + positional base fs.
Proof.
  induction ds as [|d ds IH]; [done|]. cbn [app positional]. rewrite IH, length_app, Nat2Z.inj_add, Z.pow_add_r by lia. ring.
Qed.

Lemma mantissa_spec base s digits n fraction rest :
  mantissa base s = (digits, n, fraction, rest) ->
  exists ds t, s = t +:+ rest /\ point_digits base ds fraction t /\ n = length ds /\ digits = positional base ds.
Proof.
  unfold mantissa. destruct (scan base 0 0 s) as [[whole k] r] eqn:E1.
  apply scan_Some in E1 as (ds & t & -> & Hds & -> & ->). rewrite Z.mul_0_l, Z.add_0_l.
  assert (Hno : (positional base ds, length ds, 0%nat, r) = (digits, n, fraction, rest) ->
    exists ds' t', t +:+ r = t' +:+ rest /\ point_digits base ds' fraction t' /\ n = length ds' /\ digits = positional base ds').
  { intros [= <- <- <- <-]. exists ds, t. split_and!; [done|by constructor|done..]. }
  destruct r as [|c r]; [done|]. destruct (Ascii.eqb_spec c ".") as [->|]; [|done]. clear Hno.
  destruct (scan base _ 0 r) as [[all m] r'] eqn:E2. apply scan_Some in E2 as (fs & t' & -> & Hfs & -> & ->).
  intros [= <- <- <- <-]. exists (ds ++ fs), (t +:+ String "." t'). split_and!.
  - by rewrite <-str_app_assoc, str_app_cons.
  - by constructor.
  - by rewrite length_app.
  - by rewrite positional_app.
Qed.

Lemma exponent_spec e E s z rest : exponent e E s = (z, rest) -> exists t, s = t +:+ rest /\ power e E t z.
Proof.
  assert (Hno : (0, s) = (z, rest) -> exists t, s = t +:+ rest /\ power e E t z).
  { intros [= <- <-]. exists "". split; [done|constructor]. }
  unfold exponent. destruct s as [|c s]; [done|]. destruct (Ascii.eqb c e || Ascii.eqb c E) eqn:Hc; [|done].
  destruct (sign s) as [negative digits] eqn:Hs. destruct (scan 10 0 0 digits) as [[v n] r] eqn:Hd.
  destruct (Nat.eqb_spec n 0); [done|]. intros [= <- <-]. clear Hno.
  apply scan_Some in Hd as (ds & t & -> & Hds & -> & ->). destruct ds as [|d ds]; [done|].
  assert (c = e \/ c = E) as Hc'.
  { apply orb_true_iff in Hc as [H|H]; apply Ascii.eqb_eq in H; auto. }
  assert (Hdec : decimal t (positional 10 (d :: ds))) by (by exists d, ds). rewrite Z.mul_0_l, Z.add_0_l.
  unfold sign in Hs. destruct s as [|c0 s]; [injection Hs as <- Hs; destruct t; [inversion Hds|done]|].
  destruct (Ascii.eqb_spec c0 "-") as [->|_]; [|destruct (Ascii.eqb_spec c0 "+") as [->|_]]; injection Hs as <- Hs.
  - subst s. exists (String c (String "-" t)). split; [by rewrite !str_app_cons|].
    apply (pw_some e E c _ true); [done|by constructor].
  - subst s. exists (String c (String "+" t)). split; [by rewrite !str_app_cons|].
    apply (pw_some e E c _ false); [done|by constructor].
  - rewrite Hs. exists (String c t). split; [by rewrite str_app_cons|]. apply (pw_some e E c _ false); [done|by constructor].
Qed.

(** The decimal and the hexadecimal branch of [strtor], without the sign. *)
Definition decimal_scan (s : string) : option (Z * Z * Z * string) :=
  let '(digits, n, fraction, rest) := mantissa 10 s in
  if (n =? 0)%nat then None
  else let '(e, rest) := exponent "e" "E" rest in
       let e := e - Z.of_nat fraction in
       Some (if 0 <=? e then (digits * 10 ^ e, 1, 0, rest) else (digits, 10 ^ (- e), 0, rest)).
Definition real_scan (s : string) : option (Z * Z * Z * string) :=
  match s with
  | String z (String x s') =>
      if Ascii.eqb z "0" && (Ascii.eqb x "x" || Ascii.eqb x "X") then
        let '(digits, n, fraction, rest) := mantissa 16 s' in
        if (n =? 0)%nat then decimal_scan s
        else let '(e, rest) := exponent "p" "P" rest in Some (digits, 1, e - 4 * Z.of_nat fraction, rest)
      else decimal_scan s
  | _ => decimal_scan s
  end.

Lemma strtor_scan fm text :
  strtor fm text =
    let '(negative, s) := sign text in
    match real_scan s with
    | Some (num, den, e, rest) =>
        Some (rounded fm negative num den e, range_error fm num den e (rounded fm negative num den e), rest)
    | None => None
    end.
Proof.
  unfold strtor, real_scan, decimal_scan. destruct (sign text) as [negative s].
  assert (Hdec : (let '(digits, n, fraction, rest) := mantissa 10 s in
     if (n =? 0)%nat then None
     else let '(e, rest0) := exponent "e" "E" rest in
          let e0 := e - Z.of_nat fraction in
          if 0 <=? e0 then Some (rounded fm negative (digits * 10 ^ e0) 1 0,
              range_error fm (digits * 10 ^ e0) 1 0 (rounded fm negative (digits * 10 ^ e0) 1 0), rest0)
          else Some (rounded fm negative digits (10 ^ (- e0)) 0,
              range_error fm digits (10 ^ (- e0)) 0 (rounded fm negative digits (10 ^ (- e0)) 0), rest0)) =
    match decimal_scan s with
    | Some (num, den, e, rest) => Some (rounded fm negative num den e, range_error fm num den e (rounded fm negative num den e), rest)
    | None => None
    end).
  { unfold decimal_scan. destruct (mantissa 10 s) as [[[digits n] fraction] rest]. destruct (n =? 0)%nat; [done|].
    destruct (exponent "e" "E" rest) as [e rest0]. cbn zeta. by destruct (0 <=? e - Z.of_nat fraction). }
  cbn zeta in *. destruct s as [|z [|x s]]; [exact Hdec..|]. destruct (_ && _); [|exact Hdec].
  destruct (mantissa 16 s) as [[[digits n] fraction] rest]. destruct (n =? 0)%nat; [exact Hdec|].
  by destruct (exponent "p" "P" rest) as [e rest0].
Qed.

Lemma inject_Z_neq z : z <> 0 -> ~ (inject_Z z == 0)%Q.
Proof. intros Hz E. unfold Qeq in E. cbn in E. lia. Qed.

Lemma decimal_scan_spec s num den e :
  decimal_scan s = Some (num, den, e, "") -> 0 <= num /\ 0 < den /\ exists q, c_magnitude s q /\ (ratio num den e == q)%Q.
Proof.
  unfold decimal_scan. destruct (mantissa 10 s) as [[[digits n] fraction] rest] eqn:Hm.
  apply mantissa_spec in Hm as (ds & t & -> & Ht & -> & ->). destruct ds as [|d ds]; [done|].
  change (length (d :: ds) =? 0)%nat with false. cbn iota.
  destruct (exponent "e" "E" rest) as [k r] eqn:He. apply exponent_spec in He as (t' & -> & Hp). cbn zeta.
  pose proof (positional_nonneg 10 _ ltac:(lia) (point_digits_nonneg _ _ _ _ Ht)) as Hnn.
  pose proof (cm_dec d ds fraction t t' k Ht Hp) as Hc. revert Hnn Hc. generalize (positional 10 (d :: ds)). intros p Hnn Hc.
  set (f := k - Z.of_nat fraction) in *.
  destruct (Z.leb_spec 0 f); intros [= <- <- <- ->]; rewrite str_app_nil_r.
  - split; [apply Z.mul_nonneg_nonneg; [done|by apply Z.pow_nonneg]|]. split; [done|]. eexists. split; [exact Hc|].
    unfold ratio. rewrite inject_Z_mult, Zpower_Qpower by done. change (inject_Z 1) with 1%Q. change (inject_Z 2 ^ 0)%Q with 1%Q. field.
  - split; [done|]. split; [by apply Z.pow_pos_nonneg; lia|]. eexists. split; [exact Hc|]. unfold ratio.
    rewrite <-(Z.opp_involutive f) at 2. change (inject_Z 2 ^ 0)%Q with 1%Q.
    rewrite Qpower_opp, <-(Zpower_Qpower 10) by lia. field. apply inject_Z_neq, Z.pow_nonzero; lia.
Qed.

Lemma real_scan_spec s num den e :
  real_scan s = Some (num, den, e, "") -> 0 <= num /\ 0 < den /\ exists q, c_magnitude s q /\ (ratio num den e == q)%Q.
Proof.
  unfold real_scan. destruct s as [|z [|x s]]; [apply decimal_scan_spec..|].
  destruct (Ascii.eqb_spec z "0") as [->|]; [|apply decimal_scan_spec]. cbn [andb].
  destruct (Ascii.eqb x "x" || Ascii.eqb x "X") eqn:Hx; [|apply decimal_scan_spec].
  destruct (mantissa 16 s) as [[[digits n] fraction] rest] eqn:Hm. apply mantissa_spec in Hm as (ds & t & -> & Ht & -> & ->).
  destruct ds as [|d ds]; [apply decimal_scan_spec|]. change (length (d :: ds) =? 0)%nat with false. cbn iota.
  destruct (exponent "p" "P" rest) as [k r] eqn:He. apply exponent_spec in He as (t' & -> & Hp).
  assert (x = "x"%char \/ x = "X"%char) as Hx' by (apply orb_true_iff in Hx as [H|H]; apply Ascii.eqb_eq in H; auto).
  pose proof (positional_nonneg 16 _ ltac:(lia) (point_digits_nonneg _ _ _ _ Ht)) as Hnn.
  pose proof (cm_hex x d ds fraction t t' k Hx' Ht Hp) as Hc. revert Hnn Hc. generalize (positional 16 (d :: ds)). intros p Hnn Hc.
  intros [= <- <- <- ->]. rewrite str_app_nil_r. split; [done|]. split; [done|]. eexists. split; [exact Hc|].
  unfold ratio. change (inject_Z 1) with 1%Q. field.
Qed.

(** Only texts of real numbers are accepted, as a float nearest to the number. *)
Lemma parseReal_spec fm text field x : 1 < f_prec fm -> parseReal fm text field = Ret x -> real_text fm text x.
Proof.
  intros Hp. unfold parseReal. destruct (starts_badly text); [done|]. rewrite strtor_scan. unfold real_text.
  destruct (sign text) as [negative s] eqn:Es. destruct (real_scan s) as [[[[num den] e] []]|] eqn:Er; try done.
  destruct (_ || _) eqn:E; [done|]. intros [= <-]. apply orb_false_iff in E as [E1 E2%negb_false_iff].
  apply real_scan_spec in Er as (Hn & Hd & q & Hq & Hr).
  destruct (rounded_nearest fm Hp negative num den e Hn Hd E2) as [H1 H2]. exists negative, q. split_and!.
  - by eapply sign_signed.
  - done.
  - by eapply nearest_ext.
  - rewrite <-Hr. by apply range_error_spec.
Qed.

(** A tenth has no exact float; the one it is read as is nearest. *)
Example tenth_is_nearest : real_text binary64 "0.1" (S754_finite false 7205759403792794 (-56)).
Proof. by apply (parseReal_spec binary64 "0.1" "f"); [|vm_compute]. Qed.
