(* ===== verification/GrpcBridge.v ===== *)
(** * The bridge to gRPC services

    src/grpc_bridge.cpp: from the descriptors a service reflects, arguments
    given as text become a protobuf request, and the reply becomes a structured
    value.

    Descriptors are data; a descriptor is identified by its full name, and
    [message_type] looks the name up in the pool the service was reflected
    into.  A request is what has been set in it: scalar fields by path, and the
    messages made to hold them.  A reply is what reflection reads from it, with
    the defaults of absent fields.  The transport, serialisation and parsing
    are libraries: parameters.

    The recursive functions carry fuel; the code refuses to go deeper than
    [kMaxDepth] messages, and GrpcBridgeSpec shows the fuel is enough. *)

From S2P Require Import Prelude.
From S2P Require Import StrMap.
From S2P Require Import Floats.
From S2P Require Import Config.
From S2P Require Import ConfigParse.
From S2P Require Import Util.
From S2P Require Import Runtime.
From S2P Require Import CNumber.
From S2P Require Import Generation.
From S2P Require Import Admin.
From Stdlib Require Import Ascii.

Local Open Scope string_scope.
Local Open Scope list_scope.
Local Open Scope Z_scope.

Definition kMaxDepth : nat := 32.
Definition kMaxFields : Z := 4096.
Definition kMaxArguments : Z := 1024.
Definition kMaxDescriptorBytes : Z := 4 * 1024 * 1024.

(** ** Descriptors *)

Inductive CppType := CInt32 | CInt64 | CUInt32 | CUInt64 | CDouble | CFloat | CBool | CEnum | CString | CMessage.
#[export] Instance CppType_eq_dec : EqDecision CppType.
Proof. solve_decision. Defined.

(** [fd_message] is the full name of the message type, [fd_enum] the values of
    the enum type, [fd_oneof] the containing oneof. *)
Record FieldDescriptor := {
  fd_name : string; fd_full_name : string; fd_type : CppType; fd_repeated : bool;
  fd_message : string; fd_enum : list (string * Z); fd_oneof : option string;
}.
#[export] Instance FieldDescriptor_eq_dec : EqDecision FieldDescriptor.
Proof. solve_decision. Defined.

Record Descriptor := { de_full_name : string; de_fields : list FieldDescriptor }.
Record MethodDescriptor := {
  md_name : string; md_full_name : string; md_input : Descriptor; md_output : Descriptor; md_streaming : bool;
}.

Definition Pool : Type := gmap string Descriptor.
Definition isMessage (f : FieldDescriptor) : bool := bool_decide (fd_type f = CMessage).
Definition FindFieldByName (d : Descriptor) (name : string) : option FieldDescriptor :=
  List.find (fun f => String.eqb (fd_name f) name) (de_fields d).

Fixpoint split_dots (s : string) : list string :=
  match s with
  | EmptyString => [""]
  | String c s' =>
      if Ascii.eqb c "." then "" :: split_dots s'
      else match split_dots s' with
           | x :: l => String c x :: l
           | [] => [String c ""]
           end
  end.

Section Bridge.
Context (pool : Pool).

Definition message_type (f : FieldDescriptor) : Descriptor :=
  default {| de_full_name := fd_message f; de_fields := [] |} (pool !! fd_message f).

(** ** Text to a field *)

(** The value [setScalar] stores. *)
Definition setScalar (f : FieldDescriptor) (v : string) : exn TypedValue :=
  let name := fd_full_name f in
  match fd_type f with
  | CInt32 => TVint32 <$> parseInteger false min_i32 max_i32 v name
  | CInt64 => TVint64 <$> parseInteger false min_i64 max_i64 v name
  | CUInt32 => TVuint32 <$> parseInteger true 0 max_u32 v name
  | CUInt64 => TVuint64 <$> parseInteger true 0 max_u64 v name
  | CDouble => TVdouble <$> parseReal binary64 v name
  | CFloat => TVfloat <$> parseReal binary32 v name
  | CBool =>
      let text := lowerCopy v in
      if String.eqb text "1" || String.eqb text "true" || String.eqb text "yes" then Ret (TVbool true)
      else if String.eqb text "0" || String.eqb text "false" || String.eqb text "no" then Ret (TVbool false)
      else badField name "invalid boolean"
  | CString => Ret (TVstring v)
  | CEnum =>
      match List.find (fun e => String.eqb e.1 v) (fd_enum f) with
      | Some e => Ret (TVint32 e.2)
      | None =>
          let numeric := match v with
                         | String c _ => is_digit c || Ascii.eqb c "-" || Ascii.eqb c "+"
                         | EmptyString => false
                         end in
          if numeric then
            number ← parseInteger false min_i32 max_i32 v name;
            match List.find (fun e => e.2 =? number) (fd_enum f) with
            | Some e => Ret (TVint32 e.2)
            | None => badField name "unknown enum value"
            end
          else badField name "unknown enum value"
      end
  | CMessage => Throw ("cannot set field " +:+ fd_name f)
  end.

(** ** Paths *)

(** [out], [count] and [remaining] of the search. *)
Record Search := { sr_out : string; sr_count : Z; sr_remaining : Z }.

Definition tooDeep (ancestors : gset string) (d : Descriptor) : bool :=
  (kMaxDepth <=? size ancestors)%nat || bool_decide (de_full_name d ∈ ancestors).

Fixpoint findLeafPath (fuel : nat) (d : Descriptor) (leaf prefix : string) (s : Search) (ancestors : gset string)
    : exn Search :=
  match fuel with
  | 0%nat => Throw "out of fuel"
  | S fuel =>
      if tooDeep ancestors d then Throw ("recursive or too deeply nested request schema: " +:+ de_full_name d)
      else exn_fold (fun s f =>
        if sr_remaining s =? 0 then Throw "request schema exceeds field search limit"
        else
          let s := {| sr_out := sr_out s; sr_count := sr_count s; sr_remaining := sr_remaining s - 1 |} in
          if fd_repeated f then Ret s
          else if isMessage f then
            findLeafPath fuel (message_type f) leaf (prefix +:+ fd_name f +:+ ".") s ({[ de_full_name d ]} ∪ ancestors)
          else if String.eqb (fd_name f) leaf then
            Ret {| sr_out := prefix +:+ fd_name f; sr_count := sr_count s + 1; sr_remaining := sr_remaining s |}
          else Ret s) s (de_fields d)
  end.

(** The loop of [canonicalPath] over the parts of a dotted path. *)
Fixpoint walkPath (path : string) (d : Descriptor) (depth : nat) (parts : list string) : exn string :=
  match parts with
  | [] => Ret ""
  | part :: rest =>
      if (kMaxDepth <? S depth)%nat then Throw "RPC field path exceeds nesting limit"
      else if str_empty part then Throw ("invalid RPC field path: " +:+ path)
      else match FindFieldByName d part with
           | None => Ret ""
           | Some f =>
               if fd_repeated f then badField (fd_full_name f) "repeated request fields are unsupported"
               else match rest with
                    | [] => if isMessage f then badField (fd_full_name f) "RPC arguments require scalar leaves" else Ret path
                    | _ => if negb (isMessage f) then Ret "" else walkPath path (message_type f) (S depth) rest
                    end
           end
  end.

Definition searchFuel : nat := S kMaxDepth.

(** The empty path means that there is no such field. *)
Definition canonicalPath (d : Descriptor) (path : string) : exn string :=
  if str_empty path || (4096 <? String.length path)%nat then Throw "invalid RPC field path"
  else match split_dots path with
       | [_] =>
           match FindFieldByName d path with
           | Some f =>
               if isMessage f || fd_repeated f then badField (fd_full_name f) "RPC arguments require singular scalar fields"
               else Ret path
           | None =>
               s ← findLeafPath searchFuel d path "" {| sr_out := ""; sr_count := 0; sr_remaining := kMaxFields |} ∅;
               if 1 <? sr_count s then Throw ("ambiguous RPC field: " +:+ path)
               else Ret (if sr_count s =? 1 then sr_out s else "")
           end
       | parts => walkPath path d 0 parts
       end.

Definition addArgument (d : Descriptor) (result : smap string) (field : string * string) : exn (smap string) :=
  path ← canonicalPath d field.1;
  if str_empty path then Throw ("unknown RPC field: " +:+ field.1)
  else match sm_emplace path field.2 result with
       | (result, true) => Ret result
       | (_, false) => Throw ("RPC field supplied twice: " +:+ path)
       end.
Definition canonicalFields (d : Descriptor) (input : smap string) : exn (smap string) :=
  if kMaxArguments <? Z.of_nat (length input) then Throw "too many RPC arguments"
  else exn_fold (addArgument d) [] input.

(** ** Requests *)

Record Request := { rq_leaves : gmap (list string) TypedValue; rq_messages : gset (list string) }.
Definition Request_new : Request := {| rq_leaves := ∅; rq_messages := ∅ |}.

Definition isSet (rq : Request) (at_ : list string) : bool :=
  bool_decide (is_Some (rq_leaves rq !! at_)) || bool_decide (at_ ∈ rq_messages rq).

(** [GetOneofFieldDescriptor]: the member of a oneof that is set. *)
Definition oneofField (d : Descriptor) (prefix : list string) (rq : Request) (group : string) : option FieldDescriptor :=
  List.find (fun f => bool_decide (fd_oneof f = Some group) && isSet rq (prefix ++ [fd_name f])) (de_fields d).

Definition conflicts (d : Descriptor) (prefix : list string) (rq : Request) (f : FieldDescriptor) : bool :=
  match fd_oneof f with
  | None => false
  | Some group =>
      match oneofField d prefix rq group with
      | Some prior => negb (String.eqb (fd_name prior) (fd_name f))
      | None => false
      end
  end.

(** [setField]; [MutableMessage] of a field that is no message is an error of
    the program. *)
Fixpoint setFieldAt (path value : string) (d : Descriptor) (prefix : list string) (rq : Request) (parts : list string)
    : exn Request :=
  match parts with
  | [] => Throw ("unknown RPC field: " +:+ path)
  | part :: rest =>
      match FindFieldByName d part with
      | None => Throw ("unknown RPC field: " +:+ path)
      | Some f =>
          if conflicts d prefix rq f then badField (fd_full_name f) "conflicting oneof arguments"
          else match rest with
               | [] =>
                   x ← setScalar f value;
                   Ret {| rq_leaves := <[prefix ++ [part] := x]> (rq_leaves rq); rq_messages := rq_messages rq |}
               | _ =>
                   if negb (isMessage f) then Throw "not a message"
                   else setFieldAt path value (message_type f) (prefix ++ [part])
                          {| rq_leaves := rq_leaves rq; rq_messages := {[ prefix ++ [part] ]} ∪ rq_messages rq |} rest
               end
      end
  end.
Definition setField (d : Descriptor) (rq : Request) (field : string * string) : exn Request :=
  setFieldAt field.1 field.2 d [] rq (split_dots field.1).

Definition overlay (base top : smap string) : smap string := fold_left (fun m field => sm_set field.1 field.2 m) top base.

(** The request of [call]. *)
Definition buildRequest (d : Descriptor) (fields defaults : smap string) : exn Request :=
  base ← canonicalFields d defaults;
  top ← canonicalFields d fields;
  let merged := overlay base top in
  if kMaxArguments <? Z.of_nat (length merged) then Throw "too many combined RPC arguments"
  else exn_fold (setField d) Request_new merged.

(** ** Replies *)

Definition scalarTC (f : FieldDescriptor) : exn TypeCode :=
  match fd_type f with
  | CInt32 | CEnum => Ret TInt32
  | CInt64 => Ret TInt64
  | CUInt32 => Ret TUInt32
  | CUInt64 => Ret TUInt64
  | CDouble => Ret TFloat64
  | CFloat => Ret TFloat32
  | CBool => Ret TBool
  | CString => Ret TString
  | CMessage => Throw ("unsupported scalar field " +:+ fd_name f)
  end.

Definition arrayTC (s : TypeCode) : exn TypeCode :=
  match s with
  | TInt32 => Ret TInt32A | TInt64 => Ret TInt64A | TUInt32 => Ret TUInt32A | TUInt64 => Ret TUInt64A
  | TFloat32 => Ret TFloat32A | TFloat64 => Ret TFloat64A | TBool => Ret TBoolA | TString => Ret TStringA
  | _ => Throw "unsupported array element type"
  end.

(** One field of [buildMembers]; [build] is the recursive call. *)
Definition addMember (build : Descriptor -> Z -> exn (list Member * Z)) (s : list Member * Z) (f : FieldDescriptor)
    : exn (list Member * Z) :=
  if s.2 =? 0 then Throw "reply schema exceeds field limit"
  else
    let remaining := s.2 - 1 in
    if isMessage f then
      if fd_repeated f then Throw ("repeated message field unsupported: " +:+ fd_name f)
      else '(members, remaining) ← build (message_type f) remaining;
           Ret (s.1 ++ [Struct (fd_name f) members], remaining)
    else
      tc ← scalarTC f;
      code ← (if fd_repeated f then arrayTC tc else Ret tc);
      Ret (s.1 ++ [Leaf code (fd_name f)], remaining).

Fixpoint buildMembers (fuel : nat) (d : Descriptor) (remaining : Z) (ancestors : gset string) : exn (list Member * Z) :=
  match fuel with
  | 0%nat => Throw "out of fuel"
  | S fuel =>
      if tooDeep ancestors d then Throw ("recursive or too deeply nested reply schema: " +:+ de_full_name d)
      else exn_fold (addMember (fun t remaining => buildMembers fuel t remaining ({[ de_full_name d ]} ∪ ancestors)))
             ([], remaining) (de_fields d)
  end.

(** What reflection reads from a reply, by path. *)
Record Reply := {
  rp_int : list string -> Z; rp_real : list string -> spec_float; rp_bool : list string -> bool; rp_string : list string -> string;
  rp_ints : list string -> list Z; rp_reals : list string -> list spec_float; rp_bools : list string -> list bool;
  rp_strings : list string -> list string;
}.

(** [count > remaining / width] *)
Definition chargePayload (remaining count width : Z) : exn Z :=
  if remaining / width <? count then Throw "decoded RPC reply exceeds payload limit" else Ret (remaining - count * width).

(** [sizeof(std::string)] *)
Definition sizeofString : Z := 32.

Definition size_z {A} (l : list A) : Z := Z.of_nat (length l).

(** The array of a repeated field, and what it is charged. *)
Definition fillArray (r : Reply) (p : list string) (f : FieldDescriptor) (remaining : Z) : exn (field_data * Z) :=
  let fixed {A} (l : list A) (width : Z) (d : field_data) := charged ← chargePayload remaining (size_z l) width; Ret (d, charged) in
  match fd_type f with
  | CDouble => fixed (rp_reals r p) 8 (FTyped (TVvdouble (rp_reals r p)))
  | CFloat => fixed (rp_reals r p) 4 (FTyped (TVvfloat (rp_reals r p)))
  | CInt64 => fixed (rp_ints r p) 8 (FTyped (TVvint64 (rp_ints r p)))
  | CUInt64 => fixed (rp_ints r p) 8 (FTyped (TVvuint64 (rp_ints r p)))
  | CInt32 | CEnum => fixed (rp_ints r p) 4 (FTyped (TVvint32 (rp_ints r p)))
  | CUInt32 => fixed (rp_ints r p) 4 (FTyped (TVvuint32 (rp_ints r p)))
  | CBool => fixed (rp_bools r p) 1 (FBools (rp_bools r p))
  | CString =>
      remaining ← chargePayload remaining (size_z (rp_strings r p)) sizeofString;
      remaining ← exn_fold (fun remaining item => chargePayload remaining (strlen item) 1) remaining (rp_strings r p);
      Ret (FStrings (rp_strings r p), remaining)
  | CMessage => Throw "not a scalar"
  end.

(** A singular field, and its width. *)
Definition readScalar (r : Reply) (p : list string) (f : FieldDescriptor) : exn (field_data * Z) :=
  match fd_type f with
  | CDouble => Ret (FReal (rp_real r p), 8)
  | CFloat => Ret (FTyped (TVfloat (rp_real r p)), 4)
  | CInt64 => Ret (FTyped (TVint64 (rp_int r p)), 8)
  | CUInt64 => Ret (FTyped (TVuint64 (rp_int r p)), 8)
  | CInt32 | CEnum => Ret (FTyped (TVint32 (rp_int r p)), 4)
  | CUInt32 => Ret (FTyped (TVuint32 (rp_int r p)), 4)
  | CBool => Ret (FBool (rp_bool r p), 1)
  | CString => Ret (FString (rp_string r p), strlen (rp_string r p))
  | CMessage => Throw "not a scalar"
  end.

Section Values.
Context {V : Type} {HV : PvxsValue V} {HS : SharedPV V} {HT : PvxsTypes V}.

(** The field of the value at [path] from that of the reply at [p]. *)
Definition populateField (r : Reply) (path : string) (p : list string) (s : V * Z) (f : FieldDescriptor) : exn (V * Z) :=
  if fd_repeated f then
    '(d, remaining) ← fillArray r p f s.2;
    v ← assign s.1 (path, d);
    Ret (v, remaining)
  else
    '(d, width) ← readScalar r p f;
    remaining ← chargePayload s.2 width 1;
    v ← assign s.1 (path, d);
    Ret (v, remaining).

(** [prefix] and [at_] are where the message is in the value and in the reply. *)
Fixpoint populate (fuel : nat) (r : Reply) (d : Descriptor) (prefix : string) (at_ : list string) (s : V * Z) : exn (V * Z) :=
  match fuel with
  | 0%nat => Throw "out of fuel"
  | S fuel =>
      exn_fold (fun s f =>
        let path := prefix +:+ fd_name f in
        let p := at_ ++ [fd_name f] in
        if isMessage f then populate fuel r (message_type f) (path +:+ ".") p s else populateField r path p s f) s (de_fields d)
  end.

Definition decodeReply (r : Reply) (d : Descriptor) (members : list Member) (maxMessageBytes : Z) : exn (V * Z) :=
  populate searchFuel r d "" [] (tp_create members, maxMessageBytes).
End Values.

(** ** Services *)

(** [methods] and [replies] of a [ServiceCtx]. *)
Record ServiceCtx := { sc_methods : smap MethodDescriptor; sc_replies : smap (list Member) }.

(** The loop over the reflected methods; at most 256. *)
Definition addMethod (s : ServiceCtx * nat) (m : MethodDescriptor) : exn (ServiceCtx * nat) :=
  if (256 <=? s.2)%nat then Throw "reflected service exceeds method limit"
  else if md_streaming m then Throw ("streaming RPC method is unsupported: " +:+ md_full_name m)
  else
    '(members, _) ← buildMembers searchFuel (md_output m) kMaxFields ∅;
    Ret ({| sc_methods := sm_set (md_name m) m (sc_methods s.1);
            sc_replies := (sm_emplace (md_name m) members (sc_replies s.1)).1 |}, S s.2).
Definition discoverMethods (methods : list MethodDescriptor) : exn ServiceCtx :=
  '(sc, _) ← exn_fold addMethod ({| sc_methods := []; sc_replies := [] |}, 0%nat) methods; Ret sc.

(** One shared default for one method; [used] are the shared ones that suited. *)
Definition addShared (d : Descriptor) (s : smap string * sset) (field : string * string) : exn (smap string * sset) :=
  path ← canonicalPath d field.1;
  if str_empty path then Ret s
  else match sm_emplace path field.2 s.1 with
       | (values, true) => Ret (values, (ss_insert field.1 s.2).1)
       | (_, false) => Throw ("shared RPC default supplied twice: " +:+ path)
       end.

(** [ByteSizeLong] of a request and the limit. *)
Context (byteSize : Request -> Z) (maxMessageBytes : Z).

(** The defaults of one method. *)
Definition methodDefaults (shared : smap string) (methods : smap (smap string)) (m : MethodDescriptor) (used : sset)
    : exn (smap string * sset) :=
  '(values, used) ← exn_fold (addShared (md_input m)) ([], used) shared;
  values ← match sm_find (md_name m) methods with
           | Some specific => top ← canonicalFields (md_input m) specific; Ret (overlay values top)
           | None => Ret values
           end;
  throw_if (kMaxArguments <? size_z values) "too many combined RPC defaults" ;;
  rq ← exn_fold (setField (md_input m)) Request_new values;
  throw_if (maxMessageBytes <? byteSize rq) "RPC defaults exceed payload limit" ;;
  Ret (values, used).

Definition addDefaults (shared : smap string) (methods : smap (smap string)) (s : smap (smap string) * sset)
    (m : string * MethodDescriptor) : exn (smap (smap string) * sset) :=
  '(values, used) ← methodDefaults shared methods m.2 s.2;
  Ret ((sm_emplace m.1 values s.1).1, used).

Definition prepareDefaults (sc : ServiceCtx) (shared : smap string) (methods : smap (smap string)) : exn (smap (smap string)) :=
  throw_if (kMaxArguments <? size_z shared) "too many shared RPC defaults" ;;
  match List.find (fun m => negb (sm_has m.1 (sc_methods sc))) methods with
  | Some m => Throw ("unknown RPC method in method_defaults: " +:+ m.1)
  | None =>
      '(result, used) ← exn_fold (addDefaults shared methods) ([], []) (sc_methods sc);
      match List.find (fun field => negb (sm_has field.1 used)) shared with
      | Some field => Throw ("unknown shared RPC default: " +:+ field.1)
      | None => Ret result
      end
  end.

(** ** A call *)

(** The outcome of the transport: no completion, a status that is not OK, or a
    reply of some length that parses or not. *)
Inductive transport := Incomplete | Failed (message : string) (code : Z) | Replied (length : Z) (parsed : option Reply).

(** Clocks in milliseconds; [ce_before] is [beforeDispatch()], [ce_cancelled]
    says whether the call was cancelled before and after it ran. *)
Record CallEnv := {
  ce_now : Z; ce_deadline : Z; ce_timeoutMs : Z; ce_cancelled : bool * bool; ce_before : bool;
  ce_missing : Request -> option string; ce_transport : Request -> transport;
}.

(** The first part of [call], up to the dispatch: the request to send.  Once the
    message has its required fields and is within the limit, which is less than
    2 GiB ([bridgeLimits]), serialising it does not fail. *)
Definition prepareCall (sc : ServiceCtx) (method : string) (fields defaults : smap string) (e : CallEnv)
    : exn (MethodDescriptor * Request) :=
  match sm_find method (sc_methods sc) with
  | None => Throw ("method not found: " +:+ method)
  | Some md =>
      rq ← buildRequest (md_input md) fields defaults;
      match ce_missing e rq with
      | Some missing => Throw ("missing required RPC fields: " +:+ missing)
      | None =>
          throw_if (maxMessageBytes <? byteSize rq) "RPC request exceeds payload limit" ;;
          let deadline := Z.min (ce_deadline e) (ce_now e + ce_timeoutMs e) in
          throw_if (deadline - ce_now e <=? 0) "total RPC deadline exceeded before dispatch" ;;
          Ret (md, rq)
      end
  end.

(** Whether the call goes out, once it is prepared; [beforeDispatch] is not
    asked when the call was cancelled. *)
Definition asked (e : CallEnv) : bool := negb (ce_cancelled e).1.
Definition dispatches (e : CallEnv) : bool := negb (ce_cancelled e).1 && ce_before e && negb (ce_cancelled e).2.

Definition finishCall `{PvxsTypes V} (sc : ServiceCtx) (endpoint method : string) (md : MethodDescriptor) (t : transport)
    : exn (V * Z) :=
  match t with
  | Incomplete => Throw ("gRPC " +:+ method +:+ " did not complete cleanly for " +:+ endpoint)
  | Failed message code => Throw ("gRPC " +:+ method +:+ " failed: " +:+ message +:+ " (code " +:+ to_dec code +:+ ")")
  | Replied length parsed =>
      throw_if (maxMessageBytes <? length) "RPC reply exceeds payload limit" ;;
      match parsed, sm_find method (sc_replies sc) with
      | Some r, Some members => decodeReply r (md_output md) members maxMessageBytes
      | None, _ => Throw "failed to parse gRPC reply"
      | _, None => Throw "map::at"
      end
  end.

Definition call `{PvxsTypes V} (sc : ServiceCtx) (endpoint method : string) (fields defaults : smap string) (e : CallEnv)
    : exn (V * Z) :=
  '(md, rq) ← prepareCall sc method fields defaults e;
  if negb (dispatches e) then Throw "RPC cancelled or no longer authorized at dispatch; not retried"
  else finishCall sc endpoint method md (ce_transport e rq).
End Bridge.

(** ** Reflection *)

(** A reflected file: unreadable, refused by the database, or added. *)
Inductive file := BadProto | NotAdded (name : string) | Added.

(** What the reflection stream answers; [ByteSizeLong] of the response, its
    files, the pool they make and the methods of the service, if it is there. *)
Inductive reflection :=
| WriteFailed | ReadFailed | ErrorResponse (message : string) | NoDescriptors
| Descriptors (bytes : Z) (files : list file) (pool : Pool) (service : option (list MethodDescriptor)).

(** The exception [RpcDiscoveryUnavailable] is told from the others. *)
Inductive found := Found (pool : Pool) (sc : ServiceCtx) (methods : list string) | NotAvailable (what : string) | Refused (what : string).

Fixpoint addFiles (service : string) (files : list file) : exn unit :=
  match files with
  | [] => Ret tt
  | BadProto :: _ => Throw "bad FileDescriptorProto"
  | NotAdded name :: _ => Throw ("failed to add reflected descriptor " +:+ name +:+ " for " +:+ service)
  | Added :: files => addFiles service files
  end.

Definition discover (endpoint service : string) (r : reflection) : found :=
  match r with
  | WriteFailed => NotAvailable ("reflection write failed for " +:+ endpoint)
  | ReadFailed => NotAvailable ("reflection read failed for " +:+ endpoint)
  | ErrorResponse message => NotAvailable ("reflection error for " +:+ service +:+ ": " +:+ message)
  | NoDescriptors => Refused ("reflection returned no descriptors for " +:+ service)
  | Descriptors bytes files pool methods =>
      if (kMaxDescriptorBytes <? bytes) || (256 <? length files)%nat
      then Refused ("reflection descriptor response exceeds limits for " +:+ service)
      else match addFiles service files with
           | Throw what => Refused what
           | Ret _ =>
               match methods with
               | None => NotAvailable ("service not found via reflection: " +:+ service)
               | Some methods =>
                   match discoverMethods pool methods with
                   | Ret sc => Found pool sc (map md_name methods)
                   | Throw what => Refused what
                   end
               end
           end
  end.

(** The constructor's check. *)
Definition bridgeLimits (discoveryTimeoutMs timeoutMs maxMessageBytes : Z) : exn unit :=
  throw_if ((discoveryTimeoutMs =? 0) || (timeoutMs =? 0) || (maxMessageBytes =? 0) || (max_i32 <? maxMessageBytes))
    "RPC deadlines and payload limit must be positive and supported".

(** What the application gets to see of it ([reflectRpcService]). *)
Definition discovered_of (byteSize : Request -> Z) (maxMessageBytes : Z) (svc : RpcServiceConfig) (r : reflection) : discovered :=
  match bridgeLimits (rs_discoveryTimeoutMs svc) (rs_timeoutMs svc) maxMessageBytes with
  | Throw what => Invalid what
  | Ret _ =>
      match discover (rs_endpoint svc) (rs_service svc) r with
      | NotAvailable what => Unavailable what
      | Refused what => Invalid what
      | Found pool sc methods =>
          Methods (map (pair (rs_service svc)) methods)
            (_ ← prepareDefaults pool byteSize maxMessageBytes sc (rs_defaults svc) (rs_methodDefaults svc); Ret tt)
      end
  end.
