(* ===== verification/GrpcBridgeSpec.v ===== *)
(** * RPC requests and replies are what they say

    For the bridge of GrpcBridge: an argument reaches the one field its name
    stands for, with the value its text means there, and the request holds the arguments over the defaults and
    nothing else; defaults accepted at discovery are accepted by every call;
    a reply is decoded in full, within the payload limit. *)

From S2P Require Import Prelude.
From S2P Require Import StrMap.
From S2P Require Import Floats.
From S2P Require Import Config.
From S2P Require Import ConfigDiff.
From S2P Require Import Util.
From S2P Require Import Runtime.
From S2P Require Import RuntimeFacts.
From S2P Require Import CNumber.
From S2P Require Import CNumberSpec.
From S2P Require Import ConfigParse.
From S2P Require Import Admin.
From S2P Require Import AdminSpec.
From S2P Require Import GrpcBridge.
From Stdlib Require Import Ascii.

Local Open Scope string_scope.
Local Open Scope list_scope.
Local Open Scope Z_scope.

(** ** Dotted paths *)

Fixpoint dotless (s : string) : bool :=
  match s with EmptyString => true | String c s' => negb (Ascii.eqb c ".") && dotless s' end.

(** A name protobuf allows for a field: not empty, without a dot. *)
Definition field_name (s : string) : Prop := dotless s = true /\ s <> "".

Lemma split_dotless s : dotless s = true -> split_dots s = [s].
Proof.
  induction s as [|c s IH]; [done|]. cbn. intros [Hc Hs]%andb_true_iff. apply negb_true_iff in Hc. rewrite Hc.
  by rewrite IH.
Qed.

Lemma split_cons n s : dotless n = true -> split_dots (n +:+ "." +:+ s) = n :: split_dots s.
Proof.
  induction n as [|c n IH]; [done|]. intros [Hc Hn]%andb_true_iff. apply negb_true_iff in Hc.
  rewrite str_app_cons. cbn [split_dots]. rewrite Hc. by rewrite IH.
Qed.

Lemma split_join p : p <> [] -> Forall field_name p -> split_dots (join "." p) = p.
Proof.
  intros Hne Hp. induction Hp as [|n p [Hn _] Hp IH]; [done|]. destruct p as [|m p]; [by apply split_dotless|].
  change (join "." (n :: m :: p)) with (n +:+ "." +:+ join "." (m :: p)). rewrite split_cons by done. by rewrite IH.
Qed.

Lemma join_split s : join "." (split_dots s) = s.
Proof.
  induction s as [|c s IH]; [done|]. cbn [split_dots]. destruct (Ascii.eqb_spec c ".") as [->|Hc].
  - destruct (split_dots s) as [|x l] eqn:E; [by destruct s as [|c' s]; cbn in E; [|destruct (Ascii.eqb c' "."); [|destruct (split_dots s)]]|].
    cbn [join] in *. by rewrite IH.
  - destruct (split_dots s) as [|x l] eqn:E; [by cbn in IH; subst|]. destruct l as [|y l]; cbn [join] in *.
    + by rewrite IH.
    + by rewrite str_app_cons, IH.
Qed.

Lemma split_bare s x : split_dots s = [x] -> x = s.
Proof. intros H. pose proof (join_split s) as Hj. by rewrite H in Hj. Qed.

Lemma join_inj p q :
  p <> [] -> q <> [] -> Forall field_name p -> Forall field_name q -> join "." p = join "." q -> p = q.
Proof. intros. rewrite <-(split_join p), <-(split_join q) by done. by f_equal. Qed.

Lemma join_dots n p : p <> [] -> join "." (n :: p) = n +:+ "." +:+ join "." p.
Proof. by destruct p. Qed.

Lemma join_not_empty p : p <> [] -> Forall field_name p -> join "." p <> "".
Proof.
  intros Hne Hp. destruct Hp as [|n p [_ Hn] _]; [done|]. destruct p; cbn [join]; [done|]. by destruct n.
Qed.

Lemma last_not_nil {A} (l : list A) x : last l = Some x -> l <> [].
Proof. by destruct l. Qed.

(** ** Descriptors as protobuf makes them *)

Definition descriptor_wf (d : Descriptor) : Prop :=
  NoDup (map fd_name (de_fields d)) /\ Forall (fun f => field_name (fd_name f)) (de_fields d).
Definition pool_wf (pool : Pool) : Prop := map_Forall (fun _ d => descriptor_wf d) pool.

(** ** The value of an argument *)

(** [v] is a word in letters of either case. *)
Fixpoint spelled (lower upper v : string) : Prop :=
  match lower, upper, v with
  | EmptyString, EmptyString, EmptyString => True
  | String l lower, String u upper, String c v => (c = l \/ c = u) /\ spelled lower upper v
  | _, _, _ => False
  end.
Definition boolean_text (v : string) (b : bool) : Prop :=
  if b then v = "1" \/ spelled "true" "TRUE" v \/ spelled "yes" "YES" v
  else v = "0" \/ spelled "false" "FALSE" v \/ spelled "no" "NO" v.

(** What the text of an argument means for a field: the integer it writes, in
    the range of the field's type; a float nearest to the number it writes; a
    word for a truth value; the number of the enum value it names or, when it
    names none, of the one whose number it writes; itself for a string. *)
Definition reads_as (f : FieldDescriptor) (v : string) (x : TypedValue) : Prop :=
  match fd_type f with
  | CInt32 => exists z, integer_text false (- 2 ^ 31) (2 ^ 31 - 1) v z /\ x = TVint32 z
  | CInt64 => exists z, integer_text false (- 2 ^ 63) (2 ^ 63 - 1) v z /\ x = TVint64 z
  | CUInt32 => exists z, integer_text true 0 (2 ^ 32 - 1) v z /\ x = TVuint32 z
  | CUInt64 => exists z, integer_text true 0 (2 ^ 64 - 1) v z /\ x = TVuint64 z
  | CDouble => exists r, real_text binary64 v r /\ x = TVdouble r
  | CFloat => exists r, real_text binary32 v r /\ x = TVfloat r
  | CBool => exists b, boolean_text v b /\ x = TVbool b
  | CString => x = TVstring v
  | CEnum => exists n, x = TVint32 n /\
      ((v, n) ∈ fd_enum f \/
       ((v ∉ (fd_enum f).*1) /\ integer_text false (- 2 ^ 31) (2 ^ 31 - 1) v n /\ (n ∈ (fd_enum f).*2)))
  | CMessage => False
  end.

Lemma tolower_lower c l :
  tolower c = l -> c = l \/ c = (if (97 <=? ascii_code l) && (ascii_code l <=? 122) then Ascii.ascii_of_N (Z.to_N (ascii_code l - 32)) else l).
Proof. intros <-. destruct c as [[] [] [] [] [] [] [] []]; vm_compute; auto. Qed.

Fixpoint upperCopy (s : string) : string :=
  match s with
  | EmptyString => ""
  | String c s => String (if (97 <=? ascii_code c) && (ascii_code c <=? 122) then Ascii.ascii_of_N (Z.to_N (ascii_code c - 32)) else c) (upperCopy s)
  end.

Lemma lowerCopy_spelled v w : lowerCopy v = w -> spelled w (upperCopy w) v.
Proof.
  revert w. induction v as [|c v IH]; intros w; cbn [lowerCopy]; intros <-; [done|]. cbn [upperCopy spelled].
  split; [by apply tolower_lower|by apply IH].
Qed.

Lemma lowerCopy_1 v d : lowerCopy v = String d "" -> is_digit d = true -> v = String d "".
Proof.
  intros H%lowerCopy_spelled Hd. destruct v as [|c []]; cbn in H; [done| |by destruct H]. destruct H as [H _].
  f_equal. destruct H as [|H]; [done|]. rewrite H. revert Hd. clear. destruct d as [[] [] [] [] [] [] [] []]; by vm_compute.
Qed.

Lemma setScalar_bool f v x : fd_type f = CBool -> setScalar f v = Ret x -> exists b, boolean_text v b /\ x = TVbool b.
Proof.
  intros Ht. unfold setScalar. rewrite Ht.
  destruct (String.eqb_spec (lowerCopy v) "1") as [H|_]; [intros [= <-]; exists true; split; [left; by apply lowerCopy_1|done]|].
  destruct (String.eqb_spec (lowerCopy v) "true") as [H|_]; [intros [= <-]; exists true; split; [right; left; by apply lowerCopy_spelled in H|done]|].
  destruct (String.eqb_spec (lowerCopy v) "yes") as [H|_]; [intros [= <-]; exists true; split; [right; right; by apply lowerCopy_spelled in H|done]|].
  destruct (String.eqb_spec (lowerCopy v) "0") as [H|_]; [intros [= <-]; exists false; split; [left; by apply lowerCopy_1|done]|].
  destruct (String.eqb_spec (lowerCopy v) "false") as [H|_]; [intros [= <-]; exists false; split; [right; left; by apply lowerCopy_spelled in H|done]|].
  destruct (String.eqb_spec (lowerCopy v) "no") as [H|_]; [intros [= <-]; exists false; split; [right; right; by apply lowerCopy_spelled in H|done]|].
  done.
Qed.

Lemma setScalar_enum f v x : fd_type f = CEnum -> setScalar f v = Ret x -> reads_as f v x.
Proof.
  intros Ht. unfold setScalar, reads_as. rewrite Ht. destruct (List.find _ (fd_enum f)) as [[name n]|] eqn:Ef.
  - intros [= <-]. exists n. split; [done|left]. apply find_some in Ef as [Hin He%String.eqb_eq]. cbn in *. subst name.
    by apply list_elem_of_In.
  - destruct (match v with String c _ => _ | EmptyString => false end); [|done]. intros (n & Hn & Hx)%exn_bind_ret.
    destruct (List.find (fun e => e.2 =? n) (fd_enum f)) as [e|] eqn:E2; [|done]. injection Hx as <-.
    apply find_some in E2 as [Hin He%Z.eqb_eq]. apply parseInteger_spec in Hn; [|done]. exists n. subst n. split; [done|right].
    split_and!; [|done|by apply list_elem_of_fmap_2, list_elem_of_In].
    intros (e' & -> & He')%list_elem_of_fmap. apply list_elem_of_In in He'.
    pose proof (find_none _ _ Ef _ He') as Hne. cbn in Hne. by rewrite String.eqb_refl in Hne.
Qed.

(** What [setScalar] stores is what the text means. *)
Lemma setScalar_reads f v x : setScalar f v = Ret x -> reads_as f v x.
Proof.
  destruct (fd_type f) eqn:Ht;
    [| | | | | |unfold reads_as; rewrite Ht; by apply setScalar_bool|by apply setScalar_enum|..];
    unfold setScalar, reads_as; rewrite Ht; cbn [fmap exn_fmap];
    [intros (z & Hz & [= <-])%exn_bind_ret; exists z; (split; [|done])..| |done].
  1-4: by eapply parseInteger_spec; [|exact Hz].
  1-2: by eapply parseReal_spec; [|exact Hz].
  by intros [= <-].
Qed.

Section Paths.
Context (pool : Pool) (Hpool : pool_wf pool).

Lemma message_type_wf f : descriptor_wf (message_type pool f).
Proof using Hpool.
  unfold message_type. destruct (pool !! fd_message f) as [d|] eqn:E; [by eapply Hpool|]. cbn. split; constructor.
Qed.

Lemma find_field d f : descriptor_wf d -> f ∈ de_fields d -> FindFieldByName d (fd_name f) = Some f.
Proof.
  clear Hpool. intros [Hnd _] Hin. unfold FindFieldByName. induction (de_fields d) as [|g l IH]; [by apply not_elem_of_nil in Hin|].
  cbn in *. apply NoDup_cons in Hnd as [Hg Hnd]. apply elem_of_cons in Hin as [->|Hin]; [by rewrite String.eqb_refl|].
  destruct (String.eqb_spec (fd_name g) (fd_name f)) as [E|_]; [|by apply IH].
  exfalso. apply Hg. rewrite E. by apply list_elem_of_fmap_2.
Qed.

Lemma found_field d name f : FindFieldByName d name = Some f -> f ∈ de_fields d /\ fd_name f = name.
Proof.
  clear Hpool. intros [Hin%list_elem_of_In He]%List.find_some. by apply String.eqb_eq in He.
Qed.

Lemma found_name d name f : descriptor_wf d -> FindFieldByName d name = Some f -> field_name name.
Proof.
  clear Hpool. intros [_ Hn] [Hin <-]%found_field. rewrite Forall_forall in Hn. by apply Hn.
Qed.

(** The singular scalar field a path leads to. *)
Inductive resolves : Descriptor -> list string -> FieldDescriptor -> Prop :=
| res_leaf d name f :
    FindFieldByName d name = Some f -> fd_repeated f = false -> isMessage f = false -> resolves d [name] f
| res_step d name f path g :
    FindFieldByName d name = Some f -> fd_repeated f = false -> isMessage f = true ->
    resolves (message_type pool f) path g -> resolves d (name :: path) g.

Lemma resolves_nonempty d p f : resolves d p f -> p <> [].
Proof. clear Hpool. by destruct 1. Qed.

Lemma resolves_names d p f : descriptor_wf d -> resolves d p f -> Forall field_name p.
Proof using Hpool.
  intros Hwf Hr. induction Hr as [d name f Hf|d name f p g Hf _ _ _ IH]; (constructor; [by eapply found_name|]); [done|].
  apply IH, message_type_wf.
Qed.

Lemma resolves_scalar d p f : resolves d p f -> fd_repeated f = false /\ isMessage f = false.
Proof. clear Hpool. by induction 1. Qed.

Lemma resolves_unique d p f g : resolves d p f -> resolves d p g -> f = g.
Proof.
  clear Hpool. intros Hf. revert g. induction Hf as [d name f H1 H2 H3|d name f p h H1 H2 H3 H4 IH]; intros g Hg;
    inversion Hg; subst; try congruence;
    try match goal with H : resolves _ [] _ |- _ => by apply resolves_nonempty in H end.
  apply IH. by simplify_eq.
Qed.

(** The dotted form of a path that resolves. *)
Lemma walk_resolves path d depth parts f :
  descriptor_wf d -> resolves d parts f -> (depth + length parts <= kMaxDepth)%nat ->
  walkPath pool path d depth parts = Ret path.
Proof using Hpool.
  intros Hwf Hr. revert depth. induction Hr as [d name f H1 H2 H3|d name f p g H1 H2 H3 H4 IH]; intros depth Hd; cbn [walkPath length] in *.
  - rewrite (proj2 (Nat.ltb_ge kMaxDepth (S depth))) by lia. destruct (found_name _ _ _ Hwf H1) as [_ Hn].
    destruct name; [done|]. cbn [str_empty]. by rewrite H1, H2, H3.
  - rewrite (proj2 (Nat.ltb_ge kMaxDepth (S depth))) by lia. destruct (found_name _ _ _ Hwf H1) as [_ Hn].
    destruct name; [done|]. cbn [str_empty]. rewrite H1, H2, H3. apply resolves_nonempty in H4 as Hp.
    destruct p; [done|]. cbn [negb]. apply IH; [apply message_type_wf|lia].
Qed.

Lemma walk_sound path d depth parts q :
  parts <> [] -> walkPath pool path d depth parts = Ret q ->
  (q = path /\ exists f, resolves d parts f) \/ (q = "" /\ forall f, ~ resolves d parts f).
Proof.
  clear Hpool. revert d depth. induction parts as [|part rest IH]; intros d depth Hne; [done|]. cbn [walkPath].
  destruct (kMaxDepth <? S depth)%nat; [done|]. destruct (str_empty part); [done|].
  destruct (FindFieldByName d part) as [f|] eqn:Hf; [|intros [= <-]; right; split; [done|]; intros g Hg; inversion Hg; congruence].
  destruct (fd_repeated f) eqn:Hr; [done|]. destruct rest as [|part' rest].
  - destruct (isMessage f) eqn:Hm; [done|]. intros [= <-]. left. split; [done|]. exists f. by constructor.
  - destruct (isMessage f) eqn:Hm; cbn [negb].
    + intros H. destruct (IH _ _ ltac:(done) H) as [[-> [g Hg]]|[-> Hn]]; [left|right]; (split; [done|]).
      * exists g. by eapply res_step.
      * intros g Hg. inversion Hg; subst; simplify_eq. by eapply Hn.
    + intros [= <-]. right. split; [done|]. intros g Hg. inversion Hg; subst; congruence.
Qed.

(** ** The search for a leaf *)

(** The paths of the leaves of that name, to a depth. *)
Fixpoint hits (fuel : nat) (d : Descriptor) (leaf : string) : list (list string) :=
  match fuel with
  | 0%nat => []
  | S fuel =>
      concat (map (fun f =>
        if fd_repeated f then []
        else if isMessage f then map (cons (fd_name f)) (hits fuel (message_type pool f) leaf)
        else if String.eqb (fd_name f) leaf then [[fd_name f]] else []) (de_fields d))
  end.

Lemma elem_concat {A} (x : A) ls : x ∈ concat ls <-> exists l, l ∈ ls /\ x ∈ l.
Proof. clear Hpool. rewrite list_elem_of_In, in_concat. by setoid_rewrite list_elem_of_In. Qed.

Lemma hits_nonempty fuel d leaf p : p ∈ hits fuel d leaf -> p <> [].
Proof.
  clear Hpool. destruct fuel as [|fuel]; cbn; [by intros ?%not_elem_of_nil|].
  intros (l & Hl & Hp)%elem_concat. apply list_elem_of_fmap in Hl as (f & -> & _).
  destruct (fd_repeated f); [by apply not_elem_of_nil in Hp|]. destruct (isMessage f).
  - by apply list_elem_of_fmap in Hp as (? & -> & _).
  - destruct (String.eqb _ _); [by apply list_elem_of_singleton in Hp as ->|by apply not_elem_of_nil in Hp].
Qed.

Lemma last_app_some {A} (l1 l2 : list A) x : last l2 = Some x -> last (l1 ++ l2) = Some x.
Proof. clear Hpool. intros H. rewrite last_app. by rewrite H. Qed.

(** What the search adds to [out] and [count]. *)
Definition adds (prefix : string) (l : list (list string)) (s s' : Search) : Prop :=
  sr_count s' = sr_count s + Z.of_nat (length l) /\
  sr_out s' = match last l with Some p => prefix +:+ join "." p | None => sr_out s end.

Lemma adds_trans prefix l1 l2 s1 s2 s3 : adds prefix l1 s1 s2 -> adds prefix l2 s2 s3 -> adds prefix (l1 ++ l2) s1 s3.
Proof.
  clear Hpool. intros [C1 O1] [C2 O2]. split; [rewrite C2, C1, length_app; lia|]. rewrite O2, last_app, O1. by destruct (last l2).
Qed.

Lemma adds_nested prefix name l s s' :
  (forall p, p ∈ l -> p <> []) -> adds (prefix +:+ name +:+ ".") l s s' -> adds prefix (map (cons name) l) s s'.
Proof.
  clear Hpool. intros Hl [C O]. split; [by rewrite length_map|]. rewrite O, fmap_last.
  destruct (last l) as [p|] eqn:E; [|done]. cbn [fmap option_fmap option_map]. rewrite join_dots; [by rewrite !str_app_assoc|].
  apply Hl. by apply last_Some_elem_of.
Qed.

Lemma findLeafPath_spec fuel d leaf prefix s ancestors s' :
  findLeafPath pool fuel d leaf prefix s ancestors = Ret s' -> adds prefix (hits fuel d leaf) s s'.
Proof.
  clear Hpool. revert d prefix s ancestors s'. induction fuel as [|fuel IH]; intros d prefix s ancestors s'; cbn [findLeafPath hits]; [done|].
  destruct (tooDeep ancestors d); [done|]. revert s s'. induction (de_fields d) as [|f l IHl]; intros s s'; cbn [exn_fold map concat].
  { intros [= <-]. split; [cbn; lia|done]. }
  intros (s1 & Hf & Hl)%exn_bind_ret. eapply adds_trans; [|by apply IHl].
  destruct (sr_remaining s =? 0); [done|]. destruct (fd_repeated f); [injection Hf as <-; split; [cbn; lia|done]|].
  destruct (isMessage f).
  - apply adds_nested; [apply hits_nonempty|]. by apply IH in Hf.
  - destruct (String.eqb_spec (fd_name f) leaf) as [->|]; injection Hf as <-; split; cbn; try lia; done.
Qed.

(** A search that returns has seen every message, none of them too deep. *)
Lemma exn_fold_elem {S A} (f : S -> A -> exn S) s l s' x :
  exn_fold f s l = Ret s' -> x ∈ l -> exists s1 s2, f s1 x = Ret s2.
Proof.
  clear Hpool. revert s. induction l as [|y l IH]; intros s; [by intros _ ?%not_elem_of_nil|]. cbn.
  intros (s1 & H1 & H2)%exn_bind_ret [->|Hx]%elem_of_cons; eauto.
Qed.

Lemma tooDeep_false ancestors d :
  tooDeep ancestors d = false -> size ({[de_full_name d]} ∪ ancestors) = S (size ancestors) /\ (size ancestors < kMaxDepth)%nat.
Proof.
  clear Hpool. unfold tooDeep. intros [H1 H2]%orb_false_iff. apply Nat.leb_gt in H1. apply bool_decide_eq_false in H2.
  split; [|done]. rewrite size_union by set_solver. by rewrite size_singleton.
Qed.

Lemma search_depth fuel d leaf prefix s ancestors s' p f :
  findLeafPath pool fuel d leaf prefix s ancestors = Ret s' -> resolves d p f -> (length p + size ancestors <= kMaxDepth)%nat.
Proof.
  clear Hpool. revert d prefix s ancestors s' p. induction fuel as [|fuel IH]; intros d prefix s ancestors s' p; cbn [findLeafPath]; [done|].
  destruct (tooDeep ancestors d) eqn:Ht; [done|]. apply tooDeep_false in Ht as [Hsz Hlt].
  intros Hs Hr. destruct Hr as [d name f|d name f p g H1 H2 H3 Hr]; cbn [length]; [lia|].
  apply found_field in H1 as [Hin <-]. destruct (exn_fold_elem _ _ _ _ _ Hs Hin) as (s1 & s2 & Hf).
  destruct (sr_remaining s1 =? 0); [done|]. rewrite H2, H3 in Hf. specialize (IH _ _ _ _ _ _ Hf Hr). lia.
Qed.

(** The fuel: one more than the depth that is left. *)
Lemma exn_fold_ext {S A} (f g : S -> A -> exn S) s l :
  (forall s x, x ∈ l -> f s x = g s x) -> exn_fold f s l = exn_fold g s l.
Proof.
  clear Hpool. revert s. induction l as [|x l IH]; intros s Hfg; cbn; [done|]. rewrite Hfg by (by left).
  destruct (g s x); cbn; [|done]. apply IH. intros. apply Hfg. by right.
Qed.

Lemma search_fuel fuel d leaf prefix s ancestors :
  (size ancestors <= kMaxDepth < fuel + size ancestors)%nat ->
  findLeafPath pool (S fuel) d leaf prefix s ancestors = findLeafPath pool fuel d leaf prefix s ancestors.
Proof.
  clear Hpool. revert d prefix s ancestors. induction fuel as [|fuel IH]; intros d prefix s ancestors Hf; [lia|].
  cbn [findLeafPath]. destruct (tooDeep ancestors d) eqn:Ht; [done|]. apply tooDeep_false in Ht as [Hsz Hlt].
  apply exn_fold_ext. intros s1 f _. destruct (sr_remaining s1 =? 0); [done|]. destruct (fd_repeated f); [done|].
  destruct (isMessage f); [|done]. apply IH. lia.
Qed.

Lemma hits_sound fuel d leaf p :
  descriptor_wf d -> p ∈ hits fuel d leaf -> exists f, resolves d p f /\ last p = Some leaf.
Proof using Hpool.
  revert d p. induction fuel as [|fuel IH]; intros d p Hwf; cbn; [by intros ?%not_elem_of_nil|].
  intros (l & Hl & Hp)%elem_concat. apply list_elem_of_fmap in Hl as (f & -> & Hin).
  destruct (fd_repeated f) eqn:Hr; [by apply not_elem_of_nil in Hp|]. apply (find_field _ _ Hwf) in Hin.
  destruct (isMessage f) eqn:Hm.
  - apply list_elem_of_fmap in Hp as (q & -> & Hq). destruct (IH _ _ (message_type_wf f) Hq) as (g & Hg & Hlast).
    exists g. split; [by eapply res_step|]. by destruct q.
  - destruct (String.eqb_spec (fd_name f) leaf) as [E|]; [|by apply not_elem_of_nil in Hp].
    apply list_elem_of_singleton in Hp as ->. exists f. split; [by constructor|by rewrite E].
Qed.

Lemma hits_complete fuel d leaf p f :
  resolves d p f -> last p = Some leaf -> (length p <= fuel)%nat -> p ∈ hits fuel d leaf.
Proof.
  clear Hpool. intros Hr. revert fuel. induction Hr as [d name f H1 H2 H3|d name f p g H1 H2 H3 H4 IH]; intros fuel Hl Hlen;
    (destruct fuel as [|fuel]; [cbn in Hlen; lia|]); cbn [hits]; apply found_field in H1 as [Hin <-]; apply elem_concat.
  - eexists. split; [apply list_elem_of_fmap_2; exact Hin|]. rewrite H2, H3. injection Hl as ->. rewrite String.eqb_refl. by left.
  - eexists. split; [apply list_elem_of_fmap_2; exact Hin|]. rewrite H2, H3. apply list_elem_of_fmap_2, IH; [|cbn in Hlen; lia].
    apply resolves_nonempty in H4. by destruct p.
Qed.

Lemma hits_NoDup fuel d leaf : descriptor_wf d -> NoDup (hits fuel d leaf).
Proof using Hpool.
  revert d. induction fuel as [|fuel IH]; intros d [Hnd _]; cbn [hits]; [constructor|].
  induction (de_fields d) as [|f l IHl]; cbn [map concat]; [constructor|]. cbn in Hnd. apply NoDup_cons in Hnd as [Hf Hnd].
  apply NoDup_app. split; [|split; [|by apply IHl]].
  - destruct (fd_repeated f); [constructor|]. destruct (isMessage f); [|destruct (String.eqb _ _); [apply NoDup_singleton|constructor]].
    apply NoDup_fmap_2; [by intros ?? [=]|]. apply IH, message_type_wf.
  - assert (Hhead : forall g p, p ∈ (if fd_repeated g then [] else if isMessage g then map (cons (fd_name g)) (hits fuel (message_type pool g) leaf)
        else if String.eqb (fd_name g) leaf then [[fd_name g]] else []) -> head p = Some (fd_name g)).
    { intros g p Hp. destruct (fd_repeated g); [by apply not_elem_of_nil in Hp|]. destruct (isMessage g).
      - by apply list_elem_of_fmap in Hp as (? & -> & _).
      - destruct (String.eqb _ _); [by apply list_elem_of_singleton in Hp as ->|by apply not_elem_of_nil in Hp]. }
    intros p Hp (l' & Hl' & Hp')%elem_concat. apply list_elem_of_fmap in Hl' as (g & -> & Hg).
    apply Hhead in Hp. apply Hhead in Hp'. apply Hf. rewrite Hp in Hp'. injection Hp' as ->. by apply list_elem_of_fmap_2.
Qed.

(** ** Canonical paths *)

(** [names d path q]: the argument name [path] stands for the field at [q]: it
    is the field's own path, or the name of the only leaf so called. *)
Definition names d (path : string) (q : list string) : Prop :=
  path = join "." q \/
  (dotless path = true /\ FindFieldByName d path = None /\ last q = Some path /\
   forall q' f', resolves d q' f' -> last q' = Some path -> q' = q).

Definition start : Search := {| sr_out := ""; sr_count := 0; sr_remaining := kMaxFields |}.

Lemma search_result d path s :
  descriptor_wf d -> findLeafPath pool searchFuel d path "" start ∅ = Ret s ->
  (sr_count s = 0 /\ (forall p f, resolves d p f -> last p <> Some path)) \/
  (sr_count s = 1 /\ exists p f, sr_out s = join "." p /\ resolves d p f /\ (length p <= kMaxDepth)%nat /\ last p = Some path /\
     forall p' f', resolves d p' f' -> last p' = Some path -> p' = p) \/
  (1 < sr_count s /\ exists p p' f f', p <> p' /\ resolves d p f /\ resolves d p' f' /\ last p = Some path /\ last p' = Some path).
Proof using Hpool.
  intros Hwf Hs. pose proof (findLeafPath_spec _ _ _ _ _ _ _ Hs) as [Hc Ho]. cbn [sr_count sr_out start] in Hc, Ho. rewrite Z.add_0_l in Hc.
  assert (Hall : forall p f, resolves d p f -> last p = Some path -> p ∈ hits searchFuel d path).
  { intros p f Hr Hl. eapply hits_complete; [done|done|]. pose proof (search_depth _ _ _ _ _ _ _ _ _ Hs Hr) as Hd.
    rewrite size_empty in Hd. unfold searchFuel. lia. }
  pose proof (hits_NoDup searchFuel d path Hwf) as Hnd.
  destruct (hits searchFuel d path) as [|p [|p' l]] eqn:Eh.
  - left. split; [done|]. intros p f Hr Hl. by eapply not_elem_of_nil, Hall.
  - right; left. split; [done|]. destruct (hits_sound searchFuel d path p Hwf) as (f & Hr & Hl); [rewrite Eh; by left|].
    exists p, f. pose proof (search_depth _ _ _ _ _ _ _ _ _ Hs Hr) as Hd. rewrite size_empty in Hd.
    split_and!; try done; [lia|]. intros q g Hg Hq. by apply list_elem_of_singleton, (Hall q g).
  - right; right. split; [rewrite Hc; cbn; lia|].
    destruct (hits_sound searchFuel d path p Hwf) as (f & Hr & Hl); [rewrite Eh; by left|].
    destruct (hits_sound searchFuel d path p' Hwf) as (f' & Hr' & Hl'); [rewrite Eh; by right; left|].
    exists p, p', f, f'. split_and!; try done. intros ->. apply NoDup_cons in Hnd as [Hn _]. apply Hn. by left.
Qed.

Lemma dotless_split s : split_dots s = [s] -> dotless s = true.
Proof.
  clear Hpool. induction s as [|c s IH]; [done|]. cbn [split_dots dotless]. destruct (Ascii.eqb c ".") eqn:E.
  - intros H. discriminate H.
  - destruct (split_dots s) as [|x l] eqn:Es; [by intros [= <-]|]. intros [= -> ->]. by apply IH.
Qed.

Lemma walk_depth path d depth parts q :
  parts <> [] -> walkPath pool path d depth parts = Ret q -> q <> "" -> (depth + length parts <= kMaxDepth)%nat.
Proof.
  clear Hpool. revert d depth. induction parts as [|part rest IH]; intros d depth Hne; [done|]. cbn [walkPath length].
  destruct (Nat.ltb_spec kMaxDepth (S depth)); [done|]. destruct (str_empty part); [done|].
  destruct (FindFieldByName d part) as [f|]; [|by intros [= <-]]. destruct (fd_repeated f); [done|].
  destruct rest as [|part' rest]; [cbn; lia|]. destruct (isMessage f); [|by intros [= <-]]. cbn [negb]. intros Hw Hq.
  specialize (IH _ _ ltac:(done) Hw Hq). lia.
Qed.

(** Names of arguments are taken apart correctly. *)
Lemma canonicalPath_spec d path q :
  descriptor_wf d -> canonicalPath pool d path = Ret q ->
  (q <> "" /\ exists p f, q = join "." p /\ resolves d p f /\ (length p <= kMaxDepth)%nat /\ names d path p) \/
  (q = "" /\ forall p f, resolves d p f -> path <> join "." p /\ (dotless path = true -> last p <> Some path)).
Proof using Hpool.
  intros Hwf. unfold canonicalPath. destruct (str_empty path || (4096 <? String.length path)%nat) eqn:Ee; [done|].
  apply orb_false_iff in Ee as [Ee _]. assert (path <> "") as Hpath by (by intros ->).
  destruct (split_dots path) as [|x [|y l]] eqn:Es; [by intros [= <-]; pose proof (join_split path) as Hj; rewrite Es in Hj| |].
  - apply split_bare in Es as Hx. subst x. pose proof (dotless_split _ Es) as Hdl.
    destruct (FindFieldByName d path) as [f|] eqn:Hf.
    + destruct (isMessage f || fd_repeated f) eqn:Eb; [done|]. apply orb_false_iff in Eb as [Hm Hr]. intros [= <-].
      left. split; [done|]. exists [path], f. split_and!; [done|by constructor|cbn; unfold kMaxDepth; lia|by left].
    + intros (s & Hs & Hq)%exn_bind_ret. destruct (search_result d path s Hwf Hs) as [[Hc Hn]|[(Hc & p & f & Ho & Hr & Hd & Hl & Hu)|[Hc _]]].
      * rewrite Hc in Hq. injection Hq as <-. right. split; [done|]. intros p f Hr. split; [|by intros _; eapply Hn].
        intros ->. eapply Hn; [exact Hr|]. destruct p as [|n p]; [by apply resolves_nonempty in Hr|].
        pose proof (resolves_names _ _ _ Hwf Hr) as Hfn. rewrite (split_join (n :: p)) in Es by done.
        injection Es as Hn1 ->. done.
      * rewrite Hc in Hq. injection Hq as <-. rewrite Ho. left.
        split; [apply join_not_empty; [by eapply resolves_nonempty|by eapply resolves_names]|]. exists p, f. split_and!; try done.
        right. done.
      * rewrite (proj2 (Z.ltb_lt 1 (sr_count s)) Hc) in Hq. done.
  - intros Hw. assert (x :: y :: l <> []) as Hxy by done. destruct (walk_sound _ _ _ _ _ Hxy Hw) as [[-> [f Hr]]|[-> Hn]].
    + left. split; [done|]. exists (x :: y :: l), f. pose proof (join_split path) as Hj. rewrite Es in Hj. split_and!; [done|done| |by left].
      pose proof (walk_depth _ _ _ _ _ Hxy Hw Hpath). lia.
    + right. split; [done|]. intros p f Hr. split.
      * intros ->. pose proof (resolves_names _ _ _ Hwf Hr) as Hfn. pose proof (resolves_nonempty _ _ _ Hr).
        rewrite split_join in Es by done. subst p. by eapply Hn.
      * intros Hdl. rewrite split_dotless in Es by done. done.
Qed.

Lemma canonical_fixed d p f :
  descriptor_wf d -> resolves d p f -> (length p <= kMaxDepth)%nat -> (String.length (join "." p) <= 4096)%nat ->
  canonicalPath pool d (join "." p) = Ret (join "." p).
Proof using Hpool.
  intros Hwf Hr Hd Hl. pose proof (resolves_names _ _ _ Hwf Hr) as Hn. pose proof (resolves_nonempty _ _ _ Hr) as Hne.
  pose proof (join_not_empty p Hne Hn) as Hj. unfold canonicalPath. rewrite split_join by done.
  rewrite (proj2 (Nat.ltb_ge 4096 _)), orb_false_r by lia. destruct (str_empty (join "." p)) eqn:E; [by apply str_empty_true in E|].
  pose proof (walk_resolves (join "." p) d 0 p f Hwf Hr Hd) as Hw.
  destruct p as [|n [|m p]]; [done| |done]. cbn [join] in *.
  inversion Hr as [? ? ? H1 H2 H3|? ? ? ? ? H1 H2 H3 H4]; subst; [|by apply resolves_nonempty in H4]. by rewrite H1, H2, H3.
Qed.

(** ** Arguments *)

Lemma emplaced {A} k (v : A) m m' : sm_emplace k v m = (m', true) -> sm_find k m = None /\ m' = sm_set k v m.
Proof. clear Hpool. unfold sm_emplace, sm_has. destruct (sm_find k m); [done|]. by intros [= <-]. Qed.

(** What became of a list of arguments. *)
Record canonical d (acc l out : smap string) : Prop := {
  cn_wf : sm_wf out;
  cn_find : forall q v, sm_find q out = Some v <->
    sm_find q acc = Some v \/ exists k, (k, v) ∈ l /\ canonicalPath pool d k = Ret q /\ q <> "";
  cn_all : forall k v, (k, v) ∈ l -> exists q, canonicalPath pool d k = Ret q /\ q <> "";
}.

Lemma canonical_fold d l acc out :
  sm_wf acc ->
  exn_fold (addArgument pool d) acc l = Ret out -> canonical d acc l out.
Proof.
  clear Hpool. revert acc. induction l as [|[k v] l IH]; intros acc Hwf; cbn [exn_fold fst snd].
  { intros [= <-]. split; [done|..].
    - intros q w. split; [by left|]. by intros [?|(? & ?%not_elem_of_nil & _)].
    - by intros ? ? ?%not_elem_of_nil. }
  intros (acc' & (q & Hq & Hs)%exn_bind_ret & Hl)%exn_bind_ret. cbn [fst snd] in Hq, Hs. destruct (str_empty q) eqn:Eq; [done|].
  assert (q <> "") as Hne by (by intros ->). destruct (sm_emplace q v acc) as [m []] eqn:Em; [|done]. injection Hs as ->.
  apply emplaced in Em as [Hnone ->]. destruct (IH _ (sm_wf_set q v acc Hwf) Hl) as [Hw Hf Ha]. split; [done|..].
  - intros q' w. rewrite Hf, sm_find_set. split.
    + intros [H|(k' & Hk' & Hc)]; [|right; exists k'; by split; [right|]].
      destruct (decide (q' = q)) as [->|]; [|by left]. injection H as ->. right. exists k. by split; [left|].
    + intros [H|(k' & Hk' & Hc & Hq')].
      * left. destruct (decide (q' = q)) as [->|]; [congruence|done].
      * apply elem_of_cons in Hk' as [[= -> ->]|Hk']; [|right; by exists k'].
        left. rewrite Hq in Hc. injection Hc as ->. by rewrite decide_True.
  - intros k' w [[= -> ->]|Hin]%elem_of_cons; [by exists q|by eapply Ha].
Qed.

Lemma canonicalFields_spec d input out : canonicalFields pool d input = Ret out -> canonical d [] input out.
Proof.
  clear Hpool. unfold canonicalFields. destruct (kMaxArguments <? _); [done|]. apply canonical_fold, sm_wf_nil.
Qed.

Lemma overlay_spec base top :
  sm_wf base -> sm_wf top -> sm_wf (overlay base top) /\
  forall q, sm_find q (overlay base top) = match sm_find q top with Some v => Some v | None => sm_find q base end.
Proof.
  clear Hpool. unfold overlay. revert base. induction top as [|[k v] top IH]; intros base Hb Ht; cbn [fold_left fst snd]; [done|].
  apply sm_wf_cons in Ht as [Ht Hlt]. destruct (IH _ (sm_wf_set k v base Hb) Ht) as [Hw Hf]. split; [done|].
  intros q. rewrite Hf, sm_find_set. cbn [sm_find]. destruct (decide (q = k)) as [->|Hne].
  - rewrite (proj2 (sm_find_None k top)).
    + by rewrite String.eqb_refl.
    + intros Hk. rewrite Forall_forall in Hlt. by apply (irreflexivity str_lt k), Hlt.
  - by destruct (String.eqb_spec q k).
Qed.

(** ** Requests *)

Lemma setFieldAt_spec path value d prefix rq parts f rq' :
  resolves d parts f -> setFieldAt pool path value d prefix rq parts = Ret rq' ->
  exists x, setScalar f value = Ret x /\ rq_leaves rq' = <[prefix ++ parts := x]> (rq_leaves rq).
Proof.
  clear Hpool. intros Hr. revert prefix rq. induction Hr as [d name f H1 H2 H3|d name f p g H1 H2 H3 H4 IH]; intros prefix rq; cbn [setFieldAt];
    rewrite H1; (destruct (conflicts d prefix rq f); [done|]).
  - intros (x & Hx & [= <-])%exn_bind_ret. by exists x.
  - rewrite H3. cbn [negb]. apply resolves_nonempty in H4. destruct p as [|m p]; [done|]. intros Hs.
    destruct (IH _ _ Hs) as (x & Hx & Hl). exists x. split; [done|]. rewrite Hl. cbn. by rewrite <-app_assoc.
Qed.

(** A merged field and the field it goes to. *)
Definition settable d (q : string) : Prop := exists p f, q = join "." p /\ resolves d p f.

Lemma setField_spec d rq p f v rq' :
  descriptor_wf d -> resolves d p f -> setField pool d rq (join "." p, v) = Ret rq' ->
  exists x, setScalar f v = Ret x /\ rq_leaves rq' = <[p := x]> (rq_leaves rq).
Proof using Hpool.
  intros Hwf Hr. unfold setField. cbn [fst snd]. rewrite split_join; [|by eapply resolves_nonempty|by eapply resolves_names].
  intros Hs. by apply (setFieldAt_spec _ _ _ _ _ _ _ _ Hr) in Hs.
Qed.

Lemma set_fields d l rq rq' :
  descriptor_wf d -> NoDup l.*1 -> (forall q v, (q, v) ∈ l -> settable d q) -> exn_fold (setField pool d) rq l = Ret rq' ->
  (forall p f v, resolves d p f -> (join "." p, v) ∈ l -> exists x, setScalar f v = Ret x /\ rq_leaves rq' !! p = Some x) /\
  (forall p x, rq_leaves rq' !! p = Some x -> rq_leaves rq !! p = Some x \/
     exists f v, resolves d p f /\ (join "." p, v) ∈ l /\ setScalar f v = Ret x) /\
  (forall p f, resolves d p f -> join "." p ∉ l.*1 -> rq_leaves rq' !! p = rq_leaves rq !! p).
Proof using Hpool.
  intros Hwf. revert rq. induction l as [|[q v] l IH]; intros rq Hnd Hset; cbn [exn_fold].
  { intros [= <-]. split_and!; [by intros ? ? ? _ ?%not_elem_of_nil|by left|done]. }
  intros (rq1 & H1 & Hl)%exn_bind_ret. cbn in Hnd. apply NoDup_cons in Hnd as [Hq Hnd].
  destruct (Hset q v ltac:(by left)) as (p & f & -> & Hr).
  destruct (setField_spec d rq p f v rq1 Hwf Hr H1) as (x & Hx & Hleaves).
  destruct (IH rq1 Hnd ltac:(intros; eapply Hset; by right) Hl) as (Ha & Hb & Hc).
  assert (Hinj : forall p' f', resolves d p' f' -> join "." p' = join "." p -> p' = p /\ f' = f).
  { intros p' f' Hr' He. apply join_inj in He as ->; [|by eapply resolves_nonempty|by eapply resolves_nonempty|by eapply resolves_names|by eapply resolves_names].
    split; [done|]. by eapply resolves_unique. }
  split_and!.
  - intros p' f' v' Hr' [[= He ->]|Hin]%elem_of_cons; [|by apply Ha].
    destruct (Hinj p' f' Hr' He) as [-> ->]. exists x. split; [done|]. rewrite (Hc p f Hr Hq), Hleaves. apply lookup_insert_eq.
  - intros p' x' Hp'. destruct (Hb p' x' Hp') as [Hp1|(f' & v' & ? & ? & ?)]; [|right; exists f', v'; by split_and!; [|right|]].
    rewrite Hleaves in Hp1. destruct (decide (p' = p)) as [->|Hne]; [|left; by rewrite lookup_insert_ne in Hp1].
    rewrite lookup_insert_eq in Hp1. injection Hp1 as <-. right. exists f, v. by split_and!; [|left|].
  - intros p' f' Hr' Hn. cbn in Hn. apply not_elem_of_cons in Hn as [Hn1 Hn2]. rewrite (Hc p' f' Hr' Hn2), Hleaves.
    rewrite lookup_insert_ne; [done|]. by intros <-.
Qed.

Lemma sm_elem {A} (m : smap A) k v : sm_wf m -> (k, v) ∈ m <-> sm_find k m = Some v.
Proof. clear Hpool. intros. split; [by apply sm_elem_find|apply sm_find_elem]. Qed.

(** The field of an argument, and the value it gets. *)
Definition sets d (k v : string) (p : list string) (x : TypedValue) : Prop :=
  exists f, resolves d p f /\ names d k p /\ canonicalPath pool d k = Ret (join "." p) /\ reads_as f v x.

(** An argument's canonical path leads to a field. *)
Lemma canonical_names d k q :
  descriptor_wf d -> canonicalPath pool d k = Ret q -> q <> "" -> exists p f, q = join "." p /\ resolves d p f /\ names d k p.
Proof using Hpool.
  intros Hwf Hq Hne. destruct (canonicalPath_spec d k q Hwf Hq) as [(_ & p & f & ? & ? & _ & ?)|[? _]]; [by exists p, f|done].
Qed.

Lemma canonical_same d k p p' f f' :
  descriptor_wf d -> resolves d p f -> resolves d p' f' -> canonicalPath pool d k = Ret (join "." p) ->
  join "." p = join "." p' -> p' = p /\ f' = f.
Proof using Hpool.
  intros Hwf Hr Hr' _ He. apply join_inj in He as <-; try (by eapply resolves_nonempty); try (by eapply resolves_names).
  split; [done|]. by eapply resolves_unique.
Qed.

(** The merged fields: those of the arguments, then those of the defaults. *)
Record merged d (fields defaults m : smap string) : Prop := {
  mg_wf : sm_wf m;
  mg_field : forall k v, (k, v) ∈ fields -> exists q, canonicalPath pool d k = Ret q /\ q <> "" /\ sm_find q m = Some v;
  mg_default : forall k v, (k, v) ∈ defaults -> exists q, canonicalPath pool d k = Ret q /\ q <> "" /\
    (sm_find q m = Some v \/ exists k' v', (k', v') ∈ fields /\ canonicalPath pool d k' = Ret q /\ sm_find q m = Some v');
  mg_only : forall q v, sm_find q m = Some v ->
    exists k, ((k, v) ∈ fields \/ (k, v) ∈ defaults) /\ canonicalPath pool d k = Ret q /\ q <> "";
}.

Lemma merge_spec d fields defaults base top :
  canonical d [] defaults base -> canonical d [] fields top -> merged d fields defaults (overlay base top).
Proof.
  clear Hpool. intros [Wb Fb Ab] [Wt Ft At]. destruct (overlay_spec base top Wb Wt) as [Wm Fm]. split; [done|..].
  - intros k v Hk. destruct (At k v Hk) as (q & Hq & Hne). exists q. split_and!; [done..|]. rewrite Fm.
    by rewrite (proj2 (Ft q v)) by (right; by exists k).
  - intros k v Hk. destruct (Ab k v Hk) as (q & Hq & Hne). exists q. split_and!; [done..|]. rewrite Fm.
    destruct (sm_find q top) as [w|] eqn:E.
    + right. pose proof (proj1 (Ft _ _) E) as [?|(k' & Hk' & Hq' & _)]; [done|]. by exists k', w.
    + left. apply Fb. right. by exists k.
  - intros q v Hv. rewrite Fm in Hv. destruct (sm_find q top) as [w|] eqn:E.
    + injection Hv as ->. apply Ft in E as [?|(k & ? & ? & ?)]; [done|]. exists k. by split_and!; [left|..].
    + apply Fb in Hv as [?|(k & ? & ? & ?)]; [done|]. exists k. by split_and!; [right|..].
Qed.

(** The request made of merged fields. *)
Lemma merged_request d fields defaults m rq :
  descriptor_wf d -> merged d fields defaults m -> exn_fold (setField pool d) Request_new m = Ret rq ->
  (forall k v q, canonicalPath pool d k = Ret q -> q <> "" -> sm_find q m = Some v ->
     exists p x, q = join "." p /\ sets d k v p x /\ rq_leaves rq !! p = Some x) /\
  (forall p x, rq_leaves rq !! p = Some x -> exists f v, resolves d p f /\ sm_find (join "." p) m = Some v /\ setScalar f v = Ret x).
Proof using Hpool.
  intros Hwf [Wm _ _ Hon] Hrq. destruct (set_fields d m Request_new rq Hwf (sm_wf_NoDup _ Wm)) as (Sa & Sb & _); [|done|split].
  - intros q v Hin. apply sm_elem in Hin; [|done]. destruct (Hon q v Hin) as (k & _ & Hk & Hne).
    destruct (canonical_names d k q Hwf Hk Hne) as (p & f & -> & Hr & _). by exists p, f.
  - intros k v q Hk Hne Hv. destruct (canonical_names d k q Hwf Hk Hne) as (p & f & -> & Hr & Hn).
    destruct (Sa p f v Hr) as (x & Hx & Hl); [by apply sm_elem|]. exists p, x. split_and!; [done| |done]. exists f. by split_and!; [..|apply setScalar_reads].
  - intros p x Hx. destruct (Sb p x Hx) as [?|(f & v & Hr & Hv & Hs)]; [done|]. apply sm_elem in Hv; [|done]. by exists f, v.
Qed.

(** C23. The request of a call is what the caller asked for.  When a request is
    built from arguments and defaults, every argument names exactly one scalar
    field of the message, and that field holds what the argument's text means
    in the field's type: the integer it writes, which is in the range of the
    type; a float nearest to the number it writes, exact where the float would
    lose precision; the truth value it spells; the number of the enum value it
    names or numbers; the text itself.  A default is in its field, read in the
    same way, unless an argument named the same field; and no other field is
    set. *)
Theorem rpc_request_faithful d fields defaults rq :
  descriptor_wf d -> buildRequest pool d fields defaults = Ret rq ->
  (forall k v, (k, v) ∈ fields -> exists p x, sets d k v p x /\ rq_leaves rq !! p = Some x) /\
  (forall k v, (k, v) ∈ defaults -> exists p, names d k p /\ canonicalPath pool d k = Ret (join "." p) /\
     ((exists x, sets d k v p x /\ rq_leaves rq !! p = Some x) \/
      (exists k' v' x, (k', v') ∈ fields /\ sets d k' v' p x /\ rq_leaves rq !! p = Some x))) /\
  (forall p x, rq_leaves rq !! p = Some x -> exists k v, ((k, v) ∈ fields \/ (k, v) ∈ defaults) /\ sets d k v p x).
Proof using Hpool.
  intros Hwf (base & Hb%canonicalFields_spec & (top & Ht%canonicalFields_spec & Hrq)%exn_bind_ret)%exn_bind_ret.
  cbn zeta in Hrq. destruct (kMaxArguments <? _); [done|]. pose proof (merge_spec _ _ _ _ _ Hb Ht) as Hm.
  destruct (merged_request _ _ _ _ _ Hwf Hm Hrq) as [Hin Hout]. destruct Hm as [_ Hf Hd Hon]. split_and!.
  - intros k v Hk. destruct (Hf k v Hk) as (q & Hq & Hne & Hv). destruct (Hin k v q Hq Hne Hv) as (p & x & _ & ? & ?). by exists p, x.
  - intros k v Hk. destruct (Hd k v Hk) as (q & Hq & Hne & Hv). destruct (canonical_names d k q Hwf Hq Hne) as (p & f & -> & Hr & Hn).
    exists p. split; [done|]. split; [done|].
    destruct Hv as [Hv|(k' & v' & Hk' & Hq' & Hv)]; [left|right]; edestruct Hin as (p' & x & He & Hs & Hl); [exact Hq|done|exact Hv| |
      exact Hq'|done|exact Hv|]; pose proof Hs as (f' & Hr' & _); destruct (canonical_same d _ _ _ _ _ Hwf Hr Hr' Hq He) as [-> _].
    + by exists x.
    + by exists k', v', x.
  - intros p x Hx. destruct (Hout p x Hx) as (f & v & Hr & Hv & Hs). destruct (Hon _ _ Hv) as (k & Hk & Hq & Hne).
    exists k, v. split; [done|]. destruct (canonical_names d k _ Hwf Hq Hne) as (p' & f' & He & Hr' & Hn).
    destruct (canonical_same d _ _ _ _ _ Hwf Hr Hr' Hq He) as [-> _]. exists f. by split_and!; [..|apply setScalar_reads].
Qed.

(** ** Defaults *)

Lemma sm_set_last {A} (m : smap A) k v : Forall (fun k' => str_lt k' k) (sm_keys m) -> sm_set k v m = m ++ [(k, v)].
Proof.
  clear Hpool. induction m as [|[k' v'] m IH]; [done|]. cbn [sm_keys map]. intros [Hk Hm]%Forall_cons. cbn [sm_set app].
  rewrite str_compare_flip. cbn in Hk. unfold str_lt in Hk. rewrite Hk. cbn [CompOpp]. by rewrite IH.
Qed.

(** Canonical arguments are their own canonical form. *)
Lemma canonicalFields_fixed d m :
  sm_wf m -> Z.of_nat (length m) <= kMaxArguments -> (forall q v, (q, v) ∈ m -> canonicalPath pool d q = Ret q /\ q <> "") ->
  canonicalFields pool d m = Ret m.
Proof.
  clear Hpool. intros Hwf Hlen Hc. unfold canonicalFields. rewrite (proj2 (Z.ltb_ge kMaxArguments _)) by done.
  change m with ([] ++ m) at 2. change m with ([] ++ m) in Hwf. generalize dependent (@nil (string * string)). intros acc.
  revert acc. induction m as [|[q v] m IH]; intros acc Hwf; cbn [exn_fold]; [by rewrite app_nil_r|]. unfold addArgument at 2. cbn [fst snd].
  destruct (Hc q v ltac:(by left)) as [Hq Hne]. rewrite Hq. cbn [mbind exn_bind].
  destruct (str_empty q) eqn:E; [by apply str_empty_true in E|]. replace (acc ++ (q, v) :: m) with ((acc ++ [(q, v)]) ++ m) in *
    by (by rewrite <-app_assoc).
  assert (Forall (fun k' => str_lt k' q) (sm_keys acc)) as Hlt.
  { unfold sm_wf, sm_keys in Hwf. rewrite !map_app in Hwf. apply StronglySorted_app in Hwf as (_ & Hwf & _).
    apply StronglySorted_app in Hwf as (H & _ & _). apply Forall_forall. intros k' Hk'. apply H; [done|by left]. }
  unfold sm_emplace, sm_has. rewrite (proj2 (sm_find_None q acc)).
  - rewrite sm_set_last by done. apply IH; [cbn in Hlen; lia|intros; eapply Hc; by right|done].
  - intros Hin. rewrite Forall_forall in Hlt. by apply (irreflexivity str_lt q), Hlt.
Qed.

(** Keys that are paths of fields. *)
Definition proper d (m : smap string) : Prop :=
  sm_wf m /\ forall q v, (q, v) ∈ m -> exists p f, q = join "." p /\ resolves d p f /\ (length p <= kMaxDepth)%nat.

Lemma proper_set d m k q v :
  descriptor_wf d -> proper d m -> canonicalPath pool d k = Ret q -> q <> "" -> proper d (sm_set q v m).
Proof using Hpool.
  intros Hwf [Wm Hm] Hq Hne. split; [by apply sm_wf_set|]. intros q' v' Hin%sm_elem; [|by apply sm_wf_set].
  rewrite sm_find_set in Hin. destruct (decide (q' = q)) as [->|]; [|by eapply Hm, sm_elem].
  destruct (canonicalPath_spec d k q Hwf Hq) as [(_ & p & f & ? & ? & ? & _)|[? _]]; [by exists p, f|done].
Qed.

Lemma proper_overlay d m top : descriptor_wf d -> proper d m -> proper d top -> proper d (overlay m top).
Proof.
  clear Hpool. intros Hwf [Wm Hm] [Wt Ht]. destruct (overlay_spec m top Wm Wt) as [Wo Fo]. split; [done|].
  intros q v Hin%sm_elem; [|done]. rewrite Fo in Hin. destruct (sm_find q top) as [w|] eqn:E; [|by eapply Hm, sm_elem].
  by eapply Ht, (sm_elem top q w).
Qed.

Lemma canonicalFields_proper d input out : descriptor_wf d -> canonicalFields pool d input = Ret out -> proper d out.
Proof using Hpool.
  intros Hwf [Wo Fo _]%canonicalFields_spec. split; [done|]. intros q v Hin%sm_elem; [|done].
  apply Fo in Hin as [?|(k & _ & Hq & Hne)]; [done|].
  destruct (canonicalPath_spec d k q Hwf Hq) as [(_ & p & f & ? & ? & ? & _)|[? _]]; [by exists p, f|done].
Qed.

Lemma shared_proper d l s s' :
  descriptor_wf d -> proper d s.1 -> exn_fold (addShared pool d) s l = Ret s' ->
  proper d s'.1 /\ forall k, sm_has k s'.2 = true ->
    sm_has k s.2 = true \/ exists v q, (k, v) ∈ l /\ canonicalPath pool d k = Ret q /\ q <> "".
Proof using Hpool.
  intros Hwf. revert s. induction l as [|[k v] l IH]; intros s Hs; cbn [exn_fold]; [by intros [= <-]; split; [|by left]|].
  intros (s1 & (q & Hq & H1)%exn_bind_ret & Hl)%exn_bind_ret. cbn [fst snd] in *. destruct (str_empty q) eqn:Eq.
  - injection H1 as <-. destruct (IH s Hs Hl) as [Hp Hu]. split; [done|]. intros k' Hk'.
    destruct (Hu k' Hk') as [?|(v' & q' & ? & ? & ?)]; [by left|]. right. exists v', q'. by split; [right|].
  - assert (q <> "") as Hne by (by intros ->). destruct (sm_emplace q v s.1) as [m []] eqn:Em; [|done]. injection H1 as <-.
    apply emplaced in Em as [_ ->]. destruct (IH (sm_set q v s.1, (ss_insert k s.2).1)) as [Hp Hu]; [by eapply proper_set|done|]. split; [done|].
    intros k' Hk'. destruct (Hu k' Hk') as [H|(v' & q' & ? & ? & ?)].
    + cbn [snd] in H. unfold ss_insert, sm_emplace in H. destruct (sm_has k s.2) eqn:Ek; [by left|]. cbn [fst] in H.
      unfold sm_has in H. rewrite sm_find_set in H. destruct (decide (k' = k)) as [->|].
      * right. exists v, q. by split; [left|].
      * left. exact H.
    + right. exists v', q'. by split; [right|].
Qed.

Section Defaults.
Context (byteSize : Request -> Z) (maxMessageBytes : Z).

(** Defaults that make a request by themselves. *)
Definition usable d (values : smap string) : Prop :=
  proper d values /\ Z.of_nat (length values) <= kMaxArguments /\ exists rq, exn_fold (setField pool d) Request_new values = Ret rq.

Lemma methodDefaults_spec shared methods m used values used' :
  descriptor_wf (md_input m) -> methodDefaults pool byteSize maxMessageBytes shared methods m used = Ret (values, used') ->
  usable (md_input m) values /\ forall k, sm_has k used' = true ->
    sm_has k used = true \/ exists v q, (k, v) ∈ shared /\ canonicalPath pool (md_input m) k = Ret q /\ q <> "".
Proof using Hpool.
  intros Hwf ([values1 used1] & Hs & (values2 & Hv & ([] & H1%throw_if_ret & (rq & Hrq & ([] & _ & [= <- <-])%exn_bind_ret)%exn_bind_ret)%exn_bind_ret)%exn_bind_ret)%exn_bind_ret.
  destruct (shared_proper _ shared ([], used) (values1, used1) Hwf) as [Hp Hu];
    [by split; [apply sm_wf_nil|intros ? ? ?%not_elem_of_nil]|done|].
  cbn [fst snd] in *. split; [|done]. split_and!; [|by apply Z.ltb_ge in H1|by exists rq].
  destruct (sm_find (md_name m) methods) as [specific|]; [|by injection Hv as <-].
  apply exn_bind_ret in Hv as (top & Ht & [= <-]). apply proper_overlay; [done|done|]. by eapply canonicalFields_proper.
Qed.

Lemma prepare_fold shared methods l s s' :
  (forall name m, (name, m) ∈ l -> descriptor_wf (md_input m)) -> NoDup l.*1 -> sm_wf s.1 ->
  (forall name, name ∈ l.*1 -> sm_find name s.1 = None) ->
  exn_fold (addDefaults pool byteSize maxMessageBytes shared methods) s l = Ret s' ->
  (forall name m, (name, m) ∈ l -> exists values, sm_find name s'.1 = Some values /\ usable (md_input m) values) /\
  (forall name, name ∉ l.*1 -> sm_find name s'.1 = sm_find name s.1) /\
  (forall k, sm_has k s'.2 = true -> sm_has k s.2 = true \/
     exists name m v q, (name, m) ∈ l /\ (k, v) ∈ shared /\ canonicalPath pool (md_input m) k = Ret q /\ q <> "").
Proof using Hpool.
  revert s. induction l as [|[name m] l IH]; intros s Hwf Hnd Hs Hnone; cbn [exn_fold].
  { intros [= <-]. split_and!; [by intros ? ? ?%not_elem_of_nil|done|by left]. }
  intros (s1 & ([values used] & Hm & [= <-])%exn_bind_ret & Hl)%exn_bind_ret. cbn [fst snd] in *. cbn in Hnd.
  apply NoDup_cons in Hnd as [Hn Hnd].
  destruct (methodDefaults_spec _ _ _ _ _ _ (Hwf name m ltac:(by left)) Hm) as [Hus Hu].
  assert ((sm_emplace name values s.1).1 = sm_set name values s.1) as Hem.
  { unfold sm_emplace, sm_has. by rewrite (Hnone name) by (by left). } rewrite Hem in Hl.
  destruct (IH (sm_set name values s.1, used)) as (Ha & Hb & Hc);
    [intros; eapply Hwf; by right|done|cbn; by apply sm_wf_set| |done|].
  { intros name' Hin. cbn [fst]. rewrite sm_find_set. destruct (decide (name' = name)) as [->|]; [done|]. apply Hnone. by right. }
  cbn [fst snd] in *. split_and!.
  - intros name' m' [[= -> ->]|Hin]%elem_of_cons; [|by apply Ha]. exists values. split; [|done]. rewrite Hb by done.
    apply sm_find_set_eq.
  - intros name' [Hne Hin]%not_elem_of_cons. rewrite Hb by done. by apply sm_find_set_ne.
  - intros k Hk. destruct (Hc k Hk) as [H|(name' & m' & v & q & ? & ?)].
    + destruct (Hu k H) as [|(v & q & ?)]; [by left|]. right. exists name, m, v, q. by split; [left|].
    + right. exists name', m', v, q. by split; [right|].
Qed.

(** Defaults accepted when a service is discovered are accepted by every call:
    each method of the service has its defaults, and, unless a path is longer
    than an argument name may be, a call that adds no argument builds its
    request; and every shared default belongs to a field of some method, so
    that a misspelt one is always reported. *)
Theorem prepared_defaults_accepted sc shared methods result :
  sm_wf (sc_methods sc) -> (forall name m, (name, m) ∈ sc_methods sc -> descriptor_wf (md_input m)) ->
  prepareDefaults pool byteSize maxMessageBytes sc shared methods = Ret result ->
  (forall name m, (name, m) ∈ sc_methods sc -> exists values, sm_find name result = Some values /\
     ((forall q v, (q, v) ∈ values -> (String.length q <= 4096)%nat) ->
      exists rq, buildRequest pool (md_input m) [] values = Ret rq)) /\
  (forall k v, (k, v) ∈ shared -> exists name m q, (name, m) ∈ sc_methods sc /\ canonicalPath pool (md_input m) k = Ret q /\ q <> "").
Proof using Hpool.
  intros Wsc Hwf ([] & _ & Hp)%exn_bind_ret. destruct (List.find _ methods); [done|].
  apply exn_bind_ret in Hp as ([res used] & Hfold & Hfin).
  destruct (List.find _ shared) eqn:Ef; [done|]. injection Hfin as <-.
  destruct (prepare_fold shared methods (sc_methods sc) ([], []) (res, used)) as (Ha & _ & Hc); try done; [by apply sm_wf_NoDup|apply sm_wf_nil|].
  cbn [fst snd] in *. split.
  - intros name m Hin. destruct (Ha name m Hin) as (values & Hv & [Wv Hpv] & Hlen & rq & Hrq). exists values. split; [done|].
    intros Hshort. exists rq. unfold buildRequest. rewrite (canonicalFields_fixed (md_input m) values Wv Hlen).
    + cbn [mbind exn_bind]. unfold canonicalFields at 1. cbn [length exn_fold overlay fold_left].
      rewrite (proj2 (Z.ltb_ge kMaxArguments (Z.of_nat 0))) by done. cbn [mbind exn_bind overlay fold_left].
      unfold overlay. cbn [fold_left]. by rewrite (proj2 (Z.ltb_ge kMaxArguments _)) by done.
    + intros q v Hq. destruct (Hpv q v Hq) as (p & f & -> & Hr & Hd). specialize (Hwf name m Hin). specialize (Hshort _ _ Hq).
      split; [by eapply canonical_fixed|]. apply join_not_empty; [by eapply resolves_nonempty|by eapply resolves_names].
  - intros k v Hk. pose proof (List.find_none _ _ Ef (k, v)) as Hn. specialize (Hn ltac:(by apply list_elem_of_In)).
    cbn in Hn. apply negb_false_iff in Hn. destruct (Hc k Hn) as [|(name & m & v' & q & ? & _ & ? & ?)]; [done|]. by exists name, m, q.
Qed.
End Defaults.
End Paths.

(** ** Replies *)

Section Replies.
Context (pool : Pool) (Hpool : pool_wf pool).

(** The leaves of a message in the order of the fields, to a depth. *)
Fixpoint replyLeaves (fuel : nat) (d : Descriptor) : list (list string * FieldDescriptor) :=
  match fuel with
  | 0%nat => []
  | S fuel =>
      concat (map (fun f =>
        if isMessage f then map (fun l => (fd_name f :: l.1, l.2)) (replyLeaves fuel (message_type pool f))
        else [([fd_name f], f)]) (de_fields d))
  end.

Lemma replyLeaves_nonempty fuel d l : l ∈ replyLeaves fuel d -> l.1 <> [].
Proof.
  clear Hpool. destruct fuel as [|fuel]; cbn; [by intros ?%not_elem_of_nil|].
  intros (ls & Hls & Hl)%elem_concat. apply list_elem_of_fmap in Hls as (f & -> & _). destruct (isMessage f).
  - by apply list_elem_of_fmap in Hl as (? & -> & _).
  - by apply list_elem_of_singleton in Hl as ->.
Qed.

(** The type of a leaf. *)
Definition leafCode (f : FieldDescriptor) : TypeCode :=
  match scalarTC f with
  | Ret tc => if fd_repeated f then match arrayTC tc with Ret c => c | Throw _ => tc end else tc
  | Throw _ => TStruct
  end.

Lemma leafCode_ok f :
  isMessage f = false -> exists tc, scalarTC f = Ret tc /\ (if fd_repeated f then arrayTC tc else Ret tc) = Ret (leafCode f).
Proof.
  clear Hpool. unfold isMessage, leafCode, scalarTC. intros Hm%bool_decide_eq_false.
  destruct (fd_type f); try done; destruct (fd_repeated f); by eexists.
Qed.

(** The structure built for a reply has the leaves of the message. *)
Definition leafOf (l : list string * FieldDescriptor) : string * TypeCode := (join "." l.1, leafCode l.2).

Lemma layout_app a b : layout (a ++ b) = layout a ++ layout b.
Proof. clear Hpool. unfold layout. by rewrite map_app, concat_app. Qed.

Lemma buildMembers_layout fuel d remaining ancestors ms remaining' :
  buildMembers pool fuel d remaining ancestors = Ret (ms, remaining') -> layout ms = map leafOf (replyLeaves fuel d).
Proof.
  clear Hpool. revert d remaining ancestors ms remaining'. induction fuel as [|fuel IH]; intros d remaining ancestors ms remaining'; cbn [buildMembers replyLeaves]; [done|].
  destruct (tooDeep ancestors d); [done|]. set (build := fun t r => buildMembers pool fuel t r _). intros Hf.
  assert (Hgen : forall l s s', exn_fold (addMember pool build) s l = Ret s' ->
    layout s'.1 = layout s.1 ++ map leafOf (concat (map (fun f =>
        if isMessage f then map (fun l => (fd_name f :: l.1, l.2)) (replyLeaves fuel (message_type pool f))
        else [([fd_name f], f)]) l))).
  { clear Hf. induction l as [|f l IHl]; intros s s'; cbn [exn_fold map concat]; [intros [= <-]; by rewrite app_nil_r|].
    intros (s1 & H1 & Hl)%exn_bind_ret. rewrite (IHl _ _ Hl), map_app, app_assoc. f_equal. unfold addMember in H1. destruct (s.2 =? 0); [done|].
    cbn zeta in H1. destruct (isMessage f) eqn:Hm.
    - destruct (fd_repeated f); [done|]. apply exn_bind_ret in H1 as ([members r] & Hb & [= <-]). cbn [fst].
      rewrite layout_app. f_equal. unfold layout at 1. cbn [map leavesOf concat]. rewrite app_nil_r.
      change (concat (map leavesOf members)) with (layout members). rewrite (IH _ _ _ _ _ Hb), !map_map. apply map_ext_in.
      intros [p g] Hin. unfold leafOf. cbn [fst snd]. rewrite join_dots; [done|].
      by apply (replyLeaves_nonempty fuel (message_type pool f) (p, g)), list_elem_of_In.
    - destruct (leafCode_ok f Hm) as (tc & Htc & Hc). rewrite Htc in H1. cbn [mbind exn_bind] in H1. rewrite Hc in H1.
      cbn [mbind exn_bind] in H1. injection H1 as <-. cbn [fst]. by rewrite layout_app. }
  exact (Hgen _ _ _ Hf).
Qed.

(** The field a path leads to, through singular messages. *)
Inductive leads : Descriptor -> list string -> FieldDescriptor -> Prop :=
| ld_leaf d f : f ∈ de_fields d -> isMessage f = false -> leads d [fd_name f] f
| ld_step d f p g : f ∈ de_fields d -> isMessage f = true -> leads (message_type pool f) p g -> leads d (fd_name f :: p) g.

Lemma replyLeaves_leads fuel d l : l ∈ replyLeaves fuel d -> leads d l.1 l.2.
Proof.
  clear Hpool. revert d l. induction fuel as [|fuel IH]; intros d l; cbn; [by intros ?%not_elem_of_nil|].
  intros (ls & Hls & Hl)%elem_concat. apply list_elem_of_fmap in Hls as (f & -> & Hf). destruct (isMessage f) eqn:Hm.
  - apply list_elem_of_fmap in Hl as (l' & -> & Hl'). cbn. by apply ld_step, IH.
  - apply list_elem_of_singleton in Hl as ->. by apply ld_leaf.
Qed.

Lemma leads_replyLeaves fuel d remaining ancestors r p f :
  buildMembers pool fuel d remaining ancestors = Ret r -> leads d p f -> (p, f) ∈ replyLeaves fuel d.
Proof.
  clear Hpool. revert d remaining ancestors r p. induction fuel as [|fuel IH]; intros d remaining ancestors r p; cbn [buildMembers replyLeaves]; [done|].
  destruct (tooDeep ancestors d); [done|]. intros Hb Hl. apply elem_concat.
  destruct Hl as [d f Hin Hm|d f p g Hin Hm Hl]; (eexists; split; [apply list_elem_of_fmap_2; exact Hin|]); rewrite Hm; [by left|].
  destruct (exn_fold_elem _ _ _ _ _ Hb Hin) as (s1 & s2 & Hs). unfold addMember in Hs. destruct (s1.2 =? 0); [done|].
  cbn zeta in Hs. rewrite Hm in Hs. destruct (fd_repeated f); [done|]. apply exn_bind_ret in Hs as (x & Hx & _).
  apply list_elem_of_fmap. exists (p, g). split; [done|]. by eapply IH.
Qed.

Lemma leads_names d p f : descriptor_wf d -> leads d p f -> Forall field_name p /\ isMessage f = false.
Proof using Hpool.
  intros Hwf Hl. induction Hl as [d f Hin Hm|d f p g Hin Hm Hl IH].
  - split; [|done]. apply Forall_singleton. destruct Hwf as [_ Hn]. rewrite Forall_forall in Hn. by apply Hn.
  - destruct (IH (message_type_wf _ Hpool f)) as [Hp Hg]. split; [|done]. constructor; [|done].
    destruct Hwf as [_ Hn]. rewrite Forall_forall in Hn. by apply Hn.
Qed.

Lemma replyLeaves_NoDup fuel d : descriptor_wf d -> NoDup (replyLeaves fuel d).*1.
Proof using Hpool.
  revert d. induction fuel as [|fuel IH]; intros d [Hnd _]; cbn [replyLeaves]; [constructor|].
  induction (de_fields d) as [|f l IHl]; cbn [map concat]; [constructor|]. cbn in Hnd. apply NoDup_cons in Hnd as [Hf Hnd].
  rewrite fmap_app. apply NoDup_app. split; [|split; [|by apply IHl]].
  - destruct (isMessage f); [|apply NoDup_singleton]. rewrite <-list_fmap_compose.
    assert (forall l, (fst ∘ (fun x : list string * FieldDescriptor => (fd_name f :: x.1, x.2))) <$> l = cons (fd_name f) <$> l.*1) as ->.
    { intros l'. by rewrite <-list_fmap_compose. }
    apply NoDup_fmap_2; [by intros ?? [=]|]. apply IH, message_type_wf, Hpool.
  - assert (Hhead : forall g p, p ∈ (if isMessage g then map (fun l => (fd_name g :: l.1, l.2)) (replyLeaves fuel (message_type pool g))
        else [([fd_name g], g)]).*1 -> head p = Some (fd_name g)).
    { intros g p Hp. apply list_elem_of_fmap in Hp as (x & -> & Hx). destruct (isMessage g).
      - by apply list_elem_of_fmap in Hx as (? & -> & _).
      - by apply list_elem_of_singleton in Hx as ->. }
    intros p Hp Hp'. apply list_elem_of_fmap in Hp' as (x & -> & (ls & Hls & Hx)%elem_concat).
    apply list_elem_of_fmap in Hls as (g & -> & Hg). apply Hhead in Hp.
    assert (head x.1 = Some (fd_name g)) as Hx' by (apply Hhead; by apply list_elem_of_fmap_2).
    apply Hf. rewrite Hp in Hx'. injection Hx' as ->. by apply list_elem_of_fmap_2.
Qed.

Lemma replyPaths_NoDup fuel d : descriptor_wf d -> NoDup (map leafOf (replyLeaves fuel d)).*1.
Proof using Hpool.
  intros Hwf. assert (forall l, (map leafOf l).*1 = map (join ".") l.*1) as ->.
  { intros l. change (map leafOf l) with (leafOf <$> l). change (map (join ".") l.*1) with (join "." <$> l.*1).
    by rewrite <-!list_fmap_compose. }
  pose proof (replyLeaves_NoDup fuel d Hwf) as Hnd.
  assert (Hall : forall p, p ∈ (replyLeaves fuel d).*1 -> p <> [] /\ Forall field_name p).
  { intros p (l & -> & Hl)%list_elem_of_fmap. split; [by eapply replyLeaves_nonempty|].
    apply replyLeaves_leads in Hl. by apply (leads_names d l.1 l.2). }
  induction Hnd as [|p l Hp Hnd IH]; cbn [map]; [constructor|]. constructor; [|apply IH; intros; apply Hall; by right].
  intros (q & He & Hq)%list_elem_of_fmap. apply Hp. destruct (Hall p ltac:(by left)), (Hall q ltac:(by right)).
  by apply join_inj in He as ->.
Qed.

(** What a leaf becomes, and what it is charged. *)
Definition leafData (r : Reply) (p : list string) (f : FieldDescriptor) : field_data :=
  if fd_repeated f then
    match fd_type f with
    | CDouble => FTyped (TVvdouble (rp_reals r p)) | CFloat => FTyped (TVvfloat (rp_reals r p))
    | CInt64 => FTyped (TVvint64 (rp_ints r p)) | CUInt64 => FTyped (TVvuint64 (rp_ints r p))
    | CInt32 | CEnum | CMessage => FTyped (TVvint32 (rp_ints r p)) | CUInt32 => FTyped (TVvuint32 (rp_ints r p))
    | CBool => FBools (rp_bools r p) | CString => FStrings (rp_strings r p)
    end
  else
    match fd_type f with
    | CDouble => FReal (rp_real r p) | CFloat => FTyped (TVfloat (rp_real r p))
    | CInt64 => FTyped (TVint64 (rp_int r p)) | CUInt64 => FTyped (TVuint64 (rp_int r p))
    | CInt32 | CEnum | CMessage => FTyped (TVint32 (rp_int r p)) | CUInt32 => FTyped (TVuint32 (rp_int r p))
    | CBool => FBool (rp_bool r p) | CString => FString (rp_string r p)
    end.

Definition sumZ (l : list Z) : Z := fold_right Z.add 0 l.

Definition leafCost (r : Reply) (p : list string) (f : FieldDescriptor) : Z :=
  if fd_repeated f then
    match fd_type f with
    | CDouble => size_z (rp_reals r p) * 8 | CFloat => size_z (rp_reals r p) * 4
    | CInt64 | CUInt64 => size_z (rp_ints r p) * 8
    | CInt32 | CEnum | CUInt32 | CMessage => size_z (rp_ints r p) * 4
    | CBool => size_z (rp_bools r p)
    | CString => size_z (rp_strings r p) * sizeofString + sumZ (map strlen (rp_strings r p))
    end
  else
    match fd_type f with
    | CDouble | CInt64 | CUInt64 => 8
    | CFloat | CInt32 | CEnum | CUInt32 | CMessage => 4
    | CBool => 1
    | CString => strlen (rp_string r p)
    end.

Lemma leafData_natural r p f : isMessage f = false -> natural (leafData r p f) = Some (leafCode f).
Proof.
  clear Hpool. unfold isMessage, leafData, leafCode, scalarTC. intros Hm%bool_decide_eq_false.
  by destruct (fd_type f), (fd_repeated f).
Qed.

Lemma sumZ_nonneg {A} (l : list A) (g : A -> Z) : (forall x, 0 <= g x) -> 0 <= sumZ (map g l).
Proof.
  clear Hpool. intros Hg. induction l as [|x l IH]; [done|].
  change (sumZ (map g (x :: l))) with (g x + sumZ (map g l)). specialize (Hg x). lia.
Qed.

Lemma leafCost_nonneg r p f : 0 <= leafCost r p f.
Proof.
  clear Hpool. unfold leafCost, size_z, sizeofString. pose proof (sumZ_nonneg (rp_strings r p) strlen strlen_nonneg).
  pose proof (strlen_nonneg (rp_string r p)). destruct (fd_repeated f), (fd_type f); lia.
Qed.

Definition tooLong {A} : exn A := Throw "decoded RPC reply exceeds payload limit".

Lemma charge_spec remaining count width :
  0 < width -> chargePayload remaining count width = if remaining <? count * width then tooLong else Ret (remaining - count * width).
Proof.
  clear Hpool. intros Hw. unfold chargePayload, tooLong.
  destruct (Z.ltb_spec (remaining / width) count) as [Hlt|Hge], (Z.ltb_spec remaining (count * width)) as [Hlt'|Hge']; try done; exfalso.
  - assert (count <= remaining / width) by (apply Z.div_le_lower_bound; lia). lia.
  - assert (remaining / width < count) by (apply Z.div_lt_upper_bound; lia). lia.
Qed.

Lemma charge_strings l remaining :
  0 <= remaining ->
  exn_fold (fun remaining item => chargePayload remaining (strlen item) 1) remaining l =
  if remaining <? sumZ (map strlen l) then tooLong else Ret (remaining - sumZ (map strlen l)).
Proof.
  clear Hpool. revert remaining. induction l as [|s l IH]; intros remaining Hr; cbn [exn_fold map sumZ fold_right].
  { rewrite (proj2 (Z.ltb_ge remaining 0)) by done. by rewrite Z.sub_0_r. }
  fold (sumZ (map strlen l)). pose proof (sumZ_nonneg l strlen strlen_nonneg). pose proof (strlen_nonneg s).
  rewrite charge_spec by lia. rewrite Z.mul_1_r. destruct (Z.ltb_spec remaining (strlen s)).
  - cbn [mbind exn_bind tooLong]. rewrite (proj2 (Z.ltb_lt remaining _)) by lia. done.
  - cbn [mbind exn_bind]. rewrite IH by lia.
    destruct (Z.ltb_spec (remaining - strlen s) (sumZ (map strlen l))), (Z.ltb_spec remaining (strlen s + sumZ (map strlen l)));
      try lia; [done|]. f_equal. lia.
Qed.

Section Populate.
Context {V : Type} {HV : PvxsValue V} {HS : SharedPV V} {HT : PvxsTypes V}.

Lemma populateField_spec r path p (v : V) remaining f :
  0 <= remaining -> isMessage f = false ->
  populateField r path p (v, remaining) f =
  if remaining <? leafCost r p f then tooLong else v' ← assign v (path, leafData r p f); Ret (v', remaining - leafCost r p f).
Proof.
  clear Hpool. intros Hr Hm. unfold populateField, leafCost, leafData, fillArray, readScalar. cbn [fst snd].
  apply bool_decide_eq_false in Hm. destruct (fd_repeated f).
  - destruct (fd_type f); try done; try (rewrite charge_spec by lia; rewrite ?Z.mul_1_r; by destruct (_ <? _)).
    rewrite charge_spec by (unfold sizeofString; lia). pose proof (sumZ_nonneg (rp_strings r p) strlen strlen_nonneg).
    destruct (Z.ltb_spec remaining (size_z (rp_strings r p) * sizeofString)).
    + cbn [mbind exn_bind tooLong]. by rewrite (proj2 (Z.ltb_lt remaining _)) by lia.
    + cbn [mbind exn_bind]. rewrite charge_strings by lia.
      destruct (Z.ltb_spec (remaining - size_z (rp_strings r p) * sizeofString) (sumZ (map strlen (rp_strings r p)))),
        (Z.ltb_spec remaining (size_z (rp_strings r p) * sizeofString + sumZ (map strlen (rp_strings r p)))); try lia; [done|].
      cbn [mbind exn_bind]. destruct (assign v _); cbn; [|done]. do 2 f_equal. lia.
  - destruct (fd_type f); try done; cbn [mbind exn_bind]; rewrite charge_spec by lia; rewrite ?Z.mul_1_r; by destruct (_ <? _).
Qed.

Definition populateLeaf (r : Reply) (prefix : string) (at_ : list string) (s : V * Z) (l : list string * FieldDescriptor) : exn (V * Z) :=
  populateField r (prefix +:+ join "." l.1) (at_ ++ l.1) s l.2.

Lemma exn_fold_map {S A B} (g : S -> B -> exn S) (h : A -> B) s l : exn_fold g s (map h l) = exn_fold (fun s x => g s (h x)) s l.
Proof. clear Hpool. revert s. induction l as [|x l IH]; intros s; cbn; [done|]. destruct (g s (h x)); [apply IH|done]. Qed.

(** [populate] goes through the leaves of the message. *)
Lemma populate_leaves r fuel d remaining ancestors x prefix at_ (s : V * Z) :
  buildMembers pool fuel d remaining ancestors = Ret x ->
  populate pool fuel r d prefix at_ s = exn_fold (populateLeaf r prefix at_) s (replyLeaves fuel d).
Proof.
  clear Hpool. revert d remaining ancestors x prefix at_ s. induction fuel as [|fuel IH]; intros d remaining ancestors x prefix at_ s; cbn [buildMembers populate replyLeaves]; [done|].
  destruct (tooDeep ancestors d); [done|]. intros Hb.
  assert (Hsub : forall f, f ∈ de_fields d -> isMessage f = true -> exists r' a' x', buildMembers pool fuel (message_type pool f) r' a' = Ret x').
  { intros f Hin Hm. destruct (exn_fold_elem _ _ _ _ _ Hb Hin) as (s1 & s2 & Hs). unfold addMember in Hs. destruct (s1.2 =? 0); [done|].
    cbn zeta in Hs. rewrite Hm in Hs. destruct (fd_repeated f); [done|]. apply exn_bind_ret in Hs as (x' & Hx & _). eauto. }
  clear Hb. revert s. induction (de_fields d) as [|f l IHl]; intros s; cbn [exn_fold map concat]; [done|].
  rewrite exn_fold_app. assert (Hstep : (if isMessage f then populate pool fuel r (message_type pool f) ((prefix +:+ fd_name f) +:+ ".") (at_ ++ [fd_name f]) s
       else populateField r (prefix +:+ fd_name f) (at_ ++ [fd_name f]) s f) =
     exn_fold (populateLeaf r prefix at_) s (if isMessage f then map (fun l => (fd_name f :: l.1, l.2)) (replyLeaves fuel (message_type pool f))
       else [([fd_name f], f)])).
  { destruct (isMessage f) eqn:Hm.
    - destruct (Hsub f ltac:(by left) Hm) as (r' & a' & x' & Hx'). rewrite (IH _ _ _ _ _ _ _ Hx'), exn_fold_map. apply exn_fold_ext.
      intros s' [p g] Hin. unfold populateLeaf. cbn [fst snd]. rewrite join_dots by (by eapply (replyLeaves_nonempty fuel _ (p, g))).
      by rewrite <-!str_app_assoc, <-app_assoc.
    - cbn [exn_fold]. unfold populateLeaf. cbn [fst snd join]. by destruct (populateField _ _ _ _ _). }
  rewrite Hstep. destruct (exn_fold (populateLeaf r prefix at_) s _); cbn [mbind exn_bind]; [|done].
  apply IHl. intros g Hg. apply Hsub. by right.
Qed.

Definition replySize (r : Reply) (l : list (list string * FieldDescriptor)) : Z := sumZ (map (fun l => leafCost r l.1 l.2) l).

Lemma replySize_nonneg r l : 0 <= replySize r l.
Proof. clear Hpool. apply sumZ_nonneg. intros. apply leafCost_nonneg. Qed.

(** The assignment a leaf makes. *)
Definition leafValue (r : Reply) (l : list string * FieldDescriptor) : string * field_data := (join "." l.1, leafData r l.1 l.2).

Lemma populate_all r l (v : V) remaining :
  0 <= remaining -> (forall x, x ∈ l -> isMessage x.2 = false /\ fits v (leafValue r x)) ->
  exn_fold (populateLeaf r "" []) (v, remaining) l =
  if remaining <? replySize r l then tooLong else v' ← exn_fold assign v (map (leafValue r) l); Ret (v', remaining - replySize r l).
Proof.
  clear Hpool. revert v remaining. induction l as [|x l IH]; intros v remaining Hr Hl; cbn [exn_fold map].
  { rewrite (proj2 (Z.ltb_ge remaining _)) by done. cbn. by rewrite Z.sub_0_r. }
  change (replySize r (x :: l)) with (leafCost r x.1 x.2 + replySize r l). pose proof (replySize_nonneg r l).
  pose proof (leafCost_nonneg r x.1 x.2). destruct (Hl x ltac:(by left)) as [Hm Hf].
  unfold populateLeaf at 2. cbn [app]. rewrite populateField_spec by done. change ("" +:+ join "." x.1, leafData r x.1 x.2) with (leafValue r x).
  destruct (Z.ltb_spec remaining (leafCost r x.1 x.2)).
  { cbn [mbind exn_bind tooLong]. by rewrite (proj2 (Z.ltb_lt remaining _)) by lia. }
  rewrite assign_fits by done. cbn [mbind exn_bind]. rewrite IH; [|lia|].
  - destruct (Z.ltb_spec (remaining - leafCost r x.1 x.2) (replySize r l)), (Z.ltb_spec remaining (leafCost r x.1 x.2 + replySize r l));
      try lia; [done|]. destruct (exn_fold assign _ _); cbn; [|done]. do 2 f_equal. lia.
  - intros y Hy. destruct (Hl y ltac:(by right)) as [? (c & Hc & Hn)]. split; [done|]. exists c. by rewrite v_code_assign.
Qed.

Lemma final_unique r l p f :
  NoDup (map leafOf l).*1 -> (p, f) ∈ l -> final (join "." p) (map (leafValue r) l) = Some (leafData r p f).
Proof.
  clear Hpool. induction l as [|x l IH]; intros Hnd Hin; [by apply not_elem_of_nil in Hin|]. cbn [map] in *. cbn in Hnd.
  apply NoDup_cons in Hnd as [Hx Hnd]. cbn [final fst leafValue]. apply elem_of_cons in Hin as [<-|Hin]; [|by rewrite IH].
  rewrite final_None; [by rewrite String.eqb_refl|]. intros Hin. apply Hx. cbn.
  apply list_elem_of_fmap in Hin as (y & Hy & (z & -> & Hz)%list_elem_of_fmap). apply list_elem_of_fmap. exists (leafOf z).
  split; [by rewrite Hy|]. by apply list_elem_of_fmap_2.
Qed.

(** C24. A reply arrives whole or not at all.  For a reply message the bridge
    accepted at discovery, whatever the backend sends: if the decoded size is
    within the payload limit, decoding succeeds and every field of the message,
    at any depth, is in the value under its own path with its own type and
    value; if it is not, the reply is refused.  Decoding cannot fail in any other way. *)
Theorem reply_decoded r d ms left maxMessageBytes :
  descriptor_wf d -> buildMembers pool searchFuel d kMaxFields ∅ = Ret (ms, left) -> 0 <= maxMessageBytes ->
  let size := replySize r (replyLeaves searchFuel d) in
  (size <= maxMessageBytes -> exists v : V, decodeReply pool r d ms maxMessageBytes = Ret (v, maxMessageBytes - size) /\
     forall p f, leads d p f -> v_code v (join "." p) = Some (leafCode f) /\ v_data v (join "." p) = Some (leafData r p f)) /\
  (maxMessageBytes < size -> decodeReply (V:=V) pool r d ms maxMessageBytes = Throw "decoded RPC reply exceeds payload limit").
Proof using Hpool.
  intros Hwf Hb Hmax size. unfold decodeReply. rewrite (populate_leaves _ _ _ _ _ _ _ _ _ Hb).
  pose proof (buildMembers_layout _ _ _ _ _ _ Hb) as Hlay. pose proof (replyPaths_NoDup searchFuel d Hwf) as Hnd.
  assert (Hcode : forall x, x ∈ replyLeaves searchFuel d -> v_code (tp_create (V:=V) ms) (join "." x.1) = Some (leafCode x.2)).
  { intros x Hx. apply tp_create_code; rewrite Hlay; [done|]. by apply (list_elem_of_fmap_2 leafOf). }
  assert (Hfits : forall x, x ∈ replyLeaves searchFuel d -> isMessage x.2 = false /\ fits (tp_create (V:=V) ms) (leafValue r x)).
  { intros x Hx. destruct (leads_names d x.1 x.2 Hwf) as [_ Hm]; [by eapply replyLeaves_leads|]. split; [done|].
    exists (leafCode x.2). split; [by apply Hcode|by apply leafData_natural]. }
  rewrite populate_all by done. fold size. split; intros Hs.
  - rewrite (proj2 (Z.ltb_ge maxMessageBytes size)) by done.
    destruct (assign_all (tp_create (V:=V) ms) (map (leafValue r) (replyLeaves searchFuel d))) as (v & -> & Ha).
    { apply Forall_fmap, Forall_forall. intros x Hx. by apply Hfits. }
    exists v. split; [done|]. intros p f Hl. pose proof (leads_replyLeaves _ _ _ _ _ _ _ Hb Hl) as Hin.
    split; [rewrite (as_code _ _ _ Ha); by apply (Hcode (p, f))|]. rewrite (as_data _ _ _ Ha). by rewrite (final_unique r _ p f Hnd Hin).
  - by rewrite (proj2 (Z.ltb_lt maxMessageBytes size)).
Qed.
End Populate.
End Replies.

Lemma members_fuel pool fuel d remaining ancestors :
  (size ancestors <= kMaxDepth < fuel + size ancestors)%nat ->
  buildMembers pool (S fuel) d remaining ancestors = buildMembers pool fuel d remaining ancestors.
Proof.
  revert d remaining ancestors. induction fuel as [|fuel IH]; intros d remaining ancestors Hf; [lia|].
  cbn [buildMembers]. destruct (tooDeep ancestors d) eqn:Ht; [done|]. apply tooDeep_false in Ht as [Hsz Hlt].
  apply exn_fold_ext. intros s f _. unfold addMember. destruct (s.2 =? 0); [done|]. cbn zeta. destruct (isMessage f); [|done].
  destruct (fd_repeated f); [done|]. rewrite <-IH by lia. done.
Qed.

(** The searches stop: no schema, however its messages refer to each other,
    takes them deeper than the fuel allows, so more fuel never changes a result. *)
Theorem bridge_searches_stop pool d leaf n :
  findLeafPath pool (searchFuel + n) d leaf "" start ∅ = findLeafPath pool searchFuel d leaf "" start ∅ /\
  buildMembers pool (searchFuel + n) d kMaxFields ∅ = buildMembers pool searchFuel d kMaxFields ∅.
Proof.
  assert (Hn : forall n, (size (∅ : gset string) <= kMaxDepth < searchFuel + n + size (∅ : gset string))%nat).
  { intros k. rewrite size_empty. unfold searchFuel. lia. }
  induction n as [|n [IH1 IH2]]; [rewrite Nat.add_0_r; split; reflexivity|].
  rewrite Nat.add_succ_r. split; [rewrite search_fuel by apply Hn; exact IH1|rewrite members_fuel by apply Hn; exact IH2].
Qed.

(** ** A service *)

Module BridgeDemo.

Definition field (name : string) (type : CppType) (repeated : bool) (message : string) : FieldDescriptor :=
  {| fd_name := name; fd_full_name := "demo." +:+ name; fd_type := type; fd_repeated := repeated; fd_message := message;
     fd_enum := [("IDLE", 0); ("RUN", 2)]; fd_oneof := None |}.
Definition source_d : Descriptor :=
  {| de_full_name := "demo.Source"; de_fields := [field "digitizer" CString false ""; field "mode" CEnum false ""] |}.
Definition request_d : Descriptor :=
  {| de_full_name := "demo.Request"; de_fields := [field "count" CInt32 false ""; field "source" CMessage false "demo.Source"] |}.
Definition reply_d : Descriptor :=
  {| de_full_name := "demo.Reply"; de_fields := [field "samples" CDouble true ""; field "source" CMessage false "demo.Source"] |}.
Definition pool : Pool := <["demo.Source" := source_d]> (<["demo.Request" := request_d]> {["demo.Reply" := reply_d]}).
Definition average : MethodDescriptor :=
  {| md_name := "Average"; md_full_name := "demo.Service.Average"; md_input := request_d; md_output := reply_d; md_streaming := false |}.

Ltac descriptor_check := split; [apply (bool_decide_unpack _); by vm_compute|repeat constructor; done].
Lemma source_wf : descriptor_wf source_d.
Proof. descriptor_check. Qed.
Lemma request_wf : descriptor_wf request_d.
Proof. descriptor_check. Qed.
Lemma reply_wf : descriptor_wf reply_d.
Proof. descriptor_check. Qed.
Lemma pool_ok : pool_wf pool.
Proof.
  unfold pool_wf, pool. repeat apply map_Forall_insert_2; [apply source_wf|apply request_wf|apply reply_wf|].
  apply map_Forall_empty.
Qed.

Definition byteSize (rq : Request) : Z := 16 * Z.of_nat (size (rq_leaves rq)).
Definition service : ServiceCtx := match discoverMethods pool [average] with Ret sc => sc | Throw _ => Build_ServiceCtx [] [] end.
Definition fields : smap string := [("count", "0x10"); ("mode", "RUN")].
Definition defaults : smap string := [("source.digitizer", "D1"); ("source.mode", "IDLE")].
Definition request : Request := match buildRequest pool request_d fields defaults with Ret rq => rq | Throw _ => Request_new end.
Definition reply : Reply :=
  {| rp_int := fun _ => 2; rp_real := fun _ => S754_nan; rp_bool := fun _ => false; rp_string := fun _ => "D1";
     rp_ints := fun _ => []; rp_reals := fun _ => [f_of_Z binary64 1; f_of_Z binary64 2]; rp_bools := fun _ => []; rp_strings := fun _ => [] |}.
Definition members : list Member * Z :=
  match buildMembers pool searchFuel reply_d kMaxFields ∅ with Ret x => x | Throw _ => ([], 0) end.
End BridgeDemo.

Lemma rpc_request_faithful_witness :
  (exists p x, sets BridgeDemo.pool BridgeDemo.request_d "mode" "RUN" p x /\ rq_leaves BridgeDemo.request !! p = Some x) /\
  (exists p x, sets BridgeDemo.pool BridgeDemo.request_d "count" "0x10" p x /\ rq_leaves BridgeDemo.request !! p = Some x) /\
  rq_leaves BridgeDemo.request !! ["count"] = Some (TVint32 16) /\
  rq_leaves BridgeDemo.request !! ["source"; "digitizer"] = Some (TVstring "D1").
Proof.
  destruct (rpc_request_faithful BridgeDemo.pool BridgeDemo.pool_ok BridgeDemo.request_d BridgeDemo.fields BridgeDemo.defaults
    BridgeDemo.request BridgeDemo.request_wf) as (H1 & _ & _); [by vm_compute|].
  split_and!; [by apply H1; right; left|by apply H1; left|by vm_compute|by vm_compute].
Defined.

Lemma prepared_defaults_accepted_witness :
  exists values rq, buildRequest BridgeDemo.pool BridgeDemo.request_d [] values = Ret rq /\ sm_find "source.mode" values = Some "2".
Proof.
  destruct (prepared_defaults_accepted BridgeDemo.pool BridgeDemo.pool_ok BridgeDemo.byteSize 1024 BridgeDemo.service
    [("mode", "2")] [] [("Average", [("source.mode", "2")])]) as [H1 _].
  - apply (bool_decide_unpack _). by vm_compute.
  - intros name m Hin. assert (BridgeDemo.service = Build_ServiceCtx [("Average", BridgeDemo.average)]
      (sc_replies BridgeDemo.service)) as E by (by vm_compute). rewrite E in Hin.
    apply list_elem_of_singleton in Hin as [= -> ->]. apply BridgeDemo.request_wf.
  - by vm_compute.
  - destruct (H1 "Average" BridgeDemo.average) as (values & Hv & Hc); [by vm_compute; left|].
    assert (values = [("source.mode", "2")]) as -> by (vm_compute in Hv; congruence).
    destruct Hc as [rq Hrq]; [|by exists [("source.mode", "2")], rq].
    intros q v Hin. apply list_elem_of_singleton in Hin as [= -> ->]. vm_compute. lia.
Defined.

Lemma reply_decoded_witness :
  exists v : MapValue.t, decodeReply BridgeDemo.pool BridgeDemo.reply BridgeDemo.reply_d BridgeDemo.members.1 1000 = Ret (v, 978) /\
    v_data v "source.mode" = Some (FTyped (TVint32 2)).
Proof.
  destruct (reply_decoded (V:=MapValue.t) BridgeDemo.pool BridgeDemo.pool_ok BridgeDemo.reply BridgeDemo.reply_d BridgeDemo.members.1
    BridgeDemo.members.2 1000 BridgeDemo.reply_wf) as [H1 _]; [by vm_compute|done|].
  destruct H1 as (v & Hv & Hl); [by vm_compute|]. exists v. split; [exact Hv|].
  apply (Hl ["source"; "mode"] (BridgeDemo.field "mode" CEnum false "")).
  apply (ld_step BridgeDemo.pool BridgeDemo.reply_d (BridgeDemo.field "source" CMessage false "demo.Source"));
    [by right; left|done|]. apply (ld_leaf _ BridgeDemo.source_d (BridgeDemo.field "mode" CEnum false "")); [by right; left|done].
Defined.

(** ** A default no call can use *)

Module LongDemo.
Definition inner : Descriptor :=
  {| de_full_name := "demo.Inner"; de_fields := [BridgeDemo.field "gain" CInt32 false ""] |}.
Definition outer (name : string) : Descriptor :=
  {| de_full_name := "demo.Outer"; de_fields := [BridgeDemo.field name CMessage false "demo.Inner"] |}.
Definition pool (name : string) : Pool := <["demo.Inner" := inner]> {["demo.Outer" := outer name]}.
Definition method (name : string) : MethodDescriptor :=
  {| md_name := "Set"; md_full_name := "demo.Set"; md_input := outer name; md_output := inner; md_streaming := false |}.
Definition service (name : string) : ServiceCtx := {| sc_methods := [("Set", method name)]; sc_replies := [] |}.

Section Names.
Context (rest : string) (Hdots : dotless rest = true).
Let name : string := String "a" rest.

Lemma find_gain : canonicalPath (pool name) (outer name) "gain" = Ret (name +:+ ".gain").
Proof.
  transitivity (Ret ((name +:+ ".") +:+ "gain")); [vm_compute; reflexivity|by rewrite <-str_app_assoc].
Qed.

Lemma set_gain : exists rq, setField (pool name) (outer name) Request_new (name +:+ ".gain", "1") = Ret rq.
Proof using Hdots.
  unfold setField. cbn [fst snd]. change (name +:+ ".gain") with (name +:+ "." +:+ "gain"). rewrite split_cons by (exact Hdots).
  cbn [setFieldAt]. assert (FindFieldByName (outer name) name = Some (BridgeDemo.field name CMessage false "demo.Inner")) as ->.
  { unfold FindFieldByName. cbn [outer de_fields List.find BridgeDemo.field fd_name]. by rewrite String.eqb_refl. }
  eexists. reflexivity.
Qed.
End Names.
End LongDemo.

(** A default can be accepted at discovery and then be refused by every call:
    the bare name of a nested field is replaced by the field's path, and a call
    checks that path against the length of an argument name when it takes the
    defaults apart again. *)
Theorem long_default_refused rest fields :
  dotless rest = true -> (4096 <= String.length rest)%nat ->
  let name := String "a" rest in
  prepareDefaults (LongDemo.pool name) (fun _ => 0) 1024 (LongDemo.service name) [("gain", "1")] [] =
    Ret [("Set", [(name +:+ ".gain", "1")])] /\
  buildRequest (LongDemo.pool name) (LongDemo.outer name) fields [(name +:+ ".gain", "1")] = Throw "invalid RPC field path".
Proof.
  intros Hdots Hlen name. split.
  - destruct (LongDemo.set_gain rest Hdots) as [rq Hrq]. fold name in Hrq. pose proof (LongDemo.find_gain rest) as Hg. fold name in Hg. clearbody name.
    unfold prepareDefaults, addDefaults, methodDefaults, addShared. cbn [LongDemo.service sc_methods exn_fold fst snd LongDemo.method md_input].
    rewrite Hg. cbn [mbind exn_bind]. assert (str_empty (name +:+ ".gain") = false) as -> by (by destruct name).
    generalize dependent (name +:+ ".gain"). intros q Hrq _. cbn -[setField LongDemo.pool LongDemo.outer]. by rewrite Hrq.
  - unfold buildRequest, canonicalFields, canonicalPath. cbn [length exn_fold addArgument].
    unfold addArgument, canonicalPath. cbn [fst].
    rewrite (proj2 (Nat.ltb_lt 4096 (String.length (name +:+ ".gain")))), orb_true_r by (rewrite str_length_app; cbn; lia). done.
Qed.

Fixpoint letters (n : nat) : string := match n with 0%nat => "" | S n => String "a" (letters n) end.

Lemma long_default_refused_witness :
  buildRequest (LongDemo.pool (letters 4097)) (LongDemo.outer (letters 4097)) [] [(letters 4097 +:+ ".gain", "1")] =
    Throw "invalid RPC field path".
Proof.
  apply (long_default_refused (letters 4096) []); [by vm_compute|]. vm_compute. lia.
Defined.
