(* ===== verification/RpcPV.v ===== *)
(** * RPC PVs

    src/rpc_pv.cpp: a call of a client is taken apart into arguments, queued,
    and made by a worker unless it was stopped or is no longer authorised when
    it is about to be sent.  The queue is OperationQueue, the handle of the
    client's operation QueuedExec, the call itself GrpcBridge.

    The calls of a service run in parallel and share its counters: each thread
    takes its steps from one point where another may run to the next, and a run
    is any sequence of such steps.  The theorems show what the counters say at
    every moment, that nothing is sent without authorisation and that a client
    is told at most one thing; and that the arguments of a request fit the
    bridge's limit.  PVXS's [reply] and [error] are taken to return. *)

From S2P Require Import Prelude.
From S2P Require Import StrMap.
From S2P Require Import Config.
From S2P Require Import Util.
From S2P Require Import Runtime.
From S2P Require Import Admin.
From S2P Require Import GrpcBridge.
From S2P Require Import AdminSpec.
From S2P Require Import GrpcBridgeSpec.
From S2P Require Import QueuedExec.

Local Open Scope string_scope.
Local Open Scope list_scope.
Local Open Scope Z_scope.

(** ** Arguments *)

(** A field of the request structure, with its name in it: a structure, an
    array or a union, or a scalar with its text. *)
Inductive argument := AStruct | ANotScalar | AScalar (text : string).
Definition body : Type := list (string * argument).

(** The type identifier, the structure itself and its [query]; [None] is no
    structure. *)
Record RpcArguments := { ra_id : string; ra_self : option body; ra_query : option body }.

Record Extract := { ex_out : smap string; ex_remaining : Z; ex_count : Z }.

Definition extractField (s : Extract) (field : string * argument) : exn Extract :=
  let count := ex_count s + 1 in
  if 4096 <? count then Throw "RPC argument structure exceeds field limit"
  else match field.2 with
       | AStruct => Ret {| ex_out := ex_out s; ex_remaining := ex_remaining s; ex_count := count |}
       | ANotScalar => Throw ("RPC argument must be scalar: " +:+ field.1)
       | AScalar text =>
           if (ex_remaining s <? strlen field.1) || (ex_remaining s - strlen field.1 <? strlen text)
           then Throw "RPC arguments exceed payload limit"
           else Ret {| ex_out := (sm_emplace field.1 text (ex_out s)).1;
                       ex_remaining := ex_remaining s - (strlen field.1 + strlen text); ex_count := count |}
       end.

Definition extractArgs (request : RpcArguments) (remaining : Z) : exn (smap string) :=
  let uri := String.prefix "epics:nt/NTURI:" (ra_id request) in
  match if uri then ra_query request else ra_self request with
  | None => Throw "RPC request/query must be a structure"
  | Some fields =>
      s ← exn_fold extractField {| ex_out := []; ex_remaining := remaining; ex_count := 0 |} fields;
      Ret (ex_out s)
  end.

(** What a call reserves in the queue. *)
Definition reservation (fields : smap string) : Z :=
  fold_left (fun bytes field => u64 (bytes + 128 + strlen field.1 + strlen field.2)) fields 1024.

(** ** A call *)

#[export] Instance RpcCallStats_eta : Eta RpcCallStats := fun r =>
  Build_RpcCallStats (rc_dispatched r) (rc_succeeded r) (rc_failed r) (rc_invalid r) (rc_unauthorized r).

Definition RpcCallStats_new : RpcCallStats := Build_RpcCallStats 0 0 0 0 0.

(** [++] on an atomic counter. *)
Definition plus1 (n : Z) : Z := u64 (n + 1).

(** What the client is told: a value, a reply without one, or an error. *)
Inductive answered (V : Type) := Value (v : V) | NoValue | Failure (what : string).
Arguments Value {V} v.
Arguments NoValue {V}.
Arguments Failure {V} what.

(** The counter the error path raised, if any. *)
Inductive raised := RFailed | RInvalid | RNone.

(** How far a call has come: in the handler, in the queue, and then in its
    worker, at every point where another thread may run.  In [PThrown] the
    exception is caught and nothing counted yet; its flags are [sent] and
    [denied]. *)
Inductive phase (V : Type) :=
| PHandling
| PExtracted (fields : smap string)
| PWoken (fields : smap string)
| PQueued (fields : smap string)
| PStarted (fields : smap string)
| PPrepared (md : MethodDescriptor) (rq : Request)
| PAsked (md : MethodDescriptor) (rq : Request)
| PLive (md : MethodDescriptor) (rq : Request)
| PAuthorized (md : MethodDescriptor) (rq : Request)
| PConfirmed (md : MethodDescriptor) (rq : Request)
| PCounted (md : MethodDescriptor) (rq : Request)
| PSent (md : MethodDescriptor) (rq : Request)
| PReturned (v : V)
| PReplying (v : V)
| PThrown (sent denied : bool) (what : string)
| PReporting (r : raised) (what : string)
| PSucceeded (v : V)
| PErred (r : raised) (what : string)
| PDropped.
Arguments PHandling {V}.
Arguments PExtracted {V} fields.
Arguments PWoken {V} fields.
Arguments PQueued {V} fields.
Arguments PStarted {V} fields.
Arguments PPrepared {V} md rq.
Arguments PAsked {V} md rq.
Arguments PLive {V} md rq.
Arguments PAuthorized {V} md rq.
Arguments PConfirmed {V} md rq.
Arguments PCounted {V} md rq.
Arguments PSent {V} md rq.
Arguments PReturned {V} v.
Arguments PReplying {V} v.
Arguments PThrown {V} sent denied what.
Arguments PReporting {V} r what.
Arguments PSucceeded {V} v.
Arguments PErred {V} r what.
Arguments PDropped {V}.

Record RpcCall := { cl_method : string; cl_defaults : smap string; cl_request : RpcArguments }.

(** A call under way: its handle ([pending], QueuedExec.v) with the thread that
    submits and the peer's cancellation, the ticket [submit] returned, whether
    [wake]'s callback is still to be run, and [control]'s flag.  The rest
    records what happened: the answer of the authorisation, the last look at
    [stopped], the request that was started, the failures the queue reported
    and what the client was told. *)
Record Serving (V : Type) := {
  sv_call : RpcCall; sv_phase : phase V; sv_sys : ExecSys; sv_returned : option Z; sv_notify : bool; sv_control : bool;
  sv_authorization : option bool; sv_last : option bool; sv_request : option Request; sv_reports : list string;
  sv_answers : list (answered V);
}.
Arguments Build_Serving {V} _ _ _ _ _ _ _ _ _ _ _.
Arguments sv_call {V} s.
Arguments sv_phase {V} s.
Arguments sv_sys {V} s.
Arguments sv_returned {V} s.
Arguments sv_notify {V} s.
Arguments sv_control {V} s.
Arguments sv_authorization {V} s.
Arguments sv_last {V} s.
Arguments sv_request {V} s.
Arguments sv_reports {V} s.
Arguments sv_answers {V} s.
#[export] Instance Serving_eta {V} : Eta (Serving V) := fun c =>
  Build_Serving (sv_call c) (sv_phase c) (sv_sys c) (sv_returned c) (sv_notify c) (sv_control c) (sv_authorization c) (sv_last c)
    (sv_request c) (sv_reports c) (sv_answers c).

Definition Serving_new {V} (call : RpcCall) : Serving V :=
  Build_Serving call PHandling ExecSys_new None false false None None None [] [].

(** The effects of the handle on the client and on [control]. *)
Definition delivered {V} (value : option V) (effects : list exec_effect) : list (answered V) :=
  omap (fun e => match e with
                 | XReply => Some (match value with Some v => Value v | None => NoValue end)
                 | XError message => Some (Failure message)
                 | _ => None
                 end) effects.

Definition notified (effects : list exec_effect) : bool := existsb (fun e => bool_decide (e = XNotify)) effects.

Definition acted {V} (c : Serving V) (value : option V) (r : QueuedExec * list exec_effect) : Serving V :=
  c <| sv_sys ::= fun y => Build_ExecSys r.1 (es_submitter y) (es_canceller y) (es_log y ++ r.2) |>
    <| sv_notify ::= orb (notified r.2) |> <| sv_answers ::= fun l => l ++ delivered value r.2 |>.

(** [pending->reply(value)], [pending->error(message)]. *)
Definition replyTo {V} (c : Serving V) (v : V) : Serving V := acted c (Some v) (reply (es_exec (sv_sys c))).
Definition errorTo {V} (c : Serving V) (message : string) : Serving V := acted c None (error (es_exec (sv_sys c)) message).

(** The failure callback of the queue. *)
Definition failTo {V} (c : Serving V) (message : string) : Serving V :=
  (errorTo c message) <| sv_reports ::= fun l => l ++ [message] |>.

(** The last line of either error path. *)
Definition reportCall {V} (c : Serving V) (r : raised) (what : string) : Serving V := (errorTo c what) <| sv_phase := PErred r what |>.

Definition kNotDispatched : string := "RPC cancelled or no longer authorized at dispatch; not retried".

Section Run.
Context (pool : Pool) (byteSize : Request -> Z) (maxMessageBytes : Z) (sc : ServiceCtx) (endpoint : string).
Context {V : Type} {HV : PvxsValue V} {HS : SharedPV V} {HT : PvxsTypes V}.

(** *** The handler *)

(** What [queue->submit] does: take the call under a ticket, or report at once
    that it does not and return 0. *)
Inductive submission := Taken (id : Z) | NotTaken (message : string).

(** The handler, from one point to the next: the arguments, [wake], [submit]. *)
Definition onRPC (sub : submission) (c : Serving V) (stats : RpcCallStats) : Serving V * RpcCallStats :=
  match sv_phase c with
  | PHandling =>
      match extractArgs (cl_request (sv_call c)) maxMessageBytes with
      | Ret fields => (c <| sv_phase := PExtracted fields |>, stats)
      | Throw what => (c <| sv_phase := PReporting RInvalid (cl_method (sv_call c) +:+ ": " +:+ what) |>, stats <| rc_invalid ::= plus1 |>)
      end
  | PExtracted fields => ((acted c None (wake (es_exec (sv_sys c)))) <| sv_phase := PWoken fields |>, stats)
  | PWoken fields =>
      match sub with
      | Taken id => (c <| sv_phase := PQueued fields |> <| sv_returned := Some id |>, stats)
      | NotTaken message => ((failTo c message) <| sv_phase := PDropped |> <| sv_returned := Some 0 |>, stats)
      end
  | PReporting r what => (reportCall c r what, stats)
  | _ => (c, stats)
  end.

(** [pending->ticket]: the ticket is stored, then [aborted] read; a worker may
    have the call by then. *)
Definition storeTicket (c : Serving V) : Serving V :=
  match sv_returned c, es_submitter (sv_sys c) with
  | Some id, Submitting => c <| sv_sys ::= fun y => Build_ExecSys (ticket_store (es_exec y) id) (Stored id) (es_canceller y) (es_log y) |>
  | Some _, Stored id =>
      c <| sv_sys ::= fun y => Build_ExecSys (es_exec y) (Submitted id) (es_canceller y) (es_log y ++ ticket_check (es_exec y) id) |>
  | _, _ => c
  end.

(** *** The worker *)

(** The closure [beforeDispatch], from one point to the next. *)
Definition beforeDispatch (authorization : bool) (c : Serving V) (stats : RpcCallStats) : Serving V * RpcCallStats :=
  let x := es_exec (sv_sys c) in
  match sv_phase c with
  | PAsked md rq =>
      if negb (operation x) || stopped x then (c <| sv_phase := PThrown false false kNotDispatched |>, stats)
      else (c <| sv_phase := PLive md rq |>, stats)
  | PLive md rq =>
      let c := c <| sv_authorization := Some authorization |> in
      if negb authorization
      then (c <| sv_phase := PThrown false true kNotDispatched |>, stats <| rc_unauthorized ::= plus1 |>)
      else (c <| sv_phase := PAuthorized md rq |>, stats)
  | PAuthorized md rq =>
      let c := c <| sv_last := Some (stopped x) |> in
      if stopped x then (c <| sv_phase := PThrown false false kNotDispatched |>, stats)
      else (c <| sv_phase := PConfirmed md rq |>, stats)
  | PConfirmed md rq => (c <| sv_phase := PCounted md rq |>, stats <| rc_dispatched ::= plus1 |>)
  | _ => (c, stats)
  end.

(** The error path: which counter goes up. *)
Definition failCall (c : Serving V) (stats : RpcCallStats) (sent denied : bool) (what : string) : Serving V * RpcCallStats :=
  let what := cl_method (sv_call c) +:+ ": " +:+ what in
  if sent then (c <| sv_phase := PReporting RFailed what |>, stats <| rc_failed ::= plus1 |>)
  else if negb denied && negb (stopped (es_exec (sv_sys c)))
  then (c <| sv_phase := PReporting RInvalid what |>, stats <| rc_invalid ::= plus1 |>)
  else (c <| sv_phase := PReporting RNone what |>, stats).

(** The closure the queue runs, with [bridge->call] in it, from one point to the
    next.  [e] has the clocks, what is missing in the request and what the
    transport returns, [authorization] the answer of [authorizeWriteDispatch]. *)
Definition runCall (e : CallEnv) (authorization : bool) (c : Serving V) (stats : RpcCallStats) : Serving V * RpcCallStats :=
  match sv_phase c with
  | PQueued fields => (c <| sv_phase := if stopped (es_exec (sv_sys c)) then PDropped else PStarted fields |>, stats)
  | PStarted fields =>
      match prepareCall pool byteSize maxMessageBytes sc (cl_method (sv_call c)) fields (cl_defaults (sv_call c)) e with
      | Ret (md, rq) => (c <| sv_phase := PPrepared md rq |>, stats)
      | Throw what => (c <| sv_phase := PThrown false false what |>, stats)
      end
  | PPrepared md rq => (c <| sv_phase := if sv_control c then PThrown false false kNotDispatched else PAsked md rq |>, stats)
  | PAsked _ _ | PLive _ _ | PAuthorized _ _ | PConfirmed _ _ => beforeDispatch authorization c stats
  | PCounted md rq =>
      if sv_control c then (c <| sv_phase := PThrown true false kNotDispatched |>, stats)
      else (c <| sv_phase := PSent md rq |> <| sv_request := Some rq |>, stats)
  | PSent md rq =>
      match finishCall pool maxMessageBytes sc endpoint (cl_method (sv_call c)) md (ce_transport e rq) with
      | Ret (v, _) => (c <| sv_phase := PReturned v |>, stats)
      | Throw what => (c <| sv_phase := PThrown true false what |>, stats)
      end
  | PReturned v => (c <| sv_phase := PReplying v |>, stats <| rc_succeeded ::= plus1 |>)
  | PReplying v => ((replyTo c v) <| sv_phase := PSucceeded v |>, stats)
  | PThrown sent denied what => failCall c stats sent denied what
  | PReporting r what => (reportCall c r what, stats)
  | _ => (c, stats)
  end.

(** *** Everything else that happens to a call *)

(** The queue drops a waiting call; it reports a failure (the deadline, a
    cancellation, the end), which may come at any time, also while the worker is
    busy; the peer cancels, in two steps; and [wake]'s callback, which [finish]
    runs after it has set [stopped], cancels the backend's call. *)
Definition dropCall (c : Serving V) : Serving V :=
  match sv_phase c with PQueued _ => c <| sv_phase := PDropped |> | _ => c end.

Definition reportFailure (message : string) (c : Serving V) : Serving V :=
  match sv_phase c with PHandling | PExtracted _ | PWoken _ => c | _ => failTo c message end.

Definition cancelCall (c : Serving V) : Serving V :=
  match es_canceller (sv_sys c) with
  | NotCancelled =>
      (acted c None (cancel_finish (es_exec (sv_sys c))))
        <| sv_sys ::= fun y => Build_ExecSys (es_exec y) (es_submitter y) Finished (es_log y) |>
  | Finished => c <| sv_sys ::= fun y => Build_ExecSys (es_exec y) (es_submitter y) Cancelled (es_log y ++ cancel_load (es_exec y)) |>
  | Cancelled => c
  end.

Definition notifyControl (c : Serving V) : Serving V := if sv_notify c then c <| sv_notify := false |> <| sv_control := true |> else c.

(** *** The calls of a service, which share its counters *)

Record RpcSys := { ry_stats : RpcCallStats; ry_calls : list (Serving V) }.
Definition RpcSys_new : RpcSys := {| ry_stats := RpcCallStats_new; ry_calls := [] |}.

(** Any thread's next step; a step that cannot be taken changes nothing. *)
Inductive rpc_event :=
| EArrive (call : RpcCall)
| EHandle (i : nat) (sub : submission)
| ETicket (i : nat)
| EWork (i : nat) (e : CallEnv) (authorization : bool)
| EDrop (i : nat)
| EFail (i : nat) (message : string)
| ECancel (i : nat)
| ENotify (i : nat).

Definition onCall (s : RpcSys) (i : nat) (f : Serving V -> RpcCallStats -> Serving V * RpcCallStats) : RpcSys :=
  match ry_calls s !! i with
  | Some c => let '(c, stats) := f c (ry_stats s) in {| ry_stats := stats; ry_calls := <[i := c]> (ry_calls s) |}
  | None => s
  end.

Definition serveCall (s : RpcSys) (ev : rpc_event) : RpcSys :=
  match ev with
  | EArrive call => {| ry_stats := ry_stats s; ry_calls := ry_calls s ++ [Serving_new call] |}
  | EHandle i sub => onCall s i (onRPC sub)
  | ETicket i => onCall s i (fun c stats => (storeTicket c, stats))
  | EWork i e authorization => onCall s i (runCall e authorization)
  | EDrop i => onCall s i (fun c stats => (dropCall c, stats))
  | EFail i message => onCall s i (fun c stats => (reportFailure message c, stats))
  | ECancel i => onCall s i (fun c stats => (cancelCall c, stats))
  | ENotify i => onCall s i (fun c stats => (notifyControl c, stats))
  end.
End Run.

Section Theorems.
Context (pool : Pool) (byteSize : Request -> Z) (maxMessageBytes : Z) (sc : ServiceCtx) (endpoint : string).
Context {V : Type} {HV : PvxsValue V} {HS : SharedPV V} {HT : PvxsTypes V}.

(** *** Arguments *)

Definition argumentBytes (fields : smap string) : Z := fold_right Z.add 0 (map (fun f => strlen f.1 + strlen f.2) fields).

Lemma argumentBytes_set k v fields : sm_has k fields = false -> argumentBytes (sm_set k v fields) = strlen k + strlen v + argumentBytes fields /\
  length (sm_set k v fields) = S (length fields).
Proof.
  unfold sm_has. induction fields as [|[k' v'] fields IH]; cbn; [done|]. destruct (String.eqb_spec k k') as [->|Hne]; [done|]. intros H.
  destruct (k ?= k')%string eqn:E; [by apply String.compare_eq_iff in E|done|].
  destruct (IH H) as [Hb Hl]. cbn. rewrite Hl. split; [|done]. unfold argumentBytes in *. cbn. rewrite Hb. lia.
Qed.

(** What is left of the limit and of the number of fields. *)
Definition within (limit : Z) (s : Extract) : Prop :=
  argumentBytes (ex_out s) + ex_remaining s <= limit /\ 0 <= ex_remaining s /\
  Z.of_nat (length (ex_out s)) <= ex_count s <= 4096 /\ sm_wf (ex_out s).

Lemma extractField_within limit s field s' : within limit s -> extractField s field = Ret s' -> within limit s'.
Proof.
  intros (Hb & Hr & Hc & Hw). assert (Hs : forall t, 0 <= strlen t) by (unfold strlen; lia). pose proof (Hs field.1). unfold extractField. destruct (4096 <? _) eqn:E1; [done|]. apply Z.ltb_ge in E1.
  destruct (field.2) as [| |text]; [intros [= <-]; unfold within; cbn; split_and!; (done || lia)|done|].
  destruct (_ || _) eqn:E2; [done|]. apply orb_false_iff in E2 as [E2%Z.ltb_ge E3%Z.ltb_ge]. intros [= <-]. unfold within, sm_emplace. cbn [ex_out ex_remaining ex_count]. pose proof (Hs text).
  destruct (sm_has _ _) eqn:Eh; cbn [fst]; [split_and!; [lia..|done]|].
  destruct (argumentBytes_set field.1 text _ Eh) as [-> ->]. split_and!; [lia..|by apply sm_wf_set].
Qed.

Lemma reservation_sum fields a : 0 <= a -> a + 128 * Z.of_nat (length fields) + argumentBytes fields < 2 ^ 64 ->
  fold_left (fun bytes field => u64 (bytes + 128 + strlen field.1 + strlen field.2)) fields a =
  a + 128 * Z.of_nat (length fields) + argumentBytes fields.
Proof.
  revert a. induction fields as [|[k v] fields IH]; intros a Ha Hlt; [cbn; lia|].
  assert (0 <= argumentBytes fields).
  { clear. induction fields as [|f fields IH]; cbn; [done|]. unfold argumentBytes, strlen in *. lia. }
  unfold argumentBytes in *. cbn [map fold_right fold_left length fst snd] in *. unfold strlen in *. rewrite u64_id by lia.
  rewrite IH by lia. lia.
Qed.

(** The arguments taken from a request fit the payload limit of the bridge, at
    most 4096 of them, and the space reserved for the call in the operation
    queue covers them: the sum of their sizes never wraps. *)
Theorem rpc_arguments_bounded request limit fields :
  0 <= limit < 2 ^ 63 -> extractArgs request limit = Ret fields ->
  argumentBytes fields <= limit /\ (length fields <= 4096)%nat /\ sm_wf fields /\
  reservation fields = 1024 + 128 * Z.of_nat (length fields) + argumentBytes fields.
Proof.
  intros Hl. unfold extractArgs. destruct (if String.prefix _ _ then _ else _) as [body|]; [|done].
  intros (s & Hs & [= <-])%exn_bind_ret.
  assert (Hw : within limit s).
  { eapply exn_fold_inv; [|intros ????; eapply extractField_within|exact Hs]. unfold within. cbn. split_and!; try lia. apply sm_wf_nil. }
  destruct Hw as (Hb & Hr & Hc & Hw). split_and!; [lia|lia|done|]. apply reservation_sum; lia.
Qed.
End Theorems.

Lemma rpc_arguments_bounded_witness :
  argumentBytes [("channel", "D1"); ("rate", "10")] <= 1024 /\ reservation [("channel", "D1"); ("rate", "10")] = 1295.
Proof.
  destruct (rpc_arguments_bounded
    {| ra_id := "epics:nt/NTURI:1.0"; ra_self := None; ra_query := Some [("channel", AScalar "D1"); ("rate", AScalar "10")] |} 1024
    [("channel", "D1"); ("rate", "10")]) as (H1 & _ & _ & H2); [lia|by vm_compute|]. split; [exact H1|by rewrite H2].
Defined.

(** ** What the counters say *)

Section Facts.
Context (pool : Pool) (byteSize : Request -> Z) (maxMessageBytes : Z) (sc : ServiceCtx) (endpoint : string).
Context {V : Type} {HV : PvxsValue V} {HS : SharedPV V} {HT : PvxsTypes V}.

(** The classes of calls the counters are about; [in_flight] are those counted
    as dispatched whose outcome is not counted yet. *)
Definition is_succeeded (c : Serving V) : bool := match sv_phase c with PReplying _ | PSucceeded _ => true | _ => false end.
Definition is_failed (c : Serving V) : bool := match sv_phase c with PReporting RFailed _ | PErred RFailed _ => true | _ => false end.
Definition in_flight (c : Serving V) : bool :=
  match sv_phase c with PCounted _ _ | PSent _ _ | PReturned _ | PThrown true _ _ => true | _ => false end.
Definition is_dispatched (c : Serving V) : bool := is_succeeded c || is_failed c || in_flight c.
Definition is_invalid (c : Serving V) : bool := match sv_phase c with PReporting RInvalid _ | PErred RInvalid _ => true | _ => false end.
Definition is_denied (c : Serving V) : bool := match sv_authorization c with Some false => true | _ => false end.
Definition tallied (P : Serving V -> bool) (calls : list (Serving V)) : Z := Z.of_nat (length (List.filter P calls)).

(** The request is the one the arguments and the defaults of the call make,
    within the limit. *)
Definition made (c : Serving V) (md : MethodDescriptor) (rq : Request) : Prop :=
  exists fields, extractArgs (cl_request (sv_call c)) maxMessageBytes = Ret fields /\
    sm_find (cl_method (sv_call c)) (sc_methods sc) = Some md /\
    buildRequest pool (md_input md) fields (cl_defaults (sv_call c)) = Ret rq /\ byteSize rq <= maxMessageBytes.

(** It may go out: authorised, and not stopped at the last look. *)
Definition cleared (c : Serving V) (md : MethodDescriptor) (rq : Request) : Prop :=
  made c md rq /\ sv_authorization c = Some true /\ sv_last c = Some false.

Definition started (c : Serving V) : Prop := forall rq, sv_request c = Some rq -> exists md, cleared c md rq.

(** The value is the decoded reply of the backend to the request that was sent. *)
Definition received (c : Serving V) (v : V) : Prop :=
  exists md rq t k, sv_request c = Some rq /\ cleared c md rq /\
    finishCall pool maxMessageBytes sc endpoint (cl_method (sv_call c)) md t = Ret (v, k).

Definition progress (c : Serving V) : Prop :=
  match sv_phase c with
  | PHandling => sv_authorization c = None /\ sv_request c = None
  | PExtracted fields | PWoken fields | PQueued fields | PStarted fields =>
      extractArgs (cl_request (sv_call c)) maxMessageBytes = Ret fields /\ sv_authorization c = None /\ sv_request c = None
  | PPrepared md rq | PAsked md rq | PLive md rq => made c md rq /\ sv_authorization c = None /\ sv_request c = None
  | PAuthorized md rq => made c md rq /\ sv_authorization c = Some true /\ sv_request c = None
  | PConfirmed md rq | PCounted md rq => cleared c md rq /\ sv_request c = None
  | PSent md rq => cleared c md rq /\ sv_request c = Some rq
  | PReturned v | PReplying v | PSucceeded v => received c v
  | PThrown true _ _ | PReporting RFailed _ | PErred RFailed _ => started c
  | _ => sv_request c = None
  end.

Definition answerOf (message : string) : answered V := if str_empty message then NoValue else Failure message.

(** Who stopped the handle: the peer, a failure the queue reported, or the
    worker with its answer. *)
Definition settled (c : Serving V) : Prop :=
  if qx_stopped (es_exec (sv_sys c))
  then es_canceller (sv_sys c) <> NotCancelled \/
       (exists message, message ∈ sv_reports c /\ sv_answers c = [answerOf message]) \/
       match sv_phase c with
       | PSucceeded v => sv_answers c = [Value v]
       | PErred _ what => sv_answers c = [answerOf what]
       | _ => False
       end
  else sv_answers c = [] /\ match sv_phase c with PSucceeded _ | PErred _ _ => False | _ => True end.

(** A value is only ever the outcome of the call. *)
Definition valued (c : Serving V) : Prop :=
  (length (sv_answers c) <= if qx_stopped (es_exec (sv_sys c)) then 1 else 0)%nat /\
  forall v, Value v ∈ sv_answers c -> sv_phase c = PSucceeded v.

Record call_inv (c : Serving V) : Prop := {
  ci_sys : exec_inv (sv_sys c);
  ci_progress : progress c;
  ci_settled : settled c;
  ci_valued : valued c;
}.

Lemma told_finish (value : option V) x message cancelled : exec_ok x ->
  delivered value (finish x message cancelled).2 =
  if qx_stopped x || cancelled then []
  else [if str_empty message then match value with Some v => Value v | None => NoValue end else Failure message].
Proof.
  unfold exec_ok, finish. intros Hop. destruct (qx_stopped x); [done|]. cbn in Hop. rewrite Hop. cbn [snd].
  unfold delivered. rewrite omap_app. destruct (qx_wake x), cancelled, (str_empty message); done.
Qed.

(** What the effects of the handle leave alone. *)
Lemma acted_frame (c : Serving V) value r :
  sv_call (acted c value r) = sv_call c /\ sv_phase (acted c value r) = sv_phase c /\
  sv_authorization (acted c value r) = sv_authorization c /\ sv_last (acted c value r) = sv_last c /\
  sv_request (acted c value r) = sv_request c /\ sv_reports (acted c value r) = sv_reports c /\
  sv_answers (acted c value r) = sv_answers c ++ delivered value r.2 /\ es_exec (sv_sys (acted c value r)) = r.1 /\
  es_canceller (sv_sys (acted c value r)) = es_canceller (sv_sys c).
Proof. done. Qed.

Lemma acted_sys (c : Serving V) value message : exec_inv (sv_sys c) ->
  exec_inv (sv_sys (acted c value (finish (es_exec (sv_sys c)) message false))).
Proof. intros Hi. destruct (sv_sys c) as [x p k log] eqn:E. unfold acted. cbn. rewrite E. eapply exec_step_inv; [apply X_finish|exact Hi]. Qed.

(** The same call for everything but its handle and what is recorded of it. *)
Definition same_call (c c' : Serving V) : Prop :=
  sv_call c' = sv_call c /\ sv_authorization c' = sv_authorization c /\ sv_last c' = sv_last c /\ sv_request c' = sv_request c.

Lemma progress_same c c' : same_call c c' -> sv_phase c' = sv_phase c -> progress c -> progress c'.
Proof.
  intros (H1 & H2 & H3 & H4) Hp. unfold progress, started, received, cleared, made. by rewrite Hp, H1, H2, H3, H4.
Qed.

(** The handle of an answered call takes no second answer; one that is not
    stopped takes the first. *)
Lemma failTo_inv c message : call_inv c -> call_inv (failTo c message).
Proof.
  intros [Hs Hp Hse [Hl Hv]]. pose proof (ei_ok _ Hs) as Hok.
  split; [by apply acted_sys|by apply (progress_same c)|..].
  - unfold settled in *. unfold failTo, errorTo, error. cbn. fold (delivered (V:=V) None (finish (es_exec (sv_sys c)) message false).2).
    destruct (finish_spec (es_exec (sv_sys c)) message false Hok) as (_ & -> & _). rewrite told_finish by done.
    destruct (qx_stopped _); cbn; rewrite ?app_nil_r.
    + destruct Hse as [?|[(m & Hm & ?)|?]]; [by left| |by right; right]. right; left. exists m. by rewrite elem_of_app; auto.
    + destruct Hse as [-> _]. right; left. exists message. split; [rewrite elem_of_app; right; left|done].
  - unfold valued, settled in *. unfold failTo, errorTo, error. cbn. fold (delivered (V:=V) None (finish (es_exec (sv_sys c)) message false).2).
    destruct (finish_spec (es_exec (sv_sys c)) message false Hok) as (_ & -> & _). rewrite told_finish by done.
    destruct (qx_stopped _); cbn; rewrite ?app_nil_r; [done|]. destruct Hse as [-> _]. cbn. split; [lia|].
    intros v. rewrite list_elem_of_singleton. by destruct (str_empty message).
Qed.

Definition terminal (p : phase V) : bool := match p with PSucceeded _ | PErred _ _ => true | _ => false end.

(** A step of the handler or the worker that leaves the handle alone. *)
Lemma move_inv c c' :
  call_inv c -> sv_sys c' = sv_sys c -> sv_reports c' = sv_reports c -> sv_answers c' = sv_answers c ->
  terminal (sv_phase c) = false -> terminal (sv_phase c') = false -> progress c' -> call_inv c'.
Proof.
  intros [Hs _ Hse [Hl Hv]] Es Er Ea T T' Hp. split; [by rewrite Es|done|..].
  - unfold settled in *. rewrite Es, Er, Ea. destruct (qx_stopped _).
    + destruct Hse as [?|[?|Hse]]; [by left|by right; left|]. by destruct (sv_phase c).
    + destruct Hse as [? _]. split; [done|]. by destruct (sv_phase c').
  - unfold valued. rewrite Es, Ea. split; [done|]. intros v Hi. apply Hv in Hi. by rewrite Hi in T.
Qed.

(** The worker's or the handler's answer, its last step. *)
Lemma end_inv c value message p :
  call_inv c -> terminal (sv_phase c) = false ->
  let answer := if str_empty message then match value with Some v => Value v | None => NoValue end else Failure message in
  match p with PSucceeded v => answer = Value v | PErred _ what => answer = answerOf what | _ => False end ->
  let c' := (acted c value (finish (es_exec (sv_sys c)) message false)) <| sv_phase := p |> in
  progress c' -> call_inv c'.
Proof.
  intros [Hs _ Hse [Hl Hv]] T answer Ha c' Hp. pose proof (ei_ok _ Hs) as Hok.
  assert (Hst : qx_stopped (es_exec (sv_sys c')) = true) by (by destruct (finish_spec (es_exec (sv_sys c)) message false Hok) as (_ & ? & _)).
  assert (Han : sv_answers c' = sv_answers c ++ if qx_stopped (es_exec (sv_sys c)) then [] else [answer]).
  { unfold c'. cbn. fold (delivered value (finish (es_exec (sv_sys c)) message false).2). rewrite told_finish by done. by destruct (qx_stopped _). }
  split; [by apply acted_sys|done|..].
  - unfold settled in *. rewrite Hst, Han. destruct (qx_stopped (es_exec (sv_sys c))).
    + rewrite app_nil_r. destruct Hse as [?|[?|Hse]]; [by left|by right; left|]. by destruct (sv_phase c).
    + destruct Hse as [-> _]. right; right. cbn. destruct p; try done; by rewrite Ha.
  - unfold valued, settled in *. rewrite Hst, Han. destruct (qx_stopped (es_exec (sv_sys c))).
    + rewrite app_nil_r. split; [done|]. intros v Hi. apply Hv in Hi. by rewrite Hi in T.
    + destruct Hse as [-> _]. cbn. split; [lia|]. intros v Hi%list_elem_of_singleton.
      destruct p; try done; rewrite <-Hi in Ha; [by injection Ha as <-|]. exfalso. revert Ha. unfold answerOf. destruct (str_empty what); discriminate.
Qed.

Lemma wake_inv c : call_inv c -> call_inv (acted c None (wake (es_exec (sv_sys c)))).
Proof.
  intros [Hs Hp Hse Hv]. split; [|by apply (progress_same c)|..].
  - destruct (sv_sys c) as [x p k log] eqn:E. unfold acted. cbn. rewrite E. eapply exec_step_inv; [apply X_wake|exact Hs].
  - unfold settled in *. cbn. destruct (qx_stopped _); cbn; by rewrite app_nil_r.
  - unfold valued in *. cbn. destruct (qx_stopped _); cbn; by rewrite app_nil_r.
Qed.

Lemma cancelCall_inv c : call_inv c -> call_inv (cancelCall c).
Proof.
  intros Hc. pose proof Hc as [Hs Hp Hse [Hl Hv]]. pose proof (ei_ok _ Hs) as Hok. unfold cancelCall.
  destruct (sv_sys c) as [x p k log] eqn:E. cbn [es_canceller es_exec].
  destruct k; [| |done].
  - destruct (finish_spec x "" true Hok) as (_ & Hst & _). pose proof (told_finish None x "" true Hok) as Ht. rewrite orb_true_r in Ht.
    split; [|by apply (progress_same c)|..].
    + unfold acted. cbn. rewrite E. eapply exec_step_inv; [apply X_cancel|exact Hs].
    + unfold settled. cbn. unfold cancel_finish. rewrite Hst. left. done.
    + unfold valued. cbn. unfold cancel_finish. rewrite Hst. fold (delivered (V:=V) None (finish x "" true).2). rewrite Ht, app_nil_r.
      cbn in Hl. split; [destruct (qx_stopped x); lia|done].
  - split; [|by apply (progress_same c)|..].
    + cbn. rewrite E. eapply exec_step_inv; [apply X_load|exact Hs].
    + unfold settled in *. cbn in *. rewrite E in *. cbn in *. destruct (qx_stopped x); [by left|done].
    + unfold valued in *. cbn in *. by rewrite E in *.
Qed.

Lemma storeTicket_inv c : call_inv c -> call_inv (storeTicket c).
Proof.
  intros Hc. pose proof Hc as [Hs Hp Hse Hv]. unfold storeTicket. destruct (sv_returned c) as [id|]; [|done].
  destruct (sv_sys c) as [x p k log] eqn:E. cbn [es_submitter]. destruct p as [|id'|id']; [..|done];
    (split; [|by apply (progress_same c)|..]).
  - cbn. rewrite E. eapply exec_step_inv; [apply X_store|exact Hs].
  - unfold settled in *. cbn in *. by rewrite E in *.
  - unfold valued in *. cbn in *. by rewrite E in *.
  - cbn. rewrite E. eapply exec_step_inv; [apply X_check|exact Hs].
  - unfold settled in *. cbn in *. by rewrite E in *.
  - unfold valued in *. cbn in *. by rewrite E in *.
Qed.

(** *** The counters *)

(** A counter goes up exactly when the call enters its class. *)
Definition counts (P : Serving V -> bool) (c c' : Serving V) (before after : Z) : Prop :=
  (P c' = P c /\ after = before) \/ (P c = false /\ P c' = true /\ after = plus1 before).

Record recounted (c c' : Serving V) (before after : RpcCallStats) : Prop := {
  rd_dispatched : counts is_dispatched c c' (rc_dispatched before) (rc_dispatched after);
  rd_succeeded : counts is_succeeded c c' (rc_succeeded before) (rc_succeeded after);
  rd_failed : counts is_failed c c' (rc_failed before) (rc_failed after);
  rd_invalid : counts is_invalid c c' (rc_invalid before) (rc_invalid after);
  rd_unauthorized : counts is_denied c c' (rc_unauthorized before) (rc_unauthorized after);
}.

Definition good_step (c : Serving V) (before : RpcCallStats) (r : Serving V * RpcCallStats) : Prop :=
  call_inv r.1 /\ recounted c r.1 before r.2.

(** Nothing counted, and the phase as it was. *)
Lemma recounted_same c c' stats : sv_phase c' = sv_phase c -> sv_authorization c' = sv_authorization c -> recounted c c' stats stats.
Proof.
  intros Hp Ha. split; left; (split; [|done]);
    unfold is_dispatched, is_succeeded, is_failed, in_flight, is_invalid, is_denied; by rewrite ?Hp, ?Ha.
Qed.

Ltac recount Ep :=
  split; unfold counts, is_dispatched, is_succeeded, is_failed, in_flight, is_invalid, is_denied;
    cbn; rewrite ?Ep; cbn; first [by left | by right].

Ltac moved c Ep := apply (move_inv c); [assumption|reflexivity..|by rewrite Ep|reflexivity|].

Lemma prepareCall_made c fields e md rq : extractArgs (cl_request (sv_call c)) maxMessageBytes = Ret fields ->
  prepareCall pool byteSize maxMessageBytes sc (cl_method (sv_call c)) fields (cl_defaults (sv_call c)) e = Ret (md, rq) -> made c md rq.
Proof.
  intros Hx. unfold prepareCall. destruct (sm_find _ _) as [md'|] eqn:Ef; [|done]. intros (rq' & Hrq & Hp)%exn_bind_ret.
  destruct (ce_missing e rq'); [done|]. unfold throw_if in Hp. destruct (maxMessageBytes <? _) eqn:E; [done|]. cbn in Hp.
  destruct (_ <=? 0); [done|]. injection Hp as <- <-. apply Z.ltb_ge in E. exists fields. by split_and!.
Qed.

Lemma beforeDispatch_good authorization c stats : call_inv c -> good_step c stats (beforeDispatch authorization c stats).
Proof.
  intros Hc. pose proof (ci_progress _ Hc) as Hp. unfold progress in Hp.
  unfold beforeDispatch, good_step. destruct (sv_phase c) as [| | | | | |md rq|md rq|md rq|md rq| | | | | | | | |] eqn:Ep;
    try (split; [done|by apply recounted_same]).
  - destruct Hp as (Hm & Ha & Hr). destruct (_ || _); (split; [moved c Ep; done|recount Ep]).
  - destruct Hp as (Hm & Ha & Hr). destruct authorization; cbn [negb]; (split; [moved c Ep; done|]).
    + split; unfold counts, is_dispatched, is_succeeded, is_failed, in_flight, is_invalid, is_denied; cbn; rewrite ?Ep, ?Ha; by left.
    + split; unfold counts, is_dispatched, is_succeeded, is_failed, in_flight, is_invalid, is_denied; cbn; rewrite ?Ep, ?Ha;
        first [by left | by right].
  - destruct Hp as (Hm & Ha & Hr). destruct (stopped _) eqn:Es; (split; [moved c Ep; try done|recount Ep]).
  - destruct Hp as ((Hm & Ha & Hl) & Hr). split; [moved c Ep; done|recount Ep].
Qed.

Lemma failCall_good c stats sent denied what : call_inv c -> sv_phase c = PThrown sent denied what ->
  good_step c stats (failCall c stats sent denied what).
Proof.
  intros Hc Ep. pose proof (ci_progress _ Hc) as Hp. unfold progress in Hp. rewrite Ep in Hp.
  unfold failCall, good_step. destruct sent; [|destruct (_ && _)]; (split; [moved c Ep; exact Hp|recount Ep]).
Qed.

Lemma reportCall_good c stats r what : call_inv c -> sv_phase c = PReporting r what -> good_step c stats (reportCall c r what, stats).
Proof.
  intros Hc Ep. pose proof (ci_progress _ Hc) as Hp. unfold progress in Hp. rewrite Ep in Hp.
  split.
  - apply (end_inv c None what (PErred r what)); [done|by rewrite Ep|done|exact Hp].
  - destruct r; recount Ep.
Qed.

Lemma runCall_good e authorization c stats : call_inv c ->
  good_step c stats (runCall pool byteSize maxMessageBytes sc endpoint e authorization c stats).
Proof.
  intros Hc. pose proof (ci_progress _ Hc) as Hp. unfold progress in Hp. unfold runCall.
  destruct (sv_phase c) as [|fields|fields|fields|fields|md rq|md rq|md rq|md rq|md rq|md rq|md rq|v|v|sent denied what|r what|v|r what|] eqn:Ep;
    try (split; [done|by apply recounted_same]); try (by apply beforeDispatch_good).
  - destruct (stopped _); (split; [moved c Ep; cbn; tauto|recount Ep]).
  - destruct Hp as (Hx & Ha & Hr). destruct (prepareCall _ _ _ _ _ _ _ _) as [[md rq]|what] eqn:E; (split; [moved c Ep|recount Ep]); [|done].
    split; [|done]. by eapply prepareCall_made.
  - destruct (sv_control c); (split; [moved c Ep; cbn; tauto|recount Ep]).
  - destruct Hp as (Hcl & Hr). destruct (sv_control c); (split; [moved c Ep|recount Ep]); [|done].
    intros rq'. cbn. by rewrite Hr.
  - destruct Hp as (Hcl & Hr). destruct (finishCall _ _ _ _ _ _ _) as [[v k]|what] eqn:E; (split; [moved c Ep|recount Ep]).
    + exists md, rq, (ce_transport e rq), k. by split_and!.
    + intros rq'. cbn. rewrite Hr. intros [= <-]. by exists md.
  - split; [moved c Ep; done|recount Ep].
  - split; [|recount Ep]. apply (end_inv c (Some v) "" (PSucceeded v)); [done|by rewrite Ep|done|exact Hp].
  - by apply failCall_good.
  - by apply reportCall_good.
Qed.

Lemma onRPC_good sub c stats : call_inv c -> good_step c stats (onRPC maxMessageBytes sub c stats).
Proof.
  intros Hc. pose proof (ci_progress _ Hc) as Hp. unfold progress in Hp. unfold onRPC.
  destruct (sv_phase c) as [|fields|fields| | | | | | | | | | | | |r what| | |] eqn:Ep; try (split; [done|by apply recounted_same]).
  - destruct Hp as (Ha & Hr). destruct (extractArgs _ _) as [fields|what] eqn:Ex; (split; [moved c Ep; done|recount Ep]).
  - split; [|recount Ep]. apply (move_inv (acted c None (wake (es_exec (sv_sys c))))); [by apply wake_inv|done..|by cbn; rewrite Ep|done|exact Hp].
  - destruct sub as [id|message]; (split; [|recount Ep]); [by moved c Ep|].
    apply (move_inv (failTo c message)); [by apply failTo_inv|done..|by cbn; rewrite Ep|done|]. cbn. tauto.
  - by apply reportCall_good.
Qed.

Lemma other_good f c stats : call_inv (f c) -> sv_phase (f c) = sv_phase c -> sv_authorization (f c) = sv_authorization c ->
  good_step c stats (f c, stats).
Proof. intros H1 H2 H3. split; [done|by apply recounted_same]. Qed.

Lemma dropCall_good c stats : call_inv c -> good_step c stats (dropCall c, stats).
Proof.
  intros Hc. pose proof (ci_progress _ Hc) as Hp. unfold progress in Hp. unfold dropCall.
  destruct (sv_phase c) eqn:Ep; try (split; [done|by apply recounted_same]). split; [moved c Ep; cbn; tauto|recount Ep].
Qed.

Lemma reportFailure_good message c stats : call_inv c -> good_step c stats (reportFailure message c, stats).
Proof.
  intros Hc. apply (other_good (reportFailure message)); unfold reportFailure; destruct (sv_phase c) eqn:Ep; try done; by apply failTo_inv.
Qed.

Lemma cancelCall_good c stats : call_inv c -> good_step c stats (cancelCall c, stats).
Proof. intros Hc. apply (other_good cancelCall); [by apply cancelCall_inv|..]; unfold cancelCall; by destruct (es_canceller (sv_sys c)). Qed.

Lemma storeTicket_good c stats : call_inv c -> good_step c stats (storeTicket c, stats).
Proof.
  intros Hc. apply (other_good storeTicket); [by apply storeTicket_inv|..]; unfold storeTicket;
    by destruct (sv_returned c), (es_submitter (sv_sys c)).
Qed.

Lemma notifyControl_good c stats : call_inv c -> good_step c stats (notifyControl c, stats).
Proof.
  intros Hc. apply (other_good notifyControl); unfold notifyControl; destruct (sv_notify c); try done.
  destruct Hc as [Hs Hp Hse Hv]. split; [done|by apply (progress_same c)|done|done].
Qed.

Lemma new_call_inv call : call_inv (Serving_new call).
Proof.
  split; [apply exec_reach_inv, rtc_refl|done|done|]. split; [done|]. intros v H%elem_of_nil. done.
Qed.
End Facts.

Section Accounting.
Context (pool : Pool) (byteSize : Request -> Z) (maxMessageBytes : Z) (sc : ServiceCtx) (endpoint : string).
Context {V : Type} {HV : PvxsValue V} {HS : SharedPV V} {HT : PvxsTypes V}.

(** Every counter is the size of its class, modulo 2^64. *)
Record counters_ok (s : RpcSys (V:=V)) : Prop := {
  co_dispatched : rc_dispatched (ry_stats s) = u64 (tallied is_dispatched (ry_calls s));
  co_succeeded : rc_succeeded (ry_stats s) = u64 (tallied is_succeeded (ry_calls s));
  co_failed : rc_failed (ry_stats s) = u64 (tallied is_failed (ry_calls s));
  co_invalid : rc_invalid (ry_stats s) = u64 (tallied is_invalid (ry_calls s));
  co_unauthorized : rc_unauthorized (ry_stats s) = u64 (tallied is_denied (ry_calls s));
}.

Definition rpc_inv (s : RpcSys (V:=V)) : Prop :=
  counters_ok s /\ Forall (call_inv pool byteSize maxMessageBytes sc endpoint) (ry_calls s).

Lemma tallied_insert (P : Serving V -> bool) calls i c c' : calls !! i = Some c ->
  tallied P (<[i := c']> calls) = tallied P calls + Z.b2z (P c') - Z.b2z (P c).
Proof.
  unfold tallied. intros Hi. rewrite insert_take_drop by (by eapply lookup_lt_Some).
  rewrite <-(take_drop_middle calls i c Hi) at 3. rewrite !List.filter_app, !length_app. cbn [List.filter].
  destruct (P c), (P c'); cbn [length Z.b2z]; lia.
Qed.

Lemma counts_tallied (P : Serving V -> bool) calls i c c' before after : calls !! i = Some c ->
  counts P c c' before after -> before = u64 (tallied P calls) -> after = u64 (tallied P (<[i := c']> calls)).
Proof.
  intros Hi Hc ->. rewrite (tallied_insert P _ _ _ _ Hi). destruct Hc as [(-> & ->)|(-> & -> & ->)]; cbn [Z.b2z].
  - f_equal. lia.
  - unfold plus1, u64. rewrite Zplus_mod_idemp_l. f_equal. lia.
Qed.

Lemma onCall_inv s i f :
  (forall c stats, call_inv pool byteSize maxMessageBytes sc endpoint c -> good_step pool byteSize maxMessageBytes sc endpoint c stats (f c stats)) ->
  rpc_inv s -> rpc_inv (onCall s i f).
Proof.
  intros Hf [[H1 H2 H3 H4 H5] Hc]. unfold onCall. destruct (ry_calls s !! i) as [c|] eqn:Hi; [|by split].
  destruct (Hf c (ry_stats s)) as [Hc' [C1 C2 C3 C4 C5]]; [by eapply Forall_lookup_1|].
  destruct (f c (ry_stats s)) as [c' stats]. cbn in *. split; [|by apply Forall_insert].
  split; cbn; by eapply counts_tallied.
Qed.

Lemma serveCall_inv s ev : rpc_inv s -> rpc_inv (serveCall pool byteSize maxMessageBytes sc endpoint s ev).
Proof.
  intros Hi. destruct ev as [call|i sub|i|i e a|i|i m|i|i]; cbn [serveCall]; try (apply onCall_inv; [|done]; intros c stats Hc).
  - destruct Hi as [[H1 H2 H3 H4 H5] Hc].
    assert (Hn : forall P : Serving V -> bool, P (Serving_new call) = false -> tallied P (ry_calls s ++ [Serving_new call]) = tallied P (ry_calls s)).
    { intros P HP. unfold tallied. rewrite List.filter_app, length_app. cbn. rewrite HP. cbn. lia. }
    split; [by split; cbn; rewrite Hn|]. cbn. apply Forall_app_2; [done|]. apply Forall_singleton, new_call_inv.
  - by apply onRPC_good.
  - by apply storeTicket_good.
  - by apply runCall_good.
  - by apply dropCall_good.
  - by apply reportFailure_good.
  - by apply cancelCall_good.
  - by apply notifyControl_good.
Qed.

(** What holds of one call at any moment. *)
Record served (c : Serving V) : Prop := {
  sr_sent : forall rq, sv_request c = Some rq ->
    is_dispatched c = true /\ exists md, cleared pool byteSize maxMessageBytes sc c md rq;
  sr_once : (length (sv_answers c) <= 1)%nat;
  sr_value : forall v, Value v ∈ sv_answers c ->
    is_succeeded c = true /\ received pool byteSize maxMessageBytes sc endpoint c v;
  sr_over : forall v, sv_phase c = PSucceeded v -> sv_answers c = [Value v] \/ es_canceller (sv_sys c) <> NotCancelled \/
    exists message, message ∈ sv_reports c /\ sv_answers c = [answerOf message];
  sr_error : forall r what, sv_phase c = PErred r what -> sv_answers c = [answerOf what] \/ es_canceller (sv_sys c) <> NotCancelled \/
    exists message, message ∈ sv_reports c /\ sv_answers c = [answerOf message];
}.

Lemma call_inv_served c : call_inv pool byteSize maxMessageBytes sc endpoint c -> served c.
Proof.
  intros [Hs Hp Hse [Hl Hv]]. split.
  - intros rq Hr. unfold progress, started, received in Hp. unfold is_dispatched, is_succeeded, is_failed, in_flight.
    destruct (sv_phase c) as [| | | | | | | | | | | | | |[] ? ?|[] ?| |[] ?|]; try (intuition congruence).
    + destruct Hp as [Hc Hq]. rewrite Hq in Hr. injection Hr as ->. split; [done|by eexists].
    + destruct Hp as (md & rq' & t & k & Hq & Hc & _). rewrite Hq in Hr. injection Hr as ->. split; [done|by exists md].
    + destruct Hp as (md & rq' & t & k & Hq & Hc & _). rewrite Hq in Hr. injection Hr as ->. split; [done|by exists md].
    + split; [done|by apply Hp].
    + split; [done|by apply Hp].
    + destruct Hp as (md & rq' & t & k & Hq & Hc & _). rewrite Hq in Hr. injection Hr as ->. split; [done|by exists md].
    + split; [done|by apply Hp].
  - destruct (qx_stopped _); lia.
  - intros v Hi%Hv. unfold progress in Hp. unfold is_succeeded. rewrite Hi in Hp |- *. done.
  - intros v Hv'. unfold settled in Hse. rewrite Hv' in Hse. destruct (qx_stopped _); [tauto|]. by destruct Hse.
  - intros r what Hv'. unfold settled in Hse. rewrite Hv' in Hse. destruct (qx_stopped _); [tauto|]. by destruct Hse.
Qed.

Lemma tallied_dispatched (calls : list (Serving V)) :
  tallied is_dispatched calls = tallied is_succeeded calls + tallied is_failed calls + tallied in_flight calls.
Proof.
  assert (Hcons : forall P c (l : list (Serving V)), tallied P (c :: l) = Z.b2z (P c) + tallied P l).
  { intros P c l. unfold tallied. cbn [List.filter]. destruct (P c); cbn [length Z.b2z]; lia. }
  assert (Hone : forall c : Serving V, Z.b2z (is_dispatched c) = Z.b2z (is_succeeded c) + Z.b2z (is_failed c) + Z.b2z (in_flight c)).
  { intros c. unfold is_dispatched, is_succeeded, is_failed, in_flight.
    by destruct (sv_phase c) as [| | | | | | | | | | | | | |[] ? ?|[] ?| |[] ?|]. }
  induction calls as [|c calls IH]; [done|]. rewrite !Hcons, Hone, IH. lia.
Qed.

(** C25. The calls of a service run in parallel with their handlers, the
    deadline timer and their clients' cancellations, each taking its steps in
    any order.  At every moment the five counters are the numbers of calls of
    their classes (modulo 2^64), so that dispatched is succeeded plus failed
    plus the calls still in flight: sent, or about to be, with the outcome not
    counted yet.  A request that was started is counted as dispatched, its
    client was authorised and the handle not stopped at the last look before,
    and it is the request the arguments and the defaults make, within the
    limit.  A client is told at most one thing, and a value only if it is the
    decoded reply and the call counts as succeeded.  The converse does not hold:
    a call that succeeded or failed was answered with its outcome unless its
    client had cancelled or the queue had reported a failure such as the
    deadline before; then the client keeps that answer, and the outcome is
    counted all the same. *)
Theorem rpc_calls_accounted events :
  let s := fold_left (serveCall (V:=V) pool byteSize maxMessageBytes sc endpoint) events RpcSys_new in
  counters_ok s /\
  rc_dispatched (ry_stats s) = u64 (rc_succeeded (ry_stats s) + rc_failed (ry_stats s) + tallied in_flight (ry_calls s)) /\
  Forall served (ry_calls s).
Proof.
  cbn zeta. assert (Hi : rpc_inv (fold_left (serveCall (V:=V) pool byteSize maxMessageBytes sc endpoint) events RpcSys_new)).
  { assert (H0 : rpc_inv (RpcSys_new (V:=V))) by (by split). revert H0. generalize (RpcSys_new (V:=V)).
    induction events as [|ev events IH]; intros s Hs; [done|]. apply IH. by apply serveCall_inv. }
  destruct Hi as [Hs Hc]. pose proof Hs as [Hd Hsu Hf _ _]. split_and!; [done| |].
  - rewrite Hd, Hsu, Hf, tallied_dispatched. unfold u64. by rewrite <-(Zplus_mod_idemp_l (_ mod _ + _ mod _)), <-Zplus_mod, Zplus_mod_idemp_l.
  - eapply Forall_impl; [exact Hc|]. intros c. apply call_inv_served.
Qed.
End Accounting.

(** ** A late success *)

Module RpcDemo.
Definition call0 : RpcCall :=
  {| cl_method := "Average"; cl_defaults := BridgeDemo.defaults;
     cl_request := {| ra_id := ""; ra_self := Some (map (fun f => (f.1, AScalar f.2)) BridgeDemo.fields); ra_query := None |} |}.
Definition e0 : CallEnv :=
  {| ce_now := 0; ce_deadline := 100; ce_timeoutMs := 100; ce_cancelled := (false, false); ce_before := true;
     ce_missing := fun _ => None; ce_transport := fun _ => Replied 20 (Some BridgeDemo.reply) |}.
Definition w : rpc_event := EWork 0 e0 true.
Definition run (events : list rpc_event) : RpcSys (V:=MapValue.t) :=
  fold_left (serveCall BridgeDemo.pool BridgeDemo.byteSize 1024 BridgeDemo.service "localhost:1") events RpcSys_new.

Definition sent : list rpc_event :=
  [EArrive call0; EHandle 0 (Taken 7); EHandle 0 (Taken 7); EHandle 0 (Taken 7); w; ETicket 0; w; w; w; w; w; w; ETicket 0; w].
Definition late : list rpc_event := sent ++ [EFail 0 "total operation deadline exceeded; not retried"; w; w; w].
End RpcDemo.

Example in_flight_counted :
  ry_stats (RpcDemo.run RpcDemo.sent) = Build_RpcCallStats 1 0 0 0 0 /\ tallied in_flight (ry_calls (RpcDemo.run RpcDemo.sent)) = 1.
Proof. by vm_compute. Qed.

(** The deadline is reported while the backend is at work: the client keeps the
    error, and the call counts as succeeded. *)
Example late_success_counted :
  ry_stats (RpcDemo.run RpcDemo.late) = Build_RpcCallStats 1 1 0 0 0 /\
  map sv_answers (ry_calls (RpcDemo.run RpcDemo.late)) = [[Failure "total operation deadline exceeded; not retried"]].
Proof. by vm_compute. Qed.
