(* ===== verification/ChannelFinderSync.v ===== *)
(** * Publication to ChannelFinder

    tools/channelfinder_sync.cpp: the command that reads a configuration and
    sends its channels to a ChannelFinder service.  Its options, the checks
    before it sends anything, the request it makes, the limit on the response
    and its outcome.  libcurl and the service are a parameter: what they
    deliver for a request.

    The theorems show when a request is made and what it carries, how the
    command ends, and that the check of credentials in the address only looks
    at addresses with a scheme. *)

From S2P Require Import Prelude.
From S2P Require Import StrMap.
From S2P Require Import Config.
From S2P Require Import Secrets.
From S2P Require Import Yaml.
From S2P Require Import ConfigParse.
From S2P Require Import ConfigDiff.
From S2P Require Import ConfigSafety.
From S2P Require Import ChannelFinder.
From S2P Require Import CNumber.
From Stdlib Require Import Ascii.

Local Open Scope string_scope.
Local Open Scope list_scope.
Local Open Scope Z_scope.

(** ** Options *)

Record Options := {
  op_configPath : string; op_dryRun : bool; op_allowRedirects : bool;
  op_connectTimeoutMs : Z; op_timeoutMs : Z; op_maxResponseBytes : Z;
}.
#[export] Instance Options_eta : Eta Options := fun r =>
  Build_Options (op_configPath r) (op_dryRun r) (op_allowRedirects r) (op_connectTimeoutMs r) (op_timeoutMs r)
    (op_maxResponseBytes r).
Definition Options_default : Options := Build_Options "" false false 3000 10000 (1024 * 1024).

Definition usage : string :=
  "Usage: redis-pvxs-channelfinder-sync --config <path> [--dry-run]" +:+ newline +:+
  "  [--connect-timeout-ms <ms>] [--timeout-ms <ms>]" +:+ newline +:+
  "  [--max-response-bytes <bytes>] [--allow-redirects]" +:+ newline.

(** [std::from_chars] to a [long]: an optional minus and decimal digits; [None]
    without digits or outside the type, otherwise the value and the rest. *)
Definition from_chars (text : string) : option (Z * string) :=
  let '(negative, s) := match text with
                        | String c s => if Ascii.eqb c "-" then (true, s) else (false, text)
                        | EmptyString => (false, text)
                        end in
  let '(value, digits, rest) := scan 10 0 0 s in
  let value := if negative : bool then - value else value in
  if (digits =? 0)%nat || (value <? - 2 ^ 63) || (2 ^ 63 <=? value) then None else Some (value, rest).

Definition boundedNumber (value : string) (maximum : Z) (option : string) : exn Z :=
  let refused := Throw (option +:+ " requires an integer between 1 and " +:+ to_dec maximum) in
  match from_chars value with
  | Some (parsed, rest) => if negb (str_empty rest) || (parsed <? 1) || (maximum <? parsed) then refused else Ret parsed
  | None => refused
  end.

Definition is_number_option (arg : string) : bool :=
  String.eqb arg "--connect-timeout-ms" || String.eqb arg "--timeout-ms" || String.eqb arg "--max-response-bytes".

(** The arguments after the name of the program; [None] when the usage was
    asked for. *)
Fixpoint parseArguments (args : list string) (options : Options) : exn (option Options) :=
  match args with
  | [] => Ret (Some options)
  | arg :: args =>
      if String.eqb arg "--config" then
        match args with
        | [] => Throw "--config requires a path"
        | path :: args => parseArguments args (options <| op_configPath := path |>)
        end
      else if String.eqb arg "--dry-run" then parseArguments args (options <| op_dryRun := true |>)
      else if String.eqb arg "--allow-redirects" then parseArguments args (options <| op_allowRedirects := true |>)
      else if is_number_option arg then
        match args with
        | [] => Throw (arg +:+ " requires a value")
        | text :: args =>
            value ← boundedNumber text (if String.eqb arg "--max-response-bytes" then 64 * 1024 * 1024 else 300000) arg;
            parseArguments args
              (if String.eqb arg "--connect-timeout-ms" then options <| op_connectTimeoutMs := value |>
               else if String.eqb arg "--timeout-ms" then options <| op_timeoutMs := value |>
               else options <| op_maxResponseBytes := value |>)
        end
      else if String.eqb arg "--help" || String.eqb arg "-h" then Ret None
      else Throw ("unknown argument: " +:+ arg)
  end.

Definition parseOptions (args : list string) : exn (option Options) :=
  options ← parseArguments args Options_default;
  match options with
  | Some options => throw_if (str_empty (op_configPath options)) "--config is required" ;; Ret (Some options)
  | None => Ret None
  end.

(** ** The response *)

Record ResponseBudget := { rb_limit : Z; rb_received : Z; rb_exceeded : bool }.
#[export] Instance ResponseBudget_eta : Eta ResponseBudget := fun r =>
  Build_ResponseBudget (rb_limit r) (rb_received r) (rb_exceeded r).

(** The budget after a piece of [nmemb] items of [size] bytes, and what is
    returned to the library. *)
Definition captureResponse (size nmemb : Z) (response : ResponseBudget) : ResponseBudget * Z :=
  if negb (size =? 0) && (u64 (rb_limit response - rb_received response) / size <? nmemb)
  then (response <| rb_exceeded := true |>, 0)
  else let bytes := u64 (size * nmemb) in (response <| rb_received ::= fun n => u64 (n + bytes) |>, bytes).

(** The library stops at the first piece that was not taken whole. *)
Fixpoint receive (pieces : list (Z * Z)) (response : ResponseBudget) : ResponseBudget :=
  match pieces with
  | [] => response
  | (size, nmemb) :: pieces =>
      let '(response, taken) := captureResponse size nmemb response in
      if taken =? u64 (size * nmemb) then receive pieces response else response
  end.

(** ** The request *)

(** A POST with these options of the library; credentials are sent with basic
    authentication. *)
Record HttpRequest := {
  hq_url : string; hq_headers : list string; hq_body : string; hq_connectTimeoutMs : Z; hq_timeoutMs : Z;
  hq_follow : bool; hq_maxRedirs : Z; hq_protocols : string; hq_redirProtocols : string; hq_userAgent : string;
  hq_postRedirAll : bool; hq_unrestrictedAuth : bool;
  hq_credentials : option (string * string);
}.

(** What the library and the service do with a request: the pieces of the
    response, the error of the transfer if there is one, and the status, if it
    can be had. *)
Record HttpResult := { hr_pieces : list (Z * Z); hr_error : option string; hr_status : exn Z }.

(** A string up to its first NUL. *)
Fixpoint c_str (s : string) : string :=
  match s with
  | EmptyString => EmptyString
  | String c s => if Ascii.eqb c "000" then EmptyString else String c (c_str s)
  end.

(** The part of an address that names the service: after the scheme and up to
    the next slash; [None] without a scheme. *)
Definition authority (url : string) : option string :=
  match String.index 0 "://" url with
  | None => None
  | Some schemeEnd =>
      let begin := (schemeEnd + 3)%nat in
      Some (match String.index begin "/" url with
            | None => String.substring begin (String.length url - begin) url
            | Some authorityEnd => String.substring begin (authorityEnd - schemeEnd - 3) url
            end)
  end.

Definition has_at (s : string) : bool := match String.index 0 "@" s with Some _ => true | None => false end.

(** The credentials to send and the address, once they passed the checks. *)
Definition checkPublication (config : ChannelFinderConfig) (options : Options) (open : OpenFile) (getenv : string -> option string)
    : exn (string * (string * string)) :=
  url ← normalizeChannelFinderChannelsUrl (ch_url config);
  username ← credentialFromEnvironment open getenv "CHANNELFINDER_USERNAME";
  password ← credentialFromEnvironment open getenv "CHANNELFINDER_PASSWORD";
  throw_if (negb (Bool.eqb (str_empty username) (str_empty password)))
    "CHANNELFINDER_USERNAME and CHANNELFINDER_PASSWORD must be set together" ;;
  throw_if (op_allowRedirects options && negb (str_empty username))
    "redirects with credentials are not supported; use the final ChannelFinder URL" ;;
  throw_if (match authority url with Some a => has_at a | None => false end)
    "URL credentials are not supported; use the ChannelFinder credential inputs" ;;
  Ret (url, (username, password)).

Definition httpRequest (url username password json : string) (options : Options) : HttpRequest :=
  {| hq_url := c_str url; hq_headers := ["Content-Type: application/json"; "Accept: application/json"]; hq_body := json;
     hq_connectTimeoutMs := op_connectTimeoutMs options; hq_timeoutMs := op_timeoutMs options;
     hq_follow := op_allowRedirects options; hq_maxRedirs := 3; hq_protocols := "http,https"; hq_redirProtocols := "https";
     hq_userAgent := "redis-pvxs-channelfinder-sync/1"; hq_postRedirAll := true; hq_unrestrictedAuth := false;
     hq_credentials := if str_empty username then None else Some (c_str username, c_str password) |}.

(** How a transfer ended. *)
Definition checkResult (options : Options) (response : ResponseBudget) (result : HttpResult) : exn unit :=
  status ← hr_status result;
  throw_if (rb_exceeded response) ("ChannelFinder response exceeded " +:+ to_dec (op_maxResponseBytes options) +:+ " bytes") ;;
  match hr_error result with
  | Some what => Throw ("ChannelFinder publish failed: " +:+ what)
  | None => throw_if ((status <? 200) || (300 <=? status))
              ("ChannelFinder publish returned HTTP " +:+ to_dec status)
  end.

(** The requests made and how the publication ended; [setup] is what becomes of
    the initialisation of the library and its options. *)
Definition publishChannels (config : ChannelFinderConfig) (json : string) (options : Options) (open : OpenFile)
    (getenv : string -> option string) (setup : exn unit) (perform : HttpRequest -> HttpResult) : list HttpRequest * exn unit :=
  match checkPublication config options open getenv with
  | Throw what => ([], Throw what)
  | Ret (url, (username, password)) =>
      match setup with
      | Throw what => ([], Throw what)
      | Ret _ =>
          let request := httpRequest url username password json options in
          let result := perform request in
          let response := receive (hr_pieces result) (Build_ResponseBudget (op_maxResponseBytes options) 0 false) in
          ([request], checkResult options response result)
      end
  end.

(** ** The command *)

Record Exit := { ex_status : Z; ex_stdout : string; ex_stderr : string; ex_requests : list HttpRequest }.

Section Sync.
Context `{YamlConv} (env : Env) (LoadFile : string -> exn ynode) (getenv : string -> option string) (time : string).
Context (setup : exn unit) (perform : HttpRequest -> HttpResult).

Definition sync_failed (requests : list HttpRequest) (what : string) : Exit :=
  {| ex_status := 1; ex_stdout := ""; ex_stderr := "redis-pvxs-channelfinder-sync: " +:+ what +:+ newline +:+ usage;
     ex_requests := requests |}.

Definition sync_main (args : list string) : Exit :=
  match parseOptions args with
  | Throw what => sync_failed [] what
  | Ret None => {| ex_status := 0; ex_stdout := usage; ex_stderr := ""; ex_requests := [] |}
  | Ret (Some options) =>
      match loadConfigFile env LoadFile (op_configPath options) with
      | Throw what => sync_failed [] what
      | Ret config =>
          let channels := buildChannelFinderChannels config time in
          let json := channelFinderChannelsJson channels in
          if op_dryRun options then {| ex_status := 0; ex_stdout := json; ex_stderr := ""; ex_requests := [] |}
          else match publishChannels (app_channelFinder config) json options (env_open env) getenv setup perform with
               | (requests, Throw what) => sync_failed requests what
               | (requests, Ret _) =>
                   {| ex_status := 0;
                      ex_stdout := "published " +:+ to_dec (Z.of_nat (length channels)) +:+ " channels to ChannelFinder" +:+ newline;
                      ex_stderr := ""; ex_requests := requests |}
               end
      end
  end.
End Sync.

(** ** The address *)

Lemma get_app_l s t n : (n < String.length s)%nat -> String.get n (s +:+ t) = String.get n s.
Proof. revert n. induction s as [|c s IH]; intros [|n] Hn; cbn in *; try lia; [done|]. apply IH. lia. Qed.
Lemma get_app_r s t n : String.get (String.length s + n) (s +:+ t) = String.get n t.
Proof. by induction s. Qed.

(** Searching for one character is searching for its first position. *)
Lemma prefix1 c s : String.prefix (String c "") s = true <-> String.get 0 s = Some c.
Proof.
  destruct s as [|c' s]; cbn; [done|]. destruct (Ascii.ascii_dec c c') as [->|Hne]; [|naive_solver]. by destruct s.
Qed.
Lemma index1_some n c s m : String.index n (String c "") s = Some m ->
  (n <= m)%nat /\ String.get m s = Some c /\ (forall k, (n <= k < m)%nat -> String.get k s <> Some c).
Proof.
  revert n m. induction s as [|c' s IH]; intros n m; [by destruct n|]. destruct n as [|n]; cbn [String.index].
  - destruct (String.prefix _ _) eqn:E.
    + intros [= <-]. apply prefix1 in E. split_and!; [lia|done|lia].
    + destruct (String.index 0 _ s) as [k|] eqn:Ek; [|done]. intros [= <-]. destruct (IH 0%nat k Ek) as (_ & Hg & Hno).
      split_and!; [lia|done|]. intros [|j] Hj; [|apply (Hno j); lia]. intros H%prefix1. congruence.
  - destruct (String.index n _ s) as [k|] eqn:Ek; [|done]. intros [= <-]. destruct (IH n k Ek) as (Hle & Hg & Hno).
    split_and!; [lia|done|]. intros [|j] Hj; [lia|apply (Hno j); lia].
Qed.
Lemma index1_none n c s : String.index n (String c "") s = None -> forall k, (n <= k)%nat -> String.get k s <> Some c.
Proof.
  revert n. induction s as [|c' s IH]; intros n; [by destruct n|]. destruct n as [|n]; cbn [String.index].
  - destruct (String.prefix _ _) eqn:E; [done|]. destruct (String.index 0 _ s) eqn:Ek; [done|]. intros _ [|k] _.
    + intros H%prefix1. congruence.
    + apply (IH 0%nat Ek). lia.
  - destruct (String.index n _ s) eqn:Ek; [done|]. intros _ [|k] Hk; [lia|]. apply (IH n Ek). lia.
Qed.

Definition no_char (c : ascii) (s : string) : Prop := forall k, String.get k s <> Some c.

(** The authority has no [@] exactly when none comes before the first slash
    after the scheme. *)
Lemma authority_checked pre user tail :
  let url := pre +:+ "://" +:+ user +:+ "@" +:+ tail in
  String.index 0 "://" url = Some (String.length pre) -> no_char "/" user ->
  exists a, authority url = Some a /\ has_at a = true.
Proof.
  intros url Hi Hno. unfold authority. rewrite Hi. eexists. split; [done|].
  set (b := (String.length pre + 3)%nat). set (p := String.length user).
  assert (Hat : forall k, String.get (b + k) url = String.get k (user +:+ "@" +:+ tail)).
  { intros k. unfold url, b. rewrite <-Nat.add_assoc, get_app_r. by rewrite (get_app_r "://" _ k : String.get (3 + k) _ = _). }
  assert (Hp : String.get (b + p) url = Some "@"%char).
  { rewrite Hat. unfold p. rewrite <-(Nat.add_0_r (String.length user)), get_app_r. done. }
  assert (Hlen : (b + p < String.length url)%nat).
  { unfold url, b, p. rewrite !str_length_app. cbn. rewrite ?str_length_app. cbn. lia. }
  assert (Hin : forall n, (p < n)%nat -> has_at (String.substring b n url) = true).
  { intros n Hn. unfold has_at. destruct (String.index 0 "@" _) eqn:E; [done|].
    pose proof (index1_none _ _ _ E p ltac:(lia)) as Hx. rewrite String.substring_correct1, Nat.add_comm in Hx by done. congruence. }
  destruct (String.index b "/" url) as [e|] eqn:E; apply Hin; [|lia].
  apply index1_some in E as (Hle & Hg & _). enough (b + p < e)%nat by (unfold b in *; lia).
  destruct (decide (e <= b + p)%nat) as [Hc|]; [|lia]. exfalso.
  replace e with (b + (e - b))%nat in Hg by lia. rewrite Hat in Hg. destruct (decide (e - b = p)%nat) as [He|He].
  - rewrite He, <-Hat in Hg. congruence.
  - rewrite get_app_l in Hg by (unfold p in *; lia). by apply Hno in Hg.
Qed.

(** ** The response *)

(** A piece lies in memory. *)
Definition piece_ok (piece : Z * Z) : Prop := 0 <= piece.1 /\ 0 <= piece.2 /\ piece.1 * piece.2 < 2 ^ 64.
Definition total (pieces : list (Z * Z)) : Z := fold_right (fun piece n => piece.1 * piece.2 + n) 0 pieces.

Lemma total_nonneg pieces : Forall piece_ok pieces -> 0 <= total pieces.
Proof. induction 1 as [|[size nmemb] pieces (H1 & H2 & _) _ IH]; cbn in *; [done|]. unfold total in IH. nia. Qed.

Lemma receive_total pieces limit received :
  Forall piece_ok pieces -> 0 <= received <= limit -> limit < 2 ^ 64 ->
  let r := receive pieces (Build_ResponseBudget limit received false) in
  rb_received r <= limit /\ rb_exceeded r = negb (received + total pieces <=? limit).
Proof.
  intros Hp. revert received. induction Hp as [|[size nmemb] pieces (H1 & H2 & H3) Hp IH]; intros received Hr Hl.
  { cbn. rewrite Z.add_0_r. split; [lia|]. by rewrite (proj2 (Z.leb_le _ _)) by lia. }
  pose proof (total_nonneg pieces Hp) as Ht. cbn [fst snd] in *.
  cbn zeta. cbn [receive]. unfold captureResponse. cbn [rb_limit rb_received rb_exceeded]. rewrite (u64_id (limit - received)), (u64_id (size * nmemb)) by nia.
  destruct (negb (size =? 0) && _) eqn:E.
  - apply andb_true_iff in E as [E1%negb_true_iff%Z.eqb_neq E2%Z.ltb_lt].
    assert (limit - received < size * nmemb).
    { pose proof (Z.mul_succ_div_gt (limit - received) size ltac:(lia)). nia. }
    rewrite (proj2 (Z.eqb_neq 0 (size * nmemb))) by lia. cbn. split; [lia|]. unfold total in *. cbn. symmetry. apply negb_true_iff, Z.leb_gt. lia.
  - assert (size * nmemb <= limit - received).
    { apply andb_false_iff in E as [E%negb_false_iff%Z.eqb_eq|E%Z.ltb_ge]; [rewrite E; lia|].
      destruct (decide (size = 0)) as [->|]; [lia|]. pose proof (Z.mul_div_le (limit - received) size ltac:(lia)). nia. }
    rewrite Z.eqb_refl. cbn [field_update rb_limit rb_received rb_exceeded]. 
    destruct (IH (received + size * nmemb)) as [I1 I2]; [lia|done|]. rewrite u64_id by lia.
    split; [exact I1|]. etransitivity; [exact I2|]. unfold total. cbn. do 2 f_equal. lia.
Qed.

(** ** Options *)

Definition options_ok (o : Options) : Prop :=
  1 <= op_connectTimeoutMs o <= 300000 /\ 1 <= op_timeoutMs o <= 300000 /\ 1 <= op_maxResponseBytes o <= 64 * 1024 * 1024.

Lemma boundedNumber_ok value maximum option z : boundedNumber value maximum option = Ret z -> 1 <= z <= maximum.
Proof.
  unfold boundedNumber. destruct (from_chars value) as [[parsed rest]|]; [|done]. destruct (_ || _) eqn:E; [done|]. intros [= <-].
  bool_split. lia.
Qed.

Lemma parseArguments_ok args o o' : options_ok o -> parseArguments args o = Ret (Some o') -> options_ok o'.
Proof.
  remember (length args) as n eqn:Hn. revert args o Hn. induction n as [n IH] using lt_wf_ind. intros [|arg args] o -> Ho; cbn [parseArguments].
  { congruence. }
  destruct (String.eqb arg "--config").
  { destruct args as [|path args]; [done|]. apply (IH (length args)); cbn; [lia|done|done]. }
  do 2 (destruct (String.eqb arg _); [apply (IH (length args)); cbn; [lia|done|done]|]).
  destruct (is_number_option arg); [|by destruct (_ || _)].
  destruct args as [|text args]; [done|]. intros (z & Hz%boundedNumber_ok & Hp)%exn_bind_ret. revert Hp.
  apply (IH (length args)); cbn; [lia|done|]. unfold options_ok in *. unfold is_number_option.
  destruct (String.eqb_spec arg "--connect-timeout-ms") as [->|]; [cbn in *; lia|].
  destruct (String.eqb_spec arg "--timeout-ms") as [->|]; [cbn in *; lia|]. destruct (String.eqb_spec arg "--max-response-bytes"); cbn in *; lia.
Qed.

Lemma parseOptions_ok args o : parseOptions args = Ret (Some o) -> options_ok o /\ op_configPath o <> "".
Proof.
  unfold parseOptions. intros ([o'|] & Hp & Ho)%exn_bind_ret; [|done]. apply exn_bind_ret in Ho as ([] & Ht%throw_if_ret & [= <-]).
  split; [|by intros E; rewrite E in Ht]. eapply parseArguments_ok; [|exact Hp]. unfold options_ok. cbn. lia.
Qed.

(** ** What is published *)

(** Text without a NUL, as the environment of a process has it. *)
Lemma c_str_line v : has_break v = false -> c_str v = v.
Proof.
  induction v as [|c v IH]; cbn; [done|]. intros [Hc Hv]%orb_false_iff. destruct (Ascii.eqb_spec c "000") as [->|]; [done|]. by rewrite IH.
Qed.

(** A credential as it was configured; the environment holds C strings. *)
Lemma credential_line open getenv name v :
  (forall n v, getenv n = Some v -> c_str v = v) -> credentialFromEnvironment open getenv name = Ret v -> c_str v = v.
Proof.
  intros Henv. unfold credentialFromEnvironment.
  assert (Hd : c_str (default "" (getenv name)) = default "" (getenv name)).
  { destruct (getenv name) eqn:E; [by eapply Henv|done]. }
  destruct (getenv (name +:+ "_FILE")) as [file|]; [|by intros [= <-]]. destruct (negb _); [|by intros [= <-]].
  destruct (match getenv name with Some _ => _ | None => _ end); [done|].
  intros (_ & _ & size & reads & data & _ & _ & _ & (_ & _ & Hb) & _)%readSecretFile_iff. by apply c_str_line.
Qed.

(** What is known of a request that was made: it is the only one, and the
    configuration, the options and the address passed their checks. *)
Record published (options : Options) (config : AppConfig) (time : string) (rq : HttpRequest) : Prop := {
  pb_wanted : op_dryRun options = false;
  pb_body : hq_body rq = channelFinderChannelsJson (buildChannelFinderChannels config time);
  pb_limits : 1 <= hq_connectTimeoutMs rq <= 300000 /\ 1 <= hq_timeoutMs rq <= 300000;
  pb_credentials : match hq_credentials rq with
                   | Some (username, password) => username <> "" /\ password <> "" /\ hq_follow rq = false
                   | None => hq_follow rq = op_allowRedirects options
                   end;
  pb_address : exists url, normalizeChannelFinderChannelsUrl (ch_url (app_channelFinder config)) = Ret url /\ hq_url rq = c_str url /\
    forall pre user tail, url = pre +:+ "://" +:+ user +:+ "@" +:+ tail ->
      String.index 0 "://" url = Some (String.length pre) -> ~ no_char "/" user;
}.

Lemma checkPublication_ok config options open getenv url username password :
  (forall n v, getenv n = Some v -> c_str v = v) ->
  checkPublication config options open getenv = Ret (url, (username, password)) ->
  normalizeChannelFinderChannelsUrl (ch_url config) = Ret url /\ (username = "" <-> password = "") /\
  c_str username = username /\ c_str password = password /\ (username <> "" -> op_allowRedirects options = false) /\
  (forall pre user tail, url = pre +:+ "://" +:+ user +:+ "@" +:+ tail ->
     String.index 0 "://" url = Some (String.length pre) -> ~ no_char "/" user).
Proof.
  intros Henv. unfold checkPublication.
  intros (u & Hu & (n & Hn & (w & Hw & ([] & H1%throw_if_ret & ([] & H2%throw_if_ret & ([] & H3%throw_if_ret & [= <- <- <-])%exn_bind_ret)%exn_bind_ret)%exn_bind_ret)%exn_bind_ret)%exn_bind_ret)%exn_bind_ret.
  split_and!; [done| |by eapply credential_line|by eapply credential_line| |].
  - apply negb_false_iff, Bool.eqb_prop in H1. by destruct n, w.
  - intros Hne. destruct n; [done|]. by rewrite andb_true_r in H2.
  - intros pre user tail -> Hi Hno. destruct (authority_checked pre user tail Hi Hno) as (a & Ha & Hat). rewrite Ha in H3. congruence.
Qed.

Section Published.
Context `{YamlConv} (env : Env) (LoadFile : string -> exn ynode) (getenv : string -> option string) (time : string).
Context (setup : exn unit) (perform : HttpRequest -> HttpResult).
Hypothesis Henv : forall n v, getenv n = Some v -> c_str v = v.
Hypothesis Hpieces : forall rq, Forall piece_ok (hr_pieces (perform rq)).

Lemma checkResult_iff options result u :
  options_ok options -> Forall piece_ok (hr_pieces result) ->
  checkResult options (receive (hr_pieces result) (Build_ResponseBudget (op_maxResponseBytes options) 0 false)) result = Ret u <->
  total (hr_pieces result) <= op_maxResponseBytes options /\ hr_error result = None /\
  exists status, hr_status result = Ret status /\ 200 <= status < 300.
Proof.
  intros Ho Hp. destruct (receive_total _ (op_maxResponseBytes options) 0 Hp) as [_ He]; [unfold options_ok in Ho; lia..|].
  unfold checkResult. destruct (hr_status result) as [status|]; [|by split; [|intros (_ & _ & s & [=] & _)]]. cbn [mbind exn_bind].
  rewrite He. destruct (Z.leb_spec (0 + total (hr_pieces result)) (op_maxResponseBytes options)); cbn; [|split; [done|lia]].
  destruct (hr_error result); [by split; [|intros (_ & [=] & _)]|]. destruct u. rewrite throw_if_ret. split.
  - intros E. bool_split. split_and!; [lia|done|]. exists status. split; [done|lia].
  - intros (_ & _ & s & [= <-] & Hs). apply orb_false_iff. split; [apply Z.ltb_ge|apply Z.leb_gt]; lia.
Qed.

(** C38. The command sends at most one request, and only for an accepted
    configuration that is not just to be shown.  The request carries exactly the
    channels of the configuration; it has credentials when both parts of them
    were given, and then follows no redirect, so that they only reach the
    configured service; and no user information stands in an address with a
    scheme.  The command succeeds exactly when the transfer did with a status
    of 2xx and a response within the limit. *)
Theorem sync_publishes_safely args rq :
  rq ∈ ex_requests (sync_main env LoadFile getenv time setup perform args) ->
  exists options config, parseOptions args = Ret (Some options) /\
    loadConfigFile env LoadFile (op_configPath options) = Ret config /\
    ex_requests (sync_main env LoadFile getenv time setup perform args) = [rq] /\ published options config time rq /\
    (ex_status (sync_main env LoadFile getenv time setup perform args) = 0 <->
     total (hr_pieces (perform rq)) <= op_maxResponseBytes options /\ hr_error (perform rq) = None /\
     exists status, hr_status (perform rq) = Ret status /\ 200 <= status < 300).
Proof using Henv Hpieces.
  unfold sync_main. destruct (parseOptions args) as [[options|]|] eqn:Ep; [|by intros []%not_elem_of_nil..].
  apply parseOptions_ok in Ep as HO. destruct HO as [Ho _].
  destruct (loadConfigFile env LoadFile (op_configPath options)) as [config|] eqn:El; [|by intros []%not_elem_of_nil].
  destruct (op_dryRun options) eqn:Ed; [by intros []%not_elem_of_nil|].
  unfold publishChannels. destruct (checkPublication _ _ _ _) as [[url [username password]]|] eqn:Ec; [|by intros []%not_elem_of_nil].
  destruct setup as [[]|]; [|by intros []%not_elem_of_nil].
  apply checkPublication_ok in Ec as (Hu & Hcred & Hcu & Hcp & Hr & Hat); [|done].
  set (request := httpRequest _ _ _ _ _). pose proof (checkResult_iff options (perform request)) as Hiff.
  assert (Hpub : published options config time request).
  { split; try done; [by destruct Ho as (? & ? & _)| |by exists url]. cbn. destruct (str_empty username) eqn:E; [done|].
    rewrite Hcu, Hcp. assert (username <> "") as Hne by (by intros ->). split_and!; [done|by rewrite <-Hcred|by apply Hr]. }
  destruct (checkResult _ _ _) as [u|what].
  - intros ->%list_elem_of_singleton. exists options, config. split_and!; try done. cbn. rewrite <-(Hiff u) by done. done.
  - intros ->%list_elem_of_singleton. exists options, config. split_and!; try done. cbn. rewrite <-(Hiff tt) by done. split; done.
Qed.

End Published.

(** User information in an address without a scheme is not noticed, although
    the command means to refuse it: such an address is used as it is. *)
Lemma schemeless_address_sent config json options open getenv perform url :
  (forall n, getenv n = None) -> normalizeChannelFinderChannelsUrl (ch_url config) = Ret url -> String.index 0 "://" url = None ->
  exists rq, (publishChannels config json options open getenv (Ret tt) perform).1 = [rq] /\ hq_url rq = c_str url.
Proof.
  intros Henv Hu Hi. unfold publishChannels, checkPublication, credentialFromEnvironment. rewrite Hu, !Henv. cbn [mbind exn_bind default].
  unfold authority. rewrite Hi. cbn -[httpRequest receive]. rewrite andb_false_r. cbn -[httpRequest receive]. eexists. split; [done|]. done.
Qed.

Module SyncDemo.
Import Demo.
Definition document (url : string) : ynode := YMap
  [Demo.entry "schema_version" "1";
   Demo.sub "server" [Demo.entry "instance" "demo"; Demo.entry "namespace" "LAB"];
   Demo.sub "redis" [Demo.entry "base_key" "lab"; Demo.entry "host" "localhost"; Demo.entry "port" "6379"];
   Demo.sub "channelfinder" [Demo.entry "url" url; Demo.entry "owner" "lab"];
   (YScalar "pvs", YSeq [YMap [Demo.entry "name" "T1"; Demo.entry "type" "Float64"; Demo.entry "shape" "scalar";
                               Demo.sub "read" [Demo.entry "key" "t1"]]])].

Definition getenv (name : string) : option string :=
  if String.eqb name "CHANNELFINDER_USERNAME" then Some "operator"
  else if String.eqb name "CHANNELFINDER_PASSWORD" then Some "secret" else None.
Definition perform (_ : HttpRequest) : HttpResult := {| hr_pieces := [(1, 100); (1, 20)]; hr_error := None; hr_status := Ret 201 |}.
Definition run (url : string) (args : list string) : Exit :=
  sync_main Demo.env (fun _ => Ret (document url)) getenv "now" (Ret tt) perform args.

Example published_one :
  (ex_status (run "http://cf/" ["--config"; "c.yaml"]), ex_stdout (run "http://cf/" ["--config"; "c.yaml"])) =
  (0, "published 1 channels to ChannelFinder" +:+ newline).
Proof. by vm_compute. Qed.
Example refused_redirects : ex_requests (run "http://cf/" ["--config"; "c.yaml"; "--allow-redirects"]) = [].
Proof. by vm_compute. Qed.
Example refused_user : ex_requests (run "http://me:pw@cf/" ["--config"; "c.yaml"]) = [].
Proof. by vm_compute. Qed.
Example unnoticed_user : map hq_url (ex_requests (run "me:pw@cf/" ["--config"; "c.yaml"])) = ["me:pw@cf/resources/channels"].
Proof. by vm_compute. Qed.
Example limited : ex_status (run "http://cf/" ["--config"; "c.yaml"; "--max-response-bytes"; "119"]) = 1.
Proof. by vm_compute. Qed.

Lemma sync_publishes_safely_witness :
  exists rq options, ex_requests (run "http://cf/" ["--config"; "c.yaml"]) = [rq] /\
    parseOptions ["--config"; "c.yaml"] = Ret (Some options) /\ hq_credentials rq = Some ("operator", "secret").
Proof.
  set (rq := match ex_requests (run "http://cf/" ["--config"; "c.yaml"]) with rq :: _ => rq | [] => httpRequest "" "" "" "" Options_default end).
  assert (E : ex_requests (run "http://cf/" ["--config"; "c.yaml"]) = [rq]) by (by vm_compute).
  destruct (sync_publishes_safely Demo.env (fun _ => Ret (document "http://cf/")) getenv "now" (Ret tt) perform) with
    (args := ["--config"; "c.yaml"]) (rq := rq) as (options & config & Hp & _).
  - intros n v. unfold getenv. destruct (String.eqb n _); [by intros [= <-]|]. by destruct (String.eqb n _); intros [= <-].
  - intros rq0. repeat constructor; cbn; lia.
  - change (rq ∈ ex_requests (run "http://cf/" ["--config"; "c.yaml"])). rewrite E. left.
  - exists rq, options. split_and!; [exact E|exact Hp|by vm_compute].
Defined.
End SyncDemo.
