(* ===== verification/Main.v ===== *)
(** * The command line

    src/main.cpp: the options of the program, the comparison and the check of
    configuration files ([Application::validateOnly] of src/app.cpp), and the
    loop around [Application::pump] with its signals.

    The theorems show that whatever is put in force, at the start or by a
    reload, passes the check; and that the program
    serves the configuration in force through every round of its loop and
    leaves nothing behind when it is told to stop. *)

From S2P Require Import Prelude.
From S2P Require Import StrMap.
From S2P Require Import Config.
From S2P Require Import Yaml.
From S2P Require Import ConfigParse.
From S2P Require Import ConfigDiff.
From S2P Require Import ConfigSafety.
From S2P Require Import PVRegistry.
From S2P Require Import PVRegistrySpec.
From S2P Require Import AccessBindings.
From S2P Require Import Generation.
From S2P Require Import App.
From S2P Require Import AppFacts.
From S2P Require Import AppSpec.
From S2P Require Import AppRun.
From S2P Require Discovery.
From S2P Require DiscoverySpec.
From S2P Require Acf.
From S2P Require AcfGrammar.
From S2P Require AccessPolicy.

Local Open Scope string_scope.
Local Open Scope list_scope.
Local Open Scope Z_scope.

(** ** Arguments *)

Record CommandLine := {
  co_configPath : string; co_checkOnly : bool; co_json : bool; co_oldConfig : string; co_newConfig : string;
}.
#[export] Instance CommandLine_eta : Eta CommandLine := fun r =>
  Build_CommandLine (co_configPath r) (co_checkOnly r) (co_json r) (co_oldConfig r) (co_newConfig r).
Definition CommandLine_default : CommandLine := Build_CommandLine "/etc/redis-pvxs-ioc/config.yaml" false false "" "".

(** What the arguments ask for; [Usage] with the status of the program. *)
Inductive command := Usage (status : Z) | Version | Perform (c : CommandLine).

Fixpoint parseCommandLine (args : list string) (c : CommandLine) : command :=
  match args with
  | [] => Perform c
  | argument :: args =>
      let other :=
        if String.eqb argument "--json" then parseCommandLine args (c <| co_json := true |>)
        else if String.eqb argument "--help" || String.eqb argument "-h" then Usage 0
        else if String.eqb argument "--version" then Version else Usage 1 in
      match args with
      | path :: rest =>
          if String.eqb argument "--config" || String.eqb argument "--check-config" then
            parseCommandLine rest (c <| co_configPath := path |> <| co_checkOnly := String.eqb argument "--check-config" |>)
          else match rest with
               | new :: rest =>
                   if String.eqb argument "--diff-config"
                   then parseCommandLine rest (c <| co_oldConfig := path |> <| co_newConfig := new |>) else other
               | [] => other
               end
      | [] => other
      end
  end.

(** The combinations that make no sense. *)
Definition checkCommand (c : command) : command :=
  match c with
  | Perform c =>
      if (co_json c && negb (co_checkOnly c) && str_empty (co_oldConfig c)) || (co_checkOnly c && negb (str_empty (co_oldConfig c)))
      then Usage 1 else Perform c
  | c => c
  end.

Definition printUsage (executable : string) : string :=
  "Usage: " +:+ executable +:+ " [--config <path>] [--check-config <path> [--json]] " +:+
  "[--diff-config <old> <new> [--json]] [--version]" +:+ newline.
Definition printVersion (VERSION GIT_REVISION : string) : string :=
  "redis-pvxs-ioc " +:+ VERSION +:+ (if String.eqb GIT_REVISION "unknown" then "" else " (" +:+ GIT_REVISION +:+ ")") +:+ newline.

(** ** Checking a configuration *)

Definition jsonBool (b : bool) : string := if b then "true" else "false".
Definition jsonField (key value : string) : string := quoteJson key +:+ ":" +:+ value.

(** The report of a failure. *)
Definition invalidJson (error : string) : string :=
  "{" +:+ jsonField "valid" "false" +:+ "," +:+ jsonField "error" (quoteJson error) +:+ "}" +:+ newline.
Definition validJson (config : AppConfig) (summary : string) : string :=
  "{" +:+ jsonField "valid" "true" +:+ "," +:+ jsonField "schema_version" (to_dec (app_schemaVersion config)) +:+
  "," +:+ jsonField "legacy_input" (jsonBool (app_legacyInput config)) +:+
  "," +:+ jsonField "pv_count" (to_dec (count (app_pvs config))) +:+
  "," +:+ jsonField "rpc_service_count" (to_dec (count (app_rpcServices config))) +:+
  "," +:+ jsonField "summary" (quoteJson summary) +:+ "}" +:+ newline.

(** How the program ends: status, output and errors. *)
Record Ended := { en_status : Z; en_stdout : string; en_stderr : string }.
Definition failed (json : bool) (error : string) : Ended :=
  if json then {| en_status := 1; en_stdout := invalidJson error; en_stderr := "" |}
  else {| en_status := 1; en_stdout := ""; en_stderr := error +:+ newline |}.

Section Main.
Context `{Acf.MacLib} (errSymMsg : Z -> string) (wrap : AccessMember -> string -> Wrapper) (S_asLib_asNotActive : Z).

(** [Application::validateOnly]: the configuration and its summary. *)
Definition validateOnly (o : Outside) (loaded : exn AppConfig) : exn (AppConfig * string) :=
  config ← loaded;
  throw_if (negb (ox_grpc o) && negb (bool_decide (app_rpcServices config = [])))
    "rpc_services requires a build with REDIS_PVXS_IOC_ENABLE_GRPC=ON" ;;
  _ ← buildDiscoveryCatalog o config [] (default 5075 (sv_tcpPort (app_server config))) 1;
  policyFingerprint ← AccessPolicy.validateAccessPolicy (ox_files o) (app_access config) (requiredAccessAsgs config);
  let summary := summarizeConfig config in
  Ret (config, if str_empty policyFingerprint then summary else summary +:+ " access_fingerprint=" +:+ policyFingerprint).

Definition checkConfig (o : Outside) (loaded : exn AppConfig) (json : bool) : Ended :=
  match validateOnly o loaded with
  | Throw error => failed json error
  | Ret (config, summary) =>
      {| en_status := 0; en_stdout := if json then validJson config summary else summary +:+ newline; en_stderr := "" |}
  end.

Definition diffConfig (before after : exn AppConfig) (json : bool) : Ended :=
  match (b ← before; a ← after; Ret (b, a)) with
  | Throw error => failed json error
  | Ret (b, a) => {| en_status := 0; en_stdout := formatConfigDiff (diffConfigs b a) json +:+ newline; en_stderr := "" |}
  end.

(** ** Serving *)

(** A round of the loop: what the threads of the server and the clients did
    before it, whether SIGHUP came, and what [pump] finds. *)
Record Round := { ro_between : App -> App; ro_hangup : bool; ro_pump : PumpInput }.

Definition mainRound (a : App) (r : Round) : App :=
  let a := ro_between r a in
  let a := if ro_hangup r then requestReload a else a in
  pump errSymMsg wrap S_asLib_asNotActive (ro_pump r) a.
Definition mainLoop (rounds : list Round) (a : App) : App := fold_left mainRound rounds a.

(** The rounds until a stop is asked for; the state of the application at the
    end is the second part. *)
Definition serveConfig (i : StartInput) (rounds : list Round) (last : Outside) (a : App) : Ended * App :=
  match start errSymMsg wrap i a with
  | (a, Throw error) => ({| en_status := 1; en_stdout := ""; en_stderr := error +:+ newline |}, a)
  | (a, Ret _) => ({| en_status := 0; en_stdout := ""; en_stderr := "" |}, (stop wrap last (mainLoop rounds a)).1)
  end.

Section Run.
Context `{YamlConv} (env : Env) (LoadFile : string -> exn ynode) (VERSION GIT_REVISION executable : string).

Definition main (args : list string) (o : Outside) (build begin : exn unit) (rounds : list Round) (last : Outside) (a : App)
    : Ended * App :=
  match checkCommand (parseCommandLine args CommandLine_default) with
  | Usage status => ({| en_status := status; en_stdout := ""; en_stderr := printUsage executable |}, a)
  | Version => ({| en_status := 0; en_stdout := printVersion VERSION GIT_REVISION; en_stderr := "" |}, a)
  | Perform c =>
      let load := loadConfigFile env LoadFile in
      if negb (str_empty (co_oldConfig c)) then (diffConfig (load (co_oldConfig c)) (load (co_newConfig c)) (co_json c), a)
      else if co_checkOnly c then (checkConfig o (load (co_configPath c)) (co_json c), a)
      else serveConfig {| st_load := load (co_configPath c); st_out := o; st_build := build; st_start := begin |} rounds last a
  end.
End Run.
End Main.

(** ** What is served passes the check *)

(** *** A smaller catalog *)

Section Catalog.
Import Discovery DiscoverySpec.

Lemma message_longer wire id body maximum wire' : message wire id body maximum = Ret wire' -> Discovery.size wire <= Discovery.size wire'.
Proof. intros [-> _]%message_ret. unfold Discovery.size. rewrite length_app. lia. Qed.

Lemma property_longer limits id c p c' :
  prepareProperty limits id c p = Ret c' -> Discovery.size (ct_wire c) <= Discovery.size (ct_wire c').
Proof.
  intros (wire & Hw & [= <-])%exn_bind_ret. cbn. revert Hw. unfold info.
  intros (? & _ & (? & _ & (? & _ & Hw)%exn_bind_ret)%exn_bind_ret)%exn_bind_ret. by eapply message_longer.
Qed.

Lemma properties_longer limits id c l c' :
  exn_fold (prepareProperty limits id) c l = Ret c' -> Discovery.size (ct_wire c) <= Discovery.size (ct_wire c').
Proof.
  intros Hl. eapply (exn_fold_inv (fun x => Discovery.size (ct_wire c) <= Discovery.size (ct_wire x))); [reflexivity| |exact Hl].
  intros c1 p c2 _ Hc Hp%property_longer. by etransitivity.
Qed.

Lemma alias_longer limits s alias s' :
  prepareAlias limits s alias = Ret s' -> Discovery.size (ct_wire (cl_catalog s)) <= Discovery.size (ct_wire (cl_catalog s')).
Proof.
  intros (? & _ & (? & _ & (? & _ & (wire & Hw%message_longer & [= <-])%exn_bind_ret)%exn_bind_ret)%exn_bind_ret)%exn_bind_ret.
  exact Hw.
Qed.

Lemma record_longer limits s record s' :
  prepareRecord limits s record = Ret s' -> Discovery.size (ct_wire (cl_catalog s)) <= Discovery.size (ct_wire (cl_catalog s')).
Proof.
  intros (? & _ & (? & _ & (? & _ & (? & _ & (wire & Hw%message_longer & (s1 & Hs & (c & Hc%properties_longer & [= <-])%exn_bind_ret)%exn_bind_ret)%exn_bind_ret)%exn_bind_ret)%exn_bind_ret)%exn_bind_ret)%exn_bind_ret.
  cbn [cl_catalog]. etransitivity; [exact Hw|]. etransitivity; [|exact Hc].
  eapply (exn_fold_inv (fun x => Discovery.size wire <= Discovery.size (ct_wire (cl_catalog x)))); [| |exact Hs]; [reflexivity|].
  intros s2 alias s3 _ H2 H3%alias_longer. by etransitivity.
Qed.

(** A property with a value that is no longer and has no NUL. *)
Definition lesser (p q : string * string) : Prop :=
  p.1 = q.1 /\ (p.2 = q.2 \/ strlen p.2 <= strlen q.2 /\ has_nul p.2 = false).

(** Catalogs and loops that differ in the length of what was written. *)
Definition below (c d : DiscoveryCatalog) : Prop :=
  ct_records c = ct_records d /\ ct_aliases c = ct_aliases d /\ Discovery.size (ct_wire c) <= Discovery.size (ct_wire d).
Definition below_loop (s t : CatalogLoop) : Prop :=
  below (cl_catalog s) (cl_catalog t) /\ cl_names s = cl_names t /\ cl_id s = cl_id t.

Lemma exn_fold_sim {S A} (R : S -> S -> Prop) (Q : A -> A -> Prop) (f : S -> A -> exn S) l l' s t t' :
  (forall s t x y t', R s t -> Q x y -> f t y = Ret t' -> exists s', f s x = Ret s' /\ R s' t') ->
  Forall2 Q l l' -> R s t -> exn_fold f t l' = Ret t' -> exists s', exn_fold f s l = Ret s' /\ R s' t'.
Proof.
  intros Hf Hl. revert s t. induction Hl as [|x y l l' Hxy _ IH]; intros s t Hr; cbn; [intros [= <-]; eauto|].
  intros (t1 & Ht & Hrest)%exn_bind_ret. destruct (Hf _ _ _ _ _ Hr Hxy Ht) as (s1 & -> & H1). cbn. by apply (IH s1 t1).
Qed.

Lemma message_below wire wire' id body body' maximum w' :
  Discovery.size wire <= Discovery.size wire' -> Discovery.size body <= Discovery.size body' -> message wire' id body' maximum = Ret w' ->
  exists w, message wire id body maximum = Ret w /\ Discovery.size w <= Discovery.size w'.
Proof.
  intros Hw Hb Hm. pose proof Hm as [-> _]%message_ret. apply exn_bind_ret in Hm as (? & Hu%throw_if_ret & _). bool_split.
  destruct (message wire id body maximum) as [w|e] eqn:E.
  - exists w. split; [done|]. apply message_ret in E as [-> _]. unfold encode, Discovery.size in *.
    rewrite !length_app, !length_append32, !length_append16. cbn. lia.
  - unfold message in E. rewrite (proj2 (Z.ltb_ge _ _)), (proj2 (Z.ltb_ge _ _)) in E by lia. done.
Qed.

Lemma property_below limits id c d p q d' :
  below c d -> lesser p q -> prepareProperty limits id d q = Ret d' ->
  exists c', prepareProperty limits id c p = Ret c' /\ below c' d'.
Proof.
  intros (Hr & Ha & Hs) [Hk Hv] (wire & Hw & [= <-])%exn_bind_ret. revert Hw. unfold info.
  intros (? & H1 & (? & H2 & (? & H3 & Hw)%exn_bind_ret)%exn_bind_ret)%exn_bind_ret.
  assert (Hb : Discovery.size (info_body id p.1 p.2) <= Discovery.size (info_body id q.1 q.2)).
  { unfold info_body, appendText. unfold Discovery.size. rewrite !length_app, !length_append16, !length_app, !length_append32.
    pose proof (text_size p.1). pose proof (text_size p.2). pose proof (text_size q.1). pose proof (text_size q.2).
    unfold Discovery.size in *. rewrite Hk in *. cbn. destruct Hv as [->|[? _]]; lia. }
  destruct (message_below (ct_wire c) _ 6 _ _ _ _ Hs Hb Hw) as (w & Hm & Hle).
  exists (c <| ct_wire := w |>). split; [|by split_and!]. unfold prepareProperty, info. rewrite Hk, H1. cbn [mbind exn_bind].
  assert (validateText p.2 65535 "property value" true = Ret tt) as ->.
  { destruct Hv as [->|[Hl Hn]]; [by destruct x0|]. apply throw_if_ret in H2. unfold validateText.
    rewrite Hn, (proj2 (Z.ltb_ge _ _)); [done|]. bool_split. lia. }
  cbn [mbind exn_bind]. rewrite H3. cbn [mbind exn_bind]. rewrite Hk in Hm. by rewrite Hm.
Qed.

Lemma properties_below limits id c d l l' d' :
  below c d -> Forall2 lesser l l' -> exn_fold (prepareProperty limits id) d l' = Ret d' ->
  exists c', exn_fold (prepareProperty limits id) c l = Ret c' /\ below c' d'.
Proof. intros Hb Hl. eapply exn_fold_sim; [|exact Hl|exact Hb]. intros. by eapply property_below. Qed.

Lemma lesser_refl l : Forall2 lesser l l.
Proof. induction l as [|p l IH]; constructor; [split; [done|by left]|done]. Qed.

Lemma same_all {A} (l : list A) : Forall2 eq l l.
Proof. induction l; by constructor. Qed.

Lemma alias_below limits s t alias t' :
  below_loop s t -> prepareAlias limits t alias = Ret t' -> exists s', prepareAlias limits s alias = Ret s' /\ below_loop s' t'.
Proof.
  intros ((Hr & Ha & Hs) & Hn & Hi). unfold prepareAlias, catalog_full. rewrite Hr, Ha, Hn, Hi.
  intros (? & -> & (? & -> & (names & -> & (wire & Hw & [= <-])%exn_bind_ret)%exn_bind_ret)%exn_bind_ret)%exn_bind_ret. cbn [mbind exn_bind].
  destruct (message_below (ct_wire (cl_catalog s)) _ 3 (alias_body (cl_id t) alias) _ _ _ Hs (Z.le_refl _) Hw) as (w & -> & Hle).
  eexists. split; [done|]. unfold below_loop, below; cbn; split_and!; first [congruence|done].
Qed.

Lemma record_below limits s t record t' :
  below_loop s t -> prepareRecord limits t record = Ret t' -> exists s', prepareRecord limits s record = Ret s' /\ below_loop s' t'.
Proof.
  intros ((Hr & Ha & Hs) & Hn & Hi). unfold prepareRecord, catalog_full. rewrite Hr, Ha, Hn, Hi.
  intros (? & -> & (? & -> & (? & -> & (names & -> & (wire & Hw & (t1 & Ht & (d & Hd & [= <-])%exn_bind_ret)%exn_bind_ret)%exn_bind_ret)%exn_bind_ret)%exn_bind_ret)%exn_bind_ret)%exn_bind_ret.
  cbn [mbind exn_bind].
  destruct (message_below (ct_wire (cl_catalog s)) _ 3 (record_body (u32 (cl_id t + 1)) (dr_type record) (dr_name record)) _ _ _ Hs (Z.le_refl _) Hw) as (w & -> & Hle).
  cbn [mbind exn_bind].
  eapply (exn_fold_sim below_loop eq (prepareAlias limits)) in Ht as (s1 & -> & (Hb & Hn1 & Hi1)); [|intros; subst; by eapply alias_below|apply same_all|].
  - cbn [mbind exn_bind]. destruct (properties_below _ _ _ _ _ _ _ Hb (lesser_refl _) Hd) as (c & -> & Hc). cbn. eexists. split; [done|].
    unfold below_loop. cbn. split; [exact Hc|by split].
  - unfold below_loop, below; cbn; split_and!; first [congruence|done].
Qed.

(** A catalog that can be built can be built without its last records and with
    shorter properties. *)
Lemma catalog_below limits generation generation' identity identity' records more c :
  Forall2 lesser identity identity' -> prepareDiscoveryCatalog limits generation' identity' (records ++ more) = Ret c ->
  exists c', prepareDiscoveryCatalog limits generation identity records = Ret c'.
Proof.
  intros Hl. unfold prepareDiscoveryCatalog.
  intros (d & Hd & (t & Ht & (wire & Hw & _)%exn_bind_ret)%exn_bind_ret)%exn_bind_ret.
  edestruct (properties_below limits 0 {| ct_generation := generation; ct_records := 0; ct_aliases := 0; ct_wire := [] |}) as (c0 & -> & Hc0);
    [|exact Hl|exact Hd|]; [by unfold below; split_and!|]. cbn [mbind exn_bind].
  rewrite exn_fold_app in Ht. apply exn_bind_ret in Ht as (t1 & Ht1 & Ht).
  eapply (exn_fold_sim below_loop eq (prepareRecord limits)) in Ht1 as (s1 & -> & (Hb & _));
    [|intros; subst; by eapply record_below|apply same_all|by unfold below_loop; split_and!]. cbn [mbind exn_bind].
  assert (Hle : Discovery.size (ct_wire (cl_catalog t1)) <= Discovery.size (ct_wire (cl_catalog t))).
  { eapply (exn_fold_inv (fun x => Discovery.size (ct_wire (cl_catalog t1)) <= Discovery.size (ct_wire (cl_catalog x)))); [reflexivity| |exact Ht].
    intros s2 r s3 _ H2 H3%record_longer. by etransitivity. }
  destruct Hb as (_ & _ & Hs). edestruct (message_below (ct_wire (cl_catalog s1)) (ct_wire (cl_catalog t))) as (w & -> & _);
    [lia|reflexivity|exact Hw|]. by eexists.
Qed.
End Catalog.

(** *** The identity of the program in the catalog *)

Lemma to_dec_no_nul z : has_nul (to_dec z) = false.
Proof.
  assert (Hd : forall t, all_digits t = true -> has_nul t = false).
  { intros t Ht. induction t as [|ch t IH]; [done|]. cbn in Ht. apply andb_true_iff in Ht as [Hc Ht]. cbn. rewrite (IH Ht), orb_false_r.
    apply bool_decide_eq_false. intros ->. discriminate Hc. }
  destruct (Z.le_gt_cases 0 z) as [Hz|Hz]; [apply Hd, to_dec_digits, Hz|].
  destruct z as [|p|p]; [lia..|]. change (to_dec (Z.neg p)) with ("-" +:+ to_dec (Z.pos p)). rewrite has_nul_app.
  pose proof (Hd _ (proj1 (proj2 (to_dec_digits (Z.pos p) ltac:(lia))))) as Hp. exact Hp.
Qed.

Lemma sm_set_lesser k v l l' : Forall2 lesser l l' -> Forall2 lesser (sm_set k v l) (sm_set k v l').
Proof.
  assert (Hr : lesser (k, v) (k, v)) by (split; [done|by left]).
  induction 1 as [|[k1 v1] [k2 v2] l l' Hxy Hl IH]; cbn; [by constructor|]. destruct Hxy as [Hk Hv]. cbn in Hk. subst k2.
  assert (Hxy : lesser (k1, v1) (k1, v2)) by (by split).
  destruct (k ?= k1)%string; [by apply Forall2_cons_2|by apply Forall2_cons_2; [|apply Forall2_cons_2]|by apply Forall2_cons_2].
Qed.

Lemma environment_lesser o keys l l' : Forall2 lesser l l' ->
  let add identity key := match ox_getenv o key with
                          | Some value => if str_empty value then identity else sm_set key value identity
                          | None => identity
                          end in
  Forall2 lesser (fold_left add keys l) (fold_left add keys l').
Proof.
  cbv zeta. revert l l'. induction keys as [|key keys IH]; intros l l' Hl; [done|]. cbn [fold_left]. apply IH.
  destruct (ox_getenv o key) as [value|]; [|done]. destruct (str_empty value); [done|by apply sm_set_lesser].
Qed.

Lemma identity_lesser o config port port' generation generation' :
  strlen (to_dec port') <= strlen (to_dec port) -> strlen (to_dec generation') <= strlen (to_dec generation) ->
  Forall2 lesser (catalogIdentity o config port' generation') (catalogIdentity o config port generation).
Proof.
  intros Hp Hg. unfold catalogIdentity. apply environment_lesser.
  assert (H0 : forall l l', Forall2 lesser l l' -> Forall2 lesser
    (match ox_hostname o with Some host => sm_set "HOSTNAME" host l | None => l end)
    (match ox_hostname o with Some host => sm_set "HOSTNAME" host l' | None => l' end))
    by (intros l l' Hl; destruct (ox_hostname o); [by apply sm_set_lesser|done]).
  apply H0. repeat (apply Forall2_cons_2; [split; [done|]; first [by left|right; split; [done|apply to_dec_no_nul]]|]). constructor.
Qed.

(** The check builds the catalog of generation 1 without RPC names, for the
    port it expects. *)
Lemma buildDiscoveryCatalog_below o config rpcs port port' generation c :
  strlen (to_dec port') <= strlen (to_dec port) -> 0 <= generation ->
  buildDiscoveryCatalog o config rpcs port generation = Ret c -> exists c', buildDiscoveryCatalog o config [] port' 1 = Ret c'.
Proof.
  intros Hp Hg. unfold buildDiscoveryCatalog. destruct (negb _); [by eexists|]. intros (catalog & Hc & _)%exn_bind_ret.
  unfold catalogRecords in Hc. rewrite app_assoc in Hc.
  eapply (catalog_below _ 1 _ (catalogIdentity o config port' 1)) in Hc as [c' Hc]; [|apply identity_lesser; [done|]].
  - exists (Some c'). unfold catalogRecords. cbn [sm_keys map]. rewrite app_nil_r, Hc. done.
  - destruct (to_dec_digits generation Hg) as (_ & _ & Hn). change (strlen (to_dec 1)) with 1. unfold strlen.
    destruct (to_dec generation); [done|]. cbn. lia.
Qed.

Section Check.
Context `{Acf.MacLib} (errSymMsg : Z -> string) (wrap : AccessMember -> string -> Wrapper) (S_asLib_asNotActive : Z).

Lemma startAccess_validates o config a a' u :
  startAccess errSymMsg o config a = (a', Ret u) ->
  exists fingerprint, AccessPolicy.validateAccessPolicy (ox_files o) (app_access config) (requiredAccessAsgs config) = Ret fingerprint.
Proof.
  unfold startAccess, AccessPolicy.validateAccessPolicy. destruct (ac_enabled (app_access config)) eqn:E; cbn [negb]; [|by eexists].
  unfold AccessPolicy.start. cbn. rewrite E. cbn. unfold AccessPolicy.reload, AccessPolicy.reloadLocked. cbn.
  destruct (AccessPolicy.prepared _ _ _); [by eexists|done].
Qed.

Lemma applyConfig_prepared o config initial a a' u :
  numbered a -> linked a -> applyConfig errSymMsg wrap o config initial a = (a', Ret u) ->
  exists a1 n, generation_prepared wrap o config (u64 (ap_generation a + 1)) (describeReload config a) a1 n.
Proof.
  intros Hn Hl. unfold applyConfig. destruct (immutable _ _ _); [|done]. unfold applyGeneration.
  destruct (prepareGeneration _ _ _ _ _) as [a1 [n|what]] eqn:Ep; [|done]. intros _. exists a1, n.
  apply (prepareGeneration_ret wrap) in Ep; done.
Qed.

Lemma buildRpcPVs_allowed o config previous next x :
  buildRpcPVs o config previous next = Ret x -> negb (ox_grpc o) && negb (bool_decide (app_rpcServices config = [])) = false.
Proof.
  unfold buildRpcPVs. intros ([staged n] & Hs & _)%exn_bind_ret. destruct (ox_grpc o); [done|].
  apply exn_bind_ret in Hs as ([] & ->%throw_if_ret & _). done.
Qed.

(** The text of the port the server has is no shorter than that of the port the
    check expects: the configured one, or the default of the protocol. *)
Definition port_shown (o : Outside) (config : AppConfig) : Prop :=
  strlen (to_dec (default 5075 (sv_tcpPort (app_server config)))) <= strlen (to_dec (ox_port o)).

(** [--check-config] accepts what was loaded, with its summary. *)
Definition passes (o : Outside) (loaded : exn AppConfig) : Prop :=
  exists config fingerprint, loaded = Ret config /\
    AccessPolicy.validateAccessPolicy (ox_files o) (app_access config) (requiredAccessAsgs config) = Ret fingerprint /\
    let summary := summarizeConfig config +:+ (if str_empty fingerprint then "" else " access_fingerprint=" +:+ fingerprint) in
    forall json, checkConfig o loaded json =
      {| en_status := 0; en_stdout := if json then validJson config summary else summary +:+ newline; en_stderr := "" |}.

Lemma prepared_passes o config generation a a' n fingerprint :
  generation_prepared wrap o config generation a a' n -> 0 <= generation -> port_shown o config ->
  AccessPolicy.validateAccessPolicy (ox_files o) (app_access config) (requiredAccessAsgs config) = Ret fingerprint ->
  passes o (Ret config).
Proof.
  intros Hp Hg Hport Hfp. destruct (gp_services _ _ _ _ _ _ _ Hp) as (next & next' & Hsv%buildRpcPVs_allowed).
  pose proof (gp_catalog _ _ _ _ _ _ _ Hp) as Hc. eapply buildDiscoveryCatalog_below in Hc as [c Hc]; [|exact Hport|done].
  exists config, fingerprint. split_and!; [done|done|]. cbv zeta. intros json. unfold checkConfig, validateOnly. cbn [mbind exn_bind]. rewrite Hsv.
  cbn [throw_if mbind exn_bind]. rewrite Hc. cbn [mbind exn_bind]. rewrite Hfp. cbn [mbind exn_bind].
  destruct (str_empty fingerprint); [|done]. by rewrite str_app_nil_r.
Qed.

Lemma start_passes config0 i a config :
  st_load i = Ret config -> start errSymMsg wrap i (App_new config0) = (a, Ret tt) -> port_shown (st_out i) config ->
  passes (st_out i) (st_load i).
Proof.
  intros El Hst Hport. unfold start in Hst. rewrite El in *.
  set (a1 := describeReload config _) in Hst. assert (Hf1 : fresh a1) by (by split). assert (Ha1 : ap_access a1 = None) by done. clearbody a1.
  destruct (st_build i); [|done]. destruct (startAccess _ _ _ _) as [a2 [u2|]] eqn:E2; [|done].
  destruct (startAccess_ret _ _ _ _ _ _ E2 Hf1 Ha1) as (Hf2 & _). destruct (startAccess_validates _ _ _ _ _ E2) as [fingerprint Hfp].
  destruct (applyConfig _ _ _ _ _ _) as [a4 [u4|]] eqn:E4; [|done]. clear Hst.
  pose proof (fresh_admin config a2 Hf2) as Hf3. apply applyConfig_prepared in E4 as (a5 & n & Hp).
  - eapply prepared_passes; [exact Hp|apply Z.mod_pos_bound; lia|done|exact Hfp].
  - intros id. rewrite (fr_objects _ Hf3), lookup_empty. by intros [].
  - intros name id. by rewrite (fr_runtimes _ Hf3), lookup_empty.
Qed.

(** A running application that commits a reload had its access policy checked,
    or has none. *)
Lemma reload_passes config0 limit o loaded a :
  running config0 limit a -> (forall config, loaded = Ret config -> loadable config /\ port_shown o config) ->
  rl_committed (ap_reload (pumpReload errSymMsg wrap o loaded a)) = true -> passes o loaded.
Proof.
  intros [Hok _ _ _ Hset Hsec _] Hld. unfold pumpReload. set (a0 := beginReload "reload" a).
  destruct loaded as [config|what]; [|cbn; intros E%Z.eqb_eq; by destruct (AccessPolicy.u64_succ_ne (ap_generation a))].
  destruct (Hld config eq_refl) as [_ Hport]. destruct (applyConfig _ _ _ _ _ _) as [a1 [u|w]] eqn:E; [intros _|done].
  assert (Himm : immutable false a0 config = Ret tt).
  { unfold applyConfig in E. change (immutable false (describeReload config a0) config) with (immutable false a0 config) in E.
    by destruct (immutable false a0 config) as [[]|]. }
  destruct (grows_keeps _ _ Hok (grows_begin "reload" a)) as [Hok0 _]. fold a0 in Hok0. pose proof (ok_base _ Hok0) as Hb.
  apply applyConfig_prepared in E as (a2 & n & Hp); [|apply Hb|by apply base_linked].
  pose proof (gp_policy _ _ _ _ _ _ _ Hp) as Hpol. unfold preparePolicy in Hpol.
  change (ap_access (describeReload config a0)) with (ap_access a) in Hpol.
  change (ap_hasConfig (describeReload config a0)) with (ap_hasConfig a) in Hpol. rewrite (ok_hasConfig _ Hok) in Hpol.
  assert (exists fingerprint, AccessPolicy.validateAccessPolicy (ox_files o) (app_access config) (requiredAccessAsgs config) = Ret fingerprint) as [fp Hfp].
  { unfold AccessPolicy.validateAccessPolicy. destruct (ac_enabled (app_access config)) eqn:Een; cbn [negb]; [|by eexists].
    destruct (ap_access a) as [access|] eqn:Ea.
    - destruct (AccessPolicy.prepareConfiguration _ _ _ _) as [pc|] eqn:Epc; [|done].
      apply exn_bind_ret in Epc as (p & -> & _). by eexists.
    - exfalso. apply immutable_settings in Himm; [|exact (ok_hasConfig _ Hok)]. change (ap_config a0) with (ap_config a) in Himm.
      assert (ac_enabled (app_access config0) = true) as He%Hsec by (unfold settings in *; congruence). by destruct He. }
  eapply prepared_passes; [exact Hp|apply Z.mod_pos_bound; lia|done|exact Hfp].
Qed.

(** C29. What is served passes the check of the command line, at the start and
    on every reload.  When the application starts from a file that was parsed,
    [--check-config] accepts that file, with the summary of its configuration
    and the fingerprint of its policy; and when it then, after any pumps,
    commands and server steps, commits a reload of another, [--check-config]
    accepts that one under the conditions of that moment.  So a file the check
    refuses is not put in force.  Both hold where the text of the port the
    server is bound to, which is part of the catalog for discovery, is no
    shorter than that of the port the check expects: the configured one, or
    5075. *)
Theorem served_passes_check config0 i config a0 :
  st_load i = Ret config -> loadable config -> start errSymMsg wrap i (App_new config0) = (a0, Ret tt) ->
  port_shown (st_out i) config ->
  passes (st_out i) (st_load i) /\
  forall n a o loaded, runs errSymMsg wrap S_asLib_asNotActive a0 n a -> 2 * Z.of_nat n + 1 < 2 ^ 64 ->
    (forall config, loaded = Ret config -> loadable config /\ port_shown o config) ->
    rl_committed (ap_reload (pumpReload errSymMsg wrap o loaded a)) = true -> passes o loaded.
Proof.
  intros El Hld Hst Hport. split; [by eapply start_passes|]. intros n a o loaded Hr Hn Hl Hc.
  eapply reload_passes; [|exact Hl|exact Hc]. eapply running_runs; [by eapply running_start|exact Hr|done].
Qed.
End Check.

(** ** The program as it runs *)

Section Serve.
Context `{Acf.MacLib} {HL : Acf.MacLaws} (errSymMsg : Z -> string) (wrap : AccessMember -> string -> Wrapper) (S_asLib_asNotActive : Z).

(** A round in which the server and the clients do what they can, and what is
    loaded comes from the parser. *)
Definition round_ok (r : Round) : Prop := loads (ro_pump r) /\ forall a, rtc other_step a (ro_between r a).

Lemma runs_rtc a0 n a a' : runs errSymMsg wrap S_asLib_asNotActive a0 n a -> rtc other_step a a' -> runs errSymMsg wrap S_asLib_asNotActive a0 n a'.
Proof. intros Hr Hs. revert Hr. induction Hs as [|a a1 a' Hs _ IH]; [done|]. intros Hr. apply IH. by eapply R_other. Qed.

Lemma mainLoop_runs a0 rounds : Forall round_ok rounds ->
  runs errSymMsg wrap S_asLib_asNotActive a0 (length rounds) (mainLoop errSymMsg wrap S_asLib_asNotActive rounds a0).
Proof.
  induction rounds as [|r rounds IH] using rev_ind; [constructor|]. intros [Hrs [Hl Hb]%Forall_singleton]%Forall_app.
  unfold mainLoop. rewrite fold_left_app, length_app, Nat.add_1_r. cbn. unfold mainRound. apply R_pump; [|done].
  assert (Hr : runs errSymMsg wrap S_asLib_asNotActive a0 (length rounds) (ro_between r (mainLoop errSymMsg wrap S_asLib_asNotActive rounds a0)))
    by (eapply runs_rtc; [by apply IH|apply Hb]).
  destruct (ro_hangup r); [|done]. eapply R_other; [exact Hr|apply A_signal].
Qed.

(** The program serves until it is told to stop.  If the start fails it ends with
    status 1 and the reason; otherwise with status 0, after every round of the
    loop exactly the names of the configuration in force are served, each by a
    live runtime of the current generation, and at the end no name is served and
    every runtime has been deactivated. *)
Theorem main_serves_and_stops config0 i config rounds last :
  st_load i = Ret config -> loadable config -> Forall round_ok rounds -> 2 * Z.of_nat (length rounds) + 1 < 2 ^ 64 ->
  match start errSymMsg wrap i (App_new config0) with
  | (a, Throw error) =>
      serveConfig errSymMsg wrap S_asLib_asNotActive i rounds last (App_new config0) =
        ({| en_status := 1; en_stdout := ""; en_stderr := error +:+ newline |}, a)
  | (a0, Ret _) =>
      (forall n, let a := mainLoop errSymMsg wrap S_asLib_asNotActive (take n rounds) a0 in
         app_ok a /\ settings (ap_config a) = settings config /\ ap_started a = true) /\
      exists a', serveConfig errSymMsg wrap S_asLib_asNotActive i rounds last (App_new config0) =
          ({| en_status := 0; en_stdout := ""; en_stderr := "" |}, a') /\
        (forall name, onSearch (se_registry (ap_names a')) name = false) /\ ap_runtimes a' = ∅ /\
        forall name id, ap_runtimes (mainLoop errSymMsg wrap S_asLib_asNotActive rounds a0) !! name = Some id ->
          exists r, ap_objects a' !! id = Some r /\ ro_retired r = true /\ ro_active r = false
  end.
Proof.
  intros El Hld Hrs Hn. unfold serveConfig. destruct (start _ _ _ _) as [a0 [[]|error]] eqn:Es; [|done].
  pose proof (running_start errSymMsg wrap config0 i config a0 El Hld Es) as Hr0.
  assert (Hrun : forall n, running config (2 * Z.of_nat (length (take n rounds)) + 1) (mainLoop errSymMsg wrap S_asLib_asNotActive (take n rounds) a0)).
  { intros n. eapply running_runs; [exact Hr0|by apply mainLoop_runs, Forall_take|]. rewrite length_take. lia. }
  split; [intros n; destruct (Hrun n) as [H1 _ _ H4 H5 _ _]; done|].
  specialize (Hrun (length rounds)). rewrite firstn_all in Hrun.
  destruct (stop_leaves_nothing wrap last _ (rn_ok _ _ _ Hrun)) as (a' & Hs & Hno & (Hrt & _) & Hret).
  exists a'. rewrite Hs. by split_and!.
Qed.
End Serve.

Module MainDemo.
Import AcfGrammar.PlainMacros RunDemo.
#[local] Existing Instances ConfigSafety.Demo.conv ConfigSafety.Demo.conv_laws.

Example arguments :
  map (fun args => checkCommand (parseCommandLine args CommandLine_default))
    [["--config"]; ["--json"]; ["--check-config"; "c.yaml"; "--json"]; ["--diff-config"; "a"; "b"]; ["--help"; "--bad"]] =
  [Usage 1; Usage 1; Perform (Build_CommandLine "c.yaml" true true "" "");
   Perform (Build_CommandLine "/etc/redis-pvxs-ioc/config.yaml" false false "a" "b"); Usage 0].
Proof. by vm_compute. Qed.

Definition quiet_round (hangup : bool) : Round := {| ro_between := fun a => a; ro_hangup := hangup; ro_pump := reading |}.

Lemma quiet_round_ok hangup : round_ok (quiet_round hangup).
Proof. split; [|intros a; reflexivity]. intros config [= <-]. exact edited_loadable. Qed.
Lemma rounds_ok : Forall round_ok [quiet_round false; quiet_round true].
Proof. apply Forall_cons_2; [apply quiet_round_ok|]. apply Forall_singleton, quiet_round_ok. Qed.

Lemma port_of config : sv_tcpPort (app_server config) = sv_tcpPort (app_server plain) -> port_shown outside config.
Proof. unfold port_shown. intros ->. apply Z.leb_le. vm_compute. reflexivity. Qed.

Lemma edited_committed : rl_committed (ap_reload (pumpReload errText wrapped outside (Ret edited) (started plain))) = true.
Proof. vm_compute. reflexivity. Qed.

(** A secured start, and the reload of an edited file. *)
Lemma served_passes_check_witness : passes outside (Ret secured) /\ passes outside (Ret edited).
Proof.
  split.
  - exact (proj1 (served_passes_check errText wrapped 1 plain (input secured) secured (started secured) eq_refl secured_loadable
      secured_starts (port_of secured eq_refl))).
  - refine (proj2 (served_passes_check errText wrapped 1 plain (input plain) plain (started plain) eq_refl plain_loadable
      plain_starts (port_of plain eq_refl)) 0%nat (started plain) outside (Ret edited) (R_start _ _ _ _) _ _ edited_committed).
    + vm_compute. reflexivity.
    + intros config [= <-]. split; [exact edited_loadable|exact (port_of edited eq_refl)].
Defined.

Lemma main_serves_and_stops_witness :
  exists a', serveConfig errText wrapped 0 (input plain) [quiet_round false; quiet_round true] outside (App_new plain) =
    ({| en_status := 0; en_stdout := ""; en_stderr := "" |}, a') /\ forall name, onSearch (se_registry (ap_names a')) name = false.
Proof.
  pose proof (main_serves_and_stops errText wrapped 0 plain (input plain) plain [quiet_round false; quiet_round true] outside
    eq_refl plain_loadable rounds_ok ltac:(cbn [length]; lia)) as Hm.
  rewrite plain_starts in Hm. destruct Hm as (_ & a' & Hs & Hno & _). exists a'. split; [exact Hs|exact Hno].
Defined.

(** The second round reloads the file. *)
Example reloaded : ap_generation (mainLoop errText wrapped 0 [quiet_round false; quiet_round true] (started plain)) = 2.
Proof. by vm_compute. Qed.
End MainDemo.
