(* ===== verification/StreamCapacity.v ===== *)
(** * The capacity measurement

    tools/stream_capacity.cpp: the options and their bounds, what the monitor of
    each client accepts and counts, and the numbers of the report.  Redis, the
    server and PVXS are outside: a client is given the list of updates its
    monitor pops.  The clock is in nanoseconds; the quantiles of the latencies and
    the printing of decimal fractions are not modelled.

    The theorem shows that the counts of a report are true: the updates it says
    were received are the distinct samples each client saw, in order, and the
    missed updates are the samples that some client never saw. *)

From S2P Require Import Prelude.
From S2P Require Import StrMap.

Local Open Scope string_scope.
Local Open Scope list_scope.
Local Open Scope Z_scope.

(** ** Options *)

Record Options := {
  sc_host : string; sc_base : string; sc_pv : string; sc_address : string; sc_output : string;
  sc_port : Z; sc_samples : Z; sc_rate : Z; sc_elements : Z; sc_count : Z;
}.
#[export] Instance Options_eta : Eta Options := fun r =>
  Build_Options (sc_host r) (sc_base r) (sc_pv r) (sc_address r) (sc_output r) (sc_port r) (sc_samples r) (sc_rate r)
    (sc_elements r) (sc_count r).
Definition Options_default : Options :=
  {| sc_host := "127.0.0.1"; sc_base := ""; sc_pv := ""; sc_address := ""; sc_output := ""; sc_port := 0; sc_samples := 1000;
     sc_rate := 100; sc_elements := 1; sc_count := 1 |}.

Definition require (condition : bool) (message : string) : exn unit := throw_if (negb condition) message.

(** [std::from_chars] to a 32-bit number takes digits only. *)
Definition number (value : string) (maximum : Z) : exn Z :=
  let result := dec_value 0 value in
  require (negb (str_empty value) && all_digits value && (result <=? max_u32) && negb (result =? 0) && (result <=? maximum))
    "numeric option is outside its bounds" ;;
  Ret result.

Definition setOption (o : Options) (option value : string) : exn Options :=
  if String.eqb option "--redis-host" then Ret (o <| sc_host := value |>)
  else if String.eqb option "--redis-port" then n ← number value 65535; Ret (o <| sc_port := n |>)
  else if String.eqb option "--base-key" then Ret (o <| sc_base := value |>)
  else if String.eqb option "--pv" then Ret (o <| sc_pv := value |>)
  else if String.eqb option "--pva-address" then Ret (o <| sc_address := value |>)
  else if String.eqb option "--output" then Ret (o <| sc_output := value |>)
  else if String.eqb option "--samples" then n ← number value 100000; Ret (o <| sc_samples := n |>)
  else if String.eqb option "--rate" then n ← number value 10000; Ret (o <| sc_rate := n |>)
  else if String.eqb option "--elements" then n ← number value 8388608; Ret (o <| sc_elements := n |>)
  else if String.eqb option "--clients" then n ← number value 64; Ret (o <| sc_count := n |>)
  else Throw ("unknown option: " +:+ option).

Fixpoint readOptions (args : list string) (o : Options) : exn Options :=
  match args with
  | [] => Ret o
  | [_] => Throw "missing option value"
  | option :: value :: args => o ← setOption o option value; readOptions args o
  end.

(** The bounds of a measurement.  Both numbers of the quotient are small enough
    for the comparison of the [double] with 600 to be exact. *)
Definition checkOptions (o : Options) (reportExists : bool) : exn unit :=
  require (negb (sc_port o =? 0) && negb (str_empty (sc_base o)) && negb (str_empty (sc_pv o)) &&
           negb (str_empty (sc_address o)) && negb (str_empty (sc_output o)))
    "required: --redis-port --base-key --pv --pva-address --output" ;;
  require ((sc_samples o <=? 600 * sc_rate o) && (sc_samples o * sc_count o <=? 1000000))
    "measurement exceeds duration or sample memory bound" ;;
  require (negb reportExists) "report exists; choose a new evidence path".

Definition parseOptions (args : list string) (reportExists : bool) : exn Options :=
  o ← readOptions args Options_default; checkOptions o reportExists ;; Ret o.

(** ** One client *)

Record Observations := {
  ob_initial : bool; ob_last : Z; ob_received : Z; ob_duplicates : Z; ob_metadataOnly : Z; ob_latency : list Z;
}.
#[export] Instance Observations_eta : Eta Observations := fun r =>
  Build_Observations (ob_initial r) (ob_last r) (ob_received r) (ob_duplicates r) (ob_metadataOnly r) (ob_latency r).
Definition Observations_new : Observations :=
  {| ob_initial := false; ob_last := 0; ob_received := 0; ob_duplicates := 0; ob_metadataOnly := 0; ob_latency := [] |}.

(** An update a monitor popped: the kind of structure, its values, its alarm,
    whether it publishes a sample ([monitorPublishesSample]), when it arrived, and
    when each sample had been sent by then ([None] before that). *)
Record MonitorUpdate := {
  up_scalar : bool; up_array : bool; up_data : list Z; up_severity : Z; up_publishes : bool; up_arrived : Z; up_sent : Z -> option Z;
}.

(** Is every element [id] plus its index? *)
Fixpoint consecutive (id : Z) (data : list Z) : bool :=
  match data with [] => true | x :: data => (x =? id) && consecutive (id + 1) data end.

(** The sample an update carries; [None] for an array that is still empty. *)
Definition sampleId (o : Options) (u : MonitorUpdate) : exn (option Z) :=
  if sc_elements o =? 1 then
    require (up_scalar u) "wrong scalar type" ;; Ret (Some (nth 0 (up_data u) 0))
  else
    require (up_array u) "wrong array type" ;;
    match up_data u with
    | [] => Ret None
    | id :: _ =>
        require (Z.of_nat (length (up_data u)) =? sc_elements o) "wrong array length" ;;
        require (consecutive id (up_data u)) "array corruption" ;;
        Ret (Some id)
    end.

(** The callback, for one update. *)
Definition observe (o : Options) (s : Observations) (u : MonitorUpdate) : exn Observations :=
  found ← sampleId o u;
  match found with
  | None => Ret s
  | Some id =>
      if id =? 0 then require (ob_last s =? 0) "initial sample arrived after data" ;; Ret (s <| ob_initial := true |>)
      else
        require ((id <=? sc_samples o) && (ob_last s <=? id) && (match up_sent u id with Some _ => true | None => false end))
          "invalid sample order/identity" ;;
        require (up_severity u =? 0) "sample has invalid alarm" ;;
        if negb (up_publishes u) then
          require (id =? ob_last s) "metadata update changed sample identity" ;;
          Ret (s <| ob_metadataOnly ::= fun n => u32 (n + 1) |>)
        else if id =? ob_last s then Ret (s <| ob_duplicates ::= fun n => u32 (n + 1) |>)
        else Ret (s <| ob_last := id |> <| ob_received ::= fun n => u32 (n + 1) |>
                    <| ob_latency ::= fun l => l ++ [up_arrived u - default 0 (up_sent u id)] |>)
  end.

Definition watch (o : Options) (updates : list MonitorUpdate) : exn Observations := exn_fold (observe o) Observations_new updates.

(** ** The report *)

Record Report := { rp_received : Z; rp_missed : Z; rp_duplicates : Z; rp_metadataOnly : Z; rp_latency : list Z }.

Definition sum64 (f : Observations -> Z) (l : list Observations) : Z := foldl (fun n s => u64 (n + f s)) 0 l.

(** An event after the clients were found to have converged: its updates still
    count, up to the first that is refused; the failure is no longer looked at. *)
Fixpoint lateEvent (o : Options) (s : Observations) (updates : list MonitorUpdate) : Observations :=
  match updates with
  | [] => s
  | u :: updates => match observe o s u with Ret s => lateEvent o s updates | Throw _ => s end
  end.

(** The report over the clients, each with the updates it was given before all
    clients were at the last sample, and the events after that. *)
Definition report (o : Options) (clients : list (list MonitorUpdate * list (list MonitorUpdate))) : exn Report :=
  observations ← exn_fold (fun done client => s ← watch o client.1; Ret (done ++ [s])) [] clients;
  require (forallb (fun s => ob_last s =? sc_samples o) observations) "final values did not converge" ;;
  let observations := zip_with (fun s client => foldl (lateEvent o) s client.2) observations clients in
  let latency := concat (map ob_latency observations) in
  require (negb (Nat.eqb (length latency) 0)) "no observed samples" ;;
  let received := sum64 ob_received observations in
  Ret {| rp_received := received; rp_missed := u64 (u64 (sc_samples o * sc_count o) - received);
         rp_duplicates := sum64 ob_duplicates observations; rp_metadataOnly := sum64 ob_metadataOnly observations;
         rp_latency := latency |}.

(** ** What the counts mean *)

(** The samples a client was shown, in the order in which they came; which of
    them there are, and which it should have been shown. *)
Definition sample_of (o : Options) (u : MonitorUpdate) : option Z :=
  match sampleId o u with
  | Ret (Some id) => if negb (id =? 0) && up_publishes u then Some id else None
  | _ => None
  end.
Definition seen (o : Options) (updates : list MonitorUpdate) : list Z := omap (sample_of o) updates.
Definition distinct (ids : list Z) : gset Z := list_to_set ids.
Definition expected (o : Options) : gset Z := list_to_set (seqZ 1 (sc_samples o)).

Section Watch.
Context (o : Options) (Hsamples : 0 <= sc_samples o < 2 ^ 32).

Lemma expected_elem id : id ∈ expected o <-> 1 <= id <= sc_samples o.
Proof. unfold expected. rewrite elem_of_list_to_set, elem_of_seqZ. lia. Qed.
Lemma expected_size : Z.of_nat (size (expected o)) = sc_samples o.
Proof. unfold expected. rewrite size_list_to_set by apply NoDup_seqZ. rewrite length_seqZ. lia. Qed.

Record watched (ids : list Z) (s : Observations) : Prop := {
  wd_last : default 0 (last ids) = ob_last s;
  wd_range : forall id, id ∈ ids -> 1 <= id <= ob_last s;
  wd_bound : 0 <= ob_last s <= sc_samples o;
  wd_sorted : StronglySorted Z.le ids;
  wd_received : ob_received s = Z.of_nat (size (distinct ids));
  wd_latency : Z.of_nat (length (ob_latency s)) = ob_received s;
}.

(** A set of samples counts without wrapping, and what is missing completes it. *)
Lemma distinct_missing (ids : gset Z) : ids ⊆ expected o ->
  Z.of_nat (size ids) + Z.of_nat (size (expected o ∖ ids)) = sc_samples o.
Proof.
  intros Hs. rewrite <-expected_size, <-Nat2Z.inj_add. f_equal. pose proof (size_union_alt ids (expected o)) as H.
  replace (ids ∪ expected o) with (expected o) in H by set_solver. done.
Qed.

Lemma watched_new id ids s latency :
  watched ids s -> ob_last s < id <= sc_samples o ->
  watched (ids ++ [id]) (s <| ob_last := id |> <| ob_received ::= fun n => u32 (n + 1) |> <| ob_latency ::= fun l => l ++ [latency] |>).
Proof.
  intros [H1 H2 H3 H4 H5 H6] Hid.
  assert (Hn : id ∉ distinct ids) by (unfold distinct; rewrite elem_of_list_to_set; intros Hin%H2; lia).
  assert (Hd : distinct (ids ++ [id]) = {[id]} ∪ distinct ids) by (unfold distinct; set_solver).
  assert (Hsub : distinct (ids ++ [id]) ⊆ expected o).
  { intros x Hx. apply expected_elem. unfold distinct in Hx. apply elem_of_list_to_set, elem_of_app in Hx as [Hx%H2|Hx%list_elem_of_singleton]; lia. }
  assert (Hsize : size (distinct (ids ++ [id])) = S (size (distinct ids))) by (rewrite Hd, size_union, size_singleton by set_solver; done).
  pose proof (distinct_missing _ Hsub) as Hm. rewrite Hsize in Hm.
  assert (Hrec : u32 (ob_received s + 1) = ob_received s + 1) by (apply u32_id; lia).
  split; cbn [ob_last ob_received ob_latency field_update Observations_eta].
  - by rewrite last_snoc.
  - intros x [Hx%H2|Hx%list_elem_of_singleton]%elem_of_app; lia.
  - lia.
  - apply StronglySorted_snoc; [done|]. intros x Hx%H2. lia.
  - rewrite Hrec, Hsize, H5. lia.
  - rewrite length_app, Hrec. cbn [length]. lia.
Qed.

Lemma watched_again ids s : watched ids s -> ob_last s <> 0 -> watched (ids ++ [ob_last s]) s.
Proof.
  intros [H1 H2 H3 H4 H5 H6] Hl. assert (Hin : ob_last s ∈ ids).
  { destruct (last ids) as [x|] eqn:E; [|by rewrite <-H1 in Hl]. cbn in H1. subst x. by apply last_Some_elem_of. }
  split; try done.
  - by rewrite last_snoc.
  - intros x [Hx%H2|Hx%list_elem_of_singleton]%elem_of_app; [lia|]. apply H2 in Hin. lia.
  - apply StronglySorted_snoc; [done|]. intros x Hx%H2. lia.
  - rewrite H5. do 2 f_equal. unfold distinct. set_solver.
Qed.

(** What [observe] does not look at may change. *)
Lemma watched_same ids s s' : watched ids s -> ob_last s' = ob_last s -> ob_received s' = ob_received s -> ob_latency s' = ob_latency s -> watched ids s'.
Proof. intros [] E1 E2 E3. split; by rewrite ?E1, ?E2, ?E3. Qed.

Lemma observe_watched ids s u s' : watched ids s -> observe o s u = Ret s' -> watched (ids ++ omap (sample_of o) [u]) s'.
Proof.
  intros Hw H. unfold observe in H. apply exn_bind_ret in H as (found & Hf & H). unfold sample_of. cbn [omap list_omap]. rewrite Hf.
  destruct found as [id|]; [|rewrite app_nil_r; by simplify_eq]. destruct (Z.eqb_spec id 0) as [Hz|Hz]; cbn [negb andb].
  { rewrite app_nil_r. apply exn_bind_ret in H as (u0 & _ & [= <-]). by apply (watched_same ids s). }
  apply exn_bind_ret in H as (u1 & Hr%throw_if_ret & H). apply exn_bind_ret in H as (u2 & _ & H). bool_split.
  destruct (up_publishes u); cbn [negb] in H.
  - destruct (Z.eqb_spec id (ob_last s)) as [E|E]; injection H as <-.
    + subst id. apply (watched_same _ s); [by apply watched_again|done..].
    + apply watched_new; [done|]. lia.
  - rewrite app_nil_r. apply exn_bind_ret in H as (u3 & _ & [= <-]). by apply (watched_same ids s).
Qed.

Lemma watch_fold updates ids s s' :
  watched ids s -> exn_fold (observe o) s updates = Ret s' -> watched (ids ++ seen o updates) s'.
Proof.
  revert ids s. induction updates as [|u updates IH]; intros ids s Hw H; cbn [exn_fold] in H; [simplify_eq; by rewrite app_nil_r|].
  apply exn_bind_ret in H as (s1 & Hs & H). apply (observe_watched ids s u s1 Hw) in Hs. apply (IH _ _ Hs) in H.
  unfold seen in *. rewrite <-app_assoc in H. change (u :: updates) with ([u] ++ updates). by rewrite omap_app.
Qed.

Lemma watch_counts updates s : watch o updates = Ret s -> watched (seen o updates) s.
Proof. intros H. unfold watch in H. apply (watch_fold updates [] Observations_new) in H; [done|]. split; try done; [set_solver|cbn; lia|constructor]. Qed.
End Watch.

(** The bounds of accepted options. *)
Definition bounded (o : Options) : Prop :=
  1 <= sc_samples o <= 100000 /\ 1 <= sc_rate o <= 10000 /\ 1 <= sc_elements o <= 8388608 /\ 1 <= sc_count o <= 64.

Lemma dec_value_nonneg s acc : 0 <= acc -> all_digits s = true -> 0 <= dec_value acc s.
Proof.
  revert acc. induction s as [|c s IH]; intros acc Ha; [done|]. cbn [all_digits dec_value]. intros [Hc Hs]%andb_true_iff. apply IH; [|done].
  unfold is_digit, digit_value in *. bool_split. lia.
Qed.
Lemma number_range value maximum n : number value maximum = Ret n -> 1 <= n <= maximum.
Proof.
  unfold number. intros H. apply exn_bind_ret in H as (u & Hr%throw_if_ret & [= <-]). bool_split.
  pose proof (dec_value_nonneg value 0 ltac:(lia) ltac:(done)). lia.
Qed.
Lemma setOption_bounded o option value o' : bounded o -> setOption o option value = Ret o' -> bounded o'.
Proof.
  intros Hb H. unfold setOption in H.
  repeat match type of H with
  | (if ?b then _ else _) = _ => destruct b
  | mbind _ _ = Ret _ => let n := fresh "n" in let Hn := fresh "Hn" in apply exn_bind_ret in H as (n & Hn%number_range & H)
  end; simplify_eq; unfold bounded in *; cbn; lia.
Qed.
Lemma parseOptions_bounded args reportExists o :
  parseOptions args reportExists = Ret o -> bounded o /\ sc_samples o * sc_count o <= 1000000.
Proof.
  unfold parseOptions. intros H. apply exn_bind_ret in H as (o' & Hr & H). apply exn_bind_ret in H as (u & Hc & [= ->]). split.
  - assert (Hb : bounded Options_default) by (unfold bounded; cbn; lia). revert Hb Hr. clear. generalize Options_default.
    induction args as [args IH] using (induction_ltof1 _ (@length string)). unfold ltof in IH. intros o0 Hb H.
    destruct args as [|option [|value args]]; cbn [readOptions] in H; [by simplify_eq|done|].
    apply exn_bind_ret in H as (o1 & Hs & H). eapply (IH args); [cbn; lia|by eapply setOption_bounded|done].
  - unfold checkOptions in Hc. apply exn_bind_ret in Hc as (u1 & _ & Hc). apply exn_bind_ret in Hc as (u2 & Hr2%throw_if_ret & _).
    bool_split. lia.
Qed.

Fixpoint total {A} (f : A -> Z) (l : list A) : Z := match l with [] => 0 | x :: l => f x + total f l end.
Lemma sum64_total f l : sum64 f l = u64 (total f l).
Proof.
  unfold sum64. assert (forall n, foldl (fun n s => u64 (n + f s)) (u64 n) l = u64 (n + total f l)) as H; [|by apply (H 0)].
  induction l as [|x l IH]; intros n; cbn [foldl total]; [by rewrite Z.add_0_r|].
  assert (u64 (u64 n + f x) = u64 (n + f x)) as -> by (unfold u64; by rewrite Zplus_mod_idemp_l). rewrite IH. f_equal. lia.
Qed.

Lemma clients_watched o (clients : list (list MonitorUpdate * list (list MonitorUpdate))) done obs :
  exn_fold (fun done client => s ← watch o client.1; Ret (done ++ [s])) done clients = Ret obs ->
  exists more, obs = done ++ more /\ Forall2 (fun client s => watch o client.1 = Ret s) clients more.
Proof.
  revert done. induction clients as [|us clients IH]; intros done H; cbn [exn_fold] in H; [simplify_eq; exists []; by rewrite app_nil_r|].
  apply exn_bind_ret in H as (d1 & H1 & H). apply exn_bind_ret in H1 as (s & Hs & [= <-]).
  apply IH in H as (more & -> & Hm). exists (s :: more). rewrite <-app_assoc. split; [done|]. by constructor.
Qed.

(** After the last sample only repetitions of it are taken. *)
Definition same_samples (s s' : Observations) : Prop :=
  ob_last s' = ob_last s /\ ob_received s' = ob_received s /\ ob_latency s' = ob_latency s.
Lemma late_same o s events : ob_last s = sc_samples o -> sc_samples o <> 0 -> same_samples s (foldl (lateEvent o) s events).
Proof.
  intros Hl Hn. assert (Hone : forall us s, ob_last s = sc_samples o -> same_samples s (lateEvent o s us)).
  { clear s Hl events. induction us as [|u us IH]; intros s Hl; cbn [lateEvent]; [done|].
    destruct (observe o s u) as [s'|] eqn:E; [|done]. assert (same_samples s s') as (E1 & E2 & E3).
    { unfold observe in E. apply exn_bind_ret in E as ([id|] & _ & E); [|by simplify_eq]. destruct (Z.eqb_spec id 0) as [Hz|Hz].
      { apply exn_bind_ret in E as (u1 & H1%throw_if_ret & [= <-]). done. }
      apply exn_bind_ret in E as (u1 & Hr%throw_if_ret & E). apply exn_bind_ret in E as (u2 & _ & E). bool_split.
      destruct (up_publishes u); cbn [negb] in E; [|apply exn_bind_ret in E as (u3 & _ & [= <-]); done].
      destruct (Z.eqb_spec id (ob_last s)); [by injection E as <-|lia]. }
    destruct (IH s' ltac:(congruence)) as (F1 & F2 & F3). split_and!; congruence. }
  revert s Hl. induction events as [|us events IH]; intros s Hl; cbn [foldl]; [done|].
  destruct (Hone us s Hl) as (E1 & E2 & E3). destruct (IH (lateEvent o s us) ltac:(congruence)) as (F1 & F2 & F3). split_and!; congruence.
Qed.

(** The totals over the clients, from what each saw. *)
Definition seen_total (o : Options) (clients : list (list MonitorUpdate * list (list MonitorUpdate))) : Z :=
  total (fun client => Z.of_nat (size (distinct (seen o client.1)))) clients.
Definition missed_total (o : Options) (clients : list (list MonitorUpdate * list (list MonitorUpdate))) : Z :=
  total (fun client => Z.of_nat (size (expected o ∖ distinct (seen o client.1)))) clients.

Lemma totals o clients obs :
  0 < sc_samples o < 2 ^ 32 -> Forall2 (fun client s => watch o client.1 = Ret s /\ ob_last s = sc_samples o) clients obs ->
  let final := zip_with (fun s client => foldl (lateEvent o) s client.2) obs clients in
  total ob_received final = seen_total o clients /\ 0 <= seen_total o clients /\ 0 <= missed_total o clients /\
  seen_total o clients + missed_total o clients = sc_samples o * Z.of_nat (length clients) /\
  Z.of_nat (length (concat (map ob_latency final))) = seen_total o clients.
Proof.
  intros Hs. unfold seen_total, missed_total. assert (Hb : 0 <= sc_samples o < 2 ^ 32) by lia. cbv zeta.
  induction 1 as [|client s clients obs [Hw Hl] _ (IH1 & IH2 & IH3 & IH4 & IH5)]; cbn [total map concat length zip_with]; [lia|].
  destruct (watch_counts o Hb client.1 s Hw) as [H1 H2 H3 H4 H5 H6].
  destruct (late_same o s client.2 Hl ltac:(lia)) as (_ & L2 & L3). rewrite L2, L3.
  assert (Hsub : distinct (seen o client.1) ⊆ expected o)
    by (intros x Hx; apply expected_elem; unfold distinct in Hx; apply elem_of_list_to_set, H2 in Hx; lia).
  pose proof (distinct_missing o Hb _ Hsub). rewrite length_app. lia.
Qed.

(** A report tells the truth.  When a measurement reports, with options it accepts
    and whatever the monitors were shown, then and later: the updates received are
    the distinct samples each client saw, with one latency for each; the missed
    updates are the samples that a client never saw, counted without wrapping; and
    every client saw its samples in order and the last one. *)
Theorem capacity_report_true args reportExists o clients r :
  parseOptions args reportExists = Ret o -> Z.of_nat (length clients) = sc_count o -> report o clients = Ret r ->
  rp_received r = seen_total o clients /\ rp_missed r = missed_total o clients /\
  Z.of_nat (length (rp_latency r)) = rp_received r /\
  Forall (fun client => StronglySorted Z.le (seen o client.1) /\ last (seen o client.1) = Some (sc_samples o)) clients.
Proof.
  intros Ho Hlen Hr. apply parseOptions_bounded in Ho as [[Hs _] Hmax]. assert (Hb : 0 <= sc_samples o < 2 ^ 32) by lia.
  unfold report in Hr. apply exn_bind_ret in Hr as (obs & Hf & Hr). apply clients_watched in Hf as (more & -> & Hw). cbn [app] in Hr.
  apply exn_bind_ret in Hr as (u1 & Hall%throw_if_ret & Hr). apply exn_bind_ret in Hr as (u2 & _ & [= <-]).
  assert (Hwl : Forall2 (fun client s => watch o client.1 = Ret s /\ ob_last s = sc_samples o) clients more).
  { apply negb_false_iff in Hall. rewrite forallb_forall in Hall. clear - Hw Hall. induction Hw as [|c s clients obs H1 _ IH]; [constructor|].
    constructor; [|apply IH; intros x Hx; apply Hall; by right]. split; [done|]. apply Z.eqb_eq. apply (Hall s). by left. }
  destruct (totals o clients more ltac:(lia) Hwl) as (T1 & T2 & T3 & T4 & T5). rewrite Hlen in T4. cbn [rp_received rp_missed rp_latency].
  assert (Hrec : sum64 ob_received (zip_with (fun s client => foldl (lateEvent o) s client.2) more clients) = seen_total o clients)
    by (rewrite sum64_total, T1; apply u64_id; lia).
  rewrite Hrec. split_and!; [done| |done|].
  - rewrite (u64_id (sc_samples o * sc_count o)) by lia. rewrite u64_id; lia.
  - clear - Hwl Hb Hs. induction Hwl as [|c s clients obs [H1 Hl] _ IH]; [constructor|]. constructor; [|done].
    destruct (watch_counts o Hb c.1 s H1) as [W1 _ _ W4 _ _]. split; [done|]. rewrite Hl in W1.
    destruct (last (seen o c.1)); cbn in W1; [by subst|lia].
Qed.

(** Two clients and three samples: the second one is never shown sample 2. *)
Module CapacityDemo.
Definition args : list string :=
  ["--redis-port"; "6379"; "--base-key"; "cap"; "--pv"; "CAP:A"; "--pva-address"; "127.0.0.1"; "--output"; "out.json";
   "--samples"; "3"; "--clients"; "2"].
Definition options : Options :=
  Options_default <| sc_port := 6379 |> <| sc_base := "cap" |> <| sc_pv := "CAP:A" |> <| sc_address := "127.0.0.1" |>
    <| sc_output := "out.json" |> <| sc_samples := 3 |> <| sc_count := 2 |>.
Definition shown (id : Z) (publishes : bool) : MonitorUpdate :=
  {| up_scalar := true; up_array := false; up_data := [id]; up_severity := 0; up_publishes := publishes;
     up_arrived := 10 * id + 2; up_sent := fun id => Some (10 * id) |}.
Definition clients : list (list MonitorUpdate * list (list MonitorUpdate)) :=
  [([shown 0 true; shown 1 true; shown 1 false; shown 2 true; shown 2 true; shown 3 true], [[shown 3 false]; [shown 2 true]]);
   ([shown 0 true; shown 1 true; shown 3 true], [])].
Definition result : Report :=
  {| rp_received := 5; rp_missed := 1; rp_duplicates := 1; rp_metadataOnly := 2; rp_latency := [2; 2; 2; 2; 2] |}.

Lemma capacity_report_true_witness :
  parseOptions args false = Ret options /\ report options clients = Ret result /\ missed_total options clients = 1.
Proof.
  assert (Ho : parseOptions args false = Ret options) by (vm_compute; reflexivity).
  assert (Hr : report options clients = Ret result) by (vm_compute; reflexivity).
  destruct (capacity_report_true args false options clients result Ho eq_refl Hr) as (_ & Hm & _).
  split; [exact Ho|]. split; [exact Hr|]. symmetry. exact Hm.
Defined.
End CapacityDemo.
